(* ===== verification/_CoqProject ===== *)
-Q . S2P
Prelude.v
AttrToken.v
Json.v
GoText.v
Lexemes.v
Condition.v
PolicyTree.v
Dump.v
ConditionParser.v
Encoding.v
Digits.v
JsonFields.v
GoCase.v
JsonText.v
GoQuote.v
Decimal.v
Double.v
Value.v
Budget.v
JaywayText.v
PathTokens.v
JavaPattern.v
Filter.v
JsonPath.v
Selection.v
PathKeys.v
TenantExport.v
ExactFilter.v
TenantState.v
TenantBuild.v
TenantTrees.v
Keys.v
Verify.v
Namespaces.v
Outbound.v
Writer.v
Transport.v
Authn.v
M2m.v
AnyValue.v
RegoValues.v
LegacyValue.v
NumberKeys.v
LegacyKeys.v
Legacy.v
LegacyResponse.v
Engine.v
SimplifiedParser.v
SimplifiedPrint.v
PipPath.v
Pips.v
Acconfig.v
AcconfigPips.v
AcconfigJson.v
Normalize.v
PipActivation.v
Pull.v
AgentServer.v
AgentConfig.v
AgentProcess.v
PolicyAdmin.v
PolicyExport.v
PipExport.v
PolicyStore.v
StoreDisk.v
AdminUpload.v
