(* ===== verification/Prelude.v ===== *)
(** * Verification of the qubership authorization agent

    A development that models the decision-independent core of the service under [src/]:
    the policy languages and their trees, the reader of exports, the trust in tokens in both
    directions, and the path of a policy from the administration stub to the document the
    agent decides on. This file documents the whole and holds the shared prelude.

    ** The program and the files that model it

    - [internal/policyir] is the intermediate representation of a tenant's policies.
      [AttrToken.v] models [token.go], the lexer's longest attribute token; [Lexemes.v] the
      regular expressions of [parse.go] and [operand.go]; [Condition.v] [operand.go] and
      [cond.go], the data of a condition with its constructors; [PolicyTree.v] [tree.go] and
      [unsupported.go], the tree, the checks of [NewTree] and the findings of [Unsupported];
      [Dump.v] [dump.go]; [ConditionParser.v] [parse.go]. The parser calls the constructors
      of [Condition.v] and the scanner of [AttrToken.v]; the tree calls the checks of
      [Condition.v] again on every condition it holds. The JSON path compiler the parser and
      the constructors ask is the class [Condition.PathCompiler], of which [path_compiler] in
      [PathKeys.v] is the one of the service.
    - [internal/jsonpath] selects parts of a document. [JaywayText.v] models [jaywaytext.go]
      with UTF-16; [PathTokens.v] the regular expression that cuts a path; [JavaPattern.v] and
      [Filter.v] [filter.go]; [JsonPath.v] [jsonpath.go], whose [Select] spends from the budget
      of [Budget.v] ([budget.go]). [Selection.v] compares it with a selection without a budget,
      [PathKeys.v] shows what [Compile] reads. The engine that runs a rewritten pattern is the
      class [RegexpEngine]. The values and their numbers are [internal/jsonvalue]: [Value.v]
      models [value.go], [Decimal.v] [decimal.go] and [bigdecimaltext.go], and [Double.v]
      [double.go] over the [float64] of [SpecFloat]. [RegoValues.v] models [FromASTKnown] with
      [internal/regobuiltins/builtins.go], the terms a document becomes for the policy library
      and the values its functions read back, over values of the library as data.
    - [internal/policyir/export.go] reads the access-control export into a tree per tenant.
      [TenantExport.v] is the whole of [FromRegular]: the filter by exact keys, the decoding of
      the elements, the loops over them with the state of every tenant, the builder of sets, and
      the readers of simplified sets and information points. [TenantState.v] shows that the
      state of a tenant depends on its own elements only, [TenantBuild.v] what the builders
      return, and [TenantTrees.v] what the trees hold. Its filter works on the JSON value;
      [ExactFilter.v] models the one of the code, which walks the bytes with a table of the ends
      of containers, and shows that it refines the former. It calls the parser of
      [ConditionParser.v] for each condition and [NewTree] of [PolicyTree.v] for each tenant.
    - [internal/token/keys] and [internal/token/verify] decide which tokens are trusted.
      [Keys.v] models [config.go], [fetch.go] and [keys.go]; [Verify.v] models [verify.go],
      [claims.go] and [cache.go], and finds keys through a function, as [KeyFinder] does, of
      which [Keys.Lookup] is the one the service passes. The libraries they call are classes
      with their documented laws: [JwkLib] and [JwkLaws], [UrlParser], [Jws], [Digest],
      [Lru] and [LruLaws]; each has an instance in the examples.
    - [internal/token/namespaces] decides which namespaces tokens may come from:
      [Namespaces.v] models the topology file, the allow list over its reads, and [Admit],
      which [Verify] runs on every token. [internal/token/outbound] keeps the agent's own
      token: [Outbound.v] models the request, the answer and the lifetimes of [writer.go],
      [Writer.v] its loop and [Renew] as a labelled step relation over the clock, and
      [Transport.v] the token file and the transport that adds the token ([file.go],
      [transport.go]).
    - [components/authz-policy-admin] keeps uploads and exports them. [PolicyAdmin.v] models
      the conversion to the export format of [convert.go], [PipExport.v] its information points,
      [PolicyStore.v] the store and the handlers of [store.go] and [handlers.go], and
      [StoreDisk.v] the file system calls under the store, any of which may fail or be the last. The item types, their JSON and their hash are
      the class [Codec], with the law [StateFile] on the state file; [AdminUpload.v] is its
      instance for information points and the state file the stub writes, with the decoding of
      bodies.
    - [internal/acconfig] converts an export back for the agent: [Acconfig.v] models the
      targets, the role grammar and the policy sets of [convert.go], [AcconfigPips.v] its
      information points, and [AcconfigJson.v] the decoding of both responses into the structs
      of [types.go]. [PolicyExport.v] composes both conversions of policies, [PipExport.v] those of
      information points.
    - [internal/simplifiedpolicies] makes the document the agent decides on:
      [SimplifiedParser.v] models [parser.go], the condition language of simplified policies,
      and [Normalize.v] [normalize.go], whose [NormalizePolicies] takes what
      [Acconfig.ConvertPolicySets] returns, as a pull of the agent composes them.
      [SimplifiedPrint.v] writes conditions back for the round trip.
    - [internal/pips] validates and normalises information points: [PipPath.v] models the JSON
      path subset and the placeholders of [validate.go] and [contract.go], [Pips.v] the rest of
      them with [types.go], [normalize.go] and [entitlements.go], and [PipActivation.v]
      [activation.go], the index of the points the rules of a document mention.
    - The loops of the agent are in [components/authz-agent/internal]. [Pull.v] models [pull.go]
      and composes [AcconfigJson], [Normalize], [Pips] and [PipActivation] into the two
      documents of the store; [Authn.v] models [authn.go] and [realm.go], the keys the decisions
      verify tokens with; [M2m.v] models [m2m.go], the token the pull presents.
    - The agent answers the legacy access-control API. [Legacy.v] models the requests of
      [legacy.go] and the input of the policies, [LegacyResponse.v] its responses over the values
      of [AnyValue.v], which holds [mustJSON]; [Engine.v] models [engine.go] around the policy
      library, whose parser, compiler, evaluation, store and caches of built-in functions are
      parameters; [AgentServer.v] the
      handlers and routes of [server.go] and [public.go], which find the decision through the
      class [PolicyEngine], with the report of [main.go]; [AgentConfig.v] [config.go]; [AgentProcess.v] the rest of [main.go] with [policies/embed.go]:
      what is started, and the end of the two surfaces as interleaved steps. A request
      runs parser, input, decision and shape in [AgentServer.check].
    - [internal/legacyvalue] makes the records that generated policies compare:
      [LegacyValue.v] models [javatext.go] and [record.go], [NumberKeys.v] says what a number
      amounts to and shows that their keys go by it, and [LegacyKeys.v] what the records tell
      apart.
    - [Json.v], [JsonFields.v], [JsonText.v], [GoText.v], [GoQuote.v], [GoCase.v], [Digits.v] and [Encoding.v] model
      what these packages use of the Go standard library: [encoding/json] scanning, compacting,
      writing strings, and filling struct fields and slices, UTF-8, quoting, trimming and letter
      case, base64, JSON strings, integers and [float64] parsing. The tables of package unicode past
      ASCII are the classes [UnicodeTable], [NumberTable] and [CaseTable], the last with the laws
      [CaseLaws];
      the text of a [float64] is the class [FloatText], in JSON [JsonFloat], and the conversion
      of a [float64] no [int64] holds, which depends on the machine, the classes [Conversion] and
      [FloatToInt].

    ** Conventions

    A definition has the name of the Go function; a function that returns a value and an
    error returns a [result] whose error type lists the reasons, in the order in which the code
    checks them. A message's text is not modelled, its reason and the values it names
    are. A Go string is a [string], or its [bytes] inside a scanner; a pointer is an
    [option], a map a [gmap]; an [int] counter or a revision is a [Z] reduced by [int64] at
    each addition. State is passed explicitly: the checker of the tree is threaded as the code
    mutates it, the parser's position is an index, a store step takes the outcome of each file
    write, a fetch takes the answers of the network, and a verifier step takes the time, so a
    history of calls is a list. [Authn] numbers the things it asks the outside, and a [world]
    answers each number, so one question may get several answers. The writer's goroutines interleave: its step relation has a
    label for each thing they and the clock do, and the clock does not go back. Locks are not modelled: each call runs alone, as the mutexes
    make them.

    ** Limits

    The scanner of [encoding/json] refuses a text of more than [Json.maxNestingDepth] nested
    arrays and objects, and what is written within other arrays and objects has the fewer levels
    ([Json.fits]). The limit is part of the decoding of every body, of a raw field on the wire
    ([PipExport.wire_raw]), of the copy of a rule ([Normalize.cloneRule]), of the index of the
    points ([PipActivation.BuildActivationIndexFromPolicies]) and of the documents a pull stores
    ([Pull.load]). A text on the wire becomes valid UTF-8 ([JsonText.wire_text]).

    ** Fuel

    A loop that is not structural takes a number of turns. [AttrToken.scan] gets the length of
    the text and each turn moves; [operands] and [clauses] of [Acconfig.v] get the length and
    each turn consumes quotes; the loops of [ConditionParser.v] get the length of the
    text and each turn moves the position, which [ParseCondition_decides] turns into the
    statement that no text exhausts them; [Json.v] recurses on the length, and each value
    consumes a byte. [SimplifiedParser.v] counts the bytes left for [tokenize] and the tokens
    for [parseOr] and its chains, and [ParseCondition_typed] excludes the error that
    stands for running out. The scans of [PipPath.v] get the length of the text, and
    [templates_accepted] is an equivalence. A path has as many tokens as runes at most
    ([tokens_fuel]), and every turn of [parseFilter] reads shorter texts ([parseFilter_fuel]); a
    charge of the budget doubles the known weight of the document at each turn but the last
    ([charge_loop_spec]). [Decode] nests as deep as its text is long ([Decode_unbounded]).
    [Double.shortest] gets more digits than a [float64] has. The walks of [ExactFilter.v] get the
    length of the text, and [filter_exact_text] refutes that they stop early. [parseRoleExpression_grammar], [checkJSON_compact_texts] and
    [tokenLen_longest] are equivalences, so a scan that stopped early would refute them.

    ** What is shown

    - The condition language of the tree: the scan returns the longest token of its grammar
      ([tokenLen_longest]); constructors accept exactly what their comments describe
      ([NewCompare_admits], [NewNumber_accepts], [NewList_accepts]); the parser decides every
      text ([ParseCondition_decides]), and what it returns passes every check of the tree
      ([ParseCondition_fits]); the checks accept exactly the well-formed trees
      ([NewTree_accepts]), the findings are empty exactly for those that can be generated in
      full ([Unsupported_empty]), and the dump keeps one node per line ([Dump_lines]).
    - The reader of exports: tenants do not interfere ([tenants_apart]), a tree enforces only
      its tenant's own elements ([tree_enforces_own]) and leaves none out ([tree_complete],
      [export_partition]), a tenant fails only for its own elements ([failure_causes]), and
      only exact keys are read ([exact_keys]), also from the bytes ([filter_exact_text]).
    - The condition language of simplified policies: every text is decided, and what is
      returned is well typed ([ParseCondition_typed]); every such condition without floats can
      be written and is read back ([ParseCondition_written]).
    - Paths: [Select] is the selection without a budget while the work fits, and too large
      otherwise ([Select_exact]); it selects parts of the document, in linear size
      ([selected_parts]); numbers compare as rationals ([number_filter], [compare_exact]) and keep
      their value in their texts ([BigDecimalText_kept], [String_trip]); every key can be written
      ([key_path_read]).
    - Trust: a verified token stays sound through the cache and key rotation ([Verify_sound]),
      an algorithm is allowed only for a matching key ([Allows_spec]), reloads refine an
      abstract rule on the keys held ([Lookup_finds_held]), fetched keys are usable
      ([fetch_keys]), the signature is judged before any claim ([signature_refusal]), times
      are read exactly ([numericDate_whole]), configurations are as documented
      ([Validate_accepts]), and a guarded provider's token names a namespace of the last
      topology read ([guarded_namespace]).
    - The agent's own token: it goes to allowed hosts only ([token_goes_to_allowed]), requests
      are spaced ([renewals_spaced]) and never cease ([writer_keeps_asking]), and lifetimes do
      not overflow ([lifetime_and_pause]). The token of the pull is the one the decisions read
      ([token_stored]), its waits are bounded and renew it in its life ([waits]), and a watched
      file is followed ([file_followed]).
    - Information points: placeholders and paths are accepted by a grammar
      ([templates_accepted]), [Validate] accepts exactly the described lists
      ([pips_accepted]), which can then be called ([validated_pips]), the normalised document is
      exactly what its items give ([NormalizeItems_document]), the activation index is exact
      ([activation_exact]), and a headers text survives its conversion ([header_names]).
    - The agent's documents: a pull changes both documents or nothing, a refused second put
      apart ([pull_changes]), and they tell of one pull ([documents_agree]); the keys of the
      decisions are those that the addresses of the providers listed for signing
      ([published_keys]), health after the
      start is as documented ([bootstrap_healthy]), a reload is whole or nothing
      ([reload_whole]) and does nothing while the file stays ([unchanged_file]), a realm name is
      asked for once ([resolve_once]) and answers stay within their segment
      ([resolveIssuer_segment]).
    - The legacy API: a yes and every id of a response is one the policies decided for that
      resource ([yes_is_decided], [ids_are_decided]); bulk requests are accepted exactly as
      described ([bulk_operations_exact]), the second version as the first ([v2_as_v1]); clients
      read exactly what was granted ([operations_read], [filter_exact]); no token reaches the
      policies among the headers ([tokens_kept_out]), the order of a map shows nowhere
      ([Input_order]), and no decision makes a response panic ([never_panics]). Kept queries
      change no decision ([Eval_fresh]), queries name their documents ([Query_inj]), the agent is
      ready exactly when its providers are enough and a pull has succeeded or is turned off
      ([ready_is_loaded]), and intervals are bounded
      ([seconds_bounds]).
    - Operands: structure keys tell exactly the values that differ ([structure_exact]), which
      rests on quoted strings being told apart ([Quote_inj]) and on number keys going by the
      amounts ([number_key_same]), and the texts of a list are those
      of its elements ([list_texts]).
    - The policy library: a term of a document is read as the document was
      ([JSONOf_document]), a query's cache changes no answer ([read_all_exact]), and kept paths
      are the compiled ones ([CompilePath_exact]).
    - The process: every run of the two surfaces ends closed, and reports a failure exactly
      where there was one ([serve_ends]); the policies served are those embedded
      ([Modules_read]), and each loop runs where it is configured ([start_loops]).
    - Policies: what is uploaded is what the agent converts back, where the texts can be written
      in a target ([export_roundtrip]), the role
      grammar is exact ([parseRoleExpression_grammar]), an open policy never comes from a role
      restriction ([converted_without_roles]), nor does an open rule of the document
      ([open_rules_unrestricted]); the document is exactly what its policies add
      ([NormalizePolicies_document]), its index exactly what its rules mention
      ([refIndex_exact]), and its refusals the first invalid policy
      ([NormalizePolicies_refuses]); restarts restore the store ([restart_restores]), uploads
      are atomic in memory ([put_policies_atomic]) and, when they are killed, on disk
      ([killed_upload_whole]), points reach the agent as uploaded, unless one is nested too deep
      for the response ([uploads_arrive]), the state
      file keeps the law of the store ([admin_state_file]), hashes match what is served
      ([served_hash]).
    - Defects, stated as theorems: an upload answered 500 can come back
      ([rejected_upload_returns]), a restriction to one empty role is lost
      ([empty_role_lost]), so is a rule whose condition is nested too deep
      ([deep_condition_lost]), two calls of Renew at once can start two requests
      ([renewals_race]), integers of a condition past [2^53] are confused
      ([integers_confused], where [integers_kept] shows the bound), a quote after a backslash
      ends the string of a query ([Query_cut]), and seconds past a duration wrap around
      ([seconds_wrap]).

    ** What is not modelled

    The policy library, the web framework and the libraries of keys and signatures are parameters.
    Of [internal/pips], [Parse],
    [MarshalDocument] and the index over a file of policies are left out, as are [Normalize] and [decodePolicies] of [simplifiedpolicies], which no service
    calls, the start-up of the stub, HTTP plumbing, TLS set-up, log lines, the Rego policies and
    the OPA runtime, and the JSON form of the documents in the agent's store. The requests a
    surface is still handling when it shuts down are not followed: its five seconds are one
    step. *)
From stdpp Require Export base list strings gmap sorting numbers pretty.
From Stdlib Require Export Ascii ZArith Lia.

(** ** Results

    A Go function that returns [(value, error)] becomes a function into
    [result E A], where [E] is the inductive type of the reasons the component
    refuses with. *)
Inductive result (E A : Type) : Type :=
  | Ok (a : A)
  | Err (e : E).
Arguments Ok {E A} a.
Arguments Err {E A} e.

#[export] Instance result_ret {E} : MRet (result E) := λ A a, Ok a.
#[export] Instance result_bind {E} : MBind (result E) := λ A B f m,
  match m with Ok a => f a | Err e => Err e end.
#[export] Instance result_fmap {E} : FMap (result E) := λ A B f m,
  match m with Ok a => Ok (f a) | Err e => Err e end.

#[export] Instance result_eq_dec {E A} `{EqDecision E, EqDecision A} : EqDecision (result E A).
Proof. solve_decision. Defined.

(** [check b e] is the guard [if !b { return e }]. *)
Definition check {E} (b : bool) (e : E) : result E unit := if b then Ok tt else Err e.

(** The error of a step wrapped into that of its caller: [fmt.Errorf("...: %w", err)]. *)
Definition wrap {E F A} (f : E → F) (m : result E A) : result F A :=
  match m with
  | Ok a => Ok a
  | Err e => Err (f e)
  end.

Definition is_ok {E A} (m : result E A) : bool := match m with Ok _ => true | Err _ => false end.

(** The loop [for i, x := range l { if err := f(i, x, st); err != nil { return err } }]
    over a state [st] the iterations share. *)
Fixpoint loop {E St A} (f : nat → A → St → result E St) (i : nat) (l : list A) (st : St) : result E St :=
  match l with
  | [] => Ok st
  | x :: l => st ← f i x st; loop f (S i) l st
  end.

Section result.
Context {E A B : Type}.
Implicit Types (m : result E A) (f : A → result E B).

Lemma bind_Ok m f b : (m ≫= f) = Ok b ↔ ∃ a, m = Ok a ∧ f a = Ok b.
Proof. destruct m; simpl; split; [eauto|naive_solver|discriminate|naive_solver]. Qed.

Lemma bind_Err m f e :
  (m ≫= f) = Err e ↔ m = Err e ∨ ∃ a, m = Ok a ∧ f a = Err e.
Proof. destruct m; simpl; naive_solver. Qed.

Lemma fmap_Ok m (f : A → B) b : (f <$> m) = Ok b ↔ ∃ a, m = Ok a ∧ b = f a.
Proof. destruct m; simpl; naive_solver. Qed.

Lemma check_Ok b (e : E) u : check b e = Ok u ↔ b = true.
Proof. destruct b, u; simpl; naive_solver. Qed.

Lemma bind_unit_Ok (m : result E unit) (f : unit → result E B) b :
  (m ≫= f) = Ok b ↔ m = Ok tt ∧ f tt = Ok b.
Proof. destruct m as [[]|]; simpl; naive_solver. Qed.

Lemma wrap_Ok {F} (g : E → F) m a : wrap g m = Ok a ↔ m = Ok a.
Proof. destruct m; simpl; naive_solver. Qed.

Lemma is_ok_true m : is_ok m = true ↔ ∃ a, m = Ok a.
Proof. destruct m; simpl; naive_solver. Qed.
End result.

Lemma mapM_Ok {E A B} (f : A → result E B) l k : mapM f l = Ok k ↔ Forall2 (λ x y, f x = Ok y) l k.
Proof.
  revert k. induction l as [|x l IH]; intros k; cbn [mapM].
  - split; [intros [= <-]; constructor|by intros ->%Forall2_nil_inv_l].
  - split.
    + intros (y & Hy & (k' & Hk & [= <-])%bind_Ok)%bind_Ok. constructor; [done|by apply IH].
    + intros (y & k' & Hy & Hk & ->)%Forall2_cons_inv_l. apply IH in Hk. by rewrite Hy, Hk.
Qed.

(** What every success of [f] gives holds of every result of the list. *)
Lemma mapM_all {E A B} (f : A → result E B) (P : B → Prop) l k :
  mapM f l = Ok k → (∀ x y, x ∈ l → f x = Ok y → P y) → ∀ y, y ∈ k → P y.
Proof.
  intros H%mapM_Ok Hf y Hy. apply list_elem_of_lookup in Hy as [i Hi].
  destruct (Forall2_lookup_r _ _ _ _ _ H Hi) as (x & Hx & Hxy). eapply Hf; [|done]. by eapply list_elem_of_lookup_2.
Qed.

(** [result_inv] turns each hypothesis [m ≫= f = Ok b] into the two steps that
    succeeded, and each guard that passed into its condition. *)
Ltac result_inv :=
  repeat match goal with
  | H : mbind _ _ = Ok _ |- _ =>
      let a := fresh "a" in let H1 := fresh "Hstep" in let H2 := fresh "Hstep" in
      apply bind_Ok in H as (a & H1 & H2)
  | H : fmap _ _ = Ok _ |- _ =>
      let a := fresh "a" in let H1 := fresh "Hstep" in
      apply fmap_Ok in H as (a & H1 & ->)
  | H : check _ _ = Ok _ |- _ => apply check_Ok in H
  | H : Ok _ = Ok _ |- _ => injection H as H; try subst
  | H : Err _ = Ok _ |- _ => discriminate H
  | H : Ok _ = Err _ |- _ => discriminate H
  | u : unit |- _ => destruct u
  end.

(** A loop that shares no state succeeds when each turn does, and otherwise fails with
    the error of the first turn that fails. *)
Section loop.
Context {E A : Type} (f : nat → A → result E unit).

Lemma loop_Ok_from i l :
  loop (λ j a _, f j a) i l tt = Ok tt ↔ ∀ j a, l !! j = Some a → f (i + j) a = Ok tt.
Proof.
  revert i. induction l as [|x l IH]; intros i; simpl; [done|].
  destruct (f i x) as [[]|e] eqn:Ex; simpl.
  - rewrite IH. split.
    + intros H [|j] a; simpl; [intros [= <-]; by rewrite Nat.add_0_r|].
      intros Hj. rewrite Nat.add_succ_r. by apply H.
    + intros H j a Hj. rewrite Nat.add_succ_comm. by apply H.
  - split; [done|]. intros H. specialize (H 0 x eq_refl). rewrite Nat.add_0_r in H. congruence.
Qed.

Lemma loop_Err_from i l e :
  loop (λ j a _, f j a) i l tt = Err e ↔
  ∃ j a, l !! j = Some a ∧ f (i + j) a = Err e
         ∧ ∀ j' a', j' < j → l !! j' = Some a' → f (i + j') a' = Ok tt.
Proof.
  revert i. induction l as [|x l IH]; intros i; simpl; [split; [done|]; by intros (j & a & ? & _)|].
  destruct (f i x) as [[]|e'] eqn:Ex; simpl.
  - rewrite IH. split.
    + intros (j & a & Hj & He & H). exists (S j), a. rewrite Nat.add_succ_r. split_and!; [done..|].
      intros [|j'] a' Hlt; simpl; [intros [= <-]; by rewrite Nat.add_0_r|].
      rewrite Nat.add_succ_r. intros. apply (H j'); [lia|done].
    + intros ([|j] & a & Hj & He & H); simpl in Hj.
      * injection Hj as ->. rewrite Nat.add_0_r in He. congruence.
      * exists j, a. rewrite Nat.add_succ_r in He. split_and!; [done..|].
        intros j' a' Hlt Hj'. rewrite <-(H (S j') a'); [by rewrite Nat.add_succ_r|lia|done].
  - split.
    + intros [= <-]. exists 0, x. rewrite Nat.add_0_r. split_and!; [done..|]. intros; lia.
    + intros ([|j] & a & Hj & He & H); simpl in Hj.
      * injection Hj as ->. rewrite Nat.add_0_r in He. congruence.
      * specialize (H 0 x ltac:(lia) eq_refl). rewrite Nat.add_0_r in H. congruence.
Qed.

Lemma loop_Ok l : loop (λ j a _, f j a) 0 l tt = Ok tt ↔ ∀ j a, l !! j = Some a → f j a = Ok tt.
Proof. apply loop_Ok_from. Qed.

Lemma loop_Err l e :
  loop (λ j a _, f j a) 0 l tt = Err e ↔
  ∃ j a, l !! j = Some a ∧ f j a = Err e ∧ ∀ j' a', j' < j → l !! j' = Some a' → f j' a' = Ok tt.
Proof. apply loop_Err_from. Qed.
End loop.

Definition is_nil {A} (l : list A) : bool := match l with [] => true | _ => false end.
Definition is_some {A} (o : option A) : bool := match o with Some _ => true | None => false end.

(** [result_simp] splits each sequence of steps that succeeds into the conditions it
    checks. *)
Ltac result_simp :=
  repeat first [rewrite bind_unit_Ok; cbn beta | rewrite check_Ok | setoid_rewrite check_Ok].

Create HintDb results.
#[export] Hint Rewrite @bind_Ok @fmap_Ok @check_Ok : results.

(** A boolean equality test is the decision of the equality. *)
Definition eqb {A} `{EqDecision A} (x y : A) : bool := bool_decide (x = y).

Definition member {A} `{EqDecision A} (x : A) (l : list A) : bool := bool_decide (x ∈ l).

Lemma eqb_true {A} `{EqDecision A} (x y : A) : eqb x y = true ↔ x = y.
Proof. unfold eqb. apply bool_decide_eq_true. Qed.
Lemma eqb_false {A} `{EqDecision A} (x y : A) : eqb x y = false ↔ x ≠ y.
Proof. unfold eqb. apply bool_decide_eq_false. Qed.
Lemma eqb_refl {A} `{EqDecision A} (x : A) : eqb x x = true.
Proof. by apply eqb_true. Qed.
Lemma member_true {A} `{EqDecision A} (x : A) l : member x l = true ↔ x ∈ l.
Proof. unfold member. apply bool_decide_eq_true. Qed.
Lemma member_false {A} `{EqDecision A} (x : A) l : member x l = false ↔ x ∉ l.
Proof. unfold member. apply bool_decide_eq_false. Qed.

Create HintDb bools.
#[export] Hint Rewrite @eqb_true @eqb_false @member_true @member_false
  andb_true_iff orb_true_iff negb_true_iff andb_false_iff orb_false_iff negb_false_iff
  Z.ltb_lt Z.leb_le Z.ltb_ge Z.leb_gt Z.eqb_eq Z.eqb_neq
  N.ltb_lt N.leb_le N.ltb_ge N.leb_gt
  Nat.ltb_lt Nat.leb_le Nat.ltb_ge Nat.leb_gt Nat.eqb_eq Nat.eqb_neq : bools.

(** [bool_simp] states every boolean test of the context and the goal as the
    proposition it decides. *)
Ltac bool_simp := autorewrite with bools in *.

(** ** Bytes

    A Go string is a sequence of bytes. Names, keys, and whole values are
    [string]; code that indexes or slices a string works on its [bytes]. *)
Notation bytes := (list ascii).

Definition bytes_of (s : string) : bytes := String.list_ascii_of_string s.
Definition string_of (b : bytes) : string := String.string_of_list_ascii b.

Lemma string_of_bytes_of s : string_of (bytes_of s) = s.
Proof. apply String.string_of_list_ascii_of_string. Qed.
Lemma bytes_of_string_of b : bytes_of (string_of b) = b.
Proof. apply String.list_ascii_of_string_of_list_ascii. Qed.
Lemma bytes_of_app s t : bytes_of (s +:+ t) = bytes_of s ++ bytes_of t.
Proof. induction s as [|c s IH]; [done|]. exact (f_equal (cons c) IH). Qed.
Lemma string_of_app b c : string_of (b ++ c) = string_of b +:+ string_of c.
Proof. induction b as [|x b IH]; [done|]. exact (f_equal (String x) IH). Qed.
#[export] Instance bytes_of_inj : Inj (=) (=) bytes_of.
Proof. intros s t H. by rewrite <-(string_of_bytes_of s), H, string_of_bytes_of. Qed.
#[export] Instance string_of_inj : Inj (=) (=) string_of.
Proof. intros s t H. by rewrite <-(bytes_of_string_of s), H, bytes_of_string_of. Qed.

#[export] Hint Rewrite string_of_bytes_of bytes_of_string_of bytes_of_app : bytes.

Definition is_empty (s : string) : bool := eqb s EmptyString.
Lemma is_empty_true s : is_empty s = true ↔ s = EmptyString.
Proof. apply eqb_true. Qed.
Lemma is_empty_false s : is_empty s = false ↔ s ≠ EmptyString.
Proof. apply eqb_false. Qed.
Lemma is_nil_true {A} (l : list A) : is_nil l = true ↔ l = [].
Proof. by destruct l. Qed.
Lemma is_nil_false {A} (l : list A) : is_nil l = false ↔ l ≠ [].
Proof. by destruct l. Qed.

(** [within lo c hi] is [c >= lo && c <= hi]. *)
Definition within (lo c hi : ascii) : bool :=
  ((N_of_ascii lo <=? N_of_ascii c) && (N_of_ascii c <=? N_of_ascii hi))%N.

Definition is_letter (c : ascii) : bool := within "A" c "Z" || within "a" c "z".
Definition is_digit (c : ascii) : bool := within "0" c "9".

(** Induction on the length, for functions that may skip elements. *)
Lemma length_ind {A} (P : list A → Prop) :
  (∀ l, (∀ l', length l' < length l → P l') → P l) → ∀ l, P l.
Proof. exact (well_founded_induction (well_founded_ltof _ length) P). Qed.

(** The longest prefix of bytes [p] holds for, and what follows it. *)
Fixpoint span {A} (p : A → bool) (l : list A) : list A * list A :=
  match l with
  | [] => ([], [])
  | x :: l' => if p x then let '(a, b) := span p l' in (x :: a, b) else ([], l)
  end.

Definition drop_while {A} (p : A → bool) (l : list A) : list A := (span p l).2.
Definition take_while {A} (p : A → bool) (l : list A) : list A := (span p l).1.
(** [drop_while_end p l] is [l] without its longest suffix of elements [p] holds for. *)
Definition drop_while_end {A} (p : A → bool) (l : list A) : list A :=
  reverse (drop_while p (reverse l)).
Definition all {A} (p : A → bool) (l : list A) : bool := forallb p l.

Section span.
Context {A : Type} (p : A → bool).
Implicit Types l a b : list A.

Lemma span_app l a b : span p l = (a, b) → l = a ++ b.
Proof.
  revert a b. induction l as [|x l IH]; intros a b; simpl; [naive_solver|].
  destruct (p x); [|naive_solver].
  destruct (span p l) as [a' b'] eqn:E. intros [= <- <-]. simpl. f_equal. by apply IH.
Qed.

Lemma span_all l a b : span p l = (a, b) → Forall (λ x, p x = true) a.
Proof.
  revert a b. induction l as [|x l IH]; intros a b; simpl; [naive_solver|].
  destruct (p x) eqn:Ex; [|naive_solver].
  destruct (span p l) as [a' b'] eqn:E. intros [= <- <-]. constructor; eauto.
Qed.

Lemma span_head l a b : span p l = (a, b) → ∀ x, head b = Some x → p x = false.
Proof.
  revert a b. induction l as [|y l IH]; intros a b; simpl; [naive_solver|].
  destruct (p y) eqn:Ey; [|naive_solver].
  destruct (span p l) as [a' b'] eqn:E. intros [= <- <-]. eauto.
Qed.

Lemma span_spec a b :
  Forall (λ x, p x = true) a → (∀ x, head b = Some x → p x = false) → span p (a ++ b) = (a, b).
Proof.
  intros Ha Hb. induction Ha as [|x a Hx Ha IH]; simpl.
  - destruct b as [|y b]; [done|]. simpl. by rewrite (Hb y eq_refl).
  - by rewrite Hx, IH.
Qed.

Lemma all_Forall l : all p l = true ↔ Forall (λ x, p x = true) l.
Proof. unfold all. rewrite forallb_forall, Forall_forall. by setoid_rewrite list_elem_of_In. Qed.

Lemma take_while_all l : Forall (λ x, p x = true) (take_while p l).
Proof. unfold take_while. destruct (span p l) as [a b] eqn:E. by eapply span_all. Qed.

Lemma take_drop_while l : take_while p l ++ drop_while p l = l.
Proof. unfold take_while, drop_while. destruct (span p l) as [a b] eqn:E. by rewrite (span_app _ _ _ E). Qed.

Lemma drop_take_while l : drop (length (take_while p l)) l = drop_while p l.
Proof.
  transitivity (drop (length (take_while p l)) (take_while p l ++ drop_while p l)).
  - by rewrite take_drop_while.
  - apply drop_app_length.
Qed.

Lemma drop_while_head l x : head (drop_while p l) = Some x → p x = false.
Proof. unfold drop_while. destruct (span p l) as [a b] eqn:E. by eapply span_head. Qed.
End span.

(** ** Text without control characters *)

Definition clean (b : bytes) : Prop := Forall (λ c, (32 ≤ N_of_ascii c)%N) b.

Lemma clean_by b : forallb (λ c, (32 <=? N_of_ascii c)%N) b = true → clean b.
Proof.
  intros H. apply Forall_forall. intros c Hc. rewrite forallb_forall in H.
  specialize (H c ltac:(by apply list_elem_of_In)). by apply N.leb_le in H.
Qed.
Lemma clean_nil : clean [].
Proof. by constructor. Qed.
Lemma clean_cons c b : clean (c :: b) ↔ (32 ≤ N_of_ascii c)%N ∧ clean b.
Proof. unfold clean. by rewrite Forall_cons. Qed.
Lemma clean_app a b : clean (a ++ b) ↔ clean a ∧ clean b.
Proof. unfold clean. by rewrite Forall_app. Qed.
Lemma clean_digits b : Forall (λ c, is_digit c = true) b → clean b.
Proof.
  intros H. eapply Forall_impl; [exact H|]. intros c. cbn beta. unfold is_digit, within.
  rewrite andb_true_iff, !N.leb_le. change (N_of_ascii "0") with 48%N. lia.
Qed.
Lemma clean_not_in c b : clean b → (N_of_ascii c < 32)%N → c ∉ b.
Proof. unfold clean. rewrite Forall_forall. intros H Hc Hin. specialize (H c Hin). cbn beta in H. lia. Qed.

(** [clean_tac] proves a text of literals and texts known to be clean to be clean. *)
Ltac clean_tac :=
  repeat first
    [ assumption | match goal with |- _ ∧ _ => split end | apply clean_nil | (apply clean_by; reflexivity)
    | rewrite bytes_of_app | rewrite clean_app | rewrite clean_cons | done ].

(** ** Decimal text *)

Lemma pretty_N_char_digit x : is_digit (pretty_N_char x) = true.
Proof. unfold pretty_N_char. by repeat case_match. Qed.

Lemma pretty_N_go_digits x s :
  Forall (λ c, is_digit c = true) (bytes_of s) → Forall (λ c, is_digit c = true) (bytes_of (pretty_N_go x s)).
Proof.
  revert s. induction (N.lt_wf_0 x) as [x _ IH]; intros s Hs.
  destruct (decide (x = 0)%N) as [->|]; [done|].
  rewrite pretty_N_go_step by lia. apply IH; [by apply N.div_lt; lia|].
  change (Forall (λ c, is_digit c = true) (pretty_N_char (x mod 10) :: bytes_of s)).
  constructor; [apply pretty_N_char_digit|done].
Qed.

Lemma pretty_N_go_cons x s : bytes_of s ≠ [] → bytes_of (pretty_N_go x s) ≠ [].
Proof.
  revert s. induction (N.lt_wf_0 x) as [x _ IH]; intros s Hs.
  destruct (decide (x = 0)%N) as [->|]; [done|].
  rewrite pretty_N_go_step by lia. by apply IH; [apply N.div_lt; lia|].
Qed.

(** The decimal text of a number: digits, one at least. *)
Lemma pretty_digits (n : nat) :
  bytes_of (pretty n) ≠ [] ∧ Forall (λ c, is_digit c = true) (bytes_of (pretty n)).
Proof.
  change (pretty n) with (pretty (N.of_nat n)). unfold pretty, pretty_N. case_decide as Hn.
  - split; [done|]. by constructor.
  - split; [|by apply pretty_N_go_digits]. rewrite pretty_N_go_step by lia. by apply pretty_N_go_cons.
Qed.

(** ** Machine integers *)

(** The value a Go [int64] holds after an operation whose exact result is [z]. *)
Definition int64 (z : Z) : Z := (z + 2 ^ 63) mod 2 ^ 64 - 2 ^ 63.

Definition in_int64 (z : Z) : Prop := (- 2 ^ 63 ≤ z < 2 ^ 63)%Z.

Lemma int64_id z : in_int64 z → int64 z = z.
Proof. unfold int64, in_int64. intros H. rewrite Z.mod_small; lia. Qed.

(** Two integers an [int64] operation does not tell apart. *)
Definition eq64 (a b : Z) : Prop := (a mod 2 ^ 64 = b mod 2 ^ 64)%Z.

#[export] Instance eq64_equiv : Equivalence eq64.
Proof. unfold eq64. split; [done|by intros ???|]. intros a b c H1 H2. congruence. Qed.

#[export] Instance eq64_add : Proper (eq64 ==> eq64 ==> eq64) Z.add.
Proof. intros a b H c d H'. unfold eq64 in *. by rewrite Z.add_mod, H, H', <-Z.add_mod by lia. Qed.

#[export] Instance eq64_sub : Proper (eq64 ==> eq64 ==> eq64) Z.sub.
Proof. intros a b H c d H'. unfold eq64 in *. by rewrite Zminus_mod, H, H', <-Zminus_mod. Qed.

#[export] Instance eq64_int64 : Proper (eq64 ==> eq) int64.
Proof.
  intros a b H. unfold int64. apply (f_equal (λ z, (z - 2 ^ 63)%Z)).
  assert (eq64 (a + 2 ^ 63) (b + 2 ^ 63)) as E by by rewrite H. exact E.
Qed.

Lemma int64_eq64 z : eq64 (int64 z) z.
Proof.
  unfold eq64, int64. rewrite Zminus_mod, Z.mod_mod, <-Zminus_mod by lia. f_equal. lia.
Qed.

Lemma int64_range z : in_int64 (int64 z).
Proof. unfold int64, in_int64. pose proof (Z.mod_pos_bound (z + 2 ^ 63) (2 ^ 64)). lia. Qed.
