(* ===== verification/AttrToken.v ===== *)
(** * The attribute token of the legacy lexer ([internal/policyir/token.go])

    [attrScanner] finds, at any position of a text, the longest token of the
    legacy lexer's attribute rule, from two tables built in one pass from the end
    of the text. The grammar of the rule is stated here on its own
    ([is_token]), and [tokenLen_longest] shows that the table-driven scan
    returns exactly the longest prefix of that grammar. *)
From S2P Require Import Prelude.

Module AttrToken.

Definition isNameStart (c : ascii) : bool := within "A" c "Z" || within "a" c "z" || eqb c "_"%char.

(** The JSONPath characters an attribute token holds besides letters, digits, and '_'. *)
Definition attrPunctuation : bytes := bytes_of "$@,:?*(=)-.~></&|!'".

Definition isAttrChar (c : ascii) : bool :=
  if isNameStart c || within "0" c "9" then true else member c attrPunctuation.

Definition wildcardPunctuation : bytes := bytes_of "./%?()=#*:-".

Definition isWildcardChar (c : ascii) : bool :=
  if isNameStart c || within "0" c "9" then true else member c wildcardPunctuation.

Fixpoint wildcardLen (s : bytes) : nat :=
  match s with
  | [] => 0
  | c :: s => if isWildcardChar c then S (wildcardLen s) else 0
  end.

(** An attribute character or a space: what a run holds. *)
Definition isRunChar (c : ascii) : bool := isAttrChar c || eqb c " "%char.

(** [openEnd] holds [None] where the code holds -1. *)
Record attrScanner := AttrScanner {
  text : bytes;
  runEnd : list nat;
  openEnd : list (option nat);
}.

(** The entries of [runEnd] from index [j] on, for the text [s] from [j] on. *)
Fixpoint runEnds (j : nat) (s : bytes) : list nat :=
  match s with
  | [] => [j]
  | c :: s' =>
      let later := runEnds (S j) s' in
      (if isRunChar c then default j (head later) else j) :: later
  end.

(** The entries of [openEnd] from index [j] on; [run] are those of [runEnd]. *)
Fixpoint openEnds (j : nat) (s : bytes) (run : list nat) : list (option nat) :=
  match s with
  | [] => [None]
  | _ :: s' =>
      let later := openEnds (S j) s' (tail run) in
      let k := default j (head run) in
      (match s !! (k - j) with
       | None => None
       | Some c =>
           if eqb c "["%char then mjoin (later !! (k - j))
           else if eqb c "]"%char && (j <? k)%nat then Some (k + 1)
           else None
       end) :: later
  end.

Definition newAttrScanner (s : bytes) : attrScanner :=
  let run := runEnds 0 s in AttrScanner s run (openEnds 0 s run).

(** The position after the attribute characters that start at [j]. *)
Definition attrEnd (s : bytes) (j : nat) : nat := j + length (take_while isAttrChar (drop j s)).

(** One turn of the loop of [tokenLen] at [j] with the last boundary [seg]:
    where the token continues, or [None] where it ends at [attrEnd s j]. *)
Definition next (a : attrScanner) (j seg : nat) : option nat :=
  match text a !! j with
  | None => None
  | Some c =>
      if eqb c " "%char then
        match runEnd a !! j with
        | Some k => if eqb (text a !! k) (Some "]"%char) then Some (k + 1) else None
        | None => None
        end
      else if eqb c "["%char then mjoin (openEnd a !! (j + 1))
      else if eqb c "]"%char then if (seg <? j)%nat then Some (j + 1) else None
      else None
  end.

Fixpoint scan (fuel : nat) (a : attrScanner) (j seg : nat) : nat :=
  let j := attrEnd (text a) j in
  match fuel with
  | 0 => j
  | S fuel =>
      match next a j seg with
      | None => j
      | Some j' => scan fuel a j' j'
      end
  end.

Definition tokenLen (a : attrScanner) (i : nat) : nat :=
  match text a !! i with
  | None => 0
  | Some c =>
      if isNameStart c then scan (length (text a)) a (i + 1) (i + 1) - i else 0
  end.

(** ** The grammar *)

Definition Run (x : bytes) : Prop := Forall (λ c, isRunChar c = true) x.
Definition Attrs (x : bytes) : Prop := Forall (λ c, isAttrChar c = true) x.

(** What follows a '[' up to the ']' that closes it: runs separated by '[', the last
    one not empty. *)
Inductive opened : bytes → Prop :=
  | opened_close x : x ≠ [] → Run x → opened (x ++ ["]"%char])
  | opened_more x q : Run x → opened q → opened (x ++ "["%char :: q).

(** A part that ends in ']': a run, or attribute characters and an opened bracket. *)
Inductive part : bytes → Prop :=
  | part_run x : x ≠ [] → Run x → part (x ++ ["]"%char])
  | part_open x q : Attrs x → opened q → part (x ++ "["%char :: q).

Inductive token_tail : bytes → Prop :=
  | tail_attrs x : Attrs x → token_tail x
  | tail_part p t : part p → token_tail t → token_tail (p ++ t).

Inductive is_token : bytes → Prop :=
  | token_name c t : isNameStart c = true → token_tail t → is_token (c :: t).

(** [n] is the length of the longest prefix of [r] in the language [P], or 0. *)
Definition longest (P : bytes → Prop) (r : bytes) (n : nat) : Prop :=
  n ≤ length r ∧ (n = 0 ∨ P (take n r)) ∧ ∀ m, m ≤ length r → P (take m r) → m ≤ n.

(** ** The tables *)

Lemma attr_run c : isAttrChar c = true → isRunChar c = true.
Proof. unfold isRunChar. intros ->. done. Qed.

Lemma Attrs_Run x : Attrs x → Run x.
Proof. intros H. exact (Forall_impl _ _ _ H attr_run). Qed.

(** A run is maximal when the character after it belongs to no run. *)
Lemma run_split (p : ascii → bool) x y c r r' :
  Forall (λ d, p d = true) x → Forall (λ d, p d = true) y → p c = false →
  (∀ d, head r' = Some d → p d = false) →
  x ++ c :: r = y ++ r' → x = y ∧ r' = c :: r.
Proof.
  intros Hx Hy Hc Hr E.
  pose proof (span_spec p x (c :: r) Hx ltac:(simpl; congruence)) as E1.
  rewrite E, (span_spec p y r' Hy Hr) in E1. by injection E1 as -> ->.
Qed.

Lemma isRunChar_open : isRunChar "["%char = false.
Proof. done. Qed.
Lemma isRunChar_close : isRunChar "]"%char = false.
Proof. done. Qed.
#[local] Hint Resolve isRunChar_open isRunChar_close : core.

Lemma runEnds_length j s : length (runEnds j s) = S (length s).
Proof. revert j. induction s; intros j; simpl; auto. Qed.

Lemma runEnds_head j s :
  head (runEnds j s) = Some (j + length (take_while isRunChar s)).
Proof.
  revert j. induction s as [|c s IH]; intros j; simpl; [f_equal; lia|].
  rewrite IH. simpl. unfold take_while. simpl.
  destruct (isRunChar c); simpl; [|f_equal; lia].
  destruct (span isRunChar s); simpl. f_equal. lia.
Qed.

Lemma runEnds_lookup j s i :
  i ≤ length s →
  runEnds j s !! i = Some (j + i + length (take_while isRunChar (drop i s))).
Proof.
  revert j i. induction s as [|c s IH]; intros j [|i] Hi; simpl in Hi; try lia.
  - simpl. f_equal. lia.
  - change (runEnds j (c :: s) !! 0) with (head (runEnds j (c :: s))).
    rewrite runEnds_head, drop_0. f_equal. lia.
  - simpl. rewrite IH by lia. f_equal. lia.
Qed.

(** [o] is where the prefix in the language [P] of the text [r], which starts at
    [base], ends, or [None] where [r] has no such prefix. *)
Definition begins (P : bytes → Prop) (base : nat) (r : bytes) (o : option nat) : Prop :=
  match o with
  | Some e => ∃ q rest, P q ∧ r = q ++ rest ∧ e = base + length q
  | None => ∀ q rest, P q → r ≠ q ++ rest
  end.

(** The run at the start of [r] and the character after it decide how [r] opens. *)
Lemma opens_at_close base x r :
  Run x → begins opened base (x ++ "]"%char :: r) (if bool_decide (x = []) then None else Some (base + length x + 1)).
Proof.
  intros Hx. case_bool_decide as Hnil; simpl.
  - subst x. intros q rest Hq E. destruct Hq as [y Hne Hy|y q Hy Hq]; rewrite <-app_assoc in E.
    + eapply (run_split isRunChar [] y) in E as [<- _]; [done|constructor|done|done|by intros d [= <-]].
    + eapply (run_split isRunChar [] y) in E as [_ E]; [discriminate E|constructor|done|done|by intros d [= <-]].
  - exists (x ++ ["]"%char]), r. split_and!; [by constructor|by rewrite <-app_assoc|].
    rewrite length_app. simpl. lia.
Qed.

Lemma opens_at_more base x r o :
  Run x → begins opened (base + length x + 1) r o → begins opened base (x ++ "["%char :: r) o.
Proof.
  intros Hx Ho. destruct o as [e|]; simpl in *.
  - destruct Ho as (q & rest & Hq & -> & ->).
    exists (x ++ "["%char :: q), rest. split_and!; [by constructor|by rewrite <-app_assoc|].
    rewrite length_app. simpl. lia.
  - intros q rest Hq E. destruct Hq as [y Hne Hy|y q Hy Hq]; rewrite <-app_assoc in E.
    + eapply (run_split isRunChar x y) in E as [_ E]; [discriminate E|done..|by intros d [= <-]].
    + eapply (run_split isRunChar x y) in E as [_ E]; [|done..|by intros d [= <-]].
      injection E as <-. by apply (Ho q rest).
Qed.

Lemma opens_at_other base x r :
  Run x → (∀ c, head r = Some c → isRunChar c = false ∧ c ≠ "["%char ∧ c ≠ "]"%char) →
  begins opened base (x ++ r) None.
Proof.
  intros Hx Hr q rest Hq E. symmetry in E.
  destruct Hq as [y Hne Hy|y q Hy Hq]; rewrite <-app_assoc in E;
    eapply (run_split isRunChar y x) in E as [_ ->]; try done;
    try (destruct (Hr _ eq_refl) as (? & ? & ?); congruence).
  all: intros d Hd; by apply Hr.
Qed.

#[local] Arguments begins : simpl never.

Lemma take_while_run s : Run (take_while isRunChar s).
Proof. apply take_while_all. Qed.

Lemma openEnds_spec j s :
  ∀ i, i ≤ length s →
  ∃ o, openEnds j s (runEnds j s) !! i = Some o ∧ begins opened (j + i) (drop i s) o.
Proof.
  revert j. induction s as [|c s IH]; intros j i Hi; simpl in Hi.
  { assert (i = 0) as -> by lia. exists None. split; [done|].
    intros q rest Hq E. destruct Hq as [[]|[]]; discriminate E. }
  destruct i as [|i]; [|destruct (IH (S j) i) as (o & ? & ?); [lia|];
    exists o; split; [done|]; simpl; by rewrite Nat.add_succ_r].
  change (openEnds j (c :: s) (runEnds j (c :: s)) !! 0)
    with (head (openEnds j (c :: s) (runEnds j (c :: s)))).
  cbn [openEnds head]. eexists; split; [done|].
  rewrite runEnds_head. change (tail (runEnds j (c :: s))) with (runEnds (S j) s).
  cbn [from_option id]. rewrite drop_0.
  set (x := take_while isRunChar (c :: s)).
  pose proof (take_drop_while isRunChar (c :: s)) as E. fold x in E.
  pose proof (drop_while_head isRunChar (c :: s)) as Hd.
  set (r := drop_while isRunChar (c :: s)) in *.
  replace (j + length x - j) with (length x) by lia.
  pose proof (take_while_run (c :: s)) as Hx. fold x in Hx.
  clearbody x r. rewrite Nat.add_0_r, <-E.
  rewrite (lookup_app_r x r (length x)) by lia. rewrite Nat.sub_diag.
  destruct r as [|d r]; simpl.
  { by apply opens_at_other. }
  unfold eqb. repeat case_bool_decide; subst; simpl.
  - destruct (IH (S j) (length x)) as (o & Ho & Ho').
    { apply (f_equal length) in E. rewrite length_app in E. simpl in *. lia. }
    rewrite Ho. simpl.
    apply opens_at_more; [done|]. replace (j + length x + 1) with (S j + length x) by lia.
    replace r with (drop (length x) s); [done|].
    transitivity (drop (S (length x)) (c :: s)); [done|].
    rewrite <-E, drop_app_ge by lia.
    replace (S (length x) - length x) with 1 by lia. done.
  - pose proof (opens_at_close j x r Hx) as Ho.
    destruct x as [|b x].
    + rewrite (proj2 (Nat.ltb_ge _ _)) by (simpl; lia). exact Ho.
    + rewrite (proj2 (Nat.ltb_lt _ _)) by (simpl; lia). exact Ho.
  - apply opens_at_other; [done|]. intros e [= <-]. split; [by apply Hd|done].
Qed.


(** ** The scan *)

Lemma opened_unique q t q' t' : opened q → opened q' → q ++ t = q' ++ t' → q = q'.
Proof.
  intros Hq. revert q' t t'.
  induction Hq as [x Hne Hx|x q Hx Hq IH]; intros q' t t' Hq' E;
    destruct Hq' as [y Hne' Hy|y q' Hy Hq'];
    rewrite <-!app_assoc in E; simpl in E;
    eapply (run_split isRunChar x y) in E as [<- E]; try done; try (by intros d [= <-]).
  injection E as E. symmetry in E. apply IH in E as ->; done.
Qed.

Lemma part_unique p t p' t' : part p → part p' → p ++ t = p' ++ t' → p = p'.
Proof.
  intros [x Hne Hx|x q Hx Hq] [y Hne' Hy|y q' Hy Hq'] E;
    rewrite <-!app_assoc in E; simpl in E;
    eapply (run_split isRunChar x y) in E as [<- E]; try done; try (by apply Attrs_Run); try (by intros d [= <-]);
    try discriminate E.
  injection E as E. symmetry in E. f_equal. f_equal. by eapply opened_unique.
Qed.

Lemma part_length p : part p → 0 < length p.
Proof. intros []; rewrite length_app; simpl; lia. Qed.

(** Text whose first characters are attributes, then [c], begins a part only as [c] says. *)
Lemma no_part base x r :
  Attrs x →
  (∀ c, head r = Some c → isRunChar c = false ∧ c ≠ "["%char ∧ (c = "]"%char → x = [])) →
  begins part base (x ++ r) None.
Proof.
  intros Hx Hr p rest Hp E. symmetry in E.
  destruct Hp as [y Hne Hy|y q Hy Hq]; rewrite <-app_assoc in E;
    eapply (run_split isRunChar y x) in E as [-> ->]; try done; try (by apply Attrs_Run);
    try (intros d Hd; by apply Hr); destruct (Hr _ eq_refl) as (? & ? & ?); naive_solver.
Qed.

Lemma attrs_then_space base x r :
  Attrs x → head r = Some " "%char →
  let y := take_while isRunChar (x ++ r) in
  begins part base (x ++ r)
    (if eqb ((x ++ r) !! length y) (Some "]"%char) then Some (base + length y + 1) else None).
Proof.
  intros Hx Hr y. unfold eqb.
  pose proof (take_drop_while isRunChar (x ++ r)) as E. fold y in E.
  pose proof (take_while_run (x ++ r)) as Hy. fold y in Hy.
  pose proof (drop_while_head isRunChar (x ++ r)) as Hz.
  set (z := drop_while isRunChar (x ++ r)) in *. clearbody y z.
  rewrite <-E, lookup_app_r, Nat.sub_diag by lia.
  case_bool_decide as Hc.
  - destruct z as [|c z]; [discriminate Hc|]. injection Hc as ->.
    exists (y ++ ["]"%char]), z. split_and!.
    + constructor; [|done]. intros ->. destruct x, r; simplify_eq/=.
      by apply Forall_cons in Hx as [? _].
    + by rewrite <-app_assoc.
    + rewrite length_app. simpl. lia.
  - intros p rest Hp E'. destruct Hp as [u Hne Hu|u q Hu Hq]; rewrite <-app_assoc in E'; symmetry in E'.
    + eapply (run_split isRunChar u y) in E' as [<- ->]; try done.
    + rewrite E in E'. destruct r as [|d r]; [done|]. injection Hr as ->.
      eapply (run_split isAttrChar u x) in E' as [_ E']; [discriminate E'|done..|by intros ? [= <-]].
Qed.

Lemma take_while_attrs x z :
  Attrs x → take_while isRunChar (x ++ z) = x ++ take_while isRunChar z.
Proof.
  intros Hx. unfold take_while. induction Hx as [|c x Hc Hx IH]; simpl; [done|].
  rewrite (attr_run _ Hc). destruct (span isRunChar (x ++ z)). simpl in *. by f_equal.
Qed.

Section scan.
Context (s : bytes).
Let a := newAttrScanner s.

Lemma next_spec seg :
  seg ≤ length s → begins part seg (drop seg s) (next a (attrEnd s seg) seg).
Proof.
  intros Hseg. unfold next, attrEnd. cbn [text runEnd openEnd a newAttrScanner].
  set (x := take_while isAttrChar (drop seg s)).
  pose proof (take_drop_while isAttrChar (drop seg s)) as E. fold x in E.
  pose proof (take_while_all isAttrChar (drop seg s)) as Hx. fold x in Hx.
  pose proof (drop_while_head isAttrChar (drop seg s)) as Hz.
  set (z := drop_while isAttrChar (drop seg s)) in *. clearbody x z.
  assert (Hlen : length s = seg + length x + length z).
  { apply (f_equal length) in E. rewrite length_app, length_drop in E. lia. }
  assert (Hat : ∀ i, s !! (seg + i) = (x ++ z) !! i) by (intros; by rewrite E, lookup_drop).
  assert (Hzd : drop (seg + length x) s = z).
  { by rewrite <-drop_drop, <-E, drop_app_length. }
  rewrite Hat, lookup_app_r, Nat.sub_diag, <-E by lia.
  destruct z as [|c z]; simpl; [by apply no_part|]. specialize (Hz c eq_refl).
  unfold eqb at 1. case_bool_decide; subst.
  { rewrite runEnds_lookup by (simpl in Hlen; lia). simpl. rewrite Hzd.
    pose proof (attrs_then_space seg x (" "%char :: z) Hx eq_refl) as Hs. simpl in Hs.
    rewrite take_while_attrs, length_app, <-Hat, !Nat.add_assoc in Hs by done. exact Hs. }
  unfold eqb at 1. case_bool_decide; subst.
  { destruct (openEnds_spec 0 s (seg + length x + 1)) as (o & Ho & Ho'); [simpl in Hlen; lia|].
    rewrite Ho. simpl. simpl in Ho'. rewrite <-drop_drop, Hzd in Ho'. simpl in Ho'. rewrite drop_0 in Ho'.
    destruct o as [e|]; simpl in *.
    - destruct Ho' as (q & rest & Hq & -> & ->). exists (x ++ "["%char :: q), rest.
      split_and!; [by constructor|by rewrite <-app_assoc|]. rewrite length_app. simpl. lia.
    - intros p rest Hp Ep. destruct Hp as [u Hne Hu|u q Hu Hq]; rewrite <-app_assoc in Ep.
      + eapply (run_split isRunChar x u) in Ep as [_ Ep]; [discriminate Ep|by apply Attrs_Run|done|done|by intros d [= <-]].
      + eapply (run_split isAttrChar x u) in Ep as [_ Ep]; [|done..|by intros d [= <-]].
        injection Ep as <-. by apply (Ho' q rest). }
  unfold eqb. case_bool_decide; subst.
  { destruct (Nat.ltb_spec seg (seg + length x)).
    - exists (x ++ ["]"%char]), z. split_and!; [|by rewrite <-app_assoc|rewrite length_app; simpl; lia].
      constructor; [by intros ->; simpl in *; lia|by apply Attrs_Run].
    - apply no_part; [done|]. intros d [= <-]. split_and!; [done..|].
      intros _. destruct x; [done|simpl in *; lia]. }
  apply no_part; [done|]. intros d [= <-]. split_and!; [|done|done].
  unfold isRunChar. rewrite Hz. simpl. by apply eqb_false.
Qed.

Lemma tail_no_part r x :
  Attrs x → x `prefix_of` r → (∀ d, head (drop (length x) r) = Some d → isAttrChar d = false) →
  begins part 0 r None → longest token_tail r (length x).
Proof.
  intros Hx [z ->] Hz Hp. rewrite drop_app_length in Hz. split_and!.
  - rewrite length_app. lia.
  - right. rewrite take_app_length. by constructor.
  - intros m Hm Hm'. destruct (decide (m ≤ length x)) as [|Hlt]; [done|exfalso].
    rewrite take_app_ge in Hm' by lia.
    destruct z as [|d z]; [rewrite app_nil_r in Hm; lia|].
    replace (m - length x) with (S (m - length x - 1)) in Hm' by lia. simpl in Hm'.
    inversion Hm' as [y Hy Ey|p t Hpp Ht Ep].
    + apply Forall_app in Hy as [_ Hy]. apply Forall_cons in Hy as [Hy _].
      by rewrite (Hz d) in Hy.
    + apply (Hp p (t ++ drop (m - length x - 1) z)); [done|].
      rewrite app_assoc, Ep, <-app_assoc. simpl. by rewrite take_drop.
Qed.

Lemma longest_part p r n :
  part p → longest token_tail r n → longest token_tail (p ++ r) (length p + n).
Proof.
  intros Hp (Hn & Hn' & Hmax). split_and!.
  - rewrite length_app. lia.
  - right. rewrite take_app_add. constructor; [done|].
    destruct Hn' as [->|?]; [|done]. by repeat constructor.
  - intros m Hm Hm'. destruct (decide (m ≤ length p)) as [|Hlt]; [lia|].
    rewrite take_app_ge in Hm' by lia. rewrite length_app in Hm.
    inversion Hm' as [y Hy Ey|p' t Hpp Ht Ep].
    + apply Forall_app in Hy as [Hy _].
      exfalso. destruct Hp; apply Forall_app in Hy as [_ Hy]; by apply Forall_cons in Hy as [? _].
    + pose proof (part_unique _ _ _ _ Hpp Hp Ep) as ->. apply app_inv_head in Ep as ->.
      enough (m - length p ≤ n) by lia. apply Hmax; [lia|done].
Qed.

Lemma scan_spec fuel seg :
  seg ≤ length s → length s - seg ≤ fuel →
  ∃ n, scan fuel a seg seg = seg + n ∧ longest token_tail (drop seg s) n.
Proof.
  revert seg. induction fuel as [|fuel IH]; intros seg Hseg Hf; simpl; unfold attrEnd; simpl.
  { assert (seg = length s) as -> by lia. rewrite drop_all. simpl.
    exists 0. split; [lia|]. split_and!; [done|by left|simpl; lia]. }
  pose proof (next_spec seg Hseg) as Hn. unfold attrEnd in Hn.
  destruct (next a _ seg) as [e|]; simpl in Hn.
  - destruct Hn as (p & rest & Hp & E & ->). pose proof (part_length p Hp).
    assert (Hl : length s - seg = length p + length rest).
    { apply (f_equal length) in E. by rewrite length_drop, length_app in E. }
    destruct (IH (seg + length p)) as (n & -> & Hn); [lia..|].
    exists (length p + n). split; [lia|].
    rewrite <-drop_drop, E, drop_app_length in Hn. rewrite E. by apply longest_part.
  - eexists. split; [done|]. apply tail_no_part; [apply take_while_all|..|done].
    + eexists. symmetry. apply take_drop_while.
    + intros d Hd. rewrite drop_take_while in Hd. by eapply drop_while_head.
Qed.
End scan.

(** The scan returns the longest attribute token. *)
Theorem tokenLen_longest s i :
  longest is_token (drop i s) (tokenLen (newAttrScanner s) i).
Proof.
  unfold tokenLen. cbn [text newAttrScanner].
  destruct (s !! i) as [c|] eqn:Hi.
  2:{ apply lookup_ge_None in Hi. rewrite drop_ge by lia.
      split_and!; [done|by left|intros m Hm; simpl in *; lia]. }
  pose proof (lookup_lt_Some _ _ _ Hi) as Hlt. rewrite (drop_S _ _ _ Hi).
  destruct (isNameStart c) eqn:Hc.
  2:{ split_and!; [simpl; lia|by left|]. intros [|m] Hm Ht; [lia|].
      inversion Ht. congruence. }
  destruct (scan_spec s (length s) (i + 1)) as (n & -> & Hn & Hn' & Hmax); [lia..|].
  rewrite Nat.add_1_r in Hn, Hn', Hmax. replace (i + 1 + n - i) with (S n) by lia. split_and!.
  - simpl. lia.
  - right. simpl. constructor; [done|]. destruct Hn' as [->|?]; [|done]. by repeat constructor.
  - intros [|m] Hm Ht; [lia|]. simpl in *. inversion Ht. apply le_n_S, Hmax; [lia|done].
Qed.

Example tokenLen_example :
  tokenLen (newAttrScanner (bytes_of "a.items[ 0 ].b == 1")) 0 = 14.
Proof. reflexivity. Qed.

End AttrToken.
