(* ===== verification/Json.v ===== *)
(** * JSON text as Go's [encoding/json] reads it

    The scanner of the standard library, down to what the packages of this
    repository use of it: which texts are one JSON value, the text of each member
    and element as written ([json.RawMessage]), and the compact form
    ([json.Compact]) that [internal/policyir] keeps JSON in. *)
From S2P Require Import Prelude.

Module Json.

(** A JSON value. [JNum] and [JStr] hold the text as written, the latter without
    its quotes and with its escapes; [JArr] and [JObj] also hold their whole text,
    and a member the text of its key. *)
Inductive json :=
  | JNull
  | JBool (b : bool)
  | JNum (text : bytes)
  | JStr (body : bytes)
  | JArr (raw : bytes) (items : list json)
  | JObj (raw : bytes) (members : list (bytes * json)).

(** [maxNestingDepth]: the arrays and objects that may stand around a value. *)
Definition maxNestingDepth : nat := Z.to_nat 10000.

Definition is_space (c : ascii) : bool := member c [" "; "009"; "010"; "013"]%char.
Definition skip (s : bytes) : bytes := drop_while is_space s.

Definition quote : ascii := "034"%char.
Definition backslash : ascii := "\"%char.
Definition is_hex (c : ascii) : bool := is_digit c || within "a" c "f" || within "A" c "F".
Definition is_escape (c : ascii) : bool := member c (quote :: bytes_of "\/bfnrt").

(** [expect x s] is what follows the byte [x] at the head of [s]. *)
Definition expect (x : ascii) (s : bytes) : option bytes :=
  match s with
  | c :: s => if eqb c x then Some s else None
  | [] => None
  end.

(** The body of a string up to its closing quote. *)
Fixpoint scan_string (s : bytes) : option (bytes * bytes) :=
  match s with
  | [] => None
  | c :: s =>
      if eqb c quote then Some ([], s)
      else if eqb c backslash then
        match s with
        | [] => None
        | f :: s =>
            if is_escape f then '(body, rest) ← scan_string s; Some (c :: f :: body, rest)
            else if eqb f "u"%char then
              match s with
              | a1 :: a2 :: a3 :: a4 :: s =>
                  if all is_hex [a1; a2; a3; a4] then
                    '(body, rest) ← scan_string s; Some (c :: f :: a1 :: a2 :: a3 :: a4 :: body, rest)
                  else None
              | _ => None
              end
            else None
        end
      else if (N_of_ascii c <? 32)%N then None
      else '(body, rest) ← scan_string s; Some (c :: body, rest)
  end.

(** [literal p s] is what follows the bytes [p] at the head of [s]. *)
Fixpoint literal (p s : bytes) : option bytes :=
  match p with
  | [] => Some s
  | x :: p => s ← expect x s; literal p s
  end.

(** One digit at least. *)
Definition digits (s : bytes) : option (bytes * bytes) :=
  match span is_digit s with
  | ([], _) => None
  | r => Some r
  end.

(** An optional fraction and an optional exponent, each with a digit. *)
Definition scan_fraction (s : bytes) : option (bytes * bytes) :=
  match expect "." s with
  | Some s => '(ds, rest) ← digits s; Some ("."%char :: ds, rest)
  | None => Some ([], s)
  end.

Definition is_sign (c : ascii) : bool := eqb c "+"%char || eqb c "-"%char.

Definition scan_exponent (s : bytes) : option (bytes * bytes) :=
  match s with
  | c :: s' =>
      if eqb c "e"%char || eqb c "E"%char then
        '(sign, s') ← (match s' with
                       | d :: s'' => if is_sign d then Some ([d], s'') else Some ([], s')
                       | [] => None
                       end);
        '(ds, rest) ← digits s';
        Some (c :: sign ++ ds, rest)
      else Some ([], s)
  | [] => Some ([], [])
  end.

Definition scan_integer (s : bytes) : option (bytes * bytes) :=
  match expect "0" s with
  | Some s => Some (["0"%char], s)
  | None => digits s
  end.

Definition scan_number (s : bytes) : option (bytes * bytes) :=
  let '(sign, s) := match expect "-" s with Some s => (["-"%char], s) | None => ([], s) end in
  '(int, s) ← scan_integer s;
  '(frac, s) ← scan_fraction s;
  '(exp, s) ← scan_exponent s;
  Some (sign ++ int ++ frac ++ exp, s).

(** The bytes of [s] before its suffix [rest]. *)
Definition before (s rest : bytes) : bytes := take (length s - length rest) s.

(** [value fuel d s] reads the value [s] starts with, which may hold [d] arrays and objects
    around each other; [elements] and [fields] read what follows the first bracket, or a
    comma, up to the closing bracket. *)
Fixpoint value (fuel d : nat) (s : bytes) : option (json * bytes) :=
  match fuel, s with
  | S fuel, c :: s' =>
      if eqb c quote then '(body, rest) ← scan_string s'; Some (JStr body, rest)
      else if eqb c "["%char then
        match d, expect "]" (skip s') with
        | 0, _ => None
        | S d, Some rest => Some (JArr (before s rest) [], rest)
        | S d, None => '(items, rest) ← elements fuel d (skip s'); Some (JArr (before s rest) items, rest)
        end
      else if eqb c "{"%char then
        match d, expect "}" (skip s') with
        | 0, _ => None
        | S d, Some rest => Some (JObj (before s rest) [], rest)
        | S d, None => '(members, rest) ← fields fuel d (skip s'); Some (JObj (before s rest) members, rest)
        end
      else if eqb c "n"%char then rest ← literal (bytes_of "ull") s'; Some (JNull, rest)
      else if eqb c "t"%char then rest ← literal (bytes_of "rue") s'; Some (JBool true, rest)
      else if eqb c "f"%char then rest ← literal (bytes_of "alse") s'; Some (JBool false, rest)
      else '(text, rest) ← scan_number s; Some (JNum text, rest)
  | _, _ => None
  end
with elements (fuel d : nat) (s : bytes) : option (list json * bytes) :=
  match fuel with
  | 0 => None
  | S fuel =>
      '(v, rest) ← value fuel d s;
      match expect "]" (skip rest) with
      | Some rest => Some ([v], rest)
      | None =>
          rest ← expect "," (skip rest);
          '(vs, rest) ← elements fuel d (skip rest);
          Some (v :: vs, rest)
      end
  end
with fields (fuel d : nat) (s : bytes) : option (list (bytes * json) * bytes) :=
  match fuel with
  | 0 => None
  | S fuel =>
      s ← expect quote s;
      '(key, rest) ← scan_string s;
      rest ← expect ":" (skip rest);
      '(v, rest) ← value fuel d (skip rest);
      match expect "}" (skip rest) with
      | Some rest => Some ([(key, v)], rest)
      | None =>
          rest ← expect "," (skip rest);
          '(ms, rest) ← fields fuel d (skip rest);
          Some ((key, v) :: ms, rest)
      end
  end.

(** The one value a text holds, with white space around it. *)
Definition parse (s : bytes) : option json :=
  '(v, rest) ← value (2 + 2 * length s) maxNestingDepth (skip s);
  match skip rest with
  | [] => Some v
  | _ => None
  end.

(** The text of a value without insignificant white space. *)
Fixpoint joined (sep : bytes) (l : list bytes) : bytes :=
  match l with
  | [] => []
  | [x] => x
  | x :: l => x ++ sep ++ joined sep l
  end.

Fixpoint compact (v : json) : bytes :=
  match v with
  | JNull => bytes_of "null"
  | JBool b => bytes_of (if b then "true" else "false")
  | JNum text => text
  | JStr body => quote :: body ++ [quote]
  | JArr _ items => "["%char :: joined [","%char] (map compact items) ++ ["]"%char]
  | JObj _ members =>
      "{"%char :: joined [","%char]
        (map (λ m, quote :: m.1 ++ quote :: ":"%char :: compact m.2) members) ++ ["}"%char]
  end.

Definition compact_items (vs : list json) : bytes := joined [","%char] (map compact vs).
Definition compact_member (m : bytes * json) : bytes := quote :: m.1 ++ quote :: ":"%char :: compact m.2.
Definition compact_members (ms : list (bytes * json)) : bytes := joined [","%char] (map compact_member ms).

(** [json.Compact]: the compact form of a text that is one JSON value. *)
Definition Compact (s : bytes) : option bytes := compact <$> parse s.

Definition quoted (s : string) : bytes := quote :: bytes_of s ++ [quote].

Example compact_example :
  Compact (bytes_of " { " ++ quoted "a" ++ bytes_of " : [1, -2.5e+3 , null] , " ++ quoted "b"
           ++ bytes_of ":" ++ quoted " x\n" ++ bytes_of " } ")
  = Some (bytes_of "{" ++ quoted "a" ++ bytes_of ":[1,-2.5e+3,null]," ++ quoted "b"
          ++ bytes_of ":" ++ quoted " x\n" ++ bytes_of "}").
Proof. vm_compute. reflexivity. Qed.

(** ** The scanner reads back what it read *)

Lemma expect_Some x s r : expect x s = Some r ↔ s = x :: r.
Proof.
  destruct s as [|c s]; simpl; [done|]. unfold eqb. case_bool_decide; naive_solver.
Qed.

Lemma expect_cons x s : expect x (x :: s) = Some s.
Proof. by apply expect_Some. Qed.

Lemma expect_other x c s : c ≠ x → expect x (c :: s) = None.
Proof. intros H. simpl. by rewrite (proj2 (eqb_false c x)). Qed.

Lemma skip_cons c s : is_space c = false → skip (c :: s) = c :: s.
Proof. intros H. unfold skip, drop_while. simpl. by rewrite H. Qed.

Lemma skip_length s : length (skip s) ≤ length s.
Proof. unfold skip. rewrite <-(take_drop_while is_space s) at 2. rewrite length_app. lia. Qed.

(** What may follow a value: nothing, a comma, a closing bracket, or white space; after a
    compact one there is no white space. *)
Definition delimiters : list ascii := [","; "]"; "}"; " "; "009"; "010"; "013"]%char.

Definition delimited (r : bytes) : Prop :=
  match r with
  | [] => True
  | c :: _ => c ∈ delimiters
  end.

Definition stops (r : bytes) : Prop :=
  match r with
  | [] => True
  | c :: _ => c ∈ [","; "]"; "}"]%char
  end.

Lemma stops_delimited r : stops r → delimited r.
Proof. destruct r; [done|]. cbn. intros H. repeat (apply elem_of_cons in H as [->|H]; [by apply (bool_decide_unpack _)|]). by apply elem_of_nil in H. Qed.

Lemma delimited_not_digit r x : delimited r → head r = Some x → is_digit x = false.
Proof.
  destruct r as [|c r]; [done|]. simpl. intros H [= <-].
  repeat (apply elem_of_cons in H as [->|H]; [done|]). by apply elem_of_nil in H.
Qed.

Lemma delimited_not x r : delimited r → x ∉ delimiters → expect x r = None.
Proof.
  destruct r as [|c r]; [done|]. intros H Hx. apply expect_other. by intros ->.
Qed.

Lemma literal_Some p s r : literal p s = Some r ↔ s = p ++ r.
Proof.
  revert s. induction p as [|x p IH]; intros s; simpl; [naive_solver|].
  destruct (expect x s) as [s'|] eqn:E; simpl.
  - apply expect_Some in E as ->. rewrite IH. naive_solver.
  - split; [done|]. intros ->. by rewrite expect_cons in E.
Qed.

Lemma scan_string_reads s b r :
  scan_string s = Some (b, r) → s = b ++ quote :: r ∧ ∀ r', scan_string (b ++ quote :: r') = Some (b, r').
Proof.
  remember (length s) as n eqn:Hn. revert s b r Hn.
  induction n as [n IH] using lt_wf_ind. intros [|c s] b r -> ; [done|]. cbn [scan_string].
  destruct (eqb c quote) eqn:Eq; [apply eqb_true in Eq as ->; naive_solver|].
  destruct (eqb c backslash) eqn:Eb.
  - destruct s as [|f s]; [done|].
    destruct (is_escape f) eqn:Ef.
    + destruct (scan_string s) as [[b' r1]|] eqn:E; [|done]. intros [= <- <-].
      destruct (IH (length s) ltac:(simpl; lia) _ _ _ eq_refl E) as [-> H].
      split; [done|]. intros r'. simpl. by rewrite Eq, Eb, Ef, H.
    + destruct (eqb f "u"%char) eqn:Eu; [|done].
      destruct s as [|a1 [|a2 [|a3 [|a4 s]]]]; [done..|].
      destruct (all is_hex [a1; a2; a3; a4]) eqn:Ea; [|done].
      destruct (scan_string s) as [[b' r1]|] eqn:E; [|done]. intros [= <- <-].
      destruct (IH (length s) ltac:(simpl; lia) _ _ _ eq_refl E) as [-> H].
      split; [done|]. intros r'. cbn [app scan_string]. by rewrite Eq, Eb, Ef, Eu, Ea, H.
  - destruct (N_of_ascii c <? 32)%N eqn:Ec; [done|].
    destruct (scan_string s) as [[b' r1]|] eqn:E; [|done]. intros [= <- <-].
    destruct (IH (length s) ltac:(simpl; lia) _ _ _ eq_refl E) as [-> H].
    split; [done|]. intros r'. simpl. by rewrite Eq, Eb, Ec, H.
Qed.

(** Whether a byte may stand after the digits of a part of a number. *)
Definition no_digit (r : bytes) : Prop := ∀ x, head r = Some x → is_digit x = false.

Lemma digits_reads s t r :
  digits s = Some (t, r) →
  s = t ++ r ∧ (∃ c t', t = c :: t' ∧ is_digit c = true)
  ∧ ∀ r', (∀ x, head r' = Some x → is_digit x = false) → digits (t ++ r') = Some (t, r').
Proof.
  unfold digits. destruct (span is_digit s) as [[|c a] b] eqn:E; [done|]. intros [= <- <-].
  pose proof (span_all _ _ _ _ E) as Ha. split; [by eapply span_app|].
  split; [apply Forall_cons in Ha as [??]; eauto|].
  intros r' Hr. by rewrite span_spec.
Qed.

Lemma scan_exponent_reads s t r :
  scan_exponent s = Some (t, r) →
  s = t ++ r ∧ (t = [] ∨ ∃ c t', t = c :: t' ∧ (c = "e"%char ∨ c = "E"%char))
  ∧ ∀ r', delimited r' → scan_exponent (t ++ r') = Some (t, r').
Proof.
  destruct s as [|c s]; simpl.
  { intros [= <- <-]. split_and!; [done|auto|]. intros [|c r'] H; [done|]. simpl in *.
    repeat (apply elem_of_cons in H as [->|H]; [done|]). by apply elem_of_nil in H. }
  destruct (eqb c "e"%char || eqb c "E"%char) eqn:Ec; simpl.
  - intros H. destruct s as [|d s]; simpl in H; [done|].
    assert (c = "e"%char ∨ c = "E"%char) as Hc by by (bool_simp).
    destruct (is_sign d) eqn:Ed; simpl in H.
    + destruct (digits s) as [[ds rest]|] eqn:E; [|done]. injection H as <- <-.
      apply digits_reads in E as (-> & _ & H). split_and!; [done|eauto|].
      intros r' Hr. simpl. rewrite Ec, Ed. simpl. rewrite H; [done|]. eauto using delimited_not_digit.
    + destruct (digits (d :: s)) as [[ds rest]|] eqn:E; [|done]. injection H as <- <-.
      apply digits_reads in E as (E & (x & ds' & -> & Hx) & H). injection E as -> E.
      split_and!; [by rewrite E|eauto|].
      intros r' Hr. simpl. rewrite Ec, Ed. simpl. specialize (H r' (λ y, delimited_not_digit r' y Hr)).
      simpl in H. by rewrite H.
  - intros [= <- <-]. split_and!; [done|auto|]. intros [|x r'] H; [done|]. simpl in *.
    repeat (apply elem_of_cons in H as [->|H]; [done|]). by apply elem_of_nil in H.
Qed.

Lemma scan_fraction_reads s t r :
  scan_fraction s = Some (t, r) →
  s = t ++ r ∧ (t = [] ∨ ∃ t', t = "."%char :: t')
  ∧ ∀ r', no_digit r' → (t = [] → expect "." r' = None) → scan_fraction (t ++ r') = Some (t, r').
Proof.
  unfold scan_fraction. destruct (expect "." s) as [s'|] eqn:E; simpl.
  - apply expect_Some in E as ->. destruct (digits s') as [[ds rest]|] eqn:E; [|done].
    intros [= <- <-]. apply digits_reads in E as (-> & _ & H). split_and!; [done|eauto|].
    intros r' Hr _. simpl. by rewrite H.
  - intros [= <- <-]. split_and!; [done|auto|]. intros r' _ H. simpl. by rewrite (H eq_refl).
Qed.

Lemma scan_integer_reads s t r :
  scan_integer s = Some (t, r) →
  s = t ++ r ∧ (∃ c t', t = c :: t' ∧ is_digit c = true)
  ∧ ∀ r', no_digit r' → scan_integer (t ++ r') = Some (t, r').
Proof.
  unfold scan_integer. destruct (expect "0" s) as [s'|] eqn:E; simpl.
  - apply expect_Some in E as ->. intros [= <- <-]. split_and!; [done|by eexists _, _|done].
  - intros H. apply digits_reads in H as (-> & (c & t' & -> & Hc) & H). split_and!; [done|eauto|].
    intros r' Hr. simpl. simpl in E. destruct (eqb c "0"%char); [done|]. by apply H.
Qed.

Lemma no_digit_app t r :
  no_digit r → (∀ c t', t = c :: t' → is_digit c = false) → no_digit (t ++ r).
Proof. intros Hr Ht. destruct t as [|c t]; [done|]. intros x [= <-]. by eapply Ht. Qed.

Definition starts_number (c : ascii) : Prop := c = "-"%char ∨ is_digit c = true.

Lemma scan_number_reads s t r :
  scan_number s = Some (t, r) →
  s = t ++ r ∧ (∃ c t', t = c :: t' ∧ starts_number c)
  ∧ ∀ r', delimited r' → scan_number (t ++ r') = Some (t, r').
Proof.
  unfold scan_number, starts_number.
  set (p := match expect "-" s with Some s => (["-"%char], s) | None => ([], s) end).
  assert (s = p.1 ++ p.2 ∧ (p.1 = ["-"%char] ∨ p.1 = [])) as [Hs Hp].
  { unfold p. destruct (expect "-" s) eqn:E; [apply expect_Some in E as ->|]; auto. }
  clearbody p. destruct p as [sign s0]. simpl in Hs, Hp.
  destruct (scan_integer s0) as [[int s1]|] eqn:E1; simpl; [|done].
  destruct (scan_fraction s1) as [[frac s2]|] eqn:E2; simpl; [|done].
  destruct (scan_exponent s2) as [[exp s3]|] eqn:E3; simpl; [|done].
  intros [= <- <-].
  apply scan_integer_reads in E1 as (-> & (c & int' & -> & Hc) & H1).
  apply scan_fraction_reads in E2 as (-> & Hf & H2).
  apply scan_exponent_reads in E3 as (-> & He & H3).
  split_and!; [by rewrite Hs, <-!(assoc_L _)|destruct Hp as [->| ->]; simpl; eauto|].
  intros r' Hr.
  assert (no_digit (exp ++ r')) as Nr.
  { apply no_digit_app; [by intros x; apply delimited_not_digit|].
    destruct He as [->|(? & ? & -> & [-> | ->])]; by intros ?? [= <-]. }
  assert (scan_fraction (frac ++ exp ++ r') = Some (frac, exp ++ r')) as E2.
  { apply H2; [done|]. intros ->. destruct He as [->|(? & ? & -> & [-> | ->])]; [|done..].
    apply delimited_not; [done|]. by apply (bool_decide_unpack _). }
  assert (scan_integer ((c :: int') ++ frac ++ exp ++ r') = Some (c :: int', frac ++ exp ++ r')) as E1.
  { apply H1. apply no_digit_app; [done|]. destruct Hf as [->|(? & ->)]; by intros ?? [= <-]. }
  rewrite <-!(assoc_L _).
  assert (match expect "-" (sign ++ (c :: int') ++ frac ++ exp ++ r') with
          | Some s => (["-"%char], s)
          | None => ([], sign ++ (c :: int') ++ frac ++ exp ++ r')
          end = (sign, (c :: int') ++ frac ++ exp ++ r')) as ->.
  { destruct Hp as [-> | ->]; [done|]. cbn [app]. rewrite expect_other; [done|]. by intros ->. }
  rewrite E1. simpl. rewrite E2. simpl. by rewrite H3.
Qed.

Lemma joined_cons sep x l : l ≠ [] → joined sep (x :: l) = x ++ sep ++ joined sep l.
Proof. by destruct l. Qed.

Lemma skip_compact x c s : c ∈ [","; "]"; "}"; ":"]%char → is_space c = false ∧ (c ≠ x → expect x (skip (c :: s)) = None).
Proof.
  intros H. assert (is_space c = false) as Hc.
  { repeat (apply elem_of_cons in H as [->|H]; [done|]). by apply elem_of_nil in H. }
  split; [done|]. intros. rewrite skip_cons by done. by apply expect_other.
Qed.

(** The first byte of a compact text: no white space, and no closing bracket. *)
Definition opens (t : bytes) : Prop := ∃ c w, t = c :: w ∧ is_space c = false ∧ c ≠ "]"%char ∧ c ≠ "}"%char.

Lemma opens_app t r : opens t → opens (t ++ r).
Proof. intros (c & w & -> & ?). by exists c, (w ++ r). Qed.
Lemma opens_skip t : opens t → skip t = t.
Proof. intros (c & w & -> & ? & _). by apply skip_cons. Qed.
Lemma opens_expect t x : opens t → x = "]"%char ∨ x = "}"%char → expect x t = None.
Proof. intros (c & w & -> & _ & ? & ?) [-> | ->]; by apply expect_other. Qed.
Lemma opens_nonempty t : opens t → t ≠ [].
Proof. by intros (c & w & -> & _). Qed.

Lemma opens_number t c t' : t = c :: t' → starts_number c → opens t.
Proof.
  intros -> H. exists c, t'. split; [done|].
  destruct H as [->|H]; [done|]. split_and!; [|by intros ->..].
  destruct (is_space c) eqn:E; [|done]. unfold is_space in E. apply member_true in E.
  repeat (apply elem_of_cons in E as [->|E]; [done|]). by apply elem_of_nil in E.
Qed.

(** What reading a value, or the items or members of one, guarantees: it consumes bytes,
    and reads its own compact text to the same compact text. *)
Definition value_reads (f d : nat) (s : bytes) (v : json) (r : bytes) : Prop :=
  length r < length s ∧ opens (compact v)
  ∧ ∀ r', stops r' → ∃ v', value f d (compact v ++ r') = Some (v', r') ∧ compact v' = compact v.

Definition value_ok (f : nat) : Prop := ∀ d s v r, value f d s = Some (v, r) → value_reads f d s v r.

Definition elements_ok (f : nat) : Prop := ∀ d s vs r, elements f d s = Some (vs, r) →
  length r < length s ∧ vs ≠ [] ∧ opens (compact_items vs)
  ∧ ∀ r', ∃ vs', elements f d (compact_items vs ++ "]"%char :: r') = Some (vs', r')
                 ∧ map compact vs' = map compact vs.

Definition fields_ok (f : nat) : Prop := ∀ d s ms r, fields f d s = Some (ms, r) →
  length r < length s ∧ ms ≠ [] ∧ opens (compact_members ms)
  ∧ ∀ r', ∃ ms', fields f d (compact_members ms ++ "}"%char :: r') = Some (ms', r')
                 ∧ map compact_member ms' = map compact_member ms.

Lemma opens_by_refl c w :
  is_space c = false → c ≠ "]"%char → c ≠ "}"%char → opens (c :: w).
Proof. by exists c, w. Qed.

Lemma value_step_array f d s v r :
  elements_ok f → value (S f) d ("["%char :: s) = Some (v, r) → value_reads (S f) d ("["%char :: s) v r.
Proof.
  intros IH. unfold value_reads. cbn [value length]. rewrite !eqb_refl. cbn -[expect elements fields before skip value]. pose proof (skip_length s) as Hs. destruct d as [|d]; [done|].
  destruct (expect "]" (skip s)) as [r1|] eqn:E.
  - apply expect_Some in E. intros [= <- <-]. rewrite E in Hs. simpl in Hs.
    split_and!; [lia|by apply opens_by_refl|]. intros r' _. by eexists.
  - destruct (elements f d (skip s)) as [[vs r1]|] eqn:E1; [|done]. intros [= <- <-].
    destruct (IH _ _ _ _ E1) as (Hl & Hvs & Ho & H).
    split_and!; [lia|by apply opens_by_refl|]. intros r' _.
    destruct (H r') as (vs' & H1 & H2). eexists (JArr _ vs').
    split; [|simpl; by rewrite H2].
    cbn [compact app value]. fold (compact_items vs). rewrite <-(assoc_L (++)). cbn [app].
    pose proof (opens_app _ ("]"%char :: r') Ho) as Ho'.
    rewrite (opens_skip _ Ho'), opens_expect, H1 by auto. done.
Qed.

Lemma value_step_object f d s v r :
  fields_ok f → value (S f) d ("{"%char :: s) = Some (v, r) → value_reads (S f) d ("{"%char :: s) v r.
Proof.
  intros IH. unfold value_reads. cbn [value length]. rewrite !eqb_refl. cbn -[expect elements fields before skip value]. pose proof (skip_length s) as Hs. destruct d as [|d]; [done|].
  destruct (expect "}" (skip s)) as [r1|] eqn:E.
  - apply expect_Some in E. intros [= <- <-]. rewrite E in Hs. simpl in Hs.
    split_and!; [lia|by apply opens_by_refl|]. intros r' _. by eexists.
  - destruct (fields f d (skip s)) as [[vs r1]|] eqn:E1; [|done]. intros [= <- <-].
    destruct (IH _ _ _ _ E1) as (Hl & Hvs & Ho & H).
    split_and!; [lia|by apply opens_by_refl|]. intros r' _.
    destruct (H r') as (vs' & H1 & H2). eexists (JObj _ vs').
    unfold compact_members, compact_member in *.
    split; [|simpl; by rewrite H2].
    cbn [compact app value]. rewrite <-(assoc_L (++)). cbn [app].
    pose proof (opens_app _ ("}"%char :: r') Ho) as Ho'.
    rewrite (opens_skip _ Ho'), (opens_expect _ "}"%char Ho'), H1 by auto. done.
Qed.

Lemma value_step_number f d c s v r :
  c ∉ [quote; "["; "{"; "n"; "t"; "f"]%char →
  value (S f) d (c :: s) = Some (v, r) → value_reads (S f) d (c :: s) v r.
Proof.
  intros Hc. rewrite !not_elem_of_cons in Hc. destruct Hc as (Q1 & Q2 & Q3 & Q4 & Q5 & Q6 & _).
  cbn [value]. rewrite !(proj2 (eqb_false _ _)) by done.
  destruct (scan_number (c :: s)) as [[t r1]|] eqn:E; [|done]. intros [= <- <-].
  apply scan_number_reads in E as (Et & (c' & t' & -> & Hc') & H). injection Et as <- ->.
  split_and!; [simpl; rewrite length_app; lia|by eapply opens_number|].
  intros r' Hr. exists (JNum (c :: t')). split; [|done]. cbn [compact value app].
  rewrite !(proj2 (eqb_false _ _)) by done. specialize (H r' (stops_delimited _ Hr)). cbn [app] in H. by rewrite H.
Qed.

Lemma value_step_literal f d p v0 s v r :
  opens (bytes_of p) → compact v0 = bytes_of p →
  (∀ r', value (S f) d (bytes_of p ++ r') = Some (v0, r')) →
  s = bytes_of p ++ r → v = v0 → value_reads (S f) d s v r.
Proof.
  intros Ho Hv H -> ->. unfold value_reads. rewrite Hv. split_and!; [|done|].
  - apply opens_nonempty in Ho. destruct (bytes_of p); [done|]. simpl. rewrite length_app. lia.
  - intros r' _. exists v0. rewrite Hv. auto.
Qed.

Lemma value_step f : elements_ok f → fields_ok f → value_ok (S f).
Proof.
  intros He Hf d [|c s] v r; [done|].
  destruct (decide (c = quote)) as [->|Q1].
  { cbn [value]. rewrite eqb_refl. destruct (scan_string s) as [[b r1]|] eqn:E; [|done].
    intros [= <- <-]. apply scan_string_reads in E as [-> H].
    split_and!; [simpl; rewrite length_app; simpl; lia|by apply opens_by_refl|].
    intros r' _. exists (JStr b). split; [|done]. cbn [compact app]. rewrite <-(assoc_L (++)). cbn [value app].
    rewrite eqb_refl, H. done. }
  destruct (decide (c = "["%char)) as [->|Q2]; [by apply value_step_array|].
  destruct (decide (c = "{"%char)) as [->|Q3]; [by apply value_step_object|].
  destruct (decide (c = "n"%char)) as [->|Q4].
  { change ((rest ← literal (bytes_of "ull") s; Some (JNull, rest)) = Some (v, r) →
            value_reads (S f) d ("n"%char :: s) v r).
    destruct (literal _ s) eqn:E; [|done]. intros [= <- <-]. apply literal_Some in E as ->.
    by apply (value_step_literal f d "null" JNull ("n"%char :: bytes_of "ull" ++ l)); [apply opens_by_refl|..]. }
  destruct (decide (c = "t"%char)) as [->|Q5].
  { change ((rest ← literal (bytes_of "rue") s; Some (JBool true, rest)) = Some (v, r) →
            value_reads (S f) d ("t"%char :: s) v r).
    destruct (literal _ s) eqn:E; [|done]. intros [= <- <-]. apply literal_Some in E as ->.
    by apply (value_step_literal f d "true" (JBool true) ("t"%char :: bytes_of "rue" ++ l)); [apply opens_by_refl|..]. }
  destruct (decide (c = "f"%char)) as [->|Q6].
  { change ((rest ← literal (bytes_of "alse") s; Some (JBool false, rest)) = Some (v, r) →
            value_reads (S f) d ("f"%char :: s) v r).
    destruct (literal _ s) eqn:E; [|done]. intros [= <- <-]. apply literal_Some in E as ->.
    by apply (value_step_literal f d "false" (JBool false) ("f"%char :: bytes_of "alse" ++ l)); [apply opens_by_refl|..]. }
  apply value_step_number. rewrite !not_elem_of_cons. by split_and!; [..|apply not_elem_of_nil].
Qed.

Lemma elements_step f : value_ok f → elements_ok f → elements_ok (S f).
Proof.
  intros Hv He d s vs r. cbn [elements].
  destruct (value f d s) as [[v r1]|] eqn:E1; cbn [mbind option_bind]; [|done].
  apply Hv in E1 as (Hl & Ho & H). pose proof (skip_length r1) as Hs.
  destruct (expect "]" (skip r1)) as [r2|] eqn:E2.
  - apply expect_Some in E2. intros [= <- <-]. rewrite E2 in Hs. simpl in Hs.
    split_and!; [lia|done|done|]. intros r'.
    destruct (H ("]"%char :: r')) as (v' & H1 & H2); [by apply (bool_decide_unpack _)|].
    exists [v']. unfold compact_items. cbn [map joined]. rewrite H1. cbn [mbind option_bind].
    rewrite skip_cons, expect_cons, H2 by done. done.
  - destruct (expect "," (skip r1)) as [r2|] eqn:E3; cbn [mbind option_bind]; [|done].
    apply expect_Some in E3. rewrite E3 in Hs. simpl in Hs. pose proof (skip_length r2) as Hs2.
    destruct (elements f d (skip r2)) as [[ws r3]|] eqn:E4; [|done]. intros [= <- <-].
    apply He in E4 as (Hl2 & Hne & Ho2 & H4).
    assert (compact_items (v :: ws) = compact v ++ ","%char :: compact_items ws) as Hc.
    { unfold compact_items. cbn [map]. rewrite joined_cons; [done|]. by destruct ws. }
    rewrite Hc. split_and!; [lia|done|by apply opens_app|]. intros r'.
    destruct (H4 r') as (ws' & H5 & H6).
    destruct (H (","%char :: compact_items ws ++ "]"%char :: r')) as (v' & H1 & H2); [by apply (bool_decide_unpack _)|].
    exists (v' :: ws'). split; [|by simpl; rewrite H2, H6].
    rewrite <-(assoc_L (++)). cbn [app]. rewrite H1. cbn [mbind option_bind].
    rewrite !skip_cons, expect_cons, expect_other by done. cbn [mbind option_bind].
    pose proof (opens_app _ ("]"%char :: r') Ho2) as Ho'. by rewrite (opens_skip _ Ho'), H5.
Qed.

Lemma compact_members_cons m ms :
  ms ≠ [] → compact_members (m :: ms) = compact_member m ++ ","%char :: compact_members ms.
Proof. intros H. unfold compact_members. cbn [map]. rewrite joined_cons; [done|]. by destruct ms. Qed.

Lemma fields_step f : value_ok f → fields_ok f → fields_ok (S f).
Proof.
  intros Hv Hf d s ms r. cbn [fields].
  destruct (expect quote s) as [s1|] eqn:E0; cbn [mbind option_bind]; [|done]. apply expect_Some in E0 as ->.
  destruct (scan_string s1) as [[key s2]|] eqn:E1; cbn [mbind option_bind]; [|done].
  apply scan_string_reads in E1 as [-> Hk].
  destruct (expect ":" (skip s2)) as [s3|] eqn:E2; cbn [mbind option_bind]; [|done]. apply expect_Some in E2.
  pose proof (skip_length s2) as L2. rewrite E2 in L2. simpl in L2. pose proof (skip_length s3) as L3.
  destruct (value f d (skip s3)) as [[v s4]|] eqn:E3; cbn [mbind option_bind]; [|done].
  apply Hv in E3 as (L4 & Ho & H). pose proof (skip_length s4) as L5.
  assert (∀ x : bytes, length x < length s2 → length x < length (quote :: key ++ quote :: s2)) as Hlen.
  { intros x Hx. simpl. rewrite length_app. simpl. lia. }
  assert (∀ r', stops r' → ∃ v',
    compact v' = compact v ∧ ∀ k, (fields (S f) d (compact_member (key, v) ++ r') = k
    ↔ match expect "}" (skip r') with
      | Some rest => Some ([(key, v')], rest)
      | None => rest ← expect "," (skip r'); '(ms, rest) ← fields f d (skip rest); Some ((key, v') :: ms, rest)
      end = k)) as Hm.
  { intros r' Hr. destruct (H r' Hr) as (v' & H1 & H2). exists v'. split; [done|]. intros k.
    unfold compact_member. cbn [fst snd app fields]. rewrite expect_cons. cbn [mbind option_bind].
    rewrite <-(assoc_L (++)). cbn [app]. rewrite Hk. cbn [mbind option_bind].
    rewrite skip_cons, expect_cons by done. cbn [mbind option_bind].
    by rewrite (opens_skip _ (opens_app _ r' Ho)), H1. }
  destruct (expect "}" (skip s4)) as [s5|] eqn:E4.
  - apply expect_Some in E4. intros [= <- <-]. rewrite E4 in L5. simpl in L5.
    split_and!; [apply Hlen; lia|done|by apply opens_by_refl|]. intros r'.
    destruct (Hm ("}"%char :: r')) as (v' & H1 & H2); [by apply (bool_decide_unpack _)|].
    exists [(key, v')]. split; [by apply H2|]. unfold compact_member. simpl. by rewrite H1.
  - destruct (expect "," (skip s4)) as [s5|] eqn:E5; cbn [mbind option_bind]; [|done].
    apply expect_Some in E5. rewrite E5 in L5. simpl in L5. pose proof (skip_length s5) as L6.
    destruct (fields f d (skip s5)) as [[ms' s6]|] eqn:E6; [|done]. intros [= <- <-].
    apply Hf in E6 as (L7 & Hne & Ho2 & H6). rewrite compact_members_cons by done.
    split_and!; [apply Hlen; lia|done|by apply opens_by_refl|]. intros r'.
    destruct (H6 r') as (ws & H7 & H8).
    destruct (Hm (","%char :: compact_members ms' ++ "}"%char :: r')) as (v' & H1 & H2); [by apply (bool_decide_unpack _)|].
    exists ((key, v') :: ws). split; [|simpl; rewrite H8; unfold compact_member; simpl; by rewrite H1].
    rewrite <-(assoc_L (++)). cbn [app]. apply H2. rewrite !skip_cons, expect_cons, expect_other by done.
    cbn [mbind option_bind].
    pose proof (opens_app _ ("}"%char :: r') Ho2) as Ho'. by rewrite (opens_skip _ Ho'), H7.
Qed.

Lemma readers_ok f : value_ok f ∧ elements_ok f ∧ fields_ok f.
Proof.
  induction f as [|f (Hv & He & Hf)]; [by split_and!|].
  split_and!; [by apply value_step|by apply elements_step|by apply fields_step].
Qed.

(** [2 * length s + 1] is enough fuel for a value, and one more for items and members. *)
Lemma fuel_enough f :
  (∀ d s x f', value f d s = Some x → 1 + 2 * length s ≤ f' → value f' d s = Some x)
  ∧ (∀ d s x f', elements f d s = Some x → 2 + 2 * length s ≤ f' → elements f' d s = Some x)
  ∧ (∀ d s x f', fields f d s = Some x → 2 + 2 * length s ≤ f' → fields f' d s = Some x).
Proof.
  induction f as [|f (IHv & IHe & IHf)]; [done|].
  pose proof (readers_ok f) as (Hv & _ & _).
  split_and!.
  - intros d [|c s] x [|f'] H Hf; [done..|simpl in Hf; lia|]. cbn [value length] in *.
    pose proof (skip_length s) as Hs.
    repeat case_match; try done;
      match goal with
      | H : context [elements f ?d ?s ≫= _] |- _ =>
          destruct (elements f d s) as [y|] eqn:E; [|done]; rewrite (IHe _ _ _ f' E); [done|lia]
      | H : context [fields f ?d ?s ≫= _] |- _ =>
          destruct (fields f d s) as [y|] eqn:E; [|done]; rewrite (IHf _ _ _ f' E); [done|lia]
      end.
  - intros d s x [|f'] H Hf; [lia|]. cbn [elements] in *.
    destruct (value f d s) as [[v r1]|] eqn:E; cbn [mbind option_bind] in *; [|done].
    rewrite (IHv _ _ _ f' E) by lia. cbn [mbind option_bind]. apply Hv in E as (L & _ & _).
    destruct (expect "]" (skip r1)); [done|]. pose proof (skip_length r1) as Hs.
    destruct (expect "," (skip r1)) as [r2|] eqn:E2; [|done]. cbn [mbind option_bind] in *.
    apply expect_Some in E2. rewrite E2 in Hs. simpl in Hs. pose proof (skip_length r2).
    destruct (elements f d (skip r2)) as [y|] eqn:E3; [|done]. by rewrite (IHe _ _ _ f' E3) by lia.
  - intros d s x [|f'] H Hf; [lia|]. cbn [fields] in *.
    destruct (expect quote s) as [s1|] eqn:E0; cbn [mbind option_bind] in *; [|done].
    apply expect_Some in E0 as ->.
    destruct (scan_string s1) as [[key s2]|] eqn:E1; cbn [mbind option_bind] in *; [|done].
    apply scan_string_reads in E1 as [-> _]. simpl in Hf. rewrite length_app in Hf. simpl in Hf.
    destruct (expect ":" (skip s2)) as [s3|] eqn:E2; cbn [mbind option_bind] in *; [|done].
    apply expect_Some in E2. pose proof (skip_length s2) as L2. rewrite E2 in L2. simpl in L2.
    pose proof (skip_length s3) as L3.
    destruct (value f d (skip s3)) as [[v s4]|] eqn:E3; cbn [mbind option_bind] in *; [|done].
    rewrite (IHv _ _ _ f' E3) by lia. cbn [mbind option_bind]. apply Hv in E3 as (L4 & _ & _).
    destruct (expect "}" (skip s4)); [done|]. pose proof (skip_length s4) as L5.
    destruct (expect "," (skip s4)) as [s5|] eqn:E5; [|done]. cbn [mbind option_bind] in *.
    apply expect_Some in E5. rewrite E5 in L5. simpl in L5. pose proof (skip_length s5).
    destruct (fields f d (skip s5)) as [y|] eqn:E6; [|done]. by rewrite (IHf _ _ _ f' E6) by lia.
Qed.

(** A value that may hold more nests reads the same. *)
Lemma deeper f :
  (∀ d d' s x, value f d s = Some x → d ≤ d' → value f d' s = Some x)
  ∧ (∀ d d' s x, elements f d s = Some x → d ≤ d' → elements f d' s = Some x)
  ∧ (∀ d d' s x, fields f d s = Some x → d ≤ d' → fields f d' s = Some x).
Proof.
  induction f as [|f (IHv & IHe & IHf)]; [done|]. split_and!.
  - intros d d' [|c s] x; [done|]. cbn [value]. intros H Hd.
    destruct (eqb c quote); [done|]. destruct (eqb c "["%char).
    { destruct d as [|d], d' as [|d']; try done; [lia|]. destruct (expect "]" (skip s)); [done|].
      destruct (elements f d (skip s)) as [y|] eqn:E; [|done]. by rewrite (IHe _ d' _ _ E) by lia. }
    destruct (eqb c "{"%char); [|done].
    destruct d as [|d], d' as [|d']; try done; [lia|]. destruct (expect "}" (skip s)); [done|].
    destruct (fields f d (skip s)) as [y|] eqn:E; [|done]. by rewrite (IHf _ d' _ _ E) by lia.
  - intros d d' s x. cbn [elements]. intros H Hd.
    destruct (value f d s) as [[v r1]|] eqn:E; [|done]. rewrite (IHv _ d' _ _ E) by lia. cbn [mbind option_bind] in *.
    destruct (expect "]" (skip r1)); [done|]. destruct (expect "," (skip r1)) as [r2|]; [|done]. cbn [mbind option_bind] in *.
    destruct (elements f d (skip r2)) as [y|] eqn:E2; [|done]. by rewrite (IHe _ d' _ _ E2) by lia.
  - intros d d' s x. cbn [fields]. intros H Hd. destruct (expect quote s) as [s1|]; [|done]. cbn [mbind option_bind] in *.
    destruct (scan_string s1) as [[key s2]|]; [|done]. cbn [mbind option_bind] in *.
    destruct (expect ":" (skip s2)) as [s3|]; [|done]. cbn [mbind option_bind] in *.
    destruct (value f d (skip s3)) as [[v s4]|] eqn:E; [|done]. rewrite (IHv _ d' _ _ E) by lia. cbn [mbind option_bind] in *.
    destruct (expect "}" (skip s4)); [done|]. destruct (expect "," (skip s4)) as [s5|]; [|done]. cbn [mbind option_bind] in *.
    destruct (fields f d (skip s5)) as [y|] eqn:E2; [|done]. by rewrite (IHf _ d' _ _ E2) by lia.
Qed.

(** The compact text of the value is one JSON value, compact as it is. *)
Definition rereads (v : json) : Prop := Compact (compact v) = Some (compact v).

Lemma value_rereads f d s v r : value f d s = Some (v, r) → d ≤ maxNestingDepth → rereads v.
Proof.
  intros E Hd. destruct (proj1 (readers_ok _) _ _ _ _ E) as (_ & Ho & H).
  destruct (H []) as (v' & H1 & H2); [done|]. rewrite app_nil_r in H1.
  unfold rereads, Compact, parse. rewrite opens_skip by done.
  pose proof (proj1 (fuel_enough _) _ _ _ (2 + 2 * length (compact v)) H1 ltac:(lia)) as H3.
  rewrite (proj1 (deeper _) _ maxNestingDepth _ _ H3) by done.
  cbn. by rewrite H2.
Qed.

(** The compact form of a text is its own compact form. *)
Lemma Compact_idem s c : Compact s = Some c → Compact c = Some c.
Proof.
  unfold Compact at 1, parse. destruct (value _ _ (skip s)) as [[v r]|] eqn:E; [|done].
  cbn [mbind option_bind]. destruct (skip r); [|done]. intros [= <-]. by eapply value_rereads.
Qed.

(** The values a value holds, itself included. *)
Inductive part (v : json) : json → Prop :=
  | part_self : part v v
  | part_item raw items w : w ∈ items → part v w → part v (JArr raw items)
  | part_member raw ms k w : (k, w) ∈ ms → part v w → part v (JObj raw ms).

Lemma readers_parts f :
  (∀ d s v r, value f d s = Some (v, r) → d ≤ maxNestingDepth → ∀ w, part w v → rereads w)
  ∧ (∀ d s vs r, elements f d s = Some (vs, r) → d ≤ maxNestingDepth → ∀ v w, v ∈ vs → part w v → rereads w)
  ∧ (∀ d s ms r, fields f d s = Some (ms, r) → d ≤ maxNestingDepth → ∀ k v w, (k, v) ∈ ms → part w v → rereads w).
Proof.
  induction f as [|f (IHv & IHe & IHf)]; [done|]. split_and!.
  - intros d s v r H Hd w Hw. destruct Hw as [|raw items u Hu Hw|raw ms k u Hu Hw]; [by eapply value_rereads| |];
      destruct s as [|c s]; try done; cbn [value] in H.
    + destruct (eqb c quote); [by destruct (scan_string s) as [[]|]|]. destruct (eqb c "["%char).
      { destruct d as [|d]; [done|]. destruct (expect "]" (skip s)); [injection H as _ <- _; by apply elem_of_nil in Hu|].
        destruct (elements f d (skip s)) as [[vs r']|] eqn:E; [|done]. injection H as _ <- _.
        by eapply IHe; [exact E|lia|exact Hu|]. }
      destruct (eqb c "{"%char).
      { destruct d; [done|]. destruct (expect "}" (skip s)); [done|]. by destruct (fields _ _ _) as [[]|]. }
      do 3 (destruct (eqb c _); [by destruct (literal _ s)|]). by destruct (scan_number _) as [[]|].
    + destruct (eqb c quote); [by destruct (scan_string s) as [[]|]|]. destruct (eqb c "["%char).
      { destruct d; [done|]. destruct (expect "]" (skip s)); [done|]. by destruct (elements _ _ _) as [[]|]. }
      destruct (eqb c "{"%char).
      { destruct d as [|d]; [done|]. destruct (expect "}" (skip s)); [injection H as _ <- _; by apply elem_of_nil in Hu|].
        destruct (fields f d (skip s)) as [[vs r']|] eqn:E; [|done]. injection H as _ <- _.
        by eapply IHf; [exact E|lia|exact Hu|]. }
      do 3 (destruct (eqb c _); [by destruct (literal _ s)|]). by destruct (scan_number _) as [[]|].
  - intros d s vs r. cbn [elements]. intros H Hd v w Hv Hw.
    destruct (value f d s) as [[v1 r1]|] eqn:E; [|done]. cbn [mbind option_bind] in H.
    destruct (expect "]" (skip r1)).
    { injection H as <- _. apply list_elem_of_singleton in Hv as ->. by eapply IHv. }
    destruct (expect "," (skip r1)) as [r2|]; [|done]. cbn [mbind option_bind] in H.
    destruct (elements f d (skip r2)) as [[ws r3]|] eqn:E2; [|done]. injection H as <- _.
    apply elem_of_cons in Hv as [->|Hv]; [by eapply IHv|by eapply IHe].
  - intros d s vs r. cbn [fields]. intros H Hd k v w Hv Hw. destruct (expect quote s) as [s1|]; [|done]. cbn [mbind option_bind] in H.
    destruct (scan_string s1) as [[key s2]|]; [|done]. cbn [mbind option_bind] in H.
    destruct (expect ":" (skip s2)) as [s3|]; [|done]. cbn [mbind option_bind] in H.
    destruct (value f d (skip s3)) as [[v1 s4]|] eqn:E; [|done]. cbn [mbind option_bind] in H.
    destruct (expect "}" (skip s4)).
    { injection H as <- _. apply list_elem_of_singleton in Hv as [= -> ->]. by eapply IHv. }
    destruct (expect "," (skip s4)) as [s5|]; [|done]. cbn [mbind option_bind] in H.
    destruct (fields f d (skip s5)) as [[ws r3]|] eqn:E2; [|done]. injection H as <- _.
    apply elem_of_cons in Hv as [[= -> ->]|Hv]; [by eapply IHv|by eapply IHf].
Qed.

(** Every value in a text that is one JSON value reads back. *)
Lemma parse_parts s v w : parse s = Some v → part w v → rereads w.
Proof.
  unfold parse. destruct (value _ _ (skip s)) as [[v' r]|] eqn:E; [|done].
  cbn [mbind option_bind]. destruct (skip r); [|done]. intros [= ->] H.
  exact (proj1 (readers_parts _) _ _ _ _ E (le_n _) w H).
Qed.

(** [u] is an item or the value of a member of [v]. *)
Definition inner (u v : json) : Prop :=
  match v with
  | JArr _ items => u ∈ items
  | JObj _ ms => ∃ k, (k, u) ∈ ms
  | _ => False
  end.

Lemma inner_part u v w : inner u v → part w u → part w v.
Proof. destruct v; cbn; try done; [by intros; eapply part_item|]. intros [k ?]. by eapply part_member. Qed.

Fixpoint json_induction (P : json → Prop) (step : ∀ v, (∀ u, inner u v → P u) → P v) (v : json) {struct v} : P v.
Proof.
  apply step. destruct v as [| | | |raw items|raw ms]; try done.
  - induction items as [|w items IH]; intros u Hu; [by apply elem_of_nil in Hu|].
    apply elem_of_cons in Hu as [->|Hu]; [by apply json_induction|by apply IH].
  - induction ms as [|[k w] ms IH]; intros u [k' Hu]; [by apply elem_of_nil in Hu|].
    apply elem_of_cons in Hu as [[= -> ->]|Hu]; [by apply json_induction|apply IH; by exists k'].
Defined.

(** Induction over the values inside a value, at any depth. *)
Lemma parts_induction (P : json → Prop) :
  (∀ v, (∀ u w, inner u v → part w u → P w) → P v) → ∀ v, P v.
Proof.
  intros step v. cut (∀ w, part w v → P w); [intros H; apply H; constructor|].
  induction v as [v IH] using json_induction. intros w Hw.
  assert (w = v ∨ ∃ u, inner u v ∧ part w u) as [->|(u & Hu & Hw')].
  { destruct Hw as [|raw items u ?|raw ms k u ?]; [by left|right; by exists u|right; exists u; split; [by exists k|done]]. }
  - apply step. intros u w' Hu Hw'. by eapply IH.
  - by eapply IH.
Qed.

(** ** A value is read from its own text *)

Lemma skip_split s : ∃ w, s = w ++ skip s ∧ Forall (λ c, is_space c = true) w.
Proof.
  unfold skip, drop_while. destruct (span is_space s) as [a b] eqn:E. exists a.
  split; [by eapply span_app|by eapply span_all].
Qed.

Lemma skip_spaces w s : Forall (λ c, is_space c = true) w → skip (w ++ s) = skip s.
Proof. induction 1 as [|c w Hc Hw IH]; [done|]. unfold skip, drop_while in *. cbn [app span]. rewrite Hc. by destruct (span is_space (w ++ s)). Qed.

Lemma space_delimited w c r : Forall (λ c, is_space c = true) w → c ∈ delimiters → delimited (w ++ c :: r).
Proof.
  intros Hw Hc. destruct Hw as [|d w Hd _]; [done|]. cbn. unfold is_space in Hd. apply member_true in Hd.
  repeat (apply elem_of_cons in Hd as [->|Hd]; [by apply (bool_decide_unpack _)|]). by apply elem_of_nil in Hd.
Qed.

(** A byte a value may start with. *)
Lemma value_starts f d s x : value f d s = Some x → ∃ c s', s = c :: s' ∧ is_space c = false ∧ c ∉ [","; "]"; "}"; ":"]%char.
Proof.
  destruct f as [|f], s as [|c s]; try done. intros H. exists c, s. split; [done|].
  assert (is_space c = true ∨ c ∈ [","; "]"; "}"; ":"]%char → False) as Hf.
  { intros Hc. assert (c ∈ [" "; "009"; "010"; "013"; ","; "]"; "}"; ":"]%char) as Hc'.
    { destruct Hc as [Hc|Hc]; [unfold is_space in Hc; apply member_true in Hc|]; set_solver. }
    cbn [value] in H. repeat (apply elem_of_cons in Hc' as [->|Hc']; [done|]). by apply elem_of_nil in Hc'. }
  split; [apply not_true_is_false|]; eauto.
Qed.

(** What is read before [r] is read from its own text before anything else, as long as it is
    delimited. *)
Definition value_local (f : nat) : Prop := ∀ d s v r, value f d s = Some (v, r) →
  ∃ t, s = t ++ r ∧ ∀ r', delimited r' → value f d (t ++ r') = Some (v, r').
Definition elements_local (f : nat) : Prop := ∀ d s vs r, elements f d s = Some (vs, r) →
  ∃ t, s = t ++ r ∧ t ≠ [] ∧ ∀ r', elements f d (t ++ r') = Some (vs, r').
Definition fields_local (f : nat) : Prop := ∀ d s ms r, fields f d s = Some (ms, r) →
  ∃ t, s = t ++ r ∧ t ≠ [] ∧ ∀ r', fields f d (t ++ r') = Some (ms, r').

Lemma before_rest t r : before (t ++ r) r = t.
Proof. unfold before. rewrite length_app, Nat.add_sub. by rewrite take_app_length. Qed.

Lemma skip_skip s : skip (skip s) = skip s.
Proof. destruct (skip_split s) as (w & E & Hw). by rewrite <-(skip_spaces w (skip s) Hw), <-E. Qed.

Lemma skip_head s t r r' : skip s = t ++ r → t ≠ [] → skip (t ++ r') = t ++ r'.
Proof.
  intros Et Hne. pose proof (skip_skip s) as Hs. rewrite Et in Hs. destruct t as [|c t]; [done|]. cbn [app] in *. apply skip_cons.
  destruct (is_space c) eqn:E; [|done]. apply (f_equal length) in Hs. unfold skip, drop_while in Hs. cbn [span] in Hs. rewrite E in Hs.
  destruct (span is_space (t ++ r)) as [a b] eqn:Eb. cbn [snd] in Hs. pose proof (span_app _ _ _ _ Eb) as Hb.
  apply (f_equal length) in Hb. cbn [length] in Hs. rewrite !length_app in *. lia.
Qed.

(** The text of the items or members of a container, up to its closing bracket. *)
Lemma container_local {A} (reads : bytes → option (A * bytes)) close s (x : A) r :
  expect close (skip s) = None →
  (∃ t, skip s = t ++ r ∧ t ≠ [] ∧ ∀ r', reads (t ++ r') = Some (x, r')) →
  ∃ t, s = t ++ r ∧ ∀ r', expect close (skip (t ++ r')) = None ∧ reads (skip (t ++ r')) = Some (x, r').
Proof.
  intros Hx (t & Et & Hne & Ht). destruct (skip_split s) as (w & Es & Hw).
  exists (w ++ t). split; [by rewrite Es at 1; rewrite Et, (assoc_L (++))|]. intros r'. rewrite <-(assoc_L (++)), skip_spaces by done.
  rewrite (skip_head _ _ _ r' Et Hne). split; [|apply Ht]. rewrite Et in Hx. destruct t as [|c t]; [done|]. cbn [app] in *.
  destruct (decide (c = close)) as [->|Hn]; [by rewrite expect_cons in Hx|by apply expect_other].
Qed.

Lemma empty_local close s r : expect close (skip s) = Some r → ∃ t, s = t ++ r ∧ ∀ r', expect close (skip (t ++ r')) = Some r'.
Proof.
  intros E%expect_Some. destruct (skip_split s) as (w & Es & Hw). exists (w ++ [close]).
  split; [by rewrite Es at 1; rewrite E, <-(assoc_L (++))|]. intros r'. rewrite <-(assoc_L (++)), skip_spaces by done. cbn [app].
  rewrite <-(expect_cons close r'). f_equal. by apply (skip_head s [close] r).
Qed.

Lemma value_step_local f : elements_local f → fields_local f → value_local (S f).
Proof.
  intros He Hf d [|c s] v r; [done|]. cbn [value].
  destruct (eqb c quote) eqn:Q.
  { destruct (scan_string s) as [[b r1]|] eqn:E; [|done]. intros [= <- <-]. apply scan_string_reads in E as [-> H].
    exists (c :: b ++ [quote]). split; [cbn; by rewrite <-(assoc_L (++))|]. intros r' _. cbn [app value]. rewrite Q, <-(assoc_L (++)). cbn [app]. by rewrite H. }
  assert (Hb : ∀ t r', before (c :: t ++ r') r' = c :: t) by (intros; by rewrite app_comm_cons, before_rest).
  destruct (eqb c "["%char) eqn:A.
  { destruct d as [|d]; [done|]. destruct (expect "]" (skip s)) as [r1|] eqn:E.
    - intros [= <- <-]. destruct (empty_local _ _ _ E) as (t & -> & Ht). exists (c :: t). split; [done|]. intros r' _.
      cbn [app value]. by rewrite Q, A, Ht, !Hb.
    - destruct (elements f d (skip s)) as [[vs r1]|] eqn:E1; [|done]. intros [= <- <-].
      destruct (container_local (elements f d) "]" s vs r1 E) as (t & -> & Ht); [by apply He|]. exists (c :: t). split; [done|]. intros r' _.
      destruct (Ht r') as [H1 H2]. cbn [app value]. rewrite Q, A, H1, H2. cbn [mbind option_bind]. by rewrite !Hb. }
  destruct (eqb c "{"%char) eqn:O.
  { destruct d as [|d]; [done|]. destruct (expect "}" (skip s)) as [r1|] eqn:E.
    - intros [= <- <-]. destruct (empty_local _ _ _ E) as (t & -> & Ht). exists (c :: t). split; [done|]. intros r' _.
      cbn [app value]. by rewrite Q, A, O, Ht, !Hb.
    - destruct (fields f d (skip s)) as [[vs r1]|] eqn:E1; [|done]. intros [= <- <-].
      destruct (container_local (fields f d) "}" s vs r1 E) as (t & -> & Ht); [by apply Hf|]. exists (c :: t). split; [done|]. intros r' _.
      destruct (Ht r') as [H1 H2]. cbn [app value]. rewrite Q, A, O, H1, H2. cbn [mbind option_bind]. by rewrite !Hb. }
  assert (Hl : ∀ p v0, (rest ← literal p s; Some (v0, rest)) = Some (v, r) → s = p ++ r ∧ v = v0 ∧ ∀ r', (rest ← literal p (p ++ r'); Some (v0, rest)) = Some (v, r')).
  { intros p v0 H. destruct (literal p s) as [r1|] eqn:E; [|done]. injection H as <- <-. apply literal_Some in E as ->.
    split_and!; [done..|]. intros r'. by rewrite (proj2 (literal_Some p (p ++ r') r') eq_refl). }
  destruct (eqb c "n"%char) eqn:N.
  { intros (Es & -> & H)%Hl. exists (c :: bytes_of "ull"). split; [by rewrite Es|]. intros r' _. cbn [app value]. rewrite Q, A, O, N. apply H. }
  destruct (eqb c "t"%char) eqn:T.
  { intros (Es & -> & H)%Hl. exists (c :: bytes_of "rue"). split; [by rewrite Es|]. intros r' _. cbn [app value]. rewrite Q, A, O, N, T. apply H. }
  destruct (eqb c "f"%char) eqn:F.
  { intros (Es & -> & H)%Hl. exists (c :: bytes_of "alse"). split; [by rewrite Es|]. intros r' _. cbn [app value]. rewrite Q, A, O, N, T, F. apply H. }
  destruct (scan_number (c :: s)) as [[t r1]|] eqn:E; [|done]. intros [= <- <-].
  apply scan_number_reads in E as (Et & (c' & t' & -> & _) & H). injection Et as <- ->. exists (c :: t'). split; [done|].
  intros r' Hr. specialize (H r' Hr). cbn [app value] in *. by rewrite Q, A, O, N, T, F, H.
Qed.

(** A separator or a bracket after white space. *)
Lemma mark_local x r r1 : expect x (skip r) = Some r1 → ∃ w, r = w ++ x :: r1 ∧ Forall (λ c, is_space c = true) w.
Proof. intros E%expect_Some. destruct (skip_split r) as (w & Es & Hw). exists w. by rewrite Es, E at 1. Qed.

Lemma mark_read x w r : is_space x = false → Forall (λ c, is_space c = true) w → skip (w ++ x :: r) = x :: r.
Proof. intros Hx Hw. rewrite skip_spaces by done. by apply skip_cons. Qed.

Lemma elements_step_local f : value_local f → elements_local f → elements_local (S f).
Proof.
  intros Hv He d s vs r. cbn [elements]. destruct (value f d s) as [[v r1]|] eqn:E; [|done]. cbn [mbind option_bind].
  destruct (value_starts _ _ _ _ E) as (c & s' & -> & _). destruct (Hv _ _ _ _ E) as (t & Es & Ht).
  assert (Hne : t ≠ []). { intros ->. pose proof (proj1 (readers_ok f) _ _ _ _ E) as [Hl _]. rewrite Es in Hl. cbn in Hl. lia. }
  destruct (expect "]" (skip r1)) as [r2|] eqn:E2.
  - intros [= <- <-]. destruct (mark_local _ _ _ E2) as (w & -> & Hw). exists (t ++ w ++ ["]"%char]). split_and!.
    + by rewrite Es, <-!(assoc_L (++)).
    + by destruct t.
    + intros r'. rewrite <-!(assoc_L (++)). cbn [app]. rewrite Ht by (apply space_delimited; [done|by apply (bool_decide_unpack _)]).
      cbn [mbind option_bind]. by rewrite mark_read, expect_cons.
  - destruct (expect "," (skip r1)) as [r2|] eqn:E3; [|done]. cbn [mbind option_bind]. destruct (mark_local _ _ _ E3) as (w & -> & Hw).
    destruct (elements f d (skip r2)) as [[ws r3]|] eqn:E4; [|done]. intros [= <- <-].
    destruct (He _ _ _ _ E4) as (t2 & Et2 & Hne2 & Ht2). destruct (skip_split r2) as (w2 & Er2 & Hw2).
    exists (t ++ w ++ ","%char :: w2 ++ t2). split_and!.
    + rewrite Es, Er2, Et2. by rewrite <-!(assoc_L (++)); cbn [app]; rewrite <-!(assoc_L (++)).
    + by destruct t.
    + intros r'. rewrite <-!(assoc_L (++)). cbn [app]. rewrite <-(assoc_L (++)).
      rewrite Ht by (apply space_delimited; [done|by apply (bool_decide_unpack _)]).
      cbn [mbind option_bind]. rewrite mark_read, expect_cons, expect_other by done. cbn [mbind option_bind].
      by rewrite skip_spaces, (skip_head _ _ _ r' Et2 Hne2), Ht2.
Qed.

Lemma fields_step_local f : value_local f → fields_local f → fields_local (S f).
Proof.
  intros Hv Hf d s ms r H. cbn [fields] in H. revert H. destruct (expect quote s) as [s1|] eqn:E0; [|done]. apply expect_Some in E0 as ->. cbn [mbind option_bind].
  destruct (scan_string s1) as [[key s2]|] eqn:E1; [|done]. cbn [mbind option_bind]. apply scan_string_reads in E1 as [-> Hk].
  destruct (expect ":" (skip s2)) as [s3|] eqn:E2; [|done]. cbn [mbind option_bind]. destruct (mark_local _ _ _ E2) as (w1 & -> & Hw1).
  destruct (value f d (skip s3)) as [[v s4]|] eqn:E; [|done]. cbn [mbind option_bind]. destruct (Hv _ _ _ _ E) as (t & Es & Ht).
  assert (Hne : t ≠ []).
  { intros ->. destruct (value_starts _ _ _ _ E) as (c & s' & Ec & _). pose proof (proj1 (readers_ok f) _ _ _ _ E) as [Hl _]. rewrite Es in Hl. cbn in Hl. lia. }
  destruct (skip_split s3) as (w2 & Er3 & Hw2).
  assert (Hhead : ∀ q, delimited q → ∀ k, fields (S f) d ((quote :: key ++ quote :: w1 ++ ":"%char :: w2 ++ t) ++ q) = k ↔
    match expect "}" (skip q) with
    | Some rest => Some ([(key, v)], rest)
    | None => rest ← expect "," (skip q); '(ms, rest) ← fields f d (skip rest); Some ((key, v) :: ms, rest)
    end = k).
  { intros q Hq k. cbn [app fields]. rewrite <-(assoc_L (++)). cbn [app]. rewrite expect_cons. cbn [mbind option_bind]. rewrite Hk. cbn [mbind option_bind].
    rewrite <-(assoc_L (++)). cbn [app]. rewrite mark_read, expect_cons by done. cbn [mbind option_bind]. rewrite <-(assoc_L (++)), skip_spaces by done.
    rewrite (skip_head _ _ _ q Es Hne). rewrite Ht by done. done. }
  assert (Hs : quote :: key ++ quote :: w1 ++ ":"%char :: s3 = (quote :: key ++ quote :: w1 ++ ":"%char :: w2 ++ t) ++ s4).
  { rewrite Er3, Es. cbn [app]. rewrite <-(assoc_L (++)). cbn [app]. rewrite <-(assoc_L (++)). cbn [app]. by rewrite <-(assoc_L (++)). }
  destruct (expect "}" (skip s4)) as [s5|] eqn:E4.
  - intros [= <- <-]. destruct (mark_local _ _ _ E4) as (w & -> & Hw). rewrite Hs.
    exists ((quote :: key ++ quote :: w1 ++ ":"%char :: w2 ++ t) ++ w ++ ["}"%char]). split_and!; [by rewrite <-!(assoc_L (++))|done|].
    intros r'. rewrite <-!(assoc_L (++) (_ :: _)), <-(assoc_L (++)). apply Hhead; [apply space_delimited; [done|by apply (bool_decide_unpack _)]|].
    cbn [app]. by rewrite mark_read, expect_cons.
  - destruct (expect "," (skip s4)) as [s5|] eqn:E5; [|done]. cbn [mbind option_bind]. destruct (mark_local _ _ _ E5) as (w & -> & Hw).
    destruct (fields f d (skip s5)) as [[ws s6]|] eqn:E6; [|done]. intros [= <- <-].
    destruct (Hf _ _ _ _ E6) as (t2 & Et2 & Hne2 & Ht2). destruct (skip_split s5) as (w3 & Er5 & Hw3). rewrite Hs.
    exists ((quote :: key ++ quote :: w1 ++ ":"%char :: w2 ++ t) ++ w ++ ","%char :: w3 ++ t2). split_and!.
    + rewrite Er5, Et2. by rewrite <-!(assoc_L (++)); cbn [app]; rewrite <-!(assoc_L (++)).
    + done.
    + intros r'.
      refine (eq_trans (y := fields (S f) d ((quote :: key ++ quote :: w1 ++ ":"%char :: w2 ++ t) ++ (w ++ ","%char :: w3 ++ t2 ++ r'))) (f_equal (fields (S f) d) _) _).
      { rewrite <-(assoc_L (++)). f_equal. rewrite <-(assoc_L (++)). f_equal. cbn [app]. f_equal. by rewrite <-(assoc_L (++)). }
      apply Hhead; [apply space_delimited; [done|by apply (bool_decide_unpack _)]|].
      rewrite mark_read, expect_cons, expect_other by done. cbn [mbind option_bind]. by rewrite skip_spaces, (skip_head _ _ _ r' Et2 Hne2), Ht2.
Qed.

Lemma readers_local f : value_local f ∧ elements_local f ∧ fields_local f.
Proof.
  induction f as [|f (Hv & He & Hf)]; [by split_and!|].
  split_and!; [by apply value_step_local|by apply elements_step_local|by apply fields_step_local].
Qed.

(** The text of a value a document holds is that value. *)
Lemma value_own f d s v r : value f d s = Some (v, r) → d ≤ maxNestingDepth → ∃ t, s = t ++ r ∧ parse t = Some v.
Proof.
  intros E Hd. destruct (proj1 (readers_local f) _ _ _ _ E) as (t & -> & Ht). exists t. split; [done|].
  specialize (Ht [] I). rewrite app_nil_r in Ht. destruct (value_starts _ _ _ _ Ht) as (c & s' & -> & Hc & _).
  unfold parse. rewrite skip_cons by done.
  pose proof (proj1 (fuel_enough _) _ _ _ (2 + 2 * length (c :: s')) Ht ltac:(lia)) as H3.
  by rewrite (proj1 (deeper _) _ maxNestingDepth _ _ H3).
Qed.

(** ** A compact text has no control characters *)

Lemma scan_string_clean s b r : scan_string s = Some (b, r) → clean b.
Proof.
  remember (length s) as n eqn:Hn. revert s Hn b r.
  induction (lt_wf n) as [n _ IH]. intros s -> b r. destruct s as [|c s]; [done|]. cbn [scan_string].
  assert (∀ s' b' r', length s' < length (c :: s) → scan_string s' = Some (b', r') → clean b') as IH'.
  { intros s' b' r' Hl. by eapply IH. }
  destruct (eqb c quote); [intros [= <- <-]; constructor|].
  destruct (eqb c backslash) eqn:Eb.
  - apply eqb_true in Eb as ->. destruct s as [|f s]; [done|].
    destruct (is_escape f) eqn:Ef.
    + destruct (scan_string s) as [[b' r']|] eqn:E; [|done]. intros [= <- <-].
      apply IH' in E; [|simpl; lia]. unfold is_escape in Ef. apply member_true in Ef.
      rewrite !clean_cons. split_and!; [done| |done]. cbn in Ef.
      by repeat (apply elem_of_cons in Ef as [->|Ef]; [done|]); apply elem_of_nil in Ef.
    + destruct (eqb f "u"%char) eqn:Eu; [|done]. apply eqb_true in Eu as ->.
      destruct s as [|a1 [|a2 [|a3 [|a4 s]]]]; try done.
      destruct (all is_hex _) eqn:Eh; [|done]. destruct (scan_string s) as [[b' r']|] eqn:E; [|done].
      intros [= <- <-]. apply IH' in E; [|simpl; lia]. apply all_Forall in Eh.
      assert (clean [a1; a2; a3; a4]) as Hc.
      { eapply Forall_impl; [exact Eh|]. intros x. cbn beta. unfold is_hex, is_digit, within.
        rewrite !orb_true_iff, !andb_true_iff, !N.leb_le. simpl. lia. }
      rewrite !clean_cons in *. destruct Hc as (? & ? & ? & ? & _). by split_and!.
  - destruct (N_of_ascii c <? 32)%N eqn:Ec; [done|]. apply N.ltb_ge in Ec.
    destruct (scan_string s) as [[b' r']|] eqn:E; [|done]. intros [= <- <-].
    apply IH' in E; [|simpl; lia]. by rewrite clean_cons.
Qed.

Lemma digits_clean s t r : digits s = Some (t, r) → clean t.
Proof.
  unfold digits. destruct (span is_digit s) as [[|d ds] r'] eqn:E; [done|]. intros [= <- <-].
  apply span_all in E. by apply clean_digits.
Qed.

Lemma scan_number_clean s t r : scan_number s = Some (t, r) → clean t.
Proof.
  unfold scan_number.
  destruct (match expect "-" s with Some s => (["-"%char], s) | None => ([], s) end) as [sign s1] eqn:E0.
  assert (clean sign) by (destruct (expect "-" s); injection E0 as <- _; clean_tac).
  destruct (scan_integer s1) as [[int s2]|] eqn:E1; [|done]. cbn [mbind option_bind].
  assert (clean int).
  { unfold scan_integer in E1. destruct (expect "0" s1); [injection E1 as <- _; clean_tac|by eapply digits_clean]. }
  destruct (scan_fraction s2) as [[frac s3]|] eqn:E2; [|done]. cbn [mbind option_bind].
  assert (clean frac).
  { unfold scan_fraction in E2. destruct (expect "." s2) as [s2'|]; [|injection E2 as <- _; constructor].
    destruct (digits s2') as [[ds r']|] eqn:E; [|done]. injection E2 as <- _. apply digits_clean in E. clean_tac. }
  destruct (scan_exponent s3) as [[exp s4]|] eqn:E3; [|done]. intros [= <- <-].
  assert (clean exp); [|by clean_tac].
  unfold scan_exponent in E3. destruct s3 as [|c s3]; [injection E3 as <- _; constructor|].
  destruct (_ || _) eqn:Ec; [|injection E3 as <- _; constructor].
  destruct s3 as [|d s3]; [done|].
  assert ((32 ≤ N_of_ascii c)%N) by (apply orb_true_iff in Ec as [->%eqb_true| ->%eqb_true]; done).
  destruct (is_sign d) eqn:Es; cbn [mbind option_bind] in E3;
    destruct (digits _) as [[ds r']|] eqn:E; try done; injection E3 as <- _; apply digits_clean in E; [|clean_tac].
  assert ((32 ≤ N_of_ascii d)%N) by (apply orb_true_iff in Es as [->%eqb_true| ->%eqb_true]; done). clean_tac.
Qed.

Lemma joined_clean l : Forall clean l → clean (joined [","%char] l).
Proof.
  induction 1 as [|x l Hx Hl IH]; [constructor|]. destruct l as [|y l]; [done|].
  rewrite joined_cons by done. clean_tac.
Qed.

Definition clean_value (v : json) : Prop := clean (compact v).
Definition clean_member (m : bytes * json) : Prop := clean (compact_member m).

Lemma readers_clean f :
  (∀ d s v r, value f d s = Some (v, r) → clean_value v)
  ∧ (∀ d s vs r, elements f d s = Some (vs, r) → Forall clean_value vs)
  ∧ (∀ d s ms r, fields f d s = Some (ms, r) → Forall clean_member ms).
Proof.
  unfold clean_value, clean_member. induction f as [|f (IHv & IHe & IHf)]; [done|]. split_and!.
  - intros d [|c s] v r; [done|]. cbn [value].
    destruct (eqb c quote).
    { destruct (scan_string s) as [[b r']|] eqn:E; [|done]. intros [= <- <-]. apply scan_string_clean in E.
      cbn [compact]. clean_tac. }
    destruct (eqb c "["%char).
    { destruct d; [done|]. destruct (expect "]" (skip s)); [intros [= <- <-]; clean_tac|].
      destruct (elements f d (skip s)) as [[vs r']|] eqn:E; [|done]. intros [= <- <-]. apply IHe in E.
      cbn [compact]. assert (clean (joined [","%char] (map compact vs))); [|clean_tac].
      apply joined_clean, Forall_map, E. }
    destruct (eqb c "{"%char).
    { destruct d; [done|]. destruct (expect "}" (skip s)); [intros [= <- <-]; clean_tac|].
      destruct (fields f d (skip s)) as [[ms r']|] eqn:E; [|done]. intros [= <- <-]. apply IHf in E.
      cbn [compact]. assert (clean (joined [","%char] (map compact_member ms))); [|clean_tac].
      apply joined_clean, Forall_map, E. }
    do 3 (destruct (eqb c _); [destruct (literal _ s); [|done]; intros [= <- <-]; clean_tac|]).
    destruct (scan_number (c :: s)) as [[t r']|] eqn:E; [|done]. intros [= <- <-]. by apply scan_number_clean in E.
  - intros d s vs r. cbn [elements]. destruct (value f d s) as [[v r1]|] eqn:E1; [|done]. cbn [mbind option_bind].
    apply IHv in E1. destruct (expect "]" (skip r1)); [intros [= <- <-]; by constructor|].
    destruct (expect "," (skip r1)) as [r2|]; [|done]. cbn [mbind option_bind].
    destruct (elements f d (skip r2)) as [[ws r3]|] eqn:E2; [|done]. intros [= <- <-]. apply IHe in E2. by constructor.
  - intros d s ms r. cbn [fields]. destruct (expect quote s) as [s1|]; [|done]. cbn [mbind option_bind].
    destruct (scan_string s1) as [[key s2]|] eqn:E1; [|done]. cbn [mbind option_bind]. apply scan_string_clean in E1.
    destruct (expect ":" (skip s2)) as [s3|]; [|done]. cbn [mbind option_bind].
    destruct (value f d (skip s3)) as [[v s4]|] eqn:E3; [|done]. cbn [mbind option_bind]. apply IHv in E3.
    assert (clean (compact_member (key, v))) by (unfold compact_member; cbn [fst snd]; clean_tac).
    destruct (expect "}" (skip s4)); [intros [= <- <-]; by constructor|].
    destruct (expect "," (skip s4)) as [s5|]; [|done]. cbn [mbind option_bind].
    destruct (fields f d (skip s5)) as [[ws r3]|] eqn:E2; [|done]. intros [= <- <-]. apply IHf in E2. by constructor.
Qed.

Lemma Compact_clean s c : Compact s = Some c → clean c.
Proof.
  unfold Compact, parse. destruct (value _ _ (skip s)) as [[v r]|] eqn:E; [|done].
  cbn [mbind option_bind]. destruct (skip r); [|done]. intros [= <-]. by eapply readers_clean.
Qed.

(** ** Nesting *)

(** The arrays and objects that stand around the innermost part of a value. *)
Fixpoint nesting (v : json) : nat :=
  match v with
  | JArr _ items => S (max_list_with nesting items)
  | JObj _ members => S (max_list_with (λ m, nesting m.2) members)
  | _ => 0
  end.

(** A value is read below any limit it is nested within, and below no other. *)
Lemma nesting_limit f :
  (∀ d s v r, value f d s = Some (v, r) → nesting v ≤ d ∧ ∀ d', nesting v ≤ d' → value f d' s = Some (v, r))
  ∧ (∀ d s l r, elements f d s = Some (l, r) → max_list_with nesting l ≤ d ∧ ∀ d', max_list_with nesting l ≤ d' → elements f d' s = Some (l, r))
  ∧ (∀ d s ms r, fields f d s = Some (ms, r) →
      max_list_with (λ m, nesting m.2) ms ≤ d ∧ ∀ d', max_list_with (λ m, nesting m.2) ms ≤ d' → fields f d' s = Some (ms, r)).
Proof.
  induction f as [|f (IHv & IHe & IHf)]; [done|]. split_and!.
  - intros d [|c s] v r; [done|]. cbn [value]. intros E. destruct (eqb c quote).
    { destruct (scan_string s) as [[b r']|]; [|done]. injection E as <- <-. cbn [nesting]. split; [lia|done]. }
    destruct (eqb c "["%char).
    { destruct d as [|d]; [done|]. destruct (expect "]" (skip s)) as [r'|].
      - injection E as <- <-. cbn. split; [lia|]. by intros [|d'] Hd; [lia|].
      - destruct (elements f d (skip s)) as [[l r']|] eqn:El; [|done]. apply IHe in El as [Hl El]. injection E as <- <-. cbn [nesting].
        split; [lia|]. intros [|d'] Hd; [lia|]. by rewrite El by lia. }
    destruct (eqb c "{"%char).
    { destruct d as [|d]; [done|]. destruct (expect "}" (skip s)) as [r'|].
      - injection E as <- <-. cbn. split; [lia|]. by intros [|d'] Hd; [lia|].
      - destruct (fields f d (skip s)) as [[l r']|] eqn:El; [|done]. apply IHf in El as [Hl El]. injection E as <- <-. cbn [nesting].
        split; [lia|]. intros [|d'] Hd; [lia|]. by rewrite El by lia. }
    repeat case_match; try (apply bind_Some in E as (r' & Er & E); injection E as <- <-; cbn [nesting]; rewrite Er; split; [lia|done]).
    apply bind_Some in E as ([t r'] & Er & E). injection E as <- <-. cbn [nesting]. rewrite Er. split; [lia|done].
  - intros d s l r E. cbn [elements] in *. apply bind_Some in E as ([v r'] & Ev & E). apply IHv in Ev as [Hv Ev].
    destruct (expect "]" (skip r')) eqn:Ex.
    + injection E as <- <-. cbn [max_list_with]. split; [lia|]. intros d' Hd. rewrite Ev by lia. cbn [mbind option_bind]. by rewrite Ex.
    + apply bind_Some in E as (r1 & E1 & E). apply bind_Some in E as ([vs r2] & E2 & E). apply IHe in E2 as [Hs E2]. injection E as <- <-.
      cbn [max_list_with]. split; [lia|]. intros d' Hd. rewrite Ev by lia. cbn [mbind option_bind]. rewrite Ex, E1. cbn [mbind option_bind]. by rewrite E2 by lia.
  - intros d s l r E. cbn [fields] in *. apply bind_Some in E as (s1 & Es & E). apply bind_Some in E as ([k r0] & Ek & E).
    apply bind_Some in E as (r1 & Er & E). apply bind_Some in E as ([v r'] & Ev & E). apply IHv in Ev as [Hv Ev].
    rewrite Es. cbn [mbind option_bind]. rewrite Ek. cbn [mbind option_bind]. rewrite Er. cbn [mbind option_bind].
    destruct (expect "}" (skip r')) eqn:Ex.
    + injection E as <- <-. cbn [max_list_with snd]. split; [lia|]. intros d' Hd. rewrite Ev by lia. cbn [mbind option_bind]. by rewrite Ex.
    + apply bind_Some in E as (r2 & E1 & E). apply bind_Some in E as ([vs r3] & E2 & E). apply IHf in E2 as [Hs E2]. injection E as <- <-.
      cbn [max_list_with snd]. split; [lia|]. intros d' Hd. rewrite Ev by lia. cbn [mbind option_bind]. rewrite Ex, E1. cbn [mbind option_bind]. by rewrite E2 by lia.
Qed.

(** Whether a text is one JSON value that may stand inside [outside] arrays and objects. *)
Definition fits (outside : Z) (s : bytes) : bool :=
  match parse s with
  | Some v => (outside + Z.of_nat (nesting v) <=? 10000)%Z
  | None => false
  end.

(** It is what the scanner reads with so many levels of its limit taken. *)
Lemma fits_read outside s :
  (0 ≤ outside ≤ 10000)%Z →
  fits outside s = true ↔
  ∃ v r, value (2 + 2 * length s) (maxNestingDepth - Z.to_nat outside) (skip s) = Some (v, r) ∧ skip r = [].
Proof.
  intros Ho. unfold fits, parse. set (n := 2 + 2 * length s). assert (Hm : Z.of_nat maxNestingDepth = 10000%Z) by done.
  split.
  - destruct (value n maxNestingDepth (skip s)) as [[v r]|] eqn:E; [|done]. cbn [mbind option_bind].
    destruct (skip r) eqn:Er; [|done]. intros H%Z.leb_le. exists v, r. split; [|done]. apply (proj1 (nesting_limit n)) in E as [_ E]. apply E. lia.
  - intros (v & r & E & Er). destruct (proj1 (nesting_limit n) _ _ _ _ E) as [Hn _].
    rewrite (proj1 (deeper n) _ maxNestingDepth _ _ E) by lia. cbn [mbind option_bind]. rewrite Er. apply Z.leb_le. lia.
Qed.

End Json.
