(* ===== verification/GoText.v ===== *)
(** * Go text: UTF-8, runes, and the quoting of [%q]

    What the packages use of Go's [unicode/utf8] and [strconv]: decoding a string to
    runes with the replacement rune for invalid bytes, encoding a rune, and
    [strconv.Quote]. Which runes past ASCII are printable, letters, or spaces is the
    Unicode table of the Go release, an interface here ([UnicodeTable]). *)
From S2P Require Import Prelude.

Module GoText.

Notation rune := N (only parsing).
Definition RuneError : rune := 65533%N.

(** The tables of package unicode, for runes past U+007F. *)
Class UnicodeTable := {
  print_table : rune → bool;
  letter_table : rune → bool;
  digit_table : rune → bool;
}.

Definition byte_in (lo hi : N) (c : ascii) : bool := ((lo <=? N_of_ascii c) && (N_of_ascii c <=? hi))%N.
Definition tail_bits (c : ascii) : N := (N_of_ascii c - 128)%N.

(** The range of the second byte of a sequence that starts with [b0], and the number
    of continuation bytes; [None] for a byte no sequence starts with. *)
Definition lead (b0 : ascii) : option (nat * N * N * N) :=
  let b := N_of_ascii b0 in
  if byte_in 194 223 b0 then Some (1%nat, 128, 191, b - 192)%N
  else if eqb b 224%N then Some (2%nat, 160, 191, 0)%N
  else if eqb b 237%N then Some (2%nat, 128, 159, 13)%N
  else if byte_in 225 239 b0 then Some (2%nat, 128, 191, b - 224)%N
  else if eqb b 240%N then Some (3%nat, 144, 191, 0)%N
  else if byte_in 241 243 b0 then Some (3%nat, 128, 191, b - 240)%N
  else if eqb b 244%N then Some (3%nat, 128, 143, 4)%N
  else None.

(** [n] continuation bytes, added to the bits read so far. *)
Fixpoint continuation (n : nat) (bits : N) (s : bytes) : option N :=
  match n, s with
  | 0, _ => Some bits
  | S n, c :: s => if byte_in 128 191 c then continuation n (bits * 64 + tail_bits c)%N s else None
  | S _, [] => None
  end.

(** [utf8.DecodeRuneInString]: the rune a string starts with and its width; the
    replacement rune and 1 for an invalid byte, and 0 for an empty string. *)
Definition DecodeRune (s : bytes) : rune * nat :=
  match s with
  | [] => (RuneError, 0)
  | b0 :: s' =>
      if (N_of_ascii b0 <? 128)%N then (N_of_ascii b0, 1)
      else
        match lead b0, s' with
        | Some (n, lo, hi, bits), b1 :: _ =>
            if byte_in lo hi b1 then
              match continuation n bits s' with
              | Some r => (r, S n)
              | None => (RuneError, 1)
              end
            else (RuneError, 1)
        | _, _ => (RuneError, 1)
        end
  end.

(** The runes of a string, each with the bytes it was decoded from. *)
Fixpoint decode (fuel : nat) (s : bytes) : list (rune * bytes) :=
  match fuel, s with
  | 0, _ | _, [] => []
  | S fuel, _ => let '(r, w) := DecodeRune s in (r, take w s) :: decode fuel (drop w s)
  end.

Definition runes (s : bytes) : list (rune * bytes) := decode (length s) s.

Definition byte_of (n : N) : ascii := ascii_of_N n.

(** [utf8.AppendRune] for a valid rune. *)
Definition encode (r : rune) : bytes :=
  (if r <? 128 then [byte_of r]
   else if r <? 2048 then [byte_of (192 + r / 64); byte_of (128 + r mod 64)]
   else if r <? 65536 then
     [byte_of (224 + r / 4096); byte_of (128 + r / 64 mod 64); byte_of (128 + r mod 64)]
   else [byte_of (240 + r / 262144); byte_of (128 + r / 4096 mod 64); byte_of (128 + r / 64 mod 64);
         byte_of (128 + r mod 64)])%N.

Definition hex_digit (n : N) : ascii := byte_of (if n <? 10 then 48 + n else 87 + n)%N.

(** [n] hexadecimal digits of [r]. *)
Fixpoint hex (n : nat) (r : N) : bytes :=
  match n with
  | 0 => []
  | S n => hex n (r / 16) ++ [hex_digit (r mod 16)]
  end.

Section quote.
Context {table : UnicodeTable}.

Definition IsPrint (r : rune) : bool :=
  if (r <? 128)%N then (32 <=? r)%N && (r <? 127)%N else print_table r.

Definition escape_of (r : rune) : option ascii :=
  match r with
  | 7%N => Some "a"%char
  | 8%N => Some "b"%char
  | 12%N => Some "f"%char
  | 10%N => Some "n"%char
  | 13%N => Some "r"%char
  | 9%N => Some "t"%char
  | 11%N => Some "v"%char
  | _ => None
  end.

(** One rune of [strconv.Quote], decoded from the bytes [w]. *)
Definition quote_rune (r : rune) (w : bytes) : bytes :=
  if eqb r RuneError && eqb (length w) 1 then
    bytes_of "\x" ++ hex 2 (from_option N_of_ascii 0%N (head w))
  else if eqb r 34%N || eqb r 92%N then ["\"%char; byte_of r]
  else if IsPrint r then w
  else
    match escape_of r with
    | Some e => ["\"%char; e]
    | None =>
        if (r <? 32)%N || eqb r 127%N then bytes_of "\x" ++ hex 2 r
        else if (r <? 65536)%N then bytes_of "\u" ++ hex 4 r
        else bytes_of "\U" ++ hex 8 r
    end.

(** [strconv.Quote], the verb [%q]. *)
Definition Quote (s : string) : string :=
  string_of ("034"%char :: concat (map (λ rw, quote_rune rw.1 rw.2) (runes (bytes_of s))) ++ ["034"%char]).

(** A rune is an ASCII byte, or is decoded from bytes past ASCII. *)
Definition rune_bytes (rw : N * bytes) : Prop :=
  (∃ c, rw.2 = [c] ∧ N_of_ascii c = rw.1 ∧ (rw.1 < 128)%N)
  ∨ (128 ≤ rw.1)%N ∧ Forall (λ c, (128 ≤ N_of_ascii c)%N) rw.2.

Lemma continuation_bytes n bits s r :
  continuation n bits s = Some r → Forall (λ c, (128 ≤ N_of_ascii c)%N) (take n s) ∧ (bits * 64 ^ N.of_nat n ≤ r)%N.
Proof.
  revert bits s. induction n as [|n IH]; intros bits s.
  { intros [= ->]. split; [constructor|]. rewrite N.pow_0_r. lia. }
  cbn [continuation]. destruct s as [|c s]; [done|]. destruct (byte_in 128 191 c) eqn:E; [|done].
  unfold byte_in in E. apply andb_true_iff in E as [E _]. apply N.leb_le in E.
  intros [H1 H2]%IH. split; [by constructor|].
  rewrite Nat2N.inj_succ, N.pow_succ_r'. revert H2. generalize (64 ^ N.of_nat n)%N. intros p Hp.
  transitivity ((bits * 64 + tail_bits c) * p)%N; [|done]. nia.
Qed.

Lemma lead_past c n lo hi bits :
  lead c = Some (n, lo, hi, bits) → (128 ≤ N_of_ascii c)%N ∧ (128 ≤ lo)%N
    ∧ ((1 ≤ n)%nat ∧ (2 ≤ bits)%N ∨ (2 ≤ n)%nat ∧ ((1 ≤ bits)%N ∨ bits = 0%N ∧ (144 ≤ lo)%N)).
Proof.
  unfold lead, byte_in. repeat case_match; try done; intros [= <- <- <- <-]; bool_simp; lia.
Qed.

Lemma DecodeRune_bytes c s : let '(r, w) := DecodeRune (c :: s) in 1 ≤ w ∧ rune_bytes (r, take w (c :: s)).
Proof.
  cbn [DecodeRune]. destruct (N_of_ascii c <? 128)%N eqn:Ec.
  { apply N.ltb_lt in Ec. split; [done|]. left. by exists c. }
  apply N.ltb_ge in Ec.
  assert (1 ≤ 1 ∧ rune_bytes (RuneError, take 1 (c :: s))) as Hbad.
  { split; [done|]. right. split; [by compute|]. by repeat constructor. }
  destruct (lead c) as [[[[n lo] hi] bits]|] eqn:El; [|done]. destruct s as [|b1 s]; [done|].
  destruct (byte_in lo hi b1) eqn:Eb; [|done].
  destruct (continuation n bits (b1 :: s)) as [r|] eqn:Er; [|done].
  split; [lia|]. right. cbn [fst snd take]. apply lead_past in El as (_ & Hlo & Hn).
  pose proof (continuation_bytes _ _ _ _ Er) as [Hc Hr]. split; [|by constructor].
  unfold byte_in in Eb. apply andb_true_iff in Eb as [Eb _]. apply N.leb_le in Eb.
  destruct Hn as [[Hn Hb]|[Hn [Hb|[-> Hl]]]].
  - assert (64 ^ 1 ≤ 64 ^ N.of_nat n)%N by (apply N.pow_le_mono_r; lia). nia.
  - assert (64 ^ 2 ≤ 64 ^ N.of_nat n)%N by (apply N.pow_le_mono_r; lia). nia.
  - destruct n as [|n]; [lia|]. cbn [continuation] in Er. destruct (byte_in 128 191 b1); [|done].
    apply continuation_bytes in Er as [_ Hr']. unfold tail_bits in Hr'.
    assert (64 ^ 1 ≤ 64 ^ N.of_nat n)%N by (apply N.pow_le_mono_r; lia). nia.
Qed.

Lemma runes_bytes s : Forall rune_bytes (runes s).
Proof.
  unfold runes. generalize (length s) as n. intros n. revert s. induction n as [|n IH]; intros s; [constructor|].
  destruct s as [|c s]; [constructor|]. cbn [decode]. pose proof (DecodeRune_bytes c s) as H.
  destruct (DecodeRune (c :: s)) as [r w]. destruct H. by constructor.
Qed.

Lemma byte_of_N n : (n < 256)%N → N_of_ascii (byte_of n) = n.
Proof. apply N_ascii_embedding. Qed.

Lemma hex_clean n r : clean (hex n r).
Proof.
  revert r. induction n as [|n IH]; intros r; [constructor|]. cbn [hex].
  assert (clean [hex_digit (r mod 16)]); [|clean_tac; apply IH].
  pose proof (N.mod_lt r 16 ltac:(done)) as Hm. revert Hm. generalize (r mod 16)%N. intros m Hm.
  constructor; [|constructor]. unfold hex_digit. destruct (m <? 10)%N; rewrite byte_of_N; lia.
Qed.

Lemma quote_rune_clean rw : rune_bytes rw → clean (quote_rune rw.1 rw.2).
Proof.
  destruct rw as [r w]. cbn [fst snd]. intros H. unfold quote_rune.
  repeat case_match; try (clean_tac; apply hex_clean).
  - apply orb_true_iff in H1 as [->%eqb_true| ->%eqb_true]; clean_tac.
  - unfold IsPrint in H2. destruct H as [(c & Hw & Hc & Hr)|[Hr Hw]]; cbn [fst snd] in *.
    + subst w. rewrite (proj2 (N.ltb_lt _ _) Hr) in H2. apply andb_true_iff in H2 as [H2 _].
      apply N.leb_le in H2. constructor; [lia|constructor].
    + eapply Forall_impl; [exact Hw|]. cbn beta. lia.
  - unfold escape_of in H3. repeat case_match; try done; simplify_eq; clean_tac.
Qed.

(** A quoted string has no control character. *)
Lemma Quote_clean s : clean (bytes_of (Quote s)).
Proof.
  unfold Quote. rewrite bytes_of_string_of. clean_tac.
  assert (Forall clean (map (λ rw, quote_rune rw.1 rw.2) (runes (bytes_of s)))) as H.
  { apply Forall_map. eapply Forall_impl; [apply runes_bytes|]. apply quote_rune_clean. }
  induction H; [constructor|]. cbn [concat]. clean_tac.
Qed.

Lemma Quote_ends s : last (bytes_of (Quote s)) = Some "034"%char.
Proof. unfold Quote. by rewrite bytes_of_string_of, app_comm_cons, last_snoc. Qed.

End quote.

(** A byte that does not continue a sequence: [utf8.RuneStart]. *)
Definition RuneStart (c : ascii) : bool := negb (byte_in 128 191 c).

(** [utf8.DecodeLastRuneInString]. The search for the start of the last rune gives up after
    four bytes; what it decodes then does not end where the string ends, so the rune is
    the replacement rune. *)
Definition lastRune (s : bytes) : rune :=
  match reverse s with
  | [] => RuneError
  | c :: back =>
      if (N_of_ascii c <? 128)%N then N_of_ascii c
      else
        let '(middle, rest) := span (λ c, negb (RuneStart c)) (take 3 back) in
        match rest with
        | [] => RuneError
        | start :: _ =>
            let '(r, w) := DecodeRune (start :: reverse middle ++ [c]) in
            if eqb w (length middle + 2) then r else RuneError
        end
  end.

Definition firstRune (s : bytes) : rune := (DecodeRune s).1.

Section letters.
Context {table : UnicodeTable}.

Definition IsLetter (r : rune) : bool := if (r <? 128)%N then is_letter (byte_of r) else letter_table r.
Definition IsDigit (r : rune) : bool := if (r <? 128)%N then is_digit (byte_of r) else digit_table r.
End letters.

(** ** White space and letter case *)

(** The encodings of the runes [unicode.IsSpace] holds for. *)
Definition space_runes : list rune :=
  [9; 10; 11; 12; 13; 32; 133; 160; 5760; 8192; 8193; 8194; 8195; 8196; 8197; 8198; 8199; 8200; 8201;
   8202; 8232; 8233; 8239; 8287; 12288]%N.

Definition space_texts : list bytes := encode <$> space_runes.

(** [strings.CutPrefix]. *)
Fixpoint cutPrefix (p s : bytes) : option bytes :=
  match p, s with
  | [], _ => Some s
  | x :: p, c :: s => if eqb c x then cutPrefix p s else None
  | _ :: _, [] => None
  end.

(** What follows the first of the texts that [s] starts with. *)
Fixpoint cut_any (texts : list bytes) (s : bytes) : option bytes :=
  match texts with
  | [] => None
  | t :: texts =>
      match cutPrefix t s with
      | Some r => Some r
      | None => cut_any texts s
      end
  end.

Fixpoint trim_left (fuel : nat) (texts : list bytes) (s : bytes) : bytes :=
  match fuel with
  | 0 => s
  | S fuel =>
      match cut_any texts s with
      | Some r => trim_left fuel texts r
      | None => s
      end
  end.

(** [strings.TrimRightFunc(s, unicode.IsSpace)]. The last rune of a string is a space rune
    exactly when the string ends with its encoding, so the right end is trimmed on the
    reversed bytes. *)
Definition TrimRight (s : bytes) : bytes :=
  reverse (trim_left (length s) (reverse <$> space_texts) (reverse s)).

(** [strings.TrimSpace]. *)
Definition TrimSpace (s : bytes) : bytes := TrimRight (trim_left (length s) space_texts s).

Definition lower (c : ascii) : ascii :=
  if within "A" c "Z" then byte_of (N_of_ascii c + 32)%N else c.

(** [strings.EqualFold] of a text and an ASCII word of the same number of bytes, or of a
    word no letter of which is the folding of a rune past ASCII. *)
Definition foldEq (s word : bytes) : bool := eqb (lower <$> s) (lower <$> word).

Lemma foldEq_true s word : foldEq s word = true ↔ lower <$> s = lower <$> word.
Proof. apply eqb_true. Qed.

Lemma cutPrefix_Some p s r : cutPrefix p s = Some r ↔ s = p ++ r.
Proof.
  revert s. induction p as [|x p IH]; intros s; simpl; [naive_solver|].
  destruct s as [|c s]; [done|]. destruct (eqb c x) eqn:E.
  - apply eqb_true in E as ->. rewrite IH. naive_solver.
  - apply eqb_false in E. naive_solver.
Qed.

Lemma cutPrefix_app p r : cutPrefix p (p ++ r) = Some r.
Proof. by apply cutPrefix_Some. Qed.

Lemma cut_any_None texts s : cut_any texts s = None ↔ ∀ t, t ∈ texts → ¬ t `prefix_of` s.
Proof.
  induction texts as [|t texts IH]; simpl; [split; [intros _ t H; by apply elem_of_nil in H|done]|].
  destruct (cutPrefix t s) as [r|] eqn:E.
  - apply cutPrefix_Some in E as ->. split; [done|]. intros H. destruct (H t); [set_solver|by eexists].
  - rewrite IH. setoid_rewrite elem_of_cons. split.
    + intros H t' [->|Ht]; [|by apply H]. intros [r ->]. by rewrite cutPrefix_app in E.
    + naive_solver.
Qed.

(** ASCII white space, which a text in question starts or ends with otherwise than by
    a byte past ASCII. *)
Definition ascii_space (c : ascii) : bool := member c ["009"; "010"; "011"; "012"; "013"; " "]%char.
Definition past_ascii (c : ascii) : bool := (128 <=? N_of_ascii c)%N.

(** A byte neither end of a space rune's encoding has. *)
Definition solid (c : ascii) : bool := negb (ascii_space c) && negb (past_ascii c).

Lemma space_text_ends t :
  t ∈ space_texts → ∃ a b, head t = Some a ∧ last t = Some b ∧ solid a = false ∧ solid b = false.
Proof.
  intros H. apply list_elem_of_fmap in H as (r & -> & Hr).
  assert (forallb (λ r, match head (encode r), last (encode r) with
                        | Some a, Some b => negb (solid a) && negb (solid b)
                        | _, _ => false
                        end) space_runes = true) as Hall by by vm_compute.
  rewrite forallb_forall in Hall. specialize (Hall r ltac:(by apply list_elem_of_In)).
  destruct (head (encode r)) as [a|], (last (encode r)) as [b|]; try done.
  apply andb_true_iff in Hall as [Ha Hb]. apply negb_true_iff in Ha, Hb. eauto 6.
Qed.

Lemma trim_left_solid fuel texts c s :
  (∀ t a, t ∈ texts → head t = Some a → solid a = false) → (∀ t, t ∈ texts → t ≠ []) → solid c = true →
  trim_left fuel texts (c :: s) = c :: s.
Proof.
  intros Ht Hne Hc. destruct fuel; [done|]. simpl.
  assert (cut_any texts (c :: s) = None) as ->; [|done].
  apply cut_any_None. intros t Hin [k Hk]. specialize (Hne t Hin). destruct t as [|a t]; [done|].
  injection Hk as -> _. specialize (Ht _ _ Hin eq_refl). congruence.
Qed.

(** A text that starts and ends with a solid byte has no white space to trim. *)
Lemma TrimSpace_solid c s : solid c = true → (∀ d, last (c :: s) = Some d → solid d = true) → TrimSpace (c :: s) = c :: s.
Proof.
  intros Hc Hl. unfold TrimSpace, TrimRight. rewrite trim_left_solid; [|..|done].
  - destruct (reverse (c :: s)) as [|d r] eqn:E.
    { apply (f_equal length) in E. rewrite length_reverse in E. done. }
    assert (c :: s = reverse r ++ [d]) as E2.
    { rewrite <-(reverse_involutive (c :: s)), E. by rewrite reverse_cons. }
    rewrite trim_left_solid.
    + by rewrite <-E, reverse_involutive.
    + intros t a Ht Ha. apply list_elem_of_fmap in Ht as (t' & -> & Ht').
      destruct (space_text_ends t' Ht') as (x & y & _ & Hy & _ & Hs).
      rewrite head_reverse, Hy in Ha. by injection Ha as <-.
    + intros t Ht. apply list_elem_of_fmap in Ht as (t' & -> & Ht').
      destruct (space_text_ends t' Ht') as (x & y & Hx & _). destruct t' as [|? ?]; [done|].
      intros En. apply (f_equal length) in En. rewrite length_reverse in En. done.
    + apply Hl. by rewrite E2, last_snoc.
  - intros t a Ht Ha. destruct (space_text_ends t Ht) as (x & y & Hx & _ & Hs & _). congruence.
  - intros t Ht ->. by destruct (space_text_ends [] Ht) as (x & y & Hx & _).
Qed.

(** ** Lists of strings *)

(** [strings.Join] with a one-byte separator. *)
Fixpoint Join (sep : ascii) (l : list bytes) : bytes :=
  match l with
  | [] => []
  | [x] => x
  | x :: l => x ++ sep :: Join sep l
  end.

(** [strings.Split] by a one-byte separator. *)
Fixpoint Split (sep : ascii) (s : bytes) : list bytes :=
  match s with
  | [] => [[]]
  | c :: s =>
      if eqb c sep then [] :: Split sep s
      else match Split sep s with
           | x :: l => (c :: x) :: l
           | [] => [[c]]
           end
  end.

Lemma Join_cons sep x y l : Join sep (x :: y :: l) = x ++ sep :: Join sep (y :: l).
Proof. done. Qed.

Lemma Split_one sep s : sep ∉ s → Split sep s = [s].
Proof.
  induction s as [|c s IH]; [done|]. intros [Hc Hs]%not_elem_of_cons. simpl.
  rewrite (proj2 (eqb_false c sep)) by done. by rewrite IH.
Qed.

Lemma Split_app sep x s : sep ∉ x → Split sep (x ++ sep :: s) = x :: Split sep s.
Proof.
  induction x as [|c x IH]; intros H; simpl; [by rewrite eqb_refl|].
  apply not_elem_of_cons in H as [Hc Hx]. rewrite (proj2 (eqb_false c sep)) by done. by rewrite IH.
Qed.

Lemma Split_Join sep l : l ≠ [] → Forall (λ x, sep ∉ x) l → Split sep (Join sep l) = l.
Proof.
  intros Hne H. induction H as [|x l Hx H IH]; [done|].
  destruct l as [|y l]; [by apply Split_one|]. rewrite Join_cons, Split_app, IH; done.
Qed.

(** The byte order of strings, which [sort.Strings] sorts by. *)
Definition sort_strings (l : list string) : list string := merge_sort String.le l.

Example Quote_example :
  let table := {| print_table _ := true; letter_table _ := true; digit_table _ := false |} in
  bytes_of (Quote (string_of (["a"; "034"; "010"; "233"; "195"; "169"]%char)))
  = ["034"; "a"; "\"; "034"; "\"; "n"; "\"; "x"; "e"; "9"; "195"; "169"; "034"]%char.
Proof. reflexivity. Qed.

Example lastRune_examples :
  lastRune <$> [["a"; "195"; "169"]; ["a"; "169"]; ["226"; "128"; "131"]; ["195"]; []; ["169"; "b"]]%char
  = [233; 65533; 8195; 65533; 65533; 98]%N.
Proof. reflexivity. Qed.

Example TrimSpace_example :
  TrimSpace (["226"; "128"; "131"; " "; "a"; " "; "b"; "194"; "160"; "010"]%char) = ["a"; " "; "b"]%char.
Proof. reflexivity. Qed.

End GoText.
