(* ===== verification/Lexemes.v ===== *)
(** * The lexemes of [internal/policyir] that are regular expressions in the source

    The number literal the administration point accepts ([NewNumber] of [operand.go]), and
    the tokens of [parse.go] that a [MATCH] pattern is told from: the number at the
    start of a text, the [entitledResources] call, the permission scope, and the PIP
    name. A regular expression anchored at the start becomes the function that returns
    the length of its match, or [None]; one anchored at both ends becomes a test. *)
From S2P Require Import Prelude GoText AttrToken.
Import GoText AttrToken.

Module Lexemes.

(** ** Number literals *)

Definition one_to_nine (c : ascii) : bool := within "1" c "9".

(** [(?:\.[0-9]+)?], with what follows it. *)
Definition fraction (s : bytes) : bytes * bytes :=
  match s with
  | c :: s' =>
      if eqb c "."%char then
        match span is_digit s' with
        | ([], _) => ([], s)
        | (ds, rest) => (c :: ds, rest)
        end
      else ([], s)
  | [] => ([], [])
  end.

(** [[0-9]*[1-9]], the digits of a fraction up to its last digit other than zero. *)
Definition significant (s : bytes) : bytes :=
  drop_while_end (λ c, negb (one_to_nine c)) (take_while is_digit s).

(** [numberLitRE]: the number literal a text starts with, empty when there is none. *)
Definition numberLit (s : bytes) : bytes :=
  match s with
  | c :: s1 =>
      if is_digit c then
        let '(ds, rest) := span is_digit s in ds ++ (fraction rest).1
      else if eqb c "-"%char then
        match s1 with
        | d :: s2 =>
            if one_to_nine d then
              let '(ds, rest) := span is_digit s1 in c :: ds ++ (fraction rest).1
            else if eqb d "0"%char then
              match s2 with
              | p :: s3 =>
                  if eqb p "."%char then
                    match significant s3 with
                    | [] => []
                    | ds => c :: d :: p :: ds
                    end
                  else []
              | [] => []
              end
            else []
        | [] => []
        end
      else []
  | [] => []
  end.

(** [numberSyntax]: the same expression anchored at the end of the text too. *)
Definition numberSyntax (s : bytes) : bool :=
  match s with
  | c :: s1 =>
      if is_digit c then
        let '(_, rest) := span is_digit s in eqb (fraction rest).2 []
      else if eqb c "-"%char then
        match s1 with
        | d :: s2 =>
            if one_to_nine d then
              let '(_, rest) := span is_digit s1 in eqb (fraction rest).2 []
            else if eqb d "0"%char then
              match s2 with
              | p :: s3 =>
                  eqb p "."%char && all is_digit s3
                  && match last s3 with Some z => one_to_nine z | None => false end
              | [] => false
              end
            else false
        | [] => false
        end
      else false
  | [] => false
  end.

Definition some_digits (ds : bytes) : Prop := ds ≠ [] ∧ Forall (λ c, is_digit c = true) ds.

(** The decimals the PAP stores: no sign or a minus, no leading zero after a minus, and
    a negative number below one in size ends in a digit other than zero. *)
Inductive number_literal : bytes → Prop :=
  | plain ds : some_digits ds → number_literal ds
  | decimal ds fs : some_digits ds → some_digits fs → number_literal (ds ++ "."%char :: fs)
  | negative d ds : one_to_nine d = true → Forall (λ c, is_digit c = true) ds →
      number_literal ("-"%char :: d :: ds)
  | negative_decimal d ds fs : one_to_nine d = true → Forall (λ c, is_digit c = true) ds → some_digits fs →
      number_literal ("-"%char :: d :: ds ++ "."%char :: fs)
  | negative_fraction fs z : Forall (λ c, is_digit c = true) fs → one_to_nine z = true →
      number_literal ("-"%char :: "0"%char :: "."%char :: fs ++ [z]).

Example numberSyntax_examples :
  map (λ s, numberSyntax (bytes_of s))
    ["005"; "-0.5"; "12.30"; "-05"; "-0.0"; "-0.50"; ".5"; "5."; "5e0"; "-"; EmptyString]%string
  = [true; true; true; false; false; false; false; false; false; false; false].
Proof. reflexivity. Qed.

Lemma one_to_nine_digit c : one_to_nine c = true → is_digit c = true.
Proof. unfold one_to_nine, is_digit, within. rewrite !andb_true_iff, !N.leb_le. simpl. lia. Qed.

Lemma span_full (ds : bytes) : Forall (λ c, is_digit c = true) ds → span is_digit ds = (ds, []).
Proof. intros H. rewrite <-(app_nil_r ds) at 1. by apply span_spec. Qed.

Lemma fraction_dot fs rest :
  some_digits fs → (∀ x, head rest = Some x → is_digit x = false) →
  fraction ("."%char :: fs ++ rest) = ("."%char :: fs, rest).
Proof. intros [Hne Hd] Hr. simpl. rewrite span_spec by done. by destruct fs. Qed.

Lemma fraction_nil s :
  (fraction s).2 = [] ↔ s = [] ∨ ∃ fs, some_digits fs ∧ s = "."%char :: fs.
Proof.
  split.
  - unfold fraction, some_digits. destruct s as [|c s]; [auto|].
    destruct (eqb c "."%char) eqn:Ec; [|done]. apply eqb_true in Ec as ->.
    destruct (span is_digit s) as [[|d ds] rest] eqn:E; [done|]. simpl. intros ->.
    pose proof (span_all _ _ _ _ E) as Hd. apply span_app in E as ->.
    right. exists (d :: ds). by rewrite app_nil_r.
  - intros [->|(fs & Hf & ->)]; [done|]. rewrite <-(app_nil_r fs). by rewrite fraction_dot.
Qed.

(** A nonempty run of digits and the fraction after it is the text. *)
Lemma decimal_syntax c s ds rest :
  is_digit c = true → span is_digit (c :: s) = (ds, rest) →
  (fraction rest).2 = [] ↔ ∃ ds fs, Forall (λ c, is_digit c = true) ds ∧ s = ds ++ fs
    ∧ (fs = [] ∨ ∃ gs, some_digits gs ∧ fs = "."%char :: gs).
Proof.
  intros Hc E. simpl in E. rewrite Hc in E. destruct (span is_digit s) as [es rest'] eqn:E'.
  injection E as <- <-. pose proof (span_all _ _ _ _ E') as Hd.
  rewrite fraction_nil. split.
  - intros H. exists es, rest'. split_and!; [done|by apply span_app in E'|done].
  - intros (ds & fs & Hds & -> & Hf). rewrite (span_spec _ ds fs Hds) in E'; [by injection E' as <- <-|].
    destruct Hf as [->|(? & _ & ->)]; [done|]. by intros ? [= <-].
Qed.

Lemma numberSyntax_literal s : numberSyntax s = true ↔ number_literal s.
Proof.
  split.
  - destruct s as [|c s]; [done|]. cbn [numberSyntax]. destruct (is_digit c) eqn:Hc.
    { destruct (span is_digit (c :: s)) as [ds rest] eqn:E. rewrite eqb_true, (decimal_syntax c s ds rest) by done.
      intros (es & fs & He & -> & [->|(gs & Hg & ->)]).
      - rewrite app_nil_r. apply plain. by split; [|constructor].
      - apply (decimal (c :: es)); [|done]. by split; [|constructor]. }
    destruct (eqb c "-"%char) eqn:Em; [|done]. apply eqb_true in Em as ->.
    destruct s as [|d s]; [done|]. destruct (one_to_nine d) eqn:Hd.
    { destruct (span is_digit (d :: s)) as [ds rest] eqn:E.
      rewrite eqb_true, (decimal_syntax d s ds rest) by eauto using one_to_nine_digit.
      intros (es & fs & He & -> & [->|(gs & Hg & ->)]).
      - rewrite app_nil_r. by apply negative.
      - by apply negative_decimal. }
    destruct (eqb d "0"%char) eqn:Ez; [|done]. apply eqb_true in Ez as ->.
    destruct s as [|q s]; [done|]. rewrite !andb_true_iff, eqb_true, all_Forall. intros [[-> Hs] Hl].
    destruct (last s) as [z|] eqn:El; [|done]. apply last_Some in El as [fs ->].
    apply Forall_app in Hs as [Hf _]. by apply negative_fraction.
  - destruct 1 as [ds [Hne Hd]|ds fs [Hne Hd] Hf|d ds Hd Hds|d ds fs Hd Hds Hf|fs z Hf Hz].
    + destruct ds as [|c ds]; [done|]. apply Forall_cons in Hd as [Hc Hd]. cbn [numberSyntax]. rewrite Hc.
      by rewrite span_full by (by constructor).
    + destruct ds as [|c ds]; [done|]. pose proof Hd as Hd'. apply Forall_cons in Hd as [Hc Hd].
      cbn [numberSyntax app]. rewrite Hc, app_comm_cons, span_spec by (try done; by intros ? [= <-]).
      apply eqb_true, fraction_nil. eauto.
    + cbn [numberSyntax]. rewrite Hd. change (is_digit "-") with false. cbn.
      rewrite one_to_nine_digit by done. by rewrite span_full.
    + cbn [numberSyntax]. rewrite Hd. change (is_digit "-") with false. cbn -[fraction span].
      rewrite app_comm_cons, span_spec.
      * apply eqb_true, fraction_nil. eauto.
      * constructor; [by apply one_to_nine_digit|done].
      * by intros ? [= <-].
    + cbn. rewrite last_snoc, Hz. rewrite andb_true_r. apply all_Forall.
      apply Forall_app. split; [done|]. constructor; [by apply one_to_nine_digit|done].
Qed.

(** ** The tokens around a pattern *)

(** ['[^']*'] at the start of a text: what the quotes hold, and what follows them. *)
Definition quoted (s : bytes) : option (bytes * bytes) :=
  match s with
  | c :: s =>
      if eqb c "'"%char then
        let '(body, rest) := span (λ c, negb (eqb c "'"%char)) s in
        match rest with
        | _ :: rest => Some (body, rest)
        | [] => None
        end
      else None
  | [] => None
  end.

Definition HasPrefix (s p : bytes) : bool := if cutPrefix p s then true else false.

Definition spaces (s : bytes) : bytes := drop_while (λ c, eqb c " "%char) s.

(** The names after the first, each behind a comma with spaces around it, and what
    follows them. *)
Fixpoint more_names (fuel : nat) (s : bytes) : list bytes * bytes :=
  match fuel with
  | 0 => ([], s)
  | S fuel =>
      match cutPrefix [","%char] (spaces s) ≫= λ s, quoted (spaces s) with
      | Some (a, rest) => let '(more, rest) := more_names fuel rest in (a :: more, rest)
      | None => ([], s)
      end
  end.

(** [entitledRE]: the resource type, the names, and what follows the call. *)
Definition entitled (s : bytes) : option (bytes * list bytes * bytes) :=
  s ← cutPrefix (bytes_of "subject.entitledResources.of(") s;
  '(rt, s) ← quoted s;
  s ← cutPrefix (bytes_of ").as(") s;
  '(a, s) ← quoted s;
  let '(more, s) := more_names (length s) s in
  s ← cutPrefix [")"%char] s;
  Some (rt, a :: more, s).

(** [scopeTokenRE]. *)
Definition scope_start (s : bytes) : bool :=
  match cutPrefix (bytes_of "subject.permissionScope.") s with
  | Some (c :: _) => isNameStart c
  | _ => false
  end.

(** Names, each behind a dot, up to the end of the text. *)
Fixpoint dotted_names (fuel : nat) (s : bytes) : bool :=
  match fuel, s with
  | _, [] => true
  | S fuel, "."%char :: c :: s =>
      isNameStart c && dotted_names fuel (drop_while (λ c, isNameStart c || is_digit c) s)
  | _, _ => false
  end.

(** [pipTokenRE]. *)
Definition pip_token (s : bytes) : bool :=
  match cutPrefix (bytes_of "subject") s with
  | Some (c :: s) => dotted_names (length (c :: s)) (c :: s)
  | _ => false
  end.

Definition isScopeToken (tok : bytes) : bool :=
  let n := length (bytes_of "subject.permissionScope.") in
  scope_start tok && eqb (n + tokenLen (newAttrScanner tok) n) (length tok).

Definition isSubjectToken (tok : bytes) : bool := isScopeToken tok || pip_token tok.

Definition patternReserved : list string :=
  ["OR"; "AND"; "IS"; "NOT"; "NULL"; "IN"; "CONTAINS"; "SUBSET"; "EMPTY"; "MATCH"; "EQUALS"; "FILTERED";
   "on"; "allowed"; "denied"; "resource"; "subject"; "resourceType"; "operation";
   "true"; "TRUE"; "false"; "FALSE"]%string.

(** Why the token where a [MATCH] pattern stands is not one. *)
Inductive pattern_reason :=
  | QuotedPattern
  | NoPattern
  | PlaceholderInPattern
  | NumberPattern
  | NeitherPatternNorAttribute (text : bytes).

Definition patternToken (rest : bytes) (attr : nat) : nat * option pattern_reason :=
  let n := attr `max` wildcardLen rest in
  if HasPrefix rest ["'"%char] || HasPrefix rest ["034"%char] then (0, Some QuotedPattern)
  else if eqb n 0 then (0, Some NoPattern)
  else if HasPrefix (drop n rest) ["{"%char] then (n, Some PlaceholderInPattern)
  else if n <=? length (numberLit rest) then (n, Some NumberPattern)
  else
    let e := length rest - match entitled rest with Some (_, _, r) => length r | None => length rest end in
    if n <=? e then (e, Some (NeitherPatternNorAttribute (take e rest)))
    else
      let tok := take n rest in
      if member (string_of tok) patternReserved || (eqb n attr && isSubjectToken tok)
      then (n, Some (NeitherPatternNorAttribute tok))
      else (n, None).

Example patternToken_examples :
  map (λ s, patternToken (bytes_of s) (tokenLen (newAttrScanner (bytes_of s)) 0))
    ["/api/*"; "resource.* OR"; "'x'"; "12.5"; "subject.region"; "subject.entitledResources.of('T').as('a', 'b')"]%string
  = [(6, None); (10, None); (0, Some QuotedPattern); (4, Some NumberPattern);
     (14, Some (NeitherPatternNorAttribute (bytes_of "subject.region")));
     (46, Some (NeitherPatternNorAttribute (bytes_of "subject.entitledResources.of('T').as('a', 'b')")))].
Proof. vm_compute. reflexivity. Qed.

End Lexemes.
