(* ===== verification/Condition.v ===== *)
(** * Operands, comparisons, and conditions ([internal/policyir/operand.go], [cond.go])

    The values a condition is made of, with the constructors' checks: which operand
    stands on which side of which operator, and which conditions are valid. A nil
    interface value is [None]. The error of a check is the inductive reason the code
    puts into its message. *)
From S2P Require Import Prelude AttrToken Lexemes.
Import AttrToken Lexemes.

Module Condition.

(** What [cond.go] uses of package jsonpath: [jsonpath.Compile] accepts a path. *)
Class PathCompiler := Compile : string → bool.

(** ** Operands *)

Definition SubjectAttr := string.
Definition SubjectID : SubjectAttr := "id".
Definition SubjectName : SubjectAttr := "name".
Definition SubjectType : SubjectAttr := "type".
Definition SubjectServiceAccount : SubjectAttr := "serviceAccount".
Definition SubjectRoles : SubjectAttr := "roles".
Definition SubjectScopes : SubjectAttr := "scopes".
Definition SubjectPermissions : SubjectAttr := "permissions".
Definition SubjectIsM2M : SubjectAttr := "isM2M".
Definition SubjectPermissionScope : SubjectAttr := "permissionScope".

Definition subjectAttrs : list SubjectAttr :=
  [SubjectID; SubjectName; SubjectType; SubjectServiceAccount; SubjectRoles; SubjectScopes;
   SubjectPermissions; SubjectIsM2M; SubjectPermissionScope].

Definition Form := string.
Definition FormJSONPath : Form := "jsonpath".
Definition FormSyntax : Form := "syntax".
Definition FormNestedIterate : Form := "nested-iterate".
Definition FormPIPExtension : Form := "pip-extension".
Definition forms : list Form := [FormJSONPath; FormSyntax; FormNestedIterate; FormPIPExtension].

Record Unsupported := MkUnsupported { Unsupported_Form : Form; Unsupported_Text : string }.

Inductive Literal :=
  | LString (Value : string)
  | LNumber (Text : string)
  | LBool (Value : bool).

Inductive Operand :=
  | Operation
  | ResourceType
  | Resource (Path : string)
  | Subject (Attr : SubjectAttr) (Key : string)
  | PIPRef (Name : string) (Filtered : bool) (FilteredOperation : string)
  | Entitled (RType : string) (As : list string)
  | PassValue (Var Key : string)
  | Lit (l : Literal)
  | List (Items : list (option Literal)) (Raw : string)
  | Pattern (Text : string)
  | OUnsupported (u : Unsupported).

#[export] Instance unsupported_eq_dec : EqDecision Unsupported.
Proof. solve_decision. Defined.
#[export] Instance literal_eq_dec : EqDecision Literal.
Proof. solve_decision. Defined.
#[export] Instance operand_eq_dec : EqDecision Operand.
Proof. solve_decision. Defined.

Inductive LiteralKind := KString | KNumber | KBool.
#[export] Instance literal_kind_eq_dec : EqDecision LiteralKind.
Proof. solve_decision. Defined.

(** Why an operand is refused. *)
Inductive operand_error :=
  | NilOperand
  | NotANumber (text : string)
  | NoItems
  | RawOnOne (raw : string)
  | NoRaw
  | ItemNumber (i : nat) (text : string)
  | ItemNotLiteral (i : nat)
  | MixedKinds (i : nat) (k kind : LiteralKind)
  | PathStart (path : string)
  | NotBuiltin (attr : SubjectAttr)
  | TakesNoKey (attr : SubjectAttr) (key : string)
  | NoKey
  | PIPNoName
  | FilteredName (name : string)
  | OperationWithoutFiltered (name : string)
  | NoAs
  | PassNoVar
  | PassNoKey
  | EmptyPattern
  | UnknownForm (form : Form)
  | NoSourceText.

Definition empty (s : string) : bool := eqb s EmptyString.

Definition NewNumber (text : string) : result operand_error string :=
  if numberSyntax (bytes_of text) then Ok text else Err (NotANumber text).

Definition kind_of (l : Literal) : LiteralKind :=
  match l with
  | LString _ => KString
  | LNumber _ => KNumber
  | LBool _ => KBool
  end.

(** One turn of the loop of [validateList]; [kind] is that of the items before, and
    [None] where the code holds the empty string. *)
Definition validateItem (i : nat) (it : option Literal) (kind : option LiteralKind) :
    result operand_error (option LiteralKind) :=
  match it with
  | None => Err (ItemNotLiteral i)
  | Some v =>
      let k := kind_of v in
      _ ← (match v with
           | LNumber text => check (is_ok (NewNumber text)) (ItemNumber i text)
           | _ => Ok tt
           end);
      match kind with
      | Some kind => if eqb k kind then Ok (Some k) else Err (MixedKinds i k kind)
      | None => Ok (Some k)
      end
  end.

Definition validateList (Items : list (option Literal)) (Raw : string) : result operand_error unit :=
  _ ← check (negb (eqb (length Items) 0)) NoItems;
  _ ← check (negb (eqb (length Items) 1 && negb (empty Raw))) (RawOnOne Raw);
  _ ← check (negb ((1 <? length Items) && empty Raw)) NoRaw;
  _ ← loop validateItem 0 Items None;
  Ok tt.

Definition NewList (raw : string) (items : list (option Literal)) : result operand_error Operand :=
  _ ← validateList items raw; Ok (List items raw).

Definition validatePath (path : string) : result operand_error unit :=
  match bytes_of path with
  | [] => Ok tt
  | c :: _ => check (eqb c "."%char || eqb c "["%char) (PathStart path)
  end.

Definition HasSuffix (s p : string) : bool :=
  bool_decide (bytes_of p `suffix_of` bytes_of s).

Definition validateSubject (attr : SubjectAttr) (key : string) : result operand_error unit :=
  _ ← check (member attr subjectAttrs) (NotBuiltin attr);
  _ ← check (negb (negb (empty key) && negb (eqb attr SubjectPermissionScope))) (TakesNoKey attr key);
  check (negb (empty key && eqb attr SubjectPermissionScope)) NoKey.

Definition validateUnsupported (u : Unsupported) : result operand_error unit :=
  _ ← check (member (Unsupported_Form u) forms) (UnknownForm (Unsupported_Form u));
  check (negb (empty (Unsupported_Text u))) NoSourceText.

Definition validateOperand (o : option Operand) : result operand_error unit :=
  match o with
  | None => Err NilOperand
  | Some Operation | Some ResourceType | Some (Lit (LString _)) | Some (Lit (LBool _)) => Ok tt
  | Some (Resource path) => validatePath path
  | Some (Subject attr key) => validateSubject attr key
  | Some (PIPRef name filtered op) =>
      _ ← check (negb (empty name)) PIPNoName;
      _ ← check (negb (filtered && negb (HasSuffix name ".filtered"))) (FilteredName name);
      check (negb (negb filtered && negb (empty op))) (OperationWithoutFiltered name)
  | Some (Entitled _ names) => check (negb (eqb (length names) 0)) NoAs
  | Some (PassValue var key) =>
      _ ← check (negb (empty var)) PassNoVar;
      check (negb (empty key)) PassNoKey
  | Some (Lit (LNumber text)) => _ ← NewNumber text; Ok tt
  | Some (List items raw) => validateList items raw
  | Some (Pattern text) => check (negb (empty text)) EmptyPattern
  | Some (OUnsupported u) => validateUnsupported u
  end.

(** ** Comparisons *)

Definition Place := string.
Definition PlaceSimplified : Place := "simplified".
Definition PlaceRuleCondition : Place := "rule_condition".
Definition PlaceRuleTarget : Place := "rule_target".
Definition PlacePolicyTarget : Place := "policy_target".
Definition PlaceSetTarget : Place := "set_target".
Definition places : list Place :=
  [PlaceSimplified; PlaceRuleCondition; PlaceRuleTarget; PlacePolicyTarget; PlaceSetTarget].

Definition Operator := string.
Definition OpEQ : Operator := "EQ".
Definition OpNE : Operator := "NE".
Definition OpLT : Operator := "LT".
Definition OpLE : Operator := "LE".
Definition OpGT : Operator := "GT".
Definition OpGE : Operator := "GE".
Definition OpIsNull : Operator := "IS_NULL".
Definition OpIsNotNull : Operator := "IS_NOT_NULL".
Definition OpIsEmpty : Operator := "IS_EMPTY".
Definition OpIsNotEmpty : Operator := "IS_NOT_EMPTY".
Definition OpIn : Operator := "IN".
Definition OpNotIn : Operator := "NOT_IN".
Definition OpContains : Operator := "CONTAINS".
Definition OpNotContains : Operator := "NOT_CONTAINS".
Definition OpContainsAny : Operator := "CONTAINS_ANY".
Definition OpNotContainsAny : Operator := "NOT_CONTAINS_ANY".
Definition OpIsSubset : Operator := "IS_SUBSET".
Definition OpIsNotSubset : Operator := "IS_NOT_SUBSET".
Definition OpMatch : Operator := "MATCH".
Definition OpNotMatch : Operator := "NOT_MATCH".

Definition operators : list Operator :=
  [OpEQ; OpNE; OpLT; OpLE; OpGT; OpGE; OpIsNull; OpIsNotNull; OpIsEmpty; OpIsNotEmpty;
   OpIn; OpNotIn; OpContains; OpNotContains; OpContainsAny; OpNotContainsAny;
   OpIsSubset; OpIsNotSubset; OpMatch; OpNotMatch].

Definition Unary (o : Operator) : bool := member o [OpIsNull; OpIsNotNull; OpIsEmpty; OpIsNotEmpty].

Definition TakesList (o : Operator) : bool :=
  member o [OpIn; OpNotIn; OpContainsAny; OpNotContainsAny; OpIsSubset; OpIsNotSubset].

Record Compare := MkCompare { Op : Operator; Left : option Operand; Right : option Operand }.

Inductive Atom :=
  | Const (Value : bool)
  | IsM2M
  | Access (Denied : bool) (AccessOperation : string)
  | ACompare (c : Compare)
  | AUnsupported (u : Unsupported).

Inductive compare_error :=
  | UnknownOperator (op : Operator)
  | LeftInvalid (e : operand_error)
  | NeverLeft
  | FilteredLeft
  | LeftPath (path : string)
  | UnaryWithRight
  | RightInvalid (e : operand_error)
  | NotAPattern
  | BadPattern (why : option pattern_reason)
  | RightPath (path : string)
  | PatternWithoutMatch
  | TakesNoList
  | SingleLiteral.

(** [patternText]; [BadPattern None] is "more than one token". *)
Definition patternText (text : string) : result compare_error unit :=
  let s := bytes_of text in
  match patternToken s (tokenLen (newAttrScanner s) 0) with
  | (n, None) => check (eqb n (length s)) (BadPattern None)
  | (_, Some reason) => Err (BadPattern (Some reason))
  end.

Section compile.
Context {pc : PathCompiler}.

Definition compiles (o : option Operand) : result string unit :=
  match o with
  | Some (Resource path) => check (Compile path) path
  | _ => Ok tt
  end.

Definition validateRight (op : Operator) (r : option Operand) : result compare_error unit :=
  _ ← wrap RightInvalid (validateOperand r);
  match r with
  | Some (OUnsupported _) => Ok tt
  | _ =>
      if eqb op OpMatch || eqb op OpNotMatch then
        match r with
        | Some (Pattern text) => patternText text
        | _ => Err NotAPattern
        end
      else
        _ ← wrap RightPath (compiles r);
        match r with
        | Some (Pattern _) => Err PatternWithoutMatch
        | Some (List _ _) => check (TakesList op) TakesNoList
        | Some (Lit _) => check (negb (TakesList op)) SingleLiteral
        | _ => Ok tt
        end
  end.

Definition validateCompare (c : Compare) : result compare_error unit :=
  _ ← check (member (Op c) operators) (UnknownOperator (Op c));
  _ ← wrap LeftInvalid (validateOperand (Left c));
  _ ← (match Left c with
       | Some (List _ _) | Some (Pattern _) => Err NeverLeft
       | Some (PIPRef _ filtered _) => check (negb filtered) FilteredLeft
       | _ => Ok tt
       end);
  _ ← wrap LeftPath (compiles (Left c));
  if Unary (Op c) then
    match Right c with
    | Some _ => Err UnaryWithRight
    | None => Ok tt
    end
  else validateRight (Op c) (Right c).

Definition NewCompare (op : Operator) (left right : option Operand) : result compare_error Compare :=
  let c := MkCompare op left right in
  _ ← validateCompare c; Ok c.

(** ** Conditions *)

Inductive atom_error :=
  | NilAtom
  | CompareInvalid (e : compare_error)
  | UnsupportedInvalid (e : operand_error).

Definition validateAtom (a : option Atom) : result atom_error unit :=
  match a with
  | None => Err NilAtom
  | Some (Const _) | Some IsM2M | Some (Access _ _) => Ok tt
  | Some (ACompare c) => wrap CompareInvalid (validateCompare c)
  | Some (AUnsupported u) => wrap UnsupportedInvalid (validateUnsupported u)
  end.

Record Condition := MkCondition { CPlace : Place; Disjuncts : list (list (option Atom)) }.

Inductive condition_error :=
  | UnknownPlace (place : Place)
  | NoDisjuncts
  | EmptyDisjunct (i : nat)
  | AtomInvalid (i j : nat) (e : atom_error).

Definition validateDisjunct (i : nat) (d : list (option Atom)) (_ : unit) : result condition_error unit :=
  _ ← check (negb (eqb (length d) 0)) (EmptyDisjunct i);
  loop (λ j a _, wrap (AtomInvalid i j) (validateAtom a)) 0 d tt.

Definition validateCondition (c : Condition) : result condition_error unit :=
  _ ← check (member (CPlace c) places) (UnknownPlace (CPlace c));
  _ ← check (negb (eqb (length (Disjuncts c)) 0)) NoDisjuncts;
  loop validateDisjunct 0 (Disjuncts c) tt.

Definition NewCondition (place : Place) (disjuncts : list (list (option Atom))) :
    result condition_error Condition :=
  let c := MkCondition place disjuncts in
  _ ← validateCondition c; Ok c.

Definition HasOr (c : Condition) : bool := 1 <? length (Disjuncts c).

End compile.

(** ** What the constructors promise *)

Definition wf_literal (l : Literal) : Prop :=
  match l with
  | LNumber text => number_literal (bytes_of text)
  | _ => True
  end.

(** All strings, all numbers, or all booleans, with the raw token exactly when there
    are several. *)
Definition wf_list (items : list (option Literal)) (raw : string) : Prop :=
  ∃ (k : LiteralKind) (ls : list Literal),
    items = Some <$> ls ∧ ls ≠ [] ∧ Forall (λ l, wf_literal l ∧ kind_of l = k) ls
    ∧ (length ls = 1 ↔ raw = EmptyString).

Definition wf_operand (o : Operand) : Prop :=
  match o with
  | Operation | ResourceType => True
  | Resource path => ∀ c, head (bytes_of path) = Some c → c = "."%char ∨ c = "["%char
  | Subject attr key => attr ∈ subjectAttrs ∧ (key ≠ EmptyString ↔ attr = SubjectPermissionScope)
  | PIPRef name filtered op =>
      name ≠ EmptyString
      ∧ if filtered then bytes_of ".filtered" `suffix_of` bytes_of name else op = EmptyString
  | Entitled _ names => names ≠ []
  | PassValue var key => var ≠ EmptyString ∧ key ≠ EmptyString
  | Lit l => wf_literal l
  | List items raw => wf_list items raw
  | Pattern text => text ≠ EmptyString
  | OUnsupported u => Unsupported_Form u ∈ forms ∧ Unsupported_Text u ≠ EmptyString
  end.

Lemma empty_true s : empty s = true ↔ s = EmptyString.
Proof. apply eqb_true. Qed.
Lemma empty_false s : empty s = false ↔ s ≠ EmptyString.
Proof. apply eqb_false. Qed.

Lemma NewNumber_Ok text t : NewNumber text = Ok t ↔ number_literal (bytes_of text) ∧ t = text.
Proof. unfold NewNumber. rewrite <-numberSyntax_literal. destruct (numberSyntax _); naive_solver. Qed.

Lemma validateItem_Ok i it kind k :
  validateItem i it kind = Ok k ↔
  ∃ l, it = Some l ∧ wf_literal l ∧ k = Some (kind_of l) ∧ (kind = None ∨ kind = Some (kind_of l)).
Proof.
  unfold validateItem. destruct it as [l|]; [|naive_solver].
  rewrite bind_unit_Ok.
  assert (match l with
          | LNumber text => check (is_ok (NewNumber text)) (ItemNumber i text)
          | _ => Ok tt
          end = Ok tt ↔ wf_literal l) as ->.
  { destruct l as [v|t|b]; simpl; [done| |done].
    rewrite check_Ok, is_ok_true. setoid_rewrite NewNumber_Ok. naive_solver. }
  destruct kind as [kind|].
  - destruct (eqb (kind_of l) kind) eqn:E.
    + apply eqb_true in E as <-. naive_solver.
    + apply eqb_false in E. naive_solver.
  - naive_solver.
Qed.

Lemma validateItems_Ok i items kind k :
  loop validateItem i items kind = Ok k ↔
  ∃ ls, items = Some <$> ls ∧ Forall wf_literal ls
        ∧ match ls with
          | [] => k = kind
          | l :: _ => k = Some (kind_of l) ∧ (kind = None ∨ kind = k) ∧ Forall (λ l, Some (kind_of l) = k) ls
          end.
Proof.
  revert i kind. induction items as [|it items IH]; intros i kind; simpl.
  { split.
    - intros [= <-]. by exists [].
    - intros ([|l ls] & H & _ & Hk); [by subst|discriminate H]. }
  rewrite bind_Ok. setoid_rewrite validateItem_Ok. setoid_rewrite IH. split.
  - intros (k1 & (l & -> & Hl & -> & Hkind) & ls & -> & Hls & Hk). exists (l :: ls).
    split; [done|]. split; [by constructor|]. destruct ls as [|l' ls]; [subst k; split_and!; [done|done|by constructor]|].
    destruct Hk as (-> & [?|E] & H); [done|]. rewrite <-E in *. split_and!; [done|done|by constructor].
  - intros ([|l ls] & H & Hls & Hk); [discriminate H|]. injection H as -> ->.
    apply Forall_cons in Hls as [Hl Hls]. destruct Hk as (-> & Hkind & Hk). apply Forall_cons in Hk as [_ Hk].
    exists (Some (kind_of l)). split; [by exists l|]. exists ls. split; [done|]. split; [done|].
    destruct ls as [|l' ls]; [done|]. pose proof (Forall_inv Hk) as E. simpl in E. rewrite E. auto.
Qed.

Lemma validateList_Ok items raw : validateList items raw = Ok tt ↔ wf_list items raw.
Proof.
  unfold validateList, wf_list. result_simp. rewrite bind_Ok. setoid_rewrite validateItems_Ok.
  rewrite !negb_true_iff, !andb_false_iff, !negb_false_iff, !eqb_false, Nat.ltb_ge, empty_true, empty_false.
  split.
  - intros (Hn & H1 & H2 & k & (ls & -> & Hwf & Hk) & _). rewrite length_fmap in *.
    destruct ls as [|l ls]; [done|]. destruct Hk as (-> & _ & Hk). exists (kind_of l), (l :: ls).
    split_and!; [done|done| |].
    + rewrite Forall_forall in Hwf, Hk |- *. intros x Hx. split; [by apply Hwf|]. by injection (Hk x Hx).
    + simpl in *. split; [intros E|intros ->].
      * destruct H1; [lia|done].
      * destruct H2; [lia|done].
  - intros (k & ls & -> & Hne & Hls & Hraw). rewrite length_fmap. destruct ls as [|l ls]; [done|].
    split; [done|]. split; [destruct (decide (length (l :: ls) = 1)); [right|left]; tauto|].
    split; [destruct (decide (length (l :: ls) = 1)); [left; lia|right; tauto]|].
    exists (Some (kind_of l)). split; [|done]. exists (l :: ls). split; [done|].
    rewrite Forall_forall in Hls. pose proof (Hls l ltac:(set_solver)) as [_ <-].
    split_and!; [by apply Forall_forall; intros; apply Hls|done|by left|].
    apply Forall_forall. intros x Hx. by rewrite (proj2 (Hls x Hx)).
Qed.

Lemma validateSubject_Ok attr key :
  validateSubject attr key = Ok tt ↔ attr ∈ subjectAttrs ∧ (key ≠ EmptyString ↔ attr = SubjectPermissionScope).
Proof.
  unfold validateSubject. result_simp.
  rewrite member_true, !negb_true_iff, !andb_false_iff, !negb_false_iff, empty_true, empty_false, eqb_true, eqb_false.
  destruct (decide (key = EmptyString)), (decide (attr = SubjectPermissionScope)); tauto.
Qed.

Lemma validateUnsupported_Ok u :
  validateUnsupported u = Ok tt ↔ Unsupported_Form u ∈ forms ∧ Unsupported_Text u ≠ EmptyString.
Proof. unfold validateUnsupported. result_simp. by rewrite member_true, negb_true_iff, empty_false. Qed.

Lemma validatePath_Ok path :
  validatePath path = Ok tt ↔ ∀ c, head (bytes_of path) = Some c → c = "."%char ∨ c = "["%char.
Proof.
  unfold validatePath. destruct (bytes_of path) as [|c l]; simpl; [naive_solver|].
  rewrite check_Ok, orb_true_iff, !eqb_true. naive_solver.
Qed.

Lemma validateOperand_Ok o : validateOperand o = Ok tt ↔ ∃ o', o = Some o' ∧ wf_operand o'.
Proof.
  destruct o as [o|]; [|naive_solver].
  transitivity (wf_operand o); [|naive_solver].
  destruct o as [| |path|attr key|name filtered op|rt names|var key|[v|t|b]|items raw|text|u]; simpl;
    try done.
  - apply validatePath_Ok.
  - apply validateSubject_Ok.
  - result_simp. rewrite !negb_true_iff, empty_false. destruct filtered; simpl.
    + rewrite negb_false_iff. unfold HasSuffix. rewrite bool_decide_eq_true. tauto.
    + rewrite negb_false_iff, empty_true. tauto.
  - rewrite check_Ok, negb_true_iff, eqb_false. by destruct names.
  - result_simp. by rewrite !negb_true_iff, !empty_false.
  - rewrite bind_Ok. setoid_rewrite NewNumber_Ok. naive_solver.
  - apply validateList_Ok.
  - by rewrite check_Ok, negb_true_iff, empty_false.
  - apply validateUnsupported_Ok.
Qed.

Definition is_match (op : Operator) : Prop := op = OpMatch ∨ op = OpNotMatch.

(** The text is one token of the legacy lexer, and that token is a pattern. *)
Definition pattern_text (text : string) : Prop :=
  patternToken (bytes_of text) (tokenLen (newAttrScanner (bytes_of text)) 0) = (length (bytes_of text), None).

Lemma patternText_Ok text : patternText text = Ok tt ↔ pattern_text text.
Proof.
  unfold patternText, pattern_text. destruct (patternToken _ _) as [n [why|]]; [naive_solver|].
  rewrite check_Ok, eqb_true. naive_solver.
Qed.

Lemma TakesList_not_match op : TakesList op = true → ¬ is_match op.
Proof. intros H [-> | ->]; by vm_compute in H. Qed.

Section admits.
Context {pc : PathCompiler}.

Definition admits_left (o : Operand) : Prop :=
  wf_operand o ∧
  match o with
  | List _ _ | Pattern _ => False
  | PIPRef _ filtered _ => filtered = false
  | Resource path => Compile path = true
  | _ => True
  end.

Definition admits_right (op : Operator) (o : Operand) : Prop :=
  wf_operand o ∧
  match o with
  | OUnsupported _ => True
  | Pattern text => is_match op ∧ pattern_text text
  | List _ _ => TakesList op = true
  | Lit _ => ¬ is_match op ∧ TakesList op = false
  | Resource path => ¬ is_match op ∧ Compile path = true
  | _ => ¬ is_match op
  end.

(** The comparisons the comment on [NewCompare] describes. *)
Definition wf_compare (c : Compare) : Prop :=
  Op c ∈ operators
  ∧ (∃ l, Left c = Some l ∧ admits_left l)
  ∧ if Unary (Op c) then Right c = None else ∃ r, Right c = Some r ∧ admits_right (Op c) r.

Lemma compiles_Ok o :
  compiles o = Ok tt ↔ ∀ path, o = Some (Resource path) → Compile path = true.
Proof.
  destruct o as [[]|]; simpl; rewrite ?check_Ok; naive_solver.
Qed.

Lemma validateRight_Ok op r :
  validateRight op r = Ok tt ↔ ∃ o, r = Some o ∧ admits_right op o.
Proof.
  unfold validateRight. rewrite bind_unit_Ok, wrap_Ok, validateOperand_Ok.
  destruct r as [o|]; [|naive_solver].
  transitivity (admits_right op o); [unfold admits_right|by split; [exists o|intros (? & [= <-] & ?)]].
  assert ((∃ o', Some o = Some o' ∧ wf_operand o') ↔ wf_operand o) as -> by naive_solver.
  pose proof (TakesList_not_match op) as HL.
  destruct (eqb op OpMatch || eqb op OpNotMatch) eqn:E.
  - assert (is_match op) as Hm by (unfold is_match; by bool_simp).
    destruct o; rewrite ?patternText_Ok; intuition congruence.
  - assert (¬ is_match op) as Hm by (unfold is_match; bool_simp; tauto).
    destruct o; rewrite ?bind_unit_Ok, ?wrap_Ok, ?compiles_Ok, ?check_Ok, ?negb_true_iff; naive_solver.
Qed.

Lemma validateCompare_Ok c : validateCompare c = Ok tt ↔ wf_compare c.
Proof.
  unfold validateCompare, wf_compare, admits_left. result_simp.
  rewrite member_true, !wrap_Ok, validateOperand_Ok, compiles_Ok.
  assert ((if Unary (Op c)
           then match Right c with Some _ => Err UnaryWithRight | None => Ok tt end
           else validateRight (Op c) (Right c)) = Ok tt ↔
          if Unary (Op c) then Right c = None else ∃ r, Right c = Some r ∧ admits_right (Op c) r) as ->.
  { destruct (Unary (Op c)); [|apply validateRight_Ok]. destruct (Right c); naive_solver. }
  destruct (Left c) as [l|]; [|naive_solver].
  destruct l as [| | | |? [] ?| | | | | |]; naive_solver.
Qed.

Definition wf_atom (a : Atom) : Prop :=
  match a with
  | ACompare c => wf_compare c
  | AUnsupported u => Unsupported_Form u ∈ forms ∧ Unsupported_Text u ≠ EmptyString
  | _ => True
  end.

Lemma validateAtom_Ok a : validateAtom a = Ok tt ↔ ∃ a', a = Some a' ∧ wf_atom a'.
Proof.
  destruct a as [[]|]; simpl; rewrite ?wrap_Ok, ?validateCompare_Ok, ?validateUnsupported_Ok; naive_solver.
Qed.

(** A place the specification names, and at least one disjunct of at least one valid atom. *)
Definition wf_condition (c : Condition) : Prop :=
  CPlace c ∈ places ∧ Disjuncts c ≠ []
  ∧ ∀ d, d ∈ Disjuncts c → d ≠ [] ∧ ∀ a, a ∈ d → ∃ a', a = Some a' ∧ wf_atom a'.

Lemma validateDisjunct_Ok i d :
  validateDisjunct i d tt = Ok tt ↔ d ≠ [] ∧ ∀ a, a ∈ d → ∃ a', a = Some a' ∧ wf_atom a'.
Proof.
  unfold validateDisjunct. result_simp. rewrite negb_true_iff, eqb_false, loop_Ok.
  setoid_rewrite wrap_Ok. setoid_rewrite validateAtom_Ok. setoid_rewrite list_elem_of_lookup.
  destruct d; naive_solver.
Qed.

Lemma validateCondition_Ok c : validateCondition c = Ok tt ↔ wf_condition c.
Proof.
  unfold validateCondition, wf_condition. result_simp. rewrite member_true, negb_true_iff, eqb_false.
  assert (loop validateDisjunct 0 (Disjuncts c) tt = Ok tt ↔
          ∀ i d, Disjuncts c !! i = Some d → validateDisjunct i d tt = Ok tt) as ->.
  { rewrite <-(loop_Ok (λ i d, validateDisjunct i d tt)). done. }
  setoid_rewrite validateDisjunct_Ok. setoid_rewrite list_elem_of_lookup.
  destruct (Disjuncts c); naive_solver.
Qed.

(** [NewCompare] accepts a comparison exactly when its operator is declared, its
    left operand may stand on the left, and its right operand is absent for a unary
    operator and one the operator admits otherwise, and then returns it unchanged. *)
Theorem NewCompare_admits op left right c :
  NewCompare op left right = Ok c ↔ c = MkCompare op left right ∧ wf_compare c.
Proof.
  unfold NewCompare. rewrite bind_unit_Ok, validateCompare_Ok. naive_solver.
Qed.

Lemma validateDisjunct_atom_error i d j e :
  validateDisjunct i d tt = Err (AtomInvalid i j e) ↔
  ∃ a, d !! j = Some a ∧ validateAtom a = Err e
       ∧ ∀ j' a', j' < j → d !! j' = Some a' → validateAtom a' = Ok tt.
Proof.
  unfold validateDisjunct. destruct d as [|a d]; [naive_solver|].
  change (negb (eqb (length (a :: d)) 0)) with true. cbn [check mbind result_bind].
  rewrite loop_Err. setoid_rewrite wrap_Ok. split.
  - intros (j' & a' & Ha & He & H). unfold wrap in He. destruct (validateAtom a') eqn:E; [done|].
    injection He as <- <-. eauto.
  - intros (a' & Ha & He & H). exists j, a'. rewrite He. auto.
Qed.

Lemma validateDisjunct_atom_index i d i' j e :
  validateDisjunct i d tt = Err (AtomInvalid i' j e) → i' = i.
Proof.
  unfold validateDisjunct. destruct (check _ _) as [[]|e'] eqn:E; simpl.
  - rewrite loop_Err. intros (j' & a & _ & He & _). destruct (validateAtom a); [done|]. by injection He.
  - intros [= ->]. by destruct (negb _) in E.
Qed.

(** The error of [NewCondition] that names an atom names the first invalid one:
    disjunct [i], atom [j], with every atom before it valid and no empty disjunct
    before it. *)
Theorem NewCondition_first_invalid place ds i j e :
  NewCondition place ds = Err (AtomInvalid i j e) ↔
  place ∈ places ∧ ∃ d a, ds !! i = Some d ∧ d !! j = Some a ∧ validateAtom a = Err e
    ∧ (∀ j' a', j' < j → d !! j' = Some a' → ∃ a'', a' = Some a'' ∧ wf_atom a'')
    ∧ ∀ i' d', i' < i → ds !! i' = Some d' → d' ≠ [] ∧ ∀ a, a ∈ d' → ∃ a', a = Some a' ∧ wf_atom a'.
Proof.
  unfold NewCondition, validateCondition. cbn [CPlace Disjuncts].
  destruct (member place places) eqn:Ep; cbn [check mbind result_bind].
  2: { apply member_false in Ep. naive_solver. }
  apply member_true in Ep. destruct ds as [|d0 ds]; [naive_solver|].
  change (negb (eqb (length (d0 :: ds)) 0)) with true. cbn [check mbind result_bind].
  generalize (d0 :: ds). clear d0 ds. intros l.
  transitivity (loop validateDisjunct 0 l tt = Err (AtomInvalid i j e)).
  { destruct (loop validateDisjunct 0 l tt) as [[]|]; naive_solver. }
  change validateDisjunct with (λ i d (_ : unit), validateDisjunct i d tt) at 1. rewrite loop_Err.
  setoid_rewrite validateDisjunct_Ok. setoid_rewrite <-validateAtom_Ok. split.
  - intros (i' & d & Hd & He & H). pose proof (validateDisjunct_atom_index _ _ _ _ _ He) as ->.
    apply validateDisjunct_atom_error in He as (a & Ha & He & Hj). naive_solver.
  - intros (_ & d & a & Hd & Ha & He & Hj & Hi). exists i, d. split_and!; [done| |done].
    apply validateDisjunct_atom_error. eauto.
Qed.

End admits.

(** [NewNumber] accepts exactly the decimals of the administration point, as
    written. *)
Theorem NewNumber_accepts text t : NewNumber text = Ok t ↔ t = text ∧ number_literal (bytes_of text).
Proof. rewrite NewNumber_Ok. naive_solver. Qed.

(** [NewList] accepts exactly the nonempty lists of literals of one kind whose
    numbers are valid, with a raw token exactly when there are several items. *)
Theorem NewList_accepts raw items l :
  NewList raw items = Ok l ↔ l = List items raw ∧ wf_list items raw.
Proof. unfold NewList. rewrite bind_unit_Ok, validateList_Ok. naive_solver. Qed.

End Condition.
