(* ===== verification/PolicyTree.v ===== *)
(** * The policy tree of a tenant ([internal/policyir/tree.go], [unsupported.go])

    The tree a frontend builds, the checks of [NewTree], and [Tree.Unsupported]. A
    pointer is an [option], a slice of pointers a list of options, a nil map [None].
    The checker's two sets are threaded through the traversal the way the code mutates
    them, the deferred deletion included. *)
From S2P Require Import Prelude GoText Json Condition.
Import GoText Condition.

Module PolicyTree.

(** ** The data *)

Definition Algorithm := string.
Definition AlgorithmAbsent : Algorithm := EmptyString.
Definition AlgorithmDenyOverrides : Algorithm := "DENY_OVERRIDES".
Definition AlgorithmPermitOverrides : Algorithm := "PERMIT_OVERRIDES".
Definition AlgorithmDenyUnlessPermit : Algorithm := "DENY_UNLESS_PERMIT".
Definition AlgorithmPermitUnlessDeny : Algorithm := "PERMIT_UNLESS_DENY".
Definition algorithms : list Algorithm :=
  [AlgorithmAbsent; AlgorithmDenyOverrides; AlgorithmPermitOverrides; AlgorithmDenyUnlessPermit;
   AlgorithmPermitUnlessDeny].

Definition Effect := string.
Definition EffectAbsent : Effect := EmptyString.
Definition EffectAllow : Effect := "ALLOW".
Definition EffectDeny : Effect := "DENY".
Definition EffectNotApplicable : Effect := "NOT_APPLICABLE".
Definition EffectUseFilterCondition : Effect := "USE_FILTER_CONDITION".
Definition effects : list Effect :=
  [EffectAbsent; EffectAllow; EffectDeny; EffectNotApplicable; EffectUseFilterCondition].

Definition Dialect := string.
Definition DialectRSQL : Dialect := "rsql".
Definition DialectSQL : Dialect := "sql".
Definition DialectMongoDB : Dialect := "mongodb".
Definition DialectQueryDSL : Dialect := "querydsl".
Definition dialects : list Dialect := [DialectRSQL; DialectSQL; DialectMongoDB; DialectQueryDSL].

Record CustomPredicate := MkCustomPredicate { Predicate : string; Params : gmap string string }.

Record Predicates := MkPredicates { Text : gmap Dialect string; Custom : option CustomPredicate }.

Record SimplifiedPolicy := MkSimplifiedPolicy {
  SP_ID : string;
  SP_Frontend : bool;
  SP_Operation : string;
  SP_Roles : list string;
  SP_Condition : option Condition;
  SP_Predicates : Predicates;
}.

Record SimplifiedGroup := MkSimplifiedGroup {
  G_ID : string;
  G_Name : string;
  G_ExternalID : string;
  G_Domain : string;
  G_Component : string;
  G_ResourceType : string;
  G_Policies : list (option SimplifiedPolicy);
}.

Record Iterate := MkIterate { It_Var : string; It_Algorithm : Algorithm }.

Record Rule := MkRule {
  R_ID : string;
  R_Name : string;
  R_Effect : Effect;
  R_Frontend : bool;
  R_Target : option Condition;
  R_Condition : option Condition;
  R_Predicates : Predicates;
}.

Record Policy := MkPolicy {
  P_ID : string;
  P_Name : string;
  P_Algorithm : Algorithm;
  P_Target : option Condition;
  P_Rules : list (option Rule);
}.

Inductive PolicySet := MkPolicySet {
  S_ID : string;
  S_Name : string;
  S_Domain : string;
  S_ExternalID : string;
  S_Algorithm : Algorithm;
  S_Target : option Condition;
  S_Iterate : option Iterate;
  S_AlwaysFails : string;
  S_Isolated : string;
  S_Policies : list (option Policy);
  S_Sets : list (option PolicySet);
}.

Definition PIPType := string.
Definition PIPGeneral : PIPType := "GENERAL".
Definition PIPFiltered : PIPType := "FILTERED".
Definition PIPHeader : PIPType := "HEADER".
Definition PIPToken : PIPType := "TOKEN".
Definition PIPMapping : PIPType := "MAPPING".
Definition PIPPermissionScope : PIPType := "PERMISSION_SCOPE".
Definition pipTypes : list PIPType :=
  [PIPGeneral; PIPFiltered; PIPHeader; PIPToken; PIPMapping; PIPPermissionScope].

Record PIP := MkPIP {
  Name : string;
  Type_ : PIPType;
  Claim : string;
  Header : string;
  DefaultValue : string;
  URL : string;
  HTTPMethod : string;
  BeanName : string;
  JSONPath : string;
  ReturnType : string;
  Headers : string;
  PIP_ResourceType : string;
  Domain : string;
  RequestAttributes : option (gmap string string);
  ProductMapping : string;
  CustomMapping : string;
  Cacheable : string;
  CachePeriod : string;
  PIP_Unsupported : string;
  Isolated : string;
}.

#[export] Instance pip_eq_dec : EqDecision PIP.
Proof. solve_decision. Defined.

(** [PIP{Name: name, Isolated: isolated}]. *)
Definition isolated_pip (name isolated : string) : PIP :=
  let e := EmptyString in
  MkPIP name e e e e e e e e e e e e None e e e e e isolated.

Record Tree := MkTree {
  Simplified : list (option SimplifiedGroup);
  Sets : list (option PolicySet);
  PIPs : list (option PIP);
}.

(** [Tree.PIP]: the first declaration of that name. The elements of a tree are not nil;
    a nil one would be dereferenced, which stops the search here. *)
Fixpoint find_pip (name : string) (pips : list (option PIP)) : option PIP :=
  match pips with
  | [] | None :: _ => None
  | Some p :: pips => if eqb (Name p) name then Some p else find_pip name pips
  end.

Definition Tree_PIP (t : Tree) (name : string) : option PIP := find_pip name (PIPs t).

(** [checkJSON]. *)
Inductive json_error := NotJSON | NotCompact.

Definition checkJSON (value : string) : result json_error unit :=
  match Json.Compact (bytes_of value) with
  | None => Err NotJSON
  | Some b => check (eqb b (bytes_of value)) NotCompact
  end.

(** ** Paths *)

(** A path from the root, innermost label first. *)
Definition node := list string.
Definition child (n : node) (label : string) : node := label :: n.

Definition join (sep : string) (l : list string) : string :=
  match l with
  | [] => EmptyString
  | x :: l => fold_left (λ a y, a +:+ sep +:+ y) l x
  end.

Definition node_String (n : node) : string := join " > " (reverse n).

Section labels.
Context {A : Type} (label : A → string).

(** The label of each sibling, with its position when another one has the same. *)
Definition labels (nodes : list A) : list string :=
  let out := label <$> nodes in
  imap (λ i l, if 1 <? length (filter (l =.) out) then l +:+ " #" +:+ pretty i else l) out.

End labels.

(** The label of an element that is not nil. *)
Definition of_ptr {A} (label : A → string) (p : option A) : string :=
  match p with
  | Some x => label x
  | None => EmptyString
  end.

Section tree.
Context {table : UnicodeTable} {pc : PathCompiler}.

Definition groupLabel (g : SimplifiedGroup) : string :=
  "simplified " +:+ Quote (G_Domain g) +:+ "/" +:+ Quote (G_Component g) +:+ "/" +:+ Quote (G_ResourceType g).
Definition simplifiedPolicyLabel (p : SimplifiedPolicy) : string := "policy " +:+ Quote (SP_ID p).
Definition setLabel (s : PolicySet) : string := "set " +:+ Quote (S_ID s).
Definition policyLabel (p : Policy) : string := "policy " +:+ Quote (P_ID p).
Definition ruleLabel (r : Rule) : string := "rule " +:+ Quote (R_ID r).

(** ** [NewTree] *)

Inductive node_error :=
  | NilChild (i : nat)
  | UnknownAlgorithm (a : Algorithm)
  | FailsWithChildren
  | IsolatedWithChildren
  | NoVar
  | VarTwice (var : string)
  | IterateAlgorithm (a : Algorithm)
  | UnknownEffect (e : Effect)
  | BadCondition (e : condition_error)
  | WrongPlace (place want : Place)
  | PassValueOutside (var : string)
  | ScopeInsideIterate
  | UnknownDialect (d : Dialect)
  | ParamJSON (key : string) (e : json_error).

Inductive tree_error :=
  | PIPNil (i : nat)
  | PIPPrefix (name : string)
  | PIPTwice (name : string)
  | PIPIsolatedFields (name : string)
  | PIPUnknownType (name : string) (t : PIPType)
  | PIPFieldJSON (name field : string) (e : json_error)
  | PIPAttributeJSON (name key : string) (e : json_error)
  | GroupNil (i : nat)
  | At (where_ : node) (e : node_error).

(** [slices.Index(l, nil)]. *)
Definition nil_index {A} (l : list (option A)) : option nat := fst <$> list_find (λ x, x = None) l.

(** A loop over elements [slices.Index] found not to be nil. *)
Definition each {E St A} (f : nat → A → St → result E St) (i : nat) (p : option A) (st : St) : result E St :=
  match p with
  | Some x => f i x st
  | None => Ok st
  end.

Definition nonnil {E A} (l : list (option A)) (e : nat → E) : result E unit :=
  match nil_index l with
  | Some i => Err (e i)
  | None => Ok tt
  end.

(** The checks of the entries of a map, in some order. *)
Definition check_entries {E} (check : string → string → result E unit) (m : gmap string string) : result E unit :=
  loop (λ _ kv _, check kv.1 kv.2) 0 (map_to_list m) tt.

Definition checkPredicates (where_ : node) (p : Predicates) : result tree_error unit :=
  _ ← check_entries (λ d _, check (member d dialects) (At where_ (UnknownDialect d))) (Text p);
  match Custom p with
  | None => Ok tt
  | Some c => check_entries (λ k v, wrap (λ e, At where_ (ParamJSON k e)) (checkJSON v)) (Params c)
  end.

(** The checker's state: the variables of the tree so far, and those bound around the node. *)
Record checker := Checker { vars : gset string; bound : gset string }.

(** What an operand may read where [c] stands. *)
Definition check_use (where_ : node) (c : checker) (o : option Operand) : result tree_error unit :=
  match o with
  | Some (PassValue var _) => check (bool_decide (var ∈ bound c)) (At where_ (PassValueOutside var))
  | Some (Subject attr _) =>
      check (negb (eqb attr SubjectPermissionScope && negb (eqb (bound c) ∅))) (At where_ ScopeInsideIterate)
  | _ => Ok tt
  end.

Definition check_atom (where_ : node) (c : checker) (a : option Atom) : result tree_error unit :=
  match a with
  | Some (ACompare cmp) => loop (λ _ o _, check_use where_ c o) 0 [Left cmp; Right cmp] tt
  | _ => Ok tt
  end.

(** [checker.condition], which reads the state only. *)
Definition check_condition (where_ : node) (c : checker) (cond : option Condition) (place : Place) :
    result tree_error unit :=
  match cond with
  | None => Ok tt
  | Some cond =>
      _ ← wrap (λ e, At where_ (BadCondition e)) (validateCondition cond);
      _ ← check (eqb (CPlace cond) place) (At where_ (WrongPlace (CPlace cond) place));
      loop (λ _ d _, loop (λ _ a _, check_atom where_ c a) 0 d tt) 0 (Disjuncts cond) tt
  end.

Definition check_rule (rp : node) (c : checker) (r : Rule) : result tree_error unit :=
  _ ← check (member (R_Effect r) effects) (At rp (UnknownEffect (R_Effect r)));
  _ ← check_condition (child rp "target") c (R_Target r) PlaceRuleTarget;
  _ ← check_condition (child rp "condition") c (R_Condition r) PlaceRuleCondition;
  checkPredicates rp (R_Predicates r).

(** The label the loop gives to the element at [i]. *)
Definition label_at {A} (label : A → string) (l : list (option A)) (i : nat) : string :=
  default EmptyString (labels (of_ptr label) l !! i).

(** [checker.policy]. *)
Definition check_policy (here : node) (c : checker) (p : Policy) : result tree_error unit :=
  _ ← check (member (P_Algorithm p) algorithms) (At here (UnknownAlgorithm (P_Algorithm p)));
  _ ← check_condition (child here "target") c (P_Target p) PlacePolicyTarget;
  _ ← nonnil (P_Rules p) (λ i, At here (NilChild i));
  loop (each (λ i r _, check_rule (child here (label_at ruleLabel (P_Rules p) i)) c r)) 0 (P_Rules p) tt.


(** [iterate], as [checker.set] enters it. *)
Definition enter (here : node) (c : checker) (it : Iterate) : result tree_error checker :=
  let var := It_Var it in
  _ ← check (negb (empty var)) (At here NoVar);
  _ ← check (negb (bool_decide (var ∈ vars c))) (At here (VarTwice var));
  _ ← check (negb (eqb (It_Algorithm it) AlgorithmAbsent || negb (member (It_Algorithm it) algorithms)))
        (At here (IterateAlgorithm (It_Algorithm it)));
  Ok (Checker ({[ var ]} ∪ vars c) ({[ var ]} ∪ bound c)).

(** The deferred [delete(c.bound, it.Var)]. *)
Definition leave (it : option Iterate) (c : checker) : checker :=
  match it with
  | Some it => Checker (vars c) (bound c ∖ {[ It_Var it ]})
  | None => c
  end.

(** [checker.set], with [checker.sets] for the nested ones inlined as its last loop. *)
Fixpoint check_set (here : node) (s : PolicySet) (c : checker) : result tree_error checker :=
  let children := is_some (S_Iterate s) || negb (is_nil (S_Policies s)) || negb (is_nil (S_Sets s)) in
  let fails := negb (empty (S_AlwaysFails s)) in
  let isolated := negb (empty (S_Isolated s)) in
  _ ← check (member (S_Algorithm s) algorithms) (At here (UnknownAlgorithm (S_Algorithm s)));
  _ ← check (negb (fails && children)) (At here FailsWithChildren);
  _ ← check (negb (isolated && (fails || children))) (At here IsolatedWithChildren);
  _ ← check_condition (child here "target") c (S_Target s) PlaceSetTarget;
  c ← (match S_Iterate s with Some it => enter here c it | None => Ok c end);
  _ ← nonnil (S_Policies s) (λ i, At here (NilChild i));
  _ ← loop (each (λ i p _, check_policy (child here (label_at policyLabel (S_Policies s) i)) c p))
        0 (S_Policies s) tt;
  _ ← nonnil (S_Sets s) (λ i, At (child here "sets") (NilChild i));
  c ← loop (λ i p c, match p with
                     | Some s' => check_set (child here (label_at setLabel (S_Sets s) i)) s' c
                     | None => Ok c
                     end) 0 (S_Sets s) c;
  Ok (leave (S_Iterate s) c).

(** [checker.sets]. *)
Definition check_sets (parent : node) (sets : list (option PolicySet)) (c : checker) : result tree_error checker :=
  _ ← nonnil sets (λ i, At (child parent "sets") (NilChild i));
  loop (each (λ i s c, check_set (child parent (label_at setLabel sets i)) s c)) 0 sets c.

Definition HasPrefix (s p : string) : bool := bool_decide (bytes_of p `prefix_of` bytes_of s).

(** One declaration, with the names before it. *)
Definition check_pip (i : nat) (p : option PIP) (names : gset string) : result tree_error (gset string) :=
  match p with
  | None => Err (PIPNil i)
  | Some p =>
      let n := Name p in
      _ ← check (HasPrefix n "subject.") (PIPPrefix n);
      _ ← check (negb (bool_decide (n ∈ names))) (PIPTwice n);
      _ ← (if negb (empty (Isolated p)) then
             check (eqb p (isolated_pip n (Isolated p))) (PIPIsolatedFields n)
           else
             _ ← check (member (Type_ p) pipTypes) (PIPUnknownType n (Type_ p));
             _ ← loop (λ _ f _, if empty f.2 then Ok tt else wrap (PIPFieldJSON n f.1) (checkJSON f.2)) 0
                   [("defaultValue", DefaultValue p); ("productMapping", ProductMapping p);
                    ("customMapping", CustomMapping p); ("cacheable", Cacheable p);
                    ("cachePeriod", CachePeriod p)]%string tt;
             check_entries (λ k v, wrap (PIPAttributeJSON n k) (checkJSON v)) (default ∅ (RequestAttributes p)));
      Ok ({[ n ]} ∪ names)
  end.

Definition check_group (groups : list string) (c : checker) (i : nat) (g : SimplifiedGroup) (_ : unit) :
    result tree_error unit :=
  let here := [default EmptyString (groups !! i)] in
  _ ← nonnil (G_Policies g) (λ j, At here (NilChild j));
  loop (each (λ j p _,
    let here := child here (label_at simplifiedPolicyLabel (G_Policies g) j) in
    _ ← check_condition (child here "condition") c (SP_Condition p) PlaceSimplified;
    checkPredicates here (SP_Predicates p))) 0 (G_Policies g) tt.

(** [Tree.validate]. *)
Definition validate (t : Tree) : result tree_error unit :=
  _ ← loop check_pip 0 (PIPs t) ∅;
  let c := Checker ∅ ∅ in
  _ ← nonnil (Simplified t) GroupNil;
  _ ← loop (each (check_group (labels (of_ptr groupLabel) (Simplified t)) c)) 0 (Simplified t) tt;
  _ ← check_sets [] (Sets t) c;
  Ok tt.

Definition NewTree (simplified : list (option SimplifiedGroup)) (sets : list (option PolicySet))
    (pips : list (option PIP)) : result tree_error Tree :=
  let t := MkTree simplified sets pips in
  _ ← validate t; Ok t.

(** ** What a valid tree is *)

Definition wf_json (v : string) : Prop := ∃ s, Json.Compact s = Some (bytes_of v).

Definition wf_predicates (p : Predicates) : Prop :=
  (∀ d t, Text p !! d = Some t → d ∈ dialects)
  ∧ ∀ c k v, Custom p = Some c → Params c !! k = Some v → wf_json v.

(** What an operand may read inside the iterates that bind [b]. *)
Definition reads (b : gset string) (o : Operand) : Prop :=
  match o with
  | PassValue var _ => var ∈ b
  | Subject attr _ => attr = SubjectPermissionScope → b = ∅
  | _ => True
  end.

Definition wf_cond_at (b : gset string) (place : Place) (cond : option Condition) : Prop :=
  ∀ c, cond = Some c →
    wf_condition c ∧ CPlace c = place
    ∧ ∀ d cmp o, d ∈ Disjuncts c → Some (ACompare cmp) ∈ d →
        Left cmp = Some o ∨ Right cmp = Some o → reads b o.

Definition wf_rule (b : gset string) (r : Rule) : Prop :=
  R_Effect r ∈ effects ∧ wf_cond_at b PlaceRuleTarget (R_Target r)
  ∧ wf_cond_at b PlaceRuleCondition (R_Condition r) ∧ wf_predicates (R_Predicates r).

Definition wf_policy (b : gset string) (p : Policy) : Prop :=
  P_Algorithm p ∈ algorithms ∧ wf_cond_at b PlacePolicyTarget (P_Target p)
  ∧ ∀ r, r ∈ P_Rules p → ∃ r', r = Some r' ∧ wf_rule b r'.

Definition childless (s : PolicySet) : Prop := S_Iterate s = None ∧ S_Policies s = [] ∧ S_Sets s = [].

(** The variables bound inside a set that stands where [b] are bound. *)
Definition inside (b : gset string) (s : PolicySet) : gset string :=
  match S_Iterate s with
  | Some it => {[ It_Var it ]} ∪ b
  | None => b
  end.

Definition wf_iterate (it : Iterate) : Prop :=
  It_Var it ≠ EmptyString ∧ It_Algorithm it ∈ algorithms ∧ It_Algorithm it ≠ AlgorithmAbsent.

Inductive wf_set : gset string → PolicySet → Prop :=
  | wf_set_intro b s :
      S_Algorithm s ∈ algorithms →
      (S_AlwaysFails s ≠ EmptyString → childless s) →
      (S_Isolated s ≠ EmptyString → S_AlwaysFails s = EmptyString ∧ childless s) →
      wf_cond_at b PlaceSetTarget (S_Target s) →
      (∀ it, S_Iterate s = Some it → wf_iterate it) →
      (∀ p, p ∈ S_Policies s → ∃ p', p = Some p' ∧ wf_policy (inside b s) p') →
      (∀ p, p ∈ S_Sets s → ∃ s', p = Some s' ∧ wf_set (inside b s) s') →
      wf_set b s.

(** The variables of a set, in the order they are met. *)
Fixpoint vars_of (s : PolicySet) : list string :=
  match S_Iterate s with Some it => [It_Var it] | None => [] end
  ++ concat (map (λ p, match p with Some s' => vars_of s' | None => [] end) (S_Sets s)).

Definition vars_of_sets (sets : list (option PolicySet)) : list string :=
  concat (map (λ p, match p with Some s' => vars_of s' | None => [] end) sets).

Definition wf_group (g : SimplifiedGroup) : Prop :=
  ∀ p, p ∈ G_Policies g → ∃ p', p = Some p' ∧ wf_cond_at ∅ PlaceSimplified (SP_Condition p')
                                ∧ wf_predicates (SP_Predicates p').

Definition wf_pip (p : PIP) : Prop :=
  bytes_of "subject." `prefix_of` bytes_of (Name p)
  ∧ if decide (Isolated p = EmptyString) then
      Type_ p ∈ pipTypes
      ∧ (∀ v, v ∈ [DefaultValue p; ProductMapping p; CustomMapping p; Cacheable p; CachePeriod p] →
              v = EmptyString ∨ wf_json v)
      ∧ ∀ m k v, RequestAttributes p = Some m → m !! k = Some v → wf_json v
    else p = isolated_pip (Name p) (Isolated p).

(** The conditions the comment on [NewTree] lists. *)
Definition wf_tree (t : Tree) : Prop :=
  (∃ pips, PIPs t = Some <$> pips ∧ Forall wf_pip pips ∧ NoDup (Name <$> pips))
  ∧ (∀ p, p ∈ Simplified t → ∃ g, p = Some g ∧ wf_group g)
  ∧ (∀ p, p ∈ Sets t → ∃ s, p = Some s ∧ wf_set ∅ s)
  ∧ NoDup (vars_of_sets (Sets t)).

(** ** The checks decide validity *)

Lemma nonnil_Ok {E A} (l : list (option A)) (e : nat → E) :
  nonnil l e = Ok tt ↔ ∀ p, p ∈ l → ∃ x, p = Some x.
Proof.
  unfold nonnil, nil_index. destruct (list_find _ l) as [[i x]|] eqn:El; simpl.
  - apply list_find_Some in El as (Hi & -> & _). apply list_elem_of_lookup_2 in Hi. split; [done|].
    intros H. by destruct (H _ Hi).
  - apply list_find_None in El. rewrite Forall_forall in El. split; [|done]. intros _ [x|] Hx; [eauto|].
    by destruct (El None Hx).
Qed.

Lemma each_Ok {E A} (f : nat → A → result E unit) l i :
  loop (each (λ j x _, f j x)) i l tt = Ok tt ↔ ∀ j x, l !! j = Some (Some x) → f (i + j) x = Ok tt.
Proof.
  transitivity (loop (λ j p _, match p with Some x => f j x | None => Ok tt end) i l tt = Ok tt).
  - f_equiv. generalize i. induction l as [|[x|] l IH]; intros k; simpl; [done| |apply IH].
    destruct (f k x) as [[]|]; simpl; [apply IH|done].
  - rewrite loop_Ok_from. split.
    + intros H j x Hj. apply (H _ _ Hj).
    + intros H j [x|] Hj; [by apply H|done].
Qed.

Lemma each_all {E A} (f : nat → A → result E unit) (P : A → Prop) (l : list (option A)) :
  (∀ i x, f i x = Ok tt ↔ P x) →
  (∀ p, p ∈ l → ∃ x, p = Some x) ∧ loop (each (λ j x _, f j x)) 0 l tt = Ok tt
  ↔ ∀ p, p ∈ l → ∃ x, p = Some x ∧ P x.
Proof.
  intros Hf. rewrite each_Ok. setoid_rewrite Hf. split.
  - intros [Hn H] p Hp. destruct (Hn p Hp) as [x ->]. exists x. split; [done|].
    apply list_elem_of_lookup in Hp as [i Hi]. by eapply H.
  - intros H. split.
    + intros p Hp. destruct (H p Hp) as (x & -> & _). eauto.
    + intros j x Hj. destruct (H (Some x)) as (? & [= <-] & ?); [|done].
      by eapply list_elem_of_lookup_2.
Qed.

Lemma check_entries_Ok {E} (check : string → string → result E unit) m :
  check_entries check m = Ok tt ↔ ∀ k v, m !! k = Some v → check k v = Ok tt.
Proof.
  unfold check_entries. rewrite (loop_Ok (λ _ kv, check kv.1 kv.2)). split.
  - intros H k v Hk. apply elem_of_map_to_list, list_elem_of_lookup in Hk as [i Hi]. by apply (H i (k, v)).
  - intros H i [k v] Hi. apply list_elem_of_lookup_2, elem_of_map_to_list in Hi. by apply H.
Qed.

Lemma checkJSON_Ok v : checkJSON v = Ok tt ↔ wf_json v.
Proof.
  unfold checkJSON, wf_json. split.
  - destruct (Json.Compact (bytes_of v)) as [b|] eqn:E; [|done]. rewrite check_Ok, eqb_true.
    intros ->. eauto.
  - intros [s H]. rewrite (Json.Compact_idem _ _ H). by rewrite check_Ok, eqb_true.
Qed.

Lemma checkPredicates_Ok n p : checkPredicates n p = Ok tt ↔ wf_predicates p.
Proof.
  unfold checkPredicates, wf_predicates. result_simp. rewrite check_entries_Ok.
  setoid_rewrite check_Ok. setoid_rewrite member_true.
  destruct (Custom p) as [c|]; [|naive_solver].
  rewrite check_entries_Ok. setoid_rewrite wrap_Ok. setoid_rewrite checkJSON_Ok. naive_solver.
Qed.

Lemma check_use_Ok n c o : check_use n c (Some o) = Ok tt ↔ reads (bound c) o.
Proof.
  destruct o; simpl; try done; rewrite check_Ok.
  - rewrite negb_true_iff, andb_false_iff, negb_false_iff, eqb_false, eqb_true.
    destruct (decide (Attr = SubjectPermissionScope)); naive_solver.
  - by rewrite bool_decide_eq_true.
Qed.

Lemma check_atom_Ok n c a :
  check_atom n c a = Ok tt ↔
  ∀ cmp o, a = Some (ACompare cmp) → Left cmp = Some o ∨ Right cmp = Some o → reads (bound c) o.
Proof.
  unfold check_atom. destruct a as [[]|]; [naive_solver..| |naive_solver|naive_solver].
  rewrite loop_Ok. setoid_rewrite <-check_use_Ok. split.
  - intros H cmp o [= <-] [Ho|Ho]; rewrite <-Ho; [by apply (H 0)|by apply (H 1)].
  - intros H [|[|[|]]] o; simpl; intros [= <-].
    + destruct (Left c0) as [o|] eqn:E; [|done]. by eapply H; [|left].
    + destruct (Right c0) as [o|] eqn:E; [|done]. by eapply H; [|right].
Qed.

Lemma check_condition_Ok n c cond place :
  check_condition n c cond place = Ok tt ↔ wf_cond_at (bound c) place cond.
Proof.
  unfold check_condition, wf_cond_at. destruct cond as [cond|]; [|naive_solver].
  result_simp. rewrite wrap_Ok, validateCondition_Ok, eqb_true, loop_Ok. setoid_rewrite loop_Ok.
  setoid_rewrite check_atom_Ok. split.
  - intros (Hwf & Hp & H) ? [= <-]. split_and!; [done..|]. intros d cmp o Hd Ha.
    apply list_elem_of_lookup in Hd as [i Hi], Ha as [j Hj]. by eapply H.
  - intros H. destruct (H _ eq_refl) as (Hwf & Hp & Hr). split_and!; [done..|].
    intros i d Hi j a Hj cmp o ->. apply (Hr d); by eapply list_elem_of_lookup_2.
Qed.

Lemma check_rule_Ok n c r : check_rule n c r = Ok tt ↔ wf_rule (bound c) r.
Proof.
  unfold check_rule, wf_rule. result_simp.
  by rewrite member_true, !check_condition_Ok, checkPredicates_Ok.
Qed.

Lemma check_policy_Ok n c p : check_policy n c p = Ok tt ↔ wf_policy (bound c) p.
Proof.
  unfold check_policy, wf_policy. result_simp.
  rewrite member_true, check_condition_Ok, nonnil_Ok.
  rewrite (each_all _ (wf_rule (bound c))); [done|]. intros. apply check_rule_Ok.
Qed.

Fixpoint set_induction (P : PolicySet → Prop)
    (step : ∀ s, (∀ s', Some s' ∈ S_Sets s → P s') → P s) (s : PolicySet) {struct s} : P s.
Proof.
  apply step. destruct s as [? ? ? ? ? ? ? ? ? ? sets]. simpl.
  induction sets as [|[s'|] sets IH]; intros s'' Hs.
  - by apply elem_of_nil in Hs.
  - apply elem_of_cons in Hs as [[= ->]|Hs]; [by apply set_induction|by apply IH].
  - apply elem_of_cons in Hs as [Hs|Hs]; [discriminate Hs|by apply IH].
Defined.

Lemma enter_Ok here c it c' :
  enter here c it = Ok c' ↔
  wf_iterate it ∧ It_Var it ∉ vars c
  ∧ c' = Checker ({[ It_Var it ]} ∪ vars c) ({[ It_Var it ]} ∪ bound c).
Proof.
  unfold enter, wf_iterate. result_simp.
  rewrite !negb_true_iff, empty_false, bool_decide_eq_false, orb_false_iff, eqb_false, negb_false_iff, member_true.
  naive_solver.
Qed.

(** What a successful traversal has done: the variables met are new and distinct, and
    those bound around the node are as they were. *)
Definition visited (c c' : checker) (met : list string) : Prop :=
  NoDup met ∧ (∀ v, v ∈ met → v ∉ vars c) ∧ c' = Checker (list_to_set met ∪ vars c) (bound c).

Definition set_spec (s : PolicySet) : Prop := ∀ here c c', bound c ⊆ vars c →
  check_set here s c = Ok c' ↔ wf_set (bound c) s ∧ visited c c' (vars_of s).

Lemma vars_of_eq s : vars_of s = option_list (It_Var <$> S_Iterate s) ++ vars_of_sets (S_Sets s).
Proof. destruct s as [? ? ? ? ? ? [it|] ? ? ? ?]; done. Qed.

Lemma visited_app c c' l l' :
  visited c c' (l ++ l') ↔ ∃ c1, visited c c1 l ∧ visited c1 c' l'.
Proof.
  unfold visited. split.
  - intros (Hn & Hf & ->). apply NoDup_app in Hn as (Hl & Hd & Hl').
    exists (Checker (list_to_set l ∪ vars c) (bound c)). cbn [vars bound]. split_and!; [done|set_solver|done|done|set_solver|].
    f_equal. rewrite list_to_set_app_L. set_solver.
  - intros (c1 & (Hl & Hf & ->) & Hl' & Hf' & ->). cbn [vars bound] in *. split_and!.
    + apply NoDup_app. split_and!; [done|set_solver|done].
    + set_solver.
    + f_equal. rewrite list_to_set_app_L. set_solver.
Qed.

Lemma visited_bound c c' l : visited c c' l → bound c ⊆ vars c → bound c' = bound c ∧ bound c' ⊆ vars c'.
Proof. intros (_ & _ & ->) H. simpl. set_solver. Qed.

(** [checker.sets] over the elements from [k] on, with the path of each. *)
Lemma sets_loop_Ok (path : nat → node) k l c c' :
  (∀ s, Some s ∈ l → set_spec s) → bound c ⊆ vars c →
  loop (λ i p c, match p with Some s => check_set (path i) s c | None => Ok c end) k l c = Ok c' ↔
  (∀ s, Some s ∈ l → wf_set (bound c) s) ∧ visited c c' (vars_of_sets l).
Proof.
  revert k c. induction l as [|p l IH]; intros k c Hs Hb; simpl.
  { unfold visited, vars_of_sets. simpl. destruct c as [vs bs]. simpl. split.
    - intros [= <-]. split_and!; [set_solver|constructor|set_solver|f_equal; set_solver].
    - intros (_ & _ & _ & ->). do 2 f_equal. set_solver. }
  rewrite bind_Ok. destruct p as [s|].
  - assert (set_spec s) as Hspec by (apply Hs; set_solver).
    change (vars_of_sets (Some s :: l)) with (vars_of s ++ vars_of_sets l).
    rewrite visited_app. split.
    + intros (c1 & H1 & H2). apply Hspec in H1 as [Hwf Hv]; [|done].
      destruct (visited_bound _ _ _ Hv Hb) as [E Hb1].
      apply IH in H2 as [Hl Hv2]; [|set_solver|done]. rewrite E in Hl.
      split; [|eauto]. intros s' Hs'. apply elem_of_cons in Hs' as [[= ->]|Hs']; [done|by apply Hl].
    + intros (Hl & c1 & Hv1 & Hv2). destruct (visited_bound _ _ _ Hv1 Hb) as [E Hb1].
      exists c1. split; [apply Hspec; [done|]; split; [apply Hl; set_solver|done]|].
      apply IH; [set_solver|done|]. rewrite E. split; [set_solver|done].
  - change (vars_of_sets (None :: l)) with (vars_of_sets l). split.
    + intros (c1 & [= <-] & H). apply IH in H as [Hl Hv]; [|set_solver|done].
      split; [|done]. intros s' Hs'. apply elem_of_cons in Hs' as [?|?]; [done|by apply Hl].
    + intros [Hl Hv]. exists c. split; [done|]. apply IH; [set_solver|done|]. split; [set_solver|done].
Qed.

Lemma flags_Ok (b : bool) s :
  negb (negb (empty s) && b) = true ↔ (s ≠ EmptyString → b = false).
Proof.
  rewrite negb_true_iff, andb_false_iff, negb_false_iff, empty_true.
  destruct (decide (s = EmptyString)); naive_solver.
Qed.

Lemma childless_flags s :
  is_some (S_Iterate s) || negb (is_nil (S_Policies s)) || negb (is_nil (S_Sets s)) = false ↔ childless s.
Proof.
  unfold childless. rewrite !orb_false_iff, !negb_false_iff.
  destruct (S_Iterate s), (S_Policies s), (S_Sets s); simpl; naive_solver.
Qed.

(** What [checker.set] checks before it enters the set's children. *)
Definition wf_head (b : gset string) (s : PolicySet) : Prop :=
  S_Algorithm s ∈ algorithms
  ∧ (S_AlwaysFails s ≠ EmptyString → childless s)
  ∧ (S_Isolated s ≠ EmptyString → S_AlwaysFails s = EmptyString ∧ childless s)
  ∧ wf_cond_at b PlaceSetTarget (S_Target s).

Lemma wf_set_eq b s :
  wf_set b s ↔ wf_head b s ∧ (∀ it, S_Iterate s = Some it → wf_iterate it)
    ∧ (∀ p, p ∈ S_Policies s → ∃ p', p = Some p' ∧ wf_policy (inside b s) p')
    ∧ (∀ p, p ∈ S_Sets s → ∃ s', p = Some s' ∧ wf_set (inside b s) s').
Proof.
  unfold wf_head. split; [destruct 1; split_and!; assumption|].
  intros ((? & ? & ? & ?) & ? & ? & ?). by constructor.
Qed.

(** The head of [checker.set], and what it does in the set. *)
Definition check_head (here : node) (c : checker) (s : PolicySet) : result tree_error unit :=
  let children := is_some (S_Iterate s) || negb (is_nil (S_Policies s)) || negb (is_nil (S_Sets s)) in
  let fails := negb (empty (S_AlwaysFails s)) in
  let isolated := negb (empty (S_Isolated s)) in
  _ ← check (member (S_Algorithm s) algorithms) (At here (UnknownAlgorithm (S_Algorithm s)));
  _ ← check (negb (fails && children)) (At here FailsWithChildren);
  _ ← check (negb (isolated && (fails || children))) (At here IsolatedWithChildren);
  check_condition (child here "target") c (S_Target s) PlaceSetTarget.

Definition check_children (here : node) (s : PolicySet) (c : checker) : result tree_error checker :=
  _ ← nonnil (S_Policies s) (λ i, At here (NilChild i));
  _ ← loop (each (λ i p _, check_policy (child here (label_at policyLabel (S_Policies s) i)) c p))
        0 (S_Policies s) tt;
  check_sets here (S_Sets s) c.

Lemma bind_assoc {E A B C} (m : result E A) (f : A → result E B) (g : B → result E C) :
  ((m ≫= f) ≫= g) = (m ≫= λ x, f x ≫= g).
Proof. by destruct m. Qed.

Lemma check_set_eq here s c :
  check_set here s c =
    (_ ← check_head here c s;
     c ← (match S_Iterate s with Some it => enter here c it | None => Ok c end);
     c ← check_children here s c;
     Ok (leave (S_Iterate s) c)).
Proof.
  destruct s. unfold check_head, check_children, check_sets. cbn -[check_condition enter nonnil loop label_at].
  repeat match goal with
  | |- context [mbind _ (check ?b ?e)] => destruct (check b e); cbn [mbind result_bind]; [|done]
  end.
  destruct (check_condition _ _ _ _); cbn [mbind result_bind]; [|done].
  destruct (match S_Iterate0 with Some it => enter here c it | None => Ok c end) as [c1|];
    cbn [mbind result_bind]; [|done].
  destruct (nonnil S_Policies0 _); cbn [mbind result_bind]; [|done].
  destruct (loop _ 0 S_Policies0 tt); cbn [mbind result_bind]; [|done].
  by destruct (nonnil S_Sets0 _).
Qed.

Lemma check_head_Ok here c s : check_head here c s = Ok tt ↔ wf_head (bound c) s.
Proof.
  unfold check_head, wf_head. result_simp.
  rewrite member_true, !flags_Ok, check_condition_Ok, childless_flags, (orb_false_iff (negb _)),
    negb_false_iff, empty_true, childless_flags. done.
Qed.

Lemma check_sets_Ok here l c c' :
  (∀ s, Some s ∈ l → set_spec s) → bound c ⊆ vars c →
  check_sets here l c = Ok c' ↔
  (∀ p, p ∈ l → ∃ s, p = Some s ∧ wf_set (bound c) s) ∧ visited c c' (vars_of_sets l).
Proof.
  intros Hs Hb. unfold check_sets. rewrite bind_unit_Ok, nonnil_Ok.
  rewrite (sets_loop_Ok (λ i, child here (label_at setLabel l i))) by done. split.
  - intros (Hn & Hw & Hv). split; [|done]. intros p Hp. destruct (Hn p Hp) as [s ->]. eauto.
  - intros [H Hv]. split_and!; [|intros s Hp; destruct (H _ Hp) as (? & [= <-] & ?)|]; [|done..].
    intros p Hp. destruct (H p Hp) as (s & -> & _). eauto.
Qed.

Lemma check_children_Ok here s c c' :
  (∀ s', Some s' ∈ S_Sets s → set_spec s') → bound c ⊆ vars c →
  check_children here s c = Ok c' ↔
  (∀ p, p ∈ S_Policies s → ∃ p', p = Some p' ∧ wf_policy (bound c) p')
  ∧ (∀ p, p ∈ S_Sets s → ∃ s', p = Some s' ∧ wf_set (bound c) s')
  ∧ visited c c' (vars_of_sets (S_Sets s)).
Proof.
  intros Hs Hb. unfold check_children. rewrite !bind_unit_Ok, nonnil_Ok, check_sets_Ok by done.
  rewrite <-(each_all (λ i p, check_policy (child here (label_at policyLabel (S_Policies s) i)) c p)
               (wf_policy (bound c))) by (intros; apply check_policy_Ok).
  tauto.
Qed.

(** A set is accepted exactly when it is valid where it stands and its variables are
    new; the checker then knows them and has unbound its own. *)
Lemma check_set_Ok s : set_spec s.
Proof.
  induction s as [s IH] using set_induction. intros here c c' Hb.
  rewrite check_set_eq, bind_unit_Ok, check_head_Ok, wf_set_eq, vars_of_eq, visited_app, bind_Ok.
  unfold inside. destruct (S_Iterate s) as [it|]; simpl option_list.
  - setoid_rewrite enter_Ok. setoid_rewrite bind_Ok. split.
    + intros (Hh & c1 & (Hi & Hf & ->) & c2 & Hc & [= <-]).
      apply check_children_Ok in Hc as (Hp & Hs & Hv); [|done|simpl; set_solver].
      split; [split_and!; [done|naive_solver|done|done]|].
      destruct Hv as (Hn & Hd & ->). cbn [vars bound] in *. unfold visited.
      exists (Checker ({[It_Var it]} ∪ vars c) (bound c)). cbn [vars bound leave].
      split_and!; [apply NoDup_singleton|set_solver|f_equal; set_solver|done|done|].
      f_equal. set_solver.
    + intros ((Hh & Hi & Hp & Hs) & c1 & (_ & Hf & ->) & Hn & Hd & ->). cbn [vars bound] in *.
      split; [done|]. eexists. split; [split_and!; [by apply Hi|set_solver|done]|].
      eexists. split.
      * apply check_children_Ok; [done|simpl; set_solver|]. split_and!; [done|done|].
        split_and!; [done|cbn [vars]; set_solver|done].
      * cbn [vars bound leave]. do 2 f_equal; set_solver.
  - setoid_rewrite bind_Ok. split.
    + intros (Hh & c1 & [= <-] & c2 & Hc & [= <-]).
      apply check_children_Ok in Hc as (Hp & Hs & Hv); [|done|done].
      split; [split_and!; [done|naive_solver|done|done]|]. exists c. split; [|done].
      split_and!; [constructor|set_solver|]. destruct c. simpl. f_equal. set_solver.
    + intros ((Hh & _ & Hp & Hs) & c1 & (_ & _ & ->) & Hv). split; [done|]. exists c. split; [done|].
      exists c'. split; [|done]. apply check_children_Ok; [done..|]. split_and!; [done|done|].
      replace c with (Checker (list_to_set [] ∪ vars c) (bound c)); [done|].
      destruct c. simpl. f_equal. set_solver.
Qed.

Lemma HasPrefix_true s q : HasPrefix s q = true ↔ bytes_of q `prefix_of` bytes_of s.
Proof. apply bool_decide_eq_true. Qed.

Lemma check_pip_Ok i p names names' :
  check_pip i p names = Ok names' ↔
  ∃ p', p = Some p' ∧ wf_pip p' ∧ Name p' ∉ names ∧ names' = {[ Name p' ]} ∪ names.
Proof.
  destruct p as [p|]; [|naive_solver]. unfold check_pip. cbn zeta. result_simp.
  rewrite HasPrefix_true, negb_true_iff, bool_decide_eq_false.
  assert (∀ q, (if negb (empty (Isolated p)) then check (eqb p (isolated_pip (Name p) (Isolated p))) (PIPIsolatedFields (Name p))
                else q) = Ok tt ↔
               if decide (Isolated p = EmptyString) then q = Ok tt else p = isolated_pip (Name p) (Isolated p)) as ->.
  { intros q. unfold empty, eqb at 1. case_bool_decide; case_decide; try done. simpl. by rewrite check_Ok, eqb_true. }
  transitivity (wf_pip p ∧ Name p ∉ names ∧ names' = {[ Name p ]} ∪ names);
    [|by split; [exists p|intros (? & [= <-] & ?)]].
  unfold wf_pip. case_decide as Hi; [|intuition congruence].
  result_simp. rewrite member_true, check_entries_Ok.
  rewrite (loop_Ok (λ _ f, if empty f.2 then Ok tt else wrap (PIPFieldJSON (Name p) f.1) (checkJSON f.2))).
  setoid_rewrite wrap_Ok. setoid_rewrite checkJSON_Ok.
  assert (∀ f e, (if empty f then Ok tt else wrap e (checkJSON f) : result tree_error unit) = Ok tt ↔ f = EmptyString ∨ wf_json f) as Hf.
  { intros f e. destruct (empty f) eqn:E; [apply empty_true in E; naive_solver|].
    apply empty_false in E. rewrite wrap_Ok, checkJSON_Ok. naive_solver. }
  split.
  - intros (Hp & Hn & (Ht & Hl & Ha) & [= <-]). split_and!; try done.
    + intros v Hv. assert (∃ k, (k, v) ∈ [("defaultValue", DefaultValue p); ("productMapping", ProductMapping p);
                    ("customMapping", CustomMapping p); ("cacheable", Cacheable p);
                    ("cachePeriod", CachePeriod p)]%string) as [k Hk] by set_solver.
      apply list_elem_of_lookup in Hk as [j Hj]. eapply Hf, (Hl j (k, v) Hj).
    + intros m k v Hm. rewrite Hm in Ha. apply Ha.
  - intros ((Hp & Ht & Hl & Ha) & Hn & ->). split_and!; try done.
    + intros j [k v] Hj. apply Hf, Hl. simpl. apply list_elem_of_lookup_2 in Hj. set_solver.
    + intros k v. destruct (RequestAttributes p) as [m|]; [by apply Ha|]. simpl. by rewrite lookup_empty.
Qed.

Lemma check_pips_Ok i pips names :
  is_ok (loop check_pip i pips names) = true ↔
  ∃ ps, pips = Some <$> ps ∧ Forall wf_pip ps ∧ NoDup (Name <$> ps) ∧ ∀ p, p ∈ ps → Name p ∉ names.
Proof.
  revert i names. induction pips as [|p pips IH]; intros i names; simpl.
  { split; [|done]. intros _. exists []. split_and!; [done|constructor|constructor|set_solver]. }
  rewrite is_ok_true. setoid_rewrite bind_Ok. setoid_rewrite check_pip_Ok. split.
  - intros (names' & n1 & (p' & -> & Hp & Hn & ->) & H).
    destruct (proj1 (IH (S i) ({[Name p']} ∪ names))) as (ps & -> & Hps & Hd & Hf); [by apply is_ok_true; eauto|].
    exists (p' :: ps). split_and!; [done|by constructor| |set_solver].
    simpl. constructor; [|done]. intros (q & Hq & Hin)%list_elem_of_fmap. set_solver.
  - intros ([|p' ps] & H & Hps & Hd & Hf); [discriminate H|]. injection H as -> ->.
    apply Forall_cons in Hps as [Hp Hps]. simpl in Hd. apply NoDup_cons in Hd as [Hn Hd].
    destruct (proj1 (is_ok_true _) (proj2 (IH (S i) ({[Name p']} ∪ names))
      ltac:(exists ps; split_and!; [done..|]; intros q Hq; assert (Name q ≠ Name p') by (intros E; apply Hn; rewrite <-E; by apply list_elem_of_fmap_2); set_solver))) as [n' Hn'].
    exists n', ({[Name p']} ∪ names). split; [|done]. exists p'. split_and!; [done..| |done]. set_solver.
Qed.

Lemma check_group_Ok labels i g :
  check_group labels (Checker ∅ ∅) i g tt = Ok tt ↔ wf_group g.
Proof.
  unfold check_group, wf_group. rewrite bind_unit_Ok, nonnil_Ok.
  match goal with |- _ ∧ loop (each (λ j p _, @?f j p)) _ _ _ = _ ↔ _ =>
    apply (each_all f (λ p', wf_cond_at ∅ PlaceSimplified (SP_Condition p') ∧ wf_predicates (SP_Predicates p'))) end.
  intros j p. cbn beta zeta. by rewrite bind_unit_Ok, check_condition_Ok, checkPredicates_Ok.
Qed.

Lemma validate_Ok t : validate t = Ok tt ↔ wf_tree t.
Proof.
  unfold validate, wf_tree. rewrite bind_Ok. cbn zeta.
  transitivity (is_ok (loop check_pip 0 (PIPs t) ∅) = true ∧
    (∀ p, p ∈ Simplified t → ∃ g, p = Some g ∧ wf_group g)
    ∧ (∀ p, p ∈ Sets t → ∃ s, p = Some s ∧ wf_set ∅ s) ∧ NoDup (vars_of_sets (Sets t))).
  - rewrite is_ok_true. setoid_rewrite bind_unit_Ok. setoid_rewrite bind_unit_Ok.
    rewrite <-(each_all (λ i g, check_group (labels (of_ptr groupLabel) (Simplified t)) (Checker ∅ ∅) i g tt) wf_group)
      by (intros; apply check_group_Ok).
    rewrite <-(nonnil_Ok _ GroupNil).
    assert ((check_sets [] (Sets t) (Checker ∅ ∅) ≫= (λ _, Ok tt)) = Ok tt ↔
      (∀ p, p ∈ Sets t → ∃ s, p = Some s ∧ wf_set ∅ s) ∧ NoDup (vars_of_sets (Sets t))) as E.
    { rewrite bind_Ok. split.
      - intros (c' & Hc & _). apply check_sets_Ok in Hc as (Hs & Hn & _); [done| |set_solver].
        intros; apply check_set_Ok.
      - intros [Hs Hn]. eexists. split; [|done]. apply check_sets_Ok; [by intros; apply check_set_Ok|set_solver|].
        split; [done|]. split_and!; [done|set_solver|done]. }
    setoid_rewrite E.
    set (group := check_group (labels (of_ptr groupLabel) (Simplified t)) (Checker ∅ ∅)).
    change (λ j x (_ : unit), group j x tt) with group. naive_solver.
  - rewrite check_pips_Ok. set_solver.
Qed.

End tree.

(** ** Labels *)

Section labels_lemmas.
Context {A : Type} (label : A → string).

Definition numbered (l : string) (i : nat) : string := l +:+ " #" +:+ pretty i.

Lemma numbered_bytes l i : bytes_of (numbered l i) = bytes_of l ++ " "%char :: "#"%char :: bytes_of (pretty i).
Proof. unfold numbered. by rewrite !bytes_of_app. Qed.

Lemma numbered_last l i : ∃ c, last (bytes_of (numbered l i)) = Some c ∧ is_digit c = true.
Proof.
  rewrite numbered_bytes. destruct (pretty_digits i) as [Hne Hd].
  destruct (bytes_of (pretty i)) as [|x ds] using rev_ind; [done|].
  exists x. rewrite !app_comm_cons, app_assoc, last_snoc. split; [done|].
  apply Forall_app in Hd as [_ Hd]. by apply Forall_cons in Hd as [? _].
Qed.

Lemma numbered_inj l l' i j : numbered l i = numbered l' j → i = j.
Proof.
  intros H. apply (f_equal bytes_of) in H. rewrite !numbered_bytes in H.
  apply (f_equal reverse) in H. rewrite !reverse_app, !reverse_cons, <-!app_assoc in H.
  assert (∀ k : nat, Forall (λ c, is_digit c = true) (reverse (bytes_of (pretty k)))) as Hd.
  { intros k. apply Forall_reverse, pretty_digits. }
  assert (∀ a b (x y : bytes), Forall (λ c, is_digit c = true) a → Forall (λ c, is_digit c = true) b →
    a ++ "#"%char :: x = b ++ "#"%char :: y → a = b) as Hs.
  { induction a as [|c a IH]; intros [|d b] x y Ha Hb; simpl; intros E; [done| | |].
    - injection E as <- _. by apply Forall_cons in Hb as [? _].
    - injection E as -> _. by apply Forall_cons in Ha as [? _].
    - injection E as -> E. apply Forall_cons in Ha as [_ Ha], Hb as [_ Hb]. f_equal. eauto. }
  apply Hs in H; [|done..]. apply (inj reverse), (inj bytes_of), (inj pretty) in H. done.
Qed.

Lemma labels_lookup l i x :
  labels label l !! i = Some x →
  ∃ y, (label <$> l) !! i = Some y
       ∧ (x = numbered y i ∨ (x = y ∧ length (filter (y =.) (label <$> l)) ≤ 1)).
Proof.
  unfold labels. rewrite list_lookup_imap. destruct ((label <$> l) !! i) as [y|]; [|done].
  simpl. intros [= <-]. exists y. split; [done|].
  destruct (1 <? length (filter (y =.) (label <$> l))) eqn:E; [auto|]. apply Nat.ltb_ge in E. auto.
Qed.

Lemma once_lookup (l : list string) y i j :
  length (filter (y =.) l) ≤ 1 → l !! i = Some y → l !! j = Some y → i = j.
Proof.
  revert i j. induction l as [|x l IH]; intros i j; [done|].
  assert (∀ k, l !! k = Some y → 1 ≤ length (filter (y =.) l)) as Hin.
  { intros k Hk. apply list_elem_of_lookup_2 in Hk.
    assert (y ∈ filter (y =.) l) as H by by apply list_elem_of_filter.
    destruct (filter (y =.) l); [by apply elem_of_nil in H|simpl; lia]. }
  rewrite filter_cons. case_decide as Hx; simpl.
  - intros Hl. destruct i as [|i], j as [|j]; simpl; [done| | |].
    + intros _ Hj. specialize (Hin _ Hj). lia.
    + intros Hi _. specialize (Hin _ Hi). lia.
    + intros Hi _. specialize (Hin _ Hi). lia.
  - intros Hl. destruct i as [|i], j as [|j]; simpl; [congruence..|]. intros. f_equal. by eapply IH.
Qed.

(** Labels that end in a quote stay distinct when positions are added. *)
Lemma labels_NoDup l :
  (∀ x, last (bytes_of (label x)) = Some "034"%char) → NoDup (labels label l).
Proof.
  intros Hq. apply NoDup_alt. intros i j x Hi Hj.
  apply labels_lookup in Hi as (y & Hy & Hi), Hj as (z & Hz & Hj).
  assert (∀ k w, (label <$> l) !! k = Some w → last (bytes_of w) = Some "034"%char) as Hl.
  { intros k w. rewrite list_lookup_fmap. destruct (l !! k); simpl; [|done]. intros [= <-]. done. }
  destruct Hi as [Hi|[-> Hn]], Hj as [Hj|[<- Hm]].
  - rewrite Hi in Hj. by apply numbered_inj in Hj.
  - destruct (numbered_last y i) as (c & Hc & Hd). rewrite <-Hi, (Hl _ _ Hz) in Hc. by injection Hc as <-.
  - destruct (numbered_last z j) as (c & Hc & Hd). rewrite <-Hj, (Hl _ _ Hy) in Hc. by injection Hc as <-.
  - by eapply once_lookup.
Qed.

End labels_lemmas.

(** ** [Tree.Unsupported] *)

Record Finding := MkFinding { F_Where : string; F_Form : Form; F_Text : string }.

Section unsupported.
Context {table : UnicodeTable}.

Definition operand_findings (where_ : node) (o : option Operand) : list Finding :=
  match o with
  | Some (OUnsupported u) => [MkFinding (node_String where_) (Unsupported_Form u) (Unsupported_Text u)]
  | _ => []
  end.

Definition atom_findings (where_ : node) (a : option Atom) : list Finding :=
  match a with
  | Some (AUnsupported u) => [MkFinding (node_String where_) (Unsupported_Form u) (Unsupported_Text u)]
  | Some (ACompare c) => operand_findings where_ (Left c) ++ operand_findings where_ (Right c)
  | _ => []
  end.

(** The closure [cond]. *)
Definition cond_findings (where_ : node) (c : option Condition) : list Finding :=
  match c with
  | None => []
  | Some c => concat (map (λ d, concat (map (atom_findings where_) d)) (Disjuncts c))
  end.

(** What a loop over the elements with their labels appends; a nil element, which a tree
    does not hold, appends nothing here. *)
Definition over_from {A} (f : nat → A → list Finding) : nat → list (option A) → list Finding :=
  fix go i l :=
    match l with
    | [] => []
    | p :: l => match p with Some x => f i x | None => [] end ++ go (S i) l
    end.

Definition over {A} (f : nat → A → list Finding) : list (option A) → list Finding := over_from f 0.

Definition rule_findings (rp : node) (r : Rule) : list Finding :=
  cond_findings (child rp "target") (R_Target r) ++ cond_findings (child rp "condition") (R_Condition r).

Definition policy_findings (pp : node) (p : Policy) : list Finding :=
  cond_findings (child pp "target") (P_Target p)
  ++ over (λ j r, rule_findings (child pp (label_at ruleLabel (P_Rules p) j)) r) (P_Rules p).

(** The closure [set]. *)
Fixpoint set_findings (here : node) (s : PolicySet) (iterating : bool) : list Finding :=
  (match S_Iterate s with
   | Some it => if iterating then [MkFinding (node_String here) FormNestedIterate ("iterate var " +:+ It_Var it)] else []
   | None => []
   end)
  ++ cond_findings (child here "target") (S_Target s)
  ++ over (λ i p, policy_findings (child here (label_at policyLabel (S_Policies s) i)) p) (S_Policies s)
  ++ over (λ i c, set_findings (child here (label_at setLabel (S_Sets s) i)) c
                    (iterating || is_some (S_Iterate s))) (S_Sets s).

Definition pip_findings (p : option PIP) : list Finding :=
  match p with
  | Some p => if empty (PIP_Unsupported p) then []
              else [MkFinding ("pip " +:+ Quote (Name p)) FormPIPExtension (PIP_Unsupported p)]
  | None => []
  end.

Definition group_findings (here : node) (g : SimplifiedGroup) : list Finding :=
  over (λ j p, cond_findings (child (child here (label_at simplifiedPolicyLabel (G_Policies g) j)) "condition")
                 (SP_Condition p)) (G_Policies g).

Definition Tree_Unsupported (t : Tree) : list Finding :=
  concat (map pip_findings (PIPs t))
  ++ over (λ i g, group_findings [label_at groupLabel (Simplified t) i] g) (Simplified t)
  ++ over (λ i s, set_findings [label_at setLabel (Sets t) i] s false) (Sets t).

(** ** What the agent can execute *)

Definition executable_operand (o : option Operand) : Prop := ∀ u, o ≠ Some (OUnsupported u).

Definition executable_atom (a : option Atom) : Prop :=
  match a with
  | Some (AUnsupported _) => False
  | Some (ACompare c) => executable_operand (Left c) ∧ executable_operand (Right c)
  | _ => True
  end.

Definition executable_cond (c : option Condition) : Prop :=
  ∀ c' d a, c = Some c' → d ∈ Disjuncts c' → a ∈ d → executable_atom a.

Definition executable_policy (p : Policy) : Prop :=
  executable_cond (P_Target p)
  ∧ ∀ r, Some r ∈ P_Rules p → executable_cond (R_Target r) ∧ executable_cond (R_Condition r).

(** No unsupported form in the set, and no iterate where one encloses it. *)
Inductive executable_set : bool → PolicySet → Prop :=
  | executable_set_intro iterating s :
      (iterating = true → S_Iterate s = None) →
      executable_cond (S_Target s) →
      (∀ p, Some p ∈ S_Policies s → executable_policy p) →
      (∀ s', Some s' ∈ S_Sets s → executable_set (iterating || is_some (S_Iterate s)) s') →
      executable_set iterating s.

Definition executable_tree (t : Tree) : Prop :=
  (∀ p, Some p ∈ PIPs t → PIP_Unsupported p = EmptyString)
  ∧ (∀ g p, Some g ∈ Simplified t → Some p ∈ G_Policies g → executable_cond (SP_Condition p))
  ∧ (∀ s, Some s ∈ Sets t → executable_set false s).

Lemma concat_nil {A B} (f : A → list B) l : concat (map f l) = [] ↔ ∀ x, x ∈ l → f x = [].
Proof.
  induction l as [|x l IH]; simpl; [split; [intros _ x H; by apply elem_of_nil in H|done]|].
  rewrite app_nil, IH. setoid_rewrite elem_of_cons. naive_solver.
Qed.

Lemma over_nil {A} (f : nat → A → list Finding) (P : A → Prop) l :
  (∀ i x, Some x ∈ l → f i x = [] ↔ P x) → over f l = [] ↔ ∀ x, Some x ∈ l → P x.
Proof.
  unfold over. generalize 0. induction l as [|p l IH]; intros k Hf; simpl.
  { split; [|done]. intros _ x H. by apply elem_of_nil in H. }
  rewrite app_nil, IH.
  - setoid_rewrite elem_of_cons. destruct p as [x|]; [|naive_solver].
    rewrite Hf by set_solver. naive_solver.
  - intros i x Hx. apply Hf. set_solver.
Qed.

Lemma operand_findings_nil n o : operand_findings n o = [] ↔ executable_operand o.
Proof. unfold executable_operand. destruct o as [[]|]; naive_solver. Qed.

Lemma atom_findings_nil n a : atom_findings n a = [] ↔ executable_atom a.
Proof.
  destruct a as [[]|]; simpl; try done. by rewrite app_nil, !operand_findings_nil.
Qed.

Lemma cond_findings_nil n c : cond_findings n c = [] ↔ executable_cond c.
Proof.
  unfold cond_findings, executable_cond. destruct c as [c|]; [|naive_solver].
  rewrite concat_nil. setoid_rewrite concat_nil. setoid_rewrite atom_findings_nil. naive_solver.
Qed.

Lemma policy_findings_nil n p : policy_findings n p = [] ↔ executable_policy p.
Proof.
  unfold policy_findings, executable_policy.
  rewrite app_nil, cond_findings_nil, (over_nil _ (λ r, executable_cond (R_Target r) ∧ executable_cond (R_Condition r))); [done|].
  intros i r _. unfold rule_findings. by rewrite app_nil, !cond_findings_nil.
Qed.

Lemma set_findings_nil s : ∀ n iterating, set_findings n s iterating = [] ↔ executable_set iterating s.
Proof.
  induction s as [s IH] using set_induction. intros n it.
  assert (executable_set it s ↔ (it = true → S_Iterate s = None) ∧ executable_cond (S_Target s)
    ∧ (∀ p, Some p ∈ S_Policies s → executable_policy p)
    ∧ (∀ s', Some s' ∈ S_Sets s → executable_set (it || is_some (S_Iterate s)) s')) as ->.
  { split; [destruct 1; split_and!; assumption|]. intros (? & ? & ? & ?). by constructor. }
  assert (set_findings n s it =
    (match S_Iterate s with
     | Some i => if it then [MkFinding (node_String n) FormNestedIterate ("iterate var " +:+ It_Var i)] else []
     | None => []
     end)
    ++ cond_findings (child n "target") (S_Target s)
    ++ over (λ i p, policy_findings (child n (label_at policyLabel (S_Policies s) i)) p) (S_Policies s)
    ++ over (λ i c, set_findings (child n (label_at setLabel (S_Sets s) i)) c (it || is_some (S_Iterate s))) (S_Sets s)) as ->.
  { by destruct s. }
  rewrite !app_nil, cond_findings_nil, (over_nil _ executable_policy), (over_nil _ (executable_set (it || is_some (S_Iterate s)))).
  - destruct (S_Iterate s), it; naive_solver.
  - intros i s' Hs. by apply IH.
  - intros i p _. apply policy_findings_nil.
Qed.

End unsupported.

(** C10: [NewTree] accepts exactly the trees its comment describes: declared algorithms,
    effects, dialects and PIP types, every condition valid and at its place, iterate
    variables set, unique in the tree and read only inside their iterate, no permission
    scope read inside one, failing and isolated sets without children, unique PIP names,
    compact JSON; and it returns the tree unchanged. *)
Theorem NewTree_accepts {table : UnicodeTable} {pc : PathCompiler} simplified sets pips t :
  NewTree simplified sets pips = Ok t ↔ t = MkTree simplified sets pips ∧ wf_tree t.
Proof. unfold NewTree. rewrite bind_unit_Ok, validate_Ok. naive_solver. Qed.

(** The texts [checkJSON] accepts are exactly the results of compacting a JSON text. *)
Theorem checkJSON_compact_texts v :
  checkJSON v = Ok tt ↔ ∃ s, Json.Compact s = Some (bytes_of v).
Proof. apply checkJSON_Ok. Qed.

(** [Tree.Unsupported] lists nothing exactly when no declaration carries an extension,
    no atom and no operand of any condition is unsupported, and no iterate stands inside
    another: the trees that can be generated in full. *)
Theorem Unsupported_empty {table : UnicodeTable} t : Tree_Unsupported t = [] ↔ executable_tree t.
Proof.
  unfold Tree_Unsupported, executable_tree. rewrite !app_nil, concat_nil.
  rewrite (over_nil _ (λ g, ∀ p, Some p ∈ G_Policies g → executable_cond (SP_Condition p)))
    by (intros; apply over_nil; intros; apply cond_findings_nil).
  rewrite (over_nil _ (executable_set false)) by (intros; apply set_findings_nil).
  assert ((∀ x, x ∈ PIPs t → pip_findings x = []) ↔ ∀ p, Some p ∈ PIPs t → PIP_Unsupported p = EmptyString) as ->;
    [|naive_solver].
  split.
  - intros H p Hp. specialize (H _ Hp). simpl in H. destruct (empty (PIP_Unsupported p)) eqn:E; [|done].
    by apply empty_true in E.
  - intros H [p|] Hp; [|done]. simpl. by rewrite (proj2 (empty_true _) (H _ Hp)).
Qed.

(** The path of a finding or an error tells siblings apart: the labels of the groups,
    sets, policies and rules under one node are distinct, whatever their IDs. *)
Theorem labels_distinct {table : UnicodeTable} gs ps ss qs rs :
  NoDup (labels groupLabel gs) ∧ NoDup (labels simplifiedPolicyLabel ps) ∧ NoDup (labels setLabel ss)
  ∧ NoDup (labels policyLabel qs) ∧ NoDup (labels ruleLabel rs).
Proof.
  assert (∀ p s, last (bytes_of (p +:+ Quote s)) = Some "034"%char) as Hq.
  { intros p s. rewrite bytes_of_app, last_app. by rewrite Quote_ends. }
  split_and!; apply labels_NoDup; intros x; try apply Hq.
  unfold groupLabel. by rewrite !bytes_of_app, !last_app, Quote_ends.
Qed.

End PolicyTree.
