(* ===== verification/Dump.v ===== *)
(** * The text of a tree ([internal/policyir/dump.go])

    [Dump] prints a tree for the golden files of the generator, and [FormatCondition]
    one condition. The doc comments promise one node per line: every text a valid tree
    can hold prints without a line break, because strings are quoted, a resource path with
    a byte outside printable ASCII is quoted too, and JSON is compact. *)
From S2P Require Import Prelude Json GoText Lexemes Condition PolicyTree.
Import GoText Lexemes Condition PolicyTree.

Module Dump.

Section dump.
Context {table : UnicodeTable}.

(** ** Conditions *)

Definition quoteAll (ss : list string) : string := "[" +:+ join ", " (Quote <$> ss) +:+ "]".

Definition formatUnsupported (u : Unsupported) : string :=
  "unsupported(" +:+ Unsupported_Form u +:+ " " +:+ Quote (Unsupported_Text u) +:+ ")".

(** [strconv.FormatBool]. *)
Definition FormatBool (b : bool) : string := if b then "true" else "false".

Definition FormatLiteral (l : Literal) : string :=
  match l with
  | LString v => Quote v
  | LNumber t => t
  | LBool b => FormatBool b
  end.

(** What [%T] prints for a nil interface value, in angle brackets. *)
Definition nil_text : string := "<<nil>>".

Definition format_item (it : option Literal) : string :=
  match it with
  | Some l => FormatLiteral l
  | None => nil_text
  end.

(** The bytes [' '] to ['~']; every rune past them is decoded from bytes past them. *)
Definition printable (c : ascii) : bool := within " " c "~".

Definition FormatOperand (o : Operand) : string :=
  match o with
  | Operation => "operation"
  | ResourceType => "resourceType"
  | Resource path => "resource" +:+ (if all printable (bytes_of path) then path else Quote path)
  | Subject attr key => "subject." +:+ attr +:+ (if empty key then EmptyString else "[" +:+ Quote key +:+ "]")
  | PIPRef name filtered op =>
      "pip(" +:+ Quote name +:+ ")" +:+ (if filtered then " FILTERED " +:+ Quote op else EmptyString)
  | Entitled rt names => "subject.entitledResources.of(" +:+ Quote rt +:+ ").as" +:+ quoteAll names
  | PassValue var key =>
      "pass(" +:+ Quote var +:+ ")" +:+ (if empty key then EmptyString else "[" +:+ Quote key +:+ "]")
  | Lit l => FormatLiteral l
  | List items raw =>
      "[" +:+ join ", " (format_item <$> items) +:+ "]"
      +:+ (if empty raw then EmptyString else " raw=" +:+ Quote raw)
  | Pattern text => "pattern(" +:+ Quote text +:+ ")"
  | OUnsupported u => formatUnsupported u
  end.

Definition format_operand (o : option Operand) : string :=
  match o with
  | Some o => FormatOperand o
  | None => nil_text
  end.

Definition formatAtom (a : option Atom) : string :=
  match a with
  | Some (Const b) => if b then "TRUE" else "FALSE"
  | Some IsM2M => "subject.isM2M"
  | Some (Access denied op) =>
      "subject " +:+ (if denied then "denied" else "allowed") +:+ " " +:+ Quote op +:+ " on resource"
  | Some (ACompare c) =>
      match Right c with
      | None => format_operand (Left c) +:+ " " +:+ Op c
      | Some r => format_operand (Left c) +:+ " " +:+ Op c +:+ " " +:+ FormatOperand r
      end
  | Some (AUnsupported u) => formatUnsupported u
  | None => nil_text
  end.

Definition FormatCondition (c : Condition) : string :=
  join " OR " ((λ d, join " AND " (formatAtom <$> d)) <$> Disjuncts c).

(** ** Trees *)

(** One call of [line]: the depth and the text. *)
Definition line : Type := nat * string.

Definition externalID (id : string) : string :=
  if empty id then EmptyString else " externalId=" +:+ Quote id.

Definition frontend (f : bool) : string := if f then " frontend" else EmptyString.

Definition algorithm (a : Algorithm) : string := if empty a then "absent" else a.

Definition effect (e : Effect) : string := if empty e then "absent" else e.

Definition sortedMap (m : gmap string string) : string :=
  let keys := sort_strings (map_to_list m).*1 in
  "{" +:+ join ", " ((λ k, Quote k +:+ ": " +:+ default EmptyString (m !! k)) <$> keys) +:+ "}".

(** [str] and [raw] of [pipFields]. *)
Definition str_field (k v : string) : string :=
  if empty v then EmptyString else " " +:+ k +:+ "=" +:+ Quote v.
Definition raw_field (k v : string) : string :=
  if empty v then EmptyString else " " +:+ k +:+ "=" +:+ v.

Definition pipFields (p : PIP) : string :=
  if negb (empty (Isolated p)) then " isolated=" +:+ Quote (Isolated p)
  else
    let attributes := default ∅ (RequestAttributes p) in
    " type=" +:+ Type_ p
    +:+ str_field "claim" (Claim p) +:+ str_field "header" (Header p)
    +:+ raw_field "defaultValue" (DefaultValue p) +:+ str_field "url" (URL p)
    +:+ str_field "httpMethod" (HTTPMethod p) +:+ str_field "beanName" (BeanName p)
    +:+ str_field "jsonPath" (JSONPath p) +:+ str_field "returnType" (ReturnType p)
    +:+ str_field "headers" (Headers p) +:+ str_field "resourceType" (PIP_ResourceType p)
    +:+ str_field "domain" (Domain p)
    +:+ (if decide (attributes = ∅) then EmptyString else " requestAttributes=" +:+ sortedMap attributes)
    +:+ raw_field "productMapping" (ProductMapping p) +:+ raw_field "customMapping" (CustomMapping p)
    +:+ raw_field "cacheable" (Cacheable p) +:+ raw_field "cachePeriod" (CachePeriod p)
    +:+ str_field "unsupported" (PIP_Unsupported p).

Definition dumpPredicates (depth : nat) (p : Predicates) : list line :=
  omap (λ d, (λ text, (depth, "predicate " +:+ d +:+ " " +:+ Quote text)) <$> Text p !! d) dialects
  ++ match Custom p with
     | Some c => [(depth, "customPredicate " +:+ Quote (Predicate c) +:+ " params=" +:+ sortedMap (Params c))]
     | None => []
     end.

Definition dumpCondition (depth : nat) (label : string) (c : option Condition) : list line :=
  match c with
  | Some c => [(depth, label +:+ "[" +:+ CPlace c +:+ "]: " +:+ FormatCondition c)]
  | None => []
  end.

(** The lines of the elements of a list; a nil one, which no valid tree has, would be
    dereferenced. *)
Definition each_line {A} (f : A → list line) (l : list (option A)) : list line :=
  concat (map (λ p, match p with Some x => f x | None => [] end) l).

Definition dump_rule (depth : nat) (r : Rule) : list line :=
  (depth, "rule " +:+ Quote (R_ID r) +:+ " name=" +:+ Quote (R_Name r) +:+ " effect=" +:+ effect (R_Effect r)
          +:+ frontend (R_Frontend r))
  :: dumpCondition (1 + depth) "target" (R_Target r)
  ++ dumpCondition (1 + depth) "condition" (R_Condition r)
  ++ dumpPredicates (1 + depth) (R_Predicates r).

Definition dump_policy (depth : nat) (p : Policy) : list line :=
  (depth, "policy " +:+ Quote (P_ID p) +:+ " name=" +:+ Quote (P_Name p) +:+ " algorithm=" +:+ algorithm (P_Algorithm p))
  :: dumpCondition (1 + depth) "target" (P_Target p)
  ++ each_line (dump_rule (1 + depth)) (P_Rules p).

(** The lines of a set before those of its sets. *)
Definition dump_head (depth : nat) (s : PolicySet) : list line :=
  [(depth, "set " +:+ Quote (S_ID s) +:+ " name=" +:+ Quote (S_Name s) +:+ " domain=" +:+ Quote (S_Domain s)
           +:+ " algorithm=" +:+ algorithm (S_Algorithm s) +:+ externalID (S_ExternalID s))]
  ++ (if empty (S_AlwaysFails s) then [] else [(1 + depth, "always fails: " +:+ Quote (S_AlwaysFails s))])
  ++ (if empty (S_Isolated s) then [] else [(1 + depth, "isolated: " +:+ Quote (S_Isolated s))])
  ++ dumpCondition (1 + depth) "target" (S_Target s)
  ++ match S_Iterate s with
     | Some it =>
         [(1 + depth, "iterate var=" +:+ Quote (It_Var it) +:+ " algorithm=" +:+ It_Algorithm it)]
     | None => []
     end
  ++ each_line (dump_policy (1 + depth)) (S_Policies s).

Fixpoint dump_set (depth : nat) (s : PolicySet) : list line :=
  dump_head depth s
  ++ concat (map (λ p, match p with Some c => dump_set (1 + depth) c | None => [] end) (S_Sets s)).

Definition dump_simplified (p : SimplifiedPolicy) : list line :=
  (1, "policy " +:+ Quote (SP_ID p) +:+ " operation=" +:+ Quote (SP_Operation p) +:+ " roles=" +:+ quoteAll (SP_Roles p)
      +:+ frontend (SP_Frontend p))
  :: dumpCondition 2 "condition" (SP_Condition p) ++ dumpPredicates 2 (SP_Predicates p).

Definition dump_group (g : SimplifiedGroup) : list line :=
  (0, "simplified " +:+ Quote (G_ID g) +:+ " name=" +:+ Quote (G_Name g) +:+ " domain=" +:+ Quote (G_Domain g)
      +:+ " component=" +:+ Quote (G_Component g) +:+ " resourceType=" +:+ Quote (G_ResourceType g)
      +:+ externalID (G_ExternalID g))
  :: each_line dump_simplified (G_Policies g).

Definition dump_pip (p : PIP) : list line := [(0, "pip " +:+ Quote (Name p) +:+ pipFields p)].

Definition tree_lines (t : Tree) : list line :=
  each_line dump_pip (PIPs t) ++ each_line dump_group (Simplified t) ++ each_line (dump_set 0) (Sets t).

Definition newline : ascii := "010"%char.

(** A line as [line] writes it, without the line break it ends with. *)
Definition indented (l : line) : bytes := repeat " "%char (2 * l.1) ++ bytes_of l.2.

Definition Tree_Dump (t : Tree) : bytes := concat (map (λ l, indented l ++ [newline]) (tree_lines t)).

(** ** One node per line *)

Definition clean_text (t : string) : Prop := clean (bytes_of t).
Definition clean_lines (ls : list line) : Prop := Forall (λ l, clean_text l.2) ls.

Lemma clean_text_app a b : clean_text (a +:+ b) ↔ clean_text a ∧ clean_text b.
Proof. unfold clean_text. by rewrite bytes_of_app, clean_app. Qed.

Lemma clean_text_by t : forallb (λ c, (32 <=? N_of_ascii c)%N) (bytes_of t) = true → clean_text t.
Proof. apply clean_by. Qed.

Lemma clean_text_Quote t : clean_text (Quote t).
Proof. apply Quote_clean. Qed.

(** The texts of a list of constants. *)
Lemma clean_text_in t l :
  forallb (λ t, forallb (λ c, (32 <=? N_of_ascii c)%N) (bytes_of t)) l = true → t ∈ l → clean_text t.
Proof. rewrite forallb_forall. intros H Ht. apply clean_text_by, H. by apply list_elem_of_In. Qed.

Lemma clean_text_join sep l : clean_text sep → Forall clean_text l → clean_text (join sep l).
Proof.
  intros Hs. destruct 1 as [|x l Hx Hl]; [by apply clean_text_by|]. cbn [join].
  revert x Hx. induction Hl as [|y l Hy Hl IH]; intros x Hx; [done|]. cbn [fold_left]. apply IH.
  by rewrite !clean_text_app.
Qed.

Lemma clean_text_json v : wf_json v → clean_text v.
Proof. intros [t H]. by eapply Json.Compact_clean. Qed.

Lemma clean_text_quoteAll l : clean_text (quoteAll l).
Proof.
  unfold quoteAll. rewrite !clean_text_app. split_and!; [by apply clean_text_by| |by apply clean_text_by].
  apply clean_text_join; [by apply clean_text_by|]. apply Forall_fmap, Forall_true. intros. apply clean_text_Quote.
Qed.

(** [const_tac] proves a text that is one of a list of constants clean. *)
Ltac const_tac :=
  match goal with
  | H : ?t ∈ ?l |- clean_text ?t => apply (clean_text_in t l); [reflexivity|exact H]
  end.

(** [text_tac] splits a concatenation, and proves its constants and quoted texts clean. *)
Ltac text_tac :=
  repeat first
    [ assumption
    | match goal with |- _ ∧ _ => split | |- clean_text (if ?b then _ else _) => destruct b end
    | apply clean_text_Quote | apply clean_text_quoteAll | (apply clean_text_by; reflexivity)
    | rewrite clean_text_app ].

Lemma clean_number t : number_literal (bytes_of t) → clean_text t.
Proof.
  unfold clean_text. destruct 1 as [ds [_ Hd]|ds fs [_ Hd] [_ Hf]|d ds Hd Hds|d ds fs Hd Hds [_ Hf]|fs z Hf Hz].
  - by apply clean_digits.
  - apply clean_digits in Hd, Hf. clean_tac.
  - apply one_to_nine_digit in Hd. assert (clean (d :: ds)) by by apply clean_digits; constructor. clean_tac.
  - apply one_to_nine_digit in Hd. assert (clean (d :: ds)) as Hc by by apply clean_digits; constructor.
    apply clean_cons in Hc as [??]. apply clean_digits in Hf. clean_tac.
  - apply one_to_nine_digit in Hz. apply clean_digits in Hf.
    assert (clean [z]) by by apply clean_digits; constructor. clean_tac.
Qed.

Lemma clean_literal l : wf_literal l → clean_text (FormatLiteral l).
Proof. destruct l; cbn [wf_literal FormatLiteral]; [intros _; text_tac|apply clean_number|intros _; unfold FormatBool; text_tac]. Qed.

Lemma clean_unsupported u : Unsupported_Form u ∈ forms → clean_text (formatUnsupported u).
Proof.
  intros H. unfold formatUnsupported. assert (clean_text (Unsupported_Form u)) by const_tac.
  text_tac.
Qed.

Lemma clean_operand o : wf_operand o → clean_text (FormatOperand o).
Proof.
  destruct o as [| |path|attr key|name filtered op|rt names|var key|l|items raw|text|u];
    cbn [wf_operand FormatOperand]; intros H; try (text_tac; done).
  - destruct (all printable (bytes_of path)) eqn:E; text_tac. apply all_Forall in E.
    eapply Forall_impl; [exact E|]. intros c. unfold printable, within. cbn beta.
    rewrite andb_true_iff, !N.leb_le. change (N_of_ascii " ") with 32%N. tauto.
  - assert (clean_text attr) by (destruct H; const_tac). text_tac.
  - by apply clean_literal.
  - destruct H as (k & ls & -> & _ & Hls & _). text_tac. apply clean_text_join; [by apply clean_text_by|].
    rewrite <-list_fmap_compose. apply Forall_fmap. eapply Forall_impl; [exact Hls|].
    intros l [Hl _]. by apply clean_literal.
  - apply clean_unsupported. by destruct H.
Qed.

Section valid.
Context {pc : PathCompiler}.

Lemma clean_atom a : wf_atom a → clean_text (formatAtom (Some a)).
Proof.
  destruct a as [b| |denied op|c|u]; cbn [wf_atom formatAtom]; intros H; try (text_tac; done).
  - destruct H as (Hop & (l & Hl & [Hwl _]) & Hr). rewrite Hl. apply clean_operand in Hwl.
    assert (clean_text (Op c)) by const_tac. cbn [format_operand].
    destruct (Right c) as [r|]; [|text_tac].
    assert (clean_text (FormatOperand r)); [|text_tac].
    destruct (Unary (Op c)); [done|]. destruct Hr as (r' & [= <-] & [Hwr _]). by apply clean_operand.
  - apply clean_unsupported. by destruct H.
Qed.

Lemma clean_condition c : wf_condition c → clean_text (FormatCondition c).
Proof.
  intros (_ & _ & H). apply clean_text_join; [by apply clean_text_by|]. apply Forall_fmap, Forall_forall.
  intros d Hd. apply clean_text_join; [by apply clean_text_by|]. apply Forall_fmap, Forall_forall.
  intros a Ha. destruct (H d Hd) as [_ Hall]. destruct (Hall a Ha) as (a' & -> & Hwf). by apply clean_atom.
Qed.

Lemma clean_dumpCondition depth label b place c :
  clean_text label → wf_cond_at b place c → clean_lines (dumpCondition depth label c).
Proof.
  intros Hl H. destruct c as [c|]; [|constructor]. destruct (H c eq_refl) as (Hwf & _ & _).
  constructor; [|constructor]. cbn [snd]. pose proof (clean_condition _ Hwf).
  assert (clean_text (CPlace c)) by (destruct Hwf; const_tac). text_tac.
Qed.

Lemma clean_sortedMap m : (∀ k v, m !! k = Some v → wf_json v) → clean_text (sortedMap m).
Proof.
  intros H. unfold sortedMap. text_tac. apply clean_text_join; [by apply clean_text_by|].
  apply Forall_fmap, Forall_true. intros k. cbn. text_tac.
  destruct (m !! k) as [v|] eqn:E; [by eapply clean_text_json, H|by apply clean_text_by].
Qed.

Lemma clean_lines_app a b : clean_lines (a ++ b) ↔ clean_lines a ∧ clean_lines b.
Proof. apply Forall_app. Qed.

Lemma clean_lines_cons l ls : clean_lines (l :: ls) ↔ clean_text l.2 ∧ clean_lines ls.
Proof. unfold clean_lines. by rewrite Forall_cons. Qed.
Lemma clean_lines_nil : clean_lines [].
Proof. by constructor. Qed.

Lemma clean_predicates depth p : wf_predicates p → clean_lines (dumpPredicates depth p).
Proof.
  intros [_ Hc]. unfold dumpPredicates. apply clean_lines_app. split.
  - apply Forall_forall. intros l (d & Hd & Hl)%list_elem_of_omap.
    apply fmap_Some in Hl as (t & _ & ->). cbn [snd].
    assert (clean_text d) by const_tac. text_tac.
  - destruct (Custom p) as [c|]; [|constructor]. constructor; [|constructor]. cbn [snd].
    assert (clean_text (sortedMap (Params c))) by (eapply clean_sortedMap; eauto). text_tac.
Qed.

Lemma clean_each {A} (f : A → list line) l :
  (∀ p, p ∈ l → ∃ x, p = Some x ∧ clean_lines (f x)) → clean_lines (each_line f l).
Proof.
  intros H. apply Forall_concat, Forall_map, Forall_forall. intros p Hp. by destruct (H p Hp) as (x & -> & Hx).
Qed.

Lemma clean_frontend f : clean_text (frontend f).
Proof. unfold frontend. text_tac. Qed.
Lemma clean_externalID id : clean_text (externalID id).
Proof. unfold externalID. text_tac. Qed.
Lemma clean_algorithm a : a ∈ algorithms → clean_text (algorithm a).
Proof. intros H. assert (clean_text a) by const_tac. unfold algorithm. text_tac. Qed.
Lemma clean_effect e : e ∈ effects → clean_text (effect e).
Proof. intros H. assert (clean_text e) by const_tac. unfold effect. text_tac. Qed.

Lemma clean_rule depth b r : wf_rule b r → clean_lines (dump_rule depth r).
Proof.
  intros (He & Ht & Hc & Hp). apply clean_effect in He. pose proof (clean_frontend (R_Frontend r)).
  unfold dump_rule. rewrite clean_lines_cons, !clean_lines_app. cbn [snd]. split_and!.
  - text_tac.
  - eapply clean_dumpCondition; [by apply clean_text_by|done].
  - eapply clean_dumpCondition; [by apply clean_text_by|done].
  - by apply clean_predicates.
Qed.

Lemma clean_policy depth b p : wf_policy b p → clean_lines (dump_policy depth p).
Proof.
  intros (Ha & Ht & Hr). apply clean_algorithm in Ha.
  unfold dump_policy. rewrite clean_lines_cons, !clean_lines_app. cbn [snd]. split_and!.
  - text_tac.
  - eapply clean_dumpCondition; [by apply clean_text_by|done].
  - apply clean_each. intros q Hq. destruct (Hr q Hq) as (r & -> & Hwf). eauto using clean_rule.
Qed.

Lemma clean_head depth b s : wf_set b s → clean_lines (dump_head depth s).
Proof.
  inversion 1 as [? ? Ha _ _ Ht Hi Hp _]; subst. apply clean_algorithm in Ha.
  pose proof (clean_externalID (S_ExternalID s)).
  unfold dump_head. rewrite !clean_lines_app, clean_lines_cons. cbn [snd]. split_and!.
  - text_tac.
  - apply clean_lines_nil.
  - destruct (empty (S_AlwaysFails s)); [apply clean_lines_nil|]. apply clean_lines_cons.
    split; [cbn [snd]; text_tac|apply clean_lines_nil].
  - destruct (empty (S_Isolated s)); [apply clean_lines_nil|]. apply clean_lines_cons.
    split; [cbn [snd]; text_tac|apply clean_lines_nil].
  - eapply clean_dumpCondition; [by apply clean_text_by|done].
  - destruct (S_Iterate s) as [it|]; [|apply clean_lines_nil]. apply clean_lines_cons.
    destruct (Hi it eq_refl) as (_ & Hal & _). assert (clean_text (It_Algorithm it)) by const_tac.
    split; [cbn [snd]; text_tac|apply clean_lines_nil].
  - apply clean_each. intros q Hq. destruct (Hp q Hq) as (r & -> & Hwf). eauto using clean_policy.
Qed.

Lemma clean_set s : ∀ depth b, wf_set b s → clean_lines (dump_set depth s).
Proof.
  induction s as [s IH] using set_induction. intros depth b H. pose proof (clean_head depth b s H).
  assert (dump_set depth s = dump_head depth s ++ each_line (dump_set (1 + depth)) (S_Sets s)) as -> by by destruct s.
  apply clean_lines_app. split; [done|]. inversion H as [? ? _ _ _ _ _ _ Hs]; subst.
  apply clean_each. intros q Hq. destruct (Hs q Hq) as (c & -> & Hwf). eauto.
Qed.

Lemma clean_group g : wf_group g → clean_lines (dump_group g).
Proof.
  intros H. pose proof (clean_externalID (G_ExternalID g)). unfold dump_group. rewrite clean_lines_cons. cbn [snd].
  split; [text_tac|]. apply clean_each. intros q Hq. destruct (H q Hq) as (p & -> & Hc & Hp). exists p. split; [done|].
  unfold dump_simplified. pose proof (clean_frontend (SP_Frontend p)).
  rewrite clean_lines_cons, clean_lines_app. cbn [snd]. split_and!; [text_tac| |by apply clean_predicates].
  eapply clean_dumpCondition; [by apply clean_text_by|done].
Qed.

Lemma clean_str_field k v : clean_text k → clean_text (str_field k v).
Proof. intros H. unfold str_field. text_tac. Qed.
Lemma clean_raw_field k v : clean_text k → v = EmptyString ∨ wf_json v → clean_text (raw_field k v).
Proof.
  intros H Hv. unfold raw_field. assert (clean_text v); [|text_tac].
  destruct Hv as [->|Hv]; [by apply clean_text_by|by apply clean_text_json].
Qed.

Lemma clean_pip p : wf_pip p → clean_lines (dump_pip p).
Proof.
  intros [_ H]. unfold dump_pip. rewrite clean_lines_cons. cbn [snd]. split; [|apply clean_lines_nil].
  assert (clean_text (pipFields p)); [|text_tac]. unfold pipFields.
  destruct (empty (Isolated p)) eqn:E; [|cbn [negb]; text_tac]. apply empty_true in E.
  rewrite decide_True in H by done. destruct H as (Ht & Hj & Hr). cbn [negb].
  assert (clean_text (Type_ p)) by const_tac.
  assert (clean_text (sortedMap (default ∅ (RequestAttributes p)))).
  { apply clean_sortedMap. intros k v Hk. destruct (RequestAttributes p) as [m|]; [by eapply Hr|done]. }
  repeat match goal with
  | |- clean_text (_ +:+ _) => apply clean_text_app; split
  | |- clean_text (str_field _ _) => apply clean_str_field
  | |- clean_text (raw_field _ _) => apply clean_raw_field; [|apply Hj; set_solver]
  | |- _ => progress text_tac
  end.
Qed.

Lemma clean_tree t : wf_tree t → clean_lines (tree_lines t).
Proof.
  intros ((pips & Hp & Hpips & _) & Hg & Hs & _). unfold tree_lines. rewrite !clean_lines_app. split_and!.
  - apply clean_each. rewrite Hp. intros p (q & -> & Hq)%list_elem_of_fmap. exists q. split; [done|].
    rewrite Forall_forall in Hpips. by apply clean_pip, Hpips.
  - apply clean_each. intros p Hin. destruct (Hg p Hin) as (g & -> & Hwf). eauto using clean_group.
  - apply clean_each. intros p Hin. destruct (Hs p Hin) as (s & -> & Hwf). eauto using clean_set.
Qed.

Lemma Split_lines ls :
  Forall (λ x, newline ∉ x) ls → Split newline (concat (map (λ x, x ++ [newline]) ls)) = ls ++ [[]].
Proof.
  induction 1 as [|x ls Hx Hls IH]; [done|]. cbn [map concat]. rewrite <-(assoc_L (++)). cbn [app].
  by rewrite Split_app, IH.
Qed.

(** The dump of a valid tree keeps one node per line: split at the line breaks, it is
    the lines the nodes wrote, each with its indentation, and nothing else. *)
Theorem Dump_lines t :
  wf_tree t → Split newline (Tree_Dump t) = map indented (tree_lines t) ++ [[]].
Proof.
  intros H%clean_tree. unfold Tree_Dump. rewrite <-(map_map indented (λ x, x ++ [newline])). apply Split_lines.
  apply Forall_map. eapply Forall_impl; [exact H|]. intros l Hl. apply clean_not_in; [|done]. unfold indented.
  apply clean_app. split; [|done]. apply Forall_forall. intros c Hc. apply list_elem_of_In, repeat_spec in Hc as ->.
  done.
Qed.

End valid.
End dump.

(** ** Examples *)

#[local] Instance example_table : UnicodeTable :=
  {| print_table _ := true; letter_table _ := true; digit_table _ := false |}.
#[local] Instance example_compiler : PathCompiler := λ _, true.

Definition example_condition : Condition :=
  MkCondition PlaceRuleCondition
    [[Some (ACompare (MkCompare OpIn (Some (Resource ".a"))
                        (Some (List (Some <$> [LString "p"; LString (String newline "q")]) "'p','q'"))));
      Some IsM2M]].

Definition example_tree : Tree :=
  let e := EmptyString in
  let rule := MkRule "r1" (String newline "two") EffectAllow true None (Some example_condition)
                (MkPredicates {["rsql" := "a==1"]} (Some (MkCustomPredicate "p" {["k" := "[1]"]}))) in
  MkTree [] [Some (MkPolicySet "s1" e e e AlgorithmAbsent None None e e
                     [Some (MkPolicy "p1" e AlgorithmDenyOverrides None [Some rule])] [])]
    [Some (isolated_pip "subject.x" "declared twice")].

Example example_dump :
  (string_of ∘ indented) <$> tree_lines example_tree =
  let q := String (ascii_of_nat 34) EmptyString in
  ["pip " +:+ Quote "subject.x" +:+ " isolated=" +:+ Quote "declared twice";
   "set " +:+ Quote "s1" +:+ " name=" +:+ q +:+ q +:+ " domain=" +:+ q +:+ q +:+ " algorithm=absent";
   "  policy " +:+ Quote "p1" +:+ " name=" +:+ q +:+ q +:+ " algorithm=DENY_OVERRIDES";
   "    rule " +:+ Quote "r1" +:+ " name=" +:+ q +:+ "\ntwo" +:+ q +:+ " effect=ALLOW frontend";
   "      condition[rule_condition]: resource.a IN [" +:+ Quote "p" +:+ ", " +:+ q +:+ "\nq" +:+ q +:+ "] raw="
     +:+ Quote "'p','q'" +:+ " AND subject.isM2M";
   "      predicate rsql " +:+ Quote "a==1";
   "      customPredicate " +:+ Quote "p" +:+ " params={" +:+ Quote "k" +:+ ": [1]}"]%string.
Proof. vm_compute. reflexivity. Qed.

Lemma Dump_lines_witness :
  Split newline (Tree_Dump example_tree) = map indented (tree_lines example_tree) ++ [[]].
Proof. apply (Dump_lines example_tree). apply validate_Ok. vm_compute. reflexivity. Defined.

End Dump.
