(* ===== verification/ConditionParser.v ===== *)
(** * The condition language ([internal/policyir/parse.go])

    [ParseCondition] turns the text of a target or a condition into a [Condition]: the
    checks and rewrites of [newParser] on the whole text, then the recursive descent over
    a position in the rewritten text. A regular expression anchored at the start is the
    function that returns what follows its match; the parser's position [i] is threaded
    as a number, and each function returns the position it stops at. *)
From S2P Require Import Prelude GoText AttrToken Lexemes Condition PolicyTree Dump.
Import GoText AttrToken Lexemes Condition.

Module ConditionParser.

(** Why a text is refused; [Truncated] texts are those [truncate] cuts. *)
Inductive reason :=
  | Blank
  | LineBreak
  | DoubleSpace
  | TightComparison
  | TightConnective
  | LowerCaseKeyword
  | TrailingText (t : bytes)
  | MisspelledOperator
  | OperatorAt (t : bytes)
  | NoPatternThere (why : pattern_reason)
  | ListElement
  | MixedList
  | DoubleQuoted
  | NumberAt (t : bytes)
  | StandaloneNot
  | OperandAt (t : bytes)
  | BareSubject
  | Refused (e : compare_error)
  | RefusedCondition (e : condition_error)
  | OutOfFuel.

Definition truncate (s : bytes) (n : nat) : bytes := take n s.

(** ** The text before it is parsed *)

Definition is_sp (c : ascii) : bool := eqb c " "%char.

(** [strings.TrimFunc] of the runes up to U+0020, which are single bytes. *)
Definition trim_controls (s : bytes) : bytes :=
  let control c := (N_of_ascii c <=? 32)%N in drop_while_end control (drop_while control s).

Definition wholeBool (text : bytes) : option bool :=
  let t := lower <$> trim_controls text in
  if eqb t (bytes_of "true") then Some true
  else if eqb t (bytes_of "false") then Some false
  else None.

(** [ReplaceAllString]: every match replaced by [by], left to right; [m] returns what
    follows a match at the start, which is never empty. *)
Fixpoint replace_all (m : bytes → option bytes) (by_ : bytes) (fuel : nat) (s : bytes) : bytes :=
  match fuel, s with
  | 0, _ | _, [] => s
  | S fuel, c :: s' =>
      match m s with
      | Some rest => by_ ++ replace_all m by_ fuel rest
      | None => c :: replace_all m by_ fuel s'
      end
  end.

(** [quotedRE], [bracketsRE], and [bracketParenRE]. *)
Definition quoted_match (s : bytes) : option bytes := snd <$> quoted s.

Definition brackets_match (s : bytes) : option bytes :=
  match s with
  | "["%char :: s =>
      match drop_while (λ c, negb (eqb c "]"%char)) s with
      | _ :: rest => Some rest
      | [] => None
      end
  | _ => None
  end.

Definition bracket_paren_match (s : bytes) : option bytes :=
  match s with
  | "("%char :: s =>
      match drop_while (λ c, negb (member c ["("; ")"]%char)) s with
      | ")"%char :: rest => Some rest
      | _ => None
      end
  | _ => brackets_match s
  end.

Definition startsWithNumber (s : bytes) : bool :=
  match default s (cutPrefix ["-"%char] s) with
  | c :: _ => is_digit c
  | [] => false
  end.

(** [listCommaRE] at the start: the element's last characters, and what follows. *)
Definition list_comma (s : bytes) : option (bytes * bytes) :=
  let comma r := (cutPrefix [","%char] (spaces r)) in
  match cutPrefix (bytes_of "''") s with
  | Some r => (λ after, (bytes_of "''", spaces after)) <$> comma r
  | None =>
      match s with
      | c :: r => if is_digit c then (λ after, ([c], spaces after)) <$> comma r else None
      | [] => None
      end
  end.

Fixpoint join_list_commas (fuel : nat) (s : bytes) : bytes :=
  match fuel, s with
  | 0, _ | _, [] => s
  | S fuel, c :: s' =>
      match list_comma s with
      | Some (element, after) =>
          if HasPrefix after (bytes_of "''") || startsWithNumber after
          then element ++ ","%char :: join_list_commas fuel after
          else c :: join_list_commas fuel s'
      | None => c :: join_list_commas fuel s'
      end
  end.

Definition joinListCommas (masked : bytes) : bytes := join_list_commas (length masked) masked.

(** A double space that does not follow a comma; [prev] is the byte before. *)
Fixpoint double_space (prev : option ascii) (s : bytes) : bool :=
  match s with
  | c :: s' =>
      (is_sp c && match s' with d :: _ => is_sp d | [] => false end && negb (eqb prev (Some ","%char)))
      || double_space (Some c) s'
  | [] => false
  end.

Definition two_char_comparisons : list bytes := bytes_of <$> ["=="; "!="; "<="; ">="]%string.

(** [tightCompareRE] matches somewhere in the text. *)
Fixpoint tight_compare (prev : option ascii) (s : bytes) : bool :=
  match s with
  | c :: s' =>
      match cut_any two_char_comparisons s with
      | Some rest =>
          match prev with Some p => negb (member p [" "; "!"; "="; "<"; ">"]%char) | None => false end
          || match rest with d :: _ => negb (is_sp d) | [] => false end
      | None => false
      end || tight_compare (Some c) s'
  | [] => false
  end.

(** One turn of the loop of [dropLineBreaks] per rune: [i] is its position, [out] what is
    written so far. *)
Fixpoint drop_breaks (tail i : nat) (inside : bool) (out : bytes) (l : list (N * bytes)) : option bytes :=
  match l with
  | [] => Some out
  | (ch, w) :: l =>
      let inside := if eqb ch 39%N then negb inside else inside in
      if member ch [9; 10; 13]%N && negb inside then
        if is_nil out || eqb (lastRune out) 32%N
           || match l with (next, _) :: _ => eqb next 32%N | [] => false end
           || (tail <=? i)
        then drop_breaks tail (i + length w) inside out l
        else None
      else drop_breaks tail (i + length w) inside (out ++ encode ch) l
  end.

Definition dropLineBreaks (s : bytes) : option bytes :=
  drop_breaks (length (TrimRight s)) 0 false [] (runes s).

Section parser.
Context {table : UnicodeTable} {pc : PathCompiler}.

Definition isWord (r : N) : bool := eqb r 95%N || IsLetter r || IsDigit r.
Definition isSpaceOrWord (r : N) : bool := eqb r 32%N || isWord r.

(** [connectiveRE] matches where no space and no word stands before it. *)
Fixpoint tight_connective (before s : bytes) : bool :=
  match s with
  | c :: s' =>
      match cut_any [bytes_of "OR "; bytes_of "AND "] s with
      | Some _ => is_nil before || negb (isSpaceOrWord (lastRune before))
      | None => false
      end || tight_connective (before ++ [c]) s'
  | [] => false
  end.

(** What [newParser] returns: the text the parser reads. *)
Definition newParser (text : bytes) : result reason bytes :=
  _ ← check (negb (negb (is_nil text) && is_nil (TrimSpace text))) Blank;
  s ← match dropLineBreaks text with Some s => Ok s | None => Err LineBreak end;
  let s := drop_while_end is_sp (drop_while is_sp s) in
  let masked := joinListCommas (replace_all quoted_match (bytes_of "''") (length s) s) in
  let outside := replace_all brackets_match (bytes_of "[]") (length masked) masked in
  _ ← check (negb (double_space None outside)) DoubleSpace;
  let bare := replace_all bracket_paren_match ["_"%char] (length masked) masked in
  _ ← check (negb (tight_compare None bare)) TightComparison;
  _ ← check (negb (tight_connective [] bare)) TightConnective;
  Ok s.

Definition endsToken (rest : bytes) : bool :=
  match rest with
  | [] => true
  | _ => let r := firstRune rest in negb (isWord r) && negb (eqb r 46%N)
  end.

(** ** The parser *)

Variable s : bytes.
Variable iterVar : string.

Definition attr : attrScanner := newAttrScanner s.
Definition rest (i : nat) : bytes := drop i s.

Definition ws (i : nat) : nat := if eqb (s !! i) (Some " "%char) then S i else i.

Definition at_word (w : string) (i : nat) : bool :=
  match cutPrefix (bytes_of w) (rest i) with
  | None => false
  | Some [] => true
  | Some after => negb (isWord (firstRune after)) || negb (IsLetter (lastRune (bytes_of w)))
  end.

(** [eat]: where the parser goes on after [w], or [None] where it stays. *)
Definition eat (w : string) (i : nat) : option nat :=
  if at_word w (ws i) then Some (ws i + length (bytes_of w)) else None.

(** The position after a match that leaves [after] of the text. *)
Definition moved (after : bytes) : nat := length s - length after.

(** [numberStartRE]. *)
Definition number_start (t : bytes) : bool :=
  match default t (cutPrefix ["-"%char] t) with
  | c :: _ => is_digit c || eqb c "."%char
  | [] => false
  end.

(** The words of a boolean literal, in the order the code tries them. *)
Definition bool_words : list (string * bool) :=
  [("TRUE", true); ("true", true); ("FALSE", false); ("false", false)]%string.

Definition bool_literal (i : nat) : option (Literal * nat) :=
  match list_find (λ w, HasPrefix (rest i) (bytes_of w.1) && eqb (tokenLen attr i) (length (bytes_of w.1)))
          bool_words with
  | Some (_, (w, b)) => Some (LBool b, i + length (bytes_of w))
  | None => None
  end.

(** [literal]: [Ok None] is the nil operand with a nil error. *)
Definition literal (i : nat) : result reason (option (Literal * nat)) :=
  let r := rest i in
  match quoted r with
  | Some (body, _) => Ok (Some (LString (string_of body), i + length body + 2))
  | None =>
      if HasPrefix r ["034"%char] then Err DoubleQuoted
      else
        let m := numberLit r in
        if negb (is_nil m) && endsToken (drop (length m) r) then
          Ok (Some (LNumber (string_of m), i + length m))
        else if number_start r then Err (NumberAt (truncate r 10))
        else Ok (bool_literal i)
  end.

(** [keywords]. *)
Definition keywords : list string :=
  ["OR"; "AND"; "IS"; "NOT"; "NULL"; "IN"; "CONTAINS"; "ANY"; "SUBSET"; "EMPTY"; "MATCH"; "TRUE"; "FALSE";
   "GREATER"; "LESS"; "THAN"; "EQUAL"; "EQUALS"; "on"]%string.

(** [indexStepRE]: the index, with its sign, and what follows the step. *)
Definition index_step (t : bytes) : option (bytes * bytes) :=
  match t with
  | "["%char :: t =>
      let t := spaces t in
      let '(sign, t) := match cutPrefix ["-"%char] t with Some t => (["-"%char], t) | None => ([], t) end in
      match span is_digit t with
      | ([], _) => None
      | (ds, t) => (λ t, (sign ++ ds, t)) <$> cutPrefix ["]"%char] (spaces t)
      end
  | _ => None
  end.

(** [inString], [inRegex], and the last two bytes outside a literal. *)
Record index_state := IndexState { inString : bool; inRegex : bool; last_byte : ascii; prev_byte : ascii }.

Definition record_byte (st : index_state) (c : ascii) : index_state :=
  if negb (inString st) && negb (inRegex st) && negb (is_sp c) && negb (eqb c "'"%char)
  then IndexState (inString st) (inRegex st) c (last_byte st) else st.

Fixpoint normalize_from (fuel : nat) (st : index_state) (path : bytes) : bytes :=
  match fuel, path with
  | 0, _ | _, [] => path
  | S fuel, c :: path' =>
      if inRegex st then
        let st := IndexState (inString st) (negb (eqb c "/"%char)) (last_byte st) (prev_byte st) in
        c :: normalize_from fuel (record_byte st c) path'
      else if eqb c "'"%char then
        let st := IndexState (negb (inString st)) (inRegex st) (last_byte st) (prev_byte st) in
        c :: normalize_from fuel (record_byte st c) path'
      else if inString st then c :: normalize_from fuel (record_byte st c) path'
      else if eqb c "/"%char && eqb (prev_byte st) "="%char && eqb (last_byte st) "~"%char then
        let st := IndexState (inString st) true (last_byte st) (prev_byte st) in
        c :: normalize_from fuel (record_byte st c) path'
      else
        match (if eqb c "["%char then index_step path else None) with
        | Some (index, path'') =>
            "["%char :: index ++ "]"%char
              :: normalize_from fuel (IndexState (inString st) (inRegex st) "]"%char (last_byte st)) path''
        | None => c :: normalize_from fuel (record_byte st c) path'
        end
  end.

Definition normalizeIndexes (path : bytes) : bytes :=
  normalize_from (length path) (IndexState false false "000"%char "000"%char) path.

(** [resource]. *)
Definition resource (path text : bytes) : Operand :=
  if Compile (string_of path) then Resource (string_of path)
  else OUnsupported (MkUnsupported FormJSONPath (string_of text)).

Definition subjectToken (tok : bytes) : option Operand :=
  if isSubjectToken tok then
    let name := drop (length (bytes_of "subject.")) tok in
    if isScopeToken tok then
      let key := string_of (drop (length (bytes_of "permissionScope.")) name) in
      if empty iterVar then Some (Subject SubjectPermissionScope key) else Some (PassValue iterVar key)
    else
      let a := string_of name in
      if negb (eqb a SubjectPermissionScope) && member a subjectAttrs then Some (Subject a EmptyString)
      else Some (PIPRef (string_of tok) false EmptyString)
  else None.

(** The operand for the attribute token [path], read as written. *)
Definition attribute (written : bytes) : result reason Operand :=
  let ends t := HasSuffix (string_of written) t in
  let path := if ends "." && negb (ends "..") then drop_while_end (λ c, eqb c "."%char) written else written in
  let path := normalizeIndexes path in
  let starts t := HasPrefix path (bytes_of t) in
  if eqb path (bytes_of "operation") then Ok Operation
  else if eqb path (bytes_of "resourceType") then Ok ResourceType
  else if eqb path (bytes_of "resource") || starts "resource." || starts "resource["
  then Ok (resource (drop (length (bytes_of "resource")) path) written)
  else if eqb path (bytes_of "subject") then Err BareSubject
  else Ok (resource ("."%char :: path) written).

Definition operand (i : nat) : result reason (Operand * nat) :=
  let i := ws i in
  lit ← literal i;
  match lit with
  | Some (l, i) => Ok (Lit l, i)
  | None =>
      let r := rest i in
      match entitled r with
      | Some (rt, names, after) =>
          Ok (Entitled (string_of rt) (string_of <$> names), i + (length r - length after))
      | None =>
          _ ← check (negb (HasPrefix r (bytes_of "NOT "))) StandaloneNot;
          let path := take (tokenLen attr i) r in
          _ ← check (negb (is_nil path || member (string_of path) keywords)) (OperandAt (truncate r 30));
          let i := i + length path in
          match subjectToken path with
          | Some o => Ok (o, i)
          | None => o ← attribute path; Ok (o, i)
          end
      end
  end.

(** [opWords]. *)
Definition opWords : list (string * Operator) :=
  [("GREATER THAN OR EQUAL TO", OpGE); ("LESS THAN OR EQUAL TO", OpLE);
   ("GREATER THAN", OpGT); ("LESS THAN", OpLT);
   ("IS NOT NULL", OpIsNotNull); ("IS NULL", OpIsNull); ("IS NOT EMPTY", OpIsNotEmpty); ("IS EMPTY", OpIsEmpty);
   ("IS NOT SUBSET", OpIsNotSubset); ("IS SUBSET", OpIsSubset);
   ("NOT CONTAINS ANY", OpNotContainsAny); ("CONTAINS ANY", OpContainsAny);
   ("NOT CONTAINS", OpNotContains); ("CONTAINS", OpContains);
   ("NOT IN", OpNotIn); ("IN", OpIn); ("NOT MATCH", OpNotMatch); ("MATCH", OpMatch);
   ("NOT EQUALS", OpNE); ("EQUALS", OpEQ); ("==", OpEQ); ("!=", OpNE); ("<=", OpLE); (">=", OpGE);
   ("<", OpLT); (">", OpGT); ("=", OpEQ)]%string.

(** The operator at [i], and the position after it. *)
Definition op_at (i : nat) : option (Operator * nat) :=
  match list_find (λ w, at_word w.1 i = true) opWords with
  | Some (_, (w, op)) => Some (op, i + length (bytes_of w))
  | None => None
  end.

(** [\b] after an ASCII word: no word byte follows. *)
Definition word_boundary (after : bytes) : bool :=
  match after with
  | c :: _ => negb (isNameStart c || is_digit c)
  | [] => true
  end.

Definition one_of_words (ws : list string) (t : bytes) : bool :=
  existsb (λ w, match cutPrefix (bytes_of w) t with Some after => word_boundary after | None => false end) ws.

(** [lowerOpRE] and [lowerKeywordRE]. *)
Definition lower_op (t : bytes) : bool := one_of_words ["is"; "and"; "or"; "in"; "contains"; "match"]%string t.
Definition lower_keyword (t : bytes) : bool := one_of_words ["or"; "and"]%string t.

(** [misspelledOpRE], the two correct spellings left out. *)
Definition misspelled_op (t : bytes) : bool :=
  (HasPrefix t (bytes_of "LESS THAN OR EQUAL") || HasPrefix t (bytes_of "GREATER THAN OR EQUAL"))
  && negb (HasPrefix t (bytes_of "LESS THAN OR EQUAL TO")) && negb (HasPrefix t (bytes_of "GREATER THAN OR EQUAL TO")).

(** [compare]. *)
Definition compare (op : Operator) (left right : option Operand) : result reason Atom :=
  match NewCompare op left right with
  | Ok c => Ok (ACompare c)
  | Err e => Err (Refused e)
  end.

Definition pattern (i : nat) : result reason (Operand * nat) :=
  match patternToken (rest i) (tokenLen attr i) with
  | (_, Some why) => Err (NoPatternThere why)
  | (n, None) => Ok (Pattern (string_of (take n (rest i))), i + n)
  end.

(** The position behind the comma that [listMoreRE] finds, and the spaces after it. *)
Definition after_comma (i : nat) : option nat :=
  match cutPrefix [","%char] (spaces (rest i)) with
  | Some r => Some (moved (spaces r))
  | None => None
  end.

(** The turns of the loop of [list], and the position after them. *)
Fixpoint list_items (fuel : nat) (i : nat) : result reason (list Literal * nat) :=
  match after_comma i with
  | None => Ok ([], i)
  | Some j =>
      match fuel with
      | 0 => Err OutOfFuel
      | S fuel =>
          lit ← literal j;
          match lit with
          | None => Err ListElement
          | Some (l, j) => '(ls, j) ← list_items fuel j; Ok (l :: ls, j)
          end
      end
  end.

Definition list_operand (first : Literal) (start i : nat) : result reason (Operand * nat) :=
  '(ls, j) ← list_items (length s) i;
  let items := first :: ls in
  let raw := if 1 <? length items then string_of (drop start (take j s)) else EmptyString in
  match validateList (Some <$> items) raw with
  | Ok _ => Ok (List (Some <$> items) raw, j)
  | Err _ => Err MixedList
  end.

Definition followedByConnective (t : bytes) : bool :=
  is_nil t || HasPrefix t (bytes_of " OR ") || HasPrefix t (bytes_of " AND ").

(** [accessRE]: the word, the operation, and what follows. *)
Definition access (t : bytes) : option (bool * bytes * bytes) :=
  t ← cutPrefix (bytes_of "subject ") t;
  '(denied, t) ← match cutPrefix (bytes_of "allowed") t with
                 | Some t => Some (false, t)
                 | None => (λ t, (true, t)) <$> cutPrefix (bytes_of "denied") t
                 end;
  t ← cutPrefix [" "%char] t;
  '(op, t) ← quoted t;
  t ← cutPrefix (bytes_of " on resource") t;
  Some (denied, op, t).

(** [constAtomRE], with the value of the word. *)
Definition const_atom (t : bytes) : option (bool * bytes) :=
  match cut_any [bytes_of "TRUE"; bytes_of "true"] t with
  | Some after => Some (true, after)
  | None => pair false <$> cut_any [bytes_of "FALSE"; bytes_of "false"] t
  end.

(** The atoms written without an operator. *)
Definition simple_atom (i : nat) : option (Atom * nat) :=
  let t := rest i in
  let here (after : bytes) := i + (length t - length after) in
  match access t with
  | Some (denied, op, after) =>
      if endsToken after then Some (Access denied (string_of op), here after) else None
  | None => None
  end
  ∪ match cutPrefix (bytes_of "subject.isM2M") t with
    | Some after => if followedByConnective after then Some (IsM2M, here after) else None
    | None => None
    end
  ∪ match const_atom t with
    | Some (b, after) => if followedByConnective after then Some (Const b, here after) else None
    | None => None
    end.

(** [filteredRE] behind a PIP reference makes it a FILTERED one. *)
Definition filtered_operand (right : Operand) (i : nat) : Operand * nat :=
  match right, cutPrefix (bytes_of " FILTERED ") (rest i) ≫= quoted with
  | PIPRef name _ _, Some (op, after) =>
      (PIPRef (name +:+ ".filtered") true (string_of op), i + (length (rest i) - length after))
  | _, _ => (right, i)
  end.

(** The right operand of a binary operator other than MATCH and NOT MATCH. *)
Definition right_operand (op : Operator) (i : nat) : result reason (Operand * nat) :=
  '(r, j) ← operand i;
  let '(r, j) := filtered_operand r j in
  match r with
  | Lit l => if TakesList op then list_operand l i j else Ok (r, j)
  | _ => Ok (r, j)
  end.

Definition comparison (i : nat) : result reason (Atom * nat) :=
  '(l, i) ← operand i;
  let i := ws i in
  _ ← check (negb (misspelled_op (rest i))) MisspelledOperator;
  match op_at i with
  | None => Err (if lower_op (rest i) then LowerCaseKeyword else OperatorAt (truncate (rest i) 25))
  | Some (op, i) =>
      if Unary op then a ← compare op (Some l) None; Ok (a, i)
      else
        let i := ws i in
        '(r, i) ← (if eqb op OpMatch || eqb op OpNotMatch then pattern i else right_operand op i);
        a ← compare op (Some l) (Some r); Ok (a, i)
  end.

Definition atom (i : nat) : result reason (Atom * nat) :=
  let i := ws i in
  match simple_atom i with
  | Some r => Ok r
  | None => comparison i
  end.

Fixpoint conj (fuel : nat) (i : nat) : result reason (list Atom * nat) :=
  '(a, i) ← atom i;
  match eat "AND" i with
  | None => Ok ([a], i)
  | Some i =>
      match fuel with
      | 0 => Err OutOfFuel
      | S fuel => '(ands, i) ← conj fuel i; Ok (a :: ands, i)
      end
  end.

Fixpoint disj (fuel : nat) (i : nat) : result reason (list (list Atom) * nat) :=
  '(c, i) ← conj (length s) i;
  match eat "OR" i with
  | None => Ok ([c], i)
  | Some i =>
      match fuel with
      | 0 => Err OutOfFuel
      | S fuel => '(ors, i) ← disj fuel i; Ok (c :: ors, i)
      end
  end.

Definition expr : result reason (list (list Atom)) :=
  match s with
  | [] => Ok [[Const true]]
  | _ =>
      '(ors, i) ← disj (length s) 0;
      let i := ws i in
      if eqb i (length s) then Ok ors
      else Err (if lower_keyword (rest i) then LowerCaseKeyword else TrailingText (truncate (rest i) 30))
  end.

End parser.

(** A [*SyntaxError], or the error of [NewCondition] for the constant text. *)
Inductive parse_error :=
  | SyntaxError (Text : string) (Reason : reason)
  | ConstantRefused (e : condition_error).

Section parse.
Context {table : UnicodeTable} {pc : PathCompiler}.

(** The parser's disjuncts, as [NewCondition] takes them. *)
Definition some_atoms (ds : list (list Atom)) : list (list (option Atom)) := (fmap (M := list) Some) <$> ds.

Definition ParseCondition (text : string) (place : Place) (iterVar : string) : result parse_error Condition :=
  match wholeBool (bytes_of text) with
  | Some b => wrap ConstantRefused (NewCondition place [[Some (Const b)]])
  | None =>
      s ← wrap (SyntaxError text) (newParser (bytes_of text));
      disjuncts ← wrap (SyntaxError text) (expr s iterVar);
      wrap (λ e, SyntaxError text (RefusedCondition e)) (NewCondition place (some_atoms disjuncts))
  end.
End parse.

(** ** Positions *)

(** What follows a prefix of a text is shorter than it. *)
Lemma cutPrefix_length p t r : cutPrefix p t = Some r → length t = length p + length r.
Proof. intros ->%cutPrefix_Some. by rewrite length_app. Qed.

Lemma drop_while_length {A} (p : A → bool) l : length (drop_while p l) ≤ length l.
Proof. rewrite <-(take_drop_while p l) at 2. rewrite length_app. lia. Qed.

Section positions.
Context {table : UnicodeTable} {pc : PathCompiler} (s : bytes) (iterVar : string).

Lemma ws_le i : i ≤ ws s i.
Proof. unfold ws. case_match; lia. Qed.

(** [eat] moves past its word, to a position of the text. *)
Lemma eat_moves w i j : bytes_of w ≠ [] → eat s w i = Some j → i < j ≤ length s.
Proof.
  intros Hw. unfold eat, at_word, rest. pose proof (ws_le i).
  destruct (cutPrefix (bytes_of w) (drop (ws s i) s)) as [r|] eqn:E; [|done].
  apply cutPrefix_length in E. rewrite length_drop in E.
  destruct (bytes_of w); [done|]. simpl in *. case_match; [|done]. intros [= <-]. lia.
Qed.

Lemma after_comma_moves i j : after_comma s i = Some j → i < j ≤ length s.
Proof.
  unfold after_comma, moved, rest. destruct (cutPrefix _ _) as [r|] eqn:E; [|done]. intros [= <-].
  apply cutPrefix_length in E. pose proof (drop_while_length (λ c, eqb c " "%char) (drop i s)).
  pose proof (drop_while_length (λ c, eqb c " "%char) r). unfold spaces in *.
  rewrite length_drop in *. simpl in E. lia.
Qed.

Lemma literal_moves i l j : literal s i = Ok (Some (l, j)) → i ≤ j.
Proof.
  unfold literal, bool_literal. repeat case_match; naive_solver lia.
Qed.

Lemma operand_moves i o j : operand s iterVar i = Ok (o, j) → i ≤ j.
Proof.
  unfold operand. pose proof (ws_le i). intros. result_inv. destruct a as [[l k]|].
  - apply literal_moves in Hstep. naive_solver lia.
  - destruct (entitled _) as [[[??]?]|]; [naive_solver lia|]. result_inv.
    destruct (subjectToken _ _); result_inv; naive_solver lia.
Qed.

Lemma pattern_moves i o j : pattern s i = Ok (o, j) → i ≤ j.
Proof. unfold pattern. destruct (patternToken _ _) as [n [|]]; naive_solver lia. Qed.

Lemma list_items_moves fuel i ls j : list_items s fuel i = Ok (ls, j) → i ≤ j.
Proof.
  revert i ls j. induction fuel as [|fuel IH]; intros i ls j; simpl;
    destruct (after_comma s i) as [k|] eqn:E; try naive_solver.
  intros. result_inv. destruct a as [[l k']|]; [|done]. result_inv. destruct a as [ls' j']. result_inv.
  apply after_comma_moves in E. apply literal_moves in Hstep. apply IH in Hstep1. lia.
Qed.

Lemma list_operand_moves l start i o j : list_operand s l start i = Ok (o, j) → i ≤ j.
Proof.
  unfold list_operand. intros. result_inv. destruct a as [ls k]. apply list_items_moves in Hstep.
  case_match; naive_solver.
Qed.

Lemma filtered_moves o i o' j : filtered_operand s o i = (o', j) → i ≤ j.
Proof. unfold filtered_operand. repeat case_match; naive_solver lia. Qed.

Lemma right_operand_moves op i o j : right_operand s iterVar op i = Ok (o, j) → i ≤ j.
Proof.
  unfold right_operand. intros. result_inv. destruct a as [r k]. apply operand_moves in Hstep.
  destruct (filtered_operand s r k) as [r' k'] eqn:E. apply filtered_moves in E.
  destruct r'; try naive_solver lia. case_match; [apply list_operand_moves in Hstep0; lia|naive_solver lia].
Qed.

Lemma op_at_moves i op j : op_at s i = Some (op, j) → i ≤ j.
Proof. unfold op_at. repeat case_match; naive_solver lia. Qed.

Lemma comparison_moves i a j : comparison s iterVar i = Ok (a, j) → i ≤ j.
Proof.
  unfold comparison. intros. result_inv. destruct a0 as [l k]. result_inv. apply operand_moves in Hstep.
  pose proof (ws_le k). destruct (op_at _ _) as [[op k']|] eqn:Eo; [|done]. apply op_at_moves in Eo.
  pose proof (ws_le k'). destruct (Unary op); result_inv; [lia|]. destruct a0 as [r k'']. result_inv.
  assert (ws s k' ≤ j); [|lia]. case_match; eauto using pattern_moves, right_operand_moves.
Qed.

Lemma simple_atom_moves i a j : simple_atom s i = Some (a, j) → i ≤ j.
Proof. unfold simple_atom. rewrite !union_Some. repeat case_match; naive_solver lia. Qed.

Lemma atom_moves i a j : atom s iterVar i = Ok (a, j) → i ≤ j.
Proof.
  unfold atom. pose proof (ws_le i). destruct (simple_atom s (ws s i)) as [[a' j']|] eqn:E.
  - intros [= <- <-]. apply simple_atom_moves in E. lia.
  - intros Hc%comparison_moves. lia.
Qed.

Lemma conj_moves fuel i ands j : conj s iterVar fuel i = Ok (ands, j) → i ≤ j.
Proof.
  revert i ands j. induction fuel as [|fuel IH]; intros i ands j; simpl; intros; result_inv;
    destruct a as [a k]; apply atom_moves in Hstep; destruct (eat s "AND" k) as [k'|] eqn:E; try naive_solver.
  apply eat_moves in E; [|done]. result_inv. destruct a0 as [ands' j']. result_inv. apply IH in Hstep1. lia.
Qed.

(** ** The fuel is enough *)

(** A reason found in the text: neither an exhausted fuel nor an error of [NewCondition]. *)
Definition textual (r : reason) : Prop :=
  match r with OutOfFuel | RefusedCondition _ => False | _ => True end.

Lemma literal_textual i r : literal s i = Err r → textual r.
Proof. unfold literal. repeat case_match; by intros [= <-]. Qed.

Lemma operand_textual i r : operand s iterVar i = Err r → textual r.
Proof.
  unfold operand. intros [H|(l & _ & H)]%bind_Err; [by apply literal_textual in H|].
  destruct l as [[]|]; [done|]. destruct (entitled _) as [[[??]?]|]; [done|].
  unfold check, attribute in H. repeat case_match; by simplify_eq/=.
Qed.

Lemma list_items_textual fuel i r : length s - i ≤ fuel → list_items s fuel i = Err r → textual r.
Proof.
  revert i. induction fuel as [|fuel IH]; intros i Hf; simpl;
    destruct (after_comma s i) as [j|] eqn:E; try done; apply after_comma_moves in E; [lia|].
  intros [H|(l & Hl & H)]%bind_Err; [by apply literal_textual in H|].
  destruct l as [[l k]|]; [|by injection H as <-].
  apply literal_moves in Hl. apply bind_Err in H as [H|([] & _ & H)]; [|done].
  apply IH in H; [done|lia].
Qed.

Lemma right_operand_textual op i r : right_operand s iterVar op i = Err r → textual r.
Proof.
  unfold right_operand. intros [H|([o j] & _ & H)]%bind_Err; [by apply operand_textual in H|].
  destruct (filtered_operand s o j) as [[] k]; try done. destruct (TakesList op); [|done].
  unfold list_operand in H. apply bind_Err in H as [H|([] & _ & H)].
  - apply list_items_textual in H; [done|lia].
  - case_match; [done|by injection H as <-].
Qed.

Lemma compare_textual op l o r : compare op l o = Err r → textual r.
Proof. unfold compare. destruct (NewCompare op l o); [done|]. by intros [= <-]. Qed.

Lemma atom_textual i r : atom s iterVar i = Err r → textual r.
Proof.
  unfold atom, comparison. destruct (simple_atom _ _); [done|].
  intros [H|([l j] & _ & H)]%bind_Err; [by apply operand_textual in H|].
  apply bind_Err in H as [H|(u & _ & H)]; [destruct (negb _); [done|by injection H as <-]|].
  destruct (op_at _ _) as [[op k]|]; [|case_match; by injection H as <-].
  destruct (Unary op).
  - apply bind_Err in H as [H|(? & _ & H)]; [by apply compare_textual in H|done].
  - apply bind_Err in H as [H|([o m] & _ & H)].
    + destruct (_ || _); [|by apply right_operand_textual in H]. unfold pattern in H.
      repeat case_match; by simplify_eq.
    + apply bind_Err in H as [H|(? & _ & H)]; [by apply compare_textual in H|done].
Qed.

Lemma conj_textual fuel i r : length s - i ≤ fuel → conj s iterVar fuel i = Err r → textual r.
Proof.
  revert i. induction fuel as [|fuel IH]; intros i Hf; simpl;
    intros [H|([a j] & Ha & H)]%bind_Err; try (by apply atom_textual in H); apply atom_moves in Ha;
    destruct (eat s "AND" j) as [k|] eqn:E; try done; apply eat_moves in E; try done; [lia|].
  apply bind_Err in H as [H|([] & _ & H)]; [|done]. apply IH in H; [done|lia].
Qed.

Lemma disj_textual fuel i r : length s - i ≤ fuel → disj s iterVar fuel i = Err r → textual r.
Proof.
  revert i. induction fuel as [|fuel IH]; intros i Hf; simpl;
    intros [H|([a j] & Ha & H)]%bind_Err; try (apply conj_textual in H; [done|lia]); apply conj_moves in Ha;
    destruct (eat s "OR" j) as [k|] eqn:E; try done; apply eat_moves in E; try done; [lia|].
  apply bind_Err in H as [H|([] & _ & H)]; [|done]. apply IH in H; [done|lia].
Qed.

Lemma expr_textual r : expr s iterVar = Err r → textual r.
Proof.
  unfold expr. destruct s as [|c s'] eqn:Es; [done|]. rewrite <-Es.
  intros [H|([ors i] & _ & H)]%bind_Err; [apply disj_textual in H; [done|lia]|].
  repeat case_match; by simplify_eq.
Qed.

End positions.

(** ** What the parser returns *)

Section valid.
Context {table : UnicodeTable} {pc : PathCompiler} (s : bytes) (iterVar : string).

(** What an operand of a text parsed with [iterVar] reads. *)
Definition scoped (o : Operand) : Prop :=
  match o with
  | PassValue var _ => var = iterVar ∧ iterVar ≠ EmptyString
  | Subject attr _ => attr = SubjectPermissionScope → iterVar = EmptyString
  | _ => True
  end.

Definition good_atom (a : Atom) : Prop :=
  wf_atom a ∧ ∀ cmp o, a = ACompare cmp → Left cmp = Some o ∨ Right cmp = Some o → scoped o.

Lemma resource_scoped path text : scoped (resource path text).
Proof. unfold resource. by case_match. Qed.

Lemma subjectToken_scoped tok o : subjectToken iterVar tok = Some o → scoped o.
Proof.
  unfold subjectToken. destruct (isSubjectToken tok); [|done]. destruct (isScopeToken tok).
  - destruct (empty iterVar) eqn:E; intros [= <-]; simpl.
    + by apply empty_true in E.
    + by apply empty_false in E.
  - destruct (negb _ && _) eqn:E; intros [= <-]; simpl; [|done].
    apply andb_true_iff in E as [E _]. apply negb_true_iff, eqb_false in E. by intros ?.
Qed.

Lemma operand_scoped i o j : operand s iterVar i = Ok (o, j) → scoped o.
Proof.
  unfold operand. intros. result_inv. destruct a as [[l k]|]; [naive_solver|].
  destruct (entitled _) as [[[??]?]|]; [naive_solver|]. result_inv.
  destruct (subjectToken _ _) as [o'|] eqn:E; result_inv; [by eapply subjectToken_scoped|].
  unfold attribute in Hstep2. repeat case_match; simplify_eq; first [done|apply resource_scoped].
Qed.

Lemma right_operand_scoped op i o j : right_operand s iterVar op i = Ok (o, j) → scoped o.
Proof.
  unfold right_operand. intros. result_inv. destruct a as [r k]. apply operand_scoped in Hstep.
  destruct (filtered_operand s r k) as [r' k'] eqn:E.
  assert (scoped r') as Hr'.
  { unfold filtered_operand in E. destruct r; try (by injection E as <- _). destruct (_ ≫= _) as [[]|]; by injection E as <- _. }
  destruct r'; try naive_solver. case_match; [|naive_solver].
  unfold list_operand in Hstep0. result_inv. destruct a. case_match; naive_solver.
Qed.

Lemma compare_good op l r a :
  compare op l r = Ok a → ∃ c, a = ACompare c ∧ wf_compare c ∧ Left c = l ∧ Right c = r.
Proof.
  unfold compare, NewCompare. destruct (validateCompare _) as [[]|] eqn:E; [|done]. simpl.
  intros [= <-]. apply validateCompare_Ok in E. by exists (MkCompare op l r).
Qed.

Lemma atom_good i a j : atom s iterVar i = Ok (a, j) → good_atom a.
Proof.
  unfold atom. destruct (simple_atom s _) as [[a' j']|] eqn:E.
  { intros [= <- <-]. unfold simple_atom in E. rewrite !union_Some in E.
    repeat case_match; split; naive_solver. }
  unfold comparison. clear E. intros. result_inv. destruct a0 as [l k]. result_inv.
  apply operand_scoped in Hstep. destruct (op_at _ _) as [[op k']|]; [|done].
  destruct (Unary op); result_inv.
  - apply compare_good in Hstep0 as (c & -> & Hc & HL & HR). split; [done|]. intros cmp o [= <-]. naive_solver.
  - destruct a0 as [r m]. result_inv. apply compare_good in Hstep2 as (c & -> & Hc & HL & HR).
    assert (scoped r).
    { case_match; [|by eapply right_operand_scoped]. unfold pattern in Hstep0.
      repeat case_match; naive_solver. }
    split; [done|]. intros cmp o [= <-]. naive_solver.
Qed.

Lemma conj_good fuel i ands j : conj s iterVar fuel i = Ok (ands, j) → ands ≠ [] ∧ Forall good_atom ands.
Proof.
  revert i ands j. induction fuel as [|fuel IH]; intros i ands j; simpl; intros; result_inv;
    destruct a as [a k]; apply atom_good in Hstep; destruct (eat s "AND" k); try done; result_inv;
    try (by split; [done|constructor]). destruct a0 as [ands' j']. result_inv. apply IH in Hstep1 as [_ ?]. by split; [|constructor].
Qed.

Definition good_disjuncts (ds : list (list Atom)) : Prop :=
  ds ≠ [] ∧ Forall (λ d, d ≠ [] ∧ Forall good_atom d) ds.

Lemma disj_good fuel i ors j : disj s iterVar fuel i = Ok (ors, j) → good_disjuncts ors.
Proof.
  revert i ors j. induction fuel as [|fuel IH]; intros i ors j; simpl; intros; result_inv;
    destruct a as [c k]; apply conj_good in Hstep; destruct (eat s "OR" k); try done; result_inv;
    try (by split; [done|constructor]). destruct a as [ors' j']. result_inv. apply IH in Hstep1 as [_ ?]. by split; [|constructor].
Qed.

Lemma expr_good ors : expr s iterVar = Ok ors → good_disjuncts ors.
Proof.
  unfold expr. destruct s as [|c s'] eqn:Es.
  - intros [= <-]. split; [done|]. repeat constructor; [done..|]. by intros ???.
  - rewrite <-Es. intros. result_inv. destruct a as [ors' i]. apply disj_good in Hstep.
    by case_match; result_inv.
Qed.

Lemma check_Err {E} b (e e' : E) : check b e = Err e' → e' = e.
Proof. by destruct b; [|intros [= <-]]. Qed.

Lemma newParser_textual text r : newParser text = Err r → textual r.
Proof.
  unfold newParser. intros [->%check_Err|(_ & _ & H)]%bind_Err; [done|].
  apply bind_Err in H as [H|(s' & _ & H)]; [destruct (dropLineBreaks text); by simplify_eq|].
  do 3 (apply bind_Err in H as [->%check_Err|(_ & _ & H)]; [done|]). done.
Qed.

End valid.

Section parsed.
Context {table : UnicodeTable} {pc : PathCompiler}.

Lemma some_atoms_in d ds : d ∈ some_atoms ds ↔ ∃ d', d = Some <$> d' ∧ d' ∈ ds.
Proof. apply list_elem_of_fmap. Qed.

(** [NewCondition] accepts the parser's disjuncts at every place there is. *)
Lemma good_condition iterVar place ds :
  good_disjuncts iterVar ds → place ∈ places →
  NewCondition place (some_atoms ds) = Ok (MkCondition place (some_atoms ds)).
Proof.
  intros [Hne Hds] Hp. unfold NewCondition.
  assert (validateCondition (MkCondition place (some_atoms ds)) = Ok tt) as ->; [|done].
  apply validateCondition_Ok. split; [done|]. split; [by destruct ds|].
  intros d (d' & -> & Hd)%some_atoms_in. rewrite Forall_forall in Hds. destruct (Hds _ Hd) as [Hn Ha].
  split; [by destruct d'|]. rewrite Forall_forall in Ha. intros a (a' & -> & Hin)%list_elem_of_fmap.
  exists a'. split; [done|]. by apply Ha.
Qed.

Lemma unknown_place place ds : place ∉ places → NewCondition place ds = Err (UnknownPlace place).
Proof. intros H. unfold NewCondition, validateCondition. cbn [CPlace]. by rewrite (proj2 (member_false _ _) H). Qed.

(** The condition of a text at a known place: the constant, or the parser's disjuncts. *)
Lemma ParseCondition_Ok text place iterVar c :
  ParseCondition text place iterVar = Ok c →
  ∃ ds, c = MkCondition place (some_atoms ds) ∧ good_disjuncts iterVar ds ∧ place ∈ places.
Proof.
  intros H. destruct (decide (place ∈ places)) as [Hp|Hp].
  2: { unfold ParseCondition in H. destruct (wholeBool _); [by rewrite unknown_place in H|].
       apply bind_Ok in H as (s & _ & H). apply bind_Ok in H as (ds & _ & H). by rewrite unknown_place in H. }
  unfold ParseCondition in H. destruct (wholeBool _) as [b|].
  - assert (good_disjuncts iterVar [[Const b]]) as Hg by (split; [done|]; repeat constructor; [done..|]; by intros ???).
    exists [[Const b]]. change [[Some (Const b)]] with (some_atoms [[Const b]]) in H.
    rewrite (good_condition _ _ _ Hg Hp) in H. by injection H as <-.
  - apply bind_Ok in H as (s & _ & H). apply bind_Ok in H as (ds & Hd & H).
    apply wrap_Ok, expr_good in Hd. rewrite (good_condition _ _ _ Hd Hp) in H. exists ds. by injection H as <-.
Qed.

(** What the tree checks of a condition where it stands holds of the parser's. *)
Lemma ParseCondition_wf text place iterVar bound c :
  (iterVar = EmptyString ∧ bound = ∅ ∨ iterVar ≠ EmptyString ∧ iterVar ∈ bound) →
  ParseCondition text place iterVar = Ok c → PolicyTree.wf_cond_at bound place (Some c).
Proof.
  intros Hb (ds & -> & [Hne Hds] & Hp)%ParseCondition_Ok c' [= <-]. rewrite Forall_forall in Hds. split_and!; [|done|].
  - split; [done|]. split; [by destruct ds|]. intros d (d' & -> & Hd)%some_atoms_in.
    destruct (Hds _ Hd) as [Hn Ha]. split; [by destruct d'|]. rewrite Forall_forall in Ha.
    intros a (a' & -> & Hin)%list_elem_of_fmap. exists a'. split; [done|]. by apply Ha.
  - intros d cmp o (d' & -> & Hd)%some_atoms_in (a & Ha & Hin)%list_elem_of_fmap Ho. injection Ha as <-.
    destruct (Hds _ Hd) as [_ Hg]. rewrite Forall_forall in Hg. destruct (Hg _ Hin) as [_ Hs].
    specialize (Hs cmp o eq_refl Ho). destruct o; simpl in *; try done; naive_solver.
Qed.

(** C8: A condition the parser returns passes every check of the policy tree at its
    position: it is valid at its place, reads the pass of the iterate it stands in and of
    no other, and reads no permission scope inside an iterate. *)
Theorem ParseCondition_fits text place iterVar bound c :
  (iterVar = EmptyString ∧ bound = ∅ ∨ iterVar ≠ EmptyString ∧ iterVar ∈ bound) →
  ParseCondition text place iterVar = Ok c → PolicyTree.wf_cond_at bound place (Some c).
Proof. apply ParseCondition_wf. Qed.

(** C22: The parser decides every text, and its answer is that of the text: at a known
    place it returns a condition or a reason found in the text, never that it ran out of
    turns and never one of [NewCondition]; at an unknown place it always fails. *)
Theorem ParseCondition_decides text place iterVar :
  if decide (place ∈ places)
  then (∃ ds, ParseCondition text place iterVar = Ok (MkCondition place ds)
              ∧ ∀ place', place' ∈ places → ParseCondition text place' iterVar = Ok (MkCondition place' ds))
       ∨ ∃ r, ParseCondition text place iterVar = Err (SyntaxError text r)
              ∧ r ≠ OutOfFuel ∧ ∀ e, r ≠ RefusedCondition e
  else ∃ e, ParseCondition text place iterVar = Err e.
Proof.
  case_decide as Hp.
  2: { destruct (ParseCondition text place iterVar) as [c|e] eqn:E; [|by eexists].
       by apply ParseCondition_Ok in E as (_ & _ & _ & ?). }
  unfold ParseCondition. destruct (wholeBool _) as [b|].
  { assert (good_disjuncts iterVar [[Const b]]) as Hg by (split; [done|]; repeat constructor; [done..|]; by intros ???).
    left. exists (some_atoms [[Const b]]). change [[Some (Const b)]] with (some_atoms [[Const b]]).
    split; [by rewrite (good_condition _ _ _ Hg)|]. intros p' Hp'. by rewrite (good_condition _ _ _ Hg). }
  destruct (newParser _) as [s|r] eqn:En; cbn [wrap mbind result_bind].
  2: { right. exists r. apply newParser_textual in En. split; [done|]. split; [|intros e]; by intros ->. }
  destruct (expr s iterVar) as [ds|r] eqn:Ee; cbn [wrap mbind result_bind].
  - apply expr_good in Ee. left. exists (some_atoms ds). split; [by rewrite (good_condition _ _ _ Ee)|].
    intros p' Hp'. by rewrite (good_condition _ _ _ Ee).
  - right. exists r. apply expr_textual in Ee. split; [done|]. split; [|intros e]; by intros ->.
Qed.

End parsed.

(** ** Examples *)

#[local] Instance example_table : UnicodeTable :=
  {| print_table _ := true; letter_table _ := true; digit_table _ := false |}.
Definition refused_paths : list string :=
  [".true,false"; ".FALSE,true"; ".null,false"; ".subject.permissionScope.a]"]%string.
#[local] Instance example_compiler : PathCompiler := λ path, negb (member path refused_paths).

Definition parsed (text : string) : result parse_error (list (list (option Atom))) :=
  Disjuncts <$> ParseCondition (table := example_table) (pc := example_compiler) text PlaceRuleCondition "v".


(** The texts the package's tests parse, with what [FormatCondition] prints for each; a
    caret stands for a double quote. *)
Definition unquote (c : ascii) : ascii := if eqb c "^"%char then "034"%char else c.

Definition printed (text : string) : option string :=
  match ParseCondition text PlaceRuleCondition EmptyString with
  | Ok c => Some (Dump.FormatCondition c)
  | Err _ => None
  end.

Definition tested : list (string * string) :=
  [("resource.a == 'y'", "resource.a EQ ^y^");
   ("a = 'y'", "resource.a EQ ^y^");
   ("resourceX == 1", "resource.resourceX EQ 1");
   ("resource IS EMPTY", "resource IS_EMPTY");
   ("resource.a.b. == 1", "resource.a.b EQ 1");
   ("resource[ 0 ] == 1", "resource[0] EQ 1");
   ("resource.a[?(@.key == '[ 0 ]')].id == 's'", "resource.a[?(@.key == '[ 0 ]')].id EQ ^s^");
   ("resource.a[?(@.s =~ /[ 0 ]/)].id CONTAINS 'space'", "resource.a[?(@.s =~ /[ 0 ]/)].id CONTAINS ^space^");
   ("resource.a[?(@.s =~ /[ 0 ]/)][ 1 ] == 1", "resource.a[?(@.s =~ /[ 0 ]/)][1] EQ 1");
   ("subject.l[0] IS NULL", "resource.subject.l[0] IS_NULL");
   ("resource.a GREATER THAN OR EQUAL TO 5", "resource.a GE 5");
   ("resource.a IS NOT NULL", "resource.a IS_NOT_NULL");
   ("resource.a == null", "resource.a EQ resource.null");
   ("resource.a == TRUE", "resource.a EQ true");
   ("operation IN 'READ', 'EDIT'", "operation IN [^READ^, ^EDIT^] raw=^'READ', 'EDIT'^");
   ("resource.n IN 1,2", "resource.n IN [1, 2] raw=^1,2^");
   ("subject.roles CONTAINS ANY 'A'", "subject.roles CONTAINS_ANY [^A^]");
   ("resource.p MATCH /api/*", "resource.p MATCH pattern(^/api/*^)");
   ("resource.p MATCH resource.q", "resource.p MATCH pattern(^resource.q^)");
   ("resource.v MATCH resource.*", "resource.v MATCH pattern(^resource.*^)");
   ("resource.v NOT MATCH resource.*", "resource.v NOT_MATCH pattern(^resource.*^)");
   ("resource.v MATCH subject.l[:]", "resource.v MATCH pattern(^subject.l[:]^)");
   ("resource.v MATCH resource.a[0, 1]", "resource.v MATCH pattern(^resource.a[0, 1]^)");
   ("subject allowed 'EDIT' on resource OR subject.isM2M", "subject allowed ^EDIT^ on resource OR subject.isM2M");
   ("TRUE AND resource.a == 1", "TRUE AND resource.a EQ 1");
   ("subject.region.code == 'x'", "pip(^subject.region.code^) EQ ^x^");
   ("subject.permissionScope == 'x'", "pip(^subject.permissionScope^) EQ ^x^");
   ("subject.permissionScope.a.b == 'x'", "subject.permissionScope[^a.b^] EQ ^x^");
   ("subject.permissionScopes == 'x'", "pip(^subject.permissionScopes^) EQ ^x^");
   ("subject.permissionScopeFoo.a == 'x'", "pip(^subject.permissionScopeFoo.a^) EQ ^x^");
   ("resource.x IN subject.owners FILTERED 'READ'", "resource.x IN pip(^subject.owners.filtered^) FILTERED ^READ^");
   ("subject.entitledResources.of('order').as('id','owner') CONTAINS resource.id", "subject.entitledResources.of(^order^).as[^id^, ^owner^] CONTAINS resource.id");
   ("resource.items[?(@.k == 'v')].length() == 1", "resource.items[?(@.k == 'v')].length() EQ 1");
   (EmptyString, "TRUE");
   ("False", "FALSE");
   ("resource.a == 10 AND resource.x IN 'p','q'", "resource.a EQ 10 AND resource.x IN [^p^, ^q^] raw=^'p','q'^");
   ("resource.a == 'xy' AND resource.n IN 1, 2", "resource.a EQ ^xy^ AND resource.n IN [1, 2] raw=^1, 2^");
   ("resource.x IN true,false", "resource.x IN unsupported(jsonpath ^true,false^)");
   ("resource.x IN FALSE,true", "resource.x IN unsupported(jsonpath ^FALSE,true^)");
   ("resource.x == true", "resource.x EQ true");
   ("resource.x IN null,false", "resource.x IN unsupported(jsonpath ^null,false^)");
   ("subject.x-y == 'v'", "resource.subject.x-y EQ ^v^");
   ("subject.1x == 'v'", "resource.subject.1x EQ ^v^");
   ("subject.x_y == 'v'", "pip(^subject.x_y^) EQ ^v^");
   ("subject.id.region == 'eu'", "pip(^subject.id.region^) EQ ^eu^");
   ("subject.id == 'eu'", "subject.id EQ ^eu^");
   ("subject.entitledResources == 'eu'", "pip(^subject.entitledResources^) EQ ^eu^");
   ("subject.roles. CONTAINS 'r'", "resource.subject.roles CONTAINS ^r^");
   ("subject.roles CONTAINS 'r'", "subject.roles CONTAINS ^r^");
   ("subject.permissionScope.a[0] == 'v'", "subject.permissionScope[^a[0]^] EQ ^v^");
   ("subject.permissionScope.a[ 0 ] == 'v'", "subject.permissionScope[^a[ 0 ]^] EQ ^v^");
   ("subject.permissionScope.a. == 'v'", "subject.permissionScope[^a.^] EQ ^v^");
   ("subject.permissionScope.a == 'v'", "subject.permissionScope[^a^] EQ ^v^");
   ("subject.permissionScope._a == 'v'", "subject.permissionScope[^_a^] EQ ^v^");
   ("subject.permissionScope.1a == 'v'", "resource.subject.permissionScope.1a EQ ^v^");
   ("subject.permissionScope.a] IS NULL", "unsupported(jsonpath ^subject.permissionScope.a]^) IS_NULL");
   ("subject.permissionScope.ab] IS NULL", "subject.permissionScope[^ab]^] IS_NULL");
   ("resource.v MATCH subject.x-y", "resource.v MATCH pattern(^subject.x-y^)");
   ("resource.v MATCH subject.name%", "resource.v MATCH pattern(^subject.name%^)");
   ("resource.v MATCH a#b", "resource.v MATCH pattern(^a#b^)");
   ("resource.v MATCH resource.subject.x-y", "resource.v MATCH pattern(^resource.subject.x-y^)")]%string.

Example accepted_texts :
  Forall (λ t, printed t.1 = Some (string_of (unquote <$> bytes_of t.2))) tested.
Proof. repeat constructor; vm_compute; reflexivity. Qed.

Definition cmp (op : Operator) (l r : Operand) : Atom := ACompare (MkCompare op (Some l) (Some r)).

Definition why (text : string) : option reason :=
  match parsed text with
  | Err (SyntaxError _ r) => Some r
  | _ => None
  end.

Example refused_texts :
  why <$> ["   "; "a.b  == 1"; "resource.a==1"; "a == 1 and b == 2"; "a IN 1, 'x'"; "NOT a == 1"; "a == 1)OR b == 2";
           "a LESS THAN OR EQUALS 1"; "subject == 1"; "a MATCH 'x'"]%string
  = [Some Blank; Some DoubleSpace; Some TightComparison; Some LowerCaseKeyword; Some MixedList; Some StandaloneNot;
     Some TightConnective; Some MisspelledOperator; Some BareSubject; Some (NoPatternThere QuotedPattern)].
Proof. vm_compute. reflexivity. Qed.

Lemma ParseCondition_fits_witness :
  PolicyTree.wf_cond_at {["v"]} PlaceRuleCondition
    (Some (MkCondition PlaceRuleCondition
             (some_atoms [[cmp OpEQ (Resource ".a") (PassValue "v" "k"); IsM2M]]))).
Proof.
  apply (ParseCondition_fits (table := example_table) (pc := example_compiler)
           "a == subject.permissionScope.k AND subject.isM2M" PlaceRuleCondition "v").
  - right. split; [done|set_solver].
  - vm_compute. reflexivity.
Defined.

End ConditionParser.
