(* ===== verification/Encoding.v ===== *)
(** * Decoding: base64url, JSON strings, and floating-point numbers

    What [internal/token/verify] uses of [encoding/base64], [encoding/json], and
    [strconv]: [RawURLEncoding.DecodeString], the string a JSON string literal stands for,
    the members of a JSON object by their decoded names, and the [float64] nearest to a
    decimal. *)
From S2P Require Import Prelude GoText Json.
Import GoText.

Module Encoding.

(** ** base64url without padding *)

Definition base64_digit (c : ascii) : option N :=
  let n := N_of_ascii c in
  if within "A" c "Z" then Some (n - 65)%N
  else if within "a" c "z" then Some (n - 71)%N
  else if is_digit c then Some (n + 4)%N
  else if eqb c "-"%char then Some 62%N
  else if eqb c "_"%char then Some 63%N
  else None.

(** The bytes of four digits each, and of the two or three at the end, whose last bits
    are dropped. *)
Fixpoint base64_bytes (ds : list N) : option bytes :=
  match ds with
  | a :: b :: c :: d :: ds =>
      (λ rest, byte_of (a * 4 + b / 16) :: byte_of (b mod 16 * 16 + c / 4) :: byte_of (c mod 4 * 64 + d) :: rest)
      <$> base64_bytes ds
  | [a; b; c] => Some [byte_of (a * 4 + b / 16); byte_of (b mod 16 * 16 + c / 4)]
  | [a; b] => Some [byte_of (a * 4 + b / 16)]
  | [_] => None
  | [] => Some []
  end%N.

(** [base64.RawURLEncoding.DecodeString], which skips line breaks. *)
Definition DecodeString (s : bytes) : option bytes :=
  ds ← mapM base64_digit (List.filter (λ c, negb (member c ["010"; "013"]%char)) s);
  base64_bytes ds.

Example DecodeString_examples :
  (λ s, string_of <$> DecodeString (bytes_of s)) <$> ["aGVhZGVy"; "aGk"; "aA"; "a"; "a+b"; "_-8"]%string
  = [Some "header"%string; Some "hi"%string; Some "h"%string; None; None;
     Some (string_of (["255"; "239"]%char))].
Proof. vm_compute. reflexivity. Qed.

(** ** JSON strings *)

Definition hex_value (c : ascii) : N :=
  let n := N_of_ascii c in
  if is_digit c then (n - 48)%N else if within "a" c "f" then (n - 87)%N else (n - 55)%N.

Definition u4 (a b c d : ascii) : N := (((hex_value a * 16 + hex_value b) * 16 + hex_value c) * 16 + hex_value d)%N.

Definition surrogate (r : N) : bool := ((55296 <=? r) && (r <? 57344))%N.

(** The rune of a surrogate pair: [utf16.DecodeRune]. *)
Definition surrogate_pair (r1 r2 : N) : option N :=
  if ((r1 <? 56320) && (56320 <=? r2) && (r2 <? 57344))%N
  then Some ((r1 - 55296) * 1024 + (r2 - 56320) + 65536)%N else None.

Definition escaped (c : ascii) : ascii :=
  if eqb c "b"%char then "008" else if eqb c "f"%char then "012" else if eqb c "n"%char then "010"
  else if eqb c "r"%char then "013" else if eqb c "t"%char then "009" else c.

(** The text of a string literal's body, as the scanner accepted it: escapes replaced, and
    the replacement rune for a surrogate without its pair and for an invalid byte. *)
Fixpoint unquote (fuel : nat) (s : bytes) : bytes :=
  match fuel, s with
  | 0, _ | _, [] => []
  | S fuel, c :: s' =>
      if eqb c "\"%char then
        match s' with
        | f :: s'' =>
            if eqb f "u"%char then
              match s'' with
              | a :: b :: c :: d :: t =>
                  let r := u4 a b c d in
                  if surrogate r then
                    match t with
                    | "\"%char :: "u"%char :: a' :: b' :: c' :: d' :: t' =>
                        match surrogate_pair r (u4 a' b' c' d') with
                        | Some r => encode r ++ unquote fuel t'
                        | None => encode RuneError ++ unquote fuel t
                        end
                    | _ => encode RuneError ++ unquote fuel t
                    end
                  else encode r ++ unquote fuel t
              | _ => []
              end
            else escaped f :: unquote fuel s''
        | [] => []
        end
      else
        let '(r, w) := DecodeRune s in encode r ++ unquote fuel (drop w s)
  end.

Definition Unquote (body : bytes) : string := string_of (unquote (length body) body).

Example Unquote_examples :
  Unquote <$> (bytes_of <$> ["a\n\/"; "\u00e9\u0041"; "\ud83d\ude00"; "\ud83dx"]%string)
  = [string_of (["a"; "010"; "/"]%char); string_of (["195"; "169"; "A"]%char);
     string_of (["240"; "159"; "152"; "128"]%char); string_of (["239"; "191"; "189"; "x"]%char)].
Proof. vm_compute. reflexivity. Qed.

(** [json.Unmarshal] into a [map[string]json.RawMessage]: the members by name, the last
    one of a name. A member keeps its value, whose text the JSON value holds. [None] for
    any other value, null included, for which the map stays nil. *)
Definition members (v : Json.json) : option (gmap string Json.json) :=
  match v with
  | Json.JObj _ ms => Some (fold_left (λ m kv, <[Unquote kv.1 := kv.2]> m) ms ∅)
  | _ => None
  end.

(** ** Floating-point numbers *)

(** [n / d], both positive, as the nearest [m * 2 ^ e] of 53 bits, ties to even. *)
Definition round_double (n d : Z) : Z * Z :=
  if (n =? 0)%Z then (0, 0)%Z
  else
    let e := (Z.log2 n - Z.log2 d - 53)%Z in
    let scaled e := if (0 <=? e)%Z then (n, d * 2 ^ e)%Z else (n * 2 ^ (- e), d)%Z in
    let '(n1, d1) := scaled e in
    let e := Z.max (if (n1 <? d1 * 2 ^ 53)%Z then e else e + 1)%Z (-1074) in
    let '(n2, d2) := scaled e in
    let '(q, r) := Z.div_eucl n2 d2 in
    (if (2 * r <? d2)%Z then q else if (d2 <? 2 * r)%Z then q + 1 else if Z.even q then q else q + 1, e)%Z.

(** The number [m * 2 ^ e] without its fraction. *)
Definition truncate_double (x : Z * Z) : Z :=
  if (0 <=? x.2)%Z then (x.1 * 2 ^ x.2)%Z else (x.1 / 2 ^ (- x.2))%Z.

(** The fraction of [m * 2 ^ e]. *)
Definition fraction_double (x : Z * Z) : Z * Z :=
  if (0 <=? x.2)%Z then (0, 0)%Z else (x.1 mod 2 ^ (- x.2), x.2)%Z.

(** Whether [m * 2 ^ e] is more than the integer [k]. *)
Definition more_than (x : Z * Z) (k : Z) : bool :=
  if (0 <=? x.2)%Z then (k <? x.1 * 2 ^ x.2)%Z else (k * 2 ^ (- x.2) <? x.1)%Z.

Definition digits_value (ds : bytes) : Z := fold_left (λ n c, (n * 10 + (Z.of_N (N_of_ascii c) - 48))%Z) ds 0%Z.

(** The sign and the size of the number a JSON number literal names, as a fraction of two
    positive integers. *)
Definition decimal (text : bytes) : bool * (Z * Z) :=
  let '(negative, t) := match Json.expect "-" text with Some t => (true, t) | None => (false, text) end in
  let '(int, t) := span is_digit t in
  let '(frac, t) := match Json.expect "." t with Some t => span is_digit t | None => ([], t) end in
  let exponent :=
    match t with
    | _ :: "-"%char :: ds => (- digits_value ds)%Z
    | _ :: "+"%char :: ds => digits_value ds
    | _ :: ds => digits_value ds
    | [] => 0%Z
    end in
  let e := (exponent - Z.of_nat (length frac))%Z in
  let m := digits_value (int ++ frac) in
  (negative, if (0 <=? e)%Z then (m * 10 ^ e, 1)%Z else (m, 10 ^ (- e))%Z).

(** [strconv.ParseFloat(text, 64)] of a JSON number literal: the sign, and the size as
    [m * 2 ^ e]. A size past the largest [float64], for which the code gets an error, is
    returned as it is: it is past every bound the callers ask for too. *)
Definition ParseFloat (text : bytes) : bool * (Z * Z) :=
  let '(negative, (n, d)) := decimal text in (negative, round_double n d).

Example ParseFloat_examples :
  ParseFloat <$> (bytes_of <$> ["0"; "1.5"; "-3e2"; "0.1"; "9007199254740993"; "1e-400"]%string)
  = [(false, (0, 0)); (false, (3 * 2 ^ 51, -52)); (true, (300 * 2 ^ 44, -44)); (false, (7205759403792794, -56));
     (false, (2 ^ 52, 1)); (false, (0, -1074))]%Z.
Proof. vm_compute. reflexivity. Qed.

(** The mantissa and the exponent of a whole number of at most 53 bits. *)
Lemma round_double_exact n :
  (0 < n < 2 ^ 53)%Z → ∃ k, (0 <= k)%Z ∧ round_double n 1 = (n * 2 ^ k, - k)%Z.
Proof.
  intros Hn. unfold round_double. rewrite (proj2 (Z.eqb_neq n 0)) by lia.
  assert (0 <= Z.log2 n <= 52)%Z as HL.
  { split; [apply Z.log2_nonneg|]. assert (Z.log2 n < 53)%Z; [|lia]. apply Z.log2_lt_pow2; lia. }
  change (Z.log2 1) with 0%Z. pose proof (Z.log2_spec n ltac:(lia)) as [Hlo _].
  set (L := Z.log2 n) in *. exists (52 - L)%Z. split; [lia|].
  rewrite (proj2 (Z.leb_gt 0 _)) by lia.
  replace (- (L - 0 - 53))%Z with (53 - L)%Z by lia.
  assert (2 ^ 53 <= n * 2 ^ (53 - L))%Z as Hbig.
  { transitivity (2 ^ L * 2 ^ (53 - L))%Z; [rewrite <-Z.pow_add_r by lia; by replace (L + (53 - L))%Z with 53%Z by lia|].
    apply Z.mul_le_mono_nonneg_r; [apply Z.pow_nonneg; lia|done]. }
  rewrite (proj2 (Z.ltb_ge _ _)) by lia.
  replace (Z.max (L - 0 - 53 + 1) (-1074)) with (L - 52)%Z by lia.
  destruct (0 <=? L - 52)%Z eqn:E.
  - apply Z.leb_le in E. replace L with 52%Z by lia. change (1 * 2 ^ (52 - 52))%Z with 1%Z.
    change (2 ^ (52 - 52))%Z with 1%Z.
    pose proof (Z_div_mod n 1 ltac:(lia)) as H.
    destruct (Z.div_eucl n 1) as [q r]. destruct H as [H1 H2].
    rewrite (proj2 (Z.ltb_lt _ _)) by lia. f_equal; lia.
  - replace (- (L - 52))%Z with (52 - L)%Z by lia. set (m := (n * 2 ^ (52 - L))%Z).
    pose proof (Z_div_mod m 1 ltac:(lia)) as H.
    destruct (Z.div_eucl m 1) as [q r]. destruct H as [H1 H2].
    rewrite (proj2 (Z.ltb_lt _ _)) by lia. f_equal; lia.
Qed.

(** A whole number of at most 53 bits is its own [float64]. *)
Lemma round_double_whole n :
  (0 <= n < 2 ^ 53)%Z →
  truncate_double (round_double n 1) = n ∧ (fraction_double (round_double n 1)).1 = 0%Z
  ∧ ∀ k, (0 <= k)%Z → more_than (round_double n 1) k = (k <? n)%Z.
Proof.
  intros Hn. destruct (decide (n = 0)%Z) as [->|Hne].
  { split_and!; [done|done|]. intros k Hk. unfold more_than. cbn. rewrite Z.mul_1_r. done. }
  destruct (round_double_exact n ltac:(lia)) as (k & Hk & ->). unfold truncate_double, fraction_double, more_than.
  cbn [fst snd]. rewrite Z.opp_involutive. destruct (0 <=? - k)%Z eqn:E.
  - apply Z.leb_le in E. replace k with 0%Z by lia. change (2 ^ (- 0))%Z with 1%Z. change (2 ^ 0)%Z with 1%Z.
    rewrite !Z.mul_1_r. done.
  - assert (0 < 2 ^ k)%Z by by apply Z.pow_pos_nonneg. split_and!.
    + apply Z.div_mul. lia.
    + apply Z.mod_mul. lia.
    + intros j Hj. apply eq_true_iff_eq. rewrite !Z.ltb_lt. nia.
Qed.

(** A larger whole number stays larger. *)
Lemma round_double_large n : (2 ^ 53 <= n)%Z → more_than (round_double n 1) (2 ^ 53 - 1) = true.
Proof.
  intros Hn. unfold round_double. rewrite (proj2 (Z.eqb_neq n 0)) by lia. change (Z.log2 1) with 0%Z.
  assert (53 <= Z.log2 n)%Z as HL by (apply Z.log2_le_pow2; lia).
  pose proof (Z.log2_spec n ltac:(lia)) as [Hlo _]. set (L := Z.log2 n) in *.
  rewrite (proj2 (Z.leb_le 0 _)) by lia. rewrite !Z.mul_1_l.
  rewrite <-Z.pow_add_r by lia. replace (L - 0 - 53 + 53)%Z with L by lia.
  rewrite (proj2 (Z.ltb_ge _ _)) by lia. replace (Z.max (L - 0 - 53 + 1) (-1074)) with (L - 52)%Z by lia.
  rewrite (proj2 (Z.leb_le 0 _)) by lia.
  assert (0 < 2 ^ (L - 52))%Z as Hp by (apply Z.pow_pos_nonneg; lia).
  pose proof (Z_div_mod n (2 ^ (L - 52)) ltac:(lia)) as H. destruct (Z.div_eucl n (2 ^ (L - 52))) as [q r].
  destruct H as [H1 H2].
  assert (2 ^ L = 2 ^ (L - 52) * 2 ^ 52)%Z as Hpow by (rewrite <-Z.pow_add_r by lia; f_equal; lia).
  assert (2 ^ 52 <= q)%Z as Hq by nia.
  unfold more_than. cbn [fst snd]. rewrite (proj2 (Z.leb_le 0 _)) by lia. apply Z.ltb_lt.
  assert (2 ^ 1 <= 2 ^ (L - 52))%Z by (apply Z.pow_le_mono_r; lia).
  repeat case_match; nia.
Qed.

Lemma digits_value_nonneg ds : Forall (λ c, is_digit c = true) ds → (0 <= digits_value ds)%Z.
Proof.
  intros H. unfold digits_value.
  assert (∀ z, 0 <= z → 0 <= fold_left (λ n c, n * 10 + (Z.of_N (N_of_ascii c) - 48)) ds z)%Z as Hz; [|by apply Hz].
  induction H as [|c ds Hc H IH]; intros z Hz; [done|]. cbn [fold_left]. apply IH.
  unfold is_digit, within in Hc. rewrite andb_true_iff, !N.leb_le in Hc. change (N_of_ascii "0") with 48%N in Hc. lia.
Qed.

(** The literal of a whole number names its value. *)
Lemma decimal_digits ds :
  ds ≠ [] → Forall (λ c, is_digit c = true) ds → decimal ds = (false, (digits_value ds, 1%Z)).
Proof.
  intros Hne Hd. unfold decimal. destruct ds as [|c ds]; [done|].
  assert (Json.expect "-" (c :: ds) = None) as ->.
  { apply Json.expect_other. intros ->. by apply Forall_inv in Hd. }
  rewrite <-(app_nil_r (c :: ds)) at 1. rewrite span_spec by done. cbn [Json.expect length Z.of_nat].
  rewrite app_nil_r. cbn. by rewrite Z.mul_1_r.
Qed.

End Encoding.
