(* ===== verification/Digits.v ===== *)
(** * Decimal digits

    The value of a list of digits, of the texts [strconv] writes for integers, and the order
    of digit lists read as numbers. *)
From S2P Require Import Prelude GoText Json Encoding.
Import GoText Encoding.

Module Digits.

(** ** The texts of integers *)

Lemma pretty_char_value x : (x < 10)%N → Z.of_N (N_of_ascii (pretty_N_char x)) = (Z.of_N x + 48)%Z.
Proof.
  intros H. assert (Hx : x ∈ [0;1;2;3;4;5;6;7;8;9]%N) by (rewrite !elem_of_cons; lia).
  rewrite !elem_of_cons, elem_of_nil in Hx.
  destruct Hx as [-> |[-> |[-> |[-> |[-> |[-> |[-> |[-> |[-> |[-> |[]]]]]]]]]]]; reflexivity.
Qed.

Definition digits_from (n : Z) (ds : bytes) : Z := fold_left (λ n c, (n * 10 + (Z.of_N (N_of_ascii c) - 48))%Z) ds n.

Lemma digits_from_pretty x s : digits_from 0 (bytes_of (pretty_N_go x s)) = digits_from (Z.of_N x) (bytes_of s).
Proof.
  revert s. induction (N.lt_wf_0 x) as [x _ IH]; intros s. destruct (decide (x = 0)%N) as [->|]; [done|].
  rewrite pretty_N_go_step by lia. rewrite IH by (by apply N.div_lt; lia).
  change (bytes_of (String (pretty_N_char (x mod 10)) s)) with (pretty_N_char (x mod 10) :: bytes_of s).
  unfold digits_from at 1. cbn [fold_left]. rewrite pretty_char_value by (apply N.mod_lt; lia).
  fold (digits_from (Z.of_N (x / 10) * 10 + (Z.of_N (x mod 10) + 48 - 48)) (bytes_of s)). f_equal.
  rewrite N2Z.inj_div, N2Z.inj_mod. pose proof (Z.div_mod (Z.of_N x) 10). lia.
Qed.

Lemma pretty_N_text (n : N) :
  bytes_of (pretty n) ≠ [] ∧ Forall (λ c, is_digit c = true) (bytes_of (pretty n)) ∧ digits_value (bytes_of (pretty n)) = Z.of_N n.
Proof.
  unfold pretty, pretty_N. case_decide as Hn; [subst; by split_and!; [|repeat constructor|]|].
  split_and!; [|by apply pretty_N_go_digits|apply (digits_from_pretty n "")].
  rewrite pretty_N_go_step by lia. by apply pretty_N_go_cons.
Qed.

(** The decimal text of an integer: its digits, after a sign. *)
Lemma pretty_Z_text (z : Z) :
  ∃ ds, ds ≠ [] ∧ Forall (λ c, is_digit c = true) ds
    ∧ (bytes_of (pretty z) = ds ∧ digits_value ds = z ∨ bytes_of (pretty z) = "-"%char :: ds ∧ (- digits_value ds)%Z = z).
Proof.
  destruct z as [|p|p].
  - exists ["0"%char]. split_and!; [done|by repeat constructor|by left].
  - destruct (pretty_N_text (Npos p)) as (H1 & H2 & H3). eexists. split_and!; [exact H1|exact H2|left]. by split.
  - destruct (pretty_N_text (Npos p)) as (H1 & H2 & H3). eexists. split_and!; [exact H1|exact H2|right].
    split; [done|]. rewrite H3. done.
Qed.

(** [strconv.FormatInt] in base ten. *)
Definition FormatInt (z : Z) : bytes :=
  if (z <? 0)%Z then "-"%char :: bytes_of (pretty (Z.to_N (- z))) else bytes_of (pretty (Z.to_N z)).

Lemma FormatInt_digits z :
  ∃ ds, ds ≠ [] ∧ Forall (λ c, is_digit c = true) ds ∧ digits_value ds = Z.abs z
    ∧ FormatInt z = (if (z <? 0)%Z then "-"%char :: ds else ds).
Proof.
  unfold FormatInt. destruct (z <? 0)%Z eqn:E; [apply Z.ltb_lt in E|apply Z.ltb_ge in E].
  - destruct (pretty_N_text (Z.to_N (- z))) as (H1 & H2 & H3). eexists. split_and!; [exact H1|exact H2|rewrite H3; lia|done].
  - destruct (pretty_N_text (Z.to_N z)) as (H1 & H2 & H3). eexists. split_and!; [exact H1|exact H2|rewrite H3; lia|done].
Qed.

(** [strconv.Atoi], and [strconv.ParseInt] in base ten with 64 bits. *)
Definition Atoi (s : bytes) : option Z :=
  let '(negative, ds) := match s with "-"%char :: ds => (true, ds) | "+"%char :: ds => (false, ds) | _ => (false, s) end in
  if is_nil ds || negb (all is_digit ds) then None
  else
    let z := if negative : bool then (- digits_value ds)%Z else digits_value ds in
    if ((- 2 ^ 63 <=? z) && (z <? 2 ^ 63))%Z then Some z else None.

(** ** The value of digits *)

Definition all_digits (ds : bytes) : Prop := Forall (λ c, is_digit c = true) ds.

Definition digit_value (c : ascii) : Z := Z.of_N (N_of_ascii c) - 48.

Lemma digit_range c : is_digit c = true → (0 ≤ digit_value c ≤ 9)%Z.
Proof.
  unfold is_digit, within, digit_value. rewrite andb_true_iff, !N.leb_le.
  change (N_of_ascii "0") with 48%N. change (N_of_ascii "9") with 57%N. lia.
Qed.

Lemma digits_from_app n ds es : digits_from n (ds ++ es) = digits_from (digits_from n ds) es.
Proof. apply fold_left_app. Qed.

Lemma digits_from_shift n ds : digits_from n ds = (n * 10 ^ Z.of_nat (length ds) + digits_value ds)%Z.
Proof.
  revert n. induction ds as [|c ds IH]; intros n; cbn [length]; [cbn; lia|].
  change (digits_from (n * 10 + digit_value c) ds = n * 10 ^ Z.of_nat (S (length ds)) + digits_from (0 * 10 + digit_value c) ds)%Z.
  rewrite !IH, Nat2Z.inj_succ, Z.pow_succ_r by lia. lia.
Qed.

Lemma digits_value_app ds es : digits_value (ds ++ es) = (digits_value ds * 10 ^ Z.of_nat (length es) + digits_value es)%Z.
Proof. change (digits_from 0 (ds ++ es) = digits_from 0 ds * 10 ^ Z.of_nat (length es) + digits_value es)%Z. by rewrite digits_from_app, digits_from_shift. Qed.

Lemma digits_value_cons c ds : digits_value (c :: ds) = (digit_value c * 10 ^ Z.of_nat (length ds) + digits_value ds)%Z.
Proof. rewrite (digits_value_app [c] ds : digits_value (c :: ds) = _). f_equal. Qed.

Lemma pow10_pos n : (0 < 10 ^ Z.of_nat n)%Z.
Proof. apply Z.pow_pos_nonneg; lia. Qed.

Lemma digits_value_bound ds : all_digits ds → (0 ≤ digits_value ds < 10 ^ Z.of_nat (length ds))%Z.
Proof.
  induction 1 as [|c ds Hc _ IH]; [by cbn|]. rewrite digits_value_cons. cbn [length].
  rewrite Nat2Z.inj_succ, Z.pow_succ_r by lia. pose proof (digit_range c Hc). pose proof (pow10_pos (length ds)). nia.
Qed.

Lemma digits_value_zeros n : digits_value (replicate n "0"%char) = 0%Z.
Proof. induction n as [|n IH]; [done|]. cbn [replicate]. rewrite digits_value_cons, IH. done. Qed.

Lemma all_digits_zeros n : all_digits (replicate n "0"%char).
Proof. by apply Forall_replicate. Qed.

(** Digits that do not start with a zero. *)
Lemma digits_value_lead c ds :
  is_digit c = true → c ≠ "0"%char → all_digits ds → (10 ^ Z.of_nat (length ds) ≤ digits_value (c :: ds))%Z.
Proof.
  intros Hc Hne Hd. rewrite digits_value_cons. pose proof (digit_range c Hc). pose proof (digits_value_bound ds Hd).
  pose proof (pow10_pos (length ds)). assert (digit_value c ≠ 0)%Z; [|nia].
  unfold digit_value. intros E. apply Hne. rewrite <-(ascii_N_embedding c). replace (N_of_ascii c) with 48%N by lia. done.
Qed.

(** Digits that do not end with a zero are not worth nothing. *)
Lemma digits_value_last ds c : is_digit c = true → c ≠ "0"%char → all_digits ds → (0 < digits_value (ds ++ [c]))%Z.
Proof.
  intros Hc Hne Hd. rewrite digits_value_app. pose proof (digits_value_bound ds Hd).
  pose proof (digits_value_lead c [] Hc Hne ltac:(constructor)). cbn [length Z.of_nat] in *. lia.
Qed.

(** ** The order of digits *)

(** [strings.Compare]. *)
Fixpoint Compare (a b : bytes) : Z :=
  match a, b with
  | [], [] => 0
  | [], _ => -1
  | _, [] => 1
  | x :: a, y :: b =>
      match (N_of_ascii x ?= N_of_ascii y)%N with
      | Lt => -1
      | Gt => 1
      | Eq => Compare a b
      end
  end.

Lemma Compare_sym a b : Compare b a = (- Compare a b)%Z.
Proof.
  revert b. induction a as [|x a IH]; intros [|y b]; try done. cbn [Compare].
  rewrite N.compare_antisym. destruct (N_of_ascii x ?= N_of_ascii y)%N; cbn [CompOpp]; [apply IH|done..].
Qed.

(** Digits without a zero at their end compare as the fractions they are after a point. *)
Definition solid_end (ds : bytes) : Prop := ∀ c, last ds = Some c → c ≠ "0"%char.

Lemma solid_end_tail c ds : solid_end (c :: ds) → solid_end ds.
Proof. intros H d Hd. apply H. by destruct ds. Qed.

Lemma solid_end_positive ds : all_digits ds → solid_end ds → ds ≠ [] → (0 < digits_value ds)%Z.
Proof.
  intros Hd Hs Hne. destruct (exists_last Hne) as (es & c & ->). apply Forall_app in Hd as [Hd Hc].
  apply digits_value_last; [by apply Forall_inv in Hc| |done]. apply Hs. by rewrite last_snoc.
Qed.

Lemma Compare_fraction a b k :
  all_digits a → all_digits b → solid_end b → length b = length a + k →
  Compare a b = Z.sgn (digits_value (a ++ replicate k "0"%char) - digits_value b).
Proof.
  intros Ha. revert b k. induction Ha as [|x a Hx Ha IH]; intros b k Hb Hs Hl.
  - cbn [app length] in *. rewrite digits_value_zeros. destruct b as [|y b]; [done|].
    pose proof (solid_end_positive _ Hb Hs ltac:(done)). cbn [Compare]. rewrite Z.sgn_neg; lia.
  - destruct b as [|y b]; [done|]. apply Forall_cons in Hb as [Hy Hb]. cbn [length Nat.add] in Hl. injection Hl as Hl.
    cbn [Compare app]. rewrite !digits_value_cons, length_app, length_replicate, <-Hl.
    pose proof (digits_value_bound b Hb). assert (Ha' : all_digits (a ++ replicate k "0"%char)) by (apply Forall_app; split; [done|apply all_digits_zeros]).
    pose proof (digits_value_bound _ Ha') as Hab. rewrite length_app, length_replicate, <-Hl in Hab.
    pose proof (pow10_pos (length b)) as Hp. unfold digit_value.
    destruct (N.compare_spec (N_of_ascii x) (N_of_ascii y)) as [E|E|E].
    + rewrite E, (IH b k) by (try done; by eapply solid_end_tail). f_equal. lia.
    + rewrite Z.sgn_neg; [done|]. nia.
    + rewrite Z.sgn_pos; [done|]. nia.
Qed.

End Digits.
