(* ===== verification/JsonFields.v ===== *)
(** * Structs read by [json.Unmarshal]

    How [encoding/json] fills the fields of a struct: the keys of any letter case that name
    a field, the values it is set to one after the other, and fields of type [string]. *)
From S2P Require Import Prelude GoText Json Encoding.
Import GoText Encoding.

Module JsonFields.

(** [foldName]: a key of any letter case names the field; the two runes past ASCII that
    fold to a letter do too. *)
Definition fold_rune (r : N) : N :=
  if ((97 <=? r) && (r <=? 122))%N then (r - 32)%N
  else if eqb r 383%N then 83%N else if eqb r 8490%N then 75%N else r.
Definition folded (s : string) : list N := (λ rw, fold_rune rw.1) <$> runes (bytes_of s).

(** The values [json.Unmarshal] sets a struct field to, one after the other. *)
Definition values (name : string) (ms : list (bytes * Json.json)) : list Json.json :=
  snd <$> List.filter (λ m, eqb (folded (Unquote m.1)) (folded name)) ms.

(** A field of type [json.RawMessage]: the last value as it was written, none for a field that
    is absent. *)
Definition raw_text (v : Json.json) : bytes :=
  match v with
  | Json.JArr raw _ | Json.JObj raw _ => raw
  | v => Json.compact v
  end.

Definition raw_field (name : string) (ms : list (bytes * Json.json)) : bytes := default [] (raw_text <$> last (values name ms)).

(** A field of type [string]: null leaves it as it is, and a value of another type is an
    error. *)
Definition set_string (field : option string) (v : Json.json) : option string :=
  match v with
  | Json.JNull => field
  | Json.JStr body => (λ _, Unquote body) <$> field
  | _ => None
  end.

Definition string_field (name : string) (ms : list (bytes * Json.json)) : option string :=
  fold_left set_string (values name ms) (Some EmptyString).

(** The members of a document decoded into a struct; null is decoded into nothing. *)
Definition struct_members (b : bytes) : option (list (bytes * Json.json)) :=
  match Json.parse b with
  | Some Json.JNull => Some []
  | Some (Json.JObj _ ms) => Some ms
  | _ => None
  end.

(** Whether every number of a value is a [float64], as decoding into [any] demands. *)
Fixpoint numbers_fit (v : Json.json) : bool :=
  match v with
  | Json.JNum text => negb (more_than (ParseFloat text).2 (2 ^ 1024 - 1))
  | Json.JArr _ items => forallb numbers_fit items
  | Json.JObj _ ms => forallb (λ m, numbers_fit m.2) ms
  | _ => true
  end.

(** A value set by one after the other of the values given. *)
Definition set_all {A} (set : A → Json.json → option A) (field : A) (vs : list Json.json) : option A :=
  fold_left (λ o v, f ← o; set f v) vs (Some field).

Definition set_text (s : string) (v : Json.json) : option string := set_string (Some s) v.

Definition set_bool (b : bool) (v : Json.json) : option bool :=
  match v with
  | Json.JNull => Some b
  | Json.JBool b => Some b
  | _ => None
  end.

(** A slice as the decoder uses it again when a key is written twice: the cells of its array
    and how many of them are its elements; [None] is the nil slice. *)
Definition slice (A : Type) : Type := option (list A * nat).

Definition slice_cells {A} (s : slice A) : list A := default [] (fst <$> s).
Definition slice_elems {A} (s : slice A) : list A := match s with None => [] | Some (cs, n) => take n cs end.

Section slices.
Context {A : Type} (set : A → Json.json → option A) (zero : A).

(** The items of an array decoded into the cells in turn. *)
Fixpoint set_cells (old : list A) (items : list Json.json) : option (list A) :=
  match items with
  | [] => Some old
  | v :: items =>
      x ← set (default zero (head old)) v;
      rest ← set_cells (tail old) items;
      Some (x :: rest)
  end.

Definition set_slice (field : slice A) (v : Json.json) : option (slice A) :=
  match v with
  | Json.JNull => Some None
  | Json.JArr _ [] => Some (Some ([], 0))
  | Json.JArr _ items => (λ cs, Some (cs, length items)) <$> set_cells (slice_cells field) items
  | _ => None
  end.
End slices.

(** The check of [DisallowUnknownFields]. *)
Definition known_fields (names : list string) (ms : list (bytes * Json.json)) : bool :=
  all (λ m, List.existsb (λ n, eqb (folded (Unquote m.1)) (folded n)) names) ms.

(** The value [json.Decoder] reads first; what follows it is not read. *)
Definition decode_first (b : bytes) : option Json.json :=
  fst <$> Json.value (2 + 2 * length b) Json.maxNestingDepth (Json.skip b).

(** Keys that name the field of a token, and a few that do not. *)
Example folded_keys :
  (λ k, eqb (folded k) (folded "access_token")) <$>
    ["access_token"; "ACCESS_Token"; "accessToken"; string_of (encode 383%N) +:+ "x"; "acce" +:+ string_of (encode 383%N ++ bytes_of "s_to" ++ encode 8490%N ++ bytes_of "en")]%string
  = [true; true; false; false; true].
Proof. vm_compute. reflexivity. Qed.

End JsonFields.
