(* ===== verification/GoCase.v ===== *)
(** * Letter case in Go strings

    What the code uses of [strings.ToLower], [strings.ToUpper] and [strings.EqualFold]: the
    case of a rune past ASCII is a table, and [EqualFold] is asked about ASCII words only, to
    which two runes past ASCII fold. *)
From S2P Require Import Prelude GoText Json Encoding JsonFields.
Import GoText JsonFields.

Module GoCase.

(** The tables of package unicode, for runes past U+007F. *)
Class CaseTable := {
  lower_table : N → N;
  upper_table : N → N;
}.

(** [strings.EqualFold(s, word)], [word] in ASCII. *)
Definition EqualFold (s word : bytes) : bool := eqb (folded (string_of s)) (folded (string_of word)).

Definition upper (c : ascii) : ascii := if within "a" c "z" then byte_of (N_of_ascii c - 32) else c.

Section case.
Context {case : CaseTable}.

Definition lower_rune (r : N) : N := if (r <? 128)%N then N_of_ascii (lower (byte_of r)) else lower_table r.
Definition upper_rune (r : N) : N := if (r <? 128)%N then N_of_ascii (upper (byte_of r)) else upper_table r.

(** [strings.Map] of a function that keeps every rune valid. *)
Definition map_runes (f : N → N) (s : bytes) : bytes := concat (map (λ rw, encode (f rw.1)) (runes s)).

Definition ToLower (s : bytes) : bytes := map_runes lower_rune s.
Definition ToUpper (s : bytes) : bytes := map_runes upper_rune s.
End case.

Definition is_ascii (s : bytes) : Prop := Forall (λ c, (N_of_ascii c < 128)%N) s.

Lemma runes_ascii s : is_ascii s → runes s = (λ c, (N_of_ascii c, [c])) <$> s.
Proof.
  unfold runes. intros H. induction H as [|c s Hc H IH]; [done|]. cbn [length decode DecodeRune].
  rewrite (proj2 (N.ltb_lt _ _) Hc). cbn. f_equal. exact IH.
Qed.

Lemma encode_ascii c : (N_of_ascii c < 128)%N → encode (N_of_ascii c) = [c].
Proof. intros H. unfold encode. rewrite (proj2 (N.ltb_lt _ _) H). unfold byte_of. by rewrite ascii_N_embedding. Qed.

(** ** Runes of a text that goes on with an ASCII byte *)

Definition starts_ascii (s : bytes) : Prop := ∀ c, head s = Some c → (N_of_ascii c < 128)%N.

Lemma continuation_app n bits s t : starts_ascii t → continuation n bits (s ++ t) = continuation n bits s.
Proof.
  intros Ht. revert bits s. induction n as [|n IH]; intros bits [|c s]; try done; cbn.
  - destruct t as [|c t]; [done|]. specialize (Ht c eq_refl). cbn. unfold byte_in.
    by rewrite (proj2 (N.leb_gt _ _) Ht).
  - by rewrite IH.
Qed.

Lemma DecodeRune_app c s t : starts_ascii t → DecodeRune (c :: s ++ t) = DecodeRune (c :: s).
Proof.
  intros Ht. cbn [DecodeRune]. destruct (N_of_ascii c <? 128)%N; [done|].
  destruct (lead c) as [[[[n lo] hi] bits]|] eqn:El; [|by destruct s, t].
  destruct s as [|b s]; [|pose proof (continuation_app n bits (b :: s) t Ht) as H; cbn [app] in *; by rewrite H].
  destruct t as [|b t]; [done|]. cbn [app]. specialize (Ht b eq_refl).
  assert (byte_in lo hi b = false) as ->; [|done]. unfold byte_in.
  assert (H : (128 ≤ lo)%N).
  { unfold lead in El. repeat case_match; simplify_eq; lia. }
  by rewrite (proj2 (N.leb_gt _ _) (N.lt_le_trans _ _ _ Ht H)).
Qed.

Lemma continuation_length n bits s r : continuation n bits s = Some r → n ≤ length s.
Proof.
  revert bits s. induction n as [|n IH]; intros bits [|c s]; cbn; try done; try lia.
  case_match; [|done]. intros Hr%IH. lia.
Qed.

Lemma DecodeRune_width c s : 1 ≤ (DecodeRune (c :: s)).2 ≤ length (c :: s).
Proof.
  cbn [DecodeRune]. repeat case_match; cbn; try lia.
  match goal with H : continuation _ _ _ = Some _ |- _ => apply continuation_length in H; cbn in H; lia end.
Qed.

Lemma decode_fuel n m s : length s ≤ n → length s ≤ m → decode n s = decode m s.
Proof.
  revert m s. induction n as [|n IH]; intros [|m] [|c s] Hn Hm; cbn [length] in *; try done; try lia. cbn [decode].
  pose proof (DecodeRune_width c s) as Hw. destruct (DecodeRune (c :: s)) as [r w]. cbn in Hw. f_equal.
  assert (length (drop w (c :: s)) ≤ length s) by (rewrite length_drop; cbn; lia). apply IH; lia.
Qed.

Lemma runes_cons c s :
  runes (c :: s) = let '(r, w) := DecodeRune (c :: s) in (r, take w (c :: s)) :: runes (drop w (c :: s)).
Proof.
  pose proof (DecodeRune_width c s) as Hw. unfold runes. cbn [length decode].
  destruct (DecodeRune (c :: s)) as [r w]. cbn in Hw. f_equal. apply decode_fuel; [|done].
  rewrite length_drop. cbn. lia.
Qed.

Lemma runes_app s t : starts_ascii t → runes (s ++ t) = runes s ++ runes t.
Proof.
  intros Ht. induction s as [[|c s] IH] using length_ind; [done|]. cbn [app].
  rewrite !runes_cons, DecodeRune_app by done. pose proof (DecodeRune_width c s) as Hw.
  destruct (DecodeRune (c :: s)) as [r w]. cbn in Hw.
  change (c :: s ++ t) with ((c :: s) ++ t). rewrite take_app_le, drop_app_le by (cbn; lia).
  rewrite IH by (rewrite length_drop; cbn; lia). done.
Qed.

Lemma runes_ascii_app s t : is_ascii s → runes (s ++ t) = runes s ++ runes t.
Proof.
  intros H. induction H as [|c s Hc H IH]; [done|]. cbn [app]. rewrite !runes_cons. cbn [DecodeRune].
  rewrite (proj2 (N.ltb_lt _ _) Hc). cbn [take drop app]. rewrite !drop_0. f_equal. exact IH.
Qed.

Section ascii.
Context {case : CaseTable}.

Lemma map_runes_app f s t : starts_ascii t → map_runes f (s ++ t) = map_runes f s ++ map_runes f t.
Proof. intros H. unfold map_runes. by rewrite runes_app, map_app, concat_app. Qed.

Lemma map_runes_ascii f (g : ascii → ascii) s :
  is_ascii s → (∀ c, (N_of_ascii c < 128)%N → f (N_of_ascii c) = N_of_ascii (g c) ∧ (N_of_ascii (g c) < 128)%N) →
  map_runes f s = g <$> s.
Proof.
  intros H Hf. unfold map_runes. rewrite runes_ascii by done.
  induction H as [|c s Hc H IH]; [done|]. destruct (Hf c Hc) as [E Hg].
  cbn. rewrite E, encode_ascii by done. cbn. f_equal. exact IH.
Qed.

Lemma map_runes_ascii_app f s t : is_ascii s → map_runes f (s ++ t) = map_runes f s ++ map_runes f t.
Proof. intros H. unfold map_runes. by rewrite runes_ascii_app, map_app, concat_app. Qed.

Lemma lower_range c : (N_of_ascii c < 128)%N → (N_of_ascii (lower c) < 128)%N.
Proof. destruct c as [[] [] [] [] [] [] [] []]; vm_compute; intros; done. Qed.
Lemma upper_range c : (N_of_ascii c < 128)%N → (N_of_ascii (upper c) < 128)%N.
Proof. destruct c as [[] [] [] [] [] [] [] []]; vm_compute; intros; done. Qed.

Lemma ToLower_ascii s : is_ascii s → ToLower s = lower <$> s.
Proof.
  intros H. apply map_runes_ascii; [done|]. intros c Hc. unfold lower_rune, byte_of.
  rewrite (proj2 (N.ltb_lt _ _) Hc), ascii_N_embedding. by split; [|apply lower_range].
Qed.

Lemma ToUpper_ascii s : is_ascii s → ToUpper s = upper <$> s.
Proof.
  intros H. apply map_runes_ascii; [done|]. intros c Hc. unfold upper_rune, byte_of.
  rewrite (proj2 (N.ltb_lt _ _) Hc), ascii_N_embedding. by split; [|apply upper_range].
Qed.
End ascii.

Lemma folded_length s : is_ascii s → length (folded (string_of s)) = length s.
Proof. intros H. unfold folded. by rewrite bytes_of_string_of, runes_ascii, !length_fmap. Qed.

Lemma is_ascii_by s : forallb (λ c, (N_of_ascii c <? 128)%N) s = true → is_ascii s.
Proof.
  intros H. apply Forall_forall. intros c Hc. rewrite forallb_forall in H.
  by apply N.ltb_lt, H, list_elem_of_In.
Qed.

(** A text longer than a word in ASCII it starts with does not fold to a shorter one. *)
Lemma EqualFold_longer p t w : is_ascii p → is_ascii w → length w < length p → EqualFold (p ++ t) w = false.
Proof.
  intros Hp Hw Hlt. apply eqb_false. intros E%(f_equal length). revert E.
  rewrite (folded_length w) by done. unfold folded. rewrite bytes_of_string_of, runes_ascii_app by done.
  rewrite fmap_app, length_app, length_fmap, runes_ascii, length_fmap by done. lia.
Qed.

(** The case of the letters of a text in Latin, for examples. *)
Definition latin_case : CaseTable :=
  {| lower_table r := if ((192 <=? r) && (r <? 223))%N then (r + 32)%N else if eqb r 304%N then 105%N else if eqb r 8490%N then 107%N else r;
     upper_table r := if ((224 <=? r) && (r <? 255))%N then (r - 32)%N else if eqb r 305%N then 73%N else if eqb r 383%N then 83%N else r |}.

Example case_examples :
  let case := latin_case in
  string_of <$> [ToUpper (bytes_of "Read-1"); ToLower (bytes_of "READ é"); ToUpper (encode 383%N ++ bytes_of "a")] = ["READ-1"; "read é"; "SA"]%string
  ∧ EqualFold (encode 383%N ++ bytes_of "ubject") (bytes_of "subject") = true.
Proof. split; vm_compute; reflexivity. Qed.

End GoCase.
