(* ===== verification/JsonText.v ===== *)
(** * Text written by Go's [encoding/json]

    How [json.Marshal] writes a string, and that the scanner and [json.Unmarshal] read it
    back: the text itself, with U+FFFD for each invalid byte. *)
From S2P Require Import Prelude GoText Json Encoding GoCase.
Import GoText Encoding GoCase.

Module JsonText.

(** A text after [json.Marshal] and [json.Unmarshal]: an invalid byte becomes U+FFFD. *)
Definition valid_rune (rw : N * bytes) : bytes := if eqb rw.1 RuneError && eqb (length rw.2) 1 then encode RuneError else rw.2.
Definition valid_text (s : bytes) : bytes := concat (map valid_rune (runes s)).

(** The letter of the short escapes. *)
Definition short_escape (r : N) : option ascii :=
  match r with
  | 8%N => Some "b"%char
  | 12%N => Some "f"%char
  | 10%N => Some "n"%char
  | 13%N => Some "r"%char
  | 9%N => Some "t"%char
  | 34%N => Some "034"%char
  | 92%N => Some "\"%char
  | _ => None
  end.

(** One rune of a string, decoded from the bytes [w], [hexed] the runes that are escaped by
    their number. *)
Definition write_rune (hexed : N → bool) (rw : N * bytes) : bytes :=
  let '(r, w) := rw in
  if eqb r RuneError && eqb (length w) 1 then bytes_of "\ufffd"
  else
    match short_escape r with
    | Some e => ["\"%char; e]
    | None => if hexed r then bytes_of "\u" ++ hex 4 r else w
    end.

(** The control characters, brackets and ampersands for HTML, and two line separators. *)
Definition hex_escaped (r : N) : bool :=
  (r <? 32)%N || eqb r 38%N || eqb r 60%N || eqb r 62%N || eqb r 8232%N || eqb r 8233%N.

(** Those of [SetEscapeHTML(false)]. *)
Definition plain_escaped (r : N) : bool := (r <? 32)%N || eqb r 8232%N || eqb r 8233%N.

Definition marshal_rune : N * bytes → bytes := write_rune hex_escaped.

Definition marshal_body (s : bytes) : bytes := concat (map marshal_rune (runes s)).
Definition marshal_string (s : string) : bytes := "034"%char :: marshal_body (bytes_of s) ++ ["034"%char].

Example marshal_examples :
  marshal_string (string_of (bytes_of "a<" ++ ["034"; "010"; "001"; "255"; "195"; "169"]%char))
  = "034"%char :: bytes_of "a\u003c\" ++ ["034"%char] ++ bytes_of "\n\u0001\ufffdé" ++ ["034"%char].
Proof. vm_compute. reflexivity. Qed.

(** ** Decoded runes *)

Lemma continuation_take n bits s t : n ≤ length s → continuation n bits (take n s ++ t) = continuation n bits s.
Proof.
  revert bits s. induction n as [|n IH]; intros bits [|c s] H; cbn in H |- *; try done; try lia. by rewrite IH by lia.
Qed.

(** A valid sequence is decoded alike whatever follows it. *)
Lemma DecodeRune_local c s t :
  let '(r, w) := DecodeRune (c :: s) in
  eqb r RuneError && eqb w 1 = false → DecodeRune (take w (c :: s) ++ t) = (r, w).
Proof.
  cbn [DecodeRune]. destruct (N_of_ascii c <? 128)%N eqn:Ec; [intros _; cbn; by rewrite Ec|].
  destruct (lead c) as [[[[n lo] hi] bits]|] eqn:El; [|done]. destruct s as [|b1 s]; [done|].
  destruct (byte_in lo hi b1) eqn:Eb; [|done]. destruct (continuation n bits (b1 :: s)) as [r|] eqn:Er; [|done].
  intros _. cbn [take app]. cbn [DecodeRune]. rewrite Ec, El.
  pose proof (continuation_length _ _ _ _ Er) as Hn. apply lead_past in El as (_ & _ & Hn').
  destruct n as [|n]; [lia|]. rewrite <-(continuation_take (S n) bits (b1 :: s) t) in Er by done.
  cbn [take app] in *. by rewrite Eb, Er.
Qed.

Lemma runes_split c s :
  ∃ r w, runes (c :: s) = (r, take w (c :: s)) :: runes (drop w (c :: s)) ∧ DecodeRune (c :: s) = (r, w) ∧ 1 ≤ w ≤ length (c :: s).
Proof.
  pose proof (DecodeRune_width c s) as Hw. rewrite runes_cons. destruct (DecodeRune (c :: s)) as [r w]. by exists r, w.
Qed.

Lemma valid_text_split c s r w :
  DecodeRune (c :: s) = (r, w) → valid_text (c :: s) = valid_rune (r, take w (c :: s)) ++ valid_text (drop w (c :: s)).
Proof. intros E. unfold valid_text. by rewrite runes_cons, E. Qed.

(** What a rune becomes is decoded to that rune, whatever follows. *)
Lemma valid_rune_decoded c s r w rest :
  DecodeRune (c :: s) = (r, w) →
  ∃ d v, valid_rune (r, take w (c :: s)) = d :: v ∧ DecodeRune (d :: v ++ rest) = (r, length (d :: v))
    ∧ eqb r RuneError && eqb (length (d :: v)) 1 = false.
Proof.
  intros Ed. pose proof (DecodeRune_width c s) as Hw. pose proof (DecodeRune_local c s rest) as Hl. rewrite Ed in Hw, Hl.
  unfold valid_rune. cbn [fst snd] in *.
  assert (Hlen : length (take w (c :: s)) = w) by (rewrite length_take; lia). rewrite Hlen.
  destruct (eqb r RuneError && eqb w 1) eqn:Ee.
  - apply andb_true_iff in Ee as [Hr _]. apply (proj1 (eqb_true _ _)) in Hr. subst r.
    exists "239"%char, ["191"; "189"]%char. split_and!; done.
  - destruct w as [|w]; [lia|]. exists c, (take w s). cbn [take app] in *. split; [done|].
    rewrite Hl by done. cbn [length] in *. split; [by f_equal|]. by rewrite Hlen.
Qed.

Lemma valid_text_idem s : valid_text (valid_text s) = valid_text s.
Proof.
  induction s as [[|c s] IH] using length_ind; [done|].
  destruct (runes_split c s) as (r & w & _ & Ed & Hw). rewrite (valid_text_split _ _ _ _ Ed).
  set (rest := valid_text (drop w (c :: s))).
  destruct (valid_rune_decoded c s r w rest Ed) as (d & v & Ev & Hd & Hne). rewrite Ev. cbn [app].
  rewrite (valid_text_split _ _ _ _ Hd).
  change (d :: v ++ rest) with ((d :: v) ++ rest). rewrite take_app_length, drop_app_length.
  unfold valid_rune at 1. cbn [fst snd]. rewrite Hne. cbn [app]. do 2 f_equal.
  subst rest. apply IH. rewrite length_drop. cbn. cbn in Hw. lia.
Qed.

(** A valid text is one a text may start with. *)
Lemma valid_text_app s t : valid_text s = s → valid_text (s ++ t) = s ++ valid_text t.
Proof.
  revert t. induction s as [[|c s] IH] using length_ind; intros t Hs; [done|].
  destruct (runes_split c s) as (r & w & _ & Ed & Hw). rewrite (valid_text_split _ _ _ _ Ed) in Hs.
  destruct (valid_rune_decoded c s r w (valid_text (drop w (c :: s))) Ed) as (d & v & Ev & Hd & Hne). rewrite Ev in Hs. cbn [app] in Hs.
  rewrite Hs, Ed in Hd. injection Hd as Ew. change (length (d :: v)) with (S (length v)) in Hne. rewrite <-Ew in Hne.
  assert (Et : take w (c :: s) = d :: v) by (unfold valid_rune in Ev; cbn [fst snd] in Ev; rewrite length_take, Nat.min_l in Ev by lia; by rewrite Hne in Ev).
  assert (Er : valid_text (drop w (c :: s)) = drop w (c :: s)).
  { apply (app_inv_head (d :: v)). cbn [app]. rewrite Hs, <-(take_drop w (c :: s)) at 1. by rewrite Et. }
  pose proof (DecodeRune_local c s (drop w (c :: s) ++ t)) as Hl. rewrite Ed in Hl. specialize (Hl Hne).
  rewrite (assoc_L (++)), take_drop in Hl. cbn [app] in *. rewrite (valid_text_split _ _ _ _ Hl).
  change (c :: s ++ t) with ((c :: s) ++ t). rewrite take_app_le, drop_app_le by lia. rewrite IH; [|rewrite length_drop; cbn; cbn in Hw; lia|done].
  rewrite Ev, <-Et, (assoc_L (++)), take_drop. done.
Qed.

(** A string written and read back. *)
Definition wire_text (s : string) : string := string_of (valid_text (bytes_of s)).
Lemma tail_byte lo hi c : byte_in lo hi c = true → (128 ≤ lo)%N → (hi ≤ 191)%N → byte_of (128 + tail_bits c) = c ∧ (tail_bits c < 64)%N ∧ (lo - 128 ≤ tail_bits c)%N.
Proof.
  unfold byte_in, tail_bits, byte_of. rewrite andb_true_iff, !N.leb_le. intros [H1 H2] Hlo Hhi.
  replace (128 + (N_of_ascii c - 128))%N with (N_of_ascii c) by lia. rewrite ascii_N_embedding. split_and!; [done|lia..].
Qed.

Lemma byte_N c n : N_of_ascii c = n → byte_of n = c.
Proof. intros <-. apply ascii_N_embedding. Qed.

(** The bits of the byte a sequence starts with, and its second byte. *)
Lemma lead_bits c n lo hi bits :
  lead c = Some (n, lo, hi, bits) →
  (128 ≤ lo)%N ∧ (hi ≤ 191)%N ∧
  (n = 1%nat ∧ N_of_ascii c = (192 + bits)%N ∧ (2 ≤ bits < 32)%N
   ∨ n = 2%nat ∧ N_of_ascii c = (224 + bits)%N ∧ (bits < 16)%N ∧ (bits = 0 → 160 ≤ lo)%N
   ∨ n = 3%nat ∧ N_of_ascii c = (240 + bits)%N ∧ (bits < 5)%N ∧ (bits = 0 → 144 ≤ lo)%N).
Proof.
  unfold lead, byte_in. repeat case_match; try done; intros [= <- <- <- <-]; bool_simp; split_and!; try lia.
Qed.

Lemma div_small a b q r : (r < b)%N → (a = q * b + r)%N → (a / b = q ∧ a mod b = r)%N.
Proof. intros Hr ->. split; [symmetry; apply (N.div_unique _ _ _ r); lia|symmetry; apply (N.mod_unique _ _ q); lia]. Qed.

Lemma continuation_S n bits c s : byte_in 128 191 c = true → continuation (S n) bits (c :: s) = continuation n (bits * 64 + tail_bits c) s.
Proof. intros H. cbn [continuation]. by rewrite H. Qed.

Lemma encode2 bits t : (2 ≤ bits < 32)%N → (t < 64)%N → encode (bits * 64 + t) = [byte_of (192 + bits); byte_of (128 + t)].
Proof.
  intros Hb Ht. unfold encode. destruct (div_small (bits * 64 + t) 64 bits t) as [E1 E2]; [done..|].
  rewrite (proj2 (N.ltb_ge _ _)), (proj2 (N.ltb_lt _ _)) by lia. by rewrite E1, E2.
Qed.

Lemma encode3 bits t u :
  (bits < 16)%N → (bits = 0 → 32 ≤ t)%N → (t < 64)%N → (u < 64)%N →
  encode ((bits * 64 + t) * 64 + u) = [byte_of (224 + bits); byte_of (128 + t); byte_of (128 + u)].
Proof.
  intros Hb H0 Ht Hu. unfold encode. set (r := ((bits * 64 + t) * 64 + u)%N).
  destruct (div_small r 64 (bits * 64 + t) u) as [E1 E2]; [done..|].
  destruct (div_small (bits * 64 + t) 64 bits t) as [E3 E4]; [done..|].
  destruct (div_small r 4096 bits (t * 64 + u)) as [E5 _]; [lia|unfold r; lia|].
  assert (Hr : (2048 ≤ r < 65536)%N).
  { unfold r. destruct (decide (bits = 0)%N) as [->|]; [specialize (H0 eq_refl)|]; lia. }
  rewrite !(proj2 (N.ltb_ge r _)), (proj2 (N.ltb_lt r 65536)) by lia. by rewrite E1, E2, E4, E5.
Qed.

Lemma encode4 bits t u v :
  (bits < 8)%N → (bits = 0 → 16 ≤ t)%N → (t < 64)%N → (u < 64)%N → (v < 64)%N →
  encode (((bits * 64 + t) * 64 + u) * 64 + v) = [byte_of (240 + bits); byte_of (128 + t); byte_of (128 + u); byte_of (128 + v)].
Proof.
  intros Hb H0 Ht Hu Hv. unfold encode. set (r := (((bits * 64 + t) * 64 + u) * 64 + v)%N).
  destruct (div_small r 64 ((bits * 64 + t) * 64 + u) v) as [E1 E2]; [done..|].
  destruct (div_small ((bits * 64 + t) * 64 + u) 64 (bits * 64 + t) u) as [E3 E4]; [done..|].
  destruct (div_small r 4096 (bits * 64 + t) (u * 64 + v)) as [E5 _]; [lia|unfold r; lia|].
  destruct (div_small (bits * 64 + t) 64 bits t) as [E6 E7]; [done..|].
  destruct (div_small r 262144 bits ((t * 64 + u) * 64 + v)) as [E8 _]; [lia|unfold r; lia|].
  assert (Hr : (65536 ≤ r)%N).
  { unfold r. destruct (decide (bits = 0)%N) as [->|]; [specialize (H0 eq_refl)|]; lia. }
  rewrite !(proj2 (N.ltb_ge r _)) by lia. by rewrite E1, E2, E4, E5, E7, E8.
Qed.

(** A rune decoded from valid bytes is encoded as those bytes. *)
Lemma encode_DecodeRune c s r w :
  DecodeRune (c :: s) = (r, w) → eqb r RuneError && eqb w 1 = false → encode r = take w (c :: s).
Proof.
  cbn [DecodeRune]. destruct (N_of_ascii c <? 128)%N eqn:Ec.
  { intros [= <- <-] _. apply encode_ascii. by apply N.ltb_lt. }
  destruct (lead c) as [[[[n lo] hi] bits]|] eqn:El; [|by intros [= <- <-]].
  destruct s as [|b1 s]; [by intros [= <- <-]|]. destruct (byte_in lo hi b1) eqn:Eb; [|by intros [= <- <-]].
  destruct (continuation n bits (b1 :: s)) as [r'|] eqn:Er; [|by intros [= <- <-]]. intros [= <- <-] _.
  apply lead_bits in El as (Hlo & Hhi & Hn). destruct (tail_byte _ _ _ Eb Hlo Hhi) as (Eb1 & Ht1 & Hlow).
  assert (Hb1 : byte_in 128 191 b1 = true).
  { unfold byte_in in *. rewrite andb_true_iff, !N.leb_le in *. lia. }
  destruct Hn as [(-> & Hc & Hb)|[(-> & Hc & Hb & H0)|(-> & Hc & Hb & H0)]];
    rewrite continuation_S in Er by done; symmetry in Hc.
  - injection Er as <-. rewrite encode2 by done. cbn. by rewrite Eb1, <-(byte_N c _ (eq_sym Hc)).
  - destruct s as [|b2 s]; [done|]. destruct (byte_in 128 191 b2) eqn:Hb2; [|by cbn in Er; rewrite Hb2 in Er].
    rewrite continuation_S in Er by done. injection Er as <-.
    destruct (tail_byte _ _ _ Hb2) as (Eb2 & Ht2 & _); [done..|].
    rewrite encode3 by (done || (intros; lia)). cbn. by rewrite Eb1, Eb2, <-(byte_N c _ (eq_sym Hc)).
  - destruct s as [|b2 s]; [done|]. destruct (byte_in 128 191 b2) eqn:Hb2; [|by cbn in Er; rewrite Hb2 in Er].
    rewrite continuation_S in Er by done.
    destruct s as [|b3 s]; [done|]. destruct (byte_in 128 191 b3) eqn:Hb3; [|by cbn in Er; rewrite Hb3 in Er].
    rewrite continuation_S in Er by done. injection Er as <-.
    destruct (tail_byte _ _ _ Hb2) as (Eb2 & Ht2 & _); [done..|]. destruct (tail_byte _ _ _ Hb3) as (Eb3 & Ht3 & _); [done..|].
    rewrite encode4 by (done || lia || (intros; lia)). cbn. by rewrite Eb1, Eb2, Eb3, <-(byte_N c _ (eq_sym Hc)).
Qed.

(** ** What is written is read back *)

Definition four_digits (r : N) : bool :=
  match hex 4 r with
  | [a; b; c; d] => all Json.is_hex [a; b; c; d] && (u4 a b c d =? r)%N && negb (surrogate r)
  | _ => false
  end.

Lemma hex_escaped_digits r :
  hex_escaped r = true →
  ∃ a b c d, hex 4 r = [a; b; c; d] ∧ all Json.is_hex [a; b; c; d] = true ∧ u4 a b c d = r ∧ surrogate r = false.
Proof.
  intros H. assert (Hf : four_digits r = true).
  { unfold hex_escaped in H. rewrite !orb_true_iff, N.ltb_lt, !eqb_true in H.
    assert (Hall : forallb four_digits ((N.of_nat <$> seq 0 32) ++ [38; 60; 62; 8232; 8233]%N) = true) by by vm_compute.
    rewrite forallb_forall in Hall. apply Hall, list_elem_of_In, elem_of_app.
    destruct H as [[[[[H|H]|H]|H]|H]|H]; [left|right; subst; apply (bool_decide_unpack _); by vm_compute..].
    apply list_elem_of_fmap. exists (N.to_nat r). split; [lia|]. apply elem_of_seq. lia. }
  unfold four_digits in Hf. destruct (hex 4 r) as [|a [|b [|c [|d [|]]]]]; try done.
  rewrite !andb_true_iff, negb_true_iff, N.eqb_eq in Hf. destruct Hf as [[? ?] ?]. by exists a, b, c, d.
Qed.

(** The forms of a written rune: an escape of one letter, one of four digits that names it,
    or its bytes. *)
Inductive written (rw : N * bytes) : bytes → Prop :=
  | written_escape e : Json.is_escape e = true → valid_rune rw = [escaped e] → written rw ["\"%char; e]
  | written_digits a b c d :
      all Json.is_hex [a; b; c; d] = true → surrogate (u4 a b c d) = false → valid_rune rw = encode (u4 a b c d) →
      written rw ["\"; "u"; a; b; c; d]%char
  | written_bytes :
      Forall (λ c, c ≠ "034"%char ∧ c ≠ "\"%char ∧ (32 ≤ N_of_ascii c)%N) rw.2 → valid_rune rw = rw.2 → written rw rw.2.

Lemma write_written hexed c s r w :
  (∀ r, hexed r = true → hex_escaped r = true) → (∀ r, (r < 32)%N → hexed r = true) →
  DecodeRune (c :: s) = (r, w) → written (r, take w (c :: s)) (write_rune hexed (r, take w (c :: s))).
Proof.
  intros Hhex Hlow Ed. pose proof (DecodeRune_width c s) as Hw. pose proof (DecodeRune_bytes c s) as Hb. rewrite Ed in Hw, Hb.
  destruct Hb as [_ Hb]. cbn [snd] in Hw. unfold write_rune.
  assert (Hlen : length (take w (c :: s)) = w) by (rewrite length_take; lia). rewrite Hlen.
  destruct (eqb r RuneError && eqb w 1) eqn:Ee.
  { apply (written_digits _ "f" "f" "f" "d"); [done..|]. unfold valid_rune. cbn [fst snd]. by rewrite Hlen, Ee. }
  assert (Hv : valid_rune (r, take w (c :: s)) = take w (c :: s)) by (unfold valid_rune; cbn [fst snd]; by rewrite Hlen, Ee).
  pose proof (encode_DecodeRune _ _ _ _ Ed Ee) as Henc.
  destruct (short_escape r) as [e|] eqn:Es.
  { unfold short_escape in Es. apply written_escape; [|rewrite Hv, <-Henc]; repeat case_match; simplify_eq; done. }
  destruct (hexed r) eqn:Eh.
  { destruct (hex_escaped_digits r (Hhex r Eh)) as (a & b & c' & d & -> & Hx & Hu & Hs).
    apply written_digits; [done|by rewrite Hu|by rewrite Hu, Hv, Henc]. }
  apply (written_bytes (r, take w (c :: s))); [|done]. destruct Hb as [(c' & -> & Hc & Hr)|[Hr Hb]]; cbn [fst snd] in *.
  - constructor; [|constructor]. subst r. split_and!; [by intros ->..|].
    destruct (decide (N_of_ascii c' < 32)%N) as [H|H]; [by rewrite Hlow in Eh|lia].
  - eapply Forall_impl; [exact Hb|]. intros x Hx. cbn beta in Hx. split_and!; [by intros ->..|lia].
Qed.

Lemma marshal_written c s r w :
  DecodeRune (c :: s) = (r, w) → written (r, take w (c :: s)) (marshal_rune (r, take w (c :: s))).
Proof.
  apply write_written; [done|]. intros x Hx. unfold hex_escaped. apply N.ltb_lt in Hx. by rewrite Hx.
Qed.

Lemma plain_written c s r w :
  DecodeRune (c :: s) = (r, w) → written (r, take w (c :: s)) (write_rune plain_escaped (r, take w (c :: s))).
Proof.
  apply write_written.
  - intros x. unfold plain_escaped, hex_escaped. rewrite !orb_true_iff. tauto.
  - intros x Hx. unfold plain_escaped. apply N.ltb_lt in Hx. by rewrite Hx.
Qed.

Lemma scan_bytes w t :
  Forall (λ c, c ≠ "034"%char ∧ c ≠ "\"%char ∧ (32 ≤ N_of_ascii c)%N) w →
  Json.scan_string (w ++ t) = ('(body, rest) ← Json.scan_string t; Some (w ++ body, rest)).
Proof.
  induction 1 as [|c w (H1 & H2 & H3) Hw IH]; [cbn [app]; by destruct (Json.scan_string t) as [[]|]|].
  cbn [app Json.scan_string]. rewrite (proj2 (eqb_false c Json.quote)), (proj2 (eqb_false c Json.backslash)) by done.
  rewrite (proj2 (N.ltb_ge _ _) H3), IH. by destruct (Json.scan_string t) as [[]|].
Qed.

Lemma scan_written rw m t :
  written rw m → Json.scan_string (m ++ t) = ('(body, rest) ← Json.scan_string t; Some (m ++ body, rest)).
Proof.
  destruct 1 as [e He _|a b c d Hx _ _|Hb _]; [| |by apply scan_bytes]; cbn [app Json.scan_string].
  - change (eqb "\"%char Json.quote) with false. change (eqb "\"%char Json.backslash) with true. cbn iota. by rewrite He.
  - change (eqb "\"%char Json.quote) with false. change (eqb "\"%char Json.backslash) with true.
    change (Json.is_escape "u") with false. change (eqb "u"%char "u"%char) with true. cbn iota. by rewrite Hx.
Qed.

Lemma unquote_fuel n m s : length s ≤ n → length s ≤ m → unquote n s = unquote m s.
Proof.
  revert m s. induction n as [|n IH]; intros [|m] [|c s] Hn Hm; cbn [length] in *; try done; try lia. cbn [unquote].
  pose proof (DecodeRune_width c s) as Hw. destruct (DecodeRune (c :: s)) as [r w]. cbn [snd] in Hw.
  repeat case_match; try done; f_equal; apply IH; rewrite ?length_drop; cbn [length] in *; lia.
Qed.

Lemma unquote_enough n s : length s ≤ n → unquote n s = unquote (length s) s.
Proof. intros H. by apply unquote_fuel. Qed.

Lemma unquote_escape n f t : f ≠ "u"%char → unquote (S n) ("\"%char :: f :: t) = escaped f :: unquote n t.
Proof. intros H. cbn [unquote]. change (eqb "\"%char "\"%char) with true. by rewrite (proj2 (eqb_false f "u"%char)) by done. Qed.

Lemma unquote_digits n a b c d t :
  surrogate (u4 a b c d) = false → unquote (S n) ("\"%char :: "u"%char :: a :: b :: c :: d :: t) = encode (u4 a b c d) ++ unquote n t.
Proof. intros H. cbn [unquote]. change (eqb "\"%char "\"%char) with true. change (eqb "u"%char "u"%char) with true. cbn iota. by rewrite H. Qed.

Lemma unquote_plain n c s :
  c ≠ "\"%char → unquote (S n) (c :: s) = let '(r, w) := DecodeRune (c :: s) in encode r ++ unquote n (drop w (c :: s)).
Proof. intros H. cbn [unquote]. by rewrite (proj2 (eqb_false c "\"%char)) by done. Qed.

(** A writer that gives every rune one of its forms: what it writes is read to its end, and as
    the text it was, its invalid bytes replaced. *)
Section writer.
Variable write : N * bytes → bytes.
Hypothesis Hwrite : ∀ c s r w, DecodeRune (c :: s) = (r, w) → written (r, take w (c :: s)) (write (r, take w (c :: s))).

Definition body (s : bytes) : bytes := concat (map write (runes s)).

Lemma body_split c s r w :
  DecodeRune (c :: s) = (r, w) → body (c :: s) = write (r, take w (c :: s)) ++ body (drop w (c :: s)).
Proof. intros E. unfold body. by rewrite runes_cons, E. Qed.

Lemma scan_body s t : Json.scan_string (body s ++ "034"%char :: t) = Some (body s, t).
Proof.
  induction s as [[|c s] IH] using length_ind; [done|]. destruct (runes_split c s) as (r & w & _ & Ed & Hw).
  rewrite (body_split _ _ _ _ Ed), <-(assoc_L (++)), (scan_written _ _ _ (Hwrite _ _ _ _ Ed)), IH; [done|].
  rewrite length_drop. cbn. cbn in Hw. lia.
Qed.

Lemma unquote_written c s r w t :
  DecodeRune (c :: s) = (r, w) →
  let m := write (r, take w (c :: s)) in
  unquote (length (m ++ t)) (m ++ t) = valid_rune (r, take w (c :: s)) ++ unquote (length t) t.
Proof.
  intros Ed m. destruct (Hwrite _ _ _ _ Ed) as [e He Hv|a b c' d Hx Hs Hv|Hb Hv]; subst m; rewrite Hv.
  - cbn [app length]. rewrite unquote_escape by by intros ->. by rewrite (unquote_enough (S (length t))) by lia.
  - cbn [app length]. rewrite unquote_digits by done. by rewrite (unquote_enough (S (S (S (S (S (length t))))))) by lia.
  - destruct (valid_rune_decoded c s r w t Ed) as (x & v & Ev & Hd & He). rewrite Hv in Ev. cbn [snd] in *. rewrite Ev in *.
    apply Forall_inv in Hb as (_ & Hbs & _). cbn [app length]. rewrite unquote_plain, Hd by done.
    rewrite (encode_DecodeRune _ _ _ _ Hd He). change (x :: v ++ t) with ((x :: v) ++ t). rewrite take_app_length, drop_app_length.
    by rewrite (unquote_enough (length (v ++ t))) by (rewrite length_app; lia).
Qed.

Lemma Unquote_body s : Unquote (body s) = string_of (valid_text s).
Proof.
  unfold Unquote. f_equal. induction s as [[|c s] IH] using length_ind; [done|].
  destruct (runes_split c s) as (r & w & _ & Ed & Hw).
  rewrite (body_split _ _ _ _ Ed), (unquote_written _ _ _ _ _ Ed), (valid_text_split _ _ _ _ Ed), IH; [done|].
  rewrite length_drop. cbn. cbn in Hw. lia.
Qed.
End writer.

Lemma scan_marshal s t : Json.scan_string (marshal_body s ++ "034"%char :: t) = Some (marshal_body s, t).
Proof. exact (scan_body _ marshal_written s t). Qed.

Lemma Unquote_marshal s : Unquote (marshal_body s) = string_of (valid_text s).
Proof. exact (Unquote_body _ marshal_written s). Qed.

(** ** Valid runes are decoded as encoded *)

(** A code point that is no surrogate. *)
Definition valid_code (r : N) : Prop := ((r < 55296 ∨ 57344 ≤ r) ∧ r < 1114112)%N.

Lemma byte_in_true lo hi c : (lo ≤ N_of_ascii c ≤ hi)%N → byte_in lo hi c = true.
Proof. intros H. unfold byte_in. rewrite andb_true_iff, !N.leb_le. lia. Qed.
Lemma byte_in_false lo hi c : (N_of_ascii c < lo ∨ hi < N_of_ascii c)%N → byte_in lo hi c = false.
Proof. intros H. unfold byte_in. rewrite andb_false_iff, !N.leb_gt. lia. Qed.
Lemma eqb_N_false (a b : N) : a ≠ b → eqb a b = false.
Proof. apply eqb_false. Qed.

Lemma lead2 c b : N_of_ascii c = (192 + b)%N → (2 ≤ b < 32)%N → lead c = Some (1%nat, 128, 191, b)%N.
Proof. intros Hc Hb. unfold lead. rewrite byte_in_true by lia. rewrite Hc. do 2 f_equal. lia. Qed.

Lemma lead3 c b :
  N_of_ascii c = (224 + b)%N → (b < 16)%N →
  lead c = Some (2%nat, if decide (b = 0) then 160 else 128, if decide (b = 13) then 159 else 191, b)%N.
Proof.
  intros Hc Hb. unfold lead. rewrite byte_in_false by lia. rewrite Hc.
  destruct (decide (b = 0)%N) as [->|H0]; [reflexivity|]. rewrite (eqb_N_false _ 224) by lia.
  destruct (decide (b = 13)%N) as [->|H1]; [reflexivity|]. rewrite (eqb_N_false _ 237) by lia.
  rewrite byte_in_true by lia. do 2 f_equal. lia.
Qed.

Lemma lead4 c b :
  N_of_ascii c = (240 + b)%N → (b < 5)%N →
  lead c = Some (3%nat, if decide (b = 0) then 144 else 128, if decide (b = 4) then 143 else 191, b)%N.
Proof.
  intros Hc Hb. unfold lead. rewrite byte_in_false by lia. rewrite (eqb_N_false _ 224), (eqb_N_false _ 237) by lia.
  rewrite byte_in_false by lia. rewrite Hc. destruct (decide (b = 0)%N) as [->|H0]; [reflexivity|]. rewrite (eqb_N_false _ 240) by lia.
  destruct (decide (b = 4)%N) as [->|H1]; [by rewrite byte_in_false by lia|]. rewrite byte_in_true by lia. do 2 f_equal. lia.
Qed.

Lemma tail_code t : (t < 64)%N → N_of_ascii (byte_of (128 + t)) = (128 + t)%N.
Proof. intros. apply byte_of_N. lia. Qed.

Lemma tail_bits_code t : (t < 64)%N → tail_bits (byte_of (128 + t)) = t.
Proof. intros H. unfold tail_bits. rewrite tail_code by done. lia. Qed.

Lemma split64 r : ∃ b t, r = (b * 64 + t)%N ∧ (t < 64)%N.
Proof. exists (r / 64)%N, (r mod 64)%N. pose proof (N.div_mod' r 64). pose proof (N.mod_lt r 64 ltac:(done)). lia. Qed.

Lemma DecodeRune_encode r t :
  valid_code r → ∃ c v, encode r = c :: v ∧ DecodeRune (c :: v ++ t) = (r, length (c :: v)) ∧ eqb r RuneError && eqb (length (c :: v)) 1 = false.
Proof.
  intros [Hs Hr]. destruct (decide (r < 128)%N) as [H1|H1].
  { exists (byte_of r), []. unfold encode. rewrite (proj2 (N.ltb_lt _ _) H1). split; [done|]. cbn [app DecodeRune length].
    rewrite byte_of_N by lia. rewrite (proj2 (N.ltb_lt _ _) H1). split; [done|]. rewrite (eqb_N_false r) by (unfold RuneError; lia). done. }
  destruct (split64 r) as (q & x & -> & Hx).
  destruct (decide (q * 64 + x < 2048)%N) as [H2|H2].
  { assert (Hc : N_of_ascii (byte_of (192 + q)) = (192 + q)%N) by (apply byte_of_N; lia).
    exists (byte_of (192 + q)), [byte_of (128 + x)]. rewrite encode2 by lia. split; [done|]. cbn [app DecodeRune].
    rewrite Hc, (proj2 (N.ltb_ge _ _)) by lia. rewrite (lead2 _ q) by (done || lia).
    rewrite byte_in_true by (rewrite tail_code by done; lia). cbn [continuation]. rewrite byte_in_true by (rewrite tail_code by done; lia).
    rewrite tail_bits_code by done. split; [done|]. by rewrite andb_false_r. }
  destruct (split64 q) as (p & y & -> & Hy).
  destruct (decide ((p * 64 + y) * 64 + x < 65536)%N) as [H3|H3].
  { assert (Hc : N_of_ascii (byte_of (224 + p)) = (224 + p)%N) by (apply byte_of_N; lia).
    exists (byte_of (224 + p)), [byte_of (128 + y); byte_of (128 + x)]. rewrite encode3 by lia. split; [done|]. cbn [app DecodeRune].
    rewrite Hc, (proj2 (N.ltb_ge _ _)) by lia. rewrite (lead3 _ p) by (done || lia).
    rewrite byte_in_true by (rewrite tail_code by done; repeat case_decide; lia). cbn [continuation].
    rewrite !byte_in_true by (rewrite tail_code by done; lia). rewrite !tail_bits_code by done. split; [done|]. by rewrite andb_false_r. }
  destruct (split64 p) as (o & z & -> & Hz).
  assert (Hc : N_of_ascii (byte_of (240 + o)) = (240 + o)%N) by (apply byte_of_N; lia).
  exists (byte_of (240 + o)), [byte_of (128 + z); byte_of (128 + y); byte_of (128 + x)]. rewrite encode4 by lia. split; [done|]. cbn [app DecodeRune].
  rewrite Hc, (proj2 (N.ltb_ge _ _)) by lia. rewrite (lead4 _ o) by (done || lia).
  rewrite byte_in_true by (rewrite tail_code by done; repeat case_decide; lia). cbn [continuation].
  rewrite !byte_in_true by (rewrite tail_code by done; lia). rewrite !tail_bits_code by done. split; [done|]. by rewrite andb_false_r.
Qed.

(** A text of encoded valid runes is valid. *)
Lemma valid_text_encoded rs : Forall valid_code rs → valid_text (concat (encode <$> rs)) = concat (encode <$> rs).
Proof.
  induction 1 as [|r rs Hr H IH]; [done|]. cbn [fmap list_fmap concat].
  destruct (DecodeRune_encode r (concat (encode <$> rs)) Hr) as (c & v & -> & Hd & He). cbn [app].
  rewrite (valid_text_split _ _ _ _ Hd). change (c :: v ++ ?x) with ((c :: v) ++ x). rewrite take_app_length, drop_app_length, IH.
  unfold valid_rune. cbn [fst snd]. by rewrite He.
Qed.

Lemma lead_high c n lo hi bits :
  lead c = Some (n, lo, hi, bits) → (n = 2%nat → bits = 13 → hi ≤ 159)%N ∧ (n = 3%nat → bits = 4 → hi ≤ 143)%N.
Proof. unfold lead, byte_in. repeat case_match; try done; intros [= <- <- <- <-]; bool_simp; split; intros; lia. Qed.

Lemma tail_high lo hi c : byte_in lo hi c = true → (128 ≤ lo)%N → (tail_bits c ≤ hi - 128)%N.
Proof. unfold byte_in, tail_bits. rewrite andb_true_iff, !N.leb_le. lia. Qed.

Lemma DecodeRune_valid s : valid_code (DecodeRune s).1.
Proof.
  assert (He : valid_code RuneError) by (unfold valid_code, RuneError; lia).
  destruct s as [|c s]; [done|]. cbn [DecodeRune]. destruct (N_of_ascii c <? 128)%N eqn:Ec.
  { apply N.ltb_lt in Ec. unfold valid_code. cbn. lia. }
  destruct (lead c) as [[[[n lo] hi] bits]|] eqn:El; [|done]. destruct s as [|b1 s]; [done|].
  destruct (byte_in lo hi b1) eqn:Eb; [|done]. destruct (continuation n bits (b1 :: s)) as [r|] eqn:Er; [|done]. cbn [fst].
  pose proof (lead_high _ _ _ _ _ El) as [Hh2 Hh3]. apply lead_bits in El as (Hlo & Hhi & Hn).
  destruct (tail_byte _ _ _ Eb Hlo Hhi) as (_ & Ht1 & Hlow). pose proof (tail_high _ _ _ Eb Hlo) as Hhigh.
  assert (Hb1 : byte_in 128 191 b1 = true) by (unfold byte_in in *; rewrite andb_true_iff, !N.leb_le in *; lia).
  unfold valid_code. destruct Hn as [(-> & _ & Hb)|[(-> & _ & Hb & H0)|(-> & _ & Hb & H0)]]; rewrite continuation_S in Er by done.
  - injection Er as <-. lia.
  - destruct s as [|b2 s]; [done|]. destruct (byte_in 128 191 b2) eqn:Hb2; [|by cbn in Er; rewrite Hb2 in Er].
    rewrite continuation_S in Er by done. injection Er as <-. destruct (tail_byte _ _ _ Hb2) as (_ & Ht2 & _); [done..|].
    specialize (Hh2 eq_refl). destruct (decide (bits = 13)%N) as [->|]; lia.
  - destruct s as [|b2 s]; [done|]. destruct (byte_in 128 191 b2) eqn:Hb2; [|by cbn in Er; rewrite Hb2 in Er].
    rewrite continuation_S in Er by done.
    destruct s as [|b3 s]; [done|]. destruct (byte_in 128 191 b3) eqn:Hb3; [|by cbn in Er; rewrite Hb3 in Er].
    rewrite continuation_S in Er by done. injection Er as <-.
    destruct (tail_byte _ _ _ Hb2) as (_ & Ht2 & _); [done..|]. destruct (tail_byte _ _ _ Hb3) as (_ & Ht3 & _); [done..|].
    specialize (Hh3 eq_refl). destruct (decide (bits = 4)%N) as [->|]; [lia|]. destruct (decide (bits = 0)%N) as [->|]; lia.
Qed.

Lemma runes_valid s : Forall (λ rw, valid_code rw.1) (runes s).
Proof.
  induction s as [[|c s] IH] using length_ind; [constructor|].
  destruct (runes_split c s) as (r & w & E & Ed & Hw). rewrite E. constructor.
  - pose proof (DecodeRune_valid (c :: s)) as H. by rewrite Ed in H.
  - apply IH. rewrite length_drop. cbn. cbn in Hw. lia.
Qed.

(** The case of a code point is a code point: the documented behaviour of package unicode. *)
Class CaseLaws {case : CaseTable} := {
  upper_valid r : valid_code r → valid_code (upper_table r);
}.

Lemma ToUpper_valid `{CaseLaws} s : valid_text (ToUpper s) = ToUpper s.
Proof.
  unfold ToUpper, map_runes. change (map (λ rw, encode (upper_rune rw.1)) (runes s)) with ((λ rw, encode (upper_rune rw.1)) <$> runes s).
  assert (E : (λ rw : N * bytes, encode (upper_rune rw.1)) <$> runes s = encode <$> ((λ rw, upper_rune rw.1) <$> runes s))
    by by rewrite <-list_fmap_compose.
  rewrite E. apply valid_text_encoded, Forall_fmap. eapply Forall_impl; [apply runes_valid|].
  intros [r w] Hr. unfold compose, upper_rune. cbn [fst] in *. destruct (r <? 128)%N eqn:Er; [|by apply upper_valid].
  apply N.ltb_lt in Er. unfold valid_code. pose proof (upper_range (byte_of r)) as Hu. rewrite byte_of_N in Hu by lia. lia.
Qed.

#[global] Instance latin_laws : CaseLaws (case := latin_case).
Proof. split. intros r. unfold valid_code. cbn. repeat case_match; bool_simp; lia. Qed.

(** ** Lists of strings *)

Definition marshal_strings (l : list string) : bytes := "["%char :: Json.joined [","%char] (map marshal_string l) ++ ["]"%char].

Lemma value_marshal f d s r : Json.value (S f) d (marshal_string s ++ r) = Some (Json.JStr (marshal_body (bytes_of s)), r).
Proof.
  unfold marshal_string. cbn [app Json.value]. change (eqb "034"%char Json.quote) with true. cbn iota.
  rewrite <-(assoc_L (++)). cbn [app]. by rewrite scan_marshal.
Qed.

Lemma elements_last g d x r v :
  (∀ t, Json.value g d (x ++ t) = Some (v, t)) → Json.elements (S g) d (x ++ "]"%char :: r) = Some ([v], r).
Proof. intros Hv. cbn [Json.elements]. rewrite Hv. cbn [mbind option_bind]. rewrite Json.skip_cons by done. by rewrite Json.expect_cons. Qed.

Lemma elements_more g d x t v :
  (∀ t, Json.value g d (x ++ t) = Some (v, t)) → Json.skip t = t →
  Json.elements (S g) d (x ++ ","%char :: t) = '(vs, rest) ← Json.elements g d t; Some (v :: vs, rest).
Proof.
  intros Hv Ht. cbn [Json.elements]. rewrite Hv. cbn [mbind option_bind]. rewrite Json.skip_cons by done.
  rewrite Json.expect_other by done. rewrite Json.expect_cons. cbn [mbind option_bind]. by rewrite Ht.
Qed.

Lemma value_array g d s :
  Json.value (S g) (S d) ("["%char :: s)
  = match Json.expect "]" (Json.skip s) with
    | Some rest => Some (Json.JArr (Json.before ("["%char :: s) rest) [], rest)
    | None => '(items, rest) ← Json.elements g d (Json.skip s); Some (Json.JArr (Json.before ("["%char :: s) rest) items, rest)
    end.
Proof. done. Qed.

Lemma elements_marshal f d x l r :
  length l ≤ f →
  Json.elements (S (S f)) d (Json.joined [","%char] (map marshal_string (x :: l)) ++ "]"%char :: r)
  = Some ((λ s, Json.JStr (marshal_body (bytes_of s))) <$> x :: l, r).
Proof.
  revert f x. induction l as [|y l IH]; intros f x Hf; [by apply elements_last; intros; apply value_marshal|].
  destruct f as [|f]; [cbn in Hf; lia|]. cbn [length] in Hf. change (map marshal_string (x :: y :: l)) with (marshal_string x :: map marshal_string (y :: l)).
  rewrite Json.joined_cons by done. rewrite <-!(assoc_L (++)). cbn [app].
  rewrite (elements_more _ d _ _ _ (value_marshal (S f) d x)); [by rewrite IH by lia|].
  destruct l; cbn [map Json.joined]; unfold marshal_string at 1; cbn [app]; by rewrite Json.skip_cons.
Qed.

(** What is written is read as the array of its strings. *)
Lemma parse_strings l :
  ∃ raw, Json.parse (marshal_strings l) = Some (Json.JArr raw ((λ s, Json.JStr (marshal_body (bytes_of s))) <$> l)).
Proof.
  unfold marshal_strings, Json.parse. rewrite Json.skip_cons by done.
  set (t := Json.joined [","%char] (map marshal_string l) ++ ["]"%char]).
  assert (Hl : length l < length t).
  { unfold t. destruct l as [|x l]; [cbn; lia|]. cbn [length]. rewrite length_app. cbn [length].
    assert (H : length (x :: l) ≤ length (Json.joined [","%char] (map marshal_string (x :: l)))); [|cbn [length] in H; lia].
    clear t. revert x. induction l as [|y l IH]; intros x; [cbn; lia|]. cbn [map]. rewrite Json.joined_cons by done.
    rewrite !length_app. specialize (IH y). cbn [map length] in *. lia. }
  unfold Json.maxNestingDepth. change (Z.to_nat 10000) with (S (Z.to_nat 9999)). generalize (Z.to_nat 9999) as d. intros d.
  assert (Hf : ∃ f, 2 + 2 * length ("["%char :: t) = S (S (S f)) ∧ length l ≤ f).
  { exists (1 + 2 * length t). cbn [length]. lia. }
  destruct Hf as (f & -> & Hf). rewrite value_array.
  destruct l as [|x l].
  - unfold t. cbn [map Json.joined app]. rewrite Json.skip_cons, Json.expect_cons by done. by eexists.
  - assert (Hs : Json.skip t = t ∧ Json.expect "]" t = None).
    { unfold t. destruct l; cbn [map Json.joined]; unfold marshal_string at 1 3; cbn [app]; rewrite Json.skip_cons by done; done. }
    destruct Hs as [Hs He]. rewrite Hs, He. assert (E := elements_marshal f d x l [] ltac:(cbn in Hf; lia)). change (_ ++ "]"%char :: []) with t in E. rewrite E. by eexists.
Qed.

End JsonText.
