(* ===== verification/GoQuote.v ===== *)
(** * Quoted Go strings are read back

    The text of [strconv.Quote] determines the string and where its text ends, whatever bytes
    the string holds and whatever runes are printable. *)
From S2P Require Import Prelude GoText Json Encoding GoCase JsonText.
Import GoText GoCase JsonText.

Module GoQuote.

(** ** Hexadecimal digits *)

Definition hex_read (ds : bytes) : N := fold_left (λ n c, (n * 16 + Encoding.hex_value c)%N) ds 0%N.

Lemma hex_length n r : length (hex n r) = n.
Proof. revert r. induction n as [|n IH]; intros r; [done|]. cbn [hex]. rewrite length_app, IH. cbn. lia. Qed.

Lemma hex_value_digit n : (n < 16)%N → Encoding.hex_value (hex_digit n) = n.
Proof.
  intros H. assert (Hall : forallb (λ n, eqb (Encoding.hex_value (hex_digit n)) n) (N.of_nat <$> seq 0 16) = true) by (vm_compute; reflexivity).
  rewrite forallb_forall in Hall. apply (proj1 (eqb_true _ _)), Hall, list_elem_of_In, list_elem_of_fmap. exists (N.to_nat n). split; [lia|]. apply elem_of_seq. lia.
Qed.

Lemma hex_read_hex n r : (r < 16 ^ N.of_nat n)%N → hex_read (hex n r) = r.
Proof.
  revert r. induction n as [|n IH]; intros r H; [cbn in *; lia|]. cbn [hex]. unfold hex_read. rewrite fold_left_app. fold (hex_read (hex n (r / 16))).
  rewrite Nat2N.inj_succ, N.pow_succ_r' in H. rewrite IH by (apply N.Div0.div_lt_upper_bound; lia). cbn [fold_left].
  rewrite hex_value_digit by (apply N.mod_lt; lia). pose proof (N.div_mod' r 16) as E. rewrite (N.mul_comm (r / 16) 16). by rewrite <-E.
Qed.

Lemma take_hex n r a : take n (hex n r ++ a) = hex n r.
Proof. apply take_app_length'. symmetry. apply hex_length. Qed.
Lemma drop_hex n r a : drop n (hex n r ++ a) = a.
Proof. apply drop_app_length'. symmetry. apply hex_length. Qed.

(** ** One rune *)

(** The byte of a short escape. *)
Definition unescape (e : ascii) : ascii :=
  match e with
  | "a"%char => "007"%char
  | "b"%char => "008"%char
  | "f"%char => "012"%char
  | "n"%char => "010"%char
  | "r"%char => "013"%char
  | "t"%char => "009"%char
  | "v"%char => "011"%char
  | c => c
  end.

(** The bytes the first rune of a quoted text stands for, and what follows. *)
Definition unquote_rune (s : bytes) : bytes * bytes :=
  match s with
  | c :: e :: t =>
      if eqb c "\"%char then
        if eqb e "x"%char then (let n := hex_read (take 2 t) in if (n <? 128)%N then encode n else [byte_of n], drop 2 t)
        else if eqb e "u"%char then (encode (hex_read (take 4 t)), drop 4 t)
        else if eqb e "U"%char then (encode (hex_read (take 8 t)), drop 8 t)
        else ([unescape e], t)
      else let w := (DecodeRune s).2 in (take w s, drop w s)
  | _ => let w := (DecodeRune s).2 in (take w s, drop w s)
  end.

Section quote.
Context {table : UnicodeTable}.

Lemma unquote_x n r a : n = hex 2 r → (r < 256)%N →
  unquote_rune (bytes_of "\x" ++ n ++ a) = (if (r <? 128)%N then encode r else [byte_of r], a).
Proof.
  intros -> H. cbn [bytes_of String.list_ascii_of_string app unquote_rune]. change (eqb "\"%char "\"%char) with true. change (eqb "x"%char "x"%char) with true. cbn iota.
  by rewrite take_hex, drop_hex, hex_read_hex.
Qed.

Lemma unquote_u n r a : n = hex 4 r → (r < 65536)%N → unquote_rune (bytes_of "\u" ++ n ++ a) = (encode r, a).
Proof.
  intros -> H. cbn [bytes_of String.list_ascii_of_string app unquote_rune]. change (eqb "\"%char "\"%char) with true. change (eqb "u"%char "x"%char) with false. change (eqb "u"%char "u"%char) with true. cbn iota.
  by rewrite take_hex, drop_hex, hex_read_hex.
Qed.

Lemma unquote_U n r a : n = hex 8 r → (r < 4294967296)%N → unquote_rune (bytes_of "\U" ++ n ++ a) = (encode r, a).
Proof.
  intros -> H. cbn [bytes_of String.list_ascii_of_string app unquote_rune]. change (eqb "\"%char "\"%char) with true. change (eqb "U"%char "x"%char) with false.
  change (eqb "U"%char "u"%char) with false. change (eqb "U"%char "U"%char) with true. cbn iota.
  by rewrite take_hex, drop_hex, hex_read_hex.
Qed.

Lemma unquote_plain_rune d v a :
  d ≠ "\"%char → DecodeRune (d :: v ++ a) = ((DecodeRune (d :: v ++ a)).1, length (d :: v)) → unquote_rune (d :: v ++ a) = (d :: v, a).
Proof.
  intros Hd E. assert (U : unquote_rune (d :: v ++ a) = let w := (DecodeRune (d :: v ++ a)).2 in (take w (d :: v ++ a), drop w (d :: v ++ a))).
  { unfold unquote_rune. destruct (v ++ a); [done|]. by rewrite (proj2 (eqb_false d _) Hd). }
  rewrite U, E. cbn zeta. cbn [snd]. change (d :: v ++ a) with ((d :: v) ++ a). by rewrite take_app_length, drop_app_length.
Qed.

(** The text of a rune stands for its bytes and ends where it does. *)
Lemma unquote_quoted c s r w a :
  DecodeRune (c :: s) = (r, w) → unquote_rune (quote_rune r (take w (c :: s)) ++ a) = (take w (c :: s), a).
Proof.
  intros Ed. pose proof (DecodeRune_width c s) as Hw. pose proof (DecodeRune_local c s a) as Hl. pose proof (DecodeRune_valid (c :: s)) as Hv.
  rewrite Ed in Hw, Hl, Hv. cbn [fst snd] in *. unfold quote_rune.
  assert (Hlen : length (take w (c :: s)) = w) by (rewrite length_take; lia). rewrite Hlen.
  destruct (eqb r RuneError && eqb w 1) eqn:Ee.
  { apply andb_true_iff in Ee as [Er Ew]. apply (proj1 (eqb_true _ _)) in Er, Ew. subst r w. cbn [take head from_option].
    assert (Hc : (128 ≤ N_of_ascii c)%N).
    { apply N.le_ngt. intros Hc. cbn [DecodeRune] in Ed. rewrite (proj2 (N.ltb_lt _ _) Hc) in Ed. injection Ed as Ed. rewrite Ed in Hc. done. }
    rewrite <-(assoc_L (++)). rewrite (unquote_x _ (N_of_ascii c) a eq_refl) by apply N_ascii_bounded.
    rewrite (proj2 (N.ltb_ge _ _) Hc). cbn [take]. unfold byte_of. by rewrite ascii_N_embedding. }
  pose proof (encode_DecodeRune _ _ _ _ Ed Ee) as Henc. rewrite <-Henc.
  assert (Hone : ∀ x, r = x → (x < 128)%N → encode r = [byte_of x]) by (intros x -> Hx; unfold encode; by rewrite (proj2 (N.ltb_lt _ _) Hx)).
  destruct (eqb r 34%N || eqb r 92%N) eqn:Eq.
  { apply orb_true_iff in Eq as [Eq|Eq]; apply (proj1 (eqb_true _ _)) in Eq; rewrite (Hone _ Eq) by done; by subst r. }
  destruct (IsPrint r) eqn:Ep.
  { specialize (Hl eq_refl). rewrite Henc. destruct w as [|w]; [lia|]. cbn [take app] in *. apply unquote_plain_rune.
    - intros ->. cbn [DecodeRune] in Ed. change (N_of_ascii "\" <? 128)%N with true in Ed. cbn iota in Ed. injection Ed as <- _. done.
    - rewrite Hl. cbn [fst]. f_equal. cbn [length] in *. lia. }
  destruct (escape_of r) as [e|] eqn:Es.
  { unfold escape_of in Es. repeat case_match; simplify_eq; by rewrite (Hone _ eq_refl). }
  destruct Hv as [_ Hmax]. destruct ((r <? 32)%N || eqb r 127%N) eqn:Ec.
  { assert (Hr : (r < 128)%N) by (apply orb_true_iff in Ec as [Ec|Ec]; [apply N.ltb_lt in Ec; lia|apply (proj1 (eqb_true _ _)) in Ec; lia]).
    rewrite <-(assoc_L (++)), (unquote_x _ r a eq_refl) by lia. by rewrite (proj2 (N.ltb_lt _ _) Hr). }
  destruct (r <? 65536)%N eqn:E4; rewrite <-(assoc_L (++)).
  - apply unquote_u; [done|]. by apply N.ltb_lt.
  - apply unquote_U; [done|]. lia.
Qed.

(** ** The whole text *)

Definition quoted_body (s : bytes) : bytes := concat (map (λ rw, quote_rune rw.1 rw.2) (runes s)).

Lemma quoted_body_split c s r w :
  DecodeRune (c :: s) = (r, w) → quoted_body (c :: s) = quote_rune r (take w (c :: s)) ++ quoted_body (drop w (c :: s)).
Proof. intros E. unfold quoted_body. by rewrite runes_cons, E. Qed.

(** No rune starts with the closing quote. *)
Lemma quoted_head c s r w a b : DecodeRune (c :: s) = (r, w) → quote_rune r (take w (c :: s)) ++ a ≠ Json.quote :: b.
Proof.
  intros Ed E. pose proof (unquote_quoted _ _ _ _ a Ed) as U. rewrite E in U.
  assert (D : DecodeRune (Json.quote :: b) = (34%N, 1)) by done.
  pose proof (DecodeRune_width c s) as Hw. rewrite Ed in Hw. cbn [snd] in Hw.
  assert (U' : unquote_rune (Json.quote :: b) = ([Json.quote], b)).
  { unfold unquote_rune. destruct b; [done|]. rewrite (proj2 (eqb_false Json.quote _)) by done. by rewrite D. }
  rewrite U' in U. injection U as Ut _. destruct w as [|w]; [lia|]. cbn [take] in Ut. injection Ut as <- _. cbn in Ed. injection Ed as <- <-.
  cbn in E. discriminate E.
Qed.

Lemma quoted_body_inj s t a b :
  quoted_body s ++ Json.quote :: a = quoted_body t ++ Json.quote :: b → s = t ∧ a = b.
Proof.
  revert t. induction s as [[|c s] IH] using length_ind; intros [|d t] E.
  - by injection E.
  - destruct (runes_split d t) as (r & w & _ & Ed & Hw). rewrite (quoted_body_split _ _ _ _ Ed), <-(assoc_L (++)) in E.
    by apply (eq_sym), (quoted_head _ _ _ _ _ _ Ed) in E.
  - destruct (runes_split c s) as (r & w & _ & Ed & Hw). rewrite (quoted_body_split _ _ _ _ Ed), <-(assoc_L (++)) in E.
    by apply (quoted_head _ _ _ _ _ _ Ed) in E.
  - destruct (runes_split c s) as (r & w & _ & Ed & Hw), (runes_split d t) as (r' & w' & _ & Ed' & Hw').
    rewrite (quoted_body_split _ _ _ _ Ed), (quoted_body_split _ _ _ _ Ed'), <-!(assoc_L (++)) in E.
    pose proof (unquote_quoted _ _ _ _ (quoted_body (drop w (c :: s)) ++ Json.quote :: a) Ed) as U.
    rewrite E, (unquote_quoted _ _ _ _ _ Ed') in U. injection U as U1 U2.
    destruct (IH (drop w (c :: s)) ltac:(rewrite length_drop; cbn in Hw |- *; lia) (drop w' (d :: t)) (eq_sym U2)) as [H1 H2].
    split; [|done]. rewrite <-(take_drop w (c :: s)), <-(take_drop w' (d :: t)). by rewrite U1, H1.
Qed.

(** A quoted text at the head of a text determines the string and what follows. *)
Lemma Quote_inj s t a b : bytes_of (Quote s) ++ a = bytes_of (Quote t) ++ b → s = t ∧ a = b.
Proof.
  unfold Quote. rewrite !bytes_of_string_of. cbn [app]. rewrite <-!(assoc_L (++)). cbn [app]. intros [= E].
  apply quoted_body_inj in E as [E1 E2]. split; [|done]. by rewrite <-(string_of_bytes_of s), E1, string_of_bytes_of.
Qed.

Lemma Quote_head s : ∃ t, bytes_of (Quote s) = Json.quote :: t.
Proof. unfold Quote. rewrite bytes_of_string_of. eauto. Qed.
End quote.

End GoQuote.
