(* ===== verification/Decimal.v ===== *)
(** * Exact decimals ([internal/jsonvalue]: [decimal.go], [bigdecimaltext.go])

    The decimals of the legacy engine: [ParseDecimal], [Compare], [String] and the text of
    Java's [BigDecimal]. A digit is a Unicode decimal digit of one UTF-16 char, after the
    tables of package unicode; the coefficient holds ASCII digits. *)
From Stdlib Require Import QArith Qpower.
From S2P Require Import Prelude GoText Json Encoding Digits JsonFields GoCase.
Import GoText Encoding Digits GoCase.

Module Decimal.

(** The number is [coef * 10 ^ exp], negated by [neg]. *)
Record Decimal := MkDecimal { neg : bool; coef : bytes; exp : Z }.

#[export] Instance Decimal_eq_dec : EqDecision Decimal.
Proof. solve_decision. Defined.

Definition zero : Decimal := MkDecimal false [] 0.

Definition maxExponent : Z := 2 ^ 60.

Definition TrimLeft (c : ascii) (s : bytes) : bytes := drop_while (λ x, eqb x c) s.
Definition TrimRight (c : ascii) (s : bytes) : bytes := drop_while_end (λ x, eqb x c) s.

Definition newDecimal (neg : bool) (coef : bytes) (exp : Z) : Decimal :=
  match TrimLeft "0" coef with
  | [] => zero
  | coef =>
      let trimmed := TrimRight "0" coef in
      MkDecimal neg trimmed (exp + (Z.of_nat (length coef) - Z.of_nat (length trimmed)))
  end.

Section digits.
Context {table : UnicodeTable}.

Definition isDigit (r : rune) : bool := (r <=? 65535)%N && IsDigit r.

(** How many digits stand right below the rune: the loop of [digitValue], which stops at a
    rune that is no digit and so at zero at the latest. *)
Fixpoint run_below (fuel : nat) (r : rune) : N :=
  match fuel with
  | 0 => 0
  | S fuel => if IsDigit (r - 1) then (1 + run_below fuel (r - 1))%N else 0%N
  end.

Definition digitValue (r : rune) : ascii :=
  if ((48 <=? r) && (r <=? 57))%N then byte_of r
  else byte_of (48 + run_below (N.to_nat r) r mod 10).

Definition is_sign (r : rune) : bool := eqb r 43%N || eqb r 45%N.
Definition is_exp (r : rune) : bool := eqb r 101%N || eqb r 69%N.

(** An optional sign: whether it is a minus, and the rest. *)
Definition sign_of (rs : list rune) : bool * list rune :=
  match rs with
  | r :: rest => if is_sign r then (eqb r 45%N, rest) else (false, rs)
  | [] => (false, [])
  end.

(** The digits a text starts with, and the rest. *)
Definition take_digits (rs : list rune) : bytes * list rune :=
  let '(ds, rest) := span isDigit rs in (digitValue <$> ds, rest).

(** The loop over the digits of an exponent; [None] when it passes [maxExponent]. *)
Fixpoint read_exp (ds : bytes) (exp : Z) : option Z :=
  match ds with
  | [] => Some exp
  | c :: ds =>
      let d := digit_value c in
      if ((maxExponent - d) `quot` 10 <? exp)%Z then None else read_exp ds (exp * 10 + d)
  end.

(** An exponent after its letter, read to the end of the text. *)
Definition exponent (rs : list rune) : option (Z * list rune) :=
  match rs with
  | r :: rest =>
      if is_exp r then
        let '(minus, rest) := sign_of rest in
        let '(ds, rest) := take_digits rest in
        if is_nil ds then None else e ← read_exp ds 0; Some ((if minus : bool then - e else e)%Z, rest)
      else Some (0%Z, rs)
  | [] => Some (0%Z, [])
  end.

(** The part of a text between its sign and its exponent: the digits before the point and
    after it. *)
Definition mantissa (rs : list rune) : bytes * bytes * list rune :=
  let '(int, rest) := take_digits rs in
  match rest with
  | r :: rest' => if eqb r 46%N then let '(frac, rest) := take_digits rest' in (int, frac, rest) else (int, [], rest)
  | [] => (int, [], [])
  end.

(** [parseDecimal]: the number and its scale. *)
Definition parse_runes (rs : list rune) : option (Decimal * Z) :=
  let '(minus, rs) := sign_of rs in
  let '(int, frac, rs) := mantissa rs in
  if is_nil int && is_nil frac then None
  else
    '(e, rest) ← exponent rs;
    if is_nil rest then
      let fracDigits := Z.of_nat (length frac) in
      Some (newDecimal minus (int ++ frac) (e - fracDigits), (fracDigits - e)%Z)
    else None.

(** The first byte of an ASCII text a number can start with. *)
Definition may_start (c : ascii) : bool :=
  past_ascii c || member c ["+"; "-"; "."]%char || is_digit c.

Definition parseDecimal (s : string) : option (Decimal * Z) :=
  match bytes_of s with
  | [] => None
  | c :: _ => if may_start c then parse_runes ((runes (bytes_of s)).*1) else None
  end.

Definition ParseDecimal (s : string) : option Decimal := fst <$> parseDecimal s.

Definition in_int32 (z : Z) : bool := ((- 2 ^ 31 <=? z) && (z <=? 2 ^ 31 - 1))%Z.

Definition ParseBigDecimal (s : string) : option Decimal :=
  '(d, scale) ← parseDecimal s; if in_int32 scale then Some d else None.
End digits.

(** ** Order *)

Definition IsZero (d : Decimal) : bool := is_nil (coef d).
Definition adjusted (d : Decimal) : Z := exp d + Z.of_nat (length (coef d)) - 1.
Definition sign (d : Decimal) : Z := if IsZero d then 0 else if neg d then -1 else 1.

Definition compareMagnitude (d e : Decimal) : Z :=
  let a := adjusted d in
  let b := adjusted e in
  if (a =? b)%Z then Digits.Compare (coef d) (coef e) else if (a <? b)%Z then -1 else 1.

Definition Compare (d e : Decimal) : Z :=
  let ds := sign d in
  let es := sign e in
  if (ds =? es)%Z then
    if (ds =? 0)%Z then 0 else if neg d then - compareMagnitude d e else compareMagnitude d e
  else if (ds <? es)%Z then -1 else 1.

(** ** Texts *)

Definition zeros (n : Z) : bytes := replicate (Z.to_nat n) "0"%char.

(** [Decimal.String]. *)
Definition String (d : Decimal) : bytes :=
  if IsZero d then ["0"%char]
  else
    let adj := adjusted d in
    let n := Z.to_nat (adj + 1) in
    (if neg d then ["-"%char] else []) ++
    (if (20 <=? adj)%Z || (adj <? -7)%Z then
       take 1 (coef d) ++ (if (1 <? length (coef d))%nat then "."%char :: drop 1 (coef d) else [])
         ++ "e"%char :: FormatInt adj
     else if (0 <=? exp d)%Z then coef d ++ zeros (exp d)
     else if (0 <=? adj)%Z then take n (coef d) ++ "."%char :: drop n (coef d)
     else "0"%char :: "."%char :: zeros (- adj - 1) ++ coef d).

Section text.
Context {table : UnicodeTable}.

(** The second pass of [BigDecimalText] over a number's digits, up to its exponent: the
    digits, how many stand after the point, and the rest. *)
Fixpoint scan (rs : list rune) (inFrac : bool) : bytes * nat * list rune :=
  match rs with
  | [] => ([], 0, [])
  | r :: rest =>
      if is_exp r then ([], 0, rs)
      else if eqb r 46%N then scan rest true
      else let '(digits, n, tail) := scan rest inFrac in (digitValue r :: digits, (if inFrac then S n else n), tail)
  end.

Definition exp_digit (r : rune) : bytes := if isDigit r then [digitValue r] else encode r.

Definition scan_exp (rs : list rune) : Z :=
  match rs with [] => 0 | _ :: rest => default 0%Z (Atoi (rest ≫= exp_digit)) end.

(** The digits, their sign and their scale, written as [BigDecimal] does. *)
Definition write_scaled (neg : bool) (coef : bytes) (scale : Z) : bytes :=
  let adjusted := (- scale + Z.of_nat (length coef) - 1)%Z in
  let k := Z.to_nat (Z.of_nat (length coef) - scale) in
  (if neg then ["-"%char] else []) ++
  (if (scale =? 0)%Z then coef
   else if (0 <? scale)%Z && (-6 <=? adjusted)%Z then
     if (scale <? Z.of_nat (length coef))%Z then take k coef ++ "."%char :: drop k coef
     else "0"%char :: "."%char :: zeros (scale - Z.of_nat (length coef)) ++ coef
   else
     take 1 coef ++ (if (1 <? length coef)%nat then "."%char :: drop 1 coef else [])
       ++ "E"%char :: (if (0 <? adjusted)%Z then ["+"%char] else []) ++ FormatInt adjusted).

Definition BigDecimalText (s : string) : option bytes :=
  match ParseBigDecimal s with
  | None => None
  | Some _ =>
      let '(neg, rs) := sign_of ((runes (bytes_of s)).*1) in
      let '(digits, fracDigits, tail) := scan rs false in
      let exp := scan_exp tail in
      let coef := TrimLeft "0" digits in
      let scale := (Z.of_nat fracDigits - exp)%Z in
      Some (if is_nil coef then write_scaled false ["0"%char] scale else write_scaled neg coef scale)
  end.
End text.

(** ** Normal forms *)

(** A decimal as [newDecimal] makes it. *)
Definition wf (d : Decimal) : Prop :=
  all_digits (coef d) ∧ (∀ c, head (coef d) = Some c → c ≠ "0"%char) ∧ solid_end (coef d)
  ∧ (coef d = [] → d = zero).

Lemma TrimLeft_head c s x : head (TrimLeft c s) = Some x → x ≠ c.
Proof. intros H%drop_while_head. by apply (proj1 (eqb_false _ _)) in H. Qed.

Lemma TrimLeft_split c s : ∃ n, s = replicate n c ++ TrimLeft c s.
Proof.
  unfold TrimLeft. exists (length (take_while (λ x, eqb x c) s)).
  rewrite <-(take_drop_while (λ x, eqb x c) s) at 1. f_equal.
  pose proof (take_while_all (λ x, eqb x c) s) as H. induction H as [|x l Hx _ IH]; [done|].
  apply (proj1 (eqb_true _ _)) in Hx as ->. cbn. by rewrite <-IH.
Qed.

Lemma TrimRight_split c s : ∃ n, s = TrimRight c s ++ replicate n c.
Proof.
  unfold TrimRight, drop_while_end. destruct (TrimLeft_split c (reverse s)) as [n Hn]. exists n. unfold TrimLeft in Hn.
  rewrite <-(reverse_involutive s) at 1. rewrite Hn at 1. by rewrite reverse_app, reverse_replicate.
Qed.

Lemma TrimRight_last c s x : last (TrimRight c s) = Some x → x ≠ c.
Proof.
  unfold TrimRight, drop_while_end. rewrite last_reverse. intros H%drop_while_head. by apply (proj1 (eqb_false _ _)) in H.
Qed.

Lemma TrimRight_head c s x : head (TrimRight c s) = Some x → head s = Some x.
Proof. destruct (TrimRight_split c s) as [n Hn]. intros H. rewrite Hn. by destruct (TrimRight c s). Qed.

Lemma newDecimal_wf neg coef exp : all_digits coef → wf (newDecimal neg coef exp).
Proof.
  intros Hd. destruct (TrimLeft_split "0" coef) as [n Hn]. unfold newDecimal. destruct (TrimLeft "0" coef) as [|c l] eqn:E.
  { split_and!; [constructor|done|done|done]. }
  rewrite Hn in Hd. apply Forall_app in Hd as [_ Hd]. destruct (TrimRight_split "0" (c :: l)) as [k Hk].
  assert (Hc : c ≠ "0"%char) by (apply (TrimLeft_head "0" coef); by rewrite E).
  split_and!; cbn [Decimal.coef].
  - rewrite Hk in Hd. by apply Forall_app in Hd as [? _].
  - intros x Hx%TrimRight_head. cbn in Hx. congruence.
  - intros x. apply TrimRight_last.
  - intros Hz. rewrite Hz in Hk. cbn in Hk. destruct k as [|k]; [done|]. cbn in Hk. congruence.
Qed.

(** The number in units of [10 ^ m], for an [m] at most its exponent. *)
Definition num (d : Decimal) (m : Z) : Z :=
  ((if neg d then -1 else 1) * (digits_value (coef d) * 10 ^ (exp d - m)))%Z.

Lemma newDecimal_num neg coef exp m :
  all_digits coef → (m ≤ exp)%Z →
  num (newDecimal neg coef exp) m = ((if neg then -1 else 1) * (digits_value coef * 10 ^ (exp - m)))%Z.
Proof.
  intros Hd Hm. destruct (TrimLeft_split "0" coef) as [n Hn]. unfold newDecimal, num.
  assert (Hv : digits_value coef = digits_value (TrimLeft "0" coef)) by (rewrite Hn at 1; rewrite digits_value_app, digits_value_zeros; lia).
  destruct (TrimLeft "0" coef) as [|c l] eqn:E; [rewrite Hv; cbn; lia|]. cbn [Decimal.neg Decimal.coef Decimal.exp].
  destruct (TrimRight_split "0" (c :: l)) as [k Hk]. rewrite Hv. set (t := TrimRight "0" (c :: l)) in *. rewrite Hk.
  rewrite digits_value_app, digits_value_zeros, length_app, length_replicate, Z.add_0_r, Nat2Z.inj_add.
  f_equal. rewrite <-Z.mul_assoc, <-Z.pow_add_r by lia. do 2 f_equal. lia.
Qed.

(** ** The order is that of the numbers *)

Lemma num_sign d m : wf d → (m ≤ exp d)%Z → Z.sgn (num d m) = sign d.
Proof.
  intros (Hd & Hh & Hl & Hz) Hm. unfold num, sign, IsZero. destruct (coef d) as [|c l] eqn:E; [cbn; by destruct (neg d)|].
  cbn [is_nil]. assert (0 < digits_value (c :: l))%Z by by apply solid_end_positive.
  assert (0 < 10 ^ (exp d - m))%Z by (apply Z.pow_pos_nonneg; lia).
  destruct (neg d); [apply Z.sgn_neg|apply Z.sgn_pos]; nia.
Qed.

(** The size of a number lies between the powers its first digit tells. *)
Lemma magnitude_bounds d m :
  wf d → coef d ≠ [] → (m ≤ exp d)%Z →
  (10 ^ (adjusted d - m) ≤ digits_value (coef d) * 10 ^ (exp d - m) < 10 ^ (adjusted d + 1 - m))%Z.
Proof.
  intros (Hd & Hh & _ & _) Hne Hm. unfold adjusted. destruct (coef d) as [|c l]; [done|]. cbn [length].
  apply Forall_cons in Hd as [Hc Hd]. pose proof (digits_value_lead c l Hc (Hh c eq_refl) Hd).
  pose proof (digits_value_bound (c :: l) ltac:(by constructor)) as Hb. cbn [length] in Hb.
  assert (0 < 10 ^ (exp d - m))%Z by (apply Z.pow_pos_nonneg; lia).
  replace (exp d + Z.of_nat (S (length l)) - 1 - m)%Z with (Z.of_nat (length l) + (exp d - m))%Z by lia.
  replace (exp d + Z.of_nat (S (length l)) - 1 + 1 - m)%Z with (Z.of_nat (S (length l)) + (exp d - m))%Z by lia.
  rewrite !Z.pow_add_r by lia. nia.
Qed.

Lemma compare_aligned d e m :
  wf d → wf e → (m ≤ exp d)%Z → (m ≤ exp e)%Z → adjusted d = adjusted e → length (coef d) ≤ length (coef e) →
  Digits.Compare (coef d) (coef e)
  = Z.sgn (digits_value (coef d) * 10 ^ (exp d - m) - digits_value (coef e) * 10 ^ (exp e - m)).
Proof.
  intros (Hd & _) (He & _ & Hs & _) Hm Hm' Ha Hl. unfold adjusted in Ha.
  set (k := length (coef e) - length (coef d)).
  rewrite (Compare_fraction _ _ k) by (try done; unfold k; lia).
  rewrite digits_value_app, digits_value_zeros, length_replicate, Z.add_0_r.
  replace (exp d - m)%Z with (Z.of_nat k + (exp e - m))%Z by (unfold k; lia). rewrite Z.pow_add_r by lia.
  rewrite Z.mul_assoc, <-Z.mul_sub_distr_r. rewrite Z.sgn_mul, (Z.sgn_pos (10 ^ _)) by (apply Z.pow_pos_nonneg; lia). lia.
Qed.

Lemma compareMagnitude_num d e m :
  wf d → wf e → coef d ≠ [] → coef e ≠ [] → (m ≤ exp d)%Z → (m ≤ exp e)%Z →
  compareMagnitude d e = Z.sgn (digits_value (coef d) * 10 ^ (exp d - m) - digits_value (coef e) * 10 ^ (exp e - m)).
Proof.
  intros Wd We Nd Ne Hd He. unfold compareMagnitude. destruct (adjusted d =? adjusted e)%Z eqn:E; [apply Z.eqb_eq in E|apply Z.eqb_neq in E].
  - destruct (decide (length (coef d) ≤ length (coef e))); [by apply compare_aligned|].
    rewrite Compare_sym, (compare_aligned e d m) by (try done; lia). rewrite <-Z.sgn_opp. f_equal. lia.
  - pose proof (magnitude_bounds d m Wd Nd Hd). pose proof (magnitude_bounds e m We Ne He).
    destruct (adjusted d <? adjusted e)%Z eqn:L; [apply Z.ltb_lt in L; rewrite Z.sgn_neg|apply Z.ltb_ge in L; rewrite Z.sgn_pos]; try done.
    + assert (10 ^ (adjusted d + 1 - m) ≤ 10 ^ (adjusted e - m))%Z by (apply Z.pow_le_mono_r; lia). lia.
    + assert (10 ^ (adjusted e + 1 - m) ≤ 10 ^ (adjusted d - m))%Z by (apply Z.pow_le_mono_r; lia). lia.
Qed.

Lemma Compare_num d e m :
  wf d → wf e → (m ≤ exp d)%Z → (m ≤ exp e)%Z → Compare d e = Z.sgn (num d m - num e m).
Proof.
  intros Wd We Hd He. pose proof (num_sign d m Wd Hd) as Sd. pose proof (num_sign e m We He) as Se. unfold Compare.
  destruct (sign d =? sign e)%Z eqn:E; [apply Z.eqb_eq in E|apply Z.eqb_neq in E].
  - destruct (sign d =? 0)%Z eqn:Z0; [apply Z.eqb_eq in Z0; rewrite Z0 in Sd; rewrite <-E, Z0 in Se; apply (proj1 (Z.sgn_null_iff _)) in Sd; apply (proj1 (Z.sgn_null_iff _)) in Se; by rewrite Sd, Se|].
    apply Z.eqb_neq in Z0. assert (Nd : coef d ≠ []) by (intros N; apply Z0; unfold sign, IsZero; by rewrite N).
    assert (Ne : coef e ≠ []) by (intros N; apply Z0; rewrite E; unfold sign, IsZero; by rewrite N).
    assert (En : neg e = neg d).
    { clear -E Nd Ne. unfold sign, IsZero in E. destruct (coef d), (coef e), (neg d), (neg e); try done. }
    rewrite (compareMagnitude_num d e m) by done. unfold num. rewrite En. destruct (neg d); rewrite <-?Z.sgn_opp; f_equal; lia.
  - rewrite <-Sd, <-Se in E. rewrite <-Sd, <-Se. clear Sd Se. destruct (Z.sgn (num d m) <? Z.sgn (num e m))%Z eqn:L; [apply Z.ltb_lt in L|apply Z.ltb_ge in L];
      [rewrite Z.sgn_neg|rewrite Z.sgn_pos]; try done; pose proof (Z.sgn_spec (num d m)); pose proof (Z.sgn_spec (num e m)); lia.
Qed.

(** The number as a rational. *)
Definition value (d : Decimal) : Q := (inject_Z ((if neg d then -1 else 1) * digits_value (coef d)) * Qpower (inject_Z 10) (exp d))%Q.

Definition Z_of_comparison (c : comparison) : Z := match c with Lt => -1 | Eq => 0 | Gt => 1 end.

Lemma pow10_Q z : (0 < Qpower (inject_Z 10) z)%Q.
Proof. by apply Qpower_0_lt. Qed.

Lemma value_num d m : (m ≤ exp d)%Z → (value d == inject_Z (num d m) * Qpower (inject_Z 10) m)%Q.
Proof.
  intros Hm. unfold value, num. replace (exp d) with ((exp d - m) + m)%Z at 1 by lia.
  rewrite Qpower_plus by done. rewrite Z.mul_assoc, !inject_Z_mult, Zpower_Qpower by lia. ring.
Qed.

Lemma Compare_value d e : wf d → wf e → Compare d e = Z_of_comparison (Qcompare (value d) (value e)).
Proof.
  intros Wd We. set (m := Z.min (exp d) (exp e)). rewrite (Compare_num d e m) by (try done; unfold m; lia).
  rewrite (value_num d m), (value_num e m) by (unfold m; lia).
  pose proof (pow10_Q m) as Hp. destruct (Z.compare_spec (num d m) (num e m)) as [E|L|L].
  - rewrite E, Z.sub_diag. by rewrite (proj1 (Qeq_alt _ _)) by reflexivity.
  - rewrite Z.sgn_neg by lia. rewrite (proj1 (Qlt_alt _ _)); [done|]. apply Qmult_lt_r; [done|]. by rewrite <-Zlt_Qlt.
  - rewrite Z.sgn_pos by lia. rewrite (proj1 (Qgt_alt _ _)); [done|]. apply Qmult_lt_r; [done|]. by rewrite <-Zlt_Qlt.
Qed.

(** ** Written numbers are read back *)

Section read.
Context {table : UnicodeTable}.

Definition codes (s : bytes) : list rune := N_of_ascii <$> s.

Lemma runes_codes s : is_ascii s → (runes s).*1 = codes s.
Proof. intros H. rewrite runes_ascii by done. rewrite <-list_fmap_compose. done. Qed.

Lemma isDigit_code c : (N_of_ascii c < 128)%N → isDigit (N_of_ascii c) = is_digit c.
Proof.
  intros H. unfold isDigit, IsDigit. assert (E : (N_of_ascii c <=? 65535)%N = true) by (apply N.leb_le; lia).
  apply N.ltb_lt in H. rewrite E, H. unfold byte_of. by rewrite ascii_N_embedding.
Qed.

Lemma digit_code c : is_digit c = true → (48 ≤ N_of_ascii c ≤ 57)%N.
Proof.
  unfold is_digit, within. rewrite andb_true_iff, !N.leb_le. change (N_of_ascii "0") with 48%N. by change (N_of_ascii "9") with 57%N.
Qed.

Lemma digitValue_code c : is_digit c = true → digitValue (N_of_ascii c) = c.
Proof.
  intros H%digit_code. unfold digitValue. rewrite (proj2 (N.leb_le _ _)), (proj2 (N.leb_le _ _)) by lia. cbn.
  unfold byte_of. apply ascii_N_embedding.
Qed.

(** A text that does not go on with a digit. *)
Definition no_digit (rs : list rune) : Prop := ∀ r, head rs = Some r → isDigit r = false.

Lemma take_digits_codes ds rest : all_digits ds → no_digit rest → take_digits (codes ds ++ rest) = (ds, rest).
Proof.
  intros Hd Hr. unfold take_digits, codes. rewrite span_spec; [|..|done].
  - f_equal. induction Hd as [|c ds Hc _ IH]; [done|]. cbn. by rewrite digitValue_code, IH.
  - apply Forall_fmap. eapply Forall_impl; [exact Hd|]. intros c Hc. cbn. rewrite isDigit_code; [done|]. apply digit_code in Hc. lia.
Qed.

Lemma sign_of_digit c rest : is_digit c = true → sign_of (N_of_ascii c :: rest) = (false, N_of_ascii c :: rest).
Proof.
  intros H%digit_code. unfold sign_of, is_sign.
  rewrite (proj2 (eqb_false _ _)), (proj2 (eqb_false _ _)) by lia. done.
Qed.

Lemma read_exp_value ds n :
  all_digits ds → (0 ≤ n ≤ maxExponent)%Z →
  read_exp ds n = if (digits_from n ds <=? maxExponent)%Z then Some (digits_from n ds) else None.
Proof.
  intros Hd. revert n. induction Hd as [|c ds Hc Hd IH]; intros n Hn; cbn [read_exp].
  - change (digits_from n []) with n. by rewrite (proj2 (Z.leb_le n maxExponent) (proj2 Hn)).
  - change (digits_from n (c :: ds)) with (digits_from (n * 10 + digit_value c) ds). pose proof (digit_range c Hc) as Hr.
    assert (H60 : (10 ≤ maxExponent)%Z) by (unfold maxExponent; lia).
    rewrite Z.quot_div_nonneg by lia. pose proof (Z.div_mod (maxExponent - digit_value c) 10 ltac:(lia)) as Hdm.
    pose proof (Z.mod_pos_bound (maxExponent - digit_value c) 10 ltac:(lia)) as Hb.
    destruct (_ <? n)%Z eqn:L; [apply Z.ltb_lt in L|apply Z.ltb_ge in L].
    + rewrite (proj2 (Z.leb_gt _ _)); [done|]. rewrite digits_from_shift. pose proof (digits_value_bound ds Hd).
      pose proof (pow10_pos (length ds)). nia.
    + apply IH. lia.
Qed.

(** An exponent as it is written. *)
Lemma exponent_written e plus z rest :
  is_exp e = true → (- maxExponent ≤ z ≤ maxExponent)%Z → no_digit rest →
  exponent (e :: codes ((if plus && (0 <=? z)%Z then ["+"%char] else []) ++ FormatInt z) ++ rest) = Some (z, rest).
Proof.
  intros He Hz Hr. destruct (FormatInt_digits z) as (ds & Hne & Hd & Hv & ->).
  assert (Hs : sign_of (codes ((if plus && (0 <=? z)%Z then ["+"%char] else []) ++ (if (z <? 0)%Z then "-"%char :: ds else ds)) ++ rest)
    = ((z <? 0)%Z, codes ds ++ rest)).
  { destruct (z <? 0)%Z eqn:L; [apply Z.ltb_lt in L; by rewrite (proj2 (Z.leb_gt _ _)), andb_false_r by lia|].
    destruct (plus && _); [done|]. cbn [app]. destruct ds as [|c ds]; [done|]. apply Forall_cons in Hd as [Hc _]. by apply sign_of_digit. }
  unfold exponent. rewrite He, Hs, take_digits_codes by done. destruct (is_nil ds) eqn:N; [by apply is_nil_true in N|].
  rewrite read_exp_value by (try done; unfold maxExponent; lia). change (digits_from 0 ds) with (digits_value ds). rewrite Hv.
  rewrite (proj2 (Z.leb_le _ _)) by lia. cbn. do 2 f_equal. destruct (z <? 0)%Z eqn:L; [apply Z.ltb_lt in L|apply Z.ltb_ge in L]; lia.
Qed.

(** What follows the digits of a number: nothing, or an exponent. *)
Definition tail_of (tail : list rune) (e : Z) : Prop :=
  exponent tail = Some (e, []) ∧ ∀ r, head tail = Some r → isDigit r = false ∧ r ≠ 46%N.

Definition signed (minus : bool) (s : bytes) : bytes := (if minus then ["-"%char] else []) ++ s.

(** A point and the digits after it, if there is one. *)
Definition pointed (frac : option bytes) : bytes := match frac with Some ds => "."%char :: ds | None => [] end.

Lemma parse_written minus int frac tail e :
  all_digits int → all_digits (default [] frac) → int ≠ [] → tail_of tail e →
  parse_runes (codes (signed minus (int ++ pointed frac)) ++ tail)
  = Some (newDecimal minus (int ++ default [] frac) (e - Z.of_nat (length (default [] frac))), (Z.of_nat (length (default [] frac)) - e)%Z).
Proof.
  intros Hi Hf Hne [He Ht]. unfold parse_runes.
  assert (Hs : sign_of (codes (signed minus (int ++ pointed frac)) ++ tail) = (minus, codes (int ++ pointed frac) ++ tail)).
  { destruct minus; [done|]. destruct int as [|c int]; [done|]. apply Forall_cons in Hi as [Hc _]. by apply sign_of_digit. }
  rewrite Hs. assert (Hm : mantissa (codes (int ++ pointed frac) ++ tail) = (int, default [] frac, tail)).
  { unfold mantissa, codes. rewrite fmap_app, <-(assoc_L (++)). change (N_of_ascii <$> int) with (codes int). rewrite take_digits_codes; [|done|].
    - destruct frac as [ds|]; cbn [pointed fmap list_fmap app default].
      + change (eqb (N_of_ascii ".") 46%N) with true. cbn iota. change (N_of_ascii <$> ds) with (codes ds).
        rewrite take_digits_codes; [done|done|]. intros r Hr. by apply Ht.
      + destruct tail as [|r tail]; [done|]. destruct (Ht r eq_refl) as [_ Hr]. by rewrite (proj2 (eqb_false _ _)).
    - intros r. destruct frac as [ds|]; cbn [pointed fmap list_fmap app]; [|intros Hr; by apply Ht].
      intros [= <-]. done. }
  rewrite Hm. destruct int as [|c int]; [done|]. cbn [is_nil andb]. rewrite He. cbn. done.
Qed.

Lemma tail_nil : tail_of [] 0.
Proof. by split. Qed.

Lemma tail_exp c plus z :
  is_exp (N_of_ascii c) = true → (- maxExponent ≤ z ≤ maxExponent)%Z →
  tail_of (codes (c :: (if plus && (0 <=? z)%Z then ["+"%char] else []) ++ FormatInt z)) z.
Proof.
  intros Hc Hz. split.
  - pose proof (exponent_written (N_of_ascii c) plus z [] Hc Hz ltac:(done)) as H. by rewrite app_nil_r in H.
  - intros r [= <-]. unfold is_exp in Hc. apply orb_true_iff in Hc as [Hc|Hc]; apply (proj1 (eqb_true _ _)) in Hc; rewrite Hc; done.
Qed.
End read.

Lemma TrimLeft_zeros n s : (∀ c, head s = Some c → c ≠ "0"%char) → TrimLeft "0" (replicate n "0"%char ++ s) = s.
Proof.
  intros H. unfold TrimLeft, drop_while. rewrite span_spec; [done| |].
  - apply Forall_replicate. apply eqb_refl.
  - intros c Hc. apply eqb_false. by apply H.
Qed.

Lemma TrimRight_zeros n s : solid_end s → TrimRight "0" (s ++ replicate n "0"%char) = s.
Proof.
  intros H. unfold TrimRight, drop_while_end. rewrite reverse_app, reverse_replicate.
  change (drop_while _ (replicate n "0"%char ++ reverse s)) with (TrimLeft "0" (replicate n "0"%char ++ reverse s)).
  rewrite TrimLeft_zeros; [apply reverse_involutive|]. intros c Hc. apply H. rewrite <-(reverse_involutive s), last_reverse. done.
Qed.

(** A normal coefficient between zeros. *)
Lemma newDecimal_zeros d n k :
  wf d → coef d ≠ [] →
  newDecimal (neg d) (replicate n "0"%char ++ coef d ++ replicate k "0"%char) (exp d - Z.of_nat k) = d.
Proof.
  intros (Hd & Hh & Hl & _) Hne. unfold newDecimal.
  rewrite TrimLeft_zeros by (destruct (coef d); [done|]; intros ? [= <-]; by apply Hh).
  destruct (coef d ++ _) as [|c l] eqn:E; [by apply app_nil in E as [? _]|]. rewrite <-E, TrimRight_zeros by done.
  rewrite length_app, length_replicate. destruct d as [sg cf ex]. cbn in *. f_equal. lia.
Qed.

(** ** Round trips *)

Section trips.
Context {table : UnicodeTable}.

Definition plain (c : ascii) : bool := is_digit c || member c ["."; "-"; "+"; "e"; "E"]%char.

Lemma number_ascii s : Forall (λ c, plain c = true) s → is_ascii s.
Proof.
  intros H. eapply Forall_impl; [exact H|]. intros c. unfold plain. rewrite orb_true_iff. intros [Hc%digit_code|Hc]; [lia|].
  apply member_true in Hc. repeat (apply elem_of_cons in Hc as [->|Hc]; [cbn; lia|]). by apply elem_of_nil in Hc.
Qed.

Lemma digits_plain ds : all_digits ds → Forall (λ c, plain c = true) ds.
Proof. intros H. eapply Forall_impl; [exact H|]. intros c Hc. cbn in *. unfold plain. by rewrite Hc. Qed.

Lemma FormatInt_plain z : Forall (λ c, plain c = true) (FormatInt z).
Proof.
  destruct (FormatInt_digits z) as (ds & _ & Hd%digits_plain & _ & ->). destruct (z <? 0)%Z; [|done]. by constructor.
Qed.

Lemma parseDecimal_written minus int frac tail e :
  all_digits int → all_digits (default [] frac) → int ≠ [] → Forall (λ c, plain c = true) tail → tail_of (codes tail) e →
  parseDecimal (string_of (signed minus (int ++ pointed frac) ++ tail))
  = Some (newDecimal minus (int ++ default [] frac) (e - Z.of_nat (length (default [] frac))), (Z.of_nat (length (default [] frac)) - e)%Z).
Proof.
  intros Hi Hf Hne Ht He. rewrite <-(parse_written minus int frac (codes tail) e) by done. unfold parseDecimal. rewrite bytes_of_string_of.
  assert (Ha : Forall (λ c, plain c = true) (signed minus (int ++ pointed frac) ++ tail)).
  { unfold signed. repeat apply Forall_app_2; try done; [by destruct minus; repeat constructor|by apply digits_plain|].
    destruct frac as [ds|]; [|constructor]. constructor; [done|by apply digits_plain]. }
  rewrite runes_codes by by apply number_ascii. unfold codes at 1. rewrite fmap_app.
  destruct minus; [done|]. destruct int as [|c int]; [done|]. apply Forall_cons in Hi as [Hc _]. cbn [signed app].
  assert (Hm : may_start c = true) by (unfold may_start; rewrite Hc; by rewrite orb_true_r). by rewrite Hm.
Qed.

(** *** [String] *)

Lemma zeros_digits n : all_digits (zeros n).
Proof. apply all_digits_zeros. Qed.

Lemma coef_split d n : wf d → all_digits (take n (coef d)) ∧ all_digits (drop n (coef d)).
Proof. intros (Hd & _). split; [by apply Forall_take|by apply Forall_drop]. Qed.

(** A text of the digits of a number, in any of its forms, with zeros on both sides. *)
Lemma trip_form d n k int frac tail e :
  wf d → coef d ≠ [] → all_digits int → all_digits (default [] frac) → int ≠ [] →
  Forall (λ c, plain c = true) tail → tail_of (codes tail) e →
  int ++ default [] frac = replicate n "0"%char ++ coef d ++ replicate k "0"%char →
  (e - Z.of_nat (length (default [] frac)) = exp d - Z.of_nat k)%Z →
  ParseDecimal (string_of (signed (neg d) (int ++ pointed frac) ++ tail)) = Some d.
Proof.
  intros W Hne Hi Hf Hn Ht He Hz Hx. unfold ParseDecimal. rewrite (parseDecimal_written _ int frac tail e) by done. cbn.
  by rewrite Hz, Hx, newDecimal_zeros.
Qed.

(** *** The second pass of [BigDecimalText] *)

Lemma isDigit_other r : (r < 128)%N → is_digit (byte_of r) = false → isDigit r = false.
Proof. intros H Hd. unfold isDigit, IsDigit. apply N.ltb_lt in H. by rewrite H, Hd, andb_false_r. Qed.

Lemma digit_rune r : isDigit r = true → is_exp r = false ∧ eqb r 46%N = false ∧ is_sign r = false.
Proof.
  intros H. unfold is_exp, is_sign. split_and!; rewrite ?orb_false_iff; split_and?; apply (proj2 (eqb_false _ _)); intros ->; by rewrite isDigit_other in H.
Qed.

Lemma digitValue_digit r : is_digit (digitValue r) = true.
Proof.
  unfold digitValue, is_digit, within. destruct ((48 <=? r) && (r <=? 57))%N eqn:E; bool_simp.
  - rewrite byte_of_N by lia. change (N_of_ascii "0") with 48%N. change (N_of_ascii "9") with 57%N. lia.
  - pose proof (N.mod_lt (run_below (N.to_nat r) r) 10 ltac:(lia)) as H. revert H.
    generalize (run_below (N.to_nat r) r mod 10)%N. intros x H. rewrite byte_of_N by lia.
    change (N_of_ascii "0") with 48%N. change (N_of_ascii "9") with 57%N. lia.
Qed.

Lemma take_digits_span rs ds rest :
  take_digits rs = (ds, rest) →
  ∃ us, rs = us ++ rest ∧ ds = digitValue <$> us ∧ Forall (λ r, isDigit r = true) us.
Proof.
  unfold take_digits. destruct (span isDigit rs) as [us t] eqn:E. intros [= <- <-]. exists us.
  split_and!; [by apply span_app in E|done|by apply span_all in E].
Qed.


Lemma scan_digits us rest b :
  Forall (λ r, isDigit r = true) us →
  scan (us ++ rest) b = let '(digits, n, tail) := scan rest b in ((digitValue <$> us) ++ digits, (if b : bool then length us + n else n), tail).
Proof.
  intros Hu. induction Hu as [|r us Hr Hu IH]; [cbn; by destruct (scan rest b) as [[? ?] ?], b|].
  destruct (digit_rune r Hr) as (E1 & E2 & _). cbn [app scan]. rewrite E1, E2, IH. by destruct (scan rest b) as [[? ?] ?], b.
Qed.

Lemma scan_tail tail e b : exponent tail = Some (e, []) → scan tail b = ([], 0, tail).
Proof. destruct tail as [|r tail]; [done|]. cbn. by destruct (is_exp r). Qed.

Lemma scan_mantissa rs int frac tail e :
  mantissa rs = (int, frac, tail) → exponent tail = Some (e, []) → scan rs false = (int ++ frac, length frac, tail).
Proof.
  unfold mantissa. destruct (take_digits rs) as [i rest] eqn:E. apply take_digits_span in E as (us & -> & -> & Hu).
  intros H He. rewrite scan_digits by done. destruct rest as [|r rest]; [injection H as <- <- <-; cbn; done|].
  destruct (eqb r 46%N) eqn:Hp.
  - destruct (take_digits rest) as [f t] eqn:F. apply take_digits_span in F as (vs & -> & -> & Hv). injection H as <- <- <-.
    apply (proj1 (eqb_true _ _)) in Hp as ->. cbn [scan]. change (is_exp 46%N) with false. change (eqb 46%N 46%N) with true. cbn iota.
    rewrite scan_digits, (scan_tail _ _ _ He) by done. by rewrite app_nil_r, length_fmap, Nat.add_0_r.
  - injection H as <- <- <-. by rewrite (scan_tail _ _ _ He).
Qed.

Lemma Atoi_written minus ds :
  all_digits ds → ds ≠ [] → (digits_value ds < 2 ^ 63)%Z →
  ∀ sg, sg = (if minus : bool then ["-"%char] else []) ∨ (sg = ["+"%char] ∧ minus = false) →
  Atoi (sg ++ ds) = Some (if minus then - digits_value ds else digits_value ds)%Z.
Proof.
  intros Hd Hne Hv sg Hs. unfold Atoi.
  assert (E : match sg ++ ds with "-"%char :: ds => (true, ds) | "+"%char :: ds => (false, ds) | _ => (false, sg ++ ds) end = (minus, ds)).
  { destruct Hs as [->|[-> ->]]; [|done]. destruct minus; [done|]. cbn [app]. destruct ds as [|c ds]; [done|].
    apply Forall_cons in Hd as [Hc _]. destruct c as [[] [] [] [] [] [] [] []]; done. }
  rewrite E. destruct (is_nil ds) eqn:N; [by apply is_nil_true in N|].
  assert (Ha : all is_digit ds = true) by (apply forallb_forall; by apply List.Forall_forall). rewrite Ha. cbn [negb orb].
  pose proof (digits_value_bound ds Hd). assert (B : ((- 2 ^ 63 <=? (if minus then - digits_value ds else digits_value ds)) && ((if minus then - digits_value ds else digits_value ds) <? 2 ^ 63))%Z = true).
  { rewrite andb_true_iff, Z.leb_le, Z.ltb_lt. destruct minus; lia. }
  by rewrite B.
Qed.

Lemma sign_of_spec rs minus rest :
  sign_of rs = (minus, rest) →
  ∃ sg, rs = codes sg ++ rest ∧ (sg = (if minus then ["-"%char] else []) ∨ (sg = ["+"%char] ∧ minus = false)).
Proof.
  destruct rs as [|r rs]; cbn; [intros [= <- <-]; exists []; auto|]. destruct (is_sign r) eqn:S; [|intros [= <- <-]; exists []; auto].
  intros [= <- <-]. unfold is_sign in S. apply orb_true_iff in S as [S|S]; apply (proj1 (eqb_true _ _)) in S as ->.
  - exists ["+"%char]. auto.
  - exists ["-"%char]. auto.
Qed.

Lemma bind_digits us : Forall (λ r, isDigit r = true) us → us ≫= exp_digit = digitValue <$> us.
Proof. intros H. induction H as [|r us Hr _ IH]; [done|]. cbn. unfold exp_digit at 1. rewrite Hr. cbn. by f_equal. Qed.

Lemma digitValues us : all_digits (digitValue <$> us).
Proof. apply Forall_fmap, Forall_true. intros r. apply digitValue_digit. Qed.

Lemma scan_exponent tail e : exponent tail = Some (e, []) → scan_exp tail = e.
Proof.
  destruct tail as [|r rest]; [by intros [= <-]|]. cbn [exponent scan_exp]. destruct (is_exp r); [|done].
  destruct (sign_of rest) as [minus t] eqn:S. apply sign_of_spec in S as (sg & -> & Hs).
  destruct (take_digits t) as [ds t'] eqn:T. apply take_digits_span in T as (us & -> & -> & Hu).
  destruct (is_nil _) eqn:N; [done|]. rewrite read_exp_value by (try apply digitValues; unfold maxExponent; lia).
  change (digits_from 0 ?x) with (digits_value x). destruct (_ <=? _)%Z eqn:L; [|done]. cbn. intros [= <- ->]. apply Z.leb_le in L.
  rewrite app_nil_r, bind_app, (bind_digits us) by done.
  assert (E : codes sg ≫= exp_digit = sg) by (destruct Hs as [->|[-> _]]; [by destruct minus|done]).
  assert (Hne : digitValue <$> us ≠ []) by (intros X; by rewrite X in N).
  assert (Hb : (digits_value (digitValue <$> us) < 2 ^ 63)%Z) by (unfold maxExponent in L; lia).
  by rewrite E, (Atoi_written minus _ (digitValues us) Hne Hb sg Hs).
Qed.

(** What the second pass reads of a number the first one takes. *)
Lemma second_pass rs d scale :
  parse_runes rs = Some (d, scale) →
  ∃ minus rs' digits fracDigits tail,
    sign_of rs = (minus, rs') ∧ scan rs' false = (digits, fracDigits, tail) ∧ all_digits digits
    ∧ scale = (Z.of_nat fracDigits - scan_exp tail)%Z ∧ d = newDecimal minus digits (- scale)
    ∧ length digits ≤ length rs ∧ digits ≠ [].
Proof.
  unfold parse_runes. destruct (sign_of rs) as [minus rs'] eqn:S. destruct (mantissa rs') as [[int frac] tail] eqn:M.
  destruct (is_nil int && is_nil frac) eqn:N; [done|]. destruct (exponent tail) as [[e rest]|] eqn:E; [cbn|done].
  destruct (is_nil rest) eqn:R; [|done]. apply is_nil_true in R as ->. intros [= <- <-].
  pose proof (scan_mantissa _ _ _ _ _ M E) as Hs. pose proof (scan_exponent _ _ E) as He.
  assert (Hm : all_digits (int ++ frac) ∧ length (int ++ frac) ≤ length rs').
  { unfold mantissa in M. destruct (take_digits rs') as [i t] eqn:T. apply take_digits_span in T as (us & -> & -> & _).
    assert (M0 : all_digits ((digitValue <$> us) ++ []) ∧ length ((digitValue <$> us) ++ []) ≤ length (us ++ t)).
    { rewrite app_nil_r, length_app, length_fmap. split; [apply digitValues|lia]. }
    destruct t as [|r t]; [injection M as <- <- <-; exact M0|]. destruct (eqb r 46%N); [|injection M as <- <- <-; exact M0].
    destruct (take_digits t) as [f t'] eqn:F. apply take_digits_span in F as (vs & -> & -> & _). injection M as <- <- <-.
    rewrite !length_app, !length_fmap. split; [apply Forall_app_2; apply digitValues|cbn; rewrite length_app; lia]. }
  apply sign_of_spec in S as S'. destruct S' as (sg & -> & _). rewrite length_app. destruct Hm as [Hd Hl].
  eexists _, _, _, _, _. split_and!; [done|exact Hs|done|by rewrite He|f_equal; lia|lia|].
  intros X%app_nil. destruct X as [-> ->]. done.
Qed.

Lemma exp_tail c plus z :
  is_exp (N_of_ascii c) = true → (- maxExponent ≤ z ≤ maxExponent)%Z →
  Forall (λ x, plain x = true) (c :: (if plus && (0 <=? z)%Z then ["+"%char] else []) ++ FormatInt z) ∧
  tail_of (codes (c :: (if plus && (0 <=? z)%Z then ["+"%char] else []) ++ FormatInt z)) z.
Proof.
  intros Hc Hz. split; [|by apply tail_exp]. constructor.
  - destruct c as [[] [] [] [] [] [] [] []]; done.
  - apply Forall_app_2; [by destruct (plus && _); repeat constructor|apply FormatInt_plain].
Qed.

(** One digit, the rest after a point if there is any, and an exponent. *)
Lemma scientific c cs : take 1 (c :: cs) ++ (if (1 <? length (c :: cs))%nat then "."%char :: drop 1 (c :: cs) else [])
  = [c] ++ pointed (if is_nil cs then None else Some cs).
Proof. by destruct cs. Qed.

Lemma scientific_rest (cs : bytes) : default [] (if is_nil cs then None else Some cs) = cs.
Proof. by destruct cs. Qed.

Lemma String_scientific d :
  wf d → coef d ≠ [] → (- maxExponent ≤ adjusted d ≤ maxExponent)%Z →
  ParseDecimal (string_of (signed (neg d) (take 1 (coef d) ++ (if (1 <? length (coef d))%nat then "."%char :: drop 1 (coef d) else [])
    ++ "e"%char :: FormatInt (adjusted d)))) = Some d.
Proof.
  intros W Hne Hb. destruct (exp_tail "e" false (adjusted d) eq_refl Hb) as [Hp Ht]. cbn [andb app] in Hp, Ht.
  destruct (coef d) as [|c cs] eqn:E; [done|].
  assert (Hd : is_digit c = true ∧ all_digits cs) by (destruct W as (Hd & _); rewrite E in Hd; by apply Forall_cons in Hd).
  pose proof (trip_form d 0 0 [c] (if is_nil cs then None else Some cs) ("e"%char :: FormatInt (adjusted d)) (adjusted d) W) as H. rewrite E, scientific_rest in H.
  rewrite (assoc_L (++) (take 1 _)), scientific. unfold signed in *. rewrite (assoc_L (++)). eapply H; try done; try apply Hd.
  - constructor; [apply Hd|constructor].
  - cbn. by rewrite app_nil_r.
  - unfold adjusted. rewrite E. cbn. lia.
Qed.

(** Digits before and after a point, without an exponent. *)
Lemma trip_point d n int frac :
  wf d → coef d ≠ [] → all_digits int → all_digits frac → int ≠ [] →
  int ++ frac = replicate n "0"%char ++ coef d → (- Z.of_nat (length frac) = exp d)%Z →
  ParseDecimal (string_of (signed (neg d) (int ++ "."%char :: frac))) = Some d.
Proof.
  intros W Hne Hi Hf Hn Hz Hx. rewrite <-(app_nil_r (signed _ _)).
  apply (trip_form d n 0 int (Some frac) [] 0); try done; [|cbn; lia].
  change (int ++ frac = replicate n "0"%char ++ coef d ++ []). by rewrite app_nil_r.
Qed.

Theorem String_trip d :
  wf d → (- maxExponent ≤ adjusted d ≤ maxExponent)%Z → ParseDecimal (string_of (String d)) = Some d.
Proof.
  intros W Hb. destruct (decide (coef d = [])) as [Hz|Hne].
  { destruct W as (_ & _ & _ & W). rewrite (W Hz). done. }
  unfold String, IsZero. destruct (is_nil (coef d)) eqn:N; [by apply is_nil_true in N|]. clear N.
  pose proof (coef_split d) as Sp. set (n := Z.to_nat (adjusted d + 1)).
  assert (Hl : (0 < length (coef d))%nat) by (destruct (coef d); [done|cbn; lia]).
  destruct ((20 <=? adjusted d) || (adjusted d <? -7))%Z eqn:F1; [by apply String_scientific|].
  destruct (0 <=? exp d)%Z eqn:F2; [apply Z.leb_le in F2|apply Z.leb_gt in F2].
  { pose proof (trip_form d 0 (Z.to_nat (exp d)) (coef d ++ zeros (exp d)) None [] 0 W Hne) as H.
    cbn [pointed default] in H. rewrite !app_nil_r in H. apply H; try done; [|constructor| |cbn; lia].
    - apply Forall_app_2; [apply W|apply zeros_digits].
    - intros X. apply app_nil in X as [X _]. done. }
  destruct (0 <=? adjusted d)%Z eqn:F3; [apply Z.leb_le in F3|apply Z.leb_gt in F3].
  - apply (trip_point d 0); try done; try apply (Sp n W); [|by rewrite take_drop|rewrite length_drop; unfold adjusted in *; unfold n; lia].
    intros X%(f_equal length). rewrite length_take in X. cbn in X. unfold n in X. lia.
  - apply (trip_point d (S (Z.to_nat (- adjusted d - 1))) ["0"%char] (zeros (- adjusted d - 1) ++ coef d)); try done.
    + by constructor.
    + apply Forall_app_2; [apply zeros_digits|apply W].
    + unfold zeros. rewrite length_app, length_replicate. unfold adjusted in *. lia.
Qed.

(** *** The text of [BigDecimal] *)

Lemma newDecimal_lead neg n coef exp : newDecimal neg (replicate n "0"%char ++ coef) exp = newDecimal neg coef exp.
Proof.
  unfold newDecimal. assert (E : TrimLeft "0" (replicate n "0"%char ++ coef) = TrimLeft "0" coef); [|by rewrite E].
  induction n as [|n IH]; [done|]. rewrite <-IH. unfold TrimLeft, drop_while. cbn. by destruct (span _ (replicate n "0"%char ++ coef)).
Qed.

Lemma newDecimal_trim neg coef exp : newDecimal neg (TrimLeft "0" coef) exp = newDecimal neg coef exp.
Proof. destruct (TrimLeft_split "0" coef) as [n Hn]. rewrite Hn at 2. by rewrite newDecimal_lead. Qed.

(** Digits before and after a point, without an exponent. *)
Lemma parse_point minus int frac :
  all_digits int → all_digits frac → int ≠ [] →
  parseDecimal (string_of (signed minus (int ++ "."%char :: frac)))
  = Some (newDecimal minus (int ++ frac) (- Z.of_nat (length frac)), Z.of_nat (length frac)).
Proof.
  intros Hi Hf Hn. rewrite <-(app_nil_r (signed _ _)). change ("."%char :: frac) with (pointed (Some frac)).
  rewrite (parseDecimal_written minus int (Some frac) [] 0) by done.
  change (default [] (Some frac)) with frac. do 2 f_equal; lia.
Qed.

Lemma write_scaled_read minus coef scale :
  coef ≠ [] → all_digits coef → in_int32 scale = true → (Z.of_nat (length coef) ≤ 2 ^ 59)%Z →
  parseDecimal (string_of (write_scaled minus coef scale)) = Some (newDecimal minus coef (- scale), scale).
Proof.
  intros Hne Hd Hs Hl. unfold in_int32 in Hs. apply andb_true_iff in Hs as [Hs1%Z.leb_le Hs2%Z.leb_le].
  assert (Hpos : (0 < length coef)%nat) by (destruct coef; [done|cbn; lia]).
  unfold write_scaled. change (?x ++ (if (scale =? 0)%Z then coef else ?y)) with (signed minus (if (scale =? 0)%Z then coef else y)).
  destruct (scale =? 0)%Z eqn:F0; [apply Z.eqb_eq in F0 as ->|apply Z.eqb_neq in F0].
  { pose proof (parseDecimal_written minus coef None [] 0 Hd) as H. cbn [pointed] in H. rewrite !app_nil_r in H. apply H; try done; constructor. }
  destruct ((0 <? scale) && _)%Z eqn:F1; [|].
  - apply andb_true_iff in F1 as [F1%Z.ltb_lt _]. destruct (scale <? Z.of_nat (length coef))%Z eqn:F2; [apply Z.ltb_lt in F2|apply Z.ltb_ge in F2].
    + set (k := Z.to_nat (Z.of_nat (length coef) - scale)). rewrite parse_point; [|by apply Forall_take|by apply Forall_drop|].
      * rewrite take_drop, length_drop. do 2 f_equal; [f_equal|]; unfold k; lia.
      * intros X%(f_equal length). rewrite length_take in X. cbn in X. unfold k in X. lia.
    + change ("0"%char :: "."%char :: ?x) with (["0"%char] ++ "."%char :: x). rewrite (parse_point minus ["0"%char]); [|by constructor|apply Forall_app_2; [apply zeros_digits|done]|done].
      change (["0"%char] ++ zeros ?n ++ coef) with (replicate (S (Z.to_nat n)) "0"%char ++ coef). rewrite newDecimal_lead.
      unfold zeros. rewrite length_app, length_replicate. do 2 f_equal; [f_equal|]; lia.
  - set (adj := (- scale + Z.of_nat (length coef) - 1)%Z).
    assert (Hb : (- maxExponent ≤ adj ≤ maxExponent)%Z) by (unfold adj, maxExponent; lia).
    destruct coef as [|c cs]; [done|]. apply Forall_cons in Hd as [Hc Hd].
    destruct (exp_tail "E" (0 <? adj)%Z adj eq_refl Hb) as [Hp Ht].
    assert (Hsg : (0 <? adj)%Z && (0 <=? adj)%Z = (0 <? adj)%Z) by (destruct (0 <? adj)%Z eqn:L; [apply Z.ltb_lt in L; apply Z.leb_le; lia|done]).
    rewrite Hsg in Hp, Ht. rewrite (assoc_L (++) (take 1 _)), scientific. unfold signed. rewrite (assoc_L (++)).
    change (?x ++ [c] ++ ?y) with (signed minus ([c] ++ y)).
    rewrite (parseDecimal_written minus [c] (if is_nil cs then None else Some cs) _ adj); rewrite ?scientific_rest; try done; [|by constructor].
    cbn [app]. do 2 f_equal; [f_equal|]; unfold adj; cbn [length]; lia.
Qed.

Lemma bytes_of_length s : length (bytes_of s) = String.length s.
Proof. unfold bytes_of. induction s; cbn; [done|by f_equal]. Qed.

Lemma decode_length fuel s : length (decode fuel s) ≤ fuel.
Proof.
  revert s. induction fuel as [|fuel IH]; intros s; [done|]. cbn [decode]. destruct s; [cbn; lia|].
  destruct (DecodeRune _) as [r w]. cbn [length]. pose proof (IH (drop w (a :: s))). lia.
Qed.

Lemma TrimLeft_length c s : length (TrimLeft c s) ≤ length s.
Proof. destruct (TrimLeft_split c s) as [n Hn]. rewrite Hn at 2. rewrite length_app. lia. Qed.

(** The text [BigDecimalText] gives has the number and the scale of the text it is given. *)
Theorem BigDecimalText_kept s t :
  (Z.of_nat (String.length s) ≤ 2 ^ 59)%Z → BigDecimalText s = Some t → parseDecimal (string_of t) = parseDecimal s.
Proof.
  intros Hl. unfold BigDecimalText, ParseBigDecimal. destruct (parseDecimal s) as [[d scale]|] eqn:E; [|done]. unfold mbind, option_bind. cbv beta iota.
  destruct (in_int32 scale) eqn:Hs; [|done]. unfold parseDecimal in E. destruct (bytes_of s) as [|c l] eqn:B; [done|].
  destruct (may_start c); [|done]. destruct (second_pass _ _ _ E) as (minus & rs & digits & n & tail & S & Sc & Hd & -> & -> & Hn & Hne).
  rewrite S, Sc. cbv beta iota. intros Ht. apply (inj Some) in Ht as <-.
  assert (Hb : (Z.of_nat (length digits) ≤ 2 ^ 59)%Z).
  { rewrite length_fmap in Hn. pose proof (decode_length (length (c :: l)) (c :: l)) as Hr.
    change (length (runes (c :: l)) ≤ length (c :: l)) in Hr. rewrite <-B, bytes_of_length in Hr. rewrite <-B in Hn. lia. }
  destruct (is_nil (TrimLeft "0" digits)) eqn:N.
  - apply is_nil_true in N. rewrite write_scaled_read; try done; [|by constructor]. do 2 f_equal.
    rewrite <-(newDecimal_trim minus), N. done.
  - rewrite write_scaled_read; try done.
    + by rewrite newDecimal_trim.
    + intros X. by rewrite X in N.
    + destruct (TrimLeft_split "0" digits) as [k Hk]. rewrite Hk in Hd. by apply Forall_app in Hd as [_ ?].
    + pose proof (TrimLeft_length "0" digits). lia.
Qed.

(** The rational a text writes: its digits over the power of ten its scale tells. *)
Definition text_value (s : string) : Q :=
  let '(minus, rs) := sign_of ((runes (bytes_of s)).*1) in
  let '(digits, n, tail) := scan rs false in
  (inject_Z ((if minus then -1 else 1) * digits_value digits) * Qpower (inject_Z 10) (scan_exp tail - Z.of_nat n))%Q.

Lemma newDecimal_value neg coef exp :
  all_digits coef →
  (value (newDecimal neg coef exp) == inject_Z ((if neg then -1 else 1) * digits_value coef) * Qpower (inject_Z 10) exp)%Q.
Proof.
  intros Hd. set (d := newDecimal neg coef exp). set (m := Z.min exp (Decimal.exp d)).
  rewrite (value_num d m) by (unfold m; lia). unfold d. rewrite newDecimal_num by (try done; unfold m; lia).
  replace exp with ((exp - m) + m)%Z at 2 by lia. rewrite Qpower_plus, Z.mul_assoc, !inject_Z_mult, Zpower_Qpower by (try done; unfold m; lia).
  ring.
Qed.

Lemma ParseDecimal_value s d : ParseDecimal s = Some d → wf d ∧ (value d == text_value s)%Q.
Proof.
  unfold ParseDecimal, parseDecimal, text_value. destruct (bytes_of s) as [|c l] eqn:B; [done|].
  destruct (may_start c); [|done]. destruct (parse_runes _) as [[d' scale]|] eqn:E; [|done]. intros [= <-].
  destruct (second_pass _ _ _ E) as (minus & rs & digits & n & tail & -> & -> & Hd & -> & -> & _).
  split; [by apply newDecimal_wf|]. rewrite newDecimal_value by done. replace (- (Z.of_nat n - scan_exp tail))%Z with (scan_exp tail - Z.of_nat n)%Z by lia.
  reflexivity.
Qed.

(** The order of two decimals is that of the rationals their texts write. *)
Theorem compare_exact s t d e :
  ParseDecimal s = Some d → ParseDecimal t = Some e →
  Compare d e = Z_of_comparison (Qcompare (text_value s) (text_value t)).
Proof.
  intros Hd He. apply ParseDecimal_value in Hd as [Wd <-], He as [We <-]. by apply Compare_value.
Qed.
End trips.

(** ** The cases of the tests *)

(** The Arabic-Indic digits past ASCII. *)
#[local] Instance arabic_digits : UnicodeTable :=
  {| print_table _ := true; letter_table _ := false; digit_table r := ((1632 <=? r) && (r <=? 1641))%N |}.

Example texts :
  (λ s, string_of <$> BigDecimalText s) <$>
    ["5"; "-0"; "0.0"; "1.50"; "010"; "1e7"; "0.000001"; "0.0000001"; "0.0000010"; "123.456e3"; "-1.5e-10"; "0E-10"; ".5"; "5."; "+7";
     "٣.٥"; "12345678901234567890"; "NaN"; " 5"; "1.1e-2147483647"]%string
  = [Some "5"; Some "0"; Some "0.0"; Some "1.50"; Some "10"; Some "1E+7"; Some "0.000001"; Some "1E-7"; Some "0.0000010"; Some "123456";
     Some "-1.5E-10"; Some "0E-10"; Some "0.5"; Some "5"; Some "7"; Some "3.5"; Some "12345678901234567890"; None; None; None]%string.
Proof. vm_compute. reflexivity. Qed.

Example strings :
  (λ s, string_of ∘ String <$> ParseDecimal s) <$> ["2.50"; "1e400"; "15e399"; "-0.0"; "0.00012"; "1e-8"; "1e19"; "1e20"; "1e1152921504606846977"]%string
  = [Some "2.5"; Some "1e400"; Some "1.5e400"; Some "0"; Some "0.00012"; Some "1e-8"; Some "10000000000000000000"; Some "1e20"; None]%string.
Proof. vm_compute. reflexivity. Qed.

Lemma compare_exact_witness :
  Compare (MkDecimal false ["1"%char] 400) (MkDecimal true ["3"; "5"]%char (-1)) = Z_of_comparison (Qcompare (text_value "1.00e400") (text_value "-٣.٥")).
Proof. by apply (compare_exact "1.00e400" "-٣.٥"). Defined.

Lemma String_trip_witness : ParseDecimal (string_of (String (MkDecimal true ["1"; "5"]%char 398))) = Some (MkDecimal true ["1"; "5"]%char 398).
Proof.
  apply String_trip; [|vm_compute; by split].
  by apply (proj1 (ParseDecimal_value "-15e398" (MkDecimal true ["1"; "5"]%char 398) eq_refl)).
Defined.

Lemma BigDecimalText_kept_witness : parseDecimal (string_of (bytes_of "-1.50E+9")) = parseDecimal "-15.0e8".
Proof. by apply (BigDecimalText_kept "-15.0e8"). Defined.

End Decimal.
