(* ===== verification/Double.v ===== *)
(** * Double text ([internal/jsonvalue/double.go])

    [DoubleText], the text Java's [Double.toString] gives, over the [float64] numbers as the
    standard library specifies them ([SpecFloat] with 53 bits). The shortest digits of
    [strconv.FormatFloat] are the first, by their count, from which [ParseFloat] reads the
    number back. *)
From Stdlib Require Import SpecFloat.
From S2P Require Import Prelude GoText Json Encoding Digits Decimal.
Import Encoding Digits.

Module Double.

Notation double := spec_float.
Notation prec := 53%Z.
Notation emax := 1024%Z.

Definition of_Z (neg : bool) (m e : Z) : double :=
  match m with
  | 0%Z => S754_zero neg
  | _ => binary_normalize prec emax (if neg then - m else m) e neg
  end.

(** [strconv.ParseFloat] of a number text, a size past the largest number an infinity. *)
Definition of_text (text : bytes) : double := let '(neg, (m, e)) := ParseFloat text in of_Z neg m e.

Definition add : double → double → double := SFadd prec emax.
Definition div : double → double → double := SFdiv prec emax.
Definition lt (x y : double) : bool := SFltb x y.
Definition of_int (n : Z) : double := of_Z (n <? 0)%Z (Z.abs n) 0.

(** ** [strconv.FormatFloat] *)

(** The ratio of two positive integers that is [m * 2 ^ e]. *)
Definition ratio (m e : Z) : Z * Z := if (0 <=? e)%Z then (m * 2 ^ e, 1)%Z else (m, 2 ^ (- e))%Z.

Definition ndigits (n : Z) : Z := match n with 0%Z => 0 | _ => Z.of_nat (length (FormatInt n)) end.

(** The exponent of the first significant digit of [n / d]. *)
Definition log10 (n d : Z) : Z := if (d <=? n)%Z then ndigits (n / d) - 1 else - ndigits ((d - 1) / n).

(** [n / d] over [10 ^ p]: the quotient, the remainder and its divisor. *)
Definition scale10 (n d p : Z) : Z * Z * Z :=
  let '(n, d) := if (0 <=? p)%Z then (n, d * 10 ^ p)%Z else (n * 10 ^ (- p), d)%Z in
  (n / d, n mod d, d)%Z.

(** Whether [q * 10 ^ p] reads as [m * 2 ^ e]. *)
Definition reads (q p m e : Z) : bool :=
  let '(n, d) := if (0 <=? p)%Z then (q * 10 ^ p, 1)%Z else (q, 10 ^ (- p))%Z in
  let '(m', e') := round_double n d in
  if (e <=? e')%Z then (m =? m' * 2 ^ (e' - e))%Z else (m * 2 ^ (e - e') =? m')%Z.

(** To the nearest, ties to even. *)
Definition nearest (q r d : Z) : Z := if (2 * r <? d)%Z then q else if (d <? 2 * r)%Z then q + 1 else if Z.even q then q else q + 1.

(** [FormatFloat(x, 'e', k - 1, 64)]: the digits [q] of [q * 10 ^ p]. *)
Definition fixed (m e k : Z) : Z * Z :=
  let '(n, d) := ratio m e in
  let p := (log10 n d - k + 1)%Z in
  let '(q, r, d) := scale10 n d p in
  (nearest q r d, p).

(** The digits of one count that read back, if any do: those around [m * 2 ^ e]. *)
Definition candidate (m e k : Z) : option (Z * Z) :=
  let '(n, d) := ratio m e in
  let p := (log10 n d - k + 1)%Z in
  let '(q, r, d) := scale10 n d p in
  match reads q p m e, reads (q + 1) p m e with
  | true, true => Some (nearest q r d, p)
  | true, false => Some (q, p)
  | false, true => Some (q + 1, p)
  | false, false => None
  end%Z.

(** [FormatFloat(x, 'e', -1, 64)]. *)
Fixpoint shortest (fuel : nat) (m e k : Z) : Z * Z :=
  match fuel with
  | 0 => (m, 0%Z)
  | S fuel => match candidate m e k with Some r => r | None => shortest fuel m e (k + 1) end
  end.

(** Every number has at most so many digits. *)
Definition max_digits : nat := Z.to_nat 1400.

(** ** The text *)

(** The digits of a number and the exponent of the first. *)
Definition digits_of (q p : Z) : bytes * Z := let ds := FormatInt q in (Decimal.TrimRight "0" ds, p + Z.of_nat (length ds) - 1)%Z.

Definition java_digits (m e : Z) : bytes * Z :=
  let '(q, p) := shortest max_digits m e 1 in
  if (1 <? length (FormatInt q))%nat then digits_of q p
  else let '(q2, p2) := fixed m e 2 in if reads q2 p2 m e then digits_of q2 p2 else digits_of q p.

Definition layout (plain : bool) (digits : bytes) (e10 : Z) : bytes :=
  if plain then
    let n := Z.to_nat (e10 + 1) in
    let '(ip, fp) :=
      if (0 <=? e10)%Z then
        if (e10 + 1 <? Z.of_nat (length digits))%Z then (take n digits, drop n digits)
        else (digits ++ Decimal.zeros (e10 + 1 - Z.of_nat (length digits)), [])
      else (["0"%char], Decimal.zeros (- e10 - 1) ++ digits) in
    ip ++ "."%char :: (if is_nil fp then ["0"%char] else fp)
  else
    let fp := drop 1 digits in
    take 1 digits ++ "."%char :: (if is_nil fp then ["0"%char] else fp) ++ "E"%char :: FormatInt e10.

Definition DoubleText (x : double) : bytes :=
  match x with
  | S754_nan => bytes_of "NaN"
  | S754_infinity false => bytes_of "Infinity"
  | S754_infinity true => bytes_of "-Infinity"
  | S754_zero true => bytes_of "-0.0"
  | S754_zero false => bytes_of "0.0"
  | S754_finite neg m e =>
      let abs := S754_finite false m e in
      let plain := SFleb (of_text (bytes_of "1e-3")) abs && SFltb abs (of_text (bytes_of "1e7")) in
      let '(digits, e10) := java_digits (Zpos m) e in
      (if neg then ["-"%char] else []) ++ layout plain digits e10
  end.

(** The cases of the tests. *)
Example double_texts :
  (λ s, string_of (DoubleText (of_text (bytes_of s)))) <$>
    ["0.001"; "0.00099"; "9999999.999"; "1e7"; "100"; "-2.5"; "0.30000000000000004"; "0.3333333333333333"; "1152921504606846976";
     "5e-324"; "2e-323"; "1e23"; "1.7976931348623157e308"; "-0"; "0"; "1e309"; "-1e309"; "1e-400"]%string
  = ["0.001"; "9.9E-4"; "9999999.999"; "1.0E7"; "100.0"; "-2.5"; "0.30000000000000004"; "0.3333333333333333"; "1.152921504606847E18";
     "4.9E-324"; "2.0E-323"; "1.0E23"; "1.7976931348623157E308"; "-0.0"; "0.0"; "Infinity"; "-Infinity"; "0.0"]%string.
Proof. vm_compute. reflexivity. Qed.

Example sums :
  (λ p, string_of (DoubleText (add (of_text (bytes_of p.1)) (of_text (bytes_of p.2))))) <$>
    [("0.1", "0.2"); ("1e308", "1e308"); ("-0", "0"); ("1e16", "1"); ("2.5", "-2.5")]%string
  = ["0.30000000000000004"; "Infinity"; "0.0"; "1.0E16"; "0.0"]%string.
Proof. vm_compute. reflexivity. Qed.

End Double.
