(* ===== verification/Value.v ===== *)
(** * JSON values with document order ([internal/jsonvalue/value.go])

    The values of the legacy engine: numbers keep their text, objects their order. [Decode]
    reads one document through the token stream of [json.Decoder], which keeps no bound on the
    nesting. [FromAST], which reads values of the policy library, is in [RegoValues]. *)
From S2P Require Import Prelude GoText Json Encoding JsonFields.

Module Value.

(** [jsonvalue.Value]: a [Number] holds its text; the members of an [Object] are its [keys] in
    their order, each with its entry in [values]. *)
Inductive value :=
  | Null
  | Bool (b : bool)
  | Number (text : string)
  | Str (s : string)
  | List (l : list value)
  | Obj (members : list (string * value)).

Definition object := list (string * value).

Definition NewObject : object := [].

(** [Object.Set]: a key the object holds keeps its place. *)
Fixpoint Set_ (key : string) (v : value) (o : object) : object :=
  match o with
  | [] => [(key, v)]
  | (k, w) :: o => if eqb k key then (k, v) :: o else (k, w) :: Set_ key v o
  end.

(** [Object.Get]. *)
Fixpoint Get (key : string) (o : object) : option value :=
  match o with
  | [] => None
  | (k, w) :: o => if eqb k key then Some w else Get key o
  end.

Definition Keys (o : object) : list string := o.*1.
Definition Len (o : object) : nat := length o.

Definition set_member (o : object) (m : string * value) : object := Set_ m.1 m.2 o.

(** [decodeValue] over a value the scanner has read. *)
Fixpoint of_json (v : Json.json) : value :=
  match v with
  | Json.JNull => Null
  | Json.JBool b => Bool b
  | Json.JNum text => Number (string_of text)
  | Json.JStr body => Str (Encoding.Unquote body)
  | Json.JArr _ items => List (map of_json items)
  | Json.JObj _ members => Obj (fold_left set_member (map (λ m, (Encoding.Unquote m.1, of_json m.2)) members) NewObject)
  end.

Definition Decode (data : bytes) : option value :=
  '(v, rest) ← Json.value (2 + 2 * length data) (length data) (Json.skip data);
  match Json.skip rest with
  | [] => Some (of_json v)
  | _ => None
  end.

(** ** Induction over values *)

Section induction.
Variable P : value → Prop.
Hypotheses (HNull : P Null) (HBool : ∀ b, P (Bool b)) (HNumber : ∀ t, P (Number t)) (HStr : ∀ s, P (Str s)).
Hypotheses (HList : ∀ l, Forall P l → P (List l)) (HObj : ∀ o, Forall (λ m, P m.2) o → P (Obj o)).

Fixpoint value_rect' (v : value) : P v :=
  match v with
  | Null => HNull
  | Bool b => HBool b
  | Number t => HNumber t
  | Str s => HStr s
  | List l => HList l ((fix all l := match l return Forall P l with [] => List.Forall_nil _ | v :: l => List.Forall_cons _ _ _ (value_rect' v) (all l) end) l)
  | Obj o => HObj o ((fix all o := match o return Forall (λ m, P m.2) o with [] => List.Forall_nil _ | m :: o => List.Forall_cons _ _ _ (value_rect' m.2) (all o) end) o)
  end.
End induction.

Section json_induction.
Variable P : Json.json → Prop.
Hypotheses (HNull : P Json.JNull) (HBool : ∀ b, P (Json.JBool b)) (HNum : ∀ t, P (Json.JNum t)) (HStr : ∀ s, P (Json.JStr s)).
Hypotheses (HArr : ∀ r l, Forall P l → P (Json.JArr r l)) (HObj : ∀ r ms, Forall (λ m, P m.2) ms → P (Json.JObj r ms)).

Fixpoint json_rect' (v : Json.json) : P v :=
  match v with
  | Json.JNull => HNull
  | Json.JBool b => HBool b
  | Json.JNum t => HNum t
  | Json.JStr s => HStr s
  | Json.JArr r l => HArr r l ((fix all l := match l return Forall P l with [] => List.Forall_nil _ | v :: l => List.Forall_cons _ _ _ (json_rect' v) (all l) end) l)
  | Json.JObj r o => HObj r o ((fix all o := match o return Forall (λ m, P m.2) o with [] => List.Forall_nil _ | m :: o => List.Forall_cons _ _ _ (json_rect' m.2) (all o) end) o)
  end.
End json_induction.

(** ** Objects *)

Lemma Get_Set key v o k : Get k (Set_ key v o) = if eqb key k then Some v else Get k o.
Proof.
  induction o as [|[k' w] o IH]; cbn [Set_ Get]; [done|].
  destruct (eqb k' key) eqn:E; cbn [Get]; [apply (proj1 (eqb_true _ _)) in E as ->; by destruct (eqb key k)|].
  rewrite IH. destruct (eqb k' k) eqn:E'; [|done]. apply (proj1 (eqb_true _ _)) in E' as ->.
  by rewrite (proj2 (eqb_false key k)) by (apply (proj1 (eqb_false _ _)) in E; congruence).
Qed.

Lemma Get_elem k o : is_Some (Get k o) ↔ k ∈ Keys o.
Proof.
  unfold Keys. induction o as [|[k' w] o IH]; cbn [Get fmap list_fmap fst]; [split; [by intros []|by intros ?%elem_of_nil]|].
  rewrite elem_of_cons. destruct (eqb k' k) eqn:E; [apply (proj1 (eqb_true _ _)) in E|apply (proj1 (eqb_false _ _)) in E].
  - split; [by left|eauto].
  - rewrite IH. naive_solver.
Qed.

Lemma Get_None k o : Get k o = None ↔ k ∉ Keys o.
Proof. rewrite <-Get_elem, eq_None_not_Some. done. Qed.

(** The keys after a member is set: the same, or one more at the end. *)
Lemma Keys_Set key v o : Keys (Set_ key v o) = if bool_decide (key ∈ Keys o) then Keys o else Keys o ++ [key].
Proof.
  unfold Keys. induction o as [|[k w] o IH]; cbn [Set_ fmap list_fmap fst]; [done|].
  destruct (eqb k key) eqn:E; [apply (proj1 (eqb_true _ _)) in E as ->|apply (proj1 (eqb_false _ _)) in E]; cbn [fmap list_fmap fst].
  - rewrite bool_decide_true by left. done.
  - rewrite IH. destruct (decide (key ∈ o.*1)) as [H|H].
    + rewrite bool_decide_true by done. by rewrite bool_decide_true by by right.
    + rewrite bool_decide_false by done. rewrite bool_decide_false; [done|]. rewrite elem_of_cons. naive_solver.
Qed.

(** Every object of a value has each key once. *)
Inductive wf : value → Prop :=
  | wf_null : wf Null
  | wf_bool b : wf (Bool b)
  | wf_number t : wf (Number t)
  | wf_str s : wf (Str s)
  | wf_list l : Forall wf l → wf (List l)
  | wf_obj o : NoDup (Keys o) → Forall (λ m, wf m.2) o → wf (Obj o).

(** A key an object does not hold goes to its end, so members with distinct keys are the object
    made of them. *)
Lemma Set_new key v o : key ∉ Keys o → Set_ key v o = o ++ [(key, v)].
Proof.
  unfold Keys. induction o as [|[k w] o IH]; intros Hk; [done|]. cbn [Set_ app]. rewrite fmap_cons in Hk.
  apply not_elem_of_cons in Hk as [Hk Ho]. rewrite (proj2 (eqb_false k key)) by (by intros ->). by rewrite IH.
Qed.

Lemma members_distinct ms o : NoDup (Keys (o ++ ms)) → fold_left set_member ms o = o ++ ms.
Proof.
  revert o. induction ms as [|[k v] ms IH]; intros o Hn; [by rewrite app_nil_r|]. cbn [fold_left].
  assert (E : set_member o (k, v) = o ++ [(k, v)]).
  { apply Set_new. unfold Keys in *. rewrite fmap_app in Hn. apply NoDup_app in Hn as (_ & H & _). intros Hin. apply (H _ Hin). by left. }
  rewrite E, IH; rewrite <-(assoc_L (++)); done.
Qed.

(** An object gives a key the member that has it. *)
Lemma Get_member o k v : NoDup (Keys o) → Get k o = Some v ↔ (k, v) ∈ o.
Proof.
  unfold Keys. intros Hn. induction o as [|[k' w] o IH]; cbn [Get]; [split; [done|by intros ?%elem_of_nil]|].
  rewrite fmap_cons in Hn. apply NoDup_cons in Hn as [Hk Hn]. rewrite elem_of_cons. cbn in Hk.
  destruct (eqb k' k) eqn:E; [apply (proj1 (eqb_true _ _)) in E as ->|apply (proj1 (eqb_false _ _)) in E].
  - split; [intros [= ->]; by left|]. intros [[= ->]|H]; [done|]. destruct Hk. by apply (list_elem_of_fmap_2 fst o (k, v)).
  - rewrite IH by done. split; [by right|]. intros [[= -> ->]|H]; done.
Qed.

Lemma Set_nodup key v o : NoDup (Keys o) → NoDup (Keys (Set_ key v o)).
Proof.
  intros H. rewrite Keys_Set. case_bool_decide as E; [done|]. apply NoDup_app. split_and!; [done| |apply NoDup_singleton].
  intros x Hx ->%list_elem_of_singleton. done.
Qed.

Lemma Set_wf key v o : wf v → Forall (λ m, wf m.2) o → Forall (λ m, wf m.2) (Set_ key v o).
Proof.
  intros Hv H. induction H as [|[k w] o Hw H IH]; cbn [Set_]; [by repeat constructor|].
  destruct (eqb k key); by constructor.
Qed.

Lemma members_wf ms o :
  Forall (λ m, wf m.2) ms → wf (Obj o) → wf (Obj (fold_left set_member ms o)).
Proof.
  intros H. revert o. induction H as [|[k w] ms Hw H IH]; intros o Ho; [done|]. apply IH. inversion Ho; subst.
  constructor; [by apply Set_nodup|by apply Set_wf].
Qed.

Lemma of_json_wf v : wf (of_json v).
Proof.
  induction v as [|b|t|s|r l IH|r ms IH] using json_rect'; cbn [of_json]; try by constructor.
  - constructor. by apply Forall_map.
  - apply members_wf; [by apply Forall_map|]. constructor; [constructor|constructor].
Qed.

Lemma Decode_wf data v : Decode data = Some v → wf v.
Proof.
  unfold Decode. destruct (Json.value _ _ _) as [[w rest]|]; [|done]. cbn. destruct (Json.skip rest); [|done].
  intros [= <-]. apply of_json_wf.
Qed.

(** Of the members of a document's object with one key, the last gives the value and the first
    the place. *)
Fixpoint last_of {A} (k : string) (ms : list (string * A)) : option A :=
  match ms with
  | [] => None
  | (k', v) :: ms => match last_of k ms with Some w => Some w | None => if eqb k' k then Some v else None end
  end.

Lemma Get_members k ms o :
  Get k (fold_left set_member ms o) = match last_of k ms with Some w => Some w | None => Get k o end.
Proof.
  revert o. induction ms as [|[k' v] ms IH]; intros o; cbn [fold_left last_of]; [done|].
  rewrite IH. destruct (last_of k ms); [done|]. unfold set_member. cbn [fst snd]. rewrite Get_Set. by destruct (eqb k' k).
Qed.

(** ** No bound on the nesting *)

Import Json.

(** A value that may hold as many nests as its text has bytes reads the same. *)
Lemma depth_enough f :
  (∀ d d' s x, value f d s = Some x → length s ≤ d' → value f d' s = Some x)
  ∧ (∀ d d' s x, elements f d s = Some x → length s ≤ d' → elements f d' s = Some x)
  ∧ (∀ d d' s x, fields f d s = Some x → length s ≤ d' → fields f d' s = Some x).
Proof.
  induction f as [|f (IHv & IHe & IHf)]; [done|]. pose proof (readers_ok f) as (Hv & _ & _). split_and!.
  - intros d d' [|c s] x; [done|]. cbn [value length]. intros H Hd. pose proof (skip_length s).
    destruct (eqb c quote); [done|]. destruct (eqb c "["%char).
    { destruct d as [|d], d' as [|d']; try done; [lia|]. destruct (expect "]" (skip s)); [done|].
      destruct (elements f d (skip s)) as [y|] eqn:E; [|done]. by rewrite (IHe _ d' _ _ E) by lia. }
    destruct (eqb c "{"%char); [|done].
    destruct d as [|d], d' as [|d']; try done; [lia|]. destruct (expect "}" (skip s)); [done|].
    destruct (fields f d (skip s)) as [y|] eqn:E; [|done]. by rewrite (IHf _ d' _ _ E) by lia.
  - intros d d' s x. cbn [elements]. intros H Hd.
    destruct (value f d s) as [[v r1]|] eqn:E; [|done]. rewrite (IHv _ d' _ _ E) by lia. cbn [mbind option_bind] in *.
    apply Hv in E as (L & _ & _). pose proof (skip_length r1) as L1.
    destruct (expect "]" (skip r1)); [done|]. destruct (expect "," (skip r1)) as [r2|] eqn:E1; [|done]. cbn [mbind option_bind] in *.
    apply expect_Some in E1. rewrite E1 in L1. cbn in L1. pose proof (skip_length r2).
    destruct (elements f d (skip r2)) as [y|] eqn:E2; [|done]. by rewrite (IHe _ d' _ _ E2) by lia.
  - intros d d' s x. cbn [fields]. intros H Hd. destruct (expect quote s) as [s1|] eqn:E0; [|done]. cbn [mbind option_bind] in *.
    apply expect_Some in E0 as ->. cbn [length] in Hd.
    destruct (scan_string s1) as [[key s2]|] eqn:Es; [|done]. cbn [mbind option_bind] in *.
    apply scan_string_reads in Es as [-> _]. rewrite length_app in Hd. cbn [length] in Hd. pose proof (skip_length s2) as L2.
    destruct (expect ":" (skip s2)) as [s3|] eqn:E1; [|done]. cbn [mbind option_bind] in *. apply expect_Some in E1. rewrite E1 in L2. cbn in L2.
    pose proof (skip_length s3) as L3.
    destruct (value f d (skip s3)) as [[v s4]|] eqn:E; [|done]. rewrite (IHv _ d' _ _ E) by lia. cbn [mbind option_bind] in *.
    apply Hv in E as (L4 & _ & _). pose proof (skip_length s4) as L5.
    destruct (expect "}" (skip s4)); [done|]. destruct (expect "," (skip s4)) as [s5|] eqn:E5; [|done]. cbn [mbind option_bind] in *.
    apply expect_Some in E5. rewrite E5 in L5. cbn in L5. pose proof (skip_length s5).
    destruct (fields f d (skip s5)) as [y|] eqn:E2; [|done]. by rewrite (IHf _ d' _ _ E2) by lia.
Qed.

(** [Decode] reads every text that is one JSON value, however deeply it nests. *)
Theorem Decode_unbounded data w :
  Decode data = Some w ↔ ∃ f d v rest, value f d (skip data) = Some (v, rest) ∧ skip rest = [] ∧ w = of_json v.
Proof.
  unfold Decode. split.
  - destruct (value _ _ _) as [[v rest]|] eqn:E; [|done]. cbn [mbind option_bind]. destruct (skip rest) eqn:R; [|done].
    intros [= <-]. eexists _, _, v, rest. by rewrite E.
  - intros (f & d & v & rest & E & R & ->). pose proof (skip_length data).
    rewrite (proj1 (fuel_enough f) (length data) _ (v, rest)); [cbn [mbind option_bind]; by rewrite R| |lia].
    by apply (proj1 (depth_enough f) d).
Qed.

End Value.
