(* ===== verification/Budget.v ===== *)
(** * The work budget of a path ([internal/jsonpath/budget.go])

    [weight] reads a value only as far as a limit, and [budget] weighs its document only as
    far as the work spent requires. The theorems say that neither shows: a charge passes
    exactly while the work fits four times the whole size of the document and 4096. The
    numbers stay far below the width of an [int], as the sizes of values in memory do. *)
From S2P Require Import Prelude Json Value.
Import Value.

Module Budget.

Definition budgetFactor : Z := 4.
Definition budgetFloor : Z := 4096.

Definition len (s : string) : Z := Z.of_nat (length (bytes_of s)).

(** A loop of [weight]: it stops once the size passes the limit. *)
Section total.
Context {A : Type} (f : A → Z → Z) (limit : Z).

Fixpoint total (l : list A) (w : Z) : Z :=
  match l with
  | [] => w
  | x :: l => if (limit <? w)%Z then w else total l (w + f x (limit - w))%Z
  end.
End total.

Fixpoint weight (v : value) (limit : Z) : Z :=
  match v with
  | Str s => 1 + len s
  | Number text => 1 + len text
  | List l => total (λ e limit, weight e limit) limit l 1
  | Obj o => total (λ m limit, len m.1 + weight m.2 limit)%Z limit o 1
  | _ => 1
  end.

Record budget := MkBudget { doc : value; docWeight : Z; weighed : bool; spent : Z }.

Definition new (doc : value) : budget := MkBudget doc 0 false 0.

Definition allowed (w : Z) : Z := budgetFactor * w + budgetFloor.

(** [admits]; each turn weighs the document further, and the second is the last. *)
Fixpoint admits_loop (fuel : nat) (work : Z) (b : budget) : bool * budget :=
  match fuel with
  | 0 => (false, b)
  | S fuel =>
      if (allowed (docWeight b) <? work)%Z then
        if weighed b then (false, b)
        else
          let need := ((work - budgetFloor + budgetFactor - 1) `quot` budgetFactor)%Z in
          let bound := Z.max need (2 * docWeight b) in
          let w := weight (doc b) bound in
          admits_loop fuel work (MkBudget (doc b) w (w <=? bound)%Z (spent b))
      else (true, b)
  end.

Definition admits : Z → budget → bool * budget := admits_loop 3.

Definition spend (n : Z) (b : budget) : budget := MkBudget (doc b) (docWeight b) (weighed b) (spent b + n).

Definition charge (n : Z) (b : budget) : bool * budget := let b := spend n b in admits (spent b) b.

Section chargeWeight.
Context (weight_of : Z → Z).

(** The loop of [chargeWeight] over a value of the weight [weight_of]. *)
Fixpoint charge_loop (fuel : nat) (b : budget) : bool * budget :=
  match fuel with
  | 0 => (false, b)
  | S fuel =>
      let left := (allowed (docWeight b) - spent b)%Z in
      let w := weight_of left in
      if (w <=? left)%Z then (true, spend w b)
      else
        let '(ok, b) := admits (spent b + w) b in
        if ok : bool then charge_loop fuel b else (false, spend w b)
  end.
End chargeWeight.

(** ** The whole size *)

(** The size of a value: one for each value, and the length of each string, key and number
    text. *)
Definition sum {A} (f : A → Z) : list A → Z := foldr (λ x n, (f x + n)%Z) 0%Z.

Fixpoint size (v : value) : Z :=
  match v with
  | Str s => 1 + len s
  | Number text => 1 + len text
  | List l => 1 + sum (λ e, size e) l
  | Obj o => 1 + sum (λ m, len m.1 + size m.2)%Z o
  | _ => 1
  end.

(** Every turn of [chargeWeight] but the last doubles the known weight of the document at
    least. *)
Definition charge_fuel (b : budget) : nat := Z.to_nat (Z.log2 (size (doc b))) + 3.

Definition chargeWeight (v : value) (b : budget) : bool * budget := charge_loop (weight v) (charge_fuel b) b.

(** A member a filter reads; a missing one weighs one. *)
Definition chargeMember (m : option value) (b : budget) : bool * budget :=
  charge_loop (match m with Some v => weight v | None => λ _, 1%Z end) (charge_fuel b) b.

Definition member_size (m : option value) : Z := match m with Some v => size v | None => 1 end.

(** [functionInput]. *)
Definition functionInput (v : value) : Z :=
  match v with
  | List l => fold_left (λ n e, (n + 1 + match e with Number text => len text | _ => 0 end)%Z) l 1%Z
  | Obj o => fold_left (λ n k, (n + (1 + len k))%Z) (Keys o) 1%Z
  | _ => 1
  end.

(** ** The limit of a weighing does not show *)

Lemma len_nonneg s : (0 ≤ len s)%Z.
Proof. unfold len. lia. Qed.

Lemma sum_nonneg {A} (f : A → Z) l : Forall (λ x, 0 ≤ f x)%Z l → (0 ≤ sum f l)%Z.
Proof. intros H. induction H; cbn; [lia|]. unfold sum in *. lia. Qed.

Lemma size_pos v : (0 < size v)%Z.
Proof.
  induction v as [|b|t|s|l IH|o IH] using value_rect'; cbn [size]; try (pose proof (len_nonneg t)); try (pose proof (len_nonneg s)); try lia.
  - pose proof (sum_nonneg (λ e, size e) l). rewrite Forall_forall in *. enough (0 ≤ sum (λ e, size e) l)%Z by lia.
    apply sum_nonneg, Forall_forall. intros x Hx. specialize (IH x Hx). lia.
  - rewrite Forall_forall in IH. enough (0 ≤ sum (λ m, len m.1 + size m.2) o)%Z by lia.
    apply sum_nonneg, Forall_forall. intros x Hx. specialize (IH x Hx). pose proof (len_nonneg x.1). lia.
Qed.

(** What a bounded weighing of something of size [n] gives. *)
Definition weighs (w : Z → Z) (n : Z) : Prop :=
  ∀ limit, (0 < w limit ≤ n)%Z ∧ (n ≤ limit → w limit = n)%Z ∧ (limit < n → limit < w limit)%Z.

Lemma total_weighs {A} (f : A → Z → Z) (g : A → Z) limit l w :
  (0 < w)%Z → Forall (λ x, weighs (f x) (g x)) l →
  (0 < total f limit l w ≤ w + sum g l)%Z ∧ (w + sum g l ≤ limit → total f limit l w = w + sum g l)%Z
  ∧ (limit < w + sum g l → limit < total f limit l w)%Z.
Proof.
  intros Hw H. revert w Hw. induction H as [|x l Hx H IH]; intros w Hw; cbn; [lia|]. fold (sum g l).
  assert (0 ≤ sum g l)%Z by (apply sum_nonneg; eapply Forall_impl; [exact H|]; intros y Hy; destruct (Hy 0%Z); lia).
  destruct (Hx (limit - w)%Z) as (H1 & H2 & H3).
  destruct (limit <? w)%Z eqn:E; [apply Z.ltb_lt in E|apply Z.ltb_ge in E]; [lia|].
  destruct (IH (w + f x (limit - w))%Z) as (H4 & H5 & H6); [lia|].
  destruct (decide (g x ≤ limit - w)%Z); [rewrite H2 in * by lia; lia|]. specialize (H3 ltac:(lia)). lia.
Qed.

Lemma weighs_const n : (0 < n)%Z → weighs (λ _, n) n.
Proof. intros H limit. lia. Qed.

Lemma weighs_add k w n : (0 ≤ k)%Z → weighs w n → weighs (λ l, k + w l)%Z (k + n).
Proof. intros Hk H limit. destruct (H limit) as (H1 & H2 & H3). lia. Qed.

Lemma weight_size v : weighs (weight v) (size v).
Proof.
  induction v as [|b|t|s|l IH|o IH] using value_rect'; try (apply weighs_const; cbn; lia).
  - apply (weighs_const (1 + len t)). pose proof (len_nonneg t). lia.
  - apply (weighs_const (1 + len s)). pose proof (len_nonneg s). lia.
  - intros limit. by apply (total_weighs _ (λ e, size e)).
  - intros limit. apply (total_weighs _ (λ m, len m.1 + size m.2)%Z); [done|]. eapply Forall_impl; [exact IH|]. intros m Hm.
    apply (weighs_add (len m.1) (weight m.2)); [apply len_nonneg|done].
Qed.

(** ** The lazy weighing does not show *)

(** What holds of the budget of one [Select]. *)
Record inv (b : budget) : Prop := MkInv {
  inv_known : (0 ≤ docWeight b ≤ size (doc b))%Z;
  inv_weighed : weighed b = true → docWeight b = size (doc b);
  inv_spent : (0 ≤ spent b)%Z;
}.

(** Whether work fits the budget of a document. *)
Definition fits (doc : value) (work : Z) : bool := (work <=? allowed (size doc))%Z.

Lemma new_inv v : inv (new v).
Proof. pose proof (size_pos v). by split; cbn; [lia|..]. Qed.

(** A weighing leaves the document and the work as they are. *)
Definition same (b b' : budget) : Prop := doc b' = doc b ∧ spent b' = spent b ∧ inv b'.

Lemma fits_true d work : fits d work = true ↔ (work ≤ 4 * size d + 4096)%Z.
Proof. unfold fits, allowed, budgetFactor, budgetFloor. apply Z.leb_le. Qed.

Lemma fits_false d work : fits d work = false ↔ (4 * size d + 4096 < work)%Z.
Proof. unfold fits, allowed, budgetFactor, budgetFloor. apply Z.leb_gt. Qed.

Lemma allowed_eq w : allowed w = (4 * w + 4096)%Z.
Proof. done. Qed.

(** A document weighed further. *)
Lemma weighed_further b bound :
  inv b → let w := weight (doc b) bound in same b (MkBudget (doc b) w (w <=? bound)%Z (spent b)).
Proof.
  intros [Hk Hw Hs] w. destruct (weight_size (doc b) bound) as (H1 & H2 & H3). split; [done|]. split; [done|].
  split; cbn; [unfold w; lia| |done]. intros L%Z.leb_le. unfold w in *.
  destruct (decide (size (doc b) ≤ bound)%Z); [by apply H2|]. specialize (H3 ltac:(lia)). lia.
Qed.

(** The first turn gives a weight that decides. *)
Lemma admits_spec work b :
  inv b →
  ∃ b', admits work b = (fits (doc b) work, b') ∧ same b b'
    ∧ (work ≤ allowed (docWeight b) ∨ weighed b' = true
       ∨ (weighed b = false ∧ 2 * docWeight b < docWeight b' ∧ 1 < docWeight b'))%Z.
Proof.
  intros Hi. unfold admits. cbn [admits_loop]. rewrite allowed_eq.
  destruct (4 * docWeight b + 4096 <? work)%Z eqn:E; [apply Z.ltb_lt in E|apply Z.ltb_ge in E].
  2: { exists b. rewrite (proj2 (fits_true _ _)) by (destruct Hi; lia). split; [done|]. split; [by split|by left]. }
  destruct (weighed b) eqn:W.
  { exists b. rewrite (proj2 (fits_false _ _)) by (rewrite <-(inv_weighed b) by done; lia). split; [done|]. split; [by split|auto]. }
  set (need := ((work - budgetFloor + budgetFactor - 1) `quot` budgetFactor)%Z). set (bound := Z.max need (2 * docWeight b)).
  assert (Hn : (work - 4096 ≤ 4 * need ∧ 1 ≤ need)%Z).
  { unfold need, budgetFloor, budgetFactor. destruct Hi as [Hk _ _]. rewrite Z.quot_div_nonneg by lia.
    pose proof (Z.div_mod (work - 4096 + 4 - 1) 4 ltac:(lia)). pose proof (Z.mod_pos_bound (work - 4096 + 4 - 1) 4 ltac:(lia)). lia. }
  destruct (weighed_further b bound Hi) as (_ & _ & Hb). eexists. split; [|split; [split; [|split; [|exact Hb]]|]]; try done.
  - set (w := weight (doc b) bound) in *. cbn [docWeight weighed]. rewrite allowed_eq. destruct Hb as [Hk Hw Hs]. cbn in Hk, Hw.
    destruct (w <=? bound)%Z eqn:L; [apply Z.leb_le in L|apply Z.leb_gt in L].
    + rewrite Hw by done. destruct (4 * size (doc b) + 4096 <? work)%Z eqn:F; [apply Z.ltb_lt in F|apply Z.ltb_ge in F].
      * by rewrite (proj2 (fits_false _ _)).
      * by rewrite (proj2 (fits_true _ _)).
    + assert (F : (4 * w + 4096 <? work)%Z = false) by (apply Z.ltb_ge; lia). rewrite F.
      by rewrite (proj2 (fits_true _ _)) by lia.
  - cbn [docWeight weighed]. destruct (weight (doc b) bound <=? bound)%Z eqn:L; [auto|]. apply Z.leb_gt in L. right. right. split; [done|]. lia.
Qed.

(** A charge passes exactly while the work fits the size of the document. *)
Lemma charge_spec n b :
  inv b → (0 ≤ n)%Z →
  ∃ b', charge n b = (fits (doc b) (spent b + n), b') ∧ doc b' = doc b ∧ spent b' = (spent b + n)%Z ∧ inv b'.
Proof.
  intros [Hk Hw Hs] Hn. unfold charge. destruct (admits_spec (spent b + n) (spend n b)) as (b' & E & (H1 & H2 & H3) & _).
  { split; cbn; [done..|lia]. }
  exists b'. split_and!; [exact E|done|done|done].
Qed.

(** How many turns [chargeWeight] may still take. *)
Definition turns (b : budget) (fuel : nat) : Prop :=
  if weighed b then 1 ≤ fuel else (size (doc b) < Z.max 1 (docWeight b) * 2 ^ Z.of_nat (fuel - 2))%Z ∧ 2 ≤ fuel.

Lemma turns_left (w : Z) b b' fuel left :
  inv b → inv b' → doc b' = doc b → turns b (S fuel) → (left < w)%Z → left = (allowed (docWeight b) - spent b)%Z →
  fits (doc b) (spent b + w) = true →
  (spent b + w ≤ allowed (docWeight b) ∨ weighed b' = true
   ∨ (weighed b = false ∧ 2 * docWeight b < docWeight b' ∧ 1 < docWeight b'))%Z → turns b' fuel.
Proof.
  intros [Hk Hd Hs] [Hk' Hd' Hs'] D Ht Hl -> F%fits_true Hg. rewrite allowed_eq in *. unfold turns in *.
  destruct (weighed b) eqn:W; [specialize (Hd eq_refl); destruct Ht; lia|]. destruct Ht as [Ht Hf].
  destruct Hg as [Hg|[->|(_ & Hg & H1)]]; [lia|lia|]. destruct (weighed b'); [lia|]. rewrite D in *.
  destruct fuel as [|[|fuel]]; [lia| |].
  - change (2 ^ Z.of_nat (2 - 2))%Z with 1%Z in Ht. pose proof (size_pos (doc b)). lia.
  - split; [|lia]. replace (Z.of_nat (S (S (S fuel)) - 2)) with (Z.succ (Z.of_nat (S (S fuel) - 2))) in Ht by lia.
    rewrite Z.pow_succ_r in Ht by lia. pose proof (Z.pow_pos_nonneg 2 (Z.of_nat (S (S fuel) - 2)) ltac:(lia) ltac:(lia)). nia.
Qed.

Lemma charge_loop_spec w n b fuel :
  inv b → weighs w n → turns b fuel →
  ∃ b', charge_loop w fuel b = (fits (doc b) (spent b + n), b') ∧ doc b' = doc b ∧ inv b'
    ∧ (fits (doc b) (spent b + n) = true → spent b' = spent b + n)%Z.
Proof.
  revert b. induction fuel as [|fuel IH]; intros b Hi Hw Ht.
  { unfold turns in Ht. destruct (weighed b); lia. }
  cbn [charge_loop]. set (left := (allowed (docWeight b) - spent b)%Z). destruct (Hw left) as (H1 & H2 & H3).
  destruct (w left <=? left)%Z eqn:E; [apply Z.leb_le in E|apply Z.leb_gt in E].
  - assert (Hn : w left = n) by (destruct (decide (n ≤ left)%Z); [by apply H2|specialize (H3 ltac:(lia)); lia]).
    assert (F : fits (doc b) (spent b + n) = true).
    { apply fits_true. destruct Hi as [Hk _ _]. unfold left in *. rewrite allowed_eq in *. lia. }
    rewrite Hn, F. eexists. split_and!; [done|done| |done]. destruct Hi as [Hk Hd Hs]. split; cbn; [done..|lia].
  - destruct (admits_spec (spent b + w left) b Hi) as (b' & -> & (D & S & I) & Hg).
    destruct (fits (doc b) (spent b + w left)) eqn:F.
    + destruct (IH b' I Hw) as (b2 & E2 & D2 & I2 & S2).
      * by apply (turns_left (w left) b b' fuel left).
      * exists b2. rewrite E2, D, S. rewrite D, S in S2. split; [done|]. split; [congruence|]. by split.
    + eexists. assert (F2 : fits (doc b) (spent b + n) = false) by (apply fits_false in F; apply fits_false; lia).
      rewrite F2. split; [done|]. split; [done|]. split; [|done]. destruct I as [Hk Hd Hs].
      split; cbn; [done..|]. destruct Hi. lia.
Qed.

(** A charge of a weight passes exactly while the work with the whole size fits. *)
Lemma charge_weighs w n b :
  inv b → weighs w n →
  ∃ b', charge_loop w (charge_fuel b) b = (fits (doc b) (spent b + n), b') ∧ doc b' = doc b ∧ inv b'
    ∧ (fits (doc b) (spent b + n) = true → spent b' = spent b + n)%Z.
Proof.
  intros Hi Hw. apply charge_loop_spec; [done..|]. unfold turns, charge_fuel. destruct (weighed b); [lia|]. split; [|lia].
  pose proof (size_pos (doc b)). pose proof (Z.log2_spec (size (doc b)) ltac:(lia)) as [_ H1]. pose proof (Z.log2_nonneg (size (doc b))).
  replace (Z.of_nat (Z.to_nat (Z.log2 (size (doc b))) + 3 - 2)) with (Z.succ (Z.log2 (size (doc b)))) by lia.
  pose proof (Z.pow_pos_nonneg 2 (Z.succ (Z.log2 (size (doc b)))) ltac:(lia) ltac:(lia)). nia.
Qed.

Lemma functionInput_nonneg v : (0 ≤ functionInput v)%Z.
Proof.
  assert (H : ∀ {A} (f : Z → A → Z) l z, (∀ z x, 0 ≤ z → 0 ≤ f z x)%Z → (0 ≤ z)%Z → (0 ≤ fold_left f l z)%Z).
  { intros A f l. induction l as [|x l IH]; intros z Hf Hz; cbn; [done|]. apply IH; auto. }
  destruct v; cbn; try lia; apply H; try lia; intros z x Hz; [destruct x|]; try (pose proof (len_nonneg text)); try (pose proof (len_nonneg x)); lia.
Qed.

End Budget.
