(* ===== verification/JaywayText.v ===== *)
(** * Text of paths ([internal/jsonpath/jaywaytext.go], and UTF-16 text)

    UTF-16 as package [unicode/utf16] has it, the escapes Jayway reads in bracket keys and in
    the literals of filters, and the order of Java strings ([javaCompare] of [filter.go]). The
    theorem is that every key can be written: escaped, it is read back as it is. *)
From S2P Require Import Prelude GoText Json Encoding Digits GoCase JsonText Decimal.
Import GoText Encoding JsonText.

Module JaywayText.

(** A char of a Java string. *)
Notation unit16 := N.

(** [utf16.AppendRune]. *)
Definition units_of (r : rune) : list unit16 :=
  if ((65536 <=? r) && (r <=? 1114111))%N then [55296 + (r - 65536) / 1024; 56320 + (r - 65536) mod 1024]%N
  else if surrogate r || (1114111 <? r)%N then [RuneError]
  else [r].

(** [utf16.Encode]. *)
Definition utf16 (rs : list rune) : list unit16 := rs ≫= units_of.

(** [utf16.Decode]. *)
Fixpoint utf16_decode (us : list unit16) : list rune :=
  match us with
  | [] => []
  | u :: rest =>
      match rest with
      | v :: rest' =>
          if surrogate u then
            match surrogate_pair u v with
            | Some r => r :: utf16_decode rest'
            | None => RuneError :: utf16_decode rest
            end
          else u :: utf16_decode rest
      | [] => [if surrogate u then RuneError else u]
      end
  end.

(** [string(rs)]. *)
Definition text_of (rs : list rune) : string := string_of (concat (encode <$> rs)).

(** [[]rune(s)]. *)
Definition runes_of (s : string) : list rune := (runes (bytes_of s)).*1.

(** [javaCompare]. *)
Fixpoint compare_units (a b : list unit16) : Z :=
  match a, b with
  | [], [] => 0
  | [], _ :: _ => -1
  | _ :: _, [] => 1
  | u :: a, v :: b => if (u <? v)%N then -1 else if (v <? u)%N then 1 else compare_units a b
  end.

Definition javaCompare (a : string) (b : list unit16) : Z := compare_units (utf16 (runes_of a)) b.

Section table.
Context {table : UnicodeTable}.

(** [hexDigit]. *)
Definition hexDigit (c : rune) : option Z :=
  if ((97 <=? c) && (c <=? 102))%N then Some (Z.of_N c - 97 + 10)%Z
  else if ((65 <=? c) && (c <=? 70))%N then Some (Z.of_N c - 65 + 10)%Z
  else if ((65345 <=? c) && (c <=? 65350))%N then Some (Z.of_N c - 65345 + 10)%Z
  else if ((65313 <=? c) && (c <=? 65318))%N then Some (Z.of_N c - 65313 + 10)%Z
  else if IsDigit c then
    let d := default Decimal.zero (Decimal.ParseDecimal (text_of [c])) in
    match Decimal.String d with x :: _ => Some (Digits.digit_value x) | [] => Some 0%Z end
  else None.

Fixpoint hex_digits (cs : list unit16) (v : Z) : option Z :=
  match cs with
  | [] => Some v
  | c :: cs => d ← hexDigit c; hex_digits cs (v * 16 + d)%Z
  end.

(** [parseHex]. *)
Definition parseHex (cs : list unit16) : option Z :=
  match cs with
  | c :: rest => if Decimal.is_sign c then v ← hex_digits rest 0; Some (if eqb c 45%N then - v else v)%Z else hex_digits cs 0
  | [] => Some 0%Z
  end.

(** The state of [unescape] between two chars. *)
Inductive mode := Plain | Slash | InHex (hex : list unit16).

(** The char an escape of one letter stands for. *)
Definition short (u : unit16) : unit16 :=
  if eqb u 114%N then 13 else if eqb u 102%N then 12 else if eqb u 116%N then 9 else if eqb u 110%N then 10 else if eqb u 98%N then 8 else u.

Fixpoint unescape_units (us : list unit16) (st : mode) : option (list unit16) :=
  match us with
  | [] => Some (match st with Slash => [92%N] | _ => [] end)
  | u :: us =>
      match st with
      | InHex hex =>
          let hex := hex ++ [u] in
          if (length hex =? 4)%nat then
            v ← parseHex hex; out ← unescape_units us Plain; Some (Z.to_N (v mod 2 ^ 16) :: out)
          else unescape_units us (InHex hex)
      | Slash =>
          if eqb u 117%N then unescape_units us (InHex [])
          else out ← unescape_units us Plain; Some (short u :: out)
      | Plain =>
          if eqb u 92%N then unescape_units us Slash
          else out ← unescape_units us Plain; Some (u :: out)
      end
  end.

(** Whether every surrogate stands in a pair. *)
Fixpoint paired (us : list unit16) : bool :=
  match us with
  | [] => true
  | u :: rest =>
      if surrogate u then
        match rest with
        | v :: rest' => (u <? 56320)%N && ((56320 <=? v) && (v <=? 57343))%N && paired rest'
        | [] => false
        end
      else paired rest
  end.

(** [unescape]. *)
Definition unescape (s : string) : option string :=
  if member "\"%char (bytes_of s) then
    out ← unescape_units (utf16 (runes_of s)) Plain;
    if paired out then Some (text_of (utf16_decode out)) else None
  else Some s.

(** [quotedText]. *)
Definition quotedText (raw : string) : option string :=
  let b := bytes_of raw in
  let n := length b - length (Decimal.TrimRight "\" b) in
  if Nat.odd n then None else unescape raw.
End table.

Lemma eqb_code (r k : N) : r ≠ k → eqb r k = false.
Proof. intros H. by apply eqb_false. Qed.

(** ** UTF-16 there and back *)

Lemma units_valid r : valid_code r → (r < 65536)%N → units_of r = [r] ∧ surrogate r = false.
Proof.
  intros [Hs Hr] H. unfold units_of, surrogate. rewrite (proj2 (N.leb_gt 65536 r)) by done. cbn [andb].
  rewrite (proj2 (N.ltb_ge 1114111 r)), orb_false_r by lia. assert (E : ((55296 <=? r) && (r <? 57344))%N = false); [|by rewrite E].
  apply andb_false_iff. rewrite N.leb_gt, N.ltb_ge. lia.
Qed.

Lemma units_large r : valid_code r → (65536 ≤ r)%N →
  ∃ u v, units_of r = [u; v] ∧ (55296 ≤ u < 56320)%N ∧ (56320 ≤ v < 57344)%N ∧ surrogate_pair u v = Some r.
Proof.
  intros [Hs Hr] H. unfold units_of. rewrite (proj2 (N.leb_le 65536 r)), (proj2 (N.leb_le r 1114111)) by lia. cbn [andb].
  eexists _, _. split; [done|]. pose proof (N.mod_lt (r - 65536) 1024 ltac:(lia)). pose proof (N.div_mod' (r - 65536) 1024) as E.
  set (q := ((r - 65536) / 1024)%N) in *. set (m := ((r - 65536) mod 1024)%N) in *. assert (q < 1024)%N by lia. split; [lia|]. split; [lia|].
  unfold surrogate_pair. rewrite (proj2 (N.ltb_lt _ _)), (proj2 (N.leb_le _ _)), (proj2 (N.ltb_lt _ _)) by lia. cbn [andb]. f_equal. lia.
Qed.

Lemma utf16_cons r rs : utf16 (r :: rs) = units_of r ++ utf16 rs.
Proof. done. Qed.

Lemma surrogate_unit u : (55296 ≤ u < 57344)%N → surrogate u = true.
Proof. intros H. unfold surrogate. apply andb_true_iff. rewrite N.leb_le, N.ltb_lt. lia. Qed.

Lemma utf16_trip rs : Forall valid_code rs → utf16_decode (utf16 rs) = rs ∧ paired (utf16 rs) = true.
Proof.
  induction 1 as [|r rs Hr _ [IH1 IH2]]; [done|]. rewrite utf16_cons. destruct (decide (r < 65536)%N) as [H|H].
  - destruct (units_valid r Hr H) as [-> Hs]. cbn [app paired]. rewrite Hs. split; [|done].
    cbn [utf16_decode]. destruct (utf16 rs) as [|v us] eqn:E; [rewrite Hs; cbn in IH1; by rewrite <-IH1|by rewrite Hs, IH1].
  - destruct (units_large r Hr ltac:(lia)) as (u & v & -> & Hu & Hv & Hp). cbn [app utf16_decode paired].
    rewrite surrogate_unit, Hp, IH1 by lia. split; [done|]. rewrite (proj2 (N.ltb_lt _ _)), (proj2 (N.leb_le _ _)), (proj2 (N.leb_le _ _)) by lia. done.
Qed.

(** The runes of an encoded text. *)
Lemma runes_encoded rs : Forall valid_code rs → runes (concat (encode <$> rs)) = (λ r, (r, encode r)) <$> rs.
Proof.
  induction 1 as [|r rs Hr H IH]; [done|]. cbn [fmap list_fmap concat].
  destruct (DecodeRune_encode r (concat (encode <$> rs)) Hr) as (c & v & E & Hd & _). rewrite E in *. cbn [app].
  destruct (runes_split c (v ++ concat (encode <$> rs))) as (r' & w & E1 & E2 & _). rewrite Hd in E2. injection E2 as <- <-.
  rewrite E1, <-IH. change (S (length v)) with (length (c :: v)). change (c :: v ++ ?x) with ((c :: v) ++ x). by rewrite take_app_length, drop_app_length.
Qed.

Lemma runes_of_text rs : Forall valid_code rs → runes_of (text_of rs) = rs.
Proof.
  intros H. unfold runes_of, text_of. rewrite bytes_of_string_of, runes_encoded by done. rewrite <-list_fmap_compose. apply list_fmap_id.
Qed.

(** ** Every key can be written *)

(** A rune of a key in brackets: a quote, a backslash and a closing bracket as their code. *)
Definition escape_rune (r : rune) : list rune :=
  if eqb r 39%N then N_of_ascii <$> bytes_of "\u0027"
  else if eqb r 92%N then N_of_ascii <$> bytes_of "\u005c"
  else if eqb r 93%N then N_of_ascii <$> bytes_of "\u005d"
  else [r].

Definition escape_key (rs : list rune) : list rune := rs ≫= escape_rune.

Lemma escape_rune_cases r :
  (∃ x, escape_rune r = [92; 117; 48; 48; x.1; x.2]%N ∧ x ∈ [(50, 55); (53, 99); (53, 100)]%N ∧ r ∈ [39; 92; 93]%N
     ∧ ∀ table, @parseHex table [48; 48; x.1; x.2]%N = Some (Z.of_N r))
  ∨ (escape_rune r = [r] ∧ r ∉ [39; 92; 93]%N).
Proof.
  unfold escape_rune.
  destruct (eqb r 39%N) eqn:E1; [apply (proj1 (eqb_true _ _)) in E1 as ->; left; exists (50, 55)%N; split_and!; [done|by left|by left|done]|].
  destruct (eqb r 92%N) eqn:E2; [apply (proj1 (eqb_true _ _)) in E2 as ->; left; exists (53, 99)%N; split_and!; [done|right; by left|right; by left|done]|].
  destruct (eqb r 93%N) eqn:E3; [apply (proj1 (eqb_true _ _)) in E3 as ->; left; exists (53, 100)%N; split_and!; [done|right; right; by left|right; right; by left|done]|].
  right. split; [done|]. apply (proj1 (eqb_false _ _)) in E1, E2, E3. rewrite !elem_of_cons, elem_of_nil. naive_solver.
Qed.

Lemma escape_valid rs : Forall valid_code rs → Forall valid_code (escape_key rs).
Proof.
  induction 1 as [|r rs Hr H IH]; [constructor|]. change (escape_key (r :: rs)) with (escape_rune r ++ escape_key rs). apply Forall_app_2; [|done].
  destruct (escape_rune_cases r) as [(x & -> & Hx & _)|[-> _]]; [|by constructor].
  repeat (apply elem_of_cons in Hx as [->|Hx]; [repeat constructor; unfold valid_code; cbn; lia|]). by apply elem_of_nil in Hx.
Qed.

Lemma byte_high a b : (128 ≤ a)%N → (a + b < 256)%N → (128 ≤ N_of_ascii (byte_of (a + b)))%N.
Proof. intros Ha Hb. rewrite byte_of_N by done. lia. Qed.

Lemma mod64 a : (128 + a mod 64 < 256)%N.
Proof. pose proof (N.mod_lt a 64 ltac:(done)) as H. revert H. generalize (a mod 64)%N. lia. Qed.

Lemma encode_high r : valid_code r → (128 ≤ r)%N → Forall (λ c, 128 ≤ N_of_ascii c)%N (encode r).
Proof.
  intros [_ Hr] H. unfold encode. rewrite (proj2 (N.ltb_ge r 128)) by done.
  destruct (r <? 2048)%N eqn:E2; [apply N.ltb_lt in E2|apply N.ltb_ge in E2; destruct (r <? 65536)%N eqn:E3; [apply N.ltb_lt in E3|apply N.ltb_ge in E3]];
    repeat apply Forall_cons_2; try apply Forall_nil_2; apply byte_high; try done; try apply mod64.
  - assert (r / 64 < 64)%N by (apply N.Div0.div_lt_upper_bound; lia). revert H0. generalize (r / 64)%N. lia.
  - assert (r / 4096 < 16)%N by (apply N.Div0.div_lt_upper_bound; lia). revert H0. generalize (r / 4096)%N. lia.
  - assert (r / 262144 < 8)%N by (apply N.Div0.div_lt_upper_bound; lia). revert H0. generalize (r / 262144)%N. lia.
Qed.

Lemma encode_low r : (r < 128)%N → encode r = [byte_of r].
Proof. intros H. unfold encode. by rewrite (proj2 (N.ltb_lt r 128)). Qed.

(** The byte of an ASCII rune stands in an encoded rune only when it is that rune. *)
Lemma encode_byte r c : valid_code r → c ∈ encode r → (N_of_ascii c < 128)%N → r = N_of_ascii c ∧ encode r = [c].
Proof.
  intros Hr Hc L. destruct (decide (r < 128)%N) as [H|H].
  - rewrite encode_low in * by done. apply list_elem_of_singleton in Hc as ->. rewrite byte_of_N by lia. done.
  - pose proof (encode_high r Hr ltac:(lia)) as Hf. rewrite Forall_forall in Hf. specialize (Hf c Hc). lia.
Qed.

Lemma last_concat {A} (l : list (list A)) c : last (concat l) = Some c → ∃ x, x ∈ l ∧ c ∈ x ∧ (∀ y, last l = Some y → y ≠ [] → last y = Some c).
Proof.
  induction l as [|x l IH] using rev_ind; [done|]. rewrite concat_app. cbn [concat]. rewrite app_nil_r. intros H.
  destruct (decide (x = [])) as [->|Hx].
  - rewrite app_nil_r in H. destruct (IH H) as (y & Hy & Hc & _). exists y. rewrite elem_of_app. split; [auto|]. split; [done|].
    intros z. rewrite last_snoc. by intros [= <-].
  - destruct (exists_last Hx) as (x' & d & ->). rewrite (assoc_L (++)), last_snoc in H. injection H as ->.
    exists (x' ++ [c]). rewrite elem_of_app. split; [right; by left|]. split; [apply elem_of_app; right; by left|].
    intros y. rewrite last_snoc. intros [= <-] _. by rewrite last_snoc.
Qed.

Lemma encode_nonempty r : encode r ≠ [].
Proof. unfold encode. by repeat case_match. Qed.

Lemma escaped_last rs c : Forall valid_code rs → last (concat (encode <$> escape_key rs)) = Some c → c ≠ "\"%char.
Proof.
  intros H Hl ->. destruct (last_concat _ _ Hl) as (_ & _ & _ & Hc). destruct (escape_key rs) as [|r l _] eqn:E using rev_ind; [done|].
  assert (Hr : last (encode r) = Some "\"%char) by (apply Hc; [rewrite fmap_app; apply last_snoc|apply encode_nonempty]).
  assert (Hv : valid_code r) by (pose proof (escape_valid rs H) as Hf; rewrite E in Hf; apply Forall_app in Hf as [_ Hf]; by inversion Hf).
  destruct (encode_byte r "\" Hv) as [Hr' _]; [by apply last_Some_elem_of|done|]. change (N_of_ascii "\") with 92%N in Hr'. subst r.
  destruct rs as [|r rs _] using rev_ind; [by destruct l|]. unfold escape_key in E. rewrite bind_app in E. cbn in E. rewrite app_nil_r in E.
  destruct (escape_rune_cases r) as [(x & Ex & Hx & _)|[Ex Hn]]; rewrite Ex in E.
  - assert (Hx2 : x.2 = 92%N).
    { change [92; 117; 48; 48; x.1; x.2]%N with ([92; 117; 48; 48; x.1]%N ++ [x.2]) in E. rewrite (assoc_L (++)) in E. by apply app_inj_tail in E as [_ ?]. }
    repeat (apply elem_of_cons in Hx as [->|Hx]; [done|]). by apply elem_of_nil in Hx.
  - apply app_inj_tail in E as [_ ->]. apply Hn. right. by left.
Qed.

Lemma TrimRight_other c s : (∀ x, last s = Some x → x ≠ c) → Decimal.TrimRight c s = s.
Proof.
  intros H. unfold Decimal.TrimRight, drop_while_end. destruct s as [|x s _] using rev_ind; [done|]. rewrite reverse_snoc.
  unfold drop_while. cbn [span]. rewrite (proj2 (eqb_false x c)) by (apply H; by rewrite last_snoc).
  cbn [snd]. by rewrite reverse_cons, reverse_involutive.
Qed.

Section trip.
Context {table : UnicodeTable}.

Lemma unescape_plain u us : u ≠ 92%N → unescape_units (u :: us) Plain = (out ← unescape_units us Plain; Some (u :: out)).
Proof. intros H. cbn [unescape_units]. by rewrite eqb_code. Qed.

Lemma unescape_escaped rs : Forall valid_code rs → unescape_units (utf16 (escape_key rs)) Plain = Some (utf16 rs).
Proof.
  induction 1 as [|r rs Hr H IH]; [done|]. change (escape_key (r :: rs)) with (escape_rune r ++ escape_key rs).
  unfold utf16 in *. rewrite bind_app. destruct (escape_rune_cases r) as [(x & -> & Hx & Hr' & Hp)|[-> Hn]].
  - assert (E : [92; 117; 48; 48; x.1; x.2]%N ≫= units_of = [92; 117; 48; 48; x.1; x.2]%N).
    { repeat (apply elem_of_cons in Hx as [->|Hx]; [done|]). by apply elem_of_nil in Hx. }
    rewrite E. cbn [app unescape_units length Nat.eqb]. change (eqb 92%N 92%N) with true. change (eqb 117%N 117%N) with true. cbn [app length Nat.eqb].
    rewrite Hp, IH. cbn [mbind option_bind]. repeat (apply elem_of_cons in Hr' as [->|Hr']; [done|]). by apply elem_of_nil in Hr'.
  - destruct (decide (r < 65536)%N) as [L|L].
    + destruct (units_valid r Hr L) as [E _]. cbn [mbind list_bind]. rewrite E. cbn [app].
      rewrite unescape_plain, IH; [done|]. intros ->. apply Hn. right. by left.
    + destruct (units_large r Hr ltac:(lia)) as (u & v & E & Hu & Hv & _). cbn [mbind list_bind]. rewrite E. cbn [app].
      rewrite !unescape_plain by lia. by rewrite IH.
Qed.

Lemma escape_fixed rs : Forall valid_code rs → escape_key rs = rs ∨ "\"%char ∈ concat (encode <$> escape_key rs).
Proof.
  induction 1 as [|r rs Hr H IH]; [by left|]. change (escape_key (r :: rs)) with (escape_rune r ++ escape_key rs).
  rewrite fmap_app, concat_app, elem_of_app. destruct (escape_rune_cases r) as [(x & -> & _)|[-> _]]; [right; left; by left|].
  destruct IH as [->|IH]; [by left|right; by right].
Qed.

Lemma unescape_text rs : Forall valid_code rs → unescape (text_of (escape_key rs)) = Some (text_of rs).
Proof.
  intros H. unfold unescape. destruct (member "\"%char (bytes_of (text_of (escape_key rs)))) eqn:M.
  - rewrite runes_of_text by by apply escape_valid. rewrite unescape_escaped by done. cbn. destruct (utf16_trip rs H) as [-> ->]. done.
  - f_equal. f_equal. f_equal. destruct (escape_fixed rs H) as [->|E]; [done|]. unfold text_of in M. rewrite bytes_of_string_of in M.
    apply member_true in E. congruence.
Qed.

(** Escaped, every key is read back. *)
Lemma quotedText_escaped rs : Forall valid_code rs → quotedText (text_of (escape_key rs)) = Some (text_of rs).
Proof.
  intros H. unfold quotedText.
  assert (E : Decimal.TrimRight "\" (bytes_of (text_of (escape_key rs))) = bytes_of (text_of (escape_key rs))).
  { apply TrimRight_other. unfold text_of. rewrite bytes_of_string_of. intros c Hc. by apply (escaped_last rs). }
  rewrite E, Nat.sub_diag. by apply unescape_text.
Qed.
End trip.

End JaywayText.
