(* ===== verification/PathTokens.v ===== *)
(** * The regular expressions of paths ([internal/jsonpath])

    A path is cut into tokens and a filter into its parts by regular expressions. Each is
    written here as a reader of the runes of the text: after the first runes of an alternative
    no other alternative can match, so that the readers take what the leftmost match of the
    regexp package takes. A rune keeps its bytes, so an invalid byte stays as it is; [\p{L}] and
    [\p{Nd}] are the tables of package unicode, [\p{N}] is a table of its own. *)
From S2P Require Import Prelude GoText.
Import GoText.

Module PathTokens.

(** The numbers past ASCII, [\p{N}]. *)
Class NumberTable := number_table : rune → bool.

Definition txt := list (rune * bytes).

Definition to_txt (s : string) : txt := runes (bytes_of s).
Definition text (t : txt) : string := string_of (concat t.*2).

Definition eqc (c : ascii) (r : rune * bytes) : bool := eqb r.1 (N_of_ascii c).
Definition one_of (cs : bytes) (r : rune * bytes) : bool := member r.1 (N_of_ascii <$> cs).

(** What follows the characters [p]. *)
Fixpoint lit (p : bytes) (t : txt) : option txt :=
  match p, t with
  | [], _ => Some t
  | c :: p, r :: t => if eqc c r then lit p t else None
  | _ :: _, [] => None
  end.

(** What follows [p] where it stands, and the whole text otherwise. *)
Definition opt (p : bytes) (t : txt) : txt := default t (lit p t).

(** One rune of a class at least. *)
Definition some (f : rune * bytes → bool) (t : txt) : option (txt * txt) :=
  let '(a, b) := span f t in if is_nil a then None else Some (a, b).

(** The runes of [t] before its end [rest]. *)
Definition before (t rest : txt) : txt := take (length t - length rest) t.

Definition ends (t : txt) : option unit := if is_nil t then Some () else None.

(** What precedes the characters [p] at the end. *)
Definition cut_end (p : bytes) (t : txt) : option txt :=
  let n := length t - length p in
  rest ← lit p (drop n t); if is_nil rest && (length p <=? length t)%nat then Some (take n t) else None.

Section tables.
Context {table : UnicodeTable} {numbers : NumberTable}.

Definition IsNumber (r : rune) : bool := if (r <? 128)%N then is_digit (byte_of r) else number_table r.

(** [word]: letters, numbers and the underscore. *)
Definition word (r : rune * bytes) : bool := IsLetter r.1 || IsNumber r.1 || eqc "_" r.
Definition digit (r : rune * bytes) : bool := IsDigit r.1.

(** The runes of a key after a dot. *)
Definition key_rune (r : rune * bytes) : bool := word r || one_of (bytes_of ":$~@!&|-") r.
Definition star_key_rune (r : rune * bytes) : bool := key_rune r || eqc "*" r.

(** ** [filterToken] *)

Definition none_of (cs : bytes) (r : rune * bytes) : bool := negb (one_of cs r).

(** A pair of brackets with no other brackets inside, [\([^()]*\)] or [\[[^\[\]?]*\]]. *)
Definition enclosed (opening except closing : bytes) (t : txt) : option txt :=
  r ← lit opening t; lit closing (span (none_of except) r).2.

Definition parens : txt → option txt := enclosed (bytes_of "(") (bytes_of "()") (bytes_of ")").
Definition brackets : txt → option txt := enclosed (bytes_of "[") (bytes_of "[]?") (bytes_of "]").

(** The items of a filter up to the first rune none starts with; [nested] items hold no
    further filter. *)
Fixpoint items (fuel : nat) (nested : bool) (t : txt) : option txt :=
  match fuel with
  | 0 => None
  | S fuel =>
      match t with
      | [] => Some []
      | r :: t' =>
          if none_of (bytes_of "[]()") r then items fuel nested t'
          else if eqc "(" r then
            match parens t with Some rest => items fuel nested rest | None => Some t end
          else if eqc "[" r then
            match brackets t with
            | Some rest => items fuel nested rest
            | None =>
                if nested then Some t
                else
                  match (rest ← lit (bytes_of "[?(") t; rest ← items fuel true rest; lit (bytes_of ")]") rest) with
                  | Some rest => items fuel nested rest
                  | None => Some t
                  end
            end
          else Some t
      end
  end.

Definition filter_token (t : txt) : option txt :=
  rest ← lit (bytes_of "[?(") (opt ["."%char] t); rest ← items (S (length t)) false rest; lit (bytes_of ")]") rest.

(** ** [tokenRE] *)

Definition functions : list bytes := bytes_of <$> ["length"; "min"; "max"; "avg"; "sum"; "first"; "last"; "keys"]%string.

(** A function, at the end of the text only. *)
Definition function_token (t : txt) : option txt :=
  if existsb (λ f, match lit ("."%char :: f ++ bytes_of "()") t with Some [] => true | _ => false end) functions then Some [] else None.

Definition deep_token (t : txt) : option txt := r ← lit (bytes_of "..") t; snd <$> some key_rune r.

Definition key_token (t : txt) : option txt :=
  r ← lit ["."%char] t;
  match r with
  | c :: r => if key_rune c then Some (span star_key_rune r).2 else None
  | [] => None
  end.

Definition bracket_token (t : txt) : option txt :=
  r ← lit ["["%char] (opt ["."%char] t); lit ["]"%char] (span (none_of ["]"%char]) r).2.

Fixpoint first_some {A B} (fs : list (A → option B)) (x : A) : option B :=
  match fs with
  | [] => None
  | f :: fs => match f x with Some y => Some y | None => first_some fs x end
  end.

(** What follows the token a text starts with. *)
Definition token : txt → option txt := first_some [function_token; deep_token; key_token; filter_token; bracket_token].

(** The tokens of a text that holds nothing else. *)
Fixpoint tokens (fuel : nat) (t : txt) : option (list txt) :=
  match t, fuel with
  | [], _ => Some []
  | _, 0 => None
  | _, S fuel => rest ← token t; ts ← tokens fuel rest; Some (before t rest :: ts)
  end.
End tables.

(** ** Readers take runes off the front *)

Definition suffix_of (rest t : txt) : Prop := ∃ a, t = a ++ rest.

Lemma suffix_refl t : suffix_of t t.
Proof. by exists []. Qed.

Lemma suffix_trans a b c : suffix_of a b → suffix_of b c → suffix_of a c.
Proof. intros [x ->] [y ->]. exists (y ++ x). by rewrite (assoc_L (++)). Qed.

Lemma suffix_length a b : suffix_of a b → length a ≤ length b.
Proof. intros [x ->]. rewrite length_app. lia. Qed.

Lemma lit_Some p t rest : lit p t = Some rest → ∃ a, t = a ++ rest ∧ length a = length p ∧ a.*1 = N_of_ascii <$> p.
Proof.
  revert t. induction p as [|c p IH]; intros t H; [injection H as <-; by exists []|].
  destruct t as [|r t]; [done|]. cbn in H. unfold eqc in H. destruct (eqb r.1 (N_of_ascii c)) eqn:E; [|done].
  apply (proj1 (eqb_true _ _)) in E. destruct (IH t H) as (a & -> & Hl & Ha). exists (r :: a). cbn. by rewrite E, Ha, Hl.
Qed.

Lemma lit_suffix p t rest : lit p t = Some rest → suffix_of rest t.
Proof. intros (a & -> & _)%lit_Some. by exists a. Qed.

Lemma lit_shorter p t rest : lit p t = Some rest → p ≠ [] → length rest < length t.
Proof. intros (a & -> & Hl & _)%lit_Some Hp. rewrite length_app, Hl. destruct p; [done|cbn; lia]. Qed.

Lemma opt_suffix p t : suffix_of (opt p t) t.
Proof. unfold opt. destruct (lit p t) eqn:E; [by eapply lit_suffix|apply suffix_refl]. Qed.

Lemma span_suffix f t : suffix_of (span f t).2 t.
Proof. destruct (span f t) as [a b] eqn:E. exists a. by apply span_app in E. Qed.

Lemma before_app t rest : suffix_of rest t → t = before t rest ++ rest.
Proof.
  intros [a ->]. unfold before. rewrite length_app. replace (length a + length rest - length rest) with (length a) by lia.
  by rewrite take_app_length.
Qed.

End PathTokens.
