(* ===== verification/JavaPattern.v ===== *)
(** * Java patterns in Go's syntax ([javaPattern] of [internal/jsonpath/filter.go])

    The rewriting of a [java.util.regex] pattern, rune by rune: escapes, character classes,
    groups and repetitions, and the patterns it refuses. The text is what package regexp
    compiles. *)
From S2P Require Import Prelude GoText Json Encoding Decimal JaywayText.
Import GoText JaywayText.

Module JavaPattern.

Notation runes := (list rune).

Definition str (s : string) : runes := N_of_ascii <$> bytes_of s.

Definition alnum (r : rune) : bool := (r <? 128)%N && (is_letter (byte_of r) || is_digit (byte_of r)).
Definition ascii_digit (r : rune) : bool := ((48 <=? r) && (r <=? 57))%N.

(** [isASCIILetter] and [swapCase]. *)
Definition isASCIILetter (r : rune) : bool := ((97 <=? r) && (r <=? 122) || (65 <=? r) && (r <=? 90))%N.
Definition swapCase (r : rune) : rune := if ((97 <=? r) && (r <=? 122))%N then (r - 97 + 65)%N else (r - 65 + 97)%N.

Definition javaSpace : runes := str "\t\n\x0B\f\r ".
Definition javaVertical : runes := str "\n\x0B\f\r\x{85}\x{2028}\x{2029}".
Definition javaDot : runes := str "[^\n\r\x{85}\x{2028}\x{2029}]".

Definition bracketed (s : runes) : runes := str "[" ++ s ++ str "]".

Definition onlyCloseParens (rs : runes) : bool := all (λ r, eqb r 41%N) rs.

(** [quantifierEnd]: the repetition that opens at the brace, and what follows it. *)
Definition quantifier (rs : runes) : option (runes * runes) :=
  match rs with
  | open :: rs' =>
      let '(ds, rest) := span ascii_digit rs' in
      if is_nil ds then None
      else
        let '(comma, rest) :=
          match rest with
          | r :: rest' => if eqb r 44%N then let '(es, rest) := span ascii_digit rest' in (r :: es, rest) else ([], rest)
          | [] => ([], [])
          end in
        match rest with
        | r :: rest => if eqb r 125%N then Some (open :: ds ++ comma ++ [r], rest) else None
        | [] => None
        end
  | [] => None
  end.

(** [groupStart]: the opening of a group [(?:] or [(?<name>], its name, and what follows. *)
Definition groupStart (rs : runes) : option (runes * option runes * runes) :=
  match rs with
  | a :: b :: c :: rest =>
      if eqb c 58%N then Some ([a; b; c], None, rest)
      else if eqb c 60%N then
        match rest with
        | r :: _ =>
            if isASCIILetter r then
              let '(name, rest) := span alnum rest in
              match rest with
              | d :: rest => if eqb d 62%N then Some (a :: b :: c :: name ++ [d], Some name, rest) else None
              | [] => None
              end
            else None
        | [] => None
        end
      else None
  | _ => None
  end.

Definition hex_value (r : rune) : option N :=
  if ascii_digit r then Some (r - 48)%N
  else if ((97 <=? r) && (r <=? 102))%N then Some (r - 87)%N
  else if ((65 <=? r) && (r <=? 70))%N then Some (r - 55)%N
  else None.

(** [strconv.ParseUint] in base 16 with 32 bits, for a value that is at most [unicode.MaxRune]. *)
Fixpoint hex_number (ds : runes) (v : N) : option N :=
  match ds with
  | [] => if (v <=? 1114111)%N then Some v else None
  | d :: ds => x ← hex_value d; hex_number ds (v * 16 + x)%N
  end.

(** [%x]. *)
Fixpoint hex_text (fuel : nat) (v : N) : runes :=
  match fuel with
  | 0 => []
  | S fuel => (if (v <? 16)%N then [] else hex_text fuel (v / 16)) ++ [N_of_ascii (hex_digit (v mod 16))]
  end.

(** What an escape stands for: its Go text, its character if it stands for one, and how many
    runes it takes. *)
Notation escaped := (runes * option rune * nat)%type.

(** [hexEscape] at the x. *)
Definition hexEscape (rs : runes) : option escaped :=
  let made ds n :=
    if is_nil ds then None else c ← hex_number ds 0; Some (str "\x{" ++ hex_text 8 c ++ str "}", Some c, n) in
  match rs with
  | _ :: b :: rest =>
      if eqb b 123%N then
        let '(ds, rest) := span (λ r, negb (eqb r 125%N)) rest in
        if is_nil rest then None else made ds (3 + length ds)
      else match rest with c :: _ => made [b; c] 3 | [] => None end
  | _ => None
  end.

(** [escape] at the letter. *)
Definition escape (rs : runes) (inClass bound fold : bool) : option escaped :=
  match rs with
  | [] => None
  | e :: rest =>
      if (127 <? e)%N then None
      else if negb (alnum e) then Some (str "\" ++ [e], Some e, 1)
      else
        let this c := eqb e (N_of_ascii c) in
        if this "d"%char || this "D"%char || this "w"%char || this "W"%char then Some (str "\" ++ [e], None, 1)
        else if this "s"%char then Some (if inClass then javaSpace else bracketed javaSpace, None, 1)
        else if this "S"%char then if inClass then None else Some (bracketed (str "^" ++ javaSpace), None, 1)
        else if this "v"%char then
          if bound || inClass && match rest with r :: _ => eqb r 45%N | [] => false end then Some (str "\x{b}", Some 11%N, 1)
          else Some (if inClass then javaVertical else bracketed javaVertical, None, 1)
        else if this "t"%char then Some (str "\t", Some 9%N, 1)
        else if this "n"%char then Some (str "\n", Some 10%N, 1)
        else if this "r"%char then Some (str "\r", Some 13%N, 1)
        else if this "f"%char then Some (str "\f", Some 12%N, 1)
        else if this "a"%char then Some (str "\a", Some 7%N, 1)
        else if this "x"%char then if fold then None else hexEscape rs
        else if (this "A"%char || this "z"%char) && negb inClass then Some (str "\" ++ [e], None, 1)
        else None
  end.

(** [classAtom]: the character of the item, its text, and what follows it. *)
Definition classAtom (rs : runes) (bound fold : bool) : option (option rune * runes * runes) :=
  match rs with
  | [] => None
  | r :: rest =>
      if eqb r 91%N then None
      else if eqb r 38%N && match rest with r' :: _ => eqb r' 38%N | [] => false end then None
      else if eqb r 47%N then None
      else if eqb r 92%N then '(s, c, n) ← escape rest true bound fold; Some (c, s, drop n rest)
      else if (r <=? 127)%N && negb (alnum r) then Some (Some r, str "\" ++ [r], rest)
      else Some (Some r, [r], rest)
  end.

(** The other case of the letters of a range. *)
Definition other_case (lo hi : rune) : runes :=
  [(97, 122); (65, 90)]%N ≫= (λ s,
    let from := N.max lo s.1 in
    let to := N.min hi s.2 in
    if (from <=? to)%N then [swapCase from; 45%N; swapCase to] else []).

(** The items of [charClass] up to the closing bracket. *)
Fixpoint class_items (fuel : nat) (rs : runes) (fold : bool) : option (runes * runes) :=
  match fuel, rs with
  | 0, _ | _, [] => None
  | S fuel, r :: rest =>
      if eqb r 93%N then Some ([], rest)
      else
        '(lo, loText, rest) ← classAtom rs false fold;
        match lo, rest with
        | Some lo', dash :: x :: _ =>
            if eqb dash 45%N && negb (eqb x 93%N) then
              '(hi, hiText, rest) ← classAtom (drop 1 rest) true fold;
              match hi with
              | Some hi =>
                  if (hi <? lo')%N then None
                  else
                    '(items, rest) ← class_items fuel rest fold;
                    Some (loText ++ str "-" ++ hiText ++ (if fold then other_case lo' hi else []) ++ items, rest)
              | None => None
              end
            else
              '(items, rest) ← class_items fuel rest fold;
              Some (loText ++ (if fold && isASCIILetter lo' then [swapCase lo'] else []) ++ items, rest)
        | _, _ =>
            '(items, rest) ← class_items fuel rest fold;
            Some (loText ++ match lo with Some lo => if fold && isASCIILetter lo then [swapCase lo] else [] | None => [] end ++ items, rest)
        end
  end.

(** [charClass] after its opening bracket. *)
Definition charClass (rs : runes) (fold : bool) : option (runes * runes) :=
  let '(caret, rs) := match rs with r :: rest => if eqb r 94%N then ([r], rest) else ([], rs) | [] => ([], []) end in
  match rs with
  | r :: _ => if eqb r 93%N then None else '(items, rest) ← class_items (S (length rs)) rs fold; Some (str "[" ++ caret ++ items ++ str "]", rest)
  | [] => None
  end.

(** The loop of [javaPattern]. *)
Fixpoint rewrite_pattern (fuel : nat) (rs : runes) (names : list runes) (fold : bool) : option runes :=
  match fuel, rs with
  | 0, _ => None
  | _, [] => Some []
  | S fuel, r :: rest =>
      if eqb r 92%N then
        match rest with
        | [] => None
        | z :: after =>
            if eqb z 90%N then
              if onlyCloseParens after then s ← rewrite_pattern fuel after names fold; Some (str "\z" ++ s) else None
            else '(s, _, n) ← escape rest false false fold; t ← rewrite_pattern fuel (drop n rest) names fold; Some (s ++ t)
        end
      else if eqb r 91%N then '(s, rest) ← charClass rest fold; t ← rewrite_pattern fuel rest names fold; Some (s ++ t)
      else if eqb r 46%N then t ← rewrite_pattern fuel rest names fold; Some (javaDot ++ t)
      else if eqb r 36%N then
        if onlyCloseParens rest then t ← rewrite_pattern fuel rest names fold; Some (str "\z" ++ t) else None
      else if eqb r 123%N then '(s, rest) ← quantifier rs; t ← rewrite_pattern fuel rest names fold; Some (s ++ t)
      else if eqb r 40%N && match rest with q :: _ => eqb q 63%N | [] => false end then
        '(s, name, rest) ← groupStart rs;
        match name with
        | Some name =>
            if member name names then None else t ← rewrite_pattern fuel rest (name :: names) fold; Some (s ++ t)
        | None => t ← rewrite_pattern fuel rest names fold; Some (s ++ t)
        end
      else if eqb r 47%N then None
      else
        t ← rewrite_pattern fuel rest names fold;
        Some ((if fold && isASCIILetter r then str "[" ++ [r; swapCase r] ++ str "]" else [r]) ++ t)
  end.

Definition javaPattern (pattern : string) (fold : bool) : option string :=
  let rs := runes_of pattern in text_of <$> rewrite_pattern (S (length rs)) rs [] fold.

(** Some of the cases of the tests. *)
Example patterns :
  (λ p, javaPattern p.1 p.2) <$>
    [("a.c$", false); ("[a-c]x", true); ("\d+\s", false); ("(?<n>a)(?<n>b)", false); ("(?=a)", false); ("a{2,3}", false); ("a{", false);
     ("[\v-\x20]", false); ("a$b", false); ("(a\Z)", false); ("[[a]]", false); ("a/b", false); ("\x{10FFFF}", false); ("[^a&&b]", false); ("[.]", false)]%string
  = [Some "a[^\n\r\x{85}\x{2028}\x{2029}]c\z"; Some "[a-cA-C][xX]"; Some "\d+[\t\n\x0B\f\r ]"; None; None; Some "a{2,3}"; None;
     Some "[\x{b}-\x{20}]"; None; Some "(a\z)"; None; None; Some "\x{10ffff}"; None; Some "[\.]"]%string.
Proof. vm_compute. reflexivity. Qed.

End JavaPattern.
