(* ===== verification/Filter.v ===== *)
(** * Filters of paths ([internal/jsonpath/filter.go])

    [parseFilter] with the readers of its regular expressions, and the predicates it builds. A
    predicate is a function of an element, as the code's closures are. The matcher that
    [regexp.Compile] gives for a translated pattern is an interface ([RegexpEngine]). *)
From Stdlib Require Import QArith.
From S2P Require Import Prelude GoText Json Encoding Digits Decimal Value JaywayText PathTokens JavaPattern.
Import GoText Value JaywayText PathTokens.

Module Filter.

Class RegexpEngine := regexp : string → option (string → bool).

(** The member a filter reads; [None] is [missing]. *)
Definition member_of (e : value) (key : string) : option value :=
  if is_empty key then Some e
  else match e with Obj o => Get key o | _ => None end.

Definition predicate := value → bool.

(** ** [parseInt] *)

Section tables.
Context {table : UnicodeTable} {numbers : NumberTable} {engine : RegexpEngine}.

Definition parseInt (s : string) : option Z :=
  d ← Decimal.ParseDecimal s;
  if existsb (λ c, member c ["+"; "."; "e"; "E"]%char) (bytes_of s) then None
  else n ← Digits.Atoi (Decimal.String d); if Decimal.in_int32 n then Some n else None.

(** ** Literals *)

Inductive literal :=
  | LString (text : string) (num : option Decimal.Decimal) (units : list unit16)
  | LNumber (text : string) (num : Decimal.Decimal) (numText : string)
  | LBool (b : bool)
  | LNull.

Definition stringLiteral (s : string) : literal := LString s (Decimal.ParseDecimal s) (utf16 (runes_of s)).

Definition listItem (s : string) : option literal := stringLiteral <$> quotedText s.

(** [equal]. *)
Definition equal (v : option value) (l : literal) : bool :=
  match v with
  | Some (Str x) =>
      match l with LString text _ _ => eqb x text | LNumber _ _ numText => eqb x numText | _ => false end
  | Some (Number x) =>
      match Decimal.ParseDecimal x, l with
      | Some d, LNumber _ num _ | Some d, LString _ (Some num) _ => (Decimal.Compare d num =? 0)%Z
      | _, _ => false
      end
  | Some (Bool x) => match l with LBool b => eqb x b | _ => false end
  | Some Null => match l with LNull => true | _ => false end
  | _ => false
  end.

(** The operators of a comparison. *)
Inductive op := Eq_ | Ne | Lt_ | Le | Gt_ | Ge.

Definition order (o : op) (c : Z) : bool :=
  match o with Lt_ => c <? 0 | Le => c <=? 0 | Gt_ => 0 <? c | _ => 0 <=? c end%Z.

Definition compare_holds (key : string) (o : op) (l : literal) : predicate := λ e,
  let v := member_of e key in
  match o with
  | Eq_ => equal v l
  | Ne => negb (equal v l)
  | _ =>
      match v with
      | Some (Number x) =>
          match Decimal.ParseDecimal x, l with Some d, LNumber _ num _ => order o (Decimal.Compare d num) | _, _ => false end
      | Some (Str x) => match l with LString _ _ units => order o (javaCompare x units) | _ => false end
      | _ => false
      end
  end.

(** The right side of a comparison as it is written. *)
Inductive written := WQuoted (t : txt) | WBool (b : bool) | WNull | WNumber (t : txt).

(** [compareFilter]. *)
Definition compareFilter (key : string) (o : op) (w : written) : option predicate :=
  l ← match w with
      | WQuoted t => stringLiteral <$> quotedText (text t)
      | WBool b => Some (LBool b)
      | WNull => Some LNull
      | WNumber t => num ← Decimal.ParseDecimal (text t); Some (LNumber (text t) num (default ""%string (string_of <$> Decimal.BigDecimalText (text t))))
      end;
  Some (compare_holds key o l).

(** [listFilter]. *)
Inductive list_op := In_ | Nin | SubsetOf | AnyOf | NoneOf.

Definition listed (items : list literal) (v : value) : bool := existsb (equal (Some v)) items.

Definition list_holds (key : string) (o : list_op) (items : list literal) : predicate := λ e,
  let v := member_of e key in
  match o with
  | In_ => existsb (equal v) items
  | Nin => negb (existsb (equal v) items)
  | _ =>
      match v with
      | Some (List l) =>
          match o with
          | SubsetOf => negb (existsb (λ x, negb (listed items x)) l)
          | AnyOf => existsb (listed items) l
          | _ => negb (existsb (listed items) l)
          end
      | _ => false
      end
  end.

Definition listFilter (key : string) (o : list_op) (quoted : list txt) : option predicate :=
  items ← mapM (λ q, listItem (text q)) quoted; Some (list_holds key o items).

(** [sizeFilter]: a size, or whether the value is empty. *)
Inductive size_test := Size (n : txt) | Empty (b : bool).

Definition size_holds (key : string) (test : Z + bool) : predicate := λ e,
  let is_size := match test with inl _ => true | inr _ => false end in
  let l :=
    match member_of e key with
    | Some (Str v) => Some (length (utf16 (runes_of v)))
    | Some (List v) => Some (length v)
    | Some (Obj v) => if is_size : bool then None else Some (Len v)
    | _ => None
    end in
  match l with
  | None => false
  | Some l => match test with inl n => (Z.of_nat l =? n)%Z | inr b => eqb (l =? 0)%nat b end
  end.

Definition sizeFilter (key : string) (test : size_test) : option predicate :=
  match test with
  | Size t => n ← parseInt (text t); Some (size_holds key (inl n))
  | Empty b => Some (size_holds key (inr b))
  end.

(** [regexInput]. *)
Definition regexInput (v : value) : option string :=
  match v with
  | Str x => Some x
  | Number x => Some (match Decimal.BigDecimalText x with Some s => string_of s | None => x end)
  | Bool b => Some (if b then "true" else "false")%string
  | _ => None
  end.

(** [regexFilter]. *)
Definition regex_holds (key : string) (matches : string → bool) : predicate := λ e,
  let test v := match regexInput v with Some s => matches s | None => false end in
  match member_of e key with
  | Some (List l) => existsb test l
  | Some v => test v
  | None => false
  end.

Definition regexFilter (key : string) (pattern : txt) (fold : bool) : option predicate :=
  translated ← JavaPattern.javaPattern (text pattern) fold;
  _ ← regexp translated;
  matches ← regexp ("\A(?:" +:+ translated +:+ ")\z")%string;
  Some (regex_holds key matches).

(** [nestedFilter]. *)
Definition nestedFilter (key : string) (inner : predicate) : predicate := λ e,
  match member_of e key with
  | Some (List l) => existsb inner l
  | Some (Obj o) => inner (Obj o)
  | _ => false
  end.

Definition existsFilter (key : string) : predicate := λ e, match member_of e key with Some _ => true | None => false end.

(** ** The regular expressions *)

Definition key_char (r : rune * bytes) : bool := word r || eqc "-" r.

(** [@(?:\.([word-]+))?]: the key, empty for the element itself. *)
Definition at_key (t : txt) : option (string * txt) :=
  r ← lit ["@"%char] t;
  match lit ["."%char] r with
  | Some r => '(key, r) ← some key_char r; Some (text key, r)
  | None => Some (""%string, r)
  end.

(** [@\.([word-]+)]. *)
Definition at_member (t : txt) : option (string * txt) := r ← lit (bytes_of "@.") t; '(key, r) ← some key_char r; Some (text key, r).

Definition spaces (t : txt) : txt := (span (eqc " ") t).2.
Definition spaces1 (t : txt) : option txt := snd <$> some (eqc " ") t.

(** The first of some words a text starts with, and what follows. *)
Fixpoint word_of {A} (ws : list (string * A)) (t : txt) : option (A * txt) :=
  match ws with
  | [] => None
  | (w, x) :: ws => match lit (bytes_of w) t with Some r => Some (x, r) | None => word_of ws t end
  end.

(** What stands between single quotes, and what follows. *)
Definition quoted (t : txt) : option (txt * txt) :=
  r ← lit ["'"%char] t; let '(a, r) := span (none_of ["'"%char]) r in r ← lit ["'"%char] r; Some (a, r).

Fixpoint list_items (fuel : nat) (t : txt) : option (list txt) :=
  match fuel with
  | 0 => None
  | S fuel =>
      match quoted (spaces t) with
      | Some (q, r) => qs ← list_items fuel (opt [","%char] (spaces r)); Some (q :: qs)
      | None => r ← lit ["]"%char] t; _ ← ends r; Some []
      end
  end.

(** [listOpRE]. *)
Definition list_expr (t : txt) : option (string * list_op * list txt) :=
  '(key, r) ← at_key t;
  r ← spaces1 r;
  '(o, r) ← word_of [("in", In_); ("nin", Nin); ("subsetof", SubsetOf); ("anyof", AnyOf); ("noneof", NoneOf)]%string r;
  r ← spaces1 r;
  r ← lit ["["%char] r;
  qs ← list_items (S (length r)) r;
  Some (key, o, qs).

(** [sizeRE]. *)
Definition size_expr (t : txt) : option (string * size_test) :=
  '(key, r) ← at_member t;
  r ← spaces1 r;
  match lit (bytes_of "size") r with
  | Some r => r ← spaces1 r; '(n, r) ← some digit r; _ ← ends r; Some (key, Size n)
  | None =>
      r ← lit (bytes_of "empty") r;
      r ← spaces1 r;
      '(b, r) ← word_of [("true", true); ("false", false)]%string r;
      _ ← ends r;
      Some (key, Empty b)
  end.

Definition no_newline (t : txt) : option txt := if existsb (eqc "010") t then None else Some t.

(** [regexOpRE]. *)
Definition regex_expr (t : txt) : option (string * txt * bool) :=
  '(key, r) ← at_key t;
  r ← lit (bytes_of "=~") (spaces r);
  r ← lit ["/"%char] (spaces r);
  match cut_end ["/"%char] r with
  | Some p => p ← no_newline p; Some (key, p, false)
  | None => p ← cut_end (bytes_of "/i") r; p ← no_newline p; Some (key, p, true)
  end.

Definition number (t : txt) : option txt :=
  '(_, r) ← some digit (opt ["-"%char] t);
  match lit ["."%char] r with
  | Some r => snd <$> some digit r
  | None => Some r
  end.

Definition literal_expr (t : txt) : option (written * txt) :=
  match quoted t with
  | Some (q, r) => Some (WQuoted q, r)
  | None =>
      match number t with
      | Some r => Some (WNumber (before t r), r)
      | None => word_of [("true", WBool true); ("false", WBool false); ("null", WNull)]%string t
      end
  end.

(** [compareRE]. *)
Definition compare_expr (t : txt) : option (string * op * written) :=
  '(key, r) ← at_key t;
  '(o, r) ← word_of [("==", Eq_); ("!=", Ne); ("<=", Le); (">=", Ge); ("<", Lt_); (">", Gt_)]%string (spaces r);
  '(w, r) ← literal_expr (spaces r);
  _ ← ends r;
  Some (key, o, w).

(** [nestedRE]. *)
Definition nested_expr (t : txt) : option (string * txt) :=
  '(key, r) ← at_member t;
  r ← lit (bytes_of "[?(") r;
  inner ← cut_end (bytes_of ")]") r;
  inner ← no_newline inner;
  Some (key, inner).

(** [existsRE]. *)
Definition exists_expr (t : txt) : option string := '(key, r) ← at_member t; _ ← ends r; Some key.

(** ** [parseFilter] *)

(** [strings.Split] at a doubled character. *)
Fixpoint split2 (c : ascii) (t : txt) : list txt :=
  match t with
  | [] => [[]]
  | r :: rest =>
      match rest with
      | s :: rest' =>
          if eqc c r && eqc c s then [] :: split2 c rest'
          else match split2 c rest with p :: ps => (r :: p) :: ps | [] => [[r]] end
      | [] => [[r]]
      end
  end.

Definition trim_spaces (t : txt) : txt := drop_while_end (eqc " ") (spaces t).

(** An expression that no operator joins: the predicate and the key it reads. *)
Definition single (parse : txt → option (predicate * list string)) (t : txt) : option (predicate * list string) :=
  match list_expr t with
  | Some (key, o, qs) => p ← listFilter key o qs; Some (p, [key])
  | None =>
  match size_expr t with
  | Some (key, test) => p ← sizeFilter key test; Some (p, [key])
  | None =>
  match regex_expr t with
  | Some (key, pattern, fold) => p ← regexFilter key pattern fold; Some (p, [key])
  | None =>
  match compare_expr t with
  | Some (key, o, w) => p ← compareFilter key o w; Some (p, [key])
  | None =>
  match nested_expr t with
  | Some (key, inner) => '(p, _) ← parse inner; Some (nestedFilter key p, [key])
  | None =>
  match exists_expr t with
  | Some key => Some (existsFilter key, [key])
  | None => None
  end end end end end end.

Definition any_of (ps : list predicate) : predicate := λ e, existsb (λ p, p e) ps.
Definition all_of (ps : list predicate) : predicate := λ e, negb (existsb (λ p, negb (p e)) ps).

Fixpoint parseFilter (fuel : nat) (expr : txt) : option (predicate * list string) :=
  match fuel with
  | 0 => None
  | S fuel =>
      let expr := trim_spaces expr in
      let joined join parts := ps ← mapM (parseFilter fuel) parts; Some (join ps.*1, concat ps.*2) in
      match split2 "|" expr with
      | (_ :: _ :: _) as parts => joined any_of parts
      | _ =>
          match split2 "&" expr with
          | (_ :: _ :: _) as parts => joined all_of parts
          | _ => single (parseFilter fuel) expr
          end
      end
  end.

(** Every call is of a shorter text, so that as many turns as it has runes are enough. *)
Definition ParseFilter (expr : txt) : option (predicate * list string) := parseFilter (S (length expr)) expr.
(** ** Numbers *)

(** What an operator asks of the order of two numbers. *)
Definition asks (o : op) (c : comparison) : bool :=
  match o, c with
  | Eq_, Eq | Ne, Lt | Ne, Gt | Lt_, Lt | Le, Lt | Le, Eq | Gt_, Gt | Ge, Gt | Ge, Eq => true
  | _, _ => false
  end.

Lemma asks_order o c : o ≠ Eq_ → o ≠ Ne → order o (Decimal.Z_of_comparison c) = asks o c.
Proof. by destruct o, c. Qed.

(** C27: A filter with a number compares the rationals that the text in the document and the text
    in the path write, at any number of digits. *)
Theorem number_filter key o t p e n d :
  compareFilter key o (WNumber t) = Some p → member_of e key = Some (Number n) → Decimal.ParseDecimal n = Some d →
  p e = asks o (Qcompare (Decimal.text_value n) (Decimal.text_value (text t))).
Proof.
  unfold compareFilter. destruct (Decimal.ParseDecimal (text t)) as [num|] eqn:E; [|done]. cbn [mbind option_bind]. intros [= <-] Hm Hd.
  pose proof (proj1 (Decimal.ParseDecimal_value _ _ Hd)) as Wd. pose proof (proj2 (Decimal.ParseDecimal_value _ _ Hd)) as Vd.
  pose proof (proj1 (Decimal.ParseDecimal_value _ _ E)) as We. pose proof (proj2 (Decimal.ParseDecimal_value _ _ E)) as Ve.
  pose proof (Decimal.Compare_value _ _ Wd We) as Hc. rewrite Vd, Ve in Hc. unfold compare_holds. rewrite Hm. cbn [equal]. rewrite Hd, Hc.
  by destruct o, (Qcompare _ _).
Qed.

End tables.

(** ** A witness *)

#[local] Instance no_runes : UnicodeTable := {| print_table _ := true; letter_table _ := false; digit_table _ := false |}.

Lemma number_filter_witness :
  let p := compare_holds "n" Gt_ (LNumber "10.0" (Decimal.MkDecimal false ["1"%char] 1) "10.0") in
  p (Obj [("n"%string, Number "1e400")]) = asks Gt_ (Qcompare (Decimal.text_value "1e400") (Decimal.text_value (text (to_txt "10.0")))).
Proof.
  intros p. assert (H1 : compareFilter "n" Gt_ (WNumber (to_txt "10.0")) = Some p) by reflexivity.
  assert (H2 : Decimal.ParseDecimal "1e400" = Some (Decimal.MkDecimal false ["1"%char] 400)) by reflexivity.
  exact (number_filter "n" Gt_ (to_txt "10.0") p (Obj [("n"%string, Number "1e400")]) "1e400" _ H1 eq_refl H2).
Defined.

End Filter.
