(* ===== verification/JsonPath.v ===== *)
(** * Paths ([internal/jsonpath/jsonpath.go])

    [Compile], which cuts a path into tokens and reads a step from each, and [Select], which
    applies the steps to a document within the work budget. *)
From S2P Require Import Prelude GoText Json Encoding Digits Decimal Double Value Budget JsonText JaywayText PathTokens JavaPattern Filter.
Import GoText Value JaywayText PathTokens.

Module JsonPath.

(** ** Steps *)

(** [step], a constructor for each [stepKind]. *)
Inductive step :=
  | Key (key : string)
  | Deep (key : string)
  | Star
  | FilterStep (filter : Filter.predicate) (reads : list string)
  | Index (i : Z)
  | IndexList (l : list Z)
  | Slice (lo hi : option Z)
  | RootBracket
  | Function (name : string).

Section compile.
Context {table : UnicodeTable} {numbers : NumberTable} {engine : Filter.RegexpEngine}.

(** [bracketKeyRE]. *)
Definition bracket_key (t : txt) : option txt :=
  r ← lit ["["%char] t; '(q, r) ← Filter.quoted r; r ← lit ["]"%char] r; _ ← ends r; Some q.

(** [-?\p{Nd}+], the text of a number and what follows. *)
Definition index_text (t : txt) : option (string * txt) := '(_, r) ← some digit (opt ["-"%char] t); Some (text (before t r), r).

(** [indexRE]. *)
Definition index_expr (t : txt) : option string :=
  r ← lit ["["%char] t; '(n, r) ← index_text r; r ← lit ["]"%char] r; _ ← ends r; Some n.

(** The numbers of [indexListRE] after the first, each after a comma and at most one space. *)
Fixpoint more_indexes (fuel : nat) (t : txt) : option (list string) :=
  match fuel with
  | 0 => None
  | S fuel =>
      match lit [","%char] t with
      | Some r => '(n, r) ← index_text (opt [" "%char] r); ns ← more_indexes fuel r; Some (n :: ns)
      | None => r ← lit ["]"%char] t; _ ← ends r; Some []
      end
  end.

(** [indexListRE], and the split of the list at its commas. *)
Definition index_list_expr (t : txt) : option (list string) :=
  r ← lit ["["%char] t;
  '(n, r) ← index_text r;
  ns ← more_indexes (S (length r)) r;
  if is_nil ns then None else Some (n :: ns).

(** [sliceRE]: the two bounds, empty where they are left out. *)
Definition slice_expr (t : txt) : option (string * string) :=
  let bound t := let r := (span digit (opt ["-"%char] t)).2 in (text (before t r), r) in
  r ← lit ["["%char] t;
  let '(lo, r) := bound r in
  r ← lit [":"%char] r;
  let '(hi, r) := bound r in
  r ← lit ["]"%char] r;
  _ ← ends r;
  Some (lo, hi).

Definition slice_bound (s : string) : option (option Z) := if is_empty s then Some None else Some <$> Filter.parseInt s.

(** [slices.Compact] of a sorted list. *)
Fixpoint compact (l : list string) : list string :=
  match l with
  | x :: rest =>
      match rest with
      | y :: _ => if eqb x y then compact rest else x :: compact rest
      | [] => [x]
      end
  | [] => []
  end.

(** The part of [parseStep] after the bracket key. *)
Definition parse_other (t : txt) : option step :=
  match cut_end (bytes_of "()") t with
  | Some f => Some (Function (text (drop 1 f)))
  | None =>
  match lit (bytes_of "..") t with
  | Some r => Some (Deep (text r))
  | None =>
  match lit ["."%char] t with
  | Some r => Some (Key (text r))
  | None =>
  if eqb (text t) "[*]"%string then Some Star
  else
    match (r ← lit (bytes_of "[?(") t; cut_end (bytes_of ")]") r) with
    | Some f => '(p, reads) ← Filter.ParseFilter f; Some (FilterStep p (compact (sort_strings reads)))
    | None =>
    match index_list_expr t with
    | Some ns => l ← mapM Filter.parseInt ns; Some (IndexList l)
    | None =>
    match slice_expr t with
    | Some (lo, hi) =>
        if is_empty lo && is_empty hi then None
        else a ← slice_bound lo; b ← slice_bound hi; Some (Slice a b)
    | None => n ← index_expr t; i ← Filter.parseInt n; Some (Index i)
    end end end
  end end end.

(** [parseStep]; [first] says that the token stands at position zero. *)
Definition parseStep (t : txt) (first : bool) : option step :=
  let '(t, first) :=
    match lit (bytes_of ".[") t with Some _ => (drop 1 t, false) | None => (t, first) end in
  match bracket_key t with
  | Some q => if first : bool then Some RootBracket else Key <$> quotedText (text q)
  | None => parse_other t
  end.

Definition is_deep (s : step) : bool := match s with Deep _ => true | _ => false end.
Definition is_function (s : step) : bool := match s with Function _ => true | _ => false end.

(** The loop of [Compile] over the tokens. *)
Fixpoint steps_of (toks : list txt) (first deep : bool) : option (list step) :=
  match toks with
  | [] => Some []
  | t :: toks =>
      s ← parseStep t first;
      let deep := deep || is_deep s in
      if deep && is_function s then None
      else ss ← steps_of toks false deep; Some (s :: ss)
  end.

(** [Compile]; [None] stands for an error that wraps [ErrUnsupported]. *)
Definition Compile (path : string) : option (list step) :=
  let t := to_txt path in
  toks ← tokens (length t) t; steps_of toks true false.
End compile.

(** ** Selection *)

(** [Kind] and the value of a [Result]. *)
Inductive result :=
  | One (v : value)
  | Many (vs : list value)
  | Missing
  | NullParent
  | IndexOutOfBounds
  | Bracket
  | TooLarge.

(** [slice]. *)
Definition clamp (n : Z) (b : option Z) (def : Z) : Z :=
  match b with
  | None => def
  | Some i => let i := if (i <? 0)%Z then (i + n)%Z else i in Z.max 0 (Z.min n i)
  end.

Definition slice (l : list value) (lo hi : option Z) : list value :=
  let n := Z.of_nat (length l) in
  let a := clamp n lo 0 in
  let b := clamp n hi n in
  if (b <=? a)%Z then [] else take (Z.to_nat (b - a)) (drop (Z.to_nat a) l).

(** The element at an index, which may count from the end. *)
Definition element (l : list value) (i : Z) : option value :=
  let n := Z.of_nat (length l) in
  if ((- n <=? i) && (i <? n))%Z then l !! Z.to_nat ((i + n) mod n) else None.

(** *** Functions *)

Inductive outcome := Computed (v : value) | NoValue | Thrown.

Definition itoa (n : nat) : value := Number (string_of (Digits.FormatInt (Z.of_nat n))).

(** The numbers of a list. *)
Definition numbers_of (l : list value) : list Double.double :=
  omap (λ e, match e with Number t => Some (Double.add (Double.of_text (bytes_of t)) (Double.of_int 0)) | _ => None end) l.

(** The members of [keys()], as one text. *)
Fixpoint comma (l : list string) : string :=
  match l with
  | [] => ""
  | [k] => k
  | k :: l => k +:+ ", " +:+ comma l
  end%string.

(** [apply]. *)
Definition apply (name : string) (x : value) : outcome :=
  if eqb name "length"%string then
    Computed (match x with List l => itoa (length l) | Obj o => itoa (Len o) | _ => Null end)
  else if eqb name "keys"%string then
    Computed (match x with Obj o => Str ("[" +:+ comma (Keys o) +:+ "]")%string | _ => Null end)
  else
    match x with
    | List l =>
        if eqb name "first"%string then match l with v :: _ => Computed v | [] => NoValue end
        else if eqb name "last"%string then match last l with Some v => Computed v | None => NoValue end
        else
          match numbers_of l with
          | [] => Thrown
          | n :: ns =>
              let total := fold_left Double.add (n :: ns) (Double.of_int 0) in
              let acc :=
                if eqb name "sum"%string then total
                else if eqb name "avg"%string then Double.div total (Double.of_int (Z.of_nat (length (n :: ns))))
                else if eqb name "max"%string then fold_left (λ acc f, if Double.lt acc f then f else acc) ns n
                else fold_left (λ acc f, if Double.lt f acc then f else acc) ns n in
              Computed (Number (string_of (Double.DoubleText acc)))
          end
    | _ => Thrown
    end.

(** The loop of [function] over several values. *)
Fixpoint function_many (name : string) (cur out : list value) : result :=
  match cur with
  | [] => Many out
  | x :: cur =>
      match apply name x with
      | Computed v => function_many name cur (out ++ [v])
      | NoValue => function_many name cur out
      | Thrown => Missing
      end
  end.

(** [function]; [None] is the panic of an index into nothing. *)
Definition function (name : string) (cur : list value) (many : bool) : option result :=
  if many then Some (function_many name cur [])
  else v ← head cur; Some (match apply name v with Computed v => One v | _ => Missing end).

(** *** The charges *)

(** A computation that spends the budget; [None] is the return of [KindTooLarge]. *)
Definition spending A := Budget.budget → option (A * Budget.budget).

Definition charge (n : Z) : spending unit := λ b, let '(ok, b) := Budget.charge n b in if ok : bool then Some (tt, b) else None.
Definition chargeWeight (v : value) : spending unit := λ b, let '(ok, b) := Budget.chargeWeight v b in if ok : bool then Some (tt, b) else None.
Definition chargeMember (m : option value) : spending unit := λ b, let '(ok, b) := Budget.chargeMember m b in if ok : bool then Some (tt, b) else None.

Definition pure {A} (x : A) : spending A := λ b, Some (x, b).
Definition bind {A B} (m : spending A) (f : A → spending B) : spending B := λ b, '(x, b) ← m b; f x b.

(** A loop that adds to a list. *)
Fixpoint collect {A} (f : A → spending (list value)) (l : list A) : spending (list value) :=
  match l with
  | [] => pure []
  | x :: l => bind (f x) (λ vs, bind (collect f l) (λ ws, pure (vs ++ ws)))
  end.

Definition each {A} (f : A → spending unit) (l : list A) : spending unit := foldr (λ x m, bind (f x) (λ _, m)) (pure tt) l.

(** [walk]. *)
Fixpoint walk (key : string) (v : value) : spending (list value) :=
  bind (charge 1) (λ _,
    match v with
    | Obj o => bind (collect (λ m, walk key m.2) o) (λ inner, pure (match Get key o with Some m => [m] | None => [] end ++ inner))
    | List l => collect (walk key) l
    | _ => pure []
    end).

(** *** The steps *)

(** How a step ends: with the values of the next one and whether several may be selected, or
    with the result; [Panic] is an index into nothing. *)
Inductive flow := Next (many : bool) (cur : list value) | Return (r : result) | Panic.

(** The values a filter tests. *)
Definition tested (v : value) : option (list value) :=
  match v with List l => Some l | Obj o => Some [Obj o] | _ => None end.

Definition test (p : Filter.predicate) (reads : list string) (e : value) : spending (list value) :=
  bind (each (λ key, chargeMember (Filter.member_of e key)) reads) (λ _, pure (if p e then [e] else [])).

(** The loop of [stepFilter]. *)
Fixpoint filter_loop (p : Filter.predicate) (reads : list string) (many : bool) (cur : list value) : spending (result + list value) :=
  match cur with
  | [] => pure (inr [])
  | v :: cur =>
      match tested v with
      | Some l =>
          bind (collect (test p reads) l) (λ vs, bind (filter_loop p reads many cur) (λ r,
            pure (match r with inl r => inl r | inr ws => inr (vs ++ ws) end)))
      | None => if many then filter_loop p reads many cur else pure (inl Missing)
      end
  end.

(** A member or an element of one value, or why there is none. *)
Definition key_of (key : string) (v : value) : option value := match v with Obj o => Get key o | _ => None end.

Definition no_member (first : bool) (v : value) : result :=
  if first then Missing else match v with Null => NullParent | Obj [] => NullParent | _ => Missing end.

Definition at_index (i : Z) (v : value) : option value := match v with List l => element l i | _ => None end.
Definition no_element (v : value) : result := match v with List _ => IndexOutOfBounds | _ => Missing end.

(** The loops of [stepKey] and [stepIndex]: without several values, the first without a result
    ends the selection. *)
Fixpoint pick (get : value → option value) (none : value → result) (many : bool) (cur : list value) : result + list value :=
  match cur with
  | [] => inr []
  | v :: cur =>
      match get v with
      | Some w => match pick get none many cur with inl r => inl r | inr ws => inr (w :: ws) end
      | None => if many then pick get none many cur else inl (none v)
      end
  end.

Definition picked (many : bool) (r : result + list value) : flow :=
  match r with inl r => Return r | inr ws => Next many ws end.

(** The body of the loop of [Select]. *)
Definition run_step (s : step) (first many : bool) (cur : list value) : spending flow :=
  match s with
  | Function name =>
      bind (each (λ v, charge (Budget.functionInput v)) cur) (λ _,
        pure (match function name cur many with Some r => Return r | None => Panic end))
  | RootBracket => pure (Return Bracket)
  | Deep key => bind (collect (walk key) cur) (λ next, pure (Next true next))
  | Key key => pure (picked many (pick (key_of key) (no_member first) many cur))
  | Star =>
      bind (collect (λ v,
        match v with
        | List l => bind (charge (Z.of_nat (length l))) (λ _, pure l)
        | Obj o => bind (charge (Z.of_nat (Len o))) (λ _, pure o.*2)
        | _ => pure []
        end) cur) (λ next, pure (Next true next))
  | FilterStep p reads =>
      bind (filter_loop p reads many cur) (λ r, pure (match r with inl r => Return r | inr next => Next true next end))
  | IndexList _ | Slice _ _ =>
      match (if many : bool then Some true else v ← head cur; Some (match v with List _ => true | _ => false end)) with
      | None => pure Panic
      | Some false => pure (Return Missing)
      | Some true =>
          bind (collect (λ v,
            match v with
            | List l =>
                match s with
                | IndexList js => bind (charge (Z.of_nat (length js))) (λ _, pure (omap (element l) js))
                | Slice lo hi => bind (charge (Z.of_nat (length l))) (λ _, pure (slice l lo hi))
                | _ => pure []
                end
            | _ => pure []
            end) cur) (λ next, pure (Next true next))
      end
  | Index i => pure (picked many (pick (at_index i) no_element many cur))
  end.

(** The end of [Select]. *)
Definition finish (many : bool) (cur : list value) : spending flow :=
  if many then bind (each chargeWeight cur) (λ _, pure (Return (Many cur)))
  else pure (match head cur with Some v => Return (One v) | None => Panic end).

Fixpoint run_steps (ss : list step) (first many : bool) (cur : list value) : spending flow :=
  match ss with
  | [] => finish many cur
  | s :: ss => bind (run_step s first many cur) (λ f, match f with Next many cur => run_steps ss false many cur | _ => pure f end)
  end.

(** [Path.Select]; [None] is a panic. *)
Definition Select (ss : list step) (doc : value) : option result :=
  match doc, ss with
  | Null, RootBracket :: _ => Some Bracket
  | Null, _ => Some Missing
  | _, _ =>
      match run_steps ss true false [doc] (Budget.new doc) with
      | None => Some TooLarge
      | Some (Return r, _) => Some r
      | Some _ => None
      end
  end.
End JsonPath.
