(* ===== verification/Selection.v ===== *)
(** * What a path selects ([Path.Select] of [internal/jsonpath])

    An abstract selection without a budget: what each step makes of the values before it, and
    the work it charges. [Select] gives its result exactly while the work of the whole path
    fits the size of the document, and never panics; what it selects are parts of the document,
    and the size of a list it selects is linear in that of the document. *)
From S2P Require Import Prelude GoText Json Encoding Value Budget JaywayText PathTokens Filter JsonPath.
Import Value JsonPath.

Module Selection.

Notation fits := Budget.fits.
Notation sum := Budget.sum.

(** ** The abstract selection *)

(** The values under a value, itself included. *)
Fixpoint nodes (v : value) : Z :=
  match v with
  | List l => 1 + sum (λ e, nodes e) l
  | Obj o => 1 + sum (λ m, nodes m.2) o
  | _ => 1
  end.

Definition own (key : string) (o : object) : list value := match Get key o with Some m => [m] | None => [] end.

(** Every member of a name at any depth, those of an object before those inside its values. *)
Fixpoint under (key : string) (v : value) : list value :=
  match v with
  | Obj o => own key o ++ concat (map (λ m, under key m.2) o)
  | List l => concat (map (under key) l)
  | _ => []
  end.

Definition children (v : value) : list value := match v with List l => l | Obj o => o.*2 | _ => [] end.
Definition width (v : value) : Z := match v with List l => Z.of_nat (length l) | Obj o => Z.of_nat (Len o) | _ => 0 end.

Definition elements_at (s : step) (v : value) : list value :=
  match v, s with
  | List l, IndexList js => omap (element l) js
  | List l, Slice lo hi => slice l lo hi
  | _, _ => []
  end.

Definition elements_cost (s : step) (v : value) : Z :=
  match v, s with
  | List l, IndexList js => Z.of_nat (length js)
  | List l, Slice _ _ => Z.of_nat (length l)
  | _, _ => 0
  end.

Definition passing (p : Filter.predicate) (v : value) : list value := List.filter p (default [] (tested v)).
Definition reading (reads : list string) (v : value) : Z :=
  sum (λ e, sum (λ key, Budget.member_size (Filter.member_of e key)) reads) (default [] (tested v)).

Definition is_list (v : value) : bool := match v with List _ => true | _ => false end.

(** What a step makes of the values before it. *)
Definition choose (s : step) (first many : bool) (cur : list value) : flow :=
  match s with
  | Function name => match function name cur many with Some r => Return r | None => Panic end
  | RootBracket => Return Bracket
  | Deep key => Next true (concat (map (under key) cur))
  | Key key => picked many (pick (key_of key) (no_member first) many cur)
  | Star => Next true (concat (map children cur))
  | FilterStep p reads =>
      if many || forallb (λ v, bool_decide (is_Some (tested v))) cur then Next true (concat (map (passing p) cur)) else Return Missing
  | IndexList _ | Slice _ _ =>
      match (if many then Some true else is_list <$> head cur) with
      | None => Panic
      | Some false => Return Missing
      | Some true => Next true (concat (map (elements_at s) cur))
      end
  | Index i => picked many (pick (at_index i) no_element many cur)
  end.

(** The work a step charges. *)
Definition cost (s : step) (many : bool) (cur : list value) : Z :=
  match s with
  | Function _ => sum Budget.functionInput cur
  | Deep _ => sum nodes cur
  | Star => sum width cur
  | FilterStep _ reads => if many then sum (reading reads) cur else match cur with v :: _ => reading reads v | [] => 0 end
  | IndexList _ | Slice _ _ => if many || match cur with v :: _ => is_list v | [] => false end then sum (elements_cost s) cur else 0
  | _ => 0
  end.

(** The whole path: how it ends, and the work. *)
Fixpoint selects (ss : list step) (first many : bool) (cur : list value) : flow * Z :=
  match ss with
  | [] =>
      if many then (Return (Many cur), sum Budget.size cur)
      else (match head cur with Some v => Return (One v) | None => Panic end, 0%Z)
  | s :: ss =>
      match choose s first many cur with
      | Next many' cur' => let '(f, c) := selects ss false many' cur' in (f, (cost s many cur + c)%Z)
      | f => (f, cost s many cur)
      end
  end.

(** ** Computations that spend *)

Definition within (b : Budget.budget) : Prop := Budget.inv b ∧ fits (Budget.doc b) (Budget.spent b) = true.

(** [m] gives [x] for the work [c], exactly while the work fits. *)
Definition spends {A} (m : spending A) (x : A) (c : Z) : Prop :=
  (0 ≤ c)%Z ∧ ∀ b, within b →
    if fits (Budget.doc b) (Budget.spent b + c) then
      ∃ b', m b = Some (x, b') ∧ Budget.doc b' = Budget.doc b ∧ Budget.spent b' = (Budget.spent b + c)%Z ∧ Budget.inv b'
    else m b = None.

Lemma fits_less doc a b : (a ≤ b)%Z → fits doc b = true → fits doc a = true.
Proof. rewrite !Budget.fits_true. lia. Qed.

Lemma pure_spends {A} (x : A) : spends (pure x) x 0.
Proof. split; [done|]. intros b [Hi Hf]. rewrite Z.add_0_r, Hf. by exists b. Qed.

Lemma bind_spends {A B} (m : spending A) (f : A → spending B) x y c d :
  spends m x c → spends (f x) y d → spends (bind m f) y (c + d).
Proof.
  intros [Hc Hm] [Hd Hf]. split; [lia|]. intros b Hb. unfold bind. specialize (Hm b Hb).
  destruct (fits (Budget.doc b) (Budget.spent b + c)) eqn:F.
  - destruct Hm as (b1 & -> & D1 & S1 & I1). cbn [mbind option_bind].
    assert (W1 : within b1) by (split; [done|]; by rewrite D1, S1). specialize (Hf b1 W1). rewrite D1, S1, <-Z.add_assoc in Hf. exact Hf.
  - rewrite Hm. destruct (fits (Budget.doc b) (Budget.spent b + (c + d))) eqn:G; [|done].
    rewrite (fits_less _ (Budget.spent b + c) (Budget.spent b + (c + d))) in F by (done || lia). done.
Qed.

Lemma spends_eq {A} (m : spending A) x y c d : spends m x c → x = y → c = d → spends m y d.
Proof. by intros H <- <-. Qed.

Lemma charge_spends n : (0 ≤ n)%Z → spends (charge n) tt n.
Proof.
  intros Hn. split; [done|]. intros b [Hi Hf]. destruct (Budget.charge_spec n b Hi Hn) as (b' & E & D & S & I). unfold charge. rewrite E.
  destruct (fits (Budget.doc b) (Budget.spent b + n)); [|done]. exists b'. rewrite ?S by done. auto.
Qed.

Lemma weighs_spends w n : (0 < n)%Z → Budget.weighs w n →
  spends (λ b, let '(ok, b) := Budget.charge_loop w (Budget.charge_fuel b) b in if ok : bool then Some (tt, b) else None) tt n.
Proof.
  intros Hn Hw. split; [lia|]. intros b [Hi Hf]. destruct (Budget.charge_weighs w n b Hi Hw) as (b' & E & D & I & S). rewrite E.
  destruct (fits (Budget.doc b) (Budget.spent b + n)); [|done]. exists b'. rewrite ?S by done. auto.
Qed.

Lemma chargeWeight_spends v : spends (chargeWeight v) tt (Budget.size v).
Proof. apply (weighs_spends (Budget.weight v)); [apply Budget.size_pos|apply Budget.weight_size]. Qed.

Lemma chargeMember_spends m : spends (chargeMember m) tt (Budget.member_size m).
Proof. destruct m as [v|]; [apply chargeWeight_spends|]. apply (weighs_spends (λ _, 1%Z)); [done|by apply Budget.weighs_const]. Qed.

Lemma collect_spends {A} (f : A → spending (list value)) g c l :
  Forall (λ x, spends (f x) (g x) (c x)) l → spends (collect f l) (concat (map g l)) (sum c l).
Proof.
  intros H. induction H as [|x l Hx _ IH]; [apply pure_spends|]. cbn [collect map concat].
  eapply spends_eq; [eapply bind_spends; [exact Hx|eapply bind_spends; [exact IH|apply pure_spends]]|done|]. cbn. unfold sum in *. lia.
Qed.

Lemma each_spends {A} (f : A → spending unit) c l : Forall (λ x, spends (f x) tt (c x)) l → spends (each f l) tt (sum c l).
Proof. intros H. induction H as [|x l Hx _ IH]; [apply pure_spends|]. cbn. by eapply bind_spends. Qed.

Lemma walk_spends key v : spends (walk key v) (under key v) (nodes v).
Proof.
  induction v as [|b|t|s|l IH|o IH] using value_rect';
    try (eapply spends_eq; [eapply (bind_spends (charge 1)); [by apply charge_spends|apply pure_spends]|done|done]).
  - eapply (bind_spends (charge 1)); [by apply charge_spends|]. by apply (collect_spends (walk key) (under key) nodes).
  - eapply (bind_spends (charge 1)); [by apply charge_spends|]. cbv beta iota.
    eapply spends_eq; [eapply bind_spends; [by apply (collect_spends (λ m, walk key m.2) (λ m, under key m.2) (λ m, nodes m.2))|apply pure_spends]|done|apply Z.add_0_r].
Qed.

(** ** Each step *)

Lemma test_spends p reads e :
  spends (test p reads e) (if p e then [e] else []) (sum (λ key, Budget.member_size (Filter.member_of e key)) reads).
Proof.
  eapply spends_eq; [eapply bind_spends; [apply (each_spends _ (λ key, Budget.member_size (Filter.member_of e key)))|apply pure_spends]|done|lia].
  apply Forall_true. intros key. apply chargeMember_spends.
Qed.

Lemma concat_filter {A} (p : A → bool) l : concat (map (λ e, if p e then [e] else []) l) = List.filter p l.
Proof. induction l as [|x l IH]; [done|]. cbn. rewrite IH. by destruct (p x). Qed.

Lemma tests_spends p reads v l : tested v = Some l → spends (collect (test p reads) l) (passing p v) (reading reads v).
Proof.
  intros E. unfold passing, reading. rewrite E. cbn [default from_option id].
  eapply spends_eq; [eapply collect_spends; apply Forall_true; intros e; apply test_spends|apply concat_filter|done].
Qed.

Lemma filter_loop_many p reads cur :
  spends (filter_loop p reads true cur) (inr (concat (map (passing p) cur))) (sum (reading reads) cur).
Proof.
  induction cur as [|v cur IH]; [apply pure_spends|]. cbn [filter_loop map concat]. destruct (tested v) as [l|] eqn:E.
  - eapply spends_eq; [eapply bind_spends; [by apply tests_spends|eapply bind_spends; [exact IH|apply pure_spends]]|done|]. cbn. unfold sum in *. lia.
  - assert (H1 : passing p v = []) by (unfold passing; by rewrite E). assert (H2 : reading reads v = 0%Z) by (unfold reading; by rewrite E).
    cbn. by rewrite H1, H2.
Qed.

(** The values between two steps: one of them while no step can select several. *)
Definition shaped (many : bool) (cur : list value) : Prop := many = true ∨ ∃ v, cur = [v].

Lemma filter_step p reads first many cur :
  shaped many cur →
  spends (run_step (FilterStep p reads) first many cur) (choose (FilterStep p reads) first many cur) (cost (FilterStep p reads) many cur).
Proof.
  intros H. cbn [run_step choose cost]. destruct many; cbn [orb].
  - eapply spends_eq; [eapply bind_spends; [apply filter_loop_many|apply pure_spends]|done|lia].
  - destruct H as [|[v ->]]; [done|]. cbn [filter_loop forallb map concat]. rewrite andb_true_r. destruct (tested v) as [l|] eqn:E.
    + rewrite bool_decide_true by eauto. eapply spends_eq;
        [eapply bind_spends; [eapply bind_spends; [by apply tests_spends|eapply bind_spends; [apply pure_spends|apply pure_spends]]|apply pure_spends]|done|lia].
    + rewrite bool_decide_false by (by intros []). eapply spends_eq; [eapply bind_spends; [apply pure_spends|apply pure_spends]|done|].
      unfold reading. by rewrite E.
Qed.

Lemma width_nonneg v : (0 ≤ width v)%Z.
Proof. destruct v; cbn; lia. Qed.

Lemma collected {A} (m : spending A) f (x : A) c : spends m x c → spends (bind m (λ x, pure (f x))) (f x : flow) c.
Proof. intros H. eapply spends_eq; [eapply bind_spends; [exact H|apply pure_spends]|done|lia]. Qed.

Lemma charged (l : list value) n : (0 ≤ n)%Z → spends (bind (charge n) (λ _, pure l)) l n.
Proof. intros H. eapply spends_eq; [eapply bind_spends; [by apply charge_spends|apply pure_spends]|done|lia]. Qed.

Lemma list_step_spends s first many cur :
  shaped many cur → (match s with IndexList _ | Slice _ _ => True | _ => False end) →
  spends (run_step s first many cur) (choose s first many cur) (cost s many cur).
Proof.
  intros H Hs. assert (Hm : many = true ∨ is_list <$> head cur = Some true ∨ is_list <$> head cur = Some false).
  { destruct H as [|[v ->]]; [by left|right]. cbn. destruct (is_list v); auto. }
  assert (E : (if many : bool then Some true else v ← head cur; Some (match v with List _ => true | _ => false end)) = (if many then Some true else is_list <$> head cur)).
  { destruct many; [done|]. by destruct (head cur). }
  assert (Hgo : spends (bind (collect (λ v, match v with
            | List l => match s with
                | IndexList js => bind (charge (Z.of_nat (length js))) (λ _, pure (omap (element l) js))
                | Slice lo hi => bind (charge (Z.of_nat (length l))) (λ _, pure (slice l lo hi))
                | _ => pure [] end
            | _ => pure [] end) cur) (λ next, pure (Next true next))) (Next true (concat (map (elements_at s) cur))) (sum (elements_cost s) cur)).
  { apply (collected _ (Next true)). apply collect_spends, Forall_true. intros v. destruct v; try apply pure_spends.
    destruct s; try done; apply charged; cbn; lia. }
  destruct s; try done; cbn [run_step choose cost]; rewrite E; clear E.
  all: destruct many; [exact Hgo|]; destruct H as [|[v ->]]; [done|]; cbn in *; destruct v; try apply pure_spends; exact Hgo.
Qed.

Lemma step_spends s first many cur :
  shaped many cur → spends (run_step s first many cur) (choose s first many cur) (cost s many cur).
Proof.
  intros H. destruct s as [key|key| |p reads|i|js|lo hi| |name]; try (by apply filter_step); try (by apply list_step_spends); try apply pure_spends.
  - apply (collected _ (Next true)). apply (collect_spends _ (under key) nodes), Forall_true. intros v. apply walk_spends.
  - apply (collected _ (Next true)). apply (collect_spends _ children width), Forall_true. intros v.
    destruct v; try apply pure_spends; apply charged; cbn; lia.
  - apply (collected _ (λ _, match function name cur many with Some r => Return r | None => Panic end) tt).
    apply each_spends, Forall_true. intros v. apply charge_spends, Budget.functionInput_nonneg.
Qed.

Lemma picked_shaped get none many cur many' cur' :
  shaped many cur → picked many (pick get none many cur) = Next many' cur' → shaped many' cur'.
Proof.
  intros [->|[v ->]] H; destruct (pick _ _ _ _) eqn:E; try done; cbn in H; injection H as <- <-; [by left|].
  cbn in E. destruct (get v) as [w|]; [injection E as <-; right; eauto|]. destruct many; [by left|done].
Qed.

Lemma choose_shaped s first many cur many' cur' : shaped many cur → choose s first many cur = Next many' cur' → shaped many' cur'.
Proof.
  intros H E. destruct s; cbn [choose] in E; try discriminate E; try (injection E as <- <-; by left); try (by eapply picked_shaped).
  - destruct (_ || _); [|done]. injection E as <- <-. by left.
  - destruct (if many then _ else _) as [[]|]; try done. injection E as <- <-. by left.
  - destruct (if many then _ else _) as [[]|]; try done. injection E as <- <-. by left.
  - by destruct (function _ _ _).
Qed.

Lemma steps_spend ss first many cur :
  shaped many cur → let '(f, c) := selects ss first many cur in spends (run_steps ss first many cur) f c.
Proof.
  revert first many cur. induction ss as [|s ss IH]; intros first many cur H; cbn [selects run_steps].
  - unfold finish. destruct many; [|apply pure_spends]. apply (collected _ (λ _, Return (Many cur)) tt).
    apply each_spends, Forall_true. intros v. apply chargeWeight_spends.
  - pose proof (step_spends s first many cur H) as Hs. destruct (choose s first many cur) as [many' cur'|r|] eqn:E.
    + specialize (IH false many' cur' (choose_shaped _ _ _ _ _ _ H E)). destruct (selects ss false many' cur') as [f c].
      by eapply bind_spends.
    + eapply spends_eq; [eapply bind_spends; [exact Hs|apply pure_spends]|done|lia].
    + eapply spends_eq; [eapply bind_spends; [exact Hs|apply pure_spends]|done|lia].
Qed.
(** ** The whole selection *)

Lemma pick_not_panic get none many cur : picked many (pick get none many cur) ≠ Panic.
Proof. by destruct (pick _ _ _ _). Qed.

Lemma choose_not_panic s first many cur : shaped many cur → choose s first many cur ≠ Panic.
Proof.
  intros H. destruct s; cbn [choose]; try done; try apply pick_not_panic.
  - by destruct (_ || _).
  - destruct many; [done|]. destruct H as [|[v ->]]; [done|]. by destruct v.
  - destruct many; [done|]. destruct H as [|[v ->]]; [done|]. by destruct v.
  - unfold function. destruct many; [done|]. by destruct H as [|[v ->]].
Qed.

Lemma selects_returns ss first many cur : shaped many cur → ∃ r c, selects ss first many cur = (Return r, c).
Proof.
  revert first many cur. induction ss as [|s ss IH]; intros first many cur H; cbn [selects].
  - destruct many; [eauto|]. destruct H as [|[v ->]]; [done|eauto].
  - destruct (choose s first many cur) as [many' cur'|r|] eqn:E; [|eauto|by apply choose_not_panic in E].
    destruct (IH false many' cur' (choose_shaped _ _ _ _ _ _ H E)) as (r & c & ->). eauto.
Qed.

Lemma Select_run ss doc : doc ≠ Null → Select ss doc =
  match run_steps ss true false [doc] (Budget.new doc) with
  | None => Some TooLarge
  | Some (Return r, _) => Some r
  | Some _ => None
  end.
Proof. by destruct doc. Qed.

(** C13: Every path ends on a document other than null, which is answered before any step: with the result of the abstract selection while its work fits the
    document, and as too large otherwise; the lazy weighing of the document does not show. *)
Theorem Select_exact ss doc :
  doc ≠ Null → ∃ r c, selects ss true false [doc] = (Return r, c) ∧ Select ss doc = Some (if fits doc c then r else TooLarge).
Proof.
  intros Hd. assert (Hs : shaped false [doc]) by (right; eauto). destruct (selects_returns ss true false [doc] Hs) as (r & c & E).
  exists r, c. split; [done|]. rewrite Select_run by done. pose proof (steps_spend ss true false [doc] Hs) as H. rewrite E in H. destruct H as [_ H].
  assert (W : within (Budget.new doc)).
  { split; [apply Budget.new_inv|]. apply Budget.fits_true. pose proof (Budget.size_pos doc). cbn. lia. }
  specialize (H _ W). change (Budget.doc (Budget.new doc)) with doc in H. change (Budget.spent (Budget.new doc) + c)%Z with c in H.
  destruct (fits doc c); [by destruct H as (b & -> & _)|by rewrite H].
Qed.

(** ** Parts of the document *)

Inductive part (v : value) : value → Prop :=
  | part_self : part v v
  | part_list e l : e ∈ l → part v e → part v (List l)
  | part_obj m o : m ∈ o → part v m.2 → part v (Obj o).

Lemma part_trans u v w : part u v → part v w → part u w.
Proof. intros H. induction 1 as [|e l He _ IH|m o Hm _ IH]; [done|by eapply part_list|by eapply part_obj]. Qed.

Lemma Get_part key o v : Get key o = Some v → part v (Obj o).
Proof.
  intros H. assert (Hm : ∃ k, (k, v) ∈ o).
  { induction o as [|[k w] o IH]; [done|]. cbn in H. destruct (eqb k key); [injection H as ->; exists k; by left|].
    destruct (IH H) as [k' ?]. exists k'. by right. }
  destruct Hm as [k Hm]. apply (part_obj v (k, v)); [done|constructor].
Qed.

Lemma element_part l i v : element l i = Some v → part v (List l).
Proof.
  unfold element. destruct (_ && _); [|done]. intros H%list_elem_of_lookup_2. by apply (part_list v v); [|constructor].
Qed.

Lemma under_part key v w : w ∈ under key v → part w v.
Proof.
  induction v as [|b|t|s|l IH|o IH] using value_rect'; cbn [under]; try by intros ?%elem_of_nil.
  - rewrite list_elem_of_In, in_concat. intros (x & (e & <- & He)%in_map_iff & Hx). apply list_elem_of_In in He, Hx.
    rewrite Forall_forall in IH. eapply part_list; [exact He|by apply IH].
  - rewrite elem_of_app. intros [H|H].
    + unfold own in H. destruct (Get key o) as [m|] eqn:E; [|by apply elem_of_nil in H]. apply list_elem_of_singleton in H as ->. by eapply Get_part.
    + apply list_elem_of_In, in_concat in H as (x & (e & <- & He)%in_map_iff & Hx). apply list_elem_of_In in He, Hx.
      rewrite Forall_forall in IH. eapply part_obj; [exact He|by apply IH].
Qed.

Lemma children_part v w : w ∈ children v → part w v.
Proof.
  destruct v as [| | | |l|o]; cbn; try by intros ?%elem_of_nil.
  - intros H. by apply (part_list w w); [|constructor].
  - intros (m & -> & Hm)%list_elem_of_fmap. by apply (part_obj m.2 m); [|constructor].
Qed.

Lemma slice_subset l lo hi : slice l lo hi ⊆ l.
Proof. unfold slice. destruct (_ <=? _)%Z; [apply list_subseteq_nil|]. intros x Hx. apply elem_of_take in Hx as (i & Hi & _). rewrite lookup_drop in Hi. by apply list_elem_of_lookup_2 in Hi. Qed.

Lemma elements_part s v w : w ∈ elements_at s v → part w v.
Proof.
  destruct v as [| | | |l|o], s; cbn; try by intros ?%elem_of_nil.
  - intros (i & _ & H)%list_elem_of_omap. by eapply element_part.
  - intros H%slice_subset. by apply (part_list w w); [|constructor].
Qed.

Lemma passing_part p v w : w ∈ passing p v → part w v.
Proof.
  unfold passing. rewrite list_elem_of_In, filter_In. intros [H _]. apply list_elem_of_In in H.
  destruct v as [| | | |l|o]; cbn in H; try by apply elem_of_nil in H.
  - by apply (part_list w w); [|constructor].
  - apply list_elem_of_singleton in H as ->. constructor.
Qed.

Lemma concat_parts (f : value → list value) cur doc :
  (∀ v w, w ∈ f v → part w v) → Forall (λ v, part v doc) cur → Forall (λ v, part v doc) (concat (map f cur)).
Proof.
  intros Hf H. rewrite Forall_forall in H. apply Forall_forall. intros w (x & (v & <- & Hv)%in_map_iff & Hx)%list_elem_of_In%in_concat.
  apply list_elem_of_In in Hv, Hx. eapply part_trans; [by apply Hf|by apply H].
Qed.

Lemma pick_parts get none many cur doc ws :
  (∀ v w, get v = Some w → part w v) → Forall (λ v, part v doc) cur → pick get none many cur = inr ws → Forall (λ v, part v doc) ws.
Proof.
  intros Hg H. revert ws. induction H as [|v cur Hv _ IH]; intros ws E; cbn in E; [by injection E as <-|].
  destruct (get v) as [w|] eqn:G.
  - destruct (pick get none many cur) as [|ws'] eqn:E'; [done|]. injection E as <-. constructor; [eapply part_trans; eauto|by apply IH].
  - destruct many; [by apply IH|done].
Qed.

Lemma choose_parts s first many cur doc many' cur' :
  Forall (λ v, part v doc) cur → choose s first many cur = Next many' cur' → Forall (λ v, part v doc) cur'.
Proof.
  intros H E. destruct s as [key|key| |p reads|i|js|lo hi| |name]; cbn [choose] in E; try discriminate E.
  - destruct (pick _ _ _ _) as [|ws] eqn:P; [done|]. injection E as <- <-. eapply pick_parts; [|exact H|exact P].
    intros v w. destruct v; try done. apply Get_part.
  - injection E as <- <-. by apply concat_parts; [apply under_part|].
  - injection E as <- <-. by apply concat_parts; [apply children_part|].
  - destruct (_ || _); [|done]. injection E as <- <-. by apply concat_parts; [apply passing_part|].
  - destruct (pick _ _ _ _) as [|ws] eqn:P; [done|]. injection E as <- <-. eapply pick_parts; [|exact H|exact P].
    intros v w. destruct v; try done. apply element_part.
  - destruct (if many then _ else _) as [[]|]; try done. injection E as <- <-. by apply concat_parts; [apply elements_part|].
  - destruct (if many then _ else _) as [[]|]; try done. injection E as <- <-. by apply concat_parts; [apply elements_part|].
  - by destruct (function _ _ _).
Qed.

(** The values of a result. *)
Definition values_of (r : result) : list value := match r with One v => [v] | Many vs => vs | _ => [] end.
Definition no_function (ss : list step) : Prop := Forall (λ s, is_function s = false) ss.

Lemma choose_returns s first many cur r : is_function s = false → choose s first many cur = Return r → values_of r = [].
Proof.
  intros Hs E. assert (Hp : ∀ get none, (∀ v, values_of (none v) = []) → picked many (pick get none many cur) = Return r → values_of r = []).
  { intros get none Hn. destruct (pick get none many cur) as [r'|] eqn:P; [|done]. intros [= <-]. clear -Hn P. induction cur as [|v cur IH]; [done|]. cbn in P.
    destruct (get v); [destruct (pick get none many cur); [injection P as ->; by apply IH|done]|]. destruct many; [by apply IH|]. injection P as <-. apply Hn. }
  destruct s; cbn [choose] in E; try discriminate E; try discriminate Hs.
  - eapply Hp; [|exact E]. intros v. unfold no_member. destruct first; [done|]. destruct v as [| | | | |[]]; done.
  - destruct (_ || _); [done|]. by injection E as <-.
  - eapply Hp; [|exact E]. intros v. by destruct v.
  - destruct (if many then _ else _) as [[]|]; try done. by injection E as <-.
  - destruct (if many then _ else _) as [[]|]; try done. by injection E as <-.
  - by injection E as <-.
Qed.

(** Without a function, the values are parts of the document, and a list of them has been
    charged whole. *)
Lemma selects_parts ss first many cur doc r c :
  shaped many cur → Forall (λ v, part v doc) cur → no_function ss → selects ss first many cur = (Return r, c) →
  Forall (λ v, part v doc) (values_of r) ∧ (∀ vs, r = Many vs → sum Budget.size vs ≤ c)%Z.
Proof.
  revert first many cur c. induction ss as [|s ss IH]; intros first many cur c Hs H Hn E; cbn [selects] in E.
  - destruct many; [injection E as <- <-; split; [done|by intros vs [= <-]]|].
    destruct Hs as [|[v ->]]; [done|]. injection E as <- <-. split; [done|done].
  - apply Forall_cons in Hn as [Hf Hn]. pose proof (step_spends s first many cur Hs) as [Hc _].
    destruct (choose s first many cur) as [many' cur'|r'|] eqn:C; [| |done].
    + destruct (selects ss false many' cur') as [f c'] eqn:E'. injection E as -> <-.
      destruct (IH false many' cur' c' (choose_shaped _ _ _ _ _ _ Hs C) (choose_parts _ _ _ _ _ _ _ H C) Hn E') as [H1 H2].
      split; [done|]. intros vs Hr. specialize (H2 vs Hr). lia.
    + injection E as -> <-. pose proof (choose_returns _ _ _ _ _ Hf C) as Hv. rewrite Hv. split; [constructor|].
      intros vs ->. cbn in Hv. subst vs. exact Hc.
Qed.

(** A path without a function selects parts of the document, and the size of a list of them is
    linear in that of the document. *)
Theorem selected_parts ss doc r :
  no_function ss → Select ss doc = Some r →
  Forall (λ v, part v doc) (values_of r) ∧ (∀ vs, r = Many vs → sum Budget.size vs ≤ 4 * Budget.size doc + 4096)%Z.
Proof.
  intros Hn. assert (Hnull : doc = Null ∨ doc ≠ Null) by (destruct doc; auto). destruct Hnull as [->|Hd].
  { destruct ss as [|[]]; cbn; intros [= <-]; split; try constructor; done. }
  destruct (Select_exact ss doc Hd) as (r' & c & E & ->). destruct (fits doc c) eqn:F; intros [= <-]; [|by split; [constructor|]].
  destruct (selects_parts ss true false [doc] doc r' c) as [H1 H2]; [right; eauto|repeat constructor|done|done|]. split; [done|].
  intros vs Hr. apply Budget.fits_true in F. specialize (H2 vs Hr). lia.
Qed.
(** ** Witnesses *)

Notation sample := (Obj [("a"%string, List [Number "1"; Str "x"]); ("b"%string, Null)]).

Lemma Select_exact_witness :
  ∃ r c, selects [Star; Star] true false [sample] = (Return r, c) ∧ Select [Star; Star] sample = Some (if fits sample c then r else TooLarge).
Proof. by apply (Select_exact [Star; Star] sample). Defined.

Lemma selected_parts_witness :
  Forall (λ v, part v sample) [Number "1"; Str "x"] ∧ (∀ vs, Many [Number "1"; Str "x"] = Many vs → sum Budget.size vs ≤ 4 * Budget.size sample + 4096)%Z.
Proof. apply (selected_parts [Key "a"; Star] sample (Many [Number "1"; Str "x"])); [by repeat constructor|by vm_compute]. Defined.
End Selection.
