(* ===== verification/PathKeys.v ===== *)
(** * Reading paths ([Compile] of [internal/jsonpath])

    The recursion of the readers ends before their fuel does: the tokens of a path are its
    whole text, each shorter text a filter is cut into is read in one turn less. Every key can
    be written in brackets, whatever runes it holds. *)
From S2P Require Import Prelude GoText Json Encoding Condition Value Budget JsonText JaywayText PathTokens Filter JsonPath Selection.
Import GoText JsonText JaywayText PathTokens JsonPath.

Module PathKeys.

Section read.
Context {table : UnicodeTable} {numbers : NumberTable} {engine : Filter.RegexpEngine}.

(** ** Tokens *)

Lemma some_shorter f t a b : some f t = Some (a, b) → suffix_of b t ∧ length b < length t.
Proof.
  unfold some. destruct (span f t) as [x y] eqn:E. destruct (is_nil x) eqn:N; [done|]. intros [= <- <-]. apply span_app in E as ->.
  split; [by exists x|]. rewrite length_app. destruct x; [done|cbn; lia].
Qed.

Lemma enclosed_shorter o e c t rest : o ≠ [] → enclosed o e c t = Some rest → suffix_of rest t ∧ length rest < length t.
Proof.
  unfold enclosed. intros Ho. destruct (lit o t) as [r|] eqn:E; [|done]. cbn. intros H.
  pose proof (lit_suffix _ _ _ E). pose proof (lit_shorter _ _ _ E Ho). pose proof (lit_suffix _ _ _ H) as Hs. pose proof (span_suffix (none_of e) r) as Hr.
  pose proof (suffix_trans _ _ _ Hs Hr) as Hx. split; [by eapply suffix_trans|]. apply suffix_length in Hx. lia.
Qed.

Lemma items_suffix fuel nested t rest : items fuel nested t = Some rest → suffix_of rest t.
Proof.
  revert nested t rest. induction fuel as [|fuel IH]; intros nested t rest; [done|]. destruct t as [|r t]; [intros [= <-]; apply suffix_refl|]. cbn [items].
  destruct (none_of _ r); [intros H%IH; eapply suffix_trans; [exact H|by exists [r]]|].
  destruct (eqc "(" r).
  { destruct (parens (r :: t)) as [x|] eqn:E; [|intros [= <-]; apply suffix_refl]. intros H%IH.
    eapply suffix_trans; [exact H|]. apply enclosed_shorter in E as [? _]; done. }
  destruct (eqc "[" r); [|intros [= <-]; apply suffix_refl].
  destruct (brackets (r :: t)) as [x|] eqn:E.
  { intros H%IH. eapply suffix_trans; [exact H|]. apply enclosed_shorter in E as [? _]; done. }
  destruct nested; [intros [= <-]; apply suffix_refl|].
  destruct (lit (bytes_of "[?(") (r :: t)) as [a|] eqn:E1; cbn [mbind option_bind]; [|intros [= <-]; apply suffix_refl].
  destruct (items fuel true a) as [b|] eqn:E2; cbn [mbind option_bind]; [|intros [= <-]; apply suffix_refl].
  destruct (lit (bytes_of ")]") b) as [c|] eqn:E3; [|intros [= <-]; apply suffix_refl]. intros H%IH.
  eapply suffix_trans; [exact H|]. eapply suffix_trans; [by eapply lit_suffix|]. eapply suffix_trans; [by eapply IH|by eapply lit_suffix].
Qed.

Lemma token_shorter t rest : token t = Some rest → suffix_of rest t ∧ (t ≠ [] → length rest < length t).
Proof.
  assert (Hopt : suffix_of (opt ["."%char] t) t) by apply opt_suffix.
  unfold token. cbn [first_some]. destruct (function_token t) as [x|] eqn:E1.
  { intros [= <-]. unfold function_token in E1. destruct (existsb _ _); [injection E1 as <-|done]. split; [exists t; by rewrite app_nil_r|]. destruct t; [done|cbn; lia]. }
  destruct (deep_token t) as [x|] eqn:E2.
  { intros [= <-]. unfold deep_token in E2. destruct (lit (bytes_of "..") t) as [r|] eqn:L; [|done]. cbn in E2.
    destruct (some key_rune r) as [[a b]|] eqn:S; [|done]. injection E2 as <-. apply some_shorter in S as [S1 S2].
    pose proof (lit_suffix _ _ _ L) as L1. split; [by eapply suffix_trans|]. apply suffix_length in L1. lia. }
  destruct (key_token t) as [x|] eqn:E3.
  { intros [= <-]. unfold key_token in E3. destruct (lit ["."%char] t) as [r|] eqn:L; [|done]. cbn in E3. destruct r as [|c r]; [done|].
    destruct (key_rune c); [|done]. injection E3 as <-. pose proof (lit_suffix _ _ _ L) as L1. pose proof (span_suffix star_key_rune r) as S.
    split; [eapply suffix_trans; [exact S|]; eapply suffix_trans; [by exists [c]|done]|]. apply suffix_length in S, L1. cbn in L1. lia. }
  destruct (filter_token t) as [x|] eqn:E4.
  { intros [= <-]. unfold filter_token in E4. destruct (lit (bytes_of "[?(") _) as [a|] eqn:L; [|done]. cbn [mbind option_bind] in E4.
    destruct (items _ _ a) as [b|] eqn:I; [|done]. cbn [mbind option_bind] in E4. pose proof (lit_shorter _ _ _ L ltac:(done)) as L1.
    apply items_suffix in I. apply lit_suffix in E4, L. assert (Hb : suffix_of x a) by by eapply suffix_trans.
    split; [eapply suffix_trans; [exact Hb|by eapply suffix_trans]|]. apply suffix_length in Hb, Hopt. lia. }
  destruct (bracket_token t) as [x|] eqn:E5; [|done]. intros [= <-]. unfold bracket_token in E5.
  destruct (lit ["["%char] _) as [a|] eqn:L; [|done]. cbn [mbind option_bind] in E5. pose proof (lit_shorter _ _ _ L ltac:(done)) as L1.
  apply lit_suffix in E5, L. pose proof (span_suffix (none_of ["]"%char]) a) as S. assert (Hb : suffix_of x a) by by eapply suffix_trans.
  split; [eapply suffix_trans; [exact Hb|by eapply suffix_trans]|]. apply suffix_length in Hb, Hopt. lia.
Qed.

(** The tokens hold the whole text, and are found in as many turns as the text has runes. *)
Lemma tokens_whole fuel t ts : tokens fuel t = Some ts → concat ts = t.
Proof.
  revert t ts. induction fuel as [|fuel IH]; intros t ts; destruct t as [|r t]; try (by intros [= <-]). cbn [tokens].
  destruct (token (r :: t)) as [rest|] eqn:E; [|done]. cbn [mbind option_bind]. destruct (tokens fuel rest) as [ts'|] eqn:T; [|done]. intros [= <-].
  cbn [concat]. rewrite (IH _ _ T). apply token_shorter in E as [E _]. symmetry. by apply before_app.
Qed.

Lemma tokens_fuel n m t : length t ≤ n → length t ≤ m → tokens n t = tokens m t.
Proof.
  revert m t. induction n as [|n IH]; intros [|m] [|r t] Hn Hm; cbn in Hn, Hm; try done; try lia. cbn [tokens].
  destruct (token (r :: t)) as [rest|] eqn:E; [|done]. cbn [mbind option_bind]. apply token_shorter in E as [_ E]. specialize (E ltac:(done)). cbn in E.
  by rewrite (IH m rest) by lia.
Qed.

(** ** Filters *)

Lemma mapM_same {A B} (f g : A → option B) l : Forall (λ x, f x = g x) l → mapM f l = mapM g l.
Proof. intros H. induction H as [|x l Hx _ IH]; [done|]. cbn. by rewrite Hx, IH. Qed.

(** A split leaves out two runes for each part after the first. *)
Lemma split2_sum c t : ∃ p ps, Filter.split2 c t = p :: ps ∧ length t = length (concat (p :: ps)) + 2 * length ps.
Proof.
  induction t as [t IH] using (induction_ltof1 _ (@length _)); unfold ltof in IH. destruct t as [|r [|s t]]; [by exists [], []|by exists [r], []|].
  cbn [Filter.split2]. destruct (eqc c r && eqc c s).
  - destruct (IH t ltac:(cbn; lia)) as (p & ps & E & Hl). rewrite E. exists [], (p :: ps). split; [done|]. cbn [concat length app] in *. lia.
  - destruct (IH (s :: t) ltac:(cbn; lia)) as (p & ps & E & Hl). cbn [Filter.split2] in E. rewrite E. exists (r :: p), ps. split; [done|]. cbn in *. lia.
Qed.

Lemma split2_shorter c t p q ps : Filter.split2 c t = p :: q :: ps → Forall (λ x, length x < length t) (p :: q :: ps).
Proof.
  intros E. destruct (split2_sum c t) as (p' & ps' & E' & Hl). rewrite E in E'. injection E' as <- <-. cbn [length] in Hl.
  apply Forall_forall. intros x Hx. assert (length x ≤ length (concat (p :: q :: ps))); [|cbn [length] in *; lia].
  clear -Hx. induction Hx as [x l|x y l _ IH]; cbn; rewrite length_app; lia.
Qed.

Lemma trim_length t : length (Filter.trim_spaces t) ≤ length t.
Proof.
  unfold Filter.trim_spaces, drop_while_end. rewrite length_reverse. unfold drop_while.
  pose proof (suffix_length _ _ (span_suffix (eqc " ") (reverse (Filter.spaces t)))) as H. rewrite length_reverse in H.
  pose proof (suffix_length _ _ (span_suffix (eqc " ") t)) as H'. unfold Filter.spaces in *. lia.
Qed.

Lemma nested_shorter t key inner : Filter.nested_expr t = Some (key, inner) → length inner < length t.
Proof.
  unfold Filter.nested_expr, Filter.at_member. destruct (lit (bytes_of "@.") t) as [a|] eqn:L; [|done]. cbn [mbind option_bind].
  pose proof (lit_shorter _ _ _ L ltac:(done)). destruct (some _ a) as [[k b]|] eqn:S; [|done]. cbn [mbind option_bind]. apply some_shorter in S as [S _].
  destruct (lit (bytes_of "[?(") b) as [d|] eqn:L2; [|done]. cbn [mbind option_bind]. apply lit_suffix, suffix_length in L2. apply suffix_length in S.
  unfold cut_end. destruct (lit _ (drop _ d)) as [e|]; [|done]. cbn [mbind option_bind]. destruct (_ && _); [|done]. unfold Filter.no_newline.
  cbn [mbind option_bind]. destruct (existsb _ _); [done|]. cbn. intros [= <- <-]. rewrite length_take. lia.
Qed.

Lemma single_same f g t :
  (∀ inner, length inner < length t → f inner = g inner) → Filter.single f t = Filter.single g t.
Proof.
  intros H. unfold Filter.single. repeat (case_match; [done|]). destruct (Filter.nested_expr t) as [[key inner]|] eqn:E; [|done].
  by rewrite (H inner) by (by eapply nested_shorter).
Qed.

(** Every turn of [parseFilter] reads shorter texts. *)
Lemma parseFilter_fuel n m t : length t < n → length t < m → Filter.parseFilter n t = Filter.parseFilter m t.
Proof.
  revert m t. induction n as [|n IH]; intros [|m] t Hn Hm; try lia. cbn [Filter.parseFilter]. pose proof (trim_length t) as Ht.
  set (e := Filter.trim_spaces t) in *.
  assert (Hs : Filter.single (Filter.parseFilter n) e = Filter.single (Filter.parseFilter m) e) by (apply single_same; intros inner Hi; apply IH; lia).
  assert (Hj : ∀ c p q ps, Filter.split2 c e = p :: q :: ps → mapM (Filter.parseFilter n) (p :: q :: ps) = mapM (Filter.parseFilter m) (p :: q :: ps)).
  { intros c p q ps E. apply mapM_same. eapply Forall_impl; [by eapply split2_shorter|]. intros x Hx. cbn in Hx. apply IH; lia. }
  destruct (Filter.split2 "|" e) as [|p [|q ps]] eqn:E1; [| |by rewrite (Hj _ _ _ _ E1)].
  all: destruct (Filter.split2 "&" e) as [|p' [|q' ps']] eqn:E2; [done|done|by rewrite (Hj _ _ _ _ E2)].
Qed.

(** ** Every key can be written *)

(** A path of one key in brackets. *)
Definition key_path (rs : list rune) : string := text_of ([46; 91; 39]%N ++ escape_key rs ++ [39; 93]%N).

Definition as_txt (rs : list rune) : txt := (λ r, (r, encode r)) <$> rs.

Lemma text_as_txt rs : text (as_txt rs) = text_of rs.
Proof. unfold text, as_txt, text_of. by rewrite <-list_fmap_compose. Qed.

Lemma escaped_free c rs : c ∈ [39; 93]%N → Forall (λ r, r ≠ c) (escape_key rs).
Proof.
  intros Hc. induction rs as [|r rs IH]; [constructor|]. change (escape_key (r :: rs)) with (escape_rune r ++ escape_key rs). apply Forall_app_2; [|done].
  destruct (escape_rune_cases r) as [(x & -> & Hx & _)|[-> Hn]].
  - repeat (apply elem_of_cons in Hx as [->|Hx]; [repeat (apply elem_of_cons in Hc as [->|Hc]; [by repeat constructor|]); by apply elem_of_nil in Hc|]). by apply elem_of_nil in Hx.
  - repeat constructor. intros ->. apply Hn. repeat (apply elem_of_cons in Hc as [->|Hc]; [set_solver|]). by apply elem_of_nil in Hc.
Qed.

Lemma span_free (c : ascii) rs rest :
  Forall (λ r, r ≠ N_of_ascii c) rs → span (none_of [c]) (as_txt rs ++ (N_of_ascii c, [c]) :: rest) = (as_txt rs, (N_of_ascii c, [c]) :: rest).
Proof.
  intros H. apply span_spec.
  - apply Forall_fmap. eapply Forall_impl; [exact H|]. intros r Hr. cbn. unfold none_of, one_of. cbn. apply negb_true_iff.
    apply not_true_iff_false. intros E%member_true. by apply list_elem_of_singleton in E.
  - intros x [= <-]. unfold none_of, one_of. cbn. apply negb_false_iff, member_true. by left.
Qed.

(** The characters around the key. *)
Definition opening : txt := [(46%N, ["."%char]); (91%N, ["["%char])].

Lemma token_bracket X :
  token (opening ++ (39%N, ["'"%char]) :: X) = lit ["]"%char] (span (none_of ["]"%char]) ((39%N, ["'"%char]) :: X)).2.
Proof.
  unfold token. cbn [first_some]. set (t := opening ++ _).
  assert (E1 : function_token t = None) by by vm_compute. assert (E2 : deep_token t = None) by by vm_compute.
  assert (E3 : key_token t = None) by by vm_compute. assert (E4 : filter_token t = None) by by vm_compute.
  rewrite E1, E2, E3, E4. assert (E5 : bracket_token t = lit ["]"%char] (span (none_of ["]"%char]) ((39%N, ["'"%char]) :: X)).2) by reflexivity.
  rewrite E5. by destruct (lit _ _).
Qed.

Lemma key_path_txt rs :
  Forall valid_code rs →
  to_txt (key_path rs) = opening ++ (39%N, ["'"%char]) :: as_txt (escape_key rs) ++ [(39%N, ["'"%char]); (93%N, ["]"%char])].
Proof.
  intros H. unfold to_txt, key_path, text_of. rewrite bytes_of_string_of, runes_encoded; [by rewrite !fmap_app|].
  repeat apply Forall_app_2; try (by apply escape_valid); repeat constructor; unfold valid_code; lia.
Qed.

(** C26: Every key of valid runes has a path: in brackets, with its quotes, backslashes and brackets
    escaped, it compiles to the one step that reads the member of that key. *)
Theorem key_path_read rs : Forall valid_code rs → Compile (key_path rs) = Some [Key (text_of rs)].
Proof.
  intros H. unfold Compile. rewrite key_path_txt by done. set (X := as_txt (escape_key rs) ++ _). set (t := opening ++ _).
  assert (Ht : token t = Some []).
  { unfold t. rewrite token_bracket. unfold X. change ((39%N, ["'"%char]) :: ?x ++ ?y) with (as_txt [39%N] ++ x ++ y).
    rewrite (assoc_L (++)). unfold as_txt. rewrite <-fmap_app. change [(39%N, ["'"%char]); ?y] with (as_txt [39%N] ++ [y]).
    unfold as_txt. rewrite (assoc_L (++)), <-fmap_app. fold (as_txt (([39%N] ++ escape_key rs) ++ [39%N])).
    rewrite (span_free "]"); [done|]. apply Forall_app_2; [apply Forall_app_2; [by repeat constructor|apply escaped_free; set_solver]|by repeat constructor]. }
  assert (Hts : tokens (length t) t = Some [t]).
  { change (length t) with (S (length (tail t))). destruct t as [|r t'] eqn:E; [done|]. cbn [tokens]. rewrite Ht. cbn [mbind option_bind].
    assert (E0 : tokens (length (tail (r :: t'))) [] = Some []) by by destruct (length _). rewrite E0. unfold before. cbn [length mbind option_bind]. by rewrite Nat.sub_0_r, take_ge. }
  rewrite Hts. cbn [mbind option_bind steps_of]. unfold parseStep. change (lit (bytes_of ".[") t) with (Some ((39%N, ["'"%char]) :: X)). cbn iota.
  assert (Hk : bracket_key (drop 1 t) = Some (as_txt (escape_key rs))).
  { unfold bracket_key. change (lit ["["%char] (drop 1 t)) with (Some ((39%N, ["'"%char]) :: X)). cbn [mbind option_bind]. unfold Filter.quoted.
    change (lit ["'"%char] ((39%N, ["'"%char]) :: X)) with (Some X). cbn [mbind option_bind]. unfold X.
    rewrite (span_free "'") by (apply escaped_free; set_solver). done. }
  rewrite Hk, text_as_txt, quotedText_escaped by done. done.
Qed.

(** The compiler the policy tree and the condition parser ask. *)
#[export] Instance path_compiler : Condition.PathCompiler := λ path, bool_decide (is_Some (Compile path)).
End read.

(** ** The cases of the tests *)

(** Letters past ASCII but for the no-break space, the Arabic-Indic digits, and the digits
    outside the Basic Multilingual Plane. *)
#[local] Instance some_runes : UnicodeTable :=
  {| print_table _ := true;
     letter_table r := ((161 <=? r) && (r <? 1632))%N;
     digit_table r := ((1632 <=? r) && (r <=? 1641) || (120782 <=? r) && (r <=? 120831))%N |}.
#[local] Instance some_numbers : NumberTable := digit_table.

(** An engine for patterns of plain characters. *)
#[local] Instance plain_engine : Filter.RegexpEngine := λ p, Some (λ s, eqb (string_of (bytes_of "\A(?:" ++ bytes_of s ++ bytes_of ")\z")) p).

(** The bytes of a text in which a caret stands for a double quote. *)
Definition json (s : string) : bytes := (λ c, if eqb c "^"%char then "034"%char else c) <$> bytes_of s.

Notation document := "{^a^:{^b^:[1,2,3],^c^:null,^e^:{}},^list^:[{^k^:^v^,^n^:5},{^k^:^w^,^n^:7.5,^t^:[1,^x^]},{^n^:^5^,^f^:true},{^k^:^V^,^n^:1e400}],^num^:5,^o^:{^p^:{^q^:1},^r^:2}}"%string.

(** The result of a path over the document; [None] for a refused path. *)
Definition run (path : string) : option (option result) := ss ← Compile path; Select ss <$> Value.Decode (json document).

Definition many (want : string) : option (option result) := match Value.Decode (json want) with Some (Value.List l) => Some (Some (Many l)) | _ => None end.
Definition one (want : string) : option (option result) := Some (One <$> Value.Decode (json want)).
Definition kind (r : result) : option (option result) := Some (Some r).

Example selections :
  run <$> [".a.b"; ".x.y"; ".a.c.d"; ".a.e.d"; "['a']"; ".a['b']"; ".a.b[-1]"; ".a.b[3]"; ".a[0]"; ".a.b[٢]"; ".a.b[0, 5]"; ".a.b[-2:-1]"; ".a[0:1]";
           ".o[*]"; "..k"; "..q"; ".list[*].t[1]"; ".list[?(@.k != 'v')].n"; ".list[?(@.n == '5.0')].n"; ".list[?(@.n == 5)].n"; ".list[?(@.n > 6)].n";
           ".list[?(@.k < 'w')].k"; ".list[?(@.n in ['5', '7.5'])].k"; ".list[?(@.t subsetof ['1', 'x'])].k"; ".list[?(@.k == 'w' || @.k == 'v' && @.n == 7.5)].k";
           ".list[?(@.t[?(@ == 'x')])].k"; ".list[?(@.k =~ /v/)].n"; ".num[?(@ == 5)]"; ".a.b.length()"; ".a.b.avg()"; ".o.keys()"; ".list.sum()"]%string
  = [one "[1,2,3]"; kind Missing; kind NullParent; kind NullParent; kind Bracket; one "[1,2,3]"; one "3"; kind IndexOutOfBounds; kind Missing; one "3"; many "[1]"; many "[2]"; kind Missing;
     many "[{^q^:1},2]"; many "[^v^,^w^,^V^]"; many "[1]"; many "[^x^]"; many "[7.5,^5^,1e400]"; many "[5]"; many "[5,^5^]"; many "[7.5,1e400]";
     many "[^v^,^V^]"; many "[^v^,^w^]"; many "[^w^]"; many "[^w^]";
     many "[^w^]"; many "[5]"; kind Missing; one "3"; one "2.0"; one "^[p, r]^"; kind Missing]%string.
Proof. vm_compute. reflexivity. Qed.

Example refusals :
  Compile <$> ["a.b"; ".a.*"; "..*"; "..[*]"; ".a[abc]"; ".a['b','c']"; ".a[ 0 ]"; ".a.length().b"; ".a.size()"; ".a[0:2:1]"; ".a[:]"; ".a[?(@.k)"; ".a[?(]";
               ".a[?(@.k ~= 'v')]"; ".a[?(@.k == 'v' ||)]"; ".a[?(@.k == 1e5)]"; ".a[?(!@.k)]"; ".a[?(@.b[?(@.c == 1 && @.d == 2)])]"; ".a[?(@.k == 'a||b')]";
               ".a[?(@.k =~ /(?=x)/)]"; "..k.min()"; ".a[2147483648]"; ".x['k\']"; ".x['\uD800']"; ".a[𝟙]"]%string
  = replicate 25 None.
Proof. vm_compute. reflexivity. Qed.

(** Objects inside each other under one name: the deep scan selects them all, which counts the
    innermost once for each. *)
Fixpoint nested (n : nat) : Value.value := match n with 0 => Value.Null | S n => Value.Obj [("key"%string, nested n)] end.

Example too_large : (λ n, match Select [Deep "key"] (nested n) with Some TooLarge => true | _ => false end) <$> [20; 50] = [false; true].
Proof. vm_compute. reflexivity. Qed.

Lemma key_path_read_witness : Compile (key_path [97; 39; 93; 233; 128512]%N) = Some [Key (text_of [97; 39; 93; 233; 128512]%N)].
Proof. apply key_path_read. repeat constructor; unfold valid_code; lia. Defined.
End PathKeys.
