(* ===== verification/TenantExport.v ===== *)
(** * Reading an access-control export ([internal/policyir/export.go])

    [FromRegular] turns the two documents of an export into one tree per tenant. The
    documents are decoded by exact keys ([decodeExact]): the filter that drops every other
    key works on the JSON value here, where the code works on its text and reads the text it
    writes again; the text of a value is its compact form either way. An element that
    cannot be read fails its tenant, and its reason is an inductive value. *)
From S2P Require Import Prelude GoText Json Encoding Lexemes Condition PolicyTree ConditionParser.
Import GoText Encoding Lexemes Condition PolicyTree ConditionParser.

Module TenantExport.

Notation json := Json.json.

(** ** Exact keys *)

(** The struct types a document is decoded into. *)
Inductive struct_name := NSetsDoc | NPIPsDoc | NHead | NSet | NIterate | NPolicy | NRule | NCustom | NPIP.

(** The types the filter tells apart, pointers left out: any type but a struct and a slice
    other than [json.RawMessage] is a leaf. *)
Inductive gotype := TLeaf | TStruct (n : struct_name) | TSlice (t : gotype).

Definition leaves (names : list string) : list (string * gotype) := (λ k, (k, TLeaf)) <$> names.

(** The fields each struct declares. *)
Definition declared (n : struct_name) : list (string * gotype) :=
  match n with
  | NSetsDoc => [("policySets"%string, TSlice TLeaf)]
  | NPIPsDoc => [("pips"%string, TSlice TLeaf)]
  | NHead => leaves ["tenantId"; "policySetId"; "status"]%string
  | NSet =>
      leaves ["tenantId"; "policySetId"; "name"; "type"; "domain"; "component"; "status"; "target";
              "combiningAlgorithm"]%string
      ++ [("iterate", TStruct NIterate); ("policies", TSlice (TStruct NPolicy));
          ("policySets", TSlice (TStruct NSet)); ("externalId", TLeaf)]%string
  | NIterate => leaves ["foreach"; "combiningAlgorithm"]%string
  | NPolicy =>
      leaves ["tenantId"; "policyId"; "name"; "target"; "combiningAlgorithm"]%string
      ++ [("rules"%string, TSlice (TStruct NRule))]
  | NRule =>
      leaves ["tenantId"; "ruleId"; "name"; "ruleType"; "target"; "condition"; "effect"; "rsqlPredicate";
              "sqlPredicate"; "mongodbPredicate"; "predicate"]%string
      ++ [("customPredicate"%string, TStruct NCustom)]
  | NCustom => leaves ["predicate"; "params"]%string
  | NPIP =>
      leaves ["tenantId"; "name"; "pipType"; "type"; "domain"; "url"; "httpMethod"; "header"; "claim";
              "beanName"; "jsonPath"; "resourceType"; "defaultValue"; "headers"; "requestAttributes";
              "productMapping"; "customMapping"; "cacheable"; "cachePeriod"; "query"; "body";
              "timeoutSeconds"; "response"]%string
  end.

(** [fieldsOf]: sorted by name. *)
Definition by_name (a b : string * gotype) : Prop := String.le a.1 b.1.
#[export] Instance by_name_dec : RelDecision by_name.
Proof. unfold by_name. intros a b. apply _. Defined.

Definition fieldsOf (n : struct_name) : list (string * gotype) := merge_sort by_name (declared n).

(** [ignoredKeysOf]. *)
Definition ignoredKeysOf (n : struct_name) : list string :=
  match n with
  | NSet => ["description"; "deprecated"; "uiTarget"; "previousStatus"]
  | NPolicy => ["description"; "deprecated"; "uiTarget"]
  | NRule => ["description"; "deprecated"; "uiTarget"; "uiCondition"]
  | NPIP => ["description"; "deprecated"]
  | _ => []
  end%string.

(** [exactFilter.key]: the decoded key; one without escapes is taken as it is. *)
Definition key_name (body : bytes) : string :=
  if member Json.backslash body then Unquote body else string_of body.

(** The value of the last member of a name. *)
Fixpoint last_member {A} (name : string) (ms : list (string * A)) : option A :=
  match ms with
  | [] => None
  | (k, v) :: ms =>
      match last_member name ms with
      | Some v => Some v
      | None => if eqb k name then Some v else None
      end
  end.

Definition object (ms : list (bytes * json)) : json :=
  Json.JObj ("{"%char :: Json.compact_members ms ++ ["}"%char]) ms.
Definition array (items : list json) : json :=
  Json.JArr ("["%char :: Json.compact_items items ++ ["]"%char]) items.

(** [exactFilter.value], with [exactFilter.object] and [exactFilter.array]: of an object that
    fills a struct, the last member of each field, in the order of the fields. *)
Fixpoint filter_value (v : json) (t : gotype) : json :=
  match v, t with
  | Json.JObj _ ms, TStruct n =>
      let parts := map (λ m, match m with (k, w) => (key_name k, filter_value w) end) ms in
      object (omap (λ f, write ← last_member f.1 parts; Some (bytes_of f.1, write f.2)) (fieldsOf n))
  | Json.JArr _ items, TSlice t => array (map (λ w, filter_value w t) items)
  | _, _ => v
  end.

(** [keyPath] and its text, outermost step first in the text. *)
Inductive path_step := Key (key : string) | Elem (index : nat).
Definition keyPath := list path_step.

Fixpoint path_text (steps : keyPath) : string :=
  match steps with
  | [] => EmptyString
  | Elem i :: at_ => path_text at_ +:+ "[" +:+ pretty i +:+ "]"
  | Key k :: [] => k
  | Key k :: at_ => path_text at_ +:+ "." +:+ k
  end.

(** The keys the filter drops, in the order of the document, which is the order of their
    offsets the code sorts them by. The values of a member that is not the last of its key
    are not visited. *)
Fixpoint unknown_keys (v : json) (t : gotype) (at_ : keyPath) : list string :=
  match v, t with
  | Json.JObj _ ms, TStruct n =>
      (fix members (ms : list (bytes * json)) : list string :=
         match ms with
         | [] => []
         | (k, w) :: ms' =>
             let name := key_name k in
             match last_member name (fieldsOf n) with
             | Some t =>
                 if member name ((λ m, key_name m.1) <$> ms') then []
                 else unknown_keys w t (Key name :: at_)
             | None => if member name (ignoredKeysOf n) then [] else [path_text (Key name :: at_)]
             end ++ members ms'
         end) ms
  | Json.JArr _ items, TSlice t =>
      (fix elements (i : nat) (items : list json) : list string :=
         match items with
         | [] => []
         | w :: items' => unknown_keys w t (Elem i :: at_) ++ elements (S i) items'
         end) 0 items
  | _, _ => []
  end.

(** ** Unmarshalling *)

Inductive decode_error := NotJSON | TypeMismatch.

(** The member a field is read from: keys are exact and distinct after the filter. *)
Definition field (ms : list (bytes * json)) (name : string) : option json :=
  snd <$> List.find (λ m, eqb m.1 (bytes_of name)) ms.

(** The members of a value decoded into a struct; null leaves the struct as it is. *)
Definition struct_of (v : json) : result decode_error (list (bytes * json)) :=
  match v with
  | Json.JNull => Ok []
  | Json.JObj _ ms => Ok ms
  | _ => Err TypeMismatch
  end.

(** Fields of type [string], [*string], [map[string]json.RawMessage], a pointer, and a slice;
    an absent member leaves the zero value, and null sets it. *)
Definition str (v : option json) : result decode_error string :=
  match v with
  | None | Some Json.JNull => Ok EmptyString
  | Some (Json.JStr body) => Ok (Unquote body)
  | Some _ => Err TypeMismatch
  end.

Definition opt_str (v : option json) : result decode_error (option string) :=
  match v with
  | None | Some Json.JNull => Ok None
  | Some (Json.JStr body) => Ok (Some (Unquote body))
  | Some _ => Err TypeMismatch
  end.

Definition raw_map (v : option json) : result decode_error (gmap string json) :=
  match v with
  | None | Some Json.JNull => Ok ∅
  | Some v => match members v with Some m => Ok m | None => Err TypeMismatch end
  end.

Definition pointer {A} (decode : json → result decode_error A) (v : option json) : result decode_error (option A) :=
  match v with
  | None | Some Json.JNull => Ok None
  | Some v => Some <$> decode v
  end.

Definition slice {A} (decode : json → result decode_error A) (v : option json) : result decode_error (list A) :=
  match v with
  | None | Some Json.JNull => Ok []
  | Some (Json.JArr _ items) => mapM decode items
  | Some _ => Err TypeMismatch
  end.

(** ** The elements of an export *)

Record exportCustom := MkExportCustom { XC_Predicate : string; XC_Params : gmap string json }.

Record exportRule := MkExportRule {
  XR_TenantID : option string;
  XR_RuleID : string;
  XR_Name : string;
  XR_RuleType : string;
  XR_Target : option string;
  XR_Condition : option string;
  XR_Effect : string;
  XR_RSQLPredicate : string;
  XR_SQLPredicate : string;
  XR_MongoDBPredicate : string;
  XR_Predicate : string;
  XR_CustomPredicate : option exportCustom;
}.

Record exportPolicy := MkExportPolicy {
  XP_TenantID : option string;
  XP_PolicyID : string;
  XP_Name : string;
  XP_Target : option string;
  XP_CombiningAlgorithm : string;
  XP_Rules : list exportRule;
}.

Record exportIterate := MkExportIterate { XI_Foreach : string; XI_CombiningAlgorithm : string }.

Inductive exportSet := MkExportSet {
  XS_TenantID : option string;
  XS_PolicySetID : string;
  XS_Name : string;
  XS_Type : string;
  XS_Domain : string;
  XS_Component : option string;
  XS_Status : string;
  XS_Target : option string;
  XS_CombiningAlgorithm : string;
  XS_Iterate : option exportIterate;
  XS_Policies : list exportPolicy;
  XS_PolicySets : list exportSet;
  XS_ExternalID : string;
}.

Definition decode_custom (v : json) : result decode_error exportCustom :=
  ms ← struct_of v;
  p ← str (field ms "predicate");
  params ← raw_map (field ms "params");
  Ok (MkExportCustom p params).

Definition decode_rule (v : json) : result decode_error exportRule :=
  ms ← struct_of v;
  tenant ← opt_str (field ms "tenantId");
  id ← str (field ms "ruleId");
  name ← str (field ms "name");
  type ← str (field ms "ruleType");
  target ← opt_str (field ms "target");
  cond ← opt_str (field ms "condition");
  effect ← str (field ms "effect");
  rsql ← str (field ms "rsqlPredicate");
  sql ← str (field ms "sqlPredicate");
  mongodb ← str (field ms "mongodbPredicate");
  pred ← str (field ms "predicate");
  custom ← pointer decode_custom (field ms "customPredicate");
  Ok (MkExportRule tenant id name type target cond effect rsql sql mongodb pred custom).

Definition decode_policy (v : json) : result decode_error exportPolicy :=
  ms ← struct_of v;
  tenant ← opt_str (field ms "tenantId");
  id ← str (field ms "policyId");
  name ← str (field ms "name");
  target ← opt_str (field ms "target");
  alg ← str (field ms "combiningAlgorithm");
  rules ← slice decode_rule (field ms "rules");
  Ok (MkExportPolicy tenant id name target alg rules).

Definition decode_iterate (v : json) : result decode_error exportIterate :=
  ms ← struct_of v;
  foreach ← str (field ms "foreach");
  alg ← str (field ms "combiningAlgorithm");
  Ok (MkExportIterate foreach alg).

Fixpoint decode_set (v : json) : result decode_error exportSet :=
  ms ← struct_of v;
  tenant ← opt_str (field ms "tenantId");
  id ← str (field ms "policySetId");
  name ← str (field ms "name");
  type ← str (field ms "type");
  domain ← str (field ms "domain");
  component ← opt_str (field ms "component");
  status ← str (field ms "status");
  target ← opt_str (field ms "target");
  alg ← str (field ms "combiningAlgorithm");
  it ← pointer decode_iterate (field ms "iterate");
  policies ← slice decode_policy (field ms "policies");
  sets ← match v with
         | Json.JObj _ ms =>
             (* [slice decode_set (field ms "policySets")] *)
             (fix nested (ms : list (bytes * json)) : result decode_error (list exportSet) :=
                match ms with
                | [] => Ok []
                | (k, w) :: ms' =>
                    if eqb k (bytes_of "policySets") then
                      match w with
                      | Json.JNull => Ok []
                      | Json.JArr _ items => mapM decode_set items
                      | _ => Err TypeMismatch
                      end
                    else nested ms'
                end) ms
         | _ => Ok []
         end;
  external ← str (field ms "externalId");
  Ok (MkExportSet tenant id name type domain component status target alg it policies sets external).

Record exportPIP := MkExportPIP {
  XQ_TenantID : option string;
  XQ_Name : option string;
  XQ_PipType : string;
  XQ_Type : string;
  XQ_Domain : string;
  XQ_URL : string;
  XQ_HTTPMethod : string;
  XQ_Header : string;
  XQ_Claim : string;
  XQ_BeanName : string;
  XQ_JSONPath : string;
  XQ_ResourceType : string;
  XQ_DefaultValue : option json;
  XQ_Headers : option json;
  XQ_RequestAttributes : gmap string json;
  XQ_ProductMapping : option json;
  XQ_CustomMapping : option json;
  XQ_Cacheable : option json;
  XQ_CachePeriod : option json;
  XQ_Query : option json;
  XQ_Body : option json;
  XQ_TimeoutSeconds : option json;
  XQ_Response : option json;
}.

Definition decode_pip (v : json) : result decode_error exportPIP :=
  ms ← struct_of v;
  tenant ← opt_str (field ms "tenantId");
  name ← opt_str (field ms "name");
  pipType ← str (field ms "pipType");
  type ← str (field ms "type");
  domain ← str (field ms "domain");
  url ← str (field ms "url");
  method ← str (field ms "httpMethod");
  header ← str (field ms "header");
  claim ← str (field ms "claim");
  bean ← str (field ms "beanName");
  path ← str (field ms "jsonPath");
  resource ← str (field ms "resourceType");
  attrs ← raw_map (field ms "requestAttributes");
  Ok (MkExportPIP tenant name pipType type domain url method header claim bean path resource
        (field ms "defaultValue") (field ms "headers") attrs (field ms "productMapping")
        (field ms "customMapping") (field ms "cacheable") (field ms "cachePeriod") (field ms "query")
        (field ms "body") (field ms "timeoutSeconds") (field ms "response")).

(** [compact] and [present] of a [json.RawMessage]. *)
Definition compact_text (v : json) : string := string_of (Json.compact v).

Definition present (v : option json) : string :=
  match v with
  | None | Some Json.JNull => EmptyString
  | Some v => compact_text v
  end.

(** [exportHead]. *)
Record exportHead := MkExportHead { H_TenantID : option string; H_ID : string; H_Status : string }.

(** [json.Unmarshal] of a field into a string, whose error the code drops. *)
Definition text_or_empty (v : option json) : string :=
  match str v with Ok s => s | Err _ => EmptyString end.

(** [readHead]. *)
Definition readHead (raw : json) : exportHead :=
  match struct_of (filter_value raw (TStruct NHead)) with
  | Err _ => MkExportHead None EmptyString EmptyString
  | Ok ms =>
      MkExportHead (match field ms "tenantId" with Some (Json.JStr body) => Some (Unquote body) | _ => None end)
        (text_or_empty (field ms "policySetId")) (text_or_empty (field ms "status"))
  end.

(** The tenant an element names. *)
Definition tenant_of (raw : json) : option string :=
  match H_TenantID (readHead raw) with
  | Some id => if empty id then None else Some id
  | None => None
  end.

Definition topLevelApplies (status : string) : bool := negb (member status ["INACTIVE"; "DRAFT"; "ARCHIVED"]%string).

Definition ruleTypeFrontend : string := "APPLICABLE_FOR_FRONTEND".

(** ** Regular sets *)

Section build.
Context {table : UnicodeTable} {pc : PathCompiler}.

Definition condition (text : option string) (place : Place) (iterVar : string) : option Condition :=
  match text with
  | None => None
  | Some text =>
      Some (match ParseCondition text place iterVar with
            | Ok c => c
            | Err _ => MkCondition place [[Some (AUnsupported (MkUnsupported FormSyntax text))]]
            end)
  end.

Inductive element_error := AlgorithmUnknown (a : string) | EffectUnknown (rule effect : string).

Definition algorithmOf (a : string) : result element_error Algorithm :=
  if member a algorithms then Ok a else Err (AlgorithmUnknown a).

(** [nodeError]: the labels of the nodes around an error, innermost first; an error outside
    every policy and nested set has none. *)
Record nodeError := MkNodeError { labels_around : list string; node_err : element_error }.

Definition within (label : string) (e : nodeError) : nodeError :=
  MkNodeError (labels_around e ++ [label]) (node_err e).

Definition foreign (id : option string) (tenant : string) : option string :=
  match id with
  | Some id => if negb (empty id) && negb (eqb id tenant) then Some id else None
  | None => None
  end.

Definition foreign_reason (kind id : string) (owner : option string) (tenant : string) : string :=
  match foreign owner tenant with
  | Some other => kind +:+ " " +:+ Quote id +:+ " has tenantId " +:+ Quote other
  | None => EmptyString
  end.

(** The first reason there is. *)
Definition first_reason (reasons : list string) : string :=
  default EmptyString (List.find (λ r, negb (empty r)) reasons).

Fixpoint foreignElement (s : exportSet) (tenant : string) : string :=
  first_reason
    (concat (map (λ p,
       foreign_reason "policy" (XP_PolicyID p) (XP_TenantID p) tenant
       :: map (λ r, foreign_reason "rule" (XR_RuleID r) (XR_TenantID r) tenant) (XP_Rules p)) (XS_Policies s))
     ++ concat (map (λ k,
       [foreign_reason "policy set" (XS_PolicySetID k) (XS_TenantID k) tenant; foreignElement k tenant])
          (XS_PolicySets s))).

Definition predicates (r : exportRule) : Predicates :=
  MkPredicates
    (list_to_map (List.filter (λ kv, negb (empty kv.2))
       [(DialectRSQL, XR_RSQLPredicate r); (DialectSQL, XR_SQLPredicate r);
        (DialectMongoDB, XR_MongoDBPredicate r); (DialectQueryDSL, XR_Predicate r)]))
    (match XR_CustomPredicate r with
     | Some c => Some (MkCustomPredicate (XC_Predicate c) (compact_text <$> XC_Params c))
     | None => None
     end).

Definition build_rule (iterVar : string) (r : exportRule) : result element_error (option Rule) :=
  _ ← check (member (XR_Effect r) effects) (EffectUnknown (XR_RuleID r) (XR_Effect r));
  Ok (Some (MkRule (XR_RuleID r) (XR_Name r) (XR_Effect r) (eqb (XR_RuleType r) ruleTypeFrontend)
        (condition (XR_Target r) PlaceRuleTarget iterVar)
        (condition (XR_Condition r) PlaceRuleCondition iterVar) (predicates r))).

(** [setBuilder.policy]. *)
Definition build_policy (iterVar : string) (p : exportPolicy) : result element_error Policy :=
  alg ← algorithmOf (XP_CombiningAlgorithm p);
  rules ← mapM (build_rule iterVar) (XP_Rules p);
  Ok (MkPolicy (XP_PolicyID p) (XP_Name p) alg (condition (XP_Target p) PlacePolicyTarget iterVar) rules).

Definition policy_in (iterVar : string) (p : exportPolicy) : result nodeError (option Policy) :=
  wrap (λ e, within ("policy " +:+ Quote (XP_PolicyID p)) (MkNodeError [] e)) (Some <$> build_policy iterVar p).

(** The iterate of a set: the reason the set always fails, or the iterate and the variable its
    children read. [vars] counts the variables of the tenant. *)
Definition iterate_of (it : option exportIterate) (iterVar : string) (vars : nat) :
    string * option Iterate * string * nat :=
  match it with
  | None => (EmptyString, None, iterVar, vars)
  | Some it =>
      let alg := XI_CombiningAlgorithm it in
      if negb (eqb (XI_Foreach it) "subject.permissionScope") then
        ("iterate foreach " +:+ Quote (XI_Foreach it), None, iterVar, vars)
      else if empty alg then ("iterate without a combiningAlgorithm"%string, None, iterVar, vars)
      else
        match algorithmOf alg with
        | Err _ => ("iterate combiningAlgorithm " +:+ Quote alg +:+ " unknown", None, iterVar, vars)
        | Ok ia =>
            let inner := "iterate" +:+ pretty (S vars) in
            (EmptyString, Some (MkIterate inner ia), inner, S vars)
        end
  end.

(** [setBuilder.set]. *)
Fixpoint build_set (s : exportSet) (iterVar : string) (vars : nat) : result nodeError (PolicySet * nat) :=
  alg ← wrap (MkNodeError []) (algorithmOf (XS_CombiningAlgorithm s));
  let made := MkPolicySet (XS_PolicySetID s) (XS_Name s) (XS_Domain s) (XS_ExternalID s) alg
                (condition (XS_Target s) PlaceSetTarget iterVar) in
  let '(fails, it, inner, vars) := iterate_of (XS_Iterate s) iterVar vars in
  if negb (empty fails) then Ok (made None fails EmptyString [] [], vars)
  else
    policies ← mapM (policy_in inner) (XS_Policies s);
    '(sets, vars) ← (fix nested (ks : list exportSet) (vars : nat) : result nodeError (list (option PolicySet) * nat) :=
                       match ks with
                       | [] => Ok ([], vars)
                       | k :: ks =>
                           '(s', vars) ← wrap (within ("policy set " +:+ Quote (XS_PolicySetID k)))
                                           (build_set k inner vars);
                           '(rest, vars) ← nested ks vars;
                           Ok (Some s' :: rest, vars)
                       end) (XS_PolicySets s) vars;
    Ok (made it EmptyString EmptyString policies sets, vars).

(** ** Simplified sets *)

Definition resourceTypeTarget (rt : string) : string := "resourceType == '" +:+ rt +:+ "'".

Definition operationTarget (op : string) : string :=
  if eqb op "ALL" then "true" else "operation == '" +:+ op +:+ "'".

Definition rolesTarget (roles : list string) : string :=
  "subject.roles CONTAINS ANY '" +:+ join "','" roles +:+ "'".

(** The comparison a text is, when it is one. *)
Definition only_comparison (text : string) (place : Place) : option Compare :=
  match ParseCondition text place EmptyString with
  | Ok (MkCondition _ [[Some (ACompare cmp)]]) => Some cmp
  | _ => None
  end.

Definition onlyEquality (text : string) (left : Operand) : option string :=
  cmp ← only_comparison text PlaceSetTarget;
  if negb (eqb (Op cmp) OpEQ) || negb (eqb (Left cmp) (Some left)) then None
  else match Right cmp with Some (Lit (LString s)) => Some s | _ => None end.

Definition rolesOf (text : string) : option (list string) :=
  cmp ← only_comparison text PlaceRuleTarget;
  if negb (eqb (Op cmp) OpContainsAny) || negb (eqb (Left cmp) (Some (Subject SubjectRoles EmptyString))) then None
  else
    match Right cmp with
    | Some (List items _) => mapM (λ it, match it with Some (LString s) => Some s | _ => None end) items
    | _ => None
    end.

Definition simplified_rule (op : string) (r : exportRule) : option (option SimplifiedPolicy) :=
  if negb (eqb (XR_Effect r) EffectAllow) || negb (empty (XR_Predicate r)) || is_some (XR_CustomPredicate r)
  then None
  else
    target ← XR_Target r;
    roles ← rolesOf target;
    if negb (eqb target (rolesTarget roles)) then None
    else
      Some (Some (MkSimplifiedPolicy (XR_RuleID r) (eqb (XR_RuleType r) ruleTypeFrontend) op roles
                    (condition (XR_Condition r) PlaceSimplified EmptyString) (predicates r))).

Definition operation_of (target : string) : option string :=
  if eqb target "true" then Some "ALL"%string
  else
    op ← onlyEquality target Operation;
    if eqb target (operationTarget op) then Some op else None.

Definition simplified_policies (p : exportPolicy) : option (list (option SimplifiedPolicy)) :=
  target ← XP_Target p;
  if negb (eqb (XP_CombiningAlgorithm p) AlgorithmDenyUnlessPermit) then None
  else op ← operation_of target; mapM (simplified_rule op) (XP_Rules p).

Definition simplifiedGroup (s : exportSet) : option SimplifiedGroup :=
  if negb (eqb (XS_Type s) "SIMPLIFIED"%string) || is_some (XS_Iterate s) || negb (is_nil (XS_PolicySets s))
     || negb (eqb (XS_CombiningAlgorithm s) AlgorithmDenyUnlessPermit) then None
  else
    target ← XS_Target s;
    rt ← onlyEquality target ResourceType;
    if negb (eqb target (resourceTypeTarget rt)) then None
    else
      policies ← mapM simplified_policies (XS_Policies s);
      Some (MkSimplifiedGroup (XS_PolicySetID s) (XS_Name s) (XS_ExternalID s) (XS_Domain s)
              (default EmptyString (XS_Component s)) rt (concat policies)).

(** ** Information points *)

Inductive pip_error :=
  | PIPUndecoded (e : decode_error)
  | NoName
  | TypeUnknown (name : string) (t : PIPType)
  | HeadersUnread (name : string).

(** The headers of a declaration, and whether they are an object. *)
Definition read_headers (name : string) (v : option json) : result pip_error (string * bool) :=
  match v with
  | None | Some Json.JNull => Ok (EmptyString, false)
  | Some (Json.JStr body) => Ok (Unquote body, false)
  | Some (Json.JArr _ items) =>
      names ← wrap (λ _, HeadersUnread name) (mapM (λ w, str (Some w)) items);
      Ok (join "," names, false)
  | Some (Json.JObj _ _) => Ok (EmptyString, true)
  | Some _ => Err (HeadersUnread name)
  end.

Definition extension (name : string) (v : option json) : list string :=
  if empty (present v) then [] else [name].

(** [readPIP] of a decoded declaration. *)
Definition read_pip (e : exportPIP) : result pip_error PIP :=
  name ← match XQ_Name e with Some name => Ok name | None => Err NoName end;
  let type := if empty (XQ_PipType e) then PIPGeneral else XQ_PipType e in
  _ ← check (member type pipTypes) (TypeUnknown name type);
  '(headers, as_object) ← read_headers name (XQ_Headers e);
  let unsupported :=
    (if (as_object : bool) then ["headers object"%string] else [])
    ++ extension "query" (XQ_Query e) ++ extension "body" (XQ_Body e)
    ++ extension "timeoutSeconds" (XQ_TimeoutSeconds e) ++ extension "response" (XQ_Response e) in
  let attrs := compact_text <$> XQ_RequestAttributes e in
  Ok (MkPIP name type (XQ_Claim e) (XQ_Header e) (present (XQ_DefaultValue e)) (XQ_URL e) (XQ_HTTPMethod e)
        (XQ_BeanName e) (XQ_JSONPath e) (XQ_Type e) headers (XQ_ResourceType e) (XQ_Domain e)
        (if decide (attrs = ∅) then None else Some attrs)
        (present (XQ_ProductMapping e)) (present (XQ_CustomMapping e)) (present (XQ_Cacheable e))
        (present (XQ_CachePeriod e)) (join ", " unsupported) EmptyString).

Definition readPIP (raw : json) : result pip_error PIP :=
  e ← wrap PIPUndecoded (decode_pip (filter_value raw (TStruct NPIP)));
  read_pip e.

(** ** The export *)

Inductive tenant_error :=
  | SetUndecoded (i : nat) (e : decode_error)
  | SetUnbuilt (id : string) (e : nodeError)
  | PIPUnread (i : nat) (e : pip_error).

(** What a tree leaves out, as [Export.Dropped] lists it. *)
Inductive dropped_line :=
  | DroppedStatus (i : nat) (id status : string)
  | DroppedSetKey (i : nat) (id key : string)
  | DroppedIsolated (i : nat) (id reason : string)
  | DroppedPIPKey (i : nat) (name key : string)
  | DroppedPIPName (name reason : string).

Record tenant := MkTenant {
  simplified : list (option SimplifiedGroup);
  t_sets : list (option PolicySet);
  t_pips : list PIP;
  pipCount : gmap string nat;
  setCount : gmap string nat;
  t_vars : nat;
  t_err : option tenant_error;
  t_dropped : list dropped_line;
}.

Definition new_tenant : tenant := MkTenant [] [] [] ∅ ∅ 0 None [].

Definition count (m : gmap string nat) (k : string) : nat := default 0 (m !! k).

Definition fail_tenant (e : tenant_error) (t : tenant) : tenant :=
  MkTenant (simplified t) (t_sets t) (t_pips t) (pipCount t) (setCount t) (t_vars t) (Some e) (t_dropped t).
Definition drop_lines (lines : list dropped_line) (t : tenant) : tenant :=
  MkTenant (simplified t) (t_sets t) (t_pips t) (pipCount t) (setCount t) (t_vars t) (t_err t) (t_dropped t ++ lines).
Definition count_set (id : string) (t : tenant) : tenant :=
  MkTenant (simplified t) (t_sets t) (t_pips t) (pipCount t) (<[id := S (count (setCount t) id)]> (setCount t))
    (t_vars t) (t_err t) (t_dropped t).
Definition add_group (g : SimplifiedGroup) (t : tenant) : tenant :=
  MkTenant (simplified t ++ [Some g]) (t_sets t) (t_pips t) (pipCount t) (setCount t) (t_vars t) (t_err t) (t_dropped t).
Definition add_set (s : PolicySet) (vars : nat) (t : tenant) : tenant :=
  MkTenant (simplified t) (t_sets t ++ [Some s]) (t_pips t) (pipCount t) (setCount t) vars (t_err t) (t_dropped t).
Definition add_pip (p : PIP) (t : tenant) : tenant :=
  MkTenant (simplified t) (t_sets t) (t_pips t ++ [p]) (<[Name p := S (count (pipCount t) (Name p))]> (pipCount t))
    (setCount t) (t_vars t) (t_err t) (t_dropped t).

(** The reason a top-level set is kept apart, or the empty text. *)
Definition isolation (t : tenant) (id : string) (head : exportHead) (s : exportSet) : string :=
  let n := count (setCount t) (H_ID head) in
  if 1 <? n then "the tenant has " +:+ pretty n +:+ " top-level sets with this policySetId"
  else foreignElement s id.

Definition isolated_set (s : exportSet) (reason : string) : PolicySet :=
  MkPolicySet (XS_PolicySetID s) (XS_Name s) (XS_Domain s) (XS_ExternalID s) AlgorithmAbsent
    (condition (XS_Target s) PlaceSetTarget EmptyString) None EmptyString reason [] [].

(** One set of the tenant [id]: the body of the second loop of [FromRegular]. *)
Definition set_step (id : string) (i : nat) (raw : json) (t : tenant) : tenant :=
  if is_some (t_err t) then t
  else
    let head := readHead raw in
    if negb (topLevelApplies (H_Status head)) then drop_lines [DroppedStatus i (H_ID head) (H_Status head)] t
    else
      match decode_set (filter_value raw (TStruct NSet)) with
      | Err e => fail_tenant (SetUndecoded i e) t
      | Ok s =>
          let t := drop_lines (DroppedSetKey i (H_ID head) <$> unknown_keys raw (TStruct NSet) []) t in
          let reason := isolation t id head s in
          if negb (empty reason) then
            add_set (isolated_set s reason) (t_vars t) (drop_lines [DroppedIsolated i (H_ID head) reason] t)
          else
            match simplifiedGroup s with
            | Some g => add_group g t
            | None =>
                match build_set s EmptyString (t_vars t) with
                | Err e => fail_tenant (SetUnbuilt (XS_PolicySetID s) e) t
                | Ok (ps, vars) => add_set ps vars t
                end
            end
      end.

(** One declaration of the tenant: the body of the third loop. *)
Definition pip_step (i : nat) (raw : json) (t : tenant) : tenant :=
  if is_some (t_err t) then t
  else
    match readPIP raw with
    | Err e => fail_tenant (PIPUnread i e) t
    | Ok p => add_pip p (drop_lines (DroppedPIPKey i (Name p) <$> unknown_keys raw (TStruct NPIP) []) t)
    end.

(** The declarations of a tenant by name: one declared once, and an isolated one for a name
    declared more often, where its first declaration stands. *)
Fixpoint distinct_pips (counts : gmap string nat) (pips : list PIP) : list PIP * list dropped_line :=
  match pips with
  | [] => ([], [])
  | p :: pips =>
      let n := count counts (Name p) in
      if eqb n 1 then let '(ps, ds) := distinct_pips counts pips in (p :: ps, ds)
      else if 1 <? n then
        let reason := "declared " +:+ pretty n +:+ " times" in
        let '(ps, ds) := distinct_pips (<[Name p := 0]> counts) pips in
        (isolated_pip (Name p) reason :: ps, DroppedPIPName (Name p) reason :: ds)
      else distinct_pips counts pips
  end.

Inductive failure := ReadFailed (e : tenant_error) | TreeRefused (e : tree_error).

(** The end of [FromRegular] for one tenant. *)
Definition finish (t : tenant) : result failure (Tree * list dropped_line) :=
  match t_err t with
  | Some e => Err (ReadFailed e)
  | None =>
      let '(pips, ds) := distinct_pips (pipCount t) (t_pips t) in
      tree ← wrap TreeRefused (NewTree (simplified t) (t_sets t) (Some <$> pips));
      Ok (tree, t_dropped t ++ ds)
  end.

Definition tree_of (t : tenant) : option Tree :=
  match finish t with Ok (tree, _) => Some tree | Err _ => None end.
Definition failure_of (t : tenant) : option failure :=
  match finish t with Ok _ => None | Err e => Some e end.
Definition dropped_of (t : tenant) : option (list dropped_line) :=
  match finish t with Ok (_, []) | Err _ => None | Ok (_, ds) => Some ds end.

Inductive kind := KindSet | KindPIP.

Record export := MkExport {
  Trees : gmap string Tree;
  Failed : gmap string failure;
  Orphans : list (kind * nat);
  Dropped : gmap string (list dropped_line);
}.

Inductive export_error := DocumentUnread (k : kind) (e : decode_error) | NoArray (k : kind).

(** The elements of a document: the array of its one field. *)
Definition document (k : kind) (n : struct_name) (name : string) (data : bytes) : result export_error (list json) :=
  match Json.parse data with
  | None => Err (DocumentUnread k NotJSON)
  | Some v =>
      ms ← wrap (DocumentUnread k) (struct_of (filter_value v (TStruct n)));
      match field ms name with
      | None | Some Json.JNull => Err (NoArray k)
      | Some (Json.JArr _ items) => Ok items
      | Some _ => Err (DocumentUnread k TypeMismatch)
      end
  end.

(** [get]: the tenants by ID; an element without one is an orphan. *)
Definition visit (k : kind) (step : string → nat → json → tenant → tenant) (i : nat) (raw : json)
    (st : gmap string tenant * list (kind * nat)) : gmap string tenant * list (kind * nat) :=
  match tenant_of raw with
  | None => (st.1, st.2 ++ [(k, i)])
  | Some id => (<[id := step id i raw (default new_tenant (st.1 !! id))]> st.1, st.2)
  end.

Fixpoint visit_all {St} (f : nat → json → St → St) (i : nat) (raws : list json) (st : St) : St :=
  match raws with
  | [] => st
  | raw :: raws => visit_all f (S i) raws (f i raw st)
  end.

(** The three loops of [FromRegular] over the elements. The second one passes over the
    orphans, which the first has listed. *)
Definition read_elements (sets pips : list json) : gmap string tenant * list (kind * nat) :=
  let st := visit_all (visit KindSet (λ _ _ raw, count_set (H_ID (readHead raw)))) 0 sets (∅, []) in
  let st := ((visit_all (visit KindSet set_step) 0 sets st).1, st.2) in
  visit_all (visit KindPIP (λ _, pip_step)) 0 pips st.

Definition FromRegular (policySets pips : bytes) : result export_error export :=
  sets ← document KindSet NSetsDoc "policySets" policySets;
  pips ← document KindPIP NPIPsDoc "pips" pips;
  let '(tenants, orphans) := read_elements sets pips in
  Ok (MkExport (omap tree_of tenants) (omap failure_of tenants) orphans (omap dropped_of tenants)).

End build.

(** ** What the filter keeps *)

(** The members of an object by their decoded keys. *)
Definition named (ms : list (bytes * json)) : list (string * json) := (λ m, (key_name m.1, m.2)) <$> ms.

Definition kept (n : struct_name) (ms : list (bytes * json)) : list (bytes * json) :=
  omap (λ f, w ← last_member f.1 (named ms); Some (bytes_of f.1, filter_value w f.2)) (fieldsOf n).

Lemma last_member_fmap {A B} (g : A → B) name ms :
  last_member name ((λ m, (m.1, g m.2)) <$> ms) = g <$> last_member name ms.
Proof.
  induction ms as [|[k v] ms IH]; [done|]. cbn. rewrite IH. destruct (last_member name ms); [done|].
  by destruct (eqb k name).
Qed.

Lemma filter_object n raw ms : filter_value (Json.JObj raw ms) (TStruct n) = object (kept n ms).
Proof.
  cbn [filter_value]. unfold kept. apply (f_equal object).
  replace (map (λ m : bytes * json, let (k, w) := m in (key_name k, filter_value w)) ms)
    with ((λ m : string * json, (m.1, filter_value m.2)) <$> named ms).
  - induction (fieldsOf n) as [|f fields IH]; [done|]. cbn [omap list_omap].
    rewrite last_member_fmap, IH. by destruct (last_member f.1 (named ms)).
  - unfold named. rewrite <-list_fmap_compose. by induction ms as [|[k w] ms IH]; cbn; [|f_equal].
Qed.

Lemma field_names n : NoDup (fieldsOf n).*1.
Proof.
  unfold fieldsOf. assert (NoDup (declared n).*1) as H by (apply (bool_decide_unpack _); by destruct n).
  by rewrite merge_sort_Permutation.
Qed.

Lemma elem_of_fieldsOf f n : f ∈ fieldsOf n ↔ f ∈ declared n.
Proof. unfold fieldsOf. by rewrite merge_sort_Permutation. Qed.

Lemma find_kept ms fields name t :
  NoDup fields.*1 → (name, t) ∈ fields →
  field (omap (λ f, w ← last_member f.1 (named ms); Some (bytes_of f.1, filter_value w f.2)) fields) name
  = (λ w, filter_value w t) <$> last_member name (named ms).
Proof.
  unfold field. induction fields as [|[k t'] fields IH]; [by intros _ ?%elem_of_nil|].
  cbn [fmap list_fmap fst]. intros [Hk Hn]%NoDup_cons Hin. cbn [omap list_omap fst snd].
  apply elem_of_cons in Hin as [[= <- <-]|Hin].
  - destruct (last_member name (named ms)) as [w|] eqn:E; cbn [mbind option_bind].
    + cbn [List.find fst]. by rewrite eqb_refl.
    + cbn [fmap option_fmap option_map]. assert (∀ m, m ∈ omap (λ f, w ← last_member f.1 (named ms);
        Some (bytes_of f.1, filter_value w f.2)) fields → m.1 ≠ bytes_of name) as Hm.
      { intros m (f & Hf & H)%list_elem_of_omap Heq. destruct (last_member f.1 (named ms)); [|done].
        injection H as <-. apply (inj bytes_of) in Heq. apply Hk. rewrite <-Heq. by apply list_elem_of_fmap_2. }
      revert Hm. generalize (omap (λ f, w ← last_member f.1 (named ms); Some (bytes_of f.1, filter_value w f.2)) fields).
      intros l Hm. induction l as [|m l IHl]; [done|]. cbn [List.find].
      rewrite (proj2 (eqb_false m.1 (bytes_of name))) by (apply Hm; apply list_elem_of_here).
      apply IHl. intros m' H. by apply Hm, list_elem_of_further.
  - assert (k ≠ name) as Hne by (intros ->; apply Hk; by apply (list_elem_of_fmap_2 fst _ (name, t))).
    destruct (last_member k (named ms)) as [w|]; cbn [mbind option_bind]; [|by apply IH].
    cbn [List.find fst]. rewrite (proj2 (eqb_false (bytes_of k) (bytes_of name))) by by intros ?%(inj bytes_of).
    by apply IH.
Qed.

(** A field is decoded from the last member whose key is the field's name exactly. *)
Lemma field_kept n ms name t :
  (name, t) ∈ declared n →
  field (kept n ms) name = (λ w, filter_value w t) <$> last_member name (named ms).
Proof. intros H. apply find_kept; [apply field_names|by apply elem_of_fieldsOf]. Qed.

End TenantExport.
