(* ===== verification/ExactFilter.v ===== *)
(** * The filter by exact keys over the text ([internal/policyir/export.go])

    [decodeReporting] drops the keys of a document that no field names before it is decoded,
    on the text itself: offsets, a table of where each container ends, and a buffer of what is
    kept. [TenantExport.v] filters the value instead; here the two are shown to agree, on what
    is written and on the keys that are reported. *)
From S2P Require Import Prelude GoText Json Encoding TenantExport.
Import TenantExport.

Module ExactFilter.

(** ** Offsets *)

(** [skipSpace]. *)
Fixpoint skip_from (s : bytes) (i : nat) : nat :=
  match s with
  | c :: s => if Json.is_space c then skip_from s (S i) else i
  | [] => i
  end.

Definition skipSpace (data : bytes) (i : nat) : nat := skip_from (drop i data) i.

(** [stringEnd]; [None] is an index past the text. *)
Fixpoint string_end (s : bytes) (i : nat) : option nat :=
  match s with
  | [] => None
  | c :: s =>
      if eqb c Json.quote then Some (S i)
      else if eqb c Json.backslash then match s with _ :: s => string_end s (S (S i)) | [] => None end
      else string_end s (S i)
  end.

Definition stringEnd (data : bytes) (start : nat) : option nat := string_end (drop (S start) data) (S start).

(** [containerEnds]: the containers open, innermost first, and the ends found. *)
Fixpoint container_ends (data : bytes) (fuel i : nat) (open : list nat) (ends : gmap nat nat) : option (gmap nat nat) :=
  match fuel with
  | 0 => None
  | S fuel =>
      match data !! i with
      | None => Some ends
      | Some c =>
          if eqb c Json.quote then e ← stringEnd data i; container_ends data fuel e open ends
          else if member c ["{"; "["]%char then container_ends data fuel (S i) (i :: open) ends
          else if member c ["}"; "]"]%char then
            match open with
            | o :: open => container_ends data fuel (S i) open (<[o := S i]> ends)
            | [] => None
            end
          else container_ends data fuel (S i) open ends
      end
  end.

Definition containerEnds (data : bytes) : option (gmap nat nat) := container_ends data (S (length data)) 0 [] ∅.

(** ** The filter *)

Section filter.
Variable data : bytes.
Variable ends : gmap nat nat.

(** The text between two offsets. *)
Definition slice (i j : nat) : bytes := take (j - i) (drop i data).

(** The loop of [valueEnd] over a number or a literal. *)
Fixpoint word_end (s : bytes) (i : nat) : nat :=
  match s with
  | c :: s => if member c Json.delimiters then i else word_end s (S i)
  | [] => i
  end.

(** [valueEnd]. *)
Definition valueEnd (i : nat) : option nat :=
  c ← data !! i;
  if member c ["{"; "["]%char then Some (default 0 (ends !! i))
  else if eqb c Json.quote then stringEnd data i
  else Some (word_end (drop i data) i).

(** [next]. *)
Definition next (i : nat) : option nat :=
  e ← valueEnd i;
  let j := skipSpace data e in
  c ← data !! j;
  Some (if eqb c ","%char then skipSpace data (S j) else j).

(** [key]. *)
Definition key (start stop : nat) : string := key_name (slice (S start) (stop - 1)).

(** The buffer, and the keys dropped with their offsets and paths. *)
Record state := MkState { out : bytes; unknown : list (nat * string) }.
Definition write (b : bytes) (st : state) : state := MkState (out st ++ b) (unknown st).
Definition drop_key (at_ : nat) (path : string) (st : state) : state := MkState (out st) (unknown st ++ [(at_, path)]).

(** The loop of [array]. *)
Fixpoint array_items (value : nat → gotype → keyPath → state → option state) (fuel : nat) (elem : gotype) (at_ : keyPath)
    (start j n : nat) (st : state) : option state :=
  match fuel with
  | 0 => None
  | S fuel =>
      c ← data !! j;
      if eqb c "]"%char then Some st
      else
        st ← value j elem (Elem n :: at_) (if eqb j start then st else write [","%char] st);
        j ← next j;
        array_items value fuel elem at_ start j (S n) st
  end.

(** The first loop of [object]: the last offset of each field. *)
Definition index_of (name : string) (fields : list (string * gotype)) : option nat :=
  fst <$> list_find (λ f, f.1 = name) fields.

Fixpoint object_members (fuel : nat) (n : struct_name) (at_ : keyPath) (j : nat) (last : list (option nat)) (st : state)
    : option (list (option nat) * state) :=
  match fuel with
  | 0 => None
  | S fuel =>
      c ← data !! j;
      if eqb c "}"%char then Some (last, st)
      else
        keyEnd ← stringEnd data j;
        let name := key j keyEnd in
        let j := skipSpace data (S (skipSpace data keyEnd)) in
        let '(last, st) :=
          match index_of name (fieldsOf n) with
          | Some k => (<[k := Some j]> last, st)
          | None =>
              if member name (ignoredKeysOf n) then (last, st)
              else (last, drop_key j (path_text (Key name :: at_)) st)
          end in
        j ← next j;
        object_members fuel n at_ j last st
  end.

(** The second loop of [object]: the fields written, sorted by name. *)
Fixpoint write_members (value : nat → gotype → keyPath → state → option state) (at_ : keyPath)
    (fields : list (string * gotype)) (last : list (option nat)) (first : bool) (st : state) : option state :=
  match fields, last with
  | f :: fields, Some j :: last =>
      let st := if first then st else write [","%char] st in
      let st := write (Json.quote :: bytes_of f.1 ++ [Json.quote; ":"%char]) st in
      st ← value j f.2 (Key f.1 :: at_) st;
      write_members value at_ fields last false st
  | _ :: fields, None :: last => write_members value at_ fields last first st
  | _, _ => Some st
  end.

(** [value], with [array] and [object]; any other value is written compactly. *)
Definition leaf (i : nat) (st : state) : option state :=
  e ← valueEnd i;
  Some (write (default [] (Json.Compact (slice i e))) st).

Fixpoint value (fuel i : nat) (t : gotype) (at_ : keyPath) (st : state) : option state :=
  match fuel with
  | 0 => None
  | S fuel =>
      c ← data !! i;
      match t with
      | TStruct n =>
          if eqb c "{"%char then
            '(last, st) ← object_members (S (length data)) n at_ (skipSpace data (S i)) ((λ _, None) <$> fieldsOf n) st;
            st ← write_members (value fuel) at_ (fieldsOf n) last true (write ["{"%char] st);
            Some (write ["}"%char] st)
          else leaf i st
      | TSlice t =>
          if eqb c "["%char then
            let start := skipSpace data (S i) in
            st ← array_items (value fuel) (S (length data)) t at_ start start 0 (write ["["%char] st);
            Some (write ["]"%char] st)
          else leaf i st
      | TLeaf => leaf i st
      end
  end.
End filter.

Definition by_offset (a b : nat * string) : Prop := a.1 ≤ b.1.
#[global] Instance by_offset_dec : RelDecision by_offset := λ a b, decide (a.1 ≤ b.1).
#[global] Instance by_offset_total : Total by_offset.
Proof. intros a b. unfold by_offset. lia. Qed.
#[global] Instance by_offset_trans : Transitive by_offset.
Proof. intros a b c. unfold by_offset. lia. Qed.

(** [decodeReporting], up to the decoding of the text it has written: the text, and the paths
    of the keys dropped. *)
Definition decodeReporting (data : bytes) (t : gotype) : option (bytes * list string) :=
  _ ← Json.parse data;
  ends ← containerEnds data;
  st ← value data ends (S (length data)) (skipSpace data 0) t [] (MkState [] []);
  Some (out st, snd <$> merge_sort by_offset (unknown st)).

Example reported_by_offset :
  decodeReporting (bytes_of " { " ++ Json.quoted "policySetId" ++ bytes_of " : 1 , " ++ Json.quoted "policies" ++ bytes_of ":[ {" ++ Json.quoted "Rules"
      ++ bytes_of ":[]} , { " ++ Json.quoted "policyId" ++ bytes_of " :" ++ Json.quoted "p" ++ bytes_of " }], " ++ Json.quoted "x" ++ bytes_of ":{}," ++ Json.quoted "policySetId"
      ++ bytes_of ":2}") (TStruct NSet)
  = Some (bytes_of "{" ++ Json.quoted "policies" ++ bytes_of ":[{},{" ++ Json.quoted "policyId" ++ bytes_of ":" ++ Json.quoted "p" ++ bytes_of "}],"
      ++ Json.quoted "policySetId" ++ bytes_of ":2}", ["policies[0].Rules"; "x"]%string).
Proof. vm_compute. reflexivity. Qed.

(** ** Offsets and the text after them *)

Lemma drop_lookup {A} (l : list A) i x r : drop i l = x :: r → l !! i = Some x ∧ drop (S i) l = r.
Proof.
  intros H. split; [by rewrite <-(Nat.add_0_r i), <-lookup_drop, H|].
  by rewrite <-Nat.add_1_r, <-drop_drop, H.
Qed.

Lemma drop_over {A} (l : list A) i a b : drop i l = a ++ b → drop (i + length a) l = b.
Proof. intros H. by rewrite <-drop_drop, H, drop_app_length. Qed.

Lemma drop_same {A} (l : list A) i j : drop i l = drop j l → i ≤ length l → j ≤ length l → i = j.
Proof. intros H Hi Hj. apply (f_equal length) in H. rewrite !length_drop in H. lia. Qed.

Lemma skip_from_spec s i : skip_from s i + length (Json.skip s) = i + length s.
Proof.
  revert i. induction s as [|c s IH]; intros i; [done|]. unfold Json.skip, drop_while in *. cbn [skip_from span].
  destruct (Json.is_space c); [|cbn; lia]. specialize (IH (S i)). destruct (span Json.is_space s). cbn in *. lia.
Qed.

Lemma string_end_hex c s i : Json.is_hex c = true → string_end (c :: s) i = string_end s (S i).
Proof.
  intros H. cbn [string_end]. destruct (eqb c Json.quote) eqn:Q; [apply eqb_true in Q as ->; done|].
  destruct (eqb c Json.backslash) eqn:B; [apply eqb_true in B as ->; done|done].
Qed.

Lemma string_end_spec s b r i : Json.scan_string s = Some (b, r) → string_end s i = Some (i + length b + 1).
Proof.
  remember (length s) as n eqn:Hn. revert s Hn b r i. induction (lt_wf n) as [n _ IH]. intros s -> b r i. destruct s as [|c s]; [done|].
  assert (IH' : ∀ s' b' r' i', length s' < length (c :: s) → Json.scan_string s' = Some (b', r') → string_end s' i' = Some (i' + length b' + 1))
    by (intros; by eapply IH).
  cbn [Json.scan_string string_end]. destruct (eqb c Json.quote); [intros [= <- <-]; apply (f_equal Some); cbn [length]; lia|]. destruct (eqb c Json.backslash).
  - destruct s as [|x s]; [done|]. destruct (Json.is_escape x).
    + destruct (Json.scan_string s) as [[b' r']|] eqn:E; [|done]. intros [= <- <-]. rewrite (IH' s _ _ _ ltac:(cbn; lia) E). apply (f_equal Some); cbn [length]; lia.
    + destruct (eqb x "u"%char); [|done]. destruct s as [|a1 [|a2 [|a3 [|a4 s]]]]; [done..|]. destruct (all Json.is_hex [a1; a2; a3; a4]) eqn:Ha; [|done].
      destruct (Json.scan_string s) as [[b' r']|] eqn:E; [|done]. intros [= <- <-].
      cbn [all forallb] in Ha. rewrite !andb_true_iff in Ha. destruct Ha as (H1 & H2 & H3 & H4 & _).
      rewrite !string_end_hex by done. rewrite (IH' s _ _ _ ltac:(cbn; lia) E). apply (f_equal Some); cbn [length]; lia.
  - destruct (N_of_ascii c <? 32)%N; [done|]. destruct (Json.scan_string s) as [[b' r']|] eqn:E; [|done]. intros [= <- <-].
    rewrite (IH' s _ _ _ ltac:(cbn; lia) E). apply (f_equal Some); cbn [length]; lia.
Qed.

(** ** Values at their offsets *)

(** A byte of a number or a literal. *)
Definition word_char (c : ascii) : bool := negb (member c ([Json.quote; "{"; "["]%char ++ Json.delimiters)).

Lemma digit_word c : is_digit c = true → word_char c = true.
Proof.
  intros H. apply not_false_is_true. intros E. apply negb_false_iff, member_true in E. unfold Json.delimiters in E. cbn [app] in E.
  repeat (apply elem_of_cons in E as [->|E]; [done|]). by apply elem_of_nil in E.
Qed.

Lemma digits_word s t r : Json.digits s = Some (t, r) → Forall (λ c, word_char c = true) t.
Proof.
  unfold Json.digits. destruct (span is_digit s) as [[|c a] b] eqn:E; [done|]. intros [= <- <-].
  eapply Forall_impl; [by eapply span_all|]. apply digit_word.
Qed.

Lemma number_word s t r : Json.scan_number s = Some (t, r) → Forall (λ c, word_char c = true) t.
Proof.
  unfold Json.scan_number.
  destruct (match Json.expect "-" s with Some s => (["-"%char], s) | None => ([], s) end) as [sign s1] eqn:E0.
  assert (H0 : Forall (λ c, word_char c = true) sign) by (destruct (Json.expect "-" s); injection E0 as <- _; repeat constructor).
  destruct (Json.scan_integer s1) as [[int s2]|] eqn:E1; [|done]. cbn [mbind option_bind].
  assert (H1 : Forall (λ c, word_char c = true) int).
  { unfold Json.scan_integer in E1. destruct (Json.expect "0" s1); [injection E1 as <- _; repeat constructor|by eapply digits_word]. }
  destruct (Json.scan_fraction s2) as [[frac s3]|] eqn:E2; [|done]. cbn [mbind option_bind].
  assert (H2 : Forall (λ c, word_char c = true) frac).
  { unfold Json.scan_fraction in E2. destruct (Json.expect "." s2) as [s2'|]; [|injection E2 as <- _; constructor].
    destruct (Json.digits s2') as [[ds r']|] eqn:E; [|done]. injection E2 as <- _. apply digits_word in E. by constructor. }
  destruct (Json.scan_exponent s3) as [[exp s4]|] eqn:E3; [|done]. cbn [mbind option_bind]. intros [= <- <-].
  rewrite !Forall_app. split_and!; [done..|]. unfold Json.scan_exponent in E3. destruct s3 as [|c s3]; [by injection E3 as <- _|].
  destruct (eqb c "e"%char || eqb c "E"%char) eqn:Ec; [|by injection E3 as <- _].
  assert (Hc : word_char c = true) by (apply orb_true_iff in Ec as [Ec|Ec]; apply eqb_true in Ec as ->; done).
  destruct s3 as [|x s3]; [done|]. destruct (Json.is_sign x) eqn:Ex; cbn [mbind option_bind] in E3.
  - destruct (Json.digits s3) as [[ds r']|] eqn:E; [|done]. injection E3 as <- _. apply digits_word in E. constructor; [done|]. constructor; [|done].
    apply orb_true_iff in Ex as [Ex|Ex]; apply eqb_true in Ex as ->; done.
  - destruct (Json.digits (x :: s3)) as [[ds r']|] eqn:E; [|done]. injection E3 as <- _. apply digits_word in E. by constructor.
Qed.

(** The value of a member or an element, with its two offsets. *)
Notation placed A := (A * (nat * nat))%type.

Section located.
Variable data : bytes.
(** What is known of the two offsets of a container. *)
Variable R : nat → nat → Prop.

(** The text from [i] to [e] is the value [v]. *)
Definition reads (i : nat) (v : Json.json) (e : nat) : Prop :=
  i < e ∧ e ≤ length data ∧ Json.Compact (slice data i e) = Some (Json.compact v).

(** Where the next element or member stands, or the closing bracket. *)
Definition after (e : nat) : nat :=
  let m := skipSpace data e in
  if eqb (data !! m) (Some ","%char) then skipSpace data (S m) else m.

(** [v] stands at [i] and ends at [e]; the elements of an array and the members of an object
    stand from an offset to their closing bracket. *)
Inductive spot : nat → Json.json → nat → Prop :=
  | spot_word i v e :
      reads i v e → drop i data = Json.compact v ++ drop e data → Forall (λ c, word_char c = true) (Json.compact v) →
      Json.delimited (drop e data) → spot i v e
  | spot_string i body e : reads i (Json.JStr body) e → data !! i = Some Json.quote → stringEnd data i = Some e → spot i (Json.JStr body) e
  | spot_array i raw items k :
      reads i (Json.JArr raw (fst <$> items)) (S k) → data !! i = Some "["%char → R i (S k) → spots (skipSpace data (S i)) items k →
      spot i (Json.JArr raw (fst <$> items)) (S k)
  | spot_object i raw ms k :
      reads i (Json.JObj raw (fst <$> ms)) (S k) → data !! i = Some "{"%char → R i (S k) → fields (skipSpace data (S i)) ms k →
      spot i (Json.JObj raw (fst <$> ms)) (S k)
with spots : nat → list (placed Json.json) → nat → Prop :=
  | spots_end k : data !! k = Some "]"%char → spots k [] k
  | spots_cons j v e vs k : spot j v e → spots (after e) vs k → spots j ((v, (j, e)) :: vs) k
with fields : nat → list (placed (bytes * Json.json)) → nat → Prop :=
  | fields_end k : data !! k = Some "}"%char → fields k [] k
  | fields_cons j name ke j' v e ms k :
      data !! j = Some Json.quote → stringEnd data j = Some ke → slice data (S j) (ke - 1) = name →
      data !! skipSpace data ke = Some ":"%char → j' = skipSpace data (S (skipSpace data ke)) →
      spot j' v e → fields (after e) ms k → fields j ((name, v, (j', e)) :: ms) k.
End located.

Scheme spot_min := Minimality for spot Sort Prop
  with spots_min := Minimality for spots Sort Prop
  with fields_min := Minimality for fields Sort Prop.
Combined Scheme spot_induction from spot_min, spots_min, fields_min.

Section parsed.
Variable data : bytes.

Lemma skipSpace_drop i : drop (skipSpace data i) data = Json.skip (drop i data) ∧ i ≤ skipSpace data i.
Proof.
  destruct (Json.skip_split (drop i data)) as (w & E & _). pose proof (skip_from_spec (drop i data) i) as H. fold (skipSpace data i) in H.
  pose proof (f_equal length E) as HE. rewrite length_app in HE. split; [|lia].
  replace (skipSpace data i) with (i + length w) by lia. by apply drop_over.
Qed.

Lemma skipSpace_lookup i c r : Json.skip (drop i data) = c :: r → data !! skipSpace data i = Some c ∧ drop (S (skipSpace data i)) data = r.
Proof. intros H. apply drop_lookup. by rewrite (proj1 (skipSpace_drop i)). Qed.

Notation spot := (spot data (λ _ _, True)).
Notation spots := (spots data (λ _ _, True)).
Notation fields := (fields data (λ _ _, True)).

Definition value_spot (f : nat) : Prop := ∀ d i v e, Json.value f d (drop i data) = Some (v, drop e data) → d ≤ Json.maxNestingDepth →
  Json.delimited (drop e data) → e ≤ length data → spot i v e.
Definition elements_spot (f : nat) : Prop := ∀ d j vs r, Json.elements f d (drop j data) = Some (vs, r) → d ≤ Json.maxNestingDepth →
  ∃ k lvs, r = drop (S k) data ∧ k < length data ∧ fst <$> lvs = vs ∧ spots j lvs k.
Definition fields_spot (f : nat) : Prop := ∀ d j ms r, Json.fields f d (drop j data) = Some (ms, r) → d ≤ Json.maxNestingDepth →
  ∃ k lms, r = drop (S k) data ∧ k < length data ∧ fst <$> lms = ms ∧ fields j lms k.

Lemma value_reads f d i v r : Json.value f d (drop i data) = Some (v, r) → d ≤ Json.maxNestingDepth →
  ∃ e, r = drop e data ∧ reads data i v e ∧ drop i data = slice data i e ++ drop e data.
Proof.
  intros E Hd. destruct (Json.value_own _ _ _ _ _ E Hd) as (t & Et & Hp). exists (i + length t).
  pose proof (proj1 (Json.readers_ok f) _ _ _ _ E) as [Hl _].
  assert (Hr : drop (i + length t) data = r) by by apply drop_over.
  assert (Hs : slice data i (i + length t) = t).
  { unfold slice. replace (i + length t - i) with (length t) by lia. by rewrite Et, take_app_length. }
  rewrite Hs, Hr. split_and!; [done| |done]. pose proof (f_equal length Et) as HL. rewrite length_app, length_drop in HL.
  unfold reads. rewrite Hs. unfold Json.Compact. rewrite Hp. rewrite length_drop in Hl. split_and!; [lia|lia|done].
Qed.

Lemma drop_end i j r : drop i data = r → drop j data = r → i ≤ length data → j < length data → i = j.
Proof. intros <- H Hi Hj. symmetry in H. apply (drop_same data); [done|lia|lia]. Qed.

Lemma value_step_spot f : elements_spot f → fields_spot f → value_spot (S f).
Proof.
  intros He Hf d i v e E Hd Hr He'. destruct (value_reads _ _ _ _ _ E Hd) as (e' & Ee & Hv & Es). pose proof Hv as (Hi & Hl & _).
  assert (e' = e) as -> by (apply (drop_same data); [by rewrite Ee|done|done]). clear Ee He'. destruct (drop i data) as [|c s] eqn:Ed; [done|]. destruct (drop_lookup _ _ _ _ Ed) as [Hc Hs].
  cbn [Json.value] in E. destruct (eqb c Json.quote) eqn:Q.
  { apply eqb_true in Q as ->. destruct (Json.scan_string s) as [[b r1]|] eqn:E1; [|done]. injection E as <- ->. apply spot_string; [done..|].
    unfold stringEnd. rewrite Hs. rewrite (string_end_spec _ _ _ _ E1). apply Json.scan_string_reads in E1 as [Eb _]. f_equal.
    apply (f_equal length) in Eb. rewrite <-Hs, length_app, length_drop in Eb. cbn [length] in Eb. rewrite length_drop in Eb. lia. }
  destruct (eqb c "["%char) eqn:A.
  { apply eqb_true in A as ->. destruct d as [|d]; [done|]. rewrite <-Hs, <-(proj1 (skipSpace_drop (S i))) in E.
    destruct (Json.expect "]" _) as [r1|] eqn:E1.
    - injection E as <- Er. apply Json.expect_Some, drop_lookup in E1 as [Hk Hr1].
      assert (e = S (skipSpace data (S i))) as ->.
      { apply lookup_lt_Some in Hk. apply (drop_same data); [by rewrite Hr1|done|lia]. }
      apply (spot_array data _ i _ []); [done..|]. by apply spots_end.
    - destruct (Json.elements f d _) as [[vs r1]|] eqn:E2; [|done]. injection E as <- Er.
      destruct (He _ _ _ _ E2) as (k & lvs & -> & Hk & <- & Hvs); [lia|].
      assert (e = S k) as -> by (apply (drop_same data); [done|done|lia]). by apply spot_array. }
  destruct (eqb c "{"%char) eqn:O.
  { apply eqb_true in O as ->. destruct d as [|d]; [done|]. rewrite <-Hs, <-(proj1 (skipSpace_drop (S i))) in E.
    destruct (Json.expect "}" _) as [r1|] eqn:E1.
    - injection E as <- Er. apply Json.expect_Some, drop_lookup in E1 as [Hk Hr1].
      assert (e = S (skipSpace data (S i))) as ->.
      { apply lookup_lt_Some in Hk. apply (drop_same data); [by rewrite Hr1|done|lia]. }
      apply (spot_object data _ i _ []); [done..|]. by apply fields_end.
    - destruct (Json.fields f d _) as [[vs r1]|] eqn:E2; [|done]. injection E as <- Er.
      destruct (Hf _ _ _ _ E2) as (k & lvs & -> & Hk & <- & Hvs); [lia|].
      assert (e = S k) as -> by (apply (drop_same data); [done|done|lia]). by apply spot_object. }
  assert (Hw : ∀ p v0, (rest ← Json.literal p s; Some (v0, rest)) = Some (v, drop e data) → c :: p = Json.compact v0 →
    Forall (λ c, word_char c = true) (c :: p) → spot i v e).
  { intros p v0 H Hp Hall. destruct (Json.literal p s) as [r1|] eqn:E1; [|done]. injection H as <- ->. apply Json.literal_Some in E1.
    rewrite Hp in Hall. apply spot_word; [done| |done..]. by rewrite Ed, <-Hp, E1. }
  destruct (eqb c "n"%char) eqn:N; [apply eqb_true in N as ->; by apply (Hw _ _ E); [|repeat constructor]|].
  destruct (eqb c "t"%char) eqn:T; [apply eqb_true in T as ->; by apply (Hw _ _ E); [|repeat constructor]|].
  destruct (eqb c "f"%char) eqn:F; [apply eqb_true in F as ->; by apply (Hw _ _ E); [|repeat constructor]|].
  destruct (Json.scan_number (c :: s)) as [[t r1]|] eqn:E1; [|done]. injection E as <- ->. apply spot_word; [done| |by eapply number_word|done].
  rewrite Ed. by apply Json.scan_number_reads in E1 as [-> _].
Qed.

(** What follows a value up to a mark. *)
Lemma mark_after e x r : Json.expect x (Json.skip (drop e data)) = Some r → x ∈ Json.delimiters →
  Json.delimited (drop e data) ∧ data !! skipSpace data e = Some x ∧ drop (S (skipSpace data e)) data = r.
Proof.
  intros E Hx. pose proof E as E'%Json.expect_Some%skipSpace_lookup. split; [|done].
  destruct (Json.mark_local _ _ _ E) as (w & -> & Hw). by apply Json.space_delimited.
Qed.

Lemma after_end e x : data !! skipSpace data e = Some x → x ≠ ","%char → after data e = skipSpace data e.
Proof. intros H Hx. unfold after. rewrite H. destruct (eqb _ _) eqn:E; [|done]. by apply eqb_true in E as [= ->]. Qed.

Lemma after_comma e : data !! skipSpace data e = Some ","%char → after data e = skipSpace data (S (skipSpace data e)).
Proof. intros H. unfold after. by rewrite H, eqb_refl. Qed.

Lemma elements_step_spot f : value_spot f → elements_spot f → elements_spot (S f).
Proof.
  intros Hv He d j vs r. cbn [Json.elements]. destruct (Json.value f d (drop j data)) as [[v r1]|] eqn:E; [|done]. cbn [mbind option_bind]. intros H Hd.
  destruct (value_reads _ _ _ _ _ E Hd) as (e & -> & (_ & Hl & _) & _). destruct (Json.expect "]" (Json.skip (drop e data))) as [r2|] eqn:E2.
  - injection H as <- <-. destruct (mark_after _ _ _ E2) as (Hr & Hk & <-); [by apply (bool_decide_unpack _)|].
    exists (skipSpace data e), [(v, (j, e))]. split_and!; [done|by apply lookup_lt_Some in Hk|done|].
    apply spots_cons; [by apply (Hv d)|]. rewrite (after_end _ _ Hk) by done. by apply spots_end.
  - destruct (Json.expect "," _) as [r2|] eqn:E3; [|done]. cbn [mbind option_bind] in H.
    destruct (mark_after _ _ _ E3) as (Hr & Hk & <-); [by apply (bool_decide_unpack _)|]. rewrite <-(proj1 (skipSpace_drop _)) in H.
    destruct (Json.elements f d _) as [[ws r3]|] eqn:E4; [|done]. injection H as <- <-.
    destruct (He _ _ _ _ E4 Hd) as (k & lvs & -> & Hkl & <- & Hvs). exists k, ((v, (j, e)) :: lvs). split_and!; [done..|].
    apply spots_cons; [by apply (Hv d)|]. by rewrite after_comma.
Qed.

Lemma fields_step_spot f : value_spot f → fields_spot f → fields_spot (S f).
Proof.
  intros Hv Hf d j ms r. cbn [Json.fields]. destruct (Json.expect Json.quote (drop j data)) as [s1|] eqn:E0; [|done]. cbn [mbind option_bind].
  apply Json.expect_Some, drop_lookup in E0 as [Hq <-]. destruct (Json.scan_string (drop (S j) data)) as [[name s2]|] eqn:E1; [|done]. cbn [mbind option_bind].
  pose proof (string_end_spec _ _ _ (S j) E1) as Hke. fold (stringEnd data j) in Hke. set (ke := S j + length name + 1) in *.
  apply Json.scan_string_reads in E1 as [Es _].
  assert (Hname : slice data (S j) (ke - 1) = name).
  { unfold slice. replace (ke - 1 - S j) with (length name) by (unfold ke; lia). by rewrite Es, take_app_length. }
  assert (Hs2 : drop ke data = s2).
  { replace ke with (S j + length (name ++ [Json.quote])) by (unfold ke; rewrite length_app; cbn; lia). apply drop_over. by rewrite Es, <-(assoc_L (++)). }
  clear Es. subst s2. clearbody ke. destruct (Json.expect ":" _) as [s3|] eqn:E2; [|done]. cbn [mbind option_bind].
  apply Json.expect_Some, skipSpace_lookup in E2 as [Hm <-]. rewrite <-(proj1 (skipSpace_drop _)).
  set (j' := skipSpace data (S (skipSpace data ke))). destruct (Json.value f d (drop j' data)) as [[v r1]|] eqn:E; [|done]. cbn [mbind option_bind]. intros H Hd.
  destruct (value_reads _ _ _ _ _ E Hd) as (e & -> & (_ & Hl & _) & _). destruct (Json.expect "}" (Json.skip (drop e data))) as [r2|] eqn:E2.
  - injection H as <- <-. destruct (mark_after _ _ _ E2) as (Hr & Hk & <-); [by apply (bool_decide_unpack _)|].
    exists (skipSpace data e), [(name, v, (j', e))]. split_and!; [done|by apply lookup_lt_Some in Hk|done|].
    apply (fields_cons data _ j name ke j'); [done..|by apply (Hv d)|]. rewrite (after_end _ _ Hk) by done. by apply fields_end.
  - destruct (Json.expect "," _) as [r2|] eqn:E3; [|done]. cbn [mbind option_bind] in H.
    destruct (mark_after _ _ _ E3) as (Hr & Hk & <-); [by apply (bool_decide_unpack _)|]. rewrite <-(proj1 (skipSpace_drop _)) in H.
    destruct (Json.fields f d _) as [[ws r3]|] eqn:E4; [|done]. injection H as <- <-.
    destruct (Hf _ _ _ _ E4 Hd) as (k & lvs & -> & Hkl & <- & Hvs). exists k, ((name, v, (j', e)) :: lvs). split_and!; [done..|].
    apply (fields_cons data _ j name ke j'); [done..|by apply (Hv d)|]. by rewrite after_comma.
Qed.

(** A document that is one JSON value has it at its first byte that is no white space. *)
Lemma parse_spot v : Json.parse data = Some v → ∃ e, spot (skipSpace data 0) v e ∧ skipSpace data e = length data.
Proof.
  unfold Json.parse. destruct (Json.value _ _ (Json.skip data)) as [[v' r]|] eqn:E; [|done]. cbn [mbind option_bind].
  destruct (Json.skip r) eqn:Er; [|done]. intros [= ->].
  assert (Hf : ∀ f, value_spot f ∧ elements_spot f ∧ fields_spot f).
  { intros f. induction f as [|f (Hv & He & Hf)]; [by split_and!; intros ?|].
    split_and!; [by apply value_step_spot|by apply elements_step_spot|by apply fields_step_spot]. }
  rewrite <-(drop_0 data), <-(proj1 (skipSpace_drop 0)) in E. destruct (value_reads _ _ _ _ _ E) as (e & -> & (_ & Hl & _) & _); [done|].
  exists e. destruct (skipSpace_drop e) as [Hd _]. split.
  - eapply (proj1 (Hf _)); [exact E|done| |done]. destruct (Json.skip_split (drop e data)) as (w & Ew & Hw). rewrite Er, app_nil_r in Ew. rewrite Ew.
    destruct Hw as [|c w Hc _]; [done|]. apply (Json.space_delimited [] c w); [done|]. cbn. unfold Json.is_space in Hc. apply member_true in Hc.
    by repeat (apply elem_of_cons in Hc as [->|Hc]; [by apply (bool_decide_unpack _)|]); apply elem_of_nil in Hc.
  - rewrite Er in Hd. pose proof (skip_from_spec (drop e data) e) as H. fold (skipSpace data e) in H. rewrite Er, length_drop in H. cbn in H. lia.
Qed.

End parsed.

(** ** The ends of containers *)

Section ends.
Variable data : bytes.

(** The scan goes from one offset to another in no more turns than bytes. *)
Definition runs (i : nat) (open : list nat) (ends : gmap nat nat) (e : nat) (open' : list nat) (ends' : gmap nat nat) : Prop :=
  i ≤ e ∧ ∃ n, n ≤ e - i ∧ ∀ f, container_ends data (n + f) i open ends = container_ends data f e open' ends'.

Lemma runs_refl i o m : runs i o m i o m.
Proof. split; [done|]. exists 0. split; [lia|done]. Qed.

Lemma runs_trans i o m e o' m' k o'' m'' : runs i o m e o' m' → runs e o' m' k o'' m'' → runs i o m k o'' m''.
Proof.
  intros (H1 & n & Hn & H2) (H3 & n' & Hn' & H4). split; [lia|]. exists (n + n'). split; [lia|]. intros f.
  by rewrite <-Nat.add_assoc, H2, H4.
Qed.

Definition mark (c : ascii) : bool := member c [Json.quote; "{"; "["; "}"; "]"]%char.

Lemma runs_plain i c o m : data !! i = Some c → mark c = false → runs i o m (S i) o m.
Proof.
  intros Hc Hm. split; [lia|]. exists 1. split; [lia|]. intros f. cbn [Nat.add container_ends]. rewrite Hc.
  unfold mark in Hm. apply member_false in Hm. rewrite !not_elem_of_cons in Hm. destruct Hm as (H1 & H2 & H3 & H4 & H5 & _).
  rewrite (proj2 (eqb_false _ _)) by done. rewrite (proj2 (member_false c ["{"; "["]%char)), (proj2 (member_false c ["}"; "]"]%char)); [done|..];
    rewrite !not_elem_of_cons; (split_and!; [done..|apply not_elem_of_nil]).
Qed.

Lemma runs_text i e w o m : drop i data = w ++ drop e data → e = i + length w → Forall (λ c, mark c = false) w → runs i o m e o m.
Proof.
  revert i. induction w as [|c w IH]; intros i Hd -> Hw; [rewrite Nat.add_0_r; apply runs_refl|].
  apply Forall_cons in Hw as [Hc Hw]. destruct (drop_lookup _ _ _ _ Hd) as [H1 H2].
  eapply runs_trans; [by eapply runs_plain|]. apply IH; [done|cbn; lia|done].
Qed.

Lemma runs_space i o m : runs i o m (skipSpace data i) o m.
Proof.
  destruct (Json.skip_split (drop i data)) as (w & E & Hw). destruct (skipSpace_drop data i) as [Hd Hl].
  assert (He : skipSpace data i = i + length w).
  { pose proof (skip_from_spec (drop i data) i) as H. fold (skipSpace data i) in H. apply (f_equal length) in E. rewrite length_app in E. lia. }
  apply (runs_text _ _ w); [by rewrite Hd|done|]. eapply Forall_impl; [exact Hw|]. intros c Hc. unfold Json.is_space in Hc. apply member_true in Hc.
  by repeat (apply elem_of_cons in Hc as [->|Hc]; [done|]); apply elem_of_nil in Hc.
Qed.

Lemma runs_after e o m : runs e o m (after data e) o m.
Proof.
  unfold after. destruct (eqb _ _) eqn:E; [|apply runs_space]. apply (proj1 (eqb_true _ _)) in E.
  eapply runs_trans; [apply runs_space|]. eapply runs_trans; [apply (runs_plain _ ","%char); [exact E|reflexivity]|apply runs_space].
Qed.

Lemma runs_string i e o m : data !! i = Some Json.quote → stringEnd data i = Some e → i < e → runs i o m e o m.
Proof. intros Hc He Hi. split; [lia|]. exists 1. split; [lia|]. intros f. cbn [Nat.add container_ends]. by rewrite Hc, eqb_refl, He. Qed.

Lemma runs_open i c o m : data !! i = Some c → c = "{"%char ∨ c = "["%char → runs i o m (S i) (i :: o) m.
Proof. intros H Hc. split; [lia|]. exists 1. split; [lia|]. intros f. cbn [Nat.add container_ends]. rewrite H. destruct Hc as [->| ->]; reflexivity. Qed.

Lemma runs_close i c k o m : data !! i = Some c → c = "}"%char ∨ c = "]"%char → runs i (k :: o) m (S i) o (<[k := S i]> m).
Proof. intros H Hc. split; [lia|]. exists 1. split; [lia|]. intros f. cbn [Nat.add container_ends]. rewrite H. destruct Hc as [->| ->]; reflexivity. Qed.

Lemma string_end_past s i e : string_end s i = Some e → i < e.
Proof.
  remember (length s) as n eqn:Hn. revert s Hn i. induction (lt_wf n) as [n _ IH]. intros [|c s] -> i; [done|]. cbn [string_end].
  assert (IH' : ∀ s' i', length s' < length (c :: s) → string_end s' i' = Some e → i' < e) by (intros; by eapply IH).
  destruct (eqb c Json.quote); [intros [= <-]; lia|].
  destruct (eqb c Json.backslash); [destruct s as [|x s]; [done|]|]; intros H; apply IH' in H; cbn; lia.
Qed.

Notation blank := (λ _ _ : nat, True).
(** What the table says of the containers. *)
Notation held M := (λ i e : nat, M !! i = Some e).

(** The scan over a value leaves the offsets around it alone, and finds the end of every
    container inside. *)
Definition found (i e : nat) (located : (nat → nat → Prop) → Prop) : Prop :=
  i ≤ e ∧ ∀ o m, ∃ m', runs i o m e o m' ∧ (∀ a, a < i ∨ e ≤ a → m' !! a = m !! a)
    ∧ ∀ M : gmap nat nat, (∀ a, i ≤ a < e → M !! a = m' !! a) → located (held M).

Lemma found_seq i j e (P Q L : (nat → nat → Prop) → Prop) :
  (∀ M, P M → Q M → L M) → found i j P → found j e Q → found i e L.
Proof.
  intros HL [H1 HP] [H2 HQ]. split; [lia|]. intros o m. destruct (HP o m) as (m1 & R1 & S1 & T1). destruct (HQ o m1) as (m2 & R2 & S2 & T2).
  exists m2. split_and!; [by eapply runs_trans|intros a Ha; rewrite S2, S1; [done|lia..]|].
  intros M HM. apply HL; [apply T1|apply T2]; intros a Ha; [rewrite HM by lia; apply S2; lia|apply HM; lia].
Qed.

Lemma found_runs i e : (∀ o m, runs i o m e o m) → found i e (λ _, True).
Proof. intros H. split; [apply (H [] ∅)|]. intros o m. exists m. done. Qed.

Lemma found_container i j k c d (L L' : (nat → nat → Prop) → Prop) :
  data !! i = Some c → c = "{"%char ∨ c = "["%char → data !! k = Some d → d = "}"%char ∨ d = "]"%char →
  j = skipSpace data (S i) → found j k L → (∀ M, M i (S k) → L M → L' M) → found i (S k) L'.
Proof.
  intros Hc Hc' Hd Hd' -> [Hl HL] H. destruct (skipSpace_drop data (S i)) as [_ Hi]. split; [lia|]. intros o m. destruct (HL (i :: o) m) as (m' & R1 & S1 & T1).
  exists (<[i := S k]> m'). split_and!.
  - eapply runs_trans; [by eapply runs_open|]. eapply runs_trans; [apply runs_space|]. eapply runs_trans; [exact R1|]. by eapply runs_close.
  - intros a Ha. rewrite lookup_insert_ne by lia. apply S1. lia.
  - intros M HM. apply H; [rewrite HM by lia; apply lookup_insert_eq|]. apply T1. intros a Ha. rewrite HM by lia. by apply lookup_insert_ne; lia.
Qed.

Lemma spots_bracket R j vs k : spots data R j vs k → data !! k = Some "]"%char.
Proof. intros H. induction H; eauto. Qed.
Lemma fields_brace R j ms k : fields data R j ms k → data !! k = Some "}"%char.
Proof. intros H. induction H; eauto. Qed.

Lemma all_found :
  (∀ i v e, spot data blank i v e → found i e (λ M, spot data M i v e))
  ∧ (∀ j vs k, spots data blank j vs k → found j k (λ M, spots data M j vs k))
  ∧ (∀ j ms k, fields data blank j ms k → found j k (λ M, fields data M j ms k)).
Proof.
  apply (spot_induction data blank).
  - intros i v e Hr Hd Hw Hn. eapply found_seq; [|apply found_runs|by apply (found_runs e e); intros; apply runs_refl]; [intros; by apply spot_word|].
    intros o m. destruct Hr as (Hi & Hl & _). apply (runs_text _ _ _ _ _ Hd).
    + apply (f_equal length) in Hd. rewrite length_app, !length_drop in Hd. lia.
    + eapply Forall_impl; [exact Hw|]. intros c Hc. apply negb_true_iff, member_false in Hc. unfold mark. apply member_false. unfold Json.delimiters in Hc. cbn [app] in Hc. set_solver.
  - intros i body e Hr Hq He. eapply found_seq; [|apply found_runs|by apply (found_runs e e); intros; apply runs_refl]; [intros; by apply spot_string|].
    intros o m. by apply runs_string; [..|destruct Hr].
  - intros i raw items k Hr Hc _ Hs HF. eapply (found_container i _ k); [exact Hc|by right|by eapply spots_bracket|by right|done|exact HF|].
    intros M HM HL. by apply spot_array.
  - intros i raw ms k Hr Hc _ Hs HF. eapply (found_container i _ k); [exact Hc|by left|by eapply fields_brace|by left|done|exact HF|].
    intros M HM HL. by apply spot_object.
  - intros k Hk. eapply found_seq; [|apply (found_runs k k); intros; apply runs_refl..]. intros; by apply spots_end.
  - intros j v e vs k Hs Fs Hvs Fvs. eapply found_seq; [|exact Fs|eapply found_seq; [|apply (found_runs e (after data e)); intros; apply runs_after|exact Fvs]].
    + intros M H1 H2. exact (spots_cons _ _ _ _ _ _ _ H1 H2).
    + by intros.
  - intros k Hk. eapply found_seq; [|apply (found_runs k k); intros; apply runs_refl..]. intros; by apply fields_end.
  - intros j name ke j' v e ms k Hq Hke Hname Hm -> Hs Fs Hms Fms.
    set (j' := skipSpace data (S (skipSpace data ke))) in *.
    eapply (found_seq j j' k (λ _, True) (λ M, spot data M j' v e ∧ fields data M (after data e) ms k)); [|apply found_runs|eapply (found_seq j' e k); [|exact Fs|eapply found_seq; [|apply (found_runs e (after data e)); intros; apply runs_after|exact Fms]]].
    + intros M _ [H1 H2]. by apply (fields_cons _ _ j name ke j').
    + intros o m. eapply runs_trans; [apply (runs_string j ke); [done..|eapply string_end_past in Hke; lia]|].
      eapply runs_trans; [apply runs_space|]. eapply runs_trans; [by apply (runs_plain _ ":"%char)|apply runs_space].
    + intros M H1 H2. exact (conj H1 H2).
    + by intros.
Qed.

(** The table of a document that is one JSON value. *)
Lemma containerEnds_spot v : Json.parse data = Some v →
  ∃ ends e, containerEnds data = Some ends ∧ spot data (held ends) (skipSpace data 0) v e.
Proof.
  intros Hp. destruct (parse_spot data v Hp) as (e & Hs & He). destruct (proj1 all_found _ _ _ Hs) as [Hl Hf]. destruct (Hf [] ∅) as (m & Hr & _ & HM).
  exists m, e. split; [|by apply HM].
  assert (Hall : runs 0 [] ∅ (length data) [] m).
  { eapply runs_trans; [apply runs_space|]. eapply runs_trans; [exact Hr|]. rewrite <-He. apply runs_space. }
  destruct Hall as (_ & n & Hn & Hall). unfold containerEnds. replace (S (length data)) with (n + (S (length data) - n)) by lia. rewrite Hall.
  destruct (S (length data) - n) eqn:E; [lia|]. cbn [container_ends]. by rewrite lookup_ge_None_2.
Qed.
End ends.

(** ** What is written, and what is reported *)

(** The keys in [U], sorted by their offsets, which are between two offsets, are [paths]. *)
Definition tells (i e : nat) (U : list (nat * string)) (paths : list string) : Prop :=
  ∃ L, U ≡ₚ L ∧ snd <$> L = paths ∧ StronglySorted lt (fst <$> L) ∧ Forall (λ a, i ≤ a < e) (fst <$> L).

Lemma tells_nil i e : tells i e [] [].
Proof. exists []. split_and!; [done|done|constructor|constructor]. Qed.

Lemma tells_one i e a path : i ≤ a < e → tells i e [(a, path)] [path].
Proof. intros H. exists [(a, path)]. split_and!; [done|done|apply SSorted_cons; constructor|by apply Forall_singleton]. Qed.

Lemma tells_app i j j' e U V p q : tells i j U p → tells j' e V q → j ≤ j' → i ≤ j' → j ≤ e → tells i e (U ++ V) (p ++ q).
Proof.
  intros (L & HU & <- & HL & FL) (K & HV & <- & HK & FK) Hj Hi He. exists (L ++ K). split_and!.
  - by rewrite HU, HV.
  - by rewrite fmap_app.
  - rewrite fmap_app. apply StronglySorted_app. split_and!; [|done..]. intros a b Ha Hb. rewrite Forall_forall in FL. rewrite Forall_forall in FK. specialize (FL a Ha). specialize (FK b Hb). lia.
  - rewrite fmap_app. apply Forall_app. split; (eapply Forall_impl; [eassumption|]); cbn; lia.
Qed.

Lemma tells_wide i e i' e' U p : tells i e U p → i' ≤ i → e ≤ e' → tells i' e' U p.
Proof. intros (L & HU & HP & HL & FL) Hi He. exists L. split_and!; [done..|]. eapply Forall_impl; [exact FL|]. cbn. lia. Qed.

Lemma tells_perm i e U V p : U ≡ₚ V → tells i e V p → tells i e U p.
Proof. intros H (L & HV & ?). exists L. by rewrite H. Qed.

Lemma sorted_told (U L : list (nat * string)) : U ≡ₚ L → StronglySorted lt (fst <$> L) → merge_sort by_offset U = L.
Proof.
  intros HP HL. assert (HS : StronglySorted by_offset (merge_sort by_offset U)) by (apply StronglySorted_merge_sort; apply _).
  assert (HP' : merge_sort by_offset U ≡ₚ L) by by rewrite merge_sort_Permutation. clear HP. revert L HL HP'. induction HS as [|x S HS IH Hx]; intros L HL HP.
  { symmetry. by apply Permutation_nil. }
  destruct L as [|y L]; [by apply symmetry, Permutation_nil in HP|]. cbn in HL. apply StronglySorted_cons in HL as [Hy HL].
  assert (x = y) as ->.
  { assert (Hin : x ∈ y :: L) by (rewrite <-HP; by left). assert (Hin' : y ∈ x :: S) by (rewrite HP; by left).
    apply elem_of_cons in Hin as [->|Hin]; [done|]. apply elem_of_cons in Hin' as [->|Hin']; [done|].
    rewrite Forall_forall in Hx. rewrite Forall_forall in Hy. specialize (Hx y Hin'). unfold by_offset in Hx. specialize (Hy x.1 (list_elem_of_fmap_2 fst _ _ Hin)). lia. }
  f_equal. apply IH; [done|]. by apply Permutation_cons_inv in HP.
Qed.

(** The elements of an array and the members of an object, in [unknown_keys]. *)
Definition unknown_elements (t : gotype) (at_ : keyPath) : nat → list Json.json → list string :=
  fix elements (i : nat) (items : list Json.json) : list string :=
    match items with
    | [] => []
    | w :: items' => unknown_keys w t (Elem i :: at_) ++ elements (S i) items'
    end.

Definition unknown_member (n : struct_name) (at_ : keyPath) (m : bytes * Json.json) (ms : list (bytes * Json.json)) : list string :=
  let name := key_name m.1 in
  match last_member name (fieldsOf n) with
  | Some t => if member name ((λ m, key_name m.1) <$> ms) then [] else unknown_keys m.2 t (Key name :: at_)
  | None => if member name (ignoredKeysOf n) then [] else [path_text (Key name :: at_)]
  end.

Fixpoint unknown_members (n : struct_name) (at_ : keyPath) (ms : list (bytes * Json.json)) : list string :=
  match ms with
  | [] => []
  | m :: ms' => unknown_member n at_ m ms' ++ unknown_members n at_ ms'
  end.

Lemma unknown_array raw items t at_ : unknown_keys (Json.JArr raw items) (TSlice t) at_ = unknown_elements t at_ 0 items.
Proof. reflexivity. Qed.

Lemma unknown_object raw ms n at_ : unknown_keys (Json.JObj raw ms) (TStruct n) at_ = unknown_members n at_ ms.
Proof. cbn [unknown_keys]. induction ms as [|[k w] ms IH]; [done|]. cbn [unknown_members]. by rewrite <-IH. Qed.

(** Texts with commas between them, and before the first. *)
Fixpoint items_text (first : bool) (ts : list bytes) : bytes :=
  match ts with
  | [] => []
  | t :: ts => (if first then [] else [","%char]) ++ t ++ items_text false ts
  end.

Lemma items_joined ts : items_text true ts = Json.joined [","%char] ts.
Proof.
  assert (H : ∀ t ts, t ++ items_text false ts = Json.joined [","%char] (t :: ts)); [|by destruct ts as [|t ts]; [|apply H]].
  clear. intros t ts. revert t. induction ts as [|u ts IH]; intros t; [cbn; apply app_nil_r|]. rewrite Json.joined_cons by done. by rewrite <-IH.
Qed.

Section filtering.
Variable data : bytes.
Variable ends : gmap nat nat.
Notation held := (λ i e : nat, ends !! i = Some e).

Lemma word_end_spec w r i : Forall (λ c, word_char c = true) w → Json.delimited r → word_end (w ++ r) i = i + length w.
Proof.
  intros Hw Hr. revert i. induction Hw as [|c w Hc Hw IH]; intros i; cbn [app word_end length].
  - destruct r as [|c r]; cbn; [lia|]. rewrite (proj2 (member_true _ _)) by done. lia.
  - apply negb_true_iff, member_false in Hc. rewrite (proj2 (member_false _ _)), IH; [lia|]. intros H. apply Hc. apply elem_of_app. by right.
Qed.

Lemma word_head i v e : reads data i v e → drop i data = Json.compact v ++ drop e data → Forall (λ c, word_char c = true) (Json.compact v) →
  ∃ c w, Json.compact v = c :: w ∧ data !! i = Some c ∧ word_char c = true ∧ e = i + length (Json.compact v).
Proof.
  intros (Hi & Hl & _) Hd Hw. pose proof (f_equal length Hd) as HL. rewrite length_app, !length_drop in HL.
  destruct (Json.compact v) as [|c w]; [cbn in HL; lia|]. exists c, w. apply Forall_cons in Hw as [Hc _]. apply drop_lookup in Hd as [Hd _].
  split_and!; [done..|lia].
Qed.

Lemma valueEnd_spot i v e : spot data held i v e → valueEnd data ends i = Some e.
Proof.
  intros H. unfold valueEnd. destruct H as [i v e Hr Hd Hw Hn|i body e Hr Hq He|i raw items k Hr Hc HR _|i raw ms k Hr Hc HR _].
  - destruct (word_head _ _ _ Hr Hd Hw) as (c & w & _ & Hc & Hwc & ->). rewrite Hc. cbn [mbind option_bind].
    apply negb_true_iff, member_false in Hwc. cbn [app] in Hwc. rewrite !not_elem_of_cons in Hwc. destruct Hwc as (H1 & H2 & H3 & _).
    rewrite (proj2 (member_false c ["{"; "["]%char)), (proj2 (eqb_false _ _)) by (first [done|rewrite !not_elem_of_cons; split_and!; [done..|apply not_elem_of_nil]]).
    by rewrite Hd, word_end_spec.
  - rewrite Hq. exact He.
  - rewrite Hc. cbn [mbind option_bind]. by rewrite HR.
  - rewrite Hc. cbn [mbind option_bind]. by rewrite HR.
Qed.

Lemma next_spot i v e : spot data held i v e → is_Some (data !! after data e) → next data ends i = Some (after data e).
Proof.
  intros H [x Hx]. unfold next. rewrite (valueEnd_spot _ _ _ H). cbn [mbind option_bind].
  assert (is_Some (data !! skipSpace data e)) as [c E].
  { destruct (data !! skipSpace data e) as [c|] eqn:E; [by exists c|]. unfold after in Hx. rewrite E, (proj2 (eqb_false None _)), E in Hx by done. done. }
  unfold after. rewrite E. cbn [mbind option_bind]. destruct (decide (c = ","%char)) as [->|Hc]; [by rewrite !eqb_refl|].
  by rewrite (proj2 (eqb_false c _)), (proj2 (eqb_false (Some c) _)) by (first [done|by intros [= ->]]).
Qed.

Lemma leaf_spot i v e st : spot data held i v e → leaf data ends i st = Some (write (Json.compact v) st).
Proof.
  intros H. unfold leaf. rewrite (valueEnd_spot _ _ _ H). cbn [mbind option_bind].
  assert (reads data i v e) as (_ & _ & ->) by by destruct H. done.
Qed.

(** The filter writes a value compactly, without the members dropped. *)
Definition filtered (i : nat) (v : Json.json) (e : nat) : Prop :=
  ∀ fuel t at_, e - i ≤ fuel → ∃ U,
    (∀ st, value data ends fuel i t at_ st = Some (MkState (out st ++ Json.compact (filter_value v t)) (unknown st ++ U)))
    ∧ tells i e U (unknown_keys v t at_).

Lemma filtered_leaf i v e fuel t at_ : spot data held i v e → e - i ≤ fuel → filter_value v t = v → unknown_keys v t at_ = [] →
  (∀ fuel st, value data ends (S fuel) i t at_ st = leaf data ends i st) →
  ∃ U, (∀ st, value data ends fuel i t at_ st = Some (MkState (out st ++ Json.compact (filter_value v t)) (unknown st ++ U)))
    ∧ tells i e U (unknown_keys v t at_).
Proof.
  intros Hs Hf -> -> Hv. exists []. split; [|apply tells_nil]. intros st. assert (i < e) by by destruct Hs as [??? []|??? []|???? []|???? []].
  destruct fuel as [|fuel]; [lia|]. rewrite Hv, (leaf_spot _ _ _ _ Hs). unfold write. by rewrite app_nil_r.
Qed.

Notation spot := (spot data held).
Notation spots := (spots data held).
Notation fields := (fields data held).

Lemma spot_reads i v e : spot i v e → i < e ∧ e ≤ length data.
Proof. intros H. by destruct H as [???(?&?&_)|???(?&?&_)|????(?&?&_)|????(?&?&_)]. Qed.

Lemma after_past e : e ≤ after data e.
Proof.
  unfold after. destruct (skipSpace_drop data e) as [_ H]. destruct (eqb _ _); [|done].
  destruct (skipSpace_drop data (S (skipSpace data e))) as [_ H2]. lia.
Qed.

Lemma spots_past j vs k : spots j vs k → j ≤ k ∧ data !! k = Some "]"%char ∧ is_Some (data !! j).
Proof.
  intros H. induction H as [k Hk|j v e vs k Hs Hvs (IH & Hk & _)]; [by split_and!|].
  pose proof (after_past e). destruct (spot_reads _ _ _ Hs). split_and!; [lia|done|]. apply lookup_lt_is_Some_2. lia.
Qed.

Lemma fields_past j ms k : fields j ms k → j ≤ k ∧ data !! k = Some "}"%char ∧ is_Some (data !! j).
Proof.
  intros H. induction H as [k Hk|j name ke j' v e ms k Hq Hke Hn Hm -> Hs Hms (IH & Hk & _)]; [by split_and!|].
  pose proof (after_past e). destruct (spot_reads _ _ _ Hs). apply string_end_past in Hke.
  destruct (skipSpace_drop data ke) as [_ ?]. destruct (skipSpace_drop data (S (skipSpace data ke))) as [_ ?]. split_and!; [lia|done|done].
Qed.

(** The byte a value starts with is no closing bracket. *)
Lemma spot_opens j v e c : spot j v e → data !! j = Some c → c ≠ "]"%char.
Proof.
  intros H Hc. destruct H as [i v e Hr Hd Hw _|i body e _ Hq _|i raw items k _ Hq _ _|i raw ms k _ Hq _ _]; [|rewrite Hq in Hc; injection Hc as <-; done..].
  destruct (word_head _ _ _ Hr Hd Hw) as (c' & w & _ & Hc' & Hwc & _). by replace c with c' by congruence; intros ->.
Qed.

Lemma items_written j vs k t at_ fuel start : spots j vs k → Forall (λ x, filtered x.2.1 x.1 x.2.2) vs → k - j ≤ fuel → start ≤ j →
  ∀ lf n, k - j < lf → ∃ U,
    (∀ st, array_items data ends (value data ends fuel) lf t at_ start j n st
      = Some (MkState (out st ++ items_text (eqb j start) ((λ x, Json.compact (filter_value x.1 t)) <$> vs)) (unknown st ++ U)))
    ∧ tells j k U (unknown_elements t at_ n (fst <$> vs)).
Proof.
  intros H. induction H as [k Hk|j v e vs k Hs Hvs IH]; intros HF Hf Hst lf n Hlf; (destruct lf as [|lf]; [lia|]).
  - exists []. split; [|apply tells_nil]. intros st. cbn [array_items]. rewrite Hk. cbn [mbind option_bind]. rewrite eqb_refl. cbn [fmap list_fmap items_text].
    rewrite !app_nil_r. by destruct st.
  - apply Forall_cons in HF as [HP HF]. cbn [fst snd] in HP. destruct (spot_reads _ _ _ Hs) as [Hj He]. pose proof (after_past e) as Ha.
    destruct (spots_past _ _ _ Hvs) as (Hk & _ & Hx). destruct (IH HF ltac:(lia) ltac:(lia) lf (S n) ltac:(lia)) as (U & HU & TU).
    destruct (HP fuel t (Elem n :: at_) ltac:(lia)) as (V & HV & TV). exists (V ++ U). split.
    + intros st. cbn [array_items]. destruct (lookup_lt_is_Some_2 data j ltac:(lia)) as [c Hc]. rewrite Hc. cbn [mbind option_bind].
      rewrite (proj2 (eqb_false c _)) by by eapply spot_opens. rewrite HV. cbn [mbind option_bind]. rewrite (next_spot _ _ _ Hs Hx). cbn [mbind option_bind].
      rewrite HU. cbn [fmap list_fmap items_text fst]. rewrite (proj2 (eqb_false (after data e) start)) by lia.
      f_equal. destruct (eqb j start); cbn [out unknown write]; f_equal; by rewrite <-!(assoc_L (++)).
    + cbn [fmap list_fmap fst unknown_elements]. fold (unknown_elements t at_). by eapply tells_app; [exact TV|exact TU|lia..].
Qed.

(** ** Objects *)

Notation member_of := (placed (bytes * Json.json)).
Definition name_of (m : member_of) : string := key_name m.1.1.

(** The members by name: their offsets, and their values with them. *)
Definition offsets (ms : list member_of) : list (string * nat) := (λ m, (name_of m, m.2.1)) <$> ms.
Definition located (ms : list member_of) : list (string * (nat * Json.json)) := (λ m, (name_of m, (m.2.1, m.1.2))) <$> ms.

Lemma last_member_None {A} name (ms : list (string * A)) : last_member name ms = None ↔ name ∉ ms.*1.
Proof.
  induction ms as [|[k v] ms IH]; cbn; [split; [intros _; apply not_elem_of_nil|done]|]. rewrite not_elem_of_cons, <-IH.
  destruct (last_member name ms); [by split; [|intros []]|]. destruct (eqb k name) eqn:E.
  - apply (proj1 (eqb_true _ _)) in E as ->. split; [done|]. by intros [].
  - apply (proj1 (eqb_false _ _)) in E. split; [|done]. intros _. split; [by intros ->|done].
Qed.

Lemma last_member_Some {A} name (ms : list (string * A)) v : last_member name ms = Some v → (name, v) ∈ ms.
Proof.
  induction ms as [|[k w] ms IH]; cbn; [done|]. destruct (last_member name ms); [intros [= ->]; right; by apply IH|].
  destruct (eqb k name) eqn:E; [|done]. apply (proj1 (eqb_true _ _)) in E as ->. intros [= ->]. by left.
Qed.

Lemma offsets_located name ms : last_member name (offsets ms) = fst <$> last_member name (located ms).
Proof. rewrite <-last_member_fmap. unfold offsets, located. f_equal. by rewrite <-list_fmap_compose. Qed.

Lemma named_located name ms : last_member name (named (fst <$> ms)) = snd <$> last_member name (located ms).
Proof. rewrite <-last_member_fmap. unfold named, located. f_equal. by rewrite <-!list_fmap_compose. Qed.

Lemma index_of_None name fs : index_of name fs = None ↔ name ∉ fs.*1.
Proof.
  unfold index_of. rewrite fmap_None, list_find_None, Forall_forall. split.
  - intros H (f & -> & Hf)%list_elem_of_fmap. by apply (H f).
  - intros H f Hf E. apply H. rewrite <-E. by apply list_elem_of_fmap_2.
Qed.

(** The offsets of the last members after the first loop. *)
Definition lasts (fs : list (string * gotype)) (ms : list member_of) (last : list (option nat)) : list (option nat) :=
  zip_with (λ f o, match last_member f.1 (offsets ms) with Some a => Some a | None => o end) fs last.

Lemma lasts_insert fs name k a ms last : NoDup fs.*1 → index_of name fs = Some k → length last = length fs →
  lasts fs ms (<[k := Some a]> last)
  = zip_with (λ f o, match last_member f.1 (offsets ms) with Some b => Some b | None => if eqb name f.1 then Some a else o end) fs last.
Proof.
  intros Hn Hk Hl. unfold index_of in Hk. apply fmap_Some in Hk as ([k' f] & Hk & ->). apply list_find_Some in Hk as (Hf & Hname & _). cbn [fst].
  unfold lasts. apply list_eq. intros b. rewrite !lookup_zip_with. destruct (fs !! b) as [g|] eqn:Eg; [|done]. cbn [mbind option_bind].
  destruct (decide (b = k')) as [->|Hb].
  - replace g with f by congruence. rewrite list_lookup_insert_eq by (rewrite Hl; by eapply lookup_lt_Some).
    destruct (lookup_lt_is_Some_2 last k') as [o Ho]; [rewrite Hl; by eapply lookup_lt_Some|]. rewrite Ho. cbn [mbind option_bind].
    rewrite Hname, eqb_refl. done.
  - rewrite list_lookup_insert_ne by done. destruct (last !! b) as [o|]; [|done]. cbn [mbind option_bind].
    rewrite (proj2 (eqb_false name g.1)); [done|]. intros E. apply Hb. eapply NoDup_lookup; [exact Hn|rewrite list_lookup_fmap, Eg; done|].
    rewrite list_lookup_fmap, Hf. cbn. by rewrite Hname, E.
Qed.

(** The keys an object drops, by the offsets of their values. *)
Definition dropped (n : struct_name) (at_ : keyPath) (ms : list member_of) : list (nat * string) :=
  omap (λ m, match index_of (name_of m) (fieldsOf n) with
             | Some _ => None
             | None => if member (name_of m) (ignoredKeysOf n) then None else Some (m.2.1, path_text (Key (name_of m) :: at_))
             end) ms.

Lemma members_read n at_ j ms k : fields j ms k → ∀ lf last st, k - j < lf → length last = length (fieldsOf n) →
  object_members data ends lf n at_ j last st = Some (lasts (fieldsOf n) ms last, MkState (out st) (unknown st ++ dropped n at_ ms)).
Proof.
  intros H. induction H as [k Hk|j name ke j' v e ms k Hq Hke Hn Hm -> Hs Hms IH]; intros lf last st Hlf Hl; (destruct lf as [|lf]; [lia|]); cbn [object_members].
  - rewrite Hk. cbn [mbind option_bind]. rewrite eqb_refl. cbn [dropped omap list_omap]. rewrite app_nil_r. f_equal. f_equal; [|by destruct st].
    unfold lasts. cbn. clear -Hl. revert last Hl. generalize (fieldsOf n). intros fs. induction fs as [|f fs IH]; intros [|o last] Hl; try done. cbn. f_equal. apply IH. by injection Hl.
  - rewrite Hq. cbn [mbind option_bind]. change (eqb Json.quote "}"%char) with false. cbn [mbind option_bind]. rewrite Hke. cbn [mbind option_bind].
    set (j' := skipSpace data (S (skipSpace data ke))) in *.
    destruct (fields_past _ _ _ Hms) as (Hk & _ & Hx). pose proof (spot_reads _ _ _ Hs) as [Hj' _]. pose proof (after_past e).
    assert (j < j').
    { apply string_end_past in Hke. destruct (skipSpace_drop data ke) as [_ ?]. destruct (skipSpace_drop data (S (skipSpace data ke))) as [_ ?]. unfold j'. lia. }
    pose proof (next_spot _ _ _ Hs Hx) as Hnext. cbn zeta. set (m := (name, v, (j', e))) in *. assert (Hkey : key data j ke = name_of m) by (unfold key; by rewrite Hn). rewrite Hkey.
    assert (Hd : dropped n at_ (m :: ms) = match index_of (name_of m) (fieldsOf n) with
      | Some _ => [] | None => if member (name_of m) (ignoredKeysOf n) then [] else [(j', path_text (Key (name_of m) :: at_))] end ++ dropped n at_ ms).
    { unfold dropped. cbn [omap list_omap]. destruct (index_of _ _); [done|]. by destruct (member _ _). }
    assert (Hlast : lasts (fieldsOf n) (m :: ms) last = zip_with (λ f o, match last_member f.1 (offsets ms) with Some b => Some b | None => if eqb (name_of m) f.1 then Some j' else o end) (fieldsOf n) last).
    { unfold lasts. apply zip_with_ext; [|done..]. intros f o. change (offsets (m :: ms)) with ((name_of m, j') :: offsets ms). cbn [last_member]. destruct (last_member f.1 (offsets ms)); [done|]. by destruct (eqb (name_of m) f.1). }
    rewrite Hd, Hlast. destruct (index_of (name_of m) (fieldsOf n)) as [x|] eqn:Ei.
    + rewrite Hnext. cbn [mbind option_bind]. rewrite IH by (try rewrite length_insert; try done; lia). by rewrite (lasts_insert _ (name_of m)) by (try done; apply field_names).
    + assert (Hsame : zip_with (λ f o, match last_member f.1 (offsets ms) with Some b => Some b | None => if eqb (name_of m) f.1 then Some j' else o end) (fieldsOf n) last
        = lasts (fieldsOf n) ms last).
      { unfold lasts. apply list_eq. intros b. rewrite !lookup_zip_with. destruct (fieldsOf n !! b) as [f|] eqn:Ef; [|done]. cbn [mbind option_bind].
        rewrite (proj2 (eqb_false (name_of m) f.1)); [done|]. intros E. apply index_of_None in Ei. apply Ei. rewrite E. apply list_elem_of_fmap_2. by eapply list_elem_of_lookup_2. }
      rewrite Hsame. destruct (member (name_of m) (ignoredKeysOf n)); rewrite Hnext; cbn [mbind option_bind]; rewrite IH by (try done; lia); cbn [out unknown drop_key]; by rewrite <-?(assoc_L (++)).
Qed.

(** The fields written, each by what its last member gives. *)
Definition gives (fuel : nat) (at_ : keyPath) (ms : list member_of) (g : string → list (nat * string)) (f : string * gotype) : Prop :=
  match last_member f.1 (located ms) with
  | Some (a, w) => ∀ st, value data ends fuel a f.2 (Key f.1 :: at_) st
      = Some (MkState (out st ++ Json.compact (filter_value w f.2)) (unknown st ++ g f.1))
  | None => g f.1 = []
  end.

Definition member_texts (fs : list (string * gotype)) (ms : list member_of) : list bytes :=
  omap (λ f, w ← last_member f.1 (named (fst <$> ms)); Some (Json.compact_member (bytes_of f.1, filter_value w f.2))) fs.

Lemma members_written fuel at_ ms g fs : Forall (gives fuel at_ ms g) fs → ∀ first st,
  write_members (value data ends fuel) at_ fs ((λ f, last_member f.1 (offsets ms)) <$> fs) first st
  = Some (MkState (out st ++ items_text first (member_texts fs ms)) (unknown st ++ concat ((λ f, g f.1) <$> fs))).
Proof.
  induction 1 as [|f fs Hf Hfs IH]; intros first st.
  { cbn. rewrite !app_nil_r. by destruct st. }
  cbn [fmap list_fmap write_members concat]. unfold member_texts. cbn [omap list_omap]. fold (member_texts fs ms).
  unfold gives in Hf. rewrite offsets_located, named_located. destruct (last_member f.1 (located ms)) as [[a w]|]; cbn [fmap option_fmap option_map fst snd mbind option_bind].
  - rewrite Hf. cbn [mbind option_bind]. rewrite IH. cbn [out unknown]. f_equal. cbn [items_text]. unfold Json.compact_member. cbn [fst snd].
    f_equal; [|by rewrite (assoc_L (++)); destruct first]. destruct first; cbn [out write app]; rewrite <-!(assoc_L (++)); cbn [app]; by rewrite <-!(assoc_L (++)).
  - rewrite IH, Hf. done.
Qed.

Lemma lasts_none fs ms : lasts fs ms ((λ _, None) <$> fs) = (λ f, last_member f.1 (offsets ms)) <$> fs.
Proof. unfold lasts. induction fs as [|f fs IH]; [done|]. cbn. rewrite IH. f_equal. by destruct (last_member f.1 (offsets ms)). Qed.

(** One field more gives its keys, wherever the field stands. *)
Lemma concat_one (fs : list (string * gotype)) name t (g g' : string → list (nat * string)) U :
  NoDup fs.*1 → (name, t) ∈ fs → g name = [] → g' name = U → (∀ x, x ≠ name → g' x = g x) →
  concat ((λ f, g' f.1) <$> fs) ≡ₚ U ++ concat ((λ f, g f.1) <$> fs).
Proof.
  intros Hn Hin Hg Hg' Hx. induction fs as [|f fs IH]; [by apply elem_of_nil in Hin|]. cbn [fmap list_fmap concat] in *. apply NoDup_cons in Hn as [Hf Hn].
  apply elem_of_cons in Hin as [<-|Hin].
  - cbn [fst] in *. rewrite Hg', Hg. cbn [app]. apply Permutation_app_head.
    assert ((λ f, g' f.1) <$> fs = (λ f, g f.1) <$> fs) as ->; [|done].
    apply list_fmap_ext. intros b f' Hf'. apply Hx. intros E. apply Hf. rewrite <-E. apply list_elem_of_fmap_2. by eapply list_elem_of_lookup_2.
  - rewrite IH by done. assert (f.1 ≠ name) by (intros E; apply Hf; rewrite E; by apply (list_elem_of_fmap_2 fst _ (name, t))).
    rewrite Hx by done. rewrite !(assoc_L (++)). apply Permutation_app_tail. apply Permutation_app_comm.
Qed.

Lemma located_names ms : (located ms).*1 = (λ m, key_name m.1) <$> (fst <$> ms).
Proof. unfold located. by rewrite <-!list_fmap_compose. Qed.

Lemma members_told n at_ fuel j ms k : fields j ms k → Forall (λ x, filtered x.2.1 x.1.2 x.2.2) ms → k - j ≤ fuel →
  ∃ g, Forall (gives fuel at_ ms g) (fieldsOf n)
    ∧ tells j k (dropped n at_ ms ++ concat ((λ f, g f.1) <$> fieldsOf n)) (unknown_members n at_ (fst <$> ms)).
Proof.
  intros H. induction H as [k Hk|j name ke j' v e ms k Hq Hke Hn Hm Ej Hs Hms IH]; intros HF Hf.
  { exists (λ _, []). split; [by apply Forall_forall|]. replace (concat _) with (@nil (nat * string)); [apply tells_nil|]. by induction (fieldsOf n). }
  apply Forall_cons in HF as [HP HF]. cbn [fst snd] in HP. destruct (spot_reads _ _ _ Hs) as [Hj' _]. pose proof (after_past e) as Ha. destruct (fields_past _ _ _ Hms) as (Hk & _).
  assert (j < j').
  { apply string_end_past in Hke. destruct (skipSpace_drop data ke) as [_ ?]. destruct (skipSpace_drop data (S (skipSpace data ke))) as [_ ?]. lia. }
  destruct (IH HF ltac:(lia)) as (g & Hg & Tg). set (m := (name, v, (j', e))). set (N := name_of m).
  assert (Hd : dropped n at_ (m :: ms) = match index_of N (fieldsOf n) with
    | Some _ => [] | None => if member N (ignoredKeysOf n) then [] else [(j', path_text (Key N :: at_))] end ++ dropped n at_ ms).
  { unfold dropped. cbn [omap list_omap]. fold N. destruct (index_of _ _); [done|]. by destruct (member _ _). }
  assert (Hl : ∀ x, last_member x (located (m :: ms)) = match last_member x (located ms) with Some y => Some y | None => if eqb N x then Some (j', v) else None end) by done.
  cbn [fmap list_fmap unknown_members]. unfold unknown_member. change (key_name (m.1).1) with N. rewrite <-located_names. rewrite Hd.
  pose proof (field_names n) as HN. destruct (last_member N (fieldsOf n)) as [t|] eqn:Et.
  - pose proof (last_member_Some _ _ _ Et) as Hin. assert (index_of N (fieldsOf n) ≠ None) as Hix.
    { rewrite index_of_None. intros Hni. apply Hni. by apply (list_elem_of_fmap_2 fst _ (N, t)). }
    destruct (index_of N (fieldsOf n)) as [x|]; [|done]. destruct (member N (located ms).*1) eqn:Em.
    + apply member_true in Em. exists g. split; [|cbn [app]; by eapply tells_wide; [exact Tg|lia..]].
      eapply Forall_impl; [exact Hg|]. intros f Hgf. unfold gives in *. rewrite Hl. destruct (last_member f.1 (located ms)) eqn:El; [done|].
      rewrite (proj2 (eqb_false N f.1)); [done|]. intros ->. by apply last_member_None in El.
    + apply member_false, last_member_None in Em. destruct (HP fuel t (Key N :: at_) ltac:(lia)) as (U & HU & TU).
      exists (λ x, if eqb x N then U else g x). split.
      * apply Forall_forall. intros f Hf'. rewrite Forall_forall in Hg. specialize (Hg f Hf'). unfold gives in *. rewrite Hl.
        destruct (eqb f.1 N) eqn:EN.
        { apply (proj1 (eqb_true _ _)) in EN. rewrite EN, Em, eqb_refl. intros st. assert (f.2 = t) as ->; [|exact (HU st)].
          rewrite NoDup_alt in HN. apply list_elem_of_lookup in Hf' as [a Hfa]. apply list_elem_of_lookup in Hin as [b Hb].
          assert (a = b) as -> by (eapply HN; rewrite list_lookup_fmap; [by rewrite Hfa|rewrite Hb; cbn; by rewrite EN]). rewrite Hfa in Hb. by injection Hb as ->. }
        apply (proj1 (eqb_false _ _)) in EN. rewrite (proj2 (eqb_false N f.1)) by by intros E. by destruct (last_member f.1 (located ms)) as [[]|].
      * eapply tells_perm; [|eapply (tells_app j e (after data e)); [|exact Tg|lia..]].
        -- rewrite (concat_one _ N t g (λ x, if eqb x N then U else g x) U HN Hin); [| |by rewrite eqb_refl|intros x' Hx'; by rewrite (proj2 (eqb_false x' N))].
           ++ cbn [app]. rewrite !(assoc_L (++)). apply Permutation_app_tail, Permutation_app_comm.
           ++ rewrite Forall_forall in Hg. specialize (Hg _ Hin). unfold gives in Hg. cbn [fst] in Hg. by rewrite Em in Hg.
        -- by eapply tells_wide; [exact TU|lia..].
  - assert (index_of N (fieldsOf n) = None) as -> by by apply index_of_None, last_member_None. exists g. split.
    + apply Forall_forall. intros f Hf'. rewrite Forall_forall in Hg. specialize (Hg f Hf'). unfold gives in *. rewrite Hl.
      rewrite (proj2 (eqb_false N f.1)); [by destruct (last_member f.1 (located ms)) as [[]|]|]. intros E. apply last_member_None in Et. apply Et. rewrite E. by apply list_elem_of_fmap_2.
    + rewrite <-(assoc_L (++)). destruct (member N (ignoredKeysOf n)).
      * by eapply tells_wide; [exact Tg|lia..].
      * eapply (tells_app j e (after data e)); [apply tells_one; lia|exact Tg|lia..].
Qed.

Lemma all_filtered :
  (∀ i v e, spot i v e → filtered i v e)
  ∧ (∀ j vs k, spots j vs k → Forall (λ x, filtered x.2.1 x.1 x.2.2) vs)
  ∧ (∀ j ms k, fields j ms k → Forall (λ x, filtered x.2.1 x.1.2 x.2.2) ms).
Proof.
  apply (spot_induction data held).
  - intros i v e Hr Hd Hw Hn fuel t at_ Hf. pose proof (spot_word data held i v e Hr Hd Hw Hn) as Hs.
    destruct (word_head _ _ _ Hr Hd Hw) as (c & w & Ec & Hc & Hwc & _).
    assert (Hv : match v with Json.JArr _ _ | Json.JObj _ _ => False | _ => True end) by (destruct v; try done; injection Ec as <- _; done).
    assert (Ho : c ≠ "{"%char ∧ c ≠ "["%char) by (split; by intros ->). destruct Ho as [Ho Ha].
    apply filtered_leaf; [done|done|by destruct v|by destruct v|]. intros fu st. cbn [value]. rewrite Hc. cbn [mbind option_bind].
    rewrite (proj2 (eqb_false c "{"%char) Ho), (proj2 (eqb_false c "["%char) Ha). by destruct t.
  - intros i body e Hr Hq He fuel t at_ Hf. pose proof (spot_string data held i body e Hr Hq He) as Hs.
    apply filtered_leaf; [done..|]. intros fu st. cbn [value]. rewrite Hq. by destruct t.
  - intros i raw items k Hr Hc HR Hs HF fuel t at_ Hf. pose proof (spot_array data held i raw items k Hr Hc HR Hs) as Hsp.
    destruct t as [|n|t]; [apply filtered_leaf; [done..|]; intros fu st; cbn [value]; by rewrite Hc| |].
    { apply filtered_leaf; [done..|]. intros fu st. cbn [value]. by rewrite Hc. }
    destruct (spots_past _ _ _ Hs) as (Hk & _ & _). destruct (skipSpace_drop data (S i)) as [_ Hi]. pose proof (spot_reads _ _ _ Hsp) as [Hik Hlen].
    destruct fuel as [|fuel]; [lia|].
    destruct (items_written _ _ _ t at_ fuel (skipSpace data (S i)) Hs HF ltac:(lia) ltac:(lia) (S (length data)) 0 ltac:(lia)) as (U & HU & TU).
    exists U. split.
    + intros st. cbn [value]. rewrite Hc. cbn [mbind option_bind]. rewrite eqb_refl, HU. cbn [mbind option_bind]. unfold write. cbn [out unknown]. f_equal. f_equal.
      cbn [filter_value Json.compact array]. rewrite eqb_refl, items_joined, <-!(assoc_L (++)). cbn [app]. f_equal. f_equal. rewrite map_map.
      f_equal. f_equal. rewrite <-list_fmap_compose. reflexivity.
    + rewrite unknown_array. by eapply tells_wide; [exact TU|lia..].
  - intros i raw ms k Hr Hc HR Hs HF fuel t at_ Hf. pose proof (spot_object data held i raw ms k Hr Hc HR Hs) as Hsp.
    destruct t as [|n|t]; [apply filtered_leaf; [done..|]; intros fu st; cbn [value]; by rewrite Hc| |].
    2: { apply filtered_leaf; [done..|]. intros fu st. cbn [value]. by rewrite Hc. }
    destruct (fields_past _ _ _ Hs) as (Hk & _ & _). destruct (skipSpace_drop data (S i)) as [_ Hi]. pose proof (spot_reads _ _ _ Hsp) as [Hik Hlen].
    destruct fuel as [|fuel]; [lia|]. destruct (members_told n at_ fuel _ _ _ Hs HF ltac:(lia)) as (g & Hg & Tg).
    exists (dropped n at_ ms ++ concat ((λ f, g f.1) <$> fieldsOf n)). split.
    + intros st. cbn [value]. rewrite Hc. cbn [mbind option_bind]. rewrite eqb_refl.
      rewrite (members_read _ _ _ _ _ Hs) by (try (rewrite length_fmap; done); lia). cbn [mbind option_bind].
      rewrite lasts_none, (members_written _ _ _ _ _ Hg). cbn [mbind option_bind]. unfold write. cbn [out unknown]. f_equal. f_equal; [|by rewrite (assoc_L (++))].
      rewrite filter_object. cbn [Json.compact object]. rewrite items_joined, <-!(assoc_L (++)). cbn [app]. f_equal. f_equal. f_equal. f_equal.
      unfold member_texts, kept. clear. induction (fieldsOf n) as [|f fs IH]; [done|]. cbn [omap list_omap]. destruct (last_member f.1 _); cbn [mbind option_bind]; [cbn [map]; by rewrite <-IH|done].
    + rewrite unknown_object. by eapply tells_wide; [exact Tg|lia..].
  - constructor.
  - intros j v e vs k Hs Fs Hvs Fvs. by constructor.
  - constructor.
  - intros j name ke j' v e ms k _ _ _ _ _ Hs Fs Hms Fms. by constructor.
Qed.

End filtering.

(** C31: The filter over the text of a document writes the compact text of the value filtered, which
    is decoded next, and reports the keys it has dropped in the order of the document: the
    table of ends, the offsets and the sorting are those of the value. A document that is no
    JSON value is refused. *)
Theorem filter_exact_text data t :
  decodeReporting data t = (λ v, (Json.compact (filter_value v t), unknown_keys v t [])) <$> Json.parse data.
Proof.
  unfold decodeReporting. destruct (Json.parse data) as [v|] eqn:Ep; [|done]. cbn [mbind option_bind fmap option_fmap option_map].
  destruct (containerEnds_spot data v Ep) as (ends & e & -> & Hs). cbn [mbind option_bind].
  destruct (proj1 (all_filtered data ends) _ _ _ Hs (S (length data)) t []) as (U & HU & L & HL & HL1 & HL2 & _).
  { assert (e ≤ length data) by (by destruct Hs as [???(?&?&_)|???(?&?&_)|????(?&?&_)|????(?&?&_)]). lia. }
  rewrite HU. cbn [mbind option_bind out unknown app]. by rewrite (sorted_told U L HL HL2), HL1.
Qed.

End ExactFilter.
