(* ===== verification/TenantState.v ===== *)
(** * One tenant of an export ([internal/policyir/export.go])

    The state the loops of [FromRegular] leave one tenant in is a function of its own
    elements with their positions, and of the positions only the texts that name them
    depend. *)
From S2P Require Import Prelude GoText Json Encoding Lexemes Condition PolicyTree ConditionParser TenantExport.
Import GoText Encoding Lexemes Condition PolicyTree ConditionParser TenantExport.

Module TenantState.

Section state.
Context {table : UnicodeTable} {pc : PathCompiler}.

(** ** One tenant *)

(** The elements of a tenant, and the same with their positions. *)
Definition own (id : string) (raws : list json) : list json := filter (λ raw, tenant_of raw = Some id) raws.

Definition own_from (id : string) (i : nat) (raws : list json) : list (nat * json) :=
  filter (λ p, tenant_of p.2 = Some id) (imap (λ j raw, (i + j, raw)) raws).

Definition turns (step : nat → json → tenant → tenant) (t : tenant) (l : list (nat * json)) : tenant :=
  foldl (λ t p, step p.1 p.2 t) t l.

(** The state the loops leave a tenant in, given its elements. *)
Definition state_of (id : string) (sets pips : list (nat * json)) : tenant :=
  turns pip_step
    (turns (set_step id) (turns (λ _ raw, count_set (H_ID (readHead raw))) new_tenant sets) sets) pips.

Lemma own_from_cons id i raw raws :
  own_from id i (raw :: raws)
  = (if decide (tenant_of raw = Some id) then [(i, raw)] else []) ++ own_from id (S i) raws.
Proof.
  unfold own_from. cbn [imap]. rewrite filter_cons. cbn [snd]. rewrite Nat.add_0_r.
  assert (imap ((λ j r, (i + j, r)) ∘ S) raws = imap (λ j r, (S i + j, r)) raws) as ->
    by (apply imap_ext; intros; simpl; by rewrite Nat.add_succ_r).
  by case_decide.
Qed.

Lemma own_from_snd id i raws : (own_from id i raws).*2 = own id raws.
Proof.
  revert i. induction raws as [|raw raws IH]; intros i; [done|].
  rewrite own_from_cons, fmap_app, IH. unfold own. rewrite filter_cons. by case_decide.
Qed.

Lemma visit_lookup k step id i raws st :
  (visit_all (visit k step) i raws st).1 !! id
  = match own_from id i raws with
    | [] => st.1 !! id
    | l => Some (turns (step id) (default new_tenant (st.1 !! id)) l)
    end.
Proof.
  revert i st. induction raws as [|raw raws IH]; intros i st; [done|].
  cbn [visit_all]. rewrite IH, own_from_cons. unfold visit.
  destruct (tenant_of raw) as [id'|] eqn:Et; cbn [fst]; case_decide as Hd; try discriminate.
  - injection Hd as ->. rewrite lookup_insert_eq. cbn [default].
    by destruct (own_from id (S i) raws).
  - rewrite lookup_insert_ne by by intros ->. by destruct (own_from id (S i) raws).
  - by destruct (own_from id (S i) raws).
Qed.

Lemma read_elements_lookup sets pips id :
  (read_elements sets pips).1 !! id
  = match own id sets, own id pips with
    | [], [] => None
    | _, _ => Some (state_of id (own_from id 0 sets) (own_from id 0 pips))
    end.
Proof.
  unfold read_elements, state_of. rewrite <-(own_from_snd id 0 sets), <-(own_from_snd id 0 pips).
  rewrite !visit_lookup. cbn [fst]. rewrite !visit_lookup. cbn [fst]. rewrite lookup_empty.
  by destruct (own_from id 0 sets), (own_from id 0 pips).
Qed.

(** The elements without a tenant. *)
Lemma visit_orphans k step i raws st x :
  x ∈ (visit_all (visit k step) i raws st).2 ↔
  x ∈ st.2 ∨ ∃ j raw, x = (k, i + j) ∧ raws !! j = Some raw ∧ tenant_of raw = None.
Proof.
  revert i st. induction raws as [|raw raws IH]; intros i st; cbn [visit_all].
  { split; [auto|]. intros [?|(j & raw & _ & H & _)]; [done|]. by rewrite lookup_nil in H. }
  rewrite IH. assert (x ∈ (visit k step i raw st).2 ↔ x ∈ st.2 ∨ x = (k, i) ∧ tenant_of raw = None) as ->.
  { unfold visit. destruct (tenant_of raw); cbn [snd]; [|rewrite elem_of_app, list_elem_of_singleton]; naive_solver. }
  split.
  - intros [[H|[-> H]]|(j & r & -> & Hj & H)]; [auto| |].
    + right. exists 0, raw. by rewrite Nat.add_0_r.
    + right. exists (S j), r. by rewrite Nat.add_succ_r.
  - intros [H|([|j] & r & -> & Hj & H)]; [auto| |]; cbn in Hj.
    + injection Hj as ->. left. right. by rewrite Nat.add_0_r.
    + right. exists j, r. by rewrite Nat.add_succ_r.
Qed.

Lemma read_elements_orphans sets pips k i :
  (k, i) ∈ (read_elements sets pips).2 ↔
  ∃ raw, (match k with KindSet => sets | KindPIP => pips end) !! i = Some raw ∧ tenant_of raw = None.
Proof.
  unfold read_elements. rewrite !visit_orphans. cbn [snd]. rewrite visit_orphans. cbn [snd]. split.
  - intros [[H|(j & r & [= -> ->] & Hj & H)]|(j & r & [= -> ->] & Hj & H)]; [by apply elem_of_nil in H|..]; eauto.
  - intros (r & Hj & H). destruct k; [left; right|right]; eauto.
Qed.

(** A statement on the elements met so far and the state they leave. *)
Lemma turns_ind step t0 (P : list (nat * json) → tenant → Prop) :
  P [] t0 → (∀ l p t, P l t → P (l ++ [p]) (step p.1 p.2 t)) → ∀ l, P l (turns step t0 l).
Proof.
  intros H0 HS l. induction l as [|p l IH] using rev_ind; [done|].
  unfold turns. rewrite foldl_app. by apply HS.
Qed.

(** ** What an export says of one tenant *)

Definition sets_of := document KindSet NSetsDoc "policySets".
Definition pips_of := document KindPIP NPIPsDoc "pips".

(** The tenants an export names. *)
Definition tenant_names (id : string) (sets pips : list json) : Prop :=
  ∃ raw, raw ∈ sets ++ pips ∧ tenant_of raw = Some id.

Lemma FromRegular_Ok s p x :
  FromRegular s p = Ok x ↔
  ∃ sets pips, sets_of s = Ok sets ∧ pips_of p = Ok pips
    ∧ let st := read_elements sets pips in
      x = MkExport (omap tree_of st.1) (omap failure_of st.1) st.2 (omap dropped_of st.1).
Proof.
  unfold FromRegular, sets_of, pips_of.
  destruct (document KindSet _ _ s) as [sets|]; cbn [mbind result_bind]; [|naive_solver].
  destruct (document KindPIP _ _ p) as [pips|]; cbn [mbind result_bind]; [|naive_solver].
  destruct (read_elements sets pips) as [m o] eqn:E. split.
  - intros [= <-]. exists sets, pips. rewrite E. done.
  - intros (? & ? & [= <-] & [= <-] & ->). rewrite E. done.
Qed.

(** A tenant has a tree or a failure as its state ends, and lines only with a tree. *)
Lemma export_lookup s p x sets pips id :
  FromRegular s p = Ok x → sets_of s = Ok sets → pips_of p = Ok pips →
  match own id sets, own id pips with
  | [], [] => Trees x !! id = None ∧ Failed x !! id = None ∧ Dropped x !! id = None
  | _, _ =>
      let t := state_of id (own_from id 0 sets) (own_from id 0 pips) in
      Trees x !! id = tree_of t ∧ Failed x !! id = failure_of t ∧ Dropped x !! id = dropped_of t
  end.
Proof.
  intros Hx Hs Hp. apply FromRegular_Ok in Hx as (? & ? & Hs' & Hp' & ->).
  rewrite Hs in Hs'. rewrite Hp in Hp'. injection Hs' as <-. injection Hp' as <-.
  cbn [Trees Failed Dropped]. rewrite !lookup_omap, !read_elements_lookup.
  by destruct (own id sets), (own id pips).
Qed.

Lemma own_nil id raws : own id raws = [] ↔ ∀ raw, raw ∈ raws → tenant_of raw ≠ Some id.
Proof.
  unfold own. split.
  - intros H raw Hin Ht. apply (elem_of_nil raw). rewrite <-H. by apply list_elem_of_filter.
  - intros H. apply list.elem_of_nil_inv. intros raw [Ht Hin]%list_elem_of_filter. by eapply H.
Qed.

Lemma tenant_names_own id sets pips :
  tenant_names id sets pips ↔ ¬ (own id sets = [] ∧ own id pips = []).
Proof.
  rewrite !own_nil. unfold tenant_names. setoid_rewrite elem_of_app. split.
  - intros (raw & [H|H] & Ht) [Hs Hp]; [by apply (Hs raw)|by apply (Hp raw)].
  - intros H. destruct (own id sets) as [|raw l] eqn:Es.
    + destruct (own id pips) as [|raw l] eqn:Ep.
      * destruct H. by split; apply own_nil.
      * assert (raw ∈ own id pips) as [? ?]%list_elem_of_filter by (rewrite Ep; apply list_elem_of_here). eauto.
    + assert (raw ∈ own id sets) as [? ?]%list_elem_of_filter by (rewrite Es; apply list_elem_of_here). eauto.
Qed.

(** ** Positions *)

(** The same without the positions of the elements. *)
Definition unplaced_error (e : tenant_error) : tenant_error :=
  match e with
  | SetUndecoded _ e => SetUndecoded 0 e
  | SetUnbuilt id e => SetUnbuilt id e
  | PIPUnread _ e => PIPUnread 0 e
  end.
Definition unplaced_line (d : dropped_line) : dropped_line :=
  match d with
  | DroppedStatus _ id status => DroppedStatus 0 id status
  | DroppedSetKey _ id key => DroppedSetKey 0 id key
  | DroppedIsolated _ id reason => DroppedIsolated 0 id reason
  | DroppedPIPKey _ name key => DroppedPIPKey 0 name key
  | DroppedPIPName name reason => DroppedPIPName name reason
  end.
Definition unplaced_failure (f : failure) : failure :=
  match f with
  | ReadFailed e => ReadFailed (unplaced_error e)
  | TreeRefused e => TreeRefused e
  end.
Definition unplaced (t : tenant) : tenant :=
  MkTenant (simplified t) (t_sets t) (t_pips t) (pipCount t) (setCount t) (t_vars t)
    (unplaced_error <$> t_err t) (unplaced_line <$> t_dropped t).

(** A step that does not depend on the position but for the texts that name it. *)
Definition position_free (step : nat → json → tenant → tenant) : Prop :=
  ∀ i raw t, unplaced (step i raw t) = step 0 raw (unplaced t).

Lemma unplaced_drop lines t : unplaced (drop_lines lines t) = drop_lines (unplaced_line <$> lines) (unplaced t).
Proof. unfold unplaced, drop_lines. cbn. by rewrite fmap_app. Qed.

Lemma set_step_position id : position_free (set_step id).
Proof.
  intros i raw t. unfold set_step. cbn [t_err unplaced]. destruct (t_err t) as [e|]; [done|].
  cbn [fmap option_fmap option_map is_some]. destruct (negb (topLevelApplies _)); [by rewrite unplaced_drop|].
  destruct (decode_set _) as [s|e]; [|done].
  assert (∀ t', setCount t' = setCount t → isolation t' id (readHead raw) s = isolation t id (readHead raw) s) as Hi
    by (by unfold isolation; intros ? ->).
  rewrite !Hi by done. destruct (negb (empty _)).
  { unfold unplaced, add_set, drop_lines. cbn. by rewrite !fmap_app, <-list_fmap_compose. }
  destruct (simplifiedGroup s).
  { unfold unplaced, add_group, drop_lines. cbn. by rewrite fmap_app, <-list_fmap_compose. }
  cbn [t_vars drop_lines unplaced]. destruct (build_set _ _ _) as [[]|];
    unfold unplaced, add_set, fail_tenant, drop_lines; cbn; by rewrite fmap_app, <-list_fmap_compose.
Qed.

Lemma pip_step_position : position_free pip_step.
Proof.
  intros i raw t. unfold pip_step. cbn [t_err unplaced]. destruct (t_err t) as [e|]; [done|].
  cbn [fmap option_fmap option_map is_some]. destruct (readPIP raw); [|done].
  unfold unplaced, add_pip, drop_lines. cbn. by rewrite fmap_app, <-list_fmap_compose.
Qed.

Lemma turns_position step t t' l l' :
  position_free step → l.*2 = l'.*2 → unplaced t = unplaced t' →
  unplaced (turns step t l) = unplaced (turns step t' l').
Proof.
  intros Hs. unfold turns. revert t t' l'. induction l as [|p l IH]; intros t t' [|p' l'] Hl Ht; try done.
  cbn in Hl. injection Hl as Hp Hl. cbn [foldl]. apply IH; [done|]. by rewrite !Hs, Hp, Ht.
Qed.

Lemma finish_position t t' :
  unplaced t = unplaced t' →
  tree_of t = tree_of t' ∧ unplaced_failure <$> failure_of t = unplaced_failure <$> failure_of t'
  ∧ fmap (M:=list) unplaced_line <$> dropped_of t = fmap (M:=list) unplaced_line <$> dropped_of t'.
Proof.
  intros H. unfold unplaced in H. injection H as Hs Ht Hp Hpc Hsc Hv He Hd.
  unfold tree_of, failure_of, dropped_of, finish.
  destruct (t_err t) as [e|], (t_err t') as [e'|]; try discriminate.
  - cbn in He |- *. injection He as He. by rewrite He.
  - rewrite Hs, Ht, Hp, Hpc. destruct (distinct_pips _ _) as [pips ds].
    destruct (NewTree _ _ _) as [tree|e]; cbn [wrap mbind result_bind]; [|done].
    assert (unplaced_line <$> t_dropped t ++ ds = unplaced_line <$> t_dropped t' ++ ds) as E
      by by rewrite !fmap_app, Hd.
    split_and!; [done..|]. revert E. generalize (t_dropped t ++ ds) (t_dropped t' ++ ds).
    intros [|d l] [|d' l'] E; try done. by apply (f_equal Some).
Qed.

Lemma state_position id sets sets' pips pips' :
  sets.*2 = sets'.*2 → pips.*2 = pips'.*2 →
  unplaced (state_of id sets pips) = unplaced (state_of id sets' pips').
Proof.
  intros Hs Hp. unfold state_of. apply turns_position; [apply pip_step_position|done|].
  apply turns_position; [apply set_step_position|done|]. by apply turns_position.
Qed.

End state.

End TenantState.
