(* ===== verification/TenantBuild.v ===== *)
(** * What the builder of an export makes ([internal/policyir/export.go])

    No element of a set names another tenant exactly when [foreignElement] finds none; what
    is decoded from a document keeps JSON texts that read back; and the sets, groups and
    declarations the reader builds pass every check [NewTree] makes, with variables that
    are numbered through the tenant. *)
From S2P Require Import Prelude GoText Json Encoding Lexemes Condition PolicyTree ConditionParser TenantExport.
Import GoText Encoding Lexemes Condition PolicyTree ConditionParser TenantExport.

Module TenantBuild.

(** A field is declared by its struct. *)
Ltac declared_tac := cbn; repeat first [apply list_elem_of_here | apply list_elem_of_further].

Section build.
Context {table : UnicodeTable} {pc : PathCompiler}.

(** ** Elements of one tenant *)

Fixpoint export_set_induction (P : exportSet → Prop)
    (step : ∀ s, (∀ k, k ∈ XS_PolicySets s → P k) → P s) (s : exportSet) {struct s} : P s.
Proof.
  apply step. destruct s as [? ? ? ? ? ? ? ? ? ? ? sets ?]. simpl.
  induction sets as [|k sets IH]; intros k' Hk.
  - by apply elem_of_nil in Hk.
  - apply elem_of_cons in Hk as [->|Hk]; [by apply export_set_induction|by apply IH].
Defined.

(** A [tenantId] that names no tenant but [id]. *)
Definition no_other (id : string) (owner : option string) : Prop := ∀ o, owner = Some o → o = EmptyString ∨ o = id.

(** No policy, rule or nested set of a set names another tenant. *)
Inductive owned (id : string) : exportSet → Prop :=
  | owned_intro s :
      (∀ p, p ∈ XS_Policies s → no_other id (XP_TenantID p) ∧ ∀ r, r ∈ XP_Rules p → no_other id (XR_TenantID r)) →
      (∀ k, k ∈ XS_PolicySets s → no_other id (XS_TenantID k) ∧ owned id k) →
      owned id s.

Lemma first_reason_empty l : first_reason l = EmptyString ↔ ∀ r, r ∈ l → r = EmptyString.
Proof.
  unfold first_reason. induction l as [|r l IH]; cbn [List.find].
  { split; [|done]. intros _ r H. by apply elem_of_nil in H. }
  setoid_rewrite elem_of_cons. destruct (empty r) eqn:E; cbn [negb].
  - apply empty_true in E. rewrite IH. naive_solver.
  - apply empty_false in E. cbn [default]. naive_solver.
Qed.

Lemma foreign_reason_empty kind name owner id :
  foreign_reason kind name owner id = EmptyString ↔ no_other id owner.
Proof.
  unfold foreign_reason, foreign, no_other. destruct owner as [o|]; [|naive_solver].
  destruct (empty o) eqn:Ee; cbn [negb andb].
  { apply empty_true in Ee. naive_solver. }
  apply empty_false in Ee. destruct (eqb o id) eqn:Eo; cbn [negb].
  { apply (proj1 (eqb_true _ _)) in Eo. naive_solver. }
  apply (proj1 (eqb_false _ _)) in Eo. split; [|naive_solver].
  intros H. apply (f_equal bytes_of) in H. rewrite !bytes_of_app in H.
  apply app_eq_nil in H as [_ H]. by apply app_eq_nil in H as [? _].
Qed.

Lemma concat_all {A B} (f : A → list B) (P : B → Prop) l :
  (∀ r, r ∈ concat (map f l) → P r) ↔ ∀ x, x ∈ l → ∀ r, r ∈ f x → P r.
Proof.
  induction l as [|x l IH]; cbn [map concat].
  - split; intros _ ? H; by apply elem_of_nil in H.
  - setoid_rewrite elem_of_app. setoid_rewrite elem_of_cons. naive_solver.
Qed.

Lemma map_all {A B} (f : A → B) (P : B → Prop) l : (∀ y, y ∈ map f l → P y) ↔ ∀ x, x ∈ l → P (f x).
Proof.
  induction l as [|x l IH]; cbn [map].
  - split; intros _ ? H; by apply elem_of_nil in H.
  - setoid_rewrite elem_of_cons. naive_solver.
Qed.

Lemma foreignElement_owned id s : foreignElement s id = EmptyString ↔ owned id s.
Proof.
  induction s as [s IH] using export_set_induction.
  assert (owned id s ↔
    (∀ p, p ∈ XS_Policies s → no_other id (XP_TenantID p) ∧ ∀ r, r ∈ XP_Rules p → no_other id (XR_TenantID r))
    ∧ ∀ k, k ∈ XS_PolicySets s → no_other id (XS_TenantID k) ∧ owned id k) as ->.
  { split; [by destruct 1|]. intros [? ?]. by constructor. }
  assert (foreignElement s id = first_reason
    (concat (map (λ p,
       foreign_reason "policy" (XP_PolicyID p) (XP_TenantID p) id
       :: map (λ r, foreign_reason "rule" (XR_RuleID r) (XR_TenantID r) id) (XP_Rules p)) (XS_Policies s))
     ++ concat (map (λ k,
       [foreign_reason "policy set" (XS_PolicySetID k) (XS_TenantID k) id; foreignElement k id])
          (XS_PolicySets s)))) as -> by by destruct s.
  rewrite first_reason_empty. setoid_rewrite elem_of_app.
  transitivity ((∀ p, p ∈ XS_Policies s → ∀ r, r ∈ foreign_reason "policy" (XP_PolicyID p) (XP_TenantID p) id
       :: map (λ r, foreign_reason "rule" (XR_RuleID r) (XR_TenantID r) id) (XP_Rules p) → r = EmptyString)
    ∧ (∀ k, k ∈ XS_PolicySets s → ∀ r, r ∈ [foreign_reason "policy set" (XS_PolicySetID k) (XS_TenantID k) id;
         foreignElement k id] → r = EmptyString)).
  { rewrite <-(concat_all _ (λ r, r = EmptyString)), <-(concat_all _ (λ r, r = EmptyString)). naive_solver. }
  f_equiv; apply forall_proper; intros x; split; intros H Hx; specialize (H Hx).
  - split; [eapply foreign_reason_empty, H, list_elem_of_here|].
    intros r Hr. apply (foreign_reason_empty "rule" (XR_RuleID r)). revert r Hr.
    apply (map_all _ (λ r, r = EmptyString)). intros r Hr. apply H, list_elem_of_further, Hr.
  - intros r [->|Hr]%elem_of_cons; [by apply foreign_reason_empty, H|]. revert r Hr.
    apply (map_all _ (λ r, r = EmptyString)). intros r Hr. by apply foreign_reason_empty, H.
  - split; [eapply foreign_reason_empty, H, list_elem_of_here|].
    apply (IH _ Hx), H, list_elem_of_further, list_elem_of_here.
  - intros r [->|[->|Hr%elem_of_nil]%elem_of_cons]%elem_of_cons; [by apply foreign_reason_empty, H|by apply (IH _ Hx), H|done].
Qed.

(** ** The ID a set is counted by *)

Lemma leaf w : filter_value w TLeaf = w.
Proof. by destruct w. Qed.

(** The field of a name in the filtered form of an element, for a field that is a leaf. *)
Definition leaf_of (raw : json) (name : string) : option json :=
  match raw with
  | Json.JObj _ ms => last_member name (named ms)
  | _ => None
  end.

Lemma filter_leaf raw n ms name :
  struct_of (filter_value raw (TStruct n)) = Ok ms → (name, TLeaf) ∈ declared n → field ms name = leaf_of raw name.
Proof.
  destruct raw as [| | | |t items|t ms']; cbn [filter_value struct_of]; try discriminate.
  - intros [= <-]. done.
  - intros H Hn. change (struct_of (filter_value (Json.JObj t ms') (TStruct n)) = Ok ms) in H.
    rewrite filter_object in H. injection H as <-. rewrite (field_kept _ _ _ _ Hn). cbn [leaf_of].
    destruct (last_member name (named ms')); [|done]. cbn. by rewrite leaf.
Qed.

Lemma decode_set_eq v :
  decode_set v =
    (ms ← struct_of v;
     tenant ← opt_str (field ms "tenantId");
     id ← str (field ms "policySetId");
     name ← str (field ms "name");
     type ← str (field ms "type");
     domain ← str (field ms "domain");
     component ← opt_str (field ms "component");
     status ← str (field ms "status");
     target ← opt_str (field ms "target");
     alg ← str (field ms "combiningAlgorithm");
     it ← pointer decode_iterate (field ms "iterate");
     policies ← slice decode_policy (field ms "policies");
     sets ← slice decode_set (field ms "policySets");
     external ← str (field ms "externalId");
     Ok (MkExportSet tenant id name type domain component status target alg it policies sets external)).
Proof.
  destruct v as [| | | |t items|t ms]; try done. cbn [decode_set struct_of mbind result_bind].
  assert (slice decode_set (field ms "policySets") =
    (fix nested (ms : list (bytes * json)) : result decode_error (list exportSet) :=
       match ms with
       | [] => Ok []
       | (k, w) :: ms' =>
           if eqb k (bytes_of "policySets") then
             match w with
             | Json.JNull => Ok []
             | Json.JArr _ items => mapM decode_set items
             | _ => Err TypeMismatch
             end
           else nested ms'
       end) ms) as ->; [|done].
  unfold field. induction ms as [|[k w] l IH]; [done|]. cbn [List.find fst].
  destruct (eqb k (bytes_of "policySets")); [by destruct w|]. exact IH.
Qed.

(** ** JSON inside an element *)

(** Every value in it reads back from its compact text. *)
Definition sound (v : json) : Prop := ∀ w, Json.part w v → Json.rereads w.

Lemma sound_inner u v : Json.inner u v → sound v → sound u.
Proof. intros Hu H w Hw. apply H. by eapply Json.inner_part. Qed.

Lemma sound_self v : sound v → Json.rereads v.
Proof. intros H. apply H. constructor. Qed.

Lemma last_member_in {A} name (ms : list (string * A)) v : last_member name ms = Some v → (name, v) ∈ ms.
Proof.
  induction ms as [|[k w] ms IH]; [done|]. cbn. destruct (last_member name ms) as [u|] eqn:E.
  - intros [= <-]. right. by apply IH.
  - destruct (eqb k name) eqn:Ek; [|done]. apply (proj1 (eqb_true _ _)) in Ek as ->. intros [= <-]. left.
Qed.

(** A field of a filtered element is the filtered form of a value in the element. *)
Lemma filtered_field raw n ms name t w :
  struct_of (filter_value raw (TStruct n)) = Ok ms → (name, t) ∈ declared n → field ms name = Some w →
  ∃ v, Json.inner v raw ∧ w = filter_value v t.
Proof.
  destruct raw as [| | | |r items|r ms']; try discriminate.
  { intros [= <-]. done. }
  intros H Hn. rewrite filter_object in H. injection H as <-. rewrite (field_kept _ _ _ _ Hn).
  destruct (last_member name (named ms')) as [v|] eqn:E; [|done]. intros [= <-]. exists v. split; [|done].
  apply last_member_in in E. unfold named in E. apply list_elem_of_fmap in E as ([k u] & [= _ ->] & Hu). by exists k.
Qed.

Definition known_params (r : exportRule) : Prop :=
  ∀ c k v, XR_CustomPredicate r = Some c → XC_Params c !! k = Some v → Json.rereads v.

Inductive known_set : exportSet → Prop :=
  | known_set_intro s :
      (∀ p r, p ∈ XS_Policies s → r ∈ XP_Rules p → known_params r) →
      (∀ k, k ∈ XS_PolicySets s → known_set k) →
      known_set s.

Lemma filtered_slice {A} (decode : json → result decode_error A) v t l :
  slice decode (Some (filter_value v (TSlice t))) = Ok l →
  ∀ a, a ∈ l → ∃ u, Json.inner u v ∧ decode (filter_value u t) = Ok a.
Proof.
  destruct v as [| | | |r items|r ms]; cbn; try discriminate.
  { intros [= <-] a H. by apply elem_of_nil in H. }
  unfold array. intros H a Ha. apply mapM_Ok in H. apply list_elem_of_lookup in Ha as [i Hi].
  destruct (Forall2_lookup_r _ _ _ _ _ H Hi) as (w & Hw & Hd).
  change (map (λ w, filter_value w t) items) with ((λ w, filter_value w t) <$> items) in Hw.
  rewrite list_lookup_fmap in Hw. destruct (items !! i) as [u|] eqn:Eu; [|done]. injection Hw as <-.
  exists u. split; [|done]. by eapply list_elem_of_lookup_2.
Qed.

Lemma raw_map_sound v m : (∀ w, v = Some w → sound w) → raw_map v = Ok m → ∀ k w, m !! k = Some w → sound w.
Proof.
  intros Hv Hm. destruct v as [v|]; [|injection Hm as <-; intros k w; by rewrite lookup_empty].
  specialize (Hv v eq_refl). destruct v as [| | | |r items|r ms]; cbn in Hm; try discriminate.
  { injection Hm as <-. intros k w. by rewrite lookup_empty. }
  injection Hm as <-. assert (∀ k w, (∅ : gmap string json) !! k = Some w → sound w) as H0 by (intros k w; by rewrite lookup_empty).
  assert (∀ k u, (k, u) ∈ ms → sound u) as Hms by (intros k u Hu; eapply sound_inner; [|done]; by exists k).
  clear Hv. revert H0 Hms. generalize (∅ : gmap string json). induction ms as [|[k u] ms IH]; intros m H0 Hms; [done|].
  cbn [fold_left fst snd]. apply IH.
  - intros k' w. destruct (decide (Unquote k = k')) as [->|].
    + rewrite lookup_insert_eq. intros [= <-]. eapply Hms, list_elem_of_here.
    + rewrite lookup_insert_ne by done. apply H0.
  - intros k' u' Hu'. eapply Hms, list_elem_of_further, Hu'.
Qed.

Lemma decode_custom_known v c :
  sound v → decode_custom (filter_value v (TStruct NCustom)) = Ok c →
  ∀ k w, XC_Params c !! k = Some w → Json.rereads w.
Proof.
  unfold decode_custom. intros Hv H k w Hk. result_inv. cbn [XC_Params] in Hk. apply sound_self.
  eapply raw_map_sound; [|exact Hstep0|exact Hk]. intros u Hu.
  destruct (filtered_field _ _ _ "params" TLeaf _ Hstep ltac:(declared_tac) Hu) as (u' & Hin & ->).
  rewrite leaf. by eapply sound_inner.
Qed.

Lemma pointer_Some {A} (decode : json → result decode_error A) w c : pointer decode (Some w) = Ok (Some c) → decode w = Ok c.
Proof. destruct w; cbn [pointer]; [discriminate|..]; by intros (? & ? & [= ->])%fmap_Ok. Qed.

Lemma decode_rule_known v r : sound v → decode_rule (filter_value v (TStruct NRule)) = Ok r → known_params r.
Proof.
  unfold decode_rule. intros Hv H c k w. result_inv. cbn [XR_CustomPredicate]. intros -> Hk.
  match goal with H : pointer _ _ = Ok _ |- _ => rename H into Hc end.
  destruct (field a "customPredicate") as [u|] eqn:Eu; [|discriminate].
  destruct (filtered_field _ _ _ "customPredicate" (TStruct NCustom) _ Hstep ltac:(declared_tac) Eu) as (u' & Hin & ->).
  apply pointer_Some in Hc. eapply decode_custom_known; [by eapply sound_inner|exact Hc|exact Hk].
Qed.

Lemma decode_policy_known v p :
  sound v → decode_policy (filter_value v (TStruct NPolicy)) = Ok p → ∀ r, r ∈ XP_Rules p → known_params r.
Proof.
  unfold decode_policy. intros Hv H. result_inv. cbn [XP_Rules]. intros r Hr.
  match goal with H : slice _ _ = Ok _ |- _ => rename H into Hl end.
  destruct (field a "rules") as [u|] eqn:Eu; [|injection Hl as <-; by apply elem_of_nil in Hr].
  destruct (filtered_field _ _ _ "rules" (TSlice (TStruct NRule)) _ Hstep ltac:(declared_tac) Eu) as (u' & Hin & ->).
  destruct (filtered_slice _ _ _ _ Hl _ Hr) as (w & Hw & Hd).
  eapply decode_rule_known; [|exact Hd]. by eapply sound_inner, sound_inner.
Qed.

Lemma decode_set_known v : ∀ s, sound v → decode_set (filter_value v (TStruct NSet)) = Ok s → known_set s.
Proof.
  induction v as [v IH] using Json.parts_induction. intros s Hv H. rewrite decode_set_eq in H. result_inv.
  repeat match goal with H : slice _ _ = Ok _ |- _ => revert H end. intros Hpols Hsets.
  constructor; cbn [XS_Policies XS_PolicySets].
  - intros p r Hp. destruct (field a "policies") as [u|] eqn:Eu; [|injection Hpols as <-; by apply elem_of_nil in Hp].
    destruct (filtered_field _ _ _ "policies" (TSlice (TStruct NPolicy)) _ Hstep ltac:(declared_tac) Eu) as (u' & Hin & ->).
    destruct (filtered_slice _ _ _ _ Hpols _ Hp) as (w & Hw & Hd).
    eapply decode_policy_known; [|exact Hd]. by eapply sound_inner, sound_inner.
  - intros k Hk. destruct (field a "policySets") as [u|] eqn:Eu; [|injection Hsets as <-; by apply elem_of_nil in Hk].
    destruct (filtered_field _ _ _ "policySets" (TSlice (TStruct NSet)) _ Hstep ltac:(declared_tac) Eu) as (u' & Hin & ->).
    destruct (filtered_slice _ _ _ _ Hsets _ Hk) as (w & Hw & Hd).
    eapply (IH u' w); [done| |by eapply sound_inner, sound_inner|exact Hd].
    eapply Json.inner_part; [done|constructor].
Qed.

(** ** What the builder makes is valid *)

(** The variable a condition may read the pass of, and those bound where it stands. *)
Definition stands (iterVar : string) (b : gset string) : Prop :=
  iterVar = EmptyString ∧ b = ∅ ∨ iterVar ≠ EmptyString ∧ iterVar ∈ b.

Lemma outside : stands EmptyString ∅.
Proof. by left. Qed.

Lemma ParseCondition_empty place iterVar :
  place ∈ places → ParseCondition EmptyString place iterVar = Ok (MkCondition place [[Some (Const true)]]).
Proof.
  intros Hp. unfold ParseCondition. change (wholeBool (bytes_of EmptyString)) with (@None bool).
  change (newParser (bytes_of EmptyString)) with (@Ok reason bytes []).
  cbn [wrap mbind result_bind]. change (expr [] iterVar) with (@Ok reason (list (list Atom)) [[Const true]]).
  cbn [wrap mbind result_bind].
  assert (good_disjuncts iterVar [[Const true]]) as Hg by (split; [done|]; repeat constructor; [done..|]; by intros ???).
  by rewrite (good_condition _ _ _ Hg).
Qed.

Lemma condition_wf text place iterVar b :
  stands iterVar b → place ∈ places → wf_cond_at b place (condition text place iterVar).
Proof.
  intros Hb Hp. destruct text as [text|]; [|by intros c]. unfold condition.
  destruct (ParseCondition text place iterVar) as [c|e] eqn:E; [by eapply ParseCondition_wf|].
  intros c [= <-]. split_and!; [|done|].
  - split; [done|]. split; [done|]. cbn [Disjuncts]. intros d ->%list_elem_of_singleton. split; [done|].
    intros a ->%list_elem_of_singleton. eexists. split; [done|]. split; cbn.
    + apply list_elem_of_further, list_elem_of_here.
    + intros ->. by rewrite ParseCondition_empty in E.
  - cbn [Disjuncts]. intros d cmp o ->%list_elem_of_singleton H. by apply list_elem_of_singleton in H.
Qed.

Lemma compact_text_wf v : Json.rereads v → wf_json (compact_text v).
Proof. intros H. exists (Json.compact v). unfold compact_text. by rewrite bytes_of_string_of. Qed.

Lemma predicates_wf r : known_params r → wf_predicates (predicates r).
Proof.
  intros Hr. split.
  - intros d t H. cbn [predicates Text] in H. apply elem_of_list_to_map_2, list_elem_of_In, filter_In in H as [H _].
    apply list_elem_of_In in H. rewrite !elem_of_cons in H. unfold dialects. rewrite !elem_of_cons.
    destruct H as [[= -> _]|[[= -> _]|[[= -> _]|[[= -> _]|H]]]]; [auto 6..|by apply elem_of_nil in H].
  - intros c k v. cbn [predicates Custom]. destruct (XR_CustomPredicate r) as [c'|] eqn:Ec; [|done].
    intros [= <-]. cbn [Params]. rewrite lookup_fmap. destruct (XC_Params c' !! k) as [w|] eqn:Ek; [|done].
    intros [= <-]. apply compact_text_wf. by eapply Hr.
Qed.

Lemma build_rule_wf iterVar b r o :
  stands iterVar b → known_params r → build_rule iterVar r = Ok o → ∃ r', o = Some r' ∧ wf_rule b r'.
Proof.
  intros Hb Hr H. unfold build_rule in H. result_inv. eexists. split; [done|].
  split_and!; [by apply member_true|by apply condition_wf; [|declared_tac]..|by apply predicates_wf].
Qed.

Lemma algorithmOf_Ok a alg : algorithmOf a = Ok alg → alg = a ∧ a ∈ algorithms.
Proof. unfold algorithmOf. destruct (member a algorithms) eqn:E; [|done]. apply member_true in E. by intros [= <-]. Qed.

Lemma build_policy_wf iterVar b p o :
  stands iterVar b → (∀ r, r ∈ XP_Rules p → known_params r) → policy_in iterVar p = Ok o →
  ∃ p', o = Some p' ∧ wf_policy b p'.
Proof.
  intros Hb Hr H. unfold policy_in in H. apply wrap_Ok in H. unfold build_policy in H. result_inv.
  eexists. split; [done|]. match goal with H : algorithmOf _ = Ok _ |- _ => apply algorithmOf_Ok in H as [-> ?] end.
  split_and!; [done|by apply condition_wf; [|declared_tac]|]. cbn [P_Rules].
  eapply mapM_all; [eassumption|]. intros r o Hin Ho. eapply build_rule_wf; [done|by apply Hr|done].
Qed.

(** The names of the variables from [v] on. *)
Definition var_names (v n : nat) : list string := (λ k, "iterate" +:+ pretty k) <$> seq (S v) n.

Lemma var_names_app v n m : var_names v (n + m) = var_names v n ++ var_names (v + n) m.
Proof. unfold var_names. by rewrite seq_app, fmap_app. Qed.

Lemma var_names_NoDup v n : NoDup (var_names v n).
Proof.
  unfold var_names. apply NoDup_fmap_2; [|apply NoDup_seq]. intros i j H.
  apply (f_equal bytes_of) in H. rewrite !bytes_of_app in H.
  apply (inj (bytes_of "iterate" ++.)) in H. by apply (inj bytes_of), (inj pretty) in H.
Qed.

Lemma iterate_of_Ok it iterVar vars b fails i inner vars' :
  stands iterVar b → iterate_of it iterVar vars = (fails, i, inner, vars') →
  match i with
  | None => inner = iterVar ∧ vars' = vars
  | Some i => fails = EmptyString ∧ It_Var i = inner ∧ wf_iterate i ∧ vars' = S vars ∧ [inner] = var_names vars 1
              ∧ inner ≠ EmptyString
  end.
Proof.
  intros Hb. unfold iterate_of. destruct it as [it|]; [|by intros [= <- <- <- <-]].
  destruct (negb (eqb _ _)); [by intros [= <- <- <- <-]|].
  destruct (empty (XI_CombiningAlgorithm it)) eqn:Ee; [by intros [= <- <- <- <-]|]. apply empty_false in Ee.
  destruct (algorithmOf _) as [ia|] eqn:Ea; [|by intros [= <- <- <- <-]]. apply algorithmOf_Ok in Ea as [-> Ha].
  intros [= <- <- <- <-]. done.
Qed.

(** [build_set] with its nested loop as a function. *)
Fixpoint build_sets (ks : list exportSet) (inner : string) (vars : nat) :
    result nodeError (list (option PolicySet) * nat) :=
  match ks with
  | [] => Ok ([], vars)
  | k :: ks =>
      '(s', vars) ← wrap (within ("policy set " +:+ Quote (XS_PolicySetID k))) (build_set k inner vars);
      '(rest, vars) ← build_sets ks inner vars;
      Ok (Some s' :: rest, vars)
  end.

Lemma build_set_eq s iterVar vars :
  build_set s iterVar vars =
    (alg ← wrap (MkNodeError []) (algorithmOf (XS_CombiningAlgorithm s));
     let made := MkPolicySet (XS_PolicySetID s) (XS_Name s) (XS_Domain s) (XS_ExternalID s) alg
                   (condition (XS_Target s) PlaceSetTarget iterVar) in
     let '(fails, it, inner, vars) := iterate_of (XS_Iterate s) iterVar vars in
     if negb (empty fails) then Ok (made None fails EmptyString [] [], vars)
     else
       policies ← mapM (policy_in inner) (XS_Policies s);
       '(sets, vars) ← build_sets (XS_PolicySets s) inner vars;
       Ok (made it EmptyString EmptyString policies sets, vars)).
Proof.
  destruct s as [? ? ? ? ? ? ? ? alg it ? sets ?].
  cbn [build_set XS_CombiningAlgorithm XS_Iterate XS_PolicySets XS_Policies XS_PolicySetID XS_Name XS_Domain
       XS_ExternalID XS_Target].
  destruct (algorithmOf alg); cbn [wrap mbind result_bind]; [|done].
  destruct (iterate_of it iterVar vars) as [[[fails it'] inner] vars']. destruct (negb (empty fails)); [done|].
  destruct (mapM _ _); cbn [mbind result_bind]; [|done].
  match goal with |- (mbind ?f ?m) = (mbind ?g ?m') => enough (m = m') as -> by done end.
  revert vars'. induction sets as [|k sets IH]; intros vars'; [done|]. cbn [build_sets].
  destruct (build_set k inner vars') as [[s' v]|]; cbn [wrap mbind result_bind]; [|done]. by rewrite IH.
Qed.

Definition built (b : gset string) (v : nat) (ps : PolicySet) (v' : nat) : Prop :=
  wf_set b ps ∧ v ≤ v' ∧ vars_of ps = var_names v (v' - v).

Lemma build_sets_wf b inner ks v ss v' :
  (∀ k v ps v', k ∈ ks → build_set k inner v = Ok (ps, v') → built b v ps v') →
  build_sets ks inner v = Ok (ss, v') →
  (∀ p, p ∈ ss → ∃ s, p = Some s ∧ wf_set b s) ∧ v ≤ v' ∧ vars_of_sets ss = var_names v (v' - v).
Proof.
  revert v ss v'. induction ks as [|k ks IH]; intros v ss v' Hk; cbn [build_sets].
  { intros [= <- <-]. split_and!; [intros p H; by apply elem_of_nil in H|done|]. by rewrite Nat.sub_diag. }
  intros ([ps v1] & H1%wrap_Ok & ([rest v2] & H2 & [= <- <-])%bind_Ok)%bind_Ok.
  destruct (Hk _ _ _ _ (list_elem_of_here _ _) H1) as (Hw & Hle & Hv).
  apply IH in H2 as (Hws & Hle' & Hvs); [|intros; eapply Hk; [by apply list_elem_of_further|done]].
  split_and!; [|lia|].
  - intros p [->|Hp]%elem_of_cons; eauto.
  - change (vars_of_sets (Some ps :: rest)) with (vars_of ps ++ vars_of_sets rest).
    replace (v2 - v) with ((v1 - v) + (v2 - v1)) by lia. rewrite var_names_app, Hv, Hvs. do 2 f_equal. lia.
Qed.

Lemma build_set_wf s : ∀ iterVar b v ps v',
  stands iterVar b → known_set s → build_set s iterVar v = Ok (ps, v') → built b v ps v'.
Proof.
  induction s as [s IH] using export_set_induction. intros iterVar b v ps v' Hb Hk H.
  rewrite build_set_eq in H. apply bind_Ok in H as (alg & Ha & H). apply wrap_Ok, algorithmOf_Ok in Ha as [-> Ha].
  cbn beta zeta in H. destruct (iterate_of _ _ _) as [[[fails it] inner] v1] eqn:Ei.
  pose proof (iterate_of_Ok _ _ _ _ _ _ _ _ Hb Ei) as Hit.
  destruct (empty fails) eqn:Ef; cbn [negb] in H.
  2: { injection H as <- <-. destruct it as [i|]; [destruct Hit as [-> _]; discriminate Ef|]. destruct Hit as [_ ->].
       split_and!; [|lia|by rewrite Nat.sub_diag]. constructor; cbn; try done.
       - by apply condition_wf; [|declared_tac].
       - intros p Hp. by apply elem_of_nil in Hp.
       - intros p Hp. by apply elem_of_nil in Hp. }
  destruct Hk as [s Hrules Hsets]. apply bind_Ok in H as (pols & Hpols & ([sets v2] & Hss & [= <- <-])%bind_Ok).
  assert (stands inner (match it with Some i => {[It_Var i]} ∪ b | None => b end)) as Hin.
  { destruct it as [i|]; [|by destruct Hit as [-> _]]. destruct Hit as (_ & -> & _ & _ & _ & ?). right. set_solver. }
  eapply build_sets_wf in Hss as (Hws & Hle & Hvs); [|intros k v3 ps v4 Hkin Hb3; eapply IH; [done|exact Hin|by apply Hsets|exact Hb3]].
  assert (v ≤ v1 ∧ option_list (It_Var <$> it) = var_names v (v1 - v)) as [Hle1 Hv1].
  { destruct it as [i|].
    - destruct Hit as (_ & Hi & _ & -> & Hv & _). split; [lia|]. cbn. rewrite Hi, Hv. f_equal. lia.
    - destruct Hit as [_ ->]. by rewrite Nat.sub_diag. }
  split_and!; [|lia|].
  - constructor; cbn; try done.
    + by apply condition_wf; [|declared_tac].
    + intros i ->. apply Hit.
    + eapply mapM_all; [exact Hpols|]. intros p o Hp Ho. eapply build_policy_wf; [exact Hin| |exact Ho].
      intros r Hr. by eapply Hrules.
  - rewrite vars_of_eq. cbn [S_Iterate S_Sets]. rewrite Hv1, Hvs.
    replace (v2 - v) with ((v1 - v) + (v2 - v1)) by lia. rewrite var_names_app. do 2 f_equal. lia.
Qed.

Lemma option_mapM_Some {A B} (f : A → option B) l k : mapM f l = Some k → Forall2 (λ x y, f x = Some y) l k.
Proof. apply mapM_Some. Qed.

Lemma simplified_rule_wf op r o :
  known_params r → simplified_rule op r = Some o →
  ∃ p, o = Some p ∧ wf_cond_at ∅ PlaceSimplified (SP_Condition p) ∧ wf_predicates (SP_Predicates p).
Proof.
  intros Hr. unfold simplified_rule. destruct (_ || _); [done|].
  destruct (XR_Target r) as [t|]; [|done]. cbn [mbind option_bind].
  destruct (rolesOf t) as [roles|]; [|done]. cbn [mbind option_bind]. destruct (negb _); [done|]. intros [= <-].
  eexists. split; [done|]. split; [|by apply predicates_wf].
  apply condition_wf; [apply outside|declared_tac].
Qed.

Lemma simplifiedGroup_wf s g : known_set s → simplifiedGroup s = Some g → wf_group g ∧ G_ID g = XS_PolicySetID s.
Proof.
  intros [s' Hk _]. unfold simplifiedGroup. destruct (_ || _); [done|].
  destruct (XS_Target s') as [t|]; [|done]. cbn [mbind option_bind].
  destruct (onlyEquality t ResourceType) as [rt|]; [|done]. cbn [mbind option_bind].
  destruct (negb _); [done|]. destruct (mapM simplified_policies (XS_Policies s')) as [pss|] eqn:E; [|done].
  cbn [mbind option_bind]. intros [= <-]. split; [|done]. unfold wf_group. cbn [G_Policies].
  apply mapM_Some in E. revert Hk. induction E as [|p ps pols pss Hp _ IH]; intros Hk q Hq; [by apply elem_of_nil in Hq|].
  cbn in Hq. apply elem_of_app in Hq as [Hq|Hq]; [|apply IH; [|done]; intros; eapply Hk; [by apply list_elem_of_further|done]].
  unfold simplified_policies in Hp. destruct (XP_Target p) as [t'|]; [|done]. cbn [mbind option_bind] in Hp.
  destruct (negb _); [done|]. destruct (operation_of t') as [op|]; [|done]. cbn [mbind option_bind] in Hp.
  apply mapM_Some in Hp. apply list_elem_of_lookup in Hq as [i Hi].
  destruct (Forall2_lookup_r _ _ _ _ _ Hp Hi) as (r & Hr & Hs).
  eapply simplified_rule_wf; [|exact Hs]. eapply Hk; [apply list_elem_of_here|]. by eapply list_elem_of_lookup_2.
Qed.

(** ** Information points *)

Definition prefixed (p : PIP) : Prop := bytes_of "subject." `prefix_of` bytes_of (Name p).

Lemma filtered_leaf_sound raw ms name w :
  sound raw → struct_of (filter_value raw (TStruct NPIP)) = Ok ms → (name, TLeaf) ∈ declared NPIP →
  field ms name = Some w → sound w.
Proof.
  intros Hr Hm Hn Hw. destruct (filtered_field _ _ _ _ _ _ Hm Hn Hw) as (u & Hu & ->).
  rewrite leaf. by eapply sound_inner.
Qed.

Lemma present_wf v : (∀ w, v = Some w → sound w) → present v = EmptyString ∨ wf_json (present v).
Proof.
  intros H. destruct v as [w|]; [|by left]. specialize (H w eq_refl). destruct w; [by left|right..];
    by apply compact_text_wf, sound_self.
Qed.

Lemma readPIP_wf raw p :
  sound raw → readPIP raw = Ok p → Isolated p = EmptyString ∧ (prefixed p → wf_pip p).
Proof.
  intros Hr H. unfold readPIP in H. apply bind_Ok in H as (e & He & H). apply wrap_Ok in He.
  unfold decode_pip in He. apply bind_Ok in He as (ms & Hms & He). result_inv.
  match goal with H : raw_map _ = Ok _ |- _ => rename H into Hattrs end.
  unfold read_pip in H. apply bind_Ok in H as (name & _ & H). cbn beta zeta in H. apply bind_Ok in H as ([] & Ht & H).
  apply check_Ok, member_true in Ht. apply bind_Ok in H as ([headers obj] & _ & [= <-]).
  split; [done|]. intros Hp. split; [done|]. rewrite decide_True by done. split; [exact Ht|].
  assert (∀ name, (name, TLeaf) ∈ declared NPIP → present (field ms name) = EmptyString ∨ wf_json (present (field ms name))) as Hj.
  { intros n Hn. apply present_wf. intros w. by eapply filtered_leaf_sound. }
  split.
  - intros v Hv. cbn [DefaultValue ProductMapping CustomMapping Cacheable CachePeriod] in Hv.
    cbn in Hv. rewrite !elem_of_cons in Hv.
    destruct Hv as [->|[->|[->|[->|[->|Hv]]]]]; [apply Hj; declared_tac..|by apply elem_of_nil in Hv].
  - intros m k v. cbn [RequestAttributes XQ_RequestAttributes]. case_decide; [done|]. intros [= <-].
    rewrite lookup_fmap. destruct (_ !! k) as [w|] eqn:Ek; [|done]. intros [= <-]. apply compact_text_wf, sound_self.
    eapply raw_map_sound; [|exact Hattrs|exact Ek]. intros u Hu. eapply filtered_leaf_sound; [done|done| |done]. declared_tac.
Qed.

End build.

End TenantBuild.
