(* ===== verification/TenantTrees.v ===== *)
(** * What the trees of an export hold ([internal/policyir/export.go])

    The theorems on [TenantExport.FromRegular]: what the filter keeps of an element, that a
    tenant's result depends on its own elements only, that every element is accounted for,
    that a set or a declaration the tree enforces is the tenant's own and unique, and that
    every tree is one [NewTree] accepts. *)
From S2P Require Import Prelude GoText Json Encoding Lexemes Condition PolicyTree Dump ConditionParser TenantExport TenantState TenantBuild.
Import GoText Encoding Lexemes Condition PolicyTree ConditionParser TenantExport TenantState TenantBuild.

Module TenantTrees.

Section trees.
Context {table : UnicodeTable} {pc : PathCompiler}.

(** ** What the second loop leaves *)

(** The top-level sets of a tenant with an ID. *)
Definition same_id (k : string) (l : list (nat * json)) : list (nat * json) :=
  filter (λ p, H_ID (readHead p.2) = k) l.
Definition applying (l : list (nat * json)) : list (nat * json) :=
  filter (λ p, topLevelApplies (H_Status (readHead p.2)) = true) l.

(** A set the tree enforces: it applies, no other of the tenant's has its ID, and it names
    no other tenant. *)
Definition enforced (id : string) (counts : gmap string nat) (raw : json) (s : exportSet) : Prop :=
  topLevelApplies (H_Status (readHead raw)) = true
  ∧ decode_set (filter_value raw (TStruct NSet)) = Ok s
  ∧ count counts (H_ID (readHead raw)) ≤ 1
  ∧ owned id s.

Definition from_set (id : string) (counts : gmap string nat) (l : list (nat * json)) (ps : PolicySet) : Prop :=
  ∃ p s, p ∈ l ∧ decode_set (filter_value p.2 (TStruct NSet)) = Ok s ∧ S_ID ps = XS_PolicySetID s
    ∧ ((∃ reason, reason ≠ EmptyString ∧ ps = isolated_set s reason)
       ∨ enforced id counts p.2 s ∧ ∃ v v', build_set s EmptyString v = Ok (ps, v')).

Definition from_group (id : string) (counts : gmap string nat) (l : list (nat * json)) (g : SimplifiedGroup) : Prop :=
  ∃ p s, p ∈ l ∧ enforced id counts p.2 s ∧ simplifiedGroup s = Some g.

Definition sets_spec (id : string) (counts : gmap string nat) (l : list (nat * json)) (t : tenant) : Prop :=
  t_pips t = [] ∧ pipCount t = ∅ ∧ setCount t = counts
  ∧ (∀ x, x ∈ t_sets t → ∃ ps, x = Some ps ∧ from_set id counts l ps)
  ∧ (∀ x, x ∈ simplified t → ∃ g, x = Some g ∧ from_group id counts l g)
  ∧ (t_err t = None → length (simplified t) + length (t_sets t) = length (applying l))
  ∧ ((∀ p, p ∈ l → sound p.2) → vars_of_sets (t_sets t) = var_names 0 (t_vars t)).

Lemma build_set_id s v ps v' : build_set s EmptyString v = Ok (ps, v') → S_ID ps = XS_PolicySetID s.
Proof.
  rewrite build_set_eq. intros (alg & _ & H)%bind_Ok. cbn beta zeta in H.
  destruct (iterate_of _ _ _) as [[[fails it] inner] v1]. destruct (negb _); [by injection H as <- _|].
  by apply bind_Ok in H as (? & _ & ([] & _ & [= <- _])%bind_Ok).
Qed.

Lemma from_set_weaken id counts l p ps : from_set id counts l ps → from_set id counts (l ++ [p]) ps.
Proof. intros (q & s & Hq & H). exists q, s. split; [|done]. apply elem_of_app. by left. Qed.

Lemma from_group_weaken id counts l p g : from_group id counts l g → from_group id counts (l ++ [p]) g.
Proof. intros (q & s & Hq & H). exists q, s. split; [|done]. apply elem_of_app. by left. Qed.

Lemma isolation_empty id t head s :
  isolation t id head s = EmptyString → count (setCount t) (H_ID head) ≤ 1 ∧ owned id s.
Proof.
  unfold isolation. destruct (1 <? count (setCount t) (H_ID head)) eqn:E.
  - intros H. apply (f_equal bytes_of) in H. by rewrite bytes_of_app in H.
  - apply Nat.ltb_ge in E. by rewrite foreignElement_owned.
Qed.

Lemma vars_of_sets_app a b : vars_of_sets (a ++ b) = vars_of_sets a ++ vars_of_sets b.
Proof. unfold vars_of_sets. by rewrite map_app, concat_app. Qed.

Lemma applying_snoc l p :
  applying (l ++ [p]) = applying l ++ (if topLevelApplies (H_Status (readHead p.2)) then [p] else []).
Proof.
  unfold applying. rewrite filter_app. f_equal. rewrite filter_cons, filter_nil.
  destruct (topLevelApplies _); case_decide; done.
Qed.

Lemma set_step_spec id counts l p t :
  sets_spec id counts l t → sets_spec id counts (l ++ [p]) (set_step id p.1 p.2 t).
Proof.
  intros (Hp & Hpc & Hc & Hs & Hg & Hn & Hv).
  assert (∀ x, x ∈ t_sets t → ∃ ps, x = Some ps ∧ from_set id counts (l ++ [p]) ps) as Hs'
    by (intros x Hx; destruct (Hs x Hx) as (ps & ? & ?); eauto using from_set_weaken).
  assert (∀ x, x ∈ simplified t → ∃ g, x = Some g ∧ from_group id counts (l ++ [p]) g) as Hg'
    by (intros x Hx; destruct (Hg x Hx) as (g & ? & ?); eauto using from_group_weaken).
  assert ((∀ q, q ∈ l ++ [p] → sound q.2) → vars_of_sets (t_sets t) = var_names 0 (t_vars t)) as Hv'
    by (intros Hq; apply Hv; intros q Hin; apply Hq, elem_of_app; by left).
  assert (p ∈ l ++ [p]) as Hin by (apply elem_of_app; right; apply list_elem_of_here).
  unfold set_step, sets_spec. rewrite applying_snoc, length_app.
  destruct (t_err t) as [e|] eqn:Ee; cbn [is_some]; [rewrite Ee; by split_and!|].
  destruct (topLevelApplies (H_Status (readHead p.2))) eqn:Ea; cbn [negb].
  2: { cbn -[vars_of_sets var_names]. split_and!; try done. intros _. specialize (Hn eq_refl). lia. }
  destruct (decode_set _) as [s|e] eqn:Ed; [|cbn -[vars_of_sets var_names]; by split_and!].
  cbn beta zeta.
  set (t1 := drop_lines (DroppedSetKey p.1 (H_ID (readHead p.2)) <$> unknown_keys p.2 (TStruct NSet) []) t).
  destruct (empty (isolation t1 id (readHead p.2) s)) eqn:Er; cbn [negb].
  2: { apply empty_false in Er. cbn -[vars_of_sets var_names]. split_and!; try done.
       - intros x [Hx| ->%list_elem_of_singleton]%elem_of_app; [by apply Hs'|]. eexists. split; [done|].
         exists p, s. split_and!; [done..|]. left. by eexists.
       - intros _. rewrite length_app. cbn. specialize (Hn eq_refl). lia.
       - intros Hq. rewrite vars_of_sets_app, (Hv' Hq). by rewrite app_nil_r. }
  apply empty_true, isolation_empty in Er as [Hcnt Ho]. cbn in Hcnt. rewrite Hc in Hcnt.
  assert (enforced id counts p.2 s) as Henf by by split_and!.
  destruct (simplifiedGroup s) as [g|] eqn:Eg.
  { cbn -[vars_of_sets var_names]. split_and!; try done.
    - intros x [Hx| ->%list_elem_of_singleton]%elem_of_app; [by apply Hg'|]. eexists. split; [done|].
      by exists p, s.
    - intros _. rewrite length_app. cbn. specialize (Hn eq_refl). lia. }
  destruct (build_set _ _ _) as [[ps v]|e] eqn:Eb; [|cbn -[vars_of_sets var_names]; by split_and!].
  cbn -[vars_of_sets var_names]. split_and!; try done.
  - intros x [Hx| ->%list_elem_of_singleton]%elem_of_app; [by apply Hs'|]. eexists. split; [done|].
    exists p, s. split_and!; [done..|by eapply build_set_id|]. right. split; [done|]. by exists (t_vars t), v.
  - intros _. rewrite length_app. cbn. specialize (Hn eq_refl). lia.
  - intros Hq. rewrite vars_of_sets_app, (Hv' Hq). change (vars_of_sets [Some ps]) with (vars_of ps ++ []).
    rewrite app_nil_r. destruct (build_set_wf _ _ _ _ _ _ outside
      (decode_set_known _ _ (Hq _ Hin) Ed) Eb) as (_ & Hle & ->).
    change (t_vars t1) with (t_vars t) in Hle |- *. pose proof (var_names_app 0 (t_vars t) (v - t_vars t)) as E.
    by rewrite <-Nat.le_add_sub in E.
Qed.

(** ** What the third loop leaves *)

Definition named_pips (n : string) (ps : list PIP) : list PIP := filter (λ p, Name p = n) ps.

Definition pips_spec (t0 : tenant) (l : list (nat * json)) (t : tenant) : Prop :=
  t_sets t = t_sets t0 ∧ simplified t = simplified t0
  ∧ (∀ n, count (pipCount t) n = length (named_pips n (t_pips t)))
  ∧ (t_err t = None → t_err t0 = None ∧ Forall2 (λ q p, readPIP q.2 = Ok p) l (t_pips t)).

Lemma pip_step_spec t0 l q t : pips_spec t0 l t → pips_spec t0 (l ++ [q]) (pip_step q.1 q.2 t).
Proof.
  intros (Hs & Hg & Hc & He). unfold pip_step. destruct (t_err t) as [e|] eqn:Ee; cbn [is_some].
  { split_and!; [done..|]. by rewrite Ee. }
  destruct (readPIP q.2) as [p|e] eqn:Ep; [|by split_and!]. split_and!; [done..| |].
  - intros n. cbn. unfold named_pips in *. rewrite filter_app, length_app, filter_cons, filter_nil. unfold count in *.
    destruct (decide (Name p = n)) as [<-|].
    + rewrite lookup_insert_eq. cbn. rewrite <-Hc. lia.
    + rewrite lookup_insert_ne, Hc by done. cbn. lia.
  - intros _. destruct (He eq_refl) as [He0 Hl]. split; [done|]. apply Forall2_app; [done|]. by constructor.
Qed.

(** ** Declarations of one name *)

Lemma distinct_pips_spec counts pips ps ds :
  distinct_pips counts pips = (ps, ds) →
  (∀ n, count counts n = 1 → length (named_pips n pips) ≤ 1) →
  NoDup (Name <$> ps)
  ∧ (∀ p, p ∈ ps → (p ∈ pips ∧ count counts (Name p) = 1)
                   ∨ (1 < count counts (Name p) ∧ ∃ reason, reason ≠ EmptyString ∧ p = isolated_pip (Name p) reason))
  ∧ (∀ n, n ∈ Name <$> ps ↔ n ∈ Name <$> pips ∧ count counts n ≠ 0).
Proof.
  revert counts ps ds. induction pips as [|p pips IH]; intros counts ps ds; cbn [distinct_pips].
  { intros [= <- <-] _. split_and!; [constructor|intros p H; by apply elem_of_nil in H|]. intros n. cbn.
    rewrite elem_of_nil. naive_solver. }
  intros H Hone.
  assert (∀ n, count counts n = 1 → length (named_pips n pips) ≤ 1) as Hone'.
  { intros n Hn. specialize (Hone n Hn). unfold named_pips in *. rewrite filter_cons in Hone.
    case_decide; cbn in Hone; lia. }
  destruct (eqb (count counts (Name p)) 1) eqn:E1.
  - apply (proj1 (eqb_true _ _)) in E1. destruct (distinct_pips counts pips) as [ps' ds'] eqn:Ed.
    injection H as <- <-. destruct (IH _ _ _ Ed Hone') as (Hn & Hp & Hi).
    assert (Name p ∉ Name <$> pips) as Hnot.
    { specialize (Hone _ E1). unfold named_pips in Hone. rewrite filter_cons, decide_True in Hone by done. cbn in Hone.
      intros (q & Hq & Hin)%list_elem_of_fmap. assert (q ∈ filter (λ q, Name q = Name p) pips) as Hf
        by by apply list_elem_of_filter. destruct (filter _ pips); [by apply elem_of_nil in Hf|cbn in Hone; lia]. }
    split_and!.
    + cbn. constructor; [|done]. rewrite Hi. by intros [? _].
    + intros q [->|Hq]%elem_of_cons; [left; split; [apply list_elem_of_here|done]|].
      destruct (Hp _ Hq) as [[? ?]|?]; [left; split; [by apply list_elem_of_further|done]|by right].
    + intros n. cbn. rewrite !elem_of_cons, Hi. split; [|naive_solver]. intros [->|[? ?]]; [|auto].
      split; [auto|]. rewrite E1. done.
  - apply (proj1 (eqb_false _ _)) in E1. destruct (1 <? count counts (Name p)) eqn:E2.
    + apply Nat.ltb_lt in E2. set (reason := "declared " +:+ pretty (count counts (Name p)) +:+ " times") in H.
      destruct (distinct_pips (<[Name p:=0]> counts) pips) as [ps' ds'] eqn:Ed. injection H as <- <-.
      assert (∀ n, count (<[Name p:=0]> counts) n = if decide (n = Name p) then 0 else count counts n) as Hins.
      { intros n. unfold count. case_decide as Hd; [by rewrite Hd, lookup_insert_eq|by rewrite lookup_insert_ne]. }
      destruct (IH _ _ _ Ed) as (Hn & Hp & Hi).
      { intros n. rewrite Hins. case_decide; [done|]. apply Hone'. }
      split_and!.
      * cbn. constructor; [|done]. rewrite Hi, Hins, decide_True by done. by intros [_ ?].
      * intros q [->|Hq]%elem_of_cons.
        { right. split; [done|]. exists reason. split; [|done]. unfold reason. done. }
        specialize (Hp _ Hq). rewrite Hins in Hp. case_decide; [destruct Hp as [[_ ?]|[? _]]; lia|].
        destruct Hp as [[? ?]|?]; [left; split; [by apply list_elem_of_further|done]|by right].
      * intros n. cbn. rewrite !elem_of_cons, Hi, Hins. case_decide as Hd; [rewrite Hd; intuition lia|]. naive_solver.
    + apply Nat.ltb_ge in E2. destruct (IH _ _ _ H Hone') as (Hn & Hp & Hi). split_and!; [done|..].
      * intros q Hq. destruct (Hp _ Hq) as [[? ?]|?]; [left; split; [by apply list_elem_of_further|done]|by right].
      * intros n. rewrite Hi. cbn. rewrite elem_of_cons. split; [naive_solver|]. intros [[->|?] ?]; [lia|done].
Qed.

(** ** The documents *)

Lemma document_sound k n name data raws :
  document k n name data = Ok raws → (name, TSlice TLeaf) ∈ declared n → ∀ raw, raw ∈ raws → sound raw.
Proof.
  unfold document. destruct (Json.parse data) as [v|] eqn:Ev; [|done]. intros H Hn raw Hraw.
  apply bind_Ok in H as (ms & Hms & H). apply wrap_Ok in Hms.
  destruct (field ms name) as [w|] eqn:Ef; [|done].
  destruct (filtered_field _ _ _ _ _ _ Hms Hn Ef) as (u & Hu & ->).
  destruct u as [| | | |r items|r ms']; try done. cbn in H. injection H as <-.
  change (map (λ w, filter_value w TLeaf) items) with ((λ w, filter_value w TLeaf) <$> items) in Hraw.
  apply list_elem_of_fmap in Hraw as (x & -> & Hx). rewrite leaf.
  assert (sound v) as Hv by (intros y Hy; by eapply Json.parse_parts).
  apply (sound_inner x (Json.JArr r items)); [exact Hx|]. by eapply sound_inner.
Qed.

Lemma sets_sound data raws : sets_of data = Ok raws → ∀ raw, raw ∈ raws → sound raw.
Proof. intros H. eapply document_sound; [exact H|]. declared_tac. Qed.

Lemma pips_sound data raws : pips_of data = Ok raws → ∀ raw, raw ∈ raws → sound raw.
Proof. intros H. eapply document_sound; [exact H|]. declared_tac. Qed.

Lemma own_from_in id i raws p : p ∈ own_from id i raws → p.2 ∈ own id raws.
Proof. intros H. rewrite <-(own_from_snd id i). by apply list_elem_of_fmap_2. Qed.

Lemma own_in id raws raw : raw ∈ own id raws → raw ∈ raws ∧ tenant_of raw = Some id.
Proof. unfold own. intros [? ?]%list_elem_of_filter. done. Qed.

(** The ID a set is counted by is the one it is built with. *)
Lemma head_id raw s : decode_set (filter_value raw (TStruct NSet)) = Ok s → H_ID (readHead raw) = XS_PolicySetID s.
Proof.
  rewrite decode_set_eq. intros H. apply bind_Ok in H as (ms & Hms & H).
  rewrite (filter_leaf _ _ _ "policySetId" Hms ltac:(declared_tac)) in H. result_inv. cbn [XS_PolicySetID].
  match goal with H : str (leaf_of _ "policySetId") = Ok _ |- _ => rename H into Hid end.
  assert (∃ ms', struct_of (filter_value raw (TStruct NHead)) = Ok ms') as [ms' Hh].
  { destruct raw; try discriminate; [by eexists|]. rewrite filter_object. by eexists. }
  unfold readHead. rewrite Hh. cbn [H_ID]. unfold text_or_empty.
  by rewrite (filter_leaf _ _ _ "policySetId" Hh ltac:(declared_tac)), Hid.
Qed.

(** ** The sets of a tenant, and its counts *)

Definition counted (l : list (nat * json)) : tenant := turns (λ _ raw, count_set (H_ID (readHead raw))) new_tenant l.

Lemma counted_spec l :
  counted l = MkTenant [] [] [] ∅ (setCount (counted l)) 0 None []
  ∧ ∀ k, count (setCount (counted l)) k = length (same_id k l).
Proof.
  unfold counted. apply (turns_ind _ _ (λ l t, t = MkTenant [] [] [] ∅ (setCount t) 0 None []
    ∧ ∀ k, count (setCount t) k = length (same_id k l))); [done|].
  intros l' p t [Ht Hk]. split; [by rewrite Ht|]. intros k. unfold same_id. rewrite filter_app, length_app, filter_cons, filter_nil.
  cbn [count_set setCount]. unfold count in *. case_decide as Hd.
  - rewrite Hd, lookup_insert_eq. cbn. rewrite Hk. unfold same_id. lia.
  - rewrite lookup_insert_ne, Hk by done. unfold same_id. cbn. lia.
Qed.

Lemma sets_turns id l : sets_spec id (setCount (counted l)) l (turns (set_step id) (counted l) l).
Proof.
  apply (turns_ind _ _ (sets_spec id (setCount (counted l)))).
  - destruct (counted_spec l) as [-> _]. unfold sets_spec. cbn. split_and!; try done; intros x H; by apply elem_of_nil in H.
  - intros. by apply set_step_spec.
Qed.

Lemma pips_turns t0 l : t_pips t0 = [] → pipCount t0 = ∅ → pips_spec t0 l (turns pip_step t0 l).
Proof.
  intros Hp Hc. apply (turns_ind _ _ (pips_spec t0)).
  - unfold pips_spec. rewrite Hp, Hc. split_and!; [done..|intros H; split; [done|constructor]].
  - intros. by apply pip_step_spec.
Qed.

(** What the loops leave a tenant with whose elements were all read. *)
Record read_tenant (id : string) (sets pips : list (nat * json)) (t : tenant) : Prop := {
  rt_sets : ∀ x, x ∈ t_sets t → ∃ ps, x = Some ps ∧ from_set id (setCount (counted sets)) sets ps;
  rt_groups : ∀ x, x ∈ simplified t → ∃ g, x = Some g ∧ from_group id (setCount (counted sets)) sets g;
  rt_count : length (simplified t) + length (t_sets t) = length (applying sets);
  rt_vars : (∀ p, p ∈ sets → sound p.2) → NoDup (vars_of_sets (t_sets t));
  rt_pips : Forall2 (λ q p, readPIP q.2 = Ok p) pips (t_pips t);
  rt_names : ∀ n, count (pipCount t) n = length (named_pips n (t_pips t));
}.

Lemma state_read id sets pips : t_err (state_of id sets pips) = None → read_tenant id sets pips (state_of id sets pips).
Proof.
  intros He. pose proof (sets_turns id sets) as (Hp & Hpc & _ & Hs & Hg & Hn & Hv).
  destruct (pips_turns _ pips Hp Hpc) as (Es & Eg & Hc & Hl). destruct (Hl He) as [He0 Hf].
  change (turns pip_step (turns (set_step id) (counted sets) sets) pips) with (state_of id sets pips) in *.
  constructor; rewrite ?Es, ?Eg; [done|done|by apply Hn| |done|done].
  intros H. rewrite (Hv H). apply var_names_NoDup.
Qed.

Lemma named_pips_in n ps : n ∈ Name <$> ps ↔ length (named_pips n ps) ≠ 0.
Proof.
  unfold named_pips. rewrite list_elem_of_fmap. split.
  - intros (p & -> & Hp) H%nil_length_inv. apply (elem_of_nil p). rewrite <-H. by apply list_elem_of_filter.
  - destruct (filter (λ p, Name p = n) ps) as [|p l] eqn:E; [done|]. intros _.
    assert (p ∈ filter (λ p, Name p = n) ps) as [? ?]%list_elem_of_filter by (rewrite E; apply list_elem_of_here). by exists p.
Qed.

(** The declarations a tree gets. *)
Lemma tree_pips id sets pips t ps ds :
  read_tenant id sets pips t → distinct_pips (pipCount t) (t_pips t) = (ps, ds) →
  NoDup (Name <$> ps)
  ∧ (∀ p, p ∈ ps → (p ∈ t_pips t ∧ length (named_pips (Name p) (t_pips t)) = 1)
                   ∨ ∃ reason, reason ≠ EmptyString ∧ p = isolated_pip (Name p) reason)
  ∧ (∀ n, n ∈ Name <$> ps ↔ n ∈ Name <$> t_pips t).
Proof.
  intros Ht H. pose proof (rt_names _ _ _ _ Ht) as Hc.
  destruct (distinct_pips_spec _ _ _ _ H) as (Hn & Hp & Hi); [intros n; rewrite Hc; lia|].
  split_and!; [done| |].
  - intros p Hin. rewrite <-Hc. destruct (Hp p Hin) as [?|[_ ?]]; auto.
  - intros n. rewrite Hi, Hc, named_pips_in. intuition lia.
Qed.

(** ** Why a tenant fails *)

(** The element of the tenant an error of reading is about, by its position. *)
Definition read_cause (id : string) (sets pips : list (nat * json)) (e : tenant_error) : Prop :=
  match e with
  | SetUndecoded i e =>
      ∃ raw, (i, raw) ∈ sets ∧ topLevelApplies (H_Status (readHead raw)) = true
             ∧ decode_set (filter_value raw (TStruct NSet)) = Err e
  | SetUnbuilt k e =>
      ∃ i raw s, (i, raw) ∈ sets ∧ enforced id (setCount (counted sets)) raw s ∧ XS_PolicySetID s = k
                 ∧ simplifiedGroup s = None ∧ ∃ v, build_set s EmptyString v = Err e
  | PIPUnread i e => ∃ raw, (i, raw) ∈ pips ∧ readPIP raw = Err e
  end.

Lemma read_cause_weaken id sets pips q e : read_cause id sets pips e → read_cause id sets (pips ++ [q]) e.
Proof. destruct e as [| |i e]; [done..|]. intros (raw & ? & ?). exists raw. split; [|done]. apply elem_of_app. by left. Qed.

Lemma set_error id sets l t e :
  t = turns (set_step id) (counted sets) l → l ⊆ sets → t_err t = Some e → read_cause id sets [] e.
Proof.
  intros -> . revert e. cut (∀ l, setCount (turns (set_step id) (counted sets) l) = setCount (counted sets)
    ∧ (l ⊆ sets → ∀ e, t_err (turns (set_step id) (counted sets) l) = Some e → read_cause id sets [] e)).
  { intros H e Hl He. by eapply H. }
  clear l. apply (turns_ind _ _ (λ l t, setCount t = setCount (counted sets) ∧ (l ⊆ sets → ∀ e, t_err t = Some e → read_cause id sets [] e))).
  { split; [done|]. intros _ e. destruct (counted_spec sets) as [-> _]. done. }
  intros l p t [Hc IH]. unfold set_step.
  destruct (t_err t) as [e|] eqn:Ee; cbn [is_some].
  { split; [done|]. rewrite Ee. intros Hl. apply IH. intros q Hq. apply Hl, elem_of_app. by left. }
  destruct (topLevelApplies _) eqn:Ea; cbn [negb]; [|split; [done|]; intros _ e; cbn; by rewrite Ee].
  destruct (decode_set _) as [s|e] eqn:Ed.
  2: { split; [done|]. intros Hl e' [= <-]. exists p.2. split_and!; [|done..]. rewrite <-surjective_pairing.
       apply Hl, elem_of_app. right. apply list_elem_of_here. }
  cbn beta zeta. destruct (empty (isolation _ _ _ _)) eqn:Er; cbn [negb]; [|split; [done|]; intros _ e; cbn; by rewrite Ee].
  apply empty_true, isolation_empty in Er as [Hcnt Ho]. cbn in Hcnt. rewrite Hc in Hcnt.
  destruct (simplifiedGroup s) eqn:Eg; [split; [done|]; intros _ e; cbn; by rewrite Ee|].
  destruct (build_set _ _ _) as [[ps v]|e] eqn:Eb; [split; [done|]; intros _ e; cbn; by rewrite Ee|].
  split; [done|]. intros Hl e' [= <-]. exists p.1, p.2, s. split_and!; [|by split_and!|done|done|by eexists].
  rewrite <-surjective_pairing. apply Hl, elem_of_app. right. apply list_elem_of_here.
Qed.

Lemma state_error id sets pips e : t_err (state_of id sets pips) = Some e → read_cause id sets pips e.
Proof.
  unfold state_of. change (turns _ new_tenant sets) with (counted sets).
  revert pips e. apply (turns_ind _ _ (λ l t, ∀ e, t_err t = Some e → read_cause id sets l e)).
  { intros e He. by eapply set_error; [|reflexivity|]. }
  intros l p t IH e. unfold pip_step. destruct (t_err t) as [e'|] eqn:Ee; cbn [is_some].
  { rewrite Ee. intros [= <-]. by apply read_cause_weaken, IH. }
  destruct (readPIP p.2) as [q|e'] eqn:Ep; [cbn; by rewrite Ee|]. intros [= <-]. exists p.2.
  split; [|done]. rewrite <-surjective_pairing. apply elem_of_app. right. apply list_elem_of_here.
Qed.

(** The first declaration without the prefix is what a list of readable ones is refused for. *)
Lemma check_pips_refuse ps i names e :
  NoDup (Name <$> ps) → (∀ p, p ∈ ps → Name p ∉ names) → (∀ p, p ∈ ps → prefixed p → wf_pip p) →
  loop check_pip i (Some <$> ps) names = Err e → ∃ p, p ∈ ps ∧ ¬ prefixed p ∧ e = PIPPrefix (Name p).
Proof.
  revert i names. induction ps as [|p ps IH]; intros i names Hn Hf Hw; [done|].
  cbn [fmap list_fmap loop] in *. apply NoDup_cons in Hn as [Hnot Hn].
  destruct (decide (prefixed p)) as [Hp|Hp].
  - assert (check_pip i (Some p) names = Ok ({[Name p]} ∪ names)) as ->.
    { apply check_pip_Ok. exists p. split_and!; [done|apply Hw; [apply list_elem_of_here|done]|apply Hf, list_elem_of_here|done]. }
    cbn [mbind result_bind]. intros H. eapply IH in H as (q & Hq & H); [|done| |].
    + exists q. split; [by apply list_elem_of_further|done].
    + intros q Hq. rewrite elem_of_union, elem_of_singleton. intros [Heq|Hin].
      * apply Hnot. rewrite <-Heq. by apply list_elem_of_fmap_2.
      * by apply (Hf q); [apply list_elem_of_further|].
    + intros q Hq. apply Hw. by apply list_elem_of_further.
  - assert (check_pip i (Some p) names = Err (PIPPrefix (Name p))) as ->.
    { unfold check_pip. cbn zeta. destruct (HasPrefix (Name p) "subject.") eqn:E; [|done].
      by apply HasPrefix_true in E. }
    intros [= <-]. exists p. split_and!; [apply list_elem_of_here|done..].
Qed.

Lemma validate_refuse t ps e :
  PIPs t = Some <$> ps → NoDup (Name <$> ps) → (∀ p, p ∈ ps → prefixed p → wf_pip p) →
  (∀ p, p ∈ Simplified t → ∃ g, p = Some g ∧ wf_group g) →
  (∀ p, p ∈ Sets t → ∃ s, p = Some s ∧ wf_set ∅ s) → NoDup (vars_of_sets (Sets t)) →
  validate t = Err e → ∃ p, p ∈ ps ∧ ¬ prefixed p ∧ e = PIPPrefix (Name p).
Proof.
  intros Hps Hn Hw Hg Hs Hv He. destruct (loop check_pip 0 (PIPs t) ∅) as [names|e'] eqn:El.
  - exfalso. enough (validate t = Ok tt) by congruence. apply validate_Ok. split_and!; [|done..].
    assert (is_ok (loop check_pip 0 (PIPs t) ∅) = true) as Hok by by rewrite El.
    apply check_pips_Ok in Hok as (qs & Hqs & Hf & Hd & _). by exists qs.
  - unfold validate in He. rewrite El in He. injection He as <-. rewrite Hps in El.
    eapply check_pips_refuse; [exact Hn| |exact Hw|exact El]. intros p _. apply not_elem_of_empty.
Qed.

(** What a tenant's elements, all readable, make: a tree, but for a name without its prefix. *)
Lemma made_wf id sets pips t ps ds :
  (∀ p, p ∈ sets → sound p.2) → (∀ p, p ∈ pips → sound p.2) →
  read_tenant id sets pips t → distinct_pips (pipCount t) (t_pips t) = (ps, ds) →
  (∀ p, p ∈ ps → prefixed p → wf_pip p)
  ∧ (∀ p, p ∈ simplified t → ∃ g, p = Some g ∧ wf_group g)
  ∧ (∀ p, p ∈ t_sets t → ∃ s, p = Some s ∧ wf_set ∅ s).
Proof.
  intros Hss Hsp Ht Hd. split_and!.
  - intros p Hp Hpre. destruct (proj1 (proj2 (tree_pips _ _ _ _ _ _ Ht Hd)) _ Hp) as [[Hin _]|(reason & Hr & Hi)].
    + apply list_elem_of_lookup in Hin as [i Hi].
      destruct (Forall2_lookup_r _ _ _ _ _ (rt_pips _ _ _ _ Ht) Hi) as (q & Hq & Hread).
      eapply readPIP_wf; [|exact Hread|done]. apply Hsp. by eapply list_elem_of_lookup_2.
    + split; [done|]. assert (Isolated p = reason) as Hre by by rewrite Hi. rewrite decide_False by by rewrite Hre.
      by rewrite Hre.
  - intros x Hx. destruct (rt_groups _ _ _ _ Ht x Hx) as (g & -> & p & s & Hp & (_ & Hdec & _) & Hg).
    exists g. split; [done|]. eapply simplifiedGroup_wf; [|exact Hg]. eapply decode_set_known; [|exact Hdec]. by apply Hss.
  - intros x Hx. destruct (rt_sets _ _ _ _ Ht x Hx) as (s' & -> & p & s & Hp & Hdec & _ & [(reason & Hr & ->)|(_ & v & v' & Hb)]).
    + exists (isolated_set s reason). split; [done|]. constructor; cbn; try done.
      * apply list_elem_of_here.
      * apply condition_wf; [apply outside|declared_tac].
      * intros q Hq. by apply elem_of_nil in Hq.
      * intros q Hq. by apply elem_of_nil in Hq.
    + exists s'. split; [done|]. eapply build_set_wf; [apply outside| |exact Hb]. eapply decode_set_known; [|exact Hdec]. by apply Hss.
Qed.

(** ** Alone among its own *)

Lemma filter_fmap_snd {A B} (f : B → Prop) `{∀ b, Decision (f b)} (l : list (A * B)) :
  filter f l.*2 = (filter (λ p, f p.2) l).*2.
Proof. induction l as [|p l IH]; [done|]. cbn [fmap list_fmap]. rewrite !filter_cons, IH. by case_decide. Qed.

Lemma alone_in {A} (l : list A) x : x ∈ l → length l ≤ 1 → l = [x].
Proof.
  destruct l as [|y [|z l]]; cbn; [by intros ?%elem_of_nil|by intros ->%list_elem_of_singleton|lia].
Qed.

Lemma alone_filter {A B} (f : B → Prop) `{∀ b, Decision (f b)} (l : list (A * B)) p :
  p ∈ l → f p.2 → length (filter (λ p, f p.2) l) ≤ 1 → filter f l.*2 = [p.2].
Proof.
  intros Hp Hf Hl. rewrite filter_fmap_snd. rewrite (alone_in _ p); [done|by apply list_elem_of_filter|done].
Qed.

(** The name an element declares. *)
Definition declared_name (raw : json) : option string :=
  match readPIP raw with Ok q => Some (Name q) | Err _ => None end.

Lemma named_read (l : list (nat * json)) ps n :
  Forall2 (λ q p, readPIP q.2 = Ok p) l ps →
  Forall2 (λ raw p, readPIP raw = Ok p) (filter (λ raw, declared_name raw = Some n) l.*2) (named_pips n ps).
Proof.
  unfold named_pips. induction 1 as [|q p l ps Hq _ IH]; [constructor|].
  assert (declared_name q.2 = Some (Name p)) as Hd by (unfold declared_name; by rewrite Hq).
  cbn [fmap list_fmap]. rewrite !filter_cons.
  destruct (decide (Name p = n)) as [Hn|Hn].
  - rewrite decide_True by by rewrite Hd, Hn. by constructor.
  - rewrite decide_False by by rewrite Hd; intros [= ?]. done.
Qed.

Lemma alone_read (l : list (nat * json)) ps q :
  Forall2 (λ q p, readPIP q.2 = Ok p) l ps → q ∈ ps → length (named_pips (Name q) ps) = 1 →
  ∃ raw, filter (λ raw, declared_name raw = Some (Name q)) l.*2 = [raw] ∧ readPIP raw = Ok q.
Proof.
  intros Hl Hq H1. pose proof (named_read _ _ (Name q) Hl) as H.
  rewrite (alone_in (named_pips (Name q) ps) q) in H; [|by apply list_elem_of_filter|lia].
  apply Forall2_cons_inv_r in H as (raw & l' & Hr & Hl' & ->). apply Forall2_nil_inv_r in Hl' as ->. by exists raw.
Qed.

Lemma simplifiedGroup_id s g : simplifiedGroup s = Some g → G_ID g = XS_PolicySetID s.
Proof.
  unfold simplifiedGroup. destruct (_ || _); [done|]. destruct (XS_Target s); [|done]. cbn [mbind option_bind].
  destruct (onlyEquality _ _); [|done]. cbn [mbind option_bind]. destruct (negb _); [done|].
  destruct (mapM _ _); [|done]. by intros [= <-].
Qed.

(** Members with other keys do not count. *)
Lemma last_member_filter (P : string → Prop) `{∀ k, Decision (P k)} name ms :
  P name → last_member name (named (filter (λ m, P (key_name m.1)) ms)) = last_member name (named ms).
Proof.
  intros Hn. induction ms as [|[k w] ms IH]; [done|].
  assert (∀ l, named ((k, w) :: l) = (key_name k, w) :: named l) as Hnamed by done.
  rewrite filter_cons. cbn [fst]. case_decide as Hk; rewrite !Hnamed; cbn [last_member].
  - by rewrite IH.
  - rewrite IH. destruct (last_member name (named ms)); [done|]. destruct (eqb (key_name k) name) eqn:E; [|done].
    apply (proj1 (eqb_true _ _)) in E. by rewrite E in Hk.
Qed.

Lemma list_omap_ext_in {A B} (f g : A → option B) (l : list A) : (∀ x, x ∈ l → f x = g x) → omap f l = omap g l.
Proof.
  induction l as [|x l IH]; intros H; [done|]. cbn. rewrite (H x (list_elem_of_here _ _)), IH; [done|].
  intros y Hy. by apply H, list_elem_of_further.
Qed.

(** C2: A tenant's tree, its failure and its dropped lines depend on its own elements, in
    their order, and on nothing else of the export: two exports that agree on them give
    the same, but for the positions the texts name. *)
Theorem tenants_apart s p s' p' x x' sets pips sets' pips' id :
  FromRegular s p = Ok x → sets_of s = Ok sets → pips_of p = Ok pips →
  FromRegular s' p' = Ok x' → sets_of s' = Ok sets' → pips_of p' = Ok pips' →
  own id sets = own id sets' → own id pips = own id pips' →
  Trees x !! id = Trees x' !! id
  ∧ unplaced_failure <$> Failed x !! id = unplaced_failure <$> Failed x' !! id
  ∧ fmap (M:=list) unplaced_line <$> Dropped x !! id = fmap (M:=list) unplaced_line <$> Dropped x' !! id.
Proof.
  intros Hx Hs Hp Hx' Hs' Hp' Es Ep.
  pose proof (export_lookup _ _ _ _ _ id Hx Hs Hp) as H. pose proof (export_lookup _ _ _ _ _ id Hx' Hs' Hp') as H'.
  assert (unplaced (state_of id (own_from id 0 sets) (own_from id 0 pips))
    = unplaced (state_of id (own_from id 0 sets') (own_from id 0 pips'))) as E%finish_position
    by by apply state_position; rewrite !own_from_snd.
  rewrite <-Es, <-Ep in H'. destruct (own id sets), (own id pips); destruct H as (-> & -> & ->), H' as (-> & -> & ->); done.
Qed.

(** No element is lost: a tenant an element names has a tree or a failure, never both,
    no other has either, only a tree comes with dropped lines, and the orphans are exactly
    the positions of the elements that name no tenant. *)
Theorem export_partition s p x sets pips :
  FromRegular s p = Ok x → sets_of s = Ok sets → pips_of p = Ok pips →
  (∀ id, tenant_names id sets pips ↔ is_Some (Trees x !! id) ∨ is_Some (Failed x !! id))
  ∧ (∀ id, ¬ (is_Some (Trees x !! id) ∧ is_Some (Failed x !! id)))
  ∧ (∀ id, is_Some (Dropped x !! id) → is_Some (Trees x !! id))
  ∧ ∀ k i, (k, i) ∈ Orphans x ↔
      ∃ raw, (match k with KindSet => sets | KindPIP => pips end) !! i = Some raw ∧ tenant_of raw = None.
Proof.
  intros Hx Hs Hp. pose proof (λ id, export_lookup _ _ _ _ _ id Hx Hs Hp) as H.
  assert (∀ t, (is_Some (tree_of t) ∨ is_Some (failure_of t)) ∧ ¬ (is_Some (tree_of t) ∧ is_Some (failure_of t))
    ∧ (is_Some (dropped_of t) → is_Some (tree_of t))) as Ht.
  { intros t. unfold tree_of, failure_of, dropped_of. destruct (finish t) as [[tree [|d ds]]|e];
      (split_and!; [eauto|by intros [[??] [??]]|]); try done; by intros [??]. }
  split_and!.
  - intros id. specialize (H id). rewrite tenant_names_own.
    destruct (own id sets), (own id pips); destruct H as (-> & -> & _);
      [split; [by intros []|by intros [[??]|[??]]]|split; [intros _; apply Ht|by intros _ [??]]..].
  - intros id. specialize (H id).
    destruct (own id sets), (own id pips); destruct H as (-> & -> & _); [by intros [[??] _]|apply Ht..].
  - intros id. specialize (H id).
    destruct (own id sets), (own id pips); destruct H as (-> & _ & ->); [by intros [??]|apply Ht..].
  - intros k i. apply FromRegular_Ok in Hx as (sets1 & pips1 & Hs1 & Hp1 & ->). cbn [Orphans].
    rewrite Hs in Hs1. rewrite Hp in Hp1. injection Hs1 as <-. injection Hp1 as <-. apply read_elements_orphans.
Qed.

(** The state a tree comes from. *)
Lemma tree_state s p x sets pips id tree :
  FromRegular s p = Ok x → sets_of s = Ok sets → pips_of p = Ok pips → Trees x !! id = Some tree →
  ∃ t ps ds, read_tenant id (own_from id 0 sets) (own_from id 0 pips) t
    ∧ distinct_pips (pipCount t) (t_pips t) = (ps, ds) ∧ tree = MkTree (simplified t) (t_sets t) (Some <$> ps).
Proof.
  intros Hx Hs Hp Ht. pose proof (export_lookup _ _ _ _ _ id Hx Hs Hp) as H.
  assert (tree_of (state_of id (own_from id 0 sets) (own_from id 0 pips)) = Some tree) as E.
  { destruct (own id sets), (own id pips); destruct H as (H & _); rewrite Ht in H; done. }
  unfold tree_of, finish in E. destruct (t_err _) eqn:He; [done|].
  destruct (distinct_pips _ _) as [ps ds] eqn:Ed. unfold NewTree in E.
  destruct (validate _); [|done]. injection E as <-.
  exists (state_of id (own_from id 0 sets) (own_from id 0 pips)), ps, ds. by split_and!; [apply state_read| |].
Qed.

(** C5: What a tree enforces is its tenant's own. A regular set or a simplified group that
    is not isolated comes from a top-level set of the tenant that applies, that alone among
    its top-level sets has its ID, and that names no other tenant anywhere inside; an
    information point that is not isolated comes from the one declaration of its name. *)
Theorem tree_enforces_own s p x sets pips id tree :
  FromRegular s p = Ok x → sets_of s = Ok sets → pips_of p = Ok pips → Trees x !! id = Some tree →
  let alone k s :=
    ∃ raw, filter (λ raw, H_ID (readHead raw) = k) (own id sets) = [raw]
           ∧ topLevelApplies (H_Status (readHead raw)) = true
           ∧ decode_set (filter_value raw (TStruct NSet)) = Ok s ∧ owned id s in
  (∀ ps, Some ps ∈ Sets tree → S_Isolated ps = EmptyString →
     ∃ s v v', alone (S_ID ps) s ∧ build_set s EmptyString v = Ok (ps, v'))
  ∧ (∀ g, Some g ∈ Simplified tree → ∃ s, alone (G_ID g) s ∧ simplifiedGroup s = Some g)
  ∧ (∀ q, Some q ∈ PIPs tree → Isolated q = EmptyString →
       ∃ raw, filter (λ raw, declared_name raw = Some (Name q)) (own id pips) = [raw]
              ∧ readPIP raw = Ok q).
Proof.
  intros Hx Hs Hp Ht. destruct (tree_state _ _ _ _ _ _ _ Hx Hs Hp Ht) as (t & ps & ds & Hr & Hd & ->). cbn zeta.
  assert (∀ p s k, p ∈ own_from id 0 sets → enforced id (setCount (counted (own_from id 0 sets))) p.2 s →
    XS_PolicySetID s = k → ∃ raw, filter (λ raw, H_ID (readHead raw) = k) (own id sets) = [raw]
       ∧ topLevelApplies (H_Status (readHead raw)) = true
       ∧ decode_set (filter_value raw (TStruct NSet)) = Ok s ∧ owned id s) as Halone.
  { intros q s' k Hq (Ha & Hdec & Hcnt & Ho) <-. exists q.2. split_and!; [|done..].
    rewrite (head_id _ _ Hdec), (proj2 (counted_spec _)) in Hcnt. unfold same_id in Hcnt.
    rewrite <-(own_from_snd id 0). by apply (alone_filter (λ raw, H_ID (readHead raw) = XS_PolicySetID s')); [|apply head_id|]. }
  split_and!.
  - intros ps' Hps Hiso. destruct (rt_sets _ _ _ _ Hr _ Hps) as (? & [= <-] & q & s' & Hq & Hdec & Hid & [(reason & Hre & ->)|(Henf & v & v' & Hb)]).
    + done.
    + exists s', v, v'. split; [|done]. by eapply Halone.
  - intros g Hg. destruct (rt_groups _ _ _ _ Hr _ Hg) as (? & [= <-] & q & s' & Hq & Henf & Hgr).
    exists s'. split; [|done]. eapply Halone; [done..|]. by rewrite (simplifiedGroup_id _ _ Hgr).
  - intros q Hq Hiso. cbn [PIPs] in Hq. apply list_elem_of_fmap in Hq as (? & [= <-] & Hq).
    destruct (proj1 (proj2 (tree_pips _ _ _ _ _ _ Hr Hd)) _ Hq) as [[Hin H1]|(reason & Hre & Hi)].
    + rewrite <-(own_from_snd id 0). eapply alone_read; [exact (rt_pips _ _ _ _ Hr)|exact Hin|exact H1].
    + by rewrite Hi in Hiso.
Qed.

(** A tree leaves nothing out but what it lists: it holds one set or group per
    top-level set of its tenant that applies, and it declares exactly the names its
    tenant's declarations have, each once. *)
Theorem tree_complete s p x sets pips id tree :
  FromRegular s p = Ok x → sets_of s = Ok sets → pips_of p = Ok pips → Trees x !! id = Some tree →
  length (Simplified tree) + length (Sets tree)
  = length (filter (λ raw, topLevelApplies (H_Status (readHead raw)) = true) (own id sets))
  ∧ (∀ raw, raw ∈ own id pips → ∃ q, readPIP raw = Ok q)
  ∧ ∃ qs, PIPs tree = Some <$> qs ∧ NoDup (Name <$> qs)
      ∧ ∀ n, n ∈ Name <$> qs ↔ ∃ raw, raw ∈ own id pips ∧ declared_name raw = Some n.
Proof.
  intros Hx Hs Hp Ht. destruct (tree_state _ _ _ _ _ _ _ Hx Hs Hp Ht) as (t & ps & ds & Hr & Hd & ->).
  pose proof (rt_pips _ _ _ _ Hr) as Hf. destruct (tree_pips _ _ _ _ _ _ Hr Hd) as (Hn & _ & Hi). split_and!.
  - cbn [Simplified Sets]. rewrite (rt_count _ _ _ _ Hr). unfold applying.
    by rewrite <-(own_from_snd id 0), filter_fmap_snd, length_fmap.
  - intros raw Hraw. rewrite <-(own_from_snd id 0) in Hraw. apply list_elem_of_fmap in Hraw as (q & -> & Hq).
    apply list_elem_of_lookup in Hq as [i Hq]. destruct (Forall2_lookup_l _ _ _ _ _ Hf Hq) as (y & _ & Hy). eauto.
  - exists ps. split_and!; [done..|]. intros n. rewrite Hi, named_pips_in.
    rewrite <-(Forall2_length _ _ _ (named_read _ _ n Hf)), own_from_snd.
    transitivity (∃ raw, raw ∈ filter (λ raw, declared_name raw = Some n) (own id pips)).
    + destruct (filter _ (own id pips)) as [|raw l]; [split; [done|by intros [? ?%elem_of_nil]]|].
      split; [intros _; exists raw; apply list_elem_of_here|done].
    + split; [intros (raw & [? ?]%list_elem_of_filter); by exists raw|].
      intros (raw & ? & ?). exists raw. by apply list_elem_of_filter.
Qed.

(** C6: A tenant fails only for a reason in its own elements: an applying set or a
    declaration that does not decode, an algorithm, an effect or a PIP type the reader does
    not know, and otherwise a declaration whose name lacks the prefix. Everything else the
    reader makes passes every check of the tree. *)
Theorem failure_causes s p x sets pips id f :
  FromRegular s p = Ok x → sets_of s = Ok sets → pips_of p = Ok pips → Failed x !! id = Some f →
  match f with
  | ReadFailed e => read_cause id (own_from id 0 sets) (own_from id 0 pips) e
  | TreeRefused e =>
      ∃ raw q, raw ∈ own id pips ∧ declared_name raw = Some q
               ∧ ¬ bytes_of "subject." `prefix_of` bytes_of q ∧ e = PIPPrefix q
  end.
Proof.
  intros Hx Hs Hp Hf. pose proof (export_lookup _ _ _ _ _ id Hx Hs Hp) as H.
  assert (failure_of (state_of id (own_from id 0 sets) (own_from id 0 pips)) = Some f) as E.
  { destruct (own id sets), (own id pips); destruct H as (_ & H & _); rewrite Hf in H; done. }
  clear H Hf. unfold failure_of, finish in E. destruct (t_err _) as [e|] eqn:He.
  { injection E as <-. by apply state_error. }
  apply state_read in He as Hr. destruct (distinct_pips _ _) as [ps ds] eqn:Ed. unfold NewTree in E.
  destruct (validate _) as [|e] eqn:Ev; [done|]. injection E as <-.
  assert (∀ r, r ∈ own_from id 0 sets → sound r.2) as Hss
    by (intros r Hin%own_from_in%own_in; eapply sets_sound; [exact Hs|apply Hin]).
  assert (∀ r, r ∈ own_from id 0 pips → sound r.2) as Hsp
    by (intros r Hin%own_from_in%own_in; eapply pips_sound; [exact Hp|apply Hin]).
  destruct (made_wf _ _ _ _ _ _ Hss Hsp Hr Ed) as (Hw & Hg & Hst).
  destruct (tree_pips _ _ _ _ _ _ Hr Ed) as (Hn & _ & Hi).
  eapply (validate_refuse _ ps) in Ev as (q & Hq & Hpre & ->);
    [|done|exact Hn|exact Hw|exact Hg|exact Hst|exact (rt_vars _ _ _ _ Hr Hss)].
  assert (Name q ∈ Name <$> ps) as Hin by by apply list_elem_of_fmap_2.
  apply Hi in Hin. apply list_elem_of_fmap in Hin as (q' & Hqq & Hin). apply list_elem_of_lookup in Hin as [i Hq'].
  destruct (Forall2_lookup_r _ _ _ _ _ (rt_pips _ _ _ _ Hr) Hq') as (r & Hr' & Hread).
  exists r.2, (Name q). split_and!; [by eapply own_from_in, list_elem_of_lookup_2| |exact Hpre|done].
  unfold declared_name. by rewrite Hread, Hqq.
Qed.

(** A field of an element is decoded from the last member whose key is the field's
    name byte for byte, once its escapes are decoded; a member with any other key, one that
    differs in letter case included, changes nothing that is decoded. *)
Theorem exact_keys n raw ms name t ms' :
  (name, t) ∈ declared n →
  struct_of (filter_value (Json.JObj raw ms) (TStruct n)) = Ok ms' →
  field ms' name = (λ w, filter_value w t) <$> last_member name (named ms)
  ∧ ∀ raw' ms2,
      filter (λ m, key_name m.1 ∈ (declared n).*1) ms2 = filter (λ m, key_name m.1 ∈ (declared n).*1) ms →
      filter_value (Json.JObj raw' ms2) (TStruct n) = filter_value (Json.JObj raw ms) (TStruct n).
Proof.
  rewrite filter_object. intros Hn [= <-]. split; [by apply field_kept|].
  intros raw' ms2 H. rewrite !filter_object. f_equal. unfold kept. apply list_omap_ext_in. intros f Hf.
  assert (f.1 ∈ (declared n).*1) as Hin by by apply list_elem_of_fmap_2, elem_of_fieldsOf.
  enough (last_member f.1 (named ms2) = last_member f.1 (named ms)) as -> by done.
  etransitivity; [symmetry; exact (last_member_filter (.∈ (declared n).*1) f.1 ms2 Hin)|].
  etransitivity; [|exact (last_member_filter (.∈ (declared n).*1) f.1 ms Hin)].
  exact (f_equal (λ l, last_member f.1 (named l)) H).
Qed.

End trees.

(** ** Examples *)

#[local] Existing Instance ConditionParser.example_table.
#[local] Existing Instance ConditionParser.example_compiler.

(** A text in which a caret stands for a double quote. *)
Definition text (s : string) : bytes := unquote <$> bytes_of s.

Definition regular_set : string :=
  "{^tenantId^:^a^,^policySetId^:^s1^,^type^:^REGULAR^,^combiningAlgorithm^:^DENY_OVERRIDES^,^target^:^true^,
    ^iterate^:{^foreach^:^subject.permissionScope^,^combiningAlgorithm^:^PERMIT_OVERRIDES^},
    ^policies^:[{^policyId^:^p1^,^rules^:[{^ruleId^:^r1^,^effect^:^ALLOW^,^color^:1,
      ^condition^:^resource.x == subject.permissionScope.k^,
      ^customPredicate^:{^predicate^:^c^,^params^:{^k^: [1, 2]}}}]}],
    ^STATUS^:^DRAFT^,^description^:^ignored^}".
Definition simplified_set : string :=
  "{^tenantId^:^a^,^policySetId^:^g^,^type^:^SIMPLIFIED^,^combiningAlgorithm^:^DENY_UNLESS_PERMIT^,
    ^target^:^resourceType == 'doc'^,^policies^:[{^combiningAlgorithm^:^DENY_UNLESS_PERMIT^,^target^:^true^,
      ^rules^:[{^ruleId^:^g1^,^effect^:^ALLOW^,^target^:^subject.roles CONTAINS ANY 'r1','r2'^}]}]}".
Definition shared_set : string :=
  "{^tenantId^:^a^,^policySetId^:^d^,^policySets^:[{^policies^:[{^policyId^:^p2^,^tenantId^:^b^}]}]}".
Definition draft_set : string := "{^tenantId^:^a^,^policySetId^:^s9^,^status^:^DRAFT^}".
Definition broken_set : string := "{^tenantId^:^b^,^policySetId^:^s1^,^policies^:5}".
Definition orphan_set : string := "{^policySetId^:^s3^,^tenantId^:^^}".
Definition regular_pip : string :=
  "{^tenantId^:^a^,^name^:^subject.x^,^headers^:[^h1^,^h2^],^defaultValue^:{ ^k^ : 1 },^query^:^q^,^colour^:1}".
Definition repeated_pip : string := "{^tenantId^:^a^,^name^:^subject.y^}".
Definition unprefixed_pip : string := "{^tenantId^:^c^,^name^:^y^}".

Definition sets_doc (sets : list string) : bytes := text ("{^policySets^:[" +:+ join "," sets +:+ "]}").
Definition pips_doc (pips : list string) : bytes := text ("{^pips^:[" +:+ join "," pips +:+ "]}").

Definition sets1 : bytes :=
  sets_doc [regular_set; broken_set; orphan_set; simplified_set; shared_set; draft_set].
Definition pips1 : bytes := pips_doc [repeated_pip; regular_pip; repeated_pip; unprefixed_pip].
(** The same of the tenant [a], and other elements around. *)
Definition sets2 : bytes := sets_doc [regular_set; simplified_set; orphan_set; shared_set; draft_set; orphan_set].
Definition pips2 : bytes := pips_doc [repeated_pip; regular_pip; repeated_pip].

Definition exported (s p : bytes) : export :=
  match FromRegular s p with Ok x => x | Err _ => MkExport ∅ ∅ [] ∅ end.
Definition elements (r : result export_error (list json)) : list json :=
  match r with Ok l => l | Err _ => [] end.
Definition tree_a : Tree := default (MkTree [] [] []) (Trees (exported sets1 pips1) !! "a"%string).

Example reported :
  Dropped (exported sets1 pips1) !! "a"%string
  = Some [DroppedSetKey 0 "s1" "policies[0].rules[0].color"; DroppedSetKey 0 "s1" "STATUS";
          DroppedIsolated 4 "d" ("policy " +:+ Quote "p2" +:+ " has tenantId " +:+ Quote "b");
          DroppedStatus 5 "s9" "DRAFT"; DroppedPIPKey 1 "subject.x" "colour";
          DroppedPIPName "subject.y" "declared 2 times"]%string
  ∧ Failed (exported sets1 pips1) !! "b"%string = Some (ReadFailed (SetUndecoded 1 TypeMismatch))
  ∧ Orphans (exported sets1 pips1) = [(KindSet, 2)].
Proof. vm_compute. done. Qed.

(** The conditions of the tree of [a], and what its declarations read as. *)
Example tree_a_dump :
  (concat ((λ l, text l ++ ["010"%char]) <$>
     ["pip ^subject.y^ isolated=^declared 2 times^";
      "pip ^subject.x^ type=GENERAL defaultValue={^k^:1} headers=^h1,h2^ unsupported=^query^"]%string))
    `prefix_of` Dump.Tree_Dump tree_a
  ∧ S_Isolated <$> omap (λ s, s) (Sets tree_a)
    = [EmptyString; "policy " +:+ Quote "p2" +:+ " has tenantId " +:+ Quote "b"]%string
  ∧ (λ g, SP_Roles <$> omap (λ p, p) (G_Policies g)) <$> omap (λ g, g) (Simplified tree_a) = [[["r1"; "r2"]%string]].
Proof. split; [apply (bool_decide_unpack _); vm_compute; exact I|]. vm_compute. done. Qed.

Lemma tenants_apart_witness :
  Trees (exported sets1 pips1) !! "a"%string = Trees (exported sets2 pips2) !! "a"%string
  ∧ is_Some (Trees (exported sets1 pips1) !! "a"%string).
Proof.
  split; [|eexists; vm_compute; reflexivity].
  apply (tenants_apart sets1 pips1 sets2 pips2 (exported sets1 pips1) (exported sets2 pips2)
           (elements (sets_of sets1)) (elements (pips_of pips1)) (elements (sets_of sets2)) (elements (pips_of pips2)) "a");
    vm_compute; reflexivity.
Defined.

Lemma export_partition_witness :
  (tenant_names "b" (elements (sets_of sets1)) (elements (pips_of pips1)) ↔
   is_Some (Trees (exported sets1 pips1) !! "b"%string) ∨ is_Some (Failed (exported sets1 pips1) !! "b"%string))
  ∧ (KindSet, 2) ∈ Orphans (exported sets1 pips1).
Proof.
  destruct (export_partition sets1 pips1 (exported sets1 pips1) (elements (sets_of sets1)) (elements (pips_of pips1)))
    as (H & _ & _ & Ho); [vm_compute; reflexivity..|]. split; [apply H|]. apply Ho.
  exists (default Json.JNull (elements (sets_of sets1) !! 2)). split; vm_compute; reflexivity.
Defined.

Definition first_set : PolicySet :=
  match Sets tree_a with
  | Some ps :: _ => ps
  | _ => MkPolicySet "" "" "" "" "" None None "" "" [] []
  end.

Lemma tree_enforces_own_witness :
  S_ID first_set = "s1"%string
  ∧ ∃ raw s, filter (λ raw, H_ID (readHead raw) = S_ID first_set) (own "a" (elements (sets_of sets1))) = [raw]
             ∧ decode_set (filter_value raw (TStruct NSet)) = Ok s ∧ owned "a" s.
Proof.
  split; [vm_compute; reflexivity|].
  assert (Some first_set ∈ Sets tree_a) as Hin.
  { assert (Sets tree_a = Some first_set :: tail (Sets tree_a)) as -> by (vm_compute; reflexivity). apply list_elem_of_here. }
  assert (S_Isolated first_set = EmptyString) as Hi by (vm_compute; reflexivity).
  destruct (tree_enforces_own sets1 pips1 (exported sets1 pips1) (elements (sets_of sets1)) (elements (pips_of pips1))
              "a" tree_a) as (H & _); [vm_compute; reflexivity..|].
  destruct (H first_set Hin Hi) as (s & v & v' & (raw & Hf & _ & Hd & Ho) & _).
  exists raw, s. split; [exact Hf|split; [exact Hd|exact Ho]].
Defined.

Lemma tree_complete_witness :
  length (Simplified tree_a) + length (Sets tree_a)
  = length (filter (λ raw, topLevelApplies (H_Status (readHead raw)) = true) (own "a" (elements (sets_of sets1)))).
Proof.
  apply (tree_complete sets1 pips1 (exported sets1 pips1) (elements (sets_of sets1)) (elements (pips_of pips1))
           "a" tree_a); vm_compute; reflexivity.
Defined.

Lemma failure_causes_witness :
  ∃ raw q, raw ∈ own "c" (elements (pips_of pips1)) ∧ declared_name raw = Some q
           ∧ ¬ bytes_of "subject." `prefix_of` bytes_of q ∧ PIPPrefix "y" = PIPPrefix q.
Proof.
  apply (failure_causes sets1 pips1 (exported sets1 pips1) (elements (sets_of sets1)) (elements (pips_of pips1))
           "c" (TreeRefused (PIPPrefix "y"))); vm_compute; reflexivity.
Defined.

(** A set whose status is written twice, with another spelling between and after. *)
Definition doubled : list (bytes * json) :=
  [(bytes_of "status", Json.JStr (bytes_of "DRAFT")); (bytes_of "Status", Json.JStr (bytes_of "X"));
   (bytes_of "status", Json.JStr (bytes_of "ACTIVE")); (bytes_of "STATUS", Json.JNull)].

Lemma exact_keys_witness :
  field (kept NSet doubled) "status" = Some (Json.JStr (bytes_of "ACTIVE")).
Proof.
  destruct (exact_keys NSet [] doubled "status" TLeaf (kept NSet doubled)) as [H _];
    [declared_tac|by rewrite filter_object|]. rewrite H. vm_compute. reflexivity.
Defined.

End TenantTrees.
