(* ===== verification/Keys.v ===== *)
(** * Signing keys of the trusted providers ([internal/token/keys])

    The trusted providers' configuration and its checks ([config.go]), how a provider's
    keys are fetched and which of them may verify a token ([fetch.go]), and the set of
    keys with its reload ([keys.go]). The jwk library is an interface ([JwkLib]): a key is a
    value of its own type, compared as Go compares two interface values, and the laws
    ([JwkLaws]) say what its documentation says of public keys. What the network answers
    to one fetch is an argument ([exchange]). *)
From S2P Require Import Prelude GoText.
Import GoText.

Module Keys.

(** ** The configuration *)

Record Provider := MkProvider {
  ID : string;
  Issuer : string;
  JWKSURI : string;
  Audiences : list string;
  AllowMissingAud : bool;
  CAFile : string;
  TokenFile : string;
}.

#[export] Instance provider_eq_dec : EqDecision Provider.
Proof. solve_decision. Defined.

(** What [url.Parse] says of an address: its scheme and its host. *)
Class UrlParser := ParseUrl : string → option (string * string).

Inductive provider_error :=
  | EmptyID
  | BadID (id : string)
  | NoAddress (id : string)
  | TwoAddresses (id : string)
  | TokenWithoutURI (id : string)
  | MissingAudWithoutAudiences (id : string)
  | EmptyAudience (id : string)
  | BadAddress (id address : string).

Inductive config_error :=
  | NoProviders
  | BadProvider (i : nat) (e : provider_error)
  | UsedID (i : nat) (id : string).

(** [validProviderID]. *)
Definition valid_id_char (c : ascii) : bool := is_letter c || is_digit c || member c ["."; "_"; "-"]%char.
Definition validProviderID (id : string) : bool := negb (is_empty id) && all valid_id_char (bytes_of id).

Section config.
Context {url : UrlParser}.

Definition checkHTTPURL (raw : string) : bool :=
  match ParseUrl raw with
  | None => false
  | Some (scheme, host) => member scheme ["http"; "https"]%string && negb (is_empty host)
  end.

Definition provider_address (p : Provider) : string :=
  if negb (is_empty (JWKSURI p)) then JWKSURI p else Issuer p.

(** [Provider.validate]. *)
Definition validate (p : Provider) : result provider_error unit :=
  _ ← check (negb (is_empty (ID p))) EmptyID;
  _ ← check (validProviderID (ID p)) (BadID (ID p));
  _ ← check (negb (is_empty (Issuer p) && is_empty (JWKSURI p))) (NoAddress (ID p));
  _ ← check (negb (negb (is_empty (Issuer p)) && negb (is_empty (JWKSURI p)))) (TwoAddresses (ID p));
  _ ← check (negb (negb (is_empty (TokenFile p)) && is_empty (JWKSURI p))) (TokenWithoutURI (ID p));
  _ ← check (negb (AllowMissingAud p && is_nil (Audiences p))) (MissingAudWithoutAudiences (ID p));
  _ ← check (negb (member EmptyString (Audiences p))) (EmptyAudience (ID p));
  check (checkHTTPURL (provider_address p)) (BadAddress (ID p) (provider_address p)).

(** One turn of the loop of [Validate]. *)
Definition validate_entry (i : nat) (p : Provider) (seen : gset string) : result config_error (gset string) :=
  match validate p with
  | Err e => Err (BadProvider i e)
  | Ok _ => if decide (ID p ∈ seen) then Err (UsedID i (ID p)) else Ok ({[ ID p ]} ∪ seen)
  end.

(** [Config.Validate], of the list a [Config] holds. *)
Definition Validate (Providers : list Provider) : result config_error unit :=
  _ ← check (negb (is_nil Providers)) NoProviders;
  _ ← loop validate_entry 0 Providers ∅;
  Ok tt.

End config.

(** ** The jwk library *)

(** A value of [jwk] is a key object of the library: equality is that of the Go interface,
    the identity of the object, so a key parsed again may be another value. *)
Class JwkLib := {
  jwk : Type;
  jwk_eq_dec :: EqDecision jwk;
  KeyID : jwk → option string;
  KeyUsage : jwk → option string;
  KeyType : jwk → string;
  Algorithm : jwk → option string;
  PublicKeyOf : jwk → option jwk;
  (* the modulus and the exponent of a value that is a [jwk.RSAPublicKey] *)
  rsa_public : jwk → option (bytes * bytes);
  (* the crv of a value that is a [jwk.ECDSAPublicKey] or a [jwk.OKPPublicKey] *)
  curve_public : jwk → option string;
  (* [Thumbprint(crypto.SHA256)] *)
  Thumbprint : jwk → option bytes;
}.

Class JwkLaws (lib : JwkLib) : Prop := {
  public_type k p : PublicKeyOf k = Some p → KeyType p = KeyType k;
  public_rsa k p : PublicKeyOf k = Some p → (KeyType p = "RSA" ↔ is_Some (rsa_public p));
}.

(** ** Algorithms *)

Definition algorithmKeyType : gmap string string :=
  list_to_map [("RS256", "RSA"); ("RS384", "RSA"); ("RS512", "RSA");
               ("PS256", "RSA"); ("PS384", "RSA"); ("PS512", "RSA");
               ("ES256", "EC"); ("ES384", "EC"); ("ES512", "EC");
               ("EdDSA", "OKP")]%string.

Definition algorithmCurve : gmap string string :=
  list_to_map [("ES256", "P-256"); ("ES384", "P-384"); ("ES512", "P-521"); ("EdDSA", "Ed25519")]%string.

(** A map read at a key it may not have. *)
Definition at_key (m : gmap string string) (k : string) : string := default EmptyString (m !! k).

Definition acceptedCurve (curve : string) : bool := member curve (map_to_list algorithmCurve).*2.

Definition AcceptsAlgorithm (alg : string) : bool := is_some (algorithmKeyType !! alg).

Definition minRSAModulusBits : N := 2048.
Definition minRSAPublicExponent : N := 3.

(** [new(big.Int).SetBytes]: the big-endian number. *)
Definition big_int (b : bytes) : N := fold_left (λ n c, (n * 256 + N_of_ascii c)%N) b 0%N.

Section keys.
Context {lib : JwkLib}.

Definition curveOf (k : jwk) : string := default EmptyString (curve_public k).

Record Key := MkKey { Key_Provider : Provider; Key_ID : string; JWK : jwk; alg : string }.

#[export] Instance key_eq_dec : EqDecision Key.
Proof. solve_decision. Defined.

(** [Key.Allows]. *)
Definition Allows (k : Key) (a : string) : bool :=
  if negb (is_empty (alg k)) then eqb a (alg k)
  else if negb (eqb (at_key algorithmKeyType a) (KeyType (JWK k))) then false
  else
    match algorithmCurve !! a with
    | None => true
    | Some curve => eqb curve (curveOf (JWK k))
    end.

(** ** Fetching the keys of a provider *)

Inductive key_reason :=
  | CannotBeParsed
  | NoKid
  | UseNotSig (kid use : string)
  | OtherKeyType (kid kty : string)
  | OtherAlgorithm (kid alg kty : string)
  | NoPublicKey (kid : string)
  | ShortModulus (kid : string) (bits : N)
  | SmallExponent (kid : string) (exponent : N)
  | OtherCurve (kid curve : string)
  | CurveMismatch (kid alg curve : string).

Definition weakRSA (kid : string) (ne : bytes * bytes) : result key_reason unit :=
  let bits := N.size (big_int ne.1) in
  _ ← check (negb (bits <? minRSAModulusBits)%N) (ShortModulus kid bits);
  check (negb (big_int ne.2 <? minRSAPublicExponent)%N) (SmallExponent kid (big_int ne.2)).

Definition unusableKey (kid : string) (public : jwk) (a : string) : result key_reason unit :=
  match rsa_public public with
  | Some ne => weakRSA kid ne
  | None =>
      let curve := curveOf public in
      _ ← check (acceptedCurve curve) (OtherCurve kid curve);
      match algorithmCurve !! a with
      | Some want => check (eqb want curve) (CurveMismatch kid a curve)
      | None => Ok tt
      end
  end.

(** [signingKey] of what [jwk.ParseKey] made of the entry; [p] is the provider the caller
    writes into the key. *)
Definition signingKey (p : Provider) (parsed : option jwk) : result key_reason Key :=
  key ← match parsed with Some key => Ok key | None => Err CannotBeParsed end;
  let kid := default EmptyString (KeyID key) in
  _ ← check (negb (is_empty kid)) NoKid;
  _ ← match KeyUsage key with
      | Some use => check (eqb use "sig"%string) (UseNotSig kid use)
      | None => Ok tt
      end;
  let kty := KeyType key in
  _ ← check (member kty ["RSA"; "EC"; "OKP"]%string) (OtherKeyType kid kty);
  let declared := default EmptyString (Algorithm key) in
  _ ← match Algorithm key with
      | Some a => check (eqb (at_key algorithmKeyType a) kty) (OtherAlgorithm kid a kty)
      | None => Ok tt
      end;
  public ← match PublicKeyOf key with Some public => Ok public | None => Err (NoPublicKey kid) end;
  _ ← unusableKey kid public declared;
  Ok (MkKey p kid public declared).

Inductive fetch_error :=
  | NoToken
  | RequestFailed (url : string)
  | BodyFailed (url : string)
  | Status (url : string) (code : Z)
  | TooLong (url : string)
  | BadDiscovery (url : string)
  | NoJwksURI (url : string)
  | JWKSNotJSON
  | NoKeysArray
  | KeysNotArray
  | TwoKeys (kid : string)
  | NoUsableKey (skipped : nat).

(** The loop of [parseJWKS] over the entries: the keys so far, the thumbprints by kid, and
    the number of entries skipped. *)
Record jwks_state := JwksState { out : list Key; thumbprints : gmap string bytes; skipped : nat }.

Definition add_entry (p : Provider) (st : jwks_state) (parsed : option jwk) : result fetch_error jwks_state :=
  let skip := JwksState (out st) (thumbprints st) (S (skipped st)) in
  match signingKey p parsed with
  | Err _ => Ok skip
  | Ok key =>
      match Thumbprint (JWK key) with
      | None => Ok skip
      | Some thumbprint =>
          match thumbprints st !! Key_ID key with
          | Some earlier => if eqb earlier thumbprint then Ok st else Err (TwoKeys (Key_ID key))
          | None => Ok (JwksState (out st ++ [key]) (<[Key_ID key := thumbprint]> (thumbprints st)) (skipped st))
          end
      end
  end.

(** What [json.Unmarshal] makes of a JWKS document: each entry of its keys array with
    what [jwk.ParseKey] makes of it. A keys member that is null is an empty array. *)
Inductive jwks_document :=
  | NotJSON
  | KeysMissing
  | NotAnArray
  | Entries (l : list (option jwk)).

Definition parseJWKS (p : Provider) (doc : jwks_document) : result fetch_error (list Key) :=
  match doc with
  | NotJSON => Err JWKSNotJSON
  | KeysMissing => Err NoKeysArray
  | NotAnArray => Err KeysNotArray
  | Entries l =>
      st ← loop (λ _ e st, add_entry p st e) 0 l (JwksState [] ∅ 0);
      if is_nil (out st) then Err (NoUsableKey (skipped st)) else Ok (out st)
  end.

(** ** Requests *)

Definition maxResponseBytes : N := 2 ^ 20.

(** An HTTP response: its status and its body, [None] when it cannot be read. *)
Record response := MkResponse { StatusCode : Z; Body : option bytes }.

(** What the outside answers to one fetch: the text of the token file, the response to
    a request, and what the JSON decoder makes of the two documents. A discovery document
    without the field reads as the empty address. *)
Record exchange := MkExchange {
  token_file : option bytes;
  respond : string → option response;
  discovery_document : bytes → option string;
  jwks_decoded : bytes → jwks_document;
}.

(** [readToken]. *)
Definition readToken (x : exchange) : option bytes :=
  raw ← token_file x;
  match TrimSpace raw with
  | [] => None
  | token => Some token
  end.

Definition get (p : Provider) (x : exchange) (url : string) : result fetch_error bytes :=
  _ ← check (is_empty (TokenFile p) || is_some (readToken x)) NoToken;
  resp ← match respond x url with Some resp => Ok resp | None => Err (RequestFailed url) end;
  all ← match Body resp with Some body => Ok body | None => Err (BodyFailed url) end;
  let body := take (N.to_nat (maxResponseBytes + 1)) all in
  _ ← check (negb ((StatusCode resp <? 200)%Z || (299 <? StatusCode resp)%Z)) (Status url (StatusCode resp));
  _ ← check (negb (maxResponseBytes <? N.of_nat (length body))%N) (TooLong url);
  Ok body.

Definition discovery_url (p : Provider) : string :=
  string_of (drop_while_end (λ c, eqb c "/"%char) (bytes_of (Issuer p))) +:+ "/.well-known/openid-configuration".

Definition fetch (p : Provider) (x : exchange) : result fetch_error (list Key) :=
  uri ← (if is_empty (JWKSURI p) then
           let discovery := discovery_url p in
           body ← get p x discovery;
           match discovery_document x body with
           | None => Err (BadDiscovery discovery)
           | Some uri => if is_empty uri then Err (NoJwksURI discovery) else Ok uri
           end
         else Ok (JWKSURI p));
  body ← get p x uri;
  parseJWKS p (jwks_decoded x body).

(** [errors.Is(err, errNoUsableKey)]. *)
Definition is_no_usable_key (e : fetch_error) : bool := match e with NoUsableKey _ => true | _ => false end.

(** ** The set of keys *)

Record snapshot := MkSnapshot { byKID : gmap string Key; byProvider : gmap string (list Key) }.

(** [Set]: the providers of its fetchers, and the snapshot loaded last. *)
Record KeySet := MkSet { providers : list Provider; current : snapshot }.

Inductive snapshot_error := SharedKid (kid earlier id : string).

Definition keys_of (m : gmap string (list Key)) (id : string) : list Key := default [] (m !! id).

(** One turn of the inner loop of [newSnapshot]. *)
Definition index_key (id : string) (k : Key) (m : gmap string Key) : result snapshot_error (gmap string Key) :=
  match m !! Key_ID k with
  | Some earlier => Err (SharedKid (Key_ID k) (ID (Key_Provider earlier)) id)
  | None => Ok (<[Key_ID k := k]> m)
  end.

Definition newSnapshot (ps : list Provider) (m : gmap string (list Key)) : result snapshot_error snapshot :=
  index ← loop (λ _ p index, loop (λ _ k index, index_key (ID p) k index) 0 (keys_of m (ID p)) index) 0 ps ∅;
  Ok (MkSnapshot index m).

Definition Lookup (s : KeySet) (kid : string) : option Key := byKID (current s) !! kid.

(** The outcomes of one fetch per provider, in the order of the providers. *)
Definition outcomes := list (result fetch_error (list Key)).

Inductive load_error :=
  | LoadConfig (e : config_error)
  | LoadCAFile (id : string)
  | LoadProviders (es : list (string * fetch_error))
  | LoadShared (e : snapshot_error).

(** The errors of the providers that failed, as [errors.Join] lists them. *)
Definition failed (ps : list Provider) (rs : outcomes) : list (string * fetch_error) :=
  omap (λ pr, match pr.2 with Err e => Some (ID pr.1, e) | Ok _ => None end) (zip ps rs).

Definition loaded (ps : list Provider) (rs : outcomes) : gmap string (list Key) :=
  fold_left (λ m pr, match pr.2 with Ok ks => <[ID pr.1 := ks]> m | Err _ => m end) (zip ps rs) ∅.

(** [newFetcher] as far as it can fail: [ca_usable] says which files can be read and hold a
    PEM certificate. *)
Definition newFetcher (ca_usable : string → bool) (p : Provider) : result load_error unit :=
  check (is_empty (CAFile p) || ca_usable (CAFile p)) (LoadCAFile (ID p)).

(** [Load]; [rs] is what every provider's [fetchWithRetry] returned. *)
Definition Load {url : UrlParser} (ca_usable : string → bool) (ps : list Provider) (rs : outcomes) :
    result load_error KeySet :=
  _ ← wrap LoadConfig (Validate ps);
  _ ← loop (λ _ p _, newFetcher ca_usable p) 0 ps tt;
  _ ← check (is_nil (failed ps rs)) (LoadProviders (failed ps rs));
  snap ← wrap LoadShared (newSnapshot ps (loaded ps rs));
  Ok (MkSet ps snap).

Inductive failure := KeepsPrevious (id : string) (e : fetch_error) | EveryKeeps (e : snapshot_error).

(** What a reload makes of one provider's outcome: its new keys, and the error returned. *)
Definition reload (old : list Key) (r : result fetch_error (list Key)) : list Key * option fetch_error :=
  match r with
  | Ok ks => (ks, None)
  | Err e => if is_no_usable_key e then ([], None) else (old, Some e)
  end.

Definition reloaded (old : gmap string (list Key)) (ps : list Provider) (rs : outcomes) : gmap string (list Key) :=
  fold_left (λ m pr, <[ID pr.1 := (reload (keys_of old (ID pr.1)) pr.2).1]> m) (zip ps rs) ∅.

Definition reload_failures (old : gmap string (list Key)) (ps : list Provider) (rs : outcomes) : list failure :=
  omap (λ pr, KeepsPrevious (ID pr.1) <$> (reload (keys_of old (ID pr.1)) pr.2).2) (zip ps rs).

Definition Refresh (s : KeySet) (rs : outcomes) : KeySet * list failure :=
  let old := byProvider (current s) in
  let failures := reload_failures old (providers s) rs in
  match newSnapshot (providers s) (reloaded old (providers s) rs) with
  | Ok snap => (MkSet (providers s) snap, failures)
  | Err e => (s, failures ++ [EveryKeeps e])
  end.

(** [sameKIDs], which decides only whether a reload logs. *)
Definition sameKIDs (a b : list Key) : bool :=
  eqb (sort_strings (Key_ID <$> a)) (sort_strings (Key_ID <$> b)).

(** ** Retries *)

Definition second : Z := 10 ^ 9.
Definition defaultFirstRetryDelay : Z := second.
Definition maxRetryDelay : Z := 10 * second.

(** One turn of the loop of [fetchWithRetry]: what the fetch returned, whether the context
    still ran when the turn first asked, whether it had ended when the turn asked again, and
    whether it ended during the pause. *)
Record attempt := MkAttempt {
  fetched : result fetch_error (list Key); on_its_own : bool; ended : bool; ended_in_pause : bool }.

(** The pauses the loop made, and its result, [None] while it goes on. *)
Fixpoint fetchWithRetry (delay : Z) (last : option fetch_error) (l : list attempt) :
    list Z * option (result fetch_error (list Key)) :=
  match l with
  | [] => ([], None)
  | a :: l =>
      match fetched a with
      | Ok ks => ([], Some (Ok ks))
      | Err e =>
          let last := if negb (is_some last) || on_its_own a then Some e else last in
          let result := Err <$> last in
          if ended a then ([], result)
          else if ended_in_pause a then ([delay], result)
          else
            let '(pauses, r) := fetchWithRetry (Z.min (int64 (delay * 2)) maxRetryDelay) last l in
            (delay :: pauses, r)
      end
  end.

(** ** Options *)

Record Options := MkOptions {
  HTTPTimeout : Z; StartupTimeout : Z; RefreshInterval : Z; firstRetryDelay : Z }.

Definition withDefaults (o : Options) : Options :=
  let or_default v d := if (v <=? 0)%Z then d else v in
  MkOptions (or_default (HTTPTimeout o) (5 * second)%Z) (or_default (StartupTimeout o) (60 * second)%Z)
    (or_default (RefreshInterval o) (24 * 3600 * second)%Z) (or_default (firstRetryDelay o) defaultFirstRetryDelay).

End keys.

(** ** The configuration's rules *)

Section config_valid.
Context {url : UrlParser}.

Definition http_url (raw : string) : Prop :=
  ∃ scheme host, ParseUrl raw = Some (scheme, host) ∧ (scheme = "http"%string ∨ scheme = "https"%string)
                 ∧ host ≠ EmptyString.

(** What the comments on [Provider] ask of an entry. *)
Definition wf_provider (p : Provider) : Prop :=
  ID p ≠ EmptyString ∧ Forall (λ c, valid_id_char c = true) (bytes_of (ID p))
  ∧ (Issuer p ≠ EmptyString ∧ JWKSURI p = EmptyString ∧ http_url (Issuer p) ∧ TokenFile p = EmptyString
     ∨ Issuer p = EmptyString ∧ JWKSURI p ≠ EmptyString ∧ http_url (JWKSURI p))
  ∧ EmptyString ∉ Audiences p
  ∧ (AllowMissingAud p = true → Audiences p ≠ []).

Lemma checkHTTPURL_true raw : checkHTTPURL raw = true ↔ http_url raw.
Proof.
  unfold checkHTTPURL, http_url. destruct (ParseUrl raw) as [[scheme host]|]; [|naive_solver].
  rewrite andb_true_iff, member_true, negb_true_iff, is_empty_false, !elem_of_cons, elem_of_nil. naive_solver.
Qed.

Lemma provider_validate_Ok p : validate p = Ok tt ↔ wf_provider p.
Proof.
  unfold validate, wf_provider, validProviderID, provider_address. result_simp.
  rewrite checkHTTPURL_true, !negb_true_iff, !andb_true_iff, !andb_false_iff, !negb_true_iff, !negb_false_iff,
    !is_empty_false, !is_empty_true, member_false, all_Forall, is_nil_false.
  destruct (is_empty (JWKSURI p)) eqn:E; cbn [negb].
  - apply is_empty_true in E. destruct (AllowMissingAud p); intuition congruence.
  - apply is_empty_false in E. destruct (AllowMissingAud p); intuition congruence.
Qed.

Lemma validate_entries_Ok i ps seen seen' :
  loop validate_entry i ps seen = Ok seen' ↔
  Forall wf_provider ps ∧ NoDup (ID <$> ps) ∧ (∀ p, p ∈ ps → ID p ∉ seen) ∧ seen' = list_to_set (ID <$> ps) ∪ seen.
Proof.
  revert i seen. induction ps as [|p ps IH]; intros i seen; cbn [loop fmap list_fmap list_to_set].
  { split.
    - intros [= ->]. split_and!; [constructor|constructor|by intros ? ?%elem_of_nil|set_solver].
    - intros (_ & _ & _ & ->). f_equal. set_solver. }
  rewrite bind_Ok. setoid_rewrite IH. rewrite Forall_cons, NoDup_cons. unfold validate_entry.
  pose proof (provider_validate_Ok p) as Hv. destruct (validate p) as [[]|e].
  - assert (wf_provider p) as Hp by by apply Hv. clear Hv. case_decide as Hin.
    + split; [by intros (? & [=] & _)|]. intros (_ & _ & H & _). by destruct (H p (list_elem_of_here _ _)).
    + split.
      * intros (? & [= <-] & Hf & Hn & Hs & ->). split_and!; [done|done| |done| |by rewrite (assoc_L (∪)), (comm_L (∪) {[ID p]})].
        -- intros (q & Hq & Hq')%list_elem_of_fmap. specialize (Hs q Hq'). rewrite <-Hq in Hs. set_solver.
        -- intros q [->|Hq]%elem_of_cons; [done|]. specialize (Hs q Hq). set_solver.
      * intros ([_ Hf] & [Hn Hd] & Hs & ->). eexists. split; [done|]. split_and!; [done|done| |].
        -- intros q Hq. apply not_elem_of_union. split; [|by apply Hs, list_elem_of_further].
           intros E%elem_of_singleton. destruct Hn. rewrite <-E. by apply list_elem_of_fmap_2.
        -- by rewrite (assoc_L (∪)), (comm_L (∪) {[ID p]}).
  - split; [by intros (? & [=] & _)|]. intros ([Hp _] & _). by apply Hv in Hp.
Qed.

Definition wf_config (ps : list Provider) : Prop := ps ≠ [] ∧ Forall wf_provider ps ∧ NoDup (ID <$> ps).

Lemma Validate_Ok ps : Validate ps = Ok tt ↔ wf_config ps.
Proof.
  unfold Validate, wf_config. result_simp. rewrite negb_true_iff, is_nil_false, bind_Ok.
  setoid_rewrite validate_entries_Ok. split.
  - intros (Hne & ? & (Hf & Hn & _) & _). done.
  - intros (Hne & Hf & Hn). split; [done|]. eexists. split; [|done]. split_and!; [done|done|set_solver|done].
Qed.

(** [Config.Validate] accepts exactly the lists the documentation describes: one
    provider at least, each with a well-formed id of its own, one address of the two, an
    absolute http or https URL, a token only for a JWKS address, no empty audience, and
    audiences where a missing aud is admitted. *)
Theorem Validate_accepts ps : Validate ps = Ok tt ↔ wf_config ps.
Proof. apply Validate_Ok. Qed.

End config_valid.

(** ** Which keys verify what *)

Section allowed.
Context {lib : JwkLib}.

Lemma at_key_Some m k v : v ≠ EmptyString → at_key m k = v ↔ m !! k = Some v.
Proof. intros Hv. unfold at_key. destruct (m !! k); naive_solver. Qed.

Definition rsa_floors (k : jwk) : Prop :=
  ∀ n e, rsa_public k = Some (n, e) → (minRSAModulusBits ≤ N.size (big_int n))%N ∧ (minRSAPublicExponent ≤ big_int e)%N.

Lemma unusableKey_Ok kid k a :
  unusableKey kid k a = Ok tt →
  rsa_floors k ∧ (rsa_public k = None → acceptedCurve (curveOf k) = true
                                        ∧ ∀ c, algorithmCurve !! a = Some c → c = curveOf k).
Proof.
  unfold unusableKey, rsa_floors. destruct (rsa_public k) as [[n e]|].
  - unfold weakRSA. cbn [fst snd]. result_simp. rewrite !negb_true_iff, !N.ltb_ge. intros [H1 H2].
    split; [by intros ? ? [= <- <-]|done].
  - result_simp. intros [H1 H2]. split; [done|]. intros _. split; [done|]. intros c Hc. rewrite Hc in H2.
    apply check_Ok in H2. by apply (proj1 (eqb_true _ _)) in H2.
Qed.

Lemma signingKey_Ok p parsed k :
  signingKey p parsed = Ok k →
  Key_Provider k = p ∧ Key_ID k ≠ EmptyString
  ∧ ∃ key, parsed = Some key ∧ PublicKeyOf key = Some (JWK k) ∧ KeyType key ∈ ["RSA"; "EC"; "OKP"]%string
           ∧ (alg k ≠ EmptyString → algorithmKeyType !! alg k = Some (KeyType key))
           ∧ unusableKey (Key_ID k) (JWK k) (alg k) = Ok tt.
Proof.
  unfold signingKey. destruct parsed as [key|]; [|done]. cbn [mbind result_bind]. result_simp.
  intros (Hkid & _ & Hkty & Ha & H). apply negb_true_iff, is_empty_false in Hkid. apply member_true in Hkty.
  destruct (PublicKeyOf key) as [public|] eqn:Ep; [|done]. cbn [mbind result_bind] in H.
  apply bind_unit_Ok in H as [Hu [= <-]]. cbn. split_and!; [done|done|]. exists key. split_and!; [done|done|done| |done].
  intros Hne. destruct (Algorithm key) as [a|]; [|done]. cbn in *. apply check_Ok, (proj1 (eqb_true _ _)) in Ha.
  apply (proj1 (at_key_Some _ _ _ ltac:(intros E; rewrite E in Hkty; set_solver))) in Ha. done.
Qed.

(** The curve of an algorithm is that of an EC or OKP key. *)
Lemma curve_algorithm a c : algorithmCurve !! a = Some c → algorithmKeyType !! a ≠ Some "RSA"%string ∧ c ≠ EmptyString.
Proof.
  intros H. unfold algorithmCurve in H. apply elem_of_list_to_map_2 in H.
  repeat (apply elem_of_cons in H as [[= -> ->]|H]; [split; [by vm_compute|done]|]). by apply elem_of_nil in H.
Qed.

(** A token's algorithm is allowed for a signing key exactly when it is an accepted
    asymmetric algorithm of the key's type and curve, and the one the key declares when it
    declares one. So a key never verifies a token signed with HMAC or with no algorithm,
    and an RSA key that verifies one is above both floors. *)
Theorem Allows_spec {laws : JwkLaws lib} p parsed k a :
  signingKey p parsed = Ok k →
  (Allows k a = true ↔
     algorithmKeyType !! a = Some (KeyType (JWK k))
     ∧ (∀ c, algorithmCurve !! a = Some c → c = curveOf (JWK k))
     ∧ (alg k = EmptyString ∨ a = alg k))
  ∧ (KeyType (JWK k) = "RSA" → is_Some (rsa_public (JWK k)) ∧ rsa_floors (JWK k)).
Proof.
  intros (_ & _ & key & -> & Hp & Hkty & Ha & Hu)%signingKey_Ok.
  pose proof (public_type _ _ Hp) as Ht. pose proof (public_rsa _ _ Hp) as Hr.
  apply unusableKey_Ok in Hu as [Hf Hc]. rewrite <-Ht in *. split; [|by intros E; split; [apply Hr|]].
  assert (KeyType (JWK k) ≠ EmptyString) as Hne by (intros E; rewrite E in Hkty; set_solver).
  unfold Allows. destruct (is_empty (alg k)) eqn:E; cbn [negb].
  - apply is_empty_true in E. destruct (eqb (at_key algorithmKeyType a) _) eqn:Ek; cbn [negb].
    + apply (proj1 (eqb_true _ _)), (proj1 (at_key_Some _ _ _ Hne)) in Ek. destruct (algorithmCurve !! a) as [c|].
      * rewrite eqb_true. split; [intros ->; split_and!; [done|by intros ? [= <-]|by left]|].
        intros (_ & H & _). by apply H.
      * split; [|done]. intros _. split_and!; [done|done|by left].
    + apply eqb_false in Ek. split; [done|]. intros [Hk _]. by apply (proj2 (at_key_Some _ _ _ Hne)) in Hk.
  - apply is_empty_false in E. rewrite eqb_true. split; [|by intros (_ & _ & [?|?])]. intros ->.
    split_and!; [by apply Ha| |by right]. intros c Hcurve. apply Hc; [|done].
    destruct (rsa_public (JWK k)) eqn:Er; [|done]. destruct (curve_algorithm _ _ Hcurve) as [Hn _].
    destruct Hn. rewrite Ha by done. f_equal. apply Hr. by eexists.
Qed.

End allowed.

(** ** The keys of one fetch *)

Section fetched.
Context {lib : JwkLib}.

(** The entries read so far: the keys kept are signing keys of entries of the document,
    each under a kid of its own, which has a thumbprint. *)
Definition jwks_ok (p : Provider) (l : list (option jwk)) (st : jwks_state) : Prop :=
  NoDup (Key_ID <$> out st)
  ∧ (∀ kid, is_Some (thumbprints st !! kid) ↔ kid ∈ Key_ID <$> out st)
  ∧ ∀ k, k ∈ out st → ∃ parsed, parsed ∈ l ∧ signingKey p parsed = Ok k.

Lemma add_entry_ok p l st e st' :
  e ∈ l → jwks_ok p l st → add_entry p st e = Ok st' → jwks_ok p l st'.
Proof.
  intros He (Hd & Ht & Hk) H. unfold add_entry in H. destruct (signingKey p e) as [k|] eqn:Es; [|by injection H as <-].
  destruct (Thumbprint (JWK k)) as [t|]; [|by injection H as <-].
  destruct (thumbprints st !! Key_ID k) eqn:E.
  - destruct (eqb _ _); [by injection H as <-|done].
  - injection H as <-. unfold jwks_ok. cbn. rewrite fmap_app. cbn.
    assert (Key_ID k ∉ Key_ID <$> out st) as Hn by (intros Hin; apply Ht in Hin as [? Hin]; congruence).
    split_and!.
    + apply NoDup_app. split_and!; [done| |apply NoDup_singleton]. intros x Hx ->%list_elem_of_singleton. done.
    + intros kid. rewrite elem_of_app, list_elem_of_singleton, <-Ht.
      destruct (decide (kid = Key_ID k)) as [->|Hne]; [rewrite lookup_insert_eq; naive_solver|].
      rewrite lookup_insert_ne by done. naive_solver.
    + intros k' [Hin| ->%list_elem_of_singleton]%elem_of_app; [by apply Hk|eauto].
Qed.

Lemma add_entries_ok p all_ l i st st' :
  (∀ e, e ∈ l → e ∈ all_) → jwks_ok p all_ st → loop (λ _ e st, add_entry p st e) i l st = Ok st' → jwks_ok p all_ st'.
Proof.
  revert i st. induction l as [|e l IH]; intros i st Hl Hok; cbn [loop]; [by intros [= <-]|].
  intros (st1 & H1 & H2)%bind_Ok. eapply IH; [|eapply add_entry_ok, H1|exact H2]; set_solver.
Qed.

Lemma parseJWKS_Ok p doc ks :
  parseJWKS p doc = Ok ks →
  ks ≠ [] ∧ NoDup (Key_ID <$> ks)
  ∧ ∃ l, doc = Entries l ∧ ∀ k, k ∈ ks → ∃ parsed, parsed ∈ l ∧ signingKey p parsed = Ok k.
Proof.
  destruct doc as [| | |l]; [done..|]. cbn [parseJWKS]. intros (st & H & Hst)%bind_Ok.
  apply (add_entries_ok p l) in H as (Hd & _ & Hk); [|done|].
  - destruct (is_nil (out st)) eqn:E; [done|]. apply is_nil_false in E. injection Hst as <-. eauto.
  - split_and!; cbn; [constructor|intros kid; rewrite lookup_empty, elem_of_nil; by split; [intros [? [=]]|]|by intros ? ?%elem_of_nil].
Qed.

Lemma fetch_Ok p x ks :
  fetch p x = Ok ks →
  ks ≠ [] ∧ NoDup (Key_ID <$> ks)
  ∧ ∀ k, k ∈ ks → ∃ parsed, signingKey p parsed = Ok k.
Proof.
  unfold fetch. intros (uri & _ & H)%bind_Ok. apply bind_Ok in H as (body & _ & H).
  apply parseJWKS_Ok in H as (Hne & Hd & l & _ & Hk). split_and!; [done|done|]. naive_solver.
Qed.

(** ** The set and its reloads *)

Definition keyed (ks : list Key) : list (string * Key) := (λ k, (Key_ID k, k)) <$> ks.

Lemma keyed_fst ks : (keyed ks).*1 = Key_ID <$> ks.
Proof. unfold keyed. by rewrite <-list_fmap_compose. Qed.

Lemma index_keys_Ok id ks i m m' :
  loop (λ _ k index, index_key id k index) i ks m = Ok m' ↔
  NoDup (Key_ID <$> ks) ∧ (∀ k, k ∈ ks → m !! Key_ID k = None) ∧ m' = list_to_map (keyed ks) ∪ m.
Proof.
  revert i m. induction ks as [|k ks IH]; intros i m; cbn [loop fmap list_fmap].
  { assert (list_to_map (keyed []) ∪ m = m) as E0 by apply (left_id_L ∅ (∪)).
    split; [intros [= ->]|intros (_ & _ & ->); by rewrite E0].
    split_and!; [constructor|by intros ? ?%elem_of_nil|by rewrite E0]. }
  rewrite bind_Ok. unfold index_key at 1. destruct (m !! Key_ID k) as [e|] eqn:E.
  { split; [by intros (? & [=] & _)|]. intros (_ & H & _). specialize (H k (list_elem_of_here _ _)). congruence. }
  setoid_rewrite IH. rewrite NoDup_cons. change (list_to_map (keyed (k :: ks))) with (<[Key_ID k := k]> (list_to_map (keyed ks)) : gmap string Key).
  assert (NoDup (Key_ID <$> ks) → Key_ID k ∉ Key_ID <$> ks →
          list_to_map (keyed ks) ∪ <[Key_ID k := k]> m = <[Key_ID k := k]> (list_to_map (keyed ks)) ∪ m) as Hu.
  { intros _ Hn. rewrite <-insert_union_l. symmetry. apply insert_union_r. apply not_elem_of_list_to_map_1. by rewrite keyed_fst. }
  split.
  - intros (m1 & [= <-] & Hd & Hn & ->).
    assert (Key_ID k ∉ Key_ID <$> ks) as Hk.
    { intros (q & Hq & Hin)%list_elem_of_fmap. specialize (Hn q Hin). rewrite <-Hq, lookup_insert_eq in Hn. done. }
    split_and!; [done|done| |by apply Hu]. intros q [->|Hq]%elem_of_cons; [done|]. specialize (Hn q Hq).
    by apply lookup_insert_None in Hn as [? _].
  - intros ([Hk Hd] & Hn & ->). eexists. split; [done|]. split_and!; [done| |by rewrite Hu].
    intros q Hq. apply lookup_insert_None. split; [by apply Hn, list_elem_of_further|].
    intros E'. destruct Hk. rewrite E'. by apply list_elem_of_fmap_2.
Qed.

(** The keys of all providers, in their order. *)
Definition all_keys (ps : list Provider) (m : gmap string (list Key)) : list Key :=
  concat ((λ p, keys_of m (ID p)) <$> ps).

Lemma list_to_map_keyed_app a b : (list_to_map (keyed (a ++ b)) : gmap string Key) = list_to_map (keyed a) ∪ list_to_map (keyed b).
Proof. unfold keyed. rewrite fmap_app. apply list_to_map_app. Qed.

Lemma list_to_map_keyed_None ks kid : (list_to_map (keyed ks) : gmap string Key) !! kid = None ↔ kid ∉ Key_ID <$> ks.
Proof.
  rewrite <-keyed_fst. split; [apply not_elem_of_list_to_map_2|apply not_elem_of_list_to_map_1].
Qed.

Lemma index_all_Ok ps km i m m' :
  loop (λ _ p index, loop (λ _ k index, index_key (ID p) k index) 0 (keys_of km (ID p)) index) i ps m = Ok m' ↔
  NoDup (Key_ID <$> all_keys ps km) ∧ (∀ k, k ∈ all_keys ps km → m !! Key_ID k = None)
  ∧ m' = list_to_map (keyed (all_keys ps km)) ∪ m.
Proof.
  unfold all_keys. revert i m. induction ps as [|p ps IH]; intros i m; cbn [loop fmap list_fmap concat].
  { assert (list_to_map (keyed []) ∪ m = m) as E0 by apply (left_id_L ∅ (∪)).
    split; [intros [= ->]|intros (_ & _ & ->); by rewrite E0].
    split_and!; [constructor|by intros ? ?%elem_of_nil|by rewrite E0]. }
  rewrite bind_Ok. setoid_rewrite index_keys_Ok. setoid_rewrite IH.
  set (a := keys_of km (ID p)). set (b := concat ((λ p, keys_of km (ID p)) <$> ps)).
  rewrite fmap_app, NoDup_app, list_to_map_keyed_app. split.
  - intros (m1 & (Ha & Hma & ->) & Hb & Hmb & ->).
    assert (∀ k, k ∈ b → Key_ID k ∉ Key_ID <$> a ∧ m !! Key_ID k = None) as Hb'.
    { intros k Hk. specialize (Hmb k Hk). apply lookup_union_None in Hmb as [H1 H2]. split; [|done].
      by apply list_to_map_keyed_None. }
    split_and!; [done| |done| |].
    + intros kid Hin (k & -> & Hk)%list_elem_of_fmap. by destruct (Hb' k Hk).
    + intros k [Hk|Hk]%elem_of_app; [by apply Hma|by apply Hb'].
    + rewrite (assoc_L (∪)). f_equal. apply map_union_comm. apply map_disjoint_spec.
      intros kid k1 k2 H1 H2. apply elem_of_list_to_map_2 in H1.
      apply (list_elem_of_fmap_2 fst) in H1. rewrite keyed_fst in H1. cbn in H1.
      apply list_elem_of_fmap in H1 as (k & -> & Hk). destruct (Hb' k Hk) as [Hn _].
      apply list_to_map_keyed_None in Hn. congruence.
  - intros ((Ha & Hab & Hb) & Hm & ->). eexists. split; [split_and!; [done| |done]|].
    + intros k Hk. apply Hm, elem_of_app. by left.
    + split_and!; [done| |].
      * intros k Hk. apply lookup_union_None. split; [|apply Hm, elem_of_app; by right].
        apply list_to_map_keyed_None. intros Hin. apply (Hab _ Hin). by apply list_elem_of_fmap_2.
      * rewrite (assoc_L (∪)). f_equal. apply map_union_comm. apply map_disjoint_spec.
        intros kid k1 k2 H1 H2. assert (kid ∉ Key_ID <$> b) as Hn.
        { apply Hab. rewrite <-keyed_fst. apply elem_of_list_to_map_2 in H1.
          by apply (list_elem_of_fmap_2 fst) in H1. }
        apply list_to_map_keyed_None in Hn. congruence.
Qed.

Lemma newSnapshot_Ok ps m snap :
  newSnapshot ps m = Ok snap ↔
  NoDup (Key_ID <$> all_keys ps m) ∧ snap = MkSnapshot (list_to_map (keyed (all_keys ps m))) m.
Proof.
  unfold newSnapshot. rewrite bind_Ok. setoid_rewrite index_all_Ok. split.
  - intros (index & (Hd & _ & ->) & [= <-]). split; [done|]. by rewrite (right_id_L ∅ (∪)).
  - intros [Hd ->]. eexists. split; [split_and!; [done|by intros; rewrite lookup_empty|done]|].
    by rewrite (right_id_L ∅ (∪)).
Qed.

(** ** What a set promises

    The keys each provider has, in the order of the providers: a reload replaces those of
    the providers that answered, takes those of a provider without a usable key, keeps
    those of a provider that failed, and does nothing when two keys then share a kid. *)
Definition held := list (list Key).

Definition held_next (old : list Key) (r : result fetch_error (list Key)) : list Key :=
  match r with
  | Ok ks => ks
  | Err (NoUsableKey _) => []
  | Err _ => old
  end.

Definition held_reload (h : held) (rs : outcomes) : held :=
  let h' := zip_with held_next h rs in
  if decide (NoDup (Key_ID <$> concat h')) then h' else h.

Definition outcome_keys (r : result fetch_error (list Key)) : list Key :=
  match r with Ok ks => ks | Err _ => [] end.

Definition held_by (ps : list Provider) (m : gmap string (list Key)) : held := (λ p, keys_of m (ID p)) <$> ps.

Definition represents (s : KeySet) (h : held) : Prop :=
  held_by (providers s) (byProvider (current s)) = h
  ∧ NoDup (Key_ID <$> concat h)
  ∧ byKID (current s) = list_to_map (keyed (concat h)).

Lemma keys_of_fold {R} (g : Provider * R → list Key) l m id :
  id ∉ (λ pr, ID pr.1) <$> l →
  keys_of (fold_left (λ m pr, <[ID pr.1 := g pr]> m) l m) id = keys_of m id.
Proof.
  revert m. induction l as [|pr l IH]; intros m; [done|].
  cbn [fold_left fmap list_fmap]. intros [Hne Hl]%not_elem_of_cons.
  rewrite IH by done. unfold keys_of. by rewrite lookup_insert_ne by done.
Qed.

Lemma zip_ids {R} ps (rs : list R) : length rs = length ps → (λ pr, ID pr.1) <$> zip ps rs = ID <$> ps.
Proof.
  revert rs. induction ps as [|p ps IH]; intros [|r rs] H; try done. injection H as H. cbn. f_equal. by apply IH.
Qed.

Lemma zip_outcomes {R B} (f : R → B) (ps : list Provider) (rs : list R) :
  length rs = length ps → (λ pr, f pr.2) <$> zip ps rs = f <$> rs.
Proof.
  revert rs. induction ps as [|p ps IH]; intros [|r rs] H; try done. injection H as H. cbn. f_equal. by apply IH.
Qed.

(** Writing a value for every provider, their ids distinct, leaves each its own. *)
Lemma held_by_fold {R} (g : Provider * R → list Key) ps rs m :
  NoDup (ID <$> ps) → length rs = length ps →
  held_by ps (fold_left (λ m pr, <[ID pr.1 := g pr]> m) (zip ps rs) m) = g <$> zip ps rs.
Proof.
  revert rs m. induction ps as [|p ps IH]; intros [|r rs] m Hd Hl; try done. injection Hl as Hl.
  cbn [fmap list_fmap] in Hd. apply NoDup_cons in Hd as [Hp Hd].
  cbn [zip zip_with fold_left held_by fmap list_fmap]. f_equal.
  - rewrite keys_of_fold by by rewrite zip_ids. unfold keys_of. cbn [fst]. by rewrite lookup_insert_eq.
  - by apply IH.
Qed.

Lemma reload_next old r : (reload old r).1 = held_next old r.
Proof. by destruct r as [ks|[]]. Qed.

Lemma reloaded_held ps old rs :
  NoDup (ID <$> ps) → length rs = length ps →
  held_by ps (reloaded old ps rs) = zip_with held_next (held_by ps old) rs.
Proof.
  intros Hd Hl. unfold reloaded.
  rewrite (held_by_fold (λ pr, (reload (keys_of old (ID pr.1)) pr.2).1)) by done.
  unfold held_by. rewrite zip_with_fmap_l. clear. revert rs. induction ps as [|p ps IH]; intros [|r rs]; try done.
  cbn [zip zip_with fmap list_fmap fst snd]. rewrite reload_next. f_equal. apply IH.
Qed.

Lemma failed_nil ps rs :
  length rs = length ps → failed ps rs = [] → ∀ pr, pr ∈ zip ps rs → pr.2 = Ok (outcome_keys pr.2).
Proof.
  unfold failed. revert rs. induction ps as [|p ps IH]; intros [|r rs] Hl; try done; [by intros _ ? ?%elem_of_nil|].
  injection Hl as Hl. cbn. destruct r as [ks|e]; [|done]. intros H pr [->|Hpr]%elem_of_cons; [done|]. by eapply IH.
Qed.

Lemma loaded_held ps rs :
  NoDup (ID <$> ps) → length rs = length ps → failed ps rs = [] →
  held_by ps (loaded ps rs) = outcome_keys <$> rs.
Proof.
  intros Hd Hl Hf. pose proof (failed_nil _ _ Hl Hf) as Hok.
  transitivity ((λ pr, outcome_keys pr.2) <$> zip ps rs).
  - rewrite <-(held_by_fold (λ pr, outcome_keys pr.2) ps rs ∅ Hd Hl). f_equal. unfold loaded.
    generalize (∅ : gmap string (list Key)). revert Hok. generalize (zip ps rs). intros l Hok.
    induction l as [|pr l IH]; intros m; [done|]. cbn [fold_left].
    rewrite (Hok pr) by apply list_elem_of_here. cbn [outcome_keys]. apply IH. intros q Hq. by apply Hok, list_elem_of_further.
  - by apply zip_outcomes.
Qed.

Lemma Load_represents {url : UrlParser} ca ps rs s :
  length rs = length ps → Load ca ps rs = Ok s →
  providers s = ps ∧ NoDup (ID <$> ps) ∧ represents s (outcome_keys <$> rs).
Proof.
  intros Hl. unfold Load. intros H. apply bind_unit_Ok in H as [Hv H]. apply wrap_Ok, Validate_Ok in Hv as (_ & _ & Hd).
  apply bind_unit_Ok in H as [_ H]. apply bind_unit_Ok in H as [Hf H].
  apply check_Ok, is_nil_true in Hf. apply bind_Ok in H as (snap & Hs & [= <-]).
  apply wrap_Ok, newSnapshot_Ok in Hs as [Hn ->]. split; [done|]. split; [done|].
  unfold represents. cbn. unfold all_keys in *. fold (held_by ps (loaded ps rs)) in *.
  by rewrite loaded_held in * by done.
Qed.

Lemma Refresh_represents s h rs :
  NoDup (ID <$> providers s) → length rs = length (providers s) → represents s h →
  providers (Refresh s rs).1 = providers s ∧ represents (Refresh s rs).1 (held_reload h rs).
Proof.
  intros Hd Hl (<- & Hn & Hk). unfold Refresh, held_reload.
  rewrite <-(reloaded_held _ _ _ Hd Hl).
  set (m := reloaded (byProvider (current s)) (providers s) rs).
  destruct (newSnapshot (providers s) m) as [snap|e] eqn:E.
  - apply newSnapshot_Ok in E as [Hn' ->]. unfold all_keys in *. fold (held_by (providers s) m) in *.
    by rewrite decide_True.
  - rewrite decide_False; [done|]. intros Hn'.
    assert (newSnapshot (providers s) m = Ok (MkSnapshot (list_to_map (keyed (all_keys (providers s) m))) m)); [|congruence].
    by apply newSnapshot_Ok.
Qed.

(** The set after a sequence of reloads. *)
Definition refreshes (rss : list outcomes) (s : KeySet) : KeySet := fold_left (λ s rs, (Refresh s rs).1) rss s.

Lemma refreshes_represents rss s h :
  NoDup (ID <$> providers s) → Forall (λ rs, length rs = length (providers s)) rss → represents s h →
  represents (refreshes rss s) (fold_left held_reload rss h).
Proof.
  revert s h. induction rss as [|rs rss IH]; intros s h Hd Hl Hr; [done|].
  apply Forall_cons in Hl as [Hl Hls]. destruct (Refresh_represents s h rs) as [Hp Hr']; [done..|].
  unfold refreshes. cbn [fold_left]. apply IH; rewrite ?Hp; done.
Qed.

Lemma represents_Lookup s h kid k :
  represents s h → Lookup s kid = Some k ↔ ∃ ks, ks ∈ h ∧ k ∈ ks ∧ Key_ID k = kid.
Proof.
  intros (_ & Hn & Hk). unfold Lookup. rewrite Hk, <-elem_of_list_to_map by by rewrite keyed_fst.
  unfold keyed. rewrite list_elem_of_fmap. setoid_rewrite list_elem_of_In. setoid_rewrite in_concat. split.
  - intros (k' & [= -> ->] & ks & Hks & Hin). eauto.
  - intros (ks & Hks & Hin & <-). eauto.
Qed.

(** C30: After [Load] and any number of reloads, a kid finds exactly the key of that kid
    among the keys the providers have: each provider's are those of its last answer, none
    after an answer without a usable key, and its previous ones after a failed fetch; a
    reload after which two keys would share a kid changes nothing. *)
Theorem Lookup_finds_held {url : UrlParser} ca ps rs rss s kid k :
  length rs = length ps → Forall (λ rs, length rs = length ps) rss → Load ca ps rs = Ok s →
  Lookup (refreshes rss s) kid = Some k ↔
  ∃ ks, ks ∈ fold_left held_reload rss (outcome_keys <$> rs) ∧ k ∈ ks ∧ Key_ID k = kid.
Proof.
  intros Hl Hls H. destruct (Load_represents _ _ _ _ Hl H) as (<- & Hd & Hr).
  by apply represents_Lookup, refreshes_represents.
Qed.

(** The keys a fetch returns are usable: at least one, no two under the same kid, and
    each the signing key of an entry of the provider's JWKS, marked with the provider. *)
Theorem fetch_keys p x ks :
  fetch p x = Ok ks →
  ks ≠ [] ∧ NoDup (Key_ID <$> ks)
  ∧ ∀ k, k ∈ ks → Key_Provider k = p ∧ Key_ID k ≠ EmptyString ∧ ∃ parsed, signingKey p parsed = Ok k.
Proof.
  intros (Hne & Hd & Hk)%fetch_Ok. split_and!; [done|done|]. intros k Hin. destruct (Hk k Hin) as [parsed Hs].
  destruct (signingKey_Ok _ _ _ Hs) as (Hp & Hid & _). eauto.
Qed.

(** ** Retries *)

(** The pauses between the attempts double from the first one up to the longest, and
    never pass it: the [i]-th is the first times [2 ^ i], or ten seconds when that is more.
    The multiplication never overflows. *)
Theorem retry_pauses delay l i d :
  (0 < delay ≤ maxRetryDelay)%Z → (fetchWithRetry delay None l).1 !! i = Some d →
  d = Z.min (delay * 2 ^ Z.of_nat i) maxRetryDelay.
Proof.
  generalize (None : option fetch_error) as last. revert delay i. induction l as [|a l IH]; intros delay i last Hd; [done|].
  cbn [fetchWithRetry]. destruct (fetched a); [done|]. destruct (ended a); [done|].
  assert (delay = Z.min (delay * 2 ^ Z.of_nat 0) maxRetryDelay) as E0 by (rewrite Z.mul_1_r; lia).
  destruct (ended_in_pause a).
  { destruct i as [|i]; [|done]. intros H. change (Some delay = Some d) in H. injection H as <-. exact E0. }
  rewrite int64_id by (unfold in_int64, maxRetryDelay, second in *; lia).
  set (last' := if negb (is_some last) || on_its_own a then Some e else last).
  pose proof (IH (Z.min (delay * 2) maxRetryDelay)) as IH'.
  destruct (fetchWithRetry (Z.min (delay * 2) maxRetryDelay) last' l) as [pauses r] eqn:E.
  destruct i as [|i]; intros Hi.
  { change (Some delay = Some d) in Hi. injection Hi as <-. exact E0. }
  change (pauses !! i = Some d) in Hi. rewrite (IH' i last').
  - rewrite Nat2Z.inj_succ, Z.pow_succ_r by lia.
    assert (1 ≤ 2 ^ Z.of_nat i)%Z by (pose proof (Z.pow_pos_nonneg 2 (Z.of_nat i)); lia).
    unfold maxRetryDelay, second in *. nia.
  - unfold maxRetryDelay, second in *. lia.
  - by rewrite E.
Qed.

End fetched.

(** ** Examples *)

(** A library of EC keys on one curve: a key is its kid and a number that tells two values
    apart. *)
Definition example_lib : JwkLib := {|
  jwk := string * N;
  KeyID k := Some k.1;
  KeyUsage _ := Some "sig"%string;
  KeyType _ := "EC"%string;
  Algorithm _ := None;
  PublicKeyOf k := Some k;
  rsa_public _ := None;
  curve_public _ := Some "P-256"%string;
  Thumbprint k := Some (bytes_of (pretty k.2));
|}.

#[local] Existing Instance example_lib.

#[local] Instance example_laws : JwkLaws example_lib.
Proof.
  split.
  - by intros k p [= <-].
  - intros k p _. split; [by intros [=]|by intros [? [=]]].
Qed.

#[local] Instance example_url : UrlParser := λ _, Some ("https", "idp")%string.

Definition example_provider (id : string) : Provider :=
  MkProvider id EmptyString "https://idp/jwks" ["api"]%string false EmptyString EmptyString.
Definition example_key (id kid : string) (n : N) : Key := MkKey (example_provider id) kid (kid, n) EmptyString.
Definition example_set : KeySet :=
  let ps := example_provider <$> ["a"; "b"]%string in
  let m : gmap string (list Key) := {["a"%string := [example_key "a" "k1" 1]; "b"%string := [example_key "b" "k2" 2]]} in
  MkSet ps (MkSnapshot (list_to_map (keyed (all_keys ps m))) m).

Lemma Validate_example : Validate (example_provider <$> ["a"; "b"]%string) = Ok tt.
Proof. vm_compute. reflexivity. Qed.

Lemma Allows_spec_witness :
  Allows (example_key "a" "k1" 1) "ES256" = true ∧ ¬ Allows (example_key "a" "k1" 1) "RS256" = true.
Proof.
  split.
  - apply (Allows_spec (lib := example_lib) (example_provider "a") (Some ("k1"%string, 1%N)) (example_key "a" "k1" 1) "ES256"); [reflexivity|].
    split; [reflexivity|]. split; [|by left]. intros c H. vm_compute in H. vm_compute. congruence.
  - intros H. apply (Allows_spec (lib := example_lib) (example_provider "a") (Some ("k1"%string, 1%N))) in H as [H _]; [|reflexivity].
    vm_compute in H. discriminate H.
Defined.

Definition example_exchange : exchange :=
  MkExchange None (λ _, Some (MkResponse 200 (Some []))) (λ _, None)
    (λ _, Entries (lib := example_lib) [Some ("k1"%string, 1%N); None; Some ("k1"%string, 1%N)]).

Lemma fetch_keys_witness :
  fetch (example_provider "a") example_exchange = Ok [example_key "a" "k1" 1]
  ∧ NoDup (Key_ID <$> [example_key "a" "k1" 1]).
Proof.
  split; [vm_compute; reflexivity|].
  apply (fetch_keys (lib := example_lib) (example_provider "a") example_exchange). vm_compute. reflexivity.
Defined.

Lemma Lookup_finds_held_witness :
  Lookup (refreshes [[Err (NoUsableKey 0); Ok [example_key "b" "k2" 5]]; [Err JWKSNotJSON; Err JWKSNotJSON]] example_set) "k2"
  = Some (example_key "b" "k2" 5).
Proof.
  apply (Lookup_finds_held (λ _, true) (example_provider <$> ["a"; "b"]%string)
           [Ok [example_key "a" "k1" 1]; Ok [example_key "b" "k2" 2]]);
    [reflexivity|repeat constructor|vm_compute; reflexivity|].
  exists [example_key "b" "k2" 5]. split_and!; [|apply list_elem_of_here|reflexivity].
  apply (bool_decide_unpack _). vm_compute. exact I.
Defined.

Lemma retry_pauses_witness :
  nth_error (fetchWithRetry second None (repeat (MkAttempt (Err JWKSNotJSON) true false false) 6)).1 5 = Some (10 * second)%Z
  ∧ (10 * second = Z.min (second * 2 ^ Z.of_nat 5) maxRetryDelay)%Z.
Proof.
  split; [vm_compute; reflexivity|].
  apply (retry_pauses second (repeat (MkAttempt (Err JWKSNotJSON) true false false) 6)).
  - split; vm_compute; [reflexivity|discriminate].
  - vm_compute. reflexivity.
Defined.

End Keys.
