(* ===== verification/Verify.v ===== *)
(** * Verifying a token ([internal/token/verify])

    The header of a compact JWS ([verify.go]), the checks of its claims ([claims.go]), the
    cache of verified tokens ([cache.go]), and [Verify] over all of them. The jws library
    ([Jws]), the lru library ([Lru]), and the digest ([Digest]) are interfaces; a time is its
    number of nanoseconds since the epoch. *)
From S2P Require Import Prelude GoText Json Encoding Keys.
Import GoText Encoding Keys.

Module Verify.

(** [jws.Verify] of a compact token with an algorithm and a key: the payload it signs. *)
Class Jws (lib : JwkLib) := jws_verify : bytes → string → jwk → option bytes.

(** [sha256.Sum256]. *)
Class Digest := digest : bytes → bytes.

(** The lru library: a cache of values of type [V] by digest. *)
Class Lru (V : Type) := {
  lru : Type;
  lru_new : nat → lru;
  lru_get : bytes → lru → option V * lru;
  lru_add : bytes → V → lru → lru;
  lru_remove : bytes → lru → lru;
  entries : lru → gmap bytes V;
}.

(** What its documentation says: a lookup finds the entry and drops none, an addition
    writes one entry and may evict others, a removal drops one. *)
Class LruLaws {V} (L : Lru V) : Prop := {
  new_entries n : entries (lru_new n) = ∅;
  get_entries k c : (lru_get k c).1 = entries c !! k ∧ entries (lru_get k c).2 = entries c;
  add_entries k v c : entries (lru_add k v c) ⊆ <[k := v]> (entries c);
  remove_entries k c : entries (lru_remove k c) = delete k (entries c);
}.

Inductive Code :=
  | CodeFormatInvalid | CodeAlgNotAllowed | CodeKIDMissing | CodeKIDUnknown | CodeSignatureInvalid
  | CodeExpMissing | CodeExpired | CodeNotYetValid | CodeIATMissing | CodeIATInvalid
  | CodeAudienceMissing | CodeAudienceInvalid | CodeNamespaceNotAllowed.

Notation claims := (gmap string Json.json) (only parsing).

(** ** The header *)

(** [headerString]: the parameter as a string, empty when it is absent or null. *)
Definition headerString (header : claims) (name : string) : result Code string :=
  match header !! name with
  | None | Some Json.JNull => Ok EmptyString
  | Some (Json.JStr body) => Ok (Unquote body)
  | Some _ => Err CodeFormatInvalid
  end.

Definition absent (header : claims) (name : string) : bool := negb (is_some (header !! name)).

Definition readHeader (raw : bytes) : result Code (string * string) :=
  match Split "." raw with
  | [h; p; sig] =>
      match DecodeString h, DecodeString p, DecodeString sig with
      | Some h, Some _, Some _ =>
          header ← match Json.parse h ≫= members with Some header => Ok header | None => Err CodeFormatInvalid end;
          alg ← headerString header "alg";
          kid ← headerString header "kid";
          _ ← check (absent header "crit") CodeFormatInvalid;
          _ ← check (absent header "b64") CodeFormatInvalid;
          _ ← check (AcceptsAlgorithm alg) CodeAlgNotAllowed;
          _ ← check (negb (is_empty kid)) CodeKIDMissing;
          Ok (alg, kid)
      | _, _, _ => Err CodeFormatInvalid
      end
  | _ => Err CodeFormatInvalid
  end.

(** ** The claims *)

Definition decodeClaims (payload : bytes) : result Code claims :=
  match Json.parse payload ≫= members with
  | Some c => Ok c
  | None => Err CodeFormatInvalid
  end.

Definition maxNumericDate : Z := 2 ^ 53 - 1.

(** [time.Unix(int64(whole), int64(fraction * float64(time.Second)))] of a number of
    seconds: both parts have the sign of the number. *)
Definition unix_nanos (negative : bool) (seconds : Z * Z) : Z :=
  let whole := truncate_double seconds in
  let fraction := fraction_double seconds in
  let nanos := truncate_double (round_double (fraction.1 * 10 ^ 9) (2 ^ (- fraction.2))) in
  let size := (whole * 10 ^ 9 + nanos)%Z in
  if negative then (- size)%Z else size.

(** [numericDate]: the time a claim names, [None] when there is no such claim. *)
Definition numericDate (cs : claims) (name : string) : result Code (option Z) :=
  match cs !! name with
  | None => Ok None
  | Some (Json.JNum text) =>
      let '(negative, seconds) := ParseFloat text in
      if more_than seconds maxNumericDate then Err CodeFormatInvalid
      else Ok (Some (unix_nanos negative seconds))
  | Some _ => Err CodeFormatInvalid
  end.

Definition checkTimes (cs : claims) (now leeway : Z) : result Code Z :=
  exp ← numericDate cs "exp";
  exp ← match exp with Some exp => Ok exp | None => Err CodeExpMissing end;
  _ ← check (now <? exp + leeway)%Z CodeExpired;
  nbf ← numericDate cs "nbf";
  _ ← check (match nbf with Some nbf => negb (now <? nbf - leeway)%Z | None => true end) CodeNotYetValid;
  iat ← numericDate cs "iat";
  iat ← match iat with Some iat => Ok iat | None => Err CodeIATMissing end;
  _ ← check (negb (now + leeway <? iat)%Z) CodeIATInvalid;
  Ok exp.

(** The string of a JSON value that is one. *)
Definition json_string (v : Json.json) : option string :=
  match v with
  | Json.JStr body => Some (Unquote body)
  | _ => None
  end.

Definition checkAudience (cs : claims) (p : Provider) : result Code unit :=
  if is_nil (Audiences p) then Ok tt
  else
    match cs !! "aud" with
    | None => check (AllowMissingAud p) CodeAudienceMissing
    | Some v =>
        audiences ← match v with
                    | Json.JStr body => Ok [Unquote body]
                    | Json.JArr _ items =>
                        match mapM json_string items with Some l => Ok l | None => Err CodeAudienceInvalid end
                    | _ => Err CodeAudienceInvalid
                    end;
        check (existsb (λ aud, member aud (Audiences p)) audiences) CodeAudienceInvalid
    end.

(** [standardOf] and [stringClaim]. *)
Record Standard := MkStandard {
  Subject : option Json.json;
  PreferredUsername : option Json.json;
  Roles : option Json.json;
  Scope : option Json.json;
  Level : option Json.json;
  TenantID : option Json.json;
}.

Definition standardOf (cs : claims) : Standard :=
  MkStandard (cs !! "sub") (cs !! "preferred_username")
    (v ← cs !! "realm_access"; realm_access ← members v; (realm_access : claims) !! "roles")
    (cs !! "scope") (cs !! "level") (cs !! "tenant-id").

Definition stringClaim (cs : claims) (name : string) : string := default EmptyString (cs !! name ≫= json_string).

(** ** The verifier *)

Section verify.
Context {lib : JwkLib} {jws : Jws lib} {sha : Digest}.

Record Token := MkToken {
  raw : bytes;
  payload : bytes;
  token_claims : claims;
  standard : Standard;
  providerID : string;
  keyID : string;
  issuer : string;
  expiry : Z;
  key : jwk;
}.

(** [Verifier.check] without the cache: the token a raw text verifies to with the keys
    [find] finds. *)
Definition verified (find : string → option Key) (leeway now : Z) (r : bytes) : result Code Token :=
  '(a, kid) ← readHeader r;
  k ← match find kid with Some k => Ok k | None => Err CodeKIDUnknown end;
  _ ← check (Allows k a) CodeAlgNotAllowed;
  p ← match jws_verify r a (JWK k) with Some p => Ok p | None => Err CodeSignatureInvalid end;
  cs ← decodeClaims p;
  _ ← checkAudience cs (Key_Provider k);
  exp ← checkTimes cs now leeway;
  Ok (MkToken r p cs (standardOf cs) (Keys.ID (Key_Provider k)) kid (stringClaim cs "iss") exp (JWK k)).

Context {L : Lru Token}.

(** [cache.get]: an expired token leaves the cache. *)
Definition cache_get (d : bytes) (now leeway : Z) (c : lru) : option Token * lru :=
  match lru_get d c with
  | (None, c) => (None, c)
  | (Some tok, c) =>
      if (now <? expiry tok + leeway)%Z then (Some tok, c) else (None, lru_remove d c)
  end.

(** [Verifier.cached]; a verifier without a cache holds [None]. *)
Definition cached (find : string → option Key) (leeway : Z) (d : bytes) (now : Z) (cache : option lru) :
    option Token * option lru :=
  match cache with
  | None => (None, None)
  | Some c =>
      let '(tok, c) := cache_get d now leeway c in
      (tok ← tok;
       match find (keyID tok) with
       | Some k => if eqb (JWK k) (key tok) then Some tok else None
       | None => None
       end, Some c)
  end.

(** [Verifier.check]. *)
Definition check_token (find : string → option Key) (leeway : Z) (r d : bytes) (now : Z) (cache : option lru) :
    result Code Token * option lru :=
  match verified find leeway now r with
  | Err e => (Err e, cache)
  | Ok tok => (Ok tok, lru_add d tok <$> cache)
  end.

(** [Verifier.Verify]; [admission] is [Options.Admit], which returns no error for a token it
    admits. *)
Definition Verify (find : string → option Key) (admission : Token → option Code) (leeway : Z) (r : bytes) (now : Z)
    (cache : option lru) : result Code Token * option lru :=
  let d := digest r in
  let '(tok, cache) := cached find leeway d now cache in
  let '(res, cache) := match tok with
                       | Some tok => (Ok tok, cache)
                       | None => check_token find leeway r d now cache
                       end in
  (tok ← res; match admission tok with Some e => Err e | None => Ok tok end, cache).

(** [Options], and [New]: a zero field takes its default, and a negative cache size turns
    the cache off. *)
Definition DefaultLeeway : Z := 30 * 10 ^ 9.
Definition DefaultCacheSize : Z := 10000.

Definition leeway_of (leeway : Z) : Z := if (leeway <=? 0)%Z then DefaultLeeway else leeway.

Definition New (CacheSize : Z) : option lru :=
  let size := if (CacheSize =? 0)%Z then DefaultCacheSize else CacheSize in
  if (0 <? size)%Z then Some (lru_new (Z.to_nat size)) else None.

End verify.

(** ** What the claim checks accept *)

(** A claim names a time. *)
Definition claim_time (cs : claims) (name : string) (t : Z) : Prop := numericDate cs name = Ok (Some t).

Definition times_ok (cs : claims) (now leeway exp : Z) : Prop :=
  claim_time cs "exp" exp ∧ (now < exp + leeway)%Z
  ∧ (cs !! "nbf" = None ∨ ∃ nbf, claim_time cs "nbf" nbf ∧ (nbf - leeway <= now)%Z)
  ∧ ∃ iat, claim_time cs "iat" iat ∧ (iat <= now + leeway)%Z.

Lemma numericDate_None cs name : numericDate cs name = Ok None ↔ cs !! name = None.
Proof.
  unfold numericDate. destruct (cs !! name) as [v|]; [|done]. split; [|done].
  destruct v; try done. destruct (ParseFloat _). by case_match.
Qed.

Lemma checkTimes_Ok cs now leeway exp : checkTimes cs now leeway = Ok exp ↔ times_ok cs now leeway exp.
Proof.
  unfold checkTimes, times_ok, claim_time. rewrite <-numericDate_None.
  destruct (numericDate cs "exp") as [[e|]|]; cbn [mbind result_bind]; [|naive_solver..].
  rewrite bind_unit_Ok, check_Ok, Z.ltb_lt. destruct (numericDate cs "nbf") as [nbf|]; cbn [mbind result_bind]; [|naive_solver].
  rewrite bind_unit_Ok, check_Ok.
  assert ((match nbf with Some nbf => negb (now <? nbf - leeway)%Z | None => true end) = true ↔
          (Ok nbf : result Code _) = Ok None ∨ ∃ t, (Ok nbf : result Code _) = Ok (Some t) ∧ (t - leeway <= now)%Z) as ->.
  { destruct nbf as [t|]; [rewrite negb_true_iff, Z.ltb_ge|]; naive_solver. }
  destruct (numericDate cs "iat") as [[i|]|]; cbn [mbind result_bind]; [|naive_solver..].
  rewrite bind_unit_Ok, check_Ok, negb_true_iff, Z.ltb_ge.
  split.
  - intros (? & ? & ? & [= <-]). split_and!; [done|done|done|]. by exists i.
  - intros ([= <-] & ? & ? & ? & [= <-] & ?). done.
Qed.

(** The values of the aud claim: a string, or an array of strings. *)
Definition names_audience (v : Json.json) (aud : string) : Prop :=
  json_string v = Some aud
  ∨ ∃ text items names, v = Json.JArr text items ∧ mapM json_string items = Some names ∧ aud ∈ names.

Definition audience_ok (cs : claims) (p : Provider) : Prop :=
  Audiences p = []
  ∨ cs !! "aud" = None ∧ AllowMissingAud p = true
  ∨ ∃ v aud, cs !! "aud" = Some v ∧ names_audience v aud ∧ aud ∈ Audiences p.

Lemma existsb_audience l (p : Provider) :
  existsb (λ aud, member aud (Audiences p)) l = true ↔ ∃ aud, aud ∈ l ∧ aud ∈ Audiences p.
Proof.
  rewrite existsb_exists. split.
  - intros (aud & H1%list_elem_of_In & H2). exists aud. by apply member_true in H2.
  - intros (aud & H1%list_elem_of_In & H2). exists aud. by rewrite member_true.
Qed.

Lemma checkAudience_Ok cs p : checkAudience cs p = Ok tt ↔ audience_ok cs p.
Proof.
  unfold checkAudience, audience_ok, names_audience. destruct (is_nil (Audiences p)) eqn:E.
  { apply is_nil_true in E. naive_solver. }
  apply is_nil_false in E. destruct (cs !! "aud") as [v|].
  2: { rewrite check_Ok. naive_solver. }
  rewrite bind_Ok. setoid_rewrite check_Ok. setoid_rewrite existsb_audience. split.
  - intros (l & Hl & aud & Hin & Hp). right. right. exists v, aud. split_and!; [done| |done].
    destruct v as [| | |body|text items|]; try done.
    + injection Hl as <-. apply list_elem_of_singleton in Hin as ->. by left.
    + right. destruct (mapM json_string items) eqn:Em; [|done]. injection Hl as <-. eauto 6.
  - intros [?|[[? _]|(v' & aud & [= <-] & H & Hp)]]; [done..|].
    destruct H as [H|(text & items & names & -> & Hm & Hin)].
    + destruct v; try done. injection H as <-. eexists. split; [done|]. exists (Unquote body). split; [|done].
      by apply list_elem_of_singleton.
    + rewrite Hm. eauto.
Qed.

(** A time claim written as a whole number is read exactly up to [2 ^ 53 - 1]
    seconds, and refused past it: no rounding of the decoder's [float64] shows. *)
Theorem numericDate_whole cs name ds :
  cs !! name = Some (Json.JNum ds) → ds ≠ [] → Forall (λ c, is_digit c = true) ds →
  numericDate cs name =
    if (digits_value ds <=? maxNumericDate)%Z then Ok (Some (digits_value ds * 10 ^ 9)%Z) else Err CodeFormatInvalid.
Proof.
  intros Hcs Hne Hd. unfold numericDate, ParseFloat. rewrite Hcs, decimal_digits by done.
  pose proof (digits_value_nonneg ds Hd) as H0. destruct (Z.leb_spec (digits_value ds) maxNumericDate) as [Hle|Hgt].
  - assert (digits_value ds < 2 ^ 53)%Z as Hlt by (unfold maxNumericDate in *; lia).
    destruct (round_double_whole (digits_value ds) ltac:(lia)) as (Ht & Hf & Hm).
    rewrite Hm by (unfold maxNumericDate; lia). rewrite (proj2 (Z.ltb_ge _ _)) by lia.
    unfold unix_nanos. rewrite Ht, Hf. do 2 f_equal. change (0 * 10 ^ 9)%Z with 0%Z.
    change (truncate_double (round_double 0 (2 ^ (- (fraction_double (round_double (digits_value ds) 1)).2)))) with 0%Z. lia.
  - rewrite round_double_large by (unfold maxNumericDate in *; lia). done.
Qed.

(** ** What the verifier accepts *)

Section sound.
Context {lib : JwkLib} {jws : Jws lib} {sha : Digest}.

Lemma verified_Ok find leeway now r tok :
  verified find leeway now r = Ok tok ↔
  ∃ a kid k, readHeader r = Ok (a, kid) ∧ find kid = Some k ∧ Allows k a = true
    ∧ jws_verify r a (JWK k) = Some (payload tok) ∧ decodeClaims (payload tok) = Ok (token_claims tok)
    ∧ audience_ok (token_claims tok) (Key_Provider k) ∧ times_ok (token_claims tok) now leeway (expiry tok)
    ∧ tok = MkToken r (payload tok) (token_claims tok) (standardOf (token_claims tok)) (Keys.ID (Key_Provider k)) kid
              (stringClaim (token_claims tok) "iss") (expiry tok) (JWK k).
Proof.
  unfold verified. split.
  - intros ([a kid] & Hh & H)%bind_Ok. apply bind_Ok in H as (k & Hk & H).
    apply bind_unit_Ok in H as [Ha H]. apply check_Ok in Ha. apply bind_Ok in H as (p & Hp & H).
    apply bind_Ok in H as (cs & Hc & H). apply bind_unit_Ok in H as [Haud H]. apply checkAudience_Ok in Haud.
    apply bind_Ok in H as (exp & Ht & [= <-]). apply checkTimes_Ok in Ht. exists a, kid, k. cbn.
    destruct (find kid); [|done]. injection Hk as ->. destruct (jws_verify _ _ _); [|done]. injection Hp as ->. done.
  - intros (a & kid & k & Hh & Hk & Ha & Hp & Hc & Haud%checkAudience_Ok & Ht%checkTimes_Ok & ->).
    cbn in *. rewrite Hh. cbn [mbind result_bind]. rewrite Hk. cbn [mbind result_bind]. rewrite Ha. cbn [check mbind result_bind].
    rewrite Hp. cbn [mbind result_bind]. rewrite Hc. cbn [mbind result_bind]. rewrite Haud. cbn [mbind result_bind].
    by rewrite Ht.
Qed.

Lemma headerString_code header name e : headerString header name = Err e → e = CodeFormatInvalid.
Proof. unfold headerString. repeat case_match; by intros [= <-]. Qed.

Lemma readHeader_code r : readHeader r ≠ Err CodeSignatureInvalid.
Proof.
  unfold readHeader. destruct (Split "." r) as [|h [|q [|sig [|]]]]; try done.
  destruct (DecodeString h), (DecodeString q), (DecodeString sig); try done.
  intros [H|(header & _ & H)]%bind_Err; [by case_match|].
  apply bind_Err in H as [H%headerString_code|(a & _ & H)]; [done|].
  apply bind_Err in H as [H%headerString_code|(kid & _ & H)]; [done|].
  do 4 (apply bind_Err in H as [H|(_ & _ & H)]; [unfold check in H; by case_match|]). done.
Qed.

Lemma numericDate_code cs name e : numericDate cs name = Err e → e = CodeFormatInvalid.
Proof.
  unfold numericDate. destruct (cs !! name) as [[]|]; try (by intros [= <-]).
  destruct (ParseFloat _). case_match; by intros [= <-].
Qed.

Lemma checkTimes_code cs now leeway : checkTimes cs now leeway ≠ Err CodeSignatureInvalid.
Proof.
  unfold checkTimes.
  intros [H%numericDate_code|(exp & _ & H)]%bind_Err; [done|].
  apply bind_Err in H as [H|(? & _ & H)]; [by case_match|].
  apply bind_Err in H as [H|(_ & _ & H)]; [unfold check in H; by case_match|].
  apply bind_Err in H as [H%numericDate_code|(nbf & _ & H)]; [done|].
  apply bind_Err in H as [H|(_ & _ & H)]; [unfold check in H; by case_match|].
  apply bind_Err in H as [H%numericDate_code|(iat & _ & H)]; [done|].
  apply bind_Err in H as [H|(? & _ & H)]; [by case_match|].
  apply bind_Err in H as [H|(_ & _ & H)]; [unfold check in H; by case_match|]. done.
Qed.

Lemma checkAudience_code cs q : checkAudience cs q ≠ Err CodeSignatureInvalid.
Proof.
  unfold checkAudience. destruct (is_nil (Audiences q)); [done|]. destruct (cs !! "aud").
  - intros [H|(l & _ & H)]%bind_Err; [by repeat case_match|]. unfold check in H. by case_match.
  - unfold check. by case_match.
Qed.

(** A token is refused for its signature exactly when its header is acceptable, a
    trusted key that accepts its algorithm is published under its kid, and the signature
    does not verify with that key: no claim has a say in it. *)
Theorem signature_refusal find leeway now r :
  verified find leeway now r = Err CodeSignatureInvalid ↔
  ∃ a kid k, readHeader r = Ok (a, kid) ∧ find kid = Some k ∧ Allows k a = true ∧ jws_verify r a (JWK k) = None.
Proof.
  unfold verified. split.
  - intros [H|([a kid] & Hh & H)]%bind_Err; [by apply readHeader_code in H|].
    apply bind_Err in H as [H|(k & Hk & H)]; [by case_match|].
    apply bind_Err in H as [H|([] & Ha & H)]; [unfold check in H; by case_match|].
    apply bind_Err in H as [H|(q & _ & H)].
    + exists a, kid, k. apply check_Ok in Ha. destruct (find kid); [|done]. injection Hk as ->.
      by destruct (jws_verify _ _ _).
    + apply bind_Err in H as [H|(cs & _ & H)]; [unfold decodeClaims in H; by case_match|].
      apply bind_Err in H as [H|(_ & _ & H)]; [by apply checkAudience_code in H|].
      apply bind_Err in H as [H|(? & _ & H)]; [by apply checkTimes_code in H|done].
  - intros (a & kid & k & Hh & Hk & Ha & Hp). rewrite Hh. cbn [mbind result_bind].
    rewrite Hk. cbn [mbind result_bind]. rewrite Ha. cbn [check mbind result_bind]. by rewrite Hp.
Qed.

Context {L : Lru Token} {laws : LruLaws L}.

(** One call of [Verify]: the keys published then, the clock, and the text. *)
Record call := MkCall { c_find : string → option Key; c_now : Z; c_raw : bytes }.

Section history.
Variables (admission : Token → option Code) (leeway : Z).

Definition step (c : option lru) (k : call) : option lru :=
  (Verify (c_find k) admission leeway (c_raw k) (c_now k) c).2.

(** The token is what the check of one of the calls made of its text, of digest [d]. *)
Definition checked (calls : list call) (d : bytes) (tok : Token) : Prop :=
  ∃ k, k ∈ calls ∧ digest (c_raw k) = d ∧ verified (c_find k) leeway (c_now k) (c_raw k) = Ok tok.

Definition cache_ok (calls : list call) (c : option lru) : Prop :=
  ∀ l d tok, c = Some l → entries l !! d = Some tok → checked calls d tok.

Lemma checked_more calls k d tok : checked calls d tok → checked (calls ++ [k]) d tok.
Proof. intros (k' & Hk & ?). exists k'. split; [|done]. apply elem_of_app. by left. Qed.

Lemma cached_ok find calls d now c :
  cache_ok calls c →
  cache_ok calls (cached find leeway d now c).2
  ∧ ∀ tok, (cached find leeway d now c).1 = Some tok →
      checked calls d tok ∧ (now < expiry tok + leeway)%Z
      ∧ ∃ k, find (keyID tok) = Some k ∧ JWK k = key tok.
Proof.
  intros Hc. unfold cached. destruct c as [l|]; [|done]. unfold cache_get.
  destruct (get_entries d l) as [H1 H2]. destruct (lru_get d l) as [[tok|] l'] eqn:E; cbn in H1, H2.
  - destruct (now <? expiry tok + leeway)%Z eqn:Ex; cbn [fst snd].
    + split; [intros l1 d1 t1 [= <-]; rewrite H2; by apply Hc|].
      cbn [mbind option_bind]. intros tok' Ht. apply Z.ltb_lt in Ex. destruct (find (keyID tok)) as [k|] eqn:Ef; [|done].
      destruct (eqb (JWK k) (key tok)) eqn:Ek; [|done]. injection Ht as <-. apply (proj1 (eqb_true _ _)) in Ek.
      split_and!; [by eapply Hc|done|eauto].
    + split; [|done]. intros l1 d1 t1 [= <-]. rewrite remove_entries, H2. intros [_ H]%lookup_delete_Some. by eapply Hc.
  - cbn [fst snd]. split; [|done]. intros l1 d1 t1 [= <-]. rewrite H2. by apply Hc.
Qed.

(** One call keeps the invariant, and what it returns is checked and current. *)
Lemma Verify_step calls k c :
  cache_ok calls c →
  cache_ok (calls ++ [k]) (step c k)
  ∧ ∀ tok, (Verify (c_find k) admission leeway (c_raw k) (c_now k) c).1 = Ok tok →
      checked (calls ++ [k]) (digest (c_raw k)) tok ∧ admission tok = None ∧ (c_now k < expiry tok + leeway)%Z
      ∧ ∃ key', c_find k (keyID tok) = Some key' ∧ JWK key' = key tok.
Proof.
  intros Hc. unfold step, Verify. destruct (cached_ok (c_find k) calls (digest (c_raw k)) (c_now k) c Hc) as [Hc1 Ht].
  destruct (cached (c_find k) leeway (digest (c_raw k)) (c_now k) c) as [[tok|] c1] eqn:E; cbn [fst snd] in *.
  - split; [intros l d t Hl Hd; by eapply checked_more, Hc1|]. intros tok' H. cbn [mbind result_bind] in H.
    destruct (admission tok) eqn:Ea; [done|]. injection H as <-. destruct (Ht tok eq_refl) as (H1 & H2 & H3).
    split_and!; [by apply checked_more|done|done|done].
  - unfold check_token. destruct (verified (c_find k) leeway (c_now k) (c_raw k)) as [tok|e] eqn:Ev; cbn [fst snd].
    + assert (checked (calls ++ [k]) (digest (c_raw k)) tok) as Hnew.
      { exists k. split_and!; [|done|done]. apply elem_of_app. right. apply list_elem_of_here. }
      split.
      * intros l d t Hl Hd. destruct c1 as [l1|]; [|done]. injection Hl as <-.
        pose proof (add_entries (digest (c_raw k)) tok l1) as Hadd. rewrite map_subseteq_spec in Hadd.
        apply Hadd, lookup_insert_Some in Hd as [[<- <-]|[_ Hd]]; [done|]. by eapply checked_more, Hc1.
      * intros tok' H. cbn [mbind result_bind] in H. destruct (admission tok) eqn:Ea; [done|]. injection H as <-.
        split; [done|]. split; [done|]. apply verified_Ok in Ev as (a & kid & key' & _ & Hk & _ & _ & _ & _ & Hts & ->).
        destruct Hts as (_ & ? & _). split; [done|]. eauto.
    + split; [intros l d t Hl Hd; by eapply checked_more, Hc1|done].
Qed.

Lemma history_ok calls size : cache_ok calls (fold_left step calls (New size)).
Proof.
  induction calls as [|k calls IH] using rev_ind.
  - intros l d tok H Hd. unfold New in H. cbn [fold_left] in H. destruct (0 <? _)%Z; [|done].
    injection H as <-. by rewrite new_entries in Hd.
  - rewrite fold_left_app. by apply Verify_step.
Qed.

End history.

(** C1: Whatever calls came before, a token [Verify] returns is admitted, has not expired,
    and was verified with a key that is published under its kid now; the signature, the
    audience, and the times were checked, by this call or an earlier one, for a text of the
    same digest. So a key a reload takes away, or replaces, refuses the tokens it
    verified, cached ones too. *)
Theorem Verify_sound admission leeway calls size find now r tok :
  (Verify find admission leeway r now (fold_left (step admission leeway) calls (New size))).1 = Ok tok →
  admission tok = None ∧ (now < expiry tok + leeway)%Z
  ∧ (∃ k, find (keyID tok) = Some k ∧ JWK k = key tok)
  ∧ ∃ k a trusted, k ∈ calls ++ [MkCall find now r] ∧ digest (c_raw k) = digest r
      ∧ readHeader (c_raw k) = Ok (a, keyID tok) ∧ c_find k (keyID tok) = Some trusted ∧ JWK trusted = key tok
      ∧ Allows trusted a = true ∧ jws_verify (c_raw k) a (key tok) = Some (payload tok)
      ∧ decodeClaims (payload tok) = Ok (token_claims tok)
      ∧ audience_ok (token_claims tok) (Key_Provider trusted) ∧ times_ok (token_claims tok) (c_now k) leeway (expiry tok).
Proof.
  intros H. pose proof (history_ok admission leeway calls size) as Hc.
  destruct (Verify_step admission leeway calls (MkCall find now r) _ Hc) as [_ Ht]. cbn [c_find c_now c_raw] in Ht.
  destruct (Ht tok H) as ((k & Hk & Hd & Hv) & Ha & Hx & Hf). split_and!; [done..|].
  apply verified_Ok in Hv as (a & kid & key' & Hh & Hfk & Hal & Hp & Hcl & Haud & Hts & E).
  assert (keyID tok = kid) as <- by by rewrite E. assert (key tok = JWK key') as Hkey by by rewrite E.
  exists k, a, key'. rewrite Hkey. done.
Qed.

End sound.

(** ** Examples *)

#[local] Existing Instance example_lib.

(** A signature part of [sig] verifies with the first key, and signs the payload part. *)
#[local] Instance example_jws : Jws example_lib := λ r _ k,
  if negb (eqb k (JWK (example_key "a" "k1" 1))) then None else
  match Split "." r with
  | [_; p; sig] => if eqb (DecodeString sig) (Some (bytes_of "sig")) then DecodeString p else None
  | _ => None
  end.
#[local] Instance example_digest : Digest := λ r, r.

#[local] Instance example_lru : Lru Token := {|
  lru := gmap bytes Token;
  lru_new _ := ∅;
  lru_get k c := (c !! k, c);
  lru_add k v c := <[k := v]> c;
  lru_remove k c := delete k c;
  entries c := c;
|}.
#[local] Instance example_lru_laws : LruLaws example_lru.
Proof. by split. Qed.

Definition example_find (kid : string) : option Key :=
  if eqb kid "k1"%string then Some (example_key "a" "k1" 1) else None.

Definition example_token : bytes := bytes_of
  "eyJhbGciOiJFUzI1NiIsImtpZCI6ImsxIn0.eyJleHAiOjIwMDAsImlhdCI6MTAwMCwiYXVkIjpbImFwaSJdfQ.c2ln".

Definition example_forged : bytes := bytes_of
  "eyJhbGciOiJFUzI1NiIsImtpZCI6ImsxIn0.eyJleHAiOjIwMDAsImlhdCI6MTAwMCwiYXVkIjpbImFwaSJdfQ.Zm9yZ2Vk".

Definition seconds (n : Z) : Z := n * 10 ^ 9.

(** The keys published after the provider rotated its key. *)
Definition rotated_find (kid : string) : option Key :=
  if eqb kid "k1"%string then Some (example_key "a" "k1" 9) else None.

Definition example_code (r : result Code Token) : option Code := match r with Err c => Some c | Ok _ => None end.

Example verified_examples :
  let check now r find := example_code (verified find (seconds 30) (seconds now) r) in
  [check 1500 example_token example_find; check 2030 example_token example_find; check 900 example_token example_find;
   check 1500 example_forged example_find; check 5000 example_forged example_find;
   check 1500 example_token (λ _, None); check 1500 (bytes_of "a.b") example_find]%Z
  = [None; Some CodeExpired; Some CodeIATInvalid; Some CodeSignatureInvalid; Some CodeSignatureInvalid;
     Some CodeKIDUnknown; Some CodeFormatInvalid].
Proof. vm_compute. reflexivity. Qed.

Lemma numericDate_whole_witness :
  numericDate {["exp"%string := Json.JNum (bytes_of "9007199254740991")]} "exp" = Ok (Some (9007199254740991 * 10 ^ 9)%Z).
Proof.
  etransitivity.
  - apply (numericDate_whole _ "exp" (bytes_of "9007199254740991")); [reflexivity|discriminate|].
    apply all_Forall. vm_compute. reflexivity.
  - vm_compute. reflexivity.
Defined.

(** The token presented twice: the second call answers from the cache. *)
Definition example_answer : result Code Token :=
  (Verify example_find (λ _, None) (seconds 30) example_token (seconds 1600)
     (fold_left (step (λ _, None) (seconds 30)) [MkCall example_find (seconds 1500) example_token] (New 0))).1.

(** It is refused once the key is rotated, cached as it is. *)
Example rotated_key_refused :
  example_code (Verify rotated_find (λ _, None) (seconds 30) example_token (seconds 1600)
     (fold_left (step (λ _, None) (seconds 30)) [MkCall example_find (seconds 1500) example_token] (New 0))).1
  = Some CodeSignatureInvalid.
Proof. vm_compute. reflexivity. Qed.

Lemma Verify_sound_witness :
  match example_answer with Ok tok => (seconds 1600 < expiry tok + seconds 30)%Z | Err _ => False end.
Proof.
  destruct example_answer as [tok|e] eqn:H.
  - apply (Verify_sound (λ _, None) (seconds 30) [MkCall example_find (seconds 1500) example_token] 0
             example_find (seconds 1600) example_token tok) in H as (_ & H & _). exact H.
  - exfalso. revert H. vm_compute. discriminate.
Defined.

End Verify.
