(* ===== verification/Namespaces.v ===== *)
(** * The namespaces a token may come from ([internal/token/namespaces])

    The topology file as [json.Unmarshal] reads it, [Allowlist] over the reads of the file,
    and [Admit], which [Verify] runs on every token. *)
From S2P Require Import Prelude GoText Json Encoding JsonFields Keys Verify.
Import GoText Encoding JsonFields.

Module Namespaces.

Notation json := Json.json.

(** ** The topology file *)

Record domain := MkDomain { Origin : string; Peer : string }.

Record composite := MkComposite { Baseline : option domain; Satellites : slice (option domain) }.
Definition topology := option composite.

(** A field of type [*domain]: null clears it, an object fills the domain it points to, a new
    one when it points to none. *)
Definition set_domain (field : option domain) (v : json) : option (option domain) :=
  match v with
  | Json.JNull => Some None
  | Json.JObj _ ms =>
      let d := default (MkDomain EmptyString EmptyString) field in
      origin ← fold_left set_string (values "origin" ms) (Some (Origin d));
      peer ← fold_left set_string (values "peer" ms) (Some (Peer d));
      Some (Some (MkDomain origin peer))
  | _ => None
  end.

Definition set_composite (field : option composite) (v : json) : option (option composite) :=
  match v with
  | Json.JNull => Some None
  | Json.JObj _ ms =>
      let c := default (MkComposite None None) field in
      baseline ← set_all set_domain (Baseline c) (values "baseline" ms);
      satellites ← set_all (set_slice set_domain None) (Satellites c) (values "satellites" ms);
      Some (Some (MkComposite baseline satellites))
  | _ => None
  end.

(** [json.Unmarshal] of the file, [None] for its errors. *)
Definition decode_topology (raw : bytes) : option topology :=
  ms ← struct_members raw; set_all set_composite None (values "composite" ms).

(** [topology.namespaces]. *)
Definition domain_names (d : option domain) : list string :=
  match d with
  | None => []
  | Some d => List.filter (λ n, negb (is_empty n)) [Origin d; Peer d]
  end.

Definition namespaces (t : topology) : gset string :=
  match t with
  | None => ∅
  | Some c => list_to_set (concat (map domain_names (Baseline c :: slice_elems (Satellites c))))
  end.

(** ** The allowlist *)

Record Allowlist := MkAllowlist { allowed : gset string; fallback : bool }.

(** [Allowlist.load] of the content of the file, [None] when it cannot be read: the
    namespaces, the fallback, and whether it warns. *)
Definition load (own : string) (raw : option bytes) (fb : bool) : gset string * bool * bool :=
  match raw ≫= decode_topology with
  | Some t => (namespaces t, false, false)
  | None => (if is_empty own then ∅ else {[ own ]}, true, negb fb)
  end.

Definition reload (own : string) (raw : option bytes) (a : Allowlist) : Allowlist :=
  let '(names, fb, _) := load own raw (fallback a) in MkAllowlist names fb.

(** [New] reads once; [Run] reads again at every tick. *)
Definition New (own : string) (raw : option bytes) : Allowlist := reload own raw (MkAllowlist ∅ false).
Definition after_reads (own : string) (first : option bytes) (raws : list (option bytes)) : Allowlist :=
  fold_left (λ a raw, reload own raw a) raws (New own first).

Definition Allows (a : Allowlist) (namespace : string) : bool := bool_decide (namespace ∈ allowed a).

(** [namespaceOf]: the claim's member, a string that is not empty. *)
Section admission.
Context {lib : Keys.JwkLib}.

Definition namespaceOf (tok : Verify.Token) : option string :=
  raw ← Verify.token_claims tok !! "kubernetes.io"%string;
  k8s ← members raw;
  v ← k8s !! "namespace"%string;
  match v with
  | Json.JStr body => if is_empty (Unquote body) then None else Some (Unquote body)
  | _ => None
  end.

(** The refusals of [Admit], which carry one code. *)
Definition Admit (a : Allowlist) (providers : list string) (tok : Verify.Token) : option Verify.Code :=
  if negb (member (Verify.providerID tok) providers) then None
  else
    match namespaceOf tok with
    | None => Some Verify.CodeNamespaceNotAllowed
    | Some n => if Allows a n then None else Some Verify.CodeNamespaceNotAllowed
    end.

(** ** What is shown *)

(** The namespaces a topology names: the origin and the peer of the baseline and of every
    satellite. *)
Definition names (t : topology) (n : string) : Prop :=
  n ≠ EmptyString ∧ ∃ c d, t = Some c ∧ (n = Origin d ∨ n = Peer d)
    ∧ (Baseline c = Some d ∨ Some d ∈ slice_elems (Satellites c)).

Lemma domain_names_in n d : n ∈ domain_names d ↔ n ≠ EmptyString ∧ ∃ d', d = Some d' ∧ (n = Origin d' ∨ n = Peer d').
Proof.
  unfold domain_names. destruct d as [d|].
  2: { split; [by intros ?%elem_of_nil|by intros (_ & ? & ? & _)]. }
  rewrite list_elem_of_In, filter_In, <-list_elem_of_In, negb_true_iff, is_empty_false, !elem_of_cons, elem_of_nil.
  split; [intros [H ?]; split; [done|]; exists d; tauto|]. intros [? (d' & [= <-] & ?)]. tauto.
Qed.

Lemma namespaces_names t n : n ∈ namespaces t ↔ names t n.
Proof.
  unfold namespaces, names. destruct t as [c|]; [|split; [by intros ?%not_elem_of_empty|by intros (_ & ? & ? & ? & _)]].
  rewrite elem_of_list_to_set, list_elem_of_In, in_concat. setoid_rewrite in_map_iff. setoid_rewrite <-list_elem_of_In.
  split.
  - intros (l & (d & <- & Hd) & Hn). apply domain_names_in in Hn as (Hne & d' & -> & Ho). split; [done|].
    exists c, d'. split_and!; [done..|]. apply elem_of_cons in Hd as [Hd|Hd]; [by left|by right].
  - intros (Hne & c' & d & [= <-] & Ho & Hd). exists (domain_names (Some d)). split.
    + exists (Some d). split; [done|]. apply elem_of_cons. destruct Hd as [Hd|Hd]; [by left|by right].
    + apply domain_names_in. eauto.
Qed.

(** The last read decides. *)
Definition decided (own : string) (raw : option bytes) (n : string) : Prop :=
  match raw ≫= decode_topology with
  | Some t => names t n
  | None => n = own ∧ n ≠ EmptyString
  end.

Lemma reload_allows own raw a n : Allows (reload own raw a) n = true ↔ decided own raw n.
Proof.
  unfold Allows, reload, load, decided. rewrite bool_decide_eq_true. destruct (raw ≫= decode_topology) as [t|]; cbn.
  - apply namespaces_names.
  - destruct (is_empty own) eqn:E.
    + apply is_empty_true in E as ->. split; [by intros ?%not_elem_of_empty|by intros [-> ?]].
    + apply is_empty_false in E. rewrite elem_of_singleton. naive_solver.
Qed.

Lemma after_reads_last own first raws raw : ∃ a, after_reads own first (raws ++ [raw]) = reload own raw a.
Proof. unfold after_reads. rewrite fold_left_app. eauto. Qed.

Context {jws : Verify.Jws lib} {sha : Verify.Digest} {L : Verify.Lru Verify.Token}.

(** C33: After any reads of the topology file, [Admit] passes a token exactly when its provider
    is not guarded or it names a namespace of the last topology read, or the service's own
    when that read failed. And [Verify] runs it on cached tokens too: a namespace that left
    the topology refuses its tokens at once, those verified before included. *)
Theorem guarded_namespace own first raws raw providers find leeway r now cache tok :
  let a := after_reads own first (raws ++ [raw]) in
  (Admit a providers tok = None ↔
   Verify.providerID tok ∉ providers ∨ ∃ n, namespaceOf tok = Some n ∧ decided own raw n)
  ∧ ((Verify.Verify find (Admit a providers) leeway r now cache).1 = Ok tok →
     Verify.providerID tok ∈ providers → ∃ n, namespaceOf tok = Some n ∧ decided own raw n).
Proof.
  cbn zeta. destruct (after_reads_last own first raws raw) as [a ->].
  assert (∀ tok, Admit (reload own raw a) providers tok = None ↔
    Verify.providerID tok ∉ providers ∨ ∃ n, namespaceOf tok = Some n ∧ decided own raw n) as H.
  { intros t. unfold Admit. destruct (member (Verify.providerID t) providers) eqn:Em; cbn [negb].
    2: { apply member_false in Em. split; [by left|done]. }
    apply member_true in Em. destruct (namespaceOf t) as [n|].
    2: { split; [done|]. intros [?|(? & ? & _)]; done. }
    setoid_rewrite <-(reload_allows own raw a).
    destruct (Allows (reload own raw a) n) eqn:E; split; try done.
    - intros _. right. by exists n.
    - intros [?|(? & [= <-] & ?)]; [done|congruence]. }
  split; [apply H|]. unfold Verify.Verify.
  destruct (Verify.cached _ _ _ _ _) as [t c]. destruct (match t with Some _ => _ | None => _ end) as [res c'].
  cbn [fst]. intros (tok' & -> & Ht)%bind_Ok Hp.
  destruct (Admit _ _ tok') eqn:Ea; [done|]. injection Ht as <-. apply H in Ea as [?|?]; done.
Qed.

End admission.

(** ** Examples *)

Definition text (s : string) : bytes := (λ c, if eqb c "^"%char then "034"%char else c) <$> bytes_of s.

Definition topology_file : bytes :=
  text "{^composite^:{^baseline^:{^origin^:^a^,^peer^:^b^},^satellites^:[{^origin^:^c^},null,{^PEER^:^d^}]}}".

Example allowed_namespaces :
  (λ raw, elements (allowed (New "own" raw))) <$>
    [Some topology_file; None; Some (text "{^composite^:{^satellites^:{}}}"); Some (text "{}");
     Some (text "{^composite^:{^satellites^:[{^origin^:^x^},{^origin^:^y^}],^satellites^:[{^peer^:^z^}]}}")]
  = [["c"; "a"; "b"; "d"]; ["own"]; ["own"]; []; ["z"; "x"]]%string.
Proof. vm_compute. reflexivity. Qed.

#[local] Existing Instance Keys.example_lib.

(** A token of the provider [sa], whose claim names [ns]. *)
Definition token_from (ns : string) : Verify.Token :=
  let k8s := Json.JObj [] [(bytes_of "namespace", Json.JStr (bytes_of ns))] in
  Verify.MkToken [] [] {[ "kubernetes.io"%string := k8s ]} (Verify.standardOf ∅) "sa" "k" "" 0
    (Keys.JWK (Keys.example_key "a" "k1" 1)).

Lemma guarded_namespace_witness :
  Admit (after_reads "own" None ([] ++ [Some topology_file])) ["sa"%string] (token_from "d") = None.
Proof.
  destruct (guarded_namespace (jws := Verify.example_jws) (sha := Verify.example_digest) (L := Verify.example_lru)
              "own" None [] (Some topology_file) ["sa"%string] (λ _, None) 0 [] 0 None (token_from "d")) as [H _].
  apply H. right. exists "d"%string. split; [vm_compute; reflexivity|]. unfold decided.
  assert (Some topology_file ≫= decode_topology
    = Some (Some (MkComposite (Some (MkDomain "a" "b"))
        (Some ([Some (MkDomain "c" ""); None; Some (MkDomain "" "d")], 3))))) as -> by (vm_compute; reflexivity).
  split; [discriminate|]. eexists _, (MkDomain "" "d"). split; [reflexivity|]. split; [right; reflexivity|].
  right. cbn. right. right. left.
Defined.

End Namespaces.
