(* ===== verification/Outbound.v ===== *)
(** * The outbound token ([internal/token/outbound/writer.go])

    The parts of [Writer] that run once per request: the credentials, the request, what the
    answer of the identity provider is read as, the lifetime and the expiry of a token, and
    [Writer.Refresh] over the files it reads and replaces. Durations and times are counted
    in nanoseconds; a [float64] is [m * 2 ^ e]. *)
From S2P Require Import Prelude GoText Json Encoding JsonFields Keys.
Import GoText Encoding JsonFields.

Module Outbound.

(** ** Floating-point arithmetic *)

Definition double := (Z * Z)%type.

(** The fraction a double is. *)
Definition ratio (x : double) : Z * Z := if (0 <=? x.2)%Z then (x.1 * 2 ^ x.2, 1)%Z else (x.1, 2 ^ (- x.2))%Z.

(** The double nearest to [n / d], [d] positive. An exponent past the largest [float64] is
    kept; the code compares such a value with smaller bounds only. *)
Definition nearest (n d : Z) : double :=
  if (n <? 0)%Z then let '(m, e) := round_double (- n) d in (- m, e)%Z else round_double n d.

Definition of_parsed (p : bool * (Z * Z)) : double :=
  let '(negative, (m, e)) := p in if negative then (- m, e)%Z else (m, e).
Definition times (x : double) (k : Z) : double := let '(n, d) := ratio x in nearest (n * k) d.
Definition over (x : double) (k : Z) : double := let '(n, d) := ratio x in nearest n (d * k).
Definition minus (x y : double) : double :=
  let '(n, d) := ratio x in let '(n', d') := ratio y in nearest (n * d' - n' * d) (d * d').
Definition at_most_zero (x : double) : bool := (x.1 <=? 0)%Z.
Definition above (x : double) (k : Z) : bool := let '(n, d) := ratio x in (k * d <? n)%Z.
Definition at_least (x : double) (k : Z) : bool := let '(n, d) := ratio x in (k * d <=? n)%Z.
(** The conversion to an integer drops the fraction. *)
Definition truncated (x : double) : Z := let '(n, d) := ratio x in Z.quot n d.

(** ** Fields of a JSON object *)

(** Fields of type [float64] and [*float64]: null leaves the first as it is; a value of
    another type is an error, and so is a number no [float64] is near. *)
Definition number (text : bytes) : option double :=
  let x := of_parsed (ParseFloat text) in
  if above (Z.abs x.1, x.2) (2 ^ 1024 - 1) then None else Some x.
Definition set_float (field : option double) (v : Json.json) : option double :=
  match v with
  | Json.JNull => field
  | Json.JNum text => x ← number text; (λ _, x) <$> field
  | _ => None
  end.
Definition set_float_ptr (field : option (option double)) (v : Json.json) : option (option double) :=
  match v with
  | Json.JNull => (λ _, None) <$> field
  | Json.JNum text => x ← number text; (λ _, Some x) <$> field
  | _ => None
  end.

Definition float_field (name : string) (ms : list (bytes * Json.json)) : option double :=
  fold_left set_float (values name ms) (Some (0, 0)%Z).
Definition float_ptr_field (name : string) (ms : list (bytes * Json.json)) : option (option double) :=
  fold_left set_float_ptr (values name ms) (Some None).

(** ** Lifetimes *)

Definition second : Z := 10 ^ 9.
Definition MaxInt64 : Z := 2 ^ 63 - 1.

(** [fromSeconds]. [float64(math.MaxInt64)] is [2 ^ 63]. *)
Definition fromSeconds (s : double) : Z :=
  let ns := times s second in
  if at_least ns (2 ^ 63) then MaxInt64 else truncated ns.

Definition defaultFirstBackoff : Z := 2 * second.
Definition maxBackoff : Z := 300 * second.

(** [nextBackoff] and [renewal]. *)
Definition nextBackoff (backoff : Z) : Z := Z.min (int64 (backoff * 2)) maxBackoff.
Definition renewal (lifetime : Z) : Z := Z.max (int64 (Z.quot lifetime 10 * 7)) second.

Inductive expiry_error := NotJWT | PayloadEncoding | NoExp.

Definition expiry (token : string) : result expiry_error double :=
  match Split "."%char (bytes_of token) with
  | [_; p; _] =>
      match DecodeString p with
      | None => Err PayloadEncoding
      | Some payload =>
          match ms ← struct_members payload; float_ptr_field "exp" ms with
          | Some (Some exp) => Ok exp
          | _ => Err NoExp
          end
      end
  | _ => Err NotJWT
  end.

Definition maxExp : Z := 2 ^ 53 - 1.

(** [expiresAt]: [None] is the zero time, which stands for no expiry. *)
Definition expiresAt (token : string) : option Z :=
  match expiry token with
  | Err _ => None
  | Ok exp =>
      if above exp maxExp then None
      else if at_most_zero exp then Some 0%Z else Some (truncated exp * second)%Z
  end.

(** ** Requests *)

(** [url.QueryEscape]. *)
Definition unreserved (c : ascii) : bool := is_letter c || is_digit c || member c ["-"; "_"; "."; "~"]%char.
Definition upper_hex (n : N) : ascii := byte_of (if n <? 10 then 48 + n else 55 + n)%N.
Definition escape_byte (c : ascii) : bytes :=
  if unreserved c then [c]
  else if eqb c " "%char then ["+"%char]
  else ["%"%char; upper_hex (N_of_ascii c / 16); upper_hex (N_of_ascii c mod 16)].
Definition QueryEscape (s : string) : string := string_of (concat (escape_byte <$> bytes_of s)).

(** [url.Values.Encode] of entries sorted by key. *)
Definition encode_form (entries : list (string * string)) : string :=
  string_of (Join "&"%char ((λ e, bytes_of (QueryEscape e.1 +:+ "=" +:+ QueryEscape e.2)) <$> entries)).

Record WriterConfig := MkWriterConfig {
  TokenURL : string;
  ClientIDFile : string;
  ClientSecretFile : string;
  Path : string;
  BasicAuth : bool;
}.

Inductive config_error := BadTokenURL | NoClientIDFile | NoClientSecretFile | NoPath.

(** The checks of [NewWriter]. *)
Definition NewWriter {url : Keys.UrlParser} (cfg : WriterConfig) : result config_error WriterConfig :=
  _ ← check (Keys.checkHTTPURL (TokenURL cfg)) BadTokenURL;
  _ ← check (negb (is_empty (ClientIDFile cfg))) NoClientIDFile;
  _ ← check (negb (is_empty (ClientSecretFile cfg))) NoClientSecretFile;
  _ ← check (negb (is_empty (Path cfg))) NoPath;
  Ok cfg.

(** What goes to the token endpoint: the body, and the user and password of the header. *)
Record token_request := MkTokenRequest { form_body : string; basic_auth : option (string * string) }.

Definition build_request (cfg : WriterConfig) (clientID clientSecret : string) : token_request :=
  let grant := ("grant_type", "client_credentials")%string in
  if BasicAuth cfg then
    MkTokenRequest (encode_form [grant]) (Some (QueryEscape clientID, QueryEscape clientSecret))
  else
    MkTokenRequest (encode_form [("client_id", clientID); ("client_secret", clientSecret); grant]%string) None.

(** ** Answers *)

(** The answer to a request: none, or a status and a body, [None] when it cannot be read. *)
Inductive answer := NoAnswer | Answered (StatusCode : Z) (body : option bytes).

Definition maxTokenResponseBytes : N := 2 ^ 20.

Inductive token_error :=
  | ClientIDUnread | ClientSecretUnread | SecretEmpty (path : string)
  | RequestFailed | BodyUnread | Status (code : Z) (oauth : string)
  | NotTokenResponse | NoAccessToken | NoLifetime (e : expiry_error) | TokenExpired
  | WriteFailed.

Section answer.
Context {table : UnicodeTable}.

(** [quoted]: the first [limit] runes. *)
Definition quoted (s : string) (limit : nat) : string :=
  let rs := runes (bytes_of s) in
  if length rs <=? limit then Quote s
  else Quote (string_of (concat ((λ rw, encode rw.1) <$> take limit rs))) +:+ "...".

Definition oauthError (body : bytes) : string :=
  match ms ← struct_members body; e ← string_field "error" ms; d ← string_field "error_description" ms; Some (e, d) with
  | None => EmptyString
  | Some (e, d) =>
      if is_empty e then EmptyString
      else ", error " +:+ quoted e 64 +:+ (if is_empty d then EmptyString else ": " +:+ quoted d 200)
  end.

(** The end of [Writer.request]: the token of an answer and its lifetime, at [now]. *)
Definition read_answer (a : answer) (now : Z) : result token_error (string * Z) :=
  match a with
  | NoAnswer => Err RequestFailed
  | Answered _ None => Err BodyUnread
  | Answered code (Some all) =>
      let body := take (N.to_nat maxTokenResponseBytes) all in
      _ ← check (negb ((code <? 200)%Z || (299 <? code)%Z)) (Status code (oauthError body));
      match ms ← struct_members body; t ← string_field "access_token" ms; e ← float_field "expires_in" ms; Some (t, e) with
      | None => Err NotTokenResponse
      | Some (token, expires_in) =>
          _ ← check (negb (is_empty token)) NoAccessToken;
          if negb (at_most_zero expires_in) then Ok (token, fromSeconds expires_in)
          else
            exp ← wrap NoLifetime (expiry token);
            let left := minus exp (over (nearest now 1) second) in
            if at_most_zero left then Err TokenExpired else Ok (token, fromSeconds left)
      end
  end.

(** [readSecret]. *)
Definition readSecret (path : string) (unread : token_error) (raw : option bytes) : result token_error string :=
  match raw with
  | None => Err unread
  | Some raw =>
      let value := string_of (TrimSpace raw) in
      _ ← check (negb (is_empty value)) (SecretEmpty path); Ok value
  end.

(** What one [Refresh] meets outside: the files by path, the endpoint, whether the token file
    can be replaced, and the clock when the answer is read. *)
Record world := MkWorld {
  read_file : string → option bytes;
  endpoint : string → token_request → answer;
  can_write : bool;
  answered_at : Z;
}.

(** [Writer.Refresh]: the lifetime, and the content of the token file after it.
    [writeAtomically] replaces the file whole or leaves it. *)
Definition Refresh (cfg : WriterConfig) (w : world) (file : option bytes) : result token_error Z * option bytes :=
  let got :=
    clientID ← readSecret (ClientIDFile cfg) ClientIDUnread (read_file w (ClientIDFile cfg));
    clientSecret ← readSecret (ClientSecretFile cfg) ClientSecretUnread (read_file w (ClientSecretFile cfg));
    '(token, lifetime) ← read_answer (endpoint w (TokenURL cfg) (build_request cfg clientID clientSecret)) (answered_at w);
    _ ← check (can_write w) WriteFailed;
    Ok (token, lifetime) in
  match got with
  | Ok (token, lifetime) => (Ok lifetime, Some (bytes_of token))
  | Err e => (Err e, file)
  end.

End answer.

(** ** Lifetimes in whole seconds *)

(** A number of at most 53 bits times a power of two is its own [float64], however the
    fraction is written. *)
Lemma round_double_dyadic a j k :
  (0 < a < 2 ^ 53)%Z → (0 <= j)%Z → (0 <= k)%Z →
  round_double (a * 2 ^ (j + k)) (2 ^ k) = (a * 2 ^ (52 - Z.log2 a), Z.log2 a + j - 52)%Z.
Proof.
  intros Ha Hj Hk. assert (0 < 2 ^ (j + k))%Z as Hp by (apply Z.pow_pos_nonneg; lia).
  unfold round_double. rewrite (proj2 (Z.eqb_neq _ 0)) by nia.
  rewrite Z.log2_pow2, Z.log2_mul_pow2 by lia.
  assert (0 <= Z.log2 a <= 52)%Z as HL.
  { split; [apply Z.log2_nonneg|]. assert (Z.log2 a < 53)%Z; [|lia]. apply Z.log2_lt_pow2; lia. }
  pose proof (Z.log2_spec a ltac:(lia)) as [Hlo _]. set (L := Z.log2 a) in *.
  assert (∀ e, e = (L + j - 53)%Z ∨ e = (L + j - 52)%Z →
    (if (0 <=? e)%Z then (a * 2 ^ (j + k), 2 ^ k * 2 ^ e)%Z else (a * 2 ^ (j + k) * 2 ^ (- e), 2 ^ k)%Z)
    = (a * 2 ^ (j - e) * 2 ^ (k + Z.max e 0), 2 ^ (k + Z.max e 0))%Z) as Hs.
  { intros e He. destruct (Z.leb_spec 0 e) as [H0|H0].
    - rewrite Z.max_l by lia. apply f_equal2; [|by rewrite Z.pow_add_r by lia].
      rewrite <-Z.mul_assoc, <-Z.pow_add_r by lia. do 2 f_equal. lia.
    - rewrite Z.max_r, Z.add_0_r by lia. apply f_equal2; [|done].
      rewrite <-!Z.mul_assoc, <-!Z.pow_add_r by lia. do 2 f_equal. lia. }
  replace (j + k + L - k - 53)%Z with (L + j - 53)%Z by lia. cbn beta zeta. rewrite Hs by auto.
  set (D := (2 ^ (k + Z.max (L + j - 53) 0))%Z). assert (0 < D)%Z as HD by (apply Z.pow_pos_nonneg; lia).
  assert (2 ^ 53 <= a * 2 ^ (j - (L + j - 53)))%Z as Hbig.
  { replace (j - (L + j - 53))%Z with (53 - L)%Z by lia.
    transitivity (2 ^ L * 2 ^ (53 - L))%Z; [rewrite <-Z.pow_add_r by lia; by replace (L + (53 - L))%Z with 53%Z by lia|].
    apply Z.mul_le_mono_nonneg_r; [apply Z.pow_nonneg; lia|done]. }
  rewrite (proj2 (Z.ltb_ge _ _)) by nia.
  replace (Z.max (L + j - 53 + 1) (-1074)) with (L + j - 52)%Z by lia. rewrite Hs by auto.
  replace (j - (L + j - 52))%Z with (52 - L)%Z by lia.
  set (q := (a * 2 ^ (52 - L))%Z). set (D' := (2 ^ (k + Z.max (L + j - 52) 0))%Z).
  assert (0 < D')%Z as HD' by (apply Z.pow_pos_nonneg; lia).
  pose proof (Z_div_mod (q * D') D' ltac:(lia)) as H. destruct (Z.div_eucl (q * D') D') as [q' r].
  destruct H as [H1 H2]. assert (D' * (q - q') = r)%Z by lia.
  assert (q - q' = 0)%Z by nia. assert (r = 0 ∧ q' = q)%Z as [-> ->] by lia.
  rewrite (proj2 (Z.ltb_lt _ _)) by lia. done.
Qed.

(** Such a double as an integer. *)
Lemma ratio_dyadic a j :
  (0 < a < 2 ^ 53)%Z → (0 <= j)%Z →
  ∃ d, (0 < d)%Z ∧ ratio (a * 2 ^ (52 - Z.log2 a), Z.log2 a + j - 52)%Z = (a * 2 ^ j * d, d)%Z.
Proof.
  intros Ha Hj. assert (0 <= Z.log2 a <= 52)%Z as HL.
  { split; [apply Z.log2_nonneg|]. assert (Z.log2 a < 53)%Z; [|lia]. apply Z.log2_lt_pow2; lia. }
  unfold ratio. cbn [fst snd]. destruct (Z.leb_spec 0 (Z.log2 a + j - 52)).
  - exists 1%Z. split; [lia|]. f_equal. rewrite <-Z.mul_assoc, <-Z.pow_add_r, Z.mul_1_r by lia. do 2 f_equal. lia.
  - exists (2 ^ (- (Z.log2 a + j - 52)))%Z. split; [apply Z.pow_pos_nonneg; lia|]. f_equal.
    rewrite <-!Z.mul_assoc, <-Z.pow_add_r by lia. do 2 f_equal. lia.
Qed.

Lemma times_second n :
  (0 < n <= 4 * 10 ^ 9)%Z → ∃ d, (0 < d)%Z ∧ ratio (times (round_double n 1) second) = (n * second * d, d)%Z.
Proof.
  intros Hn. pose proof (round_double_dyadic n 0 0 ltac:(lia) ltac:(lia) ltac:(lia)) as E.
  change (2 ^ (0 + 0))%Z with 1%Z in E. change (2 ^ 0)%Z with 1%Z in E. rewrite Z.mul_1_r in E. rewrite E.
  unfold times.
  assert (∃ k, (0 <= k)%Z ∧ ratio (n * 2 ^ (52 - Z.log2 n), Z.log2 n + 0 - 52)%Z = (n * 2 ^ k, 2 ^ k)%Z) as (k & Hk & ->).
  { assert (0 <= Z.log2 n <= 52)%Z as HL.
    { split; [apply Z.log2_nonneg|]. assert (Z.log2 n < 53)%Z; [|lia]. apply Z.log2_lt_pow2; lia. }
    unfold ratio. cbn [fst snd]. destruct (Z.leb_spec 0 (Z.log2 n + 0 - 52)).
    - exists 0%Z. split; [lia|]. replace (Z.log2 n) with 52%Z by lia. by rewrite Z.mul_1_r.
    - exists (52 - Z.log2 n)%Z. split; [lia|]. f_equal. f_equal. lia. }
  unfold nearest. assert (0 < 2 ^ k)%Z by (apply Z.pow_pos_nonneg; lia).
  rewrite (proj2 (Z.ltb_ge _ _)) by (unfold second; nia).
  replace (n * 2 ^ k * second)%Z with ((n * 5 ^ 9) * 2 ^ (9 + k))%Z.
  2: { rewrite Z.pow_add_r by lia. unfold second. change (10 ^ 9)%Z with (5 ^ 9 * 2 ^ 9)%Z. lia. }
  change (5 ^ 9)%Z with 1953125%Z. rewrite round_double_dyadic by lia.
  destruct (ratio_dyadic (n * 1953125) 9 ltac:(lia) ltac:(lia)) as (d & Hd & ->). exists d. split; [done|].
  f_equal. unfold second. change (10 ^ 9)%Z with (1953125 * 2 ^ 9)%Z. lia.
Qed.

Lemma renewal_exact l : (0 <= l <= MaxInt64)%Z → renewal l = Z.max (l / 10 * 7) second.
Proof.
  unfold MaxInt64. intros Hl. unfold renewal. rewrite Z.quot_div_nonneg by lia.
  rewrite int64_id; [done|]. pose proof (Z.div_le_mono l (2 ^ 63 - 1) 10 ltac:(lia) ltac:(lia)) as H.
  change ((2 ^ 63 - 1) / 10)%Z with 922337203685477580%Z in H.
  pose proof (Z.div_pos l 10 ltac:(lia) ltac:(lia)). unfold in_int64. lia.
Qed.

(** A lifetime in whole seconds is read exactly, as far as 4e9 seconds, 126 years; and
    from any lifetime a token can have, the longest included, the next request comes after
    70% of it, so before the token expires, and no sooner than a second. *)
Theorem lifetime_and_pause ds :
  ds ≠ [] → Forall (λ c, is_digit c = true) ds → (0 < digits_value ds <= 4 * 10 ^ 9)%Z →
  fromSeconds (of_parsed (ParseFloat ds)) = (digits_value ds * second)%Z
  ∧ ∀ l, (second <= l <= MaxInt64)%Z → (second <= renewal l <= l)%Z ∧ (renewal l = l / 10 * 7 ∨ renewal l = second)%Z.
Proof.
  intros Hne Hd Hn. split.
  - unfold ParseFloat. rewrite decimal_digits by done. unfold of_parsed.
    destruct (times_second _ Hn) as (d & Hp & E).
    assert (∀ x : Z * Z, (let '(m, e) := x in (m, e)) = x) as Hx by by intros [].
    rewrite Hx. unfold fromSeconds, at_least, truncated. rewrite E. cbn beta zeta iota.
    assert (digits_value ds * second < 2 ^ 63)%Z as Hlt by (unfold second; lia).
    rewrite (proj2 (Z.leb_gt _ _)) by (by apply Z.mul_lt_mono_pos_r). rewrite Z.quot_mul by lia. done.
  - intros l Hl. rewrite renewal_exact by (unfold second in *; lia).
    assert (l / 10 * 7 <= l)%Z by (pose proof (Z.mul_div_le l 10); pose proof (Z.div_pos l 10); unfold second in *; lia). lia.
Qed.

#[local] Instance blank_table : UnicodeTable :=
  {| print_table _ := true; letter_table _ := true; digit_table _ := false |}.

Lemma lifetime_and_pause_witness : fromSeconds (of_parsed (ParseFloat (bytes_of "3600"))) = (3600 * second)%Z.
Proof. apply (lifetime_and_pause (bytes_of "3600")); [done|repeat constructor|vm_compute; done]. Defined.

(** The bytes of a text in which a caret stands for a double quote. *)
Definition text (s : string) : bytes := (λ c, if eqb c "^"%char then "034"%char else c) <$> bytes_of s.

Example answers :
  (λ b, read_answer (Answered 200 (Some (text b))) (1700000000 * second)) <$>
    ["{^access_token^:^t^,^expires_in^:3600}"; "{^Access_Token^:^t^,^EXPIRES_IN^:0.5}"; "{^access_token^:^t^,^expires_in^:1e30}";
     "{^access_token^:^^,^expires_in^:1}"; "{^access_token^:1}"; "[]"; "{^access_token^:^t^}";
     "{^access_token^:^e30.eyJleHAiOjE3MDAwMDA2MDB9.s^}"; "{^access_token^:^e30.eyJleHAiOjF9.s^}"]%string
  = [Ok ("t"%string, 3600 * second); Ok ("t"%string, 500000000); Ok ("t"%string, MaxInt64); Err NoAccessToken; Err NotTokenResponse;
     Err NotTokenResponse; Err (NoLifetime NotJWT); Ok ("e30.eyJleHAiOjE3MDAwMDA2MDB9.s"%string, 600 * second);
     Err TokenExpired]%Z.
Proof. vm_compute. reflexivity. Qed.

Example requests :
  build_request (MkWriterConfig "https://idp" "/i" "/s" "/t" false) "a b" "p&q"
  = MkTokenRequest "client_id=a+b&client_secret=p%26q&grant_type=client_credentials" None
  ∧ build_request (MkWriterConfig "https://idp" "/i" "/s" "/t" true) "a b" "p&q"
    = MkTokenRequest "grant_type=client_credentials" (Some ("a+b", "p%26q"))%string
  ∧ oauthError (text "{^error^:^invalid_client^,^error_description^:^no^}") = ", error " +:+ Quote "invalid_client" +:+ ": " +:+ Quote "no".
Proof. vm_compute. done. Qed.

End Outbound.
