(* ===== verification/Writer.v ===== *)
(** * When the writer asks for a token ([internal/token/outbound/writer.go])

    [Writer.Run] and the calls of [Writer.Renew] as a machine whose steps are what the
    goroutines and the clock do. A Renew is either one step, or the two halves between which
    others may run: the test of the clock, and the send on the channel. The clock is the wall
    clock both read; it does not go back. *)
From S2P Require Import Prelude GoText Json Encoding Keys Outbound.
Import GoText Outbound.

Module Writer.

Definition minRenewInterval : Z := 30 * second.

(** What a request was started by: Run itself, the end of a pause, or Renew. *)
Inductive cause := First | Timed | Asked.

Inductive mode :=
  | Starting (why : cause)
  | Requesting
  | Waiting (until : Z)
  | Stopped.

(** [Writer] with the control of its goroutines: the field [renew] is [pending], a channel
    that holds one request at most; [checked] counts the calls of Renew between their
    halves; [starts] logs the requests, the latest first. *)
Record writer := MkWriter {
  clock : Z;
  requested : Z;
  pending : bool;
  checked : nat;
  control : mode;
  backoff : Z;
  file : option bytes;
  starts : list (Z * cause);
}.

Inductive label :=
  | Tick (d : Z)
  | Start
  | Finish (w : world)
  | TimerFires
  | Wake
  | Cancel
  | Renew
  | RenewCheck
  | RenewSend.

Section writer.
Context {table : UnicodeTable} (cfg : WriterConfig).

Definition set_control (m : mode) (s : writer) : writer :=
  MkWriter (clock s) (requested s) (pending s) (checked s) m (backoff s) (file s) (starts s).
Definition set_pending (p : bool) (s : writer) : writer :=
  MkWriter (clock s) (requested s) p (checked s) (control s) (backoff s) (file s) (starts s).
Definition set_checked (n : nat) (s : writer) : writer :=
  MkWriter (clock s) (requested s) (pending s) n (control s) (backoff s) (file s) (starts s).

(** The test of [Renew]. *)
Definition may_renew (s : writer) : bool := negb (clock s - requested s <? minRenewInterval)%Z.

(** [Refresh] starts: [requested] is stored. *)
Definition start (why : cause) (s : writer) : writer :=
  MkWriter (clock s) (clock s) (pending s) (checked s) Requesting (backoff s) (file s) ((clock s, why) :: starts s).

(** [Refresh] returns: the pause and the next backoff, the channel emptied, and the wait. *)
Definition finish (w : world) (s : writer) : writer :=
  let '(outcome, file') := Refresh cfg w (file s) in
  let '(pause, backoff') :=
    match outcome with
    | Ok lifetime => (renewal lifetime, defaultFirstBackoff)
    | Err _ => (backoff s, nextBackoff (backoff s))
    end in
  MkWriter (clock s) (requested s) false (checked s) (Waiting (clock s + pause)) backoff' file' (starts s).

Definition step (l : label) (s : writer) : option writer :=
  match l, control s with
  | Tick d, _ =>
      if (0 <=? d)%Z then
        Some (MkWriter (clock s + d) (requested s) (pending s) (checked s) (control s) (backoff s) (file s) (starts s))
      else None
  | Start, Starting why => Some (start why s)
  | Finish w, Requesting => if eqb (answered_at w) (clock s) then Some (finish w s) else None
  | TimerFires, Waiting until => if (until <=? clock s)%Z then Some (set_control (Starting Timed) s) else None
  | Wake, Waiting _ => if pending s then Some (set_control (Starting Asked) (set_pending false s)) else None
  | Cancel, (Requesting | Waiting _) => Some (set_control Stopped s)
  | Renew, _ => Some (if may_renew s then set_pending true s else s)
  | RenewCheck, _ => Some (if may_renew s then set_checked (S (checked s)) s else s)
  | RenewSend, _ =>
      match checked s with
      | 0 => None
      | S n => Some (set_checked n (set_pending true s))
      end
  | _, _ => None
  end.

(** [NewWriter] and the start of [Run], at a time of the clock. *)
Definition initial (now : Z) (f : option bytes) : writer :=
  MkWriter now 0 false 0 (Starting First) defaultFirstBackoff f [].

(** The steps of a run. *)
Fixpoint steps (ls : list label) (s : writer) : option writer :=
  match ls with
  | [] => Some s
  | l :: ls => s' ← step l s; steps ls s'
  end.

(** A run in which no other step comes between the halves of a Renew. *)
Definition whole (l : label) : Prop := l ≠ RenewCheck ∧ l ≠ RenewSend.

(** ** The time between requests *)

(** A request Renew starts comes thirty seconds after the one before it, one that ends a
    pause a second, and only the first is started by neither. *)
Definition gap_ok (t : Z) (why : cause) (before : list (Z * cause)) : Prop :=
  match before with
  | [] => why = First
  | (t', _) :: _ =>
      match why with
      | First => False
      | Timed => (t' + second <= t)%Z
      | Asked => (t' + minRenewInterval <= t)%Z
      end
  end.

Fixpoint gaps_ok (l : list (Z * cause)) : Prop :=
  match l with
  | [] => True
  | (t, why) :: l => gap_ok t why l ∧ gaps_ok l
  end.

(** What holds of the machine between its steps; [spaced] is that of the runs in which a
    Renew is one step. *)
Definition timed (s : writer) : Prop :=
  (defaultFirstBackoff <= backoff s <= maxBackoff)%Z
  ∧ match starts s with
    | [] => control s = Starting First
    | (t, _) :: _ =>
        requested s = t ∧ (t <= clock s)%Z
        ∧ match control s with
          | Starting First => False
          | Starting Timed => (t + second <= clock s)%Z
          | Waiting until => (t + second <= until)%Z
          | _ => True
          end
    end.

Definition spaced (s : writer) : Prop :=
  gaps_ok (starts s)
  ∧ match starts s with
    | [] => True
    | (t, _) :: _ =>
        match control s with
        | Starting Asked => (t + minRenewInterval <= clock s)%Z
        | Waiting _ => pending s = true → (t + minRenewInterval <= clock s)%Z
        | _ => True
        end
    end
  ∧ checked s = 0.

Lemma may_renew_true s : may_renew s = true ↔ (requested s + minRenewInterval <= clock s)%Z.
Proof. unfold may_renew. rewrite negb_true_iff, Z.ltb_ge. lia. Qed.

Lemma nextBackoff_range b :
  (defaultFirstBackoff <= b <= maxBackoff)%Z → (defaultFirstBackoff <= nextBackoff b <= maxBackoff)%Z.
Proof.
  unfold nextBackoff, defaultFirstBackoff, maxBackoff, second. intros H. rewrite int64_id by (unfold in_int64; lia). lia.
Qed.

Lemma renewal_second lifetime : (second <= renewal lifetime)%Z.
Proof. unfold renewal. lia. Qed.

(** The pause after a request. *)
Lemma finish_spec w s :
  (defaultFirstBackoff <= backoff s <= maxBackoff)%Z →
  ∃ pause b f, finish w s = MkWriter (clock s) (requested s) false (checked s) (Waiting (clock s + pause)) b f (starts s)
    ∧ (second <= pause)%Z ∧ (defaultFirstBackoff <= b <= maxBackoff)%Z.
Proof.
  intros Hb. unfold finish. destruct (Refresh cfg w (file s)) as [[lifetime|e] f].
  - eexists _, _, _. split; [done|]. split; [apply renewal_second|done].
  - eexists _, _, _. split; [done|]. split; [|by apply nextBackoff_range]. unfold defaultFirstBackoff, second in *. lia.
Qed.

Ltac step_cases H :=
  match type of H with
  | step ?l ?s = Some _ =>
      destruct l; cbn [step] in H; destruct (control s) eqn:?; try discriminate H;
      repeat match type of H with
        | (if ?b then _ else _) = Some _ => destruct b eqn:?; try discriminate H
        | match checked s with _ => _ end = Some _ => destruct (checked s) eqn:?; try discriminate H
        end; injection H as <-
  end.

Ltac renew_cases :=
  try match goal with
    | |- context [may_renew ?s] =>
        let E := fresh "Em" in destruct (may_renew s) eqn:E; [apply may_renew_true in E|]
    end.

Lemma timed_step l s s' : timed s → step l s = Some s' → timed s'.
Proof.
  intros [Hb Hs] H.
  step_cases H; renew_cases; try (destruct (finish_spec w s Hb) as (pause & b & f & -> & Hp & Hb'));
    unfold timed, start, set_control, set_pending, set_checked in *;
    cbn [clock requested pending checked control backoff file starts] in *;
    repeat match goal with E : control s = _ |- _ => rewrite E in * end;
    bool_simp; (split; [assumption|]);
    destruct (starts s) as [|[t why'] l]; try done; try (split_and!; lia);
    try (destruct why; split_and!; (done || lia)); try (destruct Hs as (? & ? & ?); split_and!; (done || lia)).
Qed.

Lemma spaced_step l s s' : whole l → timed s → spaced s → step l s = Some s' → spaced s'.
Proof.
  intros [Hc Hn] [Hb Hs] (Hg & Hk & Hch) H.
  step_cases H; try done; renew_cases;
    try (destruct (finish_spec w s Hb) as (pause & b & f & -> & Hp & Hb'));
    unfold spaced, start, set_control, set_pending, set_checked in *;
    cbn [clock requested pending checked control backoff file starts] in *;
    repeat match goal with E : control s = _ |- _ => rewrite E in * end;
    bool_simp; destruct (starts s) as [|[t why'] l]; cbn [gaps_ok gap_ok] in *;
    first [naive_solver lia | destruct why; naive_solver lia].
Qed.

Lemma steps_inv (P : writer → Prop) (Q : label → Prop) ls s s' :
  (∀ l s s', Q l → P s → step l s = Some s' → P s') → Forall Q ls → P s → steps ls s = Some s' → P s'.
Proof.
  intros HP HQ. revert s. induction HQ as [|l ls Hl _ IH]; intros s Hs; cbn; [by intros [= <-]|].
  destruct (step l s) as [s1|] eqn:E; [|done]. cbn. apply IH. by eapply HP.
Qed.

Lemma initial_timed now f : timed (initial now f).
Proof. done. Qed.

Lemma initial_spaced now f : spaced (initial now f).
Proof. done. Qed.

(** When no other step comes between the test and the send of a Renew, a request that
    Renew starts begins at least thirty seconds after the one before it, whatever the
    answers; a request after a pause begins at least a second after, and only the first
    request of a run is started by neither. *)
Theorem renewals_spaced now f ls s :
  Forall whole ls → steps ls (initial now f) = Some s → gaps_ok (starts s).
Proof.
  intros Hw Hs. cut (timed s ∧ spaced s); [by intros [_ [? _]]|].
  apply (steps_inv (λ s, timed s ∧ spaced s) whole ls (initial now f) s); [|done|by split|done].
  intros l s1 s2 Hl [Ht Hsp] H. split; [by eapply timed_step|by eapply spaced_step].
Qed.

(** The world in which no credentials can be read. *)
Definition unreadable (t : Z) : world := MkWorld (λ _, None) (λ _ _, NoAnswer) true t.

(** The comment on minRenewInterval does not hold of calls of Renew that run at once: two
    of them may pass the test before either sends, and when the first one's request ends
    before the second one's send, both start a request, in the same instant here. *)
Theorem renewals_race now f :
  ∃ ls s rest t, steps ls (initial now f) = Some s ∧ starts s = (t, Asked) :: (t, Asked) :: rest.
Proof.
  set (t := (now + minRenewInterval)%Z).
  exists [Start; Finish (unreadable now); Tick minRenewInterval; RenewCheck; RenewCheck; RenewSend; Wake; Start;
          Finish (unreadable t); RenewSend; Wake; Start].
  assert ((now + minRenewInterval - now <? minRenewInterval)%Z = false) as E by (apply Z.ltb_ge; lia).
  eexists _, _, t. unfold t, steps, step, initial, start, finish, Refresh, set_control, set_pending, set_checked, may_renew.
  cbn -[Z.add Z.sub minRenewInterval]. rewrite eqb_refl. cbn -[Z.add Z.sub minRenewInterval].
  change (0 <=? minRenewInterval)%Z with true. cbn -[Z.add Z.sub minRenewInterval].
  rewrite !E. cbn -[Z.add Z.sub minRenewInterval]. rewrite !E. cbn -[Z.add Z.sub minRenewInterval].
  rewrite eqb_refl. cbn -[Z.add Z.sub minRenewInterval]. done.
Qed.

(** ** The writer keeps asking *)

(** The steps of Run's goroutine, and when it can take one: the client gives every request
    an answer or a time-out. *)
Definition of_run (l : label) : bool :=
  match l with Start | Finish _ | TimerFires | Wake => true | _ => false end.

Definition enabled (s : writer) : Prop :=
  match control s with
  | Starting _ | Requesting => True
  | Waiting until => (until <= clock s)%Z
  | Stopped => False
  end.

(** An unending run that is not cancelled, in which the clock passes every time and Run
    takes a step unless it can take none. *)
Record fair_run (σ : nat → writer) (ls : nat → label) : Prop := {
  run_steps : ∀ n, step (ls n) (σ n) = Some (σ (S n));
  run_on : ∀ n, ls n ≠ Cancel;
  run_alive : control (σ 0) ≠ Stopped;
  run_time : ∀ t, ∃ n, (t <= clock (σ n))%Z;
  run_fair : ∀ n, enabled (σ n) → ∃ m, n ≤ m ∧ (of_run (ls m) = true ∨ ¬ enabled (σ m));
}.

(** A step of another goroutine, or of the clock, leaves Run where it is. *)
Lemma other_step l s s' :
  step l s = Some s' → of_run l = false → l ≠ Cancel → control s' = control s ∧ (clock s <= clock s')%Z.
Proof.
  intros H Hr Hc. step_cases H; try done; renew_cases; bool_simp; cbn; split; (done || lia).
Qed.

Lemma step_clock l s s' : step l s = Some s' → (clock s <= clock s')%Z.
Proof.
  intros H. step_cases H; renew_cases; bool_simp; cbn; try lia.
  unfold finish. destruct (Refresh cfg w (file s)) as [[?|?] ?]; cbn; lia.
Qed.

Lemma run_step l s s' :
  step l s = Some s' → of_run l = true →
  match control s with
  | Starting _ => l = Start ∧ control s' = Requesting
  | Requesting => ∃ until, control s' = Waiting until
  | Waiting _ => ∃ why, control s' = Starting why
  | Stopped => False
  end.
Proof.
  intros H Hr. step_cases H; try done; cbn; eauto.
  unfold finish. destruct (Refresh cfg w (file s)) as [[?|?] ?]; cbn; eauto.
Qed.

Section fair.
Context (σ : nat → writer) (ls : nat → label) (Hrun : fair_run σ ls).

Lemma clock_le n m : n ≤ m → (clock (σ n) <= clock (σ m))%Z.
Proof.
  induction 1 as [|m _ IH]; [lia|]. pose proof (step_clock _ _ _ (run_steps _ _ Hrun m)). lia.
Qed.

(** Up to [m], Run has taken a step where it stood at [n], or has not moved. *)
Lemma until_moved n m :
  n ≤ m → (∃ k, n ≤ k ∧ of_run (ls k) = true ∧ control (σ k) = control (σ n))
          ∨ (control (σ m) = control (σ n) ∧ (clock (σ n) <= clock (σ m))%Z).
Proof.
  induction 1 as [|m Hle [IH|[Hc Ht]]]; [by right|by left|].
  destruct (of_run (ls m)) eqn:El; [left; by exists m|].
  destruct (other_step _ _ _ (run_steps _ _ Hrun m) El (run_on _ _ Hrun m)) as [Hc' Ht'].
  right. split; [congruence|lia].
Qed.

Lemma alive n : control (σ n) ≠ Stopped.
Proof.
  induction n as [|n IH]; [apply (run_alive _ _ Hrun)|]. pose proof (run_steps _ _ Hrun n) as H.
  destruct (of_run (ls n)) eqn:El.
  - apply run_step in H; [|done]. destruct (control (σ n)) as [why| |until|]; [by destruct H as [_ ->]|by destruct H as [? ->]..|done].
  - apply other_step in H as [-> _]; [done|done|apply (run_on _ _ Hrun)].
Qed.

Lemma enabled_moves n : enabled (σ n) → ∃ k, n ≤ k ∧ of_run (ls k) = true ∧ control (σ k) = control (σ n).
Proof.
  intros He. destruct (run_fair _ _ Hrun n He) as (m & Hm & Hs).
  destruct (until_moved n m Hm) as [?|[Hc Ht]]; [done|]. destruct Hs as [Hs|Hs]; [by exists m|].
  destruct Hs. revert He. unfold enabled. rewrite Hc. destruct (control (σ n)); [done|done|lia|done].
Qed.

Lemma moves n : ∃ k, n ≤ k ∧ of_run (ls k) = true ∧ control (σ k) = control (σ n).
Proof.
  destruct (control (σ n)) as [why| |until|] eqn:Ec; rewrite <-Ec.
  - apply enabled_moves. unfold enabled. by rewrite Ec.
  - apply enabled_moves. unfold enabled. by rewrite Ec.
  - destruct (run_time _ _ Hrun until) as [n' Hn'].
    destruct (until_moved n (n `max` n') ltac:(lia)) as [?|[Hc Ht]]; [done|].
    destruct (enabled_moves (n `max` n')) as (k & Hk & Hl & Hck).
    + unfold enabled. rewrite Hc, Ec. pose proof (clock_le n' (n `max` n') ltac:(lia)). lia.
    + exists k. split_and!; [lia|done|congruence].
  - by destruct (alive n).
Qed.

Lemma starts_again n : ∃ m, n ≤ m ∧ ls m = Start.
Proof.
  assert (∀ n, (∃ why, control (σ n) = Starting why) → ∃ m, n ≤ m ∧ ls m = Start) as H1.
  { intros k [why Hk]. destruct (moves k) as (m & Hm & Hl & Hc).
    pose proof (run_step _ _ _ (run_steps _ _ Hrun m) Hl) as H. rewrite Hc, Hk in H. exists m. split; [done|apply H]. }
  assert (∀ n, (∃ until, control (σ n) = Waiting until) → ∃ m, n ≤ m ∧ ls m = Start) as H2.
  { intros k [until Hk]. destruct (moves k) as (m & Hm & Hl & Hc).
    pose proof (run_step _ _ _ (run_steps _ _ Hrun m) Hl) as H. rewrite Hc, Hk in H.
    destruct (H1 (S m) H) as (m' & ? & ?). exists m'. split; [lia|done]. }
  destruct (control (σ n)) as [why| |until|] eqn:Ec; [apply H1; eauto| |apply H2; eauto|by destruct (alive n)].
  destruct (moves n) as (m & Hm & Hl & Hc).
  pose proof (run_step _ _ _ (run_steps _ _ Hrun m) Hl) as H. rewrite Hc, Ec in H.
  destruct (H2 (S m) H) as (m' & ? & ?). exists m'. split; [lia|done].
Qed.

End fair.

(** C34: In every unending run that is not cancelled, however the answers, the failures and
    the calls of Renew fall, the writer starts token requests again and again: after every
    point of the run there is a start of one. *)
Theorem writer_keeps_asking σ ls : fair_run σ ls → ∀ n, ∃ m, n ≤ m ∧ ls m = Start.
Proof. intros H n. by eapply starts_again. Qed.
End writer.
(** ** Examples *)

#[local] Instance blank_table : UnicodeTable :=
  {| print_table _ := true; letter_table _ := true; digit_table _ := false |}.

Definition example_cfg : WriterConfig := MkWriterConfig "https://idp/token" "/id" "/secret" "/token" true.

(** The bytes of a text in which a caret stands for a double quote. *)
Definition text (s : string) : bytes := (λ c, if eqb c "^"%char then "034"%char else c) <$> bytes_of s.

(** A provider that gives tokens of ten seconds. *)
Definition example_world (t : Z) : world :=
  MkWorld (λ path, Some (bytes_of path)) (λ _ _, Answered 200 (Some (text "{^access_token^:^tok^,^expires_in^:10}"))) true t.

Lemma example_refresh t f : Refresh example_cfg (example_world t) f = (Ok (10 * second)%Z, Some (bytes_of "tok")).
Proof. vm_compute. reflexivity. Qed.

Example requests_of_a_run :
  starts <$> steps example_cfg
    [Start; Finish (example_world 0); Tick (7 * second); TimerFires; Start; Finish (unreadable (7 * second));
     Tick second; Renew; Tick second; TimerFires; Start; Finish (unreadable (9 * second));
     Tick (31 * second); Renew; Wake; Start] (initial 0 None)
  = Some [(40 * second, Asked); (9 * second, Timed); (7 * second, Timed); (0, First)]%Z.
Proof. vm_compute. reflexivity. Qed.

Lemma renewals_spaced_witness :
  gaps_ok [(31 * second, Asked); (0, First)]%Z.
Proof.
  apply (renewals_spaced example_cfg 0 None [Start; Finish (example_world 0); Tick (31 * second); Renew; Wake; Start]
    (MkWriter (31 * second) (31 * second) false 0 Requesting defaultFirstBackoff (Some (bytes_of "tok"))
       [(31 * second, Asked); (0, First)]%Z)).
  - repeat constructor; discriminate.
  - vm_compute. reflexivity.
Defined.

(** An unending run: a token every seven seconds. *)
Definition turn (n : nat) : label :=
  match n mod 4 with
  | 0 => Start
  | 1 => Finish (example_world (7 * second * Z.of_nat (n / 4)))
  | 2 => Tick (7 * second)
  | _ => TimerFires
  end.

Fixpoint turned (n : nat) : writer :=
  match n with
  | 0 => initial 0 None
  | S n => default (turned n) (step example_cfg (turn n) (turned n))
  end.

Lemma turn_at k r : r < 4 → turn (r + 4 * k) =
  match r with
  | 0 => Start
  | 1 => Finish (example_world (7 * second * Z.of_nat k))
  | 2 => Tick (7 * second)
  | _ => TimerFires
  end.
Proof.
  intros Hr. unfold turn. rewrite (Nat.mul_comm 4 k), Nat.Div0.mod_add, Nat.div_add, (Nat.mod_small r), (Nat.div_small r) by lia.
  done.
Qed.

(** The four states of a turn. *)
Definition turn_state (k : nat) (r : nat) (s : writer) : Prop :=
  let t := (7 * second * Z.of_nat k)%Z in
  control s = match r with
              | 0 => control s
              | 1 => Requesting
              | _ => Waiting (t + 7 * second)
              end
  ∧ (r = 0 → ∃ why, control s = Starting why)
  ∧ clock s = (if (r <? 3)%nat then t else t + 7 * second)%Z.

Lemma turn_step k r s :
  r < 4 → turn_state k r s →
  ∃ s', step example_cfg (turn (r + 4 * k)) s = Some s' ∧ turn_state (if r =? 3 then S k else k) (S r mod 4) s'.
Proof.
  intros Hr (Hc & Hw & Ht). rewrite turn_at by done.
  destruct r as [|[|[|[|]]]]; [| | | |lia]; cbn [Nat.ltb Nat.leb] in Ht; cbn [Nat.eqb].
  - destruct Hw as [why Hw]; [done|]. eexists. unfold step. rewrite Hw. split; [done|]. by split_and!.
  - unfold step. rewrite Hc, Ht, eqb_refl. eexists. split; [done|]. unfold finish. rewrite example_refresh, Ht. by split_and!.
  - unfold step. eexists. split; [done|]. rewrite Hc, Ht. by split_and!.
  - unfold step. rewrite Hc, Ht, Z.leb_refl. eexists. split; [done|]. unfold turn_state. cbn -[Z.mul Z.of_nat].
    rewrite Ht. split_and!; [done|eauto|lia].
Qed.

Lemma turned_at k r : r < 4 → turn_state k r (turned (r + 4 * k)).
Proof.
  assert (∀ k r, r < 3 → turn_state k r (turned (r + 4 * k)) → turn_state k (S r) (turned (S r + 4 * k))) as Hnext.
  { intros k' r' Hr H. destruct (turn_step k' r' _ ltac:(lia) H) as (s' & Hs & H').
    cbn [Nat.add turned]. rewrite Hs. cbn [default]. rewrite Nat.mod_small in H' by lia.
    destruct r' as [|[|[|]]]; [done..|lia]. }
  assert (∀ k, turn_state k 0 (turned (0 + 4 * k))) as H0.
  { intros j. induction j as [|k' IH]; [split; [done|split; [intros _; by exists First|done]]|].
    do 3 (apply Hnext in IH; [|lia]). destruct (turn_step k' 3 _ ltac:(lia) IH) as (s' & Hs & H').
    replace (0 + 4 * S k') with (S (3 + 4 * k')) by lia. cbn [turned]. rewrite Hs. done. }
  intros Hr. destruct r as [|[|[|[|]]]]; [apply H0|..|lia]; repeat (apply Hnext; [lia|]); apply H0.
Qed.

Lemma at_turn n : ∃ k r, r < 4 ∧ n = r + 4 * k.
Proof. exists (n / 4), (n mod 4). split; [by apply Nat.mod_upper_bound|]. rewrite (Nat.div_mod_eq n 4) at 1. lia. Qed.

Lemma example_run : fair_run example_cfg turned turn.
Proof.
  assert (∀ n, ∃ s, step example_cfg (turn n) (turned n) = Some s) as Hs.
  { intros n. destruct (at_turn n) as (k & r & Hr & ->). destruct (turn_step k r _ Hr (turned_at k r Hr)) as (s & Hs & _). eauto. }
  constructor.
  - intros n. destruct (Hs n) as [s Hn]. cbn [turned]. by rewrite Hn.
  - intros n. destruct (at_turn n) as (k & r & Hr & ->). rewrite turn_at by done. destruct r as [|[|[|[|]]]]; done.
  - done.
  - intros t. exists (0 + 4 * Z.to_nat t). destruct (turned_at (Z.to_nat t) 0 ltac:(lia)) as (_ & _ & ->).
    cbn -[Z.mul Z.of_nat second]. unfold second. lia.
  - intros n _. destruct (at_turn n) as (k & r & Hr & ->). exists (0 + 4 * S k). split; [lia|]. left. by rewrite turn_at by lia.
Qed.

Lemma writer_keeps_asking_witness : ∃ m, 1000 ≤ m ∧ turn m = Start.
Proof. apply (writer_keeps_asking example_cfg turned turn example_run 1000). Defined.

End Writer.
