(* ===== verification/Transport.v ===== *)
(** * Where the outbound token goes ([internal/token/outbound/file.go], [transport.go])

    [FileSource] over the reads of its file, [NewTransport]'s RoundTrip as a function of the
    request, the token and the transport under it, and [AllowHosts] over the texts of the
    entries and of the URL. *)
From S2P Require Import Prelude GoText Json Encoding Keys Outbound.
Import GoText Outbound.

Module Transport.

(** ** The file *)

(** The fields of [FileSource] that change: [expires] is [None] for the zero time. *)
Record FileSource := MkFileSource { token : string; expires : option Z; ready : bool }.

Definition NewFileSource : FileSource := MkFileSource EmptyString None false.

Definition expired (now : Z) (expires : option Z) : bool :=
  match expires with
  | Some t => negb (now <? t)%Z
  | None => false
  end.

Definition Token (now : Z) (s : FileSource) : string := if expired now (expires s) then EmptyString else token s.

(** [FileSource.read] of the content of the file, [None] when it cannot be read. *)
Definition read (now : Z) (raw : option bytes) (s : FileSource) : FileSource :=
  match raw with
  | None => s
  | Some raw =>
      let t := string_of (TrimSpace raw) in
      if is_empty t then s
      else
        let e := expiresAt t in
        let changed := negb (eqb t (token s)) in
        MkFileSource t e (ready s || (changed && negb (expired now e)))
  end.

(** The reads of [Run]: the time and the content of each. *)
Definition reads (rs : list (Z * option bytes)) : FileSource := foldl (λ s r, read r.1 r.2 s) NewFileSource rs.

(** ** Headers *)

Definition Header := gmap string (list string).

Definition header_char (c : ascii) : bool :=
  is_letter c || is_digit c || member c (bytes_of "!#$%&'*+-.^_`|~").

Definition upper (c : ascii) : ascii :=
  if GoText.byte_in 97 122 c then GoText.byte_of (N_of_ascii c - 32) else c.

(** [http.CanonicalHeaderKey]. *)
Fixpoint canonical (first : bool) (s : bytes) : bytes :=
  match s with
  | [] => []
  | c :: s => (if first then upper c else lower c) :: canonical (eqb c "-"%char) s
  end.
Definition CanonicalHeaderKey (key : string) : string :=
  if all header_char (bytes_of key) then string_of (canonical true (bytes_of key)) else key.

(** [Header.Get] and [Header.Set]. *)
Definition Get (h : Header) (key : string) : string :=
  match h !! CanonicalHeaderKey key with
  | Some (v :: _) => v
  | _ => EmptyString
  end.
Definition Set_ (key value : string) (h : Header) : Header := <[CanonicalHeaderKey key := [value]]> h.

(** ** The transport *)

Record URL := MkURL { Scheme : string; Host : string }.
Record request := MkRequest { url : URL; headers : Header }.

(** [TransportOptions]: what [Headers] returns for the request, in the order it is ranged
    over, and whether there are callbacks. *)
Record TransportOptions := MkTransportOptions {
  Authorize : option (URL → bool);
  Headers : option (list (string * list string));
  Unauthorized : bool;
  NoToken : bool;
}.

Inductive trip_error := ErrNoToken | BaseError.

(** What a RoundTrip does: the request it sends, the callbacks it runs, and its result. *)
Record trip := MkTrip {
  sent : option request;
  ran_unauthorized : bool;
  ran_no_token : bool;
  outcome : result trip_error Z;
}.

Definition addHeaders (opts : TransportOptions) (out : request) : request :=
  match Headers opts with
  | None => out
  | Some entries =>
      MkRequest (url out)
        (fold_left (λ h e, if is_empty (Get h e.1) then <[CanonicalHeaderKey e.1 := e.2]> h else h) entries (headers out))
  end.

Definition StatusUnauthorized : Z := 401.

(** [transport.RoundTrip] on a copy of the request; [base] gives the status of an answer. *)
Definition RoundTrip (opts : TransportOptions) (tok : string) (base : request → option Z) (req : request) : trip :=
  let result_of o := match o with Some code => Ok code | None => Err BaseError end in
  let out := addHeaders opts req in
  let wanted := match Authorize opts with
                | Some authorize => is_empty (Get (headers out) "Authorization") && authorize (url out)
                | None => false
                end in
  if wanted then
    if is_empty tok then MkTrip None false (NoToken opts) (Err ErrNoToken)
    else
      let out := MkRequest (url out) (Set_ "Authorization" ("Bearer " +:+ tok) (headers out)) in
      let resp := base out in
      MkTrip (Some out) (eqb resp (Some StatusUnauthorized) && Unauthorized opts) false (result_of resp)
  else MkTrip (Some out) false false (result_of (base out)).

(** ** Hosts *)

(** The lower case of a rune past ASCII. *)
Class CaseTable := lower_table : rune → rune.

Section hosts.
Context {cases : CaseTable}.

(** [strings.ToLower]. *)
Definition lower_rune (r : rune) : rune :=
  if (r <? 128)%N then N_of_ascii (lower (byte_of r)) else lower_table r.
Definition ToLower (s : string) : bytes := concat ((λ rw, encode (lower_rune rw.1)) <$> runes (bytes_of s)).

(** The text before the last occurrence of a byte, and after it. *)
Fixpoint cut_last (c : ascii) (s : bytes) : option (bytes * bytes) :=
  match s with
  | [] => None
  | x :: s =>
      match cut_last c s with
      | Some (a, b) => Some (x :: a, b)
      | None => if eqb x c then Some ([], s) else None
      end
  end.

Fixpoint cut_first (c : ascii) (s : bytes) : option (bytes * bytes) :=
  match s with
  | [] => None
  | x :: s => if eqb x c then Some ([], s) else (λ ab, (x :: ab.1, ab.2)) <$> cut_first c s
  end.

(** [net.SplitHostPort], [None] for its errors. *)
Definition SplitHostPort (hostport : bytes) : option (bytes * bytes) :=
  match cut_last ":"%char hostport with
  | None => None
  | Some (before, port) =>
      match hostport with
      | "["%char :: inside =>
          match cut_first "]"%char inside with
          | Some (host, rest) =>
              if eqb rest (":"%char :: port) && negb (member "["%char inside) && negb (member "]"%char rest)
              then Some (host, port) else None
          | None => None
          end
      | _ =>
          if member ":"%char before || member "["%char hostport || member "]"%char hostport then None
          else Some (before, port)
      end
  end.

Definition trim_prefix (p s : bytes) : bytes := default s (cutPrefix p s).
Definition trim_suffix (c : ascii) (s : bytes) : bytes :=
  match reverse s with
  | x :: s' => if eqb x c then reverse s' else s
  | [] => s
  end.

Record entry := MkEntry { e_scheme : bytes; e_host : bytes; e_port : bytes }.
#[export] Instance entry_eq_dec : EqDecision entry.
Proof. solve_decision. Defined.

(** One turn of the first loop of [AllowHosts]. *)
Definition entry_of (host : string) : entry :=
  let h := ToLower host in
  let '(scheme, h) := match cutPrefix (bytes_of "http://") h with
                      | Some rest => (bytes_of "http", rest)
                      | None => (bytes_of "https", trim_prefix (bytes_of "https://") h)
                      end in
  match SplitHostPort h with
  | Some (host, port) => MkEntry scheme host port
  | None => MkEntry scheme (trim_suffix "]"%char (trim_prefix ["["%char] h)) []
  end.

(** [URL.Hostname] and [URL.Port]. *)
Definition split_host (host : string) : bytes * bytes :=
  let h := bytes_of host in
  let '(h, port) := match cut_last ":"%char h with
                    | Some (a, b) => if all is_digit b then (a, b) else (h, [])
                    | None => (h, [])
                    end in
  (match h with
   | "["%char :: inside =>
       match reverse inside with
       | "]"%char :: r => reverse r
       | _ => h
       end
   | _ => h
   end, port).

Definition default_port (scheme : bytes) : bytes :=
  if eqb scheme (bytes_of "https") then bytes_of "443"
  else if eqb scheme (bytes_of "http") then bytes_of "80" else [].

Definition AllowHosts (hosts : list string) (u : URL) : bool :=
  let allowed := entry_of <$> hosts in
  let scheme := ToLower (Scheme u) in
  let '(hostname, port) := split_host (Host u) in
  let host := ToLower (string_of hostname) in
  let port := if is_nil port then default_port scheme else port in
  member (MkEntry scheme host []) allowed || member (MkEntry scheme host port) allowed.

(** ** What is shown *)

(** The reads after which the file last held a token. *)
Definition held_since (rs : list (Z * option bytes)) (t : string) : Prop :=
  ∃ before now raw after, rs = before ++ (now, Some raw) :: after ∧ t = string_of (TrimSpace raw) ∧ t ≠ EmptyString
    ∧ ∀ r, r ∈ after → match r.2 with Some raw => TrimSpace raw = [] | None => True end.

Lemma is_empty_string_of b : is_empty (string_of b) = true ↔ b = [].
Proof.
  rewrite is_empty_true. split; [|by intros ->]. intros H. by rewrite <-(bytes_of_string_of b), H.
Qed.

Lemma reads_held rs :
  (reads rs = NewFileSource ∧ ∀ r, r ∈ rs → match r.2 with Some raw => TrimSpace raw = [] | None => True end)
  ∨ held_since rs (token (reads rs)) ∧ expires (reads rs) = expiresAt (token (reads rs)).
Proof.
  induction rs as [|[now raw] rs IH] using rev_ind.
  { left. split; [done|]. intros r H. by apply elem_of_nil in H. }
  unfold reads. rewrite foldl_app. cbn [foldl fst snd]. fold (reads rs).
  set (blank := match raw with Some raw => TrimSpace raw = [] | None => True end).
  assert (blank → (read now raw (reads rs)) = reads rs) as Hb.
  { unfold blank, read. destruct raw as [raw|]; [|done]. intros ->. done. }
  assert (blank ∨ ∃ raw', raw = Some raw' ∧ TrimSpace raw' ≠ []) as [Hblank|(raw' & -> & Hne)].
  { unfold blank. destruct raw as [raw|]; [|by left]. destruct (TrimSpace raw) eqn:E; [by left|right].
    exists raw. by rewrite E. }
  - rewrite (Hb Hblank). destruct IH as [[Hs Hr]|[(before & n & raw' & after & Hrs & Ht & Hne & Ha) He]].
    + left. split; [done|]. intros r [Hin| ->%list_elem_of_singleton]%elem_of_app; [by apply Hr|done].
    + right. split; [|done]. exists before, n, raw', (after ++ [(now, raw)]). split_and!; [|done|done|].
      * by rewrite Hrs, <-app_assoc.
      * intros r [Hin| ->%list_elem_of_singleton]%elem_of_app; [by apply Ha|done].
  - right. unfold read. destruct (is_empty (string_of (TrimSpace raw'))) eqn:E.
    { by apply is_empty_string_of in E. }
    cbn [token expires]. split; [|done]. exists rs, now, raw', []. split_and!; [done|done|by apply is_empty_false|].
    intros r H. by apply elem_of_nil in H.
Qed.

(** The token [Token] gives is the last one the file held, and it has not expired. *)
Lemma Token_held rs now t :
  Token now (reads rs) = t → t ≠ EmptyString →
  held_since rs t ∧ ∀ e, expiresAt t = Some e → (now < e)%Z.
Proof.
  unfold Token. destruct (expired now (expires (reads rs))) eqn:E; [by intros <-|]. intros <- Hne.
  destruct (reads_held rs) as [[H _]|[H He]]; [by rewrite H in Hne|]. split; [done|].
  rewrite He in E. intros e Hexp. unfold expired in E. rewrite Hexp in E. rewrite negb_false_iff in E. by apply Z.ltb_lt in E.
Qed.

(** An entry of the list that names the URL's host, for its scheme and its port. *)
Definition names (host : string) (u : URL) : Prop :=
  e_scheme (entry_of host) = ToLower (Scheme u)
  ∧ e_host (entry_of host) = ToLower (string_of (split_host (Host u)).1)
  ∧ (e_port (entry_of host) = []
     ∨ e_port (entry_of host) =
         if is_nil (split_host (Host u)).2 then default_port (ToLower (Scheme u)) else (split_host (Host u)).2).

Lemma AllowHosts_true hosts u : AllowHosts hosts u = true ↔ ∃ h, h ∈ hosts ∧ names h u.
Proof.
  unfold AllowHosts, names. destruct (split_host (Host u)) as [hostname port]. cbn [fst snd].
  rewrite orb_true_iff, !member_true, !list_elem_of_fmap. split.
  - intros [(h & E & Hh)|(h & E & Hh)]; exists h; rewrite <-E; cbn; auto 6.
  - intros (h & Hh & Hs & Hn & [Hp|Hp]); [left|right]; exists h; (split; [|done]);
      destruct (entry_of h); cbn in *; congruence.
Qed.

Lemma entry_scheme host :
  e_scheme (entry_of host) = if is_some (cutPrefix (bytes_of "http://") (ToLower host)) then bytes_of "http" else bytes_of "https".
Proof.
  unfold entry_of. destruct (cutPrefix _ (ToLower host)) as [rest|]; cbn [is_some]; by destruct (SplitHostPort _) as [[]|].
Qed.

(** C32: The token on a request the transport sends is the last one the file held, not
    empty and not expired, and the request goes to a host an entry names for its scheme and
    port: by https, or by http when the entry itself starts with http. A request that wants
    a token and finds none is not sent, and only such a request is not sent. *)
Theorem token_goes_to_allowed hosts hdrs una not_ rs now base req :
  let opts := MkTransportOptions (Some (AllowHosts hosts)) hdrs una not_ in
  let t := RoundTrip opts (Token now (reads rs)) base req in
  let plain := addHeaders opts req in
  (∀ out, sent t = Some out → out ≠ plain →
     url out = url req
     ∧ ∃ tok, headers out = Set_ "Authorization" ("Bearer " +:+ tok) (headers plain)
         ∧ Get (headers plain) "Authorization" = EmptyString
         ∧ held_since rs tok ∧ (∀ e, expiresAt tok = Some e → (now < e)%Z)
         ∧ ∃ h, h ∈ hosts ∧ names h (url req)
             ∧ (ToLower (Scheme (url req)) = bytes_of "https"
                ∨ ToLower (Scheme (url req)) = bytes_of "http" ∧ bytes_of "http://" `prefix_of` ToLower h))
  ∧ (sent t = None ↔ Get (headers plain) "Authorization" = EmptyString ∧ (∃ h, h ∈ hosts ∧ names h (url req))
                     ∧ Token now (reads rs) = EmptyString)
  ∧ (sent t = None → outcome t = Err ErrNoToken ∧ ran_no_token t = not_).
Proof.
  cbn zeta. set (opts := MkTransportOptions _ _ _ _). unfold RoundTrip.
  assert (url (addHeaders opts req) = url req) as -> by (unfold addHeaders; by destruct (Headers opts)).
  set (plain := addHeaders opts req). change (Authorize opts) with (Some (AllowHosts hosts)). cbn match.
  destruct (is_empty (Get (headers plain) "Authorization")) eqn:Ea; cbn [andb].
  2: { cbn. apply is_empty_false in Ea. split_and!; [by intros ? [= <-]|split; [done|by intros [? _]]|done]. }
  apply is_empty_true in Ea. destruct (AllowHosts hosts (url req)) eqn:Eh.
  2: { cbn. split_and!; [by intros ? [= <-]|split; [done|]|done]. intros (_ & Hn & _). apply AllowHosts_true in Hn. congruence. }
  apply AllowHosts_true in Eh. destruct (is_empty (Token now (reads rs))) eqn:Et.
  { apply is_empty_true in Et. cbn. split_and!; [done|done|done]. }
  apply is_empty_false in Et. cbn. split_and!; [|split; [done|by intros (_ & _ & ?)]|done].
  intros out [= <-] _. split; [done|]. exists (Token now (reads rs)).
  destruct (Token_held rs now _ eq_refl Et) as [Hheld Hexp]. split_and!; [done..|].
  destruct Eh as (h & Hh & Hn). exists h. split_and!; [done..|]. destruct Hn as [Hs _]. rewrite entry_scheme in Hs.
  destruct (cutPrefix (bytes_of "http://") (ToLower h)) as [rest|] eqn:Ec; cbn [is_some] in Hs; [right|by left].
  split; [done|]. apply cutPrefix_Some in Ec. by exists rest.
Qed.

End hosts.

(** ** Examples *)

#[local] Instance same_case : CaseTable := id.

Example entries :
  (λ h, let e := entry_of h in (string_of (e_scheme e), string_of (e_host e), string_of (e_port e))) <$>
    ["pip"; "Pip:8443"; "::1"; "[::1]:8443"; "http://pip"; "https://PIP"; "[::1]"]%string
  = [("https", "pip", ""); ("https", "pip", "8443"); ("https", "::1", ""); ("https", "::1", "8443"); ("http", "pip", "");
     ("https", "pip", ""); ("https", "::1", "")]%string.
Proof. vm_compute. reflexivity. Qed.

Example allowed_urls :
  (λ u, AllowHosts ["pip:443"; "http://plain"; "[::1]:8443"] u) <$>
    [MkURL "https" "pip"; MkURL "HTTPS" "PIP:443"; MkURL "https" "pip:8443"; MkURL "http" "pip"; MkURL "http" "plain:8080";
     MkURL "https" "plain"; MkURL "https" "[::1]:8443"; MkURL "https" "[::1]"]%string
  = [true; true; false; false; true; false; true; false].
Proof. vm_compute. reflexivity. Qed.

Example one_trip :
  let opts := MkTransportOptions (Some (AllowHosts ["pip"])) (Some [("x-request-id", ["7"])]) true true in
  let source := reads [(0%Z, Some (bytes_of " tok ")); (1%Z, None); (2%Z, Some (bytes_of "  "))] in
  let t := RoundTrip opts (Token 3 source) (λ _, Some 401%Z) (MkRequest (MkURL "https" "pip") ∅) in
  ran_unauthorized t = true
  ∧ (λ out, (Get (headers out) "authorization", Get (headers out) "X-Request-Id")) <$> sent t
    = Some ("Bearer tok", "7")%string.
Proof. vm_compute. done. Qed.

Lemma token_goes_to_allowed_witness :
  sent (RoundTrip (MkTransportOptions (Some (AllowHosts ["pip"%string])) None true true) (Token 3 (reads [(0%Z, None)]))
          (λ _, Some 200%Z) (MkRequest (MkURL "https" "pip") ∅)) = None.
Proof.
  destruct (token_goes_to_allowed ["pip"%string] None true true [(0%Z, None)] 3 (λ _, Some 200%Z)
              (MkRequest (MkURL "https" "pip") ∅)) as (_ & H & _).
  apply H. split; [done|]. split; [|done]. exists "pip"%string. split; [apply list_elem_of_here|].
  split; [vm_compute; done|]. split; [vm_compute; done|]. left. vm_compute. done.
Defined.

End Transport.
