(* ===== verification/Authn.v ===== *)
(** * The providers' keys of the agent ([authz-agent/internal/authn])

    [authn.go] and [realm.go]: the trusted providers file, the fetch of every provider's
    keys, the resolver of realm names, the document the decision engine verifies tokens
    against, [Bootstrap], [Reload] and the health rules. What the outside answers is a
    [world]: an answer for each thing asked, by its number, so that the same question may be
    answered differently later; the number is part of the state. *)
From S2P Require Import Prelude GoText Json Encoding JsonFields JsonText Keys Verify Outbound.
Import GoText Encoding JsonFields JsonText.

Module Authn.

Notation json := Json.json.

Definition DefaultFile : string := "/etc/authz/trusted-providers.json".
Definition DefaultHTTPTimeout : Z := 5 * 10 ^ 9.
Definition DefaultHTTPRetries : Z := 3.
Definition DefaultReloadInterval : Z := 30 * 10 ^ 9.

Record Config := MkConfig {
  File : string;
  Required : bool;
  HTTPTimeout : Z;
  HTTPRetries : Z;
  TenantManagerURL : string;
  ReloadInterval : Z;
}.

(** ** The trusted providers file *)

Record Provider := MkProvider {
  ID : string;
  Issuer : string;
  JWKSURI : string;
  Audiences : slice string;
  P_Required : bool;
  AllowMissingAud : bool;
}.

Definition no_provider : Provider := MkProvider EmptyString EmptyString EmptyString None false false.

Record Document := MkDocument { Providers : slice Provider }.

Definition provider_fields : list string :=
  ["id"; "issuer"; "jwksUri"; "audiences"; "required"; "allowMissingAud"]%string.

Definition set_provider (p : Provider) (v : json) : option Provider :=
  match v with
  | Json.JNull => Some p
  | Json.JObj _ ms =>
      if known_fields provider_fields ms then
        id ← set_all set_text (ID p) (values "id" ms);
        issuer ← set_all set_text (Issuer p) (values "issuer" ms);
        uri ← set_all set_text (JWKSURI p) (values "jwksUri" ms);
        audiences ← set_all (set_slice set_text EmptyString) (Audiences p) (values "audiences" ms);
        required ← set_all set_bool (P_Required p) (values "required" ms);
        missing ← set_all set_bool (AllowMissingAud p) (values "allowMissingAud" ms);
        Some (MkProvider id issuer uri audiences required missing)
      else None
  | _ => None
  end.

Definition decode_document (raw : bytes) : option Document :=
  v ← decode_first raw;
  match v with
  | Json.JNull => Some (MkDocument None)
  | Json.JObj _ ms =>
      if known_fields ["providers"%string] ms
      then MkDocument <$> set_all (set_slice set_provider no_provider) None (values "providers" ms)
      else None
  | _ => None
  end.

Definition provider_list (d : Document) : list Provider := slice_elems (Providers d).

Inductive load_error := MissingFile | NotParsed | UsedID (id : string).

(** [Load] of what [os.ReadFile] gave. *)
Definition Load (read : option bytes) : result load_error Document :=
  raw ← match read with Some raw => Ok raw | None => Err MissingFile end;
  doc ← match decode_document raw with Some doc => Ok doc | None => Err NotParsed end;
  _ ← loop (λ _ p seen, if decide (ID p ∈ seen) then Err (UsedID (ID p)) else Ok ({[ ID p ]} ∪ seen))
        0 (provider_list doc) (∅ : gset string);
  Ok doc.

Inductive entry_error :=
  | MissingID (idx : nat)
  | BadID (idx : nat) (id : string)
  | NoAddress (id : string)
  | TwoAddresses (id : string).

Definition validate (p : Provider) (idx : nat) : result entry_error unit :=
  if is_empty (ID p) then Err (MissingID idx)
  else if negb (Keys.validProviderID (ID p)) then Err (BadID idx (ID p))
  else if is_empty (Issuer p) && is_empty (JWKSURI p) then Err (NoAddress (ID p))
  else if negb (is_empty (Issuer p)) && negb (is_empty (JWKSURI p)) then Err (TwoAddresses (ID p))
  else Ok tt.

(** ** Requests *)

(** An HTTP exchange: no response, or its status with its body, [None] when it cannot be
    read to its end. *)
Inductive attempt := NoResponse | Responded (StatusCode : Z) (body : option bytes).

(** The answers of the disk and the network to the [n]-th thing asked, the requests that can
    be made, and whether the store took the document put. *)
Record world := MkWorld {
  disk : nat → string → option bytes;
  request_ok : string → bool;
  answer : nat → string → attempt;
  put_ok : nat → bool;
}.

Definition maxBody : N := N.shiftl 10 20.

(** [io.LimitReader]. *)
Definition limited (body : bytes) : bytes :=
  if (N.of_nat (length body) <=? maxBody)%N then body else take (N.to_nat maxBody) body.

(** What has been asked, and the answers the resolver keeps by name. *)
Record asking := MkAsking { asked : nat; cache : gmap string string }.

Definition ask (s : asking) : asking := MkAsking (S (asked s)) (cache s).

Section world.
Context (w : world).

(** The attempts left; [failed] says that [lastErr] is set. *)
Fixpoint attempts (url : string) (k : nat) (failed : bool) (s : asking) : option bytes * asking :=
  match k with
  | 0 => (if failed then None else Some [], s)
  | S k =>
      if negb (request_ok w url) then (None, s)
      else
        match answer w (asked s) url with
        | Responded code (Some body) =>
            if (200 <=? code)%Z && (code <? 300)%Z then (Some (limited body), ask s)
            else attempts url k true (ask s)
        | _ => attempts url k true (ask s)
        end
  end.

Definition fetchWithRetry (url : string) (retries : Z) (s : asking) : option bytes * asking :=
  match cutPrefix (bytes_of "file://") (bytes_of url) with
  | Some path => (disk w (asked s) (string_of path), ask s)
  | None => attempts url (Z.to_nat retries) false s
  end.

(** ** Realm names *)

Definition tenantLookupPath : string := "/api/v4/tenant-manager/registration/tenants".

(** [strings.TrimRight(s, "/")]. *)
Definition trim_slashes (s : string) : string := string_of (drop_while_end (λ c, eqb c "/"%char) (bytes_of s)).

(** [realmSegment]. *)
Definition realmSegment (s : string) : bool :=
  let n := String.length s in (1 <=? n)%nat && (n <=? 128)%nat && all Keys.valid_id_char (bytes_of s).

(** [newRealmResolver]: the address of the resolver, [None] for the nil resolver. *)
Definition newRealmResolver (baseURL : string) : option string :=
  let trimmed := trim_slashes (string_of (TrimSpace (bytes_of baseURL))) in
  if is_empty trimmed then None else Some trimmed.

Definition lookup_endpoint (base displayName : string) : string :=
  base +:+ tenantLookupPath +:+ "?dns=" +:+ Outbound.QueryEscape displayName.

Definition lookup (base displayName : string) (s : asking) : option string * asking :=
  let '(body, s) := fetchWithRetry (lookup_endpoint base displayName) 1 s in
  match body with
  | None => (None, s)
  | Some body =>
      let resolved := string_of (TrimSpace body) in
      if is_empty resolved then (None, s)
      else if negb (realmSegment resolved) then (None, s)
      else if eqb resolved displayName then (None, s)
      else (Some resolved, s)
  end.

Definition remember (name r : string) (s : asking) : asking := MkAsking (asked s) (<[name := r]> (cache s)).

Definition resolve (base displayName : string) (s : asking) : option string * asking :=
  if is_empty displayName then (None, s)
  else
    match cache s !! displayName with
    | Some cached => (if is_empty cached then None else Some cached, s)
    | None =>
        let '(r, s) := lookup base displayName s in
        (r, remember displayName (default EmptyString r) s)
    end.

(** The text before the last slash and the text after it. *)
Definition last_slash (b : bytes) : option (bytes * bytes) :=
  let '(segment, rest) := span (λ c, negb (eqb c "/"%char)) (reverse b) in
  match rest with
  | [] => None
  | _ :: prefix => Some (reverse prefix, reverse segment)
  end.

Definition resolveIssuer (r : option string) (issuer : string) (s : asking) : option string * asking :=
  match r with
  | None => (None, s)
  | Some base =>
      match last_slash (bytes_of (trim_slashes issuer)) with
      | None => (None, s)
      | Some (prefix, segment) =>
          if is_nil segment then (None, s)
          else if negb (realmSegment (string_of segment)) then (None, s)
          else
            let '(resolved, s) := resolve base (string_of segment) s in
            ((λ r, string_of prefix +:+ "/" +:+ r) <$> resolved, s)
      end
  end.
End world.

(** ** The keys of a provider *)

Record candidate := MkCandidate { ProviderID : string; Alg : string; Kty : string; JWKSJSON : bytes }.
Record indexedKey := MkIndexedKey { kid : string; key_candidate : candidate }.

(** How [encoding/json] writes a [float64]. *)
Class JsonFloat := { json_float : bool → Z * Z → bytes }.

(** A JSON object of the values written, its keys in the order of their bytes. *)
Definition write_object (m : gmap string bytes) : bytes :=
  "{"%char :: Json.joined [","%char]
    (map (λ k, marshal_string k ++ ":"%char :: default [] (m !! k)) (sort_strings (map_to_list m).*1)) ++ ["}"%char].

Section keys.
Context {floats : JsonFloat}.

(** [json.Marshal] of a value decoded into [any]. *)
Fixpoint marshal_any (v : json) : bytes :=
  match v with
  | Json.JNull => bytes_of "null"
  | Json.JBool b => bytes_of (if b then "true" else "false")
  | Json.JNum text => let '(negative, size) := ParseFloat text in json_float negative size
  | Json.JStr body => marshal_string (Unquote body)
  | Json.JArr _ vs => "["%char :: Json.joined [","%char] (map marshal_any vs) ++ ["]"%char]
  | Json.JObj _ ms => write_object (fold_left (λ m kv, <[kv.1 := kv.2]> m) (map (λ m, (Unquote m.1, marshal_any m.2)) ms) ∅)
  end.

(** A key of a JWKS, [None] for the nil map. *)
Definition jwk := option (gmap string json).

(** [key[name].(string)], the empty text when the member is no string. *)
Definition key_text (name : string) (k : jwk) : string :=
  match k ≫= (.!! name) with
  | Some (Json.JStr body) => Unquote body
  | _ => EmptyString
  end.

(** An element of type [map[string]any]: an object adds its members to the map. *)
Definition set_key (fits : json → bool) (k : jwk) (v : json) : option jwk :=
  match v with
  | Json.JNull => Some None
  | Json.JObj _ ms =>
      if all (λ m, fits m.2) ms
      then Some (Some (fold_left (λ m kv, <[Unquote kv.1 := kv.2]> m) ms (default ∅ k)))
      else None
  | _ => None
  end.

Definition set_keys : slice jwk → json → option (slice jwk) := set_slice (set_key numbers_fit) None.

Definition decode_jwks (body : bytes) : option (slice jwk) :=
  ms ← struct_members body; set_all set_keys None (values "keys" ms).

Definition single (m : gmap string json) : bytes :=
  write_object {[ "keys"%string := "["%char :: write_object (marshal_any <$> m) ++ ["]"%char] ]}.

(** [indexKeys] of one key; [None] is a key skipped. *)
Definition index_key (providerID : string) (k : jwk) : option indexedKey :=
  if is_empty (key_text "kid" k) then None
  else
    let use := key_text "use" k in
    if negb (is_empty use) && negb (eqb use "sig"%string) then None
    else
      Some (MkIndexedKey (key_text "kid" k)
        (MkCandidate providerID (key_text "alg" k) (key_text "kty" k) (single (default ∅ k)))).

Definition indexKeys (providerID : string) (keys : list jwk) : list indexedKey * nat :=
  let out := omap (index_key providerID) keys in (out, length keys - length out).

Inductive reason :=
  | InvalidEntry (e : entry_error)
  | NoDiscovery (id url : string)
  | DiscoveryNotJSON (id : string)
  | NoJwksURI (id : string)
  | NoJWKS (id uri : string)
  | BadJWKS (id : string)
  | NoKeys (id : string)
  | NoUsableKey (id : string) (skipped : nat).

Definition decode_discovery (body : bytes) : option string :=
  ms ← struct_members body; string_field "jwks_uri" ms.

Definition discovery_url (issuer : string) : string := trim_slashes issuer +:+ "/.well-known/openid-configuration".

Section fetch.
Context (w : world) (cfg : Config).

Definition discover (p : Provider) (s : asking) : result reason string * asking :=
  let url := discovery_url (Issuer p) in
  let '(body, s) := fetchWithRetry w url (HTTPRetries cfg) s in
  let '(body, s) :=
    match body with
    | Some _ => (body, s)
    | None =>
        let '(resolved, s) := resolveIssuer w (newRealmResolver (TenantManagerURL cfg)) (Issuer p) s in
        match resolved with
        | Some issuer => fetchWithRetry w (discovery_url issuer) (HTTPRetries cfg) s
        | None => (None, s)
        end
    end in
  (match body with
   | None => Err (NoDiscovery (ID p) url)
   | Some body =>
       match decode_discovery body with
       | None => Err (DiscoveryNotJSON (ID p))
       | Some uri => if is_empty uri then Err (NoJwksURI (ID p)) else Ok uri
       end
   end, s).

(** The keys of the JWKS a body holds. *)
Definition read_jwks (id : string) (body : bytes) : result reason (list indexedKey) :=
  match decode_jwks body with
  | None => Err (BadJWKS id)
  | Some None => Err (NoKeys id)
  | Some keys =>
      let '(out, skipped) := indexKeys id (slice_elems keys) in
      if is_nil out then Err (NoUsableKey id skipped) else Ok out
  end.

Definition provider_keys (p : Provider) (idx : nat) (s : asking) : result reason (list indexedKey) * asking :=
  match validate p idx with
  | Err e => (Err (InvalidEntry e), s)
  | Ok _ =>
      let '(uri, s) := if is_empty (JWKSURI p) then discover p s else (Ok (JWKSURI p), s) in
      match uri with
      | Err e => (Err e, s)
      | Ok uri =>
          let '(body, s) := fetchWithRetry w uri (HTTPRetries cfg) s in
          (match body with None => Err (NoJWKS (ID p) uri) | Some body => read_jwks (ID p) body end, s)
      end
  end.

Record ProviderResult := MkProviderResult {
  R_ID : string; Result : string; R_Required : bool; FailureReason : option reason }.

Definition fetchProvider (p : Provider) (idx : nat) (s : asking) : ProviderResult * list indexedKey * asking :=
  let '(r, s) := provider_keys p idx s in
  match r with
  | Ok keys => (MkProviderResult (ID p) "success" (P_Required p) None, keys, s)
  | Err e =>
      let id := if is_empty (ID p) then ("provider-" +:+ pretty idx)%string else ID p in
      (MkProviderResult id "failure" (P_Required p) (Some e), [], s)
  end.

Record artifacts := MkArtifacts {
  results : list ProviderResult;
  jwksByKid : gmap string (list candidate);
  successCount : nat;
  failureCount : nat;
}.

Definition no_artifacts : artifacts := MkArtifacts [] ∅ 0 0.

Definition append_key (m : gmap string (list candidate)) (k : indexedKey) : gmap string (list candidate) :=
  <[kid k := default [] (m !! kid k) ++ [key_candidate k]]> m.

Definition add_provider (idx : nat) (p : Provider) (st : artifacts * asking) : artifacts * asking :=
  let '(out, s) := st in
  let '(r, keys, s) := fetchProvider p idx s in
  if eqb (Result r) "success"%string
  then (MkArtifacts (results out ++ [r]) (fold_left append_key keys (jwksByKid out)) (S (successCount out)) (failureCount out), s)
  else (MkArtifacts (results out ++ [r]) (jwksByKid out) (successCount out) (S (failureCount out)), s).

Fixpoint fetch_from (idx : nat) (ps : list Provider) (st : artifacts * asking) : artifacts * asking :=
  match ps with
  | [] => st
  | p :: ps => fetch_from (S idx) ps (add_provider idx p st)
  end.

Definition fetch (ps : list Provider) (s : asking) : artifacts * asking := fetch_from 0 ps (no_artifacts, s).
End fetch.

(** ** The document and the status *)

Record entry := MkEntry { E_ID : string; E_Audiences : option (list string); E_Required : bool; E_AllowMissingAud : bool }.
Record authn_document := MkAuthn { byId : gmap string entry; doc_jwksByKid : gmap string (list candidate) }.

Definition entry_of (p : Provider) : entry :=
  MkEntry (ID p) (match Audiences p with None => None | Some _ => Some (slice_elems (Audiences p)) end) (P_Required p) (AllowMissingAud p).

(** The value [publish] puts. *)
Definition published (doc : Document) (fetched : artifacts) : authn_document :=
  MkAuthn (fold_left (λ m p, <[ID p := entry_of p]> m) (provider_list doc) ∅) (jwksByKid fetched).

(** [Status], less the time it was made. *)
Record Status := MkStatus {
  Mode : string;
  ConfiguredCount : nat;
  SuccessCount : nat;
  FailureCount : nat;
  ConfigError : option load_error;
  S_Providers : list ProviderResult;
}.

Definition mode_of (cfg : Config) : string := if Required cfg then "strict" else "permissive".

Definition status_of (fetched : artifacts) (mode : string) (configured : nat) : Status :=
  MkStatus mode configured (successCount fetched) (failureCount fetched) None (results fetched).

Definition threshold (mode : string) (configured : nat) : nat :=
  if Nat.eqb configured 0 then 0 else if eqb mode "strict"%string then configured else 1.

Definition missingRequired (rs : list ProviderResult) : list string :=
  R_ID <$> List.filter (λ r, R_Required r && negb (eqb (Result r) "success"%string)) rs.

Inductive unhealthy :=
  | ConfigInvalid (e : load_error)
  | RequiredMissing (mode : string) (success required : nat) (missing : list string)
  | BelowThreshold (mode : string) (success required : nat).

(** [Evaluate]: [None] is healthy. *)
Definition Evaluate (s : Status) : option unhealthy :=
  match ConfigError s with
  | Some e => Some (ConfigInvalid e)
  | None =>
      let required := threshold (Mode s) (ConfiguredCount s) in
      let missing := missingRequired (S_Providers s) in
      if negb (is_nil missing) then Some (RequiredMissing (Mode s) (SuccessCount s) required missing)
      else if (SuccessCount s <? required)%nat then Some (BelowThreshold (Mode s) (SuccessCount s) required)
      else None
  end.

(** ** The manager *)

Section manager.
Context {sha : Verify.Digest} (w : world).

(** [hashFile] of what [os.ReadFile] gave, in hexadecimal. *)
Definition hashFile (raw : bytes) : string := string_of (concat ((λ c, hex 2 (N_of_ascii c)) <$> Verify.digest raw)).

(** The manager with the document its store holds. *)
Record Manager := MkManager {
  status : Status;
  appliedHash : string;
  net : asking;
  store : option authn_document;
}.

Definition withDefaults (cfg : Config) : Config :=
  MkConfig (File cfg) (Required cfg) (if (HTTPTimeout cfg <=? 0)%Z then DefaultHTTPTimeout else HTTPTimeout cfg)
    (if (HTTPRetries cfg <=? 0)%Z then DefaultHTTPRetries else HTTPRetries cfg) (TenantManagerURL cfg) (ReloadInterval cfg).

Definition New : Manager :=
  MkManager (MkStatus EmptyString 0 0 0 None []) EmptyString (MkAsking 0 ∅) None.

Definition record (hash : string) (s : Status) (m : Manager) : Manager := MkManager s hash (net m) (store m).

(** The [Put] of the document: whether the store took it, and the manager after it. *)
Definition publish (doc : Document) (fetched : artifacts) (m : Manager) : bool * Manager :=
  let ok := put_ok w (asked (net m)) in
  (ok, MkManager (status m) (appliedHash m) (ask (net m)) (if ok then Some (published doc fetched) else store m)).

Definition with_net (s : asking) (m : Manager) : Manager := MkManager (status m) (appliedHash m) s (store m).

(** A read of the file. *)
Definition read_file (cfg : Config) (m : Manager) : option bytes * Manager :=
  (disk w (asked (net m)) (File cfg), with_net (ask (net m)) m).

Definition Bootstrap (cfg : Config) (m : Manager) : Manager :=
  let mode := mode_of cfg in
  let '(raw, m) := read_file cfg m in
  let hash := default EmptyString (hashFile <$> raw) in
  let '(raw, m) := read_file cfg m in
  match Load raw with
  | Err e => record hash (MkStatus mode 0 0 0 (Some e) []) m
  | Ok doc =>
      if is_nil (provider_list doc) then record hash (MkStatus mode 0 0 0 None []) (publish doc no_artifacts m).2
      else
        let '(fetched, s) := fetch w cfg (provider_list doc) (net m) in
        record hash (status_of fetched mode (length (provider_list doc))) (publish doc fetched (with_net s m)).2
  end.

Inductive reload_error :=
  | NoHash
  | LoadFailed (e : load_error)
  | TooFew (success configured : nat) (mode : string) (required : nat)
  | Missing (ids : list string)
  | PutFailed.

Definition Reload (cfg : Config) (m : Manager) : result reload_error bool * Manager :=
  let '(raw, m) := read_file cfg m in
  match hashFile <$> raw with
  | None => (Err NoHash, m)
  | Some hash =>
      if eqb hash (appliedHash m) then (Ok false, m)
      else
        let '(raw, m) := read_file cfg m in
        match Load raw with
        | Err e => (Err (LoadFailed e), m)
        | Ok doc =>
            let mode := mode_of cfg in
            let configured := length (provider_list doc) in
            let '(fetched, s) := fetch w cfg (provider_list doc) (net m) in
            let m := with_net s m in
            let required := threshold mode configured in
            if (successCount fetched <? required)%nat then (Err (TooFew (successCount fetched) configured mode required), m)
            else
              let missing := missingRequired (results fetched) in
              if negb (is_nil missing) then (Err (Missing missing), m)
              else
                let '(ok, m) := publish doc fetched m in
                if negb ok then (Err PutFailed, m)
                else (Ok true, record hash (status_of fetched mode configured) m)
        end
  end.

(** [Bootstrap] and the reloads of [n] ticks of [Run]. *)
Fixpoint after_ticks (cfg : Config) (n : nat) : Manager :=
  match n with
  | 0 => Bootstrap cfg New
  | S n => (Reload cfg (after_ticks cfg n)).2
  end.
End manager.
End keys.

(** ** What is shown *)

Definition wf_entry (p : Provider) : Prop :=
  Keys.validProviderID (ID p) = true ∧ (Issuer p = EmptyString ↔ JWKSURI p ≠ EmptyString).

Lemma entry_valid p idx : validate p idx = Ok tt ↔ wf_entry p.
Proof.
  unfold validate, wf_entry. rewrite <-!is_empty_true.
  destruct (is_empty (ID p)) eqn:Ei; [unfold Keys.validProviderID; rewrite Ei; by split; [|intros [? _]]|].
  destruct (Keys.validProviderID (ID p)); [|by split; [|intros [? _]]]. cbn.
  destruct (is_empty (Issuer p)), (is_empty (JWKSURI p)); cbn; split; try done; intros [_ H]; exfalso; naive_solver.
Qed.

(** What is asked later knows what was asked before. *)
Definition later (s s' : asking) : Prop := asked s ≤ asked s' ∧ cache s ⊆ cache s'.

#[export] Instance later_preorder : PreOrder later.
Proof. split; [by intros s|]. intros s t u [? ?] [? ?]. split; [lia|by etransitivity]. Qed.

Lemma ask_later s : later s (ask s).
Proof. split; cbn; [lia|done]. Qed.
#[local] Hint Resolve ask_later : core.

Section facts.
Context (w : world).

(** This address gave this text: the file it names, or the body of a successful response. *)
Definition answered (url : string) (body : bytes) : Prop :=
  match cutPrefix (bytes_of "file://") (bytes_of url) with
  | Some path => ∃ n, disk w n (string_of path) = Some body
  | None => ∃ n code raw, answer w n url = Responded code (Some raw) ∧ (200 ≤ code < 300)%Z ∧ body = limited raw
  end.

(** What the tenant manager at this address says the realm of a tenant's name is. *)
Definition realm_of (base name r : string) : Prop :=
  realmSegment r = true ∧ r ≠ name
  ∧ ∃ body, answered (lookup_endpoint base name) body ∧ r = string_of (TrimSpace body).

(** What the resolver keeps are answers of the tenant manager. *)
Definition knows (base : string) (s : asking) : Prop :=
  map_Forall (λ name r, r = EmptyString ∨ realm_of base name r) (cache s).

(** The issuer with its last segment, a tenant's name, replaced by the realm of the tenant. *)
Definition renamed (base issuer renamed : string) : Prop :=
  ∃ prefix segment r,
    last_slash (bytes_of (trim_slashes issuer)) = Some (prefix, segment)
    ∧ renamed = (string_of prefix +:+ "/" +:+ r)%string
    ∧ realmSegment (string_of segment) = true ∧ realm_of base (string_of segment) r.

Lemma attempts_later url k failed s : later s (attempts w url k failed s).2.
Proof.
  revert failed s. induction k as [|k IH]; intros failed s; cbn; [done|].
  destruct (negb _); [done|].
  destruct (answer w (asked s) url) as [|code [body|]]; [by etransitivity; [|apply IH]| |by etransitivity; [|apply IH]].
  destruct (_ && _); [done|by etransitivity; [|apply IH]].
Qed.

Lemma attempts_cache url k failed s : cache (attempts w url k failed s).2 = cache s.
Proof.
  revert failed s. induction k as [|k IH]; intros failed s; cbn; [done|]. by repeat case_match; rewrite ?IH.
Qed.

Lemma attempts_answered url k failed s body s' :
  attempts w url k failed s = (Some body, s') →
  body = [] ∨ ∃ n code raw, answer w n url = Responded code (Some raw) ∧ (200 ≤ code < 300)%Z ∧ body = limited raw.
Proof.
  revert failed s. induction k as [|k IH]; intros failed s; cbn.
  { destruct failed; [done|]. intros [= <- <-]. by left. }
  destruct (negb _); [done|].
  destruct (answer w (asked s) url) as [|code [raw|]] eqn:Ea; [by apply IH| |by apply IH].
  destruct (_ && _) eqn:Ec; [|by apply IH]. intros [= <- <-]. right.
  exists (asked s), code, raw. split_and!; [done| | |done]; apply andb_true_iff in Ec as [?%Z.leb_le ?%Z.ltb_lt]; lia.
Qed.

Lemma fetchWithRetry_later url retries s : later s (fetchWithRetry w url retries s).2.
Proof. unfold fetchWithRetry. destruct (cutPrefix _ _); [apply ask_later|apply attempts_later]. Qed.

Lemma fetchWithRetry_cache url retries s : cache (fetchWithRetry w url retries s).2 = cache s.
Proof. unfold fetchWithRetry. destruct (cutPrefix _ _); [done|apply attempts_cache]. Qed.

Lemma fetchWithRetry_answered url retries s body s' :
  fetchWithRetry w url retries s = (Some body, s') → body = [] ∨ answered url body.
Proof.
  unfold fetchWithRetry, answered. destruct (cutPrefix _ _) as [path|]; [|apply attempts_answered].
  intros [= H _]. right. by exists (asked s).
Qed.

Lemma lookup_cache base name s : cache (lookup w base name s).2 = cache s.
Proof.
  unfold lookup. pose proof (fetchWithRetry_cache (lookup_endpoint base name) 1 s) as H.
  destruct (fetchWithRetry _ _ _ _) as [body s']. cbn in H. by repeat case_match.
Qed.

Lemma lookup_later base name s : later s (lookup w base name s).2.
Proof.
  unfold lookup. pose proof (fetchWithRetry_later (lookup_endpoint base name) 1 s) as H.
  destruct (fetchWithRetry _ _ _ _) as [body s']. cbn in H. by repeat case_match.
Qed.

Lemma lookup_realm base name s r s' : lookup w base name s = (Some r, s') → realm_of base name r.
Proof.
  unfold lookup. destruct (fetchWithRetry _ _ _ _) as [[body|] t] eqn:Eb; [|done].
  destruct (is_empty _) eqn:Ee; [done|]. destruct (negb _) eqn:Es; [done|]. destruct (eqb _ _) eqn:En; [done|].
  intros [= <- _]. apply negb_false_iff in Es. apply (proj1 (eqb_false _ _)) in En. split_and!; [done..|].
  apply fetchWithRetry_answered in Eb as [->|Hb]; [by vm_compute in Ee|]. eauto.
Qed.

Lemma resolve_knows base name s r s' :
  knows base s → resolve w base name s = (r, s') →
  knows base s' ∧ ∀ x, r = Some x → realm_of base name x.
Proof.
  unfold resolve. intros Hc. destruct (is_empty name) eqn:En; [by intros [= <- <-]|].
  destruct (cache s !! name) as [x|] eqn:Ec.
  - intros [= <- <-]. split; [done|]. intros y. destruct (is_empty x) eqn:Ex; [done|]. intros [= <-].
    apply is_empty_false in Ex. by destruct (Hc _ _ Ec).
  - pose proof (lookup_cache base name s) as Hl. destruct (lookup w base name s) as [x s1] eqn:El.
    intros [= <- <-]. split; [|by intros y ->; eapply lookup_realm].
    unfold knows. cbn [cache remember]. cbn [snd] in Hl. rewrite Hl. apply map_Forall_insert_2; [|done].
    destruct x as [x|]; [|by left]. right. by eapply lookup_realm.
Qed.

Lemma resolveIssuer_knows base issuer s i s' :
  knows base s → resolveIssuer w (Some base) issuer s = (i, s') →
  knows base s' ∧ ∀ x, i = Some x → renamed base issuer x.
Proof.
  unfold resolveIssuer. intros Hk. destruct (last_slash _) as [[prefix segment]|] eqn:El; [|by intros [= <- <-]].
  destruct (is_nil segment); [by intros [= <- <-]|].
  destruct (negb _) eqn:Es; [by intros [= <- <-]|]. apply negb_false_iff in Es.
  destruct (resolve w base (string_of segment) s) as [r s1] eqn:Er. destruct (resolve_knows _ _ _ _ _ Hk Er) as [Hk1 Hr].
  intros [= <- <-]. split; [done|]. intros x (y & -> & ->)%fmap_Some. exists prefix, segment, y. auto.
Qed.

Lemma resolve_later base name s : later s (resolve w base name s).2.
Proof.
  unfold resolve. destruct (is_empty name); [done|]. destruct (cache s !! name) as [r|] eqn:Ec; [done|].
  pose proof (lookup_later base name s) as [Ha _]. pose proof (lookup_cache base name s) as Hc.
  destruct (lookup w base name s) as [r s']. cbn in *. split; cbn; [done|]. rewrite Hc. by apply insert_subseteq.
Qed.

Lemma resolveIssuer_later r issuer s : later s (resolveIssuer w r issuer s).2.
Proof.
  unfold resolveIssuer. destruct r as [base|]; [|done]. destruct (last_slash _) as [[prefix segment]|]; [|done].
  destruct (is_nil _); [done|]. destruct (negb _); [done|].
  pose proof (resolve_later base (string_of segment) s) as H. by destruct (resolve _ _ _ _).
Qed.

Context {floats : JsonFloat} (cfg : Config).

Lemma discover_later p s : later s (discover w cfg p s).2.
Proof.
  unfold discover. pose proof (fetchWithRetry_later (discovery_url (Issuer p)) (HTTPRetries cfg) s) as H.
  destruct (fetchWithRetry _ _ _ _) as [[body|] s1]; [done|]. cbn in H.
  pose proof (resolveIssuer_later (newRealmResolver (TenantManagerURL cfg)) (Issuer p) s1) as H1.
  destruct (resolveIssuer _ _ _ _) as [[issuer|] s2]; cbn in *; [|by etransitivity].
  pose proof (fetchWithRetry_later (discovery_url issuer) (HTTPRetries cfg) s2) as H2.
  destruct (fetchWithRetry _ (discovery_url issuer) _ _) as [b s3]. cbn in *. by repeat (etransitivity; [done|]).
Qed.

Lemma provider_keys_later p idx s : later s (provider_keys w cfg p idx s).2.
Proof.
  unfold provider_keys. destruct (validate p idx); [|done].
  assert (Hu : later s (if is_empty (JWKSURI p) then discover w cfg p s else (Ok (JWKSURI p), s)).2)
    by (destruct (is_empty _); [apply discover_later|done]).
  destruct (if is_empty _ then _ else _) as [[uri|e] s1]; [|done]. cbn in Hu.
  pose proof (fetchWithRetry_later uri (HTTPRetries cfg) s1) as H. destruct (fetchWithRetry _ _ _ _). cbn in *.
  by etransitivity.
Qed.

(** The issuers whose discovery document an entry goes by: the one written and, with a
    tenant manager, the one that ends in the realm it answers for the name written. *)
Definition issuer_of (p : Provider) (issuer : string) : Prop :=
  issuer = Issuer p ∨ ∃ base, newRealmResolver (TenantManagerURL cfg) = Some base ∧ renamed base (Issuer p) issuer.

(** The address of the keys of an entry: the one written, or, of an entry with an issuer, the
    one that the discovery document of the issuer names. *)
Definition jwks_address (p : Provider) (uri : string) : Prop :=
  if is_empty (JWKSURI p)
  then uri ≠ EmptyString ∧ ∃ issuer body,
    issuer_of p issuer ∧ answered (discovery_url issuer) body ∧ decode_discovery body = Some uri
  else uri = JWKSURI p.

(** What the resolver of the manager keeps are answers of the tenant manager configured. *)
Definition informed (s : asking) : Prop := ∀ base, newRealmResolver (TenantManagerURL cfg) = Some base → knows base s.

Lemma informed_cache s s' : cache s' = cache s → informed s → informed s'.
Proof. intros He Hs base Hb. unfold knows. rewrite He. by apply Hs. Qed.

Lemma fetch_informed url retries s body s' :
  fetchWithRetry w url retries s = (body, s') → informed s → informed s'.
Proof. intros H. apply informed_cache. pose proof (fetchWithRetry_cache url retries s) as Hc. by rewrite H in Hc. Qed.

Lemma resolve_informed p s i s' :
  informed s → resolveIssuer w (newRealmResolver (TenantManagerURL cfg)) (Issuer p) s = (i, s') →
  informed s' ∧ ∀ x, i = Some x → issuer_of p x.
Proof.
  unfold informed, issuer_of. destruct (newRealmResolver _) as [base|]; [|by intros Hs [= <- <-]].
  intros Hs H. destruct (resolveIssuer_knows _ _ _ _ _ (Hs _ eq_refl) H) as [Hk Hr].
  split; [by intros ? [= <-]|]. intros x Hx. right. eauto.
Qed.

(** The text of a discovery document is one an issuer of the entry gave. *)
Lemma discover_informed p s r s' :
  informed s → discover w cfg p s = (r, s') →
  informed s' ∧ ∀ uri, r = Ok uri → is_empty (JWKSURI p) = true → jwks_address p uri.
Proof.
  unfold discover. intros Hs. destruct (fetchWithRetry _ _ _ s) as [b1 s1] eqn:E1.
  pose proof (fetch_informed _ _ _ _ _ E1 Hs) as H1.
  destruct (match b1 with Some _ => _ | None => _ end) as [b s2] eqn:E2.
  assert (H : informed s2 ∧ ∀ body, b = Some body →
    body = [] ∨ ∃ issuer, issuer_of p issuer ∧ answered (discovery_url issuer) body).
  { destruct b1 as [body1|].
    - injection E2 as <- <-. split; [done|]. intros body [= <-].
      apply fetchWithRetry_answered in E1 as [->|Hb]; [by left|]. right. exists (Issuer p). split; [by left|done].
    - destruct (resolveIssuer _ _ _ _) as [i t] eqn:Ei. destruct (resolve_informed _ _ _ _ H1 Ei) as [Ht Hi].
      destruct i as [issuer|]; [|by injection E2 as <- <-]. split; [by eapply fetch_informed|]. intros body ->.
      apply fetchWithRetry_answered in E2 as [->|Hb]; [by left|]. right. eauto. }
  destruct H as [H2 Hb]. intros [= <- <-]. split; [done|]. intros uri Hr Hj. unfold jwks_address. rewrite Hj.
  destruct b as [body|]; [|done]. destruct (decode_discovery body) as [u|] eqn:Ed; [|done].
  destruct (is_empty u) eqn:Eu; [done|]. injection Hr as <-. apply is_empty_false in Eu. split; [done|].
  destruct (Hb _ eq_refl) as [->|(issuer & Hi & Ha)]; [by vm_compute in Ed|]. eauto.
Qed.

(** The keys of a valid entry: those of a JWKS that its address gave. *)
Definition own_keys (p : Provider) (ks : list indexedKey) : Prop :=
  wf_entry p ∧ ks ≠ []
  ∧ ∃ uri body keys, jwks_address p uri ∧ answered uri body ∧ decode_jwks body = Some keys
      ∧ ks = omap (index_key (ID p)) (slice_elems keys).

Lemma read_jwks_Ok id body ks :
  read_jwks id body = Ok ks →
  ks ≠ [] ∧ ∃ keys, decode_jwks body = Some keys ∧ ks = omap (index_key id) (slice_elems keys).
Proof.
  unfold read_jwks. destruct (decode_jwks body) as [[keys|]|]; [|done..]. unfold indexKeys.
  destruct (is_nil _) eqn:E; [done|]. intros [= <-]. apply is_nil_false in E. eauto.
Qed.

Lemma provider_keys_informed p idx s o s' :
  informed s → provider_keys w cfg p idx s = (o, s') → informed s' ∧ ∀ ks, o = Ok ks → own_keys p ks.
Proof.
  unfold provider_keys. intros Hs. destruct (validate p idx) as [[]|e] eqn:Ev; [|by intros [= <- <-]].
  apply entry_valid in Ev. destruct (if is_empty _ then _ else _) as [u s1] eqn:Eu.
  assert (H : informed s1 ∧ ∀ uri, u = Ok uri → jwks_address p uri).
  { destruct (is_empty (JWKSURI p)) eqn:Ej.
    - destruct (discover_informed _ _ _ _ Hs Eu) as [H1 Hu]. auto.
    - injection Eu as <- <-. split; [done|]. intros uri [= <-]. unfold jwks_address. by rewrite Ej. }
  destruct H as [H1 Hu], u as [uri|e]; [|by intros [= <- <-]].
  destruct (fetchWithRetry _ _ _ _) as [b s2] eqn:Eb. intros [= <- <-]. split; [by eapply fetch_informed|].
  intros ks Hr. destruct b as [body|]; [|done].
  apply read_jwks_Ok in Hr as (Hne & keys & Hk & ->). split_and!; [done..|].
  apply fetchWithRetry_answered in Eb as [->|Hb]; [by vm_compute in Hk|]. exists uri, body, keys. auto.
Qed.

(** ** The outcomes of a pass *)

Definition outcome : Type := result reason (list indexedKey).

Definition keys_of (o : outcome) : list indexedKey := match o with Ok ks => ks | Err _ => [] end.

Definition result_of (idx : nat) (p : Provider) (o : outcome) : ProviderResult :=
  match o with
  | Ok _ => MkProviderResult (ID p) "success" (P_Required p) None
  | Err e => MkProviderResult (if is_empty (ID p) then ("provider-" +:+ pretty idx)%string else ID p) "failure" (P_Required p) (Some e)
  end.

(** The artifacts of the outcomes of the providers from the index on. *)
Definition add_outcome (idx : nat) (p : Provider) (o : outcome) (a : artifacts) : artifacts :=
  MkArtifacts (results a ++ [result_of idx p o]) (fold_left append_key (keys_of o) (jwksByKid a))
    (successCount a + if is_ok o then 1 else 0) (failureCount a + if is_ok o then 0 else 1).

Fixpoint gather (idx : nat) (ps : list Provider) (os : list outcome) (a : artifacts) : artifacts :=
  match ps, os with
  | p :: ps, o :: os => gather (S idx) ps os (add_outcome idx p o a)
  | _, _ => a
  end.

Lemma add_provider_outcome idx p a s :
  add_provider w cfg idx p (a, s)
  = (let '(o, s') := provider_keys w cfg p idx s in (add_outcome idx p o a, s')).
Proof.
  unfold add_provider, fetchProvider, add_outcome. destruct (provider_keys w cfg p idx s) as [[ks|e] s']; cbn.
  - by rewrite Nat.add_1_r, Nat.add_0_r.
  - by rewrite Nat.add_1_r, Nat.add_0_r.
Qed.

Definition sound_outcome (p : Provider) (o : outcome) : Prop := ∀ ks, o = Ok ks → own_keys p ks.

(** What the providers from the index on give, each asked after the one before. *)
Fixpoint outcomes (idx : nat) (ps : list Provider) (s : asking) : list outcome * asking :=
  match ps with
  | [] => ([], s)
  | p :: ps =>
      let '(o, s) := provider_keys w cfg p idx s in
      let '(os, s) := outcomes (S idx) ps s in (o :: os, s)
  end.

Lemma fetch_from_gather idx ps a s :
  fetch_from w cfg idx ps (a, s) = (gather idx ps (outcomes idx ps s).1 a, (outcomes idx ps s).2).
Proof.
  revert idx a s. induction ps as [|p ps IH]; intros idx a s; [done|]. cbn [fetch_from outcomes].
  rewrite add_provider_outcome. destruct (provider_keys w cfg p idx s) as [o s1]. rewrite IH.
  by destruct (outcomes (S idx) ps s1).
Qed.

Lemma outcomes_later idx ps s : later s (outcomes idx ps s).2.
Proof.
  revert idx s. induction ps as [|p ps IH]; intros idx s; [done|]. cbn.
  pose proof (provider_keys_later p idx s) as Hl. destruct (provider_keys w cfg p idx s) as [o s1].
  specialize (IH (S idx) s1). destruct (outcomes (S idx) ps s1). cbn in *. by etransitivity.
Qed.

Lemma outcomes_sound idx ps s :
  informed s → Forall2 sound_outcome ps (outcomes idx ps s).1 ∧ informed (outcomes idx ps s).2.
Proof.
  revert idx s. induction ps as [|p ps IH]; intros idx s Hs; [by split; [constructor|]|]. cbn.
  destruct (provider_keys w cfg p idx s) as [o s1] eqn:Eo. destruct (provider_keys_informed _ _ _ _ _ Hs Eo) as [H1 Ho].
  destruct (IH (S idx) s1 H1). destruct (outcomes (S idx) ps s1). cbn in *. by split; [constructor|].
Qed.

Lemma outcomes_length idx ps s : length ps = length (outcomes idx ps s).1.
Proof.
  revert idx s. induction ps as [|p ps IH]; intros idx s; [done|]. cbn. destruct (provider_keys _ _ _ _ _) as [o s1].
  specialize (IH (S idx) s1). destruct (outcomes (S idx) ps s1). cbn in *. by f_equal.
Qed.

Lemma fetch_gather ps s :
  fetch w cfg ps s = (gather 0 ps (outcomes 0 ps s).1 no_artifacts, (outcomes 0 ps s).2).
Proof. apply fetch_from_gather. Qed.
End facts.

(** ** The artifacts of a pass *)

Lemma append_keys_lookup ks m k :
  default [] (fold_left append_key ks m !! k)
  = default [] (m !! k) ++ (key_candidate <$> List.filter (λ x, eqb (kid x) k) ks).
Proof.
  revert m. induction ks as [|x ks IH]; intros m; cbn; [by rewrite app_nil_r|]. rewrite IH. unfold append_key.
  destruct (eqb (kid x) k) eqn:E.
  - apply (proj1 (eqb_true _ _)) in E as ->. rewrite lookup_insert_eq. cbn. by rewrite <-(assoc_L (++)).
  - apply (proj1 (eqb_false _ _)) in E. by rewrite lookup_insert_ne.
Qed.

(** The candidates of a kid, in the order of the providers and of their keys. *)
Lemma gather_candidates idx ps os a k :
  length ps = length os →
  default [] (jwksByKid (gather idx ps os a) !! k)
  = default [] (jwksByKid a !! k) ++ (key_candidate <$> List.filter (λ x, eqb (kid x) k) (concat (keys_of <$> os))).
Proof.
  revert idx os a. induction ps as [|p ps IH]; intros idx [|o os] a; [by rewrite app_nil_r|done..|].
  intros [= H]. cbn. rewrite IH by done. cbn. by rewrite append_keys_lookup, <-(assoc_L (++)), List.filter_app, fmap_app.
Qed.

Lemma gather_results idx ps os a :
  length ps = length os →
  results (gather idx ps os a) = results a ++ imap (λ i po, result_of (idx + i) po.1 po.2) (zip ps os).
Proof.
  revert idx os a. induction ps as [|p ps IH]; intros idx [|o os] a; [by rewrite app_nil_r|done..|].
  intros [= H]. cbn. rewrite IH by done. cbn. rewrite <-(assoc_L (++)), Nat.add_0_r. cbn. do 2 f_equal.
  apply imap_ext. intros i po _. cbn. by rewrite Nat.add_succ_r.
Qed.

Lemma gather_success idx ps os a :
  length ps = length os →
  successCount (gather idx ps os a) = successCount a + length (List.filter is_ok os).
Proof.
  revert idx os a. induction ps as [|p ps IH]; intros idx [|o os] a; [by rewrite Nat.add_0_r|done..|].
  intros [= H]. cbn. rewrite IH by done. cbn. destruct (is_ok o); cbn; lia.
Qed.

Lemma failed_result idx p o : eqb (Result (result_of idx p o)) "success"%string = is_ok o.
Proof. by destruct o. Qed.

Lemma result_required idx p o : R_Required (result_of idx p o) = P_Required p.
Proof. by destruct o. Qed.

Lemma missing_none ps os :
  missingRequired (imap (λ i po, result_of i po.1 po.2) (zip ps os)) = []
  ↔ Forall (λ po, P_Required po.1 = true → is_ok po.2 = true) (zip ps os).
Proof.
  unfold missingRequired.
  transitivity (List.filter (λ r, R_Required r && negb (eqb (Result r) "success"%string)) (imap (λ i po, result_of i po.1 po.2) (zip ps os)) = []).
  { split; [apply fmap_nil_inv|by intros ->]. }
  generalize (zip ps os) as l.
  enough (∀ (f : nat → nat) l, List.filter (λ r, R_Required r && negb (eqb (Result r) "success"%string))
    (imap (λ i po, result_of (f i) po.1 po.2) l) = [] ↔ Forall (λ po, P_Required po.1 = true → is_ok po.2 = true) l) as H
    by (intros l; apply (H id)).
  intros f l. revert f. induction l as [|[p o] l IH]; intros f; [by split; intros; constructor|].
  rewrite imap_cons, Forall_cons, <-(IH (f ∘ S)). cbn [List.filter]. rewrite failed_result, result_required. cbn [fst snd].
  destruct (P_Required p), (is_ok o); cbn; naive_solver.
Qed.

Lemma filter_none {A} (f : A → bool) l : length (List.filter f l) ≥ 1 ↔ ∃ x, x ∈ l ∧ f x = true.
Proof.
  split.
  - destruct (List.filter f l) as [|x k] eqn:E; [cbn; lia|]. intros _. exists x.
    assert (Hx : In x (List.filter f l)) by (rewrite E; by left). apply filter_In in Hx as [??]. by rewrite list_elem_of_In.
  - intros (x & Hx & Hf). apply list_elem_of_In in Hx. assert (H : In x (List.filter f l)) by by apply filter_In.
    destruct (List.filter f l); [done|cbn; lia].
Qed.

Lemma filter_every {A} (f : A → bool) l : length l ≤ length (List.filter f l) ↔ Forall (λ x, f x = true) l.
Proof.
  induction l as [|x l IH]; [by split; intros; [constructor|]|]. rewrite Forall_cons, <-IH. cbn.
  assert (H : length (List.filter f l) ≤ length l) by (clear; induction l as [|y l IH]; cbn; [done|]; destruct (f y); cbn; lia).
  destruct (f x); cbn; split; try lia.
Qed.

(** ** The file and the published document *)

Lemma Load_Ok read doc :
  Load read = Ok doc →
  ∃ raw, read = Some raw ∧ decode_document raw = Some doc ∧ NoDup (ID <$> provider_list doc).
Proof.
  unfold Load. intros H. result_inv. destruct read as [raw|]; [|done]. injection Hstep as ->.
  destruct (decode_document a) as [d|] eqn:Ed; [|done]. injection Hstep1 as ->. exists a. split_and!; [done..|].
  assert (Hn : ∀ i l seen r, loop (λ _ p seen, if decide (ID p ∈ seen) then Err (UsedID (ID p)) else Ok ({[ ID p ]} ∪ seen)) i l seen = Ok r →
    NoDup (ID <$> l) ∧ ∀ p, p ∈ l → ID p ∉ (seen : gset string)); [|by eapply (proj1 (Hn _ _ _ _ Hstep0))].
  clear. intros i l. revert i. induction l as [|p l IH]; intros i seen r; cbn; [split; [constructor|by intros ? ?%elem_of_nil]|].
  destruct (decide (ID p ∈ seen)); [done|]. cbn. intros [Hnd Hout]%IH. split.
  - constructor; [|done]. intros (q & He & Hq)%list_elem_of_fmap. apply (Hout q Hq). rewrite <-He. apply elem_of_union_l, elem_of_singleton_2. done.
  - intros q [->|Hq]%elem_of_cons; [done|]. intros Hs. by apply (Hout q Hq), elem_of_union_r.
Qed.

Lemma entries_lookup ps (m : gmap string entry) id :
  NoDup (ID <$> ps) →
  fold_left (λ m p, <[ID p := entry_of p]> m) ps m !! id
  = match List.find (λ p, eqb (ID p) id) ps with Some p => Some (entry_of p) | None => m !! id end.
Proof.
  revert m. induction ps as [|p ps IH]; intros m; cbn; [done|]. intros [Hp Hnd]%NoDup_cons. rewrite IH by done.
  destruct (eqb (ID p) id) eqn:E.
  - apply (proj1 (eqb_true _ _)) in E as <-. destruct (List.find _ ps) as [q|] eqn:Ef; [|by rewrite lookup_insert_eq].
    apply List.find_some in Ef as [Hq Hi]. apply (proj1 (eqb_true _ _)) in Hi. exfalso. apply Hp. rewrite <-Hi.
    by apply list_elem_of_fmap_2, list_elem_of_In.
  - apply (proj1 (eqb_false _ _)) in E. destruct (List.find _ ps); [done|]. by rewrite lookup_insert_ne.
Qed.

Lemma entry_found ps p : NoDup (ID <$> ps) → p ∈ ps → fold_left (λ m p, <[ID p := entry_of p]> m) ps (∅ : gmap string entry) !! ID p = Some (entry_of p).
Proof.
  intros Hnd Hp. rewrite entries_lookup by done. destruct (List.find _ ps) as [q|] eqn:E.
  - apply List.find_some in E as [Hq Hi]. apply (proj1 (eqb_true _ _)) in Hi. apply list_elem_of_In in Hq.
    assert (q = p) as ->; [|done]. clear -Hnd Hp Hq Hi. induction ps as [|r ps IH]; [by apply elem_of_nil in Hp|].
    apply NoDup_cons in Hnd as [Hr Hnd]. apply elem_of_cons in Hp as [->|Hp], Hq as [->|Hq]; [done| | |by apply IH].
    + exfalso. apply Hr. rewrite <-Hi. by apply list_elem_of_fmap_2.
    + exfalso. apply Hr. rewrite Hi. by apply list_elem_of_fmap_2.
  - apply list_elem_of_In, (List.find_none _ _ E), (proj1 (eqb_false _ _)) in Hp. done.
Qed.

(** A member of a JWKS that may sign: it has a kid, and no use other than to sign. *)
Definition signs (m : gmap string json) (kid : string) : Prop :=
  key_text "kid" (Some m) = kid ∧ kid ≠ EmptyString ∧ key_text "use" (Some m) ∈ [EmptyString; "sig"%string].

Lemma index_key_Some {floats : JsonFloat} id k x :
  index_key id k = Some x ↔
  ∃ m, k = Some m ∧ signs m (kid x) ∧ key_candidate x = MkCandidate id (key_text "alg" k) (key_text "kty" k) (single m).
Proof.
  unfold index_key, signs. split.
  - destruct (is_empty (key_text "kid" k)) eqn:Ek; [done|]. destruct (negb _ && _) eqn:Eu; [done|]. intros [= <-].
    destruct k as [m|]; [|done]. exists m. apply is_empty_false in Ek. split_and!; [done..| |done].
    apply andb_false_iff in Eu as [E%negb_false_iff%is_empty_true|E%negb_false_iff]; [rewrite E; left|].
    apply (proj1 (eqb_true _ _)) in E. rewrite E. right; left.
  - intros (m & -> & (Hk & Hne & Hu) & Hc). destruct x as [i c]. cbn [kid key_candidate] in *. subst i c.
    rewrite (proj2 (is_empty_false _) Hne).
    apply elem_of_cons in Hu as [->|Hu]; [done|]. apply list_elem_of_singleton in Hu as ->. done.
Qed.

Section history.
Context {floats : JsonFloat} {sha : Verify.Digest} (w : world) (cfg : Config).

(** What a pass over the providers of a document publishes. *)
Definition pass (doc : Document) (s : asking) : artifacts :=
  gather 0 (provider_list doc) (outcomes w cfg 0 (provider_list doc) s).1 no_artifacts.

(** A document built by a pass over a file that was read. *)
Definition built (d : authn_document) : Prop :=
  ∃ t doc s, informed w cfg s ∧ Load (disk w t (File cfg)) = Ok doc ∧ d = published doc (pass doc s).

Lemma pass_informed doc s : informed w cfg s → informed w cfg (outcomes w cfg 0 (provider_list doc) s).2.
Proof. intros H. by apply outcomes_sound. Qed.

Lemma Reload_informed m : informed w cfg (net m) → informed w cfg (net (Reload w cfg m).2).
Proof.
  intros Hm. unfold Reload, read_file. cbn [net with_net asked ask].
  destruct (disk w _ (File cfg)); cbn [fmap option_fmap option_map]; [|exact Hm].
  destruct (eqb _ _); [exact Hm|]. destruct (Load _) as [doc|e]; [|exact Hm].
  rewrite fetch_gather. pose proof (pass_informed doc (ask (ask (net m))) Hm) as H.
  destruct (_ <? _)%nat; [exact H|]. destruct (negb _); [exact H|]. unfold publish.
  by destruct (put_ok w _).
Qed.

Lemma Bootstrap_informed m : informed w cfg (net m) → informed w cfg (net (Bootstrap w cfg m)).
Proof.
  intros Hm. unfold Bootstrap, read_file. cbn [net with_net asked ask].
  destruct (Load _) as [doc|e]; [|exact Hm]. destruct (is_nil _); [exact Hm|].
  rewrite fetch_gather. exact (pass_informed doc (ask (ask (net m))) Hm).
Qed.

Lemma ticks_informed n : informed w cfg (net (after_ticks w cfg n)).
Proof.
  induction n as [|n IH]; [|by apply Reload_informed]. apply Bootstrap_informed. intros base _. apply map_Forall_empty.
Qed.

Lemma Reload_spec m r m' :
  Reload w cfg m = (r, m') →
  later (net m) (net m') ∧
  ((r = Ok true
    ∧ ∃ raw doc s, cache s = cache (net m) ∧ disk w (asked (net m)) (File cfg) = Some raw ∧ appliedHash m' = hashFile raw ∧ appliedHash m' ≠ appliedHash m
        ∧ Load (disk w (S (asked (net m))) (File cfg)) = Ok doc
        ∧ status m' = status_of (pass doc s) (mode_of cfg) (length (provider_list doc))
        ∧ store m' = Some (published doc (pass doc s)) ∧ Evaluate (status m') = None)
   ∨ r ≠ Ok true ∧ status m' = status m ∧ appliedHash m' = appliedHash m ∧ store m' = store m).
Proof.
  unfold Reload, read_file. cbn [net with_net asked ask].
  destruct (disk w (asked (net m)) (File cfg)) as [raw|] eqn:Er; cbn [fmap option_fmap option_map].
  2: { intros [= <- <-]. split; [done|by right]. }
  destruct (eqb (hashFile raw) _) eqn:Eh; [intros [= <- <-]; split; [done|by right]|].
  apply (proj1 (eqb_false _ _)) in Eh. cbn [appliedHash with_net] in Eh.
  set (s0 := ask (ask (net m))). assert (H0 : later (net m) s0) by (by etransitivity; apply ask_later).
  destruct (Load _) as [doc|e] eqn:El; [|intros [= <- <-]; split; [done|by right]].
  rewrite fetch_gather. pose proof (outcomes_later w cfg 0 (provider_list doc) s0) as Hl.
  fold (pass doc s0). set (s1 := (outcomes w cfg 0 (provider_list doc) s0).2) in *.
  assert (H1 : later (net m) s1) by by etransitivity. cbn [net with_net].
  destruct (successCount _ <? _)%nat eqn:Et; [intros [= <- <-]; split; [done|by right]|].
  destruct (is_nil (missingRequired (results (pass doc s0)))) eqn:Em; cbn [negb].
  2: { intros [= <- <-]; split; [done|by right]. }
  unfold publish. cbn [net with_net]. assert (H2 : later (net m) (ask s1)) by (by etransitivity; [|apply ask_later]).
  destruct (put_ok w (asked s1)); cbn [negb]; [|intros [= <- <-]; split; [done|by right]].
  intros [= <- <-]. split; [done|]. left. split; [done|]. exists raw, doc, s0. split_and!; [done..|].
  unfold Evaluate. cbn [status record status_of ConfigError S_Providers SuccessCount Mode ConfiguredCount].
  by rewrite Em, Et.
Qed.

Lemma Bootstrap_spec m :
  let m' := Bootstrap w cfg m in
  let t := asked (net m) in
  appliedHash m' = default EmptyString (hashFile <$> disk w t (File cfg))
  ∧ match Load (disk w (S t) (File cfg)) with
    | Err e => status m' = MkStatus (mode_of cfg) 0 0 0 (Some e) [] ∧ store m' = store m
    | Ok doc =>
        let a := pass doc (ask (ask (net m))) in
        status m' = status_of a (mode_of cfg) (length (provider_list doc))
        ∧ (store m' = store m ∨ store m' = Some (published doc a))
    end.
Proof.
  cbn zeta. unfold Bootstrap, read_file. cbn [net with_net asked ask].
  destruct (Load _) as [doc|e]; [|done]. destruct (is_nil (provider_list doc)) eqn:En.
  - apply is_nil_true in En. unfold pass. rewrite En. unfold publish. cbn. destruct (put_ok w _); auto.
  - rewrite fetch_gather. fold (pass doc (ask (ask (net m)))). unfold publish. cbn. destruct (put_ok w _); auto.
Qed.

Lemma store_built n d : store (after_ticks w cfg n) = Some d → built d.
Proof.
  revert d. induction n as [|n IH]; intros d; cbn [after_ticks].
  - destruct (Bootstrap_spec New) as [_ H]. destruct (Load _) as [doc|e] eqn:El; destruct H as [_ Hs].
    + destruct Hs as [->| ->]; [done|]. intros [= <-]. eexists _, doc, _. split_and!; [|done..].
      intros base _. apply map_Forall_empty.
    + by rewrite Hs.
  - destruct (Reload w cfg (after_ticks w cfg n)) as [r m'] eqn:E. cbn [snd].
    apply Reload_spec in E as [_ [(_ & raw & doc & s & Hc & _ & _ & _ & Hl & _ & Hs & _)|(_ & _ & _ & Hs)]]; rewrite Hs; [|apply IH].
    intros [= <-]. exists (S (asked (net (after_ticks w cfg n)))), doc, s. split_and!; [|done..].
    apply (informed_cache _ _ _ _ Hc), ticks_informed.
Qed.

(** C19: Whatever the disk and the network answer at [Bootstrap] and at every tick of [Run],
    a key of the published document is one that the JWKS of a valid entry of the trusted
    providers file listed for signing under that kid; it carries the id of that entry, under
    which the document holds the entry's audiences. The JWKS is one that the address of the
    entry gave: the [jwksUri] of the file when there is one, and otherwise the [jwks_uri] of
    a discovery document that the entry's issuer gave, or, when the resolver of realm names
    is configured, the same issuer with the name in its last segment replaced by the realm
    that the tenant manager answered for that name. *)
Theorem published_keys n d kid c :
  store (after_ticks w cfg n) = Some d →
  c ∈ default [] (doc_jwksByKid d !! kid) →
  ∃ t doc p uri body keys m,
    Load (disk w t (File cfg)) = Ok doc ∧ p ∈ provider_list doc ∧ wf_entry p
    ∧ ProviderID c = ID p ∧ byId d !! ID p = Some (entry_of p)
    ∧ jwks_address w cfg p uri ∧ answered w uri body
    ∧ decode_jwks body = Some keys ∧ Some m ∈ slice_elems keys
    ∧ signs m kid ∧ JWKSJSON c = single m.
Proof.
  intros (t & doc & s & Hi & Hl & ->)%store_built. cbn [published doc_jwksByKid byId]. unfold pass.
  set (os := (outcomes w cfg 0 (provider_list doc) s).1).
  rewrite gather_candidates by apply outcomes_length. cbn [jwksByKid no_artifacts]. rewrite lookup_empty. cbn [default app].
  intros (x & -> & Hx)%list_elem_of_fmap. apply list_elem_of_In, filter_In in Hx as [Hx He]. apply (proj1 (eqb_true _ _)) in He as <-.
  apply in_concat in Hx as (ks & Hks & Hx). apply list_elem_of_In, list_elem_of_fmap in Hks as ([ks'|e] & -> & Ho); [|done].
  cbn [keys_of] in Hx. apply list_elem_of_lookup in Ho as [i Ho].
  destruct (Forall2_lookup_r _ _ _ _ _ (proj1 (outcomes_sound w cfg 0 (provider_list doc) s Hi)) Ho) as (p & Hp & Hs).
  destruct (Hs ks' eq_refl) as (Hwf & _ & uri & body & keys & Hu & Ha & Hd & ->).
  apply list_elem_of_In, list_elem_of_omap in Hx as (k & Hk & Hx). apply index_key_Some in Hx as (m & -> & Hm & Hc).
  apply list_elem_of_lookup_2 in Hp. destruct (Load_Ok _ _ Hl) as (raw & _ & _ & Hnd).
  exists t, doc, p, uri, body, keys, m. rewrite Hc. split_and!; try done. by apply entry_found.
Qed.

(** ** Health *)

(** Every provider marked required gave keys; and every provider did in strict mode, one of
    them, if there is any, in permissive mode. *)
Definition enough (ps : list Provider) (os : list outcome) : Prop :=
  Forall (λ po, P_Required po.1 = true → is_ok po.2 = true) (zip ps os)
  ∧ if Required cfg then Forall (λ o, is_ok o = true) os else ps = [] ∨ ∃ o, o ∈ os ∧ is_ok o = true.

Lemma threshold_met (ps : list Provider) (os : list outcome) :
  length ps = length os →
  threshold (mode_of cfg) (length ps) ≤ length (List.filter is_ok os)
  ↔ if Required cfg then Forall (λ o, is_ok o = true) os else ps = [] ∨ ∃ o, o ∈ os ∧ is_ok o = true.
Proof.
  intros Hl. unfold threshold, mode_of. destruct ps as [|p ps]; cbn [length Nat.eqb].
  { destruct os; [|done]. destruct (Required cfg); split; intros; try constructor; auto. }
  destruct (Required cfg); cbn [eqb bool_decide].
  - change (eqb "strict" "strict")%string with true. cbn iota. cbn [length] in Hl. rewrite Hl. apply filter_every.
  - change (eqb "permissive" "strict")%string with false. cbn iota. transitivity (length (List.filter is_ok os) ≥ 1); [lia|].
    rewrite filter_none. naive_solver.
Qed.

Lemma pass_healthy doc s :
  Evaluate (status_of (pass doc s) (mode_of cfg) (length (provider_list doc))) = None
  ↔ enough (provider_list doc) (outcomes w cfg 0 (provider_list doc) s).1.
Proof.
  unfold Evaluate, status_of, pass, enough. cbn [ConfigError S_Providers SuccessCount Mode ConfiguredCount].
  pose proof (outcomes_length w cfg 0 (provider_list doc) s) as Hl. set (os := (outcomes _ _ _ _ _).1) in *.
  rewrite gather_results, gather_success by done. cbn [results successCount no_artifacts app Nat.add].
  change (imap _ (zip (provider_list doc) os)) with (imap (λ i po, result_of i po.1 po.2) (zip (provider_list doc) os)).
  rewrite <-missing_none, <-(threshold_met _ _ Hl), <-is_nil_true.
  destruct (is_nil _); cbn [negb]; [|by split; [|intros [? _]]].
  destruct (_ <? _)%nat eqn:E; [apply Nat.ltb_lt in E|apply Nat.ltb_ge in E]; split; auto; [done|]. intros [_ ?]. lia.
Qed.

(** C20: After [Bootstrap] the agent is healthy exactly when the file could be read as a
    document with distinct ids, every provider marked required gave keys, and every provider
    did in strict mode, or one in permissive mode when there is any. *)
Theorem bootstrap_healthy m :
  Evaluate (status (Bootstrap w cfg m)) = None ↔
  ∃ doc, Load (disk w (S (asked (net m))) (File cfg)) = Ok doc
    ∧ enough (provider_list doc) (outcomes w cfg 0 (provider_list doc) (ask (ask (net m)))).1.
Proof.
  destruct (Bootstrap_spec m) as [_ H]. destruct (Load _) as [doc|e]; destruct H as [-> _].
  - rewrite pass_healthy. split; [eauto|by intros (? & [= <-] & ?)].
  - by split; [|intros (? & ? & _)].
Qed.

(** A reload publishes whole or changes nothing: when it reports a change, the document
    holds, under every kid, the keys of all providers that gave any, in the order of the
    file, and the status is healthy; otherwise document, status and hash stay. So an agent
    once healthy is healthy after every later tick, and a document once published is never
    taken away. *)
Theorem reload_whole m :
  informed w cfg (net m) →
  (let '(r, m') := Reload w cfg m in
   match r with
   | Ok true =>
     Evaluate (status m') = None ∧ ∃ doc os d, store m' = Some d
       ∧ Load (disk w (S (asked (net m))) (File cfg)) = Ok doc
       ∧ Forall2 (sound_outcome w cfg) (provider_list doc) os ∧ enough (provider_list doc) os
       ∧ ∀ kid, default [] (doc_jwksByKid d !! kid)
                = key_candidate <$> List.filter (λ x, eqb (Authn.kid x) kid) (concat (keys_of <$> os))
   | _ => status m' = status m ∧ appliedHash m' = appliedHash m ∧ store m' = store m
   end)
  ∧ ∀ n k, n ≤ k →
      (Evaluate (status (after_ticks w cfg n)) = None → Evaluate (status (after_ticks w cfg k)) = None)
      ∧ (is_Some (store (after_ticks w cfg n)) → is_Some (store (after_ticks w cfg k))).
Proof.
  intros Hm. split.
  - destruct (Reload w cfg m) as [r m'] eqn:E.
    apply Reload_spec in E as [_ [(-> & raw & doc & s & Hc & _ & _ & _ & Hl & Hst & Hs & He)|(Hr & ? & ? & ?)]].
    2: { by destruct r as [[]|]. }
    split; [done|].
    exists doc, (outcomes w cfg 0 (provider_list doc) s).1, (published doc (pass doc s)). split_and!; [done..| | |].
    + apply outcomes_sound. by eapply informed_cache.
    + apply pass_healthy. by rewrite <-Hst.
    + intros k. unfold published, pass. cbn [doc_jwksByKid]. rewrite gather_candidates by apply outcomes_length.
      cbn. by rewrite lookup_empty.
  - intros n k Hk. induction Hk as [|k Hk [IH1 IH2]]; [done|]. cbn [after_ticks].
    destruct (Reload w cfg (after_ticks w cfg k)) as [r m'] eqn:E. cbn [snd].
    apply Reload_spec in E as [_ [(_ & raw & doc & s & _ & _ & _ & _ & _ & _ & Hs & He)|(_ & Hs & _ & Ht)]].
    + rewrite Hs. eauto.
    + rewrite Hs, Ht. auto.
Qed.

(** While the content of the file stays, no tick changes anything: what failed at the start
    is not asked again, and neither are keys that have been replaced. *)
Theorem unchanged_file raw :
  (∀ t, disk w t (File cfg) = Some raw) →
  ∀ n, status (after_ticks w cfg n) = status (Bootstrap w cfg New) ∧ store (after_ticks w cfg n) = store (Bootstrap w cfg New).
Proof.
  intros Hf. enough (H : ∀ n, appliedHash (after_ticks w cfg n) = hashFile raw
    ∧ status (after_ticks w cfg n) = status (Bootstrap w cfg New) ∧ store (after_ticks w cfg n) = store (Bootstrap w cfg New))
    by (intros n; apply H).
  induction n as [|n (Hh & IH1 & IH2)]; cbn [after_ticks].
  { split; [|done]. destruct (Bootstrap_spec New) as [-> _]. by rewrite Hf. }
  unfold Reload, read_file. rewrite Hf. cbn [fmap option_fmap option_map with_net appliedHash].
  rewrite Hh, eqb_refl. done.
Qed.
End history.

(** ** The resolver *)

Lemma realmSegment_nonempty s : realmSegment s = true → s ≠ EmptyString.
Proof. by intros H ->. Qed.

Lemma last_slash_Some b p q : last_slash b = Some (p, q) → b = p ++ "/"%char :: q.
Proof.
  unfold last_slash. destruct (span _ (reverse b)) as [seg rest] eqn:E. pose proof (span_head _ _ _ _ E) as Hh.
  apply span_app in E. destruct rest as [|c p']; [done|]. intros [= <- <-].
  specialize (Hh c eq_refl). apply negb_false_iff, (proj1 (eqb_true _ _)) in Hh as ->.
  rewrite <-(reverse_involutive b), E, reverse_app, reverse_cons, <-(assoc_L (++)). done.
Qed.

Section resolver.
Context (w : world).

(** A realm name is asked for once: the answer it got is given again at any later time, also
    when the request failed. *)
Theorem resolve_once base name s s2 :
  later (resolve w base name s).2 s2 → resolve w base name s2 = ((resolve w base name s).1, s2).
Proof.
  unfold resolve. destruct (is_empty name) eqn:En; [auto|].
  destruct (cache s !! name) as [r|] eqn:Ec; cbn [fst snd].
  - intros [_ Hc]. by rewrite (lookup_weaken _ _ _ _ Ec Hc).
  - destruct (lookup w base name s) as [r s1] eqn:El. cbn [fst snd]. intros [_ Hc].
    rewrite (lookup_weaken _ _ _ (default EmptyString r) (lookup_insert_eq _ _ _) Hc).
    destruct r as [r|]; [|done]. apply lookup_realm, proj1, realmSegment_nonempty in El. cbn.
    by rewrite (proj2 (is_empty_false _) El).
Qed.

(** A resolved issuer differs from the one written in its last segment only, and the new
    segment is a realm name that the tenant manager answered: no answer can add to the path,
    a query or another host. *)
Theorem resolveIssuer_segment base issuer s i s' :
  knows w base s → resolveIssuer w (Some base) issuer s = (Some i, s') →
  knows w base s' ∧ ∃ prefix segment r,
    trim_slashes issuer = (string_of prefix +:+ "/" +:+ segment)%string
    ∧ i = (string_of prefix +:+ "/" +:+ r)%string ∧ realmSegment segment = true
    ∧ realmSegment r = true ∧ realm_of w base segment r.
Proof.
  intros Hk H. destruct (resolveIssuer_knows _ _ _ _ _ _ Hk H) as [Hk' Hr]. split; [done|].
  destruct (Hr _ eq_refl) as (prefix & segment & r & El & -> & Hs & Ho). apply last_slash_Some in El.
  exists prefix, (string_of segment), r. split_and!; [|done|done|apply Ho|done].
  rewrite <-(string_of_bytes_of (trim_slashes issuer)), El, string_of_app. done.
Qed.
End resolver.

(** ** Examples *)

#[local] Instance example_floats : JsonFloat := {| json_float _ _ := [] |}.
#[local] Instance example_hash : Verify.Digest := λ b, take 2 b.

Definition example_file : bytes :=
  Outbound.text "{^Providers^:[{^id^:^main^,^jwksUri^:^http://idp/keys^,^audiences^:[^a^]}]} and more".

Definition example_world (stored : bool) : world :=
  MkWorld (λ _ _, Some example_file) (λ _, true)
    (λ _ _, Responded 200 (Some (Outbound.text "{^keys^:[{^kty^:^RSA^,^kid^:^k1^},null,{^kid^:^k2^,^use^:^enc^}]}"))) (λ _, stored).

Definition example_config : Config := withDefaults (MkConfig DefaultFile true 0 0 EmptyString 0).

Definition example_candidate : candidate :=
  MkCandidate "main" EmptyString "RSA" (Outbound.text "{^keys^:[{^kid^:^k1^,^kty^:^RSA^}]}").

Definition example_document : authn_document :=
  MkAuthn {[ "main"%string := MkEntry "main" (Some ["a"%string]) false false ]} {[ "k1"%string := [example_candidate] ]}.

Example example_published : store (after_ticks (example_world true) example_config 1) = Some example_document.
Proof. vm_compute. reflexivity. Qed.

(** An entry with an issuer that ends in a tenant's name: discovery under the name fails, the
    tenant manager answers the realm, and the keys are those of the realm's document. *)
Definition realm_file : bytes := Outbound.text "{^Providers^:[{^id^:^main^,^issuer^:^http://idp/realms/acme/^}]}".

Definition realm_answer (url : string) : attempt :=
  let text := Responded 200 ∘ Some ∘ Outbound.text in
  if eqb url "http://tenants/api/v4/tenant-manager/registration/tenants?dns=acme"%string then text "0a-1b"%string
  else if eqb url "http://idp/realms/0a-1b/.well-known/openid-configuration"%string then text "{^jwks_uri^:^http://idp/0a^}"%string
  else if eqb url "http://idp/0a"%string then text "{^keys^:[{^kty^:^RSA^,^kid^:^k1^}]}"%string
  else Responded 404 (Some []).

Definition realm_world : world := MkWorld (λ _ _, Some realm_file) (λ _, true) (λ _, realm_answer) (λ _, true).

Definition realm_config : Config := withDefaults (MkConfig DefaultFile true 0 0 "http://tenants/" 0).

Example realm_published :
  let m := after_ticks realm_world realm_config 0 in
  doc_jwksByKid <$> store m = Some {[ "k1"%string := [example_candidate] ]}
  ∧ cache (net m) = {[ "acme"%string := "0a-1b"%string ]}.
Proof. vm_compute. done. Qed.

(** A document the store refused at the start is not put again while the file stays, and the
    status is healthy. *)
Example unpublished_healthy :
  (λ n, let m := after_ticks (example_world false) example_config n in (store m, Evaluate (status m))) <$> [0; 1; 5]
  = [(None, None); (None, None); (None, None)].
Proof. vm_compute. reflexivity. Qed.

Lemma published_keys_witness :
  ∃ doc p uri, p ∈ provider_list doc ∧ wf_entry p ∧ ID p = "main"%string ∧ jwks_address realm_world realm_config p uri.
Proof.
  assert (E1 : ∃ d, store (after_ticks realm_world realm_config 1) = Some d ∧ example_candidate ∈ default [] (doc_jwksByKid d !! "k1"%string))
    by (eexists; split; [vm_compute; reflexivity|vm_compute; left]).
  destruct E1 as (d & E1 & E2).
  destruct (published_keys _ _ _ _ _ _ E1 E2) as (t & doc & p & uri & _ & _ & _ & _ & Hp & Hw & Hi & _ & Hu & _).
  exists doc, p, uri. split_and!; [exact Hp|exact Hw| |exact Hu]. rewrite <-Hi. reflexivity.
Defined.

Lemma reload_whole_witness : Evaluate (status (after_ticks (example_world true) example_config 3)) = None.
Proof.
  destruct (reload_whole (example_world true) example_config New) as [_ H]; [intros base _; apply map_Forall_empty|].
  destruct (H 0 3 ltac:(lia)) as [Hh _]. apply Hh. vm_compute. reflexivity.
Defined.

End Authn.
