(* ===== verification/M2m.v ===== *)
(** * The agent's own bearer token ([authz-agent/internal/m2m])

    [m2m.go]: the token obtained with client credentials and renewed by a loop with a
    backoff, or read from a file, and published into the store. Durations and times are counted
    in nanoseconds in 64 bits; what a turn of a loop meets outside is a [world]. The conversion
    of a [float64] that no [int64] holds depends on the machine: it is the class
    [Conversion]. *)
From S2P Require Import Prelude GoText Json Encoding JsonFields Keys Verify Outbound.
Import GoText Encoding JsonFields.

Module M2m.

Notation second := Outbound.second.

Definition DefaultClientIDFile : string := "/etc/secret/username".
Definition DefaultClientSecretFile : string := "/etc/secret/password".
Definition DefaultTokenFile : string := "/var/run/secrets/tokens/netcracker/token".
Definition DefaultRenewBefore : Z := 60 * second.
Definition DefaultWatchInterval : Z := 15 * second.
Definition initialBackoff : Z := 2 * second.
Definition maxBackoff : Z := 300 * second.

Record Config := MkConfig {
  TokenURL : string;
  ClientIDFile : string;
  ClientSecretFile : string;
  RenewBefore : Z;
  TokenFile : string;
  WatchInterval : Z;
}.

Definition or_default (s d : string) : string := if is_empty s then d else s.

(** The defaults of [New]. *)
Definition withDefaults (cfg : Config) : Config :=
  MkConfig (TokenURL cfg) (or_default (ClientIDFile cfg) DefaultClientIDFile)
    (or_default (ClientSecretFile cfg) DefaultClientSecretFile)
    (if (RenewBefore cfg <? 0)%Z then DefaultRenewBefore else RenewBefore cfg)
    (or_default (TokenFile cfg) DefaultTokenFile)
    (if (WatchInterval cfg <=? 0)%Z then DefaultWatchInterval else WatchInterval cfg).

(** [Source], with the token its store holds as [data.m2m.bearerToken]; [ready] is the channel
    closed. *)
Record Source := MkSource { token : string; hash : string; ready : bool; stored : option string }.
Definition New : Source := MkSource EmptyString EmptyString false None.

Definition Token (s : Source) : string := token s.

(** [publish], [None] when the store refuses. *)
Definition publish (put_ok : bool) (t : string) (s : Source) : option Source :=
  if put_ok then Some (MkSource t (hash s) true (Some t)) else None.

(** ** Lifetimes *)

Class Conversion := { wild : Outbound.double → Z; wild_in_int64 : ∀ x, in_int64 (wild x) }.

Definition in_range (z : Z) : bool := ((- 2 ^ 63 <=? z) && (z <? 2 ^ 63))%Z.
Definition MinInt64 : Z := - 2 ^ 63.

(** The seconds from the year 1 to 1970: [time.Time] counts from there. *)
Definition unixToInternal : Z := 62135596800.

(** [time.Until(time.Unix(sec, 0))] at [now]: the difference, or the nearest duration. *)
Definition until (sec now : Z) : Z :=
  let t := (int64 (sec + unixToInternal) - unixToInternal)%Z in
  Z.max MinInt64 (Z.min Outbound.MaxInt64 (t * second - now)).

(** [renewal]. *)
Definition renewal (lifetime renewBefore : Z) : Z :=
  let sleep := int64 (lifetime - renewBefore) in
  let half := Z.quot lifetime 2 in
  let sleep := if (sleep <? half)%Z then half else sleep in
  if (sleep <? second)%Z then second else sleep.

Inductive expiry_error := TooFewParts | PayloadEncoding | ClaimsUnread | NoExp.

Inductive token_error :=
  | ClientIDUnread | ClientSecretUnread | RequestFailed | BodyUnread | BadStatus (code : Z)
  | NotTokenResponse | NoAccessToken | NoLifetime (e : expiry_error) | Expired | Unpublished.

(** What a turn meets: the files by path with whether an unreadable one is missing, the
    endpoint, whether the store takes the token, and the clock when the answer is read. *)
Inductive file := Missing | Unreadable | Content (raw : bytes).
Record world := MkWorld {
  files : string → file;
  endpoint : string → string → Outbound.answer;
  put_ok : bool;
  now : Z;
}.

Definition readFile (f : file) (e : token_error) : result token_error string :=
  match f with
  | Content raw => Ok (string_of (TrimSpace raw))
  | _ => Err e
  end.

(** The body of the request. *)
Definition form (clientID clientSecret : string) : string :=
  Outbound.encode_form [("client_id", clientID); ("client_secret", clientSecret); ("grant_type", "client_credentials")]%string.

Section source.
Context {conversion : Conversion}.

(** The conversion [int64(x)] of a [float64]. *)
Definition to_int64 (x : Outbound.double) : Z :=
  let z := Outbound.truncated x in if in_range z then z else wild x.

(** [jwtExpiry], in seconds. *)
Definition jwtExpiry (t : string) : result expiry_error Z :=
  match Split "."%char (bytes_of t) with
  | _ :: part :: _ =>
      match DecodeString (drop_while_end (λ c, eqb c "="%char) part) with
      | None => Err PayloadEncoding
      | Some raw =>
          match ms ← struct_members raw; Outbound.float_field "exp" ms with
          | None => Err ClaimsUnread
          | Some exp => if (exp.1 =? 0)%Z then Err NoExp else Ok (to_int64 exp)
          end
      end
  | _ => Err TooFewParts
  end.

Definition maxBody : N := 2 ^ 20.

Definition fetchToken (w : world) (tokenURL clientID clientSecret : string) : result token_error (string * Z) :=
  match endpoint w tokenURL (form clientID clientSecret) with
  | Outbound.NoAnswer => Err RequestFailed
  | Outbound.Answered _ None => Err BodyUnread
  | Outbound.Answered code (Some all) =>
      let body := take (N.to_nat maxBody) all in
      _ ← check (negb ((code <? 200)%Z || (300 <=? code)%Z)) (BadStatus code);
      match ms ← struct_members body; t ← string_field "access_token" ms; e ← Outbound.float_field "expires_in" ms; Some (t, e) with
      | None => Err NotTokenResponse
      | Some (t, expires_in) =>
          _ ← check (negb (is_empty t)) NoAccessToken;
          if negb (Outbound.at_most_zero expires_in) then Ok (t, to_int64 (Outbound.times expires_in second))
          else
            exp ← wrap NoLifetime (jwtExpiry t);
            let lifetime := until exp (now w) in
            if (lifetime <? 0)%Z then Err Expired else Ok (t, lifetime)
      end
  end.

(** ** The loops *)

Section loops.
Context (cfg : Config).

Definition fetchAndPublish (w : world) (s : Source) : result token_error (Z * Source) :=
  clientID ← readFile (files w (ClientIDFile cfg)) ClientIDUnread;
  clientSecret ← readFile (files w (ClientSecretFile cfg)) ClientSecretUnread;
  '(t, lifetime) ← fetchToken w (TokenURL cfg) clientID clientSecret;
  match publish (put_ok w) t s with
  | Some s => Ok (lifetime, s)
  | None => Err Unpublished
  end.

(** A turn of [runClientCredentials]: how long it sleeps, the next backoff and the source. *)
Definition turn (w : world) (backoff : Z) (s : Source) : Z * Z * Source :=
  match fetchAndPublish w s with
  | Err _ => (backoff, Z.min (int64 (backoff * 2)) maxBackoff, s)
  | Ok (lifetime, s) => (renewal lifetime (RenewBefore cfg), initialBackoff, s)
  end.

(** The sleeps of the loop and what it ends in. *)
Fixpoint runClientCredentials (ws : list world) (backoff : Z) (s : Source) : list Z * (Z * Source) :=
  match ws with
  | [] => ([], (backoff, s))
  | w :: ws =>
      let '(sleep, backoff, s) := turn w backoff s in
      let '(sleeps, r) := runClientCredentials ws backoff s in (sleep :: sleeps, r)
  end.

Definition hash_of {sha : Verify.Digest} (t : string) : string :=
  string_of (concat ((λ c, hex 2 (N_of_ascii c)) <$> Verify.digest (bytes_of t))).

Inductive check_error := ReadFailed | PutFailed.

Definition checkFile {sha : Verify.Digest} (w : world) (s : Source) : result check_error unit * Source :=
  match files w (TokenFile cfg) with
  | Missing => (Ok tt, s)
  | Unreadable => (Err ReadFailed, s)
  | Content raw =>
      let t := string_of (TrimSpace raw) in
      if is_empty t then (Ok tt, s)
      else if eqb (hash_of t) (hash s) then (Ok tt, s)
      else
        match publish (put_ok w) t s with
        | None => (Err PutFailed, s)
        | Some s => (Ok tt, MkSource (token s) (hash_of t) (ready s) (stored s))
        end
  end.

(** The checks of [runFile]. *)
Definition runFile {sha : Verify.Digest} (ws : list world) (s : Source) : Source :=
  fold_left (λ s w, (checkFile w s).2) ws s.

(** [Run] from its start. *)
Definition Run {sha : Verify.Digest} (ws : list world) : Source :=
  if is_empty (TokenURL cfg) then runFile ws New else (runClientCredentials ws initialBackoff New).2.2.
End loops.
End source.

(** ** Waits *)

Lemma renewal_least l rb : (second ≤ renewal l rb)%Z.
Proof. unfold renewal. destruct (_ <? second)%Z eqn:E; [lia|]. by apply Z.ltb_ge in E. Qed.

(** A token that lives [l] is renewed the given time before its end, but not before half of
    its life and not within a second. *)
Lemma renewal_value l rb :
  (0 ≤ l < 2 ^ 63)%Z → (0 ≤ rb < 2 ^ 63)%Z → renewal l rb = Z.max (Z.max (l - rb) (l `div` 2)) second.
Proof.
  intros Hl Hrb. unfold renewal. rewrite Z.quot_div_nonneg by lia. rewrite int64_id by (unfold in_int64; lia).
  destruct (_ <? l `div` 2)%Z eqn:E1; [apply Z.ltb_lt in E1|apply Z.ltb_ge in E1];
    (destruct (_ <? second)%Z eqn:E2; [apply Z.ltb_lt in E2|apply Z.ltb_ge in E2]); lia.
Qed.

(** When a token that lives [l] is to be renewed, with [before] left of its life. *)
Definition due (before l : Z) : Z := Z.max (Z.max (l - before) (l `div` 2)) second.

(** A token that lives more than a second is renewed while it lives, unless no time before its
    end is asked for; one of two seconds or more with the time asked for left, or with half of
    its life when that is less. *)
Lemma due_in_time before l :
  (0 ≤ before)%Z →
  ((0 < before → second < l → due before l < l)
   ∧ (2 * second ≤ l → l - due before l = Z.min before (l - l `div` 2))
   ∧ (before = 0 → second ≤ l → due before l = l))%Z.
Proof.
  unfold due. change second with 1000000000%Z. intros Hb.
  assert (H : (l = 2 * (l `div` 2) ∨ l = 2 * (l `div` 2) + 1)%Z)
    by (pose proof (Z.div_mod l 2); pose proof (Z.mod_pos_bound l 2); lia).
  split_and!; lia.
Qed.

Definition backoff_ok (b : Z) : Prop := (initialBackoff ≤ b ≤ maxBackoff)%Z.

Lemma next_backoff b : backoff_ok b → Z.min (int64 (b * 2)) maxBackoff = Z.min (b * 2) maxBackoff.
Proof. unfold backoff_ok, initialBackoff, maxBackoff. intros H. rewrite int64_id; [done|]. unfold in_int64. change second with 1000000000%Z in *. lia. Qed.

Section waits.
Context {conversion : Conversion} (cfg : Config).

Notation turn := (turn cfg).
Notation run := (runClientCredentials cfg).

Definition fails (w : world) (s : Source) : Prop := ∃ e, fetchAndPublish cfg w s = Err e.

(** What one turn waits. *)
Definition wait_ok (w : world) (b d : Z) (s : Source) : Prop :=
  (second ≤ d)%Z ∧
  match fetchAndPublish cfg w s with
  | Err _ => d = b
  | Ok (lifetime, _) =>
      (0 ≤ lifetime)%Z →
      d = due (RenewBefore cfg) lifetime
      ∧ ((0 < RenewBefore cfg)%Z → (second < lifetime)%Z → (d < lifetime)%Z)
  end.

Lemma to_int64_bounds x : in_int64 (to_int64 x).
Proof.
  unfold to_int64. destruct (in_range _) eqn:E; [|apply wild_in_int64].
  apply andb_true_iff in E as [?%Z.leb_le ?%Z.ltb_lt]. by split.
Qed.

(** A lifetime is a number of 64 bits; one that is below zero comes of a conversion out of
    range only. *)
Lemma lifetime_bounds w s l s' : fetchAndPublish cfg w s = Ok (l, s') → in_int64 l.
Proof.
  unfold fetchAndPublish. intros E. apply bind_Ok in E as (id & _ & E). apply bind_Ok in E as (secret & _ & E).
  apply bind_Ok in E as ([t l'] & Ht & E). destruct (publish _ _ _); [|done]. injection E as -> <-.
  unfold fetchToken in Ht. destruct (endpoint _ _ _) as [|code [all|]]; [done| |done].
  apply bind_Ok in Ht as (? & _ & Ht). destruct (_ ≫= _) as [[t' e]|]; [|done]. apply bind_Ok in Ht as (? & _ & Ht).
  destruct (negb (Outbound.at_most_zero e)); [injection Ht as _ <-; apply to_int64_bounds|].
  apply bind_Ok in Ht as (y & _ & Ht). destruct (until y (now w) <? 0)%Z; [done|]. injection Ht as _ <-.
  unfold in_int64, until, MinInt64, Outbound.MaxInt64. lia.
Qed.

Lemma turn_ok w b s :
  (0 ≤ RenewBefore cfg < 2 ^ 63)%Z → backoff_ok b →
  let '(d, b', s') := turn w b s in wait_ok w b d s ∧ backoff_ok b'.
Proof.
  intros Hr Hb. unfold M2m.turn, wait_ok. destruct (fetchAndPublish cfg w s) as [[l s']|e] eqn:E.
  - split; [|by vm_compute]. split; [apply renewal_least|]. intros Hl. apply lifetime_bounds in E as [_ Hm].
    rewrite renewal_value by done. split; [done|]. apply (due_in_time (RenewBefore cfg) l (proj1 Hr)).
  - rewrite next_backoff by done. unfold backoff_ok, initialBackoff, maxBackoff in *. change second with 1000000000%Z in *.
    split; [split; [lia|done]|lia].
Qed.

Lemma fails_same w s : fails w s → ∀ b, turn w b s = (b, Z.min (int64 (b * 2)) maxBackoff, s).
Proof. intros [e He] b. unfold M2m.turn. by rewrite He. Qed.

(** Failures in a row wait 2, 4, 8 seconds and so on, and five minutes at most. *)
Lemma failures_wait ws s i :
  (∀ w, w ∈ ws → fails w s) →
  (run ws (Z.min (initialBackoff * 2 ^ Z.of_nat i) maxBackoff) s).1
  = imap (λ j _, Z.min (initialBackoff * 2 ^ Z.of_nat (i + j)) maxBackoff) ws.
Proof.
  revert i. induction ws as [|w ws IH]; intros i Hf; [done|]. cbn [runClientCredentials].
  rewrite fails_same by (apply Hf; left). set (b := Z.min (initialBackoff * _) maxBackoff).
  assert (Hp : (1 ≤ 2 ^ Z.of_nat i)%Z) by (pose proof (Z.pow_pos_nonneg 2 (Z.of_nat i)); lia).
  assert (Hb : backoff_ok b) by (unfold backoff_ok, b, initialBackoff, maxBackoff; change second with 1000000000%Z; lia).
  rewrite next_backoff by done.
  replace (Z.min (b * 2) maxBackoff) with (Z.min (initialBackoff * 2 ^ Z.of_nat (S i)) maxBackoff).
  2: { unfold b, initialBackoff, maxBackoff. rewrite Nat2Z.inj_succ, Z.pow_succ_r by lia. change second with 1000000000%Z. lia. }
  specialize (IH (S i) ltac:(intros; apply Hf; by right)). destruct (run ws _ s) as [sleeps r]. cbn [fst] in *.
  rewrite IH, imap_cons. f_equal; [by rewrite Nat.add_0_r|]. apply imap_ext. intros j x _. unfold compose. by rewrite Nat.add_succ_r.
Qed.

(** The source before a turn. *)
Fixpoint before_turn (n : nat) (ws : list world) (b : Z) (s : Source) : Z * Source :=
  match n, ws with
  | S n, w :: ws => let '(_, b, s) := turn w b s in before_turn n ws b s
  | _, _ => (b, s)
  end.

(** C40: No turn of the loop waits less than a second, and a failed one waits its backoff,
    between two seconds and five minutes; failures in a row from the start wait twice as long
    each time, up to five minutes. A token whose lifetime is not below zero is renewed when
    [RenewBefore] of it is left, but not before half of it and not within a second: so within
    its life when it lives more than a second and [RenewBefore] is above zero. (With a
    [RenewBefore] of zero it is renewed at its end, and one that lives a second or less is
    renewed after a second.) *)
Theorem waits ws s :
  (0 ≤ RenewBefore cfg < 2 ^ 63)%Z →
  (∀ n w d, ws !! n = Some w → (run ws initialBackoff s).1 !! n = Some d →
     let '(b, s) := before_turn n ws initialBackoff s in backoff_ok b ∧ wait_ok w b d s)
  ∧ ((∀ w, w ∈ ws → fails w s) →
     (run ws initialBackoff s).1 = imap (λ j _, Z.min (initialBackoff * 2 ^ Z.of_nat j) maxBackoff) ws).
Proof.
  intros Hr. split.
  - assert (H0 : backoff_ok initialBackoff) by by vm_compute. revert H0. generalize initialBackoff as b. revert s.
    induction ws as [|v ws IH]; intros s b Hb n w d; [done|]. cbn [runClientCredentials].
    pose proof (turn_ok v b s Hr Hb) as Ht. destruct (turn v b s) as [[d1 b1] s1] eqn:Et. destruct Ht as [Hw Hb1].
    specialize (IH s1 b1 Hb1). destruct (run ws b1 s1) as [sleeps r]. cbn [fst] in *.
    destruct n as [|n]; cbn; [by intros [= <-] [= <-]|]. rewrite Et. apply IH.
  - intros Hf. apply (failures_wait ws s 0 Hf).
Qed.
End waits.

(** ** The token *)

(** A laws' instance: two texts have different digests, none the empty one. *)
Class DigestLaws (sha : Verify.Digest) : Prop := {
  hash_inj : Inj (=) (=) (hash_of (sha := sha));
  hash_nonempty : ∀ t, hash_of (sha := sha) t ≠ EmptyString;
}.

Section token.
Context {conversion : Conversion} {sha : Verify.Digest} (cfg : Config).

(** A token a world gave: in a file, or in an answer of the endpoint. *)
Definition given (w : world) (t : string) : Prop :=
  (∃ raw, files w (TokenFile cfg) = Content raw ∧ t = string_of (TrimSpace raw))
  ∨ ∃ id secret lifetime, fetchToken w (TokenURL cfg) id secret = Ok (t, lifetime).

(** The store and the source hold the same token, one that was given, or none yet. *)
Definition held (ws : list world) (s : Source) : Prop :=
  (ready s = false ∧ token s = EmptyString ∧ stored s = None)
  ∨ (ready s = true ∧ token s ≠ EmptyString ∧ stored s = Some (token s) ∧ ∃ w, w ∈ ws ∧ put_ok w = true ∧ given w (token s)).

Lemma fetchToken_nonempty w url id secret t lifetime : fetchToken w url id secret = Ok (t, lifetime) → t ≠ EmptyString.
Proof.
  unfold fetchToken. destruct (endpoint _ _ _) as [|code [all|]]; [done| |done]. intros H. apply bind_Ok in H as (? & _ & H).
  destruct (_ ≫= _) as [[t' e]|]; [|done]. apply bind_Ok in H as (? & Hc & H). apply check_Ok in Hc.
  assert (t' = t) as <-.
  { destruct (negb (Outbound.at_most_zero e)); [by injection H|]. apply bind_Ok in H as (y & _ & H). destruct (until y (now w) <? 0)%Z; [done|by injection H]. }
  intros ->. done.
Qed.

Lemma publish_held ws w s t s' :
  w ∈ ws → t ≠ EmptyString → given w t → publish (put_ok w) t s = Some s' → held ws s' ∧ token s' = t.
Proof.
  intros Hw Ht Hg. unfold publish. destruct (put_ok w) eqn:E; [|done]. intros [= <-]. split; [|done]. right.
  split_and!; [done..|]. by exists w.
Qed.

Lemma turn_held ws w b s : w ∈ ws → held ws s → held ws (turn cfg w b s).2.
Proof.
  intros Hw Hs. unfold turn. destruct (fetchAndPublish cfg w s) as [[l s']|e] eqn:E; [|done]. cbn. unfold fetchAndPublish in E.
  apply bind_Ok in E as (id & _ & E). apply bind_Ok in E as (secret & _ & E). apply bind_Ok in E as ([t l'] & Ht & E).
  destruct (publish _ _ _) as [s1|] eqn:Ep; [|done]. injection E as <- <-.
  eapply publish_held; [done|by eapply fetchToken_nonempty|right; eauto|done].
Qed.

Lemma checkFile_held ws w s : w ∈ ws → held ws s → held ws (checkFile cfg w s).2.
Proof.
  intros Hw Hs. unfold checkFile. destruct (files w _) as [| |raw] eqn:Ef; [done..|].
  destruct (is_empty _) eqn:Ee; [done|]. apply is_empty_false in Ee. destruct (eqb _ _); [done|].
  destruct (publish _ _ _) as [s1|] eqn:Ep; [|done]. cbn.
  apply (publish_held ws) in Ep as [[(?&?&?)|(?&?&?&?)] Ht]; [by left|by right|done..|]. left. eauto.
Qed.

Lemma runFile_held ws l s : l ⊆ ws → held ws s → held ws (runFile cfg l s).
Proof.
  revert s. induction l as [|w l IH]; intros s Hl Hs; [done|]. cbn.
  apply IH; [intros v Hv; apply Hl; by right|]. apply checkFile_held; [apply Hl; left|done].
Qed.

Lemma run_held ws l b s : l ⊆ ws → held ws s → held ws (runClientCredentials cfg l b s).2.2.
Proof.
  revert b s. induction l as [|w l IH]; intros b s Hl Hs; [done|]. cbn.
  pose proof (turn_held ws w b s ltac:(apply Hl; left) Hs) as Ht. destruct (turn cfg w b s) as [[d b1] s1]. cbn in Ht.
  specialize (IH b1 s1 ltac:(intros v Hv; apply Hl; by right) Ht). by destruct (runClientCredentials cfg l b1 s1).
Qed.

(** Whatever the files, the endpoint and the store answer, the token the pull presents and
    the one the decisions read from the store are the same, one that was given and is not
    empty, or neither is there yet. *)
Theorem token_stored ws : held ws (Run cfg ws).
Proof.
  assert (H0 : held ws New) by by left. unfold Run.
  destruct (is_empty (TokenURL cfg)); [by apply runFile_held|by apply run_held].
Qed.

(** What the file held at the last check the store took is the token. *)
Theorem file_followed {laws : DigestLaws sha} ws w raw :
  let t := string_of (TrimSpace raw) in
  files w (TokenFile cfg) = Content raw → t ≠ EmptyString → put_ok w = true →
  token (runFile cfg (ws ++ [w]) New) = t ∧ stored (runFile cfg (ws ++ [w]) New) = Some t.
Proof.
  cbn zeta. intros Hf Hne Hp. unfold runFile. rewrite fold_left_app. cbn.
  assert (Hi : ∀ s, hash s = EmptyString ∨ (hash s = hash_of (token s) ∧ stored s = Some (token s)) →
    let s' := fold_left (λ s w, (checkFile cfg w s).2) ws s in hash s' = EmptyString ∨ (hash s' = hash_of (token s') ∧ stored s' = Some (token s'))).
  { induction ws as [|v vs IH]; intros s Hs; [done|]. cbn. apply IH. unfold checkFile.
    destruct (files v _); [done..|]. destruct (is_empty _); [done|]. destruct (eqb _ _); [done|].
    unfold publish. destruct (put_ok v); [|done]. cbn. by right. }
  specialize (Hi New ltac:(by left)). cbn zeta in Hi. set (s := fold_left _ ws New) in *.
  unfold checkFile. rewrite Hf, (proj2 (is_empty_false _) Hne). destruct (eqb (hash_of _) (hash s)) eqn:E.
  - apply (proj1 (eqb_true _ _)) in E. destruct Hi as [Hi|[Hh Hi]]; [rewrite Hi in E; by apply hash_nonempty in E|].
    rewrite Hh in E. apply hash_inj in E. cbn. by rewrite Hi, E.
  - unfold publish. by rewrite Hp.
Qed.
End token.

(** ** Examples *)

#[local] Instance example_conversion : Conversion.
Proof. refine {| wild _ := MinInt64 |}. intros _. unfold in_int64, MinInt64. lia. Defined.
#[local] Instance example_hash : Verify.Digest := λ b, b.

Definition example_config : Config := withDefaults (MkConfig "http://idp/token" EmptyString EmptyString 0 EmptyString 0).

(** The endpoint answers with this lifetime. *)
Definition example_world (expires_in : string) : world :=
  MkWorld (λ _, Content (bytes_of "x"))
    (λ _ _, Outbound.Answered 200 (Some (Outbound.text ("{^access_token^:^t^,^expires_in^:" +:+ expires_in +:+ "}")))) true 0.
Definition example_down : world := MkWorld (λ _, Content (bytes_of "x")) (λ _ _, Outbound.NoAnswer) true 0.

(** A token of a minute, two failures and a token of an hour. *)
Example example_sleeps :
  let '(sleeps, (_, s)) := runClientCredentials example_config
    [example_world "60"; example_down; example_down; example_world "3600.0"] initialBackoff New in
  ((λ d, d / second)%Z <$> sleeps, s) = ([60; 2; 4; 3600]%Z, MkSource "t" EmptyString true (Some "t"%string)).
Proof. vm_compute. reflexivity. Qed.

(** A lifetime past 292 years is converted to a negative one where the machine gives the
    least integer; less a minute it wraps around, and the next renewal is 292 years away. *)
Example never_renewed :
  (turn (MkConfig "http://idp/token" "i" "s" (60 * second) "f" 1) (example_world "1e11") initialBackoff New).1.1
  = (2 ^ 63 - 60 * second)%Z.
Proof. vm_compute. reflexivity. Qed.

Lemma waits_witness :
  (runClientCredentials example_config [example_down; example_down; example_down] initialBackoff New).1
  = (λ z, z * second)%Z <$> [2; 4; 8]%Z.
Proof.
  destruct (waits example_config [example_down; example_down; example_down] New) as [_ H]; [vm_compute; split; [discriminate|reflexivity]|].
  rewrite H; [reflexivity|]. intros w Hw. exists RequestFailed.
  assert (Ew : w = example_down).
  { repeat (apply elem_of_cons in Hw as [->|Hw]; [reflexivity|]). by apply elem_of_nil in Hw. }
  rewrite Ew. vm_compute. reflexivity.
Defined.

End M2m.
