(* ===== verification/AnyValue.v ===== *)
(** * Values of the policy engine as JSON ([mustJSON] of [internal/legacy])

    A value of type [any] as the engine takes and returns it, and the encoder of
    [encoding/json] with [SetEscapeHTML(false)]. What it writes is read back by
    [jsonvalue.Decode] as the value written, its keys in order. *)
From S2P Require Import Prelude GoText Json Encoding GoCase JsonText Value Digits Authn.
Import GoText Encoding JsonText Digits.

Module AnyValue.

(** A Go value of type [any]: [Number] is a [json.Number], [Float] a [float64] by its sign and
    size, [Int] an [int]; the members of a [Map] have distinct keys and stand in the order an
    iteration takes them. *)
Inductive any :=
  | Nil
  | Bool (b : bool)
  | Number (text : string)
  | Float (negative : bool) (size : Z * Z)
  | Int (z : Z)
  | Str (s : string)
  | List (l : list any)
  | Map (m : list (string * any)).

Section induction.
Variable P : any → Prop.
Hypotheses (HNil : P Nil) (HBool : ∀ b, P (Bool b)) (HNumber : ∀ t, P (Number t)) (HFloat : ∀ n x, P (Float n x)).
Hypotheses (HInt : ∀ z, P (Int z)) (HStr : ∀ s, P (Str s)).
Hypotheses (HList : ∀ l, Forall P l → P (List l)) (HMap : ∀ m, Forall (λ kv, P kv.2) m → P (Map m)).

Fixpoint any_rect' (v : any) : P v :=
  match v with
  | Nil => HNil
  | Bool b => HBool b
  | Number t => HNumber t
  | Float n x => HFloat n x
  | Int z => HInt z
  | Str s => HStr s
  | List l => HList l ((fix every l := match l return Forall P l with [] => List.Forall_nil _ | v :: l => List.Forall_cons _ _ _ (any_rect' v) (every l) end) l)
  | Map m => HMap m ((fix every m := match m return Forall (λ kv, P kv.2) m with [] => List.Forall_nil _ | kv :: m => List.Forall_cons _ _ _ (any_rect' kv.2) (every m) end) m)
  end.
End induction.

(** The entry of a map, [None] where it has none. *)
Definition get (key : string) (m : list (string * any)) : option any := list_to_map (M := gmap string any) m !! key.

(** ** The encoder *)

(** A string, brackets and ampersands as they are. *)
Definition plain_body : bytes → bytes := body (write_rune plain_escaped).
Definition plain_string (s : string) : bytes := Json.quote :: plain_body (bytes_of s) ++ [Json.quote].

Definition write_array (items : list bytes) : bytes := "["%char :: Json.joined [","%char] items ++ ["]"%char].
Definition write_member (kv : string * bytes) : bytes := plain_string kv.1 ++ ":"%char :: kv.2.
Definition write_object (ms : list (string * bytes)) : bytes :=
  "{"%char :: Json.joined [","%char] (map write_member ms) ++ ["}"%char].

Definition key_le {A} (a b : string * A) : Prop := String.le a.1 b.1.
#[global] Instance key_le_dec {A} : RelDecision (@key_le A) := λ a b, String.le_dec a.1 b.1.
#[global] Instance key_le_total {A} : Total (@key_le A) := λ a b, String.le_total a.1 b.1.
#[global] Instance key_le_trans {A} : Transitive (@key_le A).
Proof. intros a b c. unfold key_le. apply transitivity. Qed.

(** The members of a map are written in the order of their keys. *)
Definition sort_members {A} : list (string * A) → list (string * A) := merge_sort key_le.

(** [isValidNumber]. *)
Definition isValidNumber (s : bytes) : bool :=
  match Json.scan_number s with
  | Some (_, []) => true
  | _ => false
  end.

(** [mustJSON]: [None] is its panic, for a number that is none. *)
Section encode.
Context {floats : Authn.JsonFloat}.

Fixpoint mustJSON (v : any) : option bytes :=
  match v with
  | Nil => Some (bytes_of "null")
  | Bool b => Some (bytes_of (if b then "true" else "false"))
  | Number t =>
      if is_empty t then Some ["0"%char]
      else if isValidNumber (bytes_of t) then Some (bytes_of t) else None
  | Float negative size => Some (Authn.json_float negative size)
  | Int z => Some (FormatInt z)
  | Str s => Some (plain_string s)
  | List l => write_array <$> mapM mustJSON l
  | Map m => (write_object ∘ sort_members) <$> mapM (λ kv, (λ t, (kv.1, t)) <$> mustJSON kv.2) m
  end.
End encode.

(** ** What a reader makes of it *)

(** The JSON value of a Go value: its texts without invalid bytes, its keys in order. *)
Definition valid_string (s : string) : string := string_of (valid_text (bytes_of s)).

Definition read_members (ms : list (string * Value.value)) : list (string * Value.value) :=
  fold_left Value.set_member (map (λ kv, (valid_string kv.1, kv.2)) ms) Value.NewObject.

Fixpoint of_any (v : any) : Value.value :=
  match v with
  | Nil => Value.Null
  | Bool b => Value.Bool b
  | Number t => Value.Number (if is_empty t then "0" else t)
  | Float _ _ => Value.Null
  | Int z => Value.Number (string_of (FormatInt z))
  | Str s => Value.Str (valid_string s)
  | List l => Value.List (map of_any l)
  | Map m => Value.Obj (read_members (sort_members (map (λ kv, (kv.1, of_any kv.2)) m)))
  end.

(** The values the engine returns: numbers as [json.Number], each a JSON number. *)
Fixpoint decided (v : any) : bool :=
  match v with
  | Number t => isValidNumber (bytes_of t)
  | Float _ _ | Int _ => false
  | List l => all decided l
  | Map m => all (λ kv, decided kv.2) m
  | _ => true
  end.

(** A decoder of JSON texts into [any], for examples. *)
Fixpoint any_of_json (v : Json.json) : any :=
  match v with
  | Json.JNull => Nil
  | Json.JBool b => Bool b
  | Json.JNum t => Number (string_of t)
  | Json.JStr body => Str (Unquote body)
  | Json.JArr _ items => List (map any_of_json items)
  | Json.JObj _ ms => Map (map_to_list (fold_left (λ (m : gmap string any) kv, <[kv.1 := kv.2]> m) (map (λ m, (Unquote m.1, any_of_json m.2)) ms) ∅))
  end.

Definition decode_any (b : bytes) : option any := any_of_json <$> Json.parse b.

(** A text with quotes, written with carets in their place. *)
Definition quoting (s : string) : bytes := (λ c, if eqb c "^"%char then Json.quote else c) <$> bytes_of s.

Example encoded :
  let floats := Authn.Build_JsonFloat (λ _ _, []) in
  mustJSON (Map [("b", List [Number "1e2"; Nil; Bool true]); ("a", Str "x<&>")])%string
  = Some (bytes_of "{" ++ Json.quoted "a" ++ bytes_of ":" ++ Json.quoted "x<&>" ++ bytes_of "," ++ Json.quoted "b" ++ bytes_of ":[1e2,null,true]}").
Proof. vm_compute. reflexivity. Qed.

(** ** What is written is read back *)

(** A text that is read as a value wherever a value may stand. *)
Definition reads (t : bytes) (w : Value.value) : Prop :=
  Json.opens t ∧ ∀ r, Json.stops r → ∃ f d j, Json.value f d (t ++ r) = Some (j, r) ∧ Value.of_json j = w.

Definition member_reads (t : string * bytes) (w : string * Value.value) : Prop := t.1 = w.1 ∧ reads t.2 w.2.

(** Fuel and nesting beyond what a reader took change nothing. *)
Lemma value_more f d s x f' d' : Json.value f d s = Some x → 1 + 2 * length s ≤ f' → d ≤ d' → Json.value f' d' s = Some x.
Proof. intros E Hf Hd. eapply (proj1 (Json.deeper f')); [|exact Hd]. by eapply (proj1 (Json.fuel_enough f)). Qed.

Lemma elements_kept f d s x f' d' : Json.elements f d s = Some x → 2 + 2 * length s ≤ f' → d ≤ d' → Json.elements f' d' s = Some x.
Proof. intros E Hf Hd. eapply (proj1 (proj2 (Json.deeper f'))); [|exact Hd]. by eapply (proj1 (proj2 (Json.fuel_enough f))). Qed.

Lemma fields_more f d s x f' d' : Json.fields f d s = Some x → 2 + 2 * length s ≤ f' → d ≤ d' → Json.fields f' d' s = Some x.
Proof. intros E Hf Hd. eapply (proj2 (proj2 (Json.deeper f'))); [|exact Hd]. by eapply (proj2 (proj2 (Json.fuel_enough f))). Qed.

Lemma scan_plain s r : Json.scan_string (plain_body s ++ Json.quote :: r) = Some (plain_body s, r).
Proof. exact (scan_body _ plain_written s r). Qed.

Lemma Unquote_plain s : Unquote (plain_body (bytes_of s)) = valid_string s.
Proof. exact (Unquote_body _ plain_written (bytes_of s)). Qed.

Lemma opens_quote t : Json.opens (Json.quote :: t).
Proof. by apply Json.opens_by_refl. Qed.

Lemma string_reads s : reads (plain_string s) (Value.Str (valid_string s)).
Proof.
  split; [apply opens_quote|]. intros r Hr. exists 1, 0, (Json.JStr (plain_body (bytes_of s))). split.
  - unfold plain_string. cbn [app Json.value]. change (eqb Json.quote Json.quote) with true. cbn iota.
    rewrite <-(assoc_L (++)). cbn [app]. by rewrite scan_plain.
  - cbn [Value.of_json]. by rewrite Unquote_plain.
Qed.

Lemma number_reads t : isValidNumber t = true → reads t (Value.Number (string_of t)).
Proof.
  unfold isValidNumber. destruct (Json.scan_number t) as [[n r]|] eqn:E; [|done]. destruct r; [|done]. intros _.
  pose proof (Json.scan_number_reads _ _ _ E) as (Et & (c & t' & Hc & Hs) & H). rewrite app_nil_r in Et. subst n.
  split; [by eapply Json.opens_number|]. intros r Hr. exists 1, 0, (Json.JNum t). split; [|done].
  specialize (H r (Json.stops_delimited _ Hr)). rewrite Hc in H |- *. cbn [app Json.value] in *.
  assert (Hn : ∀ x, x ∈ [Json.quote; "["; "{"; "n"; "t"; "f"]%char → eqb c x = false).
  { intros x Hx. apply eqb_false. intros ->. destruct Hs as [->|Hs]; repeat (apply elem_of_cons in Hx as [Hx|Hx]; [by subst|]); by apply elem_of_nil in Hx. }
  rewrite !Hn by (rewrite !elem_of_cons; tauto). by rewrite H.
Qed.

Lemma elements_read ts ws r :
  Forall2 reads ts ws → ts ≠ [] →
  Json.opens (Json.joined [","%char] ts)
  ∧ ∃ f d js, Json.elements f d (Json.joined [","%char] ts ++ "]"%char :: r) = Some (js, r) ∧ map Value.of_json js = ws.
Proof.
  intros H. induction H as [|t w ts ws (Ho & Ht) H IH]; [done|]. intros _. destruct H as [|t2 w2 ts ws H2 H].
  - split; [done|]. destruct (Ht ("]"%char :: r)) as (f & d & j & E & Ej); [right; by left|].
    exists (S f), d, [j]. cbn [Json.joined Json.elements]. rewrite E. cbn [mbind option_bind].
    rewrite Json.skip_cons, Json.expect_cons by done. split; [done|]. cbn. by rewrite Ej.
  - rewrite Json.joined_cons by done. split; [by apply Json.opens_app|]. destruct IH as (Ho2 & f2 & d2 & js & E2 & Ejs); [done|].
    set (rest := Json.joined [","%char] (t2 :: ts) ++ "]"%char :: r) in *.
    destruct (Ht (","%char :: rest)) as (f1 & d1 & j & E1 & Ej); [by left|].
    set (s := t ++ ","%char :: rest) in *. assert (∃ F, 2 + 2 * length s ≤ F) as [F HF] by eauto. exists (S F), (d1 `max` d2), (j :: js).
    assert (Hs : (t ++ [","%char] ++ Json.joined [","%char] (t2 :: ts)) ++ "]"%char :: r = s).
    { unfold s, rest. by rewrite <-!(assoc_L (++)). }
    rewrite Hs. cbn [Json.elements]. rewrite (value_more _ _ _ _ _ _ E1) by lia. cbn [mbind option_bind].
    rewrite Json.skip_cons, Json.expect_other, Json.expect_cons by done. cbn [mbind option_bind].
    rewrite (Json.opens_skip rest) by by apply Json.opens_app.
    assert (Hl : length rest ≤ length s) by (unfold s; rewrite length_app; cbn [length]; lia).
    rewrite (elements_kept _ _ _ _ _ _ E2) by lia. cbn [mbind option_bind map]. split; [done|]. by rewrite Ej, Ejs.
Qed.

Lemma array_reads ts ws : Forall2 reads ts ws → reads (write_array ts) (Value.List ws).
Proof.
  intros H. unfold write_array. split; [by apply Json.opens_by_refl|]. intros r Hr. destruct (decide (ts = [])) as [->|Hts].
  - apply Forall2_nil_inv_l in H as ->. eexists 1, 1, _. split; [reflexivity|done].
  - destruct (elements_read ts ws r H Hts) as (Ho & f & d & js & E & <-). eexists (S f), (S d), _. cbn [app Json.value].
    change (eqb "["%char Json.quote) with false. change (eqb "["%char "["%char) with true. cbn iota.
    rewrite <-(assoc_L (++)). cbn [app]. pose proof (Json.opens_app _ ("]"%char :: r) Ho) as Ho'.
    rewrite (Json.opens_skip _ Ho'), (Json.opens_expect _ "]"%char Ho'), E by auto. done.
Qed.

Lemma fields_read ts ws r :
  Forall2 member_reads ts ws → ts ≠ [] →
  Json.opens (Json.joined [","%char] (map write_member ts))
  ∧ ∃ f d js, Json.fields f d (Json.joined [","%char] (map write_member ts) ++ "}"%char :: r) = Some (js, r)
      ∧ map (λ m, (Unquote m.1, Value.of_json m.2)) js = map (λ kv, (valid_string kv.1, kv.2)) ws.
Proof.
  assert (Hw : ∀ kv, Json.opens (write_member kv)) by (intros kv; apply opens_quote).
  assert (Hm : ∀ k t s, write_member (k, t) ++ s = Json.quote :: plain_body (bytes_of k) ++ Json.quote :: ":"%char :: t ++ s).
  { intros k t s. unfold write_member, plain_string. cbn [app]. by rewrite <-!(assoc_L (++)). }
  intros H. induction H as [|[k t] [k' w] ts ws (Hk & Ho & Ht) H IH]; [done|]. cbn in Hk, Ho, Ht. subst k'. intros _.
  destruct H as [|t2 w2 ts ws H2 H].
  - split; [apply Hw|]. destruct (Ht ("}"%char :: r)) as (f & d & j & E & Ej); [right; right; by left|].
    exists (S f), d, [(plain_body (bytes_of k), j)]. cbn [map Json.joined Json.fields]. rewrite Hm, Json.expect_cons. cbn [mbind option_bind].
    rewrite scan_plain. cbn [mbind option_bind]. rewrite Json.skip_cons, Json.expect_cons by done. cbn [mbind option_bind].
    rewrite (Json.opens_skip (t ++ _)) by by apply Json.opens_app. rewrite E. cbn [mbind option_bind].
    rewrite Json.skip_cons, Json.expect_cons by done. split; [done|]. cbn [map fst snd]. by rewrite Ej, Unquote_plain.
  - cbn [map]. rewrite Json.joined_cons by done. split; [apply Json.opens_app, Hw|]. destruct IH as (Ho2 & f2 & d2 & js & E2 & Ejs); [done|].
    set (rest := Json.joined [","%char] (map write_member (t2 :: ts)) ++ "}"%char :: r) in *. cbn [map] in rest.
    destruct (Ht (","%char :: rest)) as (f1 & d1 & j & E1 & Ej); [by left|].
    set (s := t ++ ","%char :: rest) in *. assert (∃ F, 2 + 2 * length s ≤ F) as [F HF] by eauto. exists (S F), (d1 `max` d2), ((plain_body (bytes_of k), j) :: js).
    rewrite <-!(assoc_L (++)). rewrite Hm. cbn [app]. fold rest. fold s. cbn [Json.fields]. rewrite Json.expect_cons. cbn [mbind option_bind].
    rewrite scan_plain. cbn [mbind option_bind]. rewrite Json.skip_cons, Json.expect_cons by done. cbn [mbind option_bind].
    rewrite (Json.opens_skip s) by by apply Json.opens_app.
    rewrite (value_more _ _ _ _ _ _ E1) by lia. cbn [mbind option_bind].
    rewrite Json.skip_cons, Json.expect_other, Json.expect_cons by done. cbn [mbind option_bind].
    rewrite (Json.opens_skip rest) by by apply Json.opens_app.
    assert (Hl : length rest ≤ length s) by (unfold s; rewrite length_app; cbn [length]; lia).
    rewrite (fields_more _ _ _ _ _ _ E2) by lia. cbn [mbind option_bind map]. split; [done|]. cbn [fst snd]. by rewrite Ejs, Unquote_plain, Ej.
Qed.

Lemma object_reads ts ws : Forall2 member_reads ts ws → reads (write_object ts) (Value.Obj (read_members ws)).
Proof.
  intros H. unfold write_object. split; [by apply Json.opens_by_refl|]. intros r Hr. destruct (decide (ts = [])) as [->|Hts].
  - apply Forall2_nil_inv_l in H as ->. eexists 1, 1, _. split; [reflexivity|done].
  - destruct (fields_read ts ws r H Hts) as (Ho & f & d & js & E & Ejs). eexists (S f), (S d), _. cbn [app Json.value].
    change (eqb "{"%char Json.quote) with false. change (eqb "{"%char "["%char) with false. change (eqb "{"%char "{"%char) with true. cbn iota.
    rewrite <-(assoc_L (++)). cbn [app]. pose proof (Json.opens_app _ ("}"%char :: r) Ho) as Ho'.
    rewrite (Json.opens_skip _ Ho'), (Json.opens_expect _ "}"%char Ho'), E by auto. split; [done|]. cbn [Value.of_json]. by rewrite Ejs.
Qed.

(** A text that reads as a value is decoded to it. *)
Lemma reads_Decode t w : reads t w → Value.Decode t = Some w.
Proof.
  intros (Ho & H). destruct (H []) as (f & d & j & E & <-); [done|]. rewrite app_nil_r in E.
  apply Value.Decode_unbounded. exists f, d, j, []. by rewrite (Json.opens_skip _ Ho).
Qed.

(** ** Sorting by key *)

(** Lists whose elements match pairwise match when both are sorted. *)
Section sorted_alike.
Context {A B : Type} (RA : relation A) (RB : relation B) `{!RelDecision RA, !RelDecision RB} (P : A → B → Prop).
Hypothesis HP : ∀ a b a' b', P a b → P a' b' → RA a a' ↔ RB b b'.

Lemma list_merge_alike l1 k1 l2 k2 : Forall2 P l1 k1 → Forall2 P l2 k2 → Forall2 P (list_merge RA l1 l2) (list_merge RB k1 k2).
Proof.
  intros H1. revert l2 k2. induction H1 as [|a b l1 k1 Hab H1 IH]; intros l2 k2 H2; [by destruct H2; constructor|].
  induction H2 as [|a' b' l2 k2 Hab' H2 IH2]; [by constructor|]. cbn [list_merge].
  pose proof (HP _ _ _ _ Hab Hab') as HR.
  destruct (decide_rel RA a a') as [H|H], (decide_rel RB b b') as [H'|H']; try (exfalso; tauto); constructor; try done.
  apply IH. by constructor.
Qed.

Lemma merge_stack_alike st st' l k : Forall2 (option_Forall2 (Forall2 P)) st st' → Forall2 P l k →
  Forall2 (option_Forall2 (Forall2 P)) (merge_list_to_stack RA st l) (merge_list_to_stack RB st' k).
Proof.
  intros H. revert l k. induction H as [|o o' st st' Ho H IH]; intros l k Hl; cbn [merge_list_to_stack]; [by repeat constructor|].
  destruct Ho as [l' k' Ho|]; constructor; try constructor; try done. apply IH. by apply list_merge_alike.
Qed.

Lemma merge_sort_aux_alike l k st st' : Forall2 P l k → Forall2 (option_Forall2 (Forall2 P)) st st' →
  Forall2 P (merge_sort_aux RA st l) (merge_sort_aux RB st' k).
Proof.
  intros H. revert st st'. induction H as [|a b l k Hab H IH]; intros st st' Hst; cbn [merge_sort_aux].
  - induction Hst as [|o o' st st' Ho H IH]; cbn [merge_stack]; [constructor|].
    destruct Ho; [by apply list_merge_alike|done].
  - apply IH, merge_stack_alike; [done|]. by repeat constructor.
Qed.

Lemma merge_sort_alike l k : Forall2 P l k → Forall2 P (merge_sort RA l) (merge_sort RB k).
Proof. intros H. by apply merge_sort_aux_alike. Qed.
End sorted_alike.

Lemma sort_members_alike {A B} (P : string * A → string * B → Prop) l k :
  (∀ a b, P a b → a.1 = b.1) → Forall2 P l k → Forall2 P (sort_members l) (sort_members k).
Proof.
  intros HP. apply merge_sort_alike. intros a b a' b' E%HP E'%HP. unfold key_le. by rewrite E, E'.
Qed.

Lemma sort_members_keys {A} (l : list (string * A)) : (sort_members l).*1 = sort_strings l.*1.
Proof.
  apply (StronglySorted_unique String.le).
  - apply (StronglySorted_fmap fst key_le); [done|]. apply StronglySorted_merge_sort; apply _.
  - apply StronglySorted_merge_sort; apply _.
  - unfold sort_members, sort_strings. by rewrite !merge_sort_Permutation.
Qed.

Lemma sort_members_perm {A} (l : list (string * A)) : sort_members l ≡ₚ l.
Proof. apply merge_sort_Permutation. Qed.

Section encoder.
Context {floats : Authn.JsonFloat}.

Lemma written_reads v : decided v = true → ∃ t, mustJSON v = Some t ∧ reads t (of_any v).
Proof.
  induction v as [|b|t|n x|z|s|l IH|m IH] using any_rect'; cbn [decided mustJSON of_any]; intros H; try done.
  - eexists. split; [done|]. split; [by apply Json.opens_by_refl|]. intros r Hr. by eexists 1, 0, Json.JNull.
  - eexists. split; [done|]. split; [by destruct b; apply Json.opens_by_refl|]. intros r Hr. exists 1, 0, (Json.JBool b). by destruct b.
  - destruct (is_empty t) eqn:Et; [apply is_empty_true in Et as ->; done|]. rewrite H. eexists. split; [done|].
    apply number_reads in H. by rewrite string_of_bytes_of in H.
  - eexists. split; [done|]. apply string_reads.
  - apply all_Forall in H. assert (∃ ts, mapM mustJSON l = Some ts ∧ Forall2 reads ts (map of_any l)) as (ts & -> & Hts).
    { clear -IH H. induction l as [|v l IHl]; [by exists []|]. apply Forall_cons in IH as [Hv IH], H as [Dv H].
      destruct (Hv Dv) as (t & Et & Rt), (IHl IH H) as (ts & Ets & Rts). exists (t :: ts). cbn [mapM map]. rewrite Et, Ets. split; [done|]. by constructor. }
    eexists. split; [done|]. by apply array_reads.
  - apply all_Forall in H.
    assert (∃ ts, mapM (λ kv, (λ t, (kv.1, t)) <$> mustJSON kv.2) m = Some ts ∧ Forall2 member_reads ts (map (λ kv, (kv.1, of_any kv.2)) m)) as (ts & -> & Hts).
    { clear -IH H. induction m as [|[k v] m IHm]; [by exists []|]. apply Forall_cons in IH as [Hv IH], H as [Dv H]. cbn [snd] in *.
      destruct (Hv Dv) as (t & Et & Rt), (IHm IH H) as (ts & Ets & Rts). exists ((k, t) :: ts). cbn [mapM map fst snd]. rewrite Et. cbn [fmap option_fmap option_map mbind option_bind].
      rewrite Ets. split; [done|]. by constructor. }
    eexists. split; [done|]. cbn [compose]. apply object_reads, sort_members_alike; [|done]. by intros a b [??].
Qed.

(** What the encoder writes of a value of the engine is decoded to that value: nothing is
    refused, the keys stand in order, and only invalid bytes of texts are replaced. *)
Theorem mustJSON_trip v : decided v = true → ∃ t, mustJSON v = Some t ∧ Value.Decode t = Some (of_any v).
Proof. intros (t & E & R)%written_reads. exists t. split; [done|]. by apply reads_Decode. Qed.
End encoder.

(** ** Members *)

Lemma read_members_id ms :
  Forall (λ k, valid_string k = k) ms.*1 → NoDup ms.*1 → read_members ms = ms.
Proof.
  intros Hv Hn. unfold read_members.
  assert (E : map (λ kv : string * Value.value, (valid_string kv.1, kv.2)) ms = ms).
  { clear Hn. induction ms as [|[k v] ms IH]; [done|]. apply Forall_cons in Hv as [Hk Hv]. cbn [map fst snd] in *. by rewrite IH, Hk. }
  rewrite E. by apply (Value.members_distinct ms []).
Qed.

(** The values of a decision are values of the engine. *)
Lemma decided_get m k v : decided (Map m) = true → get k m = Some v → decided v = true.
Proof.
  cbn [decided]. intros H Hg. unfold get in Hg. apply elem_of_list_to_map_2 in Hg. apply all_Forall in H. rewrite Forall_forall in H. by apply (H (k, v)).
Qed.

(** The text that [json.Marshal] writes of a text that is valid UTF-8 is read as that text. *)
Lemma valid_ascii s : GoCase.is_ascii (bytes_of s) → valid_string s = s.
Proof.
  intros H. unfold valid_string. rewrite <-(string_of_bytes_of s) at 2. f_equal. unfold valid_text. rewrite (GoCase.runes_ascii _ H).
  clear -H. induction H as [|c l Hc H IH]; [done|]. cbn [fmap list_fmap map concat]. rewrite IH. unfold valid_rune. cbn [fst snd].
  rewrite (proj2 (eqb_false (N_of_ascii c) RuneError)); [done|]. intros E. rewrite E in Hc. done.
Qed.

End AnyValue.
