(* ===== verification/RegoValues.v ===== *)
(** * Values of the policy library as JSON ([internal/jsonvalue/value.go], [internal/regobuiltins])

    [FromASTKnown] reads a value of the policy library; [Documents] remembers the JSON a term of
    a query's input was built from, so that [JSONOf] gives a built-in function the members in
    the order of the document; [CompilePath] keeps compiled paths. The values of the library
    are data; an array or an object has an identity, which is what a Go map keyed by its pointer
    tells apart, and the order of an object's keys is an interface. *)
From S2P Require Import Prelude GoText Value AnyValue PathTokens Filter JsonPath.
Import GoText Value JaywayText PathTokens JsonPath.

Module RegoValues.

(** [ast.Value]: a number by its text, an array and an object with their identity; the members
    of an object stand in the order of [Keys]. [AOther] is any other value, such as a set. *)
Inductive ast :=
  | ANull
  | ABoolean (b : bool)
  | ANumber (text : string)
  | AString (s : string)
  | AArray (r : nat) (l : list ast)
  | AObject (r : nat) (members : list (ast * ast))
  | AOther.

Definition ref (v : ast) : option nat :=
  match v with
  | AArray r _ | AObject r _ => Some r
  | _ => None
  end.

(** The members of an object made of items, in the order of [Keys]; keys that are strings are
    sorted. *)
Class AstObjects := { object_of : list (ast * ast) → list (ast * ast) }.

Definition item (m : string * ast) : ast * ast := (AString m.1, m.2).

Class AstLaws (A : AstObjects) : Prop := {
  sorted_object ms : NoDup ms.*1 → object_of (item <$> ms) = item <$> AnyValue.sort_members ms;
}.

(** ** Reading a value ([FromASTKnown]) *)

Section read.
Variable known : ast → option value.

Fixpoint FromASTKnown (v : ast) : option value :=
  match v with
  | ANull => Some Null
  | ABoolean b => Some (Bool b)
  | ANumber t => Some (Number t)
  | AString s => Some (Str s)
  | AArray _ l =>
      match known v with
      | Some j => Some j
      | None => List <$> mapM FromASTKnown l
      end
  | AObject _ ms =>
      match known v with
      | Some j => Some j
      | None =>
          es ← mapM (λ m, ks ← (match m.1 with AString s => Some s | _ => None end); e ← FromASTKnown m.2; Some (ks, e)) ms;
          Some (Obj (fold_left set_member es NewObject))
      end
  | AOther => None
  end.
End read.

(** [FromAST]. *)
Definition FromAST : ast → option value := FromASTKnown (λ _, None).

(** ** Building terms ([Documents]) *)

(** [Documents], with the identity the next value made gets. *)
Record Documents := MkDocuments { json : gmap nat value; fresh : nat }.

Definition NewDocuments (next : nat) : Documents := MkDocuments ∅ next.

Section documents.
Context {objects : AstObjects}.

(** A loop that makes a term of each item. *)
Section loop.
Context {A B : Type} (make : A → Documents → B * Documents).

Fixpoint in_order (l : list A) (d : Documents) : list B * Documents :=
  match l with
  | [] => ([], d)
  | e :: l => let '(t, d) := make e d in let '(ts, d) := in_order l d in (t :: ts, d)
  end.
End loop.

(** A value made, which the documents remember. *)
Definition made (make : nat → ast) (v : value) (d : Documents) : ast * Documents :=
  (make (fresh d), MkDocuments (<[fresh d := v]> (json d)) (S (fresh d))).

(** [Documents.value]; the keys of an object are distinct, so [Get] gives each its member. *)
Fixpoint term_of (v : value) (d : Documents) : ast * Documents :=
  match v with
  | Null => (ANull, d)
  | Bool b => (ABoolean b, d)
  | Number t => (ANumber t, d)
  | Str s => (AString s, d)
  | List l => let '(ts, d) := in_order term_of l d in made (λ r, AArray r ts) v d
  | Obj o =>
      let '(ts, d) := in_order (λ m d, let '(t, d) := term_of m.2 d in ((m.1, t), d)) o d in
      made (λ r, AObject r (object_of (item <$> ts))) v d
  end.

(** [Documents.Term]. *)
Definition Term (d : Documents) (v : value) : ast * Documents := term_of v d.
End documents.

(** ** Reading an argument ([JSONOf]) *)

(** What the documents of a query know. *)
Definition known_of (docs : option Documents) (v : ast) : option value := d ← docs; r ← ref v; json d !! r.

(** The built-in cache of a query, where it has one. *)
Notation cache := (option (gmap nat value)) (only parsing).

Definition JSONOf (docs : option Documents) (c : cache) (t : ast) : option value * cache :=
  match ref t, c with
  | Some r, Some m =>
      match m !! r with
      | Some j => (Some j, c)
      | None =>
          match FromASTKnown (known_of docs) t with
          | Some j => (Some j, Some (<[r := j]> m))
          | None => (None, c)
          end
      end
  | _, _ => (FromASTKnown (known_of docs) t, c)
  end.

(** ** Compiled paths ([CompilePath]) *)

Definition maxPaths : nat := Z.to_nat 4096.

Section paths.
Context {table : UnicodeTable} {numbers : NumberTable} {engine : Filter.RegexpEngine}.

(** The second half of [CompilePath], under the write lock. *)
Definition store_path (s : string) (p : list step) (m : gmap string (list step)) : gmap string (list step) :=
  <[s := p]> (if maxPaths <=? size m then ∅ else m).

Definition CompilePath (s : string) (m : gmap string (list step)) : option (list step) * gmap string (list step) :=
  match m !! s with
  | Some p => (Some p, m)
  | None =>
      match Compile s with
      | Some p => (Some p, store_path s p m)
      | None => (None, m)
      end
  end.
End paths.

(** ** A term is read as the value it was built from *)

Definition fresh_ok (d : Documents) : Prop := ∀ r, is_Some (json d !! r) → r < fresh d.
Definition extends (d e : Documents) : Prop := json d ⊆ json e ∧ fresh d ≤ fresh e.

#[global] Instance extends_preorder : PreOrder extends.
Proof.
  split; [done|]. intros a b c [H1 H2] [H3 H4]. split; [by etrans|lia].
Qed.

(** A term of the documents, at every depth. *)
Inductive holds (d : Documents) : ast → value → Prop :=
  | holds_null : holds d ANull Null
  | holds_bool b : holds d (ABoolean b) (Bool b)
  | holds_number t : holds d (ANumber t) (Number t)
  | holds_str s : holds d (AString s) (Str s)
  | holds_list r ts l : json d !! r = Some (List l) → Forall2 (holds d) ts l → holds d (AArray r ts) (List l)
  | holds_obj r ts o :
      json d !! r = Some (Obj o) → NoDup (Keys o) → Forall2 (λ a m, a.1 = m.1 ∧ holds d a.2 m.2) ts o →
      holds d (AObject r (item <$> AnyValue.sort_members ts)) (Obj o).

(** A value inside a term, and the one inside the value of the term at its place. *)
Inductive inside : ast → value → ast → value → Prop :=
  | inside_self t v : inside t v t v
  | inside_list r ts l i a b u w : ts !! i = Some a → l !! i = Some b → inside a b u w → inside (AArray r ts) (List l) u w
  | inside_obj r ms o k a b u w : (AString k, a) ∈ ms → Get k o = Some b → inside a b u w → inside (AObject r ms) (Obj o) u w.

(** A value with the members of its objects sorted by key. *)
Fixpoint ordered (v : value) : value :=
  match v with
  | List l => List (map ordered l)
  | Obj o => Obj (AnyValue.sort_members (map (λ m, (m.1, ordered m.2)) o))
  | v => v
  end.

Lemma Forall2_under {A B} (P R : A → B → Prop) (Q : B → Prop) l k :
  Forall Q k → (∀ a b, Q b → P a b → R a b) → Forall2 P l k → Forall2 R l k.
Proof. intros HQ HR H. revert HQ. induction H as [|a b l k Hab _ IH]; intros HQ; [done|]. decompose_Forall_hyps. eauto. Qed.

Lemma holds_later v : ∀ d e t, json d ⊆ json e → holds d t v → holds e t v.
Proof.
  induction v as [|b|n|s|l IH|o IH] using value_rect'; intros d e t Hd H; inversion H; subst; try by constructor.
  - constructor; [by eapply lookup_weaken|]. eapply Forall2_under; [exact IH| |done]. cbn. eauto.
  - constructor; [by eapply lookup_weaken|done|]. eapply Forall2_under; [exact IH| |done]. cbn. intros a m Hm [??]. eauto.
Qed.

(** What each round of a loop does, the loop does. *)
Lemma in_order_holds {A B} (make : A → Documents → B * Documents) (P : Documents → B → A → Prop) l :
  (∀ d e t a, json d ⊆ json e → P d t a → P e t a) →
  Forall (λ a, ∀ d t e, fresh_ok d → make a d = (t, e) → P e t a ∧ extends d e ∧ fresh_ok e) l →
  ∀ d ts e, fresh_ok d → in_order make l d = (ts, e) → Forall2 (P e) ts l ∧ extends d e ∧ fresh_ok e.
Proof.
  intros Hlater H. induction H as [|a l Ha _ IH]; intros d ts e Hd E; cbn [in_order] in E.
  - apply pair_equal_spec in E as [<- <-]. done.
  - destruct (make a d) as [t d1] eqn:E1, (in_order make l d1) as [ts' d2] eqn:E2. apply pair_equal_spec in E as [<- <-].
    destruct (Ha _ _ _ Hd E1) as (H1 & H2 & H3). destruct (IH _ _ _ H3 E2) as (H4 & H5 & H6).
    split_and!; [|by etrans|done]. constructor; [|done]. eapply Hlater; [apply H5|done].
Qed.

Lemma made_holds make v d t e :
  fresh_ok d → made make v d = (t, e) → t = make (fresh d) ∧ json e !! fresh d = Some v ∧ extends d e ∧ fresh_ok e.
Proof.
  intros Hd [<- <-]%pair_equal_spec. cbn [json fresh]. split_and!; [done|apply lookup_insert_eq| |].
  - split; [|cbn; lia]. apply insert_subseteq. destruct (json d !! fresh d) eqn:E; [|done]. assert (fresh d < fresh d) by (apply Hd; by rewrite E). lia.
  - intros r. cbn [json fresh]. intros Hr. destruct (decide (r = fresh d)) as [->|]; [lia|]. rewrite lookup_insert_ne in Hr by done. apply Hd in Hr. lia.
Qed.

Section laws.
Context `{laws : AstLaws}.

Lemma term_holds v : wf v → ∀ d t e, fresh_ok d → term_of v d = (t, e) → holds e t v ∧ extends d e ∧ fresh_ok e.
Proof.
  induction v as [|b|n|s|l IH|o IH] using value_rect'; intros Hv d t e Hd E; cbn [term_of] in E;
    try (apply pair_equal_spec in E as [<- <-]; by repeat constructor).
  - inversion Hv as [| | | |? Hl|]; subst. destruct (in_order term_of l d) as [ts d1] eqn:E1.
    apply (in_order_holds term_of holds) in E1 as (H1 & H2 & H3); [|by intros ????; apply holds_later| |done].
    2: { apply Forall_forall. intros v Hin. rewrite Forall_forall in IH. rewrite Forall_forall in Hl. by apply IH, Hl. }
    apply made_holds in E as (-> & H4 & H5 & H6); [|done]. split_and!; [|by etrans|done]. constructor; [done|].
    eapply Forall2_impl; [exact H1|]. intros ??. apply holds_later, H5.
  - inversion Hv as [| | | | |? Hn Ho]; subst. destruct (in_order _ o d) as [ts d1] eqn:E1.
    apply (in_order_holds _ (λ d a m, a.1 = m.1 ∧ holds d a.2 m.2)) in E1 as (H1 & H2 & H3); [| | |done].
    2: { intros ???? Hs [??]. split; [done|]. by eapply holds_later. }
    2: { apply Forall_forall. intros [k v] Hin d0 [k' t'] e0 Hd0 E0. rewrite Forall_forall in IH. rewrite Forall_forall in Ho. cbn [fst snd] in *.
         destruct (term_of v d0) as [t0 d2] eqn:E2. apply pair_equal_spec in E0 as [[= -> ->] ->].
         destruct (IH _ Hin (Ho _ Hin) _ _ _ Hd0 E2) as (?&?&?). done. }
    apply made_holds in E as (-> & H4 & H5 & H6); [|done]. split_and!; [|by etrans|done].
    assert (Hk : ts.*1 = Keys o) by (unfold Keys; clear -H1; induction H1 as [|? ? ? ? [Ea _] _ IH]; [done|]; rewrite !fmap_cons; by rewrite Ea, IH).
    rewrite sorted_object by by rewrite Hk. constructor; [done|done|].
    eapply Forall2_impl; [exact H1|]. intros ?? [??]. split; [done|]. eapply holds_later; [apply H5|done].
Qed.
End laws.

Lemma inside_holds t v u w d : inside t v u w → holds d t v → holds d u w.
Proof.
  intros H. induction H as [|r ts l i a b u w Ha Hb _ IH|r ms o k a b u w Ha Hb _ IH]; intros Ht; [done| |]; apply IH; inversion Ht as [| | | |? ? ? ? HF|? ts1 ? ? Hn HF]; subst.
  - by eapply (Forall2_lookup_lr _ _ _ i).
  - apply list_elem_of_fmap in Ha as ([k' a'] & E & Hin). apply pair_equal_spec in E as [[= ->] ->]. cbn [fst snd] in *.
    rewrite AnyValue.sort_members_perm in Hin. apply list_elem_of_lookup in Hin as [i Hi].
    destruct (Forall2_lookup_l _ _ _ _ _ HF Hi) as ([k m] & Hm & E & Hh). cbn [fst snd] in *. subst.
    assert (Get k o = Some m) by (apply Get_member; [done|]; by eapply list_elem_of_lookup_2). congruence.
Qed.

Lemma holds_known d t v : holds d t v → FromASTKnown (known_of (Some d)) t = Some v.
Proof. intros H. destruct H as [| | | |r ts l Hr _|r ts o Hr _ _]; cbn [FromASTKnown]; try done; unfold known_of; cbn [mbind option_bind ref]; by rewrite Hr. Qed.

Lemma holds_ordered d v : ∀ t, holds d t v → FromAST t = Some (ordered v).
Proof.
  induction v as [|b|n|s|l IH|o IH] using value_rect'; intros t H; inversion H as [| | | |? ts1 ? ? HF|? ts1 ? ? Hn HF]; subst; unfold FromAST in *; cbn [FromASTKnown ordered]; try done.
  - rewrite (mapM_Some_2 _ _ (map ordered l)); [done|]. apply Forall2_fmap_r. eapply Forall2_under; [exact IH| |done]. cbn. eauto.
  - rewrite (mapM_Some_2 _ _ (AnyValue.sort_members (map (λ m, (m.1, ordered m.2)) o))).
    + cbn [mbind option_bind]. do 2 f_equal. apply (members_distinct _ []). cbn [app]. unfold Keys. rewrite AnyValue.sort_members_perm. by rewrite <-list_fmap_compose.
    + apply Forall2_fmap_l. eapply (Forall2_impl (λ a m, a.1 = m.1 ∧ FromASTKnown (λ _, None) a.2 = Some m.2)).
      * apply AnyValue.sort_members_alike; [by intros ?? []|]. apply Forall2_fmap_r.
        eapply Forall2_under; [exact IH| |exact HF]. cbn. intros [k a] [k' m] Hm [<- Ha]. eauto.
      * intros [k a] [k' m] [Hk Ha]. cbn in *. subst. by rewrite Ha.
Qed.

(** ** The built-in cache *)

Section cached.
Context (docs : option Documents) (ts : list ast).

(** Among the terms of a query one identity is one term. *)
Definition one_ref : Prop := ∀ t u r, t ∈ ts → u ∈ ts → ref t = Some r → ref u = Some r → t = u.

(** What the cache holds of them is what reading them gives. *)
Definition cached (c : cache) : Prop :=
  ∀ m t r j, c = Some m → t ∈ ts → ref t = Some r → m !! r = Some j → FromASTKnown (known_of docs) t = Some j.

Lemma JSONOf_cached c t :
  one_ref → t ∈ ts → cached c → (JSONOf docs c t).1 = FromASTKnown (known_of docs) t ∧ cached (JSONOf docs c t).2.
Proof.
  intros Hone Ht Hc. unfold JSONOf. destruct (ref t) as [r|] eqn:Er; [|done]. destruct c as [m|]; [|done].
  destruct (m !! r) as [j|] eqn:Em; [split; [symmetry; by eapply Hc|done]|].
  destruct (FromASTKnown (known_of docs) t) as [j|] eqn:Ej; [|done]. split; [done|].
  intros m' u r' j' [= <-] Hu Er'. destruct (decide (r' = r)) as [->|].
  - rewrite lookup_insert_eq. intros [= <-]. by rewrite (Hone u t r).
  - rewrite lookup_insert_ne by done. by apply Hc.
Qed.
End cached.

(** The calls of a query, which share its cache. *)
Fixpoint read_all (docs : option Documents) (c : cache) (ts : list ast) : list (option value) :=
  match ts with
  | [] => []
  | t :: ts => let '(j, c) := JSONOf docs c t in j :: read_all docs c ts
  end.

(** Whatever a query asks for in whatever order, and however often, its cache changes no
    answer: each call of [JSONOf] gives what reading the term without a cache gives. *)
Theorem read_all_exact docs ts : one_ref ts → read_all docs (Some ∅) ts = FromASTKnown (known_of docs) <$> ts.
Proof.
  intros Hone. assert (H : ∀ us c, (∀ u, u ∈ us → u ∈ ts) → cached docs ts c → read_all docs c us = FromASTKnown (known_of docs) <$> us).
  { intros us. induction us as [|u us IH]; intros c Hin Hc; [done|]. cbn [read_all]. rewrite fmap_cons.
    destruct (JSONOf_cached docs ts c u Hone (Hin u ltac:(by left)) Hc) as [E Hc']. destruct (JSONOf docs c u) as [j c']. cbn [fst snd] in *.
    rewrite E, IH; [done| |done]. intros x Hx. apply Hin. by right. }
  apply H; [done|]. intros m t r j [= <-] _ _ Hm. done.
Qed.

(** C17: the JSON of a document reaches a built-in function as it is: whatever [Term] built it from,
    [JSONOf] reads the term, and each value at any depth of it, as the value of the document at
    that place, members in its order, also when the documents hold more by then; without the
    documents, the members come sorted by key. *)
Theorem JSONOf_document `{laws : AstLaws} d v t d' later u w :
  wf v → fresh_ok d → Term d v = (t, d') → json d' ⊆ json later → inside t v u w →
  (JSONOf (Some later) None u).1 = Some w ∧ FromAST u = Some (ordered w).
Proof.
  intros Hv Hd Et Hl Hin. destruct (term_holds v Hv d t d' Hd Et) as (H & _ & _).
  apply (inside_holds t v u w d' Hin) in H. split; [|by eapply holds_ordered].
  unfold JSONOf. eapply holds_later, holds_known in H; [|done]. by destruct (ref u).
Qed.

(** Objects whose keys are strings, in their order. *)
Definition string_item (m : ast * ast) : option (string * ast) :=
  match m.1 with
  | AString k => Some (k, m.2)
  | _ => None
  end.

#[local] Instance sorted_objects : AstObjects := { object_of ms := item <$> AnyValue.sort_members (omap string_item ms) }.

#[local] Instance sorted_objects_laws : AstLaws sorted_objects.
Proof.
  constructor. intros ms _. cbn [object_of sorted_objects]. do 2 f_equal. induction ms as [|[k v] ms IH]; [done|].
  rewrite fmap_cons. cbn. by rewrite IH.
Qed.

Definition sample : value := Obj [("b", List [Number "5.0"]); ("a", Obj [("z", Null); ("c", Bool true)])]%string.

Lemma JSONOf_document_witness :
  (JSONOf (Some (Term (NewDocuments 0) sample).2) None (Term (NewDocuments 0) sample).1).1 = Some sample
  ∧ FromAST (Term (NewDocuments 0) sample).1 = Some (Obj [("a", Obj [("c", Bool true); ("z", Null)]); ("b", List [Number "5.0"])]%string).
Proof.
  apply (JSONOf_document (NewDocuments 0) sample (Term (NewDocuments 0) sample).1 (Term (NewDocuments 0) sample).2 (Term (NewDocuments 0) sample).2 (Term (NewDocuments 0) sample).1 sample).
  - assert (Hd : ∀ l : list string, bool_decide (NoDup l) = true → NoDup l) by (intros l; apply bool_decide_eq_true).
    repeat (first [apply Hd; vm_compute; reflexivity|constructor]).
  - intros r [v Hv]. done.
  - apply surjective_pairing.
  - reflexivity.
  - constructor.
Defined.

(** ** Compiled paths are the paths *)

Section compiled.
Context {table : UnicodeTable} {numbers : NumberTable} {engine : Filter.RegexpEngine}.

Definition compiled (m : gmap string (list step)) : Prop := size m ≤ maxPaths ∧ ∀ s p, m !! s = Some p → Compile s = Some p.

Lemma store_compiled s p m : Compile s = Some p → compiled m → compiled (store_path s p m).
Proof.
  intros Hp [Hs Hm]. unfold store_path. destruct (Nat.leb_spec maxPaths (size m)) as [H|H].
  - split; [rewrite insert_empty, map_size_singleton; unfold maxPaths; lia|]. intros s' p'. destruct (decide (s = s')) as [->|].
    + rewrite lookup_insert_eq. congruence.
    + by rewrite lookup_insert_ne.
  - split; [rewrite map_size_insert; destruct (m !! s); cbn; lia|]. intros s' p'. destruct (decide (s = s')) as [->|].
    + rewrite lookup_insert_eq. congruence.
    + rewrite lookup_insert_ne by done. apply Hm.
Qed.

(** What other calls leave in the cache between the two halves of a call: other compiled paths,
    and nothing of what it held where it was full. *)
Inductive stores : gmap string (list step) → gmap string (list step) → Prop :=
  | stores_none m : stores m m
  | stores_more s p m m' : Compile s = Some p → stores (store_path s p m) m' → stores m m'.

Lemma stores_compiled m m' : stores m m' → compiled m → compiled m'.
Proof. induction 1 as [|s p m m' Hp _ IH]; [done|]. intros H. by apply IH, store_compiled. Qed.

(** [CompilePath] is [Compile], whatever calls came before it, and whatever calls run between its
    look-up and its store; the paths kept are those of their texts, and no more than
    [maxPaths]. *)
Theorem CompilePath_exact s m between :
  stores ∅ m → stores m between →
  (CompilePath s m).1 = Compile s ∧ compiled (CompilePath s m).2
  ∧ ∀ p, Compile s = Some p → compiled (store_path s p between).
Proof.
  intros H0 H1. assert (Hm : compiled m).
  { eapply stores_compiled; [done|]. split; [rewrite map_size_empty; lia|]. done. }
  split_and!.
  - unfold CompilePath. destruct (m !! s) as [p|] eqn:E; [symmetry; by apply Hm|]. by destruct (Compile s).
  - unfold CompilePath. destruct (m !! s) as [p|] eqn:E; [done|]. destruct (Compile s) as [p|] eqn:E'; [|done]. by apply store_compiled.
  - intros p Hp. apply store_compiled; [done|]. by eapply stores_compiled.
Qed.
End compiled.

End RegoValues.
