(* ===== verification/LegacyValue.v ===== *)
(** * Operands of the legacy engine ([internal/legacyvalue])

    The record of a value that generated policies compare instead of its JSON: the texts Java
    gives it, folded and with their case, its number, and the key structures are equal by. *)
From S2P Require Import Prelude GoText Json Encoding GoCase Digits Decimal Double Value JsonText Authn AnyValue.
Import GoText GoCase Value.

Module LegacyValue.

(** ** Java texts ([javatext.go]) *)

Section fold.
Context {case : CaseTable}.

Definition fold_rune (r : N) : N := lower_rune (upper_rune r).

(** [Fold]. *)
Definition Fold (s : bytes) : bytes :=
  if existsb past_ascii s then map_runes fold_rune s
  else if existsb (λ c, within "A" c "Z") s then ToLower s
  else s.
End fold.

(** [isIntegerText]. *)
Definition TrimPrefix (p : ascii) (s : bytes) : bytes := default s (Json.expect p s).

Definition isIntegerText (s : bytes) : bool :=
  let s := TrimPrefix "-" s in
  if is_nil s then false else all is_digit s.

(** [NumberText]. *)
Definition NumberText (n : string) : bytes :=
  let s := bytes_of n in
  if isIntegerText s then
    let neg := is_some (Json.expect "-" s) in
    let digits := Decimal.TrimLeft "0" (TrimPrefix "-" s) in
    if is_nil digits then ["0"%char] else if neg then "-"%char :: digits else digits
  else Double.DoubleText (Double.of_text s).

Definition FormatBool (b : bool) : bytes := bytes_of (if b then "true" else "false").

(** [Text]. *)
Fixpoint Text (v : value) : bytes :=
  match v with
  | Null => bytes_of "null"
  | Bool b => FormatBool b
  | Number n => NumberText n
  | Str s => bytes_of s
  | List l => "["%char :: Json.joined (bytes_of ", ") (map Text l) ++ ["]"%char]
  | Obj o => "{"%char :: Json.joined (bytes_of ", ") (map (λ m, bytes_of m.1 ++ "="%char :: Text m.2) o) ++ ["}"%char]
  end.

(** ** Records ([record.go]) *)

Inductive State :=
  | StateValue | StateNullElement | StateAbsent | StateNull | StatePIPEmpty | StateEmptyColl
  | StateEmptySel | StateIndexOOB | StatePIPNull | StateError.

Inductive Class_ := ClassString | ClassScalar | ClassList | ClassOther.
Inductive Type_ := TypeString | TypeNumber | TypeBoolean | TypeArray | TypeObject.

Inductive Record_ := MkRecord {
  state : State;
  class : option Class_;
  type : option Type_;
  Key : option bytes;
  CaseKey : option bytes;
  Keys_ : list bytes;
  Structure : option bytes;
  number : option Decimal.Decimal;
  Elements : list Record_;
}.

(** [WithState]. *)
Definition WithState (s : State) : Record_ := MkRecord s None None None None [] None None [].

(** The order of texts. *)
Definition bytes_le (a b : bytes) : Prop := String.le (string_of a) (string_of b).
#[global] Instance bytes_le_dec : RelDecision bytes_le := λ a b, String.le_dec (string_of a) (string_of b).
#[global] Instance bytes_le_total : Total bytes_le := λ a b, String.le_total (string_of a) (string_of b).
#[global] Instance bytes_le_trans : Transitive bytes_le.
Proof. intros a b c. unfold bytes_le. apply transitivity. Qed.
#[global] Instance bytes_le_antisymm : AntiSymm (=) bytes_le.
Proof. intros a b H1 H2. rewrite <-(bytes_of_string_of a), <-(bytes_of_string_of b). f_equal. by apply (anti_symm String.le). Qed.

Section records.
Context {case : CaseTable} {table : UnicodeTable}.

(** The text of a number in a structure key. *)
Definition number_key (n : string) : bytes :=
  match Decimal.ParseBigDecimal (string_of (NumberText n)) with
  | Some d => Decimal.String d
  | None => NumberText n
  end.

(** [strconv.AppendQuote]. *)
Definition quoted (s : string) : bytes := bytes_of (Quote s).

(** [structureKey]; the members of an object in the order of their keys. *)
Fixpoint structureKey (v : value) : bytes :=
  match v with
  | Null => bytes_of "null"
  | Bool b => FormatBool b
  | Number n => number_key n
  | Str s => quoted s
  | List l => "["%char :: Json.joined [","%char] (map structureKey l) ++ ["]"%char]
  | Obj o =>
      "{"%char :: Json.joined [","%char]
        (map (λ m, quoted m.1 ++ ":"%char :: m.2) (AnyValue.sort_members (map (λ m, (m.1, structureKey m.2)) o))) ++ ["}"%char]
  end.

(** [scalar]. *)
Definition scalar (t : Type_) (c : Class_) (text : bytes) : Record_ :=
  let k := Fold text in
  MkRecord StateValue (Some c) (Some t) (Some k) (Some text) [k] None (Decimal.ParseBigDecimal (string_of text)) [].

(** [classify]: the state and the class after an element, and whether it is null. *)
Definition classify (sc : State * Class_) (e : value) : State * Class_ * bool :=
  match e with
  | Null => (StateNullElement, ClassOther, true)
  | Str _ | Number _ | Bool _ => (sc, false)
  | _ => (sc.1, ClassOther, false)
  end.

(** The loop of [listRecord] over the elements. *)
Fixpoint list_keys (sc : State * Class_) (keys : list bytes) (l : list value) : State * Class_ * list bytes :=
  match l with
  | [] => (sc, keys)
  | e :: l =>
      let '(sc, null) := classify sc e in
      list_keys sc (if null then keys else keys ++ [Fold (Text e)]) l
  end.

(** [listRecord] without elements. *)
Definition listRecord (list : list value) : Record_ :=
  if is_nil list then WithState StateEmptyColl
  else
    let ck := Text (List list) in
    let '(s, c, keys) := list_keys (StateValue, ClassList) [] list in
    MkRecord s (Some c) (Some TypeArray) (Some (Fold ck)) (Some ck) keys (Some (structureKey (List list))) None [].

(** [of], the record of a list given. *)
Definition of_value (list_record : list value → Record_) (v : value) : Record_ :=
  match v with
  | Null => WithState StateNull
  | Str s => scalar TypeString ClassString (bytes_of s)
  | Number n => scalar TypeNumber ClassScalar (NumberText n)
  | Bool b => scalar TypeBoolean ClassScalar (Text (Bool b))
  | List l => list_record l
  | Obj o =>
      let ck := Text (Obj o) in
      let k := Fold ck in
      MkRecord StateValue (Some ClassOther) (Some TypeObject) (Some k) (Some ck) [k] (Some (structureKey (Obj o))) None []
  end.

(** [of] without elements. *)
Definition of_plain : value → Record_ := of_value listRecord.

(** What [listWithElements] reads of one element: the element's record, its text, its key and
    its structure key. *)
Definition element (e : value) : Record_ * bytes * bytes * bytes :=
  let er := of_plain e in
  let '(text, ek) :=
    match Key er with
    | Some k => (default [] (CaseKey er), k)
    | None => (Text e, Fold (Text e))
    end in
  (er, text, ek, match Structure er with Some s => s | None => structureKey e end).

(** The loop of [listWithElements]. *)
Record built := MkBuilt { b_state : State * Class_; b_elements : list Record_; b_ck : bytes; b_k : bytes; b_keys : list bytes; b_structures : list bytes }.

Definition add_element (b : built) (e : value) : built :=
  let '(er, text, ek, sk) := element e in
  let sep := if is_nil (b_elements b) then [] else bytes_of ", " in
  let '(sc, null) := classify (b_state b) e in
  MkBuilt sc (b_elements b ++ [er]) (b_ck b ++ sep ++ text) (b_k b ++ sep ++ ek)
    (if null then b_keys b else b_keys b ++ [ek]) (b_structures b ++ [sk]).

(** [slices.Compact]. *)
Fixpoint Compact (l : list bytes) : list bytes :=
  match l with
  | [] => []
  | x :: l => match l with
              | y :: _ => if eqb x y then Compact l else x :: Compact l
              | [] => [x]
              end
  end.

(** [slices.Sort] of texts, by their bytes. *)
Definition Sort (l : list bytes) : list bytes := merge_sort bytes_le l.

(** [listWithElements]. *)
Definition listWithElements (list : list value) : Record_ :=
  let b := fold_left add_element list (MkBuilt (StateValue, ClassList) [] ["["%char] ["["%char] [] []) in
  let elementKeys := Compact (Sort (b_structures b)) in
  MkRecord (b_state b).1 (Some (b_state b).2) (Some TypeArray) (Some (b_k b ++ ["]"%char])) (Some (b_ck b ++ ["]"%char])) (b_keys b)
    (Some ("["%char :: Json.joined [","%char] elementKeys ++ ["]"%char])) None (b_elements b).

(** [Of]. *)
Definition Of (v : value) : Record_ :=
  of_value (λ l, if is_nil l then WithState StateEmptyColl else listWithElements l) v.
End records.

(** ** Records of the tests *)

Definition latin_table : UnicodeTable := {| letter_table _ := true; digit_table _ := false; print_table r := negb (eqb r 173%N) |}.

Section tests.
#[local] Existing Instance latin_case.
#[local] Existing Instance latin_table.

Notation read doc := (default Null (Decode (AnyValue.quoting doc))).
Notation shown o := (string_of <$> o).

Example scalars :
  (λ doc, let r := Of (read doc) in (shown (Key r), shown (CaseKey r), (λ d, string_of (Decimal.String d)) <$> number r)) <$>
    ["^ABC^"; "^+5^"; "^.5^"; "^1e400^"; "5"; "-0"; "5.0"; "-0.0"; "1e2"; "1.5e-4"; "1e7"; "9999999.0"; "1e-400"; "1e400"; "0.300000000000000010"; "true"]%string
  = [(Some "abc", Some "ABC", None); (Some "+5", Some "+5", Some "5"); (Some ".5", Some ".5", Some "0.5"); (Some "1e400", Some "1e400", Some "1e400");
     (Some "5", Some "5", Some "5"); (Some "0", Some "0", Some "0"); (Some "5.0", Some "5.0", Some "5"); (Some "-0.0", Some "-0.0", Some "0");
     (Some "100.0", Some "100.0", Some "100"); (Some "1.5e-4", Some "1.5E-4", Some "0.00015"); (Some "1.0e7", Some "1.0E7", Some "10000000");
     (Some "9999999.0", Some "9999999.0", Some "9999999"); (Some "0.0", Some "0.0", Some "0"); (Some "infinity", Some "Infinity", None);
     (Some "0.3", Some "0.3", Some "0.3"); (Some "true", Some "true", None)]%string.
Proof. vm_compute. reflexivity. Qed.

Example structures :
  (λ doc, let r := Of (read doc) in (state r, class r, shown (CaseKey r), string_of <$> Keys_ r)) <$>
    ["[1, ^A^, true]"; "[null, ^A^]"; "[[1], ^x^]"; "[[], ^x^]"; "{^b^: 1, ^A^: [2, ^X^]}"; "{}"]%string
  = [(StateValue, Some ClassList, Some "[1, A, true]", ["1"; "a"; "true"]); (StateNullElement, Some ClassOther, Some "[null, A]", ["a"]);
     (StateValue, Some ClassOther, Some "[[1], x]", ["[1]"; "x"]); (StateValue, Some ClassOther, Some "[[], x]", ["[]"; "x"]);
     (StateValue, Some ClassOther, Some "{b=1, A=[2, X]}", ["{b=1, a=[2, x]}"]); (StateValue, Some ClassOther, Some "{}", ["{}"])]%string.
Proof. vm_compute. reflexivity. Qed.

Example structure_keys :
  (λ doc, default [] (Structure (Of (read doc)))) <$>
    ["[{^a^: 1}, ^x^, [2]]"; "{^a^: 1e2, ^B^: [2, 1]}"; "[1.50, 1e400, -0, true, 1.5]"; "[null, null, 1]"]%string
  = AnyValue.quoting <$> ["[^x^,[2],{^a^:1}]"; "{^B^:[2,1],^a^:100}"; "[0,1.5,Infinity,true]"; "[1,null]"]%string.
Proof. vm_compute. reflexivity. Qed.
End tests.

End LegacyValue.
