(* ===== verification/NumberKeys.v ===== *)
(** * The amounts of numbers ([internal/legacyvalue], [internal/jsonvalue])

    What a number of a document amounts to, as a rational: an integer text the integer it
    writes, any other the decimal Java writes its double as. The text a structure key has of
    a number is the same for two numbers exactly when they amount to the same; the numbers
    past every double, which have no decimal, are equal by their sign. *)
From Stdlib Require Import QArith.
From S2P Require Import Prelude GoText Json Encoding GoCase Digits Decimal Double Value LegacyValue.
Import GoText GoCase Double Value LegacyValue.

Module NumberKeys.

(** ** Amounts *)

Section amounts.
Context {table : UnicodeTable}.

(** The rational a text writes, when it is a decimal Java reads with a scale of 32 bits. *)
Definition written (t : bytes) : option Q :=
  if is_some (Decimal.ParseBigDecimal (string_of t)) then Some (Decimal.text_value (string_of t)) else None.

(** What a number of a document amounts to. *)
Definition amount (n : string) : option Q :=
  if isIntegerText (bytes_of n) then Some (Decimal.text_value n) else written (DoubleText (of_text (bytes_of n))).

(** Two numbers are the same when they amount to one rational; numbers of no amount when
    their doubles are. *)
Definition same_number (n m : string) : Prop :=
  match amount n, amount m with
  | Some x, Some y => (x == y)%Q
  | None, None => DoubleText (of_text (bytes_of n)) = DoubleText (of_text (bytes_of m))
  | _, _ => False
  end.
End amounts.

(** ** Decimals of one value *)

Lemma Compare_same a b : Digits.Compare a b = 0%Z → a = b.
Proof.
  revert b. induction a as [|x a IH]; intros [|y b]; cbn [Digits.Compare]; try done.
  destruct (N.compare_spec (N_of_ascii x) (N_of_ascii y)) as [E| |]; try done. intros H%IH. subst b. f_equal.
  by rewrite <-(ascii_N_embedding x), E, ascii_N_embedding.
Qed.

(** A number has one normal form. *)
Lemma Compare_normal d e : Decimal.wf d → Decimal.wf e → Decimal.Compare d e = 0%Z → d = e.
Proof.
  intros (_ & _ & _ & Zd) (_ & _ & _ & Ze). unfold Decimal.Compare, Decimal.sign, Decimal.IsZero.
  destruct d as [nd cd ed], e as [ne ce ee]. cbn [Decimal.coef Decimal.neg] in *.
  destruct cd as [|c cd]; [rewrite (Zd eq_refl) in *|]; (destruct ce as [|c' ce]; [rewrite (Ze eq_refl) in *|]); cbn [is_nil].
  - done.
  - by destruct ne.
  - by destruct nd.
  - intros H. assert (E : nd = ne ∧ Decimal.compareMagnitude (Decimal.MkDecimal nd (c :: cd) ed) (Decimal.MkDecimal ne (c' :: ce) ee) = 0%Z).
    { destruct nd, ne; cbn in H; try done; split; try done; lia. }
    destruct E as [-> E]. clear H. unfold Decimal.compareMagnitude in E.
    destruct (_ =? _)%Z eqn:Ea; [apply Z.eqb_eq in Ea|by destruct (_ <? _)%Z].
    apply Compare_same in E. unfold Decimal.adjusted in Ea. cbn [Decimal.coef Decimal.exp] in *. rewrite E in *. f_equal. lia.
Qed.

Lemma value_normal d e : Decimal.wf d → Decimal.wf e → (Decimal.value d == Decimal.value e)%Q ↔ d = e.
Proof.
  intros Wd We. split; [|by intros ->]. intros H. apply Compare_normal; [done..|].
  rewrite Decimal.Compare_value by done. by rewrite (proj1 (Qeq_alt _ _) H).
Qed.

(** ** The text of a decimal tells it *)

Lemma FormatInt_inj x y : Digits.FormatInt x = Digits.FormatInt y → x = y.
Proof.
  destruct (Digits.FormatInt_digits x) as (ds & Hn & Hd & Hv & ->), (Digits.FormatInt_digits y) as (es & Hm & He & Hw & ->).
  assert (Hno : ∀ l k, Forall (λ c, is_digit c = true) l → l = "-"%char :: k → False).
  { intros l k H ->. apply Forall_cons in H as [H _]. by vm_compute in H. }
  destruct (x <? 0)%Z eqn:Ex, (y <? 0)%Z eqn:Ey; intros E; rewrite ?Z.ltb_lt, ?Z.ltb_ge in *.
  - injection E as E. rewrite E in Hv. lia.
  - symmetry in E. by apply Hno in E.
  - by apply Hno in E.
  - rewrite E in Hv. lia.
Qed.

(** The digits before an exponent. *)
Definition significand (d : Decimal.Decimal) : bytes :=
  (if Decimal.neg d then ["-"%char] else [])
    ++ take 1 (Decimal.coef d) ++ (if (1 <? length (Decimal.coef d))%nat then "."%char :: drop 1 (Decimal.coef d) else []).

Lemma digits_no_exp ds : Digits.all_digits ds → "e"%char ∉ ds.
Proof. intros H Hin. apply (proj1 (Forall_forall _ _) H) in Hin. by vm_compute in Hin. Qed.

Lemma significand_no_exp d : Digits.all_digits (Decimal.coef d) → "e"%char ∉ significand d.
Proof.
  intros H. unfold significand. rewrite !not_elem_of_app. split_and!.
  - destruct (Decimal.neg d); [by intros ?%list_elem_of_singleton|by intros ?%elem_of_nil].
  - apply digits_no_exp. by apply Forall_take.
  - destruct (_ <? _); [|by intros ?%elem_of_nil]. apply not_elem_of_cons. split; [done|]. apply digits_no_exp. by apply Forall_drop.
Qed.

Lemma significand_told d e :
  Digits.all_digits (Decimal.coef d) → Digits.all_digits (Decimal.coef e) → Decimal.coef d ≠ [] → Decimal.coef e ≠ [] →
  significand d = significand e → Decimal.neg d = Decimal.neg e ∧ Decimal.coef d = Decimal.coef e.
Proof.
  intros Hd He Nd Ne. unfold significand. destruct (Decimal.coef d) as [|a l], (Decimal.coef e) as [|b k]; try done.
  apply Forall_cons in Hd as [Ha _], He as [Hb _].
  destruct (Decimal.neg d), (Decimal.neg e); cbn [app take drop length]; intros E;
    try (injection E as E _; subst; by vm_compute in Ha, Hb); (split; [done|]).
  all: injection E as -> E; f_equal; destruct l, k; cbn in E; try done; by injection E as -> ->.
Qed.

Lemma String_split d :
  Decimal.wf d →
  ((- 7 ≤ Decimal.adjusted d < 20)%Z ∨ Decimal.coef d = []) ∧ "e"%char ∉ Decimal.String d
  ∨ Decimal.coef d ≠ [] ∧ Decimal.String d = significand d ++ "e"%char :: Digits.FormatInt (Decimal.adjusted d).
Proof.
  intros (Hd & _). unfold Decimal.String, Decimal.IsZero. destruct (is_nil (Decimal.coef d)) eqn:N.
  - left. apply is_nil_true in N. split; [by right|]. by intros ?%list_elem_of_singleton.
  - apply is_nil_false in N. destruct (_ || _) eqn:E.
    + right. split; [done|]. unfold significand. by rewrite <-!(assoc_L (++)).
    + left. apply orb_false_iff in E as [E1%Z.leb_gt E2%Z.ltb_ge]. split; [left; lia|].
      assert (Hz : ∀ n, "e"%char ∉ Decimal.zeros n) by (intros n; apply digits_no_exp, Decimal.zeros_digits).
      assert (Ht : ∀ n, "e"%char ∉ take n (Decimal.coef d)) by (intros n; apply digits_no_exp; by apply Forall_take).
      assert (Hp : ∀ n, "e"%char ∉ drop n (Decimal.coef d)) by (intros n; apply digits_no_exp; by apply Forall_drop).
      pose proof (digits_no_exp _ Hd). rewrite not_elem_of_app. split; [destruct (Decimal.neg d); [by intros ?%list_elem_of_singleton|by intros ?%elem_of_nil]|].
      destruct (0 <=? Decimal.exp d)%Z; [|destruct (0 <=? _)%Z]; rewrite ?not_elem_of_app, ?not_elem_of_cons, ?not_elem_of_app; split_and?; try done.
Qed.

Lemma split_at_exp x y s t : "e"%char ∉ x → "e"%char ∉ y → x ++ "e"%char :: s = y ++ "e"%char :: t → x = y ∧ s = t.
Proof.
  revert y. induction x as [|c x IH]; intros [|c' y] Hx Hy E; cbn in E.
  - by injection E.
  - injection E as <- _. destruct Hy. by left.
  - injection E as -> _. destruct Hx. by left.
  - injection E as -> E. rewrite not_elem_of_cons in Hx, Hy. by apply IH in E as [-> ->]; [|apply Hx|apply Hy].
Qed.

Section texts.
Context {table : UnicodeTable}.

Lemma plain_trip d :
  Decimal.wf d → (- 7 ≤ Decimal.adjusted d < 20)%Z ∨ Decimal.coef d = [] → Decimal.ParseDecimal (string_of (Decimal.String d)) = Some d.
Proof.
  intros W H. apply Decimal.String_trip; [done|]. destruct H as [H|H]; [unfold Decimal.maxExponent; lia|].
  destruct W as (_ & _ & _ & W). rewrite (W H). unfold Decimal.maxExponent, Decimal.adjusted. cbn. lia.
Qed.

(** [String] gives different decimals different texts. *)
Lemma String_inj d e : Decimal.wf d → Decimal.wf e → Decimal.String d = Decimal.String e → d = e.
Proof.
  intros Wd We E.
  assert (Hno : ∀ (x s t : bytes), "e"%char ∉ t → t = x ++ "e"%char :: s → False).
  { intros x s t Ht ->. apply Ht. apply elem_of_app. right. by left. }
  destruct (String_split d Wd) as [[Bd Nd]|[Nd Ed]], (String_split e We) as [[Be Ne]|[Ne Ee]].
  - apply (inj Some). rewrite <-(plain_trip d), <-(plain_trip e) by done. by rewrite E.
  - rewrite <-E in Ee. by apply Hno in Ee.
  - rewrite E in Ed. by apply Hno in Ed.
  - rewrite Ed, Ee in E. destruct Wd as (Hd & _), We as (He & _).
    apply split_at_exp in E as [E F]; [|by apply significand_no_exp..]. apply FormatInt_inj in F.
    apply significand_told in E as [En Ec]; try done. unfold Decimal.adjusted in F. rewrite Ec in F.
    destruct d, e. cbn in *. subst. f_equal. lia.
Qed.

Lemma ParseBigDecimal_wf s d : Decimal.ParseBigDecimal s = Some d → Decimal.wf d ∧ (Decimal.value d == Decimal.text_value s)%Q.
Proof.
  unfold Decimal.ParseBigDecimal. destruct (Decimal.parseDecimal s) as [[d' scale]|] eqn:E; [|done]. cbn [mbind option_bind].
  destruct (Decimal.in_int32 scale); [|done]. intros [= ->]. apply (Decimal.ParseDecimal_value s). unfold Decimal.ParseDecimal. by rewrite E.
Qed.

(** ** The amount of an integer *)

Lemma TrimPrefix_written (s : bytes) : s = Decimal.signed (is_some (Json.expect "-" s)) (TrimPrefix "-" s).
Proof.
  unfold TrimPrefix. destruct s as [|c s]; [done|]. cbn [Json.expect]. destruct (eqb c "-"%char) eqn:E; [|done].
  by apply (proj1 (eqb_true _ _)) in E as ->.
Qed.

Lemma parse_integer minus ds :
  Digits.all_digits ds → ds ≠ [] → Decimal.ParseBigDecimal (string_of (Decimal.signed minus ds)) = Some (Decimal.newDecimal minus ds 0).
Proof.
  intros Hd Hn. pose proof (Decimal.parseDecimal_written minus ds None [] 0 Hd ltac:(constructor) Hn ltac:(constructor) Decimal.tail_nil) as H.
  cbn [Decimal.pointed default length] in H. rewrite !app_nil_r in H. unfold Decimal.ParseBigDecimal. rewrite H. done.
Qed.

Lemma integer_read n :
  isIntegerText (bytes_of n) = true →
  ∃ d, Decimal.ParseBigDecimal (string_of (NumberText n)) = Some d ∧ Decimal.ParseBigDecimal n = Some d.
Proof.
  intros H. unfold NumberText. rewrite H. unfold isIntegerText in H. destruct (is_nil (TrimPrefix "-" (bytes_of n))) eqn:N; [done|].
  apply is_nil_false in N. apply all_Forall in H. pose proof (TrimPrefix_written (bytes_of n)) as Hn.
  set (minus := is_some _) in *. set (ds := TrimPrefix "-" (bytes_of n)) in *. exists (Decimal.newDecimal minus ds 0).
  split; [|by rewrite <-(string_of_bytes_of n), Hn; apply parse_integer].
  destruct (Decimal.TrimLeft_split "0" ds) as [k Hk]. destruct (is_nil (Decimal.TrimLeft "0" ds)) eqn:Z.
  - apply is_nil_true in Z. change ["0"%char] with (Decimal.signed false ["0"%char]). rewrite parse_integer by (try done; by repeat constructor).
    rewrite <-(Decimal.newDecimal_trim minus), Z. done.
  - apply is_nil_false in Z. rewrite <-(Decimal.newDecimal_trim minus). destruct minus; change (?c :: ?t) with ([c] ++ t).
    + apply (parse_integer true); [|done]. rewrite Hk in H. by apply Forall_app in H as [_ ?].
    + apply (parse_integer false); [|done]. rewrite Hk in H. by apply Forall_app in H as [_ ?].
Qed.

(** A number amounts to what the decimal of its Java text is. *)
Lemma amount_read n :
  match Decimal.ParseBigDecimal (string_of (NumberText n)) with
  | Some d => Decimal.wf d ∧ ∃ x, amount n = Some x ∧ (Decimal.value d == x)%Q
  | None => amount n = None ∧ isIntegerText (bytes_of n) = false ∧ NumberText n = DoubleText (of_text (bytes_of n))
  end.
Proof.
  unfold amount. destruct (isIntegerText (bytes_of n)) eqn:Hi.
  - destruct (integer_read n Hi) as (d & -> & H). apply ParseBigDecimal_wf in H as [W V]. split; [done|]. by eexists.
  - assert (E : NumberText n = DoubleText (of_text (bytes_of n))) by (unfold NumberText; by rewrite Hi).
    rewrite E. unfold written. destruct (Decimal.ParseBigDecimal _) as [d|] eqn:P; [|done]. apply ParseBigDecimal_wf in P as [W V].
    split; [done|]. by eexists.
Qed.
End texts.

(** ** The texts of decimals and doubles *)

Section chars.
Variable P : ascii → Prop.
Hypothesis Pdigit : ∀ c, is_digit c = true → P c.
Hypotheses (Pminus : P "-"%char) (Ppoint : P "."%char) (Pexp : P "E"%char).

Lemma digits_chars ds : Digits.all_digits ds → Forall P ds.
Proof. intros H. eapply Forall_impl; [exact H|]. exact Pdigit. Qed.

Lemma zeros_chars n : Forall P (Decimal.zeros n).
Proof. apply digits_chars, Decimal.zeros_digits. Qed.

Lemma FormatInt_chars z : Forall P (Digits.FormatInt z).
Proof. destruct (Digits.FormatInt_digits z) as (ds & _ & Hd%digits_chars & _ & ->). destruct (z <? 0)%Z; [by constructor|done]. Qed.

Lemma TrimRight_Forall c s : Forall P s → Forall P (Decimal.TrimRight c s).
Proof. destruct (Decimal.TrimRight_split c s) as [n E]. rewrite E at 1. by intros [? _]%Forall_app. Qed.

Ltac chars_tac :=
  repeat first
    [ assumption
    | apply zeros_chars | apply FormatInt_chars
    | apply Forall_app; split | apply Forall_take | apply Forall_drop | apply TrimRight_Forall
    | apply Forall_cons; split; [first [assumption|by apply Pdigit]|] | apply Forall_nil; exact I | case_match ].

Lemma layout_chars p ds e : Forall P ds → Forall P (layout p ds e).
Proof. intros H. unfold layout. destruct p; [destruct (0 <=? e)%Z; [destruct (e + 1 <? Z.of_nat (length ds))%Z|]|]; chars_tac. Qed.

Lemma java_digits_chars m e : Forall P (java_digits m e).1.
Proof. unfold java_digits, digits_of. destruct (shortest _ _ _ _) as [q p]. destruct (fixed m e 2) as [q2 p2]. repeat case_match; cbn [fst]; chars_tac. Qed.

(** A double that is no number has a letter of its own, and any other is written in digits. *)
Lemma DoubleText_chars x : Forall P (DoubleText x) ∨ "I"%char ∈ DoubleText x ∧ "e"%char ∉ DoubleText x ∨ "N"%char ∈ DoubleText x ∧ "e"%char ∉ DoubleText x.
Proof.
  unfold DoubleText. destruct x as [[]|[]| |neg m e].
  1, 2: left; chars_tac.
  1, 2: right; left; split; by apply (bool_decide_eq_true_1 _).
  - right; right; split; by apply (bool_decide_eq_true_1 _).
  - left. pose proof (java_digits_chars (Zpos m) e) as Hd. destruct (java_digits (Zpos m) e) as [ds e10]. cbn [fst] in Hd.
    generalize (SpecFloat.SFleb (of_text (bytes_of "1e-3")) (SpecFloat.S754_finite false m e) && SpecFloat.SFltb (SpecFloat.S754_finite false m e) (of_text (bytes_of "1e7"))) as p.
    intros p. apply Forall_app. split; [destruct neg; chars_tac|by apply layout_chars].
Qed.
End chars.

Lemma layout_some p ds e : layout p ds e ≠ [].
Proof. unfold layout. intros H. repeat case_match; apply (f_equal length) in H; rewrite !length_app in H; cbn in H; lia. Qed.

(** What is written in digits, or as no number. *)
Lemma DoubleText_plain x :
  Forall (λ c, Decimal.plain c = true) (DoubleText x) ∨ "I"%char ∈ DoubleText x ∨ "N"%char ∈ DoubleText x.
Proof.
  destruct (DoubleText_chars (λ c, Decimal.plain c = true)) with (x := x) as [H|[[H _]|[H _]]]; auto.
  intros c Hc. unfold Decimal.plain. by rewrite Hc.
Qed.

Lemma DoubleText_no_exp x : "e"%char ∉ DoubleText x.
Proof.
  destruct (DoubleText_chars (λ c, c ≠ "e"%char)) with (x := x) as [H|[[_ H]|[_ H]]]; try done.
  - intros c Hc ->. by vm_compute in Hc.
  - intros Hin. by apply (proj1 (Forall_forall _ _) H) in Hin.
Qed.

Lemma String_plain d : Decimal.wf d → Forall (λ c, Decimal.plain c = true) (Decimal.String d) ∧ Decimal.String d ≠ [].
Proof.
  intros Hw. assert (Hc : Forall (λ c, Decimal.plain c = true) (Decimal.coef d)) by (apply Decimal.digits_plain, Hw).
  assert (Hz : ∀ n, Forall (λ c, Decimal.plain c = true) (Decimal.zeros n)) by (intros n; apply Decimal.digits_plain, Decimal.zeros_digits).
  pose proof Decimal.FormatInt_plain as Hf.
  unfold Decimal.String. destruct (Decimal.IsZero d) eqn:Ez; [by repeat constructor|]. unfold Decimal.IsZero in Ez. apply is_nil_false in Ez.
  split.
  - apply Forall_app. split; [destruct (Decimal.neg d); by repeat constructor|].
    repeat case_match; repeat first [done|apply Hz|apply Hf|apply Forall_app; split|apply Forall_take|apply Forall_drop|apply Forall_cons; split; [reflexivity|]].
  - destruct (Decimal.coef d) as [|c cs]; [done|]. intros H. apply (f_equal length) in H. rewrite length_app in H.
    repeat case_match; cbn [length take app] in H; rewrite ?length_app in H; cbn [length] in H; lia.
Qed.

(** ** The text of a number in a structure key *)

Section keys.
Context {table : UnicodeTable}.

Lemma exp_bound s d : Decimal.ParseBigDecimal s = Some d → (- (2 ^ 31 - 1) ≤ Decimal.exp d)%Z.
Proof.
  unfold Decimal.ParseBigDecimal, Decimal.parseDecimal. destruct (bytes_of s) as [|c l]; [done|]. destruct (Decimal.may_start c); [|done].
  destruct (Decimal.parse_runes _) as [[d' scale]|] eqn:E; [|done]. cbn [mbind option_bind].
  destruct (Decimal.in_int32 scale) eqn:I; [|done]. intros [= <-].
  destruct (Decimal.second_pass _ _ _ E) as (minus & rs & digits & n & tail & _ & _ & _ & _ & -> & _).
  unfold Decimal.in_int32 in I. apply andb_true_iff in I as [_ I%Z.leb_le]. unfold Decimal.newDecimal.
  destruct (Decimal.TrimLeft "0" digits) as [|x t]; [cbn; lia|]. cbn [Decimal.exp].
  destruct (Decimal.TrimRight_split "0" (x :: t)) as [k Hk]. apply (f_equal length) in Hk. rewrite length_app in Hk. lia.
Qed.

Lemma point_read minus int frac :
  Digits.all_digits int → Digits.all_digits frac → int ≠ [] → (Z.of_nat (length frac) ≤ 2 ^ 31 - 1)%Z →
  is_Some (Decimal.ParseBigDecimal (string_of (Decimal.signed minus (int ++ "."%char :: frac)))).
Proof.
  intros Hi Hf Hn Hl. unfold Decimal.ParseBigDecimal. rewrite Decimal.parse_point by done. cbn [mbind option_bind].
  unfold Decimal.in_int32. rewrite (proj2 (Z.leb_le _ _)), (proj2 (Z.leb_le _ _)) by lia. by eexists.
Qed.

(** Without an exponent the text of a decimal is read back within 32 bits of scale. *)
Lemma String_read d :
  Decimal.wf d → (- (2 ^ 31 - 1) ≤ Decimal.exp d)%Z → "e"%char ∉ Decimal.String d → is_Some (Decimal.ParseBigDecimal (string_of (Decimal.String d))).
Proof.
  intros (Hd & _) He. unfold Decimal.String, Decimal.IsZero. destruct (is_nil (Decimal.coef d)) eqn:N; [by eexists|]. apply is_nil_false in N.
  destruct (_ || _) eqn:E.
  { intros H. exfalso. apply H. rewrite !elem_of_app, elem_of_cons. auto. }
  intros _. apply orb_false_iff in E as [E1%Z.leb_gt E2%Z.ltb_ge]. fold (Decimal.signed (Decimal.neg d)).
  assert (Hlen : 0 < length (Decimal.coef d)) by (destruct (Decimal.coef d); [done|cbn; lia]). unfold Decimal.adjusted in *.
  change (is_Some (Decimal.ParseBigDecimal (string_of (Decimal.signed (Decimal.neg d)
    (if (0 <=? Decimal.exp d)%Z then Decimal.coef d ++ Decimal.zeros (Decimal.exp d)
     else if (0 <=? Decimal.exp d + Z.of_nat (length (Decimal.coef d)) - 1)%Z then
       take (Z.to_nat (Decimal.exp d + Z.of_nat (length (Decimal.coef d)) - 1 + 1)) (Decimal.coef d) ++ "."%char :: drop (Z.to_nat (Decimal.exp d + Z.of_nat (length (Decimal.coef d)) - 1 + 1)) (Decimal.coef d)
     else ["0"%char] ++ "."%char :: Decimal.zeros (- (Decimal.exp d + Z.of_nat (length (Decimal.coef d)) - 1) - 1) ++ Decimal.coef d))))).
  destruct (0 <=? Decimal.exp d)%Z eqn:Ex; [|apply Z.leb_gt in Ex; destruct (0 <=? _ - 1)%Z eqn:Ea; [apply Z.leb_le in Ea|apply Z.leb_gt in Ea]].
  - rewrite parse_integer; [by eexists|apply Forall_app; split; [done|apply Decimal.zeros_digits]|]. by destruct (Decimal.coef d).
  - apply point_read; [by apply Forall_take|by apply Forall_drop| |].
    + intros H. apply (f_equal length) in H. rewrite length_take in H. cbn in H. lia.
    + rewrite length_drop. lia.
  - apply point_read; [by repeat constructor| |done|].
    + apply Forall_app. split; [apply Decimal.zeros_digits|done].
    + rewrite length_app. unfold Decimal.zeros. rewrite length_replicate. lia.
Qed.

(** The text of a number past the doubles is that of no decimal. *)
Lemma String_no_double d x :
  Decimal.wf d → (- (2 ^ 31 - 1) ≤ Decimal.exp d)%Z → Decimal.ParseBigDecimal (string_of (DoubleText x)) = None → Decimal.String d ≠ DoubleText x.
Proof.
  intros W He Hn E. destruct (String_read d W He) as [y Hy]; [rewrite E; apply DoubleText_no_exp|]. rewrite E in Hy. congruence.
Qed.

(** Two numbers have one text in a structure key exactly when they are the same. *)
Lemma number_key_same n m : number_key n = number_key m ↔ same_number n m.
Proof.
  unfold number_key, same_number. pose proof (amount_read n) as Hn. pose proof (amount_read m) as Hm.
  destruct (Decimal.ParseBigDecimal (string_of (NumberText n))) as [d|] eqn:Pn, (Decimal.ParseBigDecimal (string_of (NumberText m))) as [e|] eqn:Pm.
  - destruct Hn as (Wd & x & -> & Vd), Hm as (We & y & -> & Ve). rewrite <-Vd, <-Ve, value_normal by done. split; [by apply String_inj|by intros ->].
  - destruct Hn as (Wd & x & -> & _), Hm as (-> & _ & Em). split; [|done]. rewrite Em in *. intros H. apply (String_no_double _ _ Wd) in H; [done|by eapply exp_bound|done].
  - destruct Hm as (Wd & x & -> & _), Hn as (-> & _ & Em). split; [|done]. rewrite Em in *. intros H. symmetry in H. apply (String_no_double _ _ Wd) in H; [done|by eapply exp_bound|done].
  - destruct Hn as (-> & _ & ->), Hm as (-> & _ & ->). done.
Qed.
End keys.

(** ** Amounts of the tests *)

#[local] Existing Instance LegacyValue.latin_table.

Example amounts :
  (λ n, Qreduction.Qred <$> amount n) <$> ["1.50"; "15e-1"; "-0"; "007"; "9007199254740993"; "9007199254740993.0"; "1e400"; "-1e400"]%string
  = [Some (3 # 2)%Q; Some (3 # 2)%Q; Some 0%Q; Some 7%Q; Some (inject_Z 9007199254740993); Some (inject_Z 9007199254740992); None; None].
Proof. vm_compute. reflexivity. Qed.

End NumberKeys.
