(* ===== verification/LegacyKeys.v ===== *)
(** * The keys of operands ([internal/legacyvalue/record.go])

    The texts a list's record joins from the records of its elements are those read from the
    list itself, and two structure keys are equal exactly when their values are: members in any
    order, numbers by what they amount to, and the list of an operand as a set. *)
From S2P Require Import Prelude GoText Json Encoding GoCase Digits Decimal Double Value JsonText GoQuote AnyValue LegacyValue NumberKeys.
Import GoText GoCase Double Value LegacyValue NumberKeys.

Module LegacyKeys.

Section texts.
Context {case : CaseTable} {table : UnicodeTable}.

(** ** Folding *)

Lemma fold_ascii c : (N_of_ascii c < 128)%N → fold_rune (N_of_ascii c) = N_of_ascii (lower c) ∧ (N_of_ascii (lower c) < 128)%N.
Proof.
  intros H. pose proof (lower_range c H) as Hl. split; [|done]. unfold fold_rune, upper_rune, lower_rune, byte_of.
  rewrite (proj2 (N.ltb_lt _ _) H), ascii_N_embedding, (proj2 (N.ltb_lt _ _) (upper_range c H)), ascii_N_embedding.
  f_equal. clear Hl. revert H. destruct c as [[] [] [] [] [] [] [] []]; vm_compute; intros; done.
Qed.

(** [Fold] is the fold of every rune: its shortcuts for ASCII change nothing. *)
Lemma Fold_runes s : Fold s = map_runes fold_rune s.
Proof.
  unfold Fold. destruct (existsb past_ascii s) eqn:Ep; [done|].
  assert (Ha : is_ascii s).
  { apply Forall_forall. intros c Hc. apply not_true_iff_false in Ep. destruct (decide (N_of_ascii c < 128)%N) as [|Hge]; [done|].
    destruct Ep. apply existsb_exists. exists c. split; [by apply list_elem_of_In|]. apply N.leb_le. lia. }
  clear Ep. rewrite (map_runes_ascii fold_rune lower s Ha fold_ascii). destruct (existsb _ s) eqn:Eu; [by apply ToLower_ascii|].
  apply not_true_iff_false in Eu. rewrite <-(list_fmap_id s) at 1. apply list_fmap_ext. intros i c Hc. cbn. unfold lower.
  destruct (within "A" c "Z") eqn:Ec; [|done]. destruct Eu. apply existsb_exists. exists c. split; [|done]. apply list_elem_of_In. by eapply list_elem_of_lookup_2.
Qed.

Lemma Fold_app s t : starts_ascii t → Fold (s ++ t) = Fold s ++ Fold t.
Proof. rewrite !Fold_runes. apply map_runes_app. Qed.

Lemma Fold_ascii_app s t : is_ascii s → Fold (s ++ t) = Fold s ++ Fold t.
Proof. rewrite !Fold_runes. apply map_runes_ascii_app. Qed.

Lemma Fold_joined l : Fold (Json.joined (bytes_of ", ") l) = Json.joined (bytes_of ", ") (Fold <$> l).
Proof.
  induction l as [|x l IH]; [done|]. destruct l as [|y l]; [done|]. rewrite Json.joined_cons by done.
  rewrite !fmap_cons, (Json.joined_cons _ (Fold x)) by done. rewrite Fold_app by (by intros c [= <-]). f_equal.
  rewrite Fold_ascii_app by (repeat constructor). rewrite IH, !fmap_cons. done.
Qed.

Lemma Fold_list l : Fold (Text (List l)) = "["%char :: Json.joined (bytes_of ", ") (Fold <$> (Text <$> l)) ++ ["]"%char].
Proof.
  cbn [Text]. change ("["%char :: Json.joined (bytes_of ", ") (map Text l) ++ ["]"%char]) with (["["%char] ++ Json.joined (bytes_of ", ") (Text <$> l) ++ ["]"%char]).
  rewrite Fold_ascii_app by (repeat constructor). rewrite Fold_app by (by intros c [= <-]). by rewrite Fold_joined.
Qed.

(** ** The records of lists *)

Lemma element_spec e : element e = (of_plain e, Text e, Fold (Text e), structureKey e).
Proof.
  unfold element, of_plain. destruct e as [|b|n|s|l|o]; try done. cbn [of_value]. unfold listRecord. destruct l as [|x l]; [done|].
  cbn [is_nil]. by destruct (list_keys _ _ _) as [[s c] keys].
Qed.

Lemma joined_snoc sep l x : l ≠ [] → Json.joined sep (l ++ [x]) = Json.joined sep l ++ sep ++ x.
Proof.
  induction l as [|y l IH]; [done|]. intros _. destruct l as [|z l]; [done|]. specialize (IH ltac:(done)). cbn [app] in IH |- *.
  rewrite (Json.joined_cons _ y (z :: l)), (Json.joined_cons _ y (z :: l ++ [x])), IH by done. by rewrite <-!(assoc_L (++)).
Qed.

Lemma joined_sep (sep x : bytes) l : Json.joined sep l ++ (if is_nil l then [] else sep) ++ x = Json.joined sep (l ++ [x]).
Proof. destruct l as [|y l]; [done|]. by rewrite joined_snoc. Qed.

Lemma is_nil_fmap {A B} (f : A → B) l : is_nil (f <$> l) = is_nil l.
Proof. by destruct l. Qed.

(** The loop after the elements [done_] holds what is read of them. *)
Definition built_of (sc : State * Class_) (keys : list bytes) (done_ : list value) : built :=
  MkBuilt sc (of_plain <$> done_) ("["%char :: Json.joined (bytes_of ", ") (Text <$> done_))
    ("["%char :: Json.joined (bytes_of ", ") (Fold <$> (Text <$> done_))) keys (structureKey <$> done_).

Lemma add_elements l done_ sc keys :
  fold_left add_element l (built_of sc keys done_)
  = let '(s, c, keys') := list_keys sc keys l in built_of (s, c) keys' (done_ ++ l).
Proof.
  revert done_ sc keys. induction l as [|e l IH]; intros done_ sc keys; cbn [fold_left list_keys]; [destruct sc; by rewrite app_nil_r|].
  assert (E : add_element (built_of sc keys done_) e
    = let '(sc', null) := classify sc e in built_of sc' (if null : bool then keys else keys ++ [Fold (Text e)]) (done_ ++ [e])).
  { unfold add_element. rewrite element_spec. cbn [b_state b_elements b_ck b_k b_keys b_structures built_of]. destruct (classify sc e) as [sc' null].
    unfold built_of. rewrite !fmap_app. cbn [app]. rewrite is_nil_fmap.
    assert (H1 : is_nil done_ = is_nil (Text <$> done_)) by by rewrite is_nil_fmap.
    assert (H2 : is_nil done_ = is_nil (Fold <$> (Text <$> done_))) by by rewrite !is_nil_fmap.
    f_equal; f_equal; [rewrite H1|rewrite H2]; apply joined_sep. }
  rewrite E. destruct (classify sc e) as [sc' null]. rewrite IH, <-(assoc_L (++)). done.
Qed.

(** The record of a list is that read from the list itself, but for its elements and its
    structure key: its texts are joined from the records of the elements, which have no
    elements of their own. *)
Theorem list_texts l :
  l ≠ [] →
  let r := Of (List l) in
  let p := of_plain (List l) in
  (state r, class r, type r, Key r, CaseKey r, Keys_ r, number r) = (state p, class p, type p, Key p, CaseKey p, Keys_ p, number p)
  ∧ CaseKey r = Some (Text (List l)) ∧ Key r = Some (Fold (Text (List l)))
  ∧ Elements r = of_plain <$> l ∧ Forall (λ e, Elements e = []) (Elements r).
Proof.
  intros Hl. cbn zeta. unfold Of, of_plain at 1 2 3 4 5 6 7. cbn [of_value]. unfold listRecord. rewrite (proj2 (is_nil_false l) Hl).
  unfold listWithElements. change (MkBuilt (StateValue, ClassList) [] ["["%char] ["["%char] [] []) with (built_of (StateValue, ClassList) [] []).
  rewrite add_elements. destruct (list_keys (StateValue, ClassList) [] l) as [[s c] keys]. cbn [app].
  cbn [built_of b_state b_elements b_ck b_k b_keys state class type Key CaseKey Keys_ number Elements fst snd]. rewrite Fold_list.
  split_and!; try done. apply Forall_fmap, Forall_forall. intros e _. cbn. unfold of_plain. destruct e as [| | | |l'|o]; try done.
  cbn [of_value]. unfold listRecord. destruct (is_nil l'); [done|]. by destruct (list_keys _ _ _) as [[? ?] ?].
Qed.

(** The structure key of an operand list. *)
Lemma Of_structure l :
  l ≠ [] → Structure (Of (List l)) = Some ("["%char :: Json.joined [","%char] (LegacyValue.Compact (Sort (structureKey <$> l))) ++ ["]"%char]).
Proof.
  intros Hl. unfold Of. cbn [of_value]. rewrite (proj2 (is_nil_false l) Hl).
  unfold listWithElements. change (MkBuilt (StateValue, ClassList) [] ["["%char] ["["%char] [] []) with (built_of (StateValue, ClassList) [] []).
  rewrite add_elements. by destruct (list_keys (StateValue, ClassList) [] l) as [[s c] keys].
Qed.
End texts.

(** ** Texts of numbers *)

(** A text that no other value starts like, and that ends before a comma or a bracket. *)
Definition atom (t : bytes) : Prop :=
  t ≠ [] ∧ Forall (λ c, c ∉ [","; "]"; "}"]%char) t ∧ ∀ c, head t = Some c → c ∉ [Json.quote; "["; "{"; "n"; "t"; "f"]%char.

Lemma not_plain c l : Decimal.plain c = true → forallb (λ x, negb (Decimal.plain x)) l = true → c ∉ l.
Proof.
  intros Hc Hl Hin. rewrite forallb_forall in Hl. apply list_elem_of_In, Hl in Hin. by rewrite Hc in Hin.
Qed.

Lemma plain_atom t : t ≠ [] → Forall (λ c, Decimal.plain c = true) t → atom t.
Proof.
  intros Hn H. split; [done|]. split.
  - eapply Forall_impl; [exact H|]. intros c Hc. by apply not_plain.
  - intros c Hh. destruct t as [|d t]; [done|]. injection Hh as ->. apply Forall_cons in H as [Hc _]. by apply not_plain.
Qed.

Lemma digit_plain c : is_digit c = true → Decimal.plain c = true.
Proof. intros H. unfold Decimal.plain. by rewrite H. Qed.

Lemma DoubleText_atom x : atom (DoubleText x).
Proof.
  unfold DoubleText. destruct x as [[]|[]| |neg m e].
  1, 2: by apply plain_atom; [|repeat constructor].
  1, 2, 3: by split; [|split; [repeat constructor; vm_compute; intros H; repeat (apply elem_of_cons in H as [H|H]; [discriminate H|]); by apply elem_of_nil in H|
     intros c [= <-] H; vm_compute in H; repeat (apply elem_of_cons in H as [H|H]; [discriminate H|]); by apply elem_of_nil in H]].
  pose proof (java_digits_chars _ digit_plain eq_refl (Zpos m) e) as Hd. destruct (java_digits (Zpos m) e) as [ds e10]. cbn [fst] in Hd.
  generalize (SpecFloat.SFleb (of_text (bytes_of "1e-3")) (SpecFloat.S754_finite false m e) && SpecFloat.SFltb (SpecFloat.S754_finite false m e) (of_text (bytes_of "1e7"))) as p. intros p. pose proof (layout_some p ds e10) as Hn. pose proof (layout_chars _ digit_plain eq_refl eq_refl eq_refl p ds e10 Hd) as Hp.
  apply plain_atom; [by destruct neg|]. apply Forall_app. split; [destruct neg; by repeat constructor|done].
Qed.

(** ** Structure keys *)

(** The value a structure key tells: numbers by their text in it, members in the order of their
    keys. *)
Section keys.
Context {table : UnicodeTable}.

Fixpoint canon (v : value) : value :=
  match v with
  | Number n => Number (string_of (number_key n))
  | List l => List (map canon l)
  | Obj o => Obj (AnyValue.sort_members (map (λ m, (m.1, canon m.2)) o))
  | v => v
  end.

Lemma NumberText_atom n : atom (NumberText n).
Proof.
  unfold NumberText. destruct (isIntegerText (bytes_of n)) eqn:E; [|apply DoubleText_atom].
  assert (Hd : Forall (λ c, Decimal.plain c = true) (Decimal.TrimLeft "0" (TrimPrefix "-" (bytes_of n)))).
  { unfold isIntegerText in E. destruct (is_nil _); [done|]. apply all_Forall, Decimal.digits_plain in E.
    destruct (Decimal.TrimLeft_split "0" (TrimPrefix "-" (bytes_of n))) as [k Ek]. rewrite Ek in E. by apply Forall_app in E as [_ E]. }
  destruct (is_nil _) eqn:En; [by apply plain_atom; [|repeat constructor]|]. apply is_nil_false in En.
  apply plain_atom; destruct (is_some _); try done. by constructor.
Qed.

Lemma number_key_atom n : atom (number_key n).
Proof.
  unfold number_key. destruct (Decimal.ParseBigDecimal _) as [d|] eqn:E; [|apply NumberText_atom].
  destruct (String_plain d (proj1 (ParseBigDecimal_wf _ _ E))). by apply plain_atom.
Qed.

(** The text of a value whose members are in order already. *)
Fixpoint print (v : value) : bytes :=
  match v with
  | Null => bytes_of "null"
  | Bool b => FormatBool b
  | Number n => bytes_of n
  | Str s => quoted s
  | List l => "["%char :: Json.joined [","%char] (map print l) ++ ["]"%char]
  | Obj o => "{"%char :: Json.joined [","%char] (map (λ m, quoted m.1 ++ ":"%char :: print m.2) o) ++ ["}"%char]
  end.

Lemma structureKey_print v : structureKey v = print (canon v).
Proof.
  induction v as [|b|n|s|l IH|o IH] using value_rect'; cbn [structureKey canon print]; try done.
  - by rewrite bytes_of_string_of.
  - do 3 f_equal. rewrite map_map. clear -IH. induction IH as [|v l Hv _ IH]; [done|]. cbn [map]. by rewrite Hv, IH.
  - do 3 f_equal. assert (H : Forall2 (λ a b, a.1 = b.1 ∧ a.2 = print b.2) (map (λ m, (m.1, structureKey m.2)) o) (map (λ m, (m.1, canon m.2)) o)).
    { induction IH as [|[k v] o Hv _ IH]; cbn [map]; by constructor. }
    apply AnyValue.sort_members_alike in H; [|by intros a b [? _]]. revert H.
    generalize (AnyValue.sort_members (map (λ m, (m.1, structureKey m.2)) o)), (AnyValue.sort_members (map (λ m, (m.1, canon m.2)) o)). clear.
    intros l k H. induction H as [|[a b] [c d] l k [H1 H2] _ IH]; [done|]. cbn [map fst snd] in *. by rewrite H1, H2, IH.
Qed.

(** A value whose numbers are such texts. *)
Inductive canonical : value → Prop :=
  | canonical_null : canonical Null
  | canonical_bool b : canonical (Bool b)
  | canonical_number n : atom (bytes_of n) → canonical (Number n)
  | canonical_str s : canonical (Str s)
  | canonical_list l : Forall canonical l → canonical (List l)
  | canonical_obj o : Forall (λ m, canonical m.2) o → canonical (Obj o).

Lemma canon_canonical v : canonical (canon v).
Proof.
  induction v as [|b|n|s|l IH|o IH] using value_rect'; cbn [canon]; constructor.
  - rewrite bytes_of_string_of. apply number_key_atom.
  - by apply Forall_fmap.
  - unfold AnyValue.sort_members. rewrite merge_sort_Permutation. by apply Forall_fmap.
Qed.

Definition solid_head (t : bytes) : Prop := ∃ c w, t = c :: w ∧ c ∉ [","; "]"; "}"]%char.

Lemma stops_cons c r : c ∈ [","; "]"; "}"]%char → Json.stops (c :: r).
Proof. done. Qed.

Section items.
Context {A : Type} (p : A → bytes) (ok ok' : A → Prop) (close : ascii).
Hypotheses (Hclose : close ∈ ["]"; "}"]%char) (Hhead : ∀ x, ok x → solid_head (p x)) (Hhead' : ∀ x, ok' x → solid_head (p x)).
Hypothesis Htold : ∀ x y r r', ok x → ok' y → Json.stops r → Json.stops r' → p x ++ r = p y ++ r' → x = y ∧ r = r'.

Definition tail_items (l : list A) : bytes := concat (map (λ x, ","%char :: p x) l).

Lemma joined_tail x l : Json.joined [","%char] (map p (x :: l)) = p x ++ tail_items l.
Proof.
  revert x. induction l as [|y l IH]; intros x; [cbn; by rewrite app_nil_r|]. cbn [map]. rewrite Json.joined_cons by done.
  specialize (IH y). cbn [map] in IH. rewrite IH. done.
Qed.

Lemma close_not_comma : close ≠ ","%char.
Proof. intros E. rewrite E in Hclose. repeat (apply elem_of_cons in Hclose as [H|Hclose]; [discriminate H|]). by apply elem_of_nil in Hclose. Qed.

Lemma tail_stops l r : Json.stops (tail_items l ++ close :: r).
Proof. destruct l as [|x l]; [by right|by left]. Qed.

Lemma tail_told l k r r' : Forall ok l → Forall ok' k → tail_items l ++ close :: r = tail_items k ++ close :: r' → l = k ∧ r = r'.
Proof.
  intros Hl. revert k. induction Hl as [|x l Hx Hl IH]; intros k Hk E; destruct Hk as [|y k Hy Hk].
  - by injection E.
  - cbn in E. injection E as E _. by destruct close_not_comma.
  - cbn in E. injection E as E _. by destruct close_not_comma.
  - unfold tail_items in E. cbn [map concat app] in E. injection E as E. rewrite <-!(assoc_L (++)) in E. fold (tail_items l) (tail_items k) in E.
    apply Htold in E as [-> E]; [|done|done|apply tail_stops..]. apply IH in E as [-> ->]; done.
Qed.

Lemma items_told l k r r' : Forall ok l → Forall ok' k →
  Json.joined [","%char] (map p l) ++ close :: r = Json.joined [","%char] (map p k) ++ close :: r' → l = k ∧ r = r'.
Proof.
  assert (Hno : ∀ x j s s', solid_head (p x) → close :: s = (p x ++ tail_items j) ++ s' → False).
  { intros x j s s' (c & w & Ec & Hc) E. rewrite Ec in E. injection E as <- _. apply Hc. by right. }
  intros Hl Hk E. destruct Hl as [|x l Hx Hl], Hk as [|y k Hy Hk]; rewrite ?joined_tail in E.
  - by injection E.
  - apply Hno in E; [done|by apply Hhead'].
  - symmetry in E. apply Hno in E; [done|by apply Hhead].
  - rewrite <-!(assoc_L (++)) in E. apply Htold in E as [-> E]; [|done|done|apply tail_stops..]. by apply tail_told in E as [-> ->].
Qed.
End items.

(** What a value starts with tells its kind. *)
Definition kind_of (c : ascii) : nat :=
  if eqb c "n"%char then 0 else if member c ["t"; "f"]%char then 1 else if eqb c Json.quote then 3
  else if eqb c "["%char then 4 else if eqb c "{"%char then 5 else 2.

Definition kind (v : value) : nat :=
  match v with Null => 0 | Bool _ => 1 | Number _ => 2 | Str _ => 3 | List _ => 4 | Obj _ => 5 end.

Lemma atom_head t : atom t → ∃ c w, t = c :: w ∧ c ∉ [","; "]"; "}"]%char ∧ kind_of c = 2.
Proof.
  intros (Hn & Hf & Hh). destruct t as [|c w]; [done|]. exists c, w. split; [done|]. apply Forall_cons in Hf as [Hc _]. split; [done|].
  specialize (Hh c eq_refl). unfold kind_of, eqb, member. rewrite !not_elem_of_cons in Hh. destruct Hh as (H1 & H2 & H3 & H4 & H5 & H6 & _).
  rewrite !bool_decide_false; try done. rewrite !elem_of_cons, elem_of_nil. tauto.
Qed.

Lemma print_head v : canonical v → ∃ c w, print v = c :: w ∧ c ∉ [","; "]"; "}"]%char ∧ kind_of c = kind v.
Proof.
  assert (H : ∀ c w n, bool_decide (c ∉ [","; "]"; "}"]%char) = true → kind_of c = n → ∃ c' w', c :: w = c' :: w' ∧ c' ∉ [","; "]"; "}"]%char ∧ kind_of c' = n).
  { intros c w n Hc Hn. exists c, w. split; [done|]. split; [|done]. by apply bool_decide_eq_true in Hc. }
  destruct 1 as [|b|n Hn|s|l _|o _]; cbn [print kind].
  - by apply H.
  - by destruct b; apply H.
  - by apply atom_head.
  - unfold quoted. destruct (GoQuote.Quote_head s) as [t ->]. by apply H.
  - by apply H.
  - by apply H.
Qed.

Lemma atom_told t t' r r' : atom t → atom t' → Json.stops r → Json.stops r' → t ++ r = t' ++ r' → t = t' ∧ r = r'.
Proof.
  intros (_ & Hf & _) (_ & Hf' & _) Hr Hr' E. set (p := λ c, negb (member c [","; "]"; "}"]%char)).
  assert (Hp : ∀ t r, Forall (λ c, c ∉ [","; "]"; "}"]%char) t → Json.stops r → span p (t ++ r) = (t, r)).
  { clear. intros t r Hf Hr. apply span_spec.
    - eapply Forall_impl; [exact Hf|]. intros c Hc. unfold p. apply negb_true_iff. by apply member_false.
    - intros x Hx. destruct r as [|c r]; [done|]. injection Hx as <-. unfold p. apply negb_false_iff. by apply member_true. }
  pose proof (Hp t r Hf Hr) as H1. rewrite E, (Hp t' r' Hf' Hr') in H1. by injection H1.
Qed.

Lemma print_solid v : canonical v → solid_head (print v).
Proof. intros Hv. destruct (print_head v Hv) as (c & w & Ew & Hc & _). by exists c, w. Qed.

Lemma same_kind v w r r' : canonical v → canonical w → print v ++ r = print w ++ r' → kind v = kind w.
Proof.
  intros Hv Hw E. destruct (print_head _ Hv) as (c & x & Ec & _ & <-), (print_head _ Hw) as (d & y & Ed & _ & <-).
  rewrite Ec, Ed in E. by injection E as -> _.
Qed.

(** The text of a value determines the value and where it ends. *)
Definition tells (v : value) : Prop :=
  ∀ w r r', canonical w → Json.stops r → Json.stops r' → print v ++ r = print w ++ r' → v = w ∧ r = r'.

Lemma list_tells l : canonical (List l) → Forall tells l → tells (List l).
Proof.
  intros Hv IH w r r' Hw Hr Hr' E. pose proof (same_kind _ _ _ _ Hv Hw E) as Hk. destruct w as [| | | |l'|]; try discriminate Hk.
  inversion_clear Hv as [| | | |? H1|]. inversion_clear Hw as [| | | |? H2|].
  cbn [print app] in E. injection E as E. rewrite <-!(assoc_L (++)) in E. cbn [app] in E.
  apply (items_told print (λ v, canonical v ∧ tells v) canonical "]"%char) in E as [-> ->]; try done.
  - by left.
  - intros x [Hx _]. by apply print_solid.
  - apply print_solid.
  - intros x y q q' [_ Hx] Hy. by apply Hx.
  - by apply Forall_and.
Qed.

Definition print_member (m : string * value) : bytes := quoted m.1 ++ ":"%char :: print m.2.

Lemma member_solid m : solid_head (print_member m).
Proof. unfold print_member, quoted. destruct (GoQuote.Quote_head m.1) as [t ->]. exists Json.quote. eexists. split; [done|]. by apply (bool_decide_eq_true_1 _). Qed.

Lemma obj_tells o : canonical (Obj o) → Forall (λ m, tells m.2) o → tells (Obj o).
Proof.
  intros Hv IH w r r' Hw Hr Hr' E. pose proof (same_kind _ _ _ _ Hv Hw E) as Hk. destruct w as [| | | | |o']; try discriminate Hk.
  inversion_clear Hv as [| | | | |? H1]. inversion_clear Hw as [| | | | |? H2].
  cbn [print app] in E. injection E as E. rewrite <-!(assoc_L (++)) in E. cbn [app] in E.
  apply (items_told print_member (λ m, canonical m.2 ∧ tells m.2) (λ m, canonical m.2) "}"%char) in E as [-> ->]; try done.
  - right. by left.
  - intros x _. apply member_solid.
  - intros x _. apply member_solid.
  - intros [k v] [k' v'] q q' [_ Hx] Hy Hq Hq'. unfold print_member, quoted. rewrite <-!(assoc_L (++)). cbn [fst snd app] in *. intros E'.
    apply GoQuote.Quote_inj in E' as [-> E']. injection E' as E'. by apply Hx in E' as [-> ->].
  - by apply Forall_and.
Qed.

Lemma print_told v : canonical v → tells v.
Proof.
  induction v as [|b|n|s|l IH|o IH] using value_rect'; intros Hv.
  5:{ apply list_tells; [done|]. inversion_clear Hv as [| | | |? H|]. rewrite Forall_forall in *. auto. }
  5:{ apply obj_tells; [done|]. inversion_clear Hv as [| | | | |? H]. rewrite Forall_forall in *. auto. }
  all: intros w r r' Hw Hr Hr' E; pose proof (same_kind _ _ _ _ Hv Hw E) as Hk; destruct w as [|b'|n'|s'|l'|o']; try discriminate Hk; cbn [print] in E.
  - split; [done|]. by apply app_inv_head in E.
  - destruct b, b'; try discriminate E; (split; [done|]); by apply app_inv_head in E.
  - inversion_clear Hv as [| |? H1| | |]. inversion_clear Hw as [| |? H2| | |]. apply atom_told in E as [E ->]; [|done..]. split; [|done].
    f_equal. by rewrite <-(string_of_bytes_of n), E, string_of_bytes_of.
  - unfold quoted in E. by apply GoQuote.Quote_inj in E as [-> ->].
Qed.

Lemma structureKey_canon v w : structureKey v = structureKey w ↔ canon v = canon w.
Proof.
  rewrite !structureKey_print. split; [|by intros ->]. intros E. apply (f_equal (λ t, t ++ [])) in E.
  by destruct (print_told _ (canon_canonical v) _ [] [] (canon_canonical w) I I E).
Qed.
End keys.

(** ** Equal values *)

Section equal.
Context {table : UnicodeTable}.

(** Two values are the same: numbers that amount to the same, lists of the same elements in
    their order, objects with the same members in any order, and anything else when equal. *)
Fixpoint same (v w : value) {struct v} : Prop :=
  match v, w with
  | Null, Null => True
  | Bool a, Bool b => a = b
  | Number n, Number m => same_number n m
  | Str s, Str t => s = t
  | List l, List k =>
      (fix items (l k : list value) : Prop :=
        match l, k with
        | [], [] => True
        | x :: l, y :: k => same x y ∧ items l k
        | _, _ => False
        end) l k
  | Obj o, Obj p =>
      length o = length p
      ∧ (fix members (o : object) : Prop :=
          match o with
          | [] => True
          | m :: o => match Get m.1 p with Some y => same m.2 y | None => False end ∧ members o
          end) o
  | _, _ => False
  end.

Lemma same_list l k : same (List l) (List k) ↔ Forall2 same l k.
Proof.
  revert k. induction l as [|x l IH]; intros [|y k]; cbn [same]; try (split; [done|by inversion 1]).
  specialize (IH k). cbn [same] in IH. rewrite IH. split; [by intros [? ?]; constructor|by inversion_clear 1].
Qed.

Lemma same_object o p :
  same (Obj o) (Obj p) ↔ length o = length p ∧ Forall (λ m, ∃ y, Get m.1 p = Some y ∧ same m.2 y) o.
Proof.
  cbn [same]. apply and_iff_compat_l. induction o as [|m o IH]; [by split; [constructor|]|].
  rewrite IH, Forall_cons. apply and_iff_compat_r. destruct (Get m.1 p) as [y|].
  - split; [by exists y|]. by intros (z & [= ->] & H).
  - split; [done|]. by intros (z & H & _).
Qed.

(** A list with distinct keys has one member of a key. *)
Lemma key_once {A} (l : list (string * A)) a b : NoDup l.*1 → a ∈ l → b ∈ l → a.1 = b.1 → a = b.
Proof.
  destruct a as [k x], b as [k' y]. intros Hn Ha Hb E. cbn in E. subst k'. f_equal.
  apply (elem_of_list_to_map_1 (M := gmap string) _ _ _ Hn) in Ha, Hb. congruence.
Qed.

Lemma sort_members_same {A} (l k : list (string * A)) : NoDup l.*1 → AnyValue.sort_members l = AnyValue.sort_members k ↔ l ≡ₚ k.
Proof.
  intros Hl. split; [intros E; by rewrite <-(AnyValue.sort_members_perm l), E, AnyValue.sort_members_perm|].
  intros E. apply (StronglySorted_unique_strong AnyValue.key_le).
  - intros x y. rewrite !AnyValue.sort_members_perm, <-E. intros Hx Hy H1 H2. apply (key_once l); try done. by apply (anti_symm String.le).
  - apply StronglySorted_merge_sort; apply _.
  - apply StronglySorted_merge_sort; apply _.
  - by rewrite !AnyValue.sort_members_perm.
Qed.

Definition canon_member (m : string * value) : string * value := (m.1, canon m.2).

Lemma canon_object o p :
  NoDup (Keys o) → NoDup (Keys p) →
  canon (Obj o) = canon (Obj p) ↔ length o = length p ∧ Forall (λ m, ∃ y, Get m.1 p = Some y ∧ canon m.2 = canon y) o.
Proof.
  intros Ho Hp. unfold Keys in *. cbn [canon]. fold canon_member.
  assert (Hkeys : ∀ q, (canon_member <$> q).*1 = q.*1) by (intros q; rewrite <-list_fmap_compose; done).
  transitivity (canon_member <$> o ≡ₚ canon_member <$> p).
  { rewrite <-sort_members_same by by rewrite Hkeys. split; [|by intros H; f_equal]. intros H. by injection H. }
  rewrite Forall_forall. split.
  - intros E. split; [apply Permutation_length in E; by rewrite !length_fmap in E|]. intros m Hm.
    assert (Hin : canon_member m ∈ canon_member <$> p) by (rewrite <-E; by apply list_elem_of_fmap_2).
    apply list_elem_of_fmap in Hin as ([k y] & Em & Hy). injection Em as E1 E2. exists y. split; [|done]. apply Get_member; [done|]. by rewrite E1.
  - intros [Hl H]. apply submseteq_length_Permutation; [|by rewrite !length_fmap, Hl].
    apply NoDup_submseteq; [apply (NoDup_fmap_1 fst); by rewrite Hkeys|]. intros x (m & -> & Hm)%list_elem_of_fmap.
    destruct (H m Hm) as (y & Hy & E). apply Get_member in Hy; [|done]. apply list_elem_of_fmap. exists (m.1, y). split; [|done].
    unfold canon_member. cbn. by rewrite E.
Qed.

(** The text of a structure key is that of every value that is the same. *)
Lemma canon_same v w : wf v → wf w → canon v = canon w ↔ same v w.
Proof.
  revert w. induction v as [|b|n|s|l IH|o IH] using value_rect'; intros w Hv Hw.
  1, 2, 4: destruct w; cbn [canon same]; split; first [done|congruence].
  - destruct w as [| |m| | |]; try (cbn [canon same]; split; first [done|congruence]). cbn [canon same]. rewrite <-number_key_same. split; [|by intros ->].
    intros [= E]. by rewrite <-(bytes_of_string_of (number_key n)), E, bytes_of_string_of.
  - destruct w as [| | | |k|]; try (cbn [canon same]; split; first [done|congruence]). rewrite same_list. inversion_clear Hv as [| | | |? Hl|]. inversion_clear Hw as [| | | |? Hk|]. cbn [canon].
    transitivity (map canon l = map canon k); [split; [by intros [= E]|by intros ->]|]. revert k Hk.
    induction IH as [|x l Hx _ IH]; intros [|y k] Hk; cbn [map]; try (split; [done|by inversion 1]).
    apply Forall_cons in Hl as [Hx' Hl], Hk as [Hy' Hk]. specialize (IH Hl k Hk). specialize (Hx y Hx' Hy'). split.
      * intros [= E1 E2]. constructor; [by apply Hx|by apply IH].
      * inversion_clear 1 as [|? ? ? ? E1 E2]. f_equal; [by apply Hx|by apply IH].
  - destruct w as [| | | | |p]; try (cbn [canon same]; split; first [done|congruence]). inversion_clear Hv as [| | | | |? Hn Ho]. inversion_clear Hw as [| | | | |? Hm Hp].
    rewrite canon_object, same_object by done. apply and_iff_compat_l. rewrite !Forall_forall in *.
    split; intros H m Hin; destruct (H m Hin) as (y & Hy & E); exists y; (split; [done|]); (eapply IH; [done|by apply Ho| |done]);
      apply Get_member in Hy; try done; by apply (Hp _ Hy).
Qed.
End equal.

(** ** Sets of elements *)

Lemma Compact_elem x l : x ∈ LegacyValue.Compact l ↔ x ∈ l.
Proof.
  induction l as [|y l IH]; [done|]. cbn [LegacyValue.Compact]. destruct l as [|z l]; [done|].
  destruct (eqb y z) eqn:E; [|by rewrite !elem_of_cons, IH, elem_of_cons].
  apply (proj1 (eqb_true _ _)) in E as ->. rewrite IH, !elem_of_cons. tauto.
Qed.

Lemma Compact_sorted l : StronglySorted bytes_le l → StronglySorted bytes_le (LegacyValue.Compact l) ∧ NoDup (LegacyValue.Compact l).
Proof.
  induction l as [|x l IH]; intros H; [by repeat constructor|]. apply StronglySorted_inv in H as [Hs Hx]. specialize (IH Hs) as [IH1 IH2].
  cbn [LegacyValue.Compact]. destruct l as [|y l]; [split; [by repeat constructor|apply NoDup_singleton]|].
  destruct (eqb x y) eqn:E; [done|]. apply (proj1 (eqb_false _ _)) in E. split.
  - constructor; [done|]. rewrite Forall_forall in *. intros z Hz. apply Hx. by apply Compact_elem.
  - constructor; [|done]. rewrite Compact_elem. intros Hin. apply E. apply (anti_symm bytes_le).
    + rewrite Forall_forall in Hx. apply Hx. by left.
    + apply elem_of_cons in Hin as [->|Hin]; [by destruct (total bytes_le y y)|]. apply StronglySorted_inv in Hs as [_ Hy]. rewrite Forall_forall in Hy. by apply Hy.
Qed.

Lemma sorted_set l k : LegacyValue.Compact (Sort l) = LegacyValue.Compact (Sort k) ↔ ∀ x, x ∈ l ↔ x ∈ k.
Proof.
  assert (Hin : ∀ l x, x ∈ LegacyValue.Compact (Sort l) ↔ x ∈ l) by (intros j x; rewrite Compact_elem; unfold Sort; by rewrite merge_sort_Permutation).
  split; [intros E x; by rewrite <-Hin, E, Hin|]. intros E.
  assert (Hs : ∀ l, StronglySorted bytes_le (LegacyValue.Compact (Sort l)) ∧ NoDup (LegacyValue.Compact (Sort l))).
  { intros j. apply Compact_sorted. unfold Sort. apply StronglySorted_merge_sort; apply _. }
  apply (StronglySorted_unique bytes_le); [apply Hs..|]. apply NoDup_Permutation; [apply Hs..|]. intros x. by rewrite !Hin, E.
Qed.

Section sets.
Context {case : CaseTable} {table : UnicodeTable}.

(** The elements of two lists are the same, each any number of times and in any order. *)
Definition same_elements (l k : list value) : Prop :=
  (∀ v, v ∈ l → ∃ w, w ∈ k ∧ same v w) ∧ ∀ w, w ∈ k → ∃ v, v ∈ l ∧ same v w.

Lemma same_canons l k : Forall wf l → Forall wf k → (∀ c, c ∈ structureKey <$> l ↔ c ∈ structureKey <$> k) ↔ same_elements l k.
Proof.
  rewrite !Forall_forall. intros Wl Wk. unfold same_elements. setoid_rewrite list_elem_of_fmap. split.
  - intros H. split.
    + intros v Hv. destruct (proj1 (H (structureKey v)) (ex_intro _ v (conj eq_refl Hv))) as (w & E & Hw). exists w. split; [done|].
      apply canon_same; [by apply Wl|by apply Wk|by apply structureKey_canon].
    + intros w Hw. destruct (proj2 (H (structureKey w)) (ex_intro _ w (conj eq_refl Hw))) as (v & E & Hv). exists v. split; [done|].
      apply canon_same; [by apply Wl|by apply Wk|by apply structureKey_canon].
  - intros [H1 H2] c. split.
    + intros (v & -> & Hv). destruct (H1 v Hv) as (w & Hw & E). exists w. split; [|done]. apply structureKey_canon, canon_same; [by apply Wl|by apply Wk|done].
    + intros (w & -> & Hw). destruct (H2 w Hw) as (v & Hv & E). exists v. split; [|done]. symmetry. apply structureKey_canon, canon_same; [by apply Wl|by apply Wk|done].
Qed.

(** The structure key of an operand list tells the set of the keys of its elements. *)
Lemma Of_structure_set l k :
  l ≠ [] → k ≠ [] → Structure (Of (List l)) = Structure (Of (List k)) ↔ ∀ c, c ∈ structureKey <$> l ↔ c ∈ structureKey <$> k.
Proof.
  intros Hl Hk. rewrite !Of_structure, <-sorted_set by done. split; [|by intros ->]. intros [= E].
  pose proof (items_told (λ t : bytes, t) (λ t, ∃ v, canonical v ∧ t = print v) (λ t, ∃ v, canonical v ∧ t = print v) "]"%char) as H.
  assert (Hok : ∀ l : list value, Forall (λ t, ∃ v, canonical v ∧ t = print v) (LegacyValue.Compact (Sort (structureKey <$> l)))).
  { intros j. apply Forall_forall. intros t Ht. rewrite Compact_elem in Ht. unfold Sort in Ht. rewrite merge_sort_Permutation in Ht.
    apply list_elem_of_fmap in Ht as (v & -> & _). exists (canon v). split; [apply canon_canonical|apply structureKey_print]. }
  apply (H ltac:(by left)) with (r := []) (r' := []); [..|apply Hok|apply Hok|by rewrite !map_id].
  - intros t (v & Hv & ->). by apply print_solid.
  - intros t (v & Hv & ->). by apply print_solid.
  - intros t t' q q' (v & Hv & ->) (w & Hw & ->) Hq Hq' E'. by destruct (print_told v Hv w q q' Hw Hq Hq' E') as [-> ->].
Qed.

(** C7: Of values whose objects hold each key once, as all that are decoded do: two lists of an
    operand, neither empty, have one structure key exactly when they hold the same elements,
    each any number of times and in any order, and two objects exactly when they hold the same
    members in any order; inside an element or a member a list keeps its order, and texts are
    equal with their case. Numbers are equal when they amount to one rational: an integer text
    the integer it writes, of any number of digits, any other number the decimal Java writes its
    double as; those past every double have no amount and are equal by their sign. *)
Theorem structure_exact :
  (∀ l k, Forall wf l → Forall wf k → l ≠ [] → k ≠ [] → Structure (Of (List l)) = Structure (Of (List k)) ↔ same_elements l k)
  ∧ ∀ o p, wf (Obj o) → wf (Obj p) → Structure (Of (Obj o)) = Structure (Of (Obj p)) ↔ same (Obj o) (Obj p).
Proof.
  split.
  - intros l k Wl Wk Hl Hk. rewrite Of_structure_set by done. by apply same_canons.
  - intros o p Wo Wp. unfold Of. cbn [of_value Structure]. rewrite <-canon_same, <-structureKey_canon by done.
    split; [intros H; apply (inj Some) in H; exact H|intros H; by rewrite H].
Qed.
End sets.

(** ** Witnesses *)

Section witnesses.
#[local] Existing Instance latin_case.
#[local] Existing Instance LegacyValue.latin_table.

Definition example_list : list value := [Number "1"; List [Number "2"; Null]; Str "É"; Null]%string.

Lemma list_texts_witness : Key (Of (List example_list)) = Some (Fold (Text (List example_list))).
Proof.
  assert (H : example_list ≠ []) by done. exact (proj1 (proj2 (proj2 (list_texts example_list H)))).
Defined.

Lemma structure_exact_witness :
  Structure (Of (List [Number "1"; Str "x"; Number "1.0"]))%string = Structure (Of (List [Str "x"; Number "1e0"]))%string
  ∧ Structure (Of (Obj [("a", Number "1e400"); ("b", Number "1.5")]))%string = Structure (Of (Obj [("b", Number "15e-1"); ("a", Number "1e500")]))%string.
Proof.
  split.
  - assert (W1 : Forall wf [Number "1"; Str "x"; Number "1.0"]%string) by repeat constructor.
    assert (W2 : Forall wf [Str "x"; Number "1e0"]%string) by repeat constructor.
    assert (H1 : [Number "1"; Str "x"; Number "1.0"]%string ≠ []) by done. assert (H2 : [Str "x"; Number "1e0"]%string ≠ []) by done.
    refine (proj2 (proj1 structure_exact _ _ W1 W2 H1 H2) _).
    assert (N1 : same (Number "1") (Number "1e0")) by (vm_compute; reflexivity).
    assert (N2 : same (Number "1.0") (Number "1e0")) by (vm_compute; reflexivity).
    split; apply (proj1 (Forall_forall _ _)); repeat (apply Forall_cons; split); try (apply Forall_nil; exact I).
    + exists (Number "1e0"). split; [right; by left|exact N1].
    + exists (Str "x"). split; [by left|reflexivity].
    + exists (Number "1e0"). split; [right; by left|exact N2].
    + exists (Str "x"). split; [right; by left|reflexivity].
    + exists (Number "1"). split; [by left|exact N1].
  - assert (W1 : wf (Obj [("a", Number "1e400"); ("b", Number "1.5")]%string)) by (constructor; [apply (bool_decide_eq_true_1 _); reflexivity|repeat constructor]).
    assert (W2 : wf (Obj [("b", Number "15e-1"); ("a", Number "1e500")]%string)) by (constructor; [apply (bool_decide_eq_true_1 _); reflexivity|repeat constructor]).
    refine (proj2 (proj2 structure_exact _ _ W1 W2) _). apply same_object. split; [reflexivity|].
    repeat constructor; eexists; (split; [reflexivity|vm_compute; reflexivity]).
Defined.
End witnesses.

End LegacyKeys.
