(* ===== verification/Legacy.v ===== *)
(** * Requests of the legacy API ([internal/legacy])

    The check routes of the legacy access-control API: what their bodies and headers become as
    the input of the policies, and which of them are refused before a policy runs. The decoder
    of the policy library, [util.UnmarshalJSON], is a parameter. *)
From S2P Require Import Prelude GoText Json Encoding JsonFields GoCase AnyValue.
Import GoText Encoding JsonFields GoCase AnyValue.

Module Legacy.

(** [RequestError]: a response of status 400 with its message. *)
Record RequestError := MkRequestError { Message : string }.

Definition errBadRequest : RequestError := MkRequestError "bad request".
Definition errDuplicateID : RequestError := MkRequestError "Duplicate resource id in bulk request: resource ids must be unique".
Definition errMissing (parameter : string) : RequestError := MkRequestError ("Missing required parameter: " +:+ parameter).

Record Resource := MkResource { ResourceType : any; Operation : any; Resource_ : any }.
Record Entry := MkEntry { ID : string; Entry_Operation : string }.

(** The bodies; a field of type [json.RawMessage] holds the bytes of its value, none when it is
    absent. *)
Record checkItem := MkCheckItem { C_ID : bytes; C_Type : bytes; C_Operation : bytes; C_Resource : bytes }.
Record operationsItem := MkOperationsItem { O_ID : bytes; O_Type : bytes; O_Operations : bytes; O_Resource : bytes }.
Record v2Body := MkV2Body { B_Type : bytes; B_Entries : bytes }.
Record v2Entry := MkV2Entry { V_ID : bytes; V_Operations : bytes; V_Resource : bytes }.

(** [json.Unmarshal] into each of them. *)
Definition decode_checkItem (b : bytes) : option checkItem :=
  (λ ms, MkCheckItem (raw_field "id" ms) (raw_field "type" ms) (raw_field "operation" ms) (raw_field "resource" ms)) <$> struct_members b.
Definition decode_operationsItem (b : bytes) : option operationsItem :=
  (λ ms, MkOperationsItem (raw_field "id" ms) (raw_field "type" ms) (raw_field "operations" ms) (raw_field "resource" ms)) <$> struct_members b.
Definition decode_v2Body (b : bytes) : option v2Body :=
  (λ ms, MkV2Body (raw_field "type" ms) (raw_field "entries" ms)) <$> struct_members b.
Definition decode_v2Entry (b : bytes) : option v2Entry :=
  (λ ms, MkV2Entry (raw_field "id" ms) (raw_field "operations" ms) (raw_field "resource" ms)) <$> struct_members b.

(** [json.Unmarshal] into a [[]json.RawMessage], of a text that starts with a bracket. *)
Definition raw_items (b : bytes) : option (list bytes) :=
  match Json.parse b with
  | Some (Json.JArr _ items) => Some (map raw_text items)
  | _ => None
  end.

(** [array]. *)
Definition array (body : bytes) : result RequestError (list bytes) :=
  let trimmed := TrimSpace body in
  match trimmed with
  | c :: _ =>
      if eqb c "["%char then match raw_items trimmed with Some items => Ok items | None => Err errBadRequest end
      else Err errBadRequest
  | [] => Err errBadRequest
  end.

(** [operations]. *)
Definition operations (raw : bytes) : option (list bytes) :=
  let trimmed := TrimSpace raw in
  match trimmed with
  | c :: _ =>
      if eqb c "["%char then
        ops ← raw_items trimmed;
        if is_nil ops then None else Some ops
      else None
  | [] => None
  end.

(** [present]. *)
Definition present (raw : bytes) : bool :=
  negb (member (TrimSpace raw) [[]; bytes_of "null"; [Json.quote; Json.quote]]).

(** [text]. *)
Definition text (raw : bytes) : string :=
  let s := TrimSpace raw in
  if is_nil s || eqb s (bytes_of "null") then EmptyString
  else if eqb (head s) (Some Json.quote) then
    match Json.parse raw with
    | Some (Json.JStr body) => Unquote body
    | _ => string_of s
    end
  else string_of s.

(** [uniqueIDs], [seen] the ids before. *)
Fixpoint unique_ids (seen : list bytes) (ids : list bytes) : result RequestError unit :=
  match ids with
  | [] => Ok tt
  | raw :: ids =>
      let s := TrimSpace raw in
      if is_nil s || eqb s (bytes_of "null") then unique_ids seen ids
      else if member s seen then Err errDuplicateID
      else unique_ids (s :: seen) ids
  end.

Definition uniqueIDs (ids : list bytes) : result RequestError unit := unique_ids [] ids.

Section requests.
(** [util.UnmarshalJSON] of a text into [any]; [None] is its error. *)
Variable UnmarshalJSON : bytes → option any.

(** [value]. *)
Definition value (raw : bytes) (fallback : any) : result RequestError any :=
  if is_nil raw then Ok fallback
  else match UnmarshalJSON raw with Some v => Ok v | None => Err errBadRequest end.

(** [newResource]. *)
Definition newResource (typ op res : bytes) : result RequestError Resource :=
  t ← value typ (Str EmptyString);
  o ← value op (Str EmptyString);
  r ← value res (Map []);
  Ok (MkResource t o r).

(** [checkItem.resource]. *)
Definition resource (it : checkItem) : result RequestError Resource :=
  if negb (present (C_Type it)) then Err (errMissing "type")
  else if negb (present (C_Operation it)) then Err (errMissing "operation")
  else newResource (C_Type it) (C_Operation it) (C_Resource it).

(** [CheckResource]. *)
Definition CheckResource (body : bytes) : result RequestError (list Resource) :=
  if is_nil (TrimSpace body) then Err errBadRequest
  else
    match decode_checkItem body with
    | None => Err errBadRequest
    | Some it => r ← resource it; Ok [r]
    end.

(** The loop of [CheckResourceBulk]. *)
Fixpoint check_items (items : list bytes) (resources : list Resource) (ids : list string) (rawIDs : list bytes)
    : result RequestError (list Resource * list string * list bytes) :=
  match items with
  | [] => Ok (resources, ids, rawIDs)
  | raw :: items =>
      match decode_checkItem raw with
      | None => Err (errMissing "type")
      | Some it => r ← resource it; check_items items (resources ++ [r]) (ids ++ [text (C_ID it)]) (rawIDs ++ [C_ID it])
      end
  end.

(** [CheckResourceBulk]. *)
Definition CheckResourceBulk (body : bytes) : result RequestError (list Resource * list string) :=
  items ← array body;
  '(resources, ids, rawIDs) ← check_items items [] [] [];
  _ ← uniqueIDs rawIDs;
  Ok (resources, ids).

(** [expand]. *)
Fixpoint expand (resources : list Resource) (entries : list Entry) (typ : bytes) (ops : list bytes) (res : bytes) (id : string)
    : result RequestError (list Resource * list Entry) :=
  match ops with
  | [] => Ok (resources, entries)
  | op :: ops =>
      let name := text op in
      if is_empty name then expand resources entries typ ops res id
      else
        r ← newResource typ [] res;
        expand (resources ++ [MkResource (ResourceType r) (Str name) (Resource_ r)]) (entries ++ [MkEntry id name]) typ ops res id
  end.

(** The loop of [CheckResourceBulkOperations]. *)
Fixpoint operation_items (items : list bytes) (resources : list Resource) (entries : list Entry) (rawIDs : list bytes)
    : result RequestError (list Resource * list Entry * list bytes) :=
  match items with
  | [] => Ok (resources, entries, rawIDs)
  | raw :: items =>
      match decode_operationsItem raw with
      | None => Err (errMissing "type")
      | Some it =>
          if negb (present (O_Type it)) then Err (errMissing "type")
          else
            match operations (O_Operations it) with
            | None => Err (errMissing "operations")
            | Some ops =>
                '(resources, entries) ← expand resources entries (O_Type it) ops (O_Resource it) (text (O_ID it));
                operation_items items resources entries (rawIDs ++ [O_ID it])
            end
      end
  end.

(** [CheckResourceBulkOperations]. *)
Definition CheckResourceBulkOperations (body : bytes) : result RequestError (list Resource * list Entry) :=
  items ← array body;
  '(resources, entries, rawIDs) ← operation_items items [] [] [];
  _ ← uniqueIDs rawIDs;
  Ok (resources, entries).

(** The loop of [CheckResourceBulkOperationsV2], [typ] the one type. *)
Fixpoint entry_items (typ : bytes) (items : list bytes) (resources : list Resource) (entries : list Entry) (rawIDs : list bytes)
    : result RequestError (list Resource * list Entry * list bytes) :=
  match items with
  | [] => Ok (resources, entries, rawIDs)
  | raw :: items =>
      match decode_v2Entry raw with
      | None => Err (errMissing "operations")
      | Some e =>
          match operations (V_Operations e) with
          | None => Err (errMissing "operations")
          | Some ops =>
              '(resources, entries) ← expand resources entries typ ops (V_Resource e) (text (V_ID e));
              entry_items typ items resources entries (rawIDs ++ [V_ID e])
          end
      end
  end.

(** [CheckResourceBulkOperationsV2]. *)
Definition CheckResourceBulkOperationsV2 (body : bytes) : result RequestError (list Resource * list Entry) :=
  if is_nil (TrimSpace body) then Err errBadRequest
  else
    match decode_v2Body body with
    | None => Err errBadRequest
    | Some b =>
        if negb (present (B_Type b)) then Err (errMissing "type")
        else if is_nil (B_Entries b) then Err (errMissing "entries")
        else
          items ← array (B_Entries b);
          '(resources, entries, rawIDs) ← entry_items (B_Type b) items [] [] [];
          _ ← uniqueIDs rawIDs;
          Ok (resources, entries)
    end.
End requests.

(** [CheckFilter]. *)
Definition CheckFilter (resourceType operation : string) : result RequestError (list Resource) :=
  if is_nil (TrimSpace (bytes_of resourceType)) then Err errBadRequest
  else
    let operation := if is_nil (TrimSpace (bytes_of operation)) then "ALL"%string else operation in
    Ok [MkResource (Str resourceType) (Str operation) (Map [])].

(** ** The input of the policies *)

(** [skipHeaders]. *)
Definition skipHeaders : list string :=
  [":authority"; ":path"; ":method"; ":scheme"; ":status"; ":protocol";
   "content-type"; "content-length"; "accept-encoding"; "host";
   "transfer-encoding"; "connection"; "x-forwarded-for"; "x-forwarded-proto";
   "x-request-id"; "x-envoy-expected-rq-timeout-ms"; "authorization";
   "incoming-token"]%string.

(** The headers of a request by name, in the order an iteration of the map takes them. *)
Notation headers := (list (string * list string)).

(** The function [get] of [Input]. *)
Definition get_header (hs : headers) (name : string) : string :=
  default EmptyString
    (list_find (λ kv, EqualFold (bytes_of kv.1) (bytes_of name) && negb (is_nil kv.2)) hs ≫= λ ikv, last ikv.2.2).

(** The subject a request acts for. *)
Definition subject_of (hs : headers) : string :=
  if EqualFold (TrimSpace (bytes_of (get_header hs "authorization-type"))) (bytes_of "anonymous") then EmptyString
  else if is_empty (get_header hs "incoming-token") then get_header hs "authorization"
  else get_header hs "incoming-token".

Section input.
Context {case : CaseTable}.

Definition ToLower_string (s : string) : string := string_of (ToLower (bytes_of s)).

(** The loop over the headers that the policies see. *)
Definition request_headers (hs : headers) : gmap string any :=
  fold_left (λ m kv,
    let name := ToLower_string kv.1 in
    if member name skipHeaders || is_nil kv.2 then m else <[name := Str (default EmptyString (last kv.2))]> m) hs ∅.

Definition resource_input (r : Resource) : any :=
  Map [("resourceType", ResourceType r); ("operation", Operation r); ("resource", Resource_ r)]%string.

(** [Input]. *)
Definition Input (hs : headers) (resources : list Resource) : any :=
  Map [("authorizationToken", Str (get_header hs "authorization"));
       ("subject", Str (subject_of hs));
       ("authorizationType", Str (get_header hs "authorization-type"));
       ("requestHeaders", Map (map_to_list (request_headers hs)));
       ("requestId", Str (get_header hs "x-request-id"));
       ("resources", List (map resource_input resources))]%string.
End input.

(** ** The ids of a request *)

(** The ids that are compared: as written, absent and null ones left out. *)
Definition named (ids : list bytes) : list bytes :=
  List.filter (λ s, negb (is_nil s || eqb s (bytes_of "null"))) (map TrimSpace ids).

Lemma unique_ids_spec seen ids :
  unique_ids seen ids = if bool_decide (NoDup (named ids) ∧ Forall (λ s, s ∉ seen) (named ids)) then Ok tt else Err errDuplicateID.
Proof.
  revert seen. induction ids as [|raw ids IH]; intros seen; cbn [unique_ids named map List.filter].
  { rewrite bool_decide_true; [done|]. split; constructor. }
  destruct (is_nil (TrimSpace raw) || eqb (TrimSpace raw) (bytes_of "null")); cbn [negb]; [apply IH|]. fold (named ids).
  generalize (TrimSpace raw) as s. intros s. destruct (member s seen) eqn:Es.
  - rewrite bool_decide_false; [done|]. intros [_ H]. apply Forall_cons in H as [H _]. by apply member_true in Es.
  - apply member_false in Es. rewrite IH. rewrite (bool_decide_ext _ (NoDup (s :: named ids) ∧ Forall (λ x, x ∉ seen) (s :: named ids))); [done|].
    rewrite NoDup_cons, Forall_cons, !Forall_forall. setoid_rewrite not_elem_of_cons. split.
    + intros [Hn H]. split_and!; [intros Hs; by destruct (H s Hs)|done..|]. intros x Hx. by apply H.
    + intros ((Hs & Hn) & _ & H). split; [done|]. intros x Hx. split; [by intros ->|by apply H].
Qed.

Lemma uniqueIDs_spec ids : uniqueIDs ids = if bool_decide (NoDup (named ids)) then Ok tt else Err errDuplicateID.
Proof.
  unfold uniqueIDs. rewrite unique_ids_spec. rewrite (bool_decide_ext _ (NoDup (named ids))); [done|].
  split; [by intros []|]. intros H. split; [done|]. apply Forall_forall. intros s _. apply not_elem_of_nil.
Qed.

(** ** The bulk requests as a whole *)

(** The operations of an item that are named. *)
Definition names (ops : list bytes) : list string := List.filter (λ n, negb (is_empty n)) (map text ops).

Section bulk.
Variable UnmarshalJSON : bytes → option any.
Notation newResource := (newResource UnmarshalJSON).
Notation expand := (expand UnmarshalJSON).

(** What an item contributes: a resource and an entry for each operation it names, its type and
    resource decoded when it names any. *)
Definition expanded (typ : bytes) (ops : list bytes) (res : bytes) (id : string) : result RequestError (list (Resource * Entry)) :=
  if is_nil (names ops) then Ok []
  else
    r ← newResource typ [] res;
    Ok ((λ n, (MkResource (ResourceType r) (Str n) (Resource_ r), MkEntry id n)) <$> names ops).

Definition v1_item (raw : bytes) : result RequestError (bytes * list (Resource * Entry)) :=
  match decode_operationsItem raw with
  | None => Err (errMissing "type")
  | Some it =>
      if present (O_Type it) then
        match operations (O_Operations it) with
        | None => Err (errMissing "operations")
        | Some ops => l ← expanded (O_Type it) ops (O_Resource it) (text (O_ID it)); Ok (O_ID it, l)
        end
      else Err (errMissing "type")
  end.

Definition v2_item (typ raw : bytes) : result RequestError (bytes * list (Resource * Entry)) :=
  match decode_v2Entry raw with
  | None => Err (errMissing "operations")
  | Some e =>
      match operations (V_Operations e) with
      | None => Err (errMissing "operations")
      | Some ops => l ← expanded typ ops (V_Resource e) (text (V_ID e)); Ok (V_ID e, l)
      end
  end.

(** The parts of a request put together. *)
Definition gathered (parts : list (bytes * list (Resource * Entry))) : list (Resource * Entry) := concat (snd <$> parts).

Lemma gathered_cons p parts : gathered (p :: parts) = p.2 ++ gathered parts.
Proof. done. Qed.

Definition bulk (item : bytes → result RequestError (bytes * list (Resource * Entry))) (items : list bytes)
    : result RequestError (list Resource * list Entry) :=
  parts ← mapM item items;
  _ ← (if bool_decide (NoDup (named (fst <$> parts))) then Ok tt else Err errDuplicateID);
  Ok (fst <$> gathered parts, snd <$> gathered parts).

Lemma expand_spec rs es typ ops res id :
  expand rs es typ ops res id = (l ← expanded typ ops res id; Ok (rs ++ (fst <$> l), es ++ (snd <$> l))).
Proof.
  revert rs es. unfold expanded. induction ops as [|op ops IH]; intros rs es; cbn [Legacy.expand names map List.filter]; [cbn; by rewrite !app_nil_r|].
  fold (names ops). destruct (is_empty (text op)) eqn:En; cbn [negb is_nil]; [apply IH|].
  destruct (newResource typ [] res) as [r|e] eqn:Er; cbn [mbind result_bind]; [|done]. rewrite IH.
  destruct (is_nil (names ops)) eqn:Ei; cbn.
  - apply is_nil_true in Ei. rewrite Ei. cbn. by rewrite !app_nil_r.
  - rewrite <-!(assoc_L (++)). done.
Qed.

(** The two loops differ in the item they read only. *)
Lemma items_spec (item : bytes → result RequestError (bytes * list (Resource * Entry)))
    (loop : list bytes → list Resource → list Entry → list bytes → result RequestError (list Resource * list Entry * list bytes)) :
  (∀ rs es ids, loop [] rs es ids = Ok (rs, es, ids)) →
  (∀ raw items rs es ids, loop (raw :: items) rs es ids
     = p ← item raw; loop items (rs ++ (fst <$> p.2)) (es ++ (snd <$> p.2)) (ids ++ [p.1])) →
  ∀ items rs es ids, loop items rs es ids
    = (parts ← mapM item items; Ok (rs ++ (fst <$> gathered parts), es ++ (snd <$> gathered parts), ids ++ (fst <$> parts))).
Proof.
  intros Hnil Hcons items. induction items as [|raw items IH]; intros rs es ids; [rewrite Hnil; cbn; by rewrite !app_nil_r|].
  rewrite Hcons. cbn [mapM]. destruct (item raw) as [p|e]; cbn [mbind result_bind]; [|done]. rewrite IH.
  destruct (mapM item items) as [parts|e]; cbn [mbind result_bind mret result_ret]; [|done].
  rewrite gathered_cons, fmap_cons, !fmap_app, <-!(assoc_L (++)). done.
Qed.

Lemma operation_items_spec items rs es ids :
  operation_items UnmarshalJSON items rs es ids
  = (parts ← mapM v1_item items; Ok (rs ++ (fst <$> gathered parts), es ++ (snd <$> gathered parts), ids ++ (fst <$> parts))).
Proof.
  apply items_spec; [done|]. clear. intros raw items rs es ids. cbn [operation_items]. unfold v1_item.
  destruct (decode_operationsItem raw) as [it|]; [|done]. destruct (present (O_Type it)); [|done]. cbn [negb].
  destruct (operations (O_Operations it)) as [ops|]; [|done]. rewrite expand_spec.
  by destruct (expanded (O_Type it) ops (O_Resource it) (text (O_ID it))).
Qed.

Lemma entry_items_spec typ items rs es ids :
  entry_items UnmarshalJSON typ items rs es ids
  = (parts ← mapM (v2_item typ) items; Ok (rs ++ (fst <$> gathered parts), es ++ (snd <$> gathered parts), ids ++ (fst <$> parts))).
Proof.
  apply items_spec; [done|]. clear. intros raw items rs es ids. cbn [entry_items]. unfold v2_item.
  destruct (decode_v2Entry raw) as [e|]; [|done]. destruct (operations (V_Operations e)) as [ops|]; [|done]. rewrite expand_spec.
  by destruct (expanded typ ops (V_Resource e) (text (V_ID e))).
Qed.

Lemma bulk_spec (item : bytes → result RequestError (bytes * list (Resource * Entry))) items (m : result RequestError (list Resource * list Entry * list bytes)) :
  m = (parts ← mapM item items; Ok ([] ++ (fst <$> gathered parts), [] ++ (snd <$> gathered parts), [] ++ (fst <$> parts))) →
  ('(resources, entries, rawIDs) ← m; _ ← uniqueIDs rawIDs; Ok (resources, entries)) = bulk item items.
Proof.
  intros ->. unfold bulk. destruct (mapM item items) as [parts|]; cbn [mbind result_bind]; [|done]. cbn [app]. by rewrite uniqueIDs_spec.
Qed.

(** The v1 request: its items one after the other, then its ids. *)
Lemma v1_spec body : CheckResourceBulkOperations UnmarshalJSON body = items ← array body; bulk v1_item items.
Proof.
  unfold CheckResourceBulkOperations. destruct (array body) as [items|]; cbn [mbind result_bind]; [|done]. apply bulk_spec, operation_items_spec.
Qed.

(** A resource and its entry name one operation, which is not empty. *)
Definition paired (r : Resource) (e : Entry) : Prop := Operation r = Str (Entry_Operation e) ∧ Entry_Operation e ≠ EmptyString.

Lemma expanded_paired typ ops res id l :
  expanded typ ops res id = Ok l → Forall (λ re, paired re.1 re.2 ∧ ID re.2 = id) l ∧ Entry_Operation <$> (snd <$> l) = names ops.
Proof.
  unfold expanded. destruct (is_nil (names ops)) eqn:E; [apply is_nil_true in E; intros [= <-]; by rewrite E|].
  intros H. result_inv. split.
  - apply Forall_fmap, Forall_forall. intros n Hn. cbn. split; [|done]. split; [done|]. cbn.
    apply list_elem_of_In, List.filter_In in Hn as [_ Hn]. apply negb_true_iff in Hn. by apply is_empty_false in Hn.
  - rewrite <-!list_fmap_compose. rewrite <-(list_fmap_id (names ops)) at 2. by apply list_fmap_ext.
Qed.

Lemma v1_item_paired raw p : v1_item raw = Ok p → Forall (λ re, paired re.1 re.2 ∧ ID re.2 = text p.1) p.2.
Proof.
  unfold v1_item. destruct (decode_operationsItem raw) as [it|]; [|done]. destruct (present _); [|done].
  destruct (operations _) as [ops|]; [|done]. intros H. result_inv. by eapply expanded_paired.
Qed.

Lemma v2_item_paired typ raw p : v2_item typ raw = Ok p → Forall (λ re, paired re.1 re.2 ∧ ID re.2 = text p.1) p.2.
Proof.
  unfold v2_item. destruct (decode_v2Entry raw) as [e|]; [|done].
  destruct (operations _) as [ops|]; [|done]. intros H. result_inv. by eapply expanded_paired.
Qed.

Lemma bulk_paired (item : bytes → result RequestError (bytes * list (Resource * Entry))) items rs es :
  (∀ raw p, item raw = Ok p → Forall (λ re, paired re.1 re.2 ∧ ID re.2 = text p.1) p.2) →
  bulk item items = Ok (rs, es) → Forall2 paired rs es.
Proof.
  intros Hitem H. unfold bulk in H. result_inv. destruct (bool_decide _); [|done]. result_inv.
  apply Forall2_fmap, Forall_Forall2_diag. apply mapM_Ok in Hstep.
  induction Hstep as [|raw p items parts Hp _ IH]; [constructor|]. rewrite gathered_cons. apply Forall_app. split; [|exact IH].
  eapply Forall_impl; [by eapply Hitem|]. by intros re [? _].
Qed.
End bulk.

(** ** Headers *)

(** The entry of a map the input holds. *)
Definition field (name : string) (v : any) : option any := match v with Map m => get name m | _ => None end.

Lemma get_map_to_list (m : gmap string any) name : get name (map_to_list m) = m !! name.
Proof. unfold get. by rewrite list_to_map_to_list. Qed.

(** The letters of a word that only they fold to: lower case, and no long s. *)
Definition lower_word (w : bytes) : Prop := Forall (λ c, within "A" c "Z" = false ∧ c ≠ "s"%char ∧ (N_of_ascii c < 128)%N) w.

Lemma fold_rune_lower {case : CaseTable} r c :
  lower_table 8490%N = 107%N → within "A" c "Z" = false ∧ c ≠ "s"%char ∧ (N_of_ascii c < 128)%N →
  fold_rune r = fold_rune (N_of_ascii c) → encode (lower_rune r) = [c].
Proof.
  intros Hk (Hup & Hs & Hc) E.
  assert (Hlow : lower c = c) by (unfold lower; by rewrite Hup).
  assert (Hr : lower_rune r = N_of_ascii c); [|rewrite Hr; by apply encode_ascii].
  assert (Hrc : r = N_of_ascii c ∨ (65 ≤ r ≤ 90)%N ∧ N_of_ascii c = (r + 32)%N ∨ r = 8490%N ∧ N_of_ascii c = 107%N).
  { assert (N_of_ascii c ≠ 115)%N as Hs' by (intros H; apply Hs; by rewrite <-(ascii_N_embedding c), H).
    unfold within in Hup. rewrite andb_false_iff, !N.leb_gt in Hup. change (N_of_ascii "A") with 65%N in Hup. change (N_of_ascii "Z") with 90%N in Hup.
    revert E. unfold fold_rune, eqb. generalize dependent (N_of_ascii c). intros n; intros.
    repeat case_match; repeat case_bool_decide; bool_simp; lia. }
  unfold lower_rune. destruct Hrc as [->|[[Hr E']|[-> E']]].
  - rewrite (proj2 (N.ltb_lt _ _) Hc). unfold byte_of. by rewrite ascii_N_embedding, Hlow.
  - rewrite (proj2 (N.ltb_lt _ _)) by lia. unfold lower, within. rewrite !byte_of_N by lia.
    change (N_of_ascii "A") with 65%N. change (N_of_ascii "Z") with 90%N.
    rewrite (proj2 (N.leb_le 65 r)), (proj2 (N.leb_le r 90)) by lia. cbn [andb]. rewrite byte_of_N by lia. done.
  - change (8490 <? 128)%N with false. cbn iota. by rewrite Hk.
Qed.

(** A name that is the word in any letter case is the word in lower case. *)
Lemma EqualFold_lower {case : CaseTable} s w :
  lower_table 8490%N = 107%N → lower_word w → EqualFold s w = true → ToLower s = w.
Proof.
  intros Hk Hw E. unfold EqualFold in E. apply (proj1 (eqb_true _ _)) in E. unfold folded in E. rewrite !bytes_of_string_of in E.
  assert (Ha : is_ascii w) by (eapply Forall_impl; [exact Hw|]; by intros c (_ & _ & H)).
  rewrite (runes_ascii w Ha), <-list_fmap_compose in E. unfold ToLower, map_runes. clear Ha.
  generalize dependent (runes s). intros rs E. revert rs E. induction Hw as [|c w Hc Hw IH]; intros [|[r b] rs] E; try done.
  cbn in E. injection E as E1 E2. cbn [map concat fst]. rewrite (IH rs E2). by rewrite (fold_rune_lower r c Hk Hc E1).
Qed.

Section headers.
Context {case : CaseTable}.

Lemma request_headers_spec (hs : headers) (m : gmap string any) name v :
  fold_left (λ (m : gmap string any) kv, let name := ToLower_string kv.1 in
    if member name skipHeaders || is_nil kv.2 then m else <[name := Str (default EmptyString (last kv.2))]> m) hs m !! name = Some v →
  m !! name = Some v ∨ name ∉ skipHeaders ∧ ∃ k vs s, (k, vs) ∈ hs ∧ name = ToLower_string k ∧ last vs = Some s ∧ v = Str s.
Proof.
  revert m. induction hs as [|[k vs] hs IH]; intros m; cbn [fold_left]; [by left|]. cbn [fst snd].
  intros [H|(Hn & k' & vs' & s & Hin & ?)]%IH; [|right; split; [done|]; exists k', vs', s; split; [by right|done]].
  destruct (member (ToLower_string k) skipHeaders || is_nil vs) eqn:E; [by left|].
  apply orb_false_iff in E as [E1 E2]. apply member_false in E1. apply is_nil_false in E2.
  destruct (decide (name = ToLower_string k)) as [->|Hne]; [|left; by rewrite lookup_insert_ne in H].
  rewrite lookup_insert_eq in H. injection H as <-. right. split; [done|].
  destruct (last vs) as [s|] eqn:Es; [|by apply last_None in Es]. exists k, vs, s. split; [by left|done].
Qed.

(** C9: The policies see no token among the headers: no header that may be read as one of the two
    token headers, in any letter case, and none that the agent keeps to itself; every header
    they see is the last value of a header of the request. *)
Theorem tokens_kept_out hs rs rh name v :
  lower_table 8490%N = 107%N →
  field "requestHeaders" (Input hs rs) = Some (Map rh) → get name rh = Some v →
  name ∉ skipHeaders
  ∧ ∃ k vs s, (k, vs) ∈ hs ∧ name = ToLower_string k ∧ last vs = Some s ∧ v = Str s
      ∧ EqualFold (bytes_of k) (bytes_of "authorization") = false ∧ EqualFold (bytes_of k) (bytes_of "incoming-token") = false.
Proof.
  intros Hk H Hv. assert (E : field "requestHeaders" (Input hs rs) = Some (Map (map_to_list (request_headers hs)))) by reflexivity.
  rewrite E in H. assert (rh = map_to_list (request_headers hs)) as -> by congruence. clear E H. rewrite get_map_to_list in Hv. apply request_headers_spec in Hv as [Hv|(Hn & k & vs & s & Hin & -> & Hs & ->)]; [done|].
  split; [done|]. exists k, vs, s. split_and!; try done.
  all: apply not_true_iff_false; intros E; apply EqualFold_lower in E; [|done|by repeat constructor];
    apply Hn; unfold ToLower_string; rewrite E, string_of_bytes_of; by apply member_true.
Qed.
(** ** The order of the headers *)

(** The headers have names of which no two are one name in another letter case. *)
Definition distinct_names (hs : headers) : Prop :=
  NoDup ((λ kv, folded kv.1) <$> hs) ∧ NoDup ((λ kv, ToLower_string kv.1) <$> hs).

Lemma list_find_perm {A} (P : A → Prop) `{∀ x, Decision (P x)} (l k : list A) :
  l ≡ₚ k → (∀ i j x y, l !! i = Some x → l !! j = Some y → P x → P y → i = j) →
  snd <$> list_find P l = snd <$> list_find P k.
Proof.
  intros Hp Hu. destruct (list_find P l) as [[i x]|] eqn:El, (list_find P k) as [[j y]|] eqn:Ek; cbn; try done.
  - apply list_find_Some in El as (Hi & Px & _), Ek as (Hj & Py & _).
    assert (y ∈ l) as [j' Hj']%list_elem_of_lookup_1 by (rewrite Hp; by eapply list_elem_of_lookup_2).
    rewrite (Hu i j' x y Hi Hj' Px Py) in Hi. congruence.
  - apply list_find_Some in El as (Hi & Px & _). apply list_find_None in Ek. rewrite Forall_forall in Ek.
    destruct (Ek x); [|done]. rewrite <-Hp. by eapply list_elem_of_lookup_2.
  - apply list_find_Some in Ek as (Hi & Px & _). apply list_find_None in El. rewrite Forall_forall in El.
    destruct (El y); [|done]. rewrite Hp. by eapply list_elem_of_lookup_2.
Qed.

Lemma get_header_perm hs hs' name : hs ≡ₚ hs' → NoDup ((λ kv, folded kv.1) <$> hs) → get_header hs name = get_header hs' name.
Proof.
  intros Hp Hn. unfold get_header. f_equal.
  assert (E : ∀ l : headers, (list_find (λ kv, EqualFold (bytes_of kv.1) (bytes_of name) && negb (is_nil kv.2)) l ≫= λ ikv, last ikv.2.2)
    = (snd <$> list_find (λ kv, EqualFold (bytes_of kv.1) (bytes_of name) && negb (is_nil kv.2)) l) ≫= λ kv, last kv.2).
  { intros l. by destruct (list_find _ l). }
  rewrite !E. f_equal. apply list_find_perm; [done|]. intros i j x y Hi Hj Px Py.
  apply Is_true_true, andb_true_iff in Px as [Px _], Py as [Py _]. unfold EqualFold in Px, Py. apply (proj1 (eqb_true _ _)) in Px, Py.
  rewrite !string_of_bytes_of in Px, Py. rewrite NoDup_alt in Hn. eapply Hn; rewrite list_lookup_fmap; [by rewrite Hi|rewrite Hj; cbn; by rewrite Px, Py].
Qed.

Definition header_step (kv : string * list string) (m : gmap string any) : gmap string any :=
  if member (ToLower_string kv.1) skipHeaders || is_nil kv.2 then m
  else <[ToLower_string kv.1 := Str (default EmptyString (last kv.2))]> m.

Lemma request_headers_foldr hs : request_headers hs = foldr header_step ∅ (reverse hs).
Proof. unfold request_headers, reverse. rewrite rev_append_rev, app_nil_r. symmetry. exact (fold_left_rev_right header_step hs ∅). Qed.

Lemma request_headers_perm hs hs' : hs ≡ₚ hs' → NoDup ((λ kv, ToLower_string kv.1) <$> hs) → request_headers hs = request_headers hs'.
Proof.
  intros Hp Hn. rewrite !request_headers_foldr. apply (foldr_permutation (=) header_step ∅); [|by rewrite !reverse_Permutation].
  intros i x j y m Hij Hi Hj. unfold header_step.
  destruct (member (ToLower_string x.1) skipHeaders || is_nil x.2); [done|].
  destruct (member (ToLower_string y.1) skipHeaders || is_nil y.2); [done|].
  apply insert_insert_ne. intros E. apply Hij.
  assert (Hr : NoDup ((λ kv, ToLower_string kv.1) <$> reverse hs)) by by rewrite reverse_Permutation.
  rewrite NoDup_alt in Hr. eapply Hr; rewrite list_lookup_fmap; [by rewrite Hi|rewrite Hj; cbn; by rewrite E].
Qed.

(** The input does not depend on the order in which the map of the headers is iterated. *)
Theorem Input_order hs hs' rs : distinct_names hs → hs ≡ₚ hs' → Input hs rs = Input hs' rs.
Proof.
  intros [Hf Hl] Hp. unfold Input, subject_of. by rewrite (request_headers_perm hs hs'), !(get_header_perm hs hs').
Qed.
End headers.

(** ** What the bulk requests promise *)

Section promises.
Variable UnmarshalJSON : bytes → option any.
Notation v1_item := (v1_item UnmarshalJSON).
Notation v2_item := (v2_item UnmarshalJSON).

(** C15: A bulk request is accepted exactly when it is an array of which every item has a type and
    operations that decode, and no two items have the same id; it then asks for every operation
    its items name, in the order of the items and of their operations. *)
Theorem bulk_operations_exact body rs es :
  CheckResourceBulkOperations UnmarshalJSON body = Ok (rs, es) ↔
  ∃ items parts, array body = Ok items ∧ Forall2 (λ raw p, v1_item raw = Ok p) items parts
    ∧ NoDup (named (fst <$> parts)) ∧ rs = fst <$> gathered parts ∧ es = snd <$> gathered parts.
Proof.
  rewrite v1_spec. split.
  - intros H. result_inv. unfold bulk in *. result_inv. destruct (bool_decide _) eqn:E; [|done]. apply bool_decide_eq_true in E.
    result_inv. eexists _, _. split; [done|]. split_and!; [by apply mapM_Ok|done..].
  - intros (items & parts & -> & Hp & Hn & -> & ->). cbn [mbind result_bind]. unfold bulk.
    apply mapM_Ok in Hp. rewrite Hp. cbn [mbind result_bind]. by rewrite bool_decide_true.
Qed.

(** The items of a v2 request and of a v1 request that gives each of them the one type. *)
Definition shares (typ raw2 raw1 : bytes) : Prop :=
  ∃ e it, decode_v2Entry raw2 = Some e ∧ decode_operationsItem raw1 = Some it
    ∧ O_Type it = typ ∧ O_ID it = V_ID e ∧ O_Operations it = V_Operations e ∧ O_Resource it = V_Resource e.

Lemma shares_item typ raw2 raw1 : present typ = true → shares typ raw2 raw1 → v2_item typ raw2 = v1_item raw1.
Proof.
  intros Hp (e & it & E2 & E1 & <- & Hi & Ho & Hr). unfold Legacy.v2_item, Legacy.v1_item. by rewrite E2, E1, Hp, Hi, Ho, Hr.
Qed.

(** A v2 request means the v1 request whose items have its one type: the same resources and
    entries, or the same refusal. *)
Theorem v2_as_v1 body2 body1 b items2 items1 :
  TrimSpace body2 ≠ [] → decode_v2Body body2 = Some b → present (B_Type b) = true →
  array (B_Entries b) = Ok items2 → array body1 = Ok items1 → Forall2 (shares (B_Type b)) items2 items1 →
  CheckResourceBulkOperationsV2 UnmarshalJSON body2 = CheckResourceBulkOperations UnmarshalJSON body1.
Proof.
  intros H2 Eb Hp E2 E1 Hs. rewrite v1_spec, E1. cbn [mbind result_bind]. unfold CheckResourceBulkOperationsV2.
  rewrite (proj2 (is_nil_false _) H2), Eb, Hp. cbn [negb].
  assert (is_nil (B_Entries b) = false) as -> by (apply is_nil_false; intros H; by rewrite H in E2).
  rewrite E2. cbn [mbind result_bind]. rewrite (bulk_spec (v2_item (B_Type b)) items2) by apply entry_items_spec. unfold bulk.
  assert (mapM (v2_item (B_Type b)) items2 = mapM v1_item items1) as ->; [|done].
  clear -Hp Hs. induction Hs as [|raw2 raw1 items2 items1 H _ IH]; [done|]. cbn [mapM]. by rewrite IH, (shares_item _ _ _ Hp H).
Qed.

(** What either request asks for are pairs of a resource and an entry of one operation, which is
    not empty. *)
Lemma v1_paired body rs es : CheckResourceBulkOperations UnmarshalJSON body = Ok (rs, es) → Forall2 paired rs es.
Proof. rewrite v1_spec. intros H. result_inv. eapply bulk_paired; [|done]. apply v1_item_paired. Qed.

Lemma v2_paired body rs es : CheckResourceBulkOperationsV2 UnmarshalJSON body = Ok (rs, es) → Forall2 paired rs es.
Proof.
  unfold CheckResourceBulkOperationsV2. destruct (is_nil (TrimSpace body)); [done|]. destruct (decode_v2Body body) as [b|]; [|done].
  destruct (present (B_Type b)); [|done]. destruct (is_nil (B_Entries b)); [done|]. cbn [negb].
  destruct (array (B_Entries b)) as [items|]; [|done]. cbn [mbind result_bind].
  rewrite (bulk_spec (v2_item (B_Type b)) items) by apply entry_items_spec. apply bulk_paired, v2_item_paired.
Qed.
End promises.

(** ** Requests of the tests *)

Notation "'messages' l" := ((λ r, match r with Ok _ => EmptyString | Err e => Message e end) <$> l) (at level 10, only parsing).

Example CheckResource_examples :
  messages (CheckResource decode_any ∘ quoting <$>
    ["{^type^:^ORDER^,^operation^:^READ^}"; " "; "[]"; "{^type^:^ORDER^,^operation^:^READ^"; "null"; "{^type^:null,^operation^:^READ^}";
     "{^type^:^^,^operation^:^^}"; "{^type^:^ORDER^}"; "{^resource^:{^type^:^X^},^operation^:^READ^}"; "{^type^:^ ^,^operation^:^READ^}"]%string)
  = [EmptyString; "bad request"; "bad request"; "bad request"; "Missing required parameter: type"; "Missing required parameter: type";
     "Missing required parameter: type"; "Missing required parameter: operation"; "Missing required parameter: type"; EmptyString]%string
  ∧ CheckResource decode_any (quoting "{^type^:5,^operation^:^READ^,^resource^:null}") = Ok [MkResource (Number "5") (Str "READ") Nil].
Proof. split; vm_compute; reflexivity. Qed.

Example CheckResourceBulk_examples :
  (λ r, match r with Ok (_, ids) => ids | Err e => [Message e] end) ∘ CheckResourceBulk decode_any ∘ quoting <$>
    ["[{^id^:^a^,^type^:^ORDER^,^operation^:^READ^},{^type^:^ORDER^,^operation^:^DELETE^},{^id^:7,^type^:^X^,^operation^:^Y^}]"; "[]";
     "[{^id^:^a^,^type^:^ORDER^,^operation^:^READ^},{^id^:^a^,^type^:^ORDER^,^operation^:^DELETE^}]";
     "[{^id^:1,^type^:^ORDER^,^operation^:^READ^},{^id^:^1^,^type^:^ORDER^,^operation^:^READ^}]"; "[^ORDER^]"; "null"]%string
  = [["a"; EmptyString; "7"]; []; ["Duplicate resource id in bulk request: resource ids must be unique"]; ["1"; "1"];
     ["Missing required parameter: type"]; ["bad request"]]%string.
Proof. vm_compute. reflexivity. Qed.

Definition example_body : bytes :=
  quoting "[{^id^:^a^,^type^:^ORDER^,^operations^:[^READ^,5,^^,null],^resource^:{^k^:^v^}},{^id^:null,^type^:^DOC^,^operations^:[^WRITE^]}]".

Example CheckResourceBulkOperations_example :
  CheckResourceBulkOperations decode_any example_body
  = Ok ([MkResource (Str "ORDER") (Str "READ") (Map [("k", Str "v")]); MkResource (Str "ORDER") (Str "5") (Map [("k", Str "v")]);
         MkResource (Str "DOC") (Str "WRITE") (Map [])], [MkEntry "a" "READ"; MkEntry "a" "5"; MkEntry EmptyString "WRITE"])%string.
Proof. vm_compute. reflexivity. Qed.

Example CheckFilter_examples :
  CheckFilter "ORDER" " " = Ok [MkResource (Str "ORDER") (Str "ALL") (Map [])]
  ∧ CheckFilter " ORDER " " READ" = Ok [MkResource (Str " ORDER ") (Str " READ") (Map [])]
  ∧ CheckFilter " " "READ" = Err errBadRequest.
Proof. split_and!; vm_compute; reflexivity. Qed.

Definition example_headers : headers :=
  [("Authorization", ["Bearer first"; "Bearer m2m"]); ("Incoming-Token", ["Bearer user"]); ("X-Tenant", ["acme"]); ("Host", ["agent"])]%string.

Example Input_example :
  let case := latin_case in
  Input example_headers [] = Map [("authorizationToken", Str "Bearer m2m"); ("subject", Str "Bearer user"); ("authorizationType", Str EmptyString);
    ("requestHeaders", Map [("x-tenant", Str "acme")]); ("requestId", Str EmptyString); ("resources", List [])]%string
  ∧ subject_of (("authorization-type", [" Anonymous "]) :: example_headers)%string = EmptyString.
Proof. split; vm_compute; reflexivity. Qed.

(** A body that is no JSON text is read as the array it holds: the space around it is that of
    [bytes.TrimSpace], not that of JSON. *)
Theorem array_past_space :
  let body := "011"%char :: bytes_of "[1]" ++ ["194"; "160"]%char in
  Json.parse body = None ∧ array body = Ok [bytes_of "1"].
Proof. split; vm_compute; reflexivity. Qed.

(** ** Witnesses *)

Lemma tokens_kept_out_witness :
  let case := latin_case in
  "x-tenant"%string ∉ skipHeaders
  ∧ ∃ k vs s, (k, vs) ∈ example_headers ∧ "x-tenant"%string = ToLower_string k ∧ last vs = Some s ∧ Str "acme" = Str s
      ∧ EqualFold (bytes_of k) (bytes_of "authorization") = false ∧ EqualFold (bytes_of k) (bytes_of "incoming-token") = false.
Proof.
  assert (H1 : field "requestHeaders" (Input (case := latin_case) example_headers []) = Some (Map [("x-tenant"%string, Str "acme")])) by (vm_compute; reflexivity).
  assert (H2 : get "x-tenant" [("x-tenant"%string, Str "acme")] = Some (Str "acme")) by (vm_compute; reflexivity).
  exact (tokens_kept_out (case := latin_case) example_headers [] _ _ _ eq_refl H1 H2).
Defined.

Lemma Input_order_witness : Input (case := latin_case) example_headers [] = Input (case := latin_case) (reverse example_headers) [].
Proof.
  apply (Input_order (case := latin_case)).
  - split; [apply (bool_decide_eq_true_1 _)|apply (bool_decide_eq_true_1 _)]; vm_compute; reflexivity.
  - symmetry. apply reverse_Permutation.
Defined.

Lemma v2_as_v1_witness :
  CheckResourceBulkOperationsV2 decode_any (quoting "{^type^:^ORDER^,^entries^:[{^id^:^a^,^operations^:[^READ^]}]}")
  = CheckResourceBulkOperations decode_any (quoting "[{^type^:^ORDER^,^id^:^a^,^operations^:[^READ^]}]").
Proof.
  eapply (v2_as_v1 decode_any).
  - vm_compute. discriminate.
  - vm_compute. reflexivity.
  - vm_compute. reflexivity.
  - vm_compute. reflexivity.
  - vm_compute. reflexivity.
  - constructor; [|constructor]. eexists _, _. split_and!; vm_compute; reflexivity.
Defined.

End Legacy.
