(* ===== verification/LegacyResponse.v ===== *)
(** * Responses of the legacy API ([internal/legacy])

    The shapes of the decision on the check routes, over the value the policy engine returns.
    [None] is the panic of [mustJSON]; the theorems show that no decision of the engine
    reaches it. *)
From S2P Require Import Prelude GoText Json Encoding Value Digits Authn AnyValue Legacy.
Import GoText Encoding AnyValue Legacy.

Module LegacyResponse.

(** How a [float64] past the range of an [int] is converted, which the language leaves to the
    implementation. *)
Class FloatToInt := { out_of_int : bool → Z * Z → Z }.

(** [object], a nil map for any other value. *)
Definition object (v : any) : list (string * any) := match v with Map m => m | _ => [] end.

(** [results]. *)
Definition results (result : any) : list any := match get "results" (object result) with Some (List l) => l | _ => [] end.

(** [first]. *)
Definition first (l : list any) : any := match l with v :: _ => v | [] => Nil end.

(** [allowed]. *)
Definition allowed (item : any) : bool := match get "isAllowed" (object item) with Some (Bool true) => true | _ => false end.

Section responses.
Context {floats : Authn.JsonFloat} {conversion : FloatToInt}.

(** [int] of a [float64]. *)
Definition int_of (negative : bool) (size : Z * Z) : Z :=
  let z := (if negative then - truncate_double size else truncate_double size)%Z in
  if bool_decide (in_int64 z) then z else out_of_int negative size.

(** [number]; a [json.Number] past the largest [float64] is an error. *)
Definition number (v : any) : option Z :=
  match v with
  | Number t =>
      if isValidNumber (bytes_of t) then
        let '(negative, size) := ParseFloat (bytes_of t) in
        if more_than size (2 ^ 1024 - 1) then None else Some (int_of negative size)
      else None
  | Float negative size => Some (int_of negative size)
  | Int n => Some n
  | _ => None
  end.

(** [AuthError]: the status and the body of a decision that is refused. *)
Definition AuthError (result : any) : option (Z * option bytes) :=
  raw ← get "authError" (object result);
  let fields := object raw in
  let status := match get "status" fields ≫= number with Some n => n | None => 401%Z end in
  let message := default (Str "unauthorized") (get "message" fields) in
  Some (status, mustJSON (Map [("message"%string, message)])).

(** [CheckResourceResponse]. *)
Definition CheckResourceResponse (result : any) (v2 : bool) : option bytes :=
  let decision := allowed (first (results result)) in
  if v2 then mustJSON (Map [("decision"%string, Bool decision)]) else mustJSON (Bool decision).

(** The loop of [CheckResourceBulkResponse]: the results and the ids by their index. *)
Fixpoint allowed_ids (rs : list any) (ids : list string) (out : list string) : list string :=
  match rs, ids with
  | r :: rs, id :: ids => allowed_ids rs ids (if negb (is_empty id) && allowed r then out ++ [id] else out)
  | _, _ => out
  end.

(** [CheckResourceBulkResponse]. *)
Definition CheckResourceBulkResponse (result : any) (ids : list string) : option bytes :=
  mustJSON (List (Str <$> allowed_ids (results result) ids [])).

(** The loops of [CheckResourceBulkOperationsResponse]. *)
Definition no_ids (entries : list Entry) : gmap string (list string) :=
  fold_left (λ m e, <[Entry_Operation e := []]> m) entries ∅.

Fixpoint group_ids (rs : list any) (entries : list Entry) (m : gmap string (list string)) : gmap string (list string) :=
  match rs, entries with
  | r :: rs, e :: entries =>
      group_ids rs entries
        (if negb (is_empty (ID e)) && allowed r
         then <[Entry_Operation e := default [] (m !! Entry_Operation e) ++ [ID e]]> m else m)
  | _, _ => m
  end.

Definition byOperation (result : any) (entries : list Entry) : gmap string (list string) :=
  group_ids (results result) entries (no_ids entries).

Definition ids_value (m : gmap string (list string)) : any :=
  Map ((λ kv, (kv.1, List (Str <$> kv.2))) <$> map_to_list m).

(** [CheckResourceBulkOperationsResponse]. *)
Definition CheckResourceBulkOperationsResponse (result : any) (entries : list Entry) (v2 : bool) : option bytes :=
  let m := ids_value (byOperation result entries) in
  if v2 then mustJSON (Map [("decision"%string, m)]) else mustJSON m.

(** [filterResponse] and its text, the fields in their order. *)
Record filterResponse := MkFilterResponse {
  CalculationResult : string;
  FilterCondition : string;
  MongodbFilterCondition : string;
  RsqlFilterCondition : string;
  SQLFilterCondition : string;
  CustomFilterCondition : option string;
}.

Definition write_filter (r : filterResponse) : bytes :=
  write_object
    [("calculationResult", plain_string (CalculationResult r));
     ("filterCondition", plain_string (FilterCondition r));
     ("mongodbFilterCondition", plain_string (MongodbFilterCondition r));
     ("rsqlFilterCondition", plain_string (RsqlFilterCondition r));
     ("sqlFilterCondition", plain_string (SQLFilterCondition r));
     ("customFilterCondition", match CustomFilterCondition r with Some s => plain_string s | None => bytes_of "null" end)]%string.

(** [predicate]. *)
Fixpoint predicate (predicates : list any) (typ : string) : option string :=
  match predicates with
  | [] => Some EmptyString
  | p :: predicates =>
      let fields := object p in
      match get "predicateType" fields with
      | Some (Str t) =>
          if eqb t typ then
            match get "predicate" fields with
            | None | Some Nil => Some EmptyString
            | Some (Str s) => Some s
            | Some v => string_of <$> mustJSON v
            end
          else predicate predicates typ
      | _ => predicate predicates typ
      end
  end.

(** [FilterResponse]. *)
Definition deny_filter : filterResponse := MkFilterResponse "DENY" EmptyString EmptyString EmptyString EmptyString None.

Definition filter_response (result : any) : option filterResponse :=
  let r := first (results result) in
  if negb (allowed r) then Some deny_filter
  else
    let predicates := match get "predicates" (object r) with Some (List l) => l | _ => [] end in
    rsql ← predicate predicates "rsql";
    querydsl ← predicate predicates "querydsl";
    mongodb ← predicate predicates "mongodb";
    sql ← predicate predicates "sql";
    custom ← predicate predicates "custom";
    let resp := MkFilterResponse "ALLOW" querydsl EmptyString EmptyString EmptyString
                  (if is_empty custom then None else Some custom) in
    if all is_empty [rsql; querydsl; mongodb; sql; custom] then Some resp
    else Some (MkFilterResponse "USE_FILTER_CONDITION" (FilterCondition resp) mongodb rsql sql (CustomFilterCondition resp)).

Definition FilterResponse (result : any) : option bytes := write_filter <$> filter_response result.
End responses.

(** ** The ids allowed, by operation *)

(** The ids of the entries of an operation whose result is allowed, in the order of the entries. *)
Definition granted (rs : list any) (entries : list Entry) (op : string) : list string :=
  (λ re, ID re.2) <$> List.filter (λ re : any * Entry, eqb (Entry_Operation re.2) op && negb (is_empty (ID re.2)) && allowed re.1) (zip rs entries).

Lemma no_ids_lookup entries m op :
  fold_left (λ (m : gmap string (list string)) e, <[Entry_Operation e := []]> m) entries m !! op
  = if member op (Entry_Operation <$> entries) then Some [] else m !! op.
Proof.
  revert m. induction entries as [|e entries IH]; intros m; [done|]. cbn [fold_left]. rewrite IH. rewrite fmap_cons.
  destruct (member op (Entry_Operation <$> entries)) eqn:E.
  - by rewrite (proj2 (member_true op _)) by (right; by apply member_true).
  - destruct (decide (Entry_Operation e = op)) as [->|Hne].
    + rewrite lookup_insert_eq. by rewrite (proj2 (member_true op _)) by by left.
    + rewrite lookup_insert_ne by done. rewrite (proj2 (member_false op _)); [done|].
      rewrite not_elem_of_cons. split; [congruence|by apply member_false].
Qed.

Lemma group_ids_lookup rs entries m op :
  Forall (λ e, is_Some (m !! Entry_Operation e)) entries →
  group_ids rs entries m !! op = (λ l, l ++ granted rs entries op) <$> m !! op.
Proof.
  revert entries m. induction rs as [|r rs IH]; intros entries m Hm.
  { cbn. destruct (m !! op); cbn; [by rewrite app_nil_r|done]. }
  destruct entries as [|e entries]; [cbn; destruct (m !! op); cbn; [by rewrite app_nil_r|done]|]. apply Forall_cons in Hm as [[l He] Hm].
  cbn [group_ids]. unfold granted. cbn [zip zip_with List.filter fst snd]. fold (granted rs entries op).
  destruct (negb (is_empty (ID e)) && allowed r) eqn:E.
  - rewrite IH.
    + rewrite <-andb_assoc, E, andb_true_r. destruct (decide (Entry_Operation e = op)) as [<-|Hne].
      * rewrite eqb_refl, lookup_insert_eq, He. cbn. by rewrite <-(assoc_L (++)).
      * rewrite lookup_insert_ne by done. by rewrite (proj2 (eqb_false _ _)).
    + eapply Forall_impl; [exact Hm|]. intros e' He'. cbn beta in *. destruct (decide (Entry_Operation e = Entry_Operation e')) as [->|].
      * rewrite lookup_insert_eq. eauto.
      * by rewrite lookup_insert_ne.
  - rewrite IH by done. by rewrite <-andb_assoc, E, andb_false_r.
Qed.

(** The map holds each operation of an entry and no other one, with the ids granted for it. *)
Lemma byOperation_lookup result entries op :
  byOperation result entries !! op
  = if member op (Entry_Operation <$> entries) then Some (granted (results result) entries op) else None.
Proof.
  unfold byOperation. rewrite group_ids_lookup; unfold no_ids.
  - rewrite no_ids_lookup, lookup_empty. by destruct (member _ _).
  - apply Forall_forall. intros e He. rewrite no_ids_lookup.
    rewrite (proj2 (member_true (Entry_Operation e) _)); [eauto|]. by apply list_elem_of_fmap_2.
Qed.

Definition id_texts (ids : list string) : Value.value := Value.List ((λ s, Value.Str (valid_string s)) <$> ids).

Lemma ids_value_read m : of_any (ids_value m) = Value.Obj (read_members (sort_members ((λ kv, (kv.1, id_texts kv.2)) <$> map_to_list m))).
Proof.
  unfold ids_value. cbn [of_any]. do 3 f_equal. rewrite <-!list_fmap_compose. apply list_fmap_ext. intros i [k l] _. cbn. f_equal.
  unfold id_texts. f_equal. clear. induction l as [|s l IH]; [done|]. cbn. by rewrite IH.
Qed.

Lemma ids_value_decided m : decided (ids_value m) = true.
Proof.
  unfold ids_value. cbn [decided]. apply all_Forall, Forall_fmap, Forall_forall. intros [k l] _. cbn. apply all_Forall, Forall_fmap, Forall_forall. done.
Qed.

Lemma sorted_lookup {A} (m : gmap string A) (f : A → Value.value) k :
  Value.Get k (sort_members ((λ kv, (kv.1, f kv.2)) <$> map_to_list m)) = f <$> m !! k.
Proof.
  set (l := sort_members ((λ kv, (kv.1, f kv.2)) <$> map_to_list m)).
  assert (Hk : l.*1 ≡ₚ (map_to_list m).*1).
  { unfold l. rewrite sort_members_perm, <-list_fmap_compose. done. }
  assert (Hn : NoDup l.*1) by (rewrite Hk; apply NoDup_fst_map_to_list).
  assert (Hin : ∀ v, (k, v) ∈ l ↔ ∃ a, m !! k = Some a ∧ v = f a).
  { intros v. unfold l. rewrite sort_members_perm, list_elem_of_fmap. split.
    - intros ([k' a] & [= -> ->] & H%elem_of_map_to_list). eauto.
    - intros (a & Ha & ->). exists (k, a). split; [done|]. by apply elem_of_map_to_list. }
  assert (Hget : ∀ v, Value.Get k l = Some v ↔ (k, v) ∈ l) by (intros v; by apply Value.Get_member).
  destruct (m !! k) as [a|] eqn:E; cbn.
  - apply Hget, Hin. eauto.
  - destruct (Value.Get k l) as [v|] eqn:Eg; [|done]. destruct (proj1 (Hin v) (proj1 (Hget v) eq_refl)) as (a & Ha & _). congruence.
Qed.

Section shapes.
Context {floats : Authn.JsonFloat} {conversion : FloatToInt}.

(** What is read of the ids by operation. *)
Lemma operations_object result entries v2 :
  Forall (λ e, valid_string (Entry_Operation e) = Entry_Operation e) entries →
  ∃ t o, CheckResourceBulkOperationsResponse result entries v2 = Some t
    ∧ Value.Decode t = Some (if v2 then Value.Obj [("decision"%string, Value.Obj o)] else Value.Obj o)
    ∧ Sorted String.le (Value.Keys o) ∧ NoDup (Value.Keys o)
    ∧ ∀ op, Value.Get op o = if member op (Entry_Operation <$> entries) then Some (id_texts (granted (results result) entries op)) else None.
Proof.
  intros Hv. set (m := byOperation result entries). set (o := sort_members ((λ kv, (kv.1, id_texts kv.2)) <$> map_to_list m)).
  assert (Hkeys : o.*1 = sort_strings (map_to_list m).*1).
  { unfold o. rewrite sort_members_keys, <-list_fmap_compose. done. }
  assert (Hn : NoDup o.*1).
  { rewrite Hkeys. unfold sort_strings. rewrite merge_sort_Permutation. apply NoDup_fst_map_to_list. }
  assert (Ho : of_any (ids_value m) = Value.Obj o).
  { rewrite ids_value_read. fold o. f_equal. apply read_members_id; [|done]. rewrite Hkeys. unfold sort_strings. rewrite merge_sort_Permutation.
    apply Forall_fmap, Forall_forall. intros [op l] H%elem_of_map_to_list. cbn. unfold m in H. rewrite byOperation_lookup in H.
    destruct (member op _) eqn:E; [|done]. apply member_true, list_elem_of_fmap in E as (e & -> & He). rewrite Forall_forall in Hv. by apply Hv. }
  assert (∃ t, CheckResourceBulkOperationsResponse result entries v2 = Some t
    ∧ Value.Decode t = Some (if v2 then Value.Obj [("decision"%string, Value.Obj o)] else Value.Obj o)) as (t & Et & Hd).
  { unfold CheckResourceBulkOperationsResponse. fold m. destruct v2.
    - destruct (mustJSON_trip (Map [("decision"%string, ids_value m)])) as (t & Et & Hd).
      { cbn [decided all forallb snd]. by rewrite ids_value_decided. }
      exists t. split; [done|]. rewrite Hd. cbn [of_any map fst snd]. by rewrite Ho.
    - destruct (mustJSON_trip (ids_value m)) as (t & Et & Hd); [apply ids_value_decided|]. exists t. by rewrite Hd, Ho. }
  exists t, o. split_and!; [done..| |done|].
  - unfold Value.Keys. rewrite Hkeys. apply Sorted_merge_sort. apply _.
  - intros op. unfold o. rewrite sorted_lookup. unfold m. rewrite byOperation_lookup. by destruct (member _ _).
Qed.
(** An object is determined by its keys and what each holds. *)
Lemma object_by_keys (o : Value.object) (f : string → Value.value) :
  NoDup (Value.Keys o) → (∀ k, k ∈ Value.Keys o → Value.Get k o = Some (f k)) → o = (λ k, (k, f k)) <$> Value.Keys o.
Proof.
  unfold Value.Keys. induction o as [|[k v] o IH]; intros Hn Hg; [done|]. rewrite fmap_cons in *. cbn [fst] in *. apply NoDup_cons in Hn as [Hk Hn].
  rewrite fmap_cons, <-IH; [|done|].
  - f_equal. specialize (Hg k ltac:(by left)). cbn [Value.Get] in Hg. rewrite eqb_refl in Hg. congruence.
  - intros k' Hk'. specialize (Hg k' ltac:(by right)). cbn [Value.Get] in Hg. rewrite (proj2 (eqb_false k k')) in Hg by (by intros ->). done.
Qed.

(** C11: The client of the bulk/operations routes reads an object of the operations it asked for, in
    lexical order and each once, and under each the ids granted for it in request order. *)
Theorem operations_read result entries v2 :
  Forall (λ e, valid_string (Entry_Operation e) = Entry_Operation e) entries →
  let o := (λ op, (op, id_texts (granted (results result) entries op))) <$> sort_strings (remove_dups (Entry_Operation <$> entries)) in
  ∃ t, CheckResourceBulkOperationsResponse result entries v2 = Some t
    ∧ Value.Decode t = Some (if v2 then Value.Obj [("decision"%string, Value.Obj o)] else Value.Obj o).
Proof.
  intros Hv o. destruct (operations_object result entries v2 Hv) as (t & o' & Et & Hd & Hs & Hn & Hg). exists t. split; [done|].
  assert (Hin : ∀ k, k ∈ Value.Keys o' ↔ k ∈ Entry_Operation <$> entries).
  { intros k. rewrite <-Value.Get_elem, Hg. destruct (member k _) eqn:E; [apply member_true in E; by split; eauto|apply member_false in E; split; [by intros []|done]]. }
  assert (o' = o) as ->; [|done]. unfold o.
  assert (Hk : sort_strings (remove_dups (Entry_Operation <$> entries)) = Value.Keys o').
  { apply (StronglySorted_unique String.le); [apply StronglySorted_merge_sort; apply _|apply Sorted_StronglySorted; [apply _|done]|].
    unfold sort_strings. rewrite merge_sort_Permutation. apply NoDup_Permutation; [apply NoDup_remove_dups|done|].
    intros k. by rewrite elem_of_remove_dups, Hin. }
  rewrite Hk. apply object_by_keys; [done|]. intros k Hk'. rewrite Hg, (proj2 (member_true k _)) by by apply Hin. done.
Qed.

(** ** The other shapes *)

Lemma resource_read result v2 :
  ∃ t, CheckResourceResponse result v2 = Some t
    ∧ Value.Decode t = Some (let b := Value.Bool (allowed (first (results result))) in if v2 then Value.Obj [("decision"%string, b)] else b).
Proof.
  unfold CheckResourceResponse. destruct v2.
  - destruct (mustJSON_trip (Map [("decision"%string, Bool (allowed (first (results result))))])) as (t & Et & Hd); [done|]. by exists t.
  - destruct (mustJSON_trip (Bool (allowed (first (results result))))) as (t & Et & Hd); [done|]. by exists t.
Qed.

(** The ids of the entries whose result is allowed. *)
Definition granted_ids (rs : list any) (ids : list string) : list string :=
  snd <$> List.filter (λ ri : any * string, negb (is_empty ri.2) && allowed ri.1) (zip rs ids).

Lemma allowed_ids_spec rs ids out : allowed_ids rs ids out = out ++ granted_ids rs ids.
Proof.
  revert ids out. induction rs as [|r rs IH]; intros [|id ids] out; cbn [allowed_ids]; try (cbn; by rewrite app_nil_r).
  rewrite IH. unfold granted_ids. cbn [zip zip_with List.filter fst snd]. destruct (negb (is_empty id) && allowed r); [|done].
  cbn [fmap list_fmap snd]. by rewrite <-(assoc_L (++)).
Qed.

Lemma bulk_read result ids :
  ∃ t, CheckResourceBulkResponse result ids = Some t ∧ Value.Decode t = Some (id_texts (granted_ids (results result) ids)).
Proof.
  unfold CheckResourceBulkResponse. rewrite allowed_ids_spec. cbn [app]. destruct (mustJSON_trip (List (Str <$> granted_ids (results result) ids))) as (t & Et & Hd).
  { cbn [decided]. by apply all_Forall, Forall_fmap, Forall_forall. }
  exists t. split; [done|]. rewrite Hd. cbn [of_any]. unfold id_texts. f_equal. f_equal. generalize (granted_ids (results result) ids). clear.
  intros l. induction l as [|s l IH]; [done|]. cbn. by rewrite IH.
Qed.

Lemma mustJSON_some v : decided v = true → is_Some (mustJSON v).
Proof. intros (t & -> & _)%mustJSON_trip. eauto. Qed.

Lemma decided_object v : decided v = true → decided (Map (object v)) = true.
Proof. by destruct v. Qed.

Lemma decided_first result : decided result = true → decided (first (results result)) = true.
Proof.
  intros H%decided_object. unfold results. destruct (get "results" (object result)) as [v|] eqn:E; [|done].
  apply (decided_get _ _ _ H) in E. destruct v as [| | | | | |l|]; try done. destruct l as [|v l]; [done|]. cbn [decided all forallb] in E. by apply andb_true_iff in E as [? _].
Qed.

Lemma predicate_some l typ : decided (List l) = true → is_Some (predicate l typ).
Proof.
  cbn [decided]. intros H%all_Forall. induction H as [|p l Hp H IH]; cbn [predicate]; [eauto|]. apply decided_object in Hp.
  destruct (get "predicateType" (object p)) as [t|]; [|done]. destruct t; try done. destruct (eqb s typ); [|done].
  destruct (get "predicate" (object p)) as [v|] eqn:E; [|eauto]. apply (decided_get _ _ _ Hp) in E.
  destruct (mustJSON_trip v E) as (t & Et & _). destruct v; rewrite ?Et; eauto.
Qed.

(** The predicates of an allowed decision. *)
Definition predicates_of (result : any) : list any := match get "predicates" (object (first (results result))) with Some (List l) => l | _ => [] end.

(** No decision of the engine makes a response panic. *)
Theorem never_panics result :
  decided result = true →
  (∀ v2, is_Some (CheckResourceResponse result v2)) ∧ (∀ ids, is_Some (CheckResourceBulkResponse result ids))
  ∧ (∀ es v2, is_Some (CheckResourceBulkOperationsResponse result es v2)) ∧ is_Some (FilterResponse result)
  ∧ ∀ status body, AuthError result = Some (status, body) → is_Some body.
Proof.
  intros H. split_and!.
  - intros v2. destruct (resource_read result v2) as (t & -> & _). eauto.
  - intros ids. destruct (bulk_read result ids) as (t & -> & _). eauto.
  - intros es v2. unfold CheckResourceBulkOperationsResponse. pose proof (ids_value_decided (byOperation result es)) as Hd.
    destruct v2; apply mustJSON_some; [cbn [decided all forallb snd]; by rewrite Hd|done].
  - unfold FilterResponse, filter_response. destruct (allowed _); [|eauto]. cbn [negb].
    assert (Hp : decided (List (predicates_of result)) = true).
    { unfold predicates_of. apply decided_first, decided_object in H. destruct (get "predicates" _) as [v|] eqn:E; [|done].
      apply (decided_get _ _ _ H) in E. by destruct v. }
    fold (predicates_of result). destruct (predicate_some _ "rsql" Hp) as [s1 ->], (predicate_some _ "querydsl" Hp) as [s2 ->],
      (predicate_some _ "mongodb" Hp) as [s3 ->], (predicate_some _ "sql" Hp) as [s4 ->], (predicate_some _ "custom" Hp) as [s5 ->].
    cbn [mbind option_bind]. destruct (all is_empty _); eauto.
  - intros status body. unfold AuthError. apply decided_object in H. destruct (get "authError" (object result)) as [raw|] eqn:E; [|done].
    intros Hb. apply (inj Some), pair_equal_spec in Hb as [_ <-]. apply (decided_get _ _ _ H), decided_object in E.
    apply mustJSON_some. cbn [decided all forallb snd]. rewrite andb_true_r. destruct (get "message" (object raw)) as [m|] eqn:Em; [|done]. by apply (decided_get _ _ _ E) in Em.
Qed.

(** The conditions of a filter, by the type of the predicate they come from. *)
Definition condition (r : filterResponse) (typ : string) : string :=
  if eqb typ "querydsl" then FilterCondition r else if eqb typ "mongodb" then MongodbFilterCondition r
  else if eqb typ "rsql" then RsqlFilterCondition r else if eqb typ "sql" then SQLFilterCondition r
  else default EmptyString (CustomFilterCondition r).

Definition condition_types : list string := ["rsql"; "querydsl"; "mongodb"; "sql"; "custom"]%string.

(** A filter grants what the decision grants: it is DENY exactly when the decision is not
    allowed; otherwise every condition is the text of its predicate, and it is ALLOW exactly
    when all of them are empty. *)
Theorem filter_exact result r :
  filter_response result = Some r →
  (CalculationResult r = "DENY"%string ↔ allowed (first (results result)) = false)
  ∧ (allowed (first (results result)) = true →
       (∀ typ, typ ∈ condition_types → predicate (predicates_of result) typ = Some (condition r typ))
       ∧ (CalculationResult r = "ALLOW"%string ↔ ∀ typ, typ ∈ condition_types → condition r typ = EmptyString)
       ∧ (CalculationResult r = "ALLOW"%string ∨ CalculationResult r = "USE_FILTER_CONDITION"%string))
  ∧ (allowed (first (results result)) = false → ∀ typ, condition r typ = EmptyString).
Proof.
  unfold filter_response. destruct (allowed (first (results result))) eqn:Ea; cbn [negb].
  2:{ intros [= <-]. split_and!; [done|done|]. intros _ typ. unfold condition. cbn. by repeat case_match. }
  fold (predicates_of result). intros H.
  destruct (predicate _ "rsql") as [s1|] eqn:E1; [|done]. destruct (predicate _ "querydsl") as [s2|] eqn:E2; [|done].
  destruct (predicate _ "mongodb") as [s3|] eqn:E3; [|done]. destruct (predicate _ "sql") as [s4|] eqn:E4; [|done].
  destruct (predicate _ "custom") as [s5|] eqn:E5; [|done]. cbn [mbind option_bind] in H.
  assert (Hr : (∀ typ, typ ∈ condition_types → predicate (predicates_of result) typ = Some (condition r typ))
    ∧ CalculationResult r = (if all is_empty [s1; s2; s3; s4; s5] then "ALLOW" else "USE_FILTER_CONDITION")%string
    ∧ (condition r "rsql", condition r "querydsl", condition r "mongodb", condition r "sql", condition r "custom")%string = (s1, s2, s3, s4, s5)).
  { assert (Hc : ∀ s, default EmptyString (if is_empty s then None else Some s) = s).
    { intros s. destruct (is_empty s) eqn:E; [by apply is_empty_true in E as ->|done]. }
    assert (Hs : (condition r "rsql", condition r "querydsl", condition r "mongodb", condition r "sql", condition r "custom")%string = (s1, s2, s3, s4, s5)
      ∧ CalculationResult r = (if all is_empty [s1; s2; s3; s4; s5] then "ALLOW" else "USE_FILTER_CONDITION")%string).
    { destruct (all is_empty [s1; s2; s3; s4; s5]) eqn:Eall; injection H as <-; (split; [|done]); unfold condition; cbn -[is_empty]; rewrite Hc; [|done].
      apply all_Forall in Eall. rewrite !Forall_cons, !is_empty_true in Eall. by destruct Eall as (-> & -> & -> & -> & -> & _). }
    destruct Hs as [Hs Hcr]. split_and!; [|done..]. injection Hs as <- <- <- <- <-.
    intros typ Ht. unfold condition_types in Ht. repeat (apply elem_of_cons in Ht as [->|Ht]; [done|]). by apply elem_of_nil in Ht. }
  destruct Hr as (Hp & Hcr & Hs). injection Hs as <- <- <- <- <-. rewrite Hcr. split_and!; [by destruct (all is_empty _)|intros _; split_and!|done].
  - done.
  - destruct (all is_empty _) eqn:Eall.
    + split; [|done]. intros _ typ Ht. apply all_Forall in Eall. unfold condition_types in Ht.
      assert (Hall : Forall (λ typ, condition r typ = EmptyString) condition_types).
      { unfold condition_types. rewrite !Forall_cons, !is_empty_true in Eall. repeat constructor; tauto. }
      rewrite Forall_forall in Hall. by apply Hall.
    + split; [done|]. intros Hall. exfalso. apply not_true_iff_false in Eall. apply Eall. apply all_Forall.
      repeat (constructor; [apply is_empty_true, Hall; unfold condition_types; rewrite !elem_of_cons; tauto|]). constructor.
  - destruct (all is_empty _); [by left|by right].
Qed.
End shapes.

(** ** Decisions of the tests *)

#[local] Definition no_floats : Authn.JsonFloat := Authn.Build_JsonFloat (λ _ _, []).
#[local] Definition zero_int : FloatToInt := Build_FloatToInt (λ _ _, 0%Z).

Definition decision_of (rs : list any) : any := Map [("rlsIgnored", Bool false); ("results", List rs)]%string.
Definition allow (predicates : list any) : any := Map [("isAllowed", Bool true); ("predicates", List predicates)]%string.
Definition deny : any := Map [("isAllowed", Bool false)]%string.
Definition typed (typ : string) (v : any) : any := Map [("predicateType", Str typ); ("predicate", v)]%string.
Definition example_entries : list Entry := [MkEntry "a" "READ"; MkEntry "a" "WRITE"; MkEntry "b" "READ"]%string.

Section tests.
#[local] Existing Instance no_floats.
#[local] Existing Instance zero_int.

Example resource_responses :
  CheckResourceResponse (decision_of [allow []; deny]) false = Some (bytes_of "true")
  ∧ CheckResourceResponse (decision_of [deny; allow []]) false = Some (bytes_of "false")
  ∧ CheckResourceResponse (decision_of [Map [("isAllowed", Str "true")]]%string) false = Some (bytes_of "false")
  ∧ CheckResourceResponse (decision_of [allow []]) true = Some (quoting "{^decision^:true}").
Proof. split_and!; vm_compute; reflexivity. Qed.

Example bulk_responses :
  CheckResourceBulkResponse (decision_of [allow []; deny; allow []]) ["a"; "b"; "c"]%string = Some (quoting "[^a^,^c^]")
  ∧ CheckResourceBulkResponse (decision_of [allow []; allow []]) [EmptyString; "b"]%string = Some (quoting "[^b^]")
  ∧ CheckResourceBulkResponse Nil ["a"]%string = Some (bytes_of "[]")
  ∧ CheckResourceBulkOperationsResponse (decision_of [allow []; deny; allow []]) example_entries false = Some (quoting "{^READ^:[^a^,^b^],^WRITE^:[]}")
  ∧ CheckResourceBulkOperationsResponse (decision_of [allow []]) example_entries true = Some (quoting "{^decision^:{^READ^:[^a^],^WRITE^:[]}}")
  ∧ CheckResourceBulkOperationsResponse Nil [] true = Some (quoting "{^decision^:{}}").
Proof. split_and!; vm_compute; reflexivity. Qed.

Example auth_errors :
  AuthError (decision_of []) = None
  ∧ AuthError (Map [("authError", Map [("status", Number "403"); ("message", Str "Token has expired")])])%string
    = Some (403%Z, Some (quoting "{^message^:^Token has expired^}"))
  ∧ AuthError (Map [("authError", Map [("status", Str "403")])])%string = Some (401%Z, Some (quoting "{^message^:^unauthorized^}"))
  ∧ AuthError (Map [("authError", Nil)])%string = Some (401%Z, Some (quoting "{^message^:^unauthorized^}"))
  ∧ AuthError (Map [("authError", Map [("status", Float false (4039, -3)%Z)])])%string = Some (504%Z, Some (quoting "{^message^:^unauthorized^}")).
Proof. split_and!; vm_compute; reflexivity. Qed.

Example filter_responses :
  FilterResponse (decision_of [Map [("isAllowed", Bool false); ("predicates", List [typed "rsql" (Str "a==b")])]])%string
  = Some (quoting "{^calculationResult^:^DENY^,^filterCondition^:^^,^mongodbFilterCondition^:^^,^rsqlFilterCondition^:^^,^sqlFilterCondition^:^^,^customFilterCondition^:null}")
  ∧ FilterResponse (decision_of [allow [typed "jpql" (Str "a==b")]])
  = Some (quoting "{^calculationResult^:^ALLOW^,^filterCondition^:^^,^mongodbFilterCondition^:^^,^rsqlFilterCondition^:^^,^sqlFilterCondition^:^^,^customFilterCondition^:null}")
  ∧ FilterResponse (decision_of [allow [typed "rsql" (Str "a<b"); typed "rsql" (Str "second"); typed "mongodb" (Map [("d", Number "1")]%string); typed "custom" (Str "x")]])
  = Some (quoting "{^calculationResult^:^USE_FILTER_CONDITION^,^filterCondition^:^^,^mongodbFilterCondition^:^{\^d\^:1}^,^rsqlFilterCondition^:^a<b^,^sqlFilterCondition^:^^,^customFilterCondition^:^x^}").
Proof. split_and!; vm_compute; reflexivity. Qed.

(** A predicate of a known type whose text is empty leaves the answer at ALLOW. *)
Theorem empty_predicate_allows :
  CalculationResult <$> filter_response (decision_of [allow [typed "rsql" (Str EmptyString)]]) = Some "ALLOW"%string.
Proof. vm_compute. reflexivity. Qed.

(** ** Witnesses *)

Lemma operations_read_witness :
  let o := (λ op, (op, id_texts (granted (results (decision_of [allow []; deny; allow []])) example_entries op)))
             <$> sort_strings (remove_dups (Entry_Operation <$> example_entries)) in
  ∃ t, CheckResourceBulkOperationsResponse (decision_of [allow []; deny; allow []]) example_entries true = Some t
    ∧ Value.Decode t = Some (Value.Obj [("decision"%string, Value.Obj o)]).
Proof.
  assert (H : Forall (λ e, valid_string (Entry_Operation e) = Entry_Operation e) example_entries) by (repeat constructor).
  exact (operations_read (decision_of [allow []; deny; allow []]) example_entries true H).
Defined.

Lemma never_panics_witness : is_Some (FilterResponse (decision_of [allow [typed "mongodb" (Map [("d", Number "1")]%string)]])).
Proof.
  assert (H : decided (decision_of [allow [typed "mongodb" (Map [("d", Number "1")]%string)]]) = true) by (vm_compute; reflexivity).
  exact (proj1 (proj2 (proj2 (proj2 (never_panics _ H))))).
Defined.

Lemma filter_exact_witness :
  predicate (predicates_of (decision_of [allow [typed "rsql" (Str "a")]])) "rsql" = Some "a"%string.
Proof.
  assert (H : filter_response (decision_of [allow [typed "rsql" (Str "a")]]) = Some (MkFilterResponse "USE_FILTER_CONDITION" EmptyString EmptyString "a" EmptyString None)) by (vm_compute; reflexivity).
  refine (proj1 (proj1 (proj2 (filter_exact _ _ H)) _) "rsql"%string _); [vm_compute; reflexivity|by left].
Defined.
End tests.

End LegacyResponse.
