(* ===== verification/Engine.v ===== *)
(** * The policy engine of the agent ([authz-agent/internal/engine])

    The engine around the policy library: its modules are parsed and compiled once, a query is
    prepared the first time it is asked and kept, and documents are put into its store. What the
    library does is a parameter: how it parses, compiles, prepares and evaluates, its store and
    the two caches of its built-in functions ([queryCache], [valueCache]), which every
    evaluation reads and may change, as it may ask the network ([outside]). *)
From S2P Require Import Prelude GoText Json Encoding AnyValue.
Import AnyValue.

Module Engine.

(** One byte of [strings.ReplaceAll] of a quote by an escaped quote. *)
Definition escape_quote (c : ascii) : bytes := if eqb c Json.quote then [Json.backslash; Json.quote] else [c].
Definition escaped_segment (s : string) : bytes := concat (map escape_quote (bytes_of s)).
Definition bracketed (s : string) : bytes := "["%char :: Json.quote :: escaped_segment s ++ [Json.quote; "]"%char].

(** [Query]. *)
Definition Query (segments : list string) : bytes := bytes_of "data" ++ concat (map bracketed segments).

Section engine.
(** The library: modules, compilers, prepared queries, stores, the two caches of built-in
    functions, what an evaluation meets outside, and what fails. *)
Context {module compiler prepared store caches outside failure : Type}.
Variable ParseModule : string → string → result failure module.
Variable Compile : gmap string module → result failure compiler.
Variable PrepareForEval : compiler → bytes → result failure prepared.
Variable EvalQuery : prepared → caches → store → outside → option any → result failure (list (list any)) * caches.
Variable MakeDir : store → list string → result failure store.
Variable Write : store → list string → any → result failure store.
Variable empty_store : store.
Variable empty_caches : caches.

Inductive engine_error := NoModules | ParsePolicy (name : string) (e : failure) | CompilePolicies (e : failure) | Library (e : failure).

Record Engine := MkEngine { store_ : store; compiler_ : compiler; caches_ : caches; prepared_ : gmap bytes prepared }.

(** [New]; [modules] in the order an iteration of the map takes them. *)
Definition parse_module (m : gmap string module) (kv : string * string) : result engine_error (gmap string module) :=
  module ← wrap (ParsePolicy kv.1) (ParseModule kv.1 kv.2);
  Ok (<[kv.1 := module]> m).

Fixpoint parse_modules (m : gmap string module) (modules : list (string * string)) : result engine_error (gmap string module) :=
  match modules with
  | [] => Ok m
  | kv :: modules => m ← parse_module m kv; parse_modules m modules
  end.

Definition New (modules : list (string * string)) : result engine_error Engine :=
  if is_nil modules then Err NoModules
  else
    m ← parse_modules ∅ modules;
    c ← wrap CompilePolicies (Compile m);
    Ok (MkEngine empty_store c empty_caches ∅).

(** [prepare]. *)
Definition prepare (e : Engine) (q : bytes) : result engine_error prepared * Engine :=
  match prepared_ e !! q with
  | Some pq => (Ok pq, e)
  | None =>
      match PrepareForEval (compiler_ e) q with
      | Err x => (Err (Library x), e)
      | Ok pq => (Ok pq, MkEngine (store_ e) (compiler_ e) (caches_ e) (<[q := pq]> (prepared_ e)))
      end
  end.

(** The value of a result set: that of the first expression of its first result. *)
Definition first_value (rs : list (list any)) : option any := r ← head rs; head r.

(** [Eval]; the input is [None] when it is nil. *)
Definition Eval (e : Engine) (o : outside) (segments : list string) (input : option any) : result engine_error (option any) * Engine :=
  let '(pq, e) := prepare e (Query segments) in
  match pq with
  | Err x => (Err x, e)
  | Ok pq =>
      let '(rs, c) := EvalQuery pq (caches_ e) (store_ e) o input in
      (first_value <$> wrap Library rs, MkEngine (store_ e) (compiler_ e) c (prepared_ e))
  end.

(** [Put]: one transaction, which leaves the store as it was when it fails. *)
Definition Put (e : Engine) (segments : list string) (v : any) : result engine_error unit * Engine :=
  let made := if (1 <? length segments)%nat then MakeDir (store_ e) (take (length segments - 1) segments) else Ok (store_ e) in
  match s ← made; Write s segments v with
  | Err x => (Err (Library x), e)
  | Ok s => (Ok tt, MkEngine s (compiler_ e) (caches_ e) (prepared_ e))
  end.

(** ** The prepared queries change nothing *)

(** The calls on an engine, and the engine after them. *)
Inductive call := CEval (o : outside) (segments : list string) (input : option any) | CPut (segments : list string) (v : any).

Definition called (e : Engine) (c : call) : Engine :=
  match c with
  | CEval o segments input => (Eval e o segments input).2
  | CPut segments v => (Put e segments v).2
  end.

Definition puts (c : call) : bool := match c with CPut _ _ => true | _ => false end.

(** What a decision is without the prepared queries: the query prepared anew, over the store
    and the caches of the library as they stand. *)
Definition fresh_eval (e : Engine) (o : outside) (segments : list string) (input : option any) : result engine_error (option any) :=
  pq ← wrap Library (PrepareForEval (compiler_ e) (Query segments));
  first_value <$> wrap Library (EvalQuery pq (caches_ e) (store_ e) o input).1.

(** The answers of the library that do not go by its caches: of policies whose requests do not
    ask for their answers to be kept. *)
Definition caches_unused : Prop :=
  ∀ pq c c' s o input, (EvalQuery pq c s o input).1 = (EvalQuery pq c' s o input).1.

Definition kept (e : Engine) : Prop := ∀ q pq, prepared_ e !! q = Some pq → PrepareForEval (compiler_ e) q = Ok pq.

Lemma Eval_engine e o segments input : kept e →
  kept (Eval e o segments input).2 ∧ store_ (Eval e o segments input).2 = store_ e
  ∧ compiler_ (Eval e o segments input).2 = compiler_ e ∧ (Eval e o segments input).1 = fresh_eval e o segments input.
Proof.
  intros H. unfold Eval, prepare, fresh_eval. destruct (prepared_ e !! Query segments) as [pq|] eqn:E.
  { rewrite (H _ _ E). cbn. by destruct (EvalQuery pq _ _ _ _). }
  destruct (PrepareForEval (compiler_ e) (Query segments)) as [pq|x] eqn:Ep; [|done]. cbn.
  destruct (EvalQuery pq _ _ _ _) as [rs c]. cbn. split_and!; try done.
  intros q pq'. cbn. destruct (decide (q = Query segments)) as [->|Hne]; [rewrite lookup_insert_eq; by intros [= <-]|rewrite lookup_insert_ne by done; apply H].
Qed.

Lemma Put_engine e segments v :
  (kept e → kept (Put e segments v).2) ∧ compiler_ (Put e segments v).2 = compiler_ e.
Proof. unfold Put. by destruct (_ ≫= _). Qed.

(** The calls as far as the store and the compiled policies go. *)
Lemma called_engine cs e1 e2 :
  kept e1 → store_ e1 = store_ e2 → compiler_ e1 = compiler_ e2 →
  let e' := fold_left called cs e1 in
  let e'' := fold_left called (List.filter puts cs) e2 in
  kept e' ∧ store_ e' = store_ e'' ∧ compiler_ e' = compiler_ e''.
Proof.
  revert e1 e2. induction cs as [|c cs IH]; intros e1 e2 H1 Hs Hc; [done|].
  cbn [fold_left List.filter puts]. destruct c as [o segments input|segments v]; cbn [called fold_left puts].
  - destruct (Eval_engine e1 o segments input H1) as (Hk & Hst & Hco & _). apply IH; [done|by rewrite Hst|by rewrite Hco].
  - apply IH; [by apply Put_engine| |by rewrite !(proj2 (Put_engine _ _ _))].
    unfold Put. rewrite <-Hs. by destruct (_ ≫= _).
Qed.

(** C23: A decision is the query prepared and evaluated over the documents put so far, whatever was
    asked before: the queries kept change no answer, and asking changes no document. What the
    library itself keeps between evaluations, the answers of built-in functions, is part of
    the engine; an answer that does not go by it is that of the engine the same documents were
    put into and nothing was asked of. *)
Theorem Eval_fresh modules e cs o segments input :
  New modules = Ok e →
  let e' := fold_left called cs e in
  let unasked := fold_left called (List.filter puts cs) e in
  (Eval e' o segments input).1 = fresh_eval e' o segments input
  ∧ store_ e' = store_ unasked
  ∧ (caches_unused → (Eval e' o segments input).1 = (Eval unasked o segments input).1).
Proof.
  intros HN e' unasked. assert (Hk : kept e).
  { unfold New in HN. destruct (is_nil modules); [done|]. result_inv. intros q pq. cbn [prepared_]. by rewrite lookup_empty. }
  destruct (called_engine cs e e Hk eq_refl eq_refl) as (Hk' & Hs & Hc).
  destruct (called_engine (List.filter puts cs) e e Hk eq_refl eq_refl) as (Hu & _ & _).
  destruct (Eval_engine e' o segments input Hk') as (_ & _ & _ & E1).
  destruct (Eval_engine unasked o segments input Hu) as (_ & _ & _ & E2).
  split_and!; [exact E1|exact Hs|]. intros Hf. rewrite E1, E2. unfold fresh_eval. fold e' unasked in Hs, Hc. rewrite Hs, Hc.
  destruct (PrepareForEval _ _) as [pq|]; [|done]. cbn. by rewrite (Hf pq _ (caches_ unasked)).
Qed.
End engine.

(** ** Queries *)

(** A segment whose bytes a string of the query may hold as they are, but for quotes. *)
Definition plain_segment (s : string) : Prop := Forall (λ c, c ≠ Json.backslash ∧ (32 ≤ N_of_ascii c)%N) (bytes_of s).

Lemma scan_segment s r : plain_segment s → Json.scan_string (escaped_segment s ++ Json.quote :: r) = Some (escaped_segment s, r).
Proof.
  unfold plain_segment, escaped_segment. induction 1 as [|c l [Hb Hc] _ IH]; [done|]. cbn [map concat]. unfold escape_quote at 1 3.
  destruct (eqb c Json.quote) eqn:Eq.
  - cbn [app Json.scan_string]. change (eqb Json.backslash Json.quote) with false. change (eqb Json.backslash Json.backslash) with true.
    change (Json.is_escape Json.quote) with true. cbn iota. by rewrite IH.
  - cbn [app Json.scan_string]. rewrite Eq, (proj2 (eqb_false c Json.backslash)) by done. rewrite (proj2 (N.ltb_ge _ _) Hc). by rewrite IH.
Qed.

Lemma escaped_inj s t : plain_segment s → plain_segment t → escaped_segment s = escaped_segment t → s = t.
Proof.
  intros Hs Ht E. rewrite <-(string_of_bytes_of s), <-(string_of_bytes_of t). f_equal. revert Hs Ht E. unfold plain_segment, escaped_segment.
  generalize (bytes_of s) as a, (bytes_of t) as b. clear. intros a b Ha. revert b.
  induction Ha as [|c a [Hc _] _ IH]; intros b Hb E.
  - destruct b as [|d b]; [done|]. cbn [map concat] in E. unfold escape_quote in E. by destruct (eqb d Json.quote).
  - destruct Hb as [|d b [Hd _] Hb]; cbn [map concat] in E; unfold escape_quote at 1 in E; [by destruct (eqb c Json.quote)|].
    unfold escape_quote at 2 in E. destruct (eqb c Json.quote) eqn:Ec, (eqb d Json.quote) eqn:Ed; cbn [app] in E.
    + apply (proj1 (eqb_true _ _)) in Ec, Ed. subst. injection E as E. f_equal. by apply IH.
    + injection E as E1 E2. by destruct Hd.
    + injection E as E1 E2. by destruct Hc.
    + injection E as E1 E2. subst. f_equal. by apply IH.
Qed.

(** A query names its document: two paths whose segments hold no backslash and no control
    character have one query only if they are one path. *)
Theorem Query_inj segments segments' :
  Forall plain_segment segments → Forall plain_segment segments' → Query segments = Query segments' → segments = segments'.
Proof.
  intros H H' E. unfold Query in E. apply app_inv_head in E. revert segments' H' E.
  induction H as [|s segments Hs _ IH]; intros segments' H' E; destruct H' as [|s' segments' Hs' H']; try done.
  cbn [map concat] in E. unfold bracketed at 1 3 in E. cbn [app] in E. injection E as E. rewrite <-!(assoc_L (++)) in E. cbn [app] in E.
  pose proof (scan_segment s ("]"%char :: concat (map bracketed segments)) Hs) as S1.
  pose proof (scan_segment s' ("]"%char :: concat (map bracketed segments')) Hs') as S2.
  rewrite E in S1. rewrite S2 in S1. injection S1 as E1 E2. f_equal; [by apply escaped_inj|by apply IH].
Qed.

(** A quote after a backslash is not kept in its segment: the string of the query ends at it. *)
Theorem Query_cut :
  let segment := string_of (bytes_of "a" ++ [Json.backslash; Json.quote] ++ bytes_of "b") in
  Json.scan_string (drop 6 (Query [segment])) = Some (bytes_of "a\\", bytes_of "b" ++ [Json.quote; "]"%char]).
Proof. vm_compute. reflexivity. Qed.

Example queries :
  Query ["opa-lockdown-test"; string_of (quoting "a^b")]%string = quoting "data[^opa-lockdown-test^][^a\^b^]".
Proof. vm_compute. reflexivity. Qed.

Lemma Query_inj_witness : ["policies"; "pips"]%string = ["policies"; "pips"]%string.
Proof.
  assert (H : Forall plain_segment ["policies"; "pips"]%string).
  { repeat (constructor; [unfold plain_segment; repeat (constructor; [split; [by intros|by apply N.leb_le]|]); constructor|]). constructor. }
  exact (Query_inj _ _ H H eq_refl).
Defined.

(** A library of one document, for the witness. *)
Definition example_prepare (c : unit) (q : bytes) : result unit bytes := if is_nil q then Err tt else Ok q.
Definition example_eval (pq : bytes) (asked : nat) (s : gmap bytes any) (o : unit) (input : option any) : result unit (list (list any)) * nat :=
  (Ok (match s !! pq with Some v => [[v]] | None => [] end), S asked).
Definition example_write (s : gmap bytes any) (path : list string) (v : any) : result unit (gmap bytes any) := Ok (<[Query path := v]> s).

Lemma Eval_fresh_witness :
  let cs := [CEval tt ["a"] None; CPut ["a"] (Bool true); CEval tt ["a"] None]%string in
  let e := MkEngine ∅ tt 0 ∅ in
  let called := called example_prepare example_eval (λ s _, Ok s) example_write in
  let answer e := (Eval example_prepare example_eval e tt ["a"]%string None).1 in
  answer (fold_left called cs e) = Ok (Some (Bool true))
  ∧ answer (fold_left called cs e) = answer (fold_left called [CPut ["a"]%string (Bool true)] e).
Proof.
  split; [vm_compute; reflexivity|].
  assert (HN : New (λ _ _, Ok tt) (λ _, Ok tt) (∅ : gmap bytes any) 0 [("t.rego"%string, EmptyString)] = (Ok (MkEngine ∅ tt 0 ∅) : result (engine_error (failure := unit)) (Engine (prepared := bytes)))) by reflexivity.
  refine (proj2 (proj2 (Eval_fresh _ _ example_prepare example_eval (λ s _, Ok s) example_write _ _ _ _ [CEval tt ["a"] None; CPut ["a"] (Bool true); CEval tt ["a"] None]%string tt ["a"]%string None HN)) _).
  intros pq c c' s o input. reflexivity.
Defined.

End Engine.
