(* ===== verification/SimplifiedParser.v ===== *)
(** * Conditions of simplified policies ([internal/simplifiedpolicies/parser.go])

    [tokenize] over the bytes of the text that are left, and the recursive descent of [parser]
    over the tokens that are left, which stand for [tokens[pos:]]. A node of the result, a
    [map[string]any] of one of four shapes, is a constructor of [ast]. *)
From S2P Require Import Prelude GoText Json Encoding JsonFields GoCase Outbound.
Import GoText Encoding GoCase.

Module SimplifiedParser.

(** Why a text is refused. [OutOfFuel] stands for a loop that did not end. *)
Inductive parse_error :=
  | Unterminated
  | UnexpectedToken (value : bytes)
  | ExpectedRParen
  | UnsupportedOperator (value : bytes)
  | ExpectedSubject
  | ExpectedMode
  | ExpectedOperation
  | ExpectedOn
  | ExpectedResource
  | InvalidNumber (value : bytes)
  | ExpectedLiteral (input : bytes)
  | UnterminatedLiteral (input : bytes)
  | NotClosedAfterType (rest : bytes)
  | ExpectedAs (rest : bytes)
  | NotClosedAfterNames (rest : bytes)
  | NoNames
  | NotALiteralList
  | OutOfFuel.

#[global] Instance parse_error_eq_dec : EqDecision parse_error.
Proof. solve_decision. Defined.

(** ** Tokens *)

Inductive tokenType := tokenEOF | tokenWord | tokenString | tokenNumber | tokenRegex | tokenLParen | tokenRParen | tokenComma.
Record token := MkToken { typ : tokenType; value : bytes }.

#[global] Instance tokenType_eq_dec : EqDecision tokenType.
Proof. solve_decision. Defined.
#[global] Instance token_eq_dec : EqDecision token.
Proof. solve_decision. Defined.

Definition isWhitespace (c : ascii) : bool := member c [" "; "010"; "013"; "009"]%char.

Definition isNumericStart (s : bytes) : bool :=
  match s with
  | "-"%char :: s => match s with c :: _ => is_digit c | [] => false end
  | c :: _ => is_digit c
  | [] => false
  end.

(** The loop of [scanQuoted] and of [readSingleQuotedLiteral] after the opening quote: the
    text of the literal, and what follows the closing one. *)
Fixpoint quoted_text (s : bytes) : option (bytes * bytes) :=
  match s with
  | [] => None
  | c :: s' =>
      if eqb c "\"%char then
        match s' with
        | d :: s'' => '(text, rest) ← quoted_text s''; Some (d :: text, rest)
        | [] => None
        end
      else if eqb c "'"%char then Some ([], s')
      else '(text, rest) ← quoted_text s'; Some (c :: text, rest)
  end.

Definition scanUntilDelimiter (s : bytes) : bytes * bytes :=
  span (λ c, negb (isWhitespace c || eqb c ")"%char || eqb c ","%char)) s.

Definition scanNumber (s : bytes) : bytes * bytes :=
  let '(sign, s) := match s with "-"%char :: s => (["-"%char], s) | _ => ([], s) end in
  let '(digits, rest) := span (λ c, is_digit c || eqb c "."%char) s in (sign ++ digits, rest).

Definition HasPrefix (s p : bytes) : bool := is_some (cutPrefix p s).
Definition HasSuffix (s p : bytes) : bool := HasPrefix (reverse s) (reverse p).

Section parser.
Context {case : CaseTable}.

Definition isEntitlementMethodCallContinuation (word : bytes) : bool :=
  let w := ToLower word in
  HasPrefix w (bytes_of "subject.entitledresources") && (HasSuffix w (bytes_of ".of") || HasSuffix w (bytes_of ".as")).

(** [scanWord] from inside: [word] is the text from its start, [bracketDepth] and
    [parenDepth] are the open brackets and parentheses, [quote] the quote it is inside of. *)
Fixpoint scan_word (word : bytes) (bracketDepth parenDepth : nat) (quote : option ascii) (s : bytes) : bytes * bytes :=
  match s with
  | [] => (word, [])
  | c :: s' =>
      let go b p q := scan_word (word ++ [c]) b p q s' in
      match quote with
      | Some q =>
          if eqb c "\"%char then
            match s' with
            | d :: s'' => scan_word (word ++ [c; d]) bracketDepth parenDepth quote s''
            | [] => go bracketDepth parenDepth quote
            end
          else go bracketDepth parenDepth (if eqb c q then None else quote)
      | None =>
          if eqb c "'"%char || eqb c "034"%char then go bracketDepth parenDepth (Some c)
          else if eqb c "["%char then go (S bracketDepth) parenDepth None
          else if eqb c "]"%char then go (pred bracketDepth) parenDepth None
          else if eqb c "("%char then
            if (bracketDepth =? 0) && (parenDepth =? 0) && negb (isEntitlementMethodCallContinuation word)
            then (word, s) else go bracketDepth (S parenDepth) None
          else if eqb c ")"%char && (0 <? parenDepth) then go bracketDepth (pred parenDepth) None
          else if eqb c ")"%char && (bracketDepth =? 0) then (word, s)
          else if (eqb c ","%char || isWhitespace c) && (bracketDepth =? 0) && (parenDepth =? 0) then (word, s)
          else go bracketDepth parenDepth None
      end
  end.

Definition scanWord (s : bytes) : bytes * bytes := scan_word [] 0 0 None s.

(** One turn of [tokenize]: the tokens it adds, one at most, and the text left. *)
Definition scan_token (c : ascii) (s' : bytes) : result parse_error (list token * bytes) :=
  let s := c :: s' in
  if isWhitespace c then Ok ([], s')
  else if eqb c "("%char then Ok ([MkToken tokenLParen [c]], s')
  else if eqb c ")"%char then Ok ([MkToken tokenRParen [c]], s')
  else if eqb c ","%char then Ok ([MkToken tokenComma [c]], s')
  else if eqb c "'"%char then
    match quoted_text s' with
    | Some (text, rest) => Ok ([MkToken tokenString text], rest)
    | None => Err Unterminated
    end
  else if eqb c "/"%char then let '(text, rest) := scanUntilDelimiter s in Ok ([MkToken tokenRegex text], rest)
  else if isNumericStart s then let '(text, rest) := scanNumber s in Ok ([MkToken tokenNumber text], rest)
  else let '(text, rest) := scanWord s in Ok ([MkToken tokenWord text], rest).

Fixpoint tokens_of (fuel : nat) (s : bytes) : result parse_error (list token) :=
  match s with
  | [] => Ok [MkToken tokenEOF []]
  | c :: s' =>
      match fuel with
      | 0 => Err OutOfFuel
      | S fuel =>
          '(ts, rest) ← scan_token c s';
          rest ← tokens_of fuel rest;
          Ok (ts ++ rest)
      end
  end.

Definition tokenize (s : bytes) : result parse_error (list token) := tokens_of (length s) s.

(** ** The tree *)

Inductive constant :=
  | CBool (b : bool)
  | CText (s : bytes)
  | CInt (z : Z)
  | CFloat (negative : bool) (size : Z * Z)
  | CList (items : list constant).

Inductive operator :=
  | op_or | op_and | op_not | op_contains_any | op_contains | op_neq | op_eq | op_in | op_match
  | op_is_empty | op_is_null | op_is_subset | op_gte | op_gt | op_lte | op_lt | op_has_access.

#[global] Instance operator_eq_dec : EqDecision operator.
Proof. solve_decision. Defined.

Inductive scope := Subject | Resource.

(** [{"const": v}], [{"ref": {"scope", "path"}}], the ref of scope entitlements, and
    [{"op", "args"}]. *)
Inductive ast :=
  | Const (v : constant)
  | Ref (s : scope) (path : list bytes)
  | Entitlements (resourceType : bytes) (names : list bytes)
  | Op (op : operator) (args : list ast).

Definition node (op : operator) (args : list ast) : ast := Op op args.
Definition negate (op : operator) (args : list ast) : ast := Op op_not [node op args].

(** ** Operands *)

(** [toNumber]; [ParseFloat] and [ParseInt] refuse a text with a second point and a number
    out of range. *)
Definition toNumber (text : bytes) : option constant :=
  if member "."%char text then
    match span is_digit (default text (cutPrefix ["-"%char] text)) with
    | (int, "."%char :: frac) =>
        if all is_digit frac then
          let '(negative, x) := ParseFloat text in
          if Outbound.above x (2 ^ 1024 - 1) then None else Some (CFloat negative x)
        else None
    | _ => None
    end
  else
    let '(negative, digits) := match cutPrefix ["-"%char] text with Some ds => (true, ds) | None => (false, text) end in
    let n := digits_value digits in
    let z := (if negative then - n else n)%Z in
    if bool_decide (- 2 ^ 63 ≤ z < 2 ^ 63)%Z then Some (CInt z) else None.

Definition splitPath (path : bytes) : list bytes :=
  if is_nil path then [[]]
  else if existsb (λ c, member c (bytes_of "[]?-")) path then [path]
  else
    let out := List.filter (λ p, negb (is_nil p)) (TrimSpace <$> Split "."%char path) in
    if is_nil out then [path] else out.

Definition TrimLeft (s : bytes) : bytes := drop_while isWhitespace s.

Definition readSingleQuotedLiteral (input : bytes) : result parse_error (bytes * bytes) :=
  match input with
  | "'"%char :: s =>
      match quoted_text s with
      | Some r => Ok r
      | None => Err (UnterminatedLiteral input)
      end
  | _ => Err (ExpectedLiteral input)
  end.

(** The names of one [.as(...)] clause, and what follows the last of them. *)
Fixpoint as_names (fuel : nat) (rest : bytes) : result parse_error (list bytes * bytes) :=
  match fuel with
  | 0 => Err OutOfFuel
  | S fuel =>
      '(name, after) ← readSingleQuotedLiteral (TrimLeft rest);
      match TrimLeft after with
      | ","%char :: rest => '(names, rest) ← as_names fuel rest; Ok (name :: names, rest)
      | rest => Ok ([name], rest)
      end
  end.

Fixpoint as_clauses (fuel : nat) (rest : bytes) : result parse_error (list bytes) :=
  match fuel with
  | 0 => Err OutOfFuel
  | S fuel =>
      let rest := TrimLeft rest in
      if is_nil rest then Ok []
      else if negb (HasPrefix (ToLower rest) (bytes_of ".as(")) then Err (ExpectedAs rest)
      else
        '(names, rest) ← as_names (S (length rest)) (drop 4 rest);
        match rest with
        | ")"%char :: rest => more ← as_clauses fuel rest; Ok (names ++ more)
        | _ => Err (NotClosedAfterNames rest)
        end
  end.

Definition entitlements_prefix : bytes := bytes_of "subject.entitledResources.of(".

Definition parseEntitlementOperand (raw : bytes) : result parse_error (option ast) :=
  if negb (HasPrefix (ToLower raw) (lower <$> entitlements_prefix)) then Ok None
  else
    '(resourceType, next) ← readSingleQuotedLiteral (drop (length entitlements_prefix) raw);
    match TrimLeft next with
    | ")"%char :: rest =>
        names ← as_clauses (S (length rest)) rest;
        if is_nil names then Err NoNames else Ok (Some (Entitlements resourceType names))
    | rest => Err (NotClosedAfterType rest)
    end.

(** ** The parser *)

Definition peek (ts : list token) : token := default (MkToken tokenEOF []) (head ts).
Definition next (ts : list token) : list token := tail ts.

Definition matchWord (expected : string) (ts : list token) : option (list token) :=
  if eqb (typ (peek ts)) tokenWord && EqualFold (value (peek ts)) (bytes_of expected) then Some (next ts) else None.

Fixpoint matchWords (expected : list string) (ts : list token) : option (list token) :=
  match expected with
  | [] => Some ts
  | w :: expected => ts ← matchWord w ts; matchWords expected ts
  end.

Definition matchSymbol (symbol : string) (ts : list token) : option (list token) :=
  if eqb (typ (peek ts)) tokenWord && eqb (value (peek ts)) (bytes_of symbol) then Some (next ts) else None.

Definition word_operand (w : bytes) : result parse_error ast :=
  let l := ToLower w in
  if eqb l (bytes_of "true") then Ok (Const (CBool true))
  else if eqb l (bytes_of "false") then Ok (Const (CBool false))
  else
    ent ← parseEntitlementOperand w;
    match ent with
    | Some ent => Ok ent
    | None =>
        if HasPrefix l (bytes_of "resource.") then Ok (Ref Resource (splitPath (drop 9 w)))
        else if HasPrefix l (bytes_of "subject.") then Ok (Ref Subject (splitPath (drop 8 w)))
        else Ok (Const (CText w))
    end.

Definition operand_of (t : token) : result parse_error ast :=
  match typ t with
  | tokenString | tokenRegex => Ok (Const (CText (value t)))
  | tokenNumber => match toNumber (value t) with Some c => Ok (Const c) | None => Err (InvalidNumber (value t)) end
  | tokenWord => word_operand (value t)
  | _ => Err (UnexpectedToken (value t))
  end.

Definition parseOperand (ts : list token) : result parse_error (ast * list token) :=
  a ← operand_of (peek ts); Ok (a, next ts).

(** The items after the first of a list of literals. *)
Fixpoint list_items (fuel : nat) (ts : list token) : result parse_error (list constant * list token) :=
  match fuel with
  | 0 => Err OutOfFuel
  | S fuel =>
      if eqb (typ (peek ts)) tokenComma then
        '(item, ts) ← parseOperand (next ts);
        match item with
        | Const c => '(cs, ts) ← list_items fuel ts; Ok (c :: cs, ts)
        | _ => Err NotALiteralList
        end
      else Ok ([], ts)
  end.

Definition parseMultiRightOperand (op : operator) (ts : list token) : result parse_error (ast * list token) :=
  '(first, ts) ← parseOperand ts;
  if negb (eqb (typ (peek ts)) tokenComma) then
    match op, first with
    | op_contains_any, Const c | op_is_subset, Const c | op_in, Const c => Ok (Const (CList [c]), ts)
    | _, _ => Ok (first, ts)
    end
  else
    match first with
    | Const c => '(cs, ts) ← list_items (S (length ts)) ts; Ok (Const (CList (c :: cs)), ts)
    | _ => Err NotALiteralList
    end.

(** The cases of the switch of [parseComparison] in order: how the operator is written, how
    its right operand is read, and the node it becomes. *)
Inductive spelling := Words (ws : list string) | Symbol (s : string).
Inductive right_side := One | Many | Nothing.

Definition spelled (s : spelling) (ts : list token) : option (list token) :=
  match s with
  | Words ws => matchWords ws ts
  | Symbol s => matchSymbol s ts
  end.

Definition comparisons : list (list spelling * right_side * bool * operator) :=
  [([Words ["NOT"; "CONTAINS"; "ANY"]], Many, true, op_contains_any);
   ([Words ["NOT"; "CONTAINS"]], One, true, op_contains);
   ([Words ["NOT"; "EQUALS"]], One, false, op_neq);
   ([Words ["NOT"; "IN"]], Many, true, op_in);
   ([Words ["NOT"; "MATCH"]], One, true, op_match);
   ([Words ["IS"; "NOT"; "EMPTY"]], Nothing, true, op_is_empty);
   ([Words ["IS"; "NOT"; "NULL"]], Nothing, true, op_is_null);
   ([Words ["IS"; "NOT"; "SUBSET"]], Many, true, op_is_subset);
   ([Words ["CONTAINS"; "ANY"]], Many, false, op_contains_any);
   ([Words ["CONTAINS"]], One, false, op_contains);
   ([Words ["EQUALS"]; Symbol "=="; Symbol "="], One, false, op_eq);
   ([Symbol "!="], One, false, op_neq);
   ([Words ["IN"]], Many, false, op_in);
   ([Words ["MATCH"]], One, false, op_match);
   ([Words ["IS"; "EMPTY"]], Nothing, false, op_is_empty);
   ([Words ["IS"; "NULL"]], Nothing, false, op_is_null);
   ([Words ["IS"; "SUBSET"]], Many, false, op_is_subset);
   ([Words ["GREATER"; "THAN"; "OR"; "EQUALS"; "TO"]; Words ["GREATER"; "THAN"; "OR"; "EQUAL"; "TO"]; Symbol ">="], One, false, op_gte);
   ([Words ["GREATER"; "THAN"]; Symbol ">"], One, false, op_gt);
   ([Words ["LESS"; "THAN"; "OR"; "EQUALS"; "TO"]; Words ["LESS"; "THAN"; "OR"; "EQUAL"; "TO"]; Symbol "<="], One, false, op_lte);
   ([Words ["LESS"; "THAN"]; Symbol "<"], One, false, op_lt)]%string.

Fixpoint first_spelled (l : list spelling) (ts : list token) : option (list token) :=
  match l with
  | [] => None
  | s :: l => match spelled s ts with Some ts => Some ts | None => first_spelled l ts end
  end.

Fixpoint first_case (l : list (list spelling * right_side * bool * operator)) (ts : list token)
    : option (right_side * bool * operator * list token) :=
  match l with
  | [] => None
  | (ss, r, n, op) :: l =>
      match first_spelled ss ts with Some ts => Some (r, n, op, ts) | None => first_case l ts end
  end.

Definition right_operand (r : right_side) (op : operator) (ts : list token) : result parse_error (list ast * list token) :=
  match r with
  | One => '(a, ts) ← parseOperand ts; Ok ([a], ts)
  | Many => '(a, ts) ← parseMultiRightOperand op ts; Ok ([a], ts)
  | Nothing => Ok ([], ts)
  end.

Definition parseComparison (ts : list token) : result parse_error (ast * list token) :=
  '(lhs, ts) ← parseOperand ts;
  match first_case comparisons ts with
  | Some (r, negated, op, ts) =>
      '(rhs, ts) ← right_operand r op ts;
      Ok ((if negated then negate else node) op (lhs :: rhs), ts)
  | None => Err (UnsupportedOperator (value (peek ts)))
  end.

Definition lookaheadHasAccess (ts : list token) : bool :=
  match ts with
  | t :: mode :: _ :: on :: _ =>
      eqb (typ t) tokenWord && EqualFold (value t) (bytes_of "subject")
      && eqb (typ mode) tokenWord && (EqualFold (value mode) (bytes_of "allowed") || EqualFold (value mode) (bytes_of "denied"))
      && eqb (typ on) tokenWord && EqualFold (value on) (bytes_of "on")
  | _ => false
  end.

Definition parseHasAccess (ts : list token) : result parse_error (ast * list token) :=
  _ ← check (EqualFold (value (peek ts)) (bytes_of "subject")) ExpectedSubject;
  let ts := next ts in
  let mode := ToLower (value (peek ts)) in
  _ ← check (eqb mode (bytes_of "allowed") || eqb mode (bytes_of "denied")) ExpectedMode;
  let ts := next ts in
  let operation := peek ts in
  _ ← check (eqb (typ operation) tokenString || eqb (typ operation) tokenWord) ExpectedOperation;
  match matchWord "ON" (next ts) with
  | None => Err ExpectedOn
  | Some ts =>
      _ ← check (EqualFold (value (peek ts)) (bytes_of "resource")) ExpectedResource;
      Ok (Op op_has_access [Const (CText mode); Const (CText (value operation)); Const (CText (bytes_of "resource")); Const (CInt 1)],
          next ts)
  end.

(** A run of parts between words; a single part stands for itself. *)
Section chain.
Context (part : list token → result parse_error (ast * list token)) (word : string).

Fixpoint more_parts (fuel : nat) (ts : list token) : result parse_error (list ast * list token) :=
  match fuel with
  | 0 => Err OutOfFuel
  | S fuel =>
      match matchWord word ts with
      | Some ts =>
          '(rhs, ts) ← part ts;
          '(rights, ts) ← more_parts fuel ts;
          Ok (rhs :: rights, ts)
      | None => Ok ([], ts)
      end
  end.

Definition chain (op : operator) (ts : list token) : result parse_error (ast * list token) :=
  '(lhs, ts) ← part ts;
  '(rights, ts) ← more_parts (S (length ts)) ts;
  Ok (if is_nil rights then lhs else Op op (lhs :: rights), ts).
End chain.

(** [parsePrimary], with [parseOr] for what is in parentheses. *)
Definition parsePrimary (parseOr : list token → result parse_error (ast * list token)) (ts : list token)
    : result parse_error (ast * list token) :=
  if eqb (typ (peek ts)) tokenLParen then
    '(expr, ts) ← parseOr (next ts);
    if eqb (typ (peek ts)) tokenRParen then Ok (expr, next ts) else Err ExpectedRParen
  else if lookaheadHasAccess ts then parseHasAccess ts
  else
    let word := ToLower (value (peek ts)) in
    if eqb (typ (peek ts)) tokenWord && eqb word (bytes_of "true") then Ok (Const (CBool true), next ts)
    else if eqb (typ (peek ts)) tokenWord && eqb word (bytes_of "false") then Ok (Const (CBool false), next ts)
    else parseComparison ts.

Definition parseAnd parseOr : list token → result parse_error (ast * list token) :=
  chain (parsePrimary parseOr) "AND" op_and.

Fixpoint parseOr (fuel : nat) (ts : list token) : result parse_error (ast * list token) :=
  match fuel with
  | 0 => Err OutOfFuel
  | S fuel => chain (parseAnd (parseOr fuel)) "OR" op_or ts
  end.

Definition ParseCondition (input : bytes) : result parse_error ast :=
  ts ← tokenize input;
  '(a, ts) ← parseOr (S (length ts)) ts;
  if eqb (typ (peek ts)) tokenEOF then Ok a else Err (UnexpectedToken (value (peek ts))).

End parser.

(** Induction on a tree and on all its arguments. *)
Section ast_induction.
Context (P : ast → Prop) (Hleaf : ∀ a, (∀ op args, a ≠ Op op args) → P a) (Hop : ∀ op args, Forall P args → P (Op op args)).
Fixpoint ast_induction (a : ast) : P a :=
  match a with
  | Op op args => Hop op args ((fix go args : Forall P args := match args with [] => Forall_nil_2 P | a :: args => Forall_cons_2 P a args (ast_induction a) (go args) end) args)
  | Const v => Hleaf (Const v) (λ op args, ltac:(discriminate))
  | Ref s path => Hleaf (Ref s path) (λ op args, ltac:(discriminate))
  | Entitlements rt names => Hleaf (Entitlements rt names) (λ op args, ltac:(discriminate))
  end.
End ast_induction.

(** ** What the parser returns *)

(** A value an operand carries: an [int64], a finite [float64], a text or a boolean. *)
Definition scalar (c : constant) : bool :=
  match c with
  | CInt z => bool_decide (- 2 ^ 63 ≤ z < 2 ^ 63)%Z
  | CFloat _ x => negb (Outbound.above x (2 ^ 1024 - 1))
  | CList _ => false
  | _ => true
  end.

Definition reference (a : ast) : bool :=
  match a with
  | Ref _ path => negb (is_nil path)
  | Entitlements _ names => negb (is_nil names)
  | _ => false
  end.

Definition operand (a : ast) : bool :=
  match a with
  | Const c => scalar c
  | _ => reference a
  end.

Definition list_operand (a : ast) : bool :=
  match a with
  | Const (CList cs) => negb (is_nil cs) && forallb scalar cs
  | _ => reference a
  end.

(** The operand a comparison starts with; a boolean there is a condition of its own. *)
Definition left_operand (a : ast) : bool :=
  match a with
  | Const (CBool _) => false
  | _ => operand a
  end.

Definition comparison (op : operator) (args : list ast) : bool :=
  match op, args with
  | (op_is_empty | op_is_null), [a] => left_operand a
  | (op_contains_any | op_in | op_is_subset), [a; b] => left_operand a && list_operand b
  | (op_eq | op_neq | op_contains | op_match | op_gte | op_gt | op_lte | op_lt), [a; b] => left_operand a && operand b
  | _, _ => false
  end.

Definition negatable (op : operator) : bool :=
  match op with
  | op_contains_any | op_contains | op_in | op_match | op_is_empty | op_is_null | op_is_subset => true
  | _ => false
  end.

Definition access_args (args : list ast) : bool :=
  match args with
  | [Const (CText mode); Const (CText _); Const (CText what); Const (CInt n)] =>
      (eqb mode (bytes_of "allowed") || eqb mode (bytes_of "denied")) && eqb what (bytes_of "resource") && eqb n 1%Z
  | _ => false
  end.

Fixpoint condition (a : ast) : bool :=
  match a with
  | Const (CBool _) => true
  | Op (op_or | op_and) args => (2 <=? length args) && forallb condition args
  | Op op_not [Op op args] => negatable op && comparison op args
  | Op op_has_access args => access_args args
  | Op op args => comparison op args
  | _ => false
  end.

(** [gives P n m]: [m] is not out of fuel, and what it returns satisfies [P] and leaves
    fewer than [n] elements. *)
Definition gives {A B} (P : A → Prop) (n : nat) (m : result parse_error (A * list B)) : Prop :=
  match m with
  | Ok (a, r) => P a ∧ length r < n
  | Err e => e ≠ OutOfFuel
  end.

Lemma gives_bind {A B C} (P : A → Prop) (Q : C → Prop) n k (m : result parse_error (A * list B)) f :
  gives P n m → (∀ a (r : list B), P a → length r < n → gives Q k (f (a, r))) → gives (B:=B) Q k (m ≫= f).
Proof. destruct m as [[a r]|e]; [|done]. intros [HP Hr] H. by apply H. Qed.

Lemma gives_mono {A B} (P Q : A → Prop) n k (m : result parse_error (A * list B)) :
  gives P n m → (∀ a, P a → Q a) → n ≤ k → gives Q k m.
Proof. destruct m as [[a r]|e]; [|done]. intros [HP Hr] H Hk. split; [by apply H|lia]. Qed.

Lemma quoted_text_shorter s text rest : quoted_text s = Some (text, rest) → length rest < length s.
Proof.
  revert text rest. induction s as [[|c s] IH] using length_ind; intros text rest; [done|]. cbn [quoted_text].
  destruct (eqb c "\"%char); [destruct s as [|d s]; [done|]|destruct (eqb c "'"%char); [intros [= <- <-]; cbn; lia|]].
  all: destruct (quoted_text s) as [[t r]|] eqn:E; [|done]; intros [= <- <-].
  all: apply IH in E; cbn in *; lia.
Qed.

Lemma span_length {A} (p : A → bool) l : length (span p l).2 ≤ length l.
Proof.
  destruct (span p l) as [a b] eqn:E. apply span_app in E. subst. cbn. rewrite length_app. lia.
Qed.

Lemma scanNumber_shorter c s : isNumericStart (c :: s) = true → length (scanNumber (c :: s)).2 < length (c :: s).
Proof.
  intros H. unfold scanNumber. set (p := λ c, is_digit c || eqb c "."%char).
  assert (Hc : c = "-"%char ∨ c ≠ "-"%char ∧ is_digit c = true).
  { destruct (decide (c = "-"%char)); [by left|right]. split; [done|].
    cbn in H. repeat case_match; simplify_eq; done. }
  destruct Hc as [->|[Hne Hd]].
  - pose proof (span_length p s). destruct (span p s) eqn:E. cbn in *. lia.
  - replace (match c :: s with "-"%char :: s => (["-"%char], s) | _ => ([], c :: s) end) with (@nil ascii, c :: s)
      by (repeat case_match; simplify_eq; done).
    cbn [span]. unfold p at 1. rewrite Hd. cbn. pose proof (span_length p s). destruct (span p s) eqn:E. cbn in *. lia.
Qed.

Section total.
Context {case : CaseTable}.

Lemma scan_word_split word b p q s :
  let r := scan_word word b p q s in r.1 ++ r.2 = word ++ s ∧ length r.2 ≤ length s.
Proof.
  revert word b p q. induction s as [[|c s] IH] using length_ind; intros word b p q; cbn [scan_word]; [by split|].
  assert (Hgo : ∀ w b p q s', length s' < length (c :: s) → w ++ s' = word ++ c :: s →
    let r := scan_word w b p q s' in r.1 ++ r.2 = word ++ c :: s ∧ length r.2 ≤ length (c :: s)).
  { intros w b' p' q' s' Hs Hw. destruct (IH s' Hs w b' p' q') as [E ?]. rewrite <-Hw. split; [done|lia]. }
  repeat case_match; try (by split); apply Hgo; cbn; try lia; by rewrite <-app_assoc.
Qed.

(** A word starts with a byte of its own. *)
Lemma scanWord_shorter c s : isWhitespace c = false → c ∉ ["("; ")"; ","]%char → length (scanWord (c :: s)).2 < length (c :: s).
Proof.
  rewrite !not_elem_of_cons. intros Hw (H1 & H2 & H3 & _). unfold scanWord. cbn [scan_word].
  assert (Hgo : ∀ w b p q, length (scan_word w b p q s).2 < length (c :: s)).
  { intros. destruct (scan_word_split w b p q s) as [_ H]. cbn in *. lia. }
  rewrite Hw, (proj2 (eqb_false _ _) H1), (proj2 (eqb_false _ _) H2), (proj2 (eqb_false _ _) H3).
  repeat case_match; try done; apply Hgo.
Qed.

Lemma scan_token_steady c s :
  match scan_token c s with Ok (_, r) => length r < length (c :: s) | Err e => e ≠ OutOfFuel end.
Proof.
  unfold scan_token.
  destruct (isWhitespace c) eqn:Hw; [cbn; lia|].
  destruct (eqb c "("%char) eqn:H1; [cbn; lia|]. destruct (eqb c ")"%char) eqn:H2; [cbn; lia|].
  destruct (eqb c ","%char) eqn:H3; [cbn; lia|].
  destruct (eqb c "'"%char).
  { destruct (quoted_text s) as [[t r]|] eqn:E; [|done]. apply quoted_text_shorter in E. cbn. lia. }
  destruct (eqb c "/"%char) eqn:H4.
  { unfold scanUntilDelimiter. cbn [span]. rewrite Hw, H2, H3. cbn.
    pose proof (span_length (λ c, negb (isWhitespace c || eqb c ")"%char || eqb c ","%char)) s).
    destruct (span _ s). cbn in *. lia. }
  destruct (isNumericStart (c :: s)) eqn:Hn.
  - pose proof (scanNumber_shorter c s Hn). by destruct (scanNumber (c :: s)).
  - apply eqb_false in H1, H2, H3. pose proof (scanWord_shorter c s Hw) as H.
    destruct (scanWord (c :: s)). apply H. rewrite !not_elem_of_cons. by split_and!; [..|apply not_elem_of_nil].
Qed.

Lemma tokens_of_total fuel s :
  length s ≤ fuel → match tokens_of fuel s with Ok ts => ts ≠ [] | Err e => e ≠ OutOfFuel end.
Proof.
  revert s. induction fuel as [|fuel IH]; intros [|c s] H; cbn in H; try done; [lia|]. cbn [tokens_of].
  pose proof (scan_token_steady c s) as Ht. destruct (scan_token c s) as [[ts r]|e]; [|done]. cbn in *.
  specialize (IH r ltac:(lia)). destruct (tokens_of fuel r); [|done]. cbn. intros [_ ?]%app_eq_nil. done.
Qed.
(** Operands. *)
Lemma literal_gives input : gives (λ _, True) (length input) (readSingleQuotedLiteral input).
Proof.
  destruct input as [|c s]; [done|]. unfold readSingleQuotedLiteral.
  assert (H : gives (λ _, True) (length (c :: s)) match quoted_text s with Some r => Ok r | None => Err (UnterminatedLiteral (c :: s)) end).
  { destruct (quoted_text s) as [[t r]|] eqn:E; [|done]. apply quoted_text_shorter in E. cbn. lia. }
  by repeat case_match.
Qed.

Lemma TrimLeft_shorter s : length (TrimLeft s) ≤ length s.
Proof. apply span_length. Qed.

Lemma as_names_gives fuel rest :
  length rest < fuel → gives (λ names, names ≠ []) (S (length rest)) (as_names fuel rest).
Proof.
  revert rest. induction fuel as [|fuel IH]; intros rest H; [lia|]. cbn [as_names].
  pose proof (TrimLeft_shorter rest).
  eapply gives_bind; [apply literal_gives|]. intros name after _ Ha. pose proof (TrimLeft_shorter after).
  assert (Hlast : gives (λ names, names ≠ []) (S (length rest)) (Ok ([name], TrimLeft after))) by (cbn; split; [done|lia]).
  destruct (TrimLeft after) as [|c r] eqn:E; [done|]. cbn [length] in *.
  assert (Hmore : gives (λ names, names ≠ []) (S (length rest)) ('(names, rest) ← as_names fuel r; Ok (name :: names, rest))).
  { eapply gives_bind; [apply IH; lia|]. intros names r' _ Hr. cbn. split; [done|lia]. }
  by repeat case_match.
Qed.

Lemma as_clauses_total fuel rest : length rest < fuel → as_clauses fuel rest ≠ Err OutOfFuel.
Proof.
  revert rest. induction fuel as [|fuel IH]; intros rest H; [lia|]. cbn [as_clauses].
  pose proof (TrimLeft_shorter rest). destruct (is_nil _) eqn:En; [done|]. destruct (negb _) eqn:Ep; [done|].
  assert (length (drop 4 (TrimLeft rest)) < length rest).
  { destruct (TrimLeft rest) eqn:E; [done|]. rewrite length_drop. cbn in *. lia. }
  pose proof (as_names_gives (S (length (TrimLeft rest))) (drop 4 (TrimLeft rest)) ltac:(rewrite length_drop; lia)) as Hn.
  destruct (as_names _ _) as [[names r]|e]; [|by intros [= ->]]. destruct Hn as [_ Hr]. cbn [mbind result_bind].
  destruct r as [|c r]; [done|]. cbn [length] in Hr. specialize (IH r ltac:(lia)).
  assert ((more ← as_clauses fuel r; Ok (names ++ more)) ≠ Err OutOfFuel) by (destruct (as_clauses fuel r); naive_solver).
  by repeat case_match.
Qed.

Lemma parseEntitlementOperand_spec raw :
  match parseEntitlementOperand raw with
  | Ok None => True
  | Ok (Some a) => reference a = true
  | Err e => e ≠ OutOfFuel
  end.
Proof.
  unfold parseEntitlementOperand. destruct (negb _); [done|].
  pose proof (literal_gives (drop (length entitlements_prefix) raw)) as Hl.
  destruct (readSingleQuotedLiteral _) as [[rt after]|e]; [|done]. cbn [mbind result_bind].
  destruct (TrimLeft after) as [|c r]; [done|].
  assert (match names ← as_clauses (S (length r)) r; if is_nil names then Err NoNames else Ok (Some (Entitlements rt names)) with
          | Ok None => True | Ok (Some a) => reference a = true | Err e => e ≠ OutOfFuel end).
  { pose proof (as_clauses_total (S (length r)) r ltac:(lia)).
    destruct (as_clauses _ r) as [names|e]; cbn; [|naive_solver]. destruct (is_nil names) eqn:E; cbn; [done|by rewrite E]. }
  destruct c as [[] [] [] [] [] [] [] []]; first [exact H | done].
Qed.

Lemma splitPath_nonempty path : is_nil (splitPath path) = false.
Proof. unfold splitPath. repeat case_match; done. Qed.

Lemma word_operand_spec w : match word_operand w with Ok a => operand a = true | Err e => e ≠ OutOfFuel end.
Proof.
  unfold word_operand. destruct (eqb _ (bytes_of "true")); [done|]. destruct (eqb _ (bytes_of "false")); [done|].
  pose proof (parseEntitlementOperand_spec w) as H. destruct (parseEntitlementOperand w) as [[a|]|e]; cbn.
  - by destruct a.
  - repeat case_match; simplify_eq; cbn; by rewrite ?splitPath_nonempty.
  - done.
Qed.

Lemma toNumber_scalar text c : toNumber text = Some c → scalar c = true.
Proof.
  unfold toNumber. destruct (member _ _).
  - intros H. repeat case_match; simplify_eq. cbn. by rewrite negb_true_iff.
  - destruct (cutPrefix _ _); cbn; case_bool_decide; intros [= <-]; by apply bool_decide_eq_true.
Qed.

Lemma parseOperand_gives ts : gives (λ a, operand a = true) (length ts) (parseOperand ts).
Proof.
  unfold parseOperand. destruct ts as [|t ts]; [done|]. change (peek (t :: ts)) with t.
  assert (H : match operand_of t with Ok a => operand a = true | Err e => e ≠ OutOfFuel end).
  { unfold operand_of. destruct (typ t); try done; [apply word_operand_spec|].
    destruct (toNumber (value t)) eqn:E; [by eapply toNumber_scalar|done]. }
  destruct (operand_of t); cbn; [|done]. split; [done|lia].
Qed.

Lemma list_items_gives fuel ts :
  length ts < fuel → gives (λ cs, forallb scalar cs = true) (S (length ts)) (list_items fuel ts).
Proof.
  revert ts. induction fuel as [|fuel IH]; intros ts H; [lia|]. cbn [list_items].
  destruct (eqb _ _); [|by cbn; split; [|lia]].
  assert (length (next ts) ≤ length ts) by (destruct ts; cbn; lia).
  eapply gives_bind; [apply parseOperand_gives|]. intros a r Ha Hr. destruct a as [c| | |]; [|done..].
  eapply gives_bind; [apply IH; lia|]. intros cs r' Hcs Hr'. cbn in *. rewrite Ha, Hcs. split; [done|lia].
Qed.

(** [parseMultiRightOperand] is called for three operators only. *)
Definition multi (op : operator) : bool :=
  match op with op_contains_any | op_in | op_is_subset => true | _ => false end.

Lemma parseMultiRightOperand_gives op ts :
  multi op = true → gives (λ a, list_operand a = true) (length ts) (parseMultiRightOperand op ts).
Proof.
  intros Hop. unfold parseMultiRightOperand. eapply gives_bind; [apply parseOperand_gives|].
  intros a r Ha Hr. destruct (negb _).
  - destruct a, op; try done; cbn in *; by rewrite ?Ha.
  - destruct a as [c| | |]; [|done..].
    eapply gives_bind; [apply list_items_gives; lia|]. intros cs r' Hcs Hr'. cbn in *. rewrite Ha, Hcs. split; [done|lia].
Qed.

(** Comparisons. *)
Lemma matchWord_shorter w ts ts' : matchWord w ts = Some ts' → length ts' < length ts.
Proof. unfold matchWord. destruct ts; [done|]. case_match; [|done]. intros [= <-]. cbn. lia. Qed.

Lemma matchSymbol_shorter w ts ts' : matchSymbol w ts = Some ts' → length ts' < length ts.
Proof. unfold matchSymbol. destruct ts; [done|]. case_match; [|done]. intros [= <-]. cbn. lia. Qed.

Lemma matchWords_shorter ws ts ts' : matchWords ws ts = Some ts' → length ts' ≤ length ts.
Proof.
  revert ts. induction ws as [|w ws IH]; intros ts; cbn; [by intros [= ->]|].
  destruct (matchWord w ts) eqn:E; [|done]. apply matchWord_shorter in E. intros H%IH. lia.
Qed.

Lemma first_spelled_shorter l ts ts' : first_spelled l ts = Some ts' → length ts' ≤ length ts.
Proof.
  induction l as [|s l IH]; cbn; [done|]. destruct (spelled s ts) eqn:E; [|by auto]. intros [= ->].
  destruct s; cbn in E; [by eapply matchWords_shorter|]. apply matchSymbol_shorter in E. lia.
Qed.

(** A row of the table of comparisons reads the right side its operator takes. *)
Definition row_fits (row : list spelling * right_side * bool * operator) : bool :=
  let '(_, r, negated, op) := row in
  implb negated (negatable op)
  && match op, r with
     | (op_is_empty | op_is_null), Nothing | (op_contains_any | op_in | op_is_subset), Many
     | (op_eq | op_neq | op_contains | op_match | op_gte | op_gt | op_lte | op_lt), One => true
     | _, _ => false
     end.

Lemma comparisons_fit : forallb row_fits comparisons = true.
Proof. reflexivity. Qed.

Lemma first_case_fits l ts r negated op ts' :
  forallb row_fits l = true → first_case l ts = Some (r, negated, op, ts') →
  length ts' ≤ length ts ∧ ∃ ss, row_fits (ss, r, negated, op) = true.
Proof.
  induction l as [|[[[ss r'] n'] op'] l IH]; cbn [first_case]; [done|]. intros [Hrow Hl]%andb_true_iff.
  destruct (first_spelled ss ts) eqn:E; [|by auto]. intros [= -> -> -> ->].
  split; [by eapply first_spelled_shorter|]. by exists ss.
Qed.

Definition is_condition (a : ast) : Prop := condition a = true.

Lemma comparison_condition negated op args :
  implb negated (negatable op) = true → comparison op args = true →
  is_condition ((if negated then negate else node) op args).
Proof. intros Hn Hc. unfold is_condition. destruct negated; cbn in *; [by rewrite Hn, Hc|]. by destruct op. Qed.

Lemma right_operand_gives ss r negated op ts a :
  row_fits (ss, r, negated, op) = true → left_operand a = true →
  gives (λ args, comparison op (a :: args) = true) (S (length ts)) (right_operand r op ts).
Proof.
  intros [_ Hr]%andb_true_iff Ha. destruct r; cbn [right_operand].
  - eapply gives_bind; [apply parseOperand_gives|]. intros b r Hb Hlt. split; [|lia].
    destruct op; try done; cbn; by rewrite Ha, Hb.
  - eapply gives_bind; [apply parseMultiRightOperand_gives; by destruct op|]. intros b r Hb Hlt. split; [|lia].
    destruct op; try done; cbn; by rewrite Ha, Hb.
  - cbn. split; [|lia]. by destruct op.
Qed.

(** The first operand is no boolean where [parsePrimary] has ruled the words out. *)
Definition not_bool (t : token) : Prop :=
  typ t = tokenWord → ToLower (value t) ≠ bytes_of "true" ∧ ToLower (value t) ≠ bytes_of "false".

Lemma parseEntitlementOperand_ref w a : parseEntitlementOperand w = Ok (Some a) → reference a = true.
Proof. intros E. pose proof (parseEntitlementOperand_spec w) as H. by rewrite E in H. Qed.

Lemma operand_of_left t a : not_bool t → operand_of t = Ok a → operand a = true → left_operand a = true.
Proof.
  intros Ht Ha H. destruct a as [[]| | |]; try done. exfalso. unfold operand_of in Ha.
  destruct (typ t) eqn:Et; try done.
  - destruct (Ht Et) as [H1 H2]. unfold word_operand in Ha.
    rewrite (proj2 (eqb_false _ _) H1), (proj2 (eqb_false _ _) H2) in Ha.
    destruct (parseEntitlementOperand (value t)) as [[x|]|] eqn:E; cbn in Ha; [|by repeat case_match|done].
    injection Ha as ->. by apply parseEntitlementOperand_ref in E.
  - destruct (toNumber (value t)) eqn:E; [|done]. injection Ha as ->. unfold toNumber in E.
    repeat case_match; simplify_eq.
Qed.

Lemma parseComparison_gives ts : not_bool (peek ts) → gives is_condition (length ts) (parseComparison ts).
Proof.
  intros Ht. unfold parseComparison.
  assert (Hl : gives (λ a, left_operand a = true) (length ts) (parseOperand ts)).
  { pose proof (parseOperand_gives ts) as H. unfold parseOperand in *.
    destruct (operand_of (peek ts)) eqn:E; [|done]. destruct H as [Ha Hn]. split; [|done]. by eapply operand_of_left. }
  eapply gives_bind; [exact Hl|]. intros a r Ha Hr. cbv beta.
  destruct (first_case comparisons r) as [[[[side negated] op] ts']|] eqn:E; [|done].
  destruct (first_case_fits _ _ _ _ _ _ comparisons_fit E) as [Hlt [ss Hrow]].
  eapply gives_bind; [exact (right_operand_gives ss side negated op ts' a Hrow Ha)|]. intros args r' Hargs Hr'. split; [|lia].
  apply comparison_condition; [|done]. by apply andb_true_iff in Hrow as [? _].
Qed.

Lemma parseHasAccess_gives ts : gives is_condition (length ts) (parseHasAccess ts).
Proof.
  unfold parseHasAccess. destruct (check _ ExpectedSubject) as [[]|e] eqn:E1; [|by unfold check in E1; case_match; simplify_eq].
  cbn [mbind result_bind].
  destruct (eqb (ToLower _) _ || _) eqn:Hm; [|done]. cbn [check mbind result_bind].
  destruct (check _ ExpectedOperation) as [[]|e] eqn:E2; [|by unfold check in E2; case_match; simplify_eq].
  cbn [mbind result_bind].
  destruct (matchWord "ON" _) as [ts'|] eqn:Eo; [|done]. apply matchWord_shorter in Eo.
  destruct (check _ ExpectedResource) as [[]|e] eqn:E3; [|by unfold check in E3; case_match; simplify_eq].
  cbn [mbind result_bind]. split.
  - unfold is_condition. cbn [condition access_args]. by rewrite Hm.
  - assert (length (next (next (next ts))) ≤ length ts) by (destruct ts as [|? [|? [|]]]; cbn; lia).
    assert (length (next ts') ≤ length ts') by (destruct ts'; cbn; lia).
    assert (length (next (next ts)) ≤ length ts) by (destruct ts as [|? [|]]; cbn; lia). lia.
Qed.

(** Chains of parts, and the parser. *)
Section chains.
Context (part : list token → result parse_error (ast * list token)) (bound : nat).
Hypothesis part_gives : ∀ ts, length ts < bound → gives is_condition (length ts) (part ts).

Lemma more_parts_gives word fuel ts :
  length ts < fuel → length ts < bound → gives (Forall is_condition) (S (length ts)) (more_parts part word fuel ts).
Proof.
  revert ts. induction fuel as [|fuel IH]; intros ts Hf Hb; [lia|]. cbn [more_parts].
  destruct (matchWord word ts) as [ts'|] eqn:E; [|by cbn; split; [constructor|lia]]. apply matchWord_shorter in E.
  eapply gives_bind; [apply part_gives; lia|]. intros a r Ha Hr.
  eapply gives_bind; [apply IH; lia|]. intros l r' Hl Hr'. split; [by constructor|lia].
Qed.

Lemma chain_gives word op ts :
  op = op_and ∨ op = op_or → length ts < bound → gives is_condition (length ts) (chain part word op ts).
Proof.
  intros Hop Hb. unfold chain. eapply gives_bind; [by apply part_gives|]. intros a r Ha Hr. cbv beta.
  eapply gives_bind; [apply more_parts_gives; lia|]. intros l r' Hl Hr'. split; [|lia].
  destruct l as [|b l]; [done|]. cbn [is_nil]. unfold is_condition.
  assert (H : forallb condition (a :: b :: l) = true).
  { apply forallb_forall. intros x Hx%list_elem_of_In. rewrite Forall_forall in Hl.
    apply elem_of_cons in Hx as [->|Hx]; [done|by apply Hl]. }
  destruct Hop as [-> | ->]; exact H.
Qed.
End chains.

Lemma parsePrimary_gives rec ts :
  (∀ ts', length ts' < length ts → gives is_condition (length ts') (rec ts')) →
  gives is_condition (length ts) (parsePrimary rec ts).
Proof.
  intros Hrec. unfold parsePrimary. destruct ts as [|t ts]; [by apply parseComparison_gives|].
  destruct (eqb (typ _) tokenLParen) eqn:E1.
  { eapply gives_bind; [apply Hrec; cbn; lia|]. intros a r Ha Hr. destruct (eqb _ tokenRParen); [|done].
    split; [done|]. destruct r; cbn in *; lia. }
  destruct (lookaheadHasAccess _); [apply parseHasAccess_gives|].
  destruct (eqb _ tokenWord && _) eqn:Et; [cbn; split; [done|lia]|].
  destruct (eqb _ tokenWord && eqb _ (bytes_of "false")) eqn:Ef; [cbn; split; [done|lia]|].
  apply parseComparison_gives. intros Hw.
  rewrite (proj2 (eqb_true _ _) Hw), !andb_true_l in *. by apply eqb_false in Et, Ef.
Qed.

Lemma parseOr_gives fuel ts : length ts < fuel → gives is_condition (length ts) (parseOr fuel ts).
Proof.
  revert ts. induction fuel as [|fuel IH]; intros ts H; [lia|]. cbn [parseOr].
  apply (chain_gives _ (S (length ts))); [|by right|lia]. intros ts1 H1.
  apply (chain_gives _ (S (length ts1))); [|by left|lia]. intros ts2 H2.
  apply parsePrimary_gives. intros ts3 H3. apply IH. lia.
Qed.

(** C21: for every text [ParseCondition] ends with a reason of its own or with a condition: a
    boolean, a run of two conditions at least under and or or, a comparison whose sides fit
    its operator and whose negation is one the language has, or an access question; lists
    are nonempty, integers in the range of an [int64] and floats finite. *)
Theorem ParseCondition_typed input :
  match ParseCondition input with
  | Ok a => condition a = true
  | Err e => e ≠ OutOfFuel
  end.
Proof.
  unfold ParseCondition, tokenize. pose proof (tokens_of_total (length input) input (le_n _)) as Ht.
  destruct (tokens_of _ _) as [ts|e]; [|done]. cbn [mbind result_bind].
  pose proof (parseOr_gives (S (length ts)) ts (Nat.lt_succ_diag_r _)) as H.
  destruct (parseOr _ _) as [[a r]|e]; [|done]. destruct H as [Ha _]. cbn [mbind result_bind].
  by destruct (eqb _ tokenEOF).
Qed.

End total.

(** Texts of the tests, and why a few are refused. *)
Example ParseCondition_examples :
  let case := latin_case in
  let parse s := ParseCondition (bytes_of s) in
  parse "subject.entitledResources.of('Shop').as('A').as('B') CONTAINS resource.id"
  = Ok (node op_contains [Entitlements (bytes_of "Shop") (bytes_of <$> ["A"; "B"]%string); Ref Resource [bytes_of "id"]])
  ∧ parse "resource.n >= -1.5" = Ok (node op_gte [Ref Resource [bytes_of "n"]; Const (CFloat true (3 * 2 ^ 51, -52)%Z)])
  ∧ parse "resource.a IN 1, subject.b" = Err NotALiteralList
  ∧ parse "resource.a EQUALS 9223372036854775808" = Err (InvalidNumber (bytes_of "9223372036854775808"))
  ∧ parse "(true" = Err ExpectedRParen ∧ parse "resource.a EQUALS 'x" = Err Unterminated.
Proof. vm_compute. auto 10. Qed.

End SimplifiedParser.
