(* ===== verification/SimplifiedPrint.v ===== *)
(** * Conditions written back ([internal/simplifiedpolicies/parser.go])

    A writer of the conditions [ParseCondition] returns, and the round trip: the text written
    for a condition is read as that condition. The writer covers every shape of the tree; it
    writes no [float64] and refs whose path is the one their text splits into. *)
From S2P Require Import Prelude GoText Json Encoding Digits JsonFields GoCase Outbound SimplifiedParser.
Import GoText Encoding Digits GoCase SimplifiedParser.

Module SimplifiedPrint.

(** ** The writer *)

Definition escape (v : bytes) : bytes := concat (map (λ c, if eqb c "\"%char || eqb c "'"%char then ["\"%char; c] else [c]) v).
Definition quote (v : bytes) : bytes := "'"%char :: escape v ++ ["'"%char].

Definition token_text (t : token) : bytes := if eqb (typ t) tokenString then quote (value t) else value t.
Definition render (ts : list token) : bytes := concat (map (λ t, token_text t ++ [" "%char]) ts).

Definition word (s : string) : token := MkToken tokenWord (bytes_of s).
Definition comma : token := MkToken tokenComma [","%char].
Definition open : token := MkToken tokenLParen ["("%char].
Definition close : token := MkToken tokenRParen [")"%char].

Definition scalar_token (c : constant) : token :=
  match c with
  | CBool b => word (if b then "true" else "false")
  | CText s => MkToken tokenString s
  | CInt z => MkToken tokenNumber (bytes_of (pretty z))
  | _ => word ""
  end.

Fixpoint more_scalars (cs : list constant) : list token :=
  match cs with
  | [] => []
  | c :: cs => comma :: scalar_token c :: more_scalars cs
  end.

Definition scope_text (s : scope) : bytes := bytes_of match s with Resource => "resource." | Subject => "subject." end.

Fixpoint names_text (names : list bytes) : bytes :=
  match names with
  | [] => []
  | [n] => quote n
  | n :: names => quote n ++ ","%char :: names_text names
  end.

Definition entitlements_text (resourceType : bytes) (names : list bytes) : bytes :=
  entitlements_prefix ++ quote resourceType ++ bytes_of ").as(" ++ names_text names ++ [")"%char].

Definition operand_tokens (a : ast) : list token :=
  match a with
  | Const (CList (c :: cs)) => scalar_token c :: more_scalars cs
  | Const c => [scalar_token c]
  | Ref s path => [MkToken tokenWord (scope_text s ++ Join "."%char path)]
  | Entitlements rt names => [MkToken tokenWord (entitlements_text rt names)]
  | Op _ _ => []
  end.

Definition spell (s : spelling) : list token :=
  match s with
  | Words ws => word <$> ws
  | Symbol s => [word s]
  end.

(** The first spelling of an operator in the table of comparisons. *)
Definition spelling_of (negated : bool) (op : operator) : list token :=
  match find (λ row, eqb row.1.2 negated && bool_decide (row.2 = op)) comparisons with
  | Some (s :: _, _, _, _) => spell s
  | _ => []
  end.

Definition comparison_tokens (negated : bool) (op : operator) (args : list ast) : list token :=
  match args with
  | a :: args => operand_tokens a ++ spelling_of negated op ++ concat (map operand_tokens args)
  | [] => []
  end.

Fixpoint joined (w : string) (parts : list (list token)) : list token :=
  match parts with
  | [] => []
  | [p] => p
  | p :: parts => p ++ word w :: joined w parts
  end.

Definition connective (a : ast) : bool := match a with Op (op_or | op_and) _ => true | _ => false end.
Definition grouped (a : ast) (ts : list token) : list token := if connective a then open :: ts ++ [close] else ts.

Fixpoint unparse (a : ast) : list token :=
  match a with
  | Op op_or args => joined "OR" (map (λ x, grouped x (unparse x)) args)
  | Op op_and args => joined "AND" (map (λ x, grouped x (unparse x)) args)
  | Op op_not [Op op args] => comparison_tokens true op args
  | Op op_has_access [Const (CText mode); Const operation; _; _] =>
      [word "subject"; MkToken tokenWord mode; scalar_token operation; word "ON"; word "resource"]
  | Op op args => comparison_tokens false op args
  | _ => operand_tokens a
  end.

(** ** What can be written *)

(** Bytes a word may hold outside quotes and brackets. *)
Definition plain (c : ascii) : bool :=
  negb (member c (bytes_of "'[](),") || eqb c "034"%char || isWhitespace c) && (N_of_ascii c <? 128)%N.

Definition written_scalar (c : constant) : bool := match c with CFloat _ _ | CList _ => false | _ => true end.

Definition written_operand (a : ast) : bool :=
  match a with
  | Const (CList cs) => negb (is_nil cs) && forallb written_scalar cs
  | Const c => written_scalar c
  | Ref _ path => all plain (Join "."%char path) && eqb (splitPath (Join "."%char path)) path
  | _ => true
  end.

Fixpoint written (a : ast) : bool :=
  match a with
  | Op _ args => forallb written args
  | _ => written_operand a
  end.

Example unparse_example :
  render (unparse (Op op_and [Op op_or [negate op_in [Ref Resource (bytes_of <$> ["a"; "b"]%string); Const (CList [CInt (-3); CText (bytes_of "it's")])];
                                        Const (CBool true)];
                              node op_gte [Entitlements (bytes_of "Shop") (bytes_of <$> ["A"; "B"]%string); Ref Subject (bytes_of <$> ["x"]%string)]]))
  = bytes_of "( resource.a.b NOT IN -3 , 'it\'s' OR true ) AND subject.entitledResources.of('Shop').as('A','B') GREATER THAN OR EQUALS TO subject.x ".
Proof. vm_compute. reflexivity. Qed.

(** ** The text of the tokens is scanned into them *)

Lemma quoted_text_escape v rest : quoted_text (escape v ++ "'"%char :: rest) = Some (v, rest).
Proof.
  induction v as [|c v IH]; [done|]. unfold escape. cbn [map concat]. fold (escape v).
  destruct (eqb c "\"%char) eqn:E1; cbn [orb]; [by cbn; rewrite IH|].
  destruct (eqb c "'"%char) eqn:E2; cbn [app quoted_text]; [by cbn; rewrite IH|].
  by rewrite E1, E2, IH.
Qed.

Lemma quoted_text_quote v rest : quote v ++ rest = "'"%char :: escape v ++ "'"%char :: rest.
Proof. unfold quote. cbn. by rewrite <-app_assoc. Qed.

Section scan.
Context {case : CaseTable}.

Lemma plain_not c x : plain c = true → plain x = false → eqb c x = false.
Proof. intros Hc Hx. apply eqb_false. intros ->. congruence. Qed.

Lemma plain_not_space c : plain c = true → isWhitespace c = false.
Proof. unfold plain. destruct (isWhitespace c); [|done]. by rewrite !orb_true_r. Qed.

Lemma scan_word_plain p w n s :
  Forall (λ c, plain c = true) p → scan_word w 0 n None (p ++ s) = scan_word (w ++ p) 0 n None s.
Proof.
  intros H. revert w. induction H as [|c p Hc Hp IH]; intros w; [by rewrite app_nil_r|]. cbn [app scan_word].
  rewrite !(plain_not c) by done. rewrite (plain_not_space c Hc). cbn [orb andb]. rewrite IH. by rewrite <-app_assoc.
Qed.

(** Inside quotes, up to the closing one. *)
Lemma scan_word_escape v w n s :
  scan_word w 0 n (Some "'"%char) (escape v ++ "'"%char :: s) = scan_word (w ++ escape v ++ ["'"%char]) 0 n None s.
Proof.
  revert w. induction v as [|c v IH]; intros w; [done|]. unfold escape. cbn [map concat]. fold (escape v).
  destruct (eqb c "\"%char) eqn:E1; cbn [orb].
  - cbn [app scan_word]. rewrite (eqb_refl "\"%char). rewrite IH. by rewrite <-app_assoc.
  - destruct (eqb c "'"%char) eqn:E2; cbn [app scan_word].
    + rewrite (eqb_refl "\"%char). rewrite IH. by rewrite <-app_assoc.
    + rewrite E1, E2, IH. by rewrite <-app_assoc.
Qed.

Lemma scan_word_quote v w n s : scan_word w 0 n None (quote v ++ s) = scan_word (w ++ quote v) 0 n None s.
Proof.
  rewrite quoted_text_quote. cbn [scan_word]. rewrite (eqb_refl "'"%char). cbn [orb].
  rewrite scan_word_escape, <-app_assoc. done.
Qed.

Lemma scan_word_names names w n s :
  scan_word w 0 (S n) None (names_text names ++ s) = scan_word (w ++ names_text names) 0 (S n) None s.
Proof.
  revert w. induction names as [|x names IH]; intros w; [by rewrite app_nil_r|]. cbn [names_text].
  destruct names as [|y names]; [apply scan_word_quote|].
  rewrite <-app_assoc, scan_word_quote. cbn [app scan_word]. cbn -[scan_word names_text app].
  rewrite IH. by rewrite <-!app_assoc.
Qed.
Lemma HasPrefix_app p t : HasPrefix (p ++ t) p = true.
Proof. unfold HasPrefix. by rewrite cutPrefix_app. Qed.
Lemma HasSuffix_app t p : HasSuffix (t ++ p) p = true.
Proof. unfold HasSuffix. rewrite reverse_app. apply HasPrefix_app. Qed.

Lemma ToLower_prefix (p : string) t : is_ascii (bytes_of p) → ToLower (bytes_of p ++ t) = (lower <$> bytes_of p) ++ ToLower t.
Proof. intros H. unfold ToLower at 1. rewrite map_runes_ascii_app by done. fold (ToLower (bytes_of p)). by rewrite ToLower_ascii. Qed.

Lemma ToLower_suffix (p : string) t : is_ascii (bytes_of p) → ToLower (t ++ bytes_of p) = ToLower t ++ (lower <$> bytes_of p).
Proof.
  intros H. unfold ToLower at 1. rewrite map_runes_app; [fold (ToLower (bytes_of p)); by rewrite ToLower_ascii|].
  intros c Hc. unfold is_ascii in H. rewrite Forall_forall in H. apply H. by apply head_Some_elem_of.
Qed.

Definition entitlements_path : string := "subject.entitledResources".

Lemma continuation_of t : isEntitlementMethodCallContinuation (bytes_of entitlements_path ++ t ++ bytes_of ".as") = true.
Proof.
  unfold isEntitlementMethodCallContinuation.
  change (bytes_of "subject.entitledresources") with (lower <$> bytes_of entitlements_path).
  rewrite ToLower_prefix by (apply is_ascii_by; reflexivity).
  rewrite (HasPrefix_app (lower <$> bytes_of entitlements_path)).
  rewrite (ToLower_suffix ".as") by (apply is_ascii_by; reflexivity).
  rewrite app_assoc, (HasSuffix_app _ (bytes_of ".as")). by rewrite orb_true_r.
Qed.

Lemma scan_word_open w s : isEntitlementMethodCallContinuation w = true →
  scan_word w 0 0 None ("("%char :: s) = scan_word (w ++ ["("%char]) 0 1 None s.
Proof. intros H. cbn [scan_word]. rewrite H. done. Qed.

Lemma scan_word_close w n s : scan_word w 0 (S n) None (")"%char :: s) = scan_word (w ++ [")"%char]) 0 n None s.
Proof. done. Qed.

Lemma scanWord_entitlements rt names s :
  scanWord (entitlements_text rt names ++ " "%char :: s) = (entitlements_text rt names, " "%char :: s).
Proof.
  unfold scanWord, entitlements_text.
  change entitlements_prefix with (bytes_of entitlements_path ++ bytes_of ".of" ++ ["("%char]).
  change (bytes_of ").as(") with (")"%char :: bytes_of ".as" ++ ["("%char]).
  rewrite <-!app_assoc. cbn [app].
  rewrite !(scan_word_plain (bytes_of _)) by (apply all_Forall; reflexivity).
  rewrite scan_word_open by (vm_compute; reflexivity).
  rewrite scan_word_quote, <-!app_assoc. cbn [app]. rewrite scan_word_close.
  rewrite scan_word_plain by (apply all_Forall; reflexivity).
  rewrite scan_word_open.
  - rewrite scan_word_names, <-!app_assoc. cbn [app]. rewrite scan_word_close. cbn [scan_word].
    f_equal. by repeat (rewrite <-!app_assoc; cbn [app]).
  - rewrite <-!app_assoc. cbn [app]. 
    pose proof (continuation_of (bytes_of ".of" ++ "("%char :: quote rt ++ [")"%char])) as H.
    rewrite <-!app_assoc in H. cbn [app] in H. rewrite <-!app_assoc in H. exact H.
Qed.
(** A token whose text, followed by a space, is scanned into it. *)
Definition scans (t : token) : Prop :=
  ∃ c s', token_text t = c :: s' ∧ ∀ s, scan_token c (s' ++ " "%char :: s) = Ok ([t], " "%char :: s).

Lemma tokens_of_render ts fuel :
  Forall scans ts → length (render ts) ≤ fuel → tokens_of fuel (render ts) = Ok (ts ++ [MkToken tokenEOF []]).
Proof.
  intros H. revert fuel. induction H as [|t ts (c & s' & Et & Hs) H IH]; intros fuel Hf; [by destruct fuel|].
  assert (E : render (t :: ts) = c :: s' ++ " "%char :: render ts).
  { unfold render. cbn [map concat]. rewrite Et, <-app_assoc. done. }
  rewrite E in *. rewrite length_cons, length_app, length_cons in Hf.
  destruct fuel as [|[|fuel]]; [lia..|]. cbn [tokens_of]. rewrite Hs. cbn [mbind result_bind tokens_of].
  change (scan_token " " (render ts)) with (Ok (E:=parse_error) ([] : list token, render ts)). cbn [mbind result_bind].
  rewrite IH by lia. done.
Qed.

Lemma scan_token_word c s :
  plain c = true → c ≠ "/"%char → c ≠ "-"%char → is_digit c = false →
  scan_token c s = let '(text, rest) := scanWord (c :: s) in Ok ([MkToken tokenWord text], rest).
Proof.
  intros Hp H1 H2 H3. unfold scan_token.
  rewrite (plain_not_space c Hp), !(plain_not c) by done. rewrite (proj2 (eqb_false _ _) H1).
  assert (isNumericStart (c :: s) = false) as ->; [|done].
  unfold isNumericStart. repeat case_match; simplify_eq; done.
Qed.

Lemma scans_word (c : ascii) (w : bytes) :
  all plain (c :: w) = true → c ≠ "/"%char → c ≠ "-"%char → is_digit c = false → scans (MkToken tokenWord (c :: w)).
Proof.
  intros Hw H1 H2 H3. exists c, w. split; [done|]. intros s. apply all_Forall in Hw.
  rewrite scan_token_word by (done || by inversion Hw).
  unfold scanWord. change (c :: w ++ " "%char :: s) with ((c :: w) ++ " "%char :: s).
  by rewrite scan_word_plain.
Qed.

Lemma scans_string v : scans (MkToken tokenString v).
Proof.
  exists "'"%char, (escape v ++ ["'"%char]). split; [done|]. intros s. rewrite <-app_assoc. cbn [app].
  unfold scan_token. cbn -[quoted_text]. by rewrite quoted_text_escape.
Qed.

Lemma scans_number text :
  isNumericStart text = true → all (λ c, is_digit c || eqb c "-"%char) (take 1 text) = true →
  Forall (λ c, is_digit c = true) (tail text) → scans (MkToken tokenNumber text).
Proof.
  destruct text as [|c ds]; [done|]. intros Hn Hc Hds. exists c, ds. split; [done|]. intros s. cbn [tail] in Hds.
  assert (Hspan : span (λ c, is_digit c || eqb c "."%char) (ds ++ " "%char :: s) = (ds, " "%char :: s)).
  { apply span_spec; [|by intros x [= <-]]. eapply Forall_impl; [exact Hds|]. intros x Hx. cbn in *. by rewrite Hx. }
  assert (Hn' : isNumericStart (c :: ds ++ " "%char :: s) = true).
  { cbn in Hn |- *. repeat case_match; simplify_eq/=; done. }
  cbn in Hc. rewrite andb_true_r in Hc.
  assert (Hx : ∀ x, is_digit x = false → x ≠ "-"%char → eqb c x = false).
  { intros x H1 H2. apply eqb_false. intros ->. rewrite H1 in Hc. apply (proj1 (eqb_true _ _)) in Hc. done. }
  unfold scan_token. assert (isWhitespace c = false) as ->.
  { unfold isWhitespace. apply member_false. rewrite !not_elem_of_cons.
    split_and!; try (apply eqb_false, Hx; done). apply not_elem_of_nil. }
  rewrite !Hx, Hn' by done. unfold scanNumber.
  destruct (decide (c = "-"%char)) as [->|Hne]; [by rewrite Hspan|].
  assert (Hd : is_digit c = true) by (destruct (is_digit c); [done|]; cbn in Hc; apply (proj1 (eqb_true _ _)) in Hc; done).
  replace (match c :: ds ++ " "%char :: s with "-"%char :: s0 => (["-"%char], s0) | _ => ([], c :: ds ++ " "%char :: s) end)
    with (@nil ascii, c :: ds ++ " "%char :: s) by (repeat case_match; simplify_eq; done).
  cbn [span]. rewrite Hd. cbn [orb]. by rewrite Hspan.
Qed.

Lemma scans_entitlements rt names : scans (MkToken tokenWord (entitlements_text rt names)).
Proof.
  exists "s"%char, (tail (entitlements_text rt names)). split; [done|]. intros s.
  rewrite scan_token_word by done. change ("s"%char :: tail (entitlements_text rt names) ++ " "%char :: s)
    with (entitlements_text rt names ++ " "%char :: s). by rewrite scanWord_entitlements.
Qed.
End scan.

(** ** Numbers *)

Lemma digit_not_dot ds : Forall (λ c, is_digit c = true) ds → member "."%char ds = false.
Proof. intros H. apply member_false. intros Hin. rewrite Forall_forall in H. by specialize (H _ Hin). Qed.

Lemma toNumber_pretty z : (- 2 ^ 63 ≤ z < 2 ^ 63)%Z → toNumber (bytes_of (pretty z)) = Some (CInt z).
Proof.
  intros Hz. destruct (pretty_Z_text z) as (ds & Hne & Hds & [[-> Hv]|[-> Hv]]); unfold toNumber.
  - rewrite (digit_not_dot ds Hds). destruct ds as [|c ds]; [done|].
    assert (cutPrefix ["-"%char] (c :: ds) = None) as ->.
    { destruct (cutPrefix ["-"%char] (c :: ds)) eqn:E; [|done]. apply cutPrefix_Some in E. injection E as -> _. by inversion Hds. }
    rewrite Hv. by rewrite bool_decide_eq_true_2.
  - assert (member "."%char ("-"%char :: ds) = false) as ->.
    { apply member_false. rewrite not_elem_of_cons. split; [done|]. apply member_false. by apply digit_not_dot. }
    change (cutPrefix ["-"%char] ("-"%char :: ds)) with (cutPrefix ["-"%char] (["-"%char] ++ ds)). rewrite (cutPrefix_app ["-"%char] ds). rewrite Hv. by rewrite bool_decide_eq_true_2.
Qed.

Lemma scans_int {case : CaseTable} (z : Z) : scans (MkToken tokenNumber (bytes_of (pretty z))).
Proof.
  destruct (pretty_Z_text z) as (ds & Hne & Hds & [[-> Hv]|[-> Hv]]); destruct ds as [|c ds]; try done;
    apply Forall_cons in Hds as [Hc Hds]; apply scans_number; try done; cbn; rewrite ?Hc; try done.
  - repeat case_match; simplify_eq; done.
  - by constructor.
Qed.

(** ** The tokens are parsed into the tree *)

Section parse.
Context {case : CaseTable}.

Lemma matchWord_word w x ts : matchWord w (word x :: ts) = if EqualFold (bytes_of x) (bytes_of w) then Some ts else None.
Proof. done. Qed.
Lemma matchSymbol_word w x ts : matchSymbol w (word x :: ts) = if eqb (bytes_of x) (bytes_of w) then Some ts else None.
Proof. done. Qed.

(** A token that is not taken for a word of the language. *)
Definition not_words (ws : list string) (ts : list token) : Prop := Forall (λ w, matchWord w ts = None) ws.

Definition keywords : list string := ["ANY"; "OR"; "subject"; "true"; "false"].

Lemma HasPrefix_short s p : length s < length p → HasPrefix s p = false.
Proof.
  intros H. unfold HasPrefix. destruct (cutPrefix p s) eqn:E; [|done]. apply cutPrefix_Some in E. subst.
  rewrite length_app in H. lia.
Qed.

Lemma scope_text_ascii s : is_ascii (scope_text s).
Proof. destruct s; apply is_ascii_by; reflexivity. Qed.

Lemma plain_ascii w : all plain w = true → is_ascii w.
Proof.
  intros H%all_Forall. eapply Forall_impl; [exact H|]. intros c Hc. cbv beta in *.
  apply andb_true_iff in Hc as [_ Hc]. by apply N.ltb_lt.
Qed.

Lemma lower_plain c : plain c = true → lower c ≠ "("%char.
Proof. destruct c as [[] [] [] [] [] [] [] []]; vm_compute; done. Qed.

(** A ref is no entitlements operand: its text has no parenthesis. *)
Lemma plain_not_entitlement w : all plain w = true → parseEntitlementOperand w = Ok None.
Proof.
  intros Hw. unfold parseEntitlementOperand. rewrite ToLower_ascii by by apply plain_ascii.
  assert (HasPrefix (lower <$> w) (lower <$> entitlements_prefix) = false) as ->; [|done].
  unfold HasPrefix. destruct (cutPrefix _ _) as [r|] eqn:E; [|done]. apply cutPrefix_Some in E.
  assert (Hin : "("%char ∈ lower <$> w).
  { rewrite E. apply elem_of_app. left. apply member_true. reflexivity. }
  apply list_elem_of_fmap in Hin as (c & Hc & Hin). apply all_Forall in Hw. rewrite Forall_forall in Hw.
  by destruct (lower_plain c (Hw c Hin)).
Qed.

Lemma ToLower_scope s t : ToLower (scope_text s ++ t) = scope_text s ++ ToLower t.
Proof. destruct s; [apply (ToLower_prefix "subject.")|apply (ToLower_prefix "resource.")]; apply is_ascii_by; reflexivity. Qed.

Lemma word_operand_ref s path :
  all plain (Join "."%char path) = true → splitPath (Join "."%char path) = path →
  word_operand (scope_text s ++ Join "."%char path) = Ok (Ref s path).
Proof.
  intros Hp Hs. unfold word_operand. rewrite ToLower_scope.
  assert (∀ w, length w < 8 → eqb (scope_text s ++ ToLower (Join "."%char path)) w = false) as Hne.
  { intros w Hw. apply eqb_false. intros E%(f_equal length). rewrite length_app in E. destruct s; cbn in E; lia. }
  rewrite !Hne by (cbn; lia). rewrite plain_not_entitlement; [|].
  - cbn [mbind result_bind]. destruct s.
    + change (HasPrefix _ (bytes_of "resource.")) with false.
      rewrite (HasPrefix_app (bytes_of "subject.")). cbv iota. do 2 f_equal. exact Hs.
    + rewrite (HasPrefix_app (bytes_of "resource.")). do 2 f_equal. exact Hs.
  - unfold all. rewrite forallb_app. apply andb_true_iff. split; [by destruct s|done].
Qed.
Lemma literal_quote v r : readSingleQuotedLiteral (quote v ++ r) = Ok (v, r).
Proof. rewrite quoted_text_quote. unfold readSingleQuotedLiteral. by rewrite quoted_text_escape. Qed.

Lemma TrimLeft_start c r : isWhitespace c = false → TrimLeft (c :: r) = c :: r.
Proof. intros H. unfold TrimLeft, drop_while. cbn [span]. by rewrite H. Qed.

Lemma as_names_text names r fuel :
  names ≠ [] → length names ≤ fuel → as_names fuel (names_text names ++ ")"%char :: r) = Ok (names, ")"%char :: r).
Proof.
  revert fuel. induction names as [|n names IH]; intros [|fuel] Hne Hf; cbn in Hf; try done; [lia|]. cbn [as_names].
  destruct names as [|m names]; cbn [names_text].
  - unfold quote. cbn [app]. rewrite TrimLeft_start by done. rewrite <-app_assoc. cbn [app].
    unfold readSingleQuotedLiteral. rewrite quoted_text_escape. done.
  - rewrite <-app_assoc. unfold quote at 1. cbn [app]. rewrite TrimLeft_start by done. rewrite <-app_assoc. cbn [app].
    unfold readSingleQuotedLiteral. rewrite quoted_text_escape. cbn [mbind result_bind].
    rewrite TrimLeft_start by done. fold (names_text (m :: names)). rewrite IH; [done..|lia].
Qed.

Lemma names_text_length names : length names ≤ length (names_text names).
Proof.
  induction names as [|n names IH]; [done|]. destruct names as [|m names]; [cbn; lia|].
  change (names_text (n :: m :: names)) with (quote n ++ ","%char :: names_text (m :: names)).
  rewrite length_app, !length_cons in *. lia.
Qed.

Lemma as_clauses_text names fuel :
  names ≠ [] → as_clauses (S (S fuel)) (bytes_of ".as(" ++ names_text names ++ [")"%char]) = Ok names.
Proof.
  intros Hne. cbn [as_clauses].
  assert (TrimLeft (bytes_of ".as(" ++ names_text names ++ [")"%char]) = bytes_of ".as(" ++ names_text names ++ [")"%char]) as -> by done.
  rewrite (ToLower_prefix ".as(") by (apply is_ascii_by; reflexivity).
  change (HasPrefix ((lower <$> bytes_of ".as(") ++ ?x) _) with true.
  change (is_nil (bytes_of ".as(" ++ _)) with false. cbn [negb].
  change (drop 4 (bytes_of ".as(" ++ ?x)) with x.
  rewrite as_names_text by (done || (rewrite !length_app; pose proof (names_text_length names); lia)).
  cbn. by rewrite app_nil_r.
Qed.

Lemma parseEntitlementOperand_text rt names :
  names ≠ [] → parseEntitlementOperand (entitlements_text rt names) = Ok (Some (Entitlements rt names)).
Proof.
  intros Hne. unfold parseEntitlementOperand, entitlements_text.
  rewrite (ToLower_prefix "subject.entitledResources.of("), HasPrefix_app by (apply is_ascii_by; reflexivity).
  rewrite drop_app_length. cbn [negb]. rewrite literal_quote. cbn [mbind result_bind].
  change (TrimLeft (bytes_of ").as(" ++ names_text names ++ [")"%char]))
    with (")"%char :: bytes_of ".as(" ++ names_text names ++ [")"%char]).
  cbv iota beta. change (length (bytes_of ".as(" ++ names_text names ++ [")"%char])) with (S (3 + length (names_text names ++ [")"%char]))).
  rewrite as_clauses_text by done. cbn [mbind result_bind]. by destruct names.
Qed.

Lemma word_operand_entitlements rt names :
  names ≠ [] → word_operand (entitlements_text rt names) = Ok (Entitlements rt names).
Proof.
  intros Hne. unfold word_operand. rewrite parseEntitlementOperand_text by done. unfold entitlements_text.
  rewrite (ToLower_prefix "subject.entitledResources.of(") by (apply is_ascii_by; reflexivity). done.
Qed.
(** *** Operands *)

Lemma scalar_token_parses c ts :
  scalar c = true → written_scalar c = true → parseOperand (scalar_token c :: ts) = Ok (Const c, ts).
Proof.
  intros Hs Hw. unfold parseOperand. change (peek (scalar_token c :: ts)) with (scalar_token c).
  destruct c as [b|s|z| |]; try done; cbn [scalar_token operand_of typ value].
  - by destruct b.
  - cbn [scalar] in Hs. apply bool_decide_eq_true in Hs. unfold operand_of. cbn [typ value]. by rewrite toNumber_pretty.
Qed.

Lemma reference_parses a ts :
  reference a = true → written a = true → parseOperand (operand_tokens a ++ ts) = Ok (a, ts).
Proof.
  intros Hr Hw. destruct a as [|s path|rt names|]; try done; cbn [operand_tokens app]; unfold parseOperand.
  - cbn in Hw. apply andb_true_iff in Hw as [Hp Hs]. apply (proj1 (eqb_true _ _)) in Hs.
    unfold operand_of. change (typ (peek (_ :: ts))) with tokenWord. change (value (peek (MkToken tokenWord ?x :: ts))) with x.
    by rewrite word_operand_ref.
  - unfold operand_of. change (typ (peek (_ :: ts))) with tokenWord. change (value (peek (MkToken tokenWord ?x :: ts))) with x.
    rewrite word_operand_entitlements; [done|]. by destruct names.
Qed.

Lemma operand_parses a ts :
  operand a = true → written a = true → parseOperand (operand_tokens a ++ ts) = Ok (a, ts).
Proof.
  intros Ho Hw. destruct a as [c| | |]; [|by apply reference_parses..].
  destruct c as [| | | |cs]; try done; by apply scalar_token_parses.
Qed.

Lemma list_items_parse cs ts fuel :
  forallb scalar cs = true → forallb written_scalar cs = true → length cs < fuel → typ (peek ts) ≠ tokenComma →
  list_items fuel (more_scalars cs ++ ts) = Ok (cs, ts).
Proof.
  intros Hs Hw Hf Ht. revert fuel Hf. induction cs as [|c cs IH]; intros [|fuel] Hf; cbn in Hf; try lia; cbn [list_items more_scalars app].
  - by rewrite (proj2 (eqb_false _ _) Ht).
  - cbn in Hs, Hw. apply andb_true_iff in Hs as [Hs1 Hs2], Hw as [Hw1 Hw2].
    change (eqb (typ (peek (comma :: _))) tokenComma) with true. cbv iota.
    change (next (comma :: ?x)) with x. rewrite scalar_token_parses by done. cbn [mbind result_bind].
    rewrite IH by (done || lia). done.
Qed.

Lemma more_scalars_length cs : length cs ≤ length (more_scalars cs).
Proof. induction cs; cbn; lia. Qed.

Lemma list_operand_parses op a ts :
  multi op = true → list_operand a = true → written a = true → typ (peek ts) ≠ tokenComma →
  parseMultiRightOperand op (operand_tokens a ++ ts) = Ok (a, ts).
Proof.
  intros Hop Hl Hw Ht. unfold parseMultiRightOperand. destruct a as [c| | |].
  - destruct c as [| | | |[|c cs]]; try done. cbn in Hl, Hw.
    apply andb_true_iff in Hl as [Hs1 Hs2], Hw as [Hw1 Hw2]. cbn [operand_tokens app].
    rewrite scalar_token_parses by done. cbn [mbind result_bind]. destruct cs as [|d cs].
    + cbn [more_scalars app]. rewrite (proj2 (eqb_false _ _) Ht). cbn [negb]. by destruct op.
    + change (eqb (typ (peek (more_scalars (d :: cs) ++ ts))) tokenComma) with true. cbn [negb].
      rewrite list_items_parse; [done..| |done]. rewrite length_app. pose proof (more_scalars_length (d :: cs)). lia.
  - rewrite reference_parses by done. cbn [mbind result_bind]. rewrite (proj2 (eqb_false _ _) Ht). cbn [negb]. by destruct op.
  - rewrite reference_parses by done. cbn [mbind result_bind]. rewrite (proj2 (eqb_false _ _) Ht). cbn [negb]. by destruct op.
  - done.
Qed.

(** An operand is no word of the language. *)
Lemma operand_not_words a ts :
  operand a = true → written a = true → not_words ["ANY"; "OR"; "subject"]%string (operand_tokens a ++ ts).
Proof.
  intros Ho Hw. unfold not_words. assert (∀ p t w, is_ascii p → 7 < length p → length (bytes_of w) ≤ 7 → is_ascii (bytes_of w) →
    matchWord w (MkToken tokenWord (p ++ t) :: ts) = None) as Hlong.
  { intros p t w Hp Hlp Hlw Hwa. unfold matchWord. change (value (peek (MkToken tokenWord ?x :: ts))) with x.
    rewrite EqualFold_longer by (done || lia). by rewrite andb_false_r. }
  destruct a as [c|s path|rt names|]; try done; cbn [operand_tokens app].
  - destruct c as [[]|s|z| |]; try done; by repeat constructor.
  - repeat constructor; apply Hlong; try apply scope_text_ascii; try (apply is_ascii_by; reflexivity); destruct s; cbn; lia.
  - repeat constructor; unfold entitlements_text; apply Hlong; try (apply is_ascii_by; reflexivity); cbn; lia.
Qed.
(** *** Comparisons *)

Ltac closed_test :=
  match goal with
  | |- context [EqualFold (bytes_of ?a) (bytes_of ?b)] =>
      let v := eval vm_compute in (EqualFold (bytes_of a) (bytes_of b)) in change (EqualFold (bytes_of a) (bytes_of b)) with v
  | |- context [eqb (bytes_of ?a) (bytes_of ?b)] =>
      let v := eval vm_compute in (eqb (bytes_of a) (bytes_of b)) in change (eqb (bytes_of a) (bytes_of b)) with v
  end.

Lemma first_case_take ss r negated op l ts ts' :
  first_spelled ss ts = Some ts' → first_case ((ss, r, negated, op) :: l) ts = Some (r, negated, op, ts').
Proof. intros H. cbn. by rewrite H. Qed.

Lemma first_case_skip ss r negated op l ts :
  first_spelled ss ts = None → first_case ((ss, r, negated, op) :: l) ts = first_case l ts.
Proof. intros H. cbn. by rewrite H. Qed.

Ltac spelled_tac :=
  cbn [first_spelled spelled matchWords];
  repeat (first [rewrite matchWord_word | rewrite matchSymbol_word | closed_test
                | match goal with H : matchWord _ _ = None |- _ => rewrite H end];
          cbn [mbind option_bind]; cbv iota beta);
  reflexivity.

(** Each operator as it is first spelled is the case the switch takes. *)
Lemma first_case_spelled ss s r negated op ts :
  (s :: ss, r, negated, op) ∈ comparisons → (r = One → not_words ["ANY"; "OR"]%string ts) →
  first_case comparisons (spell s ++ ts) = Some (r, negated, op, ts).
Proof.
  unfold comparisons. intros Hin Hts. rewrite !elem_of_cons in Hin.
  assert (Hr : r = One → matchWord "ANY" ts = None ∧ matchWord "OR" ts = None).
  { intros H%Hts. apply Forall_cons in H as [? H]. by apply Forall_cons in H as [? _]. }
  repeat match type of Hin with _ ∨ _ => destruct Hin as [Hin|Hin] end; [..|by apply elem_of_nil in Hin].
  all: injection Hin as -> -> -> -> ->; try destruct (Hr eq_refl) as [Hany Hor]; clear Hr Hts.
  all: cbn [spell app fmap list_fmap].
  all: repeat first [apply first_case_take; spelled_tac | rewrite first_case_skip by spelled_tac].
Qed.
(** The operators comparisons are made with, and how they take their right side. *)
Definition side_of (op : operator) : option right_side :=
  match op with
  | op_is_empty | op_is_null => Some Nothing
  | op_contains_any | op_in | op_is_subset => Some Many
  | op_eq | op_neq | op_contains | op_match | op_gte | op_gt | op_lte | op_lt => Some One
  | _ => None
  end.

Lemma comparisons_spelled : forallb (λ row, negb (is_nil row.1.1.1)) comparisons = true.
Proof. reflexivity. Qed.

Lemma spelling_row negated op r :
  side_of op = Some r → implb negated (negatable op) = true →
  ∃ s ss, spelling_of negated op = spell s ∧ (s :: ss, r, negated, op) ∈ comparisons.
Proof.
  intros Hr Hn. unfold spelling_of. destruct (find _ comparisons) as [[[[l r'] n'] op']|] eqn:E.
  - apply find_some in E as [Hin Hf]. apply andb_true_iff in Hf as [Hf1 Hf2]. cbn in Hf1, Hf2.
    apply (proj1 (eqb_true _ _)) in Hf1. apply bool_decide_eq_true in Hf2. subst.
    pose proof (proj1 (forallb_forall _ _) comparisons_spelled _ Hin) as Hl.
    pose proof (proj1 (forallb_forall _ _) comparisons_fit _ Hin) as Hfit. cbn [fst] in Hl.
    destruct l as [|s ss]; [done|]. exists s, ss. split; [done|]. apply list_elem_of_In.
    assert (r' = r) as <-; [|done]. apply andb_true_iff in Hfit as [_ Hfit]. destruct op, r'; cbn in *; congruence.
  - exfalso. revert E. by destruct op, negated.
Qed.

Lemma left_operand_operand a : left_operand a = true → operand a = true.
Proof. destruct a as [[]| | |]; done. Qed.

Lemma comparison_side op args :
  comparison op args = true → ∃ a bs r, args = a :: bs ∧ left_operand a = true ∧ side_of op = Some r ∧
    match r with
    | Nothing => bs = []
    | One => ∃ b, bs = [b] ∧ operand b = true
    | Many => ∃ b, bs = [b] ∧ multi op = true ∧ list_operand b = true
    end.
Proof.
  intros H. destruct args as [|a [|b [|c args]]]; destruct op; try done; cbn in H;
    try apply andb_true_iff in H as [H1 H2]; do 3 eexists; (split; [reflexivity|]); (split; [done|]); (split; [reflexivity|]); cbn; eauto 6.
Qed.

Lemma comparison_parses negated op args ts :
  comparison op args = true → implb negated (negatable op) = true → forallb written args = true → typ (peek ts) ≠ tokenComma →
  parseComparison (comparison_tokens negated op args ++ ts) = Ok ((if negated then negate else node) op args, ts).
Proof.
  intros (a & bs & r & -> & Ha & Hr & Hbs)%comparison_side Hn Hw Ht. cbn in Hw. apply andb_true_iff in Hw as [Hwa Hwb].
  destruct (spelling_row _ _ _ Hr Hn) as (s & ss & Es & Hrow). unfold comparison_tokens. rewrite Es, <-!app_assoc.
  unfold parseComparison. rewrite operand_parses by (done || by apply left_operand_operand). cbn [mbind result_bind].
  destruct r.
  - destruct Hbs as (b & -> & Hb). cbn in Hwb. rewrite andb_true_r in Hwb. cbn [map concat]. rewrite app_nil_r.
    rewrite (first_case_spelled ss s One negated op); [|done|].
    + cbn [right_operand]. by rewrite operand_parses.
    + intros _. pose proof (operand_not_words b ts Hb Hwb) as H. apply Forall_cons in H as [H1 H].
      apply Forall_cons in H as [H2 _]. by repeat constructor.
  - destruct Hbs as (b & -> & Hop & Hb). cbn in Hwb. rewrite andb_true_r in Hwb. cbn [map concat]. rewrite app_nil_r.
    rewrite (first_case_spelled ss s Many negated op) by done.
    cbn [right_operand]. by rewrite list_operand_parses.
  - subst bs. by rewrite (first_case_spelled ss s Nothing negated op).
Qed.

(** *** Conditions *)

Lemma lookahead_subject ts : matchWord "subject" ts = None → lookaheadHasAccess ts = false.
Proof.
  unfold matchWord. destruct ts as [|t [|mode [|o [|on ts]]]]; try done. change (peek (t :: ?x)) with t.
  intros H. cbn [lookaheadHasAccess]. by destruct (eqb (typ t) tokenWord && EqualFold (value t) (bytes_of "subject")).
Qed.

Lemma long_not_bool (p : string) t w :
  is_ascii (bytes_of p) → 5 < length (bytes_of p) → length w ≤ 5 → eqb (ToLower (bytes_of p ++ t)) w = false.
Proof.
  intros Hp Hl Hw. apply eqb_false. intros E%(f_equal length). rewrite ToLower_prefix, length_app, length_fmap in E by done. lia.
Qed.

(** What a comparison starts with is left to [parseComparison]. *)
Lemma primary_comparison rec a ts :
  left_operand a = true → written a = true →
  parsePrimary rec (operand_tokens a ++ ts) = parseComparison (operand_tokens a ++ ts).
Proof.
  intros Ha Hw. pose proof (operand_not_words a ts (left_operand_operand a Ha) Hw) as H.
  apply Forall_cons in H as [_ H]. apply Forall_cons in H as [_ H]. apply Forall_cons in H as [H _].
  unfold parsePrimary. rewrite (lookahead_subject _ H). clear H.
  destruct a as [[]|[]| |]; try done; cbn [operand_tokens app scope_text];
    change (typ (peek (MkToken tokenWord ?x :: ts))) with tokenWord; change (value (peek (MkToken tokenWord ?x :: ts))) with x;
    unfold entitlements_text; cbv zeta; rewrite !long_not_bool by (apply is_ascii_by; reflexivity || cbn; lia); done.
Qed.

Lemma access_shape args :
  access_args args = true →
  ∃ mode operation, args = [Const (CText mode); Const (CText operation); Const (CText (bytes_of "resource")); Const (CInt 1)]
    ∧ mode ∈ [bytes_of "allowed"; bytes_of "denied"].
Proof.
  unfold access_args. intros H. repeat case_match; try discriminate.
  apply andb_true_iff in H as [[Hm%orb_true_iff Hr]%andb_true_iff Hn]. apply (proj1 (eqb_true _ _)) in Hr, Hn. subst.
  do 2 eexists. split; [reflexivity|]. rewrite !elem_of_cons. destruct Hm as [Hm|Hm]; apply (proj1 (eqb_true _ _)) in Hm; tauto.
Qed.

Lemma access_parses rec mode operation ts :
  mode ∈ [bytes_of "allowed"; bytes_of "denied"] →
  parsePrimary rec (unparse (Op op_has_access [Const (CText mode); Const (CText operation); Const (CText (bytes_of "resource")); Const (CInt 1)]) ++ ts)
  = Ok (Op op_has_access [Const (CText mode); Const (CText operation); Const (CText (bytes_of "resource")); Const (CInt 1)], ts).
Proof. rewrite !elem_of_cons, elem_of_nil. intros [-> |[-> |[]]]; reflexivity. Qed.

(** A part that is no connective, and no comma after it. *)
Lemma atom_parses rec a ts :
  condition a = true → written a = true → connective a = false → typ (peek ts) ≠ tokenComma →
  parsePrimary rec (unparse a ++ ts) = Ok (a, ts).
Proof.
  assert (Hcmp : ∀ negated op args, comparison op args = true → implb negated (negatable op) = true → forallb written args = true →
    typ (peek ts) ≠ tokenComma →
    parsePrimary rec (comparison_tokens negated op args ++ ts) = Ok ((if negated then negate else node) op args, ts)).
  { intros negated op args Hc Hn Hw Ht. destruct (comparison_side _ _ Hc) as (x & bs & r & -> & Hx & _).
    rewrite <-(comparison_parses negated op) by done. unfold comparison_tokens. rewrite <-app_assoc.
    apply primary_comparison; [done|]. by apply andb_true_iff in Hw as [? _]. }
  intros Hc Hw Hk Ht. destruct a as [c| | |op args]; try done.
  - destruct c as [b| | | |]; try done. unfold parsePrimary.
    by destruct b; rewrite lookahead_subject by reflexivity.
  - destruct op; try done; cbn [unparse]; try (by apply (Hcmp false)).
    + destruct args as [|[| | |op args] [|]]; try done. cbn [condition] in Hc. apply andb_true_iff in Hc as [Hn Hc].
      cbn in Hw. rewrite andb_true_r in Hw. by apply (Hcmp true).
    + destruct (access_shape _ Hc) as (mode & operation & -> & Hm). by apply access_parses.
Qed.
(** A chain of parts, written with a word between them. *)
Section chains.
Context (part : list token → result parse_error (ast * list token)) (w : string) (follow : list token → Prop).
Context (f : ast → list token) (bound : nat).

Definition after_first (xs : list ast) : list token := concat (map (λ x, word w :: f x) xs).

Lemma joined_after x xs : joined w (map f (x :: xs)) = f x ++ after_first xs.
Proof.
  revert x. induction xs as [|y xs IH]; intros x; [by cbn; rewrite app_nil_r|].
  change (joined w (map f (x :: y :: xs))) with (f x ++ word w :: joined w (map f (y :: xs))). by rewrite IH.
Qed.

Lemma chain_single op a ts ts0 : part ts0 = Ok (a, ts) → matchWord w ts = None → chain part w op ts0 = Ok (a, ts).
Proof. intros H Hw. unfold chain. rewrite H. cbn [mbind result_bind more_parts]. by rewrite Hw. Qed.

Context (xs : list ast) (ts : list token).
Hypothesis word_follows : ∀ r, follow (word w :: r).
Hypothesis word_matches : ∀ r, matchWord w (word w :: r) = Some r.
Hypothesis end_follows : follow ts.
Hypothesis end_ends : matchWord w ts = None.
Hypothesis parts_parse : ∀ x r, x ∈ xs → follow r → length (f x ++ r) ≤ bound → part (f x ++ r) = Ok (x, r).

Lemma after_follows ys : follow (after_first ys ++ ts).
Proof. destruct ys; [done|]. apply word_follows. Qed.

Lemma more_parts_parse ys fuel :
  ys ⊆ xs → length ys < fuel → length (after_first ys ++ ts) ≤ bound → more_parts part w fuel (after_first ys ++ ts) = Ok (ys, ts).
Proof.
  revert fuel. induction ys as [|y ys IH]; intros [|fuel] Hys Hf Hb; cbn [length] in Hf; try lia; cbn [more_parts].
  - unfold after_first. cbn [map concat app]. by rewrite end_ends.
  - change (after_first (y :: ys)) with (word w :: f y ++ after_first ys) in *. cbn [app] in *. rewrite <-app_assoc in *. cbn [length] in Hb.
    rewrite word_matches, parts_parse; [|apply Hys; by left|apply after_follows|lia]. cbn [mbind result_bind].
    rewrite length_app in Hb. rewrite IH; [done| |lia|lia]. intros z Hz. apply Hys. by right.
Qed.

Lemma after_first_length ys : length ys ≤ length (after_first ys).
Proof. induction ys as [|y ys IH]; [done|]. change (after_first (y :: ys)) with (word w :: f y ++ after_first ys). cbn. rewrite length_app. lia. Qed.

Lemma chain_parses op :
  2 ≤ length xs → length (joined w (map f xs) ++ ts) ≤ bound → chain part w op (joined w (map f xs) ++ ts) = Ok (Op op xs, ts).
Proof.
  intros Hxs Hb. assert (∃ x ys, xs = x :: ys) as (x & ys & E) by (destruct xs; [cbn in Hxs; lia|eauto]).
  assert (Hj : joined w (map f xs) ++ ts = f x ++ after_first ys ++ ts) by by rewrite E, joined_after, <-app_assoc.
  rewrite Hj in *. rewrite length_app in Hb. unfold chain.
  rewrite parts_parse; [|rewrite E; by left|apply after_follows|by rewrite length_app]. cbn [mbind result_bind].
  rewrite more_parts_parse; [|rewrite E; by right| |lia].
  - cbn [mbind result_bind]. rewrite E in *. destruct ys; [cbn in Hxs; lia|done].
  - rewrite !length_app. pose proof (after_first_length ys). lia.
Qed.
End chains.

(** Where a condition ends. *)
Definition stops (ts : list token) : Prop := typ (peek ts) = tokenRParen ∨ typ (peek ts) = tokenEOF.

Lemma stops_word ts w : stops ts → matchWord w ts = None.
Proof. unfold matchWord. by intros [-> | ->]. Qed.
Lemma stops_comma ts : stops ts → typ (peek ts) ≠ tokenComma.
Proof. by intros [-> | ->]. Qed.

Definition parses_back (a : ast) : Prop := ∀ fuel ts,
  condition a = true → written a = true → length (unparse a ++ ts) < fuel → stops ts → parseOr fuel (unparse a ++ ts) = Ok (a, ts).

Lemma group_parses a fuel ts :
  parses_back a → condition a = true → written a = true →
  length (grouped a (unparse a) ++ ts) ≤ fuel → typ (peek ts) ≠ tokenComma →
  parsePrimary (parseOr fuel) (grouped a (unparse a) ++ ts) = Ok (a, ts).
Proof.
  intros IH Hc Hw Hl Ht. unfold grouped in *. destruct (connective a) eqn:Ek; [|by apply atom_parses].
  cbn [app length] in *. rewrite <-app_assoc in *. unfold parsePrimary.
  change (eqb (typ (peek (open :: _))) tokenLParen) with true. change (next (open :: ?x)) with x. cbv iota.
  rewrite IH by (done || lia || by left). done.
Qed.

Lemma unparse_parses a : parses_back a.
Proof.
  induction a as [a Ha|op args IH] using ast_induction; intros [|fuel] ts Hc Hw Hl Hs; try lia; cbn [parseOr];
    pose proof (stops_comma _ Hs) as Hcomma.
  { apply chain_single; [|by apply stops_word]. apply chain_single; [|by apply stops_word].
    apply atom_parses; try done. destruct a; try done. by destruct (Ha op args). }
  destruct (connective (Op op args)) eqn:Ek.
  2: { apply chain_single; [|by apply stops_word]. apply chain_single; [|by apply stops_word]. by apply atom_parses. }
  assert (Hargs : 2 ≤ length args ∧ Forall (λ x, condition x = true ∧ written x = true ∧ parses_back x) args).
  { assert (Hc' : (2 <=? length args) && forallb condition args = true) by by destruct op.
    apply andb_true_iff in Hc' as [Hn Hc']. split; [by apply Nat.leb_le|].
    cbn [written] in Hw. rewrite forallb_forall in Hc', Hw. rewrite Forall_forall in *. intros x Hx.
    split_and!; [apply Hc', list_elem_of_In, Hx|apply Hw, list_elem_of_In, Hx|by apply IH]. }
  destruct Hargs as [Hn Hargs]. rewrite Forall_forall in Hargs.
  destruct op; try done; cbn [unparse] in *.
  - apply (chain_parses _ "OR" (λ r, typ (peek r) ≠ tokenComma ∧ matchWord "AND" r = None) (λ x, grouped x (unparse x)) fuel).
    1, 2: done.
    + split; [done|by apply stops_word].
    + by apply stops_word.
    + intros x r Hx [Hr Hand] Hlen. destruct (Hargs x Hx) as (? & ? & ?). apply chain_single; [|done]. by apply group_parses.
    + done.
    + lia.
  - apply chain_single; [|by apply stops_word].
    apply (chain_parses _ "AND" (λ r, typ (peek r) ≠ tokenComma) (λ x, grouped x (unparse x)) fuel).
    1, 2, 3: done.
    + by apply stops_word.
    + intros x r Hx Hr Hlen. destruct (Hargs x Hx) as (? & ? & ?). by apply group_parses.
    + done.
    + lia.
Qed.
(** ** The round trip *)

Lemma scans_keyword (s : string) :
  all plain (bytes_of s) && match bytes_of s with [] => false | c :: _ => is_letter c end = true → scans (word s).
Proof.
  unfold word. destruct (bytes_of s) as [|c w]; [by rewrite andb_false_r|]. intros [Hp Hc]%andb_true_iff.
  apply scans_word; [done|..]; [by intros ->|by intros ->|]. destruct (is_digit c) eqn:E; [|done].
  exfalso. revert Hc E. by destruct c as [[] [] [] [] [] [] [] []].
Qed.

Lemma scans_scalar c : written_scalar c = true → scans (scalar_token c).
Proof.
  destruct c as [b|s|z| |]; try done; intros _; [|apply scans_string|apply scans_int].
  by destruct b; apply scans_keyword.
Qed.

Lemma scans_operand a : written a = true → Forall scans (operand_tokens a).
Proof.
  destruct a as [c|s path|rt names|]; cbn [operand_tokens]; try done; intros Hw.
  - destruct c as [| | | |cs]; try (constructor; [|done]; by apply scans_scalar).
    destruct cs as [|c cs]; [done|]. cbn in Hw. apply andb_true_iff in Hw as [Hc Hcs].
    constructor; [by apply scans_scalar|]. induction cs as [|d cs IH]; [done|]. cbn in Hcs. apply andb_true_iff in Hcs as [Hd Hcs].
    cbn [more_scalars]. constructor; [by exists ","%char, []|]. constructor; [by apply scans_scalar|by apply IH].
  - constructor; [|done]. cbn in Hw. apply andb_true_iff in Hw as [Hp _].
    assert (all plain (scope_text s ++ Join "."%char path) = true).
    { unfold all. rewrite forallb_app. apply andb_true_iff. split; [by destruct s|done]. }
    by destruct s; apply scans_word.
  - constructor; [|done]. apply scans_entitlements.
Qed.

Lemma spelling_scans negated op r :
  side_of op = Some r → implb negated (negatable op) = true → Forall scans (spelling_of negated op).
Proof.
  intros Hr Hn. destruct op, negated; try discriminate; repeat (constructor; [by apply scans_keyword|]); constructor.
Qed.

Lemma comparison_scans negated op args :
  comparison op args = true → implb negated (negatable op) = true → forallb written args = true →
  Forall scans (comparison_tokens negated op args).
Proof.
  intros (a & bs & r & -> & Ha & Hr & _)%comparison_side Hn [Hwa Hwb]%andb_true_iff. unfold comparison_tokens.
  apply Forall_app. split; [by apply scans_operand|]. apply Forall_app. split; [by eapply spelling_scans|].
  apply Forall_concat, Forall_forall. intros ts Hts. apply list_elem_of_In, in_map_iff in Hts as (b & <- & Hb).
  apply scans_operand. by eapply forallb_forall in Hwb.
Qed.

Lemma joined_scans w parts : scans (word w) → Forall (Forall scans) parts → Forall scans (joined w parts).
Proof.
  intros Hw. induction parts as [|p parts IH]; [done|]. intros [Hp Hps]%Forall_cons. cbn [joined].
  destruct parts; [done|]. apply Forall_app. split; [done|]. constructor; [done|by apply IH].
Qed.

Lemma unparse_scans a : condition a = true → written a = true → Forall scans (unparse a).
Proof.
  induction a as [a Ha|op args IH] using ast_induction; intros Hc Hw.
  { destruct a; try by apply scans_operand. by destruct (Ha op args). }
  assert (Hparts : ∀ w, connective (Op op args) = true → scans (word w) → Forall scans (joined w (map (λ x, grouped x (unparse x)) args))).
  { intros w Hk Hsw. apply joined_scans; [done|]. apply Forall_forall. intros ts Hts.
    apply list_elem_of_In, in_map_iff in Hts as (x & <- & Hx).
    assert (Hc' : (2 <=? length args) && forallb condition args = true) by by destruct op.
    apply andb_true_iff in Hc' as [_ Hc']. cbn [written] in Hw. rewrite forallb_forall in Hc', Hw. rewrite Forall_forall in IH.
    specialize (IH x ltac:(by apply list_elem_of_In) (Hc' x Hx) (Hw x Hx)). unfold grouped. destruct (connective x); [|done].
    constructor; [by exists "("%char, []|]. apply Forall_app. split; [done|]. constructor; [by exists ")"%char, []|done]. }
  destruct op; try (by apply (comparison_scans false)); cbn [unparse].
  - apply Hparts; [done|by apply scans_keyword].
  - apply Hparts; [done|by apply scans_keyword].
  - destruct args as [|[| | |op args] [|]]; try done. cbn [condition] in Hc. apply andb_true_iff in Hc as [Hn Hc].
    cbn in Hw. rewrite andb_true_r in Hw. by apply comparison_scans.
  - destruct (access_shape _ Hc) as (mode & operation & -> & Hm). cbn [unparse scalar_token].
    constructor; [by apply scans_keyword|]. constructor; [|constructor; [apply scans_string|repeat (constructor; [by apply scans_keyword|]); constructor]].
    rewrite !elem_of_cons, elem_of_nil in Hm. destruct Hm as [-> |[-> |[]]]; [by apply (scans_keyword "allowed")|by apply (scans_keyword "denied")].
Qed.
End parse.

Section roundtrip.
Context {case : CaseTable}.

Lemma written_read a : condition a = true → written a = true → ParseCondition (render (unparse a)) = Ok a.
Proof.
  intros Hc Hw. unfold ParseCondition, tokenize. rewrite tokens_of_render by (done || by apply unparse_scans).
  cbn [mbind result_bind]. rewrite unparse_parses; [done..|lia|by right].
Qed.

(** C25: every condition of the shape the parser returns, written as a text, is read back as
    it was: the connectives with their groups, the comparisons with their operators in words
    and their negations, the literals with every byte quoted, the integers of an [int64], the
    refs and the entitlements operands. *)
Theorem ParseCondition_written a :
  condition a = true → written a = true → ParseCondition (render (unparse a)) = Ok a.
Proof. apply written_read. Qed.
End roundtrip.


Lemma ParseCondition_written_witness :
  let case := latin_case in
  let a := Op op_and [Op op_or [negate op_in [Ref Resource (bytes_of <$> ["a"; "b"]%string); Const (CList [CInt (-3); CText (bytes_of "it's")])];
                                Const (CBool true)];
                      node op_gte [Entitlements (bytes_of "Shop") (bytes_of <$> ["A"; "B"]%string); Ref Subject (bytes_of <$> ["x"]%string)];
                      Op op_has_access [Const (CText (bytes_of "denied")); Const (CText (bytes_of "READ")); Const (CText (bytes_of "resource")); Const (CInt 1)]] in
  condition a = true ∧ ParseCondition (render (unparse a)) = Ok a.
Proof. split; [reflexivity|]. apply (ParseCondition_written (case:=latin_case)); reflexivity. Defined.

End SimplifiedPrint.
