(* ===== verification/PipPath.v ===== *)
(** * Paths and placeholders of information points ([internal/pips/contract.go])

    The JSON path subset that extraction and placeholders are written in, [validatePath] over
    the bytes left, and the placeholders of a text. Both are shown to accept exactly a
    grammar. *)
From S2P Require Import Prelude GoText.
Import GoText.

Module PipPath.

Inductive path_error :=
  | EmptyField
  | InvalidField (field : bytes)
  | NoDollar
  | EmptySegment
  | Unclosed
  | Bracket (inner : bytes)
  | Unexpected (rest : bytes)
  | EmptyPath
  | UnterminatedPlaceholder
  | EmptyPlaceholder
  | EmptyPlaceholderPath (inner : bytes)
  | PlaceholderScope (inner : bytes)
  | PlaceholderPath (inner : bytes) (e : path_error)
  | OutOfTurns.

#[global] Instance path_error_eq_dec : EqDecision path_error.
Proof. solve_decision. Defined.

Definition isAllDigits (s : bytes) : bool := negb (is_nil s) && all is_digit s.

Definition checkField (field : bytes) : result path_error unit :=
  _ ← check (negb (is_nil field)) EmptyField;
  check (negb (existsb (λ c, member c (bytes_of "$*?[]")) field)) (InvalidField field).

Definition not_sep (c : ascii) : bool := negb (eqb c "."%char || eqb c "["%char).

(** The loop of [validatePath] over what is left of the path. *)
Fixpoint path_segments (fuel : nat) (s : bytes) : result path_error unit :=
  match s with
  | [] => Ok tt
  | c :: r =>
      match fuel with
      | 0 => Err OutOfTurns
      | S fuel =>
          if eqb c "."%char then
            let '(field, rest) := span not_sep r in
            _ ← check (negb (is_nil field)) EmptySegment;
            _ ← checkField field;
            path_segments fuel rest
          else if eqb c "["%char then
            match span (λ c, negb (eqb c "]"%char)) r with
            | (inner, _ :: rest) =>
                _ ← check (eqb inner ["*"%char] || isAllDigits inner) (Bracket inner);
                path_segments fuel rest
            | (_, []) => Err Unclosed
            end
          else Err (Unexpected s)
      end
  end.

Definition validatePath (path : bytes) (absolute : bool) : result path_error unit :=
  if absolute then
    match path with
    | "$"%char :: s => path_segments (length s) s
    | _ => Err NoDollar
    end
  else
    let '(field, rest) := span not_sep path in
    _ ← checkField field;
    path_segments (length rest) rest.

Definition validateJSONPathString (expr : bytes) : result path_error unit :=
  if is_nil (TrimSpace expr) then Err EmptyPath else validatePath expr true.

Definition validatePlaceholderInner (inner : bytes) : result path_error unit :=
  _ ← check (negb (is_nil inner)) EmptyPlaceholder;
  match match cutPrefix (bytes_of "subject.") inner with
        | Some rest => Some rest
        | None => cutPrefix (bytes_of "resource.") inner
        end with
  | None => Err (PlaceholderScope inner)
  | Some rest =>
      _ ← check (negb (is_nil rest)) (EmptyPlaceholderPath inner);
      wrap (PlaceholderPath inner) (validatePath rest false)
  end.

(** What follows the first [${] of a text. *)
Fixpoint after_open (s : bytes) : option bytes :=
  match s with
  | [] => None
  | _ :: s' => match cutPrefix (bytes_of "${") s with Some rest => Some rest | None => after_open s' end
  end.

Fixpoint placeholders (fuel : nat) (s : bytes) : result path_error unit :=
  match after_open s with
  | None => Ok tt
  | Some rest =>
      match fuel with
      | 0 => Err OutOfTurns
      | S fuel =>
          match span (λ c, negb (eqb c "}"%char)) rest with
          | (inner, _ :: rest) =>
              _ ← validatePlaceholderInner inner;
              placeholders fuel rest
          | (_, []) => Err UnterminatedPlaceholder
          end
      end
  end.

Definition validatePlaceholders (s : bytes) : result path_error unit := placeholders (length s) s.

(** ** The grammar of paths *)

Definition field (f : bytes) : Prop := f ≠ [] ∧ Forall (λ c, not_sep c = true ∧ c ∉ bytes_of "$*?[]") f.
Definition index (i : bytes) : Prop := i = ["*"%char] ∨ (i ≠ [] ∧ Forall (λ c, is_digit c = true) i).

(** [segments := ( "." field | "[" index "]" )*]. *)
Inductive segments : bytes → Prop :=
  | segments_end : segments []
  | segments_field f t : field f → segments t → segments ("."%char :: f ++ t)
  | segments_index i t : index i → segments t → segments ("["%char :: i ++ "]"%char :: t).

Lemma segments_head t : segments t → ∀ c, head t = Some c → not_sep c = false.
Proof. by intros [] c [= <-]. Qed.

Lemma checkField_Ok f : checkField f = Ok tt ↔ f ≠ [] ∧ Forall (λ c, c ∉ bytes_of "$*?[]") f.
Proof.
  unfold checkField. rewrite bind_unit_Ok, !check_Ok, !negb_true_iff, is_nil_false.
  assert (existsb (λ c, member c (bytes_of "$*?[]")) f = false ↔ Forall (λ c, c ∉ bytes_of "$*?[]") f) as ->; [|done].
  induction f as [|c f IH]; [split; [constructor|done]|]. cbn [existsb].
  by rewrite orb_false_iff, member_false, IH, Forall_cons.
Qed.

Lemma isAllDigits_true s : isAllDigits s = true ↔ s ≠ [] ∧ Forall (λ c, is_digit c = true) s.
Proof. unfold isAllDigits. by rewrite andb_true_iff, negb_true_iff, is_nil_false, all_Forall. Qed.

Lemma span_field f t :
  Forall (λ c, not_sep c = true) f → (∀ c, head t = Some c → not_sep c = false) → span not_sep (f ++ t) = (f, t).
Proof. apply span_spec. Qed.

Lemma field_span s f t : span not_sep s = (f, t) → checkField f = Ok tt → s = f ++ t ∧ field f.
Proof.
  intros Hs [Hne Hf]%checkField_Ok. split; [by eapply span_app|]. split; [done|].
  pose proof (span_all _ _ _ _ Hs) as Ha. rewrite Forall_forall in *. by split; [apply Ha|apply Hf].
Qed.

Lemma field_check f : field f → checkField f = Ok tt ∧ Forall (λ c, not_sep c = true) f.
Proof.
  intros [Hne Hf]. rewrite checkField_Ok. rewrite !Forall_forall in *. split_and!; [done|..]; intros; by apply Hf.
Qed.

Lemma path_segments_Ok fuel s : length s ≤ fuel → path_segments fuel s = Ok tt ↔ segments s.
Proof.
  revert s. induction fuel as [|fuel IH]; intros [|c r] Hf; cbn in Hf; try lia; cbn [path_segments];
    try (by split; [constructor|]).
  destruct (eqb c "."%char) eqn:Edot; [apply (proj1 (eqb_true _ _)) in Edot; subst|].
  { destruct (span not_sep r) as [f t] eqn:Es. rewrite !bind_unit_Ok, check_Ok, negb_true_iff, is_nil_false.
    pose proof (f_equal length (span_app _ _ _ _ Es)) as Hl. rewrite length_app in Hl. rewrite (IH t) by lia. split.
    - intros (_ & Hc & Ht). destruct (field_span _ _ _ Es Hc) as [-> Hfield]. by constructor.
    - inversion 1 as [|f' t' Hf' Ht' E|]; subst. destruct (field_check _ Hf') as [Hc Ha].
      rewrite span_field in Es by (done || by apply segments_head). injection Es as <- <-.
      split_and!; [apply Hf'|done..]. }
  apply eqb_false in Edot. destruct (eqb c "["%char) eqn:Ebr; [apply (proj1 (eqb_true _ _)) in Ebr; subst|].
  2: { apply eqb_false in Ebr. split; [done|]. by inversion 1. }
  set (p := λ c, negb (eqb c "]"%char)).
  assert (Hi : ∀ i, index i → Forall (λ c, p c = true) i).
  { intros i [->|[_ Hd]]; [by repeat constructor|]. eapply Forall_impl; [exact Hd|]. intros d Hd'. unfold p.
    apply negb_true_iff, eqb_false. by intros ->. }
  destruct (span p r) as [i t] eqn:Es. pose proof (span_app _ _ _ _ Es) as Hr. destruct t as [|d t].
  - split; [done|]. inversion 1 as [| |i' t' Hi' Ht' E]; subst.
    rewrite <-E, span_spec in Es; [by injection Es|by apply Hi|by intros c [= <-]].
  - pose proof (span_head _ _ _ _ Es d eq_refl) as Hd. unfold p in Hd. apply negb_false_iff, (proj1 (eqb_true _ _)) in Hd. subst d.
    pose proof (f_equal length Hr) as Hl. rewrite length_app in Hl. cbn in Hl.
    rewrite bind_unit_Ok, check_Ok, (IH t) by lia. rewrite orb_true_iff, eqb_true, isAllDigits_true. split.
    + intros [Hindex Ht]. subst r. by constructor.
    + inversion 1 as [| |i' t' Hi' Ht' E]; subst.
      rewrite <-E, span_spec in Es; [|by apply Hi|by intros c [= <-]]. injection Es as <- <-. by split.
Qed.

(** An absolute path is a dollar and segments; a relative one starts with a field. *)
Definition absolute_path (s : bytes) : Prop := ∃ t, s = "$"%char :: t ∧ segments t.
Definition relative_path (s : bytes) : Prop := ∃ f t, s = f ++ t ∧ field f ∧ segments t.

Lemma validatePath_absolute s : validatePath s true = Ok tt ↔ absolute_path s.
Proof.
  unfold validatePath, absolute_path. destruct s as [|c s]; [split; [done|by intros (t & ? & _)]|].
  destruct (decide (c = "$"%char)) as [->|Hne].
  - rewrite path_segments_Ok by done. naive_solver.
  - split; [|naive_solver]. repeat case_match; simplify_eq; done.
Qed.

Lemma validatePath_relative s : validatePath s false = Ok tt ↔ relative_path s.
Proof.
  unfold validatePath, relative_path. destruct (span not_sep s) as [f t] eqn:Es.
  rewrite bind_unit_Ok, path_segments_Ok by done. split.
  - intros [Hc Ht]. destruct (field_span _ _ _ Es Hc) as [-> Hf]. by exists f, t.
  - intros (f' & t' & -> & Hf & Ht). destruct (field_check _ Hf) as [Hc Ha].
    rewrite span_field in Es by (done || by apply segments_head). by injection Es as <- <-.
Qed.

(** ** The grammar of templates *)

(** No placeholder opens in a text. *)
Definition closed_text (s : bytes) : Prop := ∀ a b, s ≠ a ++ bytes_of "${" ++ b.

Definition placeholder (inner : bytes) : Prop :=
  "}"%char ∉ inner ∧ ∃ scope path, scope ∈ ["subject."; "resource."]%string ∧ inner = bytes_of scope ++ path ∧ relative_path path.

(** A template is text with placeholders in it; the text before one opens none, nor with its
    own brace. *)
Inductive template : bytes → Prop :=
  | template_text s : closed_text s → template s
  | template_placeholder a inner s :
      closed_text (a ++ ["$"%char]) → placeholder inner → template s →
      template (a ++ bytes_of "${" ++ inner ++ "}"%char :: s).

Lemma after_open_None s : after_open s = None ↔ closed_text s.
Proof.
  unfold closed_text. induction s as [|c s IH]; cbn [after_open].
  - split; [|done]. intros _ a b E. symmetry in E. apply app_eq_nil in E as [_ E]. done.
  - destruct (cutPrefix (bytes_of "${") (c :: s)) as [r|] eqn:E.
    + apply cutPrefix_Some in E. split; [done|]. intros H. destruct (H [] r E).
    + rewrite IH. split.
      * intros H [|d a] b Eq; [|injection Eq as -> Eq; by destruct (H a b)].
        assert (cutPrefix (bytes_of "${") (c :: s) = Some b) by by apply cutPrefix_Some. congruence.
      * intros H a b ->. by destruct (H (c :: a) b).
Qed.

Lemma after_open_Some s r :
  after_open s = Some r ↔ ∃ a, s = a ++ bytes_of "${" ++ r ∧ closed_text (a ++ ["$"%char]).
Proof.
  revert r. induction s as [|c s IH]; intros r; cbn [after_open].
  - split; [done|]. intros (a & E & _). symmetry in E. apply app_eq_nil in E as [_ E]. done.
  - destruct (cutPrefix (bytes_of "${") (c :: s)) as [r'|] eqn:E.
    + apply cutPrefix_Some in E. split.
      * intros [= <-]. exists []. split; [done|]. intros [|d [|]] b Eb; done.
      * intros ([|d a] & Es & Ha).
        -- rewrite Es in E. by rewrite (app_inv_head (bytes_of "${") r r' E).
        -- exfalso. rewrite Es in E. destruct a as [|e a]; simplify_eq/=. by apply (Ha [] (a ++ ["$"%char])).
    + rewrite IH. split.
      * intros (a & -> & Ha). exists (c :: a). split; [done|]. intros [|d a'] b Eb; [|injection Eb as -> Eb; by apply (Ha a' b)].
        cbn in Eb. injection Eb as -> Eb. destruct a as [|d a]; cbn in Eb; injection Eb as Hd Eb; [done|]. subst d.
        assert (cutPrefix (bytes_of "${") ("$"%char :: ("{"%char :: a) ++ bytes_of "${" ++ r) = Some (a ++ bytes_of "${" ++ r))
          as Hc by by apply cutPrefix_Some. rewrite Hc in E. done.
      * intros ([|d a] & Es & Ha).
        -- rewrite Es in E. assert (Hc : cutPrefix (bytes_of "${") (bytes_of "${" ++ r) = Some r) by by apply cutPrefix_Some.
           cbn in Hc, E. congruence.
        -- injection Es as -> ->. exists a. split; [done|]. intros a' b Eb. apply (Ha (d :: a') b). cbn. by rewrite Eb.
Qed.

Lemma relative_path_nonempty s : relative_path s → s ≠ [].
Proof. intros (f & t & -> & [Hne _] & _) [-> _]%app_eq_nil. done. Qed.

Lemma scope_prefix inner :
  match cutPrefix (bytes_of "subject.") inner with Some rest => Some rest | None => cutPrefix (bytes_of "resource.") inner end
  = None ∨ ∃ scope rest, scope ∈ ["subject."; "resource."]%string ∧ inner = bytes_of scope ++ rest
    ∧ match cutPrefix (bytes_of "subject.") inner with Some rest => Some rest | None => cutPrefix (bytes_of "resource.") inner end = Some rest.
Proof.
  destruct (cutPrefix (bytes_of "subject.") inner) as [rest|] eqn:E1.
  - right. exists "subject."%string, rest. apply cutPrefix_Some in E1. split_and!; [by left|done..].
  - destruct (cutPrefix (bytes_of "resource.") inner) as [rest|] eqn:E2; [|by left].
    right. exists "resource."%string, rest. apply cutPrefix_Some in E2. split_and!; [by right; left|done..].
Qed.

Lemma validatePlaceholderInner_Ok inner :
  "}"%char ∉ inner → validatePlaceholderInner inner = Ok tt ↔ placeholder inner.
Proof.
  intros Hb. unfold validatePlaceholderInner, placeholder. rewrite bind_unit_Ok, check_Ok, negb_true_iff, is_nil_false.
  destruct (scope_prefix inner) as [E|(scope & rest & Hscope & -> & E)]; rewrite E.
  - split; [by intros [_ ?]|]. intros (_ & scope & path & Hs & -> & _).
    rewrite !elem_of_cons, elem_of_nil in Hs. destruct Hs as [-> |[-> |[]]]; [rewrite (cutPrefix_app (bytes_of "subject.")) in E; done|].
    change (cutPrefix (bytes_of "subject.") (bytes_of "resource." ++ path)) with (@None bytes) in E.
    by rewrite (cutPrefix_app (bytes_of "resource.")) in E.
  - rewrite bind_unit_Ok, check_Ok, negb_true_iff, is_nil_false, wrap_Ok, validatePath_relative. split.
    + intros (_ & _ & Hp). split; [done|]. by exists scope, rest.
    + intros (_ & scope' & path & Hs' & Eq & Hp). assert (path = rest) as <-.
      { rewrite !elem_of_cons, elem_of_nil in Hscope, Hs'.
        destruct Hscope as [-> |[-> |[]]], Hs' as [-> |[-> |[]]]; try done; by apply app_inv_head in Eq. }
      split_and!; [|by apply relative_path_nonempty|done].
      intros [_ Hn]%app_eq_nil. by apply relative_path_nonempty in Hp.
Qed.

Lemma after_open_length s r : after_open s = Some r → S (length r) < length s.
Proof. intros (a & -> & _)%after_open_Some. rewrite !length_app. cbn. lia. Qed.

Lemma placeholders_Ok fuel s : length s ≤ fuel → placeholders fuel s = Ok tt ↔ template s.
Proof.
  revert s. induction fuel as [|fuel IH]; intros s Hf; cbn [placeholders]; destruct (after_open s) as [r|] eqn:E;
    try (split; [intros _; apply template_text; by apply after_open_None|done]).
  - apply after_open_length in E. lia.
  - pose proof (after_open_length _ _ E) as Hl.
    assert (Ht : template s ↔ ∃ inner s', r = inner ++ "}"%char :: s' ∧ placeholder inner ∧ template s').
    { split.
      - intros H. destruct H as [s Hs|a inner s' Ha Hi Hs].
        + apply after_open_None in Hs. congruence.
        + assert (after_open (a ++ bytes_of "${" ++ inner ++ "}"%char :: s') = Some (inner ++ "}"%char :: s')) as E'.
          { apply after_open_Some. by exists a. }
          rewrite E' in E. injection E as <-. by exists inner, s'.
      - intros (inner & s' & -> & Hi & Hs). apply after_open_Some in E as (a & -> & Ha). by constructor. }
    rewrite Ht. set (p := λ c, negb (eqb c "}"%char)).
    assert (Hp : ∀ inner, "}"%char ∉ inner → Forall (λ c, p c = true) inner).
    { intros inner Hi. apply Forall_forall. intros c Hc. apply negb_true_iff, eqb_false. by intros ->. }
    destruct (span p r) as [inner rest] eqn:Es. pose proof (span_app _ _ _ _ Es) as Hr.
    assert (Hinner : "}"%char ∉ inner).
    { intros Hin. pose proof (span_all _ _ _ _ Es) as Ha. rewrite Forall_forall in Ha. by specialize (Ha _ Hin). }
    destruct rest as [|d rest].
    + split; [done|]. intros (inner' & s' & -> & [Hi' _] & _).
      rewrite span_spec in Es; [by injection Es|by apply Hp|by intros c [= <-]].
    + pose proof (span_head _ _ _ _ Es d eq_refl) as Hd. unfold p in Hd. apply negb_false_iff, (proj1 (eqb_true _ _)) in Hd. subst d.
      pose proof (f_equal length Hr) as Hlr. rewrite length_app in Hlr. cbn in Hlr.
      rewrite bind_unit_Ok, validatePlaceholderInner_Ok, IH by (done || lia). split.
      * intros [Hi Hs]. by exists inner, rest.
      * intros (inner' & s' & -> & Hi' & Hs'). rewrite span_spec in Es; [|apply Hp, Hi'|by intros c [= <-]].
        injection Es as <- <-. by split.
Qed.

Lemma cut_any_Some texts s r : cut_any texts s = Some r → ∃ t, t ∈ texts ∧ s = t ++ r.
Proof.
  induction texts as [|t texts IH]; [done|]. cbn [cut_any]. destruct (cutPrefix t s) as [r'|] eqn:E.
  - intros [= <-]. exists t. split; [by left|by apply cutPrefix_Some].
  - intros (t' & Hin & Eq)%IH. exists t'. split; [by right|done].
Qed.

(** White space is trimmed from a text without its dollar. *)
Lemma trim_left_keeps c fuel texts s :
  (∀ t, t ∈ texts → c ∉ t) → c ∈ s → c ∈ trim_left fuel texts s.
Proof.
  intros Ht. revert s. induction fuel as [|fuel IH]; intros s Hc; cbn [trim_left]; [done|].
  destruct (cut_any texts s) as [r|] eqn:E; [|done]. apply IH.
  apply cut_any_Some in E as (t & Hin & ->). apply elem_of_app in Hc as [Hc|Hc]; [|done]. by destruct (Ht t Hin).
Qed.

Lemma TrimSpace_dollar s : "$"%char ∈ s → TrimSpace s ≠ [].
Proof.
  intros Hs. assert (Hd : Forall (λ t, "$"%char ∉ t) space_texts) by by apply (bool_decide_unpack _); vm_compute.
  rewrite Forall_forall in Hd. apply elem_of_not_nil with "$"%char. unfold TrimSpace, TrimRight. apply elem_of_reverse.
  apply trim_left_keeps; [|apply elem_of_reverse, trim_left_keeps; [exact Hd|exact Hs]].
  intros t (t' & -> & Ht')%list_elem_of_fmap. rewrite elem_of_reverse. by apply Hd.
Qed.

Lemma validateJSONPathString_Ok s : validateJSONPathString s = Ok tt ↔ absolute_path s.
Proof.
  unfold validateJSONPathString. destruct (is_nil (TrimSpace s)) eqn:E; [|apply validatePath_absolute].
  apply is_nil_true in E. split; [done|]. intros (t & -> & _). exfalso.
  by apply (TrimSpace_dollar ("$"%char :: t)); [left|].
Qed.

Lemma validatePlaceholders_Ok s : validatePlaceholders s = Ok tt ↔ template s.
Proof. by apply placeholders_Ok. Qed.

(** A text passes [validatePlaceholders] exactly when it is a template: each placeholder
    in it is closed and names a field of the subject or the resource, with fields, indexes
    and wildcards after it; and [validateJSONPathString] accepts exactly a dollar followed
    by such segments. *)
Theorem templates_accepted s :
  (validatePlaceholders s = Ok tt ↔ template s) ∧ (validateJSONPathString s = Ok tt ↔ absolute_path s).
Proof.
  split; [apply validatePlaceholders_Ok|apply validateJSONPathString_Ok].
Qed.

End PipPath.
