(* ===== verification/Pips.v ===== *)
(** * Information points ([internal/pips]: types, validation, normalisation, entitlements)

    [Validate] with every reason of an upload, [NormalizeItems], which makes the document the
    agent reads, and the entitlements entry pinned by the deployment. The texts of JSON fields
    kept raw are their [bytes], empty for an absent field. Where the code ranges over a map,
    the order is that of [map_to_list]; it can change only which entry an error names. *)
From S2P Require Import Prelude GoText Json Encoding Digits JsonFields GoCase JsonText PipPath.
Import GoText Encoding JsonFields GoCase JsonText PipPath.

Notation Atoi := Digits.Atoi.

Module Pips.

(** ** Data *)

Record ResponseSpec := MkResponseSpec { RS_Extract : bytes; RS_Coerce : string; RS_OnMissing : string }.

(** [SimplifiedPIP]; [DefaultValue] is the text of its JSON value, [None] for nil. *)
Record SimplifiedPIP := MkPIP {
  Name : string;
  PipType : string;
  URL : string;
  HTTPMethod : string;
  Header : string;
  Claim : string;
  BeanName : string;
  DefaultValue : option bytes;
  Description : string;
  Domain : string;
  RequestAttributes : gmap string string;
  Headers : bytes;
  PType : string;
  JsonPath : string;
  Query : gmap string string;
  Body : bytes;
  TimeoutSeconds : option Z;
  Response : option ResponseSpec;
}.

Record NormalizedEntry := MkEntry { E_Name : string; E_Alias : string; E_PipType : string }.
Record TokenPIPConfig := MkToken { T_Name : string; T_Alias : string; T_Claim : string; T_DefaultValue : option bytes }.
Record HeaderPIPConfig := MkHeader { H_Name : string; H_Alias : string; H_Header : string; H_DefaultValue : option bytes }.
Record ResponseConfig := MkResponse { RC_Extract : bytes; RC_Coerce : string; RC_OnMissing : string }.
Record GeneralPIPConfig := MkGeneral {
  G_Name : string;
  G_Alias : string;
  G_URL : string;
  G_HTTPMethod : string;
  G_Query : gmap string string;
  G_ForwardHeaders : list string;
  G_SetHeaders : gmap string string;
  G_Body : bytes;
  G_TimeoutSeconds : Z;
  G_Response : option ResponseConfig;
  G_DefaultValue : option bytes;
}.
Record EntitlementsPIPConfig := MkEntitlements {
  En_Name : string; En_Alias : string; En_URL : string; En_HTTPTimeoutSeconds : Z; En_HTTPRetries : Z;
}.
Record EntitlementsConfig := MkEntitlementsConfig { C_URL : string; C_HTTPTimeoutSeconds : Z; C_HTTPRetries : Z }.

(** [NormalizedPIPs] with its local and remote halves; the activation index, which the pull
    fills in, is apart. *)
Record NormalizedPIPs := MkNormalized {
  ByName : gmap string NormalizedEntry;
  AliasSet : gset string;
  Token : gmap string TokenPIPConfig;
  HeaderPIPs : gmap string HeaderPIPConfig;
  General : gmap string GeneralPIPConfig;
  Entitlements : option EntitlementsPIPConfig;
}.

Record UploadSummary := MkSummary { Total : Z; S_Token : Z; S_Header : Z; S_General : Z }.

(** [PIPDocument]: the items as uploaded, and what they normalise to. *)
Record PIPDocument := MkDocument { RawItems : list SimplifiedPIP; Normalized : NormalizedPIPs }.

Definition PipTypeGeneral : string := "GENERAL".
Definition PipTypeFiltered : string := "FILTERED".
Definition PipTypeHeader : string := "HEADER".
Definition PipTypeToken : string := "TOKEN".
Definition PipTypeMapping : string := "MAPPING".
Definition PipTypePermissionScope : string := "PERMISSION_SCOPE".
Definition PipTypeEntitlements : string := "ENTITLEMENT".
Definition EntitlementsPIPName : string := "subject.entitledResources".
Definition EntitlementsPIPAlias : string := "entitledResources".
Definition DefaultEntitlementsHTTPTimeout : Z := 5.
Definition DefaultEntitlementsHTTPRetries : Z := 3.

Definition DefaultGeneralTimeoutSeconds : Z := 5.
Definition MinGeneralTimeoutSeconds : Z := 1.
Definition MaxGeneralTimeoutSeconds : Z := 30.
Definition validCoerce : list string := ["string"; "number"; "bool"; "string[]"; "number[]"]%string.
Definition validOnMissing : list string := ["defaultValue"; "empty"; "error"]%string.

(** Where a placeholder stands. *)
Inductive place := InURL | InQuery (key : string) | InHeaders (key : string) | InAttributes (key : string) | InBody.

Inductive reason :=
  | NameRequired
  | NamePrefix
  | AliasRequired
  | UnsupportedType (pipType : string)
  | BeanNameUnsupported
  | ClaimRequired
  | HeaderRequired
  | URLRequired
  | MethodValue
  | QueryTwice
  | GetWithBody
  | HeadersList
  | HeadersMap
  | HeadersShape
  | Placeholder (p : place) (e : path_error)
  | BodyInvalid
  | TypeValue
  | JsonPathNeedsJSON
  | JsonPathNeedsPipType
  | JsonPathInvalid (e : path_error)
  | CoerceValue
  | OnMissingValue
  | DefaultRequired
  | ExtractInvalid
  | ExtractPath (e : path_error)
  | ExtractEmpty
  | ExtractShape
  | EntryNull
  | EntryInvalid
  | EntryPathRequired
  | EntryShape
  | ExtractEntry (name : string) (e : reason)
  | DuplicateName (prev : nat).

(** ** JSON fields *)

Definition trim (s : string) : bytes := TrimSpace (bytes_of s).
Definition blank (s : string) : bool := is_nil (trim s).

(** [isAbsentRaw]. *)
Definition isAbsentRaw (raw : bytes) : bool := let t := TrimSpace raw in is_nil t || eqb t (bytes_of "null").

(** [json.Unmarshal] into a [[]string]; a null element stays empty. *)
Definition string_list (t : bytes) : option (list string) :=
  match Json.parse t with
  | Some (Json.JArr _ items) => mapM (set_string (Some EmptyString)) items
  | _ => None
  end.

(** [json.Unmarshal] into a [map[string]string]. *)
Definition string_map (t : bytes) : option (gmap string string) :=
  match Json.parse t with
  | Some (Json.JObj _ ms) =>
      kvs ← mapM (λ m, pair (Unquote m.1) <$> set_string (Some EmptyString) m.2) ms;
      Some (fold_left (λ m kv, <[kv.1 := kv.2]> m) kvs ∅)
  | _ => None
  end.

Definition parseHeaders (raw : bytes) : result reason (list string * gmap string string) :=
  let t := TrimSpace raw in
  if is_nil t || eqb t (bytes_of "null") then Ok ([], ∅)
  else
    match t with
    | "["%char :: _ => match string_list t with Some l => Ok (l, ∅) | None => Err HeadersList end
    | "{"%char :: _ => match string_map t with Some m => Ok ([], m) | None => Err HeadersMap end
    | _ => Err HeadersShape
    end.

(** The strings [walkJSONStrings] passes on; a member written twice is decoded once, as its
    last value. *)
Fixpoint json_strings (v : Json.json) : list bytes :=
  match v with
  | Json.JStr body => [bytes_of (Unquote body)]
  | Json.JArr _ items => concat (map json_strings items)
  | Json.JObj _ ms =>
      concat (map snd (map_to_list (fold_left (λ m kv, <[Unquote kv.1 := json_strings kv.2]> m) ms (∅ : gmap string (list bytes)))))
  | _ => []
  end.

(** Each of a list of texts passes. *)
Definition each {A} (f : A → result reason unit) (l : list A) : result reason unit := loop (λ _ x _, f x) 0 l tt.

Definition validatePlaceholdersInRawJSON (raw : bytes) : result reason unit :=
  if is_nil raw then Ok tt
  else
    match Json.parse raw with
    | Some v =>
        if numbers_fit v then each (λ s, wrap (Placeholder InBody) (validatePlaceholders s)) (json_strings v) else Err BodyInvalid
    | None => Err BodyInvalid
    end.

(** ** Validation *)

Section pips.
Context {case : CaseTable}.

Definition upper_trim (s : string) : bytes := ToUpper (trim s).

Definition resolvePipType (pip : SimplifiedPIP) : string :=
  let explicit := upper_trim (PipType pip) in
  let legacyType := upper_trim (PType pip) in
  if negb (is_nil explicit) then string_of explicit
  else if negb (is_nil legacyType) then string_of legacyType
  else if negb (blank (Claim pip)) then PipTypeToken
  else if negb (blank (Header pip)) then PipTypeHeader
  else PipTypeGeneral.

Definition rejectUnsupported (pipType : string) (pip : SimplifiedPIP) : result reason unit :=
  if member pipType [PipTypeFiltered; PipTypePermissionScope; PipTypeMapping; PipTypeEntitlements] then Err (UnsupportedType pipType)
  else check (negb (eqb pipType PipTypeGeneral && negb (blank (BeanName pip)))) BeanNameUnsupported.

Definition check_map (at_key : string → place) (m : gmap string string) : result reason unit :=
  each (λ kv : string * string, wrap (Placeholder (at_key kv.1)) (validatePlaceholders (bytes_of kv.2))) (map_to_list m).

Definition validateGeneralPlaceholders (pip : SimplifiedPIP) : result reason unit :=
  _ ← wrap (Placeholder InURL) (validatePlaceholders (bytes_of (URL pip)));
  _ ← check_map InQuery (Query pip);
  _ ← check_map InHeaders (match parseHeaders (Headers pip) with Ok (_, m) => m | Err _ => ∅ end);
  _ ← check_map InAttributes (RequestAttributes pip);
  validatePlaceholdersInRawJSON (Body pip).

Definition known (values : list string) (s : string) : bool := is_empty s || member s values.

(** An entry is the JSON value of its raw text. *)
Definition validateExtractEntry (spec : Json.json) : result reason unit :=
  match spec with
  | Json.JNull => Err EntryNull
  | Json.JStr body => wrap ExtractPath (validateJSONPathString (bytes_of (Unquote body)))
  | Json.JObj _ ms =>
      match forallb (λ m, existsb (λ f, eqb (folded (Unquote m.1)) (folded f)) ["path"; "coerce"; "onMissing"]%string) ms,
            string_field "path" ms, string_field "coerce" ms, string_field "onMissing" ms with
      | true, Some path, Some coerce, Some onMissing =>
          _ ← check (negb (blank path)) EntryPathRequired;
          _ ← wrap ExtractPath (validateJSONPathString (bytes_of path));
          _ ← check (known validCoerce coerce) CoerceValue;
          check (known validOnMissing onMissing) OnMissingValue
      | _, _, _, _ => Err EntryInvalid
      end
  | _ => Err EntryShape
  end.

Definition validateResponseSpec (pip : SimplifiedPIP) (r : ResponseSpec) : result reason unit :=
  _ ← check (known validCoerce (RS_Coerce r)) CoerceValue;
  _ ← check (known validOnMissing (RS_OnMissing r)) OnMissingValue;
  _ ← check (negb (eqb (RS_OnMissing r) "defaultValue"%string && negb (is_some (DefaultValue pip)))) DefaultRequired;
  if isAbsentRaw (RS_Extract r) then Ok tt
  else
    let t := TrimSpace (RS_Extract r) in
    match t with
    | "034"%char :: _ =>
        match Json.parse t with
        | Some (Json.JStr body) => wrap ExtractPath (validateJSONPathString (bytes_of (Unquote body)))
        | _ => Err ExtractInvalid
        end
    | "{"%char :: _ =>
        match v ← Json.parse t; members v with
        | Some m =>
            _ ← check (negb (is_nil (map_to_list m))) ExtractEmpty;
            each (λ kv : string * Json.json, wrap (ExtractEntry kv.1) (validateExtractEntry kv.2)) (map_to_list m)
        | None => Err ExtractInvalid
        end
    | _ => Err ExtractShape
    end.

(** The response of a PIP without a [response] block. *)
Definition validateLegacyResponse (pip : SimplifiedPIP) : result reason unit :=
  let jsonPath := trim (JsonPath pip) in
  let payloadType := upper_trim (PType pip) in
  _ ← (if negb (blank (PipType pip)) then
         _ ← check (is_nil payloadType || eqb payloadType (bytes_of "JSON") || eqb payloadType (bytes_of "TEXT")) TypeValue;
         check (is_nil jsonPath || eqb payloadType (bytes_of "JSON")) JsonPathNeedsJSON
       else check (is_nil jsonPath) JsonPathNeedsPipType);
  if is_nil jsonPath then Ok tt else wrap JsonPathInvalid (validateJSONPathString jsonPath).

Definition validateGeneralPIP (pip : SimplifiedPIP) : result reason unit :=
  _ ← check (negb (blank (URL pip))) URLRequired;
  let method := upper_trim (HTTPMethod pip) in
  _ ← check (is_nil method || eqb method (bytes_of "GET") || eqb method (bytes_of "POST")) MethodValue;
  _ ← check (negb (member "?"%char (bytes_of (URL pip)) && negb (is_nil (map_to_list (Query pip))))) QueryTwice;
  _ ← check (negb (eqb method (bytes_of "GET") && negb (is_nil (Body pip)))) GetWithBody;
  _ ← parseHeaders (Headers pip);
  _ ← validateGeneralPlaceholders pip;
  match Response pip with
  | Some r => validateResponseSpec pip r
  | None => validateLegacyResponse pip
  end.

Definition validateTokenPIP (pip : SimplifiedPIP) : result reason unit := check (negb (blank (Claim pip))) ClaimRequired.
Definition validateHeaderPIP (pip : SimplifiedPIP) : result reason unit := check (negb (blank (Header pip))) HeaderRequired.

Definition validateSingle (pip : SimplifiedPIP) : result reason unit :=
  let name := trim (Name pip) in
  _ ← check (negb (is_nil name)) NameRequired;
  match cutPrefix (bytes_of "subject.") name with
  | None => Err NamePrefix
  | Some alias =>
      _ ← check (negb (is_nil alias)) AliasRequired;
      let pipType := resolvePipType pip in
      _ ← rejectUnsupported pipType pip;
      if eqb pipType PipTypeToken then validateTokenPIP pip
      else if eqb pipType PipTypeHeader then validateHeaderPIP pip
      else if eqb pipType PipTypeGeneral then validateGeneralPIP pip
      else Err (UnsupportedType pipType)
  end.

(** [Validate], with the index of the item in its error. *)
Definition validate_item (idx : nat) (item : SimplifiedPIP) (names : gmap string nat) : result (nat * reason) (gmap string nat) :=
  _ ← wrap (pair idx) (validateSingle item);
  match names !! Name item with
  | Some prev => Err (idx, DuplicateName prev)
  | None => Ok (<[Name item := idx]> names)
  end.

Definition Validate (items : list SimplifiedPIP) : result (nat * reason) unit :=
  _ ← loop validate_item 0 items ∅; Ok tt.

End pips.

(** ** Normalisation *)

Definition clampTimeoutSeconds (v : option Z) : Z :=
  match v with
  | None => DefaultGeneralTimeoutSeconds
  | Some v =>
      if (v <? MinGeneralTimeoutSeconds)%Z then MinGeneralTimeoutSeconds
      else if (MaxGeneralTimeoutSeconds <? v)%Z then MaxGeneralTimeoutSeconds
      else v
  end.

Definition subjectIDTemplate : string := "${subject.id}".

(** [json.Marshal] of a [map[string]string], its keys sorted. *)
Definition marshal_map (m : gmap string string) : bytes :=
  "{"%char :: Json.joined [","%char]
    (map (λ k, marshal_string k ++ ":"%char :: marshal_string (default EmptyString (m !! k))) (sort_strings (elements (dom m))))
  ++ ["}"%char].

Definition buildLegacyWrapperBody (attrs : gmap string string) : bytes :=
  "{"%char :: marshal_string "id" ++ ":"%char :: marshal_string subjectIDTemplate ++ ","%char ::
  marshal_string "filters" ++ bytes_of ":null," ++ marshal_string "requestAttributes" ++ ":"%char ::
  (if bool_decide (attrs = ∅) then bytes_of "null" else marshal_map attrs) ++ ["}"%char].

Definition buildGeneralBody (item : SimplifiedPIP) (method : bytes) : bytes :=
  if negb (eqb method (bytes_of "POST")) then []
  else if negb (is_nil (Body item)) then Body item
  else buildLegacyWrapperBody (RequestAttributes item).

Definition buildResponseConfig (item : SimplifiedPIP) : option ResponseConfig :=
  match Response item with
  | Some r =>
      let extract := if isAbsentRaw (RS_Extract r) then [] else RS_Extract r in
      if is_nil extract && is_empty (RS_Coerce r) && is_empty (RS_OnMissing r) then None
      else Some (MkResponse extract (RS_Coerce r) (RS_OnMissing r))
  | None =>
      if negb (blank (PipType item)) && negb (blank (JsonPath item))
      then Some (MkResponse (marshal_string (string_of (trim (JsonPath item)))) EmptyString EmptyString) else None
  end.

(** The name of the item cut at the length of the prefix; [None] is the panic of a slice out
    of range. *)
Definition alias_of (name : string) : option string :=
  let b := bytes_of name in
  if (length (bytes_of "subject.") <=? length b)%nat then Some (string_of (drop (length (bytes_of "subject.")) b)) else None.

Section normalize.
Context {case : CaseTable}.

Definition effective_method (item : SimplifiedPIP) : bytes :=
  let method := upper_trim (HTTPMethod item) in if is_nil method then bytes_of "POST" else method.

Definition token_config (item : SimplifiedPIP) (alias : string) : TokenPIPConfig :=
  MkToken (Name item) alias (string_of (trim (Claim item))) (DefaultValue item).

Definition header_config (item : SimplifiedPIP) (alias : string) : HeaderPIPConfig :=
  MkHeader (Name item) alias (string_of (trim (Header item))) (DefaultValue item).

Definition general_config (item : SimplifiedPIP) (alias : string) : GeneralPIPConfig :=
  let method := effective_method item in
  let '(forward, set) := match parseHeaders (Headers item) with Ok h => h | Err _ => ([], ∅) end in
  MkGeneral (Name item) alias (string_of (trim (URL item))) (string_of method) (Query item) forward set
    (buildGeneralBody item method) (clampTimeoutSeconds (TimeoutSeconds item)) (buildResponseConfig item) (DefaultValue item).

Definition no_pips : NormalizedPIPs := MkNormalized ∅ ∅ ∅ ∅ ∅ None.

(** One turn of the loop of [NormalizeItems]; an item whose name is too short makes it panic. *)
Definition normalize_item (item : SimplifiedPIP) (st : NormalizedPIPs * UploadSummary) : option (NormalizedPIPs * UploadSummary) :=
  let '(n, s) := st in
  let pipType := resolvePipType item in
  alias ← alias_of (Name item);
  let byName := <[Name item := MkEntry (Name item) alias pipType]> (ByName n) in
  let aliases := {[alias]} ∪ AliasSet n in
  Some
    (if eqb pipType PipTypeToken then
       (MkNormalized byName aliases (<[Name item := token_config item alias]> (Token n)) (HeaderPIPs n) (General n) (Entitlements n),
        MkSummary (Total s) (int64 (S_Token s + 1)) (S_Header s) (S_General s))
     else if eqb pipType PipTypeHeader then
       (MkNormalized byName aliases (Token n) (<[Name item := header_config item alias]> (HeaderPIPs n)) (General n) (Entitlements n),
        MkSummary (Total s) (S_Token s) (int64 (S_Header s + 1)) (S_General s))
     else if eqb pipType PipTypeGeneral then
       (MkNormalized byName aliases (Token n) (HeaderPIPs n) (<[Name item := general_config item alias]> (General n)) (Entitlements n),
        MkSummary (Total s) (S_Token s) (S_Header s) (int64 (S_General s + 1)))
     else (MkNormalized byName aliases (Token n) (HeaderPIPs n) (General n) (Entitlements n), s)).

Fixpoint normalize_items (items : list SimplifiedPIP) (st : NormalizedPIPs * UploadSummary) : option (NormalizedPIPs * UploadSummary) :=
  match items with
  | [] => Some st
  | item :: items => st ← normalize_item item st; normalize_items items st
  end.

Definition NormalizeItems (items : list SimplifiedPIP) : option (PIPDocument * UploadSummary) :=
  '(n, s) ← normalize_items items (no_pips, MkSummary (Z.of_nat (length items)) 0 0 0);
  Some (MkDocument items n, s).

End normalize.

(** ** Entitlements *)

Definition envIntOrDefault (raw : string) (fallback : Z) : Z :=
  match Atoi (trim raw) with
  | Some parsed => if (parsed <=? 0)%Z then fallback else parsed
  | None => fallback
  end.

(** [LoadEntitlementsConfigFromEnv]; [env] is [os.Getenv]. *)
Definition LoadEntitlementsConfigFromEnv (env : string → string) : option EntitlementsConfig :=
  let url := trim (env "AUTHZ_ENTITLEMENTS_URL"%string) in
  if is_nil url then None
  else
    Some (MkEntitlementsConfig (string_of (drop_while_end (λ c, eqb c "/"%char) url))
      (envIntOrDefault (env "AUTHZ_ENTITLEMENTS_HTTP_TIMEOUT"%string) DefaultEntitlementsHTTPTimeout)
      (envIntOrDefault (env "AUTHZ_ENTITLEMENTS_HTTP_RETRIES"%string) DefaultEntitlementsHTTPRetries)).

Definition Entry (c : option EntitlementsConfig) : option EntitlementsPIPConfig :=
  match c with
  | Some c =>
      if is_empty (C_URL c) then None
      else Some (MkEntitlements EntitlementsPIPName EntitlementsPIPAlias (C_URL c) (C_HTTPTimeoutSeconds c) (C_HTTPRetries c))
  | None => None
  end.

Definition ApplyEntitlementsOverride (cfg : option EntitlementsConfig) (n : NormalizedPIPs) : NormalizedPIPs :=
  match Entry cfg with
  | None =>
      MkNormalized (delete EntitlementsPIPName (ByName n)) (AliasSet n ∖ {[EntitlementsPIPAlias]}) (Token n) (HeaderPIPs n) (General n) None
  | Some entry =>
      MkNormalized (<[EntitlementsPIPName := MkEntry (En_Name entry) (En_Alias entry) PipTypeEntitlements]> (ByName n))
        ({[En_Alias entry]} ∪ AliasSet n) (Token n) (HeaderPIPs n) (General n) (Some entry)
  end.

Definition EmptyDocumentWithEntitlements (cfg : option EntitlementsConfig) : PIPDocument :=
  MkDocument [] (ApplyEntitlementsOverride cfg no_pips).

(** ** The document *)

Section document.
Context {case : CaseTable}.

Definition alias (name : string) : string := string_of (drop 8 (bytes_of name)).

(** The last item of a name and, with a type, of that type. *)
Definition entry (item : SimplifiedPIP) (alias : string) : NormalizedEntry := MkEntry (Name item) alias (resolvePipType item).
Definition has_type (t : string) (item : SimplifiedPIP) : Prop := resolvePipType item = t.
Definition last_item (P : SimplifiedPIP → Prop) `{∀ x, Decision (P x)} (name : string) (items : list SimplifiedPIP) : option SimplifiedPIP :=
  last (filter (λ item, Name item = name ∧ P item) items).

#[global] Instance has_type_dec t item : Decision (has_type t item).
Proof. unfold has_type. apply _. Defined.

Lemma alias_of_Some name : 8 ≤ length (bytes_of name) → alias_of name = Some (alias name).
Proof. intros H. unfold alias_of. change (length (bytes_of "subject.")) with 8. by rewrite (proj2 (Nat.leb_le _ _) H). Qed.
Lemma alias_of_None name : alias_of name = None ↔ length (bytes_of name) < 8.
Proof.
  unfold alias_of. change (length (bytes_of "subject.")) with 8. destruct (8 <=? length (bytes_of name))%nat eqn:E; bool_simp; split; done || lia.
Qed.
Lemma alias_of_alias name a : alias_of name = Some a → a = alias name.
Proof. unfold alias_of. case_match; [by intros [= <-]|done]. Qed.

Lemma normalize_items_app l k st : normalize_items (l ++ k) st = st ← normalize_items l st; normalize_items k st.
Proof. revert st. induction l as [|x l IH]; intros st; [done|]. cbn. destruct (normalize_item x st) as [st'|]; [|done]. apply IH. Qed.

Lemma last_item_snoc P `{∀ x, Decision (P x)} name items x :
  last_item P name (items ++ [x]) = if decide (Name x = name ∧ P x) then Some x else last_item P name items.
Proof.
  unfold last_item. rewrite filter_app, filter_cons, filter_nil.
  destruct (decide (Name x = name ∧ P x)); [by rewrite last_snoc|by rewrite app_nil_r].
Qed.

Lemma int64_succ z : int64 (int64 z + 1) = int64 (z + 1).
Proof. by rewrite (int64_eq64 z). Qed.

Definition count (t : string) (items : list SimplifiedPIP) : Z := Z.of_nat (length (filter (has_type t) items)).

(** What [NormalizeItems] makes of a list, if it does not panic. *)
Definition normalised (items : list SimplifiedPIP) (n : NormalizedPIPs) (s : UploadSummary) : Prop :=
  (∀ name, ByName n !! name = (λ item, entry item (alias name)) <$> last_item (λ _, True) name items)
  ∧ (∀ name, Token n !! name = (λ item, token_config item (alias name)) <$> last_item (has_type PipTypeToken) name items)
  ∧ (∀ name, HeaderPIPs n !! name = (λ item, header_config item (alias name)) <$> last_item (has_type PipTypeHeader) name items)
  ∧ (∀ name, General n !! name = (λ item, general_config item (alias name)) <$> last_item (has_type PipTypeGeneral) name items)
  ∧ (∀ a, a ∈ AliasSet n ↔ ∃ item, item ∈ items ∧ a = alias (Name item))
  ∧ Entitlements n = None
  ∧ s = MkSummary (Total s) (int64 (count PipTypeToken items)) (int64 (count PipTypeHeader items)) (int64 (count PipTypeGeneral items)).

Lemma count_snoc t items x : count t (items ++ [x]) = (count t items + if decide (has_type t x) then 1 else 0)%Z.
Proof.
  unfold count. rewrite filter_app, length_app, filter_cons. destruct (decide (has_type t x)); cbn; lia.
Qed.

Lemma count_same t items x : has_type t x → int64 (int64 (count t items) + 1) = int64 (count t (items ++ [x])).
Proof. intros H. by rewrite int64_succ, count_snoc, decide_True. Qed.
Lemma count_other t items x : ¬ has_type t x → count t (items ++ [x]) = count t items.
Proof. intros H. by rewrite count_snoc, decide_False, Z.add_0_r. Qed.

(** A map that takes the entry of every item of a type holds the last one of each name. *)
Lemma insert_last {A} (f : SimplifiedPIP → string → A) P `{∀ x, Decision (P x)} (m : gmap string A) items x :
  P x → (∀ name, m !! name = (λ item, f item (alias name)) <$> last_item P name items) →
  ∀ name, <[Name x := f x (alias (Name x))]> m !! name = (λ item, f item (alias name)) <$> last_item P name (items ++ [x]).
Proof.
  intros Hx Hm name. rewrite last_item_snoc. destruct (decide (Name x = name)) as [<-|Hne].
  - by rewrite lookup_insert, decide_True, decide_True by done.
  - by rewrite lookup_insert_ne, decide_False by tauto.
Qed.

Lemma keep_last {A} (f : SimplifiedPIP → string → A) P `{∀ x, Decision (P x)} (m : gmap string A) items x :
  ¬ P x → (∀ name, m !! name = (λ item, f item (alias name)) <$> last_item P name items) →
  ∀ name, m !! name = (λ item, f item (alias name)) <$> last_item P name (items ++ [x]).
Proof. intros Hx Hm name. by rewrite last_item_snoc, decide_False by tauto. Qed.

Lemma normalise_snoc items x n s st :
  normalised items n s → normalize_item x (n, s) = Some st → normalised (items ++ [x]) st.1 st.2 ∧ Total st.2 = Total s.
Proof.
  intros (HN & HT & HH & HG & HA & HE & HS). unfold normalize_item. destruct (alias_of (Name x)) as [a|] eqn:Ea; [|done].
  apply alias_of_alias in Ea as ->. cbn [mbind option_bind].
  pose proof (insert_last entry (λ _, True) _ _ x I HN) as HN'.
  assert (HA' : ∀ b, b ∈ {[alias (Name x)]} ∪ AliasSet n ↔ ∃ item, item ∈ items ++ [x] ∧ b = alias (Name item)).
  { intros b. rewrite elem_of_union, elem_of_singleton, HA. setoid_rewrite elem_of_app. setoid_rewrite list_elem_of_singleton. naive_solver. }
  assert (Hother : ∀ t t', has_type t x → t ≠ t' → ¬ has_type t' x) by (unfold has_type; congruence).
  rewrite HS. cbn [Total S_Token S_Header S_General]. clear HS.
  destruct (eqb (resolvePipType x) PipTypeToken) eqn:E1; [apply (proj1 (eqb_true _ _)) in E1|apply eqb_false in E1;
    destruct (eqb (resolvePipType x) PipTypeHeader) eqn:E2; [apply (proj1 (eqb_true _ _)) in E2|apply eqb_false in E2;
    destruct (eqb (resolvePipType x) PipTypeGeneral) eqn:E3; [apply (proj1 (eqb_true _ _)) in E3|apply eqb_false in E3]]];
  intros [= <-]; (split; [|done]); unfold normalised; cbn [fst snd ByName Token HeaderPIPs General AliasSet Entitlements Total S_Token];
  (split_and!; [exact HN'|first [by apply (insert_last token_config)|by apply keep_last; [eauto|]]
    |first [by apply (insert_last header_config)|by apply keep_last; [eauto|]]
    |first [by apply (insert_last general_config)|by apply keep_last; [eauto|]]|exact HA'|exact HE|]);
  f_equal; first [by apply count_same|f_equal; symmetry; apply count_other; by eauto].
Qed.

Lemma normalise_all items t st :
  normalize_items items (no_pips, MkSummary t 0 0 0) = Some st → normalised items st.1 st.2 ∧ Total st.2 = t.
Proof.
  revert st. induction items as [|x items IH] using rev_ind; intros st.
  - intros [= <-]. split; [|done]. unfold normalised. split_and!; try done.
    intros a. split; [by intros ?%elem_of_empty|by intros (i & Hi%elem_of_nil & _)].
  - rewrite normalize_items_app. destruct (normalize_items items _) as [[n s]|] eqn:E; [|done]. cbn [mbind option_bind normalize_items].
    destruct (normalize_item x (n, s)) as [st'|] eqn:Ex; [|done]. intros [= <-].
    destruct (IH _ eq_refl) as [Hn Ht]. destruct (normalise_snoc items x n s st') as [Hn' Ht']; [done..|].
    split; [done|]. by rewrite Ht'.
Qed.

Lemma NormalizeItems_spec items :
  (NormalizeItems items = None ↔ ∃ item, item ∈ items ∧ length (bytes_of (Name item)) < 8)
  ∧ ∀ d s, NormalizeItems items = Some (d, s) → RawItems d = items ∧ normalised items (Normalized d) s ∧ Total s = Z.of_nat (length items).
Proof.
  assert (Hnone : ∀ items st, normalize_items items st = None ↔ ∃ item, item ∈ items ∧ length (bytes_of (Name item)) < 8).
  { clear items. intros items. induction items as [|x items IH]; intros st.
    - split; [done|]. by intros (i & Hi%elem_of_nil & _).
    - cbn [normalize_items]. setoid_rewrite elem_of_cons. destruct st as [n s]. unfold normalize_item.
      destruct (alias_of (Name x)) as [a|] eqn:Ea.
      + cbn [mbind option_bind]. rewrite IH. assert (¬ length (bytes_of (Name x)) < 8) by (rewrite <-alias_of_None, Ea; done). naive_solver.
      + apply alias_of_None in Ea. naive_solver. }
  unfold NormalizeItems. split.
  - rewrite <-(Hnone items (no_pips, MkSummary (Z.of_nat (length items)) 0 0 0)). by destruct (normalize_items items _) as [[n s]|].
  - intros d s. destruct (normalize_items items _) as [[n s']|] eqn:E; [|done]. cbn. intros [= <- <-].
    split; [done|]. exact (normalise_all _ _ _ E).
Qed.

(** [NormalizeItems] panics exactly when a name is shorter than the prefix, which the pull
    of an export does not check; otherwise each map of its document holds, for every name, the
    entry made from the last item of that name and of its type, the aliases are those of
    the names, and the summary counts the types. *)
Theorem NormalizeItems_document items :
  (NormalizeItems items = None ↔ ∃ item, item ∈ items ∧ length (bytes_of (Name item)) < 8)
  ∧ ∀ d s, NormalizeItems items = Some (d, s) → RawItems d = items ∧ normalised items (Normalized d) s ∧ Total s = Z.of_nat (length items).
Proof. apply NormalizeItems_spec. Qed.

End document.

(** ** What validation accepts *)

Definition templates (m : gmap string string) : Prop := map_Forall (λ _ v, template (bytes_of v)) m.

(** An entry of an extraction map: a path, or an object of a path and two choices. *)
Definition valid_entry (v : Json.json) : Prop :=
  (∃ body, v = Json.JStr body ∧ absolute_path (bytes_of (Unquote body)))
  ∨ ∃ raw ms path coerce onMissing,
      v = Json.JObj raw ms
      ∧ (∀ m, m ∈ ms → ∃ f, f ∈ ["path"; "coerce"; "onMissing"]%string ∧ folded (Unquote m.1) = folded f)
      ∧ string_field "path" ms = Some path ∧ string_field "coerce" ms = Some coerce
      ∧ string_field "onMissing" ms = Some onMissing
      ∧ absolute_path (bytes_of path) ∧ coerce ∈ EmptyString :: validCoerce ∧ onMissing ∈ EmptyString :: validOnMissing.

Definition valid_extract (raw : bytes) : Prop :=
  isAbsentRaw raw = true
  ∨ ∃ v, Json.parse (TrimSpace raw) = Some v
      ∧ ((∃ body, v = Json.JStr body ∧ absolute_path (bytes_of (Unquote body)))
         ∨ ∃ m, members v = Some m ∧ m ≠ ∅ ∧ map_Forall (λ _ v, valid_entry v) m).

Definition valid_response (pip : SimplifiedPIP) (r : ResponseSpec) : Prop :=
  RS_Coerce r ∈ EmptyString :: validCoerce ∧ RS_OnMissing r ∈ EmptyString :: validOnMissing
  ∧ (RS_OnMissing r = "defaultValue"%string → DefaultValue pip ≠ None) ∧ valid_extract (RS_Extract r).

Definition valid_body (raw : bytes) : Prop :=
  raw = [] ∨ ∃ v, Json.parse raw = Some v ∧ numbers_fit v = true ∧ Forall template (json_strings v).

Section valid.
Context {case : CaseTable}.

Definition valid_legacy_response (pip : SimplifiedPIP) : Prop :=
  (blank (PipType pip) = false → upper_trim (PType pip) ∈ [[]; bytes_of "JSON"; bytes_of "TEXT"])
  ∧ (trim (JsonPath pip) = []
     ∨ blank (PipType pip) = false ∧ upper_trim (PType pip) = bytes_of "JSON" ∧ absolute_path (trim (JsonPath pip))).

Definition valid_general (pip : SimplifiedPIP) : Prop :=
  let method := upper_trim (HTTPMethod pip) in
  blank (URL pip) = false ∧ method ∈ [[]; bytes_of "GET"; bytes_of "POST"]
  ∧ ("?"%char ∈ bytes_of (URL pip) → Query pip = ∅) ∧ (method = bytes_of "GET" → Body pip = [])
  ∧ (∃ forward set, parseHeaders (Headers pip) = Ok (forward, set) ∧ templates set)
  ∧ template (bytes_of (URL pip)) ∧ templates (Query pip) ∧ templates (RequestAttributes pip) ∧ valid_body (Body pip)
  ∧ match Response pip with Some r => valid_response pip r | None => valid_legacy_response pip end.

(** An item [Validate] has nothing against. *)
Definition valid_pip (pip : SimplifiedPIP) : Prop :=
  (∃ alias, trim (Name pip) = bytes_of "subject." ++ alias ∧ alias ≠ [])
  ∧ (resolvePipType pip = PipTypeToken ∧ blank (Claim pip) = false
     ∨ resolvePipType pip = PipTypeHeader ∧ blank (Header pip) = false
     ∨ resolvePipType pip = PipTypeGeneral ∧ blank (BeanName pip) = true ∧ valid_general pip).

Lemma each_item_Ok {A} (f : A → result reason unit) l : each f l = Ok tt ↔ Forall (λ x, f x = Ok tt) l.
Proof.
  unfold each. rewrite (loop_Ok (λ _ x, f x)), Forall_lookup. done.
Qed.

Lemma each_map {A} (f : string * A → result reason unit) (P : A → Prop) (m : gmap string A) :
  (∀ k x, f (k, x) = Ok tt ↔ P x) → each f (map_to_list m) = Ok tt ↔ map_Forall (λ _, P) m.
Proof.
  intros Hf. rewrite each_item_Ok, map_Forall_to_list. apply Forall_proper; [|done]. intros [k x]. cbn. apply Hf.
Qed.

Lemma check_map_Ok at_key m : check_map at_key m = Ok tt ↔ templates m.
Proof. apply each_map. intros k x. cbn [fst snd]. by rewrite wrap_Ok, validatePlaceholders_Ok. Qed.

Lemma known_true values s : known values s = true ↔ s ∈ EmptyString :: values.
Proof. unfold known. by rewrite orb_true_iff, is_empty_true, member_true, elem_of_cons. Qed.

Lemma body_Ok raw : validatePlaceholdersInRawJSON raw = Ok tt ↔ valid_body raw.
Proof.
  unfold validatePlaceholdersInRawJSON, valid_body. destruct raw as [|c raw]; [cbn; tauto|]. cbn [is_nil].
  destruct (Json.parse (c :: raw)) as [v|]; [|by split; [|intros [?|(v & ? & _)]]].
  destruct (numbers_fit v) eqn:En; [|split; [done|]; intros [?|(v' & [= <-] & H & _)]; congruence].
  rewrite each_item_Ok. transitivity (Forall template (json_strings v)).
  - apply Forall_proper; [|done]. intros s. by rewrite wrap_Ok, validatePlaceholders_Ok.
  - split; [intros H; right; by exists v|]. by intros [?|(v' & [= <-] & _ & H)].
Qed.

(** White space is trimmed from the left end. *)
Lemma trim_left_done fuel texts s :
  Forall (λ t, t ≠ []) texts → length s ≤ fuel → cut_any texts (trim_left fuel texts s) = None ∨ trim_left fuel texts s = [].
Proof.
  intros Ht. revert s. induction fuel as [|fuel IH]; intros s Hs; cbn [trim_left].
  - destruct s; [by right|cbn in Hs; lia].
  - destruct (cut_any texts s) as [r|] eqn:E; [|by left]. apply IH.
    apply cut_any_Some in E as (t & Hin & ->). rewrite Forall_forall in Ht. specialize (Ht t Hin).
    rewrite length_app in Hs. destruct t; [done|]. cbn in Hs. lia.
Qed.

Lemma trim_left_suffix fuel texts s : ∃ p, s = p ++ trim_left fuel texts s.
Proof.
  revert s. induction fuel as [|fuel IH]; intros s; cbn [trim_left]; [by exists []|].
  destruct (cut_any texts s) as [r|] eqn:E; [|by exists []]. apply cut_any_Some in E as (t & _ & ->).
  destruct (IH r) as [p Hp]. exists (t ++ p). by rewrite <-(assoc_L (++)), <-Hp.
Qed.

Lemma TrimRight_prefix s : ∃ p, s = TrimRight s ++ p.
Proof.
  unfold TrimRight. destruct (trim_left_suffix (length s) (reverse <$> space_texts) (reverse s)) as [p Hp].
  exists (reverse p). apply (inj reverse). by rewrite reverse_app, !reverse_involutive.
Qed.

Lemma TrimSpace_head s c : head (TrimSpace s) = Some c → Json.is_space c = false.
Proof.
  unfold TrimSpace. set (t := trim_left (length s) space_texts s). intros Hc.
  destruct (TrimRight_prefix t) as [p Hp]. assert (Ht : head t = Some c) by (rewrite Hp; by destruct (TrimRight t)).
  destruct (trim_left_done (length s) space_texts s) as [E|E]; [by apply (bool_decide_unpack _); vm_compute|done| |].
  - pose proof (proj1 (cut_any_None _ _) E) as E'. clear E. fold t in E'. apply not_true_is_false. intros Hs. unfold Json.is_space in Hs. rewrite member_true in Hs.
    destruct t as [|d t']; [done|]. injection Ht as ->. apply (E' [c]); [|by exists t'].
    repeat (apply elem_of_cons in Hs as [->|Hs]; [by apply (bool_decide_unpack _); vm_compute|]). by apply elem_of_nil in Hs.
  - fold t in E. by rewrite E in Ht.
Qed.

(** The first byte of a trimmed text tells the kind of its value. *)
Lemma parse_head s v :
  Json.parse (TrimSpace s) = Some v →
  match v with
  | Json.JStr _ => head (TrimSpace s) = Some "034"%char
  | Json.JArr _ _ => head (TrimSpace s) = Some "["%char
  | Json.JObj _ _ => head (TrimSpace s) = Some "{"%char
  | _ => head (TrimSpace s) ∉ [Some "034"; Some "["; Some "{"]%char
  end.
Proof.
  pose proof (TrimSpace_head s) as Hh. destruct (TrimSpace s) as [|c t]; [done|]. specialize (Hh c eq_refl).
  unfold Json.parse. rewrite Json.skip_cons by done.
  destruct (Json.value _ _ (c :: t)) as [[w rest]|] eqn:Ev; [|done]. cbn [mbind option_bind].
  destruct (Json.skip rest); [|done]. intros [= ->]. revert Ev.
  change (2 + 2 * length (c :: t)) with (S (1 + 2 * length (c :: t))). generalize (1 + 2 * length (c :: t)) as f. intros f.
  cbn [Json.value head]. destruct (eqb c Json.quote) eqn:E1; [apply (proj1 (eqb_true _ _)) in E1 as ->|apply eqb_false in E1].
  { destruct (Json.scan_string t) as [[]|]; [|done]. by intros [= <- _]. }
  destruct (eqb c "["%char) eqn:E2; [apply (proj1 (eqb_true _ _)) in E2 as ->|apply eqb_false in E2].
  { repeat case_match; try done; intros; simplify_option_eq; repeat case_match; by simplify_eq. }
  destruct (eqb c "{"%char) eqn:E3; [apply (proj1 (eqb_true _ _)) in E3 as ->|apply eqb_false in E3].
  { repeat case_match; try done; intros; simplify_option_eq; repeat case_match; by simplify_eq. }
  assert (Hc : Some c ∉ [Some "034"; Some "["; Some "{"]%char).
  { rewrite !not_elem_of_cons. split_and!; [by intros [= ->]..|apply not_elem_of_nil]. }
  intros Ev. repeat case_match; simplify_option_eq; repeat case_match; by simplify_eq.
Qed.

Lemma absolute_not_blank s : absolute_path (bytes_of s) → blank s = false.
Proof.
  intros (t & E & _). apply is_nil_false, TrimSpace_dollar. rewrite E. by left.
Qed.

Lemma names_known (ms : list (bytes * Json.json)) (fields : list string) :
  forallb (λ m, existsb (λ f, eqb (folded (Unquote m.1)) (folded f)) fields) ms = true
  ↔ ∀ m, m ∈ ms → ∃ f, f ∈ fields ∧ folded (Unquote m.1) = folded f.
Proof.
  rewrite forallb_forall. setoid_rewrite <-list_elem_of_In. setoid_rewrite existsb_exists. setoid_rewrite <-list_elem_of_In.
  by setoid_rewrite eqb_true.
Qed.

Lemma entry_Ok v : validateExtractEntry v = Ok tt ↔ valid_entry v.
Proof.
  unfold valid_entry. destruct v as [|b|t|body|raw items|raw ms]; cbn [validateExtractEntry];
    try (by split; [|intros [(? & ? & _)|(? & ? & ? & ? & ? & ? & _)]]).
  - rewrite wrap_Ok, validateJSONPathString_Ok. split; [intros H; left; by exists body|].
    by intros [(? & [= <-] & H)|(? & ? & ? & ? & ? & ? & _)].
  - split.
    + intros H. right. destruct (forallb _ ms) eqn:Ef; [|done]. destruct (string_field "path" ms) as [path|] eqn:E1; [|done].
      destruct (string_field "coerce" ms) as [coerce|] eqn:E2; [|done].
      destruct (string_field "onMissing" ms) as [onMissing|] eqn:E3; [|done].
      rewrite !bind_unit_Ok, wrap_Ok, validateJSONPathString_Ok, !check_Ok, !known_true in H.
      exists raw, ms, path, coerce, onMissing. split_and!; [done|by apply names_known|done|done|done|apply H..].
    + intros [(? & ? & _)|(? & ? & path & coerce & onMissing & [= <- <-] & Hn & -> & -> & -> & Hp & Hc & Hm)]; [done|].
      apply names_known in Hn as ->. rewrite !bind_unit_Ok, wrap_Ok, validateJSONPathString_Ok, !check_Ok, !known_true.
      split_and!; [|done..]. by apply negb_true_iff, absolute_not_blank.
Qed.

Lemma members_JObj v m : members v = Some m → ∃ raw ms, v = Json.JObj raw ms.
Proof. destruct v; try done. eauto. Qed.

Lemma match_head {A} (t : bytes) (a b e : A) :
  match t with "034"%char :: _ => a | "{"%char :: _ => b | _ => e end
  = if eqb (head t) (Some "034"%char) then a else if eqb (head t) (Some "{"%char) then b else e.
Proof. by destruct t as [|[[] [] [] [] [] [] [] []] t]. Qed.

Lemma extract_Ok (pip : SimplifiedPIP) (r : ResponseSpec) : validateResponseSpec pip r = Ok tt ↔ valid_response pip r.
Proof.
  unfold validateResponseSpec, valid_response, valid_extract.
  rewrite !bind_unit_Ok, !check_Ok, !known_true, negb_true_iff, andb_false_iff, eqb_false, negb_false_iff.
  apply and_iff_compat_l, and_iff_compat_l.
  assert (Hd : (RS_OnMissing r ≠ "defaultValue"%string ∨ is_some (DefaultValue pip) = true) ↔ (RS_OnMissing r = "defaultValue"%string → DefaultValue pip ≠ None)).
  { destruct (decide (RS_OnMissing r = "defaultValue"%string)); destruct (DefaultValue pip); cbn; naive_solver. }
  rewrite Hd. apply and_iff_compat_l. destruct (isAbsentRaw (RS_Extract r)) eqn:Ea; [by split; [left|]|].
  pose proof (parse_head (RS_Extract r)) as Hh. set (t := TrimSpace (RS_Extract r)) in *.
  transitivity (∃ v, Json.parse t = Some v
      ∧ ((∃ body, v = Json.JStr body ∧ absolute_path (bytes_of (Unquote body)))
         ∨ ∃ m, members v = Some m ∧ m ≠ ∅ ∧ map_Forall (λ _ v, valid_entry v) m)); [|by split; [right|intros [|]]].
  destruct (Json.parse t) as [v|] eqn:Ep; [|split; [|by intros (? & ? & _)]].
  2: { by repeat case_match. }
  specialize (Hh v eq_refl). rewrite match_head. cbn [mbind option_bind].
  destruct v as [|b|u|body|raw items|raw ms].
  all: try (rewrite !not_elem_of_cons in Hh; destruct Hh as (H1 & _ & H2 & _);
    rewrite (proj2 (eqb_false _ _) H1), (proj2 (eqb_false _ _) H2); split; [done|]; by intros (? & [= <-] & [(? & ? & _)|(? & ? & _)])).
  - rewrite Hh, eqb_refl, wrap_Ok, validateJSONPathString_Ok. split; [intros H; eexists; split; [done|]; left; by exists body|].
    by intros (? & [= <-] & [(? & [= <-] & H)|(? & ? & _)]).
  - rewrite Hh. split; [done|]. by intros (? & [= <-] & [(? & ? & _)|(? & ? & _)]).
  - rewrite Hh. change (eqb (Some "{"%char) (Some "034"%char)) with false. rewrite eqb_refl. cbn [members].
    set (m := fold_left _ ms ∅).
    rewrite bind_unit_Ok, check_Ok, negb_true_iff, is_nil_false, map_to_list_empty_iff,
      (each_map _ valid_entry m) by (intros k x; cbn [fst snd]; by rewrite wrap_Ok, entry_Ok). split.
    + intros [H1 H2]. eexists. split; [done|]. right. by exists m.
    + by intros (? & [= <-] & [(? & ? & _)|(m' & [= <-] & H1 & H2)]).
Qed.

Lemma legacy_Ok pip : validateLegacyResponse pip = Ok tt ↔ valid_legacy_response pip.
Proof.
  unfold validateLegacyResponse, valid_legacy_response. rewrite bind_unit_Ok.
  assert (Hn : ∀ s : bytes, is_nil s = true ↔ s = []) by (intros s; apply is_nil_true).
  assert (Hp : (if is_nil (trim (JsonPath pip)) then Ok tt else wrap JsonPathInvalid (validateJSONPathString (trim (JsonPath pip)))) = Ok tt
               ↔ trim (JsonPath pip) = [] ∨ absolute_path (trim (JsonPath pip))).
  { destruct (is_nil (trim (JsonPath pip))) eqn:E; [apply Hn in E; tauto|apply is_nil_false in E].
    rewrite wrap_Ok, validateJSONPathString_Ok. tauto. }
  rewrite Hp. destruct (blank (PipType pip)); cbn [negb].
  - rewrite check_Ok, Hn. intuition congruence.
  - rewrite bind_unit_Ok, !check_Ok, !orb_true_iff, !Hn, !eqb_true, !elem_of_cons, elem_of_nil. intuition congruence.
Qed.

Lemma query_once (b : bool) (q : gmap string string) :
  negb (b && negb (is_nil (map_to_list q))) = true ↔ (b = true → q = ∅).
Proof.
  rewrite negb_true_iff, andb_false_iff, negb_false_iff, is_nil_true, map_to_list_empty_iff. destruct b; intuition congruence.
Qed.

Lemma general_Ok pip : validateGeneralPIP pip = Ok tt ↔ valid_general pip.
Proof.
  unfold validateGeneralPIP, valid_general. rewrite !bind_unit_Ok, !check_Ok, query_once, member_true.
  rewrite negb_true_iff. apply and_iff_compat_l.
  rewrite !orb_true_iff, is_nil_true, !eqb_true, !elem_of_cons, elem_of_nil.
  assert (H1 : negb (eqb (upper_trim (HTTPMethod pip)) (bytes_of "GET") && negb (is_nil (Body pip))) = true
               ↔ (upper_trim (HTTPMethod pip) = bytes_of "GET" → Body pip = [])).
  { rewrite negb_true_iff, andb_false_iff, negb_false_iff, is_nil_true, eqb_false.
    destruct (decide (upper_trim (HTTPMethod pip) = bytes_of "GET")); intuition. }
  rewrite H1. clear H1.
  set (R := match Response pip with Some r => validateResponseSpec pip r | None => validateLegacyResponse pip end).
  assert (HR : R = Ok tt ↔ match Response pip with Some r => valid_response pip r | None => valid_legacy_response pip end).
  { unfold R. destruct (Response pip) as [r|]; [apply extract_Ok|apply legacy_Ok]. }
  rewrite <-HR. clearbody R. clear HR. rewrite bind_Ok. unfold validateGeneralPlaceholders.
  destruct (parseHeaders (Headers pip)) as [[forward set]|e] eqn:Eh.
  - set (m := _ ← wrap (Placeholder InURL) _; _).
    assert (Hb : (_ ← m; R) = Ok tt
      ↔ templates set ∧ template (bytes_of (URL pip)) ∧ templates (Query pip) ∧ templates (RequestAttributes pip) ∧ valid_body (Body pip) ∧ R = Ok tt).
    { unfold m. rewrite !bind_unit_Ok, wrap_Ok, validatePlaceholders_Ok, !check_map_Ok, body_Ok. tauto. }
    assert (Ha : (∃ a : list string * gmap string string, Ok (E:=reason) (forward, set) = Ok a ∧ (_ ← m; R) = Ok tt) ↔ (_ ← m; R) = Ok tt).
    { split; [by intros (? & _ & ?)|eauto]. }
    rewrite Ha, Hb. clear Ha Hb.
    assert (Hs : (∃ f s, Ok (E:=reason) (forward, set) = Ok (f, s) ∧ templates s) ↔ templates set).
    { split; [by intros (f & s & [= <- <-] & H)|eauto]. }
    rewrite Hs. tauto.
  - split; [by intros (? & ? & ? & (? & ? & _))|]. by intros (? & ? & ? & (? & ? & ? & _) & _).
Qed.

Lemma single_Ok pip : validateSingle pip = Ok tt ↔ valid_pip pip.
Proof.
  unfold validateSingle, validateTokenPIP, validateHeaderPIP, valid_pip, rejectUnsupported. rewrite bind_unit_Ok, check_Ok, negb_true_iff, is_nil_false.
  destruct (cutPrefix (bytes_of "subject.") (trim (Name pip))) as [al|] eqn:Ec.
  2: { split; [by intros [_ ?]|]. intros [(al & E & _) _]. rewrite E, cutPrefix_app in Ec. done. }
  apply cutPrefix_Some in Ec. rewrite Ec, bind_unit_Ok, check_Ok, negb_true_iff, is_nil_false.
  assert (Ha : (∃ alias, bytes_of "subject." ++ al = bytes_of "subject." ++ alias ∧ alias ≠ []) ↔ al ≠ []).
  { split; [by intros (? & ->%(inj (app _)) & ?)|]. intros H. by exists al. }
  rewrite Ha. clear Ha Ec. set (t := resolvePipType pip).
  assert (Hne : bytes_of "subject." ++ al ≠ []) by by destruct al. rewrite bind_unit_Ok, <-general_Ok.
  destruct (decide (t = PipTypeToken)) as [->|H1];
    [|destruct (decide (t = PipTypeHeader)) as [->|H2]; [|destruct (decide (t = PipTypeGeneral)) as [->|H3]]].
  - change (eqb PipTypeToken PipTypeToken) with true. change (member PipTypeToken _) with false.
    change (eqb PipTypeToken PipTypeGeneral) with false. cbn [andb negb check]. rewrite check_Ok, negb_true_iff. intuition discriminate.
  - change (eqb PipTypeHeader PipTypeToken) with false. change (eqb PipTypeHeader PipTypeHeader) with true. change (member PipTypeHeader _) with false.
    change (eqb PipTypeHeader PipTypeGeneral) with false. cbn [andb negb check]. rewrite check_Ok, negb_true_iff. intuition discriminate.
  - change (eqb PipTypeGeneral PipTypeToken) with false. change (eqb PipTypeGeneral PipTypeHeader) with false.
    change (member PipTypeGeneral _) with false. change (eqb PipTypeGeneral PipTypeGeneral) with true. cbn [andb negb].
    rewrite check_Ok, negb_involutive. intuition discriminate.
  - rewrite (proj2 (eqb_false t _) H1), (proj2 (eqb_false t _) H2), (proj2 (eqb_false t _) H3). intuition congruence.
Qed.

Lemma Validate_from i items names :
  is_ok (loop validate_item i items names) = true ↔ Forall valid_pip items ∧ NoDup (Name <$> items) ∧ ∀ n, n ∈ Name <$> items → names !! n = None.
Proof.
  revert i names. induction items as [|x items IH]; intros i names; cbn [loop fmap list_fmap].
  { split; [|done]. intros _. split_and!; [constructor|constructor|]. by intros n Hn%elem_of_nil. }
  rewrite Forall_cons, <-single_Ok, NoDup_cons.
  replace (validate_item i x names) with (_ ← wrap (pair i) (validateSingle x);
    match names !! Name x with Some prev => Err (i, DuplicateName prev) | None => Ok (<[Name x := i]> names) end) by done.
  destruct (validateSingle x) as [[]|e]; cbn [wrap mbind result_bind]; [|by split; [|intros ([? _] & _)]].
  destruct (names !! Name x) as [prev|] eqn:Ex.
  - cbn. split; [done|]. intros (_ & _ & H). by rewrite (H (Name x) (list_elem_of_here _ _)) in Ex.
  - cbn [mbind result_bind]. rewrite IH. split.
    + intros (H1 & H2 & H3). split_and!; [done|done| |done|].
      * intros Hin. specialize (H3 _ Hin). by rewrite lookup_insert in H3; case_decide.
      * intros n [->|Hn]%elem_of_cons; [done|]. specialize (H3 _ Hn). rewrite lookup_insert in H3. by case_decide.
    + intros ([_ H1] & [Hni H2] & H3). split_and!; [done..|]. intros n Hn. rewrite lookup_insert_ne by (intros <-; by apply Hni).
      apply H3. by right.
Qed.

Lemma pips_Ok items : Validate items = Ok tt ↔ Forall valid_pip items ∧ NoDup (Name <$> items).
Proof.
  unfold Validate. pose proof (Validate_from 0 items ∅) as H. destruct (loop _ _ _ _); cbn [is_ok mbind result_bind] in *.
  - split; [|done]. intros _. destruct H as [(? & ? & _) _]; done.
  - split; [done|]. intros [H1 H2]. assert (Hf : false = true); [|done]. apply H. split_and!; [done..|]. intros n _. apply lookup_empty.
Qed.

(** C29: [Validate] accepts exactly the lists of valid items with distinct names: each name is
    [subject.] and an alias, tokens have a claim and headers a header, and a general item
    has a URL, a method and a body that fit, headers in one of two forms, placeholders that
    are templates wherever they may stand, and a response whose paths are of the grammar. *)
Theorem pips_accepted items : Validate items = Ok tt ↔ Forall valid_pip items ∧ NoDup (Name <$> items).
Proof. apply pips_Ok. Qed.

End valid.

(** ** Validated lists *)

Section validated.
Context {case : CaseTable}.

Lemma unique_last P `{∀ x, Decision (P x)} items item :
  NoDup (Name <$> items) → item ∈ items → last_item P (Name item) items = if decide (P item) then Some item else None.
Proof.
  induction items as [|x items IH] using rev_ind; [by intros _ ?%elem_of_nil|].
  rewrite fmap_app, NoDup_app, last_item_snoc. intros (Hnd & Hd & _) Hin.
  apply elem_of_app in Hin as [Hin|Hin%list_elem_of_singleton].
  - assert (Name x ≠ Name item) as Hne.
    { intros E. apply (Hd (Name item)); [by apply list_elem_of_fmap_2|]. rewrite <-E. by left. }
    rewrite decide_False by tauto. by apply IH.
  - subst x. destruct (decide (P item)) as [Hp|Hp]; [by rewrite decide_True|]. rewrite decide_False by tauto.
    unfold last_item. destruct (filter _ items) as [|y l] eqn:Ey; [done|]. exfalso.
    assert (Hy : y ∈ filter (λ i, Name i = Name item ∧ P i) items) by (rewrite Ey; left).
    apply list_elem_of_filter in Hy as [[E _] Hy]. apply (Hd (Name item)); [rewrite <-E; by apply list_elem_of_fmap_2|by left].
Qed.

Lemma valid_name item : valid_pip item → 8 ≤ length (bytes_of (Name item)).
Proof.
  intros [(al & E & _) _]. unfold trim in E.
  assert (length (TrimSpace (bytes_of (Name item))) ≤ length (bytes_of (Name item))) as H.
  { unfold TrimSpace. destruct (TrimRight_prefix (trim_left (length (bytes_of (Name item))) space_texts (bytes_of (Name item)))) as [p Hp].
    destruct (trim_left_suffix (length (bytes_of (Name item))) space_texts (bytes_of (Name item))) as [q Hq].
    apply (f_equal length) in Hp, Hq. rewrite length_app in Hp, Hq. lia. }
  rewrite E, length_app in H. change (length (bytes_of "subject.")) with 8 in H. lia.
Qed.

Definition when {A} (t : string) (item : SimplifiedPIP) (a : A) : option A := if decide (has_type t item) then Some a else None.

(** The entries of an item: one in the index of names, and one in the map of its type only. *)
Definition entered (n : NormalizedPIPs) (item : SimplifiedPIP) : Prop :=
  let name := Name item in
  ByName n !! name = Some (entry item (alias name))
  ∧ Token n !! name = when PipTypeToken item (token_config item (alias name))
  ∧ HeaderPIPs n !! name = when PipTypeHeader item (header_config item (alias name))
  ∧ General n !! name = when PipTypeGeneral item (general_config item (alias name))
  ∧ resolvePipType item ∈ [PipTypeToken; PipTypeHeader; PipTypeGeneral].

(** A call the agent can make: it ends within the bounds, and carries a body exactly when it
    is a POST. *)
Definition callable (g : GeneralPIPConfig) : Prop :=
  G_HTTPMethod g ∈ ["GET"; "POST"]%string ∧ (G_Body g ≠ [] ↔ G_HTTPMethod g = "POST"%string)
  ∧ (MinGeneralTimeoutSeconds ≤ G_TimeoutSeconds g ≤ MaxGeneralTimeoutSeconds)%Z
  ∧ templates (G_SetHeaders g) ∧ templates (G_Query g) ∧ (G_ForwardHeaders g = [] ∨ G_SetHeaders g = ∅).

Lemma clamp_bounds v : (MinGeneralTimeoutSeconds ≤ clampTimeoutSeconds v ≤ MaxGeneralTimeoutSeconds)%Z.
Proof.
  unfold clampTimeoutSeconds, MinGeneralTimeoutSeconds, MaxGeneralTimeoutSeconds, DefaultGeneralTimeoutSeconds.
  destruct v as [v|]; [|lia]. repeat case_match; bool_simp; lia.
Qed.

Lemma parseHeaders_one raw forward set : parseHeaders raw = Ok (forward, set) → forward = [] ∨ set = ∅.
Proof. unfold parseHeaders. repeat case_match; naive_solver. Qed.

Lemma general_callable item a : valid_general item → callable (general_config item a).
Proof.
  intros (_ & Hm & _ & Hget & (forward & set & Eh & Hset) & _ & Hq & _ & _ & _). unfold callable, general_config.
  rewrite Eh. cbn [G_HTTPMethod G_Body G_TimeoutSeconds G_SetHeaders G_Query G_ForwardHeaders].
  assert (Hmeth : effective_method item = bytes_of "GET" ∧ Body item = [] ∨ effective_method item = bytes_of "POST").
  { unfold effective_method. rewrite !elem_of_cons, elem_of_nil in Hm. destruct Hm as [E|[E|[E|[]]]]; rewrite E; [by right|left|by right].
    split; [done|]. by apply Hget. }
  split_and!; [| |by apply clamp_bounds|by apply clamp_bounds|done|done|by eapply parseHeaders_one].
  - destruct Hmeth as [[-> _]| ->]; [by left|by right; left].
  - destruct Hmeth as [[-> _]| ->]; [split; [done|by intros E; vm_compute in E]|]. split; [done|]. intros _.
    unfold buildGeneralBody. rewrite eqb_refl. by destruct (Body item).
Qed.

(** C28: a list that [Validate] accepts is normalised without a panic, every item of it is
    entered once and under its own type only, and every call of the document is one the
    agent can make. *)
Theorem validated_pips items :
  Validate items = Ok tt →
  ∃ d s, NormalizeItems items = Some (d, s) ∧ (∀ item, item ∈ items → entered (Normalized d) item)
         ∧ (∀ name, is_Some (ByName (Normalized d) !! name) ↔ name ∈ Name <$> items)
         ∧ ∀ name g, General (Normalized d) !! name = Some g → callable g.
Proof.
  intros [Hv Hnd]%pips_Ok. pose proof (NormalizeItems_spec items) as [Hnone Hsome].
  destruct (NormalizeItems items) as [[d s]|].
  2: { exfalso. destruct (proj1 Hnone eq_refl) as (item & Hin & Hl). rewrite Forall_forall in Hv.
    pose proof (valid_name item (Hv item Hin)). lia. }
  destruct (Hsome d s eq_refl) as (_ & (HN & HT & HH & HG & _) & _). exists d, s. split; [done|].
  assert (Hlast : ∀ P (dec : ∀ x, Decision (P x)) item, item ∈ items → last_item P (Name item) items = if decide (P item) then Some item else None)
    by (intros; by apply unique_last). rewrite Forall_forall in Hv. split_and!.
  - intros item Hin. unfold entered, when. rewrite HN, HT, HH, HG, !Hlast by done. rewrite decide_True by done.
    split_and!; [done|by case_decide..|]. rewrite !elem_of_cons. destruct (Hv item Hin) as [_ [[-> _]|[[-> _]|[-> _]]]]; tauto.
  - intros name. rewrite HN, fmap_is_Some. split.
    + intros [item Hl]. unfold last_item in Hl. apply last_Some_elem_of, list_elem_of_filter in Hl as [[<- _] Hin]. by apply list_elem_of_fmap_2.
    + intros (item & -> & Hin)%list_elem_of_fmap. rewrite Hlast by done. by rewrite decide_True.
  - intros name g. rewrite HG. intros (item & Hl & ->)%fmap_Some. unfold last_item in Hl.
    apply last_Some_elem_of, list_elem_of_filter in Hl as [[_ Ht] Hin]. apply general_callable.
    destruct (Hv item Hin) as [_ [[Ht' _]|[[Ht' _]|(_ & _ & Hg)]]]; [| |done]; unfold has_type in Ht; rewrite Ht' in Ht; done.
Qed.

End validated.

(** ** Entitlements *)

(** The entry of the document is the one of the last configuration, whatever the document
    held before. *)
Theorem override_last_wins cfg cfg' n :
  ApplyEntitlementsOverride cfg' (ApplyEntitlementsOverride cfg n) = ApplyEntitlementsOverride cfg' n.
Proof.
  unfold ApplyEntitlementsOverride. destruct n as [byName aliases tokens headers general ent].
  assert (Hn : ∀ c e, Entry c = Some e → En_Alias e = EntitlementsPIPAlias).
  { intros [c|] e; [|done]. unfold Entry. case_match; [done|]. by intros [= <-]. }
  destruct (Entry cfg) as [e|] eqn:E, (Entry cfg') as [e'|] eqn:E'; cbn [ByName AliasSet Token HeaderPIPs General Entitlements]; f_equal;
    rewrite ?(Hn _ _ E), ?(Hn _ _ E');
    first [apply insert_insert_eq|apply delete_insert_eq|apply insert_delete_eq|apply delete_delete_eq
          |apply set_eq; intros a; destruct (decide (a = EntitlementsPIPAlias)); set_solver].
Qed.

Lemma Atoi_range s z : Atoi s = Some z → in_int64 z.
Proof.
  unfold Atoi, in_int64. repeat case_match; try done; intros [= <-]; bool_simp; lia.
Qed.

(** A timeout or a number of attempts from the environment is positive and fits an [int]. *)
Lemma envIntOrDefault_range raw fallback :
  (0 < fallback < 2 ^ 63)%Z → (0 < envIntOrDefault raw fallback < 2 ^ 63)%Z.
Proof.
  intros Hf. unfold envIntOrDefault. destruct (Atoi (trim raw)) as [z|] eqn:E; [|done]. apply Atoi_range in E. unfold in_int64 in E.
  case_match; bool_simp; lia.
Qed.

(** ** Examples *)

Definition example_item (name : string) : SimplifiedPIP :=
  MkPIP name EmptyString EmptyString EmptyString EmptyString EmptyString EmptyString None EmptyString EmptyString ∅ []
    EmptyString EmptyString ∅ [] None None.

Definition example_json (s : string) : bytes := map (λ c, if eqb c "'"%char then "034"%char else c) (bytes_of s).

Definition example_call : SimplifiedPIP :=
  MkPIP "subject.limits" "general" "https://api/${subject.id}?x=1" EmptyString EmptyString EmptyString EmptyString (Some (bytes_of "0"))
    EmptyString EmptyString {["region" := "${resource.region[0]}"%string]} (example_json "['X-Tenant', 'X-User']")
    EmptyString EmptyString ∅ [] (Some 300%Z)
    (Some (MkResponseSpec (example_json " {'max': {'path': '$.limits[*].max', 'coerce': 'number[]'}} ") EmptyString "defaultValue")).

Definition example_pips : list SimplifiedPIP :=
  [ MkPIP "subject.region" EmptyString EmptyString EmptyString EmptyString "region" EmptyString None EmptyString EmptyString ∅ []
      EmptyString EmptyString ∅ [] None None;
    MkPIP "subject.trace" "header" EmptyString EmptyString "X-Trace" EmptyString EmptyString None EmptyString EmptyString ∅ []
      EmptyString EmptyString ∅ [] None None;
    example_call ].

Example example_general :
  let case := latin_case in
  general_config example_call "limits"
  = MkGeneral "subject.limits" "limits" "https://api/${subject.id}?x=1" "POST" ∅ ["X-Tenant"; "X-User"]%string ∅
      (example_json "{'id':'${subject.id}','filters':null,'requestAttributes':{'region':'${resource.region[0]}'}}") 30
      (Some (MkResponse (example_json " {'max': {'path': '$.limits[*].max', 'coerce': 'number[]'}} ") EmptyString "defaultValue"))
      (Some (bytes_of "0")).
Proof. vm_compute. reflexivity. Qed.

Example example_refusals :
  let case := latin_case in
  Validate [example_item "limits"] = Err (0, NamePrefix)
  ∧ Validate (example_pips ++ [example_call]) = Err (3, DuplicateName 2)
  ∧ Validate [example_item "subject.a"] = Err (0, URLRequired)
  ∧ NormalizeItems [example_item "limits"] = None.
Proof. split_and!; vm_compute; reflexivity. Qed.

Lemma example_accepted : Validate (case := latin_case) example_pips = Ok tt.
Proof. vm_compute. reflexivity. Qed.

Lemma validated_pips_witness :
  Validate (case := latin_case) example_pips = Ok tt ∧
  ∃ d s, NormalizeItems (case := latin_case) example_pips = Some (d, s)
    ∧ (∀ item, item ∈ example_pips → entered (case := latin_case) (Normalized d) item)
    ∧ (∀ name, is_Some (ByName (Normalized d) !! name) ↔ name ∈ Name <$> example_pips)
    ∧ ∀ name g, General (Normalized d) !! name = Some g → callable g.
Proof.
  split; [exact example_accepted|]. exact (@validated_pips latin_case example_pips example_accepted).
Defined.

End Pips.
