(* ===== verification/Acconfig.v ===== *)
(** * Conversion of access-control exports ([internal/acconfig/convert.go])

    The classification of target expressions, the role grammar, and the conversion of
    the decoded SIMPLIFIED policy sets into simplified policies with its skip counts.
    The scanner's [in] and [pos] are represented by the text from [pos] on, the only
    part of the input it reads. JSON decoding, the PIP half of the file and the log
    lines are not modelled here. *)
From S2P Require Import Prelude GoText.
Import GoText.

Module Acconfig.

(** ** The scanner *)

(** The white space of [skipSpace], and of [\s] less the form feed. *)
Definition is_gap (c : ascii) : bool := member c [" "; "009"; "010"; "013"]%char.

Definition skipSpace (s : bytes) : bytes := drop_while is_gap s.

Definition atEnd (s : bytes) : bool := match skipSpace s with [] => true | _ => false end.

(** What may follow a word. *)
Definition delimits (s : bytes) : bool :=
  match s with
  | [] => true
  | c :: _ => is_gap c || eqb c "'"%char || eqb c ","%char
  end.

Definition acceptWord (word : bytes) (s : bytes) : option bytes :=
  let s := skipSpace s in
  if (length word <=? length s) && foldEq (take (length word) s) word && delimits (drop (length word) s)
  then Some (drop (length word) s) else None.

Definition acceptByte (b : ascii) (s : bytes) : option bytes :=
  match skipSpace s with
  | c :: s => if eqb c b then Some s else None
  | [] => None
  end.

Definition is_blank (s : bytes) : bool := match TrimSpace s with [] => true | _ => false end.

Definition not_quote (c : ascii) : bool := negb (eqb c "'"%char).

Definition acceptQuoted (s : bytes) : option (bytes * bytes) :=
  s ← acceptByte "'" s;
  match span not_quote s with
  | (lit, _ :: rest) => if is_blank lit then None else Some (lit, rest)
  | (_, []) => None
  end.

Definition add_role (role : bytes) (roles : list bytes) : list bytes :=
  if member role roles then roles else roles ++ [role].

(** The inner loop: the operands of one clause. [fuel] bounds the turns; each consumes
    the two quotes of a literal. *)
Fixpoint operands (fuel : nat) (roles : list bytes) (s : bytes) : option (list bytes * bytes) :=
  match fuel with
  | 0 => None
  | S fuel =>
      '(role, s) ← acceptQuoted s;
      let roles := add_role role roles in
      match acceptByte "," s with
      | Some s => operands fuel roles s
      | None => Some (roles, s)
      end
  end.

(** The outer loop. A scanner that refused a token has skipped the space before it,
    which the next token skips too. *)
Fixpoint clauses (fuel : nat) (roles : list bytes) (s : bytes) : option (list bytes) :=
  match fuel with
  | 0 => None
  | S fuel =>
      s ← acceptWord (bytes_of "subject.roles") s;
      s ← acceptWord (bytes_of "CONTAINS") s;
      let s := default s (acceptWord (bytes_of "ANY") s) in
      '(roles, s) ← operands (length s) roles s;
      if atEnd s then (if eqb roles [] then None else Some roles)
      else s ← acceptWord (bytes_of "OR") s; clauses fuel roles s
  end.

Definition parseRoleExpression (expr : bytes) : option (list bytes) := clauses (length expr) [] expr.

(** ** Targets *)

(** One letter of a pattern under [(?i)]: in either case, or as the rune past ASCII that
    folds to it, which only [s] and [k] have. *)
Definition fold_letter (c : ascii) (s : bytes) : option bytes :=
  match s with
  | x :: s' =>
      if eqb (lower x) (lower c) then Some s'
      else if eqb (lower c) "s"%char then cutPrefix ["197"; "191"]%char s
      else if eqb (lower c) "k"%char then cutPrefix ["226"; "132"; "170"]%char s
      else None
  | [] => None
  end.

Fixpoint fold_word (word s : bytes) : option bytes :=
  match word with
  | [] => Some s
  | c :: word => s ← fold_letter c s; fold_word word s
  end.

Definition is_regex_space (c : ascii) : bool := member c [" "; "009"; "010"; "012"; "013"]%char.

(** [\s+]. *)
Definition some_space (s : bytes) : option bytes :=
  match span is_regex_space s with
  | ([], _) => None
  | (_, rest) => Some rest
  end.

(** [(?i)^word\s+(?:==|EQUALS)\s+'([^']+)'$]: the literal. *)
Definition equals_pattern (word : string) (t : bytes) : option bytes :=
  t ← fold_word (bytes_of word) t;
  t ← some_space t;
  t ← (match cutPrefix (bytes_of "==") t with
       | Some t => Some t
       | None => fold_word (bytes_of "EQUALS") t
       end);
  t ← some_space t;
  t ← cutPrefix ["'"%char] t;
  match span not_quote t with
  | ([], _) => None
  | (value, rest) => if decide (rest = ["'"%char]) then Some value else None
  end.

Inductive parsedTarget :=
  | targetUnknown
  | targetAny
  | targetResourceType (value : bytes)
  | targetOperation (value : bytes)
  | targetRoles (roles : list bytes).

Definition parseTarget (target : string) : parsedTarget :=
  let t := TrimSpace (bytes_of target) in
  if eqb t [] || foldEq t (bytes_of "true") then targetAny
  else
    match equals_pattern "resourceType" t with
    | Some v => targetResourceType v
    | None =>
        match equals_pattern "operation" t with
        | Some v => targetOperation v
        | None =>
            match parseRoleExpression t with
            | Some roles => targetRoles roles
            | None => targetUnknown
            end
        end
    end.

Definition all_operations : bytes := bytes_of "ALL".

Definition resolveOperationAndRoles (policy rule : parsedTarget) : option (bytes * list bytes) :=
  match policy, rule with
  | targetOperation op, targetRoles roles => Some (op, roles)
  | targetOperation op, targetAny => Some (op, [])
  | targetRoles roles, targetOperation op => Some (op, roles)
  | targetAny, targetOperation op => Some (op, [])
  | targetRoles roles, targetAny => Some (all_operations, roles)
  | targetAny, targetRoles roles => Some (all_operations, roles)
  | targetAny, targetAny => Some (all_operations, [])
  | _, _ => None
  end.

(** ** Policy sets *)

(** The decoded export, with the fields the conversion reads. *)
Record RuleV3 := MkRuleV3 {
  RuleID : string;
  RuleTarget : string;
  RuleCondition : option string;
  Effect : string;
  RSQLPredicate : string;
  SQLPredicate : string;
  MongoDBPredicate : string;
  Predicate : string;
}.

Record PolicyV3 := MkPolicyV3 { PolicyID : string; PolicyTarget : string; Rules : list RuleV3 }.

Record PolicySetV3 := MkPolicySetV3 {
  PolicySetID : string;
  SetName : string;
  SetType : string;
  Domain : string;
  SetTarget : string;
  TenantID : string;
  Policies : list PolicyV3;
}.

(** [simplifiedpolicies.Policy], whose condition is absent or a string here. *)
Record SimplifiedPolicy := MkSimplifiedPolicy {
  Component : string;
  ResourceType : string;
  Operation : string;
  Roles : list string;
  Condition : option string;
  SP_RSQLPredicate : string;
  SP_SQLPredicate : string;
  SP_MongoDBPredicate : string;
  QueryDSLPredicate : string;
}.

Record Stats := MkStats {
  st_PolicySets : Z;
  st_PolicySetsSkipped : Z;
  st_Rules : Z;
  st_RulesSkipped : Z;
  st_RulesDenySkipped : Z;
  st_Policies : Z;
}.

Definition no_stats : Stats := MkStats 0 0 0 0 0 0.

(** [int] counters. *)
Definition count_set (st : Stats) : Stats :=
  MkStats (int64 (st_PolicySets st + 1)) (st_PolicySetsSkipped st) (st_Rules st) (st_RulesSkipped st) (st_RulesDenySkipped st) (st_Policies st).
Definition skip_set (st : Stats) : Stats :=
  MkStats (st_PolicySets st) (int64 (st_PolicySetsSkipped st + 1)) (st_Rules st) (st_RulesSkipped st) (st_RulesDenySkipped st) (st_Policies st).
Definition count_rule (st : Stats) : Stats :=
  MkStats (st_PolicySets st) (st_PolicySetsSkipped st) (int64 (st_Rules st + 1)) (st_RulesSkipped st) (st_RulesDenySkipped st) (st_Policies st).
Definition skip_rule (st : Stats) : Stats :=
  MkStats (st_PolicySets st) (st_PolicySetsSkipped st) (st_Rules st) (int64 (st_RulesSkipped st + 1)) (st_RulesDenySkipped st) (st_Policies st).
Definition skip_deny (st : Stats) : Stats :=
  MkStats (st_PolicySets st) (st_PolicySetsSkipped st) (st_Rules st) (st_RulesSkipped st) (int64 (st_RulesDenySkipped st + 1)) (st_Policies st).

(** A text that is kept only when it is not blank. *)
Definition unless_blank (s : string) : string := if is_blank (bytes_of s) then EmptyString else s.

Definition convertRule (component : string) (resourceType : bytes) (policyTarget : parsedTarget) (rule : RuleV3)
    (st : Stats) : list SimplifiedPolicy * Stats :=
  let st := count_rule st in
  if eqb (Effect rule) "DENY"%string then ([], skip_deny st)
  else
    match resolveOperationAndRoles policyTarget (parseTarget (RuleTarget rule)) with
    | None => ([], skip_rule st)
    | Some (operation, roles) =>
        ([MkSimplifiedPolicy component (string_of resourceType) (string_of operation) (string_of <$> roles)
            (match RuleCondition rule with
             | Some c => if is_blank (bytes_of c) then None else Some c
             | None => None
             end)
            (unless_blank (RSQLPredicate rule)) (unless_blank (SQLPredicate rule))
            (unless_blank (MongoDBPredicate rule)) (unless_blank (Predicate rule))], st)
    end.

(** A loop that appends to a result and counts in [st]. *)
Fixpoint collect {A B St} (f : A → St → list B * St) (l : list A) (st : St) : list B * St :=
  match l with
  | [] => ([], st)
  | x :: l => let '(bs, st) := f x st in let '(rest, st) := collect f l st in (bs ++ rest, st)
  end.

Definition coalesce (a b : string) : string := if eqb a EmptyString then b else a.

Definition convertPolicy (component : string) (resourceType : bytes) (p : PolicyV3) (st : Stats) :
    list SimplifiedPolicy * Stats :=
  collect (convertRule component resourceType (parseTarget (PolicyTarget p))) (Rules p) st.

Definition convertPolicySet (ps : PolicySetV3) (st : Stats) : list SimplifiedPolicy * Stats :=
  let st := count_set st in
  let resourceType :=
    match parseTarget (SetTarget ps) with
    | targetResourceType v => Some v
    | targetAny => Some (bytes_of "ALL")
    | _ => None
    end in
  match resourceType with
  | None => ([], skip_set st)
  | Some resourceType =>
      let component := coalesce (coalesce (Domain ps) (TenantID ps)) "default" in
      collect (convertPolicy component resourceType) (Policies ps) st
  end.

Definition convertPolicySets (sets : list PolicySetV3) (st : Stats) : list SimplifiedPolicy * Stats :=
  collect (λ ps st, if negb (eqb (SetType ps) "SIMPLIFIED"%string) then ([], st) else convertPolicySet ps st) sets st.

(** [ConvertPolicySets] on the decoded sets. *)
Definition ConvertPolicySets (sets : list PolicySetV3) : list SimplifiedPolicy * Stats :=
  let '(policies, st) := convertPolicySets sets no_stats in
  (policies, MkStats (st_PolicySets st) (st_PolicySetsSkipped st) (st_Rules st) (st_RulesSkipped st)
               (st_RulesDenySkipped st) (Z.of_nat (length policies))).

Example parseTarget_examples :
  parseTarget "subject.roles CONTAINS 'A OR B' or Subject.Roles contains any 'X' , 'A OR B','Y' "
    = targetRoles (bytes_of <$> ["A OR B"; "X"; "Y"]%string)
  ∧ parseTarget " TRUE " = targetAny
  ∧ parseTarget "resourcetype equals 'Order'" = targetResourceType (bytes_of "Order")
  ∧ parseTarget "operation == 'Read'" = targetOperation (bytes_of "Read")
  ∧ parseTarget "subject.roles CONTAINS ' '" = targetUnknown
  ∧ parseTarget "subject.roles CONTAINSFOO 'A'" = targetUnknown.
Proof. repeat split; reflexivity. Qed.

(** ** The role grammar *)

Definition gap (s : bytes) : Prop := Forall (λ c, is_gap c = true) s.

(** A role literal: no quote in it, and not blank. *)
Definition role_literal (lit : bytes) : Prop := Forall (λ c, not_quote c = true) lit ∧ is_blank lit = false.

(** [operands := "'" role "'" ( "," "'" role "'" )*], with space before each token. *)
Inductive operand_list : list bytes → bytes → Prop :=
  | operand_one sp lit : gap sp → role_literal lit → operand_list [lit] (sp ++ "'"%char :: lit ++ ["'"%char])
  | operand_more sp lit sp' lits s :
      gap sp → role_literal lit → gap sp' → operand_list lits s →
      operand_list (lit :: lits) (sp ++ "'"%char :: lit ++ "'"%char :: sp' ++ ","%char :: s).

(** A word in any letter case, with space before it. *)
Inductive word (w : string) : bytes → Prop :=
  | word_intro sp x : gap sp → foldEq x (bytes_of w) = true → word w (sp ++ x).

(** [clause := "subject.roles" ( "CONTAINS" | "CONTAINS ANY" ) operands]. *)
Inductive role_clause : list bytes → bytes → Prop :=
  | clause_contains x y o lits :
      word "subject.roles" x → word "CONTAINS" y → delimits y = true → operand_list lits o →
      role_clause lits (x ++ y ++ o)
  | clause_contains_any x y z o lits :
      word "subject.roles" x → word "CONTAINS" y → word "ANY" z → delimits y = true → delimits z = true →
      operand_list lits o → role_clause lits (x ++ y ++ z ++ o).

(** [expr := clause ( "OR" clause )*], and the literals in order. *)
Inductive role_expr : list bytes → bytes → Prop :=
  | expr_clause lits s sp : role_clause lits s → gap sp → role_expr lits (s ++ sp)
  | expr_or lits s o lits' s' :
      role_clause lits s → word "OR" o → role_expr lits' s' → delimits s' = true →
      role_expr (lits ++ lits') (s ++ o ++ s').

(** The distinct literals, in the order of their first occurrence. *)
Definition add_roles (roles lits : list bytes) : list bytes := fold_left (λ rs r, add_role r rs) lits roles.

Lemma skipSpace_gap sp s : gap sp → skipSpace (sp ++ s) = skipSpace s.
Proof.
  intros H. unfold skipSpace, drop_while. induction H as [|c sp Hc H IH]; [done|]. simpl. rewrite Hc.
  rewrite <-IH. by destruct (span is_gap (sp ++ s)).
Qed.

Lemma skipSpace_solid c s : is_gap c = false → skipSpace (c :: s) = c :: s.
Proof. intros H. unfold skipSpace, drop_while. simpl. by rewrite H. Qed.

Lemma skipSpace_split s : ∃ sp, s = sp ++ skipSpace s ∧ gap sp.
Proof. exists (take_while is_gap s). split; [symmetry; apply take_drop_while|apply take_while_all]. Qed.

Lemma foldEq_length x w : foldEq x w = true → length x = length w.
Proof. intros H. apply foldEq_true in H. by rewrite <-(length_fmap lower x), H, length_fmap. Qed.

Lemma lower_gap c : is_gap (lower c) = is_gap c.
Proof.
  destruct (within "A" c "Z") eqn:E; [|by unfold lower; rewrite E].
  assert (is_gap c = false ∧ is_gap (lower c) = false) as [-> ->]; [|done].
  destruct c as [[] [] [] [] [] [] [] []]; by vm_compute in E |- *.
Qed.

(** The words of the grammar start with a letter. *)
Lemma foldEq_head x a w : foldEq x (a :: w) = true → is_gap a = false →
  ∃ c x', x = c :: x' ∧ is_gap c = false ∧ lower c = lower a.
Proof.
  intros H Ha. apply foldEq_true in H. destruct x as [|c x]; [done|]. injection H as Hc _.
  exists c, x. split_and!; [done|by rewrite <-lower_gap, Hc, lower_gap|done].
Qed.

Lemma acceptWord_Some a w s r :
  is_gap a = false →
  acceptWord (a :: w) s = Some r ↔
  ∃ sp x, s = sp ++ x ++ r ∧ gap sp ∧ foldEq x (a :: w) = true ∧ delimits r = true.
Proof.
  intros Ha. unfold acceptWord. split.
  - destruct (skipSpace_split s) as (sp & Hs & Hsp). set (k := skipSpace s) in *.
    destruct ((length (a :: w) <=? length k) && foldEq (take (length (a :: w)) k) (a :: w)
              && delimits (drop (length (a :: w)) k)) eqn:E; [|done].
    intros [= <-]. rewrite !andb_true_iff in E. destruct E as [[_ Hf] Hd].
    exists sp, (take (length (a :: w)) k). split_and!; [by rewrite take_drop|done..].
  - intros (sp & x & -> & Hsp & Hf & Hd). rewrite skipSpace_gap by done.
    pose proof (foldEq_length _ _ Hf) as Hl.
    destruct (foldEq_head _ _ _ Hf Ha) as (c & x' & -> & Hc & _). rewrite <-app_comm_cons, skipSpace_solid, app_comm_cons by done.
    rewrite <-Hl, take_app_length, drop_app_length, Hf, Hd.
    rewrite (proj2 (Nat.leb_le _ _)); [done|]. rewrite length_app. lia.
Qed.

Lemma acceptWord_other a w c sp s :
  gap sp → is_gap a = false → is_gap c = false → lower c ≠ lower a → acceptWord (a :: w) (sp ++ c :: s) = None.
Proof.
  intros Hsp Ha Hc Hne. destruct (acceptWord (a :: w) (sp ++ c :: s)) as [r|] eqn:E; [|done].
  apply acceptWord_Some in E as (sp' & x & E & Hsp' & Hf & _); [|done].
  destruct (foldEq_head _ _ _ Hf Ha) as (d & x' & -> & Hd & Hl).
  apply (f_equal skipSpace) in E. rewrite !skipSpace_gap, <-app_comm_cons, !skipSpace_solid in E by done.
  injection E as -> _. done.
Qed.

Lemma acceptByte_Some b s r :
  is_gap b = false → acceptByte b s = Some r ↔ ∃ sp, s = sp ++ b :: r ∧ gap sp.
Proof.
  intros Hb. unfold acceptByte. split.
  - destruct (skipSpace_split s) as (sp & Hs & Hsp). destruct (skipSpace s) as [|c k]; [done|].
    destruct (eqb c b) eqn:E; [|done]. apply eqb_true in E as ->. intros [= <-]. eauto.
  - intros (sp & -> & Hsp). rewrite skipSpace_gap, skipSpace_solid by done. by rewrite eqb_refl.
Qed.

Lemma acceptQuoted_Some s lit r :
  acceptQuoted s = Some (lit, r) ↔
  ∃ sp, s = sp ++ "'"%char :: lit ++ "'"%char :: r ∧ gap sp ∧ role_literal lit.
Proof.
  unfold acceptQuoted, role_literal. split.
  - destruct (acceptByte "'" s) as [k|] eqn:E; [|done]. simpl.
    apply acceptByte_Some in E as (sp & -> & Hsp); [|done].
    destruct (span not_quote k) as [l [|q rest]] eqn:Es; [done|].
    destruct (is_blank l) eqn:Eb; [done|]. intros [= <- <-]. exists sp.
    pose proof (span_head _ _ _ _ Es q eq_refl) as Hq. unfold not_quote in Hq. apply negb_false_iff, eqb_true in Hq as ->.
    split_and!; [by rewrite (span_app _ _ _ _ Es)|done|by eapply span_all|done].
  - intros (sp & -> & Hsp & Hl & Hb).
    rewrite (proj2 (acceptByte_Some "'" _ (lit ++ "'"%char :: r) eq_refl)) by eauto. simpl.
    rewrite span_spec by (try done; by intros ? [= <-]). by rewrite Hb.
Qed.

Lemma operands_Some f roles s roles' r :
  operands f roles s = Some (roles', r) →
  ∃ lits x, s = x ++ r ∧ operand_list lits x ∧ roles' = add_roles roles lits ∧ acceptByte "," r = None.
Proof.
  revert roles s. induction f as [|f IH]; intros roles s; [done|]. cbn [operands].
  destruct (acceptQuoted s) as [[lit k]|] eqn:E; [|done]. cbn [mbind option_bind].
  apply acceptQuoted_Some in E as (sp & -> & Hsp & Hl).
  destruct (acceptByte "," k) as [k'|] eqn:Ec.
  - intros H. apply IH in H as (lits & x & -> & Hx & -> & Hn).
    apply acceptByte_Some in Ec as (sp' & -> & Hsp'); [|done].
    exists (lit :: lits), (sp ++ "'"%char :: lit ++ "'"%char :: sp' ++ ","%char :: x).
    split_and!; [|by constructor|done|done].
    rewrite <-!(assoc_L (++)). cbn [app]. rewrite <-!(assoc_L (++)). cbn [app]. by rewrite <-!(assoc_L (++)).
  - intros [= <- <-]. exists [lit], (sp ++ "'"%char :: lit ++ ["'"%char]).
    split_and!; [|by constructor|done|done].
    rewrite <-!(assoc_L (++)). cbn [app]. by rewrite <-!(assoc_L (++)).
Qed.

Lemma operands_reads lits x : operand_list lits x → ∀ f roles r,
  acceptByte "," r = None → length x ≤ f → operands f roles (x ++ r) = Some (add_roles roles lits, r).
Proof.
  induction 1 as [sp lit Hsp Hl|sp lit sp' lits s Hsp Hl Hsp' Hs IH]; intros f roles r Hr Hf;
    (destruct f as [|f]; [rewrite length_app in Hf; simpl in Hf; lia|]); cbn [operands].
  - rewrite (proj2 (acceptQuoted_Some _ lit r)).
    + cbn [mbind option_bind]. by rewrite Hr.
    + exists sp. split_and!; [|done..]. rewrite <-(assoc_L (++)). cbn [app]. by rewrite <-(assoc_L (++)).
  - rewrite (proj2 (acceptQuoted_Some _ lit (sp' ++ ","%char :: s ++ r))).
    + cbn [mbind option_bind]. rewrite (proj2 (acceptByte_Some "," _ (s ++ r) eq_refl)) by eauto.
      apply IH; [done|]. rewrite !length_app in Hf. simpl in Hf. rewrite !length_app in Hf. simpl in Hf.
      rewrite length_app in Hf. simpl in Hf. lia.
    + exists sp. split_and!; [|done..]. rewrite <-(assoc_L (++)). cbn [app]. rewrite <-(assoc_L (++)). cbn [app].
      by rewrite <-(assoc_L (++)).
Qed.

Lemma operand_list_head lits o r : operand_list lits o →
  ∃ sp k, o ++ r = sp ++ "'"%char :: k ∧ gap sp.
Proof. destruct 1; rewrite <-(assoc_L (++)); cbn [app]; eauto. Qed.

Lemma operand_list_nonempty lits o : operand_list lits o → lits ≠ [].
Proof. by destruct 1. Qed.

Lemma delimits_gap sp c s : gap sp → delimits (c :: s) = true → delimits (sp ++ c :: s) = true.
Proof. destruct 1 as [|d sp Hd]; [done|]. simpl. by rewrite Hd. Qed.

Lemma delimits_app x y : x ≠ [] → delimits (x ++ y) = delimits x.
Proof. by destruct x. Qed.

Lemma operand_list_delimits lits o r : operand_list lits o → delimits (o ++ r) = true.
Proof. intros H. destruct (operand_list_head _ _ r H) as (sp & k & -> & Hsp). by apply delimits_gap. Qed.

Lemma word_nonempty a w x : word (String a w) x → x ≠ [].
Proof. intros [sp y Hsp Hf] E. apply foldEq_length in Hf. destruct sp, y; done. Qed.

Lemma add_role_nonempty r roles : add_role r roles ≠ [].
Proof.
  unfold add_role. destruct (member r roles) eqn:E; [|by destruct roles].
  apply member_true in E. by destruct roles; [apply elem_of_nil in E|].
Qed.

Lemma add_roles_nonempty lits roles : lits ≠ [] → add_roles roles lits ≠ [].
Proof.
  intros H. destruct lits as [|l lits] using rev_ind; [done|]. unfold add_roles.
  rewrite fold_left_app. apply add_role_nonempty.
Qed.

Lemma add_roles_app roles l l' : add_roles (add_roles roles l) l' = add_roles roles (l ++ l').
Proof. unfold add_roles. by rewrite fold_left_app. Qed.

(** A word is read back whatever follows it, if that delimits it. *)
Lemma word_read a w x r : is_gap a = false → word (String a w) x → delimits r = true →
  acceptWord (a :: bytes_of w) (x ++ r) = Some r.
Proof.
  intros Ha [sp y Hsp Hf] Hr. apply acceptWord_Some; [done|]. exists sp, y. by rewrite <-(assoc_L (++)).
Qed.

Lemma word_made a w s r : is_gap a = false → acceptWord (a :: bytes_of w) s = Some r →
  ∃ x, s = x ++ r ∧ word (String a w) x ∧ delimits r = true.
Proof.
  intros Ha H. apply acceptWord_Some in H as (sp & x & -> & Hsp & Hf & Hd); [|done].
  exists (sp ++ x). split_and!; [by rewrite (assoc_L (++))|by constructor|done].
Qed.

Lemma clauses_Some f roles s roles' :
  clauses f roles s = Some roles' → ∃ lits, role_expr lits s ∧ roles' = add_roles roles lits.
Proof.
  revert roles s. induction f as [|f IH]; intros roles s; [done|]. cbn [clauses].
  destruct (acceptWord (bytes_of "subject.roles") s) as [s1|] eqn:E1; [|done]. cbn [mbind option_bind].
  destruct (acceptWord (bytes_of "CONTAINS") s1) as [s2|] eqn:E2; [|done]. cbn [mbind option_bind].
  apply word_made in E1 as (x & -> & Hx & D1); [|done]. apply word_made in E2 as (y & -> & Hy & D2); [|done].
  assert (delimits y = true) as Dy by (rewrite delimits_app in D1; [done|by eapply word_nonempty]).
  set (s3 := default s2 (acceptWord (bytes_of "ANY") s2)).
  destruct (operands (length s3) roles s3) as [[rs s4]|] eqn:E4; [|done]. cbn [mbind option_bind].
  apply operands_Some in E4 as (lits & o & Eo & Ho & -> & Hc).
  assert (∃ c, role_clause lits c ∧ x ++ y ++ s2 = c ++ s4) as (c & Hcl & ->).
  { unfold s3 in Eo. destruct (acceptWord (bytes_of "ANY") s2) as [s3'|] eqn:E3; cbn [from_option id] in Eo.
    - apply word_made in E3 as (z & -> & Hz & D3); [|done]. subst s3'.
      exists (x ++ y ++ z ++ o). split; [|by rewrite <-!(assoc_L (++))].
      apply clause_contains_any; try done. rewrite delimits_app in D2; [done|by eapply word_nonempty].
    - subst s2. exists (x ++ y ++ o). split; [by apply clause_contains|by rewrite <-!(assoc_L (++))]. }
  destruct (atEnd s4) eqn:Ea.
  - destruct (eqb _ []); [done|]. intros [= <-]. exists lits. split; [|done]. constructor; [done|].
    unfold atEnd in Ea. destruct (skipSpace_split s4) as (sp & Es & Hsp). destruct (skipSpace s4); [|done].
    by rewrite Es, app_nil_r.
  - destruct (acceptWord (bytes_of "OR") s4) as [s5|] eqn:E5; [|done]. cbn [mbind option_bind]. intros H.
    apply IH in H as (lits' & He & ->). apply word_made in E5 as (w & -> & Hw & D5); [|done].
    exists (lits ++ lits'). split; [by constructor|by rewrite add_roles_app].
Qed.

Definition after_clause (f : nat) (roles : list bytes) (r : bytes) : option (list bytes) :=
  if atEnd r then Some roles else s ← acceptWord (bytes_of "OR") r; clauses f roles s.

Lemma clause_tail f roles lits o r :
  operand_list lits o → acceptByte "," r = None →
  ('(roles, s) ← operands (length (o ++ r)) roles (o ++ r);
   if atEnd s then (if eqb roles [] then None else Some roles)
   else s ← acceptWord (bytes_of "OR") s; clauses f roles s) = after_clause f (add_roles roles lits) r.
Proof.
  intros Ho Hr. rewrite (operands_reads lits) by (try done; rewrite length_app; lia).
  cbn [mbind option_bind]. unfold after_clause.
  rewrite (proj2 (eqb_false _ _)); [done|]. by apply add_roles_nonempty, (operand_list_nonempty _ o).
Qed.

Lemma clause_reads lits c f roles r :
  role_clause lits c → acceptByte "," r = None →
  clauses (S f) roles (c ++ r) = after_clause f (add_roles roles lits) r.
Proof.
  intros H Hr. cbn [clauses].
  destruct H as [x y o lits Hx Hy Dy Ho|x y z o lits Hx Hy Hz Dy Dz Ho]; rewrite <-!(assoc_L (++)).
  - pose proof (operand_list_delimits _ _ r Ho) as Do.
    rewrite (word_read "s" "ubject.roles") by first [done|rewrite delimits_app; [done|by eapply word_nonempty]].
    cbn [mbind option_bind].
    rewrite (word_read "C" "ONTAINS") by done. cbn [mbind option_bind].
    destruct (operand_list_head _ _ r Ho) as (sp & k & Ek & Hsp).
    assert (acceptWord (bytes_of "ANY") (o ++ r) = None) as ->.
    { rewrite Ek. by apply (acceptWord_other "A" (bytes_of "NY")). }
    cbn [from_option id]. by apply clause_tail.
  - pose proof (operand_list_delimits _ _ r Ho) as Do.
    rewrite (word_read "s" "ubject.roles") by first [done|rewrite delimits_app; [done|by eapply word_nonempty]].
    cbn [mbind option_bind].
    rewrite (word_read "C" "ONTAINS") by first [done|rewrite delimits_app; [done|by eapply word_nonempty]].
    cbn [mbind option_bind].
    rewrite (word_read "A" "NY") by done. cbn [from_option id]. by apply clause_tail.
Qed.

Lemma acceptByte_other b c sp s : gap sp → is_gap c = false → c ≠ b → acceptByte b (sp ++ c :: s) = None.
Proof.
  intros Hsp Hc Hne. unfold acceptByte. rewrite skipSpace_gap, skipSpace_solid by done.
  by rewrite (proj2 (eqb_false c b)).
Qed.

Lemma gap_atEnd sp : gap sp → skipSpace sp = [].
Proof. intros H. by rewrite <-(app_nil_r sp), skipSpace_gap. Qed.

Lemma role_expr_reads lits s : role_expr lits s → ∀ f roles, length s ≤ f →
  clauses f roles s = Some (add_roles roles lits).
Proof.
  assert (∀ l c, role_clause l c → c ≠ []) as Hne.
  { intros l c [x y o l' Hx _ _ _|x y z o l' Hx _ _ _ _ _]; apply word_nonempty in Hx; by destruct x. }
  induction 1 as [lits s sp Hc Hsp|lits s o lits' s' Hc Ho He IH Hd]; intros f roles Hf;
    pose proof (Hne _ _ Hc) as Hs; (destruct f as [|f]; [destruct s; simpl in Hf; [done|lia]|]).
  - rewrite (clause_reads lits s) by (try done; unfold acceptByte; by rewrite gap_atEnd).
    unfold after_clause, atEnd. by rewrite gap_atEnd.
  - pose proof (word_nonempty _ _ _ Ho) as Hon.
    rewrite (clause_reads lits s).
    + unfold after_clause. rewrite (word_read "O" "R") by done. cbn [mbind option_bind].
      assert (atEnd (o ++ s') = false) as ->.
      { destruct Ho as [sp x Hsp Hx]. destruct (foldEq_head x "O" (bytes_of "R") Hx eq_refl) as (c & x' & -> & Hg & _).
        unfold atEnd. by rewrite <-(assoc_L (++)), skipSpace_gap, <-app_comm_cons, skipSpace_solid. }
      rewrite IH, add_roles_app; [done|]. rewrite !length_app in Hf. destruct s; [done|]. simpl in Hf. lia.
    + done.
    + destruct Ho as [sp x Hsp Hx]. destruct (foldEq_head x "O" (bytes_of "R") Hx eq_refl) as (c & x' & -> & Hg & Hl).
      rewrite <-(assoc_L (++)). apply acceptByte_other; [done..|]. intros ->. by vm_compute in Hl.
Qed.

(** ** What a conversion keeps *)

Lemma role_clause_nonempty lits c : role_clause lits c → lits ≠ [].
Proof. destruct 1; by eapply operand_list_nonempty. Qed.

Lemma role_expr_nonempty lits e : role_expr lits e → lits ≠ [].
Proof.
  destruct 1 as [lits s sp Hc _|lits s o lits' s' Hc _ _ _]; apply role_clause_nonempty in Hc; [done|].
  by destruct lits.
Qed.

Lemma parseRoleExpression_nonempty e roles : parseRoleExpression e = Some roles → roles ≠ [].
Proof.
  intros H. apply clauses_Some in H as (lits & H & ->). by eapply add_roles_nonempty, role_expr_nonempty.
Qed.

Lemma parseTarget_roles t roles : parseTarget t = targetRoles roles → roles ≠ [].
Proof.
  unfold parseTarget. repeat case_match; try done. intros [= <-]. by eapply parseRoleExpression_nonempty.
Qed.

(** Every literal of a role target is more than space. *)
Lemma role_expr_literals lits s : role_expr lits s → Forall (λ r, is_blank r = false) lits.
Proof.
  assert (Ho : ∀ lits o, operand_list lits o → Forall (λ r, is_blank r = false) lits).
  { intros l o H. induction H as [sp lit Hsp [_ Hl]|sp lit sp' l o Hsp [_ Hl] Hsp' H IH]; by constructor. }
  assert (Hc : ∀ lits c, role_clause lits c → Forall (λ r, is_blank r = false) lits).
  { intros l c H. inversion H; subst; by eapply Ho. }
  intros H. induction H as [l c sp H|l c o l' s' H Hw H' IH]; [by eapply Hc|]. apply Forall_app. split; [by eapply Hc|done].
Qed.

Lemma parseRoleExpression_solid e roles : parseRoleExpression e = Some roles → Forall (λ r, is_blank r = false) roles.
Proof.
  intros (lits & H & ->)%clauses_Some. apply role_expr_literals in H. unfold add_roles.
  assert (Hr : Forall (λ r, is_blank r = false) (@nil bytes)) by constructor. revert Hr. generalize (@nil bytes).
  induction H as [|l lits Hl H IH]; intros rs Hrs; [done|]. cbn [fold_left]. apply IH. unfold add_role. case_match; [done|].
  apply Forall_app. by split; [|repeat constructor].
Qed.

Lemma parseTarget_solid t roles : parseTarget t = targetRoles roles → Forall (λ r, is_blank r = false) roles.
Proof. unfold parseTarget. repeat case_match; try done. intros [= <-]. by eapply parseRoleExpression_solid. Qed.

Lemma collect_elem {A B St} (f : A → St → list B * St) l st b :
  b ∈ (collect f l st).1 → ∃ x st', x ∈ l ∧ b ∈ (f x st').1.
Proof.
  revert st. induction l as [|x l IH]; intros st; simpl; [intros H; by apply elem_of_nil in H|].
  destruct (f x st) as [bs st1] eqn:E. destruct (collect f l st1) as [rest st2] eqn:E2. simpl.
  rewrite elem_of_app. intros [H|H].
  - exists x, st. rewrite E. set_solver.
  - destruct (IH st1) as (y & st' & Hy & Hb); [by rewrite E2|]. exists y, st'. set_solver.
Qed.

(** The policy [sp] comes from the rule [r] of the policy [p] of a converted set. *)
Definition comes_from (sets : list PolicySetV3) (sp : SimplifiedPolicy) (p : PolicyV3) (r : RuleV3) : Prop :=
  ∃ ps, ps ∈ sets ∧ SetType ps = "SIMPLIFIED"%string ∧ p ∈ Policies ps ∧ r ∈ Rules p ∧ Effect r ≠ "DENY"%string
  ∧ ∃ op roles, resolveOperationAndRoles (parseTarget (PolicyTarget p)) (parseTarget (RuleTarget r)) = Some (op, roles)
      ∧ Operation sp = string_of op ∧ Roles sp = string_of <$> roles.

Lemma converted_comes_from sets sp : sp ∈ (ConvertPolicySets sets).1 → ∃ p r, comes_from sets sp p r.
Proof.
  unfold ConvertPolicySets. destruct (convertPolicySets sets no_stats) as [ps st] eqn:E. simpl. intros H.
  assert (sp ∈ (convertPolicySets sets no_stats).1) as H1 by by rewrite E. clear H E.
  apply collect_elem in H1 as (set & st1 & Hset & H1).
  destruct (eqb (SetType set) "SIMPLIFIED"%string) eqn:Et; simpl in H1; [|by apply elem_of_nil in H1].
  apply (proj1 (eqb_true _ _)) in Et. unfold convertPolicySet in H1.
  destruct (match parseTarget (SetTarget set) with
            | targetResourceType v => Some v | targetAny => Some (bytes_of "ALL") | _ => None end) as [rt|];
    [|by apply elem_of_nil in H1].
  apply collect_elem in H1 as (p & st2 & Hp & H1). apply collect_elem in H1 as (r & st3 & Hr & H1).
  unfold convertRule in H1. destruct (eqb (Effect r) "DENY"%string) eqn:Ed; [by apply elem_of_nil in H1|].
  apply eqb_false in Ed.
  destruct (resolveOperationAndRoles _ _) as [[op roles]|] eqn:Er; [|by apply elem_of_nil in H1].
  apply list_elem_of_singleton in H1 as ->. exists p, r, set.
  split_and!; [done..|]. by exists op, roles.
Qed.

(** The counters of rules, less those of the rules dropped and of [n] policies. *)
Definition balanced (st st' : Stats) (n : nat) : Prop :=
  eq64 (st_Rules st' - st_RulesSkipped st' - st_RulesDenySkipped st')
       (st_Rules st - st_RulesSkipped st - st_RulesDenySkipped st + Z.of_nat n).

Lemma collect_balanced {A} (f : A → Stats → list SimplifiedPolicy * Stats) l st :
  (∀ x st, balanced st (f x st).2 (length (f x st).1)) →
  balanced st (collect f l st).2 (length (collect f l st).1).
Proof.
  intros Hf. revert st. induction l as [|x l IH]; intros st; simpl.
  - unfold balanced. simpl. by rewrite Z.add_0_r.
  - specialize (Hf x st). destruct (f x st) as [bs st1]. specialize (IH st1).
    destruct (collect f l st1) as [rest st2]. unfold balanced in *. simpl in *.
    rewrite IH, Hf, length_app, Nat2Z.inj_add. by rewrite Z.add_assoc.
Qed.

Lemma convertRule_balanced c rt pt r st :
  balanced st (convertRule c rt pt r st).2 (length (convertRule c rt pt r st).1).
Proof.
  unfold convertRule, balanced. destruct (eqb _ _); simpl.
  { rewrite !int64_eq64. unfold eq64. f_equal. lia. }
  destruct (resolveOperationAndRoles _ _) as [[op roles]|]; simpl; rewrite !int64_eq64; unfold eq64; f_equal; lia.
Qed.

Lemma convertPolicySet_balanced ps st :
  balanced st (convertPolicySet ps st).2 (length (convertPolicySet ps st).1).
Proof.
  unfold convertPolicySet.
  destruct (match parseTarget (SetTarget ps) with
            | targetResourceType v => Some v | targetAny => Some (bytes_of "ALL") | _ => None end) as [rt|].
  - apply (collect_balanced _ _ (count_set st)). intros p st1. apply collect_balanced.
    intros r st2. apply convertRule_balanced.
  - unfold balanced. simpl. by rewrite Z.add_0_r.
Qed.

Lemma collect_range {A B} (f : A → Stats → list B * Stats) l st :
  (∀ x st, in_int64 (st_Rules st) → in_int64 (st_Rules (f x st).2)) →
  in_int64 (st_Rules st) → in_int64 (st_Rules (collect f l st).2).
Proof.
  intros Hf. revert st. induction l as [|x l IH]; intros st H; [done|]. simpl.
  specialize (Hf x st H). destruct (f x st) as [bs st1]. specialize (IH st1 Hf).
  by destruct (collect f l st1).
Qed.

Lemma convertPolicySets_range sets : in_int64 (st_Rules (convertPolicySets sets no_stats).2).
Proof.
  apply collect_range; [|unfold in_int64; simpl; lia]. intros ps st H.
  destruct (negb _); [done|]. unfold convertPolicySet.
  destruct (match parseTarget (SetTarget ps) with
            | targetResourceType v => Some v | targetAny => Some (bytes_of "ALL") | _ => None end); [|done].
  apply collect_range; [|done]. intros p st1 H1. apply collect_range; [|done]. intros r st2 H2.
  unfold convertRule. destruct (eqb _ _); [apply int64_range|].
  destruct (resolveOperationAndRoles _ _) as [[op roles]|]; apply int64_range.
Qed.

(** The targets of a rule whose policy names no role. *)
Lemma without_roles_targets sets sp p r :
  comes_from sets sp p r → Roles sp = [] →
  ∀ t, t ∈ [PolicyTarget p; RuleTarget r] → parseTarget t = targetAny ∨ ∃ op, parseTarget t = targetOperation op.
Proof.
  intros (_ & _ & _ & _ & _ & _ & op & roles & E & _ & Hs) Hr.
  rewrite Hr in Hs. symmetry in Hs. apply fmap_nil_inv in Hs as ->.
  intros t Ht. pose proof (parseTarget_roles (PolicyTarget p)) as Hp. pose proof (parseTarget_roles (RuleTarget r)) as Hq.
  apply elem_of_cons in Ht as [->|Ht]; [|apply list_elem_of_singleton in Ht as ->];
    destruct (parseTarget (PolicyTarget p)), (parseTarget (RuleTarget r)); naive_solver.
Qed.

(** The roles of a converted policy are more than space. *)
Lemma converted_roles_solid sets sp p r :
  comes_from sets sp p r → Forall (λ role, is_blank (bytes_of role) = false) (Roles sp).
Proof.
  intros (_ & _ & _ & _ & _ & _ & op & roles & E & _ & ->).
  pose proof (parseTarget_solid (PolicyTarget p)) as Hp. pose proof (parseTarget_solid (RuleTarget r)) as Hq.
  assert (Hroles : Forall (λ role, is_blank role = false) roles).
  { destruct (parseTarget (PolicyTarget p)), (parseTarget (RuleTarget r)); cbn in E; simplify_eq; first [by apply Hp|by apply Hq|constructor]. }
  apply Forall_fmap. eapply Forall_impl; [exact Hroles|]. intros role H. cbn. by rewrite bytes_of_string_of.
Qed.

(** ** Properties *)

(** A converted policy without roles, which is open to every subject, comes only from a
    rule whose own target and policy target restrict no role: each is absent, true, or an
    operation. A role restriction that cannot be read drops the rule. *)
Theorem converted_without_roles sets sp :
  sp ∈ (ConvertPolicySets sets).1 → Roles sp = [] →
  ∃ p r, comes_from sets sp p r ∧
    ∀ t, t ∈ [PolicyTarget p; RuleTarget r] → parseTarget t = targetAny ∨ ∃ op, parseTarget t = targetOperation op.
Proof.
  intros H Hr. destruct (converted_comes_from _ _ H) as (p & r & Hc). exists p, r. split; [done|].
  by eapply without_roles_targets.
Qed.

(** The counts of a conversion add up: every rule reached is skipped as unreadable,
    skipped as a DENY, or one of the policies returned, up to the width of the counters. *)
Theorem conversion_stats sets :
  let '(policies, st) := ConvertPolicySets sets in
  st_Policies st = Z.of_nat (length policies)
  ∧ st_Rules st = int64 (st_RulesSkipped st + st_RulesDenySkipped st + Z.of_nat (length policies)).
Proof.
  unfold ConvertPolicySets.
  assert (balanced no_stats (convertPolicySets sets no_stats).2 (length (convertPolicySets sets no_stats).1)) as Hb.
  { apply collect_balanced. intros ps st. destruct (negb _).
    - unfold balanced. simpl. by rewrite Z.add_0_r.
    - apply convertPolicySet_balanced. }
  pose proof (convertPolicySets_range sets) as Hr.
  destruct (convertPolicySets sets no_stats) as [ps st]. simpl in *. split; [done|].
  unfold balanced in Hb. simpl in Hb.
  rewrite <-(int64_id (st_Rules st)) by done. apply eq64_int64.
  replace (st_Rules st) with (st_Rules st - st_RulesSkipped st - st_RulesDenySkipped st
    + (st_RulesSkipped st + st_RulesDenySkipped st))%Z by lia.
  rewrite Hb. unfold eq64. f_equal. lia.
Qed.

(** [parseRoleExpression] accepts exactly the texts of the role grammar of its comment,
    in any letter case and spacing, and returns their distinct role literals in the order
    of first occurrence. *)
Theorem parseRoleExpression_grammar e roles :
  parseRoleExpression e = Some roles ↔ ∃ lits, role_expr lits e ∧ roles = add_roles [] lits.
Proof.
  unfold parseRoleExpression. split; [apply clauses_Some|].
  intros (lits & H & ->). by apply role_expr_reads.
Qed.

(** A set whose rule is open to every subject, and one whose role target cannot be read. *)
Definition example_rule (target : string) : RuleV3 :=
  MkRuleV3 "r1" target (Some " ") "ALLOW" EmptyString " a==b " EmptyString " ".

Definition example_sets : list PolicySetV3 :=
  [MkPolicySetV3 "s1" "set" "SIMPLIFIED" EmptyString "resourceType == 'Order'" "BSS"
     [MkPolicyV3 "p1" "operation == 'READ'"
        [example_rule EmptyString; example_rule "subject.roles CONTAINS 'A" ; example_rule "subject.roles CONTAINS 'A'"]];
   MkPolicySetV3 "s2" "set" "SIMPLIFIED" EmptyString "subject.roles CONTAINS 'A'" "BSS" []].

Definition open_policy : SimplifiedPolicy :=
  MkSimplifiedPolicy "BSS" "Order" "READ" [] None EmptyString " a==b " EmptyString EmptyString.

Example converted_example :
  ConvertPolicySets example_sets
  = ([open_policy; MkSimplifiedPolicy "BSS" "Order" "READ" ["A"%string] None EmptyString " a==b " EmptyString EmptyString],
     MkStats 2 1 3 1 0 2).
Proof. vm_compute. reflexivity. Qed.

Lemma converted_without_roles_witness :
  ∃ p r, comes_from example_sets open_policy p r ∧
    ∀ t, t ∈ [PolicyTarget p; RuleTarget r] → parseTarget t = targetAny ∨ ∃ op, parseTarget t = targetOperation op.
Proof.
  apply converted_without_roles; [|reflexivity].
  assert ((ConvertPolicySets example_sets).1 !! 0 = Some open_policy) as H by (vm_compute; reflexivity).
  exact (list_elem_of_lookup_2 _ _ _ H).
Defined.

End Acconfig.
