(* ===== verification/AcconfigPips.v ===== *)
(** * Conversion of exported information points ([internal/acconfig/convert.go])

    The PIP half of the converter: which points are dropped, how headers of three forms and
    attributes of any JSON type become the forms [internal/pips] reads. Raw JSON fields are
    their [bytes], empty when absent; the decoding of the export into [PIPV3] is that of
    [encoding/json]. *)
From S2P Require Import Prelude GoText Json Encoding Digits JsonFields GoCase JsonText PipPath Pips Acconfig.
Import GoText Encoding Digits JsonFields JsonText Pips.

Module AcconfigPips.

(** [PIPV3], less the fields the conversion ignores. *)
Record PIPV3 := MkPIPV3 {
  V_Name : string;
  V_PipType : string;
  V_URL : string;
  V_HTTPMethod : string;
  V_Header : string;
  V_Claim : string;
  V_BeanName : string;
  V_DefaultValue : bytes;
  V_Domain : string;
  V_TenantID : string;
  V_Type : string;
  V_JsonPath : string;
  V_RequestAttributes : gmap string bytes;
  V_Headers : bytes;
  V_Query : gmap string string;
  V_Body : bytes;
  V_TimeoutSeconds : option Z;
  V_Response : bytes;
}.

(** [strconv.FormatFloat] with the format 'f' and the shortest precision. *)
Class FloatText := { format_float : bool → Z * Z → bytes }.

Definition comma_parts (s : string) : list string :=
  List.filter (λ p, negb (is_empty p)) ((λ p, string_of (TrimSpace p)) <$> Split ","%char (bytes_of s)).

Definition normaliseHeaders (raw : bytes) : bytes :=
  let t := TrimSpace raw in
  if is_nil t || eqb t (bytes_of "null") then []
  else
    match t with
    | "["%char :: _ | "{"%char :: _ => t
    | "034"%char :: _ =>
        match Json.parse t with
        | Some (Json.JStr body) =>
            let cleaned := comma_parts (Unquote body) in
            if is_nil cleaned then [] else marshal_strings cleaned
        | _ => []
        end
    | _ => []
    end.

Section convert.
Context {floats : FloatText}.

(** A number of a JSON text is a whole one of 64 bits or a [float64] in range; any other text
    stays as it is. *)
Definition rawJSONToString (raw : bytes) : string :=
  match Atoi raw with
  | Some i => string_of (FormatInt i)
  | None =>
      match Json.parse raw with
      | Some (Json.JNum text) =>
          let '(negative, size) := ParseFloat text in
          if more_than size (2 ^ 1024 - 1) then string_of raw else string_of (format_float negative size)
      | _ => string_of raw
      end
  end.

Definition stringify (v : bytes) : option string :=
  let t := TrimSpace v in
  match t with
  | [] => None
  | "034"%char :: _ =>
      match Json.parse t with
      | Some (Json.JStr body) => Some (Unquote body)
      | _ => Some (rawJSONToString t)
      end
  | _ => Some (rawJSONToString t)
  end.

Definition stringifyRequestAttributes (raw : gmap string bytes) : gmap string string := omap stringify raw.

(** [json.Unmarshal] into a [ResponseSpec]. *)
Definition decode_response (b : bytes) : option ResponseSpec :=
  ms ← struct_members b;
  _ ← string_field "type" ms;
  coerce ← string_field "coerce" ms;
  onMissing ← string_field "onMissing" ms;
  Some (MkResponseSpec (raw_field "extract" ms) coerce onMissing).

Definition unsupported (p : PIPV3) : bool :=
  member (V_PipType p) [PipTypeFiltered; PipTypePermissionScope; PipTypeMapping; PipTypeEntitlements]
  || eqb (V_PipType p) PipTypeGeneral && negb (is_empty (V_BeanName p)).

Definition convertPIP (p : PIPV3) : option SimplifiedPIP :=
  if unsupported p then None
  else
    Some (MkPIP (V_Name p) (V_PipType p) (V_URL p) (V_HTTPMethod p) (V_Header p) (V_Claim p) (V_BeanName p)
      (if is_nil (V_DefaultValue p) then None else Some (V_DefaultValue p)) EmptyString (Acconfig.coalesce (V_Domain p) (V_TenantID p))
      (stringifyRequestAttributes (V_RequestAttributes p)) (normaliseHeaders (V_Headers p)) (V_Type p) (V_JsonPath p)
      (V_Query p) (V_Body p) (V_TimeoutSeconds p)
      (if is_nil (TrimSpace (V_Response p)) then None else decode_response (V_Response p))).

Definition convertPIPs (ps : list PIPV3) : list SimplifiedPIP := omap convertPIP ps.
End convert.

(** ** Headers *)

Lemma string_list_marshal l :
  string_list (marshal_strings l) = Some ((λ s, string_of (valid_text (bytes_of s))) <$> l).
Proof.
  unfold string_list. destruct (parse_strings l) as [raw ->].
  induction l as [|s l IH]; [done|]. cbn [fmap list_fmap mapM]. rewrite IH. cbn. by rewrite Unquote_marshal.
Qed.

Lemma TrimSpace_strings l : TrimSpace (marshal_strings l) = marshal_strings l.
Proof.
  unfold marshal_strings. apply TrimSpace_solid; [done|]. intros d. rewrite app_comm_cons, last_snoc.
  by intros [= <-].
Qed.

Lemma parseHeaders_marshal l :
  parseHeaders (marshal_strings l) = Ok ((λ s, string_of (valid_text (bytes_of s))) <$> l, ∅).
Proof.
  unfold parseHeaders. rewrite TrimSpace_strings.
  assert (E : is_nil (marshal_strings l) || eqb (marshal_strings l) (bytes_of "null") = false).
  { apply orb_false_iff. split; [done|]. apply not_true_is_false. intros H. by apply (proj1 (eqb_true _ _)) in H. }
  rewrite E. unfold marshal_strings at 1. by rewrite string_list_marshal.
Qed.

(** What is read from a text of names are the names, as [json.Marshal] keeps them. *)
Lemma normaliseHeaders_read raw body :
  Json.parse (TrimSpace raw) = Some (Json.JStr body) →
  normaliseHeaders raw = (let l := comma_parts (Unquote body) in if is_nil l then [] else marshal_strings l).
Proof.
  intros Hp. pose proof (parse_head raw _ Hp) as Hh. cbn beta iota in Hh. unfold normaliseHeaders.
  destruct (TrimSpace raw) as [|c t]; [done|]. cbn in Hh. injection Hh as ->. rewrite Hp.
  replace (_ || _) with false; [done|]. symmetry. apply orb_false_iff. split; [done|].
  apply not_true_is_false. intros H. by apply (proj1 (eqb_true _ _)) in H.
Qed.

(** The headers of an export are read as the headers to forward: a text of names with
    commas gives the names between them, trimmed, less the empty ones, and [parseHeaders]
    reads back each of them as [json.Marshal] writes it. *)
Theorem header_names raw body :
  Json.parse (TrimSpace raw) = Some (Json.JStr body) →
  parseHeaders (normaliseHeaders raw) = Ok ((λ s, string_of (valid_text (bytes_of s))) <$> comma_parts (Unquote body), ∅).
Proof.
  intros Hp. rewrite (normaliseHeaders_read _ _ Hp). cbn zeta.
  destruct (comma_parts (Unquote body)) as [|x l]; [done|]. cbn [is_nil]. apply parseHeaders_marshal.
Qed.

(** No point of a type the agent leaves out survives, and the order of the rest is kept. *)
Lemma convertPIPs_elem {F : FloatText} ps x :
  x ∈ convertPIPs ps ↔ ∃ p, p ∈ ps ∧ unsupported p = false ∧ convertPIP p = Some x.
Proof.
  unfold convertPIPs. rewrite list_elem_of_omap. split; [|intros (p & Hp & _ & Hx); by exists p].
  intros (p & Hp & Hx). exists p. split; [done|]. split; [|done]. unfold convertPIP in Hx. by destruct (unsupported p).
Qed.

Definition example_headers : bytes := " "%char :: "034"%char :: bytes_of "X-Tenant, ,Cookie, X-Request-Id" ++ ["034"; " "]%char.

Lemma header_names_witness :
  parseHeaders (normaliseHeaders example_headers) = Ok (["X-Tenant"; "Cookie"; "X-Request-Id"]%string, ∅).
Proof.
  assert (H : Json.parse (TrimSpace example_headers) = Some (Json.JStr (bytes_of "X-Tenant, ,Cookie, X-Request-Id"))) by by vm_compute.
  etransitivity; [exact (header_names _ _ H)|]. by vm_compute.
Defined.

End AcconfigPips.
