(* ===== verification/AcconfigJson.v ===== *)
(** * The exports as [encoding/json] reads them ([internal/acconfig]: [types.go], [convert.go])

    The two responses of the source decoded into their structs, a key written twice filling
    the same value again, and the conversions of the decoded lists. A field the conversion
    ignores is decoded for its type only. *)
From S2P Require Import Prelude GoText Json Encoding Digits JsonFields JsonText PipPath Pips Acconfig AcconfigPips.
Import GoText Encoding JsonFields JsonText Pips.

Module AcconfigJson.
Import Acconfig AcconfigPips.

Notation json := Json.json.

(** A field of type [*string], [int], [*int], [json.RawMessage] or a map. *)
Definition set_text_ptr (field : option string) (v : json) : option (option string) :=
  match v with
  | Json.JNull => Some None
  | Json.JStr body => Some (Some (Unquote body))
  | _ => None
  end.

Definition set_int (field : Z) (v : json) : option Z :=
  match v with
  | Json.JNull => Some field
  | Json.JNum text => Atoi text
  | _ => None
  end.

Definition set_int_ptr (field : option Z) (v : json) : option (option Z) :=
  match v with
  | Json.JNull => Some None
  | Json.JNum text => Some <$> Atoi text
  | _ => None
  end.

Definition set_raw (field : bytes) (v : json) : option bytes := Some (raw_text v).

Section maps.
Context {A : Type} (element : json → option A).

Definition set_map (field : gmap string A) (v : json) : option (gmap string A) :=
  match v with
  | Json.JNull => Some ∅
  | Json.JObj _ ms => fold_left (λ o kv, m ← o; x ← element kv.2; Some (<[Unquote kv.1 := x]> m)) ms (Some field)
  | _ => None
  end.
End maps.

(** The values of a key decoded for their type only. *)
Definition typed {A} (set : A → json → option A) (zero : A) (name : string) (ms : list (bytes * json)) : option A :=
  set_all set zero (values name ms).
Definition typed_text := typed set_text EmptyString.

Definition set_struct {A} (fill : A → list (bytes * json) → option A) (x : A) (v : json) : option A :=
  match v with
  | Json.JNull => Some x
  | Json.JObj _ ms => fill x ms
  | _ => None
  end.

(** ** Policy sets *)

Definition fill_rule (r : RuleV3) (ms : list (bytes * json)) : option RuleV3 :=
  id ← set_all set_text (RuleID r) (values "ruleId" ms);
  _ ← typed_text "name" ms;
  target ← set_all set_text (RuleTarget r) (values "target" ms);
  condition ← set_all set_text_ptr (RuleCondition r) (values "condition" ms);
  effect ← set_all set_text (Effect r) (values "effect" ms);
  rsql ← set_all set_text (RSQLPredicate r) (values "rsqlPredicate" ms);
  sql ← set_all set_text (SQLPredicate r) (values "sqlPredicate" ms);
  mongodb ← set_all set_text (MongoDBPredicate r) (values "mongodbPredicate" ms);
  predicate ← set_all set_text (Predicate r) (values "predicate" ms);
  Some (MkRuleV3 id target condition effect rsql sql mongodb predicate).

Definition no_rule : RuleV3 := MkRuleV3 EmptyString EmptyString None EmptyString EmptyString EmptyString EmptyString EmptyString.
Definition set_rule : RuleV3 → json → option RuleV3 := set_struct fill_rule.

(** A policy and a policy set with their slices. *)
Record policy_cell := MkPolicyCell { pc_policyId : string; pc_target : string; pc_rules : slice RuleV3 }.

Definition fill_policy (p : policy_cell) (ms : list (bytes * json)) : option policy_cell :=
  id ← set_all set_text (pc_policyId p) (values "policyId" ms);
  target ← set_all set_text (pc_target p) (values "target" ms);
  _ ← typed_text "combiningAlgorithm" ms;
  rules ← set_all (set_slice set_rule no_rule) (pc_rules p) (values "rules" ms);
  Some (MkPolicyCell id target rules).

Definition no_policy : policy_cell := MkPolicyCell EmptyString EmptyString None.
Definition set_policy : policy_cell → json → option policy_cell := set_struct fill_policy.

Record set_cell := MkSetCell {
  sc_policySetId : string; sc_name : string; sc_type : string; sc_domain : string; sc_target : string;
  sc_tenantId : string; sc_policies : slice policy_cell }.

Definition fill_set (s : set_cell) (ms : list (bytes * json)) : option set_cell :=
  id ← set_all set_text (sc_policySetId s) (values "policySetId" ms);
  name ← set_all set_text (sc_name s) (values "name" ms);
  type ← set_all set_text (sc_type s) (values "type" ms);
  domain ← set_all set_text (sc_domain s) (values "domain" ms);
  _ ← typed_text "status" ms;
  target ← set_all set_text (sc_target s) (values "target" ms);
  _ ← typed_text "combiningAlgorithm" ms;
  tenant ← set_all set_text (sc_tenantId s) (values "tenantId" ms);
  policies ← set_all (set_slice set_policy no_policy) (sc_policies s) (values "policies" ms);
  Some (MkSetCell id name type domain target tenant policies).

Definition no_set : set_cell := MkSetCell EmptyString EmptyString EmptyString EmptyString EmptyString EmptyString None.
Definition set_set : set_cell → json → option set_cell := set_struct fill_set.

Definition policy_of (p : policy_cell) : PolicyV3 := MkPolicyV3 (pc_policyId p) (pc_target p) (slice_elems (pc_rules p)).
Definition set_of (s : set_cell) : PolicySetV3 :=
  MkPolicySetV3 (sc_policySetId s) (sc_name s) (sc_type s) (sc_domain s) (sc_target s) (sc_tenantId s)
    (policy_of <$> slice_elems (sc_policies s)).

(** The fields of the envelope the conversion ignores. *)
Definition envelope (ms : list (bytes * json)) : option unit :=
  _ ← typed_text "hash" ms; _ ← typed_text "lastModificationTimestamp" ms; Some tt.

Definition decode_sets (raw : bytes) : option (list PolicySetV3) :=
  ms ← struct_members raw;
  _ ← envelope ms;
  sets ← set_all (set_slice set_set no_set) None (values "policySets" ms);
  Some (set_of <$> slice_elems sets).

(** [ConvertPolicySets] of a response body, [None] for its error. *)
Definition ConvertPolicySets (raw : bytes) : option (list SimplifiedPolicy * Stats) :=
  Acconfig.ConvertPolicySets <$> decode_sets raw.

(** ** Information points *)

Definition no_pip : PIPV3 :=
  MkPIPV3 EmptyString EmptyString EmptyString EmptyString EmptyString EmptyString EmptyString [] EmptyString EmptyString
    EmptyString EmptyString ∅ [] ∅ [] None [].

Definition fill_pip (p : PIPV3) (ms : list (bytes * json)) : option PIPV3 :=
  name ← set_all set_text (V_Name p) (values "name" ms);
  pipType ← set_all set_text (V_PipType p) (values "pipType" ms);
  url ← set_all set_text (V_URL p) (values "url" ms);
  method ← set_all set_text (V_HTTPMethod p) (values "httpMethod" ms);
  header ← set_all set_text (V_Header p) (values "header" ms);
  claim ← set_all set_text (V_Claim p) (values "claim" ms);
  bean ← set_all set_text (V_BeanName p) (values "beanName" ms);
  value ← set_all set_raw (V_DefaultValue p) (values "defaultValue" ms);
  domain ← set_all set_text (V_Domain p) (values "domain" ms);
  tenant ← set_all set_text (V_TenantID p) (values "tenantId" ms);
  type ← set_all set_text (V_Type p) (values "type" ms);
  path ← set_all set_text (V_JsonPath p) (values "jsonPath" ms);
  attributes ← set_all (set_map (set_raw [])) (V_RequestAttributes p) (values "requestAttributes" ms);
  headers ← set_all set_raw (V_Headers p) (values "headers" ms);
  query ← set_all (set_map (set_text EmptyString)) (V_Query p) (values "query" ms);
  body ← set_all set_raw (V_Body p) (values "body" ms);
  timeout ← set_all set_int_ptr (V_TimeoutSeconds p) (values "timeoutSeconds" ms);
  response ← set_all set_raw (V_Response p) (values "response" ms);
  _ ← typed set_bool false "cacheable" ms;
  _ ← typed set_int 0%Z "cachePeriod" ms;
  Some (MkPIPV3 name pipType url method header claim bean value domain tenant type path attributes headers query body timeout response).

Definition decode_pips (raw : bytes) : option (list PIPV3) :=
  ms ← struct_members raw;
  _ ← envelope ms;
  points ← set_all (set_slice (set_struct fill_pip) no_pip) None (values "pips" ms);
  Some (slice_elems points).

Definition ConvertPIPs {floats : FloatText} (raw : bytes) : option (list SimplifiedPIP) :=
  convertPIPs <$> decode_pips raw.

End AcconfigJson.
