(* ===== verification/Normalize.v ===== *)
(** * The policy document the agent decides on ([internal/simplifiedpolicies/normalize.go])

    [NormalizePolicies] over the policies of the converter: keys in upper case, the roles of
    each operation ([ols]), the rules of each role ([rls]), the access of wildcard policies
    ([globalAccessRoles]), and the index of the subject attributes the rules mention
    ([refIndex]). Rules are copied through their JSON text, which turns every integer into a
    [float64] and every text into valid UTF-8. *)
From S2P Require Import Prelude GoText Json Encoding JsonFields GoCase JsonText Outbound SimplifiedParser SimplifiedPrint Acconfig.
Import GoText Encoding GoCase JsonText SimplifiedParser Acconfig.

Module Normalize.

(** ** Policies *)

(** What the field [Condition] holds; another value is refused. *)
Inductive condition_value := NoCondition | BoolCondition (b : bool) | TextCondition (s : string) | OtherCondition.

(** [Policy]; a role is the text the verb [%v] gives, and [None] is a nil slice. *)
Record Policy := MkPolicy {
  P_Component : string;
  P_ResourceType : string;
  P_Operation : string;
  P_Condition : condition_value;
  P_RSQLPredicate : string;
  P_SQLPredicate : string;
  P_MongoDBPredicate : string;
  P_QueryDSLPredicate : string;
  P_Roles : option (list string);
}.

(** A policy as [convertPolicySet] fills it in. *)
Definition converted (sp : SimplifiedPolicy) : Policy :=
  MkPolicy (Component sp) (ResourceType sp) (Operation sp)
    (match Condition sp with Some c => TextCondition c | None => NoCondition end)
    (SP_RSQLPredicate sp) (SP_SQLPredicate sp) (SP_MongoDBPredicate sp) (QueryDSLPredicate sp) (Some (Roles sp)).

Inductive reason :=
  | ResourceTypeRequired
  | OperationRequired
  | ComponentRequired
  | RolesRequired
  | ConditionSyntax (e : parse_error)
  | ConditionType.

#[global] Instance reason_eq_dec : EqDecision reason.
Proof. solve_decision. Defined.

Record predicate := MkPredicate { pred_text : bytes; pred_type : string; placeholderKeys : list string }.
Record rule := MkRule { r_condition : option bool; conditionAst : option ast; predicates : list predicate }.

(** The access of a role by wildcard policies. *)
Record access := MkAccess { a_all : bool; a_operations : gset string; a_resourceTypes : gset string }.

Record document := MkDocument {
  ols : gmap string (gmap string (list string));
  rls : gmap string (gmap string (gmap string (list rule)));
  refIndex : gmap string (gmap string (list string));
  globalAccess : gmap string access;
}.

Definition is_blank_text (s : string) : bool := is_nil (TrimSpace (bytes_of s)).

(** The keys of a map, sorted. *)
Definition sorted_set (l : list string) : list string := sort_strings (elements (list_to_set l : gset string)).

(** [subjectRefRegex.FindAllStringSubmatch]: the names in the text, left to right, [fuel] at
    least its length. *)
Fixpoint subject_names (fuel : nat) (s : bytes) : list bytes :=
  match fuel, s with
  | 0, _ | _, [] => []
  | S fuel, _ :: s' =>
      match cutPrefix (bytes_of "${subject.") s with
      | Some r =>
          match span (λ c, negb (eqb c "}"%char)) r with
          | (c :: name, _ :: rest) => (c :: name) :: subject_names fuel rest
          | _ => subject_names fuel s'
          end
      | None => subject_names fuel s'
      end
  end.

Definition placeholder_names (s : bytes) : list string := string_of <$> subject_names (length s) s.
Definition extractPlaceholderKeys (s : bytes) : list string := sorted_set (placeholder_names s).

(** ** Copies through JSON *)

Fixpoint clone_constant (c : constant) : constant :=
  match c with
  | CBool b => CBool b
  | CText s => CText (valid_text s)
  | CInt z => CFloat (z <? 0)%Z (round_double (Z.abs z) 1)
  | CFloat n x => CFloat n x
  | CList cs => CList (clone_constant <$> cs)
  end.

Fixpoint clone_ast (a : ast) : ast :=
  match a with
  | Const c => Const (clone_constant c)
  | Ref s path => Ref s (valid_text <$> path)
  | Entitlements rt names => Entitlements (valid_text rt) (valid_text <$> names)
  | Op op args => Op op (clone_ast <$> args)
  end.

Definition clone_predicate (p : predicate) : predicate :=
  MkPredicate (valid_text (pred_text p)) (pred_type p) ((λ k, string_of (valid_text (bytes_of k))) <$> placeholderKeys p).

(** The arrays and objects of the JSON of a condition and of a rule that stand around one
    another: an operator is an object around the list of its arguments. *)
Fixpoint constant_nesting (c : constant) : nat :=
  match c with CList cs => S (max_list_with constant_nesting cs) | _ => 0 end.

Fixpoint ast_nesting (a : ast) : nat :=
  match a with
  | Const c => S (constant_nesting c)
  | Ref _ _ | Entitlements _ _ => 3
  | Op _ args => 2 + max_list_with ast_nesting args
  end.

Definition predicate_nesting (p : predicate) : nat := if is_nil (placeholderKeys p) then 1 else 2.

Definition rule_nesting (r : rule) : nat :=
  S (from_option ast_nesting 0 (conditionAst r)
     `max` (if is_nil (predicates r) then 0 else S (max_list_with predicate_nesting (predicates r)))).

(** The limit of the scanner of [encoding/json], for a value with so many arrays and objects
    around it. *)
Definition within_limit (outside nesting : nat) : bool := (Z.of_nat outside + Z.of_nat nesting <=? 10000)%Z.

(** [cloneRule]; the error of a rule nested past the limit is ignored, which leaves the rule
    empty. *)
Definition no_rule : rule := MkRule None None [].

Definition cloneRule (r : rule) : rule :=
  if within_limit 0 (rule_nesting r)
  then MkRule (r_condition r) (clone_ast <$> conditionAst r) (clone_predicate <$> predicates r)
  else no_rule.

(** The rules of a document, and whether its JSON is read back: a rule stands in the list of its
    role inside the objects of its operation, its type, all rules and the document. Nothing
    else of a document is nested as deep as that list. *)
Definition kept_rules (m : gmap string (gmap string (gmap string (list rule)))) : list rule :=
  map_to_list m ≫= λ rt, map_to_list rt.2 ≫= λ op, map_to_list op.2 ≫= snd.

Definition encodes (d : document) : bool := forallb (λ r, within_limit 5 (rule_nesting r)) (kept_rules (rls d)).

Section normalize.
Context {case : CaseTable}.

Definition normalizeKey (s : string) : string := string_of (ToUpper (TrimSpace (bytes_of s))).

Definition normalizeRoles (rawRoles : option (list string)) : result reason (list string) :=
  match rawRoles with
  | None => Err RolesRequired
  | Some raw => Ok (sorted_set (List.filter (λ r, negb (is_empty r)) (normalizeKey <$> raw)))
  end.

(** [normalizeCondition]: nothing, a boolean, or a tree. *)
Definition normalizeCondition (raw : condition_value) : result reason (option (bool + ast)) :=
  match raw with
  | NoCondition => Ok None
  | BoolCondition b => Ok (Some (inl b))
  | OtherCondition => Err ConditionType
  | TextCondition s =>
      let text := TrimSpace (bytes_of s) in
      if is_nil text then Ok None
      else if eqb (ToLower text) (bytes_of "true") then Ok (Some (inl true))
      else if eqb (ToLower text) (bytes_of "false") then Ok (Some (inl false))
      else a ← wrap ConditionSyntax (ParseCondition text); Ok (Some (inr a))
  end.

Definition predicate_of (text : string) (type : string) : list predicate :=
  if is_blank_text text then [] else [MkPredicate (bytes_of text) type (extractPlaceholderKeys (bytes_of text))].

Definition normalizeRule (p : Policy) : result reason rule :=
  condition ← normalizeCondition (P_Condition p);
  let preds := predicate_of (P_RSQLPredicate p) "rsql" ++ predicate_of (P_QueryDSLPredicate p) "querydsl"
               ++ predicate_of (P_MongoDBPredicate p) "mongodb" ++ predicate_of (P_SQLPredicate p) "sql" in
  Ok match condition with
     | None => MkRule (Some true) None (if is_nil preds then [MkPredicate (bytes_of "true") "rsql" []] else preds)
     | Some (inl b) => MkRule (Some b) None preds
     | Some (inr a) => MkRule None (Some a) preds
     end.

(** ** The maps *)

Definition mergeOLSRule (resourceType operation : string) (roles : list string)
    (m : gmap string (gmap string (list string))) : gmap string (gmap string (list string)) :=
  let rtObj := default ∅ (m !! resourceType) in
  let existing := default [] (rtObj !! operation) in
  <[resourceType := <[operation := if is_nil existing then roles else sorted_set (existing ++ roles)]> rtObj]> m.

Definition appendRLSRule (resourceType operation : string) (r : rule) (m : gmap string (gmap string (gmap string (list rule))))
    (role : string) : gmap string (gmap string (gmap string (list rule))) :=
  let rtObj := default ∅ (m !! resourceType) in
  let opObj := default ∅ (rtObj !! operation) in
  let items := cloneRule <$> default [] (opObj !! role) in
  <[resourceType := <[operation := <[role := items ++ [cloneRule r]]> opObj]> rtObj]> m.

Definition mergeGlobalAccessRole (rt op : string) (isWildcardRT isWildcardOP : bool) (byRole : gmap string access) (role : string)
    : gmap string access :=
  let entry := default (MkAccess false ∅ ∅) (byRole !! role) in
  <[role :=
      if isWildcardRT && isWildcardOP then MkAccess true (a_operations entry) (a_resourceTypes entry)
      else if isWildcardRT then MkAccess (a_all entry) ({[op]} ∪ a_operations entry) (a_resourceTypes entry)
      else MkAccess (a_all entry) (a_operations entry) ({[rt]} ∪ a_resourceTypes entry)]> byRole.

(** The maps the loop of [NormalizePolicies] fills in. *)
Record maps := MkMaps {
  m_ols : gmap string (gmap string (list string));
  m_rls : gmap string (gmap string (gmap string (list rule)));
  m_global : gmap string access;
}.

Definition normalize_policy (p : Policy) (st : maps) : result reason maps :=
  let rt := normalizeKey (P_ResourceType p) in
  _ ← check (negb (is_empty rt)) ResourceTypeRequired;
  let op := normalizeKey (P_Operation p) in
  _ ← check (negb (is_empty op)) OperationRequired;
  _ ← check (negb (is_blank_text (P_Component p))) ComponentRequired;
  roles ← normalizeRoles (P_Roles p);
  let isWildcardRT := eqb rt "ALL"%string in
  let isWildcardOP := eqb op "ALL"%string in
  if (isWildcardRT || isWildcardOP) && negb (is_nil roles) then
    Ok (MkMaps (m_ols st) (m_rls st) (foldl (mergeGlobalAccessRole rt op isWildcardRT isWildcardOP) (m_global st) roles))
  else
    let ols := if is_nil roles then m_ols st else mergeOLSRule rt op roles (m_ols st) in
    rule ← normalizeRule p;
    let roleKeys := if is_nil roles then ["ALL"%string] else roles in
    Ok (MkMaps ols (foldl (appendRLSRule rt op rule) (m_rls st) roleKeys) (m_global st)).

(** ** The index *)

Fixpoint ast_refs (a : ast) : list string :=
  match a with
  | Ref Subject (attr :: _) => if is_nil attr then [] else [string_of attr]
  | Op _ args => concat (ast_refs <$> args)
  | _ => []
  end.

Definition scanRuleForSubjectRefs (r : rule) : list string :=
  from_option ast_refs [] (conditionAst r) ++ concat ((λ p, placeholder_names (pred_text p)) <$> predicates r).

Definition collectSubjectRefs (opObj : gmap string (list rule)) : list string :=
  concat ((λ rs, concat (scanRuleForSubjectRefs <$> rs)) <$> (map_to_list opObj).*2).

Definition buildRefIndex (rls : gmap string (gmap string (gmap string (list rule)))) : gmap string (gmap string (list string)) :=
  omap (λ rtObj : gmap string (gmap string (list rule)),
    let idx := omap (λ opObj, let refs := collectSubjectRefs opObj in if is_nil refs then None else Some (sorted_set refs)) rtObj in
    if bool_decide (idx = ∅) then None else Some idx) rls.

Definition normalize_all (policies : list Policy) : result (nat * reason) maps :=
  loop (λ i p st, wrap (pair i) (normalize_policy p st)) 0 policies (MkMaps ∅ ∅ ∅).

Definition NormalizePolicies (policies : list Policy) : result (nat * reason) document :=
  st ← normalize_all policies;
  Ok (MkDocument (m_ols st) (m_rls st) (buildRefIndex (m_rls st)) (m_global st)).
End normalize.

(** ** Copies settle *)

Lemma clone_constant_idem c : clone_constant (clone_constant c) = clone_constant c.
Proof.
  revert c. fix IH 1. intros [b|s|z|n x|cs]; cbn [clone_constant]; [reflexivity|f_equal; apply valid_text_idem|reflexivity..|].
  f_equal. induction cs as [|c cs IHcs]; [reflexivity|]. cbn. f_equal; [apply IH|exact IHcs].
Qed.

Lemma clone_ast_idem a : clone_ast (clone_ast a) = clone_ast a.
Proof.
  assert (Hl : ∀ l : list bytes, valid_text <$> (valid_text <$> l) = valid_text <$> l).
  { intros l. rewrite <-list_fmap_compose. apply list_fmap_ext. intros ???. apply valid_text_idem. }
  induction a as [a Ha|op args IH] using ast_induction.
  - destruct a as [c|s path|rt names|op args]; cbn [clone_ast]; rewrite ?Hl, ?valid_text_idem, ?clone_constant_idem; try done.
    by destruct (Ha op args).
  - cbn [clone_ast]. f_equal. induction IH as [|a args Hx Hargs IHargs]; [done|]. cbn. f_equal; [exact Hx|exact IHargs].
Qed.

Lemma max_fmap {A} (f : A → nat) (g : A → A) l : Forall (λ x, f (g x) = f x) l → max_list_with f (g <$> l) = max_list_with f l.
Proof. induction 1 as [|x l Hx _ IH]; [done|]. cbn. by rewrite Hx, IH. Qed.

Lemma constant_nesting_clone c : constant_nesting (clone_constant c) = constant_nesting c.
Proof.
  revert c. fix IH 1. intros [b|s|z|n x|cs]; cbn [clone_constant constant_nesting]; [reflexivity..|].
  f_equal. induction cs as [|c cs IHcs]; [reflexivity|]. cbn. f_equal; [apply IH|exact IHcs].
Qed.

Lemma ast_nesting_clone a : ast_nesting (clone_ast a) = ast_nesting a.
Proof.
  induction a as [a Ha|op args IH] using ast_induction.
  - destruct a as [c|s path|rt names|op args]; cbn [clone_ast ast_nesting]; [by rewrite constant_nesting_clone|done..|by destruct (Ha op args)].
  - cbn [clone_ast ast_nesting]. apply (f_equal (Nat.add 2)). by apply max_fmap.
Qed.

Definition clone_parts (r : rule) : rule :=
  MkRule (r_condition r) (clone_ast <$> conditionAst r) (clone_predicate <$> predicates r).

Lemma rule_nesting_clone r : rule_nesting (clone_parts r) = rule_nesting r.
Proof.
  destruct r as [c a ps]. unfold rule_nesting, clone_parts. cbn [conditionAst predicates]. do 2 f_equal.
  - destruct a; [apply ast_nesting_clone|done].
  - assert (En : is_nil (clone_predicate <$> ps) = is_nil ps) by by destruct ps. rewrite En. destruct (is_nil ps); [done|]. f_equal.
    apply max_fmap, Forall_forall. intros q _. unfold predicate_nesting, clone_predicate. cbn [placeholderKeys]. by destruct (placeholderKeys q).
Qed.

Lemma clone_parts_idem r : clone_parts (clone_parts r) = clone_parts r.
Proof.
  destruct r as [c a ps]. unfold clone_parts. cbn. f_equal.
  - destruct a; [|done]. cbn. f_equal. apply clone_ast_idem.
  - rewrite <-list_fmap_compose. apply list_fmap_ext. intros _ [t ty ks] _. unfold clone_predicate. cbn. f_equal; [apply valid_text_idem|].
    rewrite <-list_fmap_compose. apply list_fmap_ext. intros _ k _. unfold compose. by rewrite bytes_of_string_of, valid_text_idem.
Qed.

Lemma cloneRule_idem r : cloneRule (cloneRule r) = cloneRule r.
Proof.
  unfold cloneRule at 2 3. fold (clone_parts r). destruct (within_limit 0 (rule_nesting r)) eqn:E; [|reflexivity].
  unfold cloneRule. fold (clone_parts (clone_parts r)). by rewrite rule_nesting_clone, E, clone_parts_idem.
Qed.

(** A copy that is the rule itself is a copy of its parts. *)
Lemma cloneRule_parts r : cloneRule r = r → clone_ast <$> conditionAst r = conditionAst r ∧ clone_predicate <$> predicates r = predicates r.
Proof.
  unfold cloneRule. destruct (within_limit 0 (rule_nesting r)).
  - destruct r as [c a ps]. cbn. by intros [= -> ->].
  - by intros <-.
Qed.

(** The condition of a rule nested past the limit is lost with the rule. *)
Lemma cloneRule_deep r : (10000 < Z.of_nat (rule_nesting r))%Z → cloneRule r = no_rule.
Proof. intros H. unfold cloneRule, within_limit. by rewrite (proj2 (Z.leb_gt _ _)) by lia. Qed.

(** ** What a policy adds to the document *)

Section effects.
Context {case : CaseTable}.

Definition type_key (p : Policy) : string := normalizeKey (P_ResourceType p).
Definition operation_key (p : Policy) : string := normalizeKey (P_Operation p).

(** The roles a policy names, and the keys its rule is kept under. *)
Definition named_roles (p : Policy) : list string :=
  sorted_set (List.filter (λ r, negb (is_empty r)) (normalizeKey <$> default [] (P_Roles p))).
Definition role_keys (p : Policy) : list string := if is_nil (named_roles p) then ["ALL"%string] else named_roles p.

(** A wildcard policy with roles grants access and leaves no rule. *)
Definition grants (p : Policy) : bool :=
  (eqb (type_key p) "ALL"%string || eqb (operation_key p) "ALL"%string) && negb (is_nil (named_roles p)).

(** Why a policy is refused; the condition of one that grants is not read. *)
Definition refusal (p : Policy) : option reason :=
  if is_empty (type_key p) then Some ResourceTypeRequired
  else if is_empty (operation_key p) then Some OperationRequired
  else if is_blank_text (P_Component p) then Some ComponentRequired
  else
    match P_Roles p with
    | None => Some RolesRequired
    | Some _ =>
        if grants p then None
        else match normalizeCondition (P_Condition p) with Err e => Some e | Ok _ => None end
    end.

Definition effect (p : Policy) (st : maps) : maps :=
  if grants p then
    MkMaps (m_ols st) (m_rls st)
      (foldl (mergeGlobalAccessRole (type_key p) (operation_key p) (eqb (type_key p) "ALL"%string) (eqb (operation_key p) "ALL"%string))
        (m_global st) (named_roles p))
  else
    MkMaps (if is_nil (named_roles p) then m_ols st else mergeOLSRule (type_key p) (operation_key p) (named_roles p) (m_ols st))
      (match normalizeRule p with
       | Ok r => foldl (appendRLSRule (type_key p) (operation_key p) r) (m_rls st) (role_keys p)
       | Err _ => m_rls st
       end) (m_global st).

Lemma normalize_policy_effect p st :
  normalize_policy p st = match refusal p with Some e => Err e | None => Ok (effect p st) end.
Proof.
  unfold normalize_policy, refusal, effect, grants, role_keys, type_key, operation_key, named_roles.
  destruct (is_empty (normalizeKey (P_ResourceType p))); [done|].
  destruct (is_empty (normalizeKey (P_Operation p))); [done|].
  destruct (is_blank_text (P_Component p)); [done|]. destruct (P_Roles p) as [roles|]; [|done].
  cbn [negb check mbind result_bind normalizeRoles default from_option id].
  destruct ((_ || _) && _) eqn:Eg; [done|]. unfold normalizeRule.
  by destruct (normalizeCondition (P_Condition p)) as [c|e].
Qed.

Lemma normalize_from i ps st :
  loop (λ i p st, wrap (pair i) (normalize_policy p st)) i ps st
  = match list_find (λ p, refusal p ≠ None) ps with
    | Some (j, p) => Err (i + j, default ConditionType (refusal p))
    | None => Ok (foldl (λ st p, effect p st) st ps)
    end.
Proof.
  revert i st. induction ps as [|p ps IH]; intros i st; [done|]. cbn [loop list_find foldl].
  rewrite normalize_policy_effect. destruct (refusal p) as [e|] eqn:E.
  - rewrite decide_True by by rewrite ?E. cbn. by rewrite ?E, Nat.add_0_r.
  - rewrite decide_False by (rewrite ?E; tauto). cbn [wrap mbind result_bind]. rewrite IH.
    destruct (list_find _ ps) as [[j q]|]; [|done]. cbn. by rewrite Nat.add_succ_r.
Qed.

(** [NormalizePolicies] fails with the first policy that lacks a resource type, an
    operation, a component or its roles, or whose condition does not parse, and with its
    first such reason. The condition of a wildcard policy with roles is not looked at. *)
Theorem NormalizePolicies_refuses ps i e :
  NormalizePolicies ps = Err (i, e) ↔
  ∃ p, ps !! i = Some p ∧ refusal p = Some e ∧ ∀ j q, j < i → ps !! j = Some q → refusal q = None.
Proof.
  unfold NormalizePolicies, normalize_all. rewrite normalize_from.
  destruct (list_find (λ p, refusal p ≠ None) ps) as [[j p]|] eqn:E.
  - apply list_find_Some in E as (Hj & Hp & Hfirst). destruct (refusal p) as [e'|] eqn:Ep; [|done]. cbn. split.
    + intros [= <- <-]. exists p. split_and!; [done..|]. intros k q Hk Hq. destruct (refusal q) eqn:Eq; [|done].
      destruct (Hfirst k q Hq Hk). by rewrite Eq.
    + intros (q & Hi & Hq & Hq'). assert (i = j) as ->; [|naive_solver].
      destruct (Nat.lt_trichotomy i j) as [H|[H|H]]; [|done|].
      * destruct (Hfirst i q Hi H). by rewrite Hq.
      * by rewrite (Hq' j p H Hj) in Ep.
  - cbn. split; [done|]. intros (p & Hi & Hp & _). apply list_find_None in E. rewrite Forall_forall in E.
    destruct (E p); [by eapply list_elem_of_lookup_2|]. by rewrite Hp.
Qed.

Lemma NormalizePolicies_maps ps d :
  NormalizePolicies ps = Ok d →
  let st := foldl (λ st p, effect p st) (MkMaps ∅ ∅ ∅) ps in
  d = MkDocument (m_ols st) (m_rls st) (buildRefIndex (m_rls st)) (m_global st) ∧ Forall (λ p, refusal p = None) ps.
Proof.
  unfold NormalizePolicies, normalize_all. rewrite normalize_from.
  destruct (list_find (λ p, refusal p ≠ None) ps) as [[j p]|] eqn:E; [done|]. cbn. intros [= <-]. split; [done|].
  apply list_find_None in E. eapply Forall_impl; [exact E|]. intros p Hp. cbn in Hp. destruct (refusal p); [|done]. by destruct Hp.
Qed.
End effects.

(** ** The document of a list of policies *)

Definition rules_at (m : gmap string (gmap string (gmap string (list rule)))) (rt op role : string) : list rule :=
  default [] (default ∅ (default ∅ (m !! rt) !! op) !! role).
Definition roles_at (m : gmap string (gmap string (list string))) (rt op : string) : list string :=
  default [] (default ∅ (m !! rt) !! op).
Definition access_at (m : gmap string access) (role : string) : access := default (MkAccess false ∅ ∅) (m !! role).

Lemma sorted_set_elem l x : x ∈ sorted_set l ↔ x ∈ l.
Proof.
  unfold sorted_set, sort_strings. rewrite merge_sort_Permutation, elem_of_elements. by rewrite elem_of_list_to_set.
Qed.

Lemma sorted_set_nodup l : NoDup (sorted_set l).
Proof. unfold sorted_set, sort_strings. rewrite merge_sort_Permutation. apply NoDup_elements. Qed.

Lemma sorted_set_ext l k : (∀ x, x ∈ l ↔ x ∈ k) → sorted_set l = sorted_set k.
Proof.
  intros H. unfold sorted_set. do 2 f_equal. apply set_eq. intros x. by rewrite !elem_of_list_to_set.
Qed.

Lemma sorted_set_nil l : sorted_set l = [] ↔ l = [].
Proof.
  split; [|by intros ->]. intros H. destruct l as [|x l]; [done|]. exfalso.
  assert (x ∈ sorted_set (x :: l)) as Hx by (apply sorted_set_elem; by left). rewrite H in Hx. by apply elem_of_nil in Hx.
Qed.

Lemma rules_at_append rt op r m role rt' op' role' :
  rules_at (appendRLSRule rt op r m role) rt' op' role'
  = if decide (rt' = rt ∧ op' = op ∧ role' = role) then (cloneRule <$> rules_at m rt op role) ++ [cloneRule r]
    else rules_at m rt' op' role'.
Proof.
  unfold rules_at, appendRLSRule. cbn zeta.
  destruct (decide (rt' = rt)) as [->|Hrt].
  2: { rewrite lookup_insert_ne by done. by rewrite decide_False by tauto. }
  rewrite lookup_insert_eq. cbn [from_option id]. destruct (decide (op' = op)) as [->|Hop].
  2: { rewrite lookup_insert_ne by done. by rewrite decide_False by tauto. }
  rewrite lookup_insert_eq. cbn [from_option id]. destruct (decide (role' = role)) as [->|Hrole].
  2: { rewrite lookup_insert_ne by done. by rewrite decide_False by tauto. }
  rewrite lookup_insert_eq. by rewrite decide_True by tauto.
Qed.

(** Rules in the maps are settled copies. *)
Definition settled (m : gmap string (gmap string (gmap string (list rule)))) : Prop :=
  ∀ rt op role, Forall (λ r, cloneRule r = r) (rules_at m rt op role).

Lemma settled_clone rs : Forall (λ r, cloneRule r = r) rs → cloneRule <$> rs = rs.
Proof. intros H. induction H as [|r rs Hr H IH]; [done|]. cbn. by rewrite Hr, IH. Qed.

Lemma rules_at_appends rt op r roles m rt' op' role' :
  NoDup roles → settled m →
  let m' := foldl (appendRLSRule rt op r) m roles in
  settled m' ∧ rules_at m' rt' op' role'
    = rules_at m rt' op' role' ++ (if decide (rt' = rt ∧ op' = op ∧ role' ∈ roles) then [cloneRule r] else []).
Proof.
  intros Hnd. revert m. induction Hnd as [|role roles Hrole Hnd IH]; intros m Hm; cbn [foldl].
  - split; [done|]. rewrite decide_False; [by rewrite app_nil_r|]. intros (_ & _ & H). by apply elem_of_nil in H.
  - assert (Hm' : settled (appendRLSRule rt op r m role)).
    { intros a b c. rewrite rules_at_append. destruct (decide (a = _ ∧ _)); [|apply Hm]. apply Forall_app. rewrite settled_clone by apply Hm.
      split; [apply Hm|]. constructor; [apply cloneRule_idem|done]. }
    destruct (IH _ Hm') as [Hs E]. split; [done|]. cbn zeta in E. rewrite E, rules_at_append.
    destruct (decide (rt' = rt ∧ op' = op ∧ role' = role)) as [(-> & -> & ->)|Hne].
    + rewrite settled_clone by apply Hm. rewrite decide_False by tauto. rewrite decide_True; [by rewrite app_nil_r|].
      split_and!; [done..|by left].
    + f_equal. apply decide_ext. rewrite elem_of_cons. tauto.
Qed.

Section document.
Context {case : CaseTable}.

(** The rule a policy leaves under a key, and the roles it leaves on an operation. *)
Definition rule_added (rt op role : string) (p : Policy) : list rule :=
  if grants p then []
  else if decide (rt = type_key p ∧ op = operation_key p ∧ role ∈ role_keys p) then
    match normalizeRule p with Ok r => [cloneRule r] | Err _ => [] end
  else [].

Definition roles_added (rt op : string) (p : Policy) : list string :=
  if grants p then [] else if decide (rt = type_key p ∧ op = operation_key p) then named_roles p else [].

(** Whether a policy grants a role the operations of the key [op] on the types of the key [rt]. *)
Definition grants_to (role rt op : string) (p : Policy) : Prop :=
  grants p = true ∧ role ∈ named_roles p ∧ type_key p = rt ∧ operation_key p = op.

Definition run (ps : list Policy) : maps := foldl (λ st p, effect p st) (MkMaps ∅ ∅ ∅) ps.

Lemma run_snoc ps p : run (ps ++ [p]) = effect p (run ps).
Proof. unfold run. by rewrite foldl_app. Qed.

Lemma role_keys_nodup p : NoDup (role_keys p).
Proof. unfold role_keys. case_match; [apply NoDup_singleton|apply sorted_set_nodup]. Qed.

Lemma run_rules ps :
  settled (m_rls (run ps)) ∧ ∀ rt op role, rules_at (m_rls (run ps)) rt op role = concat (rule_added rt op role <$> ps).
Proof.
  induction ps as [|p ps [Hs IH]] using rev_ind.
  - split; [|done]. intros rt op role. constructor.
  - rewrite run_snoc. unfold effect.
    assert (Hadd : ∀ rt op role, concat (rule_added rt op role <$> ps ++ [p]) = concat (rule_added rt op role <$> ps) ++ rule_added rt op role p).
    { intros. by rewrite fmap_app, concat_app; cbn; rewrite app_nil_r. }
    setoid_rewrite Hadd. setoid_rewrite <-IH. unfold rule_added. destruct (grants p); cbn [m_rls].
    { split; [done|]. intros. by rewrite app_nil_r. }
    destruct (normalizeRule p) as [r|e].
    + split.
      * by apply (rules_at_appends _ _ r (role_keys p) _ EmptyString EmptyString EmptyString (role_keys_nodup p)).
      * intros rt op role. by apply rules_at_appends; [apply role_keys_nodup|].
    + split; [done|]. intros. by case_decide; rewrite app_nil_r.
Qed.

Lemma roles_at_merge rt op roles m rt' op' :
  (∀ a b, roles_at m a b = sorted_set (roles_at m a b)) → roles = sorted_set roles →
  roles_at (mergeOLSRule rt op roles m) rt' op'
  = sorted_set (roles_at m rt' op' ++ (if decide (rt' = rt ∧ op' = op) then roles else [])).
Proof.
  intros Hm Hr. unfold mergeOLSRule. cbn zeta. fold (roles_at m rt op). unfold roles_at at 1.
  destruct (decide (rt' = rt)) as [->|Hrt].
  2: { rewrite lookup_insert_ne by done. rewrite decide_False by tauto. rewrite app_nil_r. apply Hm. }
  rewrite lookup_insert_eq. cbn [from_option id]. destruct (decide (op' = op)) as [->|Hop].
  2: { rewrite lookup_insert_ne by done. rewrite decide_False by tauto. rewrite app_nil_r. apply Hm. }
  rewrite lookup_insert_eq, decide_True by done. cbn [from_option id].
  destruct (roles_at m rt op) as [|x l]; [exact Hr|done].
Qed.

Lemma run_roles ps rt op : roles_at (m_ols (run ps)) rt op = sorted_set (concat (roles_added rt op <$> ps)).
Proof.
  revert rt op. induction ps as [|p ps IH] using rev_ind; intros rt op; [done|]. rewrite run_snoc. unfold effect.
  rewrite fmap_app, concat_app. cbn [fmap list_fmap concat]. rewrite app_nil_r. unfold roles_added at 2.
  destruct (grants p); cbn [m_ols]; [by rewrite app_nil_r|].
  assert (Hset : ∀ l : list string, sorted_set l = sorted_set (sorted_set l)).
  { intros l. apply sorted_set_ext. intros x. by rewrite sorted_set_elem. }
  assert (Happ : ∀ l k, sorted_set (sorted_set l ++ k) = sorted_set (l ++ k)).
  { intros l k. apply sorted_set_ext. intros x. by rewrite !elem_of_app, sorted_set_elem. }
  destruct (is_nil (named_roles p)) eqn:En.
  - apply is_nil_true in En. rewrite En. case_decide; rewrite app_nil_r; apply IH.
  - rewrite roles_at_merge; [by rewrite IH, Happ| |apply Hset]. intros a b. rewrite IH. apply Hset.
Qed.
Definition grant (rt op : string) (a : access) : access :=
  let '(wt, wo) := (eqb rt "ALL"%string, eqb op "ALL"%string) in
  if wt && wo then MkAccess true (a_operations a) (a_resourceTypes a)
  else if wt then MkAccess (a_all a) ({[op]} ∪ a_operations a) (a_resourceTypes a)
  else MkAccess (a_all a) (a_operations a) ({[rt]} ∪ a_resourceTypes a).

Lemma grant_idem rt op a : grant rt op (grant rt op a) = grant rt op a.
Proof. unfold grant. destruct (eqb rt _), (eqb op _); cbn; f_equal; set_solver. Qed.

Lemma access_at_grants rt op roles m role :
  access_at (foldl (mergeGlobalAccessRole rt op (eqb rt "ALL"%string) (eqb op "ALL"%string)) m roles) role
  = if decide (role ∈ roles) then grant rt op (access_at m role) else access_at m role.
Proof.
  assert (Hone : ∀ m r, access_at (mergeGlobalAccessRole rt op (eqb rt "ALL"%string) (eqb op "ALL"%string) m r) role
    = if decide (role = r) then grant rt op (access_at m role) else access_at m role).
  { intros m' r. unfold mergeGlobalAccessRole, access_at. destruct (decide (role = r)) as [->|].
    - by rewrite lookup_insert_eq.
    - by rewrite lookup_insert_ne. }
  revert m. induction roles as [|r roles IH]; intros m; cbn [foldl].
  - rewrite decide_False; [done|]. apply not_elem_of_nil.
  - rewrite IH, Hone. destruct (decide (role = r)) as [->|Hne].
    + rewrite (decide_True (P := r ∈ r :: roles)) by by left. case_decide; [apply grant_idem|done].
    + destruct (decide (role ∈ roles)).
      * by rewrite decide_True by by right.
      * rewrite decide_False; [done|]. by intros [|]%elem_of_cons.
Qed.

(** The access of a role is the union of what the wildcard policies that name it grant. *)
Lemma run_access ps role :
  let a := access_at (m_global (run ps)) role in
  (a_all a = true ↔ Exists (grants_to role "ALL" "ALL") ps)
  ∧ (∀ op, op ∈ a_operations a ↔ op ≠ "ALL"%string ∧ Exists (grants_to role "ALL" op) ps)
  ∧ (∀ rt, rt ∈ a_resourceTypes a ↔ rt ≠ "ALL"%string ∧ Exists (grants_to role rt "ALL") ps).
Proof.
  induction ps as [|p ps IH] using rev_ind.
  - cbn. split_and!; [|intros ?..]; rewrite Exists_nil; [done|set_solver..].
  - cbn zeta in *. destruct IH as (IH1 & IH2 & IH3). rewrite run_snoc.
    assert (HE : ∀ rt op, Exists (grants_to role rt op) (ps ++ [p]) ↔ Exists (grants_to role rt op) ps ∨ grants_to role rt op p).
    { intros. rewrite Exists_app, Exists_cons, Exists_nil. tauto. }
    setoid_rewrite HE. unfold effect, grants_to. destruct (grants p) eqn:Eg; cbn [m_global]; [|split_and!; [|intros ?..]; naive_solver].
    rewrite access_at_grants. destruct (decide (role ∈ named_roles p)); [|split_and!; [|intros ?..]; naive_solver].
    set (a := access_at (m_global (run ps)) role) in *. clearbody a.
    assert (Hall : type_key p = "ALL"%string ∨ operation_key p = "ALL"%string).
    { unfold grants in Eg. apply andb_true_iff in Eg as [Eg _]. apply orb_true_iff in Eg as [Eg|Eg];
        apply (proj1 (eqb_true _ _)) in Eg; tauto. }
    unfold grant. destruct (eqb (type_key p) "ALL"%string) eqn:E1; [apply (proj1 (eqb_true _ _)) in E1|apply eqb_false in E1];
      (destruct (eqb (operation_key p) "ALL"%string) eqn:E2; [apply (proj1 (eqb_true _ _)) in E2|apply eqb_false in E2]);
      cbn [andb a_all a_operations a_resourceTypes]; split_and!; intros; rewrite ?elem_of_union, ?elem_of_singleton, ?IH1, ?IH2, ?IH3;
      try (split; intros; naive_solver).
Qed.
(** C38: the document of a list of policies that is not refused. The rules of a role on an
    operation are those of the policies that name it, or that name no role and are kept
    under ALL, in the order of the policies; the roles of an operation are the sorted union
    of the roles the policies name; and a role has the access the wildcard policies grant
    it, and no other. *)
Theorem NormalizePolicies_document ps d :
  NormalizePolicies ps = Ok d →
  (∀ rt op role, rules_at (rls d) rt op role = concat (rule_added rt op role <$> ps))
  ∧ (∀ rt op, roles_at (ols d) rt op = sorted_set (concat (roles_added rt op <$> ps)))
  ∧ ∀ role, let a := access_at (globalAccess d) role in
    (a_all a = true ↔ Exists (grants_to role "ALL" "ALL") ps)
    ∧ (∀ op, op ∈ a_operations a ↔ op ≠ "ALL"%string ∧ Exists (grants_to role "ALL" op) ps)
    ∧ (∀ rt, rt ∈ a_resourceTypes a ↔ rt ≠ "ALL"%string ∧ Exists (grants_to role rt "ALL") ps).
Proof.
  intros [-> _]%NormalizePolicies_maps. cbn [rls ols globalAccess]. fold (run ps).
  split_and!; [apply run_rules|apply run_roles|apply run_access].
Qed.

(** ** The index of subject attributes *)

(** A subject attribute a condition refers to. *)
Inductive refers (attr : bytes) : ast → Prop :=
  | refers_here path : attr ≠ [] → refers attr (Ref Subject (attr :: path))
  | refers_arg op args a : a ∈ args → refers attr a → refers attr (Op op args).

Lemma ast_refs_refers a attr : attr ∈ ast_refs a ↔ refers (bytes_of attr) a.
Proof.
  induction a as [a Ha|op args IH] using ast_induction.
  - destruct a as [c|[|] [|x path]|rt names|op args]; cbn [ast_refs];
      try (split; [by intros ?%elem_of_nil|inversion 1]).
    + destruct x as [|c x]; cbn [is_nil].
      * split; [by intros ?%elem_of_nil|]. inversion 1; subst. congruence.
      * rewrite list_elem_of_singleton. split.
        -- intros ->. rewrite bytes_of_string_of. by constructor.
        -- inversion 1. subst. by rewrite string_of_bytes_of || congruence.
    + by destruct (Ha op args).
  - cbn [ast_refs]. rewrite list_elem_of_In, in_concat. split.
    + intros (l & Hl & Hx). apply in_map_iff in Hl as (a & <- & Ha). rewrite Forall_forall in IH.
      apply (refers_arg _ op args a); [by apply list_elem_of_In|]. apply IH; [by apply list_elem_of_In|]. by apply list_elem_of_In.
    + inversion 1 as [|op' args' a Ha Hr]; subst. exists (ast_refs a). split; [by apply in_map, list_elem_of_In|].
      rewrite Forall_forall in IH. by apply list_elem_of_In, IH.
Qed.

(** A name a predicate refers to stands between its marks. *)
Lemma subject_names_sound fuel s name :
  name ∈ subject_names fuel s → ∃ a b, s = a ++ bytes_of "${subject." ++ name ++ "}"%char :: b ∧ name ≠ [] ∧ "}"%char ∉ name.
Proof.
  revert s. induction fuel as [|fuel IH]; intros s; [by intros ?%elem_of_nil|]. destruct s as [|c s]; [by intros ?%elem_of_nil|].
  assert (Hs : name ∈ subject_names fuel s → ∃ a b, c :: s = a ++ bytes_of "${subject." ++ name ++ "}"%char :: b ∧ name ≠ [] ∧ "}"%char ∉ name).
  { intros (a & b & -> & ?)%IH. by exists (c :: a), b. }
  cbn [subject_names]. destruct (cutPrefix (bytes_of "${subject.") (c :: s)) as [r|] eqn:E; [|done].
  apply cutPrefix_Some in E. destruct (span _ r) as [[|d n] [|e rest]] eqn:Es; try done.
  pose proof (span_app _ _ _ _ Es) as Hr. pose proof (span_all _ _ _ _ Es) as Hn. pose proof (span_head _ _ _ _ Es e eq_refl) as He.
  cbn beta in He. apply negb_false_iff, (proj1 (eqb_true _ _)) in He. subst e.
  intros [->|Hin]%elem_of_cons.
  - exists [], rest. rewrite E, Hr. split_and!; [done..|]. intros Hin. rewrite Forall_forall in Hn. by specialize (Hn _ Hin).
  - apply IH in Hin as (a & b & -> & Hne & Hbr). exists (bytes_of "${subject." ++ (d :: n) ++ "}"%char :: a), b.
    rewrite E, Hr. split; [|done]. by repeat (rewrite <-!app_assoc; cbn [app]).
Qed.

(** The attributes a rule mentions: in its condition, or in the text of a predicate. *)
Definition mentions (r : rule) (attr : string) : Prop :=
  (∃ a, conditionAst r = Some a ∧ refers (bytes_of attr) a) ∨ ∃ p, p ∈ predicates r ∧ attr ∈ placeholder_names (pred_text p).

Lemma scanRule_mentions r attr : attr ∈ scanRuleForSubjectRefs r ↔ mentions r attr.
Proof.
  unfold scanRuleForSubjectRefs, mentions. rewrite elem_of_app. apply ZifyClasses.or_morph.
  - destruct (conditionAst r) as [a|]; cbn [from_option]; [rewrite ast_refs_refers; naive_solver|].
    split; [by intros ?%elem_of_nil|naive_solver].
  - rewrite list_elem_of_In, in_concat. split.
    + intros (l & Hl & Hx). apply in_map_iff in Hl as (p & <- & Hp). exists p. by rewrite !list_elem_of_In.
    + intros (p & Hp & Hx). eexists. split; [by apply in_map, list_elem_of_In|]. by apply list_elem_of_In.
Qed.

Definition index_at (m : gmap string (gmap string (list string))) (rt op : string) : list string :=
  default [] (default ∅ (m !! rt) !! op).

Lemma collectSubjectRefs_elem opObj attr :
  attr ∈ collectSubjectRefs opObj ↔ ∃ role r, r ∈ default [] (opObj !! role) ∧ mentions r attr.
Proof.
  unfold collectSubjectRefs. rewrite list_elem_of_In, in_concat. split.
  - intros (l & Hl & Hx). apply in_map_iff in Hl as (rs & <- & Hrs).
    apply list_elem_of_In, list_elem_of_fmap in Hrs as ([role rs'] & -> & Hrs). apply elem_of_map_to_list in Hrs.
    apply in_concat in Hx as (l & Hl & Hx). apply in_map_iff in Hl as (r & <- & Hr).
    exists role, r. rewrite Hrs. split; [by apply list_elem_of_In|]. by apply scanRule_mentions, list_elem_of_In.
  - intros (role & r & Hr & Hm). destruct (opObj !! role) as [rs|] eqn:E; [|by apply elem_of_nil in Hr]. cbn in Hr.
    exists (concat (scanRuleForSubjectRefs <$> rs)). split.
    + apply (in_map (λ rs, concat (scanRuleForSubjectRefs <$> rs))), list_elem_of_In, list_elem_of_fmap.
      exists (role, rs). split; [done|]. by apply elem_of_map_to_list.
    + apply in_concat. exists (scanRuleForSubjectRefs r). split; [by apply in_map, list_elem_of_In|].
      by apply list_elem_of_In, scanRule_mentions.
Qed.

Lemma index_at_build m rt op :
  index_at (buildRefIndex m) rt op = sorted_set (collectSubjectRefs (default ∅ (default ∅ (m !! rt) !! op))).
Proof.
  unfold index_at, buildRefIndex. rewrite lookup_omap. destruct (m !! rt) as [rtObj|]; [|done]. cbn [mbind option_bind from_option id].
  set (idx := omap _ rtObj).
  assert (Hidx : default [] (idx !! op) = sorted_set (collectSubjectRefs (default ∅ (rtObj !! op)))).
  { unfold idx. rewrite lookup_omap. destruct (rtObj !! op) as [opObj|]; [|done]. cbn [mbind option_bind from_option id].
    destruct (collectSubjectRefs opObj) eqn:E; done. }
  case_bool_decide as He; [|done]. rewrite He in Hidx. rewrite <-Hidx. done.
Qed.

(** The index lists, for an operation on a type, exactly the subject attributes some
    rule kept there mentions, each once and in order. *)
Theorem refIndex_exact ps d :
  NormalizePolicies ps = Ok d →
  ∀ rt op, index_at (refIndex d) rt op = sorted_set (index_at (refIndex d) rt op)
    ∧ ∀ attr, attr ∈ index_at (refIndex d) rt op ↔ ∃ role r, r ∈ rules_at (rls d) rt op role ∧ mentions r attr.
Proof.
  intros [-> _]%NormalizePolicies_maps rt op. cbn [refIndex rls]. rewrite index_at_build. split.
  - apply sorted_set_ext. intros x. by rewrite sorted_set_elem.
  - intros attr. rewrite sorted_set_elem, collectSubjectRefs_elem. done.
Qed.
(** ** From the export to the document *)

Lemma normalizeKey_solid role : is_blank (bytes_of role) = false → is_empty (normalizeKey role) = false.
Proof.
  unfold is_blank, normalizeKey. intros H. apply is_empty_false. intros E%(f_equal bytes_of). rewrite bytes_of_string_of in E.
  destruct (TrimSpace (bytes_of role)) as [|c s]; [done|]. unfold ToUpper, map_runes in E.
  destruct (runes_split c s) as (x & w & Er & _). rewrite Er in E. cbn [map concat fst] in E.
  apply app_eq_nil in E as [E _]. revert E. unfold encode. by repeat case_match.
Qed.

Lemma named_roles_elem p role :
  role ∈ named_roles p ↔ is_empty role = false ∧ ∃ r, r ∈ default [] (P_Roles p) ∧ role = normalizeKey r.
Proof.
  unfold named_roles. rewrite sorted_set_elem, list_elem_of_In, filter_In, <-list_elem_of_In, negb_true_iff.
  rewrite list_elem_of_fmap. naive_solver.
Qed.

(** C12: restrictions to roles survive the way from the export to the document. A rule kept for every
    subject, under the role ALL, comes from a rule of the export whose two targets restrict
    no role, or from one that names a role spelled ALL; a blank role, which would open the
    rule, never comes out of the conversion. *)
Theorem open_rules_unrestricted sets d rt op r :
  NormalizePolicies (converted <$> (ConvertPolicySets sets).1) = Ok d →
  r ∈ rules_at (rls d) rt op "ALL" →
  ∃ sp p rl r0, sp ∈ (ConvertPolicySets sets).1 ∧ comes_from sets sp p rl
    ∧ normalizeRule (converted sp) = Ok r0 ∧ r = cloneRule r0
    ∧ ((∀ t, t ∈ [PolicyTarget p; RuleTarget rl] → parseTarget t = targetAny ∨ ∃ o, parseTarget t = targetOperation o)
       ∨ ∃ role, role ∈ Roles sp ∧ normalizeKey role = "ALL"%string).
Proof.
  intros [-> _]%NormalizePolicies_maps Hr. cbn [rls] in Hr. fold (run (converted <$> (ConvertPolicySets sets).1)) in Hr.
  rewrite (proj2 (run_rules _)) in Hr. apply list_elem_of_In, in_concat in Hr as (l & Hl & Hr).
  apply list_elem_of_In, list_elem_of_fmap in Hl as (q & -> & Hq). apply list_elem_of_fmap in Hq as (sp & -> & Hsp).
  unfold rule_added in Hr. destruct (grants _); [done|]. case_decide as Hk; [|done]. destruct Hk as (_ & _ & Hk).
  destruct (normalizeRule (converted sp)) as [r0|] eqn:Er; [|done]. destruct Hr as [<-|[]].
  destruct (converted_comes_from _ _ Hsp) as (p & rl & Hc). exists sp, p, rl, r0. split_and!; [done..|].
  unfold role_keys in Hk. destruct (is_nil (named_roles (converted sp))) eqn:En.
  - left. apply (without_roles_targets _ _ _ _ Hc). apply is_nil_true in En.
    destruct (Roles sp) as [|role roles] eqn:Eroles; [done|]. exfalso.
    pose proof (converted_roles_solid _ _ _ _ Hc) as Hsolid. rewrite Eroles in Hsolid. apply Forall_cons in Hsolid as [Hrole _].
    assert (normalizeKey role ∈ named_roles (converted sp)) as Hin.
    { apply named_roles_elem. split; [by apply normalizeKey_solid|]. exists role. cbn. rewrite Eroles. split; [by left|done]. }
    rewrite En in Hin. by apply elem_of_nil in Hin.
  - right. apply named_roles_elem in Hk as (_ & role & Hin & ->). by exists role.
Qed.
End document.

(** ** Integers *)

(** The copy of a rule keeps an integer constant of a condition exactly up to [2^53] in
    size: the [float64] it becomes has its sign and its value and no fraction. *)
Theorem integers_kept z :
  (Z.abs z <= 2 ^ 53)%Z →
  ∃ x, clone_constant (CInt z) = CFloat (z <? 0)%Z x ∧ truncate_double x = Z.abs z ∧ (fraction_double x).1 = 0%Z.
Proof.
  intros H. eexists. split; [reflexivity|]. destruct (decide (Z.abs z = 2 ^ 53)%Z) as [->|Hne]; [done|].
  destruct (round_double_whole (Z.abs z) ltac:(lia)) as (H1 & H2 & _). done.
Qed.

Lemma integers_kept_witness :
  ∃ x, clone_constant (CInt (-9007199254740992)) = CFloat true x ∧ truncate_double x = 9007199254740992%Z ∧ (fraction_double x).1 = 0%Z.
Proof. apply (integers_kept (-9007199254740992)). vm_compute. discriminate. Defined.

(** ** Conditions that are lost *)

(** Groups of two operands in one another, and under and and or in turn. *)
Definition leaf : ast := Op op_is_null [Ref Resource [bytes_of "a"]].
Fixpoint deep (n : nat) : ast :=
  match n with 0 => leaf | S n => Op op_and [leaf; Op op_or [leaf; deep n]] end.

Lemma deep_condition n : condition (deep n) = true ∧ SimplifiedPrint.written (deep n) = true ∧ 4 * n ≤ ast_nesting (deep n).
Proof.
  induction n as [|n (H1 & H2 & H3)]; [by split_and!; [vm_compute..|lia]|]. cbn [deep].
  assert (Hl : condition leaf = true ∧ SimplifiedPrint.written leaf = true) by by split; vm_compute. destruct Hl as [L1 L2].
  split_and!.
  - change (condition leaf && ((condition leaf && (condition (deep n) && true)) && true) = true). by rewrite L1, H1.
  - change (SimplifiedPrint.written leaf && ((SimplifiedPrint.written leaf && (SimplifiedPrint.written (deep n) && true)) && true) = true). by rewrite L2, H2.
  - change (ast_nesting (Op op_and [leaf; Op op_or [leaf; deep n]])) with (2 + (ast_nesting leaf `max` ((2 + (ast_nesting leaf `max` (ast_nesting (deep n) `max` 0))) `max` 0))). lia.
Qed.

(** There are conditions the parser takes whose rule is kept empty: the copy of the rule ignores
    that its JSON is nested too deep to be read. An empty rule restricts nothing. *)
Theorem deep_condition_lost {case : CaseTable} {laws : CaseLaws} :
  ∃ text a, ParseCondition text = Ok a ∧ cloneRule (MkRule None (Some a) []) = no_rule.
Proof.
  destruct (deep_condition (Z.to_nat 2500)) as (H1 & H2 & H3). set (a := deep (Z.to_nat 2500)) in *. clearbody a.
  exists (SimplifiedPrint.render (SimplifiedPrint.unparse a)), a. split; [by apply SimplifiedPrint.written_read|].
  apply cloneRule_deep. unfold rule_nesting. cbn [conditionAst predicates from_option is_nil]. lia.
Qed.

(** ** Examples *)

Definition example_policy (rt op : string) (roles : list string) (condition : string) (rsql : string) : Policy :=
  MkPolicy "BSS" rt op (if is_empty condition then NoCondition else TextCondition condition) rsql "" "" "" (Some roles).

Definition example_policies : list Policy :=
  [example_policy "order" "read" ["admin"; " Admin "; "user"] "subject.region EQUALS 'EU'" "owner==${subject.id};r==${subject.region}";
   example_policy "ORDER" "Read" ["guest"] "" "";
   example_policy "all" "read" ["auditor"] "not a condition" "";
   example_policy "order" "write" [" "] "" "a==b"].

Definition example_document : result (nat * reason) document := NormalizePolicies (case:=latin_case) example_policies.

Lemma example_document_ok :
  match example_document with
  | Ok d =>
      roles_at (ols d) "ORDER" "READ" = ["ADMIN"; "GUEST"; "USER"]%string
      ∧ length <$> [rules_at (rls d) "ORDER" "READ" "ADMIN"; rules_at (rls d) "ORDER" "WRITE" "ALL"; rules_at (rls d) "ALL" "READ" "AUDITOR"] = [1; 1; 0]
      ∧ index_at (refIndex d) "ORDER" "READ" = ["id"; "region"]%string
      ∧ elements (a_operations (access_at (globalAccess d) "AUDITOR")) = ["READ"]%string
  | Err _ => False
  end.
Proof. vm_compute. auto. Qed.

(** A condition on an integer past [2^53] is kept as the condition on its neighbour. *)
Lemma integers_confused :
  let case := latin_case in
  let rule n := cloneRule <$> normalizeRule (example_policy "ORDER" "READ" [] ("resource.id EQUALS " +:+ n) "") in
  ParseCondition (bytes_of "resource.id EQUALS 9007199254740993") ≠ ParseCondition (bytes_of "resource.id EQUALS 9007199254740992")
  ∧ rule "9007199254740993"%string = rule "9007199254740992"%string ∧ is_ok (rule "9007199254740993"%string) = true.
Proof. split_and!; [by vm_compute|vm_compute; reflexivity..]. Qed.

Lemma NormalizePolicies_document_witness :
  ∃ d, NormalizePolicies (case:=latin_case) example_policies = Ok d
    ∧ rules_at (rls d) "ORDER" "READ" "ADMIN" = concat (rule_added (case:=latin_case) "ORDER" "READ" "ADMIN" <$> example_policies)
    ∧ rules_at (rls d) "ORDER" "READ" "ADMIN" ≠ [].
Proof.
  pose proof example_document_ok as H.
  destruct example_document as [d|e] eqn:E; [|destruct H]. exists d. split; [exact E|]. split.
  - exact (proj1 (NormalizePolicies_document (case:=latin_case) _ _ E) "ORDER" "READ" "ADMIN")%string.
  - destruct H as (_ & H & _). intros Hn. rewrite Hn in H. discriminate H.
Defined.

Lemma refIndex_exact_witness :
  ∃ d, NormalizePolicies (case:=latin_case) example_policies = Ok d
    ∧ ∃ role r, r ∈ rules_at (rls d) "ORDER" "READ" role ∧ mentions r "region".
Proof.
  pose proof example_document_ok as H.
  destruct example_document as [d|e] eqn:E; [|destruct H]. exists d. split; [exact E|].
  destruct (refIndex_exact (case:=latin_case) _ _ E "ORDER" "READ")%string as [_ Hi]. apply Hi.
  destruct H as (_ & _ & -> & _). right. left.
Defined.

Definition open_document : result (nat * reason) document :=
  NormalizePolicies (case:=latin_case) (converted <$> (ConvertPolicySets example_sets).1).

Lemma open_document_ok :
  match open_document with
  | Ok d => match rules_at (rls d) "ORDER" "READ" "ALL" with r :: _ => r_condition r = Some true | [] => False end
  | Err _ => False
  end.
Proof. vm_compute. reflexivity. Qed.

Lemma open_rules_unrestricted_witness :
  ∃ d r, NormalizePolicies (case:=latin_case) (converted <$> (ConvertPolicySets example_sets).1) = Ok d
    ∧ r ∈ rules_at (rls d) "ORDER" "READ" "ALL" ∧ ∃ sp, sp ∈ (ConvertPolicySets example_sets).1.
Proof.
  pose proof open_document_ok as H.
  destruct open_document as [d|e] eqn:E; [|destruct H].
  destruct (rules_at (rls d) "ORDER" "READ" "ALL") as [|r rs] eqn:Er; [destruct H|]. exists d, r. split; [exact E|].
  assert (Hr : r ∈ rules_at (rls d) "ORDER" "READ" "ALL") by (rewrite Er; by left). split; [exact Hr|].
  destruct (open_rules_unrestricted (case:=latin_case) _ _ _ _ _ E Hr) as (sp & _ & _ & _ & Hsp & _). by exists sp.
Defined.

End Normalize.
