(* ===== verification/PipActivation.v ===== *)
(** * The activation index of general information points ([internal/pips/activation.go])

    [BuildActivationIndexFromPolicies] over the document [NormalizePolicies] returns: the JSON
    value the document is written to and read from, the scans over that value, and the index
    of the names each operation needs. The load of a pull composes them with [NormalizeItems].
    The index lists its names in the order a map is ranged over; here they are a set. *)
From S2P Require Import Prelude GoText Json Encoding JsonFields GoCase JsonText SimplifiedParser Normalize PipPath Pips.
Import GoText Encoding JsonFields GoCase JsonText SimplifiedParser Normalize.

Module PipActivation.

(** ** JSON values as they are decoded into [any] *)

Inductive value :=
  | VNull
  | VBool (b : bool)
  | VNumber (negative : bool) (size : Z * Z)
  | VString (s : bytes)
  | VList (items : list value)
  | VMap (members : list (string * value)).

Definition get (key : string) (ms : list (string * value)) : option value := snd <$> List.find (λ m, eqb m.1 key) ms.

Definition text (s : bytes) : value := VString (valid_text s).
Definition key_text (s : string) : string := string_of (valid_text (bytes_of s)).

Fixpoint value_of_constant (c : constant) : value :=
  match c with
  | CBool b => VBool b
  | CText s => text s
  | CInt z => VNumber (z <? 0)%Z (round_double (Z.abs z) 1)
  | CFloat n x => VNumber n x
  | CList cs => VList (value_of_constant <$> cs)
  end.

Definition op_text (op : operator) : string :=
  match op with
  | op_or => "or" | op_and => "and" | op_not => "not" | op_contains_any => "contains_any" | op_contains => "contains"
  | op_neq => "neq" | op_eq => "eq" | op_in => "in" | op_match => "match" | op_is_empty => "is_empty" | op_is_null => "is_null"
  | op_is_subset => "is_subset" | op_gte => "gte" | op_gt => "gt" | op_lte => "lte" | op_lt => "lt" | op_has_access => "has_access"
  end.

Definition scope_text (s : scope) : string := match s with Subject => "subject" | Resource => "resource" end.

Fixpoint value_of_ast (a : ast) : value :=
  match a with
  | Const c => VMap [("const"%string, value_of_constant c)]
  | Ref s path => VMap [("ref"%string, VMap [("path"%string, VList (text <$> path)); ("scope"%string, text (bytes_of (scope_text s)))])]
  | Entitlements rt names =>
      VMap [("ref"%string, VMap [("names"%string, VList (text <$> names)); ("resourceType"%string, text rt); ("scope"%string, text (bytes_of "entitlements"))])]
  | Op op args => VMap [("args"%string, VList (value_of_ast <$> args)); ("op"%string, text (bytes_of (op_text op)))]
  end.

Definition value_of_predicate (p : predicate) : value :=
  VMap ((if is_nil (placeholderKeys p) then [] else [("placeholderKeys"%string, VList ((λ k, text (bytes_of k)) <$> placeholderKeys p))])
        ++ [("predicate"%string, text (pred_text p)); ("type"%string, text (bytes_of (pred_type p)))]).

Definition value_of_rule (r : rule) : value :=
  VMap (match r_condition r with Some b => [("condition"%string, VBool b)] | None => [] end
        ++ match conditionAst r with Some a => [("conditionAst"%string, value_of_ast a)] | None => [] end
        ++ (if is_nil (predicates r) then [] else [("predicates"%string, VList (value_of_predicate <$> predicates r))])).

Definition value_of_map {A} (f : A → value) (m : gmap string A) : list (string * value) := (λ kv, (key_text kv.1, f kv.2)) <$> map_to_list m.

(** The value under [rls] of a document that was marshalled and unmarshalled. *)
Definition rls_value (m : gmap string (gmap string (gmap string (list rule)))) : list (string * value) :=
  value_of_map (λ rtObj, VMap (value_of_map (λ opObj, VMap (value_of_map (λ rs, VList (value_of_rule <$> rs)) opObj)) rtObj)) m.

(** ** The scans *)

Section scans.
(** [fmt.Sprintf] with [%v] of a value that is not a string. *)
Context (show : value → string).

Definition sprint (v : option value) : bytes :=
  match v with
  | Some (VString s) => s
  | Some VNull | None => bytes_of "<nil>"
  | Some v => bytes_of (show v)
  end.

Section names.
Context (aliasToName : gmap string string).

Definition see (alias : bytes) (seen : gset string) : gset string :=
  match aliasToName !! string_of alias with Some pipName => {[pipName]} ∪ seen | None => seen end.

Definition scan_ref (ref : list (string * value)) (seen : gset string) : gset string :=
  if EqualFold (sprint (get "scope" ref)) (bytes_of "subject") then
    match get "path" ref with
    | Some (VList (p :: _)) => see (sprint (Some p)) seen
    | _ => seen
    end
  else seen.

(** The members are searched in place, for the recursion through [args]. *)
Fixpoint scanASTForSubjectRefs (node : value) (seen : gset string) : gset string :=
  match node with
  | VMap obj =>
      let seen := match get "ref" obj with Some (VMap ref) => scan_ref ref seen | _ => seen end in
      (fix args (ms : list (string * value)) : gset string :=
         match ms with
         | [] => seen
         | (k, v) :: ms =>
             if eqb k "args"%string then
               match v with VList items => fold_left (λ s arg, scanASTForSubjectRefs arg s) items seen | _ => seen end
             else args ms
         end) obj
  | _ => seen
  end.

Definition scanPredicateForSubjectRefs (predicate : bytes) (seen : gset string) : gset string :=
  fold_left (λ s alias, see (bytes_of alias) s) (placeholder_names predicate) seen.

Definition scan_predicate (seen : gset string) (p : value) : gset string :=
  match p with
  | VMap pred => scanPredicateForSubjectRefs (sprint (get "predicate" pred)) seen
  | _ => seen
  end.

Definition scan_rule (seen : gset string) (r : value) : gset string :=
  match r with
  | VMap rule =>
      let seen := match get "conditionAst" rule with Some ast => scanASTForSubjectRefs ast seen | None => seen end in
      match get "predicates" rule with
      | Some (VList ps) => fold_left scan_predicate ps seen
      | _ => seen
      end
  | _ => seen
  end.

Definition collectPIPRefsFromOperation (opObj : list (string * value)) : gset string :=
  fold_left (λ seen kv, match kv.2 with VList rules => fold_left scan_rule rules seen | _ => seen end) opObj ∅.

Definition index_operation (resourceType : string) (result : gmap string (gmap string (gset string))) (kv : string * value)
    : gmap string (gmap string (gset string)) :=
  match kv.2 with
  | VMap opObj =>
      let pipNames := collectPIPRefsFromOperation opObj in
      if decide (pipNames = ∅) then result
      else <[resourceType := <[kv.1 := pipNames]> (default ∅ (result !! resourceType))]> result
  | _ => result
  end.

Definition buildIndex (rlsData : list (string * value)) : gmap string (gmap string (gset string)) :=
  fold_left (λ result kv, match kv.2 with VMap rtObj => fold_left (index_operation kv.1) rtObj result | _ => result end) rlsData ∅.
End names.

Definition TrimPrefix (p s : string) : string := string_of (default (bytes_of s) (cutPrefix (bytes_of p) (bytes_of s))).

(** [aliasIndex]; the entries of the map, in the order they are ranged over. *)
Definition aliasIndex (entries : list (string * Pips.GeneralPIPConfig)) : gmap string string :=
  fold_left (λ m e, <[TrimPrefix "subject." e.1 := e.1]> (<[Pips.G_Alias e.2 := e.1]> m)) entries ∅.

Definition BuildActivationIndexFromPolicies (entries : list (string * Pips.GeneralPIPConfig)) (policies : document)
    : gmap string (gmap string (gset string)) :=
  if is_nil entries then ∅
  else if negb (encodes policies) then ∅
  else
    let rlsData := rls_value (rls policies) in
    if is_nil rlsData then ∅ else buildIndex (aliasIndex entries) rlsData.

End scans.
(** ** What the scans see *)

Section seen.
Context (show : value → string) (aliasToName : gmap string string).

(** A set that grows by the name of an alias, if it has one. *)
Lemma see_elem alias seen n : n ∈ see aliasToName alias seen ↔ n ∈ seen ∨ aliasToName !! string_of alias = Some n.
Proof. unfold see. destruct (aliasToName !! string_of alias) as [m|]; set_solver. Qed.

(** A fold whose every step adds what its element contributes. *)
Lemma fold_elem {A} (f : gset string → A → gset string) (P : A → string → Prop) l seen n :
  (∀ s x, x ∈ l → n ∈ f s x ↔ n ∈ s ∨ P x n) → n ∈ fold_left f l seen ↔ n ∈ seen ∨ ∃ x, x ∈ l ∧ P x n.
Proof.
  revert seen. induction l as [|x l IH]; intros seen Hf; cbn [fold_left].
  - split; [by left|]. intros [H|(x & Hx & _)]; [done|by apply elem_of_nil in Hx].
  - rewrite IH by (intros; apply Hf; by right). rewrite Hf by left. setoid_rewrite elem_of_cons. naive_solver.
Qed.

Lemma fold_fmap {A B} (f : gset string → B → gset string) (g : A → B) l seen :
  fold_left f (g <$> l) seen = fold_left (λ s x, f s (g x)) l seen.
Proof. revert seen. induction l as [|x l IH]; intros seen; [done|]. apply IH. Qed.

Lemma settled_list {A} (f : A → A) (l : list A) : f <$> l = l → ∀ x, x ∈ l → f x = x.
Proof.
  induction l as [|y l IH]; cbn; [by intros _ x ?%elem_of_nil|]. intros [= Hy Hl] x [->|Hx]%elem_of_cons; [done|by apply IH].
Qed.

Definition named (attr : string) (n : string) : Prop := aliasToName !! attr = Some n.

Lemma scan_names predicate seen n :
  n ∈ scanPredicateForSubjectRefs aliasToName predicate seen ↔ n ∈ seen ∨ ∃ attr, attr ∈ placeholder_names predicate ∧ named attr n.
Proof.
  unfold scanPredicateForSubjectRefs. apply (fold_elem _ (λ attr n, named attr n)). intros s x _.
  by rewrite see_elem, string_of_bytes_of.
Qed.

Lemma scan_op args op seen :
  scanASTForSubjectRefs show aliasToName (VMap [("args"%string, VList args); ("op"%string, op)]) seen
  = fold_left (λ s arg, scanASTForSubjectRefs show aliasToName arg s) args seen.
Proof. done. Qed.

Lemma refers_op attr op args : refers attr (Op op args) ↔ ∃ a, a ∈ args ∧ refers attr a.
Proof. split; [inversion 1; subst; eauto|]. intros (a & Ha & Hr). by apply refers_arg with a. Qed.

(** The attributes a condition refers to, in its copy through JSON. *)
Lemma scan_ast_elem a seen n :
  aliasToName !! EmptyString = None → clone_ast a = a →
  n ∈ scanASTForSubjectRefs show aliasToName (value_of_ast a) seen ↔ n ∈ seen ∨ ∃ attr, refers (bytes_of attr) a ∧ named attr n.
Proof.
  intros Hempty. revert seen. induction a as [a Ha|op args IH] using ast_induction; intros seen Hc.
  - assert (Hnone : (∀ attr, ¬ refers attr a) → n ∈ seen ↔ n ∈ seen ∨ ∃ attr, refers (bytes_of attr) a ∧ named attr n).
    { intros H. split; [by left|]. intros [?|(x & Hx & _)]; [done|]. by apply H in Hx. }
    destruct a as [c|[] path|rt names|op args]; [by apply Hnone; intros ?; inversion 1| |by apply Hnone; intros ?; inversion 1..|by destruct (Ha op args)].
    destruct path as [|attr path]; [by apply Hnone; intros ?; inversion 1|]. cbn [clone_ast] in Hc. injection Hc as Hattr _.
    change (scanASTForSubjectRefs show aliasToName (value_of_ast (Ref Subject (attr :: path))) seen) with (see aliasToName (valid_text attr) seen).
    rewrite see_elem, Hattr. apply or_iff_compat_l. unfold named. split.
    + intros H. exists (string_of attr). rewrite bytes_of_string_of. split; [|done]. constructor. intros ->. cbn in H. congruence.
    + intros (x & Hr & Hn). inversion Hr as [p Hne E|]; subst. by rewrite string_of_bytes_of.
  - cbn [value_of_ast]. rewrite scan_op. cbn [clone_ast] in Hc. injection Hc as Hc. setoid_rewrite refers_op.
    rewrite fold_fmap, (fold_elem _ (λ a n, ∃ attr, refers (bytes_of attr) a ∧ named attr n)).
    + apply or_iff_compat_l. split; [intros (a & Ha & attr & Hr & Hn)|intros (attr & (a & Ha & Hr) & Hn)]; eauto 6.
    + intros s a Ha. rewrite Forall_forall in IH. apply IH; [done|]. by apply (settled_list clone_ast args).
Qed.

(** The attributes a kept rule mentions. *)
Lemma scan_rule_elem r seen n :
  aliasToName !! EmptyString = None → cloneRule r = r →
  n ∈ scan_rule show aliasToName seen (value_of_rule r) ↔ n ∈ seen ∨ ∃ attr, mentions r attr ∧ named attr n.
Proof.
  intros Hempty Hc. destruct r as [c a ps]. apply cloneRule_parts in Hc as [Ha Hps]. cbn [conditionAst predicates] in Ha, Hps.
  unfold mentions. cbn [conditionAst predicates].
  set (seen' := match a with Some a => scanASTForSubjectRefs show aliasToName (value_of_ast a) seen | None => seen end).
  assert (Hs : scan_rule show aliasToName seen (value_of_rule (MkRule c a ps))
    = fold_left (scan_predicate show aliasToName) (value_of_predicate <$> ps) seen').
  { unfold scan_rule, value_of_rule, seen'. cbn [r_condition conditionAst predicates].
    by destruct c as [b|], a as [a|], ps as [|p ps]. }
  rewrite Hs, fold_fmap, (fold_elem _ (λ p n, ∃ attr, attr ∈ placeholder_names (pred_text p) ∧ named attr n)).
  2: { intros s p Hp. assert (E : scan_predicate show aliasToName s (value_of_predicate p) = scanPredicateForSubjectRefs aliasToName (valid_text (pred_text p)) s).
    { unfold scan_predicate, value_of_predicate. by destruct (is_nil (placeholderKeys p)). }
    rewrite E, scan_names. pose proof (settled_list clone_predicate ps Hps p Hp) as Ep. apply (f_equal pred_text) in Ep. cbn in Ep. by rewrite Ep. }
  assert (Hseen : n ∈ seen' ↔ n ∈ seen ∨ ∃ attr, (∃ t, a = Some t ∧ refers (bytes_of attr) t) ∧ named attr n).
  { unfold seen'. destruct a as [a|].
    - rewrite scan_ast_elem by (done || by injection Ha). apply or_iff_compat_l.
      split; [intros (attr & Hr & Hn); eauto 6|]. intros (attr & (t & [= <-] & Hr) & Hn). eauto.
    - split; [by left|]. by intros [?|(? & (? & ? & _) & _)]. }
  rewrite Hseen. split.
  - intros [[H|(attr & H & Hn)]|(p & Hp & attr & H & Hn)]; [by left|right; eauto..]. exists attr. split; [|done]. right. eauto.
  - intros [H|(attr & [H|(p & Hp & H)] & Hn)]; [by left; left|left; right; eauto|right; eauto].
Qed.
Lemma operation_elem (opObj : gmap string (list rule)) n :
  aliasToName !! EmptyString = None → (∀ role, Forall (λ r, cloneRule r = r) (default [] (opObj !! role))) →
  n ∈ collectPIPRefsFromOperation show aliasToName (value_of_map (λ rs, VList (value_of_rule <$> rs)) opObj)
  ↔ ∃ attr, attr ∈ collectSubjectRefs opObj ∧ named attr n.
Proof.
  intros Hempty Hset. unfold collectPIPRefsFromOperation, value_of_map. rewrite fold_fmap. cbn [snd].
  rewrite (fold_elem _ (λ kv n, ∃ r attr, r ∈ kv.2 ∧ mentions r attr ∧ named attr n)).
  - setoid_rewrite collectSubjectRefs_elem. split.
    + intros [?%elem_of_empty|([role rs] & Hin & r & attr & Hr & Hm & Hn)]; [done|].
      apply elem_of_map_to_list in Hin. exists attr. split; [|done]. exists role, r. by rewrite Hin.
    + intros (attr & (role & r & Hr & Hm) & Hn). right. destruct (opObj !! role) as [rs|] eqn:E; [|by apply elem_of_nil in Hr].
      exists (role, rs). split; [by apply elem_of_map_to_list|]. by exists r, attr.
  - intros s [role rs] Hin. apply elem_of_map_to_list in Hin. specialize (Hset role). rewrite Hin in Hset. cbn [snd from_option id] in *.
    rewrite fold_fmap, (fold_elem _ (λ r n, ∃ attr, mentions r attr ∧ named attr n)).
    + apply or_iff_compat_l. split; [intros (r & Hr & attr & Hm & Hn)|intros (r & attr & Hr & Hm & Hn)]; eauto.
    + intros s' r Hr. rewrite Forall_forall in Hset. by apply scan_rule_elem; [|apply Hset].
Qed.

Definition names_at (m : gmap string (gmap string (gset string))) (rt op : string) : gset string := default ∅ (default ∅ (m !! rt) !! op).

(** The names of the members of a value that are objects. *)
Definition object (key : string) (ms : list (string * value)) (o : list (string * value)) : Prop := (key, VMap o) ∈ ms.

Lemma index_operation_at rt result kv rt' op' :
  names_at (index_operation show aliasToName rt result kv) rt' op'
  = match kv.2 with
    | VMap opObj =>
        if decide (rt' = rt ∧ op' = kv.1 ∧ collectPIPRefsFromOperation show aliasToName opObj ≠ ∅)
        then collectPIPRefsFromOperation show aliasToName opObj else names_at result rt' op'
    | _ => names_at result rt' op'
    end.
Proof.
  unfold index_operation, names_at. destruct (kv.2) as [|b|neg x|t|l|opObj]; try done.
  destruct (decide (collectPIPRefsFromOperation show aliasToName opObj = ∅)) as [E|E]; [by rewrite decide_False by tauto|].
  destruct (decide (rt' = rt)) as [->|Hrt]; [|rewrite lookup_insert_ne by done; by rewrite decide_False by tauto].
  rewrite lookup_insert_eq. cbn [from_option id]. destruct (decide (op' = kv.1)) as [->|Hop].
  - by rewrite lookup_insert_eq, decide_True by tauto.
  - rewrite lookup_insert_ne by done; by rewrite decide_False by tauto.
Qed.

(** The index of one resource type: every operation once. *)
Lemma index_type_at rt rtObj result rt' op' n :
  NoDup rtObj.*1 → (∀ op, op ∈ rtObj.*1 → names_at result rt op = ∅) →
  n ∈ names_at (fold_left (index_operation show aliasToName rt) rtObj result) rt' op'
  ↔ n ∈ names_at result rt' op'
    ∨ rt' = rt ∧ ∃ opObj, object op' rtObj opObj ∧ n ∈ collectPIPRefsFromOperation show aliasToName opObj.
Proof.
  revert result. induction rtObj as [|[op v] rtObj IH]; intros result Hnd Hempty; cbn [fold_left].
  { split; [by left|]. by intros [?|(_ & o & ?%elem_of_nil & _)]. }
  cbn [fmap list_fmap fst] in Hnd, Hempty. apply NoDup_cons in Hnd as [Hni Hnd].
  rewrite IH; [|done|].
  2: { intros op'' Hin. rewrite index_operation_at. cbn [fst snd]. destruct v; try (apply Hempty; by right).
    rewrite decide_False by (intros (_ & -> & _); done). apply Hempty. by right. }
  rewrite index_operation_at. cbn [fst snd]. unfold object.
  assert (Hhead : names_at result rt op = ∅) by (apply Hempty; by left).
  destruct v as [|b|neg x|t|l|opObj];
    try (apply or_iff_compat_l; setoid_rewrite elem_of_cons; split; [intros (-> & o & H & Hn); eauto|];
      intros (-> & o & [[=]|H] & Hn); eauto).
  setoid_rewrite elem_of_cons. destruct (decide (rt' = rt ∧ op' = op ∧ _)) as [(-> & -> & Hne)|Hno].
  - rewrite Hhead. split.
    + intros [H|(_ & o & H & Hn)]; right; split; eauto.
    + intros [?%elem_of_empty|(_ & o & [[= ->]|H] & Hn)]; [done|by left|right; eauto].
  - split.
    + intros [H|(-> & o & H & Hn)]; [by left|right; eauto].
    + intros [H|(-> & o & [[= -> ->]|H] & Hn)]; [by left| |right; eauto]. exfalso. apply Hno. split_and!; [done..|]. intros E. by rewrite E in Hn.
Qed.

Lemma buildIndex_from rlsData result rt op n :
  NoDup rlsData.*1 → (∀ rt rtObj, object rt rlsData rtObj → NoDup rtObj.*1) → (∀ rt op, rt ∈ rlsData.*1 → names_at result rt op = ∅) →
  n ∈ names_at (fold_left (λ result kv, match kv.2 with VMap rtObj => fold_left (index_operation show aliasToName kv.1) rtObj result | _ => result end)
                 rlsData result) rt op
  ↔ n ∈ names_at result rt op
    ∨ ∃ rtObj opObj, object rt rlsData rtObj ∧ object op rtObj opObj ∧ n ∈ collectPIPRefsFromOperation show aliasToName opObj.
Proof.
  revert result. induction rlsData as [|[k v] rlsData IH]; intros result Hnd Hin Hempty; cbn [fold_left].
  { split; [by left|]. by intros [?|(o & o' & ?%elem_of_nil & _)]. }
  cbn [fmap list_fmap fst snd] in *. apply NoDup_cons in Hnd as [Hni Hnd]. unfold object in Hin. setoid_rewrite elem_of_cons in Hin.
  assert (Hin' : ∀ rt rtObj, object rt rlsData rtObj → NoDup rtObj.*1) by (intros; eapply Hin; by right).
  assert (Hcons : (∃ rtObj opObj, object rt ((k, v) :: rlsData) rtObj ∧ object op rtObj opObj ∧ n ∈ collectPIPRefsFromOperation show aliasToName opObj)
    ↔ (∃ rtObj opObj, (rt, VMap rtObj) = (k, v) ∧ object op rtObj opObj ∧ n ∈ collectPIPRefsFromOperation show aliasToName opObj)
      ∨ ∃ rtObj opObj, object rt rlsData rtObj ∧ object op rtObj opObj ∧ n ∈ collectPIPRefsFromOperation show aliasToName opObj).
  { unfold object. setoid_rewrite elem_of_cons. split.
    - intros (o & o' & [H|H] & Ho & Hn); [left|right]; eauto.
    - intros [(o & o' & H & Ho & Hn)|(o & o' & H & Ho & Hn)]; eauto 8. }
  rewrite Hcons. clear Hcons. destruct v as [|b|neg x|t|l|rtObj];
    try (rewrite IH by (done || (intros; apply Hempty; by right)); split; [intros [H|H]; [by left|by right; right]|];
      intros [H|[(o & o' & [=] & _)|H]]; [by left|by right]).
  assert (Hrt : NoDup rtObj.*1) by (eapply Hin; by left).
  rewrite IH; [|done|done|].
  - rewrite index_type_at by (done || (intros; apply Hempty; by left)). split.
    + intros [[H|(-> & o & H & Hn)]|H]; [by left|right; left; eauto|by right; right].
    + intros [H|[(o & o' & [= -> ->] & Ho & Hn)|H]]; [by left; left|left; right; eauto|by right].
  - intros rt' op' Hrt'. apply set_eq. intros m. rewrite index_type_at by (done || (intros; apply Hempty; by left)).
    rewrite (Hempty rt' op') by by right. split; [|by intros ?%elem_of_empty].
    intros [?%elem_of_empty|(-> & _)]; [done|]. done.
Qed.
End seen.

(** ** Aliases *)

(** What a point goes by: its alias, and its name without the prefix, or whole when it does not
    start with the prefix. *)
Definition goes_by (n a : string) : Prop := a = Pips.alias n ∨ a = TrimPrefix "subject." n.

(** Points under their own alias, as the configuration keeps them; none has the empty alias of
    a name as long as the prefix. *)
Definition aliased (e : string * Pips.GeneralPIPConfig) : Prop := Pips.G_Alias e.2 = Pips.alias e.1.

(** Every text stands for one of the points that go by it, if any does. *)
Definition alias_table (names : string → Prop) (table : gmap string string) : Prop :=
  (∀ a n, table !! a = Some n → names n ∧ goes_by n a) ∧ ∀ a n, names n → goes_by n a → is_Some (table !! a).

Lemma aliasIndex_table entries : Forall aliased entries → alias_table (λ n, n ∈ entries.*1) (aliasIndex entries).
Proof.
  unfold aliasIndex. induction entries as [|[k c] entries IH] using rev_ind; intros Hw.
  - split; [done|]. by intros a n ?%elem_of_nil.
  - apply Forall_app in Hw as [Hw Ek%Forall_inv]. unfold aliased in Ek. cbn [fst snd] in Ek.
    specialize (IH Hw) as [IH1 IH2]. rewrite fold_left_app. cbn [fold_left fst snd]. rewrite Ek.
    set (m := fold_left _ entries ∅) in *.
    assert (Hk : k ∈ (entries ++ [(k, c)]).*1) by (rewrite fmap_app, elem_of_app; right; by left).
    assert (Hin : ∀ n, n ∈ entries.*1 → n ∈ (entries ++ [(k, c)]).*1) by (intros n Hn; rewrite fmap_app, elem_of_app; by left).
    split.
    + intros a n. destruct (decide (a = TrimPrefix "subject." k)) as [->|H1]; [rewrite lookup_insert_eq; intros [= <-]; split; [done|by right]|].
      rewrite lookup_insert_ne by done. destruct (decide (a = Pips.alias k)) as [->|H2]; [rewrite lookup_insert_eq; intros [= <-]; split; [done|by left]|].
      rewrite lookup_insert_ne by done. intros [? ?]%IH1. auto.
    + intros a n. rewrite fmap_app, elem_of_app. cbn [fmap list_fmap fst]. rewrite list_elem_of_singleton. intros Hn Hg.
      destruct (decide (a = TrimPrefix "subject." k)) as [->|H1]; [by rewrite lookup_insert_eq|]. rewrite lookup_insert_ne by done.
      destruct (decide (a = Pips.alias k)) as [->|H2]; [by rewrite lookup_insert_eq|]. rewrite lookup_insert_ne by done.
      destruct Hn as [Hn| ->]; [by eapply IH2|]. by destruct Hg.
Qed.

(** A name longer than the prefix goes by no empty text. *)
Lemma goes_by_text n a : length (bytes_of n) ≠ 8 → (8 ≤ length (bytes_of n))%nat → goes_by n a → a ≠ EmptyString.
Proof.
  intros Hn Hl Hg ->.
  assert (Hd : length (drop 8 (bytes_of n)) ≠ 0) by (rewrite length_drop; lia).
  destruct Hg as [Hg|Hg]; apply (f_equal bytes_of) in Hg.
  - unfold Pips.alias in Hg. rewrite bytes_of_string_of in Hg. apply Hd. by rewrite <-Hg.
  - unfold TrimPrefix in Hg. rewrite bytes_of_string_of in Hg. destruct (cutPrefix _ _) as [r|] eqn:E; cbn [from_option id] in Hg.
    + apply cutPrefix_Some in E. apply Hd. rewrite E. change (drop 8 (bytes_of "subject." ++ r)) with r. by rewrite <-Hg.
    + rewrite <-Hg in Hl. cbn in Hl. lia.
Qed.

(** ** The keys of the document *)

Section keys.
Context {case : CaseTable} {laws : CaseLaws}.

Definition keys_valid (m : gmap string (gmap string (gmap string (list rule)))) : Prop :=
  ∀ rt rtObj, m !! rt = Some rtObj → key_text rt = rt ∧ ∀ op opObj, rtObj !! op = Some opObj → key_text op = op.

Lemma normalizeKey_valid s : key_text (normalizeKey s) = normalizeKey s.
Proof. unfold key_text, normalizeKey. by rewrite bytes_of_string_of, ToUpper_valid. Qed.

Lemma append_valid rt op r roles m : key_text rt = rt → key_text op = op → keys_valid m → keys_valid (foldl (appendRLSRule rt op r) m roles).
Proof.
  intros Hrt Hop. revert m. induction roles as [|role roles IH]; intros m Hm; [done|]. cbn [foldl]. apply IH.
  intros rt' rtObj. unfold appendRLSRule. destruct (decide (rt' = rt)) as [->|Hne]; [|rewrite lookup_insert_ne by done; apply Hm].
  rewrite lookup_insert_eq. intros [= <-]. split; [done|]. intros op' opObj.
  destruct (decide (op' = op)) as [->|Hne]; [done|]. rewrite lookup_insert_ne by done.
  destruct (m !! rt) as [o|] eqn:E; [|done]. cbn. by apply (Hm rt o E).
Qed.

Lemma document_keys ps d : NormalizePolicies ps = Ok d → keys_valid (rls d).
Proof.
  intros [-> _]%NormalizePolicies_maps. cbn [rls]. assert (H : keys_valid (m_rls (MkMaps ∅ ∅ ∅))) by done. revert H.
  generalize (MkMaps ∅ ∅ ∅) as st. induction ps as [|p ps IH]; intros st Hst; [done|]. cbn [foldl]. apply IH.
  unfold effect. destruct (grants p); [done|]. cbn [m_rls]. destruct (normalizeRule p); [|done].
  by apply append_valid; [apply normalizeKey_valid..|].
Qed.

Lemma keys_of_map {A} (f : A → value) (m : gmap string A) :
  (∀ k x, m !! k = Some x → key_text k = k) → (value_of_map f m).*1 = (map_to_list m).*1.
Proof.
  intros H. unfold value_of_map. rewrite <-list_fmap_compose. apply list_fmap_ext. intros i [k x] Hi. unfold compose. cbn [fst].
  apply (H k x), elem_of_map_to_list. by eapply list_elem_of_lookup_2.
Qed.

Lemma object_of_map {A} (f : A → list (string * value)) (m : gmap string A) k o :
  (∀ k x, m !! k = Some x → key_text k = k) →
  object k (value_of_map (λ x, VMap (f x)) m) o ↔ ∃ x, m !! k = Some x ∧ o = f x.
Proof.
  intros H. unfold object, value_of_map. rewrite list_elem_of_fmap. split.
  - intros ([k' x] & [= -> ->] & Hin). apply elem_of_map_to_list in Hin. exists x. split; [|done]. by rewrite (H _ _ Hin).
  - intros (x & Hx & ->). exists (k, x). cbn [fst snd]. rewrite (H _ _ Hx). split; [done|]. by apply elem_of_map_to_list.
Qed.

Lemma entries_aliased items pd s entries :
  Pips.NormalizeItems items = Some (pd, s) →
  entries ≡ₚ map_to_list (Pips.General (Pips.Normalized pd)) →
  Forall aliased entries ∧ ∀ n, n ∈ entries.*1 → (8 ≤ length (bytes_of n))%nat ∧ ∃ item, item ∈ items ∧ Pips.Name item = n.
Proof.
  intros Hi E. destruct (proj2 (Pips.NormalizeItems_spec items) _ _ Hi) as (_ & (_ & _ & _ & HG & _) & _).
  assert (Hlong : ∀ item, item ∈ items → (8 ≤ length (bytes_of (Pips.Name item)))%nat).
  { intros item Hin. destruct (decide (length (bytes_of (Pips.Name item)) < 8)) as [H|H]; [|lia].
    pose proof (proj2 (proj1 (Pips.NormalizeItems_spec items)) (ex_intro _ item (conj Hin H))) as Hnone. congruence. }
  split.
  - rewrite E. apply Forall_forall. intros [n c] Hin%elem_of_map_to_list. rewrite HG in Hin. apply fmap_Some in Hin as (item & Hl & ->).
    unfold aliased, Pips.general_config. cbn [fst snd].
    by destruct (match Pips.parseHeaders (Pips.Headers item) with Ok h => h | Err _ => ([], ∅) end).
  - intros n Hn. rewrite E in Hn. apply list_elem_of_fmap in Hn as ([n' c] & -> & Hin%elem_of_map_to_list). rewrite HG in Hin. apply fmap_Some in Hin as (item & Hl & _).
    unfold Pips.last_item in Hl. apply last_Some_elem_of, list_elem_of_filter in Hl as [[Hn _] Hin]. cbn [fst]. rewrite <-Hn.
    eauto.
Qed.

(** The index over the JSON of kept rules is that of the attributes they mention. *)
Lemma buildIndex_refs show aliasToName m rt op n :
  aliasToName !! EmptyString = None → keys_valid m → settled m →
  n ∈ names_at (buildIndex show aliasToName (rls_value m)) rt op
  ↔ ∃ attr, attr ∈ index_at (buildRefIndex m) rt op ∧ aliasToName !! attr = Some n.
Proof.
  intros Hempty Hkeys Hset. setoid_rewrite index_at_build. setoid_rewrite sorted_set_elem.
  unfold buildIndex, rls_value.
  assert (Hk : ∀ k x, m !! k = Some x → key_text k = k) by (intros k x Hkx; by apply (Hkeys k x)).
  rewrite (buildIndex_from show aliasToName).
  2: { rewrite keys_of_map by done. apply NoDup_fst_map_to_list. }
  2: { intros rt' o (rtObj & Hrt & ->)%object_of_map; [|done]. rewrite keys_of_map by (intros k x Hkx; by eapply (Hkeys rt' rtObj Hrt)).
    apply NoDup_fst_map_to_list. }
  2: done.
  split.
  - intros [?%elem_of_empty|(o & o' & Ho & Ho' & Hn)]; [done|]. apply object_of_map in Ho as (rtObj & Hrt & ->); [|done].
    apply object_of_map in Ho' as (opObj & Hop & ->); [|intros k x Hkx; by eapply (Hkeys rt rtObj Hrt)].
    rewrite Hrt. cbn [from_option id]. rewrite Hop. cbn [from_option id]. apply operation_elem in Hn; [done|done|].
    intros role. specialize (Hset rt op role). unfold rules_at in Hset. rewrite Hrt in Hset. cbn in Hset. rewrite Hop in Hset. exact Hset.
  - intros Hx. right. destruct (m !! rt) as [rtObj|] eqn:Hrt; cbn [from_option id] in Hx.
    2: { destruct Hx as (attr & H & _). rewrite lookup_empty in H. apply collectSubjectRefs_elem in H as (role & r & H & _). cbn in H. rewrite lookup_empty in H. by apply elem_of_nil in H. }
    destruct (rtObj !! op) as [opObj|] eqn:Hop; cbn [from_option id] in Hx.
    2: { destruct Hx as (attr & H & _). apply collectSubjectRefs_elem in H as (role & r & H & _). cbn in H. rewrite lookup_empty in H. by apply elem_of_nil in H. }
    eexists _, _. split_and!.
    + apply object_of_map; [done|]. by exists rtObj.
    + apply object_of_map; [intros k x Hkx; by eapply (Hkeys rt rtObj Hrt)|]. by exists opObj.
    + apply operation_elem; [done| |done].
      intros role. specialize (Hset rt op role). unfold rules_at in Hset. rewrite Hrt in Hset. cbn in Hset. rewrite Hop in Hset. exact Hset.
Qed.

(** A general information point is activated for an operation exactly when the index of the
    document the policies normalise to lists there a text that stands for it: the scan of the
    pull over the document's JSON and the scan of the normaliser agree. A text stands for the
    point that goes by it; when several do, for one of them, which the order the points are
    ranged over in decides. *)
Theorem activation_exact show items pd s ps doc entries :
  Pips.NormalizeItems items = Some (pd, s) →
  (∀ item, item ∈ items → length (bytes_of (Pips.Name item)) ≠ 8) →
  NormalizePolicies ps = Ok doc → encodes doc = true → entries ≡ₚ map_to_list (Pips.General (Pips.Normalized pd)) →
  ∃ table, alias_table (λ n, is_Some (Pips.General (Pips.Normalized pd) !! n)) table
    ∧ ∀ rt op name,
        name ∈ names_at (BuildActivationIndexFromPolicies show entries doc) rt op
        ↔ ∃ a, a ∈ index_at (refIndex doc) rt op ∧ table !! a = Some name.
Proof.
  intros Hi Hnames Hd Henc Hperm. destruct (entries_aliased _ _ _ _ Hi Hperm) as [Hal Hlong].
  pose proof (document_keys _ _ Hd) as Hkeys. pose proof (NormalizePolicies_maps _ _ Hd) as [E _].
  assert (Hset : settled (rls doc)) by (rewrite E; apply run_rules). assert (Hidx : refIndex doc = buildRefIndex (rls doc)) by by rewrite E.
  assert (Hg : ∀ n, n ∈ entries.*1 ↔ is_Some (Pips.General (Pips.Normalized pd) !! n)).
  { intros n. rewrite Hperm, list_elem_of_fmap. split.
    - intros ([k c] & -> & Hin%elem_of_map_to_list). by eexists.
    - intros [c Hc]. exists (n, c). split; [done|]. by apply elem_of_map_to_list. }
  destruct (aliasIndex_table entries Hal) as [T1 T2]. exists (aliasIndex entries).
  split; [split; [intros a n Ha; rewrite <-Hg; by apply T1|intros a n Hn; by apply T2, Hg]|]. intros rt op name.
  assert (Hempty : aliasIndex entries !! EmptyString = None).
  { apply eq_None_not_Some. intros [n H]. apply T1 in H as [Hin Hby]. destruct (Hlong n Hin) as (Hl & item & Hitem & <-).
    by eapply goes_by_text; [by apply Hnames|done|done|]. }
  assert (Hb : name ∈ names_at (BuildActivationIndexFromPolicies show entries doc) rt op
    ↔ name ∈ names_at (buildIndex show (aliasIndex entries) (rls_value (rls doc))) rt op).
  { unfold BuildActivationIndexFromPolicies. rewrite Henc. destruct entries as [|e entries]; cbn [is_nil negb].
    - rewrite buildIndex_refs by done. split; [by intros ?%elem_of_empty|]. by intros (attr & _ & ?).
    - by destruct (rls_value (rls doc)). }
  by rewrite Hb, buildIndex_refs, Hidx by done.
Qed.
End keys.

(** ** Examples *)

Definition activation_items : list Pips.SimplifiedPIP :=
  [ Pips.MkPIP "subject.region" EmptyString "https://regions/${subject.id}" EmptyString EmptyString EmptyString EmptyString None EmptyString
      EmptyString ∅ [] EmptyString EmptyString ∅ [] None None;
    Pips.MkPIP "subject.unused" EmptyString "https://unused" EmptyString EmptyString EmptyString EmptyString None EmptyString
      EmptyString ∅ [] EmptyString EmptyString ∅ [] None None ].

Definition activation_document : option (Pips.PIPDocument * Pips.UploadSummary) := Pips.NormalizeItems (case := latin_case) activation_items.

Lemma activation_document_ok :
  match activation_document with
  | Some (pd, s) => is_some (Pips.General (Pips.Normalized pd) !! "subject.region"%string) = true
  | None => False
  end.
Proof. vm_compute. reflexivity. Qed.

Lemma activation_items_named item : item ∈ activation_items → length (bytes_of (Pips.Name item)) ≠ 8.
Proof. unfold activation_items. rewrite !elem_of_cons, elem_of_nil. by intros [->|[->|[]]]. Qed.

Lemma example_encodes : match example_document with Ok d => encodes d = true | Err _ => False end.
Proof. vm_compute. reflexivity. Qed.

Lemma activation_exact_witness :
  ∃ pd s doc, Pips.NormalizeItems (case := latin_case) activation_items = Some (pd, s)
    ∧ NormalizePolicies (case := latin_case) example_policies = Ok doc
    ∧ "subject.region"%string
      ∈ names_at (BuildActivationIndexFromPolicies (λ _, EmptyString) (map_to_list (Pips.General (Pips.Normalized pd))) doc) "ORDER" "READ".
Proof.
  pose proof activation_document_ok as Ha. destruct activation_document as [[pd s]|] eqn:E1; [|destruct Ha].
  pose proof example_document_ok as Hd. pose proof example_encodes as He. destruct example_document as [doc|e] eqn:E2; [|destruct Hd].
  exists pd, s, doc. split; [exact E1|]. split; [exact E2|].
  destruct (activation_exact (case := latin_case) (λ _, EmptyString) activation_items pd s example_policies doc _ E1 activation_items_named E2 He (Permutation_refl _))
    as (table & [T1 T2] & ->).
  exists "region"%string. split.
  - destruct Hd as (_ & _ & -> & _). right. left.
  - destruct (T2 "region"%string "subject.region"%string) as [n Hn].
    + destruct (Pips.General (Pips.Normalized pd) !! _); [by eexists|discriminate Ha].
    + by left.
    + rewrite Hn. f_equal. apply T1 in Hn as [Hn Hby]. destruct (entries_aliased _ _ _ _ E1 (Permutation_refl _)) as [_ Hl].
      destruct (Hl n) as (_ & item & Hin & <-).
      { destruct Hn as [c Hc]. apply list_elem_of_fmap. exists (n, c). split; [done|]. by apply elem_of_map_to_list. }
      unfold activation_items in Hin. apply elem_of_cons in Hin as [->|Hin]; [done|]. apply list_elem_of_singleton in Hin as ->.
      by destruct Hby as [Hby|Hby].
Qed.

End PipActivation.
