(* ===== verification/Pull.v ===== *)
(** * The pull of policies and information points ([authz-agent/internal/pull])

    [pull.go] composed with what it calls: the exports decoded and converted ([AcconfigJson]),
    the document of the policies ([Normalize]), the document of the information points
    ([Pips]) with its activation index ([PipActivation]), the two documents put into the
    store one after the other, and the status. What one pull meets outside is a [world]. *)
From S2P Require Import Prelude GoText Json Encoding JsonFields GoCase JsonText Outbound Pips Acconfig AcconfigPips AcconfigJson SimplifiedParser Normalize PipActivation.
Import GoText GoCase JsonText.

Module Pull.

Definition DefaultInterval : Z := 30 * 10 ^ 9.
Definition DefaultHTTPTimeout : Z := 30 * 10 ^ 9.
Definition tokenWait : Z := 15 * 10 ^ 9.

Record Config := MkConfig {
  SourceURL : string;
  Interval : Z;
  HTTPTimeout : Z;
  Entitlements : option Pips.EntitlementsConfig;
}.

(** [Status]; [Reason] is set by a pull that is disabled, and the times are those of the
    clock, [None] for the empty text. *)
Record Status := MkStatus {
  PoliciesLoaded : bool;
  FirstSuccessAt : option Z;
  LastSuccessAt : option Z;
  Reason : string;
  Conversion : option Acconfig.Stats;
}.

(** The document of the information points in the store: its entries and its activation
    index. *)
Record pips_document := MkPips {
  normalized : Pips.NormalizedPIPs;
  activation : gmap string (gmap string (gset string));
}.

(** The puller with the two documents of its store; [None] is a document never put. *)
Record Puller := MkPuller {
  status : Status;
  firstSuccess : option Z;
  lastConversion : option Acconfig.Stats;
  policies : option Normalize.document;
  pips : option pips_document;
}.

Definition zero_status : Status := MkStatus false None None EmptyString None.
Definition New : Puller := MkPuller zero_status None None None None.

Definition withDefaults (cfg : Config) : Config :=
  MkConfig (SourceURL cfg) (if (Interval cfg <? 0)%Z then DefaultInterval else Interval cfg)
    (if (HTTPTimeout cfg <=? 0)%Z then DefaultHTTPTimeout else HTTPTimeout cfg) (Entitlements cfg).

(** ** Requests *)

(** What a request is answered: nothing, or a status and a body, [None] when it cannot be
    read. *)
Inductive answer := NoAnswer | Answered (StatusCode : Z) (body : option bytes).

Record request := MkRequest { req_url : string; authorization : option string }.

Definition build_request (url token : string) : request :=
  MkRequest url (if is_empty token then None else Some ("Bearer " +:+ token)%string).

Inductive fetch_error := RequestFailed | BodyFailed | BadStatus (code : Z).

Definition maxBody : N := N.shiftl 32 20.
Definition limited (body : bytes) : bytes :=
  if (N.of_nat (length body) <=? maxBody)%N then body else take (N.to_nat maxBody) body.

Definition read_answer (a : answer) : result fetch_error bytes :=
  match a with
  | NoAnswer => Err RequestFailed
  | Answered _ None => Err BodyFailed
  | Answered code (Some body) =>
      if (code <? 200)%Z || (300 <=? code)%Z then Err (BadStatus code) else Ok (limited body)
  end.

(** What one pull meets: the answers to its requests, whether the store takes each document,
    the order in which the general points are ranged over, and the clock at its end. *)
Record world := MkWorld {
  token : string;
  respond : request → answer;
  put_policies : bool;
  put_pips : bool;
  order : list (string * Pips.GeneralPIPConfig) → list (string * Pips.GeneralPIPConfig);
  now : Z;
}.

Inductive pull_error :=
  | Disabled
  | FetchPolicySets (e : fetch_error)
  | FetchPIPs (e : fetch_error)
  | ConvertFailed
  | ConvertPIPsFailed
  | NormalizeFailed (e : nat * Normalize.reason)
  | Panicked
  | EncodePolicies
  | EncodePIPs
  | StorePolicies
  | StorePIPs.

Section pull.
Context {case : CaseTable} {floats : AcconfigPips.FloatText} (show : PipActivation.value → string) (cfg : Config).

Definition sets_url : string := SourceURL cfg +:+ "/access/v3/config/policySets".
Definition pips_url : string := SourceURL cfg +:+ "/access/v3/config/pips".

Definition fetch (w : world) (url : string) : result fetch_error bytes :=
  read_answer (respond w (build_request url (token w))).

(** The documents of a pull, before they are put. *)
Record documents := MkDocuments { d_policies : Normalize.document; d_normalized : Pips.NormalizedPIPs; d_stats : Acconfig.Stats }.

Definition prepare (w : world) : result pull_error documents :=
  policySets ← wrap FetchPolicySets (fetch w sets_url);
  pipsRaw ← wrap FetchPIPs (fetch w pips_url);
  '(policyList, stats) ← match AcconfigJson.ConvertPolicySets policySets with Some r => Ok r | None => Err ConvertFailed end;
  pipList ← match AcconfigJson.ConvertPIPs pipsRaw with Some r => Ok r | None => Err ConvertPIPsFailed end;
  doc ← wrap NormalizeFailed (Normalize.NormalizePolicies (Normalize.converted <$> policyList));
  '(pipDoc, _) ← match Pips.NormalizeItems pipList with Some r => Ok r | None => Err Panicked end;
  Ok (MkDocuments doc (Pips.Normalized pipDoc) stats).

(** The document of the points [load] puts. *)
Definition completed (w : world) (d : documents) : pips_document :=
  let n := Pips.ApplyEntitlementsOverride (Entitlements cfg) (d_normalized d) in
  MkPips n (PipActivation.BuildActivationIndexFromPolicies show (order w (map_to_list (Pips.General n))) (d_policies d)).

(** Whether the document of the points is read back from its JSON: every value of an upload in
    it is JSON, nested within the limit inside the objects of the document around it. *)
Definition value_encodes (outside : Z) (raw : bytes) : bool := is_nil raw || Json.fits outside raw.

Definition pips_encodes (n : Pips.NormalizedPIPs) : bool :=
  forallb (λ kv, value_encodes 4 (default [] (Pips.T_DefaultValue kv.2))) (map_to_list (Pips.Token n))
  && forallb (λ kv, value_encodes 4 (default [] (Pips.H_DefaultValue kv.2))) (map_to_list (Pips.HeaderPIPs n))
  && forallb (λ kv, value_encodes 4 (default [] (Pips.G_DefaultValue kv.2)) && value_encodes 4 (Pips.G_Body kv.2)
       && match Pips.G_Response kv.2 with Some r => value_encodes 5 (Pips.RC_Extract r) | None => true end) (map_to_list (Pips.General n)).

(** [load]; the errors of its two calls of [roundTrip] are those of values nested too deep. *)
Definition load (w : world) (d : documents) (p : Puller) : result pull_error unit * Puller :=
  let pipDoc := completed w d in
  if negb (Normalize.encodes (d_policies d)) then (Err EncodePolicies, p)
  else if negb (pips_encodes (normalized pipDoc)) then (Err EncodePIPs, p)
  else if negb (put_policies w) then (Err StorePolicies, p)
  else
    let p := MkPuller (status p) (firstSuccess p) (lastConversion p) (Some (d_policies d)) (pips p) in
    if negb (put_pips w) then (Err StorePIPs, p)
    else (Ok tt, MkPuller (status p) (firstSuccess p) (lastConversion p) (policies p) (Some pipDoc)).

Definition PullOnce (w : world) (p : Puller) : result pull_error unit * Puller :=
  match prepare w with
  | Err e => (Err e, p)
  | Ok d =>
      let '(r, p) := load w d p in
      match r with
      | Err e => (Err e, p)
      | Ok _ => (Ok tt, MkPuller (status p) (firstSuccess p) (Some (d_stats d)) (policies p) (pips p))
      end
  end.

Definition loaded (w : world) (p : Puller) : Puller :=
  let first := default (now w) (firstSuccess p) in
  MkPuller (MkStatus true (Some first) (Some (now w)) EmptyString (lastConversion p)) (Some first) (lastConversion p) (policies p) (pips p).

Definition blank_url : bool := is_nil (TrimSpace (bytes_of (SourceURL cfg))).

Definition PullNow (w : world) (p : Puller) : result pull_error unit * Puller :=
  if blank_url then (Err Disabled, p)
  else
    let '(r, p) := PullOnce w p in
    match r with
    | Err e => (Err e, p)
    | Ok _ => (Ok tt, loaded w p)
    end.

Definition disabled (reason : string) (p : Puller) : Puller :=
  MkPuller (MkStatus true None None reason None) (firstSuccess p) (lastConversion p) (policies p) (pips p).

(** The pulls of [Run], the first at once and one a tick, one after the other; a panic ends
    the process. *)
Fixpoint pulls (ws : list world) (p : Puller) : option Puller :=
  match ws with
  | [] => Some p
  | w :: ws =>
      let '(r, p) := PullNow w p in
      match r with
      | Err Panicked => None
      | _ => pulls ws p
      end
  end.

Definition Run (ws : list world) (p : Puller) : option Puller :=
  if blank_url then Some (disabled "pull disabled: source URL empty" p)
  else if (Interval cfg =? 0)%Z then Some (disabled "pull disabled: interval is 0" p)
  else pulls ws p.
End pull.

(** ** What is shown *)

Section shown.
Context {case : CaseTable} {floats : AcconfigPips.FloatText} (show : PipActivation.value → string) (cfg : Config).

Notation prepare := (prepare cfg).
Notation completed := (completed show cfg).
Notation PullNow := (PullNow show cfg).
Notation pulls := (pulls show cfg).

(** The changes a pull can make. *)
Inductive pulled (w : world) (p : Puller) : result pull_error unit → Puller → Prop :=
  | pulled_nothing e : e ≠ StorePIPs → pulled w p (Err e) p
  | pulled_torn d :
      prepare w = Ok d → put_policies w = true → put_pips w = false →
      pulled w p (Err StorePIPs) (MkPuller (status p) (firstSuccess p) (lastConversion p) (Some (d_policies d)) (pips p))
  | pulled_whole d :
      prepare w = Ok d → Normalize.encodes (d_policies d) = true → put_policies w = true → put_pips w = true →
      pulled w p (Ok tt)
        (MkPuller (MkStatus true (Some (default (now w) (firstSuccess p))) (Some (now w)) EmptyString (Some (d_stats d)))
           (Some (default (now w) (firstSuccess p))) (Some (d_stats d)) (Some (d_policies d)) (Some (completed w d))).

Lemma prepare_not_stored w e : prepare w = Err e → e ≠ StorePIPs.
Proof.
  unfold Pull.prepare. destruct (fetch w (sets_url cfg)) as [sets|]; cbn; [|by intros [= <-]].
  destruct (fetch w (pips_url cfg)) as [raw|]; cbn; [|by intros [= <-]].
  destruct (AcconfigJson.ConvertPolicySets sets) as [[l st]|]; cbn; [|by intros [= <-]].
  destruct (AcconfigJson.ConvertPIPs raw) as [items|]; cbn; [|by intros [= <-]].
  destruct (Normalize.NormalizePolicies _) as [doc|]; cbn; [|by intros [= <-]].
  by destruct (Pips.NormalizeItems items) as [[pd s]|]; cbn; [|intros [= <-]].
Qed.

Lemma PullNow_pulled w p r p' : PullNow w p = (r, p') → pulled w p r p'.
Proof.
  unfold Pull.PullNow, PullOnce. destruct (blank_url cfg); [intros [= <- <-]; by constructor|].
  destruct (prepare w) as [d|e] eqn:Ed; [|intros [= <- <-]; constructor; by eapply prepare_not_stored].
  unfold load. destruct (Normalize.encodes (d_policies d)) eqn:Ee; cbn [negb]; [|intros [= <- <-]; by constructor].
  destruct (pips_encodes _); cbn [negb]; [|intros [= <- <-]; by constructor].
  destruct (put_policies w) eqn:Ep; cbn [negb]; [|intros [= <- <-]; by constructor].
  destruct (put_pips w) eqn:Eq; cbn; intros [= <- <-]; [unfold loaded; cbn; by apply pulled_whole|by apply pulled_torn].
Qed.

(** What every pull keeps holds after all of them. *)
Lemma pulls_invariant (I : Puller → Prop) ws p p' :
  (∀ w q r q', w ∈ ws → pulled w q r q' → I q → I q') → I p → pulls ws p = Some p' → I p'.
Proof.
  revert p. induction ws as [|w ws IH]; intros p Hstep Hp; cbn [Pull.pulls]; [by intros [= <-]|].
  destruct (PullNow w p) as [r q] eqn:E. apply PullNow_pulled in E.
  assert (Hq : I q) by (eapply Hstep; [left|done..]).
  assert (Hn : pulls ws q = Some p' → I p') by (apply IH; [intros ?????; eapply Hstep; by right|done]).
  destruct r as [|[]]; done.
Qed.

(** A status that says the policies are loaded is that of a puller whose store holds both
    documents. *)
Lemma pulls_loaded ws q :
  pulls ws New = Some q →
  (PoliciesLoaded (status q) = true → is_Some (policies q) ∧ is_Some (pips q) ∧ is_Some (firstSuccess q))
  ∧ FirstSuccessAt (status q) = firstSuccess q.
Proof.
  intros Hq. refine (pulls_invariant (λ q, (PoliciesLoaded (status q) = true → is_Some (policies q) ∧ is_Some (pips q) ∧ is_Some (firstSuccess q))
               ∧ FirstSuccessAt (status q) = firstSuccess q) ws New q _ _ Hq); [|done].
  intros v a r b _ [e He|d Hd _ _|d Hd _ _ _] [H1 H2]; cbn; [done| |split; [|done]; eauto].
  split; [|done]. intros Hl. destruct (H1 Hl) as (_ & ? & ?). eauto.
Qed.

(** Whether the configuration turns the pull off, so that [Run] pulls nothing. *)
Definition off : bool := blank_url cfg || (Interval cfg =? 0)%Z.

(** The time of the first success is there exactly when a pull has succeeded, and then both
    documents are. *)
Definition told (q : Puller) : Prop := is_Some (firstSuccess q) → is_Some (policies q) ∧ is_Some (pips q).

Lemma pulls_told ws p q :
  pulls ws p = Some q → told p →
  told q ∧ (PoliciesLoaded (status p) = true → PoliciesLoaded (status q) = true)
  ∧ (PoliciesLoaded (status p) = is_some (firstSuccess p) → PoliciesLoaded (status q) = is_some (firstSuccess q)).
Proof.
  intros Hq Hp. refine (pulls_invariant (λ q, told q ∧ (PoliciesLoaded (status p) = true → PoliciesLoaded (status q) = true)
    ∧ (PoliciesLoaded (status p) = is_some (firstSuccess p) → PoliciesLoaded (status q) = is_some (firstSuccess q))) ws p q _ _ Hq); [|done].
  intros v a r b _ [e He|d Hd _ _|d Hd _ _ _] (H1 & H2 & H3); [done| |by split_and!]. split_and!; [|done..]. intros Hf. destruct (H1 Hf). eauto.
Qed.

(** A puller, whatever it pulled before [Run] and is asked to pull after it starts: it reports
    the policies loaded exactly when it is off or has succeeded. *)
Lemma run_told ws0 ws ws1 p q r :
  pulls ws0 New = Some p → Run show cfg ws p = Some q → pulls ws1 q = Some r →
  (PoliciesLoaded (status r) = true ↔ off = true ∨ is_Some (firstSuccess r)) ∧ told r.
Proof.
  intros Hp Hq Hr. assert (Hn : told New) by by intros [??]. destruct (pulls_told _ _ _ Hp Hn) as (Tp & _ & Lp). specialize (Lp eq_refl).
  assert (Hon : Run show cfg ws p = pulls ws p ∧ off = false ∨ ∃ t, Run show cfg ws p = Some (disabled t p) ∧ off = true).
  { unfold Run, off. destruct (blank_url cfg); [right; by eexists|]. destruct (Interval cfg =? 0)%Z; [right; by eexists|by left]. }
  destruct Hon as [[E Eo]|(t & E & Eo)]; rewrite E in Hq; rewrite Eo.
  - destruct (pulls_told _ _ _ Hq Tp) as (Tq & _ & Lq). destruct (pulls_told _ _ _ Hr Tq) as (Tr & _ & Lr). split; [|done].
    rewrite (Lr (Lq Lp)). destruct (firstSuccess r); cbn; split; try done; [by right; eexists|]. by intros [?|[??]].
  - injection Hq as <-. assert (Tq : told (disabled t p)) by done. destruct (pulls_told _ _ _ Hr Tq) as (Tr & Hl & _). split; [|done].
    split; [by left|]. intros _. by apply Hl.
Qed.

(** C18: A pull changes nothing unless both exports were fetched, converted and normalised and
    the store took the policies; only when it then refuses the points are the policies new and
    the points old, against the comment of [PullOnce]. The status follows the puller: once
    the policies are loaded they stay loaded, with both documents in the store and the time
    of the first success. *)
Theorem pull_changes w p :
  (let '(r, p') := PullNow w p in
   match r with
   | Ok _ => ∃ d, prepare w = Ok d ∧ policies p' = Some (d_policies d) ∧ pips p' = Some (completed w d)
               ∧ Conversion (status p') = Some (d_stats d) ∧ PoliciesLoaded (status p') = true
   | Err StorePIPs => ∃ d, prepare w = Ok d ∧ policies p' = Some (d_policies d) ∧ pips p' = pips p ∧ status p' = status p
   | Err _ => p' = p
   end)
  ∧ ∀ ws q, pulls ws New = Some q →
      (PoliciesLoaded (status q) = true → is_Some (policies q) ∧ is_Some (pips q))
      ∧ ∀ ws' q', pulls ws' q = Some q' → PoliciesLoaded (status q) = true →
          PoliciesLoaded (status q') = true ∧ FirstSuccessAt (status q') = FirstSuccessAt (status q).
Proof.
  split.
  { destruct (PullNow w p) as [r p'] eqn:E. apply PullNow_pulled in E as [e He|d|d]; [by destruct e|by exists d..]. }
  intros ws q Hq.
  pose proof (pulls_loaded ws q Hq) as Hi.
  destruct Hi as [Hi Hf]. split; [intros Hl; by destruct (Hi Hl) as (? & ? & _)|]. intros ws' q' Hq' Hl.
  destruct (Hi Hl) as (_ & _ & f & Ef). rewrite Hf, Ef.
  enough (PoliciesLoaded (status q') = true ∧ FirstSuccessAt (status q') = Some f ∧ firstSuccess q' = Some f) by tauto.
  refine (pulls_invariant (λ q', PoliciesLoaded (status q') = true ∧ FirstSuccessAt (status q') = Some f ∧ firstSuccess q' = Some f)
    ws' q q' _ _ Hq'); [|by rewrite Hf, Ef].
  intros v a r b _ [e He|d Hd _ _|d Hd _ _ _] (H1 & H2 & H3); cbn; [done..|]. by rewrite H3.
Qed.

(** No point of an export has a name of as many bytes as the prefix, which leaves no alias. *)
Definition aliases_nonempty (w : world) : Prop :=
  ∀ raw items, fetch w (pips_url cfg) = Ok raw → AcconfigJson.ConvertPIPs raw = Some items →
    ∀ item, item ∈ items → length (bytes_of (Pips.Name item)) ≠ 8.

(** Two documents that tell of the same pull. *)
Definition agree (doc : Normalize.document) (pd : pips_document) : Prop :=
  ∃ table, PipActivation.alias_table (λ n, is_Some (Pips.General (normalized pd) !! n)) table
    ∧ ∀ rt op name,
        name ∈ PipActivation.names_at (activation pd) rt op
        ↔ ∃ a, a ∈ Normalize.index_at (Normalize.refIndex doc) rt op ∧ table !! a = Some name.

Lemma prepare_agree {laws : CaseLaws} w d :
  aliases_nonempty w → (∀ l, order w l ≡ₚ l) → prepare w = Ok d → Normalize.encodes (d_policies d) = true → agree (d_policies d) (completed w d).
Proof.
  intros Hn Ho H He. unfold Pull.prepare in H. apply bind_Ok in H as (sets & _ & H). apply bind_Ok in H as (raw & Hraw & H).
  apply bind_Ok in H as ([l st] & _ & H). apply bind_Ok in H as (items & Hitems & H).
  apply bind_Ok in H as (doc & Hdoc & H). apply bind_Ok in H as ([pd s] & Hpd & [= <-]).
  apply wrap_Ok in Hraw, Hdoc. destruct (AcconfigJson.ConvertPIPs raw) as [items'|] eqn:Ei; [|done]. injection Hitems as ->.
  destruct (Pips.NormalizeItems items) as [[pd' s']|] eqn:Ep; [|done]. injection Hpd as -> ->.
  unfold agree, Pull.completed. cbn [activation normalized d_policies d_normalized] in *.
  assert (Eg : Pips.General (Pips.ApplyEntitlementsOverride (Entitlements cfg) (Pips.Normalized pd)) = Pips.General (Pips.Normalized pd))
    by (unfold Pips.ApplyEntitlementsOverride; by destruct (Pips.Entry _)).
  rewrite Eg. eapply PipActivation.activation_exact; [exact Ep|by eapply Hn|exact Hdoc|exact He|apply Ho].
Qed.

(** C16: As long as the store takes the documents of the points, and no point has a name of just
    the eight bytes of the prefix, whose alias is empty, the two documents the store holds are
    of one pull, whatever failed in between: a general information point is activated for an
    operation exactly when the policies in the store mention there a text that stands for it,
    be it its alias or its name without the prefix, the whole name when it lacks the prefix.
    Every text a point goes by stands for one of the points that go by it, and for no other. *)
Theorem documents_agree {laws : CaseLaws} ws q doc :
  (∀ w, w ∈ ws → put_pips w = true ∧ aliases_nonempty w ∧ ∀ l, order w l ≡ₚ l) →
  pulls ws New = Some q → policies q = Some doc → ∃ pd, pips q = Some pd ∧ agree doc pd.
Proof.
  intros Hws Hq Hdoc.
  enough (H : (policies q = None ∧ pips q = None) ∨ ∃ doc pd, policies q = Some doc ∧ pips q = Some pd ∧ agree doc pd).
  { destruct H as [[H _]|(doc' & pd & H & ? & ?)]; [congruence|]. rewrite Hdoc in H. injection H as ->. eauto. }
  refine (pulls_invariant (λ q, (policies q = None ∧ pips q = None)
    ∨ ∃ doc pd, policies q = Some doc ∧ pips q = Some pd ∧ agree doc pd) ws New q _ _ Hq); [|by left].
  intros w a r b Hw [e He|d _ _ Hp|d Hd Henc _ _] Ha; [done| |].
  - destruct (Hws w Hw) as (Hp' & _). congruence.
  - right. destruct (Hws w Hw) as (_ & Hn & Ho). exists (d_policies d), (completed w d). split_and!; [done..|].
    by apply prepare_agree.
Qed.
End shown.

(** ** Examples *)

#[local] Existing Instance latin_case.
#[local] Instance example_floats : AcconfigPips.FloatText := {| AcconfigPips.format_float _ _ := [] |}.

Definition example_sets : bytes := Outbound.text
  "{^hash^:^h^,^policySets^:[{^type^:^SIMPLIFIED^,^domain^:^d^,^target^:^resourceType == 'Order'^,^policies^:[{^target^:^operation == 'Read'^,^rules^:[{^target^:^subject.roles CONTAINS 'A'^,^condition^:^subject.region == 'EU'^,^effect^:^ALLOW^}]}]}]}".
Definition example_pips : bytes := Outbound.text
  "{^pips^:[{^name^:^subject.region^,^pipType^:^GENERAL^,^url^:^https://regions^,^headers^:^A, B^},{^name^:^subject.x^,^pipType^:^MAPPING^}]}".

Definition example_config : Config := withDefaults (MkConfig "http://s" 0 0 None).

Definition example_world (stored : bool) (time : Z) : world :=
  MkWorld "t" (λ r, Answered 200 (Some (if eqb (req_url r) "http://s/access/v3/config/pips"%string then example_pips else example_sets)))
    true stored id time.

Notation example_pull ws := (pulls (λ _, EmptyString) example_config ws New).

Lemma example_pull_ok :
  match example_pull [example_world true 7; example_world true 8] with
  | Some q =>
      PoliciesLoaded (status q) = true ∧ FirstSuccessAt (status q) = Some 7%Z ∧ LastSuccessAt (status q) = Some 8%Z
      ∧ match policies q, pips q with
        | Some doc, Some pd => PipActivation.names_at (activation pd) "ORDER" "READ" = {["subject.region"%string]}
        | _, _ => False
        end
  | None => False
  end.
Proof. vm_compute. repeat split; reflexivity. Qed.

(** A store that refuses the points has the new policies and no points. *)
Example example_torn :
  (λ q, (is_some (policies q), is_some (pips q), PoliciesLoaded (status q))) <$> example_pull [example_world false 7]
  = Some (true, false, false).
Proof. vm_compute. reflexivity. Qed.

(** A puller with an interval, which [Run] pulls with. *)
Definition running_config : Config := withDefaults (MkConfig "http://s" 5 0 None).

Lemma example_running :
  match Run (λ _, EmptyString) running_config [example_world false 7] New with Some q => firstSuccess q = None | None => False end.
Proof. vm_compute. reflexivity. Qed.

(** A name shorter than its prefix ends the process. *)
Example example_panic :
  (PullNow (λ _, EmptyString) example_config
     (MkWorld "t" (λ r, Answered 200 (Some (if eqb (req_url r) "http://s/access/v3/config/pips"%string
        then Outbound.text "{^pips^:[{^name^:^short^,^pipType^:^GENERAL^}]}" else example_sets))) true true id 7) New).1
  = Err Panicked.
Proof. vm_compute. reflexivity. Qed.

Lemma example_named_ok :
  match AcconfigJson.ConvertPIPs example_pips with
  | Some items => forallb (λ item, negb (Nat.eqb (length (bytes_of (Pips.Name item))) 8)) items = true
  | None => False
  end.
Proof. vm_compute. reflexivity. Qed.

Lemma example_fetch_ok stored time : fetch (example_world stored time) (pips_url example_config) = Ok example_pips.
Proof. vm_compute. reflexivity. Qed.

Lemma example_named stored time : aliases_nonempty example_config (example_world stored time).
Proof.
  intros raw items Hr Hi item Hin. rewrite example_fetch_ok in Hr. injection Hr as <-.
  pose proof example_named_ok as H. rewrite Hi in H. rewrite forallb_forall in H. by apply Nat.eqb_neq, negb_true_iff, H, list_elem_of_In.
Qed.

Lemma documents_agree_witness :
  ∃ q doc pd, example_pull [example_world true 7; example_world true 8] = Some q
    ∧ policies q = Some doc ∧ pips q = Some pd ∧ agree doc pd.
Proof.
  pose proof example_pull_ok as H. destruct (example_pull _) as [q|] eqn:E; [|destruct H]. destruct H as (_ & _ & _ & H).
  destruct (policies q) as [doc|] eqn:Ed; [|destruct H].
  destruct (documents_agree (case := latin_case) (floats := example_floats) (laws := latin_laws) (λ _, EmptyString) example_config [example_world true 7; example_world true 8] q doc)
    as (pd & Hp & Ha); [|exact E|exact Ed|].
  - intros w Hw. assert (Hs : ∃ t, w = example_world true t).
    { apply elem_of_cons in Hw as [->|Hw]; [by eexists|]. apply list_elem_of_singleton in Hw as ->. by eexists. }
    destruct Hs as [t ->]. split; [reflexivity|]. split; [apply example_named|]. intros l. reflexivity.
  - exists q, doc, pd. split; [reflexivity|]. split; [exact Ed|]. split; [exact Hp|exact Ha].
Defined.

Lemma pull_changes_witness :
  ∃ q, example_pull [example_world true 7; example_world true 8] = Some q ∧ is_Some (policies q) ∧ is_Some (pips q).
Proof.
  pose proof example_pull_ok as H. destruct (example_pull _) as [q|] eqn:E; [|destruct H]. destruct H as (Hs & _).
  destruct (pull_changes (case := latin_case) (floats := example_floats) (λ _, EmptyString) example_config (example_world true 7) New) as [_ Hp].
  exists q. split; [reflexivity|]. destruct (Hp _ _ E) as [Hl _]. apply Hl. exact Hs.
Defined.

End Pull.
