(* ===== verification/AgentServer.v ===== *)
(** * The HTTP surfaces of the agent ([authz-agent/internal/server], [authz-agent/main.go])

    The handlers of the public routes, which take a request of the legacy API through its
    parser, one decision of the policy engine and the shape of its response, and the probes of
    the internal surface over the report of the loops. The framework serves a request by the
    handler of its path; the policy engine is an interface. *)
From S2P Require Import Prelude GoText Json Encoding GoCase Value JsonText Authn Acconfig AcconfigPips Pull AnyValue Legacy LegacyResponse.
Import GoText GoCase AnyValue Legacy LegacyResponse.

Module AgentServer.

(** [LegacyAPIVersion]. *)
Definition LegacyAPIVersion : bytes :=
  quoting "{^specs^:[{^specRootUrl^:^/access^,^major^:3,^minor^:0,^supportedMajors^:[1,2,3]},{^specRootUrl^:^/api^,^major^:1,^minor^:1,^supportedMajors^:[1]},{^specRootUrl^:^/template^,^major^:1,^minor^:0,^supportedMajors^:[1]},{^specRootUrl^:^/preview^,^major^:2,^minor^:0,^supportedMajors^:[1,2]}]}".

(** ** The report of the loops *)

Record Report := MkReport {
  Healthy : bool;
  Message : option Authn.unhealthy;
  R_Conversion : option Acconfig.Stats;
  Loaded : bool;
}.

(** [report] of main.go; [providers] and [puller] as the service started them. *)
Definition report (providers : option Authn.Manager) (puller : Pull.Puller) : Report :=
  let problem := m ← providers; Authn.Evaluate (Authn.status m) in
  MkReport (negb (is_some problem)) problem (Pull.Conversion (Pull.status puller)) (Pull.PoliciesLoaded (Pull.status puller)).

(** ** Requests and responses *)

(** A request as the framework gives it to the handlers; [args] are the arguments of its query
    in their order. *)
Record request := MkRequest {
  Method : string;
  Path : string;
  Headers : list (string * list string);
  Body : bytes;
  args : list (string * string);
}.

(** The bodies: the probes', the maps of the framework, and bytes sent as they are, [None] when
    writing them panics. *)
Inductive payload :=
  | HealthResponse (conversion : option Acconfig.Stats)
  | ReadyResponse
  | HealthErrorResponse (problem : option Authn.unhealthy) (conversion : option Acconfig.Stats)
  | MessageBody (message : string)
  | ErrorBody (code message : string)
  | EmptyBody
  | Sent (body : option bytes).

Record response := MkResponse { Status : Z; Content : payload; RequestID : option string }.

Definition respond (status : Z) (content : payload) : response := MkResponse status content None.

(** ** The probes *)

(** [unavailable]; a report that is healthy is that of policies not loaded yet. *)
Definition unavailable (r : Report) : response := respond 503 (HealthErrorResponse (Message r) (R_Conversion r)).

(** [health] and [ready]; [None] is a server without a report. *)
Definition health (h : option Report) : response :=
  match h with
  | None => respond 200 (HealthResponse None)
  | Some r => if Healthy r then respond 200 (HealthResponse (R_Conversion r)) else unavailable r
  end.

Definition ready (h : option Report) : response :=
  match h with
  | None => respond 200 ReadyResponse
  | Some r => if negb (Healthy r) then unavailable r else if negb (Loaded r) then unavailable r else respond 200 ReadyResponse
  end.

Definition apiVersion : response := respond 200 (Sent (Some LegacyAPIVersion)).

(** [publicHealth]. *)
Definition publicHealth (h : option Report) (c : request) : response :=
  if negb (eqb (Method c) "GET"%string) then respond 405 (MessageBody "method not allowed") else health h.

Definition opaError (status : Z) (code message : string) : response := respond status (ErrorBody code message).
Definition refuse (e : RequestError) : response := respond 400 (MessageBody (Legacy.Message e)).
Definition sendJSON (status : Z) (body : option bytes) : response := respond status (Sent body).

(** [notFound]. *)
Definition notFound : response := respond 404 (MessageBody "not found").

(** [lastQuery]. *)
Definition lastQuery (c : request) (key : string) : string :=
  fold_left (λ value kv, if eqb kv.1 key then kv.2 else value) (args c) EmptyString.

(** ** The check routes *)

(** What the policy engine promises: the value of a document under an input, none when it is
    undefined. *)
Class PolicyEngine := { Decide : list string → any → result string (option any) }.

Section routes.
Context {case : CaseTable} {floats : Authn.JsonFloat} {conversion : FloatToInt} {engine : PolicyEngine}.
Variable UnmarshalJSON : bytes → option any.

(** [evaluate]. *)
Definition evaluate (segments : list string) (input : any) : result string (option any) := Decide segments input.

(** [check]. *)
Definition check (c : request) (resources : list Resource) (shape : any → option bytes) : response :=
  let input := Input (Headers c) resources in
  match evaluate ["authorize"%string] input with
  | Err e => opaError 500 "internal_error" e
  | Ok None => respond 200 EmptyBody
  | Ok (Some result) =>
      match AuthError result with
      | Some (status, body) => sendJSON status body
      | None => sendJSON 200 (shape result)
      end
  end.

(** [checkResource]. *)
Definition checkResource (v2 : bool) (c : request) : response :=
  match CheckResource UnmarshalJSON (Body c) with
  | Err e => refuse e
  | Ok resources => check c resources (λ result, CheckResourceResponse result v2)
  end.

(** [checkResourceBulk]. *)
Definition checkResourceBulk (c : request) : response :=
  match CheckResourceBulk UnmarshalJSON (Body c) with
  | Err e => refuse e
  | Ok (resources, ids) => check c resources (λ result, CheckResourceBulkResponse result ids)
  end.

(** [checkResourceBulkOperations]. *)
Definition parse (v2 : bool) : bytes → result RequestError (list Resource * list Entry) :=
  if v2 then CheckResourceBulkOperationsV2 UnmarshalJSON else CheckResourceBulkOperations UnmarshalJSON.

Definition checkResourceBulkOperations (v2 : bool) (c : request) : response :=
  match parse v2 (Body c) with
  | Err e => refuse e
  | Ok (resources, entries) =>
      if is_nil resources then sendJSON 200 (CheckResourceBulkOperationsResponse Nil [] v2)
      else check c resources (λ result, CheckResourceBulkOperationsResponse result entries v2)
  end.

(** [checkFilter]. *)
Definition checkFilter (c : request) : response :=
  match CheckFilter (lastQuery c "resourceType") (lastQuery c "operation") with
  | Err e => refuse e
  | Ok resources => check c resources FilterResponse
  end.

(** ** The public surface *)

(** [requestID]: a request without an id gets the one generated, which its response names. *)
Definition set_header (name value : string) (hs : list (string * list string)) : list (string * list string) :=
  if existsb (λ kv, eqb kv.1 name) hs then (λ kv, if eqb kv.1 name then (name, [value]) else kv) <$> hs else hs ++ [(name, [value])].

Definition request_id (hs : list (string * list string)) : string :=
  default EmptyString (kv ← snd <$> list_find (λ kv, kv.1 = "X-Request-Id"%string) hs; head kv.2).

Definition requestID (uuid : string) (next : request → response) (c : request) : response :=
  if negb (is_empty (request_id (Headers c))) then next c
  else
    let r := next (MkRequest (Method c) (Path c) (set_header "X-Request-Id" uuid (Headers c)) (Body c) (args c)) in
    MkResponse (Status r) (Content r) (Some uuid).

(** The routes of [RegisterPublic]. *)
Definition routes (h : option Report) : list (string * (request → response)) :=
  [("/access/v1/check/resource/bulk/operations", checkResourceBulkOperations false);
   ("/preview/v1/check/resource/bulk/operations", checkResourceBulkOperations false);
   ("/access/v1/check/resource/bulk", checkResourceBulk);
   ("/access/v1/check/resource", checkResource false);
   ("/access/v1/check/filter", checkFilter);
   ("/access/v2/check/resource/bulk/operations", checkResourceBulkOperations true);
   ("/preview/v2/check/resource/bulk/operations", checkResourceBulkOperations true);
   ("/access/v2/check/resource", checkResource true);
   ("/access/v2/check/filter", checkFilter);
   ("/api-version", λ _, apiVersion);
   ("/health", publicHealth h)]%string.

Definition route (h : option Report) (c : request) : response :=
  match list_find (λ r, r.1 = Path c) (routes h) with
  | Some (_, (_, handler)) => handler c
  | None => notFound
  end.

Definition public (uuid : string) (h : option Report) (c : request) : response := requestID uuid (route h) c.
(** ** What is granted was decided *)

(** The numbers of a decision are [json.Number]s: what the policy library documents of its
    values. *)
Hypothesis decides : ∀ segments input v, Decide segments input = Ok (Some v) → decided v = true.

(** A decision on the resources of a request that no authentication error refuses. *)
Definition decision_on (c : request) (rs : list Resource) (result : any) : Prop :=
  Decide ["authorize"%string] (Input (Headers c) rs) = Ok (Some result) ∧ get "authError" (object result) = None.

Lemma AuthError_None result : AuthError result = None ↔ get "authError" (object result) = None.
Proof. unfold AuthError. by destruct (get "authError" (object result)). Qed.

(** The body of an authentication error is read as an object with its message. *)
Lemma AuthError_read result status t :
  decided result = true → AuthError result = Some (status, Some t) → ∃ m, Value.Decode t = Some (Value.Obj [("message"%string, m)]).
Proof.
  intros H. unfold AuthError. apply decided_object in H. destruct (get "authError" (object result)) as [raw|] eqn:E; [|done].
  intros Hb. apply (inj Some), pair_equal_spec in Hb as [_ Hb]. apply (decided_get _ _ _ H), decided_object in E.
  destruct (mustJSON_trip (Map [("message"%string, default (Str "unauthorized") (get "message" (object raw)))])) as (t' & Et & Hd).
  { cbn [decided all forallb snd]. rewrite andb_true_r. destruct (get "message" (object raw)) as [m|] eqn:Em; [|done]. by apply (decided_get _ _ _ E) in Em. }
  assert (t' = t) as -> by (cbn [mbind option_bind] in Hb; congruence). eexists. exact Hd.
Qed.

(** A response of [check] whose body is read as a value that is no message comes from the shape
    of a decision. *)
Lemma check_shape c rs shape status t w id :
  check c rs shape = MkResponse status (Sent (Some t)) id → Value.Decode t = Some w → (∀ m, w ≠ Value.Obj [("message"%string, m)]) →
  ∃ result, decision_on c rs result ∧ shape result = Some t ∧ status = 200%Z.
Proof.
  intros Hc Hd Hw. unfold check, evaluate in Hc. destruct (Decide _ _) as [[result|]|e] eqn:ED; [|done..].
  destruct (AuthError result) as [[status' body]|] eqn:EA.
  - unfold sendJSON, respond in Hc. injection Hc as -> -> _. destruct (AuthError_read _ _ _ (decides _ _ _ ED) EA) as [m Hm].
    rewrite Hm in Hd. injection Hd as <-. by destruct (Hw m).
  - unfold sendJSON, respond in Hc. injection Hc as <- Hs _. exists result. split; [|done]. split; [done|by apply AuthError_None].
Qed.

(** C4: The check/resource routes say yes only to a request the policies allowed: its body named one
    resource, the policy engine was asked about it with the headers of the request, and the
    decision carries no authentication error and allows it. *)
Theorem yes_is_decided v2 c status t id :
  checkResource v2 c = MkResponse status (Sent (Some t)) id →
  Value.Decode t = Some (if v2 then Value.Obj [("decision"%string, Value.Bool true)] else Value.Bool true) →
  ∃ r result, CheckResource UnmarshalJSON (Body c) = Ok [r] ∧ decision_on c [r] result ∧ allowed (first (results result)) = true ∧ status = 200%Z.
Proof.
  unfold checkResource. destruct (CheckResource UnmarshalJSON (Body c)) as [rs|e] eqn:EC; [|done]. intros Hc Hd.
  destruct (check_shape _ _ _ _ _ _ _ Hc Hd) as (result & Hdec & Ht & ->); [by destruct v2|].
  assert (∃ r, rs = [r]) as [r ->].
  { unfold CheckResource in EC. destruct (is_nil _); [done|]. destruct (decode_checkItem _); [|done]. result_inv. eauto. }
  exists r, result. split_and!; try done. destruct (resource_read result v2) as (t' & Et & Hr). rewrite Ht in Et. injection Et as <-.
  rewrite Hr in Hd. destruct v2; by injection Hd.
Qed.

(** An id that the ids granted hold is that of an entry whose result is allowed. *)
Lemma granted_lookup rs entries op s :
  s ∈ granted rs entries op → ∃ i r e, rs !! i = Some r ∧ entries !! i = Some e ∧ allowed r = true ∧ Entry_Operation e = op ∧ ID e = s.
Proof.
  unfold granted. intros ([r e] & -> & He)%list_elem_of_fmap. apply list_elem_of_In, List.filter_In in He as [Hin Hp].
  apply list_elem_of_In, list_elem_of_lookup in Hin as [i Hi]. rewrite !andb_true_iff in Hp. destruct Hp as [[Ho _] Ha].
  apply (proj1 (eqb_true _ _)) in Ho. apply lookup_zip_with_Some in Hi as (r' & e' & [= <- <-] & Hr & He). by exists i, r, e.
Qed.

(** C3: The bulk/operations routes name an id under an operation only when the policies allowed it:
    the request asked for that operation on the item of that id, and the result of that
    resource is allowed by a decision without an authentication error. *)
Theorem ids_are_decided v2 c rs es status t id o op ids s :
  parse v2 (Body c) = Ok (rs, es) →
  Forall (λ e, valid_string (Entry_Operation e) = Entry_Operation e) es →
  checkResourceBulkOperations v2 c = MkResponse status (Sent (Some t)) id →
  Value.Decode t = Some (if v2 then Value.Obj [("decision"%string, Value.Obj o)] else Value.Obj o) →
  (∀ m, o ≠ [("message"%string, m)]) →
  Value.Get op o = Some (Value.List ids) → Value.Str s ∈ ids →
  ∃ result i res r e, decision_on c rs result ∧ rs !! i = Some res ∧ results result !! i = Some r ∧ es !! i = Some e
    ∧ allowed r = true ∧ Entry_Operation e = op ∧ Operation res = Str op ∧ valid_string (ID e) = s.
Proof.
  intros EC Hv Hc Hd Hm Hg Hs.
  assert (Hp : Forall2 paired rs es) by (destruct v2; [by eapply v2_paired|by eapply v1_paired]).
  unfold checkResourceBulkOperations in Hc. rewrite EC in Hc.
  assert (Hid : ∀ result entries, Forall (λ e, valid_string (Entry_Operation e) = Entry_Operation e) entries →
    CheckResourceBulkOperationsResponse result entries v2 = Some t → ∃ i r e, results result !! i = Some r ∧ entries !! i = Some e
      ∧ allowed r = true ∧ Entry_Operation e = op ∧ valid_string (ID e) = s).
  { intros result entries Hve Ht. destruct (operations_object result entries v2 Hve) as (t' & o' & Et & Hd' & _ & _ & Hget).
    rewrite Ht in Et. injection Et as <-. rewrite Hd in Hd'. assert (o' = o) as -> by (destruct v2; congruence).
    rewrite Hget in Hg. destruct (member op _); [|done]. injection Hg as <-.
    apply list_elem_of_fmap in Hs as (x & [= ->] & Hx). apply granted_lookup in Hx as (i & r & e & Hr & He & Ha & Ho & <-). by exists i, r, e. }
  destruct (is_nil rs) eqn:En.
  - unfold sendJSON, respond in Hc. injection Hc as _ Ht _. apply Hid in Ht as (i & r & e & Hr & _); [done|constructor].
  - destruct (check_shape _ _ _ _ _ _ _ Hc Hd) as (result & Hdec & Ht & _); [intros m; destruct v2; [done|intros [= E]; by apply (Hm m)]|].
    apply Hid in Ht as (i & r & e & Hr & He & Ha & Ho & Hi); [|done].
    destruct (Forall2_lookup_r _ _ _ _ _ Hp He) as (res & Hres & Hop & _). exists result, i, res, r, e. split_and!; try done. by rewrite Hop, Ho.
Qed.
End routes.

(** ** Readiness *)

(** C24: Whatever the puller was asked to load before and after it runs, the agent reports itself
    ready exactly when the trusted providers that were loaded, if any are configured, are
    enough, and either a pull has succeeded or the configuration turns the pull off, by a blank
    source URL or an interval of zero. A pull that has succeeded has put both documents into the
    store; an agent whose pull is off is ready with whatever the store holds, be it nothing. *)
Theorem ready_is_loaded {case : CaseTable} {text : AcconfigPips.FloatText} show cfg ws0 ws ws1 p q r providers :
  Pull.pulls show cfg ws0 Pull.New = Some p → Pull.Run show cfg ws p = Some q → Pull.pulls show cfg ws1 q = Some r →
  (ready (Some (report providers r)) = respond 200 ReadyResponse ↔
     (∀ m, providers = Some m → Authn.Evaluate (Authn.status m) = None)
     ∧ ((TrimSpace (bytes_of (Pull.SourceURL cfg)) = [] ∨ Pull.Interval cfg = 0%Z) ∨ is_Some (Pull.firstSuccess r)))
  ∧ (is_Some (Pull.firstSuccess r) → is_Some (Pull.policies r) ∧ is_Some (Pull.pips r)).
Proof.
  intros Hp Hq Hr. destruct (Pull.run_told show cfg ws0 ws ws1 p q r Hp Hq Hr) as [Hl Ht]. split; [|exact Ht].
  assert (Ho : Pull.off cfg = true ↔ TrimSpace (bytes_of (Pull.SourceURL cfg)) = [] ∨ Pull.Interval cfg = 0%Z).
  { unfold Pull.off, Pull.blank_url. by rewrite orb_true_iff, is_nil_true, Z.eqb_eq. }
  rewrite <-Ho, <-Hl. unfold ready, report. cbn [Healthy Loaded]. destruct providers as [m|]; cbn [mbind option_bind].
  - destruct (Authn.Evaluate (Authn.status m)) as [u|] eqn:E; cbn.
    + split; [done|]. intros [H _]. by rewrite (H m eq_refl) in E.
    + destruct (Pull.PoliciesLoaded _); cbn; split; try done; [intros _; split; [by intros ? [= <-]|done]|by intros []].
  - destruct (Pull.PoliciesLoaded _); cbn; split; try done; by intros [].
Qed.

(** ** Examples *)

#[local] Definition no_floats : Authn.JsonFloat := Authn.Build_JsonFloat (λ _ _, []).
#[local] Definition zero_int : FloatToInt := Build_FloatToInt (λ _ _, 0%Z).

(** An engine that allows the resources of a type, and refuses a request without a token. *)
Definition example_decision (input : any) : any :=
  match field "authorizationToken" input, field "resources" input with
  | Some (Str token), Some (List rs) =>
      if is_empty token then Map [("authError", Map [("message", Str "no token")])]%string
      else Map [("results", List ((λ r, Map [("isAllowed", Bool (match field "resourceType" r with Some (Str t) => eqb t "ORDER" | _ => false end))]) <$> rs))]%string
  | _, _ => Nil
  end.

#[local] Definition example_engine : PolicyEngine := {| Decide _ input := Ok (Some (example_decision input)) |}.

Definition example_request (path : string) (body : string) : request :=
  MkRequest "POST" path [("Authorization", ["Bearer m2m"])]%string (quoting body) [("resourceType", "ORDER"); ("resourceType", "DOC")]%string.

Lemma example_decides segments input v : Decide (PolicyEngine := example_engine) segments input = Ok (Some v) → decided v = true.
Proof.
  intros [= <-]. unfold example_decision. destruct (field "authorizationToken" input) as [[]|]; try done. destruct (field "resources" input) as [[]|]; try done.
  destruct (is_empty s); [done|]. cbn [decided all forallb snd]. rewrite andb_true_r. by apply all_Forall, Forall_fmap, Forall_forall.
Qed.

Section examples.
#[local] Existing Instance latin_case.
#[local] Existing Instance no_floats.
#[local] Existing Instance zero_int.
#[local] Existing Instance example_engine.

Notation served path body := (public decode_any "u1" None (example_request path body)).

Example responses :
  served "/access/v1/check/resource" "{^type^:^ORDER^,^operation^:^READ^}" = MkResponse 200 (Sent (Some (bytes_of "true"))) (Some "u1"%string)
  ∧ served "/access/v2/check/resource" "{^type^:^DOC^,^operation^:^READ^}" = MkResponse 200 (Sent (Some (quoting "{^decision^:false}"))) (Some "u1"%string)
  ∧ served "/access/v1/check/resource" "{^type^:^DOC^}" = MkResponse 400 (MessageBody "Missing required parameter: operation") (Some "u1"%string)
  ∧ served "/access/v1/check/resource/bulk/operations" "[{^id^:^a^,^type^:^ORDER^,^operations^:[^READ^]},{^id^:^b^,^type^:^DOC^,^operations^:[^READ^]}]"
    = MkResponse 200 (Sent (Some (quoting "{^READ^:[^a^]}"))) (Some "u1"%string)
  ∧ served "/access/v1/check/filter" EmptyString
    = MkResponse 200 (Sent (Some (quoting "{^calculationResult^:^DENY^,^filterCondition^:^^,^mongodbFilterCondition^:^^,^rsqlFilterCondition^:^^,^sqlFilterCondition^:^^,^customFilterCondition^:null}"))) (Some "u1"%string)
  ∧ Content (served "/access/v1/check/resource/" EmptyString) = MessageBody "not found"
  ∧ Status (served "/health" EmptyString) = 405%Z.
Proof. split_and!; vm_compute; reflexivity. Qed.

Example refused_decision :
  checkResource decode_any false (MkRequest "POST" EmptyString [] (quoting "{^type^:^ORDER^,^operation^:^READ^}") [])
  = respond 401 (Sent (Some (quoting "{^message^:^no token^}"))).
Proof. vm_compute. reflexivity. Qed.

(** ** Witnesses *)

Lemma yes_is_decided_witness :
  ∃ r result, CheckResource decode_any (quoting "{^type^:^ORDER^,^operation^:^READ^}") = Ok [r]
    ∧ decision_on (example_request EmptyString "{^type^:^ORDER^,^operation^:^READ^}") [r] result
    ∧ allowed (first (results result)) = true ∧ 200%Z = 200%Z.
Proof.
  assert (Hc : checkResource decode_any true (example_request EmptyString "{^type^:^ORDER^,^operation^:^READ^}")
    = MkResponse 200 (Sent (Some (quoting "{^decision^:true}"))) None) by (vm_compute; reflexivity).
  assert (Hd : Value.Decode (quoting "{^decision^:true}") = Some (Value.Obj [("decision"%string, Value.Bool true)])) by (vm_compute; reflexivity).
  exact (yes_is_decided decode_any example_decides true _ _ _ _ Hc Hd).
Defined.

Definition operations_request : request := example_request EmptyString "[{^id^:^a^,^type^:^ORDER^,^operations^:[^READ^]}]".

Lemma ids_are_decided_witness :
  ∃ result i res r e, decision_on operations_request [MkResource (Str "ORDER") (Str "READ") (Map [])] result
    ∧ [MkResource (Str "ORDER") (Str "READ") (Map [])] !! i = Some res ∧ results result !! i = Some r ∧ [MkEntry "a" "READ"] !! i = Some e
    ∧ allowed r = true ∧ Entry_Operation e = "READ"%string ∧ Operation res = Str "READ" ∧ valid_string (ID e) = "a"%string.
Proof.
  assert (EC : parse decode_any false (Body operations_request) = Ok ([MkResource (Str "ORDER") (Str "READ") (Map [])], [MkEntry "a" "READ"])) by (vm_compute; reflexivity).
  assert (Hv : Forall (λ e, valid_string (Entry_Operation e) = Entry_Operation e) [MkEntry "a" "READ"]) by (repeat constructor).
  assert (Hc : checkResourceBulkOperations decode_any false operations_request = MkResponse 200 (Sent (Some (quoting "{^READ^:[^a^]}"))) None) by (vm_compute; reflexivity).
  assert (Hd : Value.Decode (quoting "{^READ^:[^a^]}") = Some (Value.Obj [("READ", Value.List [Value.Str "a"])]%string)) by (vm_compute; reflexivity).
  refine (ids_are_decided decode_any example_decides false _ _ _ _ _ _ _ _ [Value.Str "a"] _ EC Hv Hc Hd _ _ _); [done|done|by left].
Defined.
End examples.

(** A puller without a source is ready with an empty store, and one that pulls is not before its
    first success. *)
Definition no_source : Pull.Config := Pull.withDefaults (Pull.MkConfig " " 0 0 None).

Lemma ready_is_loaded_witness :
  ∃ r r', Pull.Run (case := latin_case) (floats := Pull.example_floats) (λ _, EmptyString) no_source [] Pull.New = Some r
    ∧ Pull.policies r = None ∧ ready (Some (report None r)) = respond 200 ReadyResponse
    ∧ Pull.Run (case := latin_case) (floats := Pull.example_floats) (λ _, EmptyString) Pull.running_config [Pull.example_world false 7] Pull.New = Some r'
    ∧ ready (Some (report None r')) ≠ respond 200 ReadyResponse.
Proof.
  destruct (Pull.Run (case := latin_case) (floats := Pull.example_floats) (λ _, EmptyString) no_source [] Pull.New) as [r|] eqn:E; [|discriminate E].
  pose proof Pull.example_running as H.
  destruct (Pull.Run (case := latin_case) (floats := Pull.example_floats) (λ _, EmptyString) Pull.running_config [Pull.example_world false 7] Pull.New) as [r'|] eqn:E'; [|destruct H].
  exists r, r'. split; [reflexivity|]. split; [by injection E as <-|]. split.
  - apply (ready_is_loaded (case := latin_case) (text := Pull.example_floats) (λ _, EmptyString) no_source [] [] [] Pull.New r r None eq_refl E eq_refl).
    split; [by intros|]. left. left. vm_compute. reflexivity.
  - split; [reflexivity|]. intros Hr.
    apply (ready_is_loaded (case := latin_case) (text := Pull.example_floats) (λ _, EmptyString) Pull.running_config [] [Pull.example_world false 7] [] Pull.New r' r' None eq_refl E' eq_refl) in Hr.
    destruct Hr as [_ [[Hr|Hr]|[t Hr]]]; [vm_compute in Hr; discriminate Hr|discriminate Hr|]. rewrite H in Hr. discriminate Hr.
Defined.

End AgentServer.
