(* ===== verification/AgentConfig.v ===== *)
(** * The configuration of the agent ([authz-agent/config.go], [authz-agent/main.go])

    What the service reads from its environment, with the defaults behind each key, and the
    parts of the configuration it hands to its loops. *)
From S2P Require Import Prelude GoText Json Encoding Digits JsonFields GoCase Authn M2m Pull.
Import GoText Digits GoCase.

Module AgentConfig.

Record config := MkConfig {
  Addr : string;
  PublicAddr : string;
  C_Authn : Authn.Config;
  C_Pull : Pull.Config;
  C_M2M : M2m.Config;
}.

(** [lookup]: one key, with the fallback for a key that is absent. *)
Notation lookup := (string → string → string).

(** [get] of main.go, over the environment and the library that reads it: a variable that is
    set to nothing is kept empty. *)
Definition env_name {case : CaseTable} (key : string) : string :=
  string_of (ToUpper ((λ c, if eqb c "."%char then "_"%char else c) <$> bytes_of key)).

Definition get {case : CaseTable} (env : string → option string) (GetOrDefaultString : string → string → string) : lookup :=
  λ key fallback, if eqb (env (env_name key)) (Some EmptyString) then EmptyString else GetOrDefaultString key fallback.

Definition second : Z := 10 ^ 9.

Section load.
Context {case : CaseTable} (get : lookup).

Definition trimmed (s : string) : bytes := TrimSpace (bytes_of s).

(** [seconds]; the product wraps around as the [int64] of a [time.Duration] does. *)
Definition seconds (key : string) (fallback : Z) : Z :=
  let raw := trimmed (get key EmptyString) in
  if is_nil raw then fallback
  else
    match Atoi raw with
    | Some n => if (n <? 0)%Z then fallback else int64 (n * second)
    | None => fallback
    end.

(** [integer]. *)
Definition integer (key : string) (fallback : Z) : Z :=
  let raw := trimmed (get key EmptyString) in
  if is_nil raw then fallback
  else
    match Atoi raw with
    | Some n => if (n <=? 0)%Z then fallback else n
    | None => fallback
    end.

(** [boolean]. *)
Definition boolean (key : string) (fallback : bool) : bool :=
  let s := string_of (ToLower (trimmed (get key EmptyString))) in
  if member s ["1"; "true"; "yes"; "on"]%string then true
  else if member s ["0"; "false"; "no"; "off"]%string then false
  else fallback.

(** [loadConfig]; main sets the entitlements of the pull afterwards. *)
Definition loadConfig : config :=
  MkConfig (get "authz.http.addr" "0.0.0.0:8181") (get "authz.public.addr" "0.0.0.0:8080")
    (Authn.MkConfig (get "authz.trusted.providers.file" Authn.DefaultFile)
       (boolean "authz.jwks.bootstrap.required" true)
       (seconds "authz.jwks.http.timeout" Authn.DefaultHTTPTimeout)
       (integer "authz.jwks.http.retries" Authn.DefaultHTTPRetries)
       (get "authz.tenant.manager.url" "http://tenant-manager:8080")
       (seconds "authz.trusted.providers.reload.interval" Authn.DefaultReloadInterval))
    (Pull.MkConfig (Authn.trim_slashes (get "authz.pap.client.source.url" EmptyString))
       (seconds "authz.pap.client.pull.interval" Pull.DefaultInterval)
       Pull.DefaultHTTPTimeout None)
    (M2m.MkConfig (get "authz.m2m.token.url" EmptyString)
       (get "authz.m2m.client.id.file" M2m.DefaultClientIDFile)
       (get "authz.m2m.client.secret.file" M2m.DefaultClientSecretFile)
       (seconds "authz.m2m.renew.before.seconds" M2m.DefaultRenewBefore)
       (get "authz.pap.client.token.file" M2m.DefaultTokenFile)
       M2m.DefaultWatchInterval).

(** A duration is the number of seconds written as long as that many nanoseconds are an
    [int64]; a larger number wraps around, and anything that is no whole number keeps the
    default. *)
Theorem seconds_bounds key fallback :
  let raw := trimmed (get key EmptyString) in
  match Atoi raw with
  | Some n =>
      if (n <? 0)%Z then seconds key fallback = fallback
      else in_int64 (seconds key fallback)
           ∧ ((n ≤ 9223372036)%Z → seconds key fallback = (n * second)%Z)
           ∧ ((9223372036 < n)%Z → (seconds key fallback < n * second)%Z ∧ eq64 (seconds key fallback) (n * second))
  | None => seconds key fallback = fallback
  end.
Proof.
  cbn zeta. unfold seconds. set (raw := trimmed _). destruct (Atoi raw) as [n|] eqn:E; [|by destruct (is_nil raw)].
  assert (is_nil raw = false) as -> by (apply is_nil_false; intros H; by rewrite H in E).
  destruct (n <? 0)%Z eqn:En; [done|]. apply Z.ltb_ge in En. pose proof (int64_range (n * second)) as Hr. split_and!.
  - done.
  - intros Hn. apply int64_id. unfold in_int64, second. lia.
  - intros Hn. split; [|apply int64_eq64]. unfold in_int64, second in *. lia.
Qed.
End load.

(** ** The settings of the tests *)

Definition from_map (values : list (string * string)) : lookup :=
  λ key fallback, default fallback (list_to_map (M := gmap string string) values !! key).

Example defaults :
  let case := latin_case in
  let cfg := loadConfig (from_map []) in
  (Addr cfg, PublicAddr cfg) = ("0.0.0.0:8181", "0.0.0.0:8080")%string
  ∧ C_Authn cfg = Authn.MkConfig "/etc/authz/trusted-providers.json" true (5 * second) 3 "http://tenant-manager:8080" (30 * second)
  ∧ C_Pull cfg = Pull.MkConfig EmptyString (30 * second) (30 * second) None
  ∧ C_M2M cfg = M2m.MkConfig EmptyString "/etc/secret/username" "/etc/secret/password" (60 * second) "/var/run/secrets/tokens/netcracker/token" (15 * second).
Proof. split_and!; vm_compute; reflexivity. Qed.

Example malformed :
  let case := latin_case in
  let cfg := loadConfig (from_map [("authz.jwks.http.timeout", "soon"); ("authz.jwks.http.retries", "0"); ("authz.jwks.bootstrap.required", " Off ");
    ("authz.pap.client.pull.interval", "-1"); ("authz.trusted.providers.reload.interval", "0"); ("authz.pap.client.source.url", "http://p:1/")]%string) in
  (Authn.HTTPTimeout (C_Authn cfg), Authn.HTTPRetries (C_Authn cfg), Authn.Required (C_Authn cfg), Authn.ReloadInterval (C_Authn cfg))
    = (Authn.DefaultHTTPTimeout, Authn.DefaultHTTPRetries, false, 0%Z)
  ∧ (Pull.SourceURL (C_Pull cfg), Pull.Interval (C_Pull cfg)) = ("http://p:1"%string, Pull.DefaultInterval).
Proof. split; vm_compute; reflexivity. Qed.

(** A number of seconds past the range of a duration may turn into a short one. *)
Theorem seconds_wrap :
  seconds (from_map [("authz.pap.client.pull.interval", "18446744074")]%string) "authz.pap.client.pull.interval" Pull.DefaultInterval = 290448384%Z.
Proof. vm_compute. reflexivity. Qed.

End AgentConfig.
