(* ===== verification/AgentProcess.v ===== *)
(** * The process of the agent ([authz-agent/main.go], [policies/embed.go])

    What the service starts, in its order, and the end of its two surfaces: each is run by a
    goroutine of its own, a signal or a surface that fails ends both, and the main goroutine
    shuts them down, closes their sockets and waits. The goroutines are interleaved as labelled
    steps; what a surface's listener returns, and when, is any choice. *)
From S2P Require Import Prelude GoText Condition Pips Authn M2m Pull Engine AgentConfig.
Import GoText.

Module AgentProcess.

(** ** The policies the service carries ([Modules]) *)

(** An entry of the embedded directory; [content] is what reading it gives. *)
Record entry := MkEntry { Name : string; IsDir : bool; content : option string }.

Definition is_policy (e : entry) : bool :=
  negb (IsDir e) && Condition.HasSuffix (Name e) ".rego" && negb (Condition.HasSuffix (Name e) "_test.rego").

Inductive modules_error := ListPolicies | ReadPolicy (name : string) | NoPolicies.

Definition add_module (out : gmap string string) (e : entry) : result modules_error (gmap string string) :=
  if is_policy e then
    match content e with
    | Some c => Ok (<[Name e := c]> out)
    | None => Err (ReadPolicy (Name e))
    end
  else Ok out.

Fixpoint add_modules (out : gmap string string) (entries : list entry) : result modules_error (gmap string string) :=
  match entries with
  | [] => Ok out
  | e :: entries => out ← add_module out e; add_modules out entries
  end.

(** [Modules]; [None] is a directory that cannot be listed. *)
Definition Modules (entries : option (list entry)) : result modules_error (gmap string string) :=
  match entries with
  | None => Err ListPolicies
  | Some entries =>
      out ← add_modules ∅ entries;
      if decide (size out = 0) then Err NoPolicies else Ok out
  end.

(** ** What [main] starts *)

Inductive loop := TokenLoop | PullLoop | ProvidersLoop.

Section start.
Context {module compiler prepared store caches failure : Type}.
Variable ParseModule : string → string → result failure module.
Variable Compile : gmap string module → result failure compiler.
Variable empty_store : store.
Variable empty_caches : caches.

Inductive start_error := BadModules (e : modules_error) | BadEngine (e : Engine.engine_error (failure := failure)) | BadServer.

(** The parts of the service: [s_source] tells whether the puller asks the token source. *)
Record service := MkService {
  engine : Engine.Engine (compiler := compiler) (prepared := prepared) (store := store) (caches := caches);
  modules : gmap string string;
  providers : option Authn.Config;
  tokens : option M2m.Config;
  puller : Pull.Config;
  s_source : bool;
  loops : list loop;
}.

(** [main] up to [serve]: [env] is [os.Getenv], [internal] and [public] whether the two servers
    could be made. *)
Definition start (cfg : AgentConfig.config) (env : string → string) (entries : option (list entry)) (internal public : bool) :
    result start_error service :=
  modules ← wrap BadModules (Modules entries);
  eng ← wrap BadEngine (Engine.New ParseModule Compile empty_store empty_caches (map_to_list modules));
  let authn := AgentConfig.C_Authn cfg in
  let m2m := AgentConfig.C_M2M cfg in
  let pull := AgentConfig.C_Pull cfg in
  let providers := if is_empty (Authn.File authn) then None else Some (Authn.withDefaults authn) in
  let tokens := if is_empty (M2m.TokenURL m2m) && is_empty (M2m.TokenFile m2m) then None else Some (M2m.withDefaults m2m) in
  let pull := Pull.MkConfig (Pull.SourceURL pull) (Pull.Interval pull) (Pull.HTTPTimeout pull) (Pips.LoadEntitlementsConfigFromEnv env) in
  if negb internal || negb public then Err BadServer
  else
    Ok (MkService eng modules providers tokens (Pull.withDefaults pull) (is_some tokens)
          ((if is_some tokens then [TokenLoop] else []) ++ [PullLoop] ++ (if is_some providers then [ProvidersLoop] else []))).
End start.

(** ** The surfaces *)

(** Where the goroutine of a surface is: before its server serves, in it, past the return of
    [Listener] with or without an error, about to store the failure, about to call [stop], and
    past [Done]. *)
Inductive runner := Starting | Serving | Returned (err : bool) | Failing | Stopping | Finished.

Record surface := MkSurface { at_ : runner; socket : bool }.

(** Where [serveUntilShutdown] is in the main goroutine. *)
Inductive place := Waiting | Shutting (i : nat) | Closing (i : nat) | Joining | Left (failed : bool).

Record process := MkProcess { ctx_done : bool; failed : bool; main_at : place; surfaces : list surface }.

Inductive label :=
  | Signal
  | Serves (i : nat)
  | Returns (i : nat) (err : bool)
  | Checks (i : nat)
  | Stores (i : nat)
  | Stops (i : nat)
  | Main.

Definition move (i : nat) (r : runner) (p : process) : process :=
  MkProcess (ctx_done p) (failed p) (main_at p) (alter (λ s, MkSurface r (socket s)) i (surfaces p)).

Definition close (i : nat) (p : process) : process :=
  MkProcess (ctx_done p) (failed p) (main_at p) (alter (λ s, MkSurface (at_ s) false) i (surfaces p)).

Definition cancel (p : process) : process := MkProcess true (failed p) (main_at p) (surfaces p).
Definition fail (p : process) : process := MkProcess (ctx_done p) true (main_at p) (surfaces p).
Definition go (w : place) (p : process) : process := MkProcess (ctx_done p) (failed p) w (surfaces p).

Definition is_finished (s : surface) : bool := match at_ s with Finished => true | _ => false end.
Definition is_serving (s : surface) : bool := match at_ s with Serving => true | _ => false end.

(** The next statement of the main goroutine. A shutdown closes the socket of a server that
    serves, and does nothing for one still on its way to [Serve]. *)
Definition main_step (p : process) : option process :=
  match main_at p with
  | Waiting => if ctx_done p then Some (go (Shutting 0) p) else None
  | Shutting i =>
      match surfaces p !! i with
      | Some s => Some (go (Shutting (S i)) (if is_serving s then close i p else p))
      | None => Some (go (Closing 0) p)
      end
  | Closing i =>
      match surfaces p !! i with
      | Some _ => Some (go (Closing (S i)) (close i p))
      | None => Some (go Joining p)
      end
  | Joining => if forallb is_finished (surfaces p) then Some (go (Left (failed p)) p) else None
  | Left _ => None
  end.

Definition step (l : label) (p : process) : option process :=
  match l with
  | Signal => if ctx_done p then None else Some (cancel p)
  | Serves i => s ← surfaces p !! i; match at_ s with Starting => Some (move i Serving p) | _ => None end
  | Returns i err => s ← surfaces p !! i; match at_ s with Starting | Serving => Some (move i (Returned err) p) | _ => None end
  | Checks i =>
      s ← surfaces p !! i;
      match at_ s with
      | Returned err => Some (move i (if err && negb (ctx_done p) then Failing else Finished) p)
      | _ => None
      end
  | Stores i => s ← surfaces p !! i; match at_ s with Failing => Some (fail (move i Stopping p)) | _ => None end
  | Stops i => s ← surfaces p !! i; match at_ s with Stopping => Some (cancel (move i Finished p)) | _ => None end
  | Main => main_step p
  end.

Fixpoint run (ls : list label) (p : process) : option process :=
  match ls with
  | [] => Some p
  | l :: ls => p ← step l p; run ls p
  end.

(** [serve]: both sockets are bound before either surface serves; [Err] holds the sockets of a
    start that failed, open or closed. *)
Definition serve (public internal : bool) : result (list bool) process :=
  if negb public then Err []
  else if negb internal then Err [false]
  else Ok (MkProcess false false Waiting [MkSurface Starting true; MkSurface Starting true]).

(** ** Every run ends *)

Definition weight (s : surface) : nat :=
  match at_ s with Starting => 5 | Serving => 4 | Returned _ => 3 | Failing => 2 | Stopping => 1 | Finished => 0 end.

Definition place_weight (n : nat) (w : place) : nat :=
  match w with
  | Waiting => n + n + 4
  | Shutting i => (n - i) + n + 3
  | Closing i => (n - i) + 2
  | Joining => 1
  | Left _ => 0
  end.

Definition measure (p : process) : nat :=
  sum_list_with weight (surfaces p) + place_weight (length (surfaces p)) (main_at p) + (if ctx_done p then 0 else 1).

Lemma sum_alter {A} (f : A → nat) (g : A → A) l i x :
  l !! i = Some x → sum_list_with f (alter g i l) + f x = sum_list_with f l + f (g x).
Proof.
  revert i. induction l as [|y l IH]; intros [|i] H; cbn in *; [done|done| |].
  - injection H as ->. lia.
  - specialize (IH _ H). lia.
Qed.

Lemma alter_all {A} (P : A → Prop) (g : A → A) l i : (∀ x, P x → P (g x)) → Forall P l → Forall P (alter g i l).
Proof.
  intros Hg H. revert i. induction H as [|x l Hx Hl IH]; intros [|i]; cbn; [constructor|constructor|constructor; [by apply Hg|done]|constructor; [done|apply IH]].
Qed.

Lemma close_weight i p : sum_list_with weight (surfaces (close i p)) = sum_list_with weight (surfaces p).
Proof.
  unfold close. cbn [surfaces]. destruct (surfaces p !! i) as [s|] eqn:E.
  2: { apply lookup_ge_None in E. f_equal. revert i E. induction (surfaces p) as [|s l IH]; intros [|i] H; cbn in *; [done|done|lia|]. f_equal. apply IH. lia. }
  pose proof (sum_alter weight (λ s, MkSurface (at_ s) false) _ _ _ E) as H. cbn in H. unfold weight at 2 4 in H. cbn in H. lia.
Qed.

Lemma close_length i p : length (surfaces (close i p)) = length (surfaces p).
Proof. apply length_alter. Qed.

Lemma go_measure w p : measure (go w p) + place_weight (length (surfaces p)) (main_at p) = measure p + place_weight (length (surfaces p)) w.
Proof. unfold measure. cbn. lia. Qed.

Lemma close_measure i p : measure (close i p) = measure p.
Proof. unfold measure. rewrite close_weight, close_length. done. Qed.

(** A step of a goroutine, by cases. *)
Ltac open_step H :=
  cbn [step] in H; apply bind_Some in H as ([r o] & Hs & H); cbn [at_ socket] in H;
  destruct r; try done; apply (inj Some) in H as <-.

Lemma step_measure l p q : step l p = Some q → measure q < measure p.
Proof.
  assert (Hm : ∀ i r s d, surfaces p !! i = Some s → weight (MkSurface r (socket s)) < weight s → d = ctx_done p ∨ d = true →
    ∀ f, measure (MkProcess d f (main_at p) (alter (λ s, MkSurface r (socket s)) i (surfaces p))) < measure p).
  { intros i r s d Hs Hw Hd f. unfold measure. cbn [surfaces main_at ctx_done]. rewrite length_alter.
    pose proof (sum_alter weight (λ s, MkSurface r (socket s)) _ _ _ Hs). cbn beta in *. destruct Hd as [->| ->]; [lia|destruct (ctx_done p); lia]. }
  destruct l; cbn [step]; intros H.
  1: { destruct (ctx_done p) eqn:E; [done|]. injection H as <-. unfold measure, cancel. cbn. rewrite E. lia. }
  1-5: open_step H; (eapply Hm; [done|cbn; repeat case_match; cbn; lia|auto]).
  clear Hm. unfold main_step in H.
  assert (Hgo : ∀ w p', measure p' = measure p → main_at p' = main_at p → length (surfaces p') = length (surfaces p) →
    place_weight (length (surfaces p)) w < place_weight (length (surfaces p)) (main_at p) → measure (go w p') < measure p).
  { intros w p' H1 H2 H3 Hw. pose proof (go_measure w p') as H4. rewrite H1, H2, H3 in H4. lia. }
  destruct (main_at p) as [|i|i| |] eqn:Ew; [| | | |done].
  - destruct (ctx_done p); [|done]. apply (inj Some) in H as <-. apply Hgo; [done..|cbn; lia].
  - destruct (surfaces p !! i) as [s|] eqn:E; apply (inj Some) in H as <-.
    + apply lookup_lt_Some in E. destruct (is_serving s); apply Hgo; rewrite ?close_measure, ?close_length; try done; cbn; lia.
    + apply lookup_ge_None in E. apply Hgo; [done..|cbn; lia].
  - destruct (surfaces p !! i) as [s|] eqn:E; apply (inj Some) in H as <-.
    + apply lookup_lt_Some in E. apply Hgo; rewrite ?close_measure, ?close_length; try done; cbn; lia.
    + apply lookup_ge_None in E. apply Hgo; [done..|cbn; lia].
  - destruct (forallb is_finished (surfaces p)); [|done]. apply (inj Some) in H as <-. apply Hgo; [done..|cbn; lia].
Qed.

Lemma run_measure ls : ∀ p q, run ls p = Some q → length ls + measure q ≤ measure p.
Proof.
  induction ls as [|l ls IH]; intros p q H; cbn [run] in H; [injection H as ->; cbn; lia|].
  apply bind_Some in H as (p' & Hs & H). apply step_measure in Hs. apply IH in H. cbn. lia.
Qed.

(** ** Where a run may stay *)

Definition closed_to (k : nat) (p : process) : Prop := ∀ i s, i < k → surfaces p !! i = Some s → socket s = false.

(** What holds wherever the main goroutine is. *)
Definition inv (p : process) : Prop :=
  match main_at p with
  | Waiting => True
  | Shutting _ => ctx_done p = true
  | Closing k => ctx_done p = true ∧ closed_to k p
  | Joining => ctx_done p = true ∧ closed_to (length (surfaces p)) p
  | Left b => ctx_done p = true ∧ closed_to (length (surfaces p)) p ∧ forallb is_finished (surfaces p) = true ∧ b = failed p
  end.

(** The steps that will come: all but a signal, the start of a server, and the return of a
    listener whose socket is open. *)
Definition due (l : label) (p : process) : bool :=
  match l with
  | Signal | Serves _ => false
  | Returns i _ => match surfaces p !! i with Some s => negb (socket s) | None => false end
  | _ => true
  end.

Definition at_rest (p : process) : Prop := ∀ l, due l p = true → step l p = None.

Lemma closed_alter g k i p d f w :
  (∀ s, socket s = false → socket (g s) = false) → closed_to k p → closed_to k (MkProcess d f w (alter g i (surfaces p))).
Proof.
  intros Hg H j s Hj. cbn [surfaces]. rewrite list_lookup_alter. case_decide as E; [subst|by apply H].
  destruct (surfaces p !! j) as [s'|] eqn:E'; cbn; [|done]. intros [= <-]. apply Hg. by apply (H j).
Qed.

Lemma finished_at p i s : forallb is_finished (surfaces p) = true → surfaces p !! i = Some s → at_ s = Finished.
Proof. intros H Hs. rewrite forallb_forall in H. specialize (H s (proj1 (list_elem_of_In _ _) (list_elem_of_lookup_2 _ _ _ Hs))). unfold is_finished in H. by destruct (at_ s). Qed.

Lemma move_inv i r p s d f :
  surfaces p !! i = Some s → at_ s ≠ Finished → d = ctx_done p ∨ d = true → inv p →
  inv (MkProcess d f (main_at p) (alter (λ s, MkSurface r (socket s)) i (surfaces p))).
Proof.
  intros Hs Hf Hd Hp. unfold inv in *. cbn [main_at ctx_done surfaces]. rewrite length_alter.
  assert (d = true ↔ ctx_done p = true ∨ d = true) by (destruct Hd as [->| ->]; tauto).
  destruct (main_at p) as [|k|k| |b]; [done|tauto| | |].
  - split; [tauto|]. apply closed_alter; [done|apply Hp].
  - split; [tauto|]. apply closed_alter; [done|apply Hp].
  - destruct Hp as (_ & _ & Hall & _). by apply finished_at in Hs.
Qed.

Lemma step_inv l p q : step l p = Some q → inv p → inv q.
Proof.
  destruct l; intros H Hp.
  1: { cbn [step] in H. destruct (ctx_done p) eqn:E; [done|]. apply (inj Some) in H as <-. unfold inv in *. cbn. destruct (main_at p); intuition congruence. }
  1-5: open_step H; (eapply (move_inv i _ p); [exact Hs|done|auto|done]).
  cbn [step] in H. unfold main_step in H. unfold inv in Hp. destruct (main_at p) as [|i|i| |] eqn:Ew; [| | | |done].
  - destruct (ctx_done p) eqn:E; [|done]. apply (inj Some) in H as <-. done.
  - destruct (surfaces p !! i) as [s|]; apply (inj Some) in H as <-; [by destruct (is_serving s)|]. split; [done|]. intros j s Hj. lia.
  - destruct Hp as [Hc Hk]. destruct (surfaces p !! i) as [s|] eqn:E; apply (inj Some) in H as <-; (split; [done|]).
    + intros j s' Hj. cbn [go close surfaces]. rewrite list_lookup_alter. case_decide as Ej; [subst|].
      * destruct (surfaces p !! j); cbn; [by intros [= <-]|done].
      * apply Hk. lia.
    + apply lookup_ge_None in E. intros j s' Hj. apply Hk. cbn in Hj. lia.
  - destruct (forallb is_finished (surfaces p)) eqn:E; [|done]. apply (inj Some) in H as <-. by destruct Hp.
Qed.

Lemma run_inv ls : ∀ p q, run ls p = Some q → inv p → inv q.
Proof.
  induction ls as [|l ls IH]; intros p q H Hp; cbn [run] in H; [by injection H as ->|].
  apply bind_Some in H as (p' & Hs & H). apply IH in H; [done|]. by eapply step_inv.
Qed.

(** Once the context has ended, a process at rest has left, with every socket closed and every
    goroutine past its end. *)
Lemma rest_left p : inv p → ctx_done p = true → at_rest p →
  main_at p = Left (failed p) ∧ Forall (λ s, at_ s = Finished ∧ socket s = false) (surfaces p).
Proof.
  intros Hp Hc Hr. pose proof (Hr Main eq_refl) as Hm. cbn [step] in Hm. unfold main_step in Hm. unfold inv in Hp.
  destruct (main_at p) as [|i|i| |b] eqn:Ew; [by rewrite Hc in Hm|by destruct (surfaces p !! i)|by destruct (surfaces p !! i)| |].
  - destruct Hp as [_ Hk]. destruct (forallb is_finished (surfaces p)) eqn:E; [done|].
    exfalso. apply not_true_iff_false in E. apply E, forallb_forall. intros s Hs. apply list_elem_of_In, list_elem_of_lookup in Hs as [i Hi].
    pose proof (Hk i s (lookup_lt_Some _ _ _ Hi) Hi) as Ho.
    assert (H : ∀ l, due l p = true → (∃ q, step l p = Some q) → False) by (intros l Hl [q Hq]; specialize (Hr l Hl); congruence).
    unfold is_finished. destruct (at_ s) eqn:Es; try done; exfalso.
    + apply (H (Returns i true)); cbn; rewrite Hi; cbn; [by rewrite Ho|]. rewrite Es. eauto.
    + apply (H (Returns i true)); cbn; rewrite Hi; cbn; [by rewrite Ho|]. rewrite Es. eauto.
    + apply (H (Checks i)); [done|]. cbn. rewrite Hi. cbn. rewrite Es. eauto.
    + apply (H (Stores i)); [done|]. cbn. rewrite Hi. cbn. rewrite Es. eauto.
    + apply (H (Stops i)); [done|]. cbn. rewrite Hi. cbn. rewrite Es. eauto.
  - destruct Hp as (_ & Hk & Hall & ->). split; [done|]. apply Forall_forall. intros s Hs. apply list_elem_of_lookup in Hs as [i Hi].
    split; [by eapply finished_at|]. eapply Hk; [by eapply lookup_lt_Some|done].
Qed.

(** ** What a run reports *)

(** A part of a run in which nothing has ended the context. *)
Definition is_quiet (l : label) : bool := match l with Signal | Stops _ | Main => false | _ => true end.
Definition quiet (ls : list label) : Prop := forallb is_quiet ls = true.

(** A surface whose listener returned an error, which its goroutine saw before anything ended the
    context. *)
Definition died (ls : list label) : Prop := ∃ i pre post, ls = pre ++ Checks i :: post ∧ Returns i true ∈ pre ∧ quiet pre.

Lemma quiet_snoc ls l : quiet (ls ++ [l]) ↔ quiet ls ∧ is_quiet l = true.
Proof. unfold quiet. rewrite forallb_app, andb_true_iff. cbn. by rewrite andb_true_r. Qed.

Lemma died_snoc ls l : died (ls ++ [l]) ↔ died ls ∨ ∃ i, l = Checks i ∧ Returns i true ∈ ls ∧ quiet ls.
Proof.
  split.
  - intros (i & pre & post & E & H). destruct post as [|x post _] using rev_ind.
    + apply app_inj_tail in E as [-> ->]. right. by exists i.
    + rewrite app_comm_cons, (assoc_L (++)) in E. apply app_inj_tail in E as [-> _]. left. by exists i, pre, post.
  - intros [(i & pre & post & -> & H)|(i & -> & H)]; [exists i, pre, (post ++ [l])|exists i, ls, []]; [|done].
    by rewrite <-(assoc_L (++)).
Qed.

(** What the run tells of a goroutine. *)
Definition told (ls : list label) (i : nat) (r : runner) : Prop :=
  match r with
  | Starting | Serving => ∀ e, Returns i e ∉ ls
  | Returned e => ∀ e', Returns i e' ∈ ls ↔ e' = e
  | _ => True
  end.

Lemma told_other ls l i r : (∀ e, l ≠ Returns i e) → told ls i r → told (ls ++ [l]) i r.
Proof.
  intros Hl. assert (H : ∀ e, Returns i e ∈ ls ++ [l] ↔ Returns i e ∈ ls).
  { intros e. rewrite elem_of_app, list_elem_of_singleton. split; [|by left]. intros [H|<-]; [done|]. by destruct (Hl e). }
  destruct r; cbn; try done; intros Ht e; [by rewrite H|by rewrite H|rewrite H; apply Ht].
Qed.

Definition some_failing (l : list surface) : Prop := ∃ i s, l !! i = Some s ∧ at_ s = Failing.

Lemma failing_move i r l s :
  l !! i = Some s → at_ s ≠ Failing → some_failing (alter (λ s, MkSurface r (socket s)) i l) ↔ r = Failing ∨ some_failing l.
Proof.
  intros Hs Hf. split.
  - intros (j & s' & Hj & E). rewrite list_lookup_alter in Hj. case_decide as Ej.
    + rewrite Hs in Hj. cbn in Hj. injection Hj as <-. by left.
    + right. by exists j, s'.
  - intros [->|(j & s' & Hj & E)].
    + exists i, (MkSurface Failing (socket s)). by rewrite list_lookup_alter_eq, Hs.
    + exists j, s'. rewrite list_lookup_alter_ne; [done|]. intros ->. congruence.
Qed.

Record tells (ls : list label) (p : process) : Prop := Tells {
  tells_ctx : quiet ls ↔ ctx_done p = false;
  tells_at i s : surfaces p !! i = Some s → told ls i (at_ s);
  tells_failed : died ls ↔ failed p = true ∨ some_failing (surfaces p);
}.

(** A step of a goroutine keeps what the run tells of the others. *)
Lemma tells_move ls l i r p s j s' :
  tells ls p → surfaces p !! i = Some s → (∀ k e, l = Returns k e → k = i) → told (ls ++ [l]) i r →
  alter (λ s, MkSurface r (socket s)) i (surfaces p) !! j = Some s' → told (ls ++ [l]) j (at_ s').
Proof.
  intros Ht Hs Hl Hr Hj. rewrite list_lookup_alter in Hj. case_decide as E.
  - rewrite Hs in Hj. injection Hj as <-. by subst.
  - apply told_other; [intros e ->; destruct E; symmetry; by apply (Hl j e)|]. by apply (tells_at _ _ Ht).
Qed.

Lemma died_other ls l : (∀ i, l ≠ Checks i) → died (ls ++ [l]) ↔ died ls.
Proof. intros Hl. rewrite died_snoc. split; [|by left]. intros [H|(i & -> & _)]; [done|]. by destruct (Hl i). Qed.

(** The main goroutine leaves the others where they are. *)
Lemma list_fmap_alter_same {A B} (f : A → B) (g : A → A) (l : list A) (i : nat) : (∀ x, f (g x) = f x) → f <$> alter g i l = f <$> l.
Proof. intros H. revert i. induction l as [|x l IH]; intros [|i]; cbn; [done|done|by rewrite H|]. f_equal. apply IH. Qed.

Lemma main_same p q : main_step p = Some q → ctx_done q = ctx_done p ∧ failed q = failed p ∧ at_ <$> surfaces q = at_ <$> surfaces p.
Proof.
  assert (Hclose : ∀ i, at_ <$> surfaces (close i p) = at_ <$> surfaces p).
  { intros i. by apply list_fmap_alter_same. }
  unfold main_step. intros H. repeat case_match; try done; apply (inj Some) in H as <-; cbn [go surfaces ctx_done failed]; auto.
Qed.

Lemma same_at (k l : list surface) i s : at_ <$> k = at_ <$> l → k !! i = Some s → ∃ s', l !! i = Some s' ∧ at_ s' = at_ s.
Proof.
  intros E Hi. assert (H : (at_ <$> l) !! i = Some (at_ s)) by (rewrite <-E, list_lookup_fmap, Hi; done).
  rewrite list_lookup_fmap in H. apply fmap_Some in H as (s' & ? & ?). eauto.
Qed.

Lemma same_failing k l : at_ <$> k = at_ <$> l → some_failing k → some_failing l.
Proof. intros E (i & s & Hi & Hf). destruct (same_at k l i s E Hi) as (s' & ? & ?). exists i, s'. split; [done|congruence]. Qed.

Lemma tells_step ls l p q : inv p → tells ls p → step l p = Some q → tells (ls ++ [l]) q.
Proof.
  intros Hp Ht H. pose proof Ht as [Hc Ha Hf]. destruct l.
  - cbn [step] in H. destruct (ctx_done p) eqn:E; [done|]. apply (inj Some) in H as <-. constructor; cbn.
    + rewrite quiet_snoc. cbn. split; [by intros []|done].
    + intros i s Hs. apply told_other; [done|]. by apply Ha.
    + by rewrite died_other.
  - open_step H. constructor; cbn.
    + rewrite quiet_snoc, Hc. cbn. tauto.
    + intros j s' Hj. eapply (tells_move ls _ i Serving p); [done|exact Hs|done| |exact Hj]. apply (told_other ls _ i Starting); [done|]. apply (Ha _ _ Hs).
    + rewrite died_other, Hf, (failing_move _ _ _ _ Hs) by done. naive_solver.
  - assert (Hold : ∀ r o, surfaces p !! i = Some (MkSurface r o) → r = Starting ∨ r = Serving → told (ls ++ [Returns i err]) i (Returned err)).
    { intros r o Hs Hr e'. assert (Hn : ∀ e, Returns i e ∉ ls) by (specialize (Ha _ _ Hs); destruct Hr as [-> | ->]; exact Ha).
      rewrite elem_of_app, list_elem_of_singleton. split; [intros [Hx|Hx]; [by destruct (Hn e')|congruence]|intros ->; by right]. }
    open_step H; (constructor; cbn; [by rewrite quiet_snoc, Hc; cbn; tauto| |by rewrite died_other, Hf, (failing_move _ _ _ _ Hs) by done; naive_solver]);
      intros j s' Hj; (eapply (tells_move ls _ i (Returned err) p); [done|exact Hs|by intros k e [= -> ->]| |exact Hj]); eapply Hold; eauto.
  - open_step H. constructor; cbn.
    + rewrite quiet_snoc, Hc. cbn. tauto.
    + intros j s' Hj. eapply (tells_move ls _ i _ p); [done|exact Hs|done| |exact Hj]. by destruct (err && _).
    + rewrite died_snoc, Hf, (failing_move _ _ _ _ Hs) by done. specialize (Ha _ _ Hs). cbn in Ha.
      assert (Hx : (∃ k, Checks i = Checks k ∧ Returns k true ∈ ls ∧ quiet ls) ↔ (if err && negb (ctx_done p) then Failing else Finished) = Failing).
      { split; [intros (k & [= <-] & Hk & Hq)|intros E; exists i; split; [done|]].
        - apply Ha in Hk as <-. apply Hc in Hq. by rewrite Hq.
        - rewrite Hc. destruct err, (ctx_done p); try done. split; [by apply Ha|done]. }
      rewrite Hx. tauto.
  - open_step H. constructor; cbn.
    + rewrite quiet_snoc, Hc. cbn. tauto.
    + intros j s' Hj. by eapply (tells_move ls _ i Stopping p).
    + rewrite died_other, Hf by done. split; [by left|]. intros _. right. by exists i, (MkSurface Failing o).
  - open_step H. constructor; cbn.
    + rewrite quiet_snoc. cbn. split; [by intros []|done].
    + intros j s' Hj. by eapply (tells_move ls _ i Finished p).
    + rewrite died_other, Hf, (failing_move _ _ _ _ Hs) by done. naive_solver.
  - assert (Hctx : ctx_done p = true).
    { cbn [step] in H. unfold main_step in H. unfold inv in Hp. destruct (main_at p); [by destruct (ctx_done p)|naive_solver..]. }
    cbn [step] in H. apply main_same in H as (H1 & H2 & H3). constructor.
    + rewrite quiet_snoc, H1, Hctx. split; [by intros []|done].
    + intros j s Hj. destruct (same_at _ _ _ _ H3 Hj) as (s' & Hs & <-). apply told_other; [done|]. by apply Ha.
    + rewrite died_other, Hf, H2 by done. split; (intros [?|Hx]; [by left|right; by eapply same_failing]).
Qed.

Lemma run_one_more ls l p : run (ls ++ [l]) p = q ← run ls p; step l q.
Proof. revert p. induction ls as [|x ls IH]; intros p; cbn; [by destruct (step l p)|]. destruct (step x p); [apply IH|done]. Qed.

(** The process as [serve] starts it. *)
Definition begun (p : process) : Prop :=
  ctx_done p = false ∧ failed p = false ∧ main_at p = Waiting ∧ Forall (λ s, s = MkSurface Starting true) (surfaces p).

Lemma begun_inv p : begun p → inv p.
Proof. intros (_ & _ & E & _). unfold inv. by rewrite E. Qed.

Lemma run_tells ls : ∀ p q, begun p → run ls p = Some q → tells ls q.
Proof.
  induction ls as [|l ls IH] using rev_ind; intros p q Hb H.
  - injection H as <-. destruct Hb as (H1 & H2 & _ & H4). rewrite Forall_forall in H4. constructor.
    + done.
    + intros i s Hs. rewrite (H4 s) by (by eapply list_elem_of_lookup_2). intros e He. by apply elem_of_nil in He.
    + rewrite H2. split; [intros (i & pre & post & E & _); by destruct pre|intros [?|(i & s & Hs & Hf)]; [done|]].
      rewrite (H4 s) in Hf by (by eapply list_elem_of_lookup_2). done.
  - rewrite run_one_more in H. apply bind_Some in H as (p' & Hr & H). eapply tells_step; [|by eapply IH|done]. eapply run_inv; [done|]. by apply begun_inv.
Qed.

(** C35: the end of the service. Both sockets are bound before a surface serves, and a start that
    cannot bind one leaves none open. However the goroutines of the surfaces, the main one and
    the signals interleave: every run is finite; once the context has ended the process rests
    only where it has left, its sockets closed and its goroutines past their end; and it reports a failure exactly where a listener returned an
    error and its goroutine saw that before a signal, another failure or the shutdown had ended
    the context. *)
Theorem serve_ends public internal :
  match serve public internal with
  | Err sockets => public && internal = false ∧ Forall (λ o, o = false) sockets
  | Ok p => ∀ ls q, run ls p = Some q →
      length ls ≤ 19
      ∧ (ctx_done q = true → at_rest q → main_at q = Left (failed q))
      ∧ (∀ b, main_at q = Left b → (b = true ↔ died ls) ∧ Forall (λ s, at_ s = Finished ∧ socket s = false) (surfaces q))
  end.
Proof.
  destruct public, internal; cbn [serve negb andb]; try (by repeat constructor).
  set (p := MkProcess _ _ _ _). assert (Hb : begun p) by (by repeat constructor). intros ls q Hr.
  pose proof (run_inv _ _ _ Hr (begun_inv _ Hb)) as Hi. split_and!.
  - apply run_measure in Hr. cbn in Hr. lia.
  - intros Hc Hrest. by apply rest_left.
  - intros b Hl. destruct (run_tells _ _ _ Hb Hr) as [_ _ Hf].
    unfold inv in Hi. rewrite Hl in Hi. destruct Hi as (_ & Hk & Hall & ->).
    assert (Hfin : Forall (λ s, at_ s = Finished ∧ socket s = false) (surfaces q)).
    { apply Forall_forall. intros s Hs. apply list_elem_of_lookup in Hs as [i Hs]. split; [by eapply finished_at|]. eapply Hk; [by eapply lookup_lt_Some|done]. }
    split; [|done]. rewrite Hf. split; [by left|]. intros [?|(i & s & Hs & E)]; [done|]. apply finished_at with (i := i) (s := s) in Hall; [congruence|done].
Qed.

(** The status of the process: 1 for a start that failed, and where [serve] reports a failure. *)
Definition exit_status {E A} (started : result E A) (served : result (list bool) process) : option Z :=
  match started, served with
  | Err _, _ | _, Err _ => Some 1%Z
  | Ok _, Ok p => match main_at p with Left b => Some (if b then 1%Z else 0%Z) | _ => None end
  end.

(** A run of each kind: a signal ends the service, and a surface that fails ends it. *)
Definition signalled : list label :=
  [Serves 0; Serves 1; Signal; Main; Main; Returns 0 false; Main; Returns 1 true; Checks 1; Main; Main; Main; Main; Checks 0; Main].

Definition broken : list label :=
  [Serves 0; Returns 1 true; Checks 1; Stores 1; Stops 1; Main; Main; Main; Main; Main; Returns 0 true; Checks 0; Main; Main; Main].

Example runs_end :
  (λ p, (main_at <$> run signalled p, main_at <$> run broken p)) <$> serve true true = Ok (Some (Left false), Some (Left true)).
Proof. vm_compute. reflexivity. Qed.

Lemma serve_ends_witness :
  died broken ∧ ¬ died signalled
  ∧ ∃ p q, serve true true = Ok p ∧ run broken p = Some q ∧ Forall (λ s, at_ s = Finished ∧ socket s = false) (surfaces q).
Proof.
  pose proof (serve_ends true true) as H. cbn [serve negb] in H. split_and!.
  - eapply (H broken); [vm_compute; reflexivity|reflexivity|reflexivity].
  - intros Hd. assert (false = true) as [=]. eapply (H signalled); [vm_compute; reflexivity|reflexivity|exact Hd].
  - eexists _, _. split; [reflexivity|]. split; [vm_compute; reflexivity|]. eapply (H broken); [vm_compute; reflexivity|reflexivity].
Defined.

(** ** The policies that are served *)

Lemma exists_cons {A} (Q : A → Prop) x l : (∃ e, e ∈ x :: l ∧ Q e) ↔ Q x ∨ ∃ e, e ∈ l ∧ Q e.
Proof.
  setoid_rewrite elem_of_cons. split; [intros (e & [->|H] & HQ); eauto|].
  intros [HQ|(e & H & HQ)]; [exists x|exists e]; eauto.
Qed.

Lemma add_modules_read entries : ∀ out,
  NoDup (Name <$> entries) → (∀ e, e ∈ entries → out !! Name e = None) →
  match add_modules out entries with
  | Err x => ∃ e, e ∈ entries ∧ is_policy e = true ∧ content e = None ∧ x = ReadPolicy (Name e)
  | Ok m => (∀ e, e ∈ entries → is_policy e = true → is_Some (content e))
      ∧ ∀ n c, m !! n = Some c ↔ out !! n = Some c ∨ ∃ e, e ∈ entries ∧ is_policy e = true ∧ Name e = n ∧ content e = Some c
  end.
Proof.
  induction entries as [|e entries IH]; intros out Hn Ho; cbn [add_modules].
  { split; [by intros e ?%elem_of_nil|]. intros n c. split; [by left|]. intros [|(e & ?%elem_of_nil & _)]; done. }
  rewrite fmap_cons in Hn. apply NoDup_cons in Hn as [He Hn].
  assert (Hne : ∀ e', e' ∈ entries → Name e ≠ Name e') by (intros e' H' E; apply He; rewrite E; by apply list_elem_of_fmap_2).
  unfold add_module. destruct (is_policy e) eqn:Ep; [destruct (content e) as [c|] eqn:Ec|]; cbn [mbind result_bind].
  - specialize (IH (<[Name e := c]> out) Hn).
    assert (Ho' : ∀ e', e' ∈ entries → <[Name e := c]> out !! Name e' = None).
    { intros e' H'. rewrite lookup_insert_ne by auto. apply Ho. by right. }
    specialize (IH Ho'). destruct (add_modules _ entries) as [m|x]; [|destruct IH as (e' & ? & ?); exists e'; split; [by right|done]].
    destruct IH as [H1 H2]. split; [intros e' [->|H']%elem_of_cons Hp; [by rewrite Ec|by apply H1]|].
    intros n c'. rewrite H2. pose proof (Ho e ltac:(by left)) as Hoe. destruct (decide (Name e = n)) as [<-|Hx].
    + rewrite lookup_insert_eq, exists_cons, Hoe, Ep, Ec. split; [intros [?|?]; auto|intros [?|[(_ & _ & ?)|?]]; auto; done].
    + rewrite lookup_insert_ne by done. rewrite exists_cons. split; [intros [?|?]; auto|intros [?|[(_ & ? & _)|?]]; auto; done].
  - exists e. split; [by left|done].
  - specialize (IH out Hn ltac:(intros e' H'; apply Ho; by right)).
    destruct (add_modules _ entries) as [m|x]; [|destruct IH as (e' & ? & ?); exists e'; split; [by right|done]].
    destruct IH as [H1 H2]. split; [intros e' [->|H']%elem_of_cons Hp; [congruence|by apply H1]|].
    intros n c'. rewrite H2, exists_cons, Ep. split; [intros [?|?]; auto|intros [?|[(? & _)|?]]; auto; done].
Qed.

(** [Modules] gives the policies of the directory with their texts and nothing else, or fails:
    where a policy cannot be read, or where there is none. *)
Lemma Modules_read entries :
  NoDup (Name <$> entries) →
  match Modules (Some entries) with
  | Ok m => m ≠ ∅ ∧ ∀ n c, m !! n = Some c ↔ ∃ e, e ∈ entries ∧ is_policy e = true ∧ Name e = n ∧ content e = Some c
  | Err NoPolicies => ∀ e, e ∈ entries → is_policy e = false
  | Err x => ∃ e, e ∈ entries ∧ is_policy e = true ∧ content e = None ∧ x = ReadPolicy (Name e)
  end.
Proof.
  intros Hn. pose proof (add_modules_read entries ∅ Hn (λ e _, lookup_empty _)) as H. cbn [Modules].
  destruct (add_modules ∅ entries) as [m|x]; cbn [mbind result_bind]; [|destruct x; destruct H as (e & H1 & H2 & H3 & [= ]); by exists e; subst].
  destruct H as [H1 H2]. case_decide as E.
  - apply map_size_empty_iff in E as ->. intros e He. destruct (is_policy e) eqn:Ep; [|done]. destruct (H1 e He Ep) as [c Hc].
    assert (Hx : (∅ : gmap string string) !! Name e = Some c) by (apply H2; right; by exists e). done.
  - split; [intros ->; by rewrite map_size_empty in E|]. intros n c. rewrite H2, lookup_empty. naive_solver.
Qed.

Section started.
Context {module compiler prepared store caches failure : Type}.
Variable ParseModule : string → string → result failure module.
Variable Compile : gmap string module → result failure compiler.
Variable empty_store : store.
Variable empty_caches : caches.

(** A service that starts runs the puller, and the loops of the providers and of the tokens where
    they are configured; its puller asks the token source exactly where there is one, and its
    engine has been given at least one policy. *)
Lemma start_loops cfg env entries internal public (s : service (compiler := compiler) (prepared := prepared) (store := store) (caches := caches)) :
  start (failure := failure) ParseModule Compile empty_store empty_caches cfg env entries internal public = Ok s →
  internal = true ∧ public = true ∧ PullLoop ∈ loops s
  ∧ (TokenLoop ∈ loops s ↔ M2m.TokenURL (AgentConfig.C_M2M cfg) ≠ EmptyString ∨ M2m.TokenFile (AgentConfig.C_M2M cfg) ≠ EmptyString)
  ∧ (ProvidersLoop ∈ loops s ↔ Authn.File (AgentConfig.C_Authn cfg) ≠ EmptyString)
  ∧ (s_source s = true ↔ TokenLoop ∈ loops s)
  ∧ modules s ≠ ∅.
Proof.
  unfold start. intros H. destruct (Modules entries) as [m|] eqn:Em; [|done]. cbn [wrap mbind result_bind] in H.
  destruct (Engine.New _ _ _ _ (map_to_list m)) as [eng|] eqn:Ee; [|done]. cbn [wrap mbind result_bind] in H.
  destruct internal, public; try done. cbn [negb orb] in H. injection H as <-. cbn [loops s_source modules].
  assert (Hm : m ≠ ∅).
  { intros ->. unfold Engine.New in Ee. by rewrite map_to_list_empty in Ee. }
  assert (He : ∀ x, is_empty x = true ↔ x = EmptyString) by (by intros []).
  set (t := if is_empty (M2m.TokenURL _) && _ then None else _). set (p := if is_empty (Authn.File _) then None else _).
  assert (Ht : is_some t = true ↔ M2m.TokenURL (AgentConfig.C_M2M cfg) ≠ EmptyString ∨ M2m.TokenFile (AgentConfig.C_M2M cfg) ≠ EmptyString).
  { unfold t. rewrite <-!He. destruct (is_empty (M2m.TokenURL _)), (is_empty (M2m.TokenFile _)); cbn; naive_solver. }
  assert (Hp : is_some p = true ↔ Authn.File (AgentConfig.C_Authn cfg) ≠ EmptyString).
  { unfold p. rewrite <-He. destruct (is_empty (Authn.File _)); cbn; naive_solver. }
  rewrite <-Ht, <-Hp. split_and!; try done; clear; destruct (is_some t), (is_some p); cbn; rewrite ?elem_of_cons, ?elem_of_nil; intuition discriminate.
Qed.
End started.

End AgentProcess.
