(* ===== verification/PolicyAdmin.v ===== *)
(** * The policy administration stub ([components/authz-policy-admin])

    The conversion of simplified policies to the v3 policy sets of the export
    ([convert.go]). *)
From S2P Require Import Prelude GoText.
Import GoText.

Module PolicyAdmin.

(** ** The upload and the export *)

(** A decoded JSON value of the field [condition]; any but a string, a boolean and null is
    held as its text under [%v]. *)
Inductive condition_value :=
  | CNil
  | CString (s : string)
  | CBool (b : bool)
  | COther (text : string).

(** [simplifiedPolicy]; a role is held as its text under [%v], which is the string itself
    for a string. *)
Record simplifiedPolicy := MkSimplifiedPolicy {
  Component : string;
  ResourceType : string;
  Operation : string;
  Condition : condition_value;
  RSQLPredicate : string;
  SQLPredicate : string;
  MongoDBPredicate : string;
  Predicate : string;
  Roles : list string;
}.

Record v3Rule := MkV3Rule {
  v3_RuleID : string;
  v3_RuleName : string;
  v3_RuleTarget : string;
  v3_Condition : option string;
  v3_Effect : string;
  v3_RSQLPredicate : string;
  v3_SQLPredicate : string;
  v3_MongoDBPredicate : string;
  v3_Predicate : string;
}.

Record v3Policy := MkV3Policy {
  v3_PolicyID : string;
  v3_PolicyTarget : string;
  v3_PolicyAlgorithm : string;
  v3_Rules : list v3Rule;
}.

Record v3PolicySet := MkV3PolicySet {
  v3_PolicySetID : string;
  v3_SetName : string;
  v3_Type : string;
  v3_Domain : string;
  v3_Status : string;
  v3_SetTarget : string;
  v3_SetAlgorithm : string;
  v3_TenantID : string;
  v3_Policies : list v3Policy;
}.

(** ** Targets *)

Definition is_all (s : string) : bool := foldEq (bytes_of s) (bytes_of "ALL") || eqb s "*"%string.

Definition resourceTypeTarget (rt : string) : string :=
  if is_all rt then "true" else "resourceType == '" +:+ rt +:+ "'".

Definition operationTarget (op : string) : string :=
  if is_all op then "true" else "operation == '" +:+ op +:+ "'".

Definition quoted (r : bytes) : bytes := "'"%char :: r ++ ["'"%char].

Definition rolesTarget (rolesKey : string) : string :=
  if eqb rolesKey EmptyString then "true"
  else
    match Split "," (bytes_of rolesKey) with
    | [r] => string_of (bytes_of "subject.roles CONTAINS " ++ quoted r)
    | parts => string_of (bytes_of "subject.roles CONTAINS ANY " ++ Join "," (quoted <$> parts))
    end.

Definition rolesKey (roles : list string) : string :=
  string_of (Join "," (bytes_of <$> sort_strings roles)).

Definition conditionString (cond : condition_value) : string :=
  match cond with
  | CNil => EmptyString
  | CString s => s
  | CBool b => if b then "true" else "false"
  | COther text => text
  end.

(** ** Grouping *)

Record ruleVal := MkRuleVal {
  operation : string;
  condition : string;
  rsqlPredicate : string;
  sqlPredicate : string;
  mongodbPredicate : string;
  predicate : string;
}.

(** [psKey], and the rules of each [pKey]. *)
Notation psKey := (string * string)%type (only parsing).
Notation by_roles := (gmap string (list ruleVal)) (only parsing).

Record groups := Groups { psOrder : list psKey; psMap : gmap psKey by_roles }.

Definition rule_of (p : simplifiedPolicy) : ruleVal :=
  MkRuleVal (Operation p) (conditionString (Condition p)) (RSQLPredicate p) (SQLPredicate p)
    (MongoDBPredicate p) (Predicate p).

(** One turn of the collecting loop. *)
Definition add_item (g : groups) (p : simplifiedPolicy) : groups :=
  let pk := (Component p, ResourceType p) in
  let g := match psMap g !! pk with
           | Some _ => g
           | None => Groups (psOrder g ++ [pk]) (<[pk := ∅]> (psMap g))
           end in
  let rk := rolesKey (Roles p) in
  let m := default ∅ (psMap g !! pk) in
  Groups (psOrder g) (<[pk := <[rk := default [] (m !! rk) ++ [rule_of p]]> m]> (psMap g)).

Definition collect (items : list simplifiedPolicy) : groups := fold_left add_item items (Groups [] ∅).

Definition to_rule (pi ri : nat) (rule : ruleVal) : v3Rule :=
  MkV3Rule ("rule-" +:+ pretty pi +:+ "-" +:+ pretty ri)
    ("rule-" +:+ operation rule +:+ "-" +:+ condition rule)
    (operationTarget (operation rule))
    (if eqb (condition rule) EmptyString then None else Some (condition rule))
    "ALLOW" (rsqlPredicate rule) (sqlPredicate rule) (mongodbPredicate rule) (predicate rule).

Definition to_policy (m : by_roles) (pi : nat) (rk : string) : v3Policy :=
  MkV3Policy ("policy-" +:+ pretty pi) (rolesTarget rk) "DENY_UNLESS_PERMIT"
    (imap (to_rule pi) (default [] (m !! rk))).

Definition to_set (g : groups) (pk : psKey) : v3PolicySet :=
  let m := default ∅ (psMap g !! pk) in
  let pKeys := sort_strings (fst <$> map_to_list m) in
  MkV3PolicySet ("ps-" +:+ pk.1 +:+ "-" +:+ pk.2) (pk.1 +:+ "-" +:+ pk.2 +:+ " policy set") "SIMPLIFIED" pk.1
    "ACTIVE" (resourceTypeTarget pk.2) "DENY_UNLESS_PERMIT" pk.1 (imap (to_policy m) pKeys).

Definition toV3PolicySets (items : list simplifiedPolicy) : list v3PolicySet :=
  let g := collect items in to_set g <$> psOrder g.

Example toV3PolicySets_example :
  let item op roles := MkSimplifiedPolicy "BSS" "Order" op CNil EmptyString EmptyString EmptyString EmptyString roles in
  map (λ s, (v3_SetTarget s, map (λ p, (v3_PolicyTarget p, map v3_RuleTarget (v3_Rules p))) (v3_Policies s)))
    (toV3PolicySets [item "read" ["B"; "A"]; item "all" []; item "write" ["A"; "B"]]%string)
  = [("resourceType == 'Order'",
      [("true", ["true"]);
       ("subject.roles CONTAINS ANY 'A','B'", ["operation == 'read'"; "operation == 'write'"])])]%string.
Proof. vm_compute. reflexivity. Qed.

End PolicyAdmin.
