(* ===== verification/PolicyExport.v ===== *)
(** * The export of the administration stub, as the agent converts it

    What [components/authz-policy-admin/convert.go] writes, [internal/acconfig/convert.go]
    reads back: the simplified policies the agent obtains from the export of the stub are
    those uploaded to it, each in its normal form. *)
From S2P Require Import Prelude GoText Json Encoding JsonText Acconfig PolicyAdmin.
Import GoText JsonText.

Module PolicyExport.

(** ** The wire

    Both sides name the fields by the same JSON keys, and every text arrives as
    [encoding/json] writes and reads it: an invalid byte is replaced. The export omits an
    empty predicate, which decodes to the empty string again. *)
Definition wire_rule (r : PolicyAdmin.v3Rule) : Acconfig.RuleV3 :=
  Acconfig.MkRuleV3 (wire_text (PolicyAdmin.v3_RuleID r)) (wire_text (PolicyAdmin.v3_RuleTarget r))
    (wire_text <$> PolicyAdmin.v3_Condition r) (wire_text (PolicyAdmin.v3_Effect r)) (wire_text (PolicyAdmin.v3_RSQLPredicate r))
    (wire_text (PolicyAdmin.v3_SQLPredicate r)) (wire_text (PolicyAdmin.v3_MongoDBPredicate r)) (wire_text (PolicyAdmin.v3_Predicate r)).

Definition wire_policy (p : PolicyAdmin.v3Policy) : Acconfig.PolicyV3 :=
  Acconfig.MkPolicyV3 (wire_text (PolicyAdmin.v3_PolicyID p)) (wire_text (PolicyAdmin.v3_PolicyTarget p))
    (wire_rule <$> PolicyAdmin.v3_Rules p).

Definition wire_set (s : PolicyAdmin.v3PolicySet) : Acconfig.PolicySetV3 :=
  Acconfig.MkPolicySetV3 (wire_text (PolicyAdmin.v3_PolicySetID s)) (wire_text (PolicyAdmin.v3_SetName s))
    (wire_text (PolicyAdmin.v3_Type s)) (wire_text (PolicyAdmin.v3_Domain s)) (wire_text (PolicyAdmin.v3_SetTarget s))
    (wire_text (PolicyAdmin.v3_TenantID s)) (wire_policy <$> PolicyAdmin.v3_Policies s).

(** ** What can be exported *)

(** A valid text, as every text of a decoded upload is. *)
Definition valid_text_of (s : string) : Prop := wire_text s = s.

(** A resource type or an operation: a name without quotes. *)
Definition wf_name (s : string) : Prop := s ≠ EmptyString ∧ Forall (λ c, Acconfig.not_quote c = true) (bytes_of s).

(** A role: not blank, without quotes and commas. *)
Definition wf_role (s : string) : Prop := Acconfig.role_literal (bytes_of s) ∧ ","%char ∉ bytes_of s.

(** The roles of a policy: such roles, or one empty role. *)
Definition wf_roles (roles : list string) : Prop := Forall wf_role roles ∨ roles = [EmptyString].

Definition texts (p : PolicyAdmin.simplifiedPolicy) : list string :=
  [PolicyAdmin.Component p; PolicyAdmin.ResourceType p; PolicyAdmin.Operation p; PolicyAdmin.conditionString (PolicyAdmin.Condition p);
   PolicyAdmin.RSQLPredicate p; PolicyAdmin.SQLPredicate p; PolicyAdmin.MongoDBPredicate p; PolicyAdmin.Predicate p] ++ PolicyAdmin.Roles p.

Definition wf_item (p : PolicyAdmin.simplifiedPolicy) : Prop :=
  wf_name (PolicyAdmin.ResourceType p) ∧ wf_name (PolicyAdmin.Operation p)
  ∧ wf_roles (PolicyAdmin.Roles p) ∧ Forall valid_text_of (texts p).

(** ** The normal form *)

(** The distinct roles in byte order. The export tells one empty role from no roles by nothing,
    so that it comes back as none. *)
Definition canonical_roles (roles : list string) : list string :=
  if bool_decide (roles = [EmptyString]) then [] else sort_strings (remove_dups roles).

Definition canonical_name (s : string) : string := if PolicyAdmin.is_all s then "ALL" else s.

Definition canonical (p : PolicyAdmin.simplifiedPolicy) : Acconfig.SimplifiedPolicy :=
  let c := PolicyAdmin.conditionString (PolicyAdmin.Condition p) in
  Acconfig.MkSimplifiedPolicy (Acconfig.coalesce (PolicyAdmin.Component p) "default")
    (canonical_name (PolicyAdmin.ResourceType p)) (canonical_name (PolicyAdmin.Operation p))
    (canonical_roles (PolicyAdmin.Roles p))
    (if Acconfig.is_blank (bytes_of c) then None else Some c)
    (Acconfig.unless_blank (PolicyAdmin.RSQLPredicate p)) (Acconfig.unless_blank (PolicyAdmin.SQLPredicate p))
    (Acconfig.unless_blank (PolicyAdmin.MongoDBPredicate p)) (Acconfig.unless_blank (PolicyAdmin.Predicate p)).

(** ** Targets *)

Lemma not_quote_span v : Forall (λ c, Acconfig.not_quote c = true) v →
  span Acconfig.not_quote (v ++ ["'"%char]) = (v, ["'"%char]).
Proof. intros H. apply span_spec; [done|]. by intros ? [= <-]. Qed.

Lemma TrimSpace_quoted c s v : solid c = true → TrimSpace (c :: s ++ v ++ ["'"%char]) = c :: s ++ v ++ ["'"%char].
Proof.
  intros Hc. apply TrimSpace_solid; [done|]. intros d. rewrite (assoc_L (++)), app_comm_cons, last_snoc.
  by intros [= <-].
Qed.

Lemma parse_equals_resourceType v :
  v ≠ [] → Forall (λ c, Acconfig.not_quote c = true) v →
  Acconfig.parseTarget (string_of (bytes_of "resourceType == '" ++ v ++ ["'"%char])) = Acconfig.targetResourceType v.
Proof.
  intros Hne Hv. unfold Acconfig.parseTarget. rewrite bytes_of_string_of.
  change (bytes_of "resourceType == '" ++ v ++ ["'"%char])
    with ("r"%char :: bytes_of "esourceType == '" ++ v ++ ["'"%char]).
  rewrite TrimSpace_quoted by done.
  assert (Acconfig.equals_pattern "resourceType" ("r"%char :: bytes_of "esourceType == '" ++ v ++ ["'"%char]) =
    match span Acconfig.not_quote (v ++ ["'"%char]) with
    | ([], _) => None
    | (value, rest) => if decide (rest = ["'"%char]) then Some value else None
    end) as -> by reflexivity.
  rewrite not_quote_span by done. destruct v as [|x v]; [done|]. done.
Qed.

Lemma parse_equals_operation v :
  v ≠ [] → Forall (λ c, Acconfig.not_quote c = true) v →
  Acconfig.parseTarget (string_of (bytes_of "operation == '" ++ v ++ ["'"%char])) = Acconfig.targetOperation v.
Proof.
  intros Hne Hv. unfold Acconfig.parseTarget. rewrite bytes_of_string_of.
  change (bytes_of "operation == '" ++ v ++ ["'"%char])
    with ("o"%char :: bytes_of "peration == '" ++ v ++ ["'"%char]).
  rewrite TrimSpace_quoted by done.
  assert (Acconfig.equals_pattern "operation" ("o"%char :: bytes_of "peration == '" ++ v ++ ["'"%char]) =
    match span Acconfig.not_quote (v ++ ["'"%char]) with
    | ([], _) => None
    | (value, rest) => if decide (rest = ["'"%char]) then Some value else None
    end) as -> by reflexivity.
  rewrite not_quote_span by done. destruct v as [|x v]; [done|]. done.
Qed.

Lemma parse_true : Acconfig.parseTarget "true" = Acconfig.targetAny.
Proof. reflexivity. Qed.

Lemma quoted_text p s : string_of (bytes_of p ++ bytes_of s ++ ["'"%char]) = p +:+ s +:+ "'".
Proof. by rewrite !string_of_app, !string_of_bytes_of. Qed.

Lemma parse_operationTarget op : wf_name op →
  Acconfig.parseTarget (PolicyAdmin.operationTarget op) =
  if PolicyAdmin.is_all op then Acconfig.targetAny else Acconfig.targetOperation (bytes_of op).
Proof.
  intros [Hne Hq]. unfold PolicyAdmin.operationTarget. destruct (PolicyAdmin.is_all op); [done|].
  rewrite <-(quoted_text "operation == '"). apply parse_equals_operation; [|done].
  intros E. apply Hne. by rewrite <-(string_of_bytes_of op), E.
Qed.

Lemma parse_resourceTypeTarget rt : wf_name rt →
  Acconfig.parseTarget (PolicyAdmin.resourceTypeTarget rt) =
  if PolicyAdmin.is_all rt then Acconfig.targetAny else Acconfig.targetResourceType (bytes_of rt).
Proof.
  intros [Hne Hq]. unfold PolicyAdmin.resourceTypeTarget. destruct (PolicyAdmin.is_all rt); [done|].
  rewrite <-(quoted_text "resourceType == '"). apply parse_equals_resourceType; [|done].
  intros E. apply Hne. by rewrite <-(string_of_bytes_of rt), E.
Qed.

(** ** Roles *)

Lemma Join_operands sp parts : Acconfig.gap sp → parts ≠ [] → Forall Acconfig.role_literal parts →
  Acconfig.operand_list parts (sp ++ Join "," (PolicyAdmin.quoted <$> parts)).
Proof.
  intros Hsp Hne H. revert sp Hsp. induction H as [|r parts Hr H IH]; intros sp Hsp; [done|].
  destruct parts as [|r' parts]; [by constructor|].
  change (Join "," (PolicyAdmin.quoted <$> r :: r' :: parts))
    with ("'"%char :: (r ++ ["'"%char]) ++ ","%char :: Join "," (PolicyAdmin.quoted <$> r' :: parts)).
  rewrite <-(assoc_L (++)). cbn [app].
  apply (Acconfig.operand_more sp r [] _ (Join "," (PolicyAdmin.quoted <$> r' :: parts))); [done..|constructor|].
  apply (IH ltac:(done) []). constructor.
Qed.

Lemma Join_last parts : parts ≠ [] → ∃ v, Join "," (PolicyAdmin.quoted <$> parts) = v ++ ["'"%char].
Proof.
  induction parts as [|r parts IH]; [done|]. intros _. destruct parts as [|r' parts].
  - by exists ("'"%char :: r).
  - destruct (IH ltac:(done)) as [v Hv].
    change (Join "," (PolicyAdmin.quoted <$> r :: r' :: parts))
      with (PolicyAdmin.quoted r ++ ","%char :: Join "," (PolicyAdmin.quoted <$> r' :: parts)).
    exists (PolicyAdmin.quoted r ++ ","%char :: v). by rewrite Hv, <-(assoc_L (++)).
Qed.

Lemma parse_role_text s lits :
  Acconfig.role_expr lits ("s"%char :: s) → last ("s"%char :: s) = Some "'"%char →
  Acconfig.parseTarget (string_of ("s"%char :: s)) = Acconfig.targetRoles (Acconfig.add_roles [] lits).
Proof.
  intros He Hl. unfold Acconfig.parseTarget. rewrite bytes_of_string_of, TrimSpace_solid;
    [|done|by rewrite Hl; intros ? [= <-]].
  change (Acconfig.equals_pattern "resourceType" ("s"%char :: s)) with (@None bytes).
  change (Acconfig.equals_pattern "operation" ("s"%char :: s)) with (@None bytes).
  change (foldEq ("s"%char :: s) (bytes_of "true")) with
    (eqb ("s"%char :: (lower <$> s)) (lower <$> bytes_of "true")).
  rewrite 2!(proj2 (eqb_false _ _)) by done. cbn [orb].
  unfold Acconfig.parseRoleExpression. by rewrite (Acconfig.role_expr_reads lits).
Qed.

Lemma rolesTarget_parts (parts : list bytes) :
  parts ≠ [] → Forall (λ r, Acconfig.role_literal r ∧ ","%char ∉ r) parts →
  Acconfig.parseTarget (PolicyAdmin.rolesTarget (string_of (Join "," parts))) =
  Acconfig.targetRoles (Acconfig.add_roles [] parts).
Proof.
  intros Hne H. unfold PolicyAdmin.rolesTarget. rewrite bytes_of_string_of, Split_Join;
    [|done|by eapply Forall_impl; [exact H|intros ? []]].
  assert (Forall Acconfig.role_literal parts) as Hl by (eapply Forall_impl; [exact H|by intros ? []]).
  assert (eqb (string_of (Join "," parts)) EmptyString = false) as ->.
  { apply eqb_false. intros E. apply (f_equal bytes_of) in E. rewrite bytes_of_string_of in E.
    destruct parts as [|r parts]; [done|]. apply Forall_cons in Hl as [[_ Hb] _].
    destruct parts; [simpl in E; by subst r|]. destruct r; [done|discriminate E]. }
  assert (Acconfig.word "subject.roles" (bytes_of "subject.roles")) as W1 by by apply (Acconfig.word_intro _ []); [constructor|].
  assert (Acconfig.word "CONTAINS" (bytes_of " CONTAINS")) as W2 by
    (apply (Acconfig.word_intro "CONTAINS" [" "%char] (bytes_of "CONTAINS")); [by constructor|done]).
  assert (Acconfig.word "ANY" (bytes_of " ANY")) as W3 by
    (apply (Acconfig.word_intro "ANY" [" "%char] (bytes_of "ANY")); [by constructor|done]).
  pose proof (Join_operands [" "%char] parts ltac:(by constructor) Hne Hl) as Ho.
  destruct parts as [|r [|r' parts]]; [done| |].
  - change (bytes_of "subject.roles CONTAINS " ++ PolicyAdmin.quoted r)
      with ("s"%char :: bytes_of "ubject.roles CONTAINS " ++ "'"%char :: r ++ ["'"%char]).
    apply parse_role_text; [|by rewrite app_comm_cons, (app_comm_cons r), (assoc_L (++)), last_snoc].
    pose proof (Acconfig.expr_clause _ _ [] (Acconfig.clause_contains _ _ _ _ W1 W2 eq_refl Ho) ltac:(constructor)) as He.
    by rewrite app_nil_r in He.
  - set (l := r :: r' :: parts) in *. destruct (Join_last l Hne) as [v Hv].
    change (bytes_of "subject.roles CONTAINS ANY " ++ Join "," (PolicyAdmin.quoted <$> l))
      with ("s"%char :: bytes_of "ubject.roles CONTAINS ANY " ++ Join "," (PolicyAdmin.quoted <$> l)).
    apply parse_role_text; [|by rewrite Hv, app_comm_cons, (assoc_L (++)), last_snoc].
    pose proof (Acconfig.expr_clause _ _ [] (Acconfig.clause_contains_any _ _ _ _ _ W1 W2 W3 eq_refl eq_refl Ho) ltac:(constructor)) as He.
    by rewrite app_nil_r in He.
Qed.

Lemma add_roles_snoc l x : Acconfig.add_roles [] (l ++ [x]) = Acconfig.add_role x (Acconfig.add_roles [] l).
Proof. unfold Acconfig.add_roles. by rewrite fold_left_app. Qed.

Lemma elem_of_add_role x y l : x ∈ Acconfig.add_role y l ↔ x = y ∨ x ∈ l.
Proof.
  unfold Acconfig.add_role. destruct (member y l) eqn:E.
  - apply member_true in E. naive_solver.
  - rewrite elem_of_app, list_elem_of_singleton. naive_solver.
Qed.

Lemma elem_of_add_roles x l : x ∈ Acconfig.add_roles [] l ↔ x ∈ l.
Proof.
  induction l as [|y l IH] using rev_ind; [done|].
  rewrite add_roles_snoc, elem_of_add_role, IH, elem_of_app, list_elem_of_singleton. naive_solver.
Qed.

Lemma NoDup_add_roles l : NoDup (Acconfig.add_roles [] l).
Proof.
  induction l as [|y l IH] using rev_ind; [constructor|]. rewrite add_roles_snoc. unfold Acconfig.add_role.
  destruct (member y _) eqn:E; [done|]. apply member_false in E.
  apply NoDup_app. split_and!; [done|set_solver|apply NoDup_singleton].
Qed.

Definition bytes_le (x y : bytes) : Prop := String.le (string_of x) (string_of y).

Lemma sorted_add_roles l : StronglySorted bytes_le l → StronglySorted bytes_le (Acconfig.add_roles [] l).
Proof.
  induction l as [|y l IH] using rev_ind; intros H; [done|].
  rewrite add_roles_snoc. unfold Acconfig.add_role.
  apply StronglySorted_app in H as (Hle & Hl & _). destruct (member y _); [by apply IH|].
  apply StronglySorted_app. split_and!; [|by apply IH|apply SSorted_cons; constructor].
  intros x z Hx Hz. apply (proj1 (elem_of_add_roles _ _)) in Hx. by apply Hle.
Qed.

Lemma distinct_roles roles :
  roles ≠ [EmptyString] → string_of <$> Acconfig.add_roles [] (bytes_of <$> sort_strings roles) = canonical_roles roles.
Proof.
  intros Hone. unfold canonical_roles. rewrite bool_decide_false by done.
  apply (StronglySorted_unique String.le).
  - assert (StronglySorted bytes_le (bytes_of <$> sort_strings roles)) as H.
    { apply (StronglySorted_fmap _ String.le); [|apply StronglySorted_merge_sort; apply _].
      intros x y ?. unfold bytes_le. by rewrite !string_of_bytes_of. }
    apply sorted_add_roles in H. by apply (StronglySorted_fmap _ bytes_le).
  - apply StronglySorted_merge_sort; apply _.
  - unfold sort_strings at 2.
    rewrite (merge_sort_Permutation _ (remove_dups roles)). apply NoDup_Permutation.
    + apply NoDup_fmap; [apply _|]. apply NoDup_add_roles.
    + apply NoDup_remove_dups.
    + intros x. rewrite elem_of_remove_dups, list_elem_of_fmap. setoid_rewrite elem_of_add_roles.
      setoid_rewrite list_elem_of_fmap. unfold sort_strings. setoid_rewrite merge_sort_Permutation. split.
      * intros (y & -> & z & -> & Hz). by rewrite string_of_bytes_of.
      * intros Hx. exists (bytes_of x). rewrite string_of_bytes_of. eauto.
Qed.

(** The targets of a group read back as the canonical roles of its key. *)
Definition target_of_roles (roles : list string) : Acconfig.parsedTarget :=
  match roles with
  | [] | [EmptyString] => Acconfig.targetAny
  | _ => Acconfig.targetRoles (Acconfig.add_roles [] (bytes_of <$> sort_strings roles))
  end.

Lemma target_of_some roles :
  roles ≠ [] → roles ≠ [EmptyString] →
  target_of_roles roles = Acconfig.targetRoles (Acconfig.add_roles [] (bytes_of <$> sort_strings roles)).
Proof. destruct roles as [|[|c r] [|s l]]; done. Qed.

Lemma role_not_empty r : wf_role r → r ≠ EmptyString.
Proof. intros [[_ H] _] ->. done. Qed.

Lemma parse_rolesTarget roles : wf_roles roles →
  Acconfig.parseTarget (PolicyAdmin.rolesTarget (PolicyAdmin.rolesKey roles)) = target_of_roles roles.
Proof.
  intros [H| ->]; [|reflexivity]. unfold PolicyAdmin.rolesKey. destruct (decide (roles = [])) as [->|Hne]; [done|].
  rewrite target_of_some; [|done|intros ->; apply Forall_inv in H; by apply role_not_empty in H]. destruct roles as [|r roles]; [done|].
  assert (sort_strings (r :: roles) ≡ₚ r :: roles) as Hp by apply merge_sort_Permutation.
  rewrite rolesTarget_parts; [done| |].
  - intros E. apply fmap_nil_inv in E. rewrite E in Hp. by apply Permutation_nil_cons in Hp.
  - apply Forall_fmap. rewrite Hp. exact H.
Qed.

(** ** Grouping loses nothing *)

Notation psKey := (string * string)%type (only parsing).
Notation by_roles := (gmap string (list PolicyAdmin.ruleVal)) (only parsing).

(** A rule with the keys of its groups. *)
Definition entry : Type := psKey * string * PolicyAdmin.ruleVal.

Definition entry_of (p : PolicyAdmin.simplifiedPolicy) : entry :=
  ((PolicyAdmin.Component p, PolicyAdmin.ResourceType p), PolicyAdmin.rolesKey (PolicyAdmin.Roles p),
   PolicyAdmin.rule_of p).

(** The rules of one policy set, in the order of the export. *)
Definition set_entries (pk : psKey) (m : by_roles) : list entry :=
  sort_strings (fst <$> map_to_list m) ≫= λ rk, (pair (pk, rk)) <$> default [] (m !! rk).

Definition entries (g : PolicyAdmin.groups) : list entry :=
  PolicyAdmin.psOrder g ≫= λ pk, set_entries pk (default ∅ (PolicyAdmin.psMap g !! pk)).

Lemma bind_ext {A B} (f g : A → list B) l : (∀ x, x ∈ l → f x = g x) → l ≫= f = l ≫= g.
Proof.
  induction l as [|x l IH]; intros H; [done|]. csimpl. rewrite H by set_solver. f_equal.
  apply IH. set_solver.
Qed.

Lemma set_entries_map pk (m : by_roles) :
  set_entries pk m ≡ₚ map_to_list m ≫= λ kv, pair (pk, kv.1) <$> kv.2.
Proof.
  unfold set_entries, sort_strings. rewrite merge_sort_Permutation, list_fmap_bind.
  apply reflexive_eq, bind_ext. intros [k v] H. apply elem_of_map_to_list in H. simpl. by rewrite H.
Qed.

Lemma set_entries_insert pk (m : by_roles) rk r :
  set_entries pk (<[rk := default [] (m !! rk) ++ [r]]> m) ≡ₚ (pk, rk, r) :: set_entries pk m.
Proof.
  rewrite !set_entries_map. rewrite <-insert_delete_eq, map_to_list_insert by apply lookup_delete_eq. csimpl.
  destruct (m !! rk) as [rs|] eqn:E.
  - rewrite <-(map_to_list_delete m rk rs E). csimpl. rewrite fmap_app, <-(assoc_L (++)).
    symmetry. apply Permutation_middle.
  - by rewrite delete_id.
Qed.

Definition groups_ok (g : PolicyAdmin.groups) : Prop :=
  NoDup (PolicyAdmin.psOrder g) ∧ ∀ pk, pk ∈ PolicyAdmin.psOrder g ↔ is_Some (PolicyAdmin.psMap g !! pk).

Lemma entries_update g pk m rk r :
  groups_ok g → PolicyAdmin.psMap g !! pk = Some m →
  entries (PolicyAdmin.Groups (PolicyAdmin.psOrder g)
    (<[pk := <[rk := default [] (m !! rk) ++ [r]]> m]> (PolicyAdmin.psMap g))) ≡ₚ (pk, rk, r) :: entries g.
Proof.
  intros [Hn Hd] Hm. unfold entries. cbn [PolicyAdmin.psOrder PolicyAdmin.psMap].
  assert (pk ∈ PolicyAdmin.psOrder g) as Hin by (apply Hd; eauto).
  apply list_elem_of_split in Hin as (l1 & l2 & E). rewrite E in *.
  apply NoDup_app in Hn as (_ & Hx & Hn). apply NoDup_cons in Hn as [Hl2 _].
  assert (pk ∉ l1) as Hl1 by (intros H; apply (Hx pk H); set_solver).
  rewrite !bind_app, !bind_cons, lookup_insert_eq, Hm. cbn [from_option id].
  rewrite set_entries_insert.
  assert (∀ l f, pk ∉ l → l ≫= (λ k : psKey, set_entries k (default ∅ (<[pk := f]> (PolicyAdmin.psMap g) !! k)))
    = l ≫= λ k, set_entries k (default ∅ (PolicyAdmin.psMap g !! k))) as He.
  { intros l f Hl. apply bind_ext. intros k Hk. rewrite lookup_insert_ne; [done|]. by intros ->. }
  rewrite !He by done. cbn [app]. symmetry; apply Permutation_middle.
Qed.

Lemma add_item_ok g p : groups_ok g →
  groups_ok (PolicyAdmin.add_item g p) ∧ entries (PolicyAdmin.add_item g p) ≡ₚ entry_of p :: entries g.
Proof.
  intros Hg. unfold PolicyAdmin.add_item, entry_of. cbn zeta.
  set (pk := (PolicyAdmin.Component p, PolicyAdmin.ResourceType p)).
  set (g' := match PolicyAdmin.psMap g !! pk with Some _ => g | None => _ end).
  assert (groups_ok g' ∧ is_Some (PolicyAdmin.psMap g' !! pk) ∧ entries g' ≡ₚ entries g) as (Hg' & [m Hm] & He).
  { unfold g'. destruct (PolicyAdmin.psMap g !! pk) as [m|] eqn:E; [split_and!; eauto|].
    destruct Hg as [Hn Hd]. assert (pk ∉ PolicyAdmin.psOrder g) as Hpk by (rewrite Hd, E; apply is_Some_None).
    cbn [PolicyAdmin.psMap PolicyAdmin.psOrder]. split_and!.
    - split; cbn [PolicyAdmin.psMap PolicyAdmin.psOrder].
      + apply NoDup_app. split_and!; [done|set_solver|apply NoDup_singleton].
      + intros k. rewrite elem_of_app, list_elem_of_singleton, Hd.
        destruct (decide (k = pk)) as [->|Hk]; [rewrite lookup_insert_eq|rewrite lookup_insert_ne by done];
          naive_solver eauto.
    - rewrite lookup_insert_eq. eauto.
    - unfold entries. cbn [PolicyAdmin.psMap PolicyAdmin.psOrder].
      rewrite bind_app, bind_singleton, lookup_insert_eq. cbn [from_option id].
      assert (set_entries pk ∅ = []) as -> by (unfold set_entries; by rewrite map_to_list_empty).
      rewrite app_nil_r. apply reflexive_eq, bind_ext. intros k Hk.
      rewrite lookup_insert_ne; [done|]. by intros ->. }
  rewrite Hm. cbn [from_option id]. split.
  - destruct Hg' as [Hn Hd]. split; cbn [PolicyAdmin.psMap PolicyAdmin.psOrder]; [done|].
    intros k. rewrite Hd. destruct (decide (k = pk)) as [->|Hk];
      [rewrite lookup_insert_eq, Hm|rewrite lookup_insert_ne by done]; naive_solver eauto.
  - by rewrite entries_update, He.
Qed.

Lemma collect_entries items : entries (PolicyAdmin.collect items) ≡ₚ entry_of <$> items.
Proof.
  unfold PolicyAdmin.collect.
  assert (∀ g, groups_ok g → entries (fold_left PolicyAdmin.add_item items g) ≡ₚ (entry_of <$> items) ++ entries g) as H.
  { induction items as [|p items IH]; intros g Hg; [done|]. simpl.
    destruct (add_item_ok g p Hg) as [Hg' He]. rewrite IH by done. rewrite He.
    by rewrite <-Permutation_middle. }
  rewrite H; [by rewrite app_nil_r|]. split; [constructor|]. intros pk. split.
  - intros Hp. by apply elem_of_nil in Hp.
  - cbn [PolicyAdmin.psMap]. rewrite lookup_empty. by intros [? ?].
Qed.

(** ** The conversion, without its counts *)

Definition pure_rule (c : string) (rt : bytes) (pt : Acconfig.parsedTarget) (r : Acconfig.RuleV3) :
    list Acconfig.SimplifiedPolicy :=
  (Acconfig.convertRule c rt pt r Acconfig.no_stats).1.

Definition resource_type (t : Acconfig.parsedTarget) : option bytes :=
  match t with
  | Acconfig.targetResourceType v => Some v
  | Acconfig.targetAny => Some (bytes_of "ALL")
  | _ => None
  end.

Definition pure_set (ps : Acconfig.PolicySetV3) : list Acconfig.SimplifiedPolicy :=
  match resource_type (Acconfig.parseTarget (Acconfig.SetTarget ps)) with
  | None => []
  | Some rt =>
      let c := Acconfig.coalesce (Acconfig.coalesce (Acconfig.Domain ps) (Acconfig.TenantID ps)) "default" in
      Acconfig.Policies ps ≫= λ p,
        Acconfig.Rules p ≫= pure_rule c rt (Acconfig.parseTarget (Acconfig.PolicyTarget p))
  end.

Lemma collect_pure {A B St} (f : A → St → list B * St) (g : A → list B) l st :
  (∀ x st, (f x st).1 = g x) → (Acconfig.collect f l st).1 = l ≫= g.
Proof.
  intros H. revert st. induction l as [|x l IH]; intros st; [done|]. csimpl. specialize (H x st).
  destruct (f x st) as [bs st1]. specialize (IH st1). destruct (Acconfig.collect f l st1). simpl in *. by subst.
Qed.

Lemma convert_pure sets :
  (∀ s, s ∈ sets → Acconfig.SetType s = "SIMPLIFIED"%string) →
  (Acconfig.ConvertPolicySets sets).1 = sets ≫= pure_set.
Proof.
  intros Hs. unfold Acconfig.ConvertPolicySets.
  destruct (Acconfig.convertPolicySets sets Acconfig.no_stats) as [ps st] eqn:E. simpl.
  assert (ps = (Acconfig.convertPolicySets sets Acconfig.no_stats).1) as -> by by rewrite E.
  unfold Acconfig.convertPolicySets.
  rewrite (collect_pure _ (λ s, if negb (eqb (Acconfig.SetType s) "SIMPLIFIED"%string) then [] else pure_set s)).
  - apply bind_ext. intros s Hin. rewrite (Hs s Hin). done.
  - intros s st1. destruct (negb _); [done|]. unfold Acconfig.convertPolicySet, pure_set, resource_type.
    destruct (match Acconfig.parseTarget (Acconfig.SetTarget s) with
              | Acconfig.targetResourceType v => Some v | Acconfig.targetAny => Some (bytes_of "ALL") | _ => None end);
      [|done].
    apply collect_pure. intros p st2. apply collect_pure. intros r st3.
    unfold pure_rule, Acconfig.convertRule. destruct (eqb _ _); [done|].
    by destruct (Acconfig.resolveOperationAndRoles _ _) as [[??]|].
Qed.

(** What one rule of the export converts to. *)
Definition pure_entry (e : entry) : list Acconfig.SimplifiedPolicy :=
  let '(pk, rk, r) := e in
  match resource_type (Acconfig.parseTarget (wire_text (PolicyAdmin.resourceTypeTarget pk.2))) with
  | None => []
  | Some rt =>
      pure_rule (Acconfig.coalesce (Acconfig.coalesce (wire_text pk.1) (wire_text pk.1)) "default") rt
        (Acconfig.parseTarget (wire_text (PolicyAdmin.rolesTarget rk))) (wire_rule (PolicyAdmin.to_rule 0 0 r))
  end.

Lemma imap_bind {A B C} (f : nat → A → B) (g : B → list C) (h : A → list C) l :
  (∀ i x, g (f i x) = h x) → imap f l ≫= g = l ≫= h.
Proof.
  intros H. revert f H. induction l as [|x l IH]; intros f H; [done|]. csimpl. rewrite H. f_equal.
  apply IH. intros. apply H.
Qed.

Lemma list_bind_assoc {A B C} (f : A → list B) (g : B → list C) l : (l ≫= f) ≫= g = l ≫= λ x, f x ≫= g.
Proof. induction l as [|x l IH]; [done|]. csimpl. by rewrite bind_app, IH. Qed.

Lemma bind_nil {A B} (l : list A) : l ≫= (λ _, []) = ([] : list B).
Proof. by induction l. Qed.

Lemma export_entries items :
  (Acconfig.ConvertPolicySets (wire_set <$> PolicyAdmin.toV3PolicySets items)).1
  = entries (PolicyAdmin.collect items) ≫= pure_entry.
Proof.
  rewrite convert_pure.
  2: { intros s Hs. apply list_elem_of_fmap in Hs as (s' & -> & Hs).
       by apply list_elem_of_fmap in Hs as (pk & -> & _). }
  unfold PolicyAdmin.toV3PolicySets, entries. generalize (PolicyAdmin.collect items). intros g.
  rewrite <-list_fmap_compose, list_fmap_bind, list_bind_assoc. apply bind_ext. intros pk _.
  unfold pure_set, PolicyAdmin.to_set, wire_set. cbn [compose Acconfig.SetTarget Acconfig.Domain Acconfig.TenantID Acconfig.Policies
    PolicyAdmin.v3_SetTarget PolicyAdmin.v3_Domain PolicyAdmin.v3_TenantID PolicyAdmin.v3_Policies].
  set (m := default ∅ (PolicyAdmin.psMap g !! pk)). unfold set_entries, pure_entry.
  rewrite list_bind_assoc. destruct (resource_type _) as [rt|] eqn:Ert.
  - rewrite list_fmap_bind.
    apply imap_bind. intros i rk. unfold PolicyAdmin.to_policy, wire_policy.
    cbn [compose Acconfig.Rules Acconfig.PolicyTarget PolicyAdmin.v3_Rules PolicyAdmin.v3_PolicyTarget].
    rewrite !list_fmap_bind. apply imap_bind. intros j r. cbn [compose]. by rewrite Ert.
  - symmetry. transitivity (sort_strings (fst <$> map_to_list m) ≫= λ _, ([] : list Acconfig.SimplifiedPolicy));
      [|apply bind_nil].
    apply bind_ext. intros rk _. rewrite list_fmap_bind. 
    transitivity (default [] (m !! rk) ≫= λ _, ([] : list Acconfig.SimplifiedPolicy)); [|apply bind_nil].
    apply bind_ext. intros r _. cbn [compose]. by rewrite Ert.
Qed.

(** ** The texts of the export are valid *)

Lemma valid_app s t : valid_text_of s → valid_text_of t → valid_text_of (s +:+ t).
Proof.
  unfold valid_text_of, wire_text. intros Hs Ht. apply (f_equal bytes_of) in Hs, Ht. rewrite bytes_of_string_of in Hs, Ht.
  rewrite bytes_of_app, valid_text_app, Ht by done. by rewrite string_of_app, !string_of_bytes_of.
Qed.

Lemma valid_target s (p : string) : valid_text_of s → valid_text_of p → valid_text_of (p +:+ s +:+ "'").
Proof. intros Hs Hp. repeat apply valid_app; done. Qed.

Lemma valid_join (p : string) parts :
  valid_text_of p → Forall (λ r, valid_text_of (string_of r)) parts → valid_text_of (p +:+ string_of (Join "," (PolicyAdmin.quoted <$> parts))).
Proof.
  intros Hp H. apply valid_app; [done|]. clear p Hp. induction H as [|r parts Hr H IH]; [done|].
  assert (Hq : valid_text_of (string_of (PolicyAdmin.quoted r))).
  { change (PolicyAdmin.quoted r) with (["'"%char] ++ r ++ ["'"%char]). rewrite !string_of_app. apply valid_app; [done|]. by apply valid_app. }
  destruct parts as [|r' parts]; [exact Hq|].
  change (Join "," (PolicyAdmin.quoted <$> r :: r' :: parts)) with (PolicyAdmin.quoted r ++ [","%char] ++ Join "," (PolicyAdmin.quoted <$> r' :: parts)).
  rewrite !string_of_app. apply valid_app; [done|]. by apply valid_app.
Qed.

Lemma valid_rolesTarget roles :
  wf_roles roles → Forall valid_text_of roles → valid_text_of (PolicyAdmin.rolesTarget (PolicyAdmin.rolesKey roles)).
Proof.
  intros [H| ->] Hv; [|done]. unfold PolicyAdmin.rolesKey, PolicyAdmin.rolesTarget. case_match; [done|].
  destruct (decide (roles = [])) as [->|Hne]; [done|]. set (parts := bytes_of <$> sort_strings roles).
  assert (Hp : sort_strings roles ≡ₚ roles) by apply merge_sort_Permutation.
  assert (Hparts : parts ≠ []).
  { intros E. apply fmap_nil_inv in E. rewrite E in Hp. by apply Permutation_nil_l in Hp. }
  rewrite bytes_of_string_of, Split_Join; [|done|].
  2: { apply Forall_fmap. rewrite Hp. eapply Forall_impl; [exact H|]. by intros r [_ Hr]. }
  assert (Hval : Forall (λ r, valid_text_of (string_of r)) parts).
  { apply Forall_fmap. rewrite Hp. eapply Forall_impl; [exact Hv|]. intros r Hr. cbn. by rewrite string_of_bytes_of. }
  destruct parts as [|r [|r' l]]; [done|rewrite string_of_app, string_of_bytes_of; apply (valid_join "subject.roles CONTAINS " [r]); [vm_compute; reflexivity|exact Hval]|].
  rewrite string_of_app, string_of_bytes_of. apply (valid_join "subject.roles CONTAINS ANY " (r :: r' :: l)); [vm_compute; reflexivity|exact Hval].
Qed.

Lemma valid_name_target (p s : string) (b : bool) : valid_text_of p → valid_text_of s → valid_text_of (if b then "true" else p +:+ s +:+ "'")%string.
Proof. intros Hp Hs. destruct b; [done|]. by apply valid_target. Qed.

(** The one policy an uploaded item converts to. *)
Lemma entry_canonical p : wf_item p → pure_entry (entry_of p) = [canonical p].
Proof.
  intros (Hrt & Hop & Hr & Hv). unfold texts in Hv. apply Forall_app in Hv as [Hv Hvr]. rewrite !Forall_cons in Hv.
  destruct Hv as (Hv1 & Hv2 & Hv3 & Hv4 & Hv5 & Hv6 & Hv7 & Hv8 & _).
  unfold pure_entry, entry_of. cbn [fst snd].
  assert (V1 : valid_text_of (PolicyAdmin.resourceTypeTarget (PolicyAdmin.ResourceType p))) by (apply (valid_name_target "resourceType == '"); [vm_compute; reflexivity|exact Hv2]).
  assert (V2 : valid_text_of (PolicyAdmin.operationTarget (PolicyAdmin.Operation p))) by (apply (valid_name_target "operation == '"); [vm_compute; reflexivity|exact Hv3]).
  assert (V3 : valid_text_of (PolicyAdmin.rolesTarget (PolicyAdmin.rolesKey (PolicyAdmin.Roles p)))) by by apply valid_rolesTarget.
  unfold valid_text_of in *. rewrite V1, V3.
  rewrite (parse_resourceTypeTarget _ Hrt), (parse_rolesTarget _ Hr).
  assert (resource_type (if PolicyAdmin.is_all (PolicyAdmin.ResourceType p) then Acconfig.targetAny
    else Acconfig.targetResourceType (bytes_of (PolicyAdmin.ResourceType p))) =
    Some (bytes_of (canonical_name (PolicyAdmin.ResourceType p)))) as ->.
  { unfold canonical_name. by destruct (PolicyAdmin.is_all _). }
  assert (∃ roles, Acconfig.resolveOperationAndRoles (target_of_roles (PolicyAdmin.Roles p))
    (Acconfig.parseTarget (PolicyAdmin.operationTarget (PolicyAdmin.Operation p))) =
    Some (bytes_of (canonical_name (PolicyAdmin.Operation p)), roles) ∧ string_of <$> roles = canonical_roles (PolicyAdmin.Roles p)) as (roles & E & Er).
  { rewrite (parse_operationTarget _ Hop). unfold canonical_name.
    destruct (decide (PolicyAdmin.Roles p = [])) as [Hn|Hn]; [rewrite Hn; exists []; by destruct (PolicyAdmin.is_all _)|].
    destruct (decide (PolicyAdmin.Roles p = [EmptyString])) as [He|He]; [rewrite He; exists []; by destruct (PolicyAdmin.is_all _)|].
    rewrite target_of_some by done. eexists. split; [by destruct (PolicyAdmin.is_all _)|]. by apply distinct_roles. }
  unfold pure_rule, Acconfig.convertRule, wire_rule, PolicyAdmin.to_rule, canonical.
  cbn [Acconfig.RuleTarget Acconfig.Effect Acconfig.RuleCondition Acconfig.RSQLPredicate Acconfig.SQLPredicate
    Acconfig.MongoDBPredicate Acconfig.Predicate PolicyAdmin.v3_RuleTarget PolicyAdmin.v3_Effect
    PolicyAdmin.v3_Condition PolicyAdmin.v3_RSQLPredicate PolicyAdmin.v3_SQLPredicate
    PolicyAdmin.v3_MongoDBPredicate PolicyAdmin.v3_Predicate PolicyAdmin.rule_of PolicyAdmin.operation
    PolicyAdmin.condition PolicyAdmin.rsqlPredicate PolicyAdmin.sqlPredicate PolicyAdmin.mongodbPredicate
    PolicyAdmin.predicate].
  rewrite V2, E. change (eqb (wire_text "ALLOW") "DENY"%string) with false. cbn [fst].
  repeat match goal with H : wire_text _ = _ |- _ => rewrite H; clear H end.
  rewrite !string_of_bytes_of, Er. do 2 f_equal.
  - unfold Acconfig.coalesce. by destruct (eqb (PolicyAdmin.Component p) EmptyString) eqn:Ec; rewrite ?Ec.
  - destruct (eqb (PolicyAdmin.conditionString (PolicyAdmin.Condition p)) EmptyString) eqn:Ec.
    + apply (proj1 (eqb_true _ _)) in Ec. by rewrite Ec.
    + cbn [fmap option_fmap option_map]. by repeat match goal with H : wire_text _ = _ |- _ => rewrite H; clear H end.
Qed.

(** C36: What is uploaded to the stub is what the agent enforces, as long as every text is valid
    UTF-8, resource types and operations are not empty and hold no quote, and roles are not
    blank and hold neither quotes nor commas: the policies converted from the stub's export are
    those uploaded, each once and in its normal form, with its roles sorted and each once. A
    role list of one empty role is the exception: the export cannot tell it from no roles, and
    its policy comes back open to every subject. *)
Theorem export_roundtrip items :
  Forall wf_item items →
  (Acconfig.ConvertPolicySets (wire_set <$> PolicyAdmin.toV3PolicySets items)).1 ≡ₚ canonical <$> items.
Proof.
  intros H. rewrite export_entries, collect_entries, list_fmap_bind.
  rewrite (bind_ext _ (λ p, [canonical p])).
  - clear H. induction items as [|p items IH]; [done|]. csimpl. by rewrite IH.
  - intros p Hp. rewrite Forall_forall in H. by apply entry_canonical, H.
Qed.

Definition example_items : list PolicyAdmin.simplifiedPolicy :=
  let item op roles := PolicyAdmin.MkSimplifiedPolicy "BSS" "Order" op (PolicyAdmin.CBool true)
    EmptyString EmptyString EmptyString EmptyString roles in
  [item "read" ["B"; "A"; "B"]; item "*" []; item "write" ["A OR B"]; item "list" [EmptyString]]%string.

Lemma export_roundtrip_witness :
  Forall wf_item example_items
  ∧ (Acconfig.ConvertPolicySets (wire_set <$> PolicyAdmin.toV3PolicySets example_items)).1
    ≡ₚ canonical <$> example_items.
Proof.
  assert (Forall wf_item example_items) as H.
  { repeat constructor; try done; try (by vm_compute); apply (bool_decide_unpack _); by vm_compute. }
  split; [exact H|]. apply export_roundtrip. exact H.
Defined.

(** A role list the stub cannot tell from none, the list of one empty role, loses the
    restriction: the exported policy comes back open to every subject. *)
Theorem empty_role_lost :
  let item := PolicyAdmin.MkSimplifiedPolicy "BSS" "Order" "read" PolicyAdmin.CNil
    EmptyString EmptyString EmptyString EmptyString [EmptyString] in
  map Acconfig.Roles (Acconfig.ConvertPolicySets (wire_set <$> PolicyAdmin.toV3PolicySets [item])).1 = [[]].
Proof. vm_compute. reflexivity. Qed.

End PolicyExport.
