(* ===== verification/PipExport.v ===== *)
(** * The information points of the administration stub, and as the agent converts them

    What [components/authz-policy-admin/convert.go] exports of the points uploaded to it, the
    JSON of that export, and what [internal/acconfig/convert.go] reads back. *)
From S2P Require Import Prelude GoText Json Encoding JsonText Digits JsonFields AnyValue Pips Acconfig AcconfigPips.
Import GoText Encoding JsonText.

Module PipExport.

(** ** The two shapes *)

(** [simplifiedPIP]; a raw message is its text, empty when absent, and [Body] and [Response] of
    the extension are raw as well. *)
Record simplifiedPIP := MkSimplifiedPIP {
  Name : string;
  PipType : string;
  URL : string;
  HTTPMethod : string;
  Header : string;
  Claim : string;
  BeanName : string;
  DefaultValue : bytes;
  Domain : string;
  RequestAttributes : gmap string string;
  Headers : bytes;
  Type_ : string;
  JsonPath : string;
  Query : gmap string string;
  Body : bytes;
  TimeoutSeconds : option Z;
  Response : bytes;
}.

Record v3PIP := MkV3PIP {
  v3_Name : string;
  v3_PipType : string;
  v3_URL : string;
  v3_HTTPMethod : string;
  v3_Header : string;
  v3_Claim : string;
  v3_BeanName : string;
  v3_DefaultValue : bytes;
  v3_Domain : string;
  v3_TenantID : string;
  v3_Type : string;
  v3_JsonPath : string;
  v3_RequestAttributes : gmap string string;
  v3_Headers : bytes;
  v3_Query : gmap string string;
  v3_Body : bytes;
  v3_TimeoutSeconds : option Z;
  v3_Response : bytes;
}.

(** One round of the loop of [toV3PIPs]. *)
Definition to_v3 (p : simplifiedPIP) : v3PIP :=
  let domain := if is_empty (Domain p) then "default"%string else Domain p in
  MkV3PIP (Name p) (PipType p) (URL p) (HTTPMethod p) (Header p) (Claim p) (BeanName p) (DefaultValue p) domain domain
    (Type_ p) (JsonPath p) (RequestAttributes p) (Headers p) (Query p) (Body p) (TimeoutSeconds p) (Response p).

Definition toV3PIPs (items : list simplifiedPIP) : list v3PIP := to_v3 <$> items.

(** ** The wire *)

(** What [json.Marshal] makes of a compact raw message: the characters of HTML and the two line
    separators are escaped. *)
Definition html_escaped (c : ascii) : option bytes :=
  if eqb c "<"%char then Some (bytes_of "\u003c")
  else if eqb c ">"%char then Some (bytes_of "\u003e")
  else if eqb c "&"%char then Some (bytes_of "\u0026")
  else None.

(** The text after the bytes of a line or a paragraph separator, and its escape. *)
Definition separator (s : bytes) : option bytes :=
  match s with
  | a :: b :: c :: _ =>
      if negb (eqb a "226"%char && eqb b "128"%char) then None
      else if eqb c "168"%char then Some (bytes_of "\u2028")
      else if eqb c "169"%char then Some (bytes_of "\u2029")
      else None
  | _ => None
  end.

Fixpoint escape_html (s : bytes) : bytes :=
  match s with
  | [] => []
  | c :: s' =>
      match html_escaped c, separator s with
      | Some e, _ => e ++ escape_html s'
      | None, Some e => e ++ match s' with _ :: _ :: r => escape_html r | _ => [] end
      | None, None => c :: escape_html s'
      end
  end.

(** A raw message written and read back; an empty one is left out. In the response it stands
    inside the body, the list of the points and its point, which the limit of the scanner
    counts: a message nested deeper fails the conversion of the whole response. *)
Definition wire_raw (raw : bytes) : option bytes :=
  if is_nil raw then Some [] else if Json.fits 3 raw then escape_html <$> Json.Compact raw else None.

(** A map written and read back: its keys are written in their order, and the last of equal
    ones is read. *)
Definition wire_map {A B} (f : A → B) (m : gmap string A) : gmap string B :=
  list_to_map (reverse ((λ kv, (wire_text kv.1, f kv.2)) <$> AnyValue.sort_members (map_to_list m))).

(** The point as the agent reads it; an attribute arrives as the JSON text of its value. *)
Definition wire_pip (p : v3PIP) : option AcconfigPips.PIPV3 :=
  d ← wire_raw (v3_DefaultValue p);
  h ← wire_raw (v3_Headers p);
  b ← wire_raw (v3_Body p);
  r ← wire_raw (v3_Response p);
  Some (AcconfigPips.MkPIPV3 (wire_text (v3_Name p)) (wire_text (v3_PipType p)) (wire_text (v3_URL p)) (wire_text (v3_HTTPMethod p))
    (wire_text (v3_Header p)) (wire_text (v3_Claim p)) (wire_text (v3_BeanName p)) d (wire_text (v3_Domain p)) (wire_text (v3_TenantID p))
    (wire_text (v3_Type p)) (wire_text (v3_JsonPath p)) (wire_map marshal_string (v3_RequestAttributes p)) h
    (wire_map wire_text (v3_Query p)) b (v3_TimeoutSeconds p) r).

(** ** What the agent obtains *)

(** A raw message is empty or JSON, and every text is valid, as in an upload that has been
    decoded. *)
Definition is_json (raw : bytes) : Prop := raw = [] ∨ is_Some (Json.Compact raw).
Definition valid (s : string) : Prop := wire_text s = s.

Definition texts (p : simplifiedPIP) : list string :=
  [Name p; PipType p; URL p; HTTPMethod p; Header p; Claim p; BeanName p; Domain p; Type_ p; JsonPath p].

Record wf_pip (p : simplifiedPIP) : Prop := WfPip {
  wf_raws : Forall is_json [DefaultValue p; Headers p; Body p; Response p];
  wf_texts : Forall valid (texts p);
  wf_attributes : map_Forall (λ k v, valid k ∧ valid v) (RequestAttributes p);
  wf_query : map_Forall (λ k v, valid k ∧ valid v) (Query p);
}.

(** The types the agent leaves out, and the points that call a bean. *)
Definition left_out (p : simplifiedPIP) : bool :=
  member (PipType p) [Pips.PipTypeFiltered; Pips.PipTypePermissionScope; Pips.PipTypeMapping; Pips.PipTypeEntitlements]
  || eqb (PipType p) Pips.PipTypeGeneral && negb (is_empty (BeanName p)).

Definition raw_text (raw : bytes) : bytes := if is_nil raw then [] else default [] (escape_html <$> Json.Compact raw).

(** The raw messages of a point are nested no deeper than a response may hold. *)
Definition room (raw : bytes) : bool := is_nil raw || Json.fits 3 raw.
Definition has_room (p : simplifiedPIP) : bool := forallb room [DefaultValue p; Headers p; Body p; Response p].

(** A point as it was uploaded, in the form of the agent. *)
Definition obtained (p : simplifiedPIP) : Pips.SimplifiedPIP :=
  Pips.MkPIP (Name p) (PipType p) (URL p) (HTTPMethod p) (Header p) (Claim p) (BeanName p)
    (if is_nil (DefaultValue p) then None else Some (raw_text (DefaultValue p))) EmptyString
    (if is_empty (Domain p) then "default" else Domain p)
    (RequestAttributes p) (AcconfigPips.normaliseHeaders (raw_text (Headers p))) (Type_ p) (JsonPath p) (Query p) (raw_text (Body p))
    (TimeoutSeconds p) (if is_nil (TrimSpace (raw_text (Response p))) then None else AcconfigPips.decode_response (raw_text (Response p))).

Section exported.
Context {floats : AcconfigPips.FloatText}.

Lemma parse_marshal s : Json.parse (marshal_string s) = Some (Json.JStr (marshal_body (bytes_of s))).
Proof.
  unfold Json.parse. change (Json.skip (marshal_string s)) with (marshal_string s).
  assert (H : ∀ f d, Json.value (S f) d (marshal_string s) = Some (Json.JStr (marshal_body (bytes_of s)), [])).
  { intros f d. rewrite <-(value_marshal f d s []). by rewrite app_nil_r. }
  change (2 + 2 * length (marshal_string s)) with (S (S (2 * length (marshal_string s)))). by rewrite H.
Qed.

(** An attribute arrives as it was. *)
Lemma stringify_marshal s : valid s → AcconfigPips.stringify (marshal_string s) = Some s.
Proof.
  intros Hs. unfold AcconfigPips.stringify.
  assert (E : TrimSpace (marshal_string s) = marshal_string s).
  { unfold marshal_string. apply TrimSpace_solid; [done|]. intros d. rewrite app_comm_cons, last_snoc. by intros [= <-]. }
  rewrite E, parse_marshal. unfold marshal_string. rewrite Unquote_marshal. exact (f_equal Some Hs).
Qed.

Lemma wire_map_valid {A B} (f : A → B) (m : gmap string A) : map_Forall (λ k _, valid k) m → wire_map f m = f <$> m.
Proof.
  intros Hm. unfold wire_map. set (l := AnyValue.sort_members (map_to_list m)).
  assert (Hl : l ≡ₚ map_to_list m) by apply AnyValue.sort_members_perm.
  assert (E : (λ kv, (wire_text kv.1, f kv.2)) <$> l = prod_map id f <$> l).
  { apply list_fmap_ext. intros i [k v] Hi. cbn. f_equal. apply (Hm k v), elem_of_map_to_list. rewrite <-Hl. by eapply list_elem_of_lookup_2. }
  rewrite E. rewrite <-(list_to_map_to_list (f <$> m)). apply list_to_map_proper.
  - rewrite fmap_reverse, reverse_Permutation, <-list_fmap_compose. change (NoDup (fst <$> l)). rewrite Hl. apply NoDup_fst_map_to_list.
  - rewrite reverse_Permutation, Hl. by rewrite map_to_list_fmap.
Qed.

Lemma stringify_attributes (m : gmap string string) :
  map_Forall (λ k v, valid k ∧ valid v) m → AcconfigPips.stringifyRequestAttributes (wire_map marshal_string m) = m.
Proof.
  intros Hm. rewrite wire_map_valid by (by intros k v H; apply (Hm k v)). apply map_eq. intros k.
  unfold AcconfigPips.stringifyRequestAttributes. rewrite lookup_omap, lookup_fmap.
  destruct (m !! k) as [v|] eqn:E; [|done]. cbn. by apply stringify_marshal, (Hm k).
Qed.

Lemma wire_map_texts (m : gmap string string) : map_Forall (λ k v, valid k ∧ valid v) m → wire_map wire_text m = m.
Proof.
  intros Hm. rewrite wire_map_valid by (by intros k v H; apply (Hm k v)). apply map_eq. intros k. rewrite lookup_fmap.
  destruct (m !! k) as [v|] eqn:E; [|done]. cbn. f_equal. by apply (Hm k).
Qed.

Lemma escape_nonempty s : s ≠ [] → escape_html s ≠ [].
Proof.
  destruct s as [|c s]; [done|]. intros _. cbn [escape_html]. destruct (html_escaped c) as [e|] eqn:Ee.
  - unfold html_escaped in Ee. repeat case_match; try done; by injection Ee as <-.
  - destruct (separator (c :: s)) as [e|] eqn:Es; [|done]. unfold separator in Es. repeat case_match; try done; by injection Es as <-.
Qed.

Lemma wire_raw_text raw :
  is_json raw → wire_raw raw = (if room raw then Some (raw_text raw) else None) ∧ is_nil (raw_text raw) = is_nil raw.
Proof.
  unfold raw_text, wire_raw, room. intros [->|[c Hc]]; [done|]. destruct raw as [|x raw]; [done|]. cbn [is_nil orb]. rewrite Hc. cbn.
  split; [done|]. apply is_nil_false. apply escape_nonempty. intros ->. apply Json.Compact_idem in Hc. by vm_compute in Hc.
Qed.

(** A point as it arrives. *)
Definition arrived (p : simplifiedPIP) : AcconfigPips.PIPV3 :=
  let domain := if is_empty (Domain p) then "default"%string else Domain p in
  AcconfigPips.MkPIPV3 (Name p) (PipType p) (URL p) (HTTPMethod p) (Header p) (Claim p) (BeanName p) (raw_text (DefaultValue p))
    domain domain (Type_ p) (JsonPath p) (wire_map marshal_string (RequestAttributes p)) (raw_text (Headers p)) (Query p)
    (raw_text (Body p)) (TimeoutSeconds p) (raw_text (Response p)).

Lemma wire_arrived p : wf_pip p → wire_pip (to_v3 p) = if has_room p then Some (arrived p) else None.
Proof.
  intros [Hraws Htexts _ Hq]. unfold texts, valid in Htexts. decompose_Forall_hyps.
  repeat match goal with H : is_json _ |- _ => apply wire_raw_text in H as [H _] end.
  unfold wire_pip, to_v3, has_room. cbn [v3_DefaultValue v3_Headers v3_Body v3_Response forallb].
  repeat match goal with H : wire_raw _ = _ |- _ => rewrite H; clear H end.
  repeat match goal with |- context [room ?r] => destruct (room r); cbn [mbind option_bind andb]; [|done] end.
  unfold arrived. cbn [v3_Name v3_PipType v3_URL v3_HTTPMethod v3_Header v3_Claim v3_BeanName v3_Domain v3_TenantID v3_Type v3_JsonPath
    v3_RequestAttributes v3_Query v3_TimeoutSeconds].
  assert (Hd : wire_text (if is_empty (Domain p) then "default" else Domain p) = (if is_empty (Domain p) then "default" else Domain p)%string)
    by (destruct (is_empty (Domain p)); [reflexivity|done]).
  rewrite wire_map_texts, Hd by done. by repeat match goal with H : wire_text _ = _ |- _ => rewrite H; clear H end.
Qed.

Lemma convert_arrived p : wf_pip p → AcconfigPips.convertPIP (arrived p) = if left_out p then None else Some (obtained p).
Proof.
  intros [Hraws _ Ha _]. apply Forall_cons in Hraws as [Hd _]. apply wire_raw_text in Hd as [_ Hd].
  unfold AcconfigPips.convertPIP, AcconfigPips.unsupported, arrived.
  cbn [AcconfigPips.V_Name AcconfigPips.V_PipType AcconfigPips.V_URL AcconfigPips.V_HTTPMethod AcconfigPips.V_Header AcconfigPips.V_Claim
    AcconfigPips.V_BeanName AcconfigPips.V_DefaultValue AcconfigPips.V_Domain AcconfigPips.V_TenantID AcconfigPips.V_Type AcconfigPips.V_JsonPath
    AcconfigPips.V_RequestAttributes AcconfigPips.V_Headers AcconfigPips.V_Query AcconfigPips.V_Body AcconfigPips.V_TimeoutSeconds AcconfigPips.V_Response].
  fold (left_out p). destruct (left_out p); [done|]. unfold obtained. rewrite Hd, stringify_attributes by done. do 2 f_equal.
  unfold Acconfig.coalesce. destruct (is_empty (Domain p)) eqn:Ee; [done|]. unfold is_empty in Ee. by rewrite Ee.
Qed.

(** The points the agent obtains from the export of the stub are those uploaded to it that it can
    use, in their order, each with the fields it was uploaded with: the values of the attributes
    as they were, the domain with its default, and a raw field as the text of the same value. One
    raw field nested deeper than a response may hold, and nothing is obtained. *)
Theorem pips_exported items :
  Forall wf_pip items →
  if forallb has_room items then
    ∃ ws, mapM wire_pip (toV3PIPs items) = Some ws
      ∧ AcconfigPips.convertPIPs ws = obtained <$> List.filter (λ p, negb (left_out p)) items
  else mapM wire_pip (toV3PIPs items) = None.
Proof.
  intros H. unfold toV3PIPs. destruct (forallb has_room items) eqn:Er.
  - rewrite forallb_forall in Er. exists (arrived <$> items). split.
    + apply mapM_Some, Forall2_fmap_l, Forall2_fmap_r, Forall_Forall2_diag, Forall_forall. intros p Hp. rewrite Forall_forall in H.
      change (wire_pip (to_v3 p) = Some (arrived p)). rewrite wire_arrived by by apply H. by rewrite Er by by apply list_elem_of_In.
    + clear Er. unfold AcconfigPips.convertPIPs. induction H as [|p items Hp _ IH]; [done|]. rewrite fmap_cons. cbn [omap list_omap]. rewrite IH, convert_arrived by done.
      cbn. by destruct (left_out p).
  - induction H as [|p items Hp _ IH]; [done|]. cbn [forallb] in Er. rewrite fmap_cons. cbn [mapM]. rewrite wire_arrived by done.
    destruct (has_room p); [|done]. cbn [andb mbind option_bind] in *. by rewrite IH.
Qed.
End exported.

(** A point that forwards an attribute, and one of a type that is left out. *)
Definition example_pips : list simplifiedPIP :=
  [MkSimplifiedPIP "subject.orders" "GENERAL" "http://orders/<id>" "GET" EmptyString EmptyString EmptyString (bytes_of "[ ]") EmptyString
     {["user" := "a<b"]} [] EmptyString EmptyString ∅ [] (Some 5%Z) [];
   MkSimplifiedPIP "subject.scope" "PERMISSION_SCOPE" EmptyString EmptyString EmptyString EmptyString EmptyString [] "crm"
     ∅ [] EmptyString EmptyString ∅ [] None []]%string.

#[local] Instance no_floats : AcconfigPips.FloatText := {| AcconfigPips.format_float _ _ := [] |}.

Lemma pips_exported_witness :
  ∃ ws, mapM wire_pip (toV3PIPs example_pips) = Some ws
    ∧ AcconfigPips.convertPIPs ws =
        [Pips.MkPIP "subject.orders" "GENERAL" "http://orders/<id>" "GET" EmptyString EmptyString EmptyString (Some (bytes_of "[]")) EmptyString
           "default" {["user" := "a<b"]} [] EmptyString EmptyString ∅ [] (Some 5%Z) None]%string.
Proof.
  assert (H : Forall wf_pip example_pips); [|exact (pips_exported example_pips H)]. repeat apply Forall_cons_2; try apply Forall_nil_2; constructor;
    try (apply map_Forall_empty); try (apply map_Forall_singleton; split; vm_compute; reflexivity);
    repeat apply Forall_cons_2; try apply Forall_nil_2; first [vm_compute; reflexivity|by left|right; eexists; vm_compute; reflexivity].
Defined.

End PipExport.
