(* ===== verification/PolicyStore.v ===== *)
(** * The store of the policy administration stub ([store.go], [handlers.go])

    Uploads kept per domain in memory and mirrored to a directory of files. The store does
    not look into the items: their types, their JSON decoding, and the content hash are the
    interface [Codec]. A file write replaces the file or fails and changes nothing, which is
    what [writeFileAtomic] is for; the outcome of each write is an argument of the step. *)
From S2P Require Import Prelude GoText.
Import GoText.

Module PolicyStore.

(** ** Domains and files *)

Definition is_domain_char (c : ascii) : bool :=
  is_letter c || is_digit c || member c ["."; "_"; "-"]%char.

Definition validDomain (d : string) : bool :=
  let s := bytes_of d in
  all is_domain_char s && (1 <=? length s) && (length s <=? 64)
  && negb (eqb d "."%string) && negb (eqb d ".."%string).

Definition policiesFilePrefix : string := "policies-".
Definition pipsFilePrefix : string := "pips-".
Definition stateFileName : string := "state.json".

Definition file_name (prefix d : string) : string := prefix +:+ d +:+ ".json".

(** The domain of a file [globDomainFiles] finds. *)
Definition domain_of (prefix name : string) : option string :=
  rest ← cutPrefix (bytes_of prefix) (bytes_of name);
  d ← cutPrefix (reverse (bytes_of ".json")) (reverse rest);
  let d := string_of (reverse d) in
  if validDomain d then Some d else None.

(** What the store uses of [encoding/json] and of its hash. A decoded JSON array is an
    [option]: [null] decodes to a nil slice. *)
Class Codec (policy pip : Type) := {
  decode_policies : bytes → option (option (list policy));
  decode_pips : bytes → option (option (list pip));
  hash_policies : list policy → string;
  hash_pips : list pip → string;
  (** The state file, from the revision, the two hashes, and the time. *)
  encode_state : Z → string → string → string → bytes;
  decode_state : bytes → option Z;
}.

(** A state file reads back as the revision it was written with, and decoding into an
    [int] fails on a number that is none. *)
Class StateFile {policy pip} (codec : Codec policy pip) : Prop := {
  state_roundtrip : ∀ rev h h' t, in_int64 rev → decode_state (encode_state rev h h' t) = Some rev;
  state_int : ∀ raw rev, decode_state raw = Some rev → in_int64 rev;
}.

Section store.
Context {policy pip : Type} {codec : Codec policy pip}.

Notation files := (gmap string bytes) (only parsing).

Record store := MkStore {
  dataDir : bool;
  policies : gmap string (list policy);
  pips : gmap string (list pip);
  policiesHash : string;
  pipsHash : string;
  revision : Z;
}.

(** [normalizePolicies] and [normalizePIPs]. *)
Definition normalize {A} (items : option (list A)) : list A := default [] items.

(** The union in sorted domain order. *)
Definition merged {A} (m : gmap string (list A)) : list A :=
  sort_strings (fst <$> map_to_list m) ≫= λ d, default [] (m !! d).

Definition rehashLocked (s : store) : store :=
  MkStore (dataDir s) (policies s) (pips s) (hash_policies (merged (policies s))) (hash_pips (merged (pips s)))
    (revision s).

Definition set_policies (s : store) (m : gmap string (list policy)) : store :=
  MkStore (dataDir s) m (pips s) (policiesHash s) (pipsHash s) (revision s).
Definition set_pips (s : store) (m : gmap string (list pip)) : store :=
  MkStore (dataDir s) (policies s) m (policiesHash s) (pipsHash s) (revision s).
Definition set_revision (s : store) (r : Z) : store :=
  MkStore (dataDir s) (policies s) (pips s) (policiesHash s) (pipsHash s) r.

(** ** Loading *)

(** The loop of [loadFromDisk] over the files of one prefix. *)
Definition load {A} (prefix : string) (decode : bytes → option (option (list A))) (fs : files) :
    gmap string (list A) :=
  fold_left (λ m name,
    match domain_of prefix name, fs !! name ≫= decode with
    | Some d, Some items => <[d := normalize items]> m
    | _, _ => m
    end) (sort_strings (fst <$> map_to_list fs)) ∅.

Definition loadFromDisk (s : store) (fs : files) : store :=
  rehashLocked
    (MkStore (dataDir s) (load policiesFilePrefix decode_policies fs) (load pipsFilePrefix decode_pips fs)
       (policiesHash s) (pipsHash s)
       (match fs !! stateFileName ≫= decode_state with Some r => r | None => revision s end)).

(** [newStore] on a directory that exists and can be written, or on none. *)
Definition newStore (dir : option files) : store :=
  let s := MkStore (if dir then true else false) ∅ ∅ EmptyString EmptyString 0 in
  match dir with
  | None => rehashLocked s
  | Some fs => loadFromDisk s fs
  end.

(** ** Uploads *)

(** Which write failed. *)
Inductive persist_error := PersistDomain | PersistState.

(** The outcomes of the two writes of an upload, and the time of the second. *)
Record io := IO { domain_written : bool; state_written : bool; now : string }.

Definition writeFileAtomic (ok : bool) (name : string) (content : bytes) (fs : files) : files :=
  if ok then <[name := content]> fs else fs.

Definition commitLocked (w : io) (fileName : string) (raw : bytes) (s : store) (fs : files) :
    option persist_error * store * files :=
  let s := rehashLocked s in
  let s := set_revision s (int64 (revision s + 1)) in
  if negb (dataDir s) then (None, s, fs)
  else
    let fs := writeFileAtomic (domain_written w) fileName raw fs in
    if negb (domain_written w) then (Some PersistDomain, set_revision s (int64 (revision s - 1)), fs)
    else
      let state := encode_state (revision s) (policiesHash s) (pipsHash s) (now w) in
      let fs := writeFileAtomic (state_written w) stateFileName state fs in
      if negb (state_written w) then (Some PersistState, set_revision s (int64 (revision s - 1)), fs)
      else (None, s, fs).

(** The roll back of a domain to what it was. *)
Definition put_back {A} (d : string) (previous : option (list A)) (m : gmap string (list A)) : gmap string (list A) :=
  match previous with
  | Some items => <[d := items]> m
  | None => delete d m
  end.

Definition SetDomainPolicies (w : io) (d : string) (items : option (list policy)) (raw : bytes) (s : store) (fs : files) :
    option persist_error * store * files :=
  let previous := policies s !! d in
  let s := set_policies s (<[d := normalize items]> (policies s)) in
  match commitLocked w (file_name policiesFilePrefix d) raw s fs with
  | (None, s, fs) => (None, s, fs)
  | (Some e, s, fs) => (Some e, rehashLocked (set_policies s (put_back d previous (policies s))), fs)
  end.

Definition SetDomainPIPs (w : io) (d : string) (items : option (list pip)) (raw : bytes) (s : store) (fs : files) :
    option persist_error * store * files :=
  let previous := pips s !! d in
  let s := set_pips s (<[d := normalize items]> (pips s)) in
  match commitLocked w (file_name pipsFilePrefix d) raw s fs with
  | (None, s, fs) => (None, s, fs)
  | (Some e, s, fs) => (Some e, rehashLocked (set_pips s (put_back d previous (pips s))), fs)
  end.

(** ** Reads *)

Definition DomainPolicies (s : store) (d : string) : list policy := normalize (policies s !! d).
Definition DomainPIPs (s : store) (d : string) : list pip := normalize (pips s !! d).
Definition Policies (s : store) : list policy * string := (merged (policies s), policiesHash s).
Definition PIPs (s : store) : list pip * string := (merged (pips s), pipsHash s).
Definition Status (s : store) : string * string * Z := (policiesHash s, pipsHash s, revision s).
Definition Domains (s : store) : list string :=
  sort_strings (elements (dom (policies s) ∪ dom (pips s))).

(** ** Handlers *)

Inductive response :=
  | BadRequest
  | InternalError (e : persist_error)
  | Updated (domain : string) (count : nat) (hash : string) (revision : Z)
  | PoliciesPage (items : list policy)
  | PIPsPage (items : list pip)
  | Unauthorized
  | ExportPolicies (hash : string) (items : list policy)
  | ExportPIPs (hash : string) (items : list pip).

(** [maxBodyBytes]: what [readBody] reads of a longer body. *)
Definition maxBodyBytes : nat := Z.to_nat (10 * 2 ^ 20).

Definition handlePutDomainPolicies (w : io) (d : string) (body : bytes) (s : store) (fs : files) :
    response * store * files :=
  if negb (validDomain d) then (BadRequest, s, fs)
  else
    let raw := take maxBodyBytes body in
    match decode_policies raw with
    | None => (BadRequest, s, fs)
    | Some items =>
        match SetDomainPolicies w d items raw s fs with
        | (Some e, s, fs) => (InternalError e, s, fs)
        | (None, s, fs) => (Updated d (length (normalize items)) (policiesHash s) (revision s), s, fs)
        end
    end.

Definition handlePutDomainPIPs (w : io) (d : string) (body : bytes) (s : store) (fs : files) :
    response * store * files :=
  if negb (validDomain d) then (BadRequest, s, fs)
  else
    let raw := take maxBodyBytes body in
    match decode_pips raw with
    | None => (BadRequest, s, fs)
    | Some items =>
        match SetDomainPIPs w d items raw s fs with
        | (Some e, s, fs) => (InternalError e, s, fs)
        | (None, s, fs) => (Updated d (length (normalize items)) (pipsHash s) (revision s), s, fs)
        end
    end.

Definition handleGetDomainPolicies (d : string) (s : store) : response :=
  if validDomain d then PoliciesPage (DomainPolicies s d) else BadRequest.

Definition handleGetDomainPIPs (d : string) (s : store) : response :=
  if validDomain d then PIPsPage (DomainPIPs s d) else BadRequest.

(** The export, before its conversion to v3 policy sets. *)
Definition handleV3PolicySets (authorization : string) (s : store) : response :=
  if eqb authorization EmptyString then Unauthorized
  else let '(items, hash) := Policies s in ExportPolicies hash items.

Definition handleV3PIPs (authorization : string) (s : store) : response :=
  if eqb authorization EmptyString then Unauthorized
  else let '(items, hash) := PIPs s in ExportPIPs hash items.

(** ** Files and domains correspond *)

Lemma domain_of_Some prefix name d :
  domain_of prefix name = Some d ↔ name = file_name prefix d ∧ validDomain d = true.
Proof.
  unfold domain_of, file_name. split.
  - destruct (cutPrefix (bytes_of prefix) (bytes_of name)) as [rest|] eqn:E1; [|done]. cbn [mbind option_bind].
    apply cutPrefix_Some in E1. destruct (cutPrefix _ (reverse rest)) as [k|] eqn:E2; [|done]. cbn [mbind option_bind].
    apply cutPrefix_Some in E2. destruct (validDomain _) eqn:Ev; [|done]. intros [= <-]. split; [|done].
    apply (inj bytes_of). rewrite E1, !bytes_of_app, bytes_of_string_of. f_equal.
    by rewrite <-(reverse_involutive rest), E2, reverse_app, reverse_involutive.
  - intros [-> Hv]. rewrite !bytes_of_app, cutPrefix_app. cbn [mbind option_bind].
    rewrite reverse_app, cutPrefix_app. cbn [mbind option_bind].
    by rewrite reverse_involutive, string_of_bytes_of, Hv.
Qed.

Lemma file_name_inj prefix d d' : file_name prefix d = file_name prefix d' → d = d'.
Proof.
  intros H. apply (f_equal bytes_of) in H. unfold file_name in H. rewrite !bytes_of_app in H.
  apply app_inv_head, app_inv_tail in H. by apply (inj bytes_of).
Qed.

Lemma file_names_distinct d d' : file_name policiesFilePrefix d ≠ file_name pipsFilePrefix d'.
Proof. intros H. apply (f_equal bytes_of) in H. done. Qed.

Lemma file_name_state d : file_name policiesFilePrefix d ≠ stateFileName ∧ file_name pipsFilePrefix d ≠ stateFileName.
Proof. split; intros H; apply (f_equal bytes_of) in H; done. Qed.

Section load.
Context {A : Type} (prefix : string) (decode : bytes → option (option (list A))).

Lemma load_fold (fs : files) (l : list string) (m : gmap string (list A)) d :
  fold_left (λ m name,
    match domain_of prefix name, fs !! name ≫= decode with
    | Some d, Some items => <[d := normalize items]> m
    | _, _ => m
    end) l m !! d =
  if decide (file_name prefix d ∈ l ∧ validDomain d = true) then
    match fs !! file_name prefix d ≫= decode with
    | Some items => Some (normalize items)
    | None => m !! d
    end
  else m !! d.
Proof.
  revert m. induction l as [|name l IH]; intros m; cbn [fold_left].
  { rewrite decide_False; [done|]. intros [H _]. by apply elem_of_nil in H. }
  rewrite IH. clear IH.
  destruct (domain_of prefix name) as [d'|] eqn:Ed.
  - apply domain_of_Some in Ed as [-> Hv]. destruct (decide (d = d')) as [->|Hd].
    + destruct (fs !! file_name prefix d' ≫= decode) as [items|]; repeat case_decide;
        rewrite ?lookup_insert_eq; set_solver.
    + assert (file_name prefix d ≠ file_name prefix d') as Hf by (intros H; by apply file_name_inj in H).
      assert ((match fs !! file_name prefix d' ≫= decode with
               | Some items => <[d' := normalize items]> m
               | None => m
               end) !! d = m !! d) as -> by (destruct (fs !! _ ≫= decode); by rewrite ?lookup_insert_ne by done).
      repeat case_decide; set_solver.
  - assert (¬ (file_name prefix d = name ∧ validDomain d = true)) as Hn.
    { intros [<- Hv]. by rewrite (proj2 (domain_of_Some _ _ _) (conj eq_refl Hv)) in Ed. }
    repeat case_decide; set_solver.
Qed.

(** What a directory holds for a domain. *)
Lemma load_lookup (fs : files) d :
  load prefix decode fs !! d =
  if validDomain d then normalize <$> (fs !! file_name prefix d ≫= decode) else None.
Proof.
  unfold load. rewrite load_fold, lookup_empty.
  assert (file_name prefix d ∈ sort_strings (fst <$> map_to_list fs) ↔ is_Some (fs !! file_name prefix d)) as Hin.
  { unfold sort_strings. rewrite merge_sort_Permutation, list_elem_of_fmap. split.
    - intros ([k v] & -> & H). apply elem_of_map_to_list in H. eauto.
    - intros [v H]. exists (file_name prefix d, v). by rewrite elem_of_map_to_list. }
  destruct (validDomain d) eqn:Hv.
  - case_decide as Hd; [by destruct (fs !! _ ≫= decode)|].
    destruct (fs !! file_name prefix d) as [v|] eqn:E; [|done]. destruct Hd. split; [|done]. apply Hin. eauto.
  - rewrite decide_False by naive_solver. done.
Qed.

Lemma load_write (fs : files) d raw items :
  validDomain d = true → decode raw = Some items →
  load prefix decode (<[file_name prefix d := raw]> fs) = <[d := normalize items]> (load prefix decode fs).
Proof.
  intros Hv Hd. apply map_eq. intros k. rewrite load_lookup. destruct (decide (k = d)) as [->|Hk].
  - rewrite !lookup_insert_eq, Hv. cbn [mbind option_bind]. by rewrite Hd.
  - rewrite !lookup_insert_ne, load_lookup; [done|done|]. intros H. by apply file_name_inj in H.
Qed.

Lemma load_other (fs : files) name raw :
  (∀ d, name ≠ file_name prefix d) → load prefix decode (<[name := raw]> fs) = load prefix decode fs.
Proof.
  intros H. apply map_eq. intros k. rewrite !load_lookup, lookup_insert_ne; [done|]. apply H.
Qed.

End load.

(** ** What every operation keeps *)

(** The hashes are those of the content, and the revision is an [int]. *)
Definition consistent (s : store) : Prop := rehashLocked s = s ∧ in_int64 (revision s).

Lemma int64_back r : in_int64 r → int64 (int64 (r + 1) - 1) = r.
Proof.
  intros H. rewrite <-(int64_id r) at 2 by done. apply eq64_int64. rewrite int64_eq64.
  by replace (r + 1 - 1)%Z with r by lia.
Qed.

Lemma put_back_insert {A} d (v : list A) (m : gmap string (list A)) : put_back d (m !! d) (<[d := v]> m) = m.
Proof.
  unfold put_back. destruct (m !! d) as [x|] eqn:E.
  - rewrite insert_insert_eq. by apply insert_id.
  - by apply delete_insert_id.
Qed.

(** A refused upload changes nothing in memory; an accepted one replaces the domain and
    counts a revision. *)
Lemma SetDomainPolicies_spec w d items raw s fs :
  consistent s →
  let '(e, s', fs') := SetDomainPolicies w d items raw s fs in
  match e with
  | Some PersistDomain => s' = s ∧ fs' = fs ∧ dataDir s = true ∧ domain_written w = false
  | Some PersistState =>
      s' = s ∧ fs' = <[file_name policiesFilePrefix d := raw]> fs ∧ dataDir s = true
      ∧ domain_written w = true ∧ state_written w = false
  | None =>
      s' = rehashLocked (set_revision (set_policies s (<[d := normalize items]> (policies s))) (int64 (revision s + 1)))
      ∧ fs' = (if dataDir s then
                 <[stateFileName := encode_state (revision s') (policiesHash s') (pipsHash s') (now w)]>
                   (<[file_name policiesFilePrefix d := raw]> fs)
               else fs)
      ∧ (dataDir s = true → domain_written w = true ∧ state_written w = true)
  end.
Proof.
  intros [Hh Hr]. unfold SetDomainPolicies, commitLocked.
  destruct s as [[] ps qs ph qh rev]; cbn in *; [|done].
  destruct w as [[] [] t]; cbn; [done| | |]; unfold set_policies, rehashLocked in *; cbn in *;
    rewrite put_back_insert, int64_back by done; split_and!; congruence.
Qed.

Lemma SetDomainPIPs_spec w d items raw s fs :
  consistent s →
  let '(e, s', fs') := SetDomainPIPs w d items raw s fs in
  match e with
  | Some PersistDomain => s' = s ∧ fs' = fs ∧ dataDir s = true ∧ domain_written w = false
  | Some PersistState =>
      s' = s ∧ fs' = <[file_name pipsFilePrefix d := raw]> fs ∧ dataDir s = true
      ∧ domain_written w = true ∧ state_written w = false
  | None =>
      s' = rehashLocked (set_revision (set_pips s (<[d := normalize items]> (pips s))) (int64 (revision s + 1)))
      ∧ fs' = (if dataDir s then
                 <[stateFileName := encode_state (revision s') (policiesHash s') (pipsHash s') (now w)]>
                   (<[file_name pipsFilePrefix d := raw]> fs)
               else fs)
      ∧ (dataDir s = true → domain_written w = true ∧ state_written w = true)
  end.
Proof.
  intros [Hh Hr]. unfold SetDomainPIPs, commitLocked.
  destruct s as [[] ps qs ph qh rev]; cbn in *; [|done].
  destruct w as [[] [] t]; cbn; [done| | |]; unfold set_pips, rehashLocked in *; cbn in *;
    rewrite put_back_insert, int64_back by done; split_and!; congruence.
Qed.

Lemma rehash_consistent s r : consistent (rehashLocked (set_revision s (int64 r))).
Proof. split; [done|]. apply int64_range. Qed.

(** ** Runs of the handlers *)

Inductive request := PutPolicies (w : io) (d : string) (body : bytes) | PutPIPs (w : io) (d : string) (body : bytes).

Definition serve (r : request) (s : store) (fs : files) : response * store * files :=
  match r with
  | PutPolicies w d body => handlePutDomainPolicies w d body s fs
  | PutPIPs w d body => handlePutDomainPIPs w d body s fs
  end.

Fixpoint run (rs : list request) (s : store) (fs : files) : store * files :=
  match rs with
  | [] => (s, fs)
  | r :: rs => let '(_, s, fs) := serve r s fs in run rs s fs
  end.

Definition io_of (r : request) : io := match r with PutPolicies w _ _ | PutPIPs w _ _ => w end.

(** The state file can be written when the domain file could. *)
Definition no_split_failure (r : request) : Prop := domain_written (io_of r) = true → state_written (io_of r) = true.

Context {laws : StateFile codec}.

Lemma newStore_consistent dir : consistent (newStore dir).
Proof.
  split; [by destruct dir|]. unfold newStore. destruct dir as [fs|]; cbn; [|unfold in_int64; lia].
  destruct (fs !! stateFileName ≫= decode_state) as [r|] eqn:E; [|unfold in_int64; lia].
  destruct (fs !! stateFileName) as [raw|]; [|done]. cbn in E. by eapply state_int.
Qed.

Lemma reload_policies s fs d items raw t :
  s = newStore (Some fs) → validDomain d = true → decode_policies raw = Some items →
  let s' := rehashLocked (set_revision (set_policies s (<[d := normalize items]> (policies s))) (int64 (revision s + 1))) in
  s' = newStore (Some (<[stateFileName := encode_state (revision s') (policiesHash s') (pipsHash s') t]>
                         (<[file_name policiesFilePrefix d := raw]> fs))).
Proof.
  intros -> Hv Hd. cbn zeta. unfold newStore, loadFromDisk. rewrite lookup_insert_eq. cbn [mbind option_bind].
  rewrite state_roundtrip by apply int64_range.
  rewrite (load_other policiesFilePrefix) by (intros k H; by destruct (file_name_state k)).
  rewrite (load_other pipsFilePrefix) by (intros k H; by destruct (file_name_state k)).
  rewrite (load_write policiesFilePrefix _ fs d raw items) by done.
  rewrite (load_other pipsFilePrefix) by (intros k; apply file_names_distinct). done.
Qed.

Lemma reload_pips s fs d items raw t :
  s = newStore (Some fs) → validDomain d = true → decode_pips raw = Some items →
  let s' := rehashLocked (set_revision (set_pips s (<[d := normalize items]> (pips s))) (int64 (revision s + 1))) in
  s' = newStore (Some (<[stateFileName := encode_state (revision s') (policiesHash s') (pipsHash s') t]>
                         (<[file_name pipsFilePrefix d := raw]> fs))).
Proof.
  intros -> Hv Hd. cbn zeta. unfold newStore, loadFromDisk. rewrite lookup_insert_eq. cbn [mbind option_bind].
  rewrite state_roundtrip by apply int64_range.
  rewrite (load_other policiesFilePrefix) by (intros k H; by destruct (file_name_state k)).
  rewrite (load_other pipsFilePrefix) by (intros k H; by destruct (file_name_state k)).
  rewrite (load_write pipsFilePrefix _ fs d raw items) by done.
  rewrite (load_other policiesFilePrefix) by (intros k E; symmetry in E; by apply file_names_distinct in E). done.
Qed.

Lemma serve_mirrors r s fs :
  no_split_failure r → s = newStore (Some fs) →
  let '(_, s', fs') := serve r s fs in s' = newStore (Some fs').
Proof.
  intros Hio Hs. pose proof (newStore_consistent (Some fs)) as Hc. rewrite <-Hs in Hc.
  assert (dataDir s = true) as Hdir by by rewrite Hs.
  destruct r as [w d body|w d body]; cbn [serve]; unfold no_split_failure in Hio; cbn [io_of] in Hio;
    unfold handlePutDomainPolicies, handlePutDomainPIPs; destruct (validDomain d) eqn:Hv; cbn [negb]; try done.
  - destruct (decode_policies (take maxBodyBytes body)) as [items|] eqn:Ed; [|done].
    pose proof (SetDomainPolicies_spec w d items (take maxBodyBytes body) s fs Hc) as H.
    destruct (SetDomainPolicies w d items _ s fs) as [[[[]|] s'] fs'].
    + by destruct H as (-> & -> & _).
    + destruct H as (_ & _ & _ & Hw & Hw'). specialize (Hio Hw). congruence.
    + destruct H as (-> & -> & _). rewrite Hdir. by apply reload_policies.
  - destruct (decode_pips (take maxBodyBytes body)) as [items|] eqn:Ed; [|done].
    pose proof (SetDomainPIPs_spec w d items (take maxBodyBytes body) s fs Hc) as H.
    destruct (SetDomainPIPs w d items _ s fs) as [[[[]|] s'] fs'].
    + by destruct H as (-> & -> & _).
    + destruct H as (_ & _ & _ & Hw & Hw'). specialize (Hio Hw). congruence.
    + destruct H as (-> & -> & _). rewrite Hdir. by apply reload_pips.
Qed.

Lemma run_mirrors rs s fs :
  Forall no_split_failure rs → s = newStore (Some fs) → let '(s', fs') := run rs s fs in s' = newStore (Some fs').
Proof.
  intros H. revert s fs. induction H as [|r rs Hr H IH]; intros s fs Hs; [done|]. cbn [run].
  pose proof (serve_mirrors r s fs Hr Hs) as Hm. destruct (serve r s fs) as [[resp s'] fs']. by apply IH.
Qed.

Lemma serve_consistent r s fs : consistent s → consistent (serve r s fs).1.2.
Proof.
  intros Hc. destruct r as [w d body|w d body]; cbn [serve];
    unfold handlePutDomainPolicies, handlePutDomainPIPs; destruct (validDomain d); cbn [negb]; try done.
  - destruct (decode_policies _) as [items|]; [|done].
    pose proof (SetDomainPolicies_spec w d items (take maxBodyBytes body) s fs Hc) as H.
    destruct (SetDomainPolicies w d items _ s fs) as [[[[]|] s'] fs']; cbn [fst snd].
    1-2: by destruct H as (-> & _). destruct H as [-> _]. apply rehash_consistent.
  - destruct (decode_pips _) as [items|]; [|done].
    pose proof (SetDomainPIPs_spec w d items (take maxBodyBytes body) s fs Hc) as H.
    destruct (SetDomainPIPs w d items _ s fs) as [[[[]|] s'] fs']; cbn [fst snd].
    1-2: by destruct H as (-> & _). destruct H as [-> _]. apply rehash_consistent.
Qed.

Lemma run_consistent rs s fs : consistent s → consistent (run rs s fs).1.
Proof.
  revert s fs. induction rs as [|r rs IH]; intros s fs Hc; [done|]. cbn [run].
  pose proof (serve_consistent r s fs Hc) as Hs. destruct (serve r s fs) as [[resp s'] fs']. by apply IH.
Qed.

End store.

(** ** Properties *)

(** C37: A restart loses nothing: after any uploads, refused ones and failed writes included,
    the store rebuilt from the directory is the one in memory, contents, hashes and
    revision, as long as no state file fails to be written after its domain file was. *)
Theorem restart_restores {policy pip} {codec : Codec policy pip} {laws : StateFile codec} rs fs :
  Forall no_split_failure rs →
  let '(s', fs') := run rs (newStore (Some fs)) fs in s' = newStore (Some fs').
Proof. intros H. by apply run_mirrors. Qed.

(** The hash the export serves is the content hash of exactly the items it serves, after
    any run of uploads with any write failures, with a directory or without one. *)
Theorem served_hash {policy pip} {codec : Codec policy pip} {laws : StateFile codec} rs dir fs auth :
  let s := (run rs (newStore dir) fs).1 in
  (∀ h items, handleV3PolicySets auth s = ExportPolicies h items → h = hash_policies items)
  ∧ (∀ h items, handleV3PIPs auth s = ExportPIPs h items → h = hash_pips items).
Proof.
  cbn zeta. destruct (run_consistent rs (newStore dir) fs (newStore_consistent dir)) as [Hh _].
  apply (f_equal (λ s, (policiesHash s, pipsHash s))) in Hh. cbn in Hh. injection Hh as Hp Hq.
  unfold handleV3PolicySets, handleV3PIPs, Policies, PIPs. rewrite <-Hp, <-Hq.
  split; intros h items; by destruct (eqb auth EmptyString); [|intros [= <- <-]].
Qed.

(** An upload of policies is all or nothing in memory: the answer 200 means that the
    domain reads as what was uploaded and no other domain and no PIP changed; any other
    answer means that nothing changed. *)
Theorem put_policies_atomic {policy pip} {codec : Codec policy pip} {laws : StateFile codec} rs dir fs0 w d body :
  let '(s, fs) := run rs (newStore dir) fs0 in
  let '(r, s', _) := handlePutDomainPolicies w d body s fs in
  match r with
  | Updated d' n h rev =>
      d' = d ∧ validDomain d = true
      ∧ (∃ items, decode_policies (take maxBodyBytes body) = Some items ∧ DomainPolicies s' d = normalize items
                  ∧ n = length (normalize items))
      ∧ (∀ d', d' ≠ d → DomainPolicies s' d' = DomainPolicies s d')
      ∧ PIPs s' = PIPs s ∧ h = (Policies s').2 ∧ rev = int64 (revision s + 1) ∧ rev = revision s'
  | _ => s' = s
  end.
Proof.
  pose proof (run_consistent rs (newStore dir) fs0 (newStore_consistent dir)) as Hc.
  destruct (run rs (newStore dir) fs0) as [s fs]. cbn [fst] in Hc.
  unfold handlePutDomainPolicies. destruct (validDomain d) eqn:Hv; cbn [negb]; [|done].
  destruct (decode_policies _) as [items|] eqn:Ed; [|done].
  pose proof (SetDomainPolicies_spec w d items (take maxBodyBytes body) s fs Hc) as H.
  destruct (SetDomainPolicies w d items _ s fs) as [[[[]|] s'] fs']; [by destruct H as [-> _]..|].
  destruct H as [-> _]. destruct Hc as [Hh Hr].
  split_and!; [done|done| | | |done|done|done].
  - exists items. split_and!; [done| |done]. unfold DomainPolicies. cbn. by rewrite lookup_insert_eq.
  - intros d' Hd. unfold DomainPolicies. cbn. by rewrite lookup_insert_ne.
  - unfold PIPs. cbn. apply (f_equal pipsHash) in Hh. cbn in Hh. by rewrite Hh.
Qed.

(** An upload answered 500 can come back: when the domain file is written and the state
    file is not, memory is rolled back, and the store rebuilt from the directory serves the
    rejected upload. *)
Theorem rejected_upload_returns {policy pip} {codec : Codec policy pip} {laws : StateFile codec} fs d body items t :
  validDomain d = true → decode_policies (take maxBodyBytes body) = Some items →
  let s := newStore (Some fs) in
  let '(r, s', fs') := handlePutDomainPolicies (IO true false t) d body s fs in
  r = InternalError PersistState ∧ s' = s ∧ DomainPolicies (newStore (Some fs')) d = normalize items.
Proof.
  intros Hv Hd. cbn zeta. unfold handlePutDomainPolicies. rewrite Hv, Hd. cbn [negb].
  pose proof (SetDomainPolicies_spec (IO true false t) d items (take maxBodyBytes body) _ fs
    (newStore_consistent (Some fs))) as H.
  destruct (SetDomainPolicies _ d items _ _ fs) as [[[[]|] s'] fs'].
  - by destruct H as (_ & _ & _ & Hw).
  - destruct H as (-> & -> & _). split_and!; [done|done|].
    unfold DomainPolicies, newStore, loadFromDisk. cbn [rehashLocked policies].
    by rewrite (load_write policiesFilePrefix decode_policies fs d _ items), lookup_insert_eq.
  - destruct H as (_ & _ & H). by destruct (H eq_refl) as [_ ?].
Qed.

(** A codec of numbers: an upload is one number per byte. *)
Definition example_codec : Codec nat nat := {|
  decode_policies raw := if eqb raw [] then None else Some (Some (Ascii.nat_of_ascii <$> raw));
  decode_pips raw := Some (Some (Ascii.nat_of_ascii <$> raw));
  hash_policies l := pretty (sum_list l);
  hash_pips l := pretty (sum_list l);
  encode_state rev _ _ _ := (if decide (0 ≤ rev)%Z then "+"%char else "-"%char) :: replicate (Z.abs_nat rev) "x"%char;
  decode_state raw :=
    match raw with
    | c :: l =>
        let rev := (if eqb c "-"%char then - Z.of_nat (length l) else Z.of_nat (length l))%Z in
        if decide (- 2 ^ 63 ≤ rev < 2 ^ 63)%Z then Some rev else None
    | [] => None
    end;
|}.

#[local] Existing Instance example_codec.

Lemma example_state_file : StateFile example_codec.
Proof.
  split.
  - intros rev h h' t H. unfold in_int64 in H. cbn -[Z.abs_nat Z.pow].
    rewrite length_replicate, Zabs2Nat.id_abs.
    destruct (decide (0 ≤ rev)%Z) as [Hr|Hr].
    + change (eqb "+"%char "-"%char) with false. cbv iota. rewrite decide_True by lia. f_equal. lia.
    + change (eqb "-"%char "-"%char) with true. cbv iota. rewrite decide_True by lia. f_equal. lia.
  - intros [|c l] rev; [done|]. cbn -[Z.pow]. case_decide; [|done]. by intros [= <-].
Qed.

Definition example_requests : list request :=
  [PutPolicies (IO true true "t0") "BSS" ["a"; "b"]%char;
   PutPolicies (IO false false "t1") "BSS" ["c"]%char;
   PutPolicies (IO true true "t2") "../x" ["c"]%char;
   PutPIPs (IO true true "t3") "OSS" []%char]%string.

Lemma restart_restores_witness :
  Forall no_split_failure example_requests
  ∧ let '(s', fs') := run (codec := example_codec) example_requests (newStore (Some ∅)) ∅ in
    s' = newStore (Some fs').
Proof.
  assert (Forall no_split_failure example_requests) as H by (repeat constructor; done).
  split; [exact H|]. exact (restart_restores (laws := example_state_file) example_requests ∅ H).
Defined.

(** The hash of the export after the uploads. *)
Lemma served_hash_witness :
  match handleV3PolicySets "Bearer t" (run (codec := example_codec) example_requests (newStore (Some ∅)) ∅).1 with
  | ExportPolicies h items => h = hash_policies items
  | _ => False
  end.
Proof.
  pose proof (proj1 (served_hash (laws := example_state_file) example_requests (Some ∅) ∅ "Bearer t")) as H.
  destruct (run _ _ _) as [s fs]. exact (H _ _ eq_refl).
Defined.

(** An upload after the uploads, with both files written: every domain but its own keeps its
    policies, and so do the PIPs. *)
Lemma put_policies_atomic_witness :
  let '(s, fs) := run (codec := example_codec) example_requests (newStore (Some ∅)) ∅ in
  let '(r, s', _) := handlePutDomainPolicies (IO true true "t4") "OSS" ["x"]%char s fs in
  match r with
  | Updated d n _ rev => d = "OSS"%string ∧ PIPs s' = PIPs s ∧ rev = revision s'
      ∧ DomainPolicies s' "BSS" = DomainPolicies s "BSS"
  | _ => s' = s
  end.
Proof.
  pose proof (put_policies_atomic (laws := example_state_file) example_requests (Some ∅) ∅
    (IO true true "t4") "OSS" ["x"]%char) as H.
  destruct (run _ _ _) as [s fs]. destruct (handlePutDomainPolicies _ _ _ _ _) as [[r s'] fs'].
  destruct r; try exact H. destruct H as (Hd & _ & _ & Hf & Hp & _ & _ & Hr).
  split_and!; [exact Hd|exact Hp|exact Hr|exact (Hf "BSS"%string ltac:(done))].
Defined.

Lemma rejected_upload_returns_witness :
  let fs : gmap string bytes := ∅ in
  let s := newStore (Some fs) in
  let '(r, s', fs') := handlePutDomainPolicies (codec := example_codec) (IO true false "t") "BSS" ["a"]%char s fs in
  r = InternalError PersistState ∧ s' = s ∧ DomainPolicies (newStore (Some fs')) "BSS" = [97]
  ∧ DomainPolicies s "BSS" = [].
Proof.
  assert (decode_policies (Codec := example_codec) (take maxBodyBytes ["a"]%char) = Some (Some [97])) as Hd.
  { rewrite take_ge; [done|]. unfold maxBodyBytes. simpl length. lia. }
  pose proof (rejected_upload_returns (laws := example_state_file) ∅ "BSS" ["a"]%char (Some [97]) "t" eq_refl Hd) as H.
  cbn zeta in *. destruct (handlePutDomainPolicies _ _ _ _ _) as [[r s'] fs']. destruct H as (-> & -> & H).
  split_and!; [done|done|exact H|done].
Defined.

End PolicyStore.
