(* ===== verification/StoreDisk.v ===== *)
(** * The directory of the store, call by call ([components/authz-policy-admin/store.go])

    [writeFileAtomic] as the file system calls it makes, each with its outcome, and every
    directory the process may be killed at; the start that sweeps what such a kill leaves.
    [PolicyStore.v] takes a write for one step; here that step is what the calls amount to. *)
From S2P Require Import Prelude GoText PolicyStore.
Import GoText PolicyStore.

Module StoreDisk.

Notation files := (gmap string bytes) (only parsing).

(** ** Temporary files *)

(** [tempFilePattern]: the name [os.CreateTemp] makes with its random part, and the names the
    pattern matches. *)
Definition temp_name (random : string) : string := ".acstub-" +:+ random +:+ ".json".

Definition is_temp (name : string) : bool :=
  match cutPrefix (bytes_of ".acstub-") (bytes_of name) with
  | Some rest => is_some (cutPrefix (reverse (bytes_of ".json")) (reverse rest))
  | None => false
  end.

(** [sweepTempFiles]; [removes] tells the files it can remove. *)
Definition sweepTempFiles (removes : string → bool) (fs : files) : files :=
  filter (λ kv, is_temp kv.1 && removes kv.1 = false) fs.

(** ** One file *)

(** The outcomes of the calls: the random part of the temporary file, unless it cannot be
    created; how many bytes a failed write leaves; and whether each other call succeeds. *)
Record calls := MkCalls {
  MkdirAll : bool;
  CreateTemp : option string;
  Write : option nat;
  Close : bool;
  Chmod : bool;
  Rename : bool;
  Remove : bool;
}.

Inductive failed := FMkdirAll | FCreateTemp | FWrite | FClose | FChmod | FRename.

(** The directories while a file grows to [n] bytes of its content. *)
Definition growing (name : string) (content : bytes) (n : nat) (fs : files) : list files :=
  (λ m, <[name := take m content]> fs) <$> seq 0 (S n).

(** [writeFileAtomic]: its error, and the directories from the first to the last. *)
Definition writeFileAtomic (k : calls) (name : string) (content : bytes) (fs : files) : option failed * list files :=
  if negb (MkdirAll k) then (Some FMkdirAll, [fs])
  else
    match CreateTemp k with
    | None => (Some FCreateTemp, [fs])
    | Some random =>
        let tmp := temp_name random in
        let remove fs := if Remove k then delete tmp fs else fs in
        match Write k with
        | Some n => (Some FWrite, fs :: growing tmp content n fs ++ [remove (<[tmp := take n content]> fs)])
        | None =>
            let seen := fs :: growing tmp content (length content) fs in
            let fs := <[tmp := content]> fs in
            if negb (Close k) then (Some FClose, seen ++ [remove fs])
            else if negb (Chmod k) then (Some FChmod, seen ++ [remove fs])
            else if negb (Rename k) then (Some FRename, seen ++ [remove fs])
            else (None, seen ++ [<[name := content]> (delete tmp fs)])
        end
    end.

(** The directory a call ends with. *)
Definition after (fs : files) (seen : list files) : files := default fs (last seen).

(** ** An upload *)

Section upload.
Context {policy pip : Type} {codec : Codec policy pip}.

(** [commitLocked] with a directory. *)
Definition commitLocked (k k' : calls) (t : string) (fileName : string) (raw : bytes) (s : store (policy := policy) (pip := pip)) (fs : files) :
    option persist_error * store * list files :=
  let s := rehashLocked s in
  let s := set_revision s (int64 (revision s + 1)) in
  match writeFileAtomic k fileName raw fs with
  | (Some _, seen) => (Some PersistDomain, set_revision s (int64 (revision s - 1)), seen)
  | (None, seen) =>
      let state := encode_state (revision s) (policiesHash s) (pipsHash s) t in
      match writeFileAtomic k' stateFileName state (after fs seen) with
      | (Some _, seen') => (Some PersistState, set_revision s (int64 (revision s - 1)), seen ++ seen')
      | (None, seen') => (None, s, seen ++ seen')
      end
  end.

(** [SetDomainPolicies] and [SetDomainPIPs]. *)
Definition SetDomainPolicies (k k' : calls) (t : string) (d : string) (items : option (list policy)) (raw : bytes) (s : store) (fs : files) :
    option persist_error * store * list files :=
  let previous := policies s !! d in
  let s := set_policies s (<[d := normalize items]> (policies s)) in
  match commitLocked k k' t (file_name policiesFilePrefix d) raw s fs with
  | (None, s, seen) => (None, s, seen)
  | (Some e, s, seen) => (Some e, rehashLocked (set_policies s (put_back d previous (policies s))), seen)
  end.

Definition SetDomainPIPs (k k' : calls) (t : string) (d : string) (items : option (list pip)) (raw : bytes) (s : store) (fs : files) :
    option persist_error * store * list files :=
  let previous := pips s !! d in
  let s := set_pips s (<[d := normalize items]> (pips s)) in
  match commitLocked k k' t (file_name pipsFilePrefix d) raw s fs with
  | (None, s, seen) => (None, s, seen)
  | (Some e, s, seen) => (Some e, rehashLocked (set_pips s (put_back d previous (pips s))), seen)
  end.

(** ** The start *)

(** [probeWritable]: a file is created and removed. *)
Definition probeWritable (created : option string) (removed : bool) (fs : files) : bool * files :=
  match created with
  | None => (false, fs)
  | Some random => if removed then (true, delete (temp_name random) (<[temp_name random := []]> fs)) else (false, <[temp_name random := []]> fs)
  end.

(** [newStore] on a directory; [None] is its error. *)
Definition newStore (mkdir : bool) (created : option string) (removed : bool) (removes : string → bool) (fs : files) :
    option (store (policy := policy) (pip := pip) * files) :=
  if negb mkdir then None
  else
    let '(writable, fs) := probeWritable created removed fs in
    if writable then
      let fs := sweepTempFiles removes fs in
      Some (loadFromDisk (MkStore true ∅ ∅ EmptyString EmptyString 0) fs, fs)
    else None.
End upload.

(** ** Directories but for temporary files *)

Definition same_files (fs fs' : files) : Prop := ∀ name, is_temp name = false → fs !! name = fs' !! name.

#[global] Instance same_files_equivalence : Equivalence same_files.
Proof. split; [done|intros fs fs' H x Hx; symmetry; by apply H|intros f g h H H' x Hx; by rewrite H, H']. Qed.

#[global] Instance insert_same name content : Proper (same_files ==> same_files) (insert name content).
Proof. intros fs fs' H x Hx. destruct (decide (x = name)) as [->|Hn]; [by rewrite !lookup_insert_eq|]. rewrite !lookup_insert_ne by done. by apply H. Qed.

Lemma temp_name_temp random : is_temp (temp_name random) = true.
Proof.
  unfold is_temp, temp_name. rewrite !bytes_of_app, cutPrefix_app, reverse_app, cutPrefix_app. done.
Qed.

Lemma same_insert_temp random content fs : same_files (<[temp_name random := content]> fs) fs.
Proof. intros x Hx. apply lookup_insert_ne. intros <-. by rewrite temp_name_temp in Hx. Qed.

Lemma same_delete_temp random fs : same_files (delete (temp_name random) fs) fs.
Proof. intros x Hx. apply lookup_delete_ne. intros <-. by rewrite temp_name_temp in Hx. Qed.

Lemma sweep_same removes fs : same_files (sweepTempFiles removes fs) fs.
Proof.
  intros x Hx. unfold sweepTempFiles. rewrite map_lookup_filter. destruct (fs !! x) as [v|]; [|done]. cbn. rewrite option_guard_True; [done|]. by rewrite Hx.
Qed.

(** A write that fails leaves the files as they were, one that succeeds replaces one, and there
    is nothing in between. *)
Lemma write_seen k name content fs e seen : writeFileAtomic k name content fs = (e, seen) →
  same_files (after fs seen) (if e then fs else <[name := content]> fs)
  ∧ Forall (λ g, same_files g fs ∨ e = None ∧ same_files g (<[name := content]> fs)) seen.
Proof.
  assert (Hg : ∀ tmp n, Forall (λ g, same_files g fs ∨ e = None ∧ same_files g (<[name := content]> fs)) (growing (temp_name tmp) content n fs)).
  { intros tmp n. unfold growing. apply Forall_fmap, Forall_forall. intros m _. left. apply same_insert_temp. }
  assert (Hl : ∀ l g, after fs (fs :: l ++ [g]) = g) by (intros; unfold after; by rewrite app_comm_cons, last_snoc).
  unfold writeFileAtomic. destruct (MkdirAll k); cbn [negb]; [|intros [<- <-]%pair_equal_spec; split; [done|repeat constructor; by left]].
  destruct (CreateTemp k) as [random|]; [|intros [<- <-]%pair_equal_spec; split; [done|repeat constructor; by left]].
  assert (Hr : ∀ g, same_files g fs → same_files (if Remove k then delete (temp_name random) g else g) fs).
  { intros g H. destruct (Remove k); [|done]. by rewrite same_delete_temp. }
  assert (Hu : ∀ content', same_files (<[temp_name random := content']> fs) fs) by (intros; apply same_insert_temp).
  destruct (Write k) as [n|].
  { intros [<- <-]%pair_equal_spec. rewrite Hl. split; [by apply Hr|]. constructor; [by left|]. apply Forall_app. split; [done|]. constructor; [left; by apply Hr|constructor]. }
  destruct (Close k), (Chmod k), (Rename k); cbn [negb]; intros [<- <-]%pair_equal_spec; cbn [app]; rewrite Hl;
    (split; [first [by apply Hr|by rewrite same_delete_temp, Hu]|]);
    (constructor; [by left|]); apply Forall_app; (split; [done|]); (constructor; [|constructor]); first [left; by apply Hr|right; split; [done|by rewrite same_delete_temp, Hu]].
Qed.

Section store.
Context {policy pip : Type} {codec : Codec policy pip}.

Lemma domain_file_kept prefix d : prefix = policiesFilePrefix ∨ prefix = pipsFilePrefix → is_temp (file_name prefix d) = false.
Proof. by intros [-> | ->]. Qed.

(** What is loaded does not depend on temporary files. *)
#[global] Instance load_same s : Proper (same_files ==> eq) (loadFromDisk (policy := policy) (pip := pip) s).
Proof.
  intros fs fs' H. unfold loadFromDisk. rewrite (H stateFileName) by done.
  assert (Hl : ∀ A prefix (decode : bytes → option (option (list A))), prefix = policiesFilePrefix ∨ prefix = pipsFilePrefix → load prefix decode fs = load prefix decode fs').
  { intros A prefix decode Hp. apply map_eq. intros d. rewrite !load_lookup. by rewrite (H _ (domain_file_kept _ d Hp)). }
  by rewrite !Hl by auto.
Qed.

(** A start that succeeds is that of [PolicyStore]. *)
Lemma newStore_load mkdir created removed removes fs s fs' :
  newStore mkdir created removed removes fs = Some (s, fs') → s = PolicyStore.newStore (policy := policy) (pip := pip) (Some fs) ∧ same_files fs' fs.
Proof.
  unfold newStore. destruct mkdir; cbn [negb]; [|done]. unfold probeWritable. destruct created as [random|]; [|done]. destruct removed; [|done]. intros [= <- <-].
  assert (H : same_files (sweepTempFiles removes (delete (temp_name random) (<[temp_name random := []]> fs))) fs) by by rewrite sweep_same, same_delete_temp, same_insert_temp.
  split; [|done]. unfold PolicyStore.newStore. by rewrite (load_same _ _ _ H).
Qed.
(** ** The calls amount to a write *)

Definition succeeds (k : calls) : bool :=
  MkdirAll k && is_some (CreateTemp k) && negb (is_some (Write k)) && Close k && Chmod k && Rename k.

Lemma write_succeeds k name content fs : is_some (writeFileAtomic k name content fs).1 = negb (succeeds k).
Proof.
  unfold writeFileAtomic, succeeds. destruct (MkdirAll k); [|done]. destruct (CreateTemp k); [|done]. destruct (Write k); [done|].
  by destruct (Close k), (Chmod k), (Rename k).
Qed.

(** The directories an upload passes through: as before it, with its domain file, or, once it
    is answered, as after it. *)
Definition passes (fs : files) (fileName : string) (raw : bytes) (answered : bool) (fs' g : files) : Prop :=
  same_files g fs ∨ same_files g (<[fileName := raw]> fs) ∨ answered = true ∧ same_files g fs'.

Lemma commit_refines k k' t fileName raw s fs : dataDir s = true →
  let '(e, s1, seen) := commitLocked k k' t fileName raw s fs in
  let '(e', s1', fs') := PolicyStore.commitLocked (IO (succeeds k) (succeeds k') t) fileName raw s fs in
  e = e' ∧ s1 = s1' ∧ same_files (after fs seen) fs' ∧ Forall (passes fs fileName raw (negb (is_some e)) fs') seen.
Proof.
  intros Hd. unfold commitLocked, PolicyStore.commitLocked. cbn [dataDir rehashLocked set_revision domain_written state_written now].
  rewrite Hd. cbn [negb]. unfold PolicyStore.writeFileAtomic. pose proof (write_succeeds k fileName raw fs) as Hw.
  destruct (writeFileAtomic k fileName raw fs) as [e seen] eqn:E. cbn [fst] in Hw. apply write_seen in E as [Hl Hs].
  destruct e as [e|]; cbn [is_some] in Hw; destruct (succeeds k); try done; cbn [negb].
  { split_and!; [done..|]. eapply Forall_impl; [exact Hs|]. intros g [H|[? _]]; [by left|done]. }
  set (state := encode_state _ _ _ _). pose proof (write_succeeds k' stateFileName state (after fs seen)) as Hw'.
  destruct (writeFileAtomic k' stateFileName state (after fs seen)) as [e' seen'] eqn:E'. cbn [fst] in Hw'. apply write_seen in E' as [Hl' Hs'].
  assert (Ha : after fs (seen ++ seen') = after (after fs seen) seen').
  { unfold after. rewrite last_app. by destruct (last seen'). }
  assert (Hseen : ∀ b fs', Forall (passes fs fileName raw b fs') seen).
  { intros b fs'. eapply Forall_impl; [exact Hs|]. intros g [H|[_ H]]; [by left|right; by left]. }
  destruct e' as [e'|]; cbn [is_some] in Hw'; destruct (succeeds k'); try done; cbn [negb]; rewrite Ha.
  - split_and!; [done|done|by rewrite Hl', Hl|]. apply Forall_app. split; [done|]. eapply Forall_impl; [exact Hs'|].
    intros g [H|[? _]]; [right; left; by rewrite H|done].
  - split_and!; [done|done|by rewrite Hl', Hl|]. apply Forall_app. split; [done|]. eapply Forall_impl; [exact Hs'|].
    intros g [H|[_ H]]; [right; left; by rewrite H|]. right. right. split; [done|]. by rewrite H, Hl.
Qed.

(** An upload with its calls is the upload of [PolicyStore] with the outcome of both writes. *)
Lemma SetDomainPolicies_refines k k' t d items raw s fs : dataDir s = true →
  let '(e, s1, seen) := SetDomainPolicies k k' t d items raw s fs in
  let '(e', s1', fs') := PolicyStore.SetDomainPolicies (IO (succeeds k) (succeeds k') t) d items raw s fs in
  e = e' ∧ s1 = s1' ∧ same_files (after fs seen) fs' ∧ Forall (passes fs (file_name policiesFilePrefix d) raw (negb (is_some e)) fs') seen.
Proof.
  intros Hd. unfold SetDomainPolicies, PolicyStore.SetDomainPolicies.
  pose proof (commit_refines k k' t (file_name policiesFilePrefix d) raw (set_policies s (<[d := normalize items]> (policies s))) fs Hd) as H.
  destruct (commitLocked _ _ _ _ _ _ _) as [[e s1] seen], (PolicyStore.commitLocked _ _ _ _ _) as [[e' s1'] fs'].
  destruct H as (<- & <- & Hl & Hs). by destruct e.
Qed.

Lemma SetDomainPIPs_refines k k' t d items raw s fs : dataDir s = true →
  let '(e, s1, seen) := SetDomainPIPs k k' t d items raw s fs in
  let '(e', s1', fs') := PolicyStore.SetDomainPIPs (IO (succeeds k) (succeeds k') t) d items raw s fs in
  e = e' ∧ s1 = s1' ∧ same_files (after fs seen) fs' ∧ Forall (passes fs (file_name pipsFilePrefix d) raw (negb (is_some e)) fs') seen.
Proof.
  intros Hd. unfold SetDomainPIPs, PolicyStore.SetDomainPIPs.
  pose proof (commit_refines k k' t (file_name pipsFilePrefix d) raw (set_pips s (<[d := normalize items]> (pips s))) fs Hd) as H.
  destruct (commitLocked _ _ _ _ _ _ _) as [[e s1] seen], (PolicyStore.commitLocked _ _ _ _ _) as [[e' s1'] fs'].
  destruct H as (<- & <- & Hl & Hs). by destruct e.
Qed.

Lemma upload_seen k k' t d items raw s fs g :
  g ∈ (writeFileAtomic k (file_name policiesFilePrefix d) raw fs).2 → g ∈ (SetDomainPolicies k k' t d items raw s fs).2.
Proof.
  intros H. unfold SetDomainPolicies, commitLocked. destruct (writeFileAtomic k _ raw fs) as [[e|] seen]; [done|].
  destruct (writeFileAtomic k' _ _ _) as [[e'|] seen']; apply elem_of_app; by left.
Qed.

Context {laws : StateFile codec}.

(** A domain file alone, without its state file: the domain is new and the revision is old. *)
Lemma split_policies fs d items raw : validDomain d = true → decode_policies raw = Some items →
  let s := PolicyStore.newStore (policy := policy) (pip := pip) (Some fs) in
  let r := PolicyStore.newStore (Some (<[file_name policiesFilePrefix d := raw]> fs)) in
  policies r = <[d := normalize items]> (policies s) ∧ pips r = pips s ∧ revision r = revision s.
Proof.
  intros Hv Hd. cbn. rewrite (load_write policiesFilePrefix _ fs d raw items) by done.
  rewrite (load_other pipsFilePrefix) by (intros k; apply file_names_distinct).
  rewrite lookup_insert_ne by apply file_name_state. done.
Qed.

End store.

(** C39: An upload that is killed at any of its file system calls, or in the middle of a write, is
    done or not done: the store the next start loads has the domain as it was or as it was
    uploaded, every other domain and the information points as they were, and the hash of what
    it holds; an upload that was answered 200 is there with its revision; and the start
    removes what the kill left, if it can. *)
Theorem killed_upload_whole {policy pip} {codec : Codec policy pip} {laws : StateFile codec} rs fs0 k k' t d items raw mkdir created removed removes :
  Forall no_split_failure rs → validDomain d = true → decode_policies raw = Some items →
  let '(s, fs) := run rs (PolicyStore.newStore (Some fs0)) fs0 in
  let '(e, s', seen) := SetDomainPolicies k k' t d items raw s fs in
  (∀ g r fs', g ∈ seen → newStore mkdir created removed removes g = Some (r, fs') →
     consistent r ∧ pips r = pips s ∧ (r = s ∨ policies r = <[d := normalize items]> (policies s))
     ∧ ∀ name, is_temp name = true → removes name = true → fs' !! name = None)
  ∧ (e = None → ∀ r fs', newStore mkdir created removed removes (after fs seen) = Some (r, fs') → r = s').
Proof.
  intros Hio Hv Hdec. pose proof (restart_restores rs fs0 Hio) as Hm. destruct (run rs _ fs0) as [s fs].
  assert (Hdir : dataDir s = true) by by rewrite Hm. pose proof (newStore_consistent (Some fs)) as Hc. rewrite <-Hm in Hc.
  pose proof (SetDomainPolicies_refines k k' t d items raw s fs Hdir) as Hr. pose proof (SetDomainPolicies_spec (IO (succeeds k) (succeeds k') t) d items raw s fs Hc) as Hs.
  destruct (SetDomainPolicies k k' t d items raw s fs) as [[e s'] seen], (PolicyStore.SetDomainPolicies _ d items raw s fs) as [[e' s''] fs'].
  destruct Hr as (<- & <- & Hl & Hseen).
  assert (Hdone : e = None → s' = PolicyStore.newStore (Some fs')).
  { intros ->. destruct Hs as (-> & -> & _). rewrite Hdir. by apply reload_policies. }
  assert (Hswept : ∀ g r fs'', newStore mkdir created removed removes g = Some (r, fs'') → ∀ name, is_temp name = true → removes name = true → fs'' !! name = None).
  { intros g r fs'' H name H1 H2. unfold newStore in H. destruct (negb mkdir); [done|]. destruct (probeWritable _ _ _) as [[] fs2]; [|done]. injection H as _ <-.
    unfold sweepTempFiles. apply map_lookup_filter_None_2. right. intros x _. cbn. by rewrite H1, H2. }
  split.
  - intros g r fs'' Hg Hn. destruct (newStore_load _ _ _ _ _ _ _ Hn) as [-> _]. split; [apply newStore_consistent|].
    rewrite Forall_forall in Hseen. specialize (Hseen g Hg).
    assert (HE : ∀ h, same_files g h → PolicyStore.newStore (policy := policy) (pip := pip) (Some g) = PolicyStore.newStore (Some h)).
    { intros h H. unfold PolicyStore.newStore. by rewrite (load_same _ _ _ H). }
    destruct (split_policies fs d items raw Hv Hdec) as (H1 & H2 & _). rewrite <-Hm in H1, H2.
    destruct Hseen as [H|[H|[Ha H]]]; rewrite (HE _ H).
    + rewrite <-Hm. split_and!; [done|by left|]. by eapply Hswept.
    + split_and!; [done|by right|]. by eapply Hswept.
    + destruct e; [done|]. rewrite <-(Hdone eq_refl). destruct Hs as (-> & _). split_and!; [done|by right|]. by eapply Hswept.
  - intros -> r fs'' Hn. destruct (newStore_load _ _ _ _ _ _ _ Hn) as [-> _]. rewrite (Hdone eq_refl). unfold PolicyStore.newStore. by rewrite (load_same _ _ _ Hl).
Qed.

(** ** An upload killed in the middle of a write *)

#[local] Existing Instance example_codec.

Definition all_well (random : string) : calls := MkCalls true (Some random) None true true true true.

Lemma killed_upload_whole_witness :
  let '(s, fs) := run (codec := example_codec) example_requests (PolicyStore.newStore (Some ∅)) ∅ in
  let g := <[temp_name "1" := ["x"]%char]> fs in
  ∃ r fs', newStore (codec := example_codec) true (Some "3"%string) true (λ _, true) g = Some (r, fs')
    ∧ pips r = pips s ∧ (r = s ∨ policies r = <[("OSS"%string) := [120; 121]]> (policies s)) ∧ fs' !! temp_name "1" = None.
Proof.
  assert (Forall no_split_failure example_requests) as H by (repeat constructor; done).
  pose proof (killed_upload_whole (laws := example_state_file) example_requests ∅ (all_well "1") (all_well "2") "t" "OSS" (Some [120; 121]) ["x"; "y"]%char
    true (Some "3"%string) true (λ _, true) H eq_refl eq_refl) as K.
  destruct (run example_requests _ ∅) as [s fs]. destruct (SetDomainPolicies _ _ _ _ _ _ s fs) as [[e s'] seen] eqn:E. destruct K as [K _].
  assert (Hin : <[temp_name "1" := ["x"]%char]> fs ∈ seen).
  { pose proof (upload_seen (all_well "1") (all_well "2") "t" "OSS" (Some [120; 121]) ["x"; "y"]%char s fs (<[temp_name "1" := ["x"]%char]> fs)) as U.
    rewrite E in U. apply U. right. right. by left. }
  eexists _, _. split; [reflexivity|]. destruct (K _ _ _ Hin eq_refl) as (_ & Hp & Hr & Ht). split_and!; [exact Hp|exact Hr|by apply Ht].
Defined.

End StoreDisk.
