(* ===== verification/AdminUpload.v ===== *)
(** * Uploads of information points to the administration stub, as JSON

    The decoding of the bodies [components/authz-policy-admin/handlers.go] takes and [store.go]
    loads, and the state file of the store: an instance of the interface [PolicyStore] works on.
    What is decoded is valid, so what a point is uploaded with reaches the agent. *)
From S2P Require Import Prelude GoText Json Encoding JsonText Digits JsonFields AnyValue Decimal Pips AcconfigPips AcconfigJson PolicyStore PipExport.
Import GoText Encoding Digits JsonFields JsonText AcconfigJson PolicyStore PipExport.

Module AdminUpload.

(** ** The texts of a document are valid *)

(** The escapes of the body of a string are whole, as the scanner checks. *)
Fixpoint escapes_whole (s : bytes) : bool :=
  match s with
  | [] => true
  | c :: s =>
      if eqb c Json.backslash then
        match s with
        | f :: s =>
            if Json.is_escape f then escapes_whole s
            else
              match s with
              | a :: b :: c :: d :: s => eqb f "u"%char && all Json.is_hex [a; b; c; d] && escapes_whole s
              | _ => false
              end
        | [] => false
        end
      else escapes_whole s
  end.

Lemma scan_whole s b r : Json.scan_string s = Some (b, r) → escapes_whole b = true.
Proof.
  remember (length s) as n eqn:Hn. revert s Hn b r. induction (lt_wf n) as [n _ IH]. intros [|c s] -> b r; [done|].
  assert (IH' : ∀ s' b' r', length s' < length (c :: s) → Json.scan_string s' = Some (b', r') → escapes_whole b' = true).
  { intros s' b' r' Hl. by eapply IH. }
  cbn [Json.scan_string]. destruct (eqb c Json.quote); [by intros [= <- <-]|].
  destruct (eqb c Json.backslash) eqn:Ec.
  - destruct s as [|f s]; [done|]. destruct (Json.is_escape f) eqn:Ef.
    + destruct (Json.scan_string s) as [[b' r']|] eqn:E; [|done]. intros [= <- <-]. cbn [escapes_whole]. rewrite Ec, Ef.
      eapply IH'; [|done]. cbn. lia.
    + destruct (eqb f "u"%char) eqn:Eu; [|done]. destruct s as [|a1 [|a2 [|a3 [|a4 s]]]]; try done.
      destruct (all Json.is_hex _) eqn:Eh; [|done]. destruct (Json.scan_string s) as [[b' r']|] eqn:E; [|done]. intros [= <- <-].
      cbn [escapes_whole]. rewrite Ec, Ef, Eu, Eh. eapply IH'; [|done]. cbn. lia.
  - destruct (N_of_ascii c <? 32)%N; [done|]. destruct (Json.scan_string s) as [[b' r']|] eqn:E; [|done]. intros [= <- <-].
    cbn [escapes_whole]. rewrite Ec. eapply IH'; [|done]. cbn. lia.
Qed.

Lemma whole_past w s : Forall (λ c, c ≠ Json.backslash) w → escapes_whole (w ++ s) = escapes_whole s.
Proof. induction 1 as [|c w Hc _ IH]; [done|]. cbn [app escapes_whole]. by rewrite (proj2 (eqb_false _ _) Hc). Qed.

Definition encoded (t : bytes) : Prop := ∃ rs, Forall valid_code rs ∧ t = concat (encode <$> rs).

Lemma encoded_cons r t : valid_code r → encoded t → encoded (encode r ++ t).
Proof. intros Hr (rs & H & ->). exists (r :: rs). split; [by constructor|done]. Qed.

Lemma escape_encoded f : Json.is_escape f = true → ∃ r, valid_code r ∧ [escaped f] = encode r.
Proof.
  intros H. exists (N_of_ascii (escaped f)). unfold Json.is_escape in H. apply member_true in H. unfold valid_code.
  repeat (apply elem_of_cons in H as [->|H]; [vm_compute; intuition congruence|]). by apply elem_of_nil in H.
Qed.

Lemma hex_value_small c : Json.is_hex c = true → (hex_value c < 16)%N.
Proof.
  unfold Json.is_hex, hex_value, is_digit, within. rewrite !orb_true_iff, !andb_true_iff, !N.leb_le.
  change (N_of_ascii "0") with 48%N. change (N_of_ascii "9") with 57%N. change (N_of_ascii "a") with 97%N. change (N_of_ascii "f") with 102%N.
  change (N_of_ascii "A") with 65%N. change (N_of_ascii "F") with 70%N. intros H. repeat case_match; bool_simp; lia.
Qed.

Lemma u4_small a b c d : all Json.is_hex [a; b; c; d] = true → (u4 a b c d < 65536)%N.
Proof.
  intros H. apply all_Forall in H. decompose_Forall_hyps.
  repeat match goal with H : Json.is_hex _ = true |- _ => apply hex_value_small in H end. unfold u4. lia.
Qed.

Lemma error_valid : valid_code RuneError.
Proof. unfold valid_code, RuneError. lia. Qed.

Lemma pair_valid r1 r2 r : (55296 ≤ r1)%N → surrogate_pair r1 r2 = Some r → valid_code r.
Proof. unfold surrogate_pair, valid_code. intros H1. case_match eqn:E; [|done]. intros [= <-]. bool_simp. lia. Qed.

Lemma unquote_encoded n s : length s ≤ n → escapes_whole s = true → encoded (unquote n s).
Proof.
  revert s. induction n as [|n IH]; intros [|c s] Hn Hw; cbn [unquote]; try by exists [].
  cbn [length] in Hn. destruct (eqb c "\"%char) eqn:Ec.
  - cbn [escapes_whole] in Hw. change Json.backslash with "\"%char in Hw. rewrite Ec in Hw. destruct s as [|f s]; [by exists []|].
    destruct (Json.is_escape f) eqn:Ef.
    + rewrite (proj2 (eqb_false f "u"%char)) by (by intros ->). destruct (escape_encoded f Ef) as (r & Hr & E).
      change (escaped f :: ?t) with ([escaped f] ++ t). rewrite E. apply encoded_cons; [done|]. apply IH; [cbn in Hn; lia|done].
    + destruct s as [|a1 [|a2 [|a3 [|a4 t]]]]; try done. rewrite !andb_true_iff in Hw. destruct Hw as [[Hu Hx] Hw]. rewrite Hu.
      pose proof (u4_small _ _ _ _ Hx) as Hs. cbn [length] in Hn. destruct (surrogate (u4 a1 a2 a3 a4)) eqn:Es.
      2: { apply encoded_cons; [|apply IH; [lia|done]]. unfold surrogate in Es. unfold valid_code. apply andb_false_iff in Es as [Es|Es].
           - apply N.leb_gt in Es. lia.
           - apply N.ltb_ge in Es. lia. }
      assert (Hr : encoded (encode RuneError ++ unquote n t)) by (apply encoded_cons; [apply error_valid|apply IH; [lia|done]]).
      unfold surrogate in Es. apply andb_true_iff in Es as [Es _]. apply N.leb_le in Es.
      repeat case_match; try exact Hr. subst. apply encoded_cons; [by eapply pair_valid|]. apply IH; [cbn in Hn; lia|].
      cbn [escapes_whole] in Hw. change (eqb "\"%char Json.backslash) with true in Hw. change (Json.is_escape "u") with false in Hw. cbn iota in Hw.
      by rewrite !andb_true_iff in Hw; destruct Hw as [_ Hw].
  - pose proof (DecodeRune_bytes c s) as Hb. pose proof (DecodeRune_valid (c :: s)) as Hv.
    destruct (DecodeRune (c :: s)) as [r w]. cbn [fst snd] in Hv. destruct Hb as [Hw1 Hb].
    apply encoded_cons; [done|]. apply IH; [rewrite length_drop; cbn [length]; lia|].
    rewrite <-(take_drop w (c :: s)) in Hw. rewrite whole_past in Hw; [done|]. destruct Hb as [(c' & E & _)|[_ Hb]]; cbn [snd] in *.
    + destruct w as [|w]; [lia|]. cbn [take] in E. injection E as -> E. cbn [take]. rewrite E. constructor; [|constructor]. intros ->. done.
    + eapply Forall_impl; [exact Hb|]. intros x Hx ->. cbn in Hx. by apply Hx.
Qed.

(** What the decoder makes of the body of a string is valid text. *)
Lemma Unquote_valid b : escapes_whole b = true → valid (Unquote b).
Proof.
  intros H. destruct (unquote_encoded (length b) b ltac:(done) H) as (rs & Hrs & E). unfold valid, wire_text, Unquote.
  rewrite bytes_of_string_of, E, valid_text_encoded by done. done.
Qed.

(** ** The raw values of a document are JSON *)

(** Every text of the value is whole, and every value in it is written as JSON. *)
Inductive sound : Json.json → Prop :=
  | sound_scalar v : is_Some (Json.Compact (JsonFields.raw_text v)) → (∀ b, v = Json.JStr b → escapes_whole b = true) →
      (∀ raw l, v ≠ Json.JArr raw l) → (∀ raw ms, v ≠ Json.JObj raw ms) → sound v
  | sound_array raw l : is_Some (Json.Compact raw) → Forall sound l → sound (Json.JArr raw l)
  | sound_object raw ms : is_Some (Json.Compact raw) → Forall (λ m, escapes_whole m.1 = true ∧ sound m.2) ms → sound (Json.JObj raw ms).

Lemma sound_text v : sound v → is_Some (Json.Compact (JsonFields.raw_text v)).
Proof. by destruct 1. Qed.

Lemma reads_sound f :
  (∀ d s v r, Json.value f d s = Some (v, r) → d ≤ Json.maxNestingDepth → sound v)
  ∧ (∀ d s l r, Json.elements f d s = Some (l, r) → d ≤ Json.maxNestingDepth → Forall sound l)
  ∧ (∀ d s ms r, Json.fields f d s = Some (ms, r) → d ≤ Json.maxNestingDepth → Forall (λ m, escapes_whole m.1 = true ∧ sound m.2) ms).
Proof.
  induction f as [|f (IHv & IHe & IHf)]; [by split_and!|]. split_and!.
  - intros d s v r E Hd. destruct (Json.value_own _ _ _ _ _ E Hd) as (t & Et & Hp).
    assert (Hc : is_Some (Json.Compact t)) by (unfold Json.Compact; rewrite Hp; by eexists).
    assert (Hb : Json.before s r = t) by (by rewrite Et, Json.before_rest).
    assert (Hscalar : (∀ b, v = Json.JStr b → escapes_whole b = true) → (∀ raw l, v ≠ Json.JArr raw l) → (∀ raw ms, v ≠ Json.JObj raw ms) → sound v).
    { intros H1 H2 H3. constructor; [|done..]. replace (JsonFields.raw_text v) with (Json.compact v) by (destruct v; naive_solver).
      exists (Json.compact v). apply (Json.Compact_idem t). unfold Json.Compact. by rewrite Hp. }
    destruct s as [|c s']; [done|]. cbn [Json.value] in E.
    destruct (eqb c Json.quote).
    { destruct (Json.scan_string s') as [[b r']|] eqn:Es; [|done]. injection E as <- <-. apply Hscalar; [|done..]. intros b' [= ->]. by eapply scan_whole. }
    destruct (eqb c "["%char).
    { destruct d as [|d]; [done|]. destruct (Json.expect "]" _) as [r'|].
      - injection E as <- <-. rewrite Hb. by constructor.
      - destruct (Json.elements f d _) as [[l r']|] eqn:El; [|done]. injection E as <- <-. rewrite Hb. constructor; [done|]. eapply IHe; [done|lia]. }
    destruct (eqb c "{"%char).
    { destruct d as [|d]; [done|]. destruct (Json.expect "}" _) as [r'|].
      - injection E as <- <-. rewrite Hb. by constructor.
      - destruct (Json.fields f d _) as [[l r']|] eqn:El; [|done]. injection E as <- <-. rewrite Hb. constructor; [done|]. eapply IHf; [done|lia]. }
    repeat case_match; try (apply bind_Some in E as (r' & _ & E); injection E as <- <-; by apply Hscalar).
    apply bind_Some in E as ([t' r'] & _ & E). injection E as <- <-. by apply Hscalar.
  - intros d s l r E Hd. cbn [Json.elements] in E. apply bind_Some in E as ([v r'] & Ev & E). apply IHv in Ev; [|done].
    destruct (Json.expect "]" _); [injection E as <- <-; by apply Forall_singleton|].
    apply bind_Some in E as (r1 & _ & E). apply bind_Some in E as ([vs r2] & Evs & E). injection E as <- <-. constructor; [done|]. by eapply IHe.
  - intros d s ms r E Hd. cbn [Json.fields] in E. apply bind_Some in E as (s1 & _ & E). apply bind_Some in E as ([k r1] & Ek & E).
    apply bind_Some in E as (r2 & _ & E). apply bind_Some in E as ([v r3] & Ev & E). apply IHv in Ev; [|done]. apply scan_whole in Ek.
    destruct (Json.expect "}" _); [injection E as <- <-; by apply Forall_singleton|].
    apply bind_Some in E as (r4 & _ & E). apply bind_Some in E as ([vs r5] & Evs & E). injection E as <- <-. constructor; [done|]. by eapply IHf.
Qed.

Lemma parse_sound s v : Json.parse s = Some v → sound v.
Proof.
  unfold Json.parse. intros E. apply bind_Some in E as ([w r] & Ev & E). destruct (Json.skip r); [|done]. injection E as <-.
  by apply (proj1 (reads_sound _)) in Ev.
Qed.

(** ** The decoding of an upload *)

Definition no_item : simplifiedPIP :=
  MkSimplifiedPIP EmptyString EmptyString EmptyString EmptyString EmptyString EmptyString EmptyString [] EmptyString
    ∅ [] EmptyString EmptyString ∅ [] None [].

Definition fill_item (p : simplifiedPIP) (ms : list (bytes * Json.json)) : option simplifiedPIP :=
  name ← set_all set_text (Name p) (values "name" ms);
  pipType ← set_all set_text (PipType p) (values "pipType" ms);
  url ← set_all set_text (URL p) (values "url" ms);
  method ← set_all set_text (HTTPMethod p) (values "httpMethod" ms);
  header ← set_all set_text (Header p) (values "header" ms);
  claim ← set_all set_text (Claim p) (values "claim" ms);
  bean ← set_all set_text (BeanName p) (values "beanName" ms);
  value ← set_all set_raw (DefaultValue p) (values "defaultValue" ms);
  domain ← set_all set_text (Domain p) (values "domain" ms);
  attributes ← set_all (set_map (set_text EmptyString)) (RequestAttributes p) (values "requestAttributes" ms);
  headers ← set_all set_raw (Headers p) (values "headers" ms);
  type ← set_all set_text (Type_ p) (values "type" ms);
  path ← set_all set_text (JsonPath p) (values "jsonPath" ms);
  query ← set_all (set_map (set_text EmptyString)) (Query p) (values "query" ms);
  body ← set_all set_raw (Body p) (values "body" ms);
  timeout ← set_all set_int_ptr (TimeoutSeconds p) (values "timeoutSeconds" ms);
  response ← set_all set_raw (Response p) (values "response" ms);
  Some (MkSimplifiedPIP name pipType url method header claim bean value domain attributes headers type path query body timeout response).

(** [json.Unmarshal] into a list: [None] is its error, and null is the nil list. *)
Definition decode_list {A} (set : A → Json.json → option A) (zero : A) (raw : bytes) : option (option (list A)) :=
  v ← Json.parse raw;
  s ← set_slice set zero None v;
  Some (match s with None => None | Some _ => Some (slice_elems s) end).

Definition decode_items : bytes → option (option (list simplifiedPIP)) := decode_list (set_struct fill_item) no_item.

Section kept.
Context {A : Type} (P : A → Prop) (set : A → Json.json → option A).
Hypothesis Hset : ∀ a v x, P a → sound v → set a v = Some x → P x.

Lemma set_all_kept a vs x : P a → Forall sound vs → set_all set a vs = Some x → P x.
Proof.
  unfold set_all. intros Ha H. revert a Ha. induction H as [|v vs Hv _ IH]; intros a Ha; cbn [fold_left]; [by intros [= <-]|].
  cbn [mbind option_bind]. destruct (set a v) as [y|] eqn:E; [apply IH; by eapply Hset|].
  assert (Hn : fold_left (λ o v, f ← o; set f v) vs None = None) by (clear; by induction vs). by rewrite Hn.
Qed.

Variable zero : A.
Hypothesis Hzero : P zero.

Lemma set_cells_kept items old cs : Forall P old → Forall sound items → set_cells set zero old items = Some cs → Forall P cs.
Proof.
  intros Ho H. revert old cs Ho. induction H as [|v items Hv _ IH]; intros old cs Ho; cbn [set_cells]; [by intros [= <-]|].
  destruct (set _ v) as [x|] eqn:E; [|done]. cbn [mbind option_bind]. destruct (set_cells set zero (tail old) items) as [rest|] eqn:Er; [|done].
  intros [= <-]. constructor.
  - eapply Hset; [|exact Hv|exact E]. by destruct Ho.
  - eapply IH; [|exact Er]. by destruct Ho.
Qed.

Lemma decode_list_kept raw l : decode_list set zero raw = Some (Some l) → Forall P l.
Proof.
  unfold decode_list. intros E. apply bind_Some in E as (v & Ev & E). apply parse_sound in Ev. apply bind_Some in E as (s & Es & E).
  destruct s as [[cs n]|]; [|done]. injection E as <-. unfold set_slice in Es. destruct v as [| | | |raw' items|]; try done.
  inversion Ev as [? ? ? Hn ?|? ? _ Hl|]; subst; [by destruct (Hn raw' items)|]. destruct items as [|v items]; [injection Es as <- <-; constructor|].
  apply fmap_Some in Es as (cs' & Ec & [= -> ->]). apply Forall_take. eapply set_cells_kept; [|exact Hl|exact Ec]. constructor.
Qed.
End kept.

Lemma values_sound name ms : Forall (λ m, escapes_whole m.1 = true ∧ sound m.2) ms → Forall sound (values name ms).
Proof.
  intros H. unfold values. apply Forall_fmap, List.Forall_forall. intros m Hm%filter_In. destruct Hm as [Hm _].
  rewrite List.Forall_forall in H. by apply H.
Qed.

Lemma set_text_kept s v x : valid s → sound v → set_text s v = Some x → valid x.
Proof.
  intros Hs Hv. unfold set_text, set_string. destruct v; try done; [by intros [= <-]|]. intros [= <-].
  inversion Hv as [? _ Hb| |]; subst. by apply Unquote_valid, Hb.
Qed.

Lemma set_raw_kept t v x : is_json t → sound v → set_raw t v = Some x → is_json x.
Proof. intros _ Hv [= <-]. right. by apply sound_text. Qed.

Lemma set_map_kept (m : gmap string string) v x :
  map_Forall (λ k v, valid k ∧ valid v) m → sound v → set_map (set_text EmptyString) m v = Some x → map_Forall (λ k v, valid k ∧ valid v) x.
Proof.
  intros Hm Hv. unfold set_map. destruct v as [| | | | |raw ms]; try done; [intros [= <-]; apply map_Forall_empty|].
  inversion Hv as [? ? ? ? Hn| |? ? _ Hms]; subst; [by destruct (Hn raw ms)|]. clear Hv. revert m Hm. induction Hms as [|[k v] ms [Hk Hv] _ IH]; intros m Hm; cbn [fold_left].
  - by intros [= <-].
  - cbn [mbind option_bind fst snd]. destruct (set_text EmptyString v) as [t|] eqn:E; cbn [mbind option_bind].
    + apply IH, map_Forall_insert_2; [|done]. split; [by apply Unquote_valid|]. eapply (set_text_kept EmptyString); [reflexivity|exact Hv|exact E].
    + assert (Hnone : ∀ l, fold_left (λ (o : option (gmap string string)) (kv : bytes * Json.json), m ← o; x ← set_text EmptyString kv.2; Some (<[Unquote kv.1 := x]> m)) l None = None) by (intros l; by induction l).
      by rewrite Hnone.
Qed.

Lemma fill_item_kept p ms q : wf_pip p → Forall (λ m, escapes_whole m.1 = true ∧ sound m.2) ms → fill_item p ms = Some q → wf_pip q.
Proof.
  intros [Hr Ht Ha Hq] Hms. unfold texts in Ht. decompose_Forall_hyps. unfold fill_item. intros E.
  repeat (apply bind_Some in E as (? & ?E & E)). apply (inj Some) in E as <-.
  assert (Htext : ∀ name s x, valid s → set_all set_text s (values name ms) = Some x → valid x)
    by (intros nm a0 z0 Hs; apply (set_all_kept valid set_text set_text_kept); [done|by apply values_sound]).
  assert (Hraw : ∀ name s x, is_json s → set_all set_raw s (values name ms) = Some x → is_json x)
    by (intros nm a0 z0 Hs; apply (set_all_kept is_json set_raw set_raw_kept); [done|by apply values_sound]).
  assert (Hmap : ∀ name m x, map_Forall (λ k v, valid k ∧ valid v) m → set_all (set_map (set_text EmptyString)) m (values name ms) = Some x → map_Forall (λ k v, valid k ∧ valid v) x)
    by (intros nm a0 z0 Hm; apply (set_all_kept _ _ set_map_kept); [done|by apply values_sound]).
  constructor; cbn [DefaultValue Headers Body Response texts Name PipType URL HTTPMethod Header Claim BeanName Domain Type_ JsonPath RequestAttributes Query];
    repeat apply Forall_cons_2; try apply Forall_nil_2; eauto.
Qed.

Lemma no_item_wf : wf_pip no_item.
Proof. constructor; try apply map_Forall_empty; repeat apply Forall_cons_2; try apply Forall_nil_2; try by left. all: reflexivity. Qed.

Lemma set_item_kept p v q : wf_pip p → sound v → set_struct fill_item p v = Some q → wf_pip q.
Proof.
  intros Hp Hv. unfold set_struct. destruct v as [| | | | |raw ms]; try done; [by intros [= <-]|].
  inversion Hv as [? ? ? ? Hn| |? ? _ Hms]; subst; [by destruct (Hn raw ms)|]. by apply fill_item_kept.
Qed.

(** The points of an upload are valid. *)
Lemma decoded_wf raw items : decode_items raw = Some (Some items) → Forall wf_pip items.
Proof. exact (decode_list_kept wf_pip _ set_item_kept no_item no_item_wf raw items). Qed.

(** ** The state file *)

(** [persistedState] as [json.Marshal] writes it. *)
Definition encode_state_file (revision : Z) (policiesHash pipsHash updatedAt : string) : bytes :=
  AnyValue.write_object
    [("schemaVersion", FormatInt 1); ("revision", FormatInt revision); ("policiesHash", marshal_string policiesHash);
     ("pipsHash", marshal_string pipsHash); ("updatedAt", marshal_string updatedAt)]%string.

Definition decode_state_file (raw : bytes) : option Z :=
  ms ← struct_members raw;
  _ ← typed set_int 0%Z "schemaVersion" ms;
  revision ← set_all set_int 0%Z (values "revision" ms);
  _ ← typed_text "policiesHash" ms;
  _ ← typed_text "pipsHash" ms;
  _ ← typed_text "updatedAt" ms;
  Some revision.

(** A scalar that is read wherever it stands. *)
Definition scalar (t : bytes) (j : Json.json) : Prop :=
  Json.opens t ∧ ∀ f d r, Json.stops r → Json.value (S f) d (t ++ r) = Some (j, r).

Lemma string_scalar s : scalar (marshal_string s) (Json.JStr (marshal_body (bytes_of s))).
Proof. split; [apply AnyValue.opens_quote|]. intros f d r _. apply value_marshal. Qed.

Lemma pretty_head x s : (0 < x)%N → ∃ c t, bytes_of (pretty_N_go x s) = c :: t ∧ c ≠ "0"%char.
Proof.
  revert s. induction (N.lt_wf_0 x) as [x _ IH]; intros s Hx. rewrite pretty_N_go_step by lia. destruct (decide (x / 10 = 0)%N) as [E|E].
  - rewrite E. eexists _, _. split; [reflexivity|]. intros H. apply N.div_small_iff in E; [|done]. rewrite N.mod_small in H by done.
    pose proof (pretty_char_value x E) as Hv. rewrite H in Hv. cbn in Hv. lia.
  - apply IH; [by apply N.div_lt|by apply N.neq_0_lt_0].
Qed.

Lemma pretty_scanned (n : N) : Json.scan_integer (bytes_of (pretty n)) = Some (bytes_of (pretty n), []).
Proof.
  destruct (decide (n = 0)%N) as [->|Hn]; [reflexivity|]. destruct (pretty_N_text n) as (_ & Hd & _).
  destruct (pretty_head n "" ltac:(lia)) as (c & t & E & Hc). assert (E' : bytes_of (pretty n) = c :: t) by (unfold pretty, pretty_N; by rewrite decide_False).
  unfold Json.scan_integer. rewrite E' in Hd |- *. cbn [Json.expect]. rewrite (proj2 (eqb_false _ _)) by done.
  unfold Json.digits. rewrite <-(app_nil_r (c :: t)) at 1. by rewrite (span_spec is_digit (c :: t) [] Hd) by done.
Qed.

Lemma FormatInt_scanned z : Json.scan_number (FormatInt z) = Some (FormatInt z, []).
Proof.
  unfold FormatInt, Json.scan_number. destruct (z <? 0)%Z.
  - cbn [Json.expect]. change (eqb "-"%char "-"%char) with true. cbn iota. rewrite pretty_scanned. cbn. by rewrite app_nil_r.
  - destruct (pretty_N_text (Z.to_N z)) as (Hne & Hd & _). destruct (bytes_of (pretty (Z.to_N z))) as [|c t] eqn:E; [done|].
    cbn [Json.expect]. rewrite (proj2 (eqb_false _ _)) by (apply Forall_cons in Hd as [Hd _]; by intros ->).
    rewrite <-E, pretty_scanned. cbn. by rewrite app_nil_r.
Qed.

Lemma number_scalar z : scalar (FormatInt z) (Json.JNum (FormatInt z)).
Proof.
  pose proof (Json.scan_number_reads _ _ _ (FormatInt_scanned z)) as (_ & (c & t & Ec & Hs) & H).
  split; [by eapply Json.opens_number|]. intros f d r Hr. specialize (H r (Json.stops_delimited _ Hr)). rewrite Ec in H |- *.
  cbn [app Json.value] in *.
  assert (Hn : ∀ x, x ∈ [Json.quote; "["; "{"; "n"; "t"; "f"]%char → eqb c x = false).
  { intros x Hx. apply eqb_false. intros ->. destruct Hs as [->|Hs]; repeat (apply elem_of_cons in Hx as [Hx|Hx]; [by subst|]); by apply elem_of_nil in Hx. }
  rewrite !Hn by (rewrite !elem_of_cons; tauto). by rewrite H.
Qed.

Lemma scalar_members_read ts js :
  Forall2 (λ t j, scalar t.2 j) ts js → ts ≠ [] →
  Json.opens (Json.joined [","%char] (map AnyValue.write_member ts))
  ∧ ∀ f d r, length ts < f →
      Json.fields f d (Json.joined [","%char] (map AnyValue.write_member ts) ++ "}"%char :: r) = Some (zip ((λ t, AnyValue.plain_body (bytes_of t.1)) <$> ts) js, r).
Proof.
  assert (Hw : ∀ kv, Json.opens (AnyValue.write_member kv)) by (intros kv; apply AnyValue.opens_quote).
  assert (Hm : ∀ k t s, AnyValue.write_member (k, t) ++ s = Json.quote :: AnyValue.plain_body (bytes_of k) ++ Json.quote :: ":"%char :: t ++ s).
  { intros k t s. unfold AnyValue.write_member, AnyValue.plain_string. cbn [app]. by rewrite <-!(assoc_L (++)). }
  intros H. induction H as [|[k t] j ts js [Ho Ht] H IH]; [done|]. cbn [snd] in *. intros _.
  assert (Hhead : ∀ f d s, Json.stops s → 0 < f → Json.fields (S f) d (AnyValue.write_member (k, t) ++ s)
    = match Json.expect "}" (Json.skip s) with
      | Some rest => Some ([(AnyValue.plain_body (bytes_of k), j)], rest)
      | None => rest ← Json.expect "," (Json.skip s); '(ms, rest) ← Json.fields f d (Json.skip rest); Some ((AnyValue.plain_body (bytes_of k), j) :: ms, rest)
      end).
  { intros f d s Hs Hf. destruct f as [|f]; [lia|]. cbn [Json.fields]. rewrite Hm, Json.expect_cons. cbn [mbind option_bind].
    rewrite AnyValue.scan_plain. cbn [mbind option_bind]. rewrite Json.skip_cons, Json.expect_cons by done. cbn [mbind option_bind].
    rewrite (Json.opens_skip (t ++ _)) by by apply Json.opens_app. by rewrite Ht. }
  destruct ts as [|t2 ts].
  - apply Forall2_nil_inv_l in H as ->. split; [apply Hw|]. intros [|f] d r Hf; [lia|]. cbn [map Json.joined]. rewrite Hhead; [|by right; right; left|cbn in Hf; lia].
    by rewrite Json.skip_cons, Json.expect_cons by done.
  - destruct (IH ltac:(done)) as [Ho2 H2]. cbn [map]. rewrite Json.joined_cons by done. split; [apply Json.opens_app, Hw|].
    intros [|f] d r Hf; [lia|]. rewrite <-!(assoc_L (++)). cbn [app]. rewrite Hhead; [|by left|cbn in Hf; lia].
    rewrite Json.skip_cons, Json.expect_other, Json.expect_cons by done. cbn [mbind option_bind].
    change (AnyValue.write_member t2 :: map AnyValue.write_member ts) with (map AnyValue.write_member (t2 :: ts)).
    rewrite (Json.opens_skip (_ ++ _)) by by apply Json.opens_app. rewrite H2 by (cbn in *; lia). done.
Qed.

Lemma joined_length ts : length ts ≤ length (Json.joined [","%char] (map AnyValue.write_member ts)).
Proof.
  induction ts as [|t ts IH]; [done|]. cbn [map]. assert (Ht : 1 ≤ length (AnyValue.write_member t)) by (cbn; lia).
  destruct ts as [|t2 ts]; [cbn [length Json.joined map]; lia|]. rewrite Json.joined_cons by done. rewrite !length_app. cbn [length map] in *. lia.
Qed.

Lemma object_members_read ts js :
  Forall2 (λ t j, scalar t.2 j) ts js → ts ≠ [] →
  struct_members (AnyValue.write_object ts) = Some (zip ((λ t, AnyValue.plain_body (bytes_of t.1)) <$> ts) js).
Proof.
  intros H Hne. destruct (scalar_members_read ts js H Hne) as [Ho Hf]. unfold struct_members, Json.parse, AnyValue.write_object.
  rewrite Json.skip_cons by done. pose proof (joined_length ts) as Hj. set (t := Json.joined _ _ ++ _).
  assert (Hlen : length ts < S (2 * length ("{"%char :: t))).
  { unfold t. cbn [length]. rewrite length_app. lia. }
  assert (Ho' : Json.opens t) by by apply Json.opens_app. specialize (Hf (S (2 * length ("{"%char :: t))) 9999 [] Hlen). fold t in Hf. clearbody t.
  change (2 + 2 * length ("{"%char :: t)) with (S (S (2 * length ("{"%char :: t)))). change Json.maxNestingDepth with 10000.
  change (Json.value (S ?f) 10000 ?s) with (Json.value (S f) (S 9999) s). cbn [Json.value].
  change (eqb "{"%char Json.quote) with false. change (eqb "{"%char "["%char) with false. change (eqb "{"%char "{"%char) with true. cbn iota.
  rewrite (Json.opens_skip t Ho'), (Json.opens_expect t "}"%char Ho') by auto. by rewrite Hf.
Qed.

Lemma Atoi_FormatInt z : in_int64 z → Atoi (FormatInt z) = Some z.
Proof.
  intros Hz. destruct (FormatInt_digits z) as (ds & Hne & Hd & Hv & E). unfold in_int64 in Hz. rewrite E. unfold Atoi.
  assert (Hall : all is_digit ds = true) by (apply forallb_forall; by apply List.Forall_forall).
  destruct (z <? 0)%Z eqn:Ez.
  - apply Z.ltb_lt in Ez. rewrite (proj2 (is_nil_false ds) Hne), Hall. cbn [negb orb]. rewrite Hv.
    replace (- Z.abs z)%Z with z by lia. by rewrite (proj2 (Z.leb_le _ _)), (proj2 (Z.ltb_lt _ _)) by lia.
  - apply Z.ltb_ge in Ez. pose proof (Decimal.Atoi_written false ds Hd Hne ltac:(lia) [] ltac:(by left)) as H. cbn [app] in H. unfold Atoi in H.
    rewrite H. f_equal. lia.
Qed.

Lemma set_int_range vs : ∀ a x, in_int64 a → set_all set_int a vs = Some x → in_int64 x.
Proof.
  induction vs as [|v vs IH]; intros a x Ha; unfold set_all; cbn [fold_left]; [by intros [= <-]|]. cbn [mbind option_bind].
  destruct (set_int a v) as [y|] eqn:E.
  - apply IH. destruct v; try done; cbn in E; [by injection E as <-|by apply Pips.Atoi_range in E].
  - assert (Hn : fold_left (λ o v, f ← o; set_int f v) vs None = None) by (clear; by induction vs). by rewrite Hn.
Qed.

(** The fields of the state file. *)
Definition state_keys : list string := ["schemaVersion"; "revision"; "policiesHash"; "pipsHash"; "updatedAt"].

Lemma state_values j1 j2 j3 j4 j5 :
  let ms := zip ((λ k, AnyValue.plain_body (bytes_of k)) <$> state_keys) [j1; j2; j3; j4; j5] in
  values "schemaVersion" ms = [j1] ∧ values "revision" ms = [j2] ∧ values "policiesHash" ms = [j3]
  ∧ values "pipsHash" ms = [j4] ∧ values "updatedAt" ms = [j5].
Proof. split_and!; vm_compute; reflexivity. Qed.

(** ** The store of the stub *)

Section codec.
Context {policy : Type} (decode_policy_list : bytes → option (option (list policy))) (hash_policy_list : list policy → string).
Variable hash_pip_list : list simplifiedPIP → string.

(** The interface of the store, with the points and the state file of the stub; how policies are
    decoded, and the hashes, stay parameters. *)
#[local] Instance admin_codec : Codec policy simplifiedPIP := {|
  decode_policies := decode_policy_list;
  decode_pips := decode_items;
  hash_policies := hash_policy_list;
  hash_pips := hash_pip_list;
  encode_state := encode_state_file;
  decode_state := decode_state_file;
|}.

(** The state file of the stub keeps the law the store asks for: the revision is read back, and
    it is an [int]. *)
Lemma admin_state_file : StateFile admin_codec.
Proof.
  split.
  - intros rev h h' t Hrev. cbn [encode_state decode_state admin_codec]. unfold encode_state_file, decode_state_file.
    rewrite (object_members_read _ [Json.JNum (FormatInt 1); Json.JNum (FormatInt rev); Json.JStr (marshal_body (bytes_of h));
      Json.JStr (marshal_body (bytes_of h')); Json.JStr (marshal_body (bytes_of t))]);
      [|repeat (apply List.Forall2_cons; [first [apply number_scalar|apply string_scalar]|]); constructor|done].
    match goal with |- context [zip ?ks ?js] => change ks with ((λ k, AnyValue.plain_body (bytes_of k)) <$> state_keys) end. set (ms := zip _ _).
    destruct (state_values (Json.JNum (FormatInt 1)) (Json.JNum (FormatInt rev)) (Json.JStr (marshal_body (bytes_of h)))
      (Json.JStr (marshal_body (bytes_of h'))) (Json.JStr (marshal_body (bytes_of t)))) as (E1 & E2 & E3 & E4 & E5). fold ms in E1, E2, E3, E4, E5.
    cbn [mbind option_bind]. unfold typed_text, typed. rewrite E1, E2, E3, E4, E5. unfold set_all. cbn [fold_left mbind option_bind set_int].
    assert (H1 : in_int64 1) by (unfold in_int64; lia). by rewrite (Atoi_FormatInt 1 H1), (Atoi_FormatInt rev Hrev).
  - intros raw rev. cbn [decode_state admin_codec]. unfold decode_state_file. intros E.
    apply bind_Some in E as (ms & _ & E). apply bind_Some in E as (? & _ & E). apply bind_Some in E as (z & Ex & E).
    apply bind_Some in E as (? & _ & E). apply bind_Some in E as (? & _ & E). apply bind_Some in E as (? & _ & E). injection E as <-.
    eapply set_int_range; [|exact Ex]. unfold in_int64. lia.
Qed.
#[local] Existing Instance admin_state_file.

(** ** From an upload to the agent *)

Definition pips_wf (m : gmap string (list simplifiedPIP)) : Prop := map_Forall (λ _ l, Forall wf_pip l) m.

Lemma decoded_items_wf raw items : decode_items raw = Some items → Forall wf_pip (normalize items).
Proof. destruct items as [items|]; [apply decoded_wf|]. intros _. constructor. Qed.

Lemma load_wf fs : pips_wf (load pipsFilePrefix decode_items fs).
Proof.
  unfold load. assert (H0 : pips_wf ∅) by apply map_Forall_empty. revert H0. generalize (∅ : gmap string (list simplifiedPIP)).
  induction (sort_strings _) as [|name l IH]; intros m Hm; [done|]. cbn [fold_left]. apply IH.
  destruct (domain_of pipsFilePrefix name) as [d|]; [|done]. destruct (fs !! name ≫= decode_items) as [items|] eqn:E; [|done].
  apply bind_Some in E as (raw & _ & E). apply map_Forall_insert_2; [|done]. by eapply decoded_items_wf.
Qed.

Lemma newStore_wf dir : pips_wf (pips (newStore dir)).
Proof. destruct dir as [fs|]; [apply (load_wf fs)|apply map_Forall_empty]. Qed.

Lemma serve_wf r s fs : consistent s → pips_wf (pips s) → pips_wf (pips (serve r s fs).1.2).
Proof.
  intros Hs Hp. destruct r as [w d body|w d body]; cbn [serve].
  - unfold handlePutDomainPolicies. destruct (negb _); [done|]. generalize (take maxBodyBytes body) as raw. intros raw. destruct (decode_policies _) as [items|]; [|done].
    pose proof (SetDomainPolicies_spec w d items raw s fs Hs) as H.
    destruct (SetDomainPolicies _ _ _ _ _ _) as [[[[]|] s'] fs']; [by destruct H as [-> _]|by destruct H as [-> _]|]. destruct H as (-> & _). exact Hp.
  - unfold handlePutDomainPIPs. destruct (negb _); [done|]. generalize (take maxBodyBytes body) as raw. intros raw. destruct (decode_pips _) as [items|] eqn:E; [|done].
    pose proof (SetDomainPIPs_spec w d items raw s fs Hs) as H.
    destruct (SetDomainPIPs _ _ _ _ _ _) as [[[[]|] s'] fs']; [by destruct H as [-> _]|by destruct H as [-> _]|]. destruct H as (-> & _).
    apply map_Forall_insert_2; [|done]. by eapply decoded_items_wf.
Qed.

Lemma run_wf rs : ∀ s fs, consistent s → pips_wf (pips s) → pips_wf (pips (run rs s fs).1).
Proof.
  induction rs as [|r rs IH]; intros s fs Hs Hp; [done|]. cbn [run]. pose proof (serve_wf r s fs Hs Hp) as H. pose proof (serve_consistent r s fs Hs) as H2.
  destruct (serve r s fs) as [[a s'] fs']. by apply IH.
Qed.

Lemma merged_wf m : pips_wf m → Forall wf_pip (merged m).
Proof.
  intros Hm. unfold merged. apply Forall_bind, Forall_forall. intros d _. cbn [compose].
  destruct (m !! d) as [l|] eqn:E; [by apply (Hm d)|constructor].
Qed.

Context {floats : AcconfigPips.FloatText}.

(** C14: what is uploaded is what the agent works with. Whatever bodies were uploaded, whatever the
    directory held at the start and whichever writes failed, the export endpoint serves the
    points as they are stored, and when none of their raw fields is nested deeper than the
    three levels of the response leave of the scanner's limit, they reach the agent through the
    JSON of the response: all of those it can use, in their order, each with its texts, its
    attributes and the JSON of its raw fields. With one raw field nested
    deeper, as an upload may hold it since it leaves one level more, the agent reads no point
    of the response. *)
Theorem uploads_arrive rs dir fs auth hash items :
  handleV3PIPs auth (run rs (newStore dir) fs).1 = ExportPIPs hash items →
  items = merged (pips (run rs (newStore dir) fs).1)
  ∧ if forallb has_room items then
      ∃ ws, mapM wire_pip (toV3PIPs items) = Some ws
        ∧ AcconfigPips.convertPIPs ws = obtained <$> List.filter (λ p, negb (left_out p)) items
    else mapM wire_pip (toV3PIPs items) = None.
Proof.
  unfold handleV3PIPs. destruct (eqb auth _); [done|]. intros [= _ <-]. split; [done|]. apply pips_exported, merged_wf, run_wf; [apply newStore_consistent|apply newStore_wf].
Qed.
End codec.

(** An upload whose second point is of a type that is left out. *)
Definition example_body : bytes :=
  AnyValue.quoting "[{^name^:^subject.orders^,^pipType^:^GENERAL^,^URL^:^http://orders^,^requestAttributes^:{^user^:^a\u003cb^},^body^:{ ^x^: 1 }}, {^name^:^subject.scope^,^pipType^:^PERMISSION_SCOPE^}]".

Lemma uploads_arrive_witness :
  let codec := admin_codec (λ _ : bytes, None) (λ _ : list unit, EmptyString) (λ _, EmptyString) in
  let s := (run (codec := codec) [PutPIPs (IO true true EmptyString) "OSS" example_body] (newStore (codec := codec) None) ∅).1 in
  ∃ ws, mapM wire_pip (toV3PIPs (merged (pips s))) = Some ws
    ∧ Pips.Name <$> AcconfigPips.convertPIPs (floats := no_floats) ws = ["subject.orders"%string].
Proof.
  cbn zeta. set (codec := admin_codec _ _ _). set (s := (run _ _ _).1).
  destruct (uploads_arrive (floats := no_floats) (λ _ : bytes, None) (λ _ : list unit, EmptyString) (λ _, EmptyString)
    [PutPIPs (IO true true EmptyString) "OSS" example_body] None ∅ "Bearer x" (pipsHash s) (merged (pips s)) eq_refl) as [_ H].
  assert (Hroom : forallb has_room (merged (pips s)) = true) by (vm_compute; reflexivity). rewrite Hroom in H. destruct H as (ws & H1 & H2).
  exists ws. split; [exact H1|]. rewrite H2. vm_compute. reflexivity.
Defined.

End AdminUpload.
